(* ===== verification/_CoqProject ===== *)
-Q . S2P
Prelude.v
Search.v
Protocol.v
Text.v
RateWindow.v
GatewayRate.v
PayloadBuffer.v
SseDecoder.v
Epoch.v
Circuit.v
Upstream.v
Health.v
Attempt.v
Admission.v
CredentialRuntime.v
Candidates.v
TierCursor.v
Queue.v
RouteHealth.v
Selection.v
Waiting.v
RetryBudget.v
Retry.v
AffinityStore.v
Affinity.v
Lifecycle.v
OAuthErrors.v
Entities.v
Cost.v
Exchange.v
Stream.v
RawJson.v
JsonCodec.v
JsonValue.v
ChatTools.v
ChatResponse.v
ChatStream.v
ChatClient.v
ChatRequest.v
ChatHistory.v
ChatBridge.v
ChatBudget.v
ChatTurns.v
Registry.v
Catalog.v
Routes.v
OAuthLogin.v
OAuthRefresh.v
Drivers.v
Compile.v
Building.v
SettingKeys.v
Settings.v
Planning.v
Mutations.v
Tables.v
Storage.v
Persistence.v
KeyUsage.v
Readback.v
Publishing.v
