(* ===== verification/Prelude.v ===== *)
(** * any2api, verified

    any2api is a gateway: a client calls one public API, and the gateway sends
    the request to one of many upstream providers, under one of many
    credentials, over one of many proxies.  This library models the data plane,
    which decides who serves a request, how often it may be tried, what every
    failure does to the runtimes involved and how the answer is carried back; and
    the control plane under it: the configuration, how it is stored, changed,
    compiled and published, and how OAuth accounts come into it and stay usable.
    The sources are the Rust crates under [src/crates/]; the names of
    definitions are those of the source where Rocq allows it.

    ** The parts, and where they are modelled

    Shared ground:

    - [Prelude] (this file): panics ([outcome]), Rust's [Result], machine
      integers as [Z] with their checks, saturation and wrap-around written out,
      instants and durations, and the lemmas and tactics the components share.
    - [Search]: the order of names and the binary search of the standard library.
    - [Protocol] ([domain/src/kind.rs], [protocol/src/error.rs]): dialects,
      operations and protocol errors.
    - [Text] ([domain/src/telemetry/] and the [str] methods used): characters of
      UTF-8 text, trimming, and the bounding of messages.

    The data plane:

    - [RateWindow] ([runtime/src/credential/runtime/rate_window.rs],
      [domain/src/credential/rate_limit.rs]): the sliding minute of a
      credential; reservations, rollback, the instant a slot comes free.
    - [GatewayRate] ([runtime/src/gateway_api_key/rate_limit.rs]): the same for
      the API keys of clients, with the registry that survives a change of
      configuration.
    - [PayloadBuffer] ([payload-buffer/src/buffer.rs]): the growable buffer that
      moves from the heap to anonymous mappings.
    - [SseDecoder] ([protocol/src/sse/decoder.rs] and the pump of
      [runtime/src/public_request/stream/frame_pipeline.rs]): the incremental
      decoder of server-sent events, proved against the interface of a buffer
      (a type class) that [PayloadBuffer] implements.
    - [Epoch] ([runtime/src/routing/epoch.rs], [epoch/schedule.rs]): the counter
      waiters watch, and the schedule of wake-ups.
    - [Circuit] ([runtime/src/health/circuit.rs], [policy.rs]), [Health]
      ([runtime/src/health/runtime/]), [Attempt] ([attempt.rs] there), [Registry]
      ([health/registry.rs], [path.rs], [credential/runtime/generation.rs]):
      circuit breakers, the health of endpoints, proxies and credentials, how one
      attempt settles all of it, and which runtimes survive a configuration.
    - [Upstream] ([domain/src/upstream_error.rs], [retry_safety.rs],
      [error.rs]): classification of errors.
    - [Admission] ([runtime/src/routing/admission.rs]): routes that may still
      start attempts.
    - [CredentialRuntime] ([runtime/src/credential/runtime/handle.rs],
      [binding.rs], [metrics.rs]): permits, requests in flight, fixed waiters.
    - [Candidates] ([runtime/src/routing/candidates/identity.rs]): what a
      request remembers of the candidates that failed it.
    - [TierCursor] ([runtime/src/routing/tier_cursor.rs]) and [Queue]
      ([runtime/src/routing/queue.rs], [SelectionWaitState]): round-robin
      cursors and the bounded queue of waiting requests.
    - [RouteHealth] ([runtime/src/routing/candidates/route.rs]), [Selection] and
      [Waiting] ([runtime/src/public_request/selection/]): taking everything a
      candidate needs, scanning tiers for one, and waiting for one.
    - [RetryBudget] and [Retry] ([runtime/src/public_request/retry.rs],
      [retry/], [execution_limits.rs]): the retry engine of a request.
    - [AffinityStore] and [Affinity] ([runtime/src/affinity/]): the table that
      binds sessions and continuations to a target, its leases and its
      capacities.
    - [Exchange] ([protocol/src/api/exchange.rs]) and [Stream]
      ([runtime/src/public_request/stream/]): a streamed answer through the
      adapters of its dialects, its budget before the commit, its settlement.
    - [RawJson] and [JsonCodec] ([protocol/src/raw_json.rs], [json_codec.rs]):
      request bodies that are cut up and edited without being parsed whole.
    - The bridge from the Responses API to Chat Completions
      ([protocol/src/openai_responses_chat/]): [JsonValue] (values of
      [serde_json], as trees with sorted fields), [ChatTools]
      ([tool_projection/]: the names tools are offered under), [ChatRequest]
      ([request/]: requests and their history), [ChatResponse] ([response.rs],
      [response/]: whole answers), [ChatStream] ([stream/]: streamed answers) and
      [ChatBridge] ([bridge.rs], [continuation.rs]: sessions and continuations,
      an instance of the session class of [Exchange]).  [ChatHistory] (the
      conversations that are sent), [ChatClient] (the events a client sees),
      [ChatBudget] (what a stream reserves against what it keeps) and [ChatTurns]
      (one turn after the other) hold the facts about them.
    - [Lifecycle] ([runtime/src/lifecycle/process.rs] and the shutdown of
      [app/any2api/]): the phases of the process, as atomic accesses of all
      threads interleaved.

    The control plane:

    - [Entities], [Catalog], [Routes] ([domain/src/]): proxies, endpoints,
      credentials, accounts, gateway keys and model routes with their versions,
      the configurations made of them, and the routes derived from credentials.
    - [Cost], [SettingKeys], [Settings] ([domain/src/settings/],
      [telemetry/quota_cost.rs]): settings, their overrides and what they
      compile to.
    - [Mutations], [Tables], [Storage] ([crates/storage/src/]): the change a
      mutation prepares, the tables and how they are loaded, the statements a
      mutation sends and the transaction around them; [Persistence] and
      [Readback] hold the facts about them.  [KeyUsage]
      ([storage/src/gateway_api_key/usage.rs]): the last use of gateway keys,
      which the telemetry worker writes beside the publications.
    - [Drivers] ([provider/src/registry.rs], [api/], [oauth/]), [Compile]
      ([runtime/src/routing/credential/], [credential/auth.rs]), [Building]
      ([runtime/src/routing/candidates/]), [Planning]
      ([runtime/src/public_request/planning.rs], [configuration/snapshot/]):
      from a stored configuration to the candidates of a request.
    - [Publishing] ([runtime/src/configuration/]): the store of the published
      snapshot and the publisher.
    - [OAuthErrors], [OAuthLogin], [OAuthRefresh] ([runtime/src/oauth/]): login
      sessions, device polling, and refreshing tokens one at a time.

    ** How they interact

    A request is planned against the published snapshot ([Planning], over the
    candidates of [Building]) and runs [Retry.run].  Each turn asks the selection
    for a candidate ([Selection], [Waiting]), which walks the tiers in the order of
    the cursors, skips what [Candidates] excludes or defers, asks the health
    runtimes, and reserves a slot of the credential's window; [RouteHealth] takes
    one permit of every runtime or none.  The attempt starts only if its route is
    still admitted ([Admission], [CredentialRuntime.try_start_attempt]); its outcome
    settles the permits ([Attempt]) and decides, with the budget and the class of
    the error, whether the request is tried again.  Every change that can make a
    candidate available advances the scheduler epoch, or schedules a wake-up that
    will ([Epoch]).  Requests of one session share a target through [Affinity].
    Streams come back through [Stream], over [SseDecoder] and [PayloadBuffer];
    where the upstream speaks another dialect, a session of [ChatBridge] turns the
    request and the answer around and keeps the conversation for the next turn.

    An operator's command, an activation or a refresh of OAuth tokens is a mutation:
    [Publishing.publish_mutation] runs it in a transaction ([Storage.transact]),
    whose candidate is checked and compiled before the commit, then binds it to
    the registries ([Planning.bind_snapshot]: [Registry], [TierCursor],
    [GatewayRate], [Admission]) and replaces the snapshot requests are planned
    against.

    ** What the theorems show

    - Retries: within every run of the engine the attempts, switches and repeats
      stay inside the budget and each attempt is registered first; a request is
      sent again only if the failure allows it; headers once passed on stay; and
      the error the client sees is what the last attempt answered, or, when the
      last attempt ran out of time here, what the one before it answered.
    - Selection: the scan takes the first candidate in its order that may be
      taken, says why it passed over each other one, and leaks nothing; tiers
      are tried in order; the cursor rotates; a request waits exactly when it may
      and the queue has a place, and waits end by their deadline; a bound request
      returns the slot it holds.
    - Limits: no more requests than the limit in any minute, exact ledgers of
      permits and waiters, exact rollback, exact retry instants.
    - Health: bounded probes of half-open circuits, an open circuit always has a
      wake-up, blame falls only where a failure is attributed, availability is
      exactly the absence of blocks; runtimes are private to their configuration.
    - Scheduling: the schedule refines a finite map, racing advances publish the
      newest epoch, a withdrawn route stays withdrawn.
    - Affinity: exact accounting of both capacities, one owner for every binding
      under creation, sessions that stick, continuations that come back.
    - Streams: decoding does not depend on how the bytes are cut, loses no byte
      and terminates; a stream settles what it holds once, never stalls, and is
      handed over exactly when its prefix allows it; the buffer refines a list of
      bytes; JSON bodies survive decoding and encoding, and the session of a
      request is the one its first source names.
    - The bridge: a converted conversation has the output of every tool call in
      its place, over any number of turns, and no index or [expect] of the
      assembler fails; a client that checks the events of a translated stream
      finds them numbered, announced, added up and closed as they must be; the
      serialized conversation with its answer fits into what a stream reserved for
      it, so that a complete answer can always be kept; calls survive the renaming
      of their tools.
    - Lifecycle: once drained the process stays drained, and a request for
      reclamation is not lost.
    - Configuration: versions identify what entities say; derived routes, compiled
      credentials and built candidates are exactly those the configuration asks
      for, the conditions being stated over the configuration and not by the
      guards of the code; a planned request finds cursors and health prepared,
      shared as long as later publications keep its paths; settings compile
      exactly when they are consistent.
    - Storage and publishing: a transaction writes exactly the promised change or
      nothing; what is published is what is stored, after any sequence of
      publications and of uses of keys, but for the last uses recorded since;
      a command that was prepared against a configuration another operator has
      changed since is refused.
    - OAuth: a login session leaves the store exactly when it is used up or found
      expired, and then for good; tokens of an account are refreshed by
      one caller at a time and waiters back off after a failure.

    ** Conventions, bounds and fuel

    Locks make the operations of one object atomic, so an operation is one step;
    histories of operations are step relations or lists of operations, and
    invariants are proved for every reachable state.  Shared objects ([Arc]) live
    in stores and are named by references.  Readings of the clock, the answers of
    awaited calls, allocation results, statements the database refuses and the
    iteration order of hash maps are arguments; hypotheses say that the clock does
    not run backwards.  Instants are integers counted from the start of the clock,
    with the range checks of the calls that make them.  Counters keep their width;
    theorems that a call returns ask for room ([headroom], [store_ok]) in the
    64-bit and 32-bit counters it increments, and every such bound is a number of
    steps, far below what a process can make.  Loops are structural wherever the
    source's bound is a list.  Fuel is proved to be enough: for
    [SseDecoder.process_buffered_frame] two turns (one to push a chunk, one to take
    the frame or ask for more), for its drain the length of the input and two, for
    [Epoch.remove_due] the number of deadlines, for the loops of [Stream] the bytes
    that are held, the cost of what the upstream still answers and three, for the
    binary search of [Search] the length of the slice.  The retry engine and the
    waiting loops consume a finite list of answers, as long as one pleases.
    Third-party code (SQLite, [serde_json], [url], [ipnet], [sha2], [uuid],
    Unicode case mapping) is a parameter, with what is relied on of it as
    hypotheses or laws of a class; every such class has an instance.

    A few steps are coarser than the code.  Atomic accesses are sequentially
    consistent.  One reading of the clock serves a step that reads it under a
    lock after it was entered, a scan of one credential, and a building of
    candidates.  The registries of health are reconciled in one step, as
    publications are serialized.  Writing a row under a key that is there
    overwrites it, where SQLite would refuse: mutations are prepared so that it
    does not happen.  Panics that no input reaches (a constant status code, an
    instant past the end of the clock in a rate window) are left out where no
    theorem speaks of them.

    ** What is not modelled

    Input and output over libraries: sockets, TLS, DNS and proxies
    ([crates/transport]), HTTP handlers and sessions of administrators
    ([crates/server]), queries over the log tables and migrations (the rest of
    [crates/storage]), the updater, the platform allocator, the process bootstrap
    and the log files.  The request shapes and error texts of each provider
    ([crates/provider]) are tables of constants over JSON.  Of the dialects in
    [crates/protocol] the adapters (the telemetry they read and the SSE events they
    parse) and the bridge for images are behind the classes of [Exchange].
    Recording of telemetry is a log the retry engine lists, of whose storage only
    the last use of gateway keys is modelled ([KeyUsage]); OAuth quotas are polled
    and shown, and only their effect on health is modelled ([Health]).  Requests that run between the
    steps of one selection are not interleaved with it. *)

From stdpp Require Export list gmap sets strings sorting.
From Stdlib Require Export ZArith Lia.

Local Open Scope Z_scope.

(** * Panics and results *)

(** A Rust call either returns or panics.  [Panic] is what a failed [expect],
    an out-of-range index or an [unreachable!] does; the theorems that a
    component does not panic are stated with it. *)
Inductive outcome (A : Type) : Type :=
| Ret (a : A)
| Panic.
Arguments Ret {A} a.
Arguments Panic {A}.

(** Rust's [Result]. *)
Inductive result (A E : Type) : Type :=
| Ok (a : A)
| Err (e : E).
Arguments Ok {A E} a.
Arguments Err {A E} e.

#[global] Instance outcome_ret : MRet outcome := fun A a => Ret a.
#[global] Instance outcome_bind : MBind outcome := fun A B f m =>
  match m with Ret a => f a | Panic => Panic end.
#[global] Instance outcome_fmap : FMap outcome := fun A B f m =>
  match m with Ret a => Ret (f a) | Panic => Panic end.

(** [Option::expect]. *)
Definition expect {A} (o : option A) : outcome A :=
  match o with Some a => Ret a | None => Panic end.

(** [slice[i]]: panics out of range. *)
Definition index {A} (l : list A) (i : nat) : outcome A := expect (l !! i).

Definition is_ok {A E} (r : result A E) : bool :=
  match r with Ok _ => true | Err _ => false end.

Definition map_err {A E F} (f : E -> F) (r : result A E) : result A F :=
  match r with Ok a => Ok a | Err e => Err (f e) end.

(** * Machine integers, as [Z] with their range *)

Definition u16_max : Z := 2 ^ 16 - 1.
Definition u32_max : Z := 2 ^ 32 - 1.
Definition u64_max : Z := 2 ^ 64 - 1.
(** The supported targets are 64-bit. *)
Definition usize_max : Z := 2 ^ 64 - 1.

Definition checked_add (max a b : Z) : option Z :=
  if a + b <=? max then Some (a + b) else None.
Definition checked_sub (a b : Z) : option Z :=
  if b <=? a then Some (a - b) else None.
Definition saturating_add (max a b : Z) : Z := Z.min max (a + b).
Definition saturating_sub (a b : Z) : Z := Z.max 0 (a - b).
Definition saturating_mul (max a b : Z) : Z := Z.min max (a * b).
Definition wrapping_add_u64 (a b : Z) : Z := (a + b) mod 2 ^ 64.

(** * Time *)

(** An [Instant] counts nanoseconds from the earliest instant the clock can
    represent; a [Duration] counts nanoseconds. *)
Abbreviation Instant := Z (only parsing).
Abbreviation Duration := Z (only parsing).

Definition secs (n : Z) : Duration := n * 1000000000.
Definition millis (n : Z) : Duration := n * 1000000.
Definition duration_max : Duration := u64_max * 1000000000 + 999999999.
(** [std::time::Instant] keeps its seconds in an [i64]. *)
Definition instant_max : Instant := (2 ^ 63 - 1) * 1000000000 + 999999999.

Definition instant_checked_sub (t : Instant) (d : Duration) : option Instant :=
  checked_sub t d.
Definition instant_checked_add (t : Instant) (d : Duration) : option Instant :=
  checked_add instant_max t d.
Definition saturating_duration_since (later earlier : Instant) : Duration :=
  Z.max 0 (later - earlier).

(** * Lists *)

Definition Zlen {A} (l : list A) : Z := Z.of_nat (length l).

(** [while front.is_some_and(p) { pop_front() }]. *)
Fixpoint drop_while {A} (p : A -> bool) (l : list A) : list A :=
  match l with
  | [] => []
  | x :: l' => if p x then drop_while p l' else l
  end.

(** The queue of a sliding window of length [w]: the front is popped while it
    started at or before [now - w], and nothing is popped when [now - w] is not
    an instant.  [time] reads the instant of an entry. *)
Definition expire_front {A} (time : A -> Instant) (w : Duration) (now : Instant)
    (l : list A) : list A :=
  drop_while (fun r => match instant_checked_sub now w with
                       | Some cutoff => time r <=? cutoff
                       | None => false
                       end) l.

(** The earliest and the latest of two optional instants. *)
Definition opt_min (a b : option Z) : option Z :=
  match a, b with
  | Some x, Some y => Some (Z.min x y)
  | Some x, None => Some x
  | None, o => o
  end.
Definition opt_max (a b : option Z) : option Z :=
  match a, b with
  | Some x, Some y => Some (Z.max x y)
  | Some x, None => Some x
  | None, o => o
  end.

(** * Automation *)

Create HintDb any2api.

(** Turns the boolean comparisons of the code into propositions. *)
Ltac bool_to_prop :=
  repeat match goal with
  | H : _ && _ = true |- _ => apply andb_true_iff in H; destruct H
  | H : _ || _ = false |- _ => apply orb_false_iff in H; destruct H
  | H : _ && _ = false |- _ => apply andb_false_iff in H
  | H : _ || _ = true |- _ => apply orb_true_iff in H
  | H : negb _ = true |- _ => apply negb_true_iff in H
  | H : negb _ = false |- _ => apply negb_false_iff in H
  | H : (_ <=? _) = true |- _ => apply Z.leb_le in H
  | H : (_ <=? _) = false |- _ => apply Z.leb_gt in H
  | H : (_ <? _) = true |- _ => apply Z.ltb_lt in H
  | H : (_ <? _) = false |- _ => apply Z.ltb_ge in H
  | H : (_ =? _) = true |- _ => apply Z.eqb_eq in H
  | H : (_ =? _) = false |- _ => apply Z.eqb_neq in H
  end.

(** Case analysis on the next [if] or [match] of the goal or of a hypothesis,
    keeping the equation. *)
Ltac case_step :=
  match goal with
  | |- context [match ?e with _ => _ end] => destruct e eqn:?
  | H : context [match ?e with _ => _ end] |- _ => destruct e eqn:?
  end.

Ltac solve_cases := intros; repeat (case_step; simplify_eq/=; bool_to_prop); try lia.

Section drop_while.
Context {A : Type} (p : A -> bool).

Lemma drop_while_suffix l : exists k, l = k ++ drop_while p l.
Proof.
  induction l as [|x l [k IH]]; simpl; [by exists []|].
  destruct (p x); [|by exists []]. exists (x :: k). simpl. by f_equal.
Qed.

Lemma drop_while_length l : (length (drop_while p l) <= length l)%nat.
Proof. destruct (drop_while_suffix l) as [k E]. rewrite E at 2. rewrite length_app. lia. Qed.

Lemma drop_while_subseteq l x : x ∈ drop_while p l -> x ∈ l.
Proof. destruct (drop_while_suffix l) as [k E]. intros H. rewrite E. set_solver. Qed.

Lemma drop_while_sublist l : drop_while p l `sublist_of` l.
Proof. destruct (drop_while_suffix l) as [k E]. rewrite E at 2. by apply sublist_inserts_l. Qed.

(** On a list where the predicate can only turn from true to false,
    [drop_while] keeps exactly the elements that fail it. *)
Lemma drop_while_filter (R : A -> A -> Prop) l :
  (forall x y, R x y -> p x = false -> p y = false) ->
  StronglySorted R l ->
  drop_while p l = filter (fun x => p x = false) l.
Proof.
  intros HR. induction 1 as [|x l Hl IH Hx]; [done|]. cbn [drop_while].
  destruct (p x) eqn:Ex.
  - rewrite filter_cons_False; [apply IH | congruence].
  - rewrite filter_cons_True; [|done]. f_equal. symmetry.
    clear IH Hl. induction Hx as [|y l Hy Hl IH]; [done|].
    rewrite filter_cons_True; [by f_equal|]. eauto.
Qed.
End drop_while.

Lemma filter_all {A} (P : A -> Prop) `{!forall x, Decision (P x)} l :
  Forall P l -> filter P l = l.
Proof. induction 1; [done|]. rewrite filter_cons_True; [by f_equal|done]. Qed.

Lemma filter_none {A} (P : A -> Prop) `{!forall x, Decision (P x)} l :
  Forall (fun x => ~ P x) l -> filter P l = [].
Proof. induction 1; [done|]. by rewrite filter_cons_False. Qed.

Lemma filter_length_mono {A} (P Q : A -> Prop)
    `{!forall x, Decision (P x), !forall x, Decision (Q x)} l :
  (forall x, x ∈ l -> P x -> Q x) -> (length (filter P l) <= length (filter Q l))%nat.
Proof.
  induction l as [|x l IH]; intros HPQ; [done|].
  assert (length (filter P l) <= length (filter Q l))%nat by (apply IH; set_solver).
  rewrite !filter_cons. pose proof (HPQ x). repeat case_decide; simpl; try lia. set_solver.
Qed.

Lemma filter_ext_Forall {A} (P Q : A -> Prop)
    `{!forall x, Decision (P x), !forall x, Decision (Q x)} l :
  Forall (fun x => P x <-> Q x) l -> filter P l = filter Q l.
Proof.
  induction 1 as [|x l Hx _ IH]; [done|]. rewrite !filter_cons, IH.
  repeat case_decide; tauto.
Qed.

Lemma StronglySorted_snoc {A} (R : A -> A -> Prop) l x :
  StronglySorted R l -> Forall (fun y => R y x) l -> StronglySorted R (l ++ [x]).
Proof.
  induction 1 as [|y l Hl IH Hy]; intros Hx; simpl; [repeat constructor|].
  apply Forall_cons in Hx as [Hyx Hx]. constructor; [auto|].
  apply Forall_app. auto.
Qed.

Lemma Forall_sublist {A} (P : A -> Prop) k l :
  k `sublist_of` l -> Forall P l -> Forall P k.
Proof.
  rewrite !Forall_forall. intros Hs HP x Hx. apply HP. by apply (sublist_subseteq k l).
Qed.

Lemma StronglySorted_sublist {A} (R : A -> A -> Prop) k l :
  k `sublist_of` l -> StronglySorted R l -> StronglySorted R k.
Proof.
  induction 1 as [|x k l Hs IH|x k l Hs IH]; [done| |]; intros HS;
    apply StronglySorted_inv in HS as [Hl Hx]; [|auto].
  constructor; [auto|]. eapply Forall_sublist; eauto.
Qed.

(** * Step relations *)

(** What holds at the start and survives every step holds wherever the steps
    lead. *)
Lemma rtc_invariant {A} (R : relation A) (P : A -> Prop) x y :
  (forall a b, R a b -> P a -> P b) -> rtc R x y -> P x -> P y.
Proof. intros HR. induction 1; eauto. Qed.

(** * Sliding windows *)

Section sliding.
Context {A : Type} (time : A -> Instant) (w : Duration).

Definition in_window (now : Instant) (x : A) : Prop := now - w < time x.

#[global] Instance in_window_dec now x : Decision (in_window now x).
Proof. unfold in_window. apply _. Defined.

Context (now now' : Instant) (l : list A).
Context (Hsorted : StronglySorted (fun a b => time a <= time b) l).
Context (Hpast : Forall (fun r => 0 <= time r <= now) l) (Hle : now <= now').

Lemma expire_front_split :
  exists k, l = k ++ expire_front time w now' l /\
    Forall (fun r => ~ in_window now' r) k /\ Forall (in_window now') (expire_front time w now' l).
Proof using All.
  unfold expire_front, instant_checked_sub, checked_sub.
  destruct (w <=? now') eqn:E; bool_to_prop.
  - clear Hpast. induction l as [|x l' IH]; cbn [drop_while]; [by exists []|].
    apply StronglySorted_inv in Hsorted as [Hs Hx].
    destruct (time x <=? now' - w) eqn:Ex; bool_to_prop.
    + destruct (IH Hs) as (k & E1 & Hk & Hl). exists (x :: k). simpl.
      split; [by f_equal|]. split; [|done]. constructor; [unfold in_window; lia|done].
    + exists []. split; [done|]. split; [done|]. constructor; [unfold in_window; lia|].
      eapply Forall_impl; [exact Hx|]. unfold in_window. intros ??. simpl in *. lia.
  - exists []. replace (drop_while _ l) with l; cycle 1.
    { clear. induction l; simpl; congruence. }
    split; [done|]. split; [done|]. eapply Forall_impl; [exact Hpast|].
    unfold in_window. intros ??. simpl in *. lia.
Qed.

Lemma expire_front_filter : expire_front time w now' l = filter (in_window now') l.
Proof using All.
  destruct expire_front_split as (k & E & Hk & Hl).
  rewrite E at 2. rewrite filter_app, (filter_none _ k Hk), filter_all; done.
Qed.

(** With at least [n] entries, the window at [now'] still holds [n] of them
    exactly while the [n]-th entry from the end has not left it. *)
Lemma expire_front_still_full (n : nat) (r : A) :
  (0 < n)%nat -> (n <= length l)%nat -> l !! (length l - n)%nat = Some r ->
  (n <= length (expire_front time w now' l))%nat <-> now' < time r + w.
Proof using All.
  intros Hn Hnl Hr. destruct expire_front_split as (k & E & Hk & Hl).
  set (s := expire_front time w now' l) in *. assert (length l = length k + length s)%nat as Hlen
    by (rewrite E, length_app; done).
  rewrite E, lookup_app in Hr. destruct (k !! _) eqn:Ek; simplify_eq.
  - pose proof (lookup_lt_Some _ _ _ Ek). rewrite <- E in *.
    rewrite Forall_lookup in Hk. apply Hk in Ek. unfold in_window in Ek. split; lia.
  - apply lookup_ge_None in Ek. rewrite <- E in *. rewrite Forall_lookup in Hl.
    apply Hl in Hr. unfold in_window in Hr. split; lia.
Qed.
End sliding.

Lemma expire_front_sublist {A} (time : A -> Instant) w now l :
  expire_front time w now l `sublist_of` l.
Proof. apply drop_while_sublist. Qed.

#[export] Hint Resolve drop_while_length drop_while_subseteq expire_front_sublist : any2api.
