(* ===== verification/Search.v ===== *)
(** * Sorted slices: the order of strings, binary search, duplicates

    What the components use of [slice::sort], [slice::binary_search_by] and
    [slice::windows]. Strings are compared byte by byte, as [str] is. *)
From Stdlib Require Import OrdersEx.
From S2P Require Import Prelude.

(** * The order of strings *)

Definition name_lt (a b : string) : Prop := String.compare a b = Lt.

Lemma compare_as_OT a b : String.compare a b = String_as_OT.compare a b.
Proof. revert b. induction a as [|c a IH]; intros [|d b]; simpl; [done..|]. by rewrite IH. Qed.

#[export] Instance name_lt_strict : StrictOrder name_lt.
Proof.
  unfold name_lt. split.
  - intros a. unfold complement. rewrite compare_as_OT. apply String_as_OT.lt_strorder.
  - intros a b c. rewrite !compare_as_OT. apply String_as_OT.lt_strorder.
Qed.

Lemma compare_refl a : String.compare a a = Eq.
Proof.
  pose proof (String.compare_antisym a a) as E. pose proof (irreflexivity name_lt a) as Hi.
  unfold complement, name_lt in Hi. by destruct (String.compare a a).
Qed.
Lemma compare_gt a b : String.compare a b = Gt <-> name_lt b a.
Proof. unfold name_lt. rewrite String.compare_antisym. by destruct (String.compare b a). Qed.

Lemma leb_spec a b : String.leb a b = true <-> name_lt a b \/ a = b.
Proof.
  unfold String.leb, name_lt. destruct (String.compare a b) eqn:E.
  - apply String.compare_eq_iff in E. tauto.
  - tauto.
  - split; [done|]. intros [?| ->]; [done|]. by rewrite compare_refl in E.
Qed.
Lemma leb_false a b : String.leb a b = false <-> name_lt b a.
Proof. unfold String.leb. rewrite <- compare_gt. by destruct (String.compare a b). Qed.

Lemma name_lt_ne a b : name_lt a b -> a <> b.
Proof. intros H ->. by apply (irreflexivity name_lt b). Qed.

(** [Ord for str] as a total order *)
Definition name_le (a b : string) : Prop := String.leb a b = true.
#[export] Instance name_le_dec : RelDecision name_le.
Proof. intros a b. unfold name_le. apply _. Defined.
#[export] Instance name_le_total : Total name_le.
Proof.
  intros a b. unfold name_le. destruct (String.leb a b) eqn:E; [by left|right].
  apply leb_false in E. apply leb_spec. by left.
Qed.
#[export] Instance name_le_trans : Transitive name_le.
Proof.
  intros a b c. unfold name_le. rewrite !leb_spec. intros [H1| ->] [H2| ->]; auto.
  left. by etrans.
Qed.
#[export] Instance name_le_antisym : AntiSymm eq name_le.
Proof.
  intros a b. unfold name_le. rewrite !leb_spec. intros [H1|?] [H2|?]; try done.
  exfalso. apply (irreflexivity name_lt a). by etrans.
Qed.

(** * Binary search *)

Section search.
Context {A : Type} (cmp : A -> comparison).

(** The loop of [slice::binary_search_by]: [size] elements from [base] are left,
    and [fuel] turns. *)
Fixpoint search_loop (fuel : nat) (l : list A) (base size : nat) : nat :=
  match fuel with
  | O => base
  | S fuel =>
      if (size <=? 1)%nat then base
      else
        let half := (size / 2)%nat in
        let mid := (base + half)%nat in
        let base := match l !! mid with
                    | Some x => match cmp x with Gt => base | _ => mid end
                    | None => base
                    end in
        search_loop fuel l base (size - half)
  end.

(** [slice::binary_search_by], with the index of a match *)
Definition binary_search_by (l : list A) : option nat :=
  let base := search_loop (length l) l 0 (length l) in
  match l !! base with
  | Some x => match cmp x with Eq => Some base | _ => None end
  | None => None
  end.

(** The slice is sorted for the comparison: first what is less, then what is
    equal, then what is greater. *)
Definition search_sorted (l : list A) : Prop := forall i j x y, (i < j)%nat ->
  l !! i = Some x -> l !! j = Some y -> (cmp y <> Gt -> cmp x <> Gt) /\ (cmp x = Eq -> cmp y <> Lt).

Definition at_most (l : list A) (i : nat) : Prop := exists x, l !! i = Some x /\ cmp x <> Gt.

Lemma at_most_down l i j : search_sorted l -> (i < j)%nat -> at_most l j -> at_most l i.
Proof.
  intros Hs Hij (y & Hy & Hc). destruct (lookup_lt_is_Some_2 l i) as [x Hx].
  { apply lookup_lt_Some in Hy. lia. }
  exists x. split; [done|]. by apply (proj1 (Hs _ _ _ _ Hij Hx Hy)).
Qed.

Lemma search_loop_spec fuel l base size :
  search_sorted l -> (size <= S fuel)%nat -> (base + size <= length l)%nat -> (0 < size)%nat ->
  (base = 0%nat \/ at_most l base) ->
  (forall i, (base + size <= i)%nat -> ~ at_most l i) ->
  let k := search_loop fuel l base size in
  (k < length l)%nat /\ (k = 0%nat \/ at_most l k) /\
  forall i, (k < i)%nat -> ~ at_most l i.
Proof.
  intros Hs. revert base size. induction fuel as [|fuel IH]; intros base size Hsz Hlen Hpos Hb Hup;
    cbn [search_loop]; cbv zeta.
  { assert (size = 1%nat) as -> by lia. split_and!; [lia|done|]. intros i Hi. apply Hup. lia. }
  destruct (size <=? 1)%nat eqn:E; [apply Nat.leb_le in E|apply Nat.leb_gt in E].
  { split_and!; [lia|done|]. intros i Hi. apply Hup. lia. }
  assert (0 < size / 2 < size)%nat as Hhalf
    by (split; [apply Nat.div_str_pos; lia|apply Nat.div_lt; lia]).
  destruct (lookup_lt_is_Some_2 l (base + size / 2)) as [x Hx]; [lia|]. rewrite Hx.
  destruct (cmp x) eqn:Ec.
  all: apply IH; [lia|lia|lia| |].
  1, 3: right; exists x; split; [done|by rewrite Ec].
  1, 2: intros i Hi; apply Hup; lia.
  - done.
  - intros i Hi Hat.
    assert (at_most l (base + size / 2)) as (y & Hy & Hne).
    { destruct (decide (i = base + size / 2)%nat) as [<-|]; [done|].
      pose proof (Nat.div_mod_eq size 2). eapply (at_most_down _ _ i); [done| |done]. lia. }
    rewrite Hx in Hy. injection Hy as <-. by rewrite Ec in Hne.
Qed.

Lemma binary_search_Some l k : binary_search_by l = Some k ->
  exists x, l !! k = Some x /\ cmp x = Eq.
Proof. unfold binary_search_by. repeat case_match; intros; simplify_eq. by eauto. Qed.

(** In a sorted slice the search finds an equal element when there is one. *)
Lemma binary_search_found l j x : search_sorted l -> l !! j = Some x -> cmp x = Eq ->
  is_Some (binary_search_by l).
Proof.
  intros Hs Hj Hx. pose proof (lookup_lt_Some _ _ _ Hj) as Hlt.
  destruct (search_loop_spec (length l) l 0 (length l)) as (Hk & Hat & Hup); try done; [lia|lia|by left| |].
  { intros i Hi (y & Hy & _). apply lookup_lt_Some in Hy. lia. }
  unfold binary_search_by. set (k := search_loop _ _ _ _) in *.
  destruct (lookup_lt_is_Some_2 l k Hk) as [y Hy]. rewrite Hy.
  assert (at_most l j) as Hjat by (exists x; by rewrite Hx).
  destruct (decide (k < j)%nat) as [Hkj|Hjk]; [by destruct (Hup j Hkj)|].
  destruct (decide (j = k)) as [->|Hne]; [rewrite Hy in Hj; simplify_eq; rewrite Hx; by eauto|].
  destruct (Hs j k x y ltac:(lia) Hj Hy) as [_ Hnl]. specialize (Hnl Hx).
  destruct Hat as [?|(z & Hz & Hg)]; [lia|]. rewrite Hy in Hz. simplify_eq.
  destruct (cmp z); [by eauto|done|done].
Qed.
End search.

(** * Neighbours *)

(** [windows(2).any(|pair| key(pair[0]) == key(pair[1]))] *)
Fixpoint adjacent_equal {A B} `{EqDecision B} (key : A -> B) (l : list A) : bool :=
  match l with
  | x :: ((y :: _) as l') => bool_decide (key x = key y) || adjacent_equal key l'
  | _ => false
  end.

(** In a list sorted by its keys, duplicates are neighbours. *)
Lemma adjacent_equal_NoDup {A B} `{EqDecision B} (key : A -> B) (R : relation B) (l : list A) :
  AntiSymm eq R -> StronglySorted (fun x y => R (key x) (key y)) l ->
  adjacent_equal key l = false <-> NoDup (key <$> l).
Proof.
  intros Hanti. induction 1 as [|x l Hl IH Hx]; [split; [constructor|done]|].
  destruct l as [|y l]; [split; [intros; apply NoDup_singleton|done]|].
  change (adjacent_equal key (x :: y :: l))
    with (bool_decide (key x = key y) || adjacent_equal key (y :: l)).
  rewrite orb_false_iff, bool_decide_eq_false, IH, (fmap_cons key x), NoDup_cons.
  split; [|intros [Hn ?]; split; [|done]; intros E; apply Hn; rewrite E; simpl; by left].
  intros [Hne Hnd]. split; [|done]. intros Hin. apply list_elem_of_fmap in Hin as (z & Ez & Hz).
  apply elem_of_cons in Hz as [->|Hz]; [done|]. apply Hne. apply Hanti.
  - apply Forall_cons in Hx as [? _]. done.
  - apply StronglySorted_inv in Hl as [_ Hy]. rewrite Forall_forall in Hy. rewrite Ez. by apply Hy.
Qed.

(** * Sorting *)

(** Sorting twice is sorting once. *)
Lemma merge_sort_sorted {A} (R : relation A) `{!RelDecision R, !Transitive R, !AntiSymm eq R, !Total R} l :
  StronglySorted R l -> merge_sort R l = l.
Proof.
  intros Hl. apply (StronglySorted_unique R); [|done|apply merge_sort_Permutation].
  apply StronglySorted_merge_sort; [done|apply _].
Qed.
Lemma merge_sort_strong {A} (R : relation A) `{!RelDecision R, !Transitive R, !Total R} l :
  StronglySorted R (merge_sort R l).
Proof. apply StronglySorted_merge_sort; [done|apply _]. Qed.

(** A list of names has no duplicate when its sorted copy has none. *)
Lemma sorted_names_NoDup (l : list string) :
  adjacent_equal id (merge_sort name_le l) = false <-> NoDup l.
Proof.
  rewrite (adjacent_equal_NoDup id name_le _ _ (merge_sort_strong name_le l)), list_fmap_id.
  by rewrite (merge_sort_Permutation name_le l).
Qed.

Lemma StronglySorted_lookup {A} (R : relation A) l i j x y : StronglySorted R l -> (i < j)%nat ->
  l !! i = Some x -> l !! j = Some y -> R x y.
Proof.
  intros Hs. revert i j. induction Hs as [|z l Hs IH Hz]; intros [|i] [|j] Hij; simpl; try done; try lia.
  - intros [= ->] Hy. rewrite Forall_lookup in Hz. eauto.
  - intros ??. apply (IH i j); [lia|done..].
Qed.

(** A slice sorted by a name can be searched for a name. *)
Lemma sorted_by_name {A} (key : A -> string) (name : string) l :
  StronglySorted (fun a b => name_le (key a) (key b)) l ->
  search_sorted (fun a => String.compare (key a) name) l.
Proof.
  intros Hs i j x y Hij Hx Hy. pose proof (StronglySorted_lookup _ _ _ _ _ _ Hs Hij Hx Hy) as Hle.
  simpl in Hle. unfold name_le in Hle. apply leb_spec in Hle. split.
  - rewrite !compare_gt. intros Hn Hgt. apply Hn. destruct Hle as [?|<-]; [by etrans|done].
  - intros Hc Hl. apply String.compare_eq_iff in Hc. rewrite Hc in Hle.
    destruct Hle as [Hlt|E]; [apply (irreflexivity name_lt name); by etrans|].
    rewrite <- E, compare_refl in Hl. done.
Qed.

Lemma search_by_name {A} (key : A -> string) (name : string) l :
  StronglySorted (fun a b => name_le (key a) (key b)) l ->
  is_Some (binary_search_by (fun a => String.compare (key a) name) l) <-> name ∈ key <$> l.
Proof.
  intros Hs. rewrite list_elem_of_fmap. split.
  - intros [k Hk]. apply binary_search_Some in Hk as (x & Hx & Hc). exists x.
    apply String.compare_eq_iff in Hc. split; [done|by eapply list_elem_of_lookup_2].
  - intros (x & -> & Hx). apply list_elem_of_lookup in Hx as [j Hj].
    eapply binary_search_found; [by apply sorted_by_name|done|apply compare_refl].
Qed.

(** No two elements share a key. *)
Lemma NoDup_fmap_elem {A} (f : A -> Z) (l : list A) x y :
  NoDup (f <$> l) -> x ∈ l -> y ∈ l -> f x = f y -> x = y.
Proof.
  intros Hd Hx Hy Hf. apply list_elem_of_lookup in Hx as [i Hi].
  apply list_elem_of_lookup in Hy as [j Hj].
  enough (i = j) by congruence. apply (NoDup_lookup (f <$> l) i j (f x) Hd);
    rewrite list_lookup_fmap; [by rewrite Hi|rewrite Hj; simpl; by rewrite Hf].
Qed.
