(* ===== verification/Protocol.v ===== *)
(** Names of the protocol side: providers, dialects, operations
    ([crates/domain/src/kind.rs]) and the errors of protocol code
    ([crates/protocol/src/error.rs]).

    A Rust [&str] is a [string] of bytes here. *)

From Stdlib Require Import Ascii.
From stdpp Require Import pretty.
From S2P Require Import Prelude.

Local Open Scope Z_scope.

(** * Kinds *)

Inductive ProviderKind := OpenAi | Codex | Claude | Grok | Kimi.

Inductive ProtocolDialect :=
| OpenAiResponses | OpenAiChatCompletions | OpenAiImages | AnthropicMessages.

Inductive ProtocolOperation :=
| Responses
| ResponsesCompact
| AlphaSearch
| ChatCompletions
| ImagesGenerations
| ImagesEdits
| Messages
| MessagesCountTokens.

Inductive RequestBodyEncoding := Identity | Zstd.

#[export] Instance provider_kind_eq_dec : EqDecision ProviderKind.
Proof. solve_decision. Defined.
#[export] Instance dialect_eq_dec : EqDecision ProtocolDialect.
Proof. solve_decision. Defined.
#[export] Instance operation_eq_dec : EqDecision ProtocolOperation.
Proof. solve_decision. Defined.
#[export] Instance body_encoding_eq_dec : EqDecision RequestBodyEncoding.
Proof. solve_decision. Defined.

(** [ProviderKind::ALL], [ProtocolDialect::ALL], [ProtocolOperation::ALL] *)
Definition all_providers : list ProviderKind := [OpenAi; Codex; Claude; Grok; Kimi].
Definition all_dialects : list ProtocolDialect :=
  [OpenAiResponses; OpenAiChatCompletions; OpenAiImages; AnthropicMessages].
Definition all_operations : list ProtocolOperation :=
  [Responses; ResponsesCompact; AlphaSearch; ChatCompletions; ImagesGenerations; ImagesEdits;
   Messages; MessagesCountTokens].

(** [ProviderKind::as_str] *)
Definition provider_as_str (k : ProviderKind) : string :=
  match k with
  | OpenAi => "openai" | Codex => "codex" | Claude => "claude" | Grok => "grok" | Kimi => "kimi"
  end.

(** [ProviderKind::from_str] *)
Definition provider_from_str (value : string) : option ProviderKind :=
  if decide (value = "openai") then Some OpenAi
  else if decide (value = "codex") then Some Codex
  else if decide (value = "claude") then Some Claude
  else if decide (value = "grok") then Some Grok
  else if decide (value = "kimi") then Some Kimi
  else None.

(** [ProtocolDialect::as_str] *)
Definition dialect_as_str (d : ProtocolDialect) : string :=
  match d with
  | OpenAiResponses => "openai_responses"
  | OpenAiChatCompletions => "openai_chat_completions"
  | OpenAiImages => "openai_images"
  | AnthropicMessages => "anthropic_messages"
  end.

(** [ProtocolDialect::parse] *)
Definition dialect_parse (value : string) : option ProtocolDialect :=
  if decide (value = "openai_responses") then Some OpenAiResponses
  else if decide (value = "openai_chat_completions") then Some OpenAiChatCompletions
  else if decide (value = "openai_images") then Some OpenAiImages
  else if decide (value = "anthropic_messages") then Some AnthropicMessages
  else None.

(** [ProtocolOperation::as_str] *)
Definition operation_as_str (o : ProtocolOperation) : string :=
  match o with
  | Responses => "responses"
  | ResponsesCompact => "responses_compact"
  | AlphaSearch => "alpha_search"
  | ChatCompletions => "chat_completions"
  | ImagesGenerations => "images_generations"
  | ImagesEdits => "images_edits"
  | Messages => "messages"
  | MessagesCountTokens => "messages_count_tokens"
  end.

(** [ProtocolOperation::parse] *)
Definition operation_parse (value : string) : option ProtocolOperation :=
  if decide (value = "responses") then Some Responses
  else if decide (value = "responses_compact") then Some ResponsesCompact
  else if decide (value = "alpha_search") then Some AlphaSearch
  else if decide (value = "chat_completions") then Some ChatCompletions
  else if decide (value = "images_generations") then Some ImagesGenerations
  else if decide (value = "images_edits") then Some ImagesEdits
  else if decide (value = "messages") then Some Messages
  else if decide (value = "messages_count_tokens") then Some MessagesCountTokens
  else None.

(** [ProtocolOperation::dialect] *)
Definition operation_dialect (o : ProtocolOperation) : ProtocolDialect :=
  match o with
  | Responses | ResponsesCompact | AlphaSearch => OpenAiResponses
  | ChatCompletions => OpenAiChatCompletions
  | ImagesGenerations | ImagesEdits => OpenAiImages
  | Messages | MessagesCountTokens => AnthropicMessages
  end.

(** [ProtocolOperation::allows_stream] *)
Definition allows_stream (o : ProtocolOperation) : bool :=
  match o with
  | Responses | ChatCompletions | ImagesGenerations | ImagesEdits | Messages => true
  | ResponsesCompact | AlphaSearch | MessagesCountTokens => false
  end.

Definition operation_index (o : ProtocolOperation) : nat :=
  match o with
  | Responses => 0 | ResponsesCompact => 1 | AlphaSearch => 2 | ChatCompletions => 3
  | ImagesGenerations => 4 | ImagesEdits => 5 | Messages => 6 | MessagesCountTokens => 7
  end%nat.

#[export] Instance operation_countable : Countable ProtocolOperation.
Proof. apply (inj_countable operation_index (fun n => all_operations !! n)). by intros []. Defined.

(** * Errors *)

(** [ProtocolError]; two names that other errors share carry a prefix. *)
Inductive ProtocolError :=
| DuplicateDialect (dialect : ProtocolDialect)
| DuplicateBridge (ingress upstream : ProtocolDialect)
| Unsupported (operation : string)
| BridgeSessionBindingLost
| BridgeContinuationTooLarge (bytes max_bytes : Z)
| Internal (message : string)
| InvalidPayload (message : string).

Definition dialect_debug (d : ProtocolDialect) : string :=
  match d with
  | OpenAiResponses => "OpenAiResponses"
  | OpenAiChatCompletions => "OpenAiChatCompletions"
  | OpenAiImages => "OpenAiImages"
  | AnthropicMessages => "AnthropicMessages"
  end.

(** The [Display] of a [ProtocolError]; the [Debug] names of dialects and the
    decimal form of numbers come from the compiler. *)
Definition protocol_error_text (e : ProtocolError) : string :=
  match e with
  | DuplicateDialect d => "protocol adapter already registered for " +:+ dialect_debug d
  | DuplicateBridge i u =>
      "protocol bridge already registered for " +:+ dialect_debug i +:+ " -> " +:+ dialect_debug u
  | Unsupported o => "unsupported protocol operation: " +:+ o
  | BridgeSessionBindingLost => "protocol bridge session binding was lost"
  | BridgeContinuationTooLarge bytes max_bytes =>
      "protocol bridge continuation state is too large: " +:+ pretty bytes +:+ " > " +:+
      pretty max_bytes +:+ " bytes"
  | Internal m => "protocol processing failed: " +:+ m
  | InvalidPayload m => "invalid protocol payload: " +:+ m
  end.

(** The characters [diagnostic_token] lets through *)
Definition token_char (c : ascii) : bool :=
  let n := nat_of_ascii c in
  ((48 <=? n)%nat && (n <=? 57)%nat) || ((65 <=? n)%nat && (n <=? 90)%nat) ||
  ((97 <=? n)%nat && (n <=? 122)%nat) || (n =? 95)%nat || (n =? 45)%nat.

(** [diagnostic_token] *)
Definition diagnostic_token (value : string) : option string :=
  if negb (bool_decide (value = "")) && (String.length value <=? 64)%nat &&
     forallb token_char (String.list_ascii_of_string value)
  then Some value else None.

(** [ProtocolError::unsupported_field] *)
Definition unsupported_field (scope : option string) (field : string) : ProtocolError :=
  InvalidPayload
    match scope, diagnostic_token field with
    | Some scope, Some field => "unsupported field `" +:+ scope +:+ "." +:+ field +:+ "`"
    | Some scope, None => "unsupported field under `" +:+ scope +:+ "`"
    | None, Some field => "unsupported field `" +:+ field +:+ "`"
    | None, None => "request contains an unsupported field"
    end.

(** [ProtocolError::unsupported_value] *)
Definition unsupported_value (label value : string) : ProtocolError :=
  InvalidPayload
    match diagnostic_token value with
    | None => label +:+ " is unsupported"
    | Some value => label +:+ " `" +:+ value +:+ "` is unsupported"
    end.

(** * Properties *)

(** The wire names of providers, dialects and operations are a faithful
    encoding: printing a value and parsing it back gives the value, and a string
    that parses is the name of what it parses to, so no two values share a name
    and no other string is accepted. *)
Theorem kind_names_roundtrip :
  (forall k s, provider_from_str s = Some k <-> s = provider_as_str k) /\
  (forall d s, dialect_parse s = Some d <-> s = dialect_as_str d) /\
  (forall o s, operation_parse s = Some o <-> s = operation_as_str o).
Proof.
  unfold provider_from_str, dialect_parse, operation_parse.
  split_and!; intros k s; (split; [repeat case_decide; by intros [= <-]|intros ->; by destruct k]).
Qed.

(** A diagnostic echoes client text only as a short word of safe characters. *)
Lemma diagnostic_token_safe value token : diagnostic_token value = Some token ->
  token = value /\ (0 < String.length token <= 64)%nat /\
  Forall (fun c => token_char c = true) (String.list_ascii_of_string token).
Proof.
  unfold diagnostic_token. destruct (_ && _) eqn:E; [|done]. intros [= <-]. bool_to_prop.
  split; [done|]. split.
  - apply bool_decide_eq_false in H. apply Nat.leb_le in H1. destruct value; [done|]. simpl in *. lia.
  - apply Forall_forall. intros c Hc. rewrite forallb_forall in H0.
    apply H0. by apply list_elem_of_In.
Qed.
