(* ===== verification/Text.v ===== *)
(** Text: the methods of Rust's [str] the code uses, and the bounded texts made
    with them ([bound_thinking_level] and [bound_error_message] of
    [crates/domain/src/telemetry/request_log.rs], [normalize_message] of
    [crates/domain/src/upstream_error.rs]).

    A [&str] is the [string] of its UTF-8 bytes; its [char]s are the groups of a
    leading byte with the continuation bytes that follow it. *)

From Stdlib Require Import Ascii.
From S2P Require Import Prelude.

Local Open Scope Z_scope.

(** * Characters *)

Definition byte_value (c : ascii) : Z := Z.of_nat (nat_of_ascii c).

(** A byte [10xxxxxx] *)
Definition is_continuation (c : ascii) : bool := (128 <=? byte_value c) && (byte_value c <=? 191).

(** [str::chars], each character as its bytes *)
Fixpoint chars (s : string) : list string :=
  match s with
  | EmptyString => []
  | String c s =>
      match chars s with
      | String d ds :: rest =>
          if is_continuation d then String c (String d ds) :: rest
          else String c "" :: String d ds :: rest
      | rest => String c "" :: rest
      end
  end.

Definition concat_chars (l : list string) : string := foldr String.append "" l.

(** The code point of a character *)
Definition code_point (ch : string) : Z :=
  match byte_value <$> String.list_ascii_of_string ch with
  | [a] => a
  | [a; b] => (a - 192) * 64 + (b - 128)
  | [a; b; c] => (a - 224) * 4096 + (b - 128) * 64 + (c - 128)
  | [a; b; c; d] => (a - 240) * 262144 + (b - 128) * 4096 + (c - 128) * 64 + (d - 128)
  | _ => -1
  end.

Definition in_range (a b n : Z) : bool := (a <=? n) && (n <=? b).

(** [char::is_whitespace]: the Unicode property [White_Space] *)
Definition is_whitespace (ch : string) : bool :=
  let n := code_point ch in
  in_range 9 13 n || (n =? 32) || (n =? 133) || (n =? 160) || (n =? 5760) || in_range 8192 8202 n ||
  (n =? 8232) || (n =? 8233) || (n =? 8239) || (n =? 8287) || (n =? 12288).

(** [char::is_control]: the category [Cc] *)
Definition is_control (ch : string) : bool :=
  let n := code_point ch in in_range 0 31 n || in_range 127 159 n.

(** [str::trim] *)
Definition trim_end (l : list string) : list string := rev (drop_while is_whitespace (rev l)).
Definition trim_chars (l : list string) : list string := trim_end (drop_while is_whitespace l).
Definition trim (s : string) : string := concat_chars (trim_chars (chars s)).

(** [str::to_ascii_lowercase] *)
Definition ascii_lowercase (c : ascii) : ascii :=
  if in_range 65 90 (byte_value c) then ascii_of_nat (nat_of_ascii c + 32) else c.
Fixpoint to_ascii_lowercase (s : string) : string :=
  match s with
  | EmptyString => ""
  | String c s => String (ascii_lowercase c) (to_ascii_lowercase s)
  end.

(** What follows the last occurrence of [pat], as [str::rsplit_once] gives it *)
Fixpoint after_last (pat s : string) : option string :=
  match s with
  | EmptyString => None
  | String _ s' =>
      match after_last pat s' with
      | Some r => Some r
      | None => if String.prefix pat s
                then Some (String.substring (String.length pat) (String.length s) s) else None
      end
  end.

(** [String::from_utf8]: the well-formed byte sequences of the Unicode standard
    (table 3-7), and the text they are *)
Definition byte_in (a b : Z) (x : Byte.byte) : bool := in_range a b (Z.of_N (Byte.to_N x)).
Fixpoint utf8_valid (l : list Byte.byte) : bool :=
  match l with
  | [] => true
  | x :: l =>
    if byte_in 0 127 x then utf8_valid l
    else match l with
         | [] => false
         | y :: l =>
           if byte_in 194 223 x then byte_in 128 191 y && utf8_valid l
           else match l with
                | [] => false
                | z :: l =>
                  if byte_in 224 239 x
                  then byte_in (if byte_in 224 224 x then 160 else 128)
                         (if byte_in 237 237 x then 159 else 191) y &&
                       byte_in 128 191 z && utf8_valid l
                  else match l with
                       | [] => false
                       | u :: l =>
                         byte_in 240 244 x &&
                         byte_in (if byte_in 240 240 x then 144 else 128)
                           (if byte_in 244 244 x then 143 else 191) y &&
                         byte_in 128 191 z && byte_in 128 191 u && utf8_valid l
                       end
                end
         end
  end.
Definition from_utf8 (l : list Byte.byte) : option string :=
  if utf8_valid l then Some (String.string_of_list_byte l) else None.

(** A text made of whole characters *)
Definition continuations (c : ascii) : nat :=
  let n := byte_value c in if n <? 192 then 0 else if n <? 224 then 1 else if n <? 240 then 2 else 3.
Definition well_formed (ch : string) : Prop :=
  exists c s, ch = String c s /\ is_continuation c = false /\
    Forall (fun d => is_continuation d = true) (String.list_ascii_of_string s) /\
    String.length s = continuations c.

(** The bytes of a [&str] *)
Definition utf8 (s : string) : Prop := Forall well_formed (chars s).

Lemma string_app_assoc a b c : (a +:+ b) +:+ c = a +:+ b +:+ c.
Proof. induction a as [|x a IH]; [done|]. exact (f_equal (String x) IH). Qed.
Lemma string_length_app a b : String.length (a +:+ b) = (String.length a + String.length b)%nat.
Proof. induction a as [|x a IH]; [done|]. exact (f_equal S IH). Qed.
Lemma string_app_nil_r a : a +:+ "" = a.
Proof. induction a as [|x a IH]; [done|]. exact (f_equal (String x) IH). Qed.

Lemma concat_chars_chars s : concat_chars (chars s) = s.
Proof.
  induction s as [|c s IH]; [done|]. cbn [chars]. destruct (chars s) as [|[|d ds] rest].
  - simpl in *. by rewrite <- IH.
  - simpl in *. by rewrite <- IH.
  - destruct (is_continuation d); simpl in *; by rewrite <- IH.
Qed.

Lemma chars_continuations s t :
  Forall (fun d => is_continuation d = true) (String.list_ascii_of_string s) ->
  (t = [] \/ exists d ds rest, t = String d ds :: rest /\ is_continuation d = false) ->
  forall r, chars r = t -> forall c, chars (String c (s +:+ r)) = String c s :: t.
Proof.
  intros Hs Ht r Hr. induction s as [|d s IH]; intros c.
  - change ("" +:+ r) with r. cbn [chars]. rewrite Hr. destruct Ht as [->|(d & ds & rest & -> & Hd)]; [done|].
    by rewrite Hd.
  - simpl in Hs. apply Forall_cons in Hs as [Hd Hs]. specialize (IH Hs d).
    change (String c (String d s +:+ r)) with (String c (String d (s +:+ r))).
    remember (String d (s +:+ r)) as x. cbn [chars]. rewrite IH. by rewrite Hd.
Qed.

Lemma chars_concat l : Forall well_formed l -> chars (concat_chars l) = l.
Proof.
  induction 1 as [|ch l (c & s & -> & Hc & Hs & _) Hl IH]; [done|]. cbn [concat_chars foldr].
  fold (concat_chars l). change (String c s +:+ concat_chars l) with (String c (s +:+ concat_chars l)).
  apply chars_continuations; [done| |done]. destruct Hl as [|ch l (d & ds & -> & Hd & _) _]; [by left|].
  right. eauto.
Qed.

Lemma ascii_utf8 s : forallb (fun c => byte_value c <? 128) (String.list_ascii_of_string s) = true -> utf8 s.
Proof.
  unfold utf8. induction s as [|c s IH]; [constructor|]. cbn [String.list_ascii_of_string forallb].
  intros [Hc Hs]%andb_true_iff. specialize (IH Hs). apply Z.ltb_lt in Hc.
  assert (Hwf : well_formed (String c "")).
  { exists c, "". split; [done|]. unfold is_continuation, continuations.
    rewrite (proj2 (Z.leb_gt 128 _)), (proj2 (Z.ltb_lt _ 192)) by lia. done. }
  cbn [chars]. destruct (chars s) as [|[|d ds] rest]; [by constructor| |].
  - by constructor.
  - destruct (is_continuation d) eqn:Ed; [|by constructor].
    apply Forall_cons in IH as [(d' & s' & [= <- <-] & Hd & _) _]. congruence.
Qed.

(** A text splits before any byte that begins a character. *)
Lemma chars_app a c t : is_continuation c = false ->
  chars (a +:+ String c t) = chars a ++ chars (String c t).
Proof.
  intros Hc. induction a as [|x a IH]; [done|].
  change (String x a +:+ String c t) with (String x (a +:+ String c t)).
  cbn [chars]. fold chars. rewrite IH. destruct (chars a) as [|[|d ds] rest] eqn:Ea; simpl app.
  - cbn [chars]. destruct (chars t) as [|[|e es] r]; try (by rewrite Hc).
    destruct (is_continuation e); by rewrite Hc.
  - done.
  - cbv iota. by destruct (is_continuation d).
Qed.

Lemma utf8_suffix a c t : utf8 (a +:+ String c t) -> is_continuation c = false ->
  continuations c = 0%nat -> utf8 t.
Proof.
  unfold utf8. intros Hu Hc H0. rewrite chars_app in Hu by done. apply Forall_app in Hu as [_ Hu].
  cbn [chars] in Hu. destruct (chars t) as [|[|d ds] rest]; [constructor|by apply Forall_cons in Hu as [_ ?]|].
  destruct (is_continuation d) eqn:Ed; [|by apply Forall_cons in Hu as [_ ?]].
  apply Forall_cons in Hu as [(c' & s & E & _ & _ & Hl) _]. injection E as <- <-. simpl in Hl. lia.
Qed.

Lemma prefix_split p s : String.prefix p s = true ->
  s = p +:+ String.substring (String.length p) (String.length s) s.
Proof.
  assert (Hsub : forall s n, (String.length s <= n)%nat -> String.substring 0 n s = s).
  { intros t. induction t as [|c t IH]; intros [|n] Hn; try done; simpl in Hn; [lia|].
    cbn [String.substring]. f_equal. apply IH. lia. }
  assert (H : forall n, (String.length s <= n)%nat -> String.prefix p s = true ->
            s = p +:+ String.substring (String.length p) n s).
  { revert s. induction p as [|c p IH]; intros s n Hn Hp.
    - simpl String.length. by rewrite Hsub.
    - destruct s as [|d s]; [done|]. cbn [String.prefix] in Hp. destruct (ascii_dec c d) as [->|]; [|done].
      simpl in Hn. change (String d s = String d (p +:+ String.substring (String.length p) n s)).
      f_equal. apply IH; [lia|done]. }
  intros Hp. by apply H.
Qed.

Lemma after_last_split pat s r : after_last pat s = Some r -> exists a, s = a +:+ pat +:+ r.
Proof.
  induction s as [|c s IH]; [done|]. cbn [after_last]. destruct (after_last pat s) as [r'|].
  - intros [= ->]. destruct (IH eq_refl) as [a ->]. by exists (String c a).
  - destruct (String.prefix pat (String c s)) eqn:E; [|done]. intros [= <-]. exists "".
    by apply prefix_split in E.
Qed.

Lemma trim_end_sublist l : trim_end l `sublist_of` l.
Proof.
  unfold trim_end. rewrite <- (rev_involutive l) at 2. destruct (drop_while_suffix is_whitespace (rev l)) as [k E].
  rewrite E at 2. rewrite rev_app_distr. by apply sublist_inserts_r.
Qed.
Lemma trim_chars_sublist l : trim_chars l `sublist_of` l.
Proof. unfold trim_chars. etrans; [apply trim_end_sublist|apply drop_while_sublist]. Qed.

Lemma drop_while_head {A} (p : A -> bool) l x : head (drop_while p l) = Some x -> p x = false.
Proof. induction l as [|y l IH]; simpl; [done|]. destruct (p y) eqn:E; [done|]. by intros [= <-]. Qed.
Lemma drop_while_stop {A} (p : A -> bool) l :
  (forall x, head l = Some x -> p x = false) -> drop_while p l = l.
Proof. destruct l as [|y l]; [done|]. simpl. intros H. by rewrite H. Qed.

(** The first and the last character of a trimmed text are not blank. *)
Lemma trim_chars_ends l x :
  head (trim_chars l) = Some x \/ last (trim_chars l) = Some x -> is_whitespace x = false.
Proof.
  unfold trim_chars, trim_end. set (k := drop_while is_whitespace l).
  pose proof (drop_while_suffix is_whitespace (rev k)) as [pre E].
  set (m := drop_while is_whitespace (rev k)) in *. intros [H|H].
  - assert (Hk : head k = Some x).
    { apply (f_equal (@rev _)) in E. rewrite rev_involutive, rev_app_distr in E. rewrite E.
      by destruct (rev m). }
    by apply drop_while_head in Hk.
  - apply (drop_while_head _ (rev k)). fold m. rewrite <- (rev_involutive m). destruct (rev m) as [|y r] using rev_ind.
    + done.
    + rewrite last_snoc in H. rewrite rev_app_distr. done.
Qed.

Lemma trim_chars_idem l : trim_chars (trim_chars l) = trim_chars l.
Proof.
  unfold trim_chars at 1. rewrite (drop_while_stop _ (trim_chars l)); cycle 1.
  { intros x Hx. apply (trim_chars_ends l). by left. }
  unfold trim_end. rewrite drop_while_stop; [apply rev_involutive|].
  intros x Hx. apply (trim_chars_ends l). right.
  destruct (trim_chars l) as [|y r] using rev_ind; [done|]. rewrite rev_app_distr in Hx. simpl in Hx.
  by rewrite last_snoc.
Qed.

Lemma chars_trim s : utf8 s -> chars (trim s) = trim_chars (chars s).
Proof.
  intros Hs. apply chars_concat. eapply Forall_sublist; [apply trim_chars_sublist|done].
Qed.
Lemma utf8_trim s : utf8 s -> utf8 (trim s).
Proof.
  intros Hs. unfold utf8. rewrite chars_trim by done.
  eapply Forall_sublist; [apply trim_chars_sublist|done].
Qed.
Lemma trim_idem s : utf8 s -> trim (trim s) = trim s.
Proof. intros Hs. unfold trim at 1. by rewrite chars_trim, trim_chars_idem. Qed.

(** * Bounded texts *)

Definition MAX_REQUEST_LOG_ERROR_MESSAGE_CHARS : nat := 1024.
Definition MAX_REQUEST_LOG_THINKING_LEVEL_CHARS : nat := 64.
Definition MAX_UPSTREAM_ERROR_MESSAGE_BYTES : nat := Z.to_nat (16 * 1024).

(** The loop of [bound_thinking_level] *)
Fixpoint bound_level_loop (cs bounded : list string) : list string :=
  match cs with
  | [] => bounded
  | c :: cs =>
      if is_control c then bound_level_loop cs bounded
      else if (MAX_REQUEST_LOG_THINKING_LEVEL_CHARS <=? length bounded)%nat then bounded
      else bound_level_loop cs (bounded ++ [c])
  end.

(** [bound_thinking_level] *)
Definition bound_thinking_level (value : string) : option string :=
  let trimmed := trim value in
  if bool_decide (trimmed = "") then None
  else
    let bounded := trim (concat_chars (bound_level_loop (chars trimmed) [])) in
    if bool_decide (bounded = "") then None else Some bounded.

(** The loop of [bound_error_message]: what it pushed, its [char_count], and
    whether it stopped early *)
Fixpoint bound_message_loop (cs bounded : list string) (char_count : nat) (pending_space : bool)
    : list string * nat * bool :=
  match cs with
  | [] => (bounded, char_count, false)
  | c :: cs =>
      if is_whitespace c || is_control c
      then bound_message_loop cs bounded char_count (negb (bool_decide (bounded = [])))
      else
        let full := (char_count =? MAX_REQUEST_LOG_ERROR_MESSAGE_CHARS)%nat in
        if pending_space && full then (bounded, char_count, true)
        else
          let '(bounded, char_count) :=
            if pending_space then (bounded ++ [" "], S char_count) else (bounded, char_count) in
          if (char_count =? MAX_REQUEST_LOG_ERROR_MESSAGE_CHARS)%nat
          then (bounded, char_count, true)
          else bound_message_loop cs (bounded ++ [c]) (S char_count) false
  end.

(** U+2026 *)
Definition ellipsis : string :=
  String (ascii_of_nat 226) (String (ascii_of_nat 128) (String (ascii_of_nat 166) "")).

(** [bound_error_message] *)
Definition bound_error_message (message : string) : string :=
  let message := trim message in
  if bool_decide (message = "") then ""
  else
    let '(bounded, char_count, truncated) := bound_message_loop (chars message) [] 0 false in
    if truncated then
      let bounded := if (char_count =? MAX_REQUEST_LOG_ERROR_MESSAGE_CHARS)%nat
                     then removelast bounded else bounded in
      concat_chars (bounded ++ [ellipsis])
    else concat_chars bounded.

(** [normalize_message]; the message itself is reused when nothing was trimmed. *)
Definition normalize_message (message : string) : option string :=
  let trimmed := trim message in
  if bool_decide (trimmed = "") ||
     (MAX_UPSTREAM_ERROR_MESSAGE_BYTES <? String.length trimmed)%nat then None
  else if (String.length trimmed =? String.length message)%nat then Some message
  else Some trimmed.

(** What may stand in a line of the log: visible characters and single spaces
    between them *)
Definition visible (c : string) : Prop := is_whitespace c = false /\ is_control c = false.
Fixpoint one_line (after_space : bool) (l : list string) : Prop :=
  match l with
  | [] => True
  | c :: l => if bool_decide (c = " ") then after_space = false /\ one_line true l
              else visible c /\ one_line false l
  end.
Definition line_text (l : list string) : Prop := one_line true l.

Lemma space_blank : is_whitespace " " = true.
Proof. vm_compute. reflexivity. Qed.

Fixpoint ends_space (after_space : bool) (l : list string) : bool :=
  match l with [] => after_space | c :: l => ends_space (bool_decide (c = " ")) l end.

Lemma one_line_app b l k :
  one_line b (l ++ k) <-> one_line b l /\ one_line (ends_space b l) k.
Proof.
  revert b. induction l as [|c l IH]; intros b; simpl; [tauto|].
  case_bool_decide; rewrite IH; tauto.
Qed.

Lemma bound_message_loop_spec cs bounded n pending :
  Forall well_formed cs -> Forall well_formed bounded -> line_text bounded ->
  ends_space true bounded = bool_decide (bounded = []) ->
  (pending = true -> bounded <> []) -> n = length bounded -> (n <= 1024)%nat ->
  let '(out, count, truncated) := bound_message_loop cs bounded n pending in
  Forall well_formed out /\ line_text out /\ count = length out /\ (count <= 1024)%nat /\
  (truncated = true -> count = 1024%nat).
Proof.
  unfold line_text. intros Hcs. revert bounded n pending.
  induction Hcs as [|c cs Hc Hcs IH]; intros bounded n pending Hwf Hl He Hp -> Hn; simpl; [done|].
  destruct (is_whitespace c || is_control c) eqn:Eb.
  { apply IH; try done. by case_bool_decide. }
  assert (Hv : visible c) by (unfold visible; bool_to_prop; done).
  assert (Hcs' : c <> " ") by (intros ->; destruct Hv as [Hv _]; by rewrite space_blank in Hv).
  assert (Hsp : well_formed " ") by (exists " "%char, ""; by split_and!).
  assert (Hgo : forall b', Forall well_formed b' -> one_line true b' -> (length b' <= 1024)%nat ->
    let '(out, count, truncated) :=
      if (length b' =? 1024)%nat then (b', length b', true)
      else bound_message_loop cs (b' ++ [c]) (S (length b')) false in
    Forall well_formed out /\ one_line true out /\ count = length out /\ (count <= 1024)%nat /\
    (truncated = true -> count = 1024%nat)).
  { intros b' Hwf' Hl' Hn'. destruct (length b' =? 1024)%nat eqn:E.
    { apply Nat.eqb_eq in E. done. }
    apply Nat.eqb_neq in E. apply IH; try done.
    - apply Forall_app. split; [done|by constructor].
    - apply one_line_app. split; [done|]. simpl. rewrite bool_decide_eq_false_2 by done. done.
    - assert (Hgen : forall b, ends_space b (b' ++ [c]) = false).
      { clear -Hcs'. induction b' as [|x l IHl]; intros b; simpl; [by rewrite bool_decide_eq_false_2|apply IHl]. }
      rewrite Hgen. symmetry. apply bool_decide_eq_false_2. by destruct b'.
    - rewrite length_app. simpl. lia.
    - lia. }
  destruct pending; simpl.
  - specialize (Hp eq_refl). destruct (length bounded =? _)%nat eqn:E; [apply Nat.eqb_eq in E; done|].
    apply Nat.eqb_neq in E. unfold MAX_REQUEST_LOG_ERROR_MESSAGE_CHARS in *.
    specialize (Hgo (bounded ++ [" "])). rewrite length_app in Hgo. simpl in Hgo.
    rewrite Nat.add_1_r in Hgo. apply Hgo.
    + apply Forall_app. split; [done|by constructor].
    + apply one_line_app. split; [done|]. rewrite He. simpl.
      rewrite bool_decide_eq_false_2 by done. done.
    + lia.
  - by apply Hgo.
Qed.

Lemma one_line_prefix b l k : one_line b (l ++ k) -> one_line b l.
Proof. intros H. by apply one_line_app in H as [? _]. Qed.

(** What the log says of an error is one bounded line: at most 1024
    characters, no control characters, no blanks but single spaces between
    words, whatever the upstream or the client put into the message. *)
Theorem bound_error_message_one_line message : utf8 message ->
  let cs := chars (bound_error_message message) in
  (length cs <= 1024)%nat /\ line_text cs /\ Forall well_formed cs.
Proof.
  intros Hu. simpl. unfold bound_error_message.
  case_bool_decide; [split_and!; [simpl; lia|done|constructor]|].
  pose proof (bound_message_loop_spec (chars (trim message)) [] 0 false) as Hl.
  destruct (bound_message_loop _ _ _ _) as [[out count] truncated].
  destruct Hl as (Hwf & Hline & -> & Hn & Ht); try done; [by apply utf8_trim|lia|].
  destruct truncated; [|by rewrite chars_concat].
  specialize (Ht eq_refl). rewrite Ht. change (1024 =? _)%nat with true. cbv iota.
  assert (He : well_formed ellipsis).
  { exists (ascii_of_nat 226), (String (ascii_of_nat 128) (String (ascii_of_nat 166) "")).
    split; [done|]. split; [done|]. split; [repeat constructor|done]. }
  destruct out as [|x out _] using rev_ind; [done|]. rewrite removelast_last.
  apply Forall_app in Hwf as [Hwf _]. assert (Hwf' : Forall well_formed (out ++ [ellipsis])).
  { apply Forall_app. split; [done|by constructor]. }
  rewrite chars_concat by done. rewrite length_app in Ht |- *. simpl in *. split; [lia|]. split; [|done].
  apply one_line_app. split; [by eapply one_line_prefix|]. split; [|done]. by split; vm_compute.
Qed.

Lemma bound_level_loop_spec cs bounded :
  Forall well_formed cs -> Forall well_formed bounded ->
  Forall (fun c => is_control c = false) bounded -> (length bounded <= 64)%nat ->
  let out := bound_level_loop cs bounded in
  Forall well_formed out /\ Forall (fun c => is_control c = false) out /\ (length out <= 64)%nat.
Proof.
  intros Hcs. revert bounded. induction Hcs as [|c cs Hc Hcs IH]; intros bounded Hw Hb Hn;
    cbn [bound_level_loop]; [done|].
  destruct (is_control c) eqn:Ec; [by apply IH|].
  destruct (MAX_REQUEST_LOG_THINKING_LEVEL_CHARS <=? length bounded)%nat eqn:El; [done|].
  apply Nat.leb_gt in El. unfold MAX_REQUEST_LOG_THINKING_LEVEL_CHARS in El. apply IH.
  - apply Forall_app. split; [done|by constructor].
  - apply Forall_app. split; [done|by constructor].
  - rewrite length_app. simpl. lia.
Qed.

(** The thinking level a request is logged with is a short text without control
    characters that is not blank at its ends. *)
Lemma bound_thinking_level_bounded value level : utf8 value -> bound_thinking_level value = Some level ->
  level <> "" /\ (length (chars level) <= 64)%nat /\ trim level = level /\
  Forall (fun c => is_control c = false) (chars level).
Proof.
  intros Hu. unfold bound_thinking_level. case_bool_decide; [done|].
  destruct (bound_level_loop_spec (chars (trim value)) []) as (Hwf & Hc & Hn); try done;
    [by apply utf8_trim|simpl; lia|].
  set (out := bound_level_loop _ _) in *. case_bool_decide as Hne; [done|]. intros [= <-].
  assert (Hout : utf8 (concat_chars out)) by (unfold utf8; by rewrite chars_concat).
  split; [done|]. rewrite chars_trim, chars_concat by done. pose proof (trim_chars_sublist out) as Hs.
  split_and!.
  - apply sublist_length in Hs. lia.
  - by apply trim_idem.
  - by eapply Forall_sublist.
Qed.

Lemma trim_split s : exists a b, s = a +:+ trim s +:+ b.
Proof.
  unfold trim, trim_chars, trim_end. destruct (drop_while_suffix is_whitespace (chars s)) as [a Ea].
  set (k := drop_while is_whitespace (chars s)) in *.
  destruct (drop_while_suffix is_whitespace (rev k)) as [b Eb].
  set (m := drop_while is_whitespace (rev k)) in *. apply (f_equal (@rev _)) in Eb.
  rewrite rev_involutive, rev_app_distr in Eb. exists (concat_chars a), (concat_chars (rev b)).
  rewrite <- (concat_chars_chars s) at 1. rewrite Ea, Eb. clear.
  assert (H : forall l r, concat_chars (l ++ r) = concat_chars l +:+ concat_chars r).
  { intros l r. induction l as [|x l IH]; [done|]. simpl. fold (concat_chars (l ++ r)). rewrite IH.
    fold (concat_chars l). by rewrite string_app_assoc. }
  by rewrite !H.
Qed.

(** The message of an upstream error is trimmed, and kept only when something is
    left that is not too long; reusing the original is no shortcut. *)
Lemma normalize_message_trims message :
  normalize_message message =
  if bool_decide (trim message = "") ||
     (MAX_UPSTREAM_ERROR_MESSAGE_BYTES <? String.length (trim message))%nat
  then None else Some (trim message).
Proof.
  unfold normalize_message. destruct (_ || _); [done|].
  destruct (_ =? _)%nat eqn:E; [|done]. apply Nat.eqb_eq in E.
  destruct (trim_split message) as (a & b & Em). set (t := trim message) in *.
  rewrite Em, !string_length_app in E. assert (a = "" /\ b = "") as [-> ->].
  { destruct a; [|simpl in E; lia]. destruct b; [done|simpl in E; lia]. }
  simpl in Em. rewrite string_app_nil_r in Em. by rewrite Em.
Qed.

(** * Witnesses *)

Lemma bound_error_message_one_line_witness :
  let cs := chars (bound_error_message "  a  b ") in
  (length cs <= 1024)%nat /\ line_text cs /\ Forall well_formed cs.
Proof.
  apply (bound_error_message_one_line "  a  b ").
  unfold utf8. repeat (constructor; [do 2 eexists; split_and!; [reflexivity|reflexivity|constructor|reflexivity]|]).
  constructor.
Defined.
