(* ===== verification/RateWindow.v ===== *)
(** The 60-second sliding window of local requests per minute that every
    routing credential keeps
    ([crates/runtime/src/credential/runtime/rate_window.rs] and the validated
    limit of [crates/domain/src/credential/rate_limit.rs]).

    Time is passed in, as in the source.  A window is a queue of reservations
    in admission order; [try_reserve] prunes the expired prefix, refuses when
    the limit is reached (saying when a slot frees), keeps the slots reserved
    for fixed waiters out of reach of normal requests, and otherwise appends a
    fresh reservation. *)

From S2P Require Import Prelude.

Local Open Scope Z_scope.

(** * The validated limit *)

Definition MAX_REQUESTS_PER_MINUTE : Z := 100000.

(** [RequestsPerMinute::new] *)
Definition requests_per_minute_new (value : Z) : option Z :=
  if (1 <=? value) && (value <=? MAX_REQUESTS_PER_MINUTE) then Some value else None.

(** The limits that pass the validation, as the callers hold them. *)
Definition valid_limit (limit : option Z) : Prop :=
  match limit with
  | None => True
  | Some l => requests_per_minute_new l = Some l
  end.

(** * Data *)

Definition RATE_WINDOW : Duration := secs 60.

Record RateReservation := { rr_id : Z; started_at : Instant }.

Record CredentialRateWindow := {
  attempts : list RateReservation;
  next_reservation_id : Z
}.

Record RateLimited := { retry_at : option Instant }.

Record CredentialRateSnapshot := {
  snap_requests_per_minute : option Z;
  snap_requests_in_window : Z;
  snap_retry_at : option Instant
}.

#[export] Instance rate_reservation_eq_dec : EqDecision RateReservation.
Proof. solve_decision. Defined.

(** * Operations *)

Definition rate_window_new : CredentialRateWindow :=
  {| attempts := []; next_reservation_id := 0 |}.

(** [CredentialRateWindow::prune]: pops the front while it started at or
    before [now - 60s]. *)
Definition prune (now : Instant) (w : CredentialRateWindow) : CredentialRateWindow :=
  {| attempts := expire_front started_at RATE_WINDOW now (attempts w);
     next_reservation_id := next_reservation_id w |}.

(** [CredentialRateWindow::next_available_at]; the index panics when the limit
    is zero. *)
Definition next_available_at (w : CredentialRateWindow) (limit : Z) : outcome (option Instant) :=
  if limit <=? Zlen (attempts w)
  then r ← index (attempts w) (Z.to_nat (Zlen (attempts w) - limit));
       Ret (Some (started_at r + RATE_WINDOW))
  else Ret None.

(** [CredentialRateWindow::try_reserve] *)
Definition try_reserve (now : Instant) (limit : option Z) (fixed_waiters : Z) (fixed : bool)
    (w : CredentialRateWindow)
    : outcome (result (option RateReservation) RateLimited * CredentialRateWindow) :=
  let w := prune now w in
  match limit with
  | None => Ret (Ok None, w)
  | Some limit =>
      if limit <=? Zlen (attempts w)
      then at_ ← next_available_at w limit;
           Ret (Err {| retry_at := at_ |}, w)
      else
        let available := limit - Zlen (attempts w) in
        if negb fixed && (available <=? fixed_waiters)
        then Ret (Err {| retry_at := None |}, w)
        else
          let reservation := {| rr_id := next_reservation_id w; started_at := now |} in
          next ← expect (checked_add u64_max (next_reservation_id w) 1);
          Ret (Ok (Some reservation),
               {| attempts := attempts w ++ [reservation]; next_reservation_id := next |})
  end.

(** [CredentialRateWindow::rollback]: removes the first attempt with the
    reservation's id and says whether there was one. *)
Fixpoint remove_id (id : Z) (l : list RateReservation) : option (list RateReservation) :=
  match l with
  | [] => None
  | r :: l' => if rr_id r =? id then Some l' else (cons r) <$> remove_id id l'
  end.

Definition rollback (reservation : RateReservation) (w : CredentialRateWindow)
    : bool * CredentialRateWindow :=
  match remove_id (rr_id reservation) (attempts w) with
  | None => (false, w)
  | Some l => (true, {| attempts := l; next_reservation_id := next_reservation_id w |})
  end.

(** [CredentialRateWindow::snapshot] *)
Definition snapshot (now : Instant) (limit : option Z) (w : CredentialRateWindow)
    : outcome (CredentialRateSnapshot * CredentialRateWindow) :=
  let w := prune now w in
  at_ ← match limit with
        | None => Ret None
        | Some l => next_available_at w l
        end;
  n ← match limit with
      | None => Ret 0
      | Some _ => expect (if Zlen (attempts w) <=? u32_max then Some (Zlen (attempts w)) else None)
      end;
  Ret ({| snap_requests_per_minute := limit;
          snap_requests_in_window := n;
          snap_retry_at := at_ |}, w).

(** [CredentialRateSnapshot::remaining] *)
Definition remaining (s : CredentialRateSnapshot) : option Z :=
  (fun l => saturating_sub l (snap_requests_in_window s)) <$> snap_requests_per_minute s.

(** * The well-formedness invariant *)

(** Attempts are in order of time and of id, none is in the future, ids are
    below the next one, and no more are kept than the largest limit allows. *)
Record window_wf (now : Instant) (w : CredentialRateWindow) : Prop := {
  wf_sorted : StronglySorted (fun a b => started_at a <= started_at b) (attempts w);
  wf_ids : StronglySorted (fun a b => rr_id a < rr_id b) (attempts w);
  wf_past : Forall (fun r => 0 <= started_at r <= now) (attempts w);
  wf_below : Forall (fun r => rr_id r < next_reservation_id w) (attempts w);
  wf_len : Zlen (attempts w) <= MAX_REQUESTS_PER_MINUTE;
  wf_next : 0 <= next_reservation_id w <= u64_max
}.

(** * Basic lemmas *)

Lemma requests_per_minute_bounds l :
  requests_per_minute_new l = Some l -> 1 <= l <= MAX_REQUESTS_PER_MINUTE.
Proof. unfold requests_per_minute_new. solve_cases. Qed.

Lemma prune_filter now now' w :
  window_wf now w -> now <= now' ->
  attempts (prune now' w) = filter (in_window started_at RATE_WINDOW now') (attempts w).
Proof. intros [] ?. by eapply expire_front_filter. Qed.

Lemma prune_wf now now' w :
  window_wf now w -> now <= now' -> window_wf now' (prune now' w).
Proof.
  intros [Hs Hi Hp Hb Hl Hn] Hle.
  pose proof (expire_front_sublist started_at RATE_WINDOW now' (attempts w)) as Hsub.
  pose proof (sublist_length _ _ Hsub) as Hlen.
  split; simpl; try done; try (eapply StronglySorted_sublist; eauto; fail);
    try (eapply Forall_sublist; eauto; fail).
  - eapply Forall_sublist; [eauto|]. eapply Forall_impl; [exact Hp|]. simpl. lia.
  - unfold Zlen in *. lia.
Qed.

Lemma remove_id_filter id l l' :
  StronglySorted (fun a b => rr_id a < rr_id b) l ->
  remove_id id l = Some l' -> l' = filter (fun r => rr_id r <> id) l.
Proof.
  intros Hs. revert l'. induction Hs as [|r l Hs IH Hr]; intros l' H; [done|].
  simpl in H. rewrite filter_cons. destruct (rr_id r =? id) eqn:E; bool_to_prop; simplify_eq.
  - case_decide; [done|]. symmetry. apply filter_all.
    eapply Forall_impl; [exact Hr|]. simpl. lia.
  - destruct (remove_id id l) eqn:El; simplify_eq/=. case_decide; [|done]. f_equal. auto.
Qed.

Lemma remove_id_None id l :
  remove_id id l = None -> filter (fun r => rr_id r <> id) l = l.
Proof.
  induction l as [|r l IH]; [done|]. simpl.
  destruct (rr_id r =? id) eqn:E; [done|]; bool_to_prop.
  destruct (remove_id id l) eqn:El; [done|]. intros _.
  rewrite filter_cons_True; [|done]. f_equal. by apply IH.
Qed.

(** Whatever [rollback] answers, it leaves the attempts with another id. *)
Lemma rollback_attempts now r w :
  window_wf now w ->
  attempts (rollback r w).2 = filter (fun x => rr_id x <> rr_id r) (attempts w).
Proof.
  intros []. unfold rollback. destruct (remove_id _ _) eqn:E; simpl.
  - by apply remove_id_filter.
  - symmetry. by apply remove_id_None.
Qed.

Lemma rollback_wf now r w : window_wf now w -> window_wf now (rollback r w).2.
Proof.
  intros Hwf. pose proof (rollback_attempts now r w Hwf) as E. destruct Hwf as [Hs Hi Hp Hb Hl Hn].
  assert (next_reservation_id (rollback r w).2 = next_reservation_id w) as En
    by (unfold rollback; by destruct (remove_id _ _)).
  pose proof (sublist_filter (fun x => rr_id x <> rr_id r) (attempts w)) as Hsub.
  split; rewrite ?E, ?En; try done; try (eapply StronglySorted_sublist; eauto; fail);
    try (eapply Forall_sublist; eauto; fail).
  unfold Zlen in *. apply sublist_length in Hsub. lia.
Qed.

Lemma next_available_at_ok now w l :
  window_wf now w -> 1 <= l ->
  exists at_, next_available_at w l = Ret at_ /\
    (at_ = None <-> Zlen (attempts w) < l).
Proof.
  intros Hwf Hl. unfold next_available_at, index.
  destruct (l <=? Zlen (attempts w)) eqn:E; bool_to_prop; [|by exists None].
  destruct (lookup_lt_is_Some_2 (attempts w) (Z.to_nat (Zlen (attempts w) - l))) as [r Hr].
  { unfold Zlen in *. lia. }
  rewrite Hr. eexists. split; [done|]. split; [done|lia].
Qed.

(** The three ways [try_reserve] ends for a validated limit. *)
Lemma try_reserve_cases now now' w l fw fixed :
  window_wf now w -> now <= now' -> requests_per_minute_new l = Some l ->
  next_reservation_id w < u64_max ->
  let p := prune now' w in
  (l <= Zlen (attempts p) /\ exists at_, next_available_at p l = Ret (Some at_) /\
     try_reserve now' (Some l) fw fixed w = Ret (Err {| retry_at := Some at_ |}, p)) \/
  (Zlen (attempts p) < l /\ fixed = false /\ l - Zlen (attempts p) <= fw /\
     try_reserve now' (Some l) fw fixed w = Ret (Err {| retry_at := None |}, p)) \/
  (Zlen (attempts p) < l /\ (fixed = true \/ fw < l - Zlen (attempts p)) /\
     let r := {| rr_id := next_reservation_id w; started_at := now' |} in
     try_reserve now' (Some l) fw fixed w =
       Ret (Ok (Some r), {| attempts := attempts p ++ [r];
                            next_reservation_id := next_reservation_id w + 1 |})).
Proof.
  intros Hwf Hle Hl Hn p. apply requests_per_minute_bounds in Hl as [Hl _].
  pose proof (prune_wf _ _ _ Hwf Hle) as Hp. fold p in Hp.
  unfold try_reserve. fold p. assert (next_reservation_id p = next_reservation_id w) as En by done.
  clearbody p. rewrite <- En in *.
  destruct (l <=? Zlen (attempts p)) eqn:E; bool_to_prop.
  - left. split; [done|]. destruct (next_available_at_ok _ _ _ Hp Hl) as ([at_|] & E1 & E2).
    + exists at_. by rewrite E1.
    + pose proof (proj1 E2 eq_refl). lia.
  - right. unfold checked_add.
    rewrite (proj2 (Z.leb_le (next_reservation_id p + 1) u64_max)) by lia.
    destruct fixed; simpl; [right; by auto|].
    destruct (l - Zlen (attempts p) <=? fw) eqn:E2; bool_to_prop; [by left|right].
    split; [done|]. split; [by right|done].
Qed.

Lemma reserved_wf now now' w l :
  window_wf now w -> now <= now' -> 0 <= now -> l <= MAX_REQUESTS_PER_MINUTE ->
  next_reservation_id w < u64_max -> Zlen (attempts (prune now' w)) < l ->
  window_wf now' {| attempts := attempts (prune now' w) ++
                      [{| rr_id := next_reservation_id w; started_at := now' |}];
                    next_reservation_id := next_reservation_id w + 1 |}.
Proof.
  intros Hwf Hle H0 Hl Hn Hlen. destruct (prune_wf _ _ _ Hwf Hle) as [Hs Hi Hp Hb _ Hn'].
  split; simpl in *.
  - apply StronglySorted_snoc; [done|]. eapply Forall_impl; [exact Hp|]. simpl. lia.
  - apply StronglySorted_snoc; done.
  - apply Forall_app. split; [done|]. repeat constructor; simpl; lia.
  - apply Forall_app. split; [|repeat constructor; simpl; lia].
    eapply Forall_impl; [exact Hb|]. simpl. lia.
  - unfold Zlen in *. rewrite length_app. simpl in *. lia.
  - lia.
Qed.

(** * Runs of a window *)

(** A window together with the clock and the log of the reservations granted
    and not rolled back.  The operations of a run happen at non-decreasing
    times, under validated limits of at most [L]. *)
Record window_run := {
  run_now : Instant;
  run_window : CredentialRateWindow;
  run_granted : list RateReservation
}.

Definition limit_at_most (L : Z) (limit : option Z) : Prop :=
  match limit with Some l => l <= L | None => True end.

Inductive window_step (L : Z) : window_run -> window_run -> Prop :=
| step_granted s now' limit fw fixed r w' :
    run_now s <= now' -> valid_limit limit -> limit_at_most L limit ->
    try_reserve now' limit fw fixed (run_window s) = Ret (Ok (Some r), w') ->
    window_step L s {| run_now := now'; run_window := w'; run_granted := run_granted s ++ [r] |}
| step_unlimited s now' limit fw fixed w' :
    run_now s <= now' -> valid_limit limit -> limit_at_most L limit ->
    try_reserve now' limit fw fixed (run_window s) = Ret (Ok None, w') ->
    window_step L s {| run_now := now'; run_window := w'; run_granted := run_granted s |}
| step_refused s now' limit fw fixed e w' :
    run_now s <= now' -> valid_limit limit -> limit_at_most L limit ->
    try_reserve now' limit fw fixed (run_window s) = Ret (Err e, w') ->
    window_step L s {| run_now := now'; run_window := w'; run_granted := run_granted s |}
| step_rollback s r :
    window_step L s
      {| run_now := run_now s; run_window := (rollback r (run_window s)).2;
         run_granted := filter (fun x => rr_id x <> rr_id r) (run_granted s) |}
| step_snapshot s now' limit sn w' :
    run_now s <= now' -> valid_limit limit ->
    snapshot now' limit (run_window s) = Ret (sn, w') ->
    window_step L s {| run_now := now'; run_window := w'; run_granted := run_granted s |}.

Definition run_start (now : Instant) : window_run :=
  {| run_now := now; run_window := rate_window_new; run_granted := [] |}.

(** The reservations of a log that fall in the 60 seconds up to [t]. *)
Definition in_minute (t : Instant) (r : RateReservation) : Prop :=
  t - RATE_WINDOW < started_at r <= t.

#[export] Instance in_minute_dec t r : Decision (in_minute t r).
Proof. unfold in_minute. apply _. Defined.

(** The window is well formed and, among the attempts still live, is the log. *)
Record run_inv (L : Z) (s : window_run) : Prop := {
  inv_wf : window_wf (run_now s) (run_window s);
  inv_clock : 0 <= run_now s;
  inv_log : filter (in_window started_at RATE_WINDOW (run_now s)) (run_granted s) =
            filter (in_window started_at RATE_WINDOW (run_now s)) (attempts (run_window s));
  inv_past : Forall (fun r => started_at r <= run_now s) (run_granted s);
  inv_count : forall t, Z.of_nat (length (filter (in_minute t) (run_granted s))) <= L
}.

Lemma log_after_prune L s now' :
  run_inv L s -> run_now s <= now' ->
  filter (in_window started_at RATE_WINDOW now') (run_granted s) =
  attempts (prune now' (run_window s)).
Proof.
  intros [Hwf _ Hlog _ _] Hle. rewrite (prune_filter _ _ _ Hwf Hle).
  apply (f_equal (filter (in_window started_at RATE_WINDOW now'))) in Hlog.
  rewrite !list_filter_filter_l in Hlog; try done; unfold in_window; intros; lia.
Qed.

Lemma run_inv_advance L s now' w' :
  run_inv L s -> run_now s <= now' -> w' = prune now' (run_window s) ->
  run_inv L {| run_now := now'; run_window := w'; run_granted := run_granted s |}.
Proof.
  intros Hinv Hle ->. pose proof (log_after_prune _ _ _ Hinv Hle) as Hlog.
  destruct Hinv as [Hwf H0 _ Hp Hc]. split; simpl; [by apply prune_wf with (run_now s)|lia| | |done].
  - rewrite Hlog. symmetry. apply filter_all. rewrite (prune_filter _ _ _ Hwf Hle).
    apply Forall_forall. intros x Hx. by apply list_elem_of_filter in Hx as [? _].
  - eapply Forall_impl; [exact Hp|]. simpl. lia.
Qed.

(** One more grant keeps every minute within the limit: the reservations of a
    minute that contains the new one are all still in the pruned window. *)
Lemma grant_count L s now' r t :
  run_inv L s -> run_now s <= now' -> started_at r = now' ->
  Zlen (attempts (prune now' (run_window s))) < L ->
  Z.of_nat (length (filter (in_minute t) (run_granted s ++ [r]))) <= L.
Proof.
  intros Hinv Hle Hr Hlen. pose proof (log_after_prune _ _ _ Hinv Hle) as Hlog.
  pose proof (inv_count _ _ Hinv t) as Hc. rewrite filter_app, length_app.
  destruct (decide (in_minute t r)) as [Hin|Hout].
  - rewrite filter_cons_True by done. simpl.
    assert (length (filter (in_minute t) (run_granted s)) <=
            length (attempts (prune now' (run_window s))))%nat; [|unfold Zlen in *; simpl; lia].
    rewrite <- Hlog. apply filter_length_mono. intros x _. unfold in_minute, in_window in *. lia.
  - rewrite filter_cons_False by done. simpl. lia.
Qed.

Lemma try_reserve_unlimited now fw fixed w :
  try_reserve now None fw fixed w = Ret (Ok None, prune now w).
Proof. done. Qed.

Lemma try_reserve_granted now' l fw fixed w r w' :
  try_reserve now' (Some l) fw fixed w = Ret (Ok (Some r), w') ->
  Zlen (attempts (prune now' w)) < l /\ next_reservation_id w < u64_max /\
  r = {| rr_id := next_reservation_id w; started_at := now' |} /\
  w' = {| attempts := attempts (prune now' w) ++ [r];
          next_reservation_id := next_reservation_id w + 1 |} /\
  (fixed = true \/ fw < l - Zlen (attempts (prune now' w))).
Proof.
  unfold try_reserve, checked_add. intros H.
  assert (next_reservation_id (prune now' w) = next_reservation_id w) as En by done.
  revert H. generalize dependent (prune now' w). intros p En. rewrite En.
  destruct (l <=? Zlen (attempts p)) eqn:E; bool_to_prop.
  { by destruct (next_available_at p l). }
  destruct (_ && _) eqn:E2; [done|]. destruct (_ <=? u64_max) eqn:E3; [|done].
  simpl. intros [= <- <-]. bool_to_prop.
  repeat split; try done; try lia. destruct fixed; [by left|right].
  destruct E2; [done|]. by bool_to_prop.
Qed.

Lemma try_reserve_not_granted now' limit fw fixed w w' res :
  try_reserve now' limit fw fixed w = Ret (res, w') ->
  (forall r, res <> Ok (Some r)) -> w' = prune now' w.
Proof.
  unfold try_reserve. destruct limit as [l|]; [|by intros [= <- <-]].
  generalize (prune now' w). intros p. repeat case_match; try done.
  - destruct (next_available_at p l); [|done]. by intros [= <- <-].
  - by intros [= <- <-].
  - destruct (expect _); [|done]. intros [= <- <-] Hno. by destruct (Hno _ eq_refl).
Qed.

Lemma snapshot_window now' limit w sn w' :
  snapshot now' limit w = Ret (sn, w') -> w' = prune now' w.
Proof.
  unfold snapshot. generalize (prune now' w). intros p. destruct limit as [l|]; simpl.
  - destruct (next_available_at p l); simpl; [|done].
    destruct (_ <=? u32_max); simpl; [|done]. by intros [= _ <-].
  - by intros [= _ <-].
Qed.

Lemma window_step_inv L s s' : L <= MAX_REQUESTS_PER_MINUTE ->
  run_inv L s -> window_step L s s' -> run_inv L s'.
Proof.
  intros HL Hinv Hstep. destruct Hstep as [s now' limit fw fixed r w' Hle Hv Hlim E
    |s now' limit fw fixed w' Hle Hv Hlim E|s now' limit fw fixed e w' Hle Hv Hlim E
    |s r|s now' limit sn w' Hle Hv E].
  - destruct limit as [l|]; [|done]. simpl in Hlim.
    apply try_reserve_granted in E as (Hlen & Hn & -> & -> & _).
    destruct (run_inv_advance _ _ _ _ Hinv Hle eq_refl) as [_ _ Hlog Hp _].
    pose proof (inv_clock _ _ Hinv). split; cbn [run_now run_window run_granted attempts] in *.
    + apply reserved_wf with (run_now s) l; try done; [apply Hinv|lia].
    + lia.
    + by rewrite !filter_app, Hlog.
    + apply Forall_app. split; [done|]. by repeat constructor.
    + intros t. by apply grant_count with now'; [..|lia].
  - eapply run_inv_advance; eauto. by eapply try_reserve_not_granted.
  - eapply run_inv_advance; eauto. by eapply try_reserve_not_granted.
  - destruct Hinv as [Hwf H0 Hlog Hp Hc]. split; simpl; [by apply rollback_wf|done| | |].
    + rewrite (rollback_attempts _ _ _ Hwf), !list_filter_filter.
      apply (f_equal (filter (fun x => rr_id x <> rr_id r))) in Hlog.
      rewrite !list_filter_filter in Hlog.
      etransitivity; [|etransitivity; [exact Hlog|]]; apply list_filter_iff; tauto.
    + eapply Forall_sublist; [apply sublist_filter|done].
    + intros t. etransitivity; [|apply (Hc t)].
      apply inj_le. rewrite list_filter_filter. apply filter_length_mono. tauto.
  - eapply run_inv_advance; eauto. by eapply snapshot_window.
Qed.

Lemma run_start_inv L now : 0 <= now -> 0 <= L -> run_inv L (run_start now).
Proof.
  intros. split; simpl; try done; try lia.
  split; simpl; try done; try constructor; unfold MAX_REQUESTS_PER_MINUTE, u64_max; lia.
Qed.

Lemma reachable_inv L now s :
  0 <= now -> 0 <= L <= MAX_REQUESTS_PER_MINUTE ->
  rtc (window_step L) (run_start now) s -> run_inv L s.
Proof.
  intros H0 [HL1 HL2]. apply (rtc_ind_r (run_inv L) (run_start now)).
  - by apply run_start_inv.
  - intros s1 s2 _ Hstep Hinv. eapply window_step_inv; [| exact Hinv | exact Hstep]. done.
Qed.

(** Nothing below the id is touched when it is removed. *)
Lemma remove_id_above (l0 : list RateReservation) n l' :
  Forall (fun r => rr_id r < n) l0 -> remove_id n (l0 ++ l') = app l0 <$> remove_id n l'.
Proof.
  induction 1 as [|x l0 Hx _ IH]; simpl; [by destruct (remove_id n l')|].
  rewrite (proj2 (Z.eqb_neq _ _)) by lia. rewrite IH. by destruct (remove_id n l').
Qed.

(** Rolling back a reservation that was just granted. *)
Lemma rollback_granted now0 now w l fw fixed r w' :
  window_wf now0 w -> now0 <= now ->
  try_reserve now (Some l) fw fixed w = Ret (Ok (Some r), w') ->
  rollback r w' = (true, {| attempts := attempts (prune now w);
                            next_reservation_id := next_reservation_id w' |}).
Proof.
  intros Hwf Hle E. apply try_reserve_granted in E as (_ & _ & -> & -> & _).
  pose proof (wf_below _ _ (prune_wf _ _ _ Hwf Hle)) as Hb. unfold rollback.
  cbn [attempts rr_id]. rewrite (remove_id_above _ _ _ Hb). simpl.
  rewrite Z.eqb_refl. simpl. by rewrite app_nil_r.
Qed.

(** * Properties *)

(** Whatever the order of reservations, rollbacks and snapshots of a
    credential, and with limits that may change but never exceed [L], at most
    [L] of the reservations granted and not rolled back start in any 60-second
    span. *)
Theorem rate_window_limit_respected L now s t :
  0 <= now -> 0 <= L <= MAX_REQUESTS_PER_MINUTE ->
  rtc (window_step L) (run_start now) s ->
  Z.of_nat (length (filter (in_minute t) (run_granted s))) <= L.
Proof. intros H0 HL Hrun. by eapply inv_count, reachable_inv. Qed.

(** When a reservation is refused because the limit is reached, the
    [retry_at] it carries is exact: left alone, the window refuses a fixed
    reservation at every instant before it and grants one from it on. *)
Theorem rate_window_retry_at_exact now w l fw fixed at_ w' now' fw' :
  window_wf now w -> requests_per_minute_new l = Some l ->
  next_reservation_id w < u64_max -> now <= now' ->
  try_reserve now (Some l) fw fixed w = Ret (Err {| retry_at := Some at_ |}, w') ->
  (exists r w'', try_reserve now' (Some l) fw' true w' = Ret (Ok (Some r), w'')) <-> at_ <= now'.
Proof.
  intros Hwf Hl Hn Hle E.
  assert (w' = prune now w) as -> by (by eapply try_reserve_not_granted; [exact E|]).
  pose proof (prune_wf _ _ _ Hwf (Z.le_refl now)) as Hp.
  destruct (try_reserve_cases _ _ _ _ fw fixed Hwf (Z.le_refl now) Hl Hn)
    as [(Hfull & a & Ha & E')|[(_ & _ & _ & E')|(_ & _ & E')]];
    cbn zeta in E'; rewrite E in E'; simplify_eq.
  clear E. set (p := prune now w) in *.
  assert (next_reservation_id p = next_reservation_id w) as En by done. clearbody p.
  pose proof (requests_per_minute_bounds _ Hl) as [Hl1 _].
  unfold next_available_at, index in Ha. rewrite (proj2 (Z.leb_le _ _)) in Ha by done.
  destruct (attempts p !! _) as [r|] eqn:Er; simpl in Ha; simplify_eq.
  assert ((Z.to_nat l <= length (attempts (prune now' p)))%nat <->
          now' < started_at r + RATE_WINDOW) as Hiff.
  { destruct Hp. apply (expire_front_still_full started_at RATE_WINDOW now now'); try done.
    - lia.
    - unfold Zlen in *. lia.
    - unfold Zlen in *. rewrite <- Er. f_equal. lia. }
  split.
  - intros (r' & w'' & Hg). apply try_reserve_granted in Hg as (Hlen & _).
    unfold Zlen in *. destruct (decide (now' < started_at r + RATE_WINDOW)); [|lia].
    apply Hiff in l0. lia.
  - intros Hat. assert (next_reservation_id p < u64_max) as Hn' by lia.
    destruct (try_reserve_cases _ _ p l fw' true Hp Hle Hl Hn')
      as [(Hfull' & _)|[(_ & ? & _)|(_ & _ & Eg)]]; [|done|by eauto].
    exfalso. unfold Zlen in *. assert (now' < started_at r + RATE_WINDOW); [|lia].
    apply Hiff. lia.
Qed.

(** [n] fixed reservations in a row at one instant, when all are granted. *)
Fixpoint reserve_fixed (n : nat) (now : Instant) (l fw : Z) (w : CredentialRateWindow)
    : option CredentialRateWindow :=
  match n with
  | O => Some w
  | S n => match try_reserve now (Some l) fw true w with
           | Ret (Ok (Some _), w') => reserve_fixed n now l fw w'
           | _ => None
           end
  end.

Lemma reserve_fixed_ok n now l fw w :
  window_wf now w -> 0 <= now -> requests_per_minute_new l = Some l ->
  Zlen (attempts (prune now w)) + Z.of_nat n <= l ->
  next_reservation_id w + Z.of_nat n <= u64_max ->
  is_Some (reserve_fixed n now l fw w).
Proof.
  revert w. induction n as [|n IH]; intros w Hwf H0 Hl Hlen Hn;
    cbn [reserve_fixed]; [by eauto|].
  pose proof (requests_per_minute_bounds _ Hl) as [_ Hl2].
  assert (next_reservation_id w < u64_max) as Hn' by lia.
  destruct (try_reserve_cases _ _ w l fw true Hwf (Z.le_refl now) Hl Hn')
    as [(Hfull & _)|[(_ & ? & _)|(Hlt & _ & E)]]; [lia|done|].
  cbn zeta in E. rewrite E. apply IH; try done.
  - by apply reserved_wf with now l; try lia.
  - etransitivity; [|exact Hlen].
    assert (length (attempts (prune now {| attempts := attempts (prune now w) ++
        [{| rr_id := next_reservation_id w; started_at := now |}];
        next_reservation_id := next_reservation_id w + 1 |})) <=
        length (attempts (prune now w)) + 1)%nat; [|unfold Zlen; lia].
    etransitivity; [apply sublist_length, expire_front_sublist|]. simpl. by rewrite length_app.
  - simpl. lia.
Qed.

(** A normal reservation never takes a slot set aside for fixed waiters:
    right after it is granted, as many fixed reservations as there are fixed
    waiters still succeed. *)
Theorem rate_window_fixed_slots_kept now now0 w l fw r w' :
  window_wf now0 w -> now0 <= now -> 0 <= now0 -> requests_per_minute_new l = Some l ->
  0 <= fw -> next_reservation_id w + 1 + fw <= u64_max ->
  try_reserve now (Some l) fw false w = Ret (Ok (Some r), w') ->
  is_Some (reserve_fixed (Z.to_nat fw) now l fw w').
Proof.
  intros Hwf Hle H0 Hl Hfw Hn E.
  apply try_reserve_granted in E as (Hlen & Hn' & -> & -> & [?|Hav]); [done|].
  pose proof (requests_per_minute_bounds _ Hl) as [_ Hl2].
  apply reserve_fixed_ok; [by apply reserved_wf with now0 l|lia|done| |simpl; lia].
  etransitivity; [apply Z.add_le_mono_r, inj_le, sublist_length, expire_front_sublist|].
  unfold Zlen in *. simpl in *. rewrite length_app. simpl. lia.
Qed.

(** The window never panics: on every run, while fewer than [2^64 - 1]
    reservations were granted, [try_reserve] and [snapshot] return under every
    validated limit. *)
Theorem rate_window_no_panic L now s now' limit fw fixed :
  0 <= now -> 0 <= L <= MAX_REQUESTS_PER_MINUTE ->
  rtc (window_step L) (run_start now) s -> run_now s <= now' -> valid_limit limit ->
  next_reservation_id (run_window s) < u64_max ->
  try_reserve now' limit fw fixed (run_window s) <> Panic /\
  snapshot now' limit (run_window s) <> Panic.
Proof.
  intros H0 HL Hrun Hle Hv Hn. destruct (reachable_inv _ _ _ H0 HL Hrun) as [Hwf _ _ _ _].
  destruct limit as [l|]; [|done]. simpl in Hv. split.
  - destruct (try_reserve_cases _ _ _ _ fw fixed Hwf Hle Hv Hn)
      as [(_ & a & _ & E)|[(_ & _ & _ & E)|(_ & _ & E)]]; cbn zeta in E; by rewrite E.
  - pose proof (prune_wf _ _ _ Hwf Hle) as Hp. unfold snapshot.
    pose proof (requests_per_minute_bounds _ Hv) as [Hl1 _].
    destruct (next_available_at_ok _ _ _ Hp Hl1) as (a & -> & _). simpl.
    pose proof (wf_len _ _ Hp). unfold MAX_REQUESTS_PER_MINUTE, prune in *. simpl in *.
    by rewrite (proj2 (Z.leb_le _ u32_max)) by (unfold u32_max; lia).
Qed.

(** Rolling a reservation back removes exactly that reservation: right
    after it is granted the rollback answers true and gives back the window as
    pruned, and rolling it back again answers false and changes nothing. *)
Theorem rate_window_rollback_exact now now0 w l fw fixed r w' :
  window_wf now0 w -> now0 <= now ->
  try_reserve now (Some l) fw fixed w = Ret (Ok (Some r), w') ->
  exists w'', rollback r w' = (true, w'') /\ attempts w'' = attempts (prune now w) /\
    rollback r w'' = (false, w'').
Proof.
  intros Hwf Hle E. exists {| attempts := attempts (prune now w);
                              next_reservation_id := next_reservation_id w' |}.
  split; [by eapply rollback_granted|]. split; [done|].
  apply try_reserve_granted in E as (_ & _ & -> & _ & _).
  pose proof (wf_below _ _ (prune_wf _ _ _ Hwf Hle)) as Hb.
  unfold rollback. cbn [attempts rr_id]. pose proof (remove_id_above _ _ [] Hb) as Hr.
  rewrite app_nil_r in Hr. cbn [next_reservation_id prune] in Hr. by rewrite Hr.
Qed.

(** * Witnesses *)

Definition sample_reservation : RateReservation :=
  {| rr_id := 0; started_at := secs 100 |}.

Definition sample_window : CredentialRateWindow :=
  {| attempts := [sample_reservation]; next_reservation_id := 1 |}.

Definition sample_run : window_run :=
  {| run_now := secs 100; run_window := sample_window; run_granted := [sample_reservation] |}.

Lemma sample_run_reached : rtc (window_step 2) (run_start (secs 100)) sample_run.
Proof.
  apply rtc_once. eapply (step_granted 2 (run_start (secs 100)) (secs 100) (Some 2) 0 false);
    [done|done|done|reflexivity].
Qed.

Lemma sample_window_wf : window_wf (secs 100) sample_window.
Proof. apply (reachable_inv 2 (secs 100) sample_run); [done|done|apply sample_run_reached]. Qed.

Lemma rate_window_limit_respected_witness :
  Z.of_nat (length (filter (in_minute (secs 120)) (run_granted sample_run))) <= 2.
Proof.
  apply (rate_window_limit_respected 2 (secs 100) sample_run (secs 120));
    [done|done|apply sample_run_reached].
Defined.

(** With one slot, taken at 100 s, a request at 130 s is told 160 s; at 160 s
    it is granted. *)
Lemma rate_window_retry_at_exact_witness :
  exists r w'', try_reserve (secs 160) (Some 1) 0 true sample_window = Ret (Ok (Some r), w'').
Proof.
  apply (rate_window_retry_at_exact (secs 130) sample_window 1 0 false (secs 160)
           sample_window (secs 160) 0); try done.
  destruct sample_window_wf as [Hs Hi Hp Hb Hl Hn]. split; try done.
  eapply Forall_impl; [exact Hp|]. simpl. unfold secs. lia.
Defined.

Lemma rate_window_fixed_slots_kept_witness :
  is_Some (reserve_fixed 1 (secs 110) 3 1
    {| attempts := [sample_reservation; {| rr_id := 1; started_at := secs 110 |}];
       next_reservation_id := 2 |}).
Proof.
  apply (rate_window_fixed_slots_kept (secs 110) (secs 100) sample_window 3 1
           {| rr_id := 1; started_at := secs 110 |}); try done. apply sample_window_wf.
Defined.

Lemma rate_window_no_panic_witness :
  try_reserve (secs 100) (Some 2) 0 false sample_window <> Panic /\
  snapshot (secs 100) (Some 2) sample_window <> Panic.
Proof.
  apply (rate_window_no_panic 2 (secs 100) sample_run (secs 100) (Some 2) 0 false); try done.
  apply sample_run_reached.
Defined.

Lemma rate_window_rollback_exact_witness :
  exists w'', rollback {| rr_id := 1; started_at := secs 110 |}
      {| attempts := [sample_reservation; {| rr_id := 1; started_at := secs 110 |}];
         next_reservation_id := 2 |} = (true, w'') /\
    attempts w'' = attempts (prune (secs 110) sample_window) /\
    rollback {| rr_id := 1; started_at := secs 110 |} w'' = (false, w'').
Proof.
  apply (rate_window_rollback_exact (secs 110) (secs 100) sample_window 3 0 false);
    [apply sample_window_wf|done|reflexivity].
Defined.
