(* ===== verification/GatewayRate.v ===== *)
(** Entry rate limiting of the public API, per gateway API key
    ([crates/runtime/src/gateway_api_key/rate_limit.rs]).

    Every key has a handle with its own 60-second window.  Handles are shared
    ([Arc]) between the registry and the bindings of every published
    configuration, so they live in a store and are named by a reference;
    reconciling a configuration rebinds keys to the handles they already have. *)

From S2P Require Import Prelude RateWindow.

Local Open Scope Z_scope.

(** * One window *)

(** [GatewayApiKeyRateHandle]: the instants of the admitted requests. *)
Abbreviation rate_handle := (list Instant) (only parsing).

Record GatewayApiKeyRateLimitExceeded := { retry_after_seconds : Z }.

(** [Duration::as_secs] and [Duration::subsec_nanos] *)
Definition as_secs (d : Duration) : Z := d / 1000000000.
Definition subsec_nanos (d : Duration) : Z := d mod 1000000000.

(** Whole seconds to announce for a delay: rounded up, at least one. *)
Definition announced_seconds (retry_after : Duration) : Z :=
  Z.max (saturating_add u64_max (as_secs retry_after)
           (if subsec_nanos retry_after =? 0 then 0 else 1)) 1.

(** [GatewayApiKeyRateHandle::try_admit] *)
Definition handle_try_admit (now : Instant) (limit : Z) (attempts : rate_handle)
    : outcome (result unit GatewayApiKeyRateLimitExceeded * rate_handle) :=
  let attempts := expire_front (fun t => t) RATE_WINDOW now attempts in
  if limit <=? Zlen attempts
  then t ← index attempts (Z.to_nat (Zlen attempts - limit));
       let retry_at := t + RATE_WINDOW in
       let retry_after := saturating_duration_since retry_at now in
       Ret (Err {| retry_after_seconds := announced_seconds retry_after |}, attempts)
  else Ret (Ok tt, attempts ++ [now]).

(** * Registry, handles and bindings *)

Section registry.
Context {KeyId : Type} `{Countable KeyId}.

(** [GatewayApiKeyRateBinding]; the handle is a reference into the store. *)
Record GatewayApiKeyRateBinding := {
  handle : nat;
  requests_per_minute : option Z
}.

(** The store of handles, shared by the registry and all bindings. *)
Record handle_store := {
  windows : gmap nat rate_handle;
  next_handle : nat
}.

(** [GatewayApiKeyRateRegistry] *)
Abbreviation registry := (gmap KeyId nat) (only parsing).
(** [GatewayApiKeyRateBindings] *)
Abbreviation bindings := (gmap KeyId GatewayApiKeyRateBinding) (only parsing).

(** One iteration of the loop of [reconcile_specs]: keeps the key's handle or
    makes a default one, and binds the key to it. *)
Definition reconcile_one (spec : KeyId * option Z)
    (st : handle_store * registry * gset KeyId * bindings)
    : handle_store * registry * gset KeyId * bindings :=
  let '(store, handles, active, bound) := st in
  let '(id, rpm) := spec in
  let active := {[id]} ∪ active in
  match handles !! id with
  | Some h => (store, handles, active,
               <[id := {| handle := h; requests_per_minute := rpm |}]> bound)
  | None =>
      let h := next_handle store in
      ({| windows := <[h := []]> (windows store); next_handle := S h |},
       <[id := h]> handles, active,
       <[id := {| handle := h; requests_per_minute := rpm |}]> bound)
  end.

(** [GatewayApiKeyRateRegistry::reconcile_specs] *)
Definition reconcile_specs (specs : list (KeyId * option Z)) (store : handle_store)
    (handles : registry) : handle_store * registry * bindings :=
  let '(store, handles, active, bound) :=
    fold_left (fun st spec => reconcile_one spec st) specs (store, handles, ∅, ∅) in
  (store, filter (fun kv => kv.1 ∈ active) handles, bound).

(** [GatewayApiKeyRateBinding::try_admit_at] *)
Definition binding_try_admit_at (now : Instant) (b : GatewayApiKeyRateBinding)
    (store : handle_store) : outcome (result unit GatewayApiKeyRateLimitExceeded * handle_store) :=
  match requests_per_minute b with
  | None => Ret (Ok tt, store)
  | Some limit =>
      attempts ← expect (windows store !! handle b);
      '(r, attempts) ← handle_try_admit now limit attempts;
      Ret (r, {| windows := <[handle b := attempts]> (windows store);
                 next_handle := next_handle store |})
  end.

(** [GatewayApiKeyRateBindings::try_admit] *)
Definition try_admit (now : Instant) (id : KeyId) (bound : bindings) (store : handle_store)
    : outcome (result unit GatewayApiKeyRateLimitExceeded * handle_store) :=
  b ← expect (bound !! id); binding_try_admit_at now b store.

(** Every key of the registry has a window of its own in the store. *)
Record registry_wf (store : handle_store) (handles : registry) : Prop := {
  reg_live : forall id h, handles !! id = Some h -> is_Some (windows store !! h);
  reg_inj : forall id id' h, handles !! id = Some h -> handles !! id' = Some h -> id = id';
  reg_fresh : forall h, is_Some (windows store !! h) -> (h < next_handle store)%nat
}.

End registry.
Arguments handle_store : clear implicits.

(** * Lemmas on one window *)

Definition handle_wf (now : Instant) (q : rate_handle) : Prop :=
  StronglySorted Z.le q /\ Forall (fun t => 0 <= t <= now) q.

Lemma handle_wf_mono now now' q : now <= now' -> handle_wf now q -> handle_wf now' q.
Proof. intros ? [? Hp]. split; [done|]. eapply Forall_impl; [exact Hp|]. simpl. lia. Qed.

Lemma expire_wf now now' q :
  now <= now' -> handle_wf now q ->
  handle_wf now' (expire_front (fun t => t) RATE_WINDOW now' q).
Proof.
  intros Hle Hwf. apply (handle_wf_mono _ _ _ Hle) in Hwf as [Hs Hp].
  pose proof (expire_front_sublist (fun t => t) RATE_WINDOW now' q).
  split; [by eapply StronglySorted_sublist|by eapply Forall_sublist].
Qed.

Lemma push_wf now q : 0 <= now -> handle_wf now q -> handle_wf now (q ++ [now]).
Proof.
  intros H0 [Hs Hp]. split.
  - apply StronglySorted_snoc; [done|]. eapply Forall_impl; [exact Hp|]. simpl. lia.
  - apply Forall_app. split; [done|]. repeat constructor; lia.
Qed.

Lemma handle_try_admit_cases now now' l q :
  handle_wf now q -> now <= now' -> 1 <= l ->
  let p := expire_front (fun t => t) RATE_WINDOW now' q in
  (Zlen p < l /\ handle_try_admit now' l q = Ret (Ok tt, p ++ [now'])) \/
  (l <= Zlen p /\ exists t, p !! Z.to_nat (Zlen p - l) = Some t /\ t <= now' /\
     handle_try_admit now' l q =
       Ret (Err {| retry_after_seconds :=
              announced_seconds (Z.max 0 (t + RATE_WINDOW - now')) |}, p)).
Proof.
  intros Hwf Hle Hl p. pose proof (expire_wf _ _ _ Hle Hwf) as [_ Hp]. fold p in Hp.
  unfold handle_try_admit, index. fold p. clearbody p.
  destruct (l <=? Zlen p) eqn:E; bool_to_prop; [right|by left]. split; [done|].
  destruct (lookup_lt_is_Some_2 p (Z.to_nat (Zlen p - l))) as [t Ht]; [unfold Zlen in *; lia|].
  exists t. rewrite Ht. split; [done|]. split; [|done].
  rewrite Forall_lookup in Hp. apply Hp in Ht. lia.
Qed.

(** What [announced_seconds] announces: enough whole seconds to cover the
    delay, and no fewer would do. *)
Lemma announced_seconds_ceiling d :
  0 <= d -> d <= RATE_WINDOW ->
  1 <= announced_seconds d /\ d <= secs (announced_seconds d) /\
  (2 <= announced_seconds d -> secs (announced_seconds d - 1) < d).
Proof.
  unfold announced_seconds, saturating_add, as_secs, subsec_nanos, secs, RATE_WINDOW, u64_max.
  intros H0 H1. pose proof (Z.div_mod d 1000000000). pose proof (Z.mod_pos_bound d 1000000000).
  unfold secs in H1. destruct (d mod 1000000000 =? 0) eqn:E; bool_to_prop; lia.
Qed.

(** * Runs of one window *)

(** The calls of a run, with the admitted instants in a log. *)
Fixpoint admit_run (calls : list (Instant * Z)) (q : rate_handle) (log : list Instant)
    : outcome (rate_handle * list Instant) :=
  match calls with
  | [] => Ret (q, log)
  | (now, l) :: calls =>
      '(r, q) ← handle_try_admit now l q;
      admit_run calls q (if is_ok r then log ++ [now] else log)
  end.

Definition admitted_in_minute (t : Instant) (log : list Instant) : Z :=
  Zlen (filter (fun a => t - RATE_WINDOW < a <= t) log).

Record admit_inv (L now : Z) (q log : list Instant) : Prop := {
  ai_wf : handle_wf now q;
  ai_log : filter (in_window (fun t => t) RATE_WINDOW now) log =
           filter (in_window (fun t => t) RATE_WINDOW now) q;
  ai_count : forall t, admitted_in_minute t log <= L
}.

Lemma expire_log L now now' q log :
  admit_inv L now q log -> now <= now' ->
  filter (in_window (fun t => t) RATE_WINDOW now') log =
  expire_front (fun t => t) RATE_WINDOW now' q.
Proof.
  intros [[Hs Hp] Hlog _] Hle. rewrite (expire_front_filter _ _ now); try done.
  apply (f_equal (filter (in_window (fun t => t) RATE_WINDOW now'))) in Hlog.
  rewrite !list_filter_filter_l in Hlog; try done; unfold in_window; intros; lia.
Qed.

Lemma admit_inv_step L now now' l q log :
  admit_inv L now q log -> now <= now' -> 0 <= now' -> 1 <= l <= L ->
  exists r q', handle_try_admit now' l q = Ret (r, q') /\
    admit_inv L now' q' (if is_ok r then log ++ [now'] else log).
Proof.
  intros Hinv Hle H0 Hl. pose proof (expire_log _ _ _ _ _ Hinv Hle) as Hlog.
  destruct Hinv as [Hwf _ Hc]. pose proof (expire_wf _ _ _ Hle Hwf) as Hwf'.
  destruct (handle_try_admit_cases _ _ l _ Hwf Hle) as [[Hlen ->]|(Hlen & t & _ & _ & ->)]; [lia| |].
  - do 2 eexists. split; [done|]. cbn [is_ok].
    set (p := expire_front _ _ _ _) in *. assert (filter (in_window (fun t => t) RATE_WINDOW now') p = p) as Hpp.
    { rewrite <- Hlog, list_filter_filter. apply list_filter_iff. tauto. }
    split; [by apply push_wf|by rewrite !filter_app, Hlog, Hpp|].
    intros t. specialize (Hc t). unfold admitted_in_minute, Zlen in *.
    rewrite filter_app, length_app, filter_singleton by exact [].
    case_decide as Hin; simpl; [|lia].
    enough (Z.of_nat (length (filter (fun a => t - RATE_WINDOW < a <= t) log)) <=
            Z.of_nat (length p)) by lia.
    rewrite <- Hlog. apply inj_le, filter_length_mono. intros x _. unfold in_window. lia.
  - do 2 eexists. split; [done|]. cbn [is_ok]. split; [done| |done].
    by rewrite <- Hlog, list_filter_filter; apply list_filter_iff; tauto.
Qed.

Lemma admit_run_inv L now calls q log :
  admit_inv L now q log -> 0 <= now ->
  StronglySorted (fun a b => a.1 <= b.1) calls ->
  Forall (fun c => now <= c.1 /\ 1 <= c.2 <= L) calls ->
  exists q' log' now', admit_run calls q log = Ret (q', log') /\ admit_inv L now' q' log'.
Proof.
  revert now q log. induction calls as [|[now' l] calls IH]; intros now q log Hinv H0 Hs Hf.
  { by eauto. }
  apply StronglySorted_inv in Hs as [Hs Hx]. apply Forall_cons in Hf as [[Hle Hl] Hf].
  destruct (admit_inv_step L now now' l q log) as (r & q' & E & Hinv'); try done; [simpl in *; lia|].
  simpl. rewrite E. simpl. apply (IH now'); try done; [simpl in *; lia|].
  rewrite Forall_forall in Hf, Hx |- *. intros c Hin. split; [by apply Hx|by apply Hf].
Qed.

(** * Properties of one window *)

(** Entry limiting of a key: for any calls at non-decreasing times under
    validated limits of at most [L], no call panics and at most [L] requests
    are admitted in any 60-second span. *)
Theorem gateway_rate_limit_respected L calls :
  StronglySorted (fun a b => a.1 <= b.1) calls ->
  Forall (fun c => 0 <= c.1 /\ requests_per_minute_new c.2 = Some c.2 /\ c.2 <= L) calls ->
  0 <= L ->
  exists q log, admit_run calls [] [] = Ret (q, log) /\
    forall t, admitted_in_minute t log <= L.
Proof.
  intros Hs Hf HL. destruct (admit_run_inv L 0 calls [] []) as (q & log & now & E & Hinv).
  - by repeat (split || constructor).
  - done.
  - done.
  - eapply Forall_impl; [exact Hf|]. intros c (H0 & Hv & Hle).
    apply requests_per_minute_bounds in Hv. lia.
  - exists q, log. split; [done|]. apply Hinv.
Qed.

(** The [Retry-After] seconds a refused caller is told are at least one,
    suffice (left alone, a call that many seconds later is admitted) and are
    not more than needed (a call one second earlier is still refused). *)
Theorem gateway_rate_retry_after_exact now l q e q' :
  handle_wf now q -> requests_per_minute_new l = Some l ->
  handle_try_admit now l q = Ret (Err e, q') ->
  1 <= retry_after_seconds e /\
  (exists q'', handle_try_admit (now + secs (retry_after_seconds e)) l q' = Ret (Ok tt, q'')) /\
  (2 <= retry_after_seconds e -> exists e' q'',
     handle_try_admit (now + secs (retry_after_seconds e - 1)) l q' = Ret (Err e', q'')).
Proof.
  intros Hwf Hv E. apply requests_per_minute_bounds in Hv as [Hl _].
  pose proof (expire_wf _ _ _ (Z.le_refl now) Hwf) as Hwf'.
  destruct (handle_try_admit_cases _ _ l _ Hwf (Z.le_refl now) Hl)
    as [[_ E']|(Hfull & t & Ht & Htn & E')]; rewrite E in E'; simplify_eq.
  cbn [retry_after_seconds]. set (p := expire_front _ _ _ _) in *. clearbody p. clear E.
  set (s := announced_seconds _).
  destruct (announced_seconds_ceiling (Z.max 0 (t + RATE_WINDOW - now))) as (H1 & H2 & H3);
    [lia|unfold RATE_WINDOW, secs; lia|]. fold s in H1, H2, H3.
  split; [done|]. destruct Hwf' as [Hs Hp].
  assert (forall now', now <= now' ->
    ((Z.to_nat l <= length (expire_front (fun t => t) RATE_WINDOW now' p))%nat <->
      now' < t + RATE_WINDOW)) as Hiff.
  { intros now' Hle. apply (expire_front_still_full (fun t => t) RATE_WINDOW now now' p); try done.
    - lia.
    - unfold Zlen in *. lia.
    - unfold Zlen in *. rewrite <- Ht. f_equal. lia. }
  split.
  - destruct (handle_try_admit_cases now (now + secs s) l p) as [[_ ->]|(Hf & _)];
      [done|unfold secs; lia|done|by eauto|].
    exfalso. assert (now + secs s < t + RATE_WINDOW); [|lia].
    apply Hiff; [unfold secs; lia|]. unfold Zlen in Hf. lia.
  - intros Hs2. specialize (H3 Hs2).
    destruct (handle_try_admit_cases now (now + secs (s - 1)) l p) as [[Hf _]|(_ & t' & _ & _ & ->)];
      [done|unfold secs; lia|done| |by eauto].
    exfalso. assert (now + secs (s - 1) < t + RATE_WINDOW) as Hlt by (unfold secs in *; lia).
    apply Hiff in Hlt; [|unfold secs; lia]. unfold Zlen in Hf. lia.
Qed.

(** * Properties of the registry *)

Section registry_props.
Context {KeyId : Type} `{Countable KeyId}.
Implicit Types (handles : gmap KeyId nat) (store : handle_store).
Implicit Types (bound : gmap KeyId GatewayApiKeyRateBinding).

(** What the loop of [reconcile_specs] maintains over the specs done so far. *)
Record reconcile_inv store0 handles0 (seen : list (KeyId * option Z))
    store handles (active : gset KeyId) bound : Prop := {
  ri_windows : forall h w, windows store0 !! h = Some w -> windows store !! h = Some w;
  ri_old : forall id h, handles0 !! id = Some h -> handles !! id = Some h;
  ri_new : forall id h, handles0 !! id = None -> handles !! id = Some h ->
    windows store !! h = Some [];
  ri_active : forall id, id ∈ active <-> id ∈ seen.*1;
  ri_dom : forall id, id ∈ active <-> is_Some (bound !! id);
  ri_bound : forall id b, bound !! id = Some b ->
    handles !! id = Some (handle b) /\ (id, requests_per_minute b) ∈ seen;
  ri_wf : registry_wf store handles
}.

Lemma reconcile_one_inv store0 handles0 seen store handles active bound spec st' :
  reconcile_inv store0 handles0 seen store handles active bound ->
  reconcile_one spec (store, handles, active, bound) = st' ->
  reconcile_inv store0 handles0 (seen ++ [spec]) st'.1.1.1 st'.1.1.2 st'.1.2 st'.2.
Proof.
  intros Hinv <-. destruct spec as [id rpm]. unfold reconcile_one.
  destruct Hinv as [Hw Ho Hn Ha Hd Hb [Hl Hi Hf]].
  destruct (handles !! id) as [h|] eqn:Eh; simpl.
  - split; try done.
    + intros id'. rewrite fmap_app. set_solver.
    + intros id'. rewrite elem_of_union, elem_of_singleton, Hd, lookup_insert.
      case_decide; naive_solver.
    + intros id' b. rewrite lookup_insert. case_decide; [intros [= <-]|intros Hb'].
      * subst. simpl. split; [done|set_solver].
      * apply Hb in Hb' as [? ?]. split; [done|set_solver].
  - assert (windows store !! next_handle store = None) as Hfresh.
    { destruct (windows store !! next_handle store) eqn:E; [|done].
      pose proof (Hf (next_handle store)) as Hlt. rewrite E in Hlt. specialize (Hlt ltac:(by eauto)). lia. }
    split; simpl.
    + intros h w Hh. apply Hw in Hh. rewrite lookup_insert_ne; congruence.
    + intros id' h Hh. apply Ho in Hh. rewrite lookup_insert_ne; congruence.
    + intros id' h Hh. rewrite lookup_insert. case_decide.
      * intros [= <-]. by rewrite lookup_insert_eq.
      * intros Hh'. rewrite lookup_insert_ne; [by eapply Hn|].
        intros <-. apply Hl in Hh'. rewrite Hfresh in Hh'. by destruct Hh'.
    + intros id'. rewrite fmap_app. set_solver.
    + intros id'. rewrite elem_of_union, elem_of_singleton, Hd, lookup_insert.
      case_decide; naive_solver.
    + intros id' b. rewrite lookup_insert. case_decide; [intros [= <-]|intros Hb'].
      * subst. simpl. rewrite lookup_insert_eq. split; [done|set_solver].
      * apply Hb in Hb' as [? ?]. rewrite lookup_insert_ne by done. split; [done|set_solver].
    + split; simpl.
      * intros id' h. rewrite lookup_insert_Some. intros [[_ <-]|[_ Hh]].
        -- rewrite lookup_insert_eq. by eauto.
        -- apply lookup_insert_is_Some'. right. by eapply Hl.
      * intros id1 id2 h. rewrite !lookup_insert_Some.
        intros [[<- <-]|[Hne Hh]] [[<- E]|[Hne' Hh']]; [done| | |by eapply Hi].
        -- apply Hl in Hh'. rewrite Hfresh in Hh'. by destruct Hh'.
        -- subst. apply Hl in Hh. rewrite Hfresh in Hh. by destruct Hh.
      * intros h. rewrite lookup_insert. case_decide; [lia|]. intros Hh. apply Hf in Hh. lia.
Qed.

Lemma reconcile_fold_inv store0 handles0 specs seen store handles active bound :
  reconcile_inv store0 handles0 seen store handles active bound ->
  let st := fold_left (fun st spec => reconcile_one spec st) specs (store, handles, active, bound) in
  reconcile_inv store0 handles0 (seen ++ specs) st.1.1.1 st.1.1.2 st.1.2 st.2.
Proof.
  revert seen store handles active bound.
  induction specs as [|spec specs IH]; intros seen store handles active bound Hinv.
  { by rewrite app_nil_r. }
  cbn [fold_left]. destruct (reconcile_one spec _) as [[[store' handles'] active'] bound'] eqn:E.
  apply (reconcile_one_inv _ _ _ _ _ _ _ _ _ Hinv) in E. simpl in E.
  apply IH in E. by rewrite <- app_assoc in E.
Qed.

(** What publishing a configuration establishes. *)
Lemma reconcile_specs_facts specs store handles store' handles' bound :
  registry_wf store handles ->
  reconcile_specs specs store handles = (store', handles', bound) ->
  registry_wf store' handles' /\
  (forall h w, windows store !! h = Some w -> windows store' !! h = Some w) /\
  (forall id, is_Some (handles' !! id) <-> id ∈ specs.*1) /\
  (forall id, id ∈ specs.*1 -> exists b,
     bound !! id = Some b /\ handles' !! id = Some (handle b) /\
     (id, requests_per_minute b) ∈ specs /\
     match handles !! id with
     | Some h => handle b = h
     | None => windows store' !! handle b = Some []
     end).
Proof.
  intros Hwf E. unfold reconcile_specs in E.
  assert (reconcile_inv store handles [] store handles ∅ ∅) as Hinv.
  { split; try done.
    - intros. congruence.
    - intros id. simpl. set_solver.
    - intros id. rewrite lookup_empty. split; [set_solver|by intros []]. }
  apply (reconcile_fold_inv _ _ specs) in Hinv. cbn zeta in Hinv.
  destruct (fold_left _ _ _) as [[[st2 h2] a2] b2]. simpl in Hinv. simplify_eq.
  destruct Hinv as [Hw Ho Hn Ha Hd Hb [Hl Hi Hf]].
  assert (forall id h, filter (fun kv => kv.1 ∈ a2) h2 !! id = Some h <->
            h2 !! id = Some h /\ id ∈ specs.*1) as Hflt.
  { intros id h. rewrite map_lookup_filter_Some. simpl. by rewrite Ha. }
  split_and!.
  - split; [| |done].
    + intros id h Hh. apply Hflt in Hh as [Hh _]. by eapply Hl.
    + intros id id' h Hh Hh'. apply Hflt in Hh as [Hh _], Hh' as [Hh' _]. by eapply Hi.
  - done.
  - intros id. split.
    + intros [h Hh]. by apply Hflt in Hh as [_ ?].
    + intros Hid. pose proof Hid as Hid'. apply Ha, Hd in Hid as [b Hb'].
      apply Hb in Hb' as [Hh _]. exists (handle b). by apply Hflt.
  - intros id Hid. pose proof Hid as Hid'. apply Ha, Hd in Hid as [b Hb'].
    exists b. split; [done|]. apply Hb in Hb' as [Hh Hs]. split; [by apply Hflt|].
    split; [done|]. destruct (handles !! id) as [h|] eqn:Eh.
    + apply Ho in Eh. congruence.
    + by eapply Hn.
Qed.

Lemma handle_try_admit_total now l q :
  1 <= l -> exists r q', handle_try_admit now l q = Ret (r, q').
Proof.
  intros Hl. unfold handle_try_admit, index. set (p := expire_front _ _ _ _). clearbody p.
  destruct (l <=? Zlen p) eqn:E; bool_to_prop; [|by eauto].
  destruct (lookup_lt_is_Some_2 p (Z.to_nat (Zlen p - l))) as [t ->]; [unfold Zlen in *; lia|].
  by eauto.
Qed.

(** Publishing a configuration keeps the windows: a key that stays bound
    keeps its handle and the requests it has counted, a new key starts empty,
    keys that are gone lose their registry entry, every key is bound to a
    window of its own, and windows that older bindings still use survive. *)
Theorem gateway_rate_reconcile_keeps_windows specs store handles store' handles' bound :
  registry_wf store handles ->
  reconcile_specs specs store handles = (store', handles', bound) ->
  registry_wf store' handles' /\
  (forall h w, windows store !! h = Some w -> windows store' !! h = Some w) /\
  (forall id, is_Some (handles' !! id) <-> id ∈ specs.*1) /\
  (forall id, id ∈ specs.*1 -> exists b,
     bound !! id = Some b /\ handles' !! id = Some (handle b) /\
     (id, requests_per_minute b) ∈ specs /\
     match handles !! id with
     | Some h => handle b = h
     | None => windows store' !! handle b = Some []
     end).
Proof. apply reconcile_specs_facts. Qed.

(** Admission is isolated per key and does not panic: for keys of the
    published configuration, admitting a request of one key leaves the window
    of every other key as it was. *)
Theorem gateway_rate_admission_isolated specs store handles store' handles' bound now id :
  registry_wf store handles ->
  reconcile_specs specs store handles = (store', handles', bound) ->
  id ∈ specs.*1 -> Forall (fun s => valid_limit s.2) specs ->
  exists r store'', try_admit now id bound store' = Ret (r, store'') /\
    forall id' h', id' <> id -> handles' !! id' = Some h' ->
      windows store'' !! h' = windows store' !! h'.
Proof.
  intros Hwf E Hid Hv.
  destruct (reconcile_specs_facts _ _ _ _ _ _ Hwf E) as ([Hl Hi _] & _ & _ & Hb).
  destruct (Hb _ Hid) as (b & Eb & Hh & Hin & _). unfold try_admit, binding_try_admit_at.
  rewrite Eb. simpl. rewrite Forall_forall in Hv. apply Hv in Hin. simpl in Hin.
  destruct (requests_per_minute b) as [l|]; [|by eauto].
  apply requests_per_minute_bounds in Hin as [Hl1 _].
  destruct (Hl _ _ Hh) as [q Eq]. rewrite Eq. simpl.
  destruct (handle_try_admit_total now l q Hl1) as (r & q' & ->). simpl.
  do 2 eexists. split; [done|]. simpl. intros id' h' Hne Hh'.
  rewrite lookup_insert_ne; [done|]. intros <-. by apply Hne, (Hi _ _ (handle b)).
Qed.
End registry_props.

(** * Witnesses *)

Lemma gateway_rate_limit_respected_witness :
  exists q log, admit_run [(secs 1, 1); (secs 2, 1)] [] [] = Ret (q, log) /\
    forall t, admitted_in_minute t log <= 1.
Proof.
  apply (gateway_rate_limit_respected 1); [|by repeat constructor|done].
  repeat constructor; simpl; unfold secs; lia.
Defined.

Lemma gateway_rate_retry_after_exact_witness :
  1 <= 30 /\
  (exists q'', handle_try_admit (secs 130 + secs 30) 1 [secs 100] = Ret (Ok tt, q'')) /\
  (2 <= 30 -> exists e' q'',
     handle_try_admit (secs 130 + secs (30 - 1)) 1 [secs 100] = Ret (Err e', q'')).
Proof.
  apply (gateway_rate_retry_after_exact (secs 130) 1 [secs 100]
           {| retry_after_seconds := 30 |} [secs 100]); [|done|reflexivity].
  by repeat constructor.
Defined.

Definition sample_store : handle_store :=
  {| windows := {[0%nat := [secs 5]]}; next_handle := 1 |}.
Definition sample_handles : gmap Z nat := {[7 := 0%nat]}.

Lemma sample_registry_wf : registry_wf sample_store sample_handles.
Proof.
  split; unfold sample_store, sample_handles; simpl.
  - intros id h [_ <-]%lookup_singleton_Some. rewrite lookup_singleton_eq. by eauto.
  - by intros id id' h [<- _]%lookup_singleton_Some [<- _]%lookup_singleton_Some.
  - intros h [w [<- _]%lookup_singleton_Some]. lia.
Qed.

Lemma gateway_rate_reconcile_keeps_windows_witness :
  let '(store', handles', bound) :=
    reconcile_specs [(7, Some 2); (8, None)] sample_store sample_handles in
  registry_wf store' handles' /\ exists b, bound !! 8 = Some b /\ windows store' !! handle b = Some [].
Proof.
  destruct (reconcile_specs _ _ _) as [[store' handles'] bound] eqn:E.
  destruct (gateway_rate_reconcile_keeps_windows _ _ _ _ _ _ sample_registry_wf E)
    as (Hwf & _ & _ & Hb).
  split; [exact Hwf|]. destruct (Hb 8) as (b & Eb & _ & _ & Hn).
  - vm_compute. do 2 constructor.
  - by exists b.
Defined.

Lemma gateway_rate_admission_isolated_witness :
  let '(store', handles', bound) :=
    reconcile_specs [(7, Some 2); (8, None)] sample_store sample_handles in
  exists r store'', try_admit (secs 9) 7 bound store' = Ret (r, store'').
Proof.
  destruct (reconcile_specs _ _ _) as [[store' handles'] bound] eqn:E.
  destruct (gateway_rate_admission_isolated _ _ _ _ _ _ (secs 9) 7 sample_registry_wf E)
    as (r & store'' & Er & _).
  - vm_compute. constructor.
  - by repeat constructor.
  - by exists r, store''.
Defined.
