(* ===== verification/PayloadBuffer.v ===== *)
(** The bounded byte buffer of [crates/payload-buffer/src/buffer.rs].

    A buffer keeps its bytes on the heap while it is small and moves them to an
    anonymous memory mapping once it grows past 2 MiB.  The allocator is outside
    the crate: it is an argument of the operations that allocate, and
    [allocator_ok] states what [Vec::try_reserve], [Vec::try_reserve_exact] and
    [MmapMut::map_anon] document.  The file ends with the interface
    [BoundedBuffer] that the clients of the buffer are verified against, and the
    instance that discharges it. *)

From Stdlib Require Export Strings.Byte.
From S2P Require Import Prelude.

Local Open Scope Z_scope.

#[export] Instance byte_eq_dec : EqDecision byte := Byte.byte_eq_dec.

(** * The allocator *)

(** [reserve len capacity additional] and [reserve_exact] answer the new
    capacity of a [Vec<u8>], [map_pages capacity] the bytes of a fresh mapping;
    [None] is an allocation failure. *)
Record allocator := {
  reserve : Z -> Z -> Z -> option Z;
  reserve_exact : Z -> Z -> Z -> option Z;
  map_pages : Z -> option (list byte)
}.

Record allocator_ok (a : allocator) : Prop := {
  reserve_enough : forall len cap n cap',
    reserve a len cap n = Some cap' -> len + n <= cap' /\ cap <= cap' <= usize_max;
  reserve_exact_enough : forall len cap n cap',
    reserve_exact a len cap n = Some cap' -> len + n <= cap' /\ cap <= cap' <= usize_max;
  map_pages_len : forall n m, map_pages a n = Some m -> Zlen m = n
}.

(** * Data *)

Definition DIRECT_MMAP_THRESHOLD_BYTES : Z := 2 * 1024 * 1024.

(** [Heap bytes capacity] is a [Vec<u8>]; [Mapped bytes] is a mapping with all
    of its bytes, those past the buffer's length included. *)
Inductive Storage :=
| Heap (bytes : list byte) (capacity : Z)
| Mapped (bytes : list byte).

Record PayloadBuffer := {
  storage : Storage;
  len : Z;
  max_len : Z
}.

Inductive PayloadBufferError := TooLarge | AllocationFailed.

Record FrozenPayload := {
  frozen_bytes : list byte;
  frozen_allocated_bytes : Z
}.

(** * Slices *)

(** [dst[start..end].copy_from_slice(src)]: panics when the range is not in
    [dst] or the lengths differ. *)
Definition copy_range (dst : list byte) (start end_ : Z) (src : list byte)
    : outcome (list byte) :=
  if (0 <=? start) && (start <=? end_) && (end_ <=? Zlen dst) && (Zlen src =? end_ - start)
  then Ret (take (Z.to_nat start) dst ++ src ++ drop (Z.to_nat end_) dst)
  else Panic.

(** [&bytes[..end]] *)
Definition slice_to (bytes : list byte) (end_ : Z) : outcome (list byte) :=
  if (0 <=? end_) && (end_ <=? Zlen bytes) then Ret (take (Z.to_nat end_) bytes) else Panic.

(** * Operations *)

(** [Storage::allocated_bytes] *)
Definition allocated_bytes (s : Storage) : Z :=
  match s with
  | Heap _ capacity => capacity
  | Mapped bytes => Zlen bytes
  end.

(** [Storage::as_ref] *)
Definition storage_as_ref (s : Storage) : list byte :=
  match s with
  | Heap bytes _ => bytes
  | Mapped bytes => bytes
  end.

(** [PayloadBuffer::new] *)
Definition payload_new (max_len : Z) : PayloadBuffer :=
  {| storage := Heap [] 0; len := 0; max_len := max_len |}.

(** [map_anon] *)
Definition map_anon (a : allocator) (capacity : Z) : result (list byte) PayloadBufferError :=
  match map_pages a capacity with
  | Some m => Ok m
  | None => Err AllocationFailed
  end.

(** [allocate_storage] *)
Definition allocate_storage (a : allocator) (capacity : Z) : result Storage PayloadBufferError :=
  if DIRECT_MMAP_THRESHOLD_BYTES <=? capacity
  then match map_anon a capacity with
       | Ok m => Ok (Mapped m)
       | Err e => Err e
       end
  else match reserve_exact a 0 0 capacity with
       | Some cap => Ok (Heap [] cap)
       | None => Err AllocationFailed
       end.

(** [PayloadBuffer::with_capacity_hint] *)
Definition with_capacity_hint (a : allocator) (expected_len : option Z) (max_len : Z)
    : result PayloadBuffer PayloadBufferError :=
  let capacity := match expected_len with
                  | Some expected => if expected <=? max_len then expected else 0
                  | None => 0
                  end in
  match allocate_storage a capacity with
  | Ok s => Ok {| storage := s; len := 0; max_len := max_len |}
  | Err e => Err e
  end.

(** [PayloadBuffer::ensure_capacity]; [Panic] on the [unreachable!] and on a
    slice out of range. *)
Definition ensure_capacity (a : allocator) (required : Z) (b : PayloadBuffer)
    : outcome (result unit PayloadBufferError * PayloadBuffer) :=
  let current := allocated_bytes (storage b) in
  if required <=? current then Ret (Ok tt, b)
  else if required <? DIRECT_MMAP_THRESHOLD_BYTES
  then match storage b with
       | Mapped _ => Panic
       | Heap bytes capacity =>
           match reserve a (Zlen bytes) capacity (saturating_sub required (Zlen bytes)) with
           | None => Ret (Err AllocationFailed, b)
           | Some capacity =>
               Ret (Ok tt, {| storage := Heap bytes capacity; len := len b;
                              max_len := max_len b |})
           end
       end
  else
    let capacity := Z.min (Z.max required (saturating_mul usize_max current 2)) (max_len b) in
    match map_anon a capacity with
    | Err e => Ret (Err e, b)
    | Ok replacement =>
        replacement ← match storage b with
                      | Heap bytes _ => copy_range replacement 0 (len b) bytes
                      | Mapped bytes =>
                          src ← slice_to bytes (len b);
                          copy_range replacement 0 (len b) src
                      end;
        Ret (Ok tt, {| storage := Mapped replacement; len := len b; max_len := max_len b |})
    end.

(** [Vec::extend_from_slice]: reallocates when the capacity is short, and
    aborts when that fails. *)
Definition vec_extend (a : allocator) (bytes : list byte) (capacity : Z) (more : list byte)
    : outcome Storage :=
  if Zlen bytes + Zlen more <=? capacity then Ret (Heap (bytes ++ more) capacity)
  else capacity ← expect (reserve a (Zlen bytes) capacity (Zlen more));
       Ret (Heap (bytes ++ more) capacity).

(** [PayloadBuffer::extend_from_slice] *)
Definition extend_from_slice (a : allocator) (bytes : list byte) (b : PayloadBuffer)
    : outcome (result unit PayloadBufferError * PayloadBuffer) :=
  match checked_add usize_max (len b) (Zlen bytes) with
  | None => Ret (Err TooLarge, b)
  | Some next_len =>
      if next_len <=? max_len b then
        '(r, b) ← ensure_capacity a next_len b;
        match r with
        | Err e => Ret (Err e, b)
        | Ok _ =>
            s ← match storage b with
                | Heap old capacity => vec_extend a old capacity bytes
                | Mapped old => Mapped <$> copy_range old (len b) next_len bytes
                end;
            Ret (Ok tt, {| storage := s; len := next_len; max_len := max_len b |})
        end
      else Ret (Err TooLarge, b)
  end.

(** [PayloadBuffer::as_slice] *)
Definition as_slice (b : PayloadBuffer) : outcome (list byte) :=
  match storage b with
  | Heap bytes _ => Ret bytes
  | Mapped bytes => slice_to bytes (len b)
  end.

(** [PayloadBuffer::is_empty] *)
Definition payload_is_empty (b : PayloadBuffer) : bool := len b =? 0.

(** [PayloadBuffer::freeze] *)
Definition freeze (b : PayloadBuffer) : outcome FrozenPayload :=
  if len b =? 0 then Ret {| frozen_bytes := []; frozen_allocated_bytes := 0 |}
  else bytes ← slice_to (storage_as_ref (storage b)) (len b);
       Ret {| frozen_bytes := bytes;
              frozen_allocated_bytes := allocated_bytes (storage b) |}.

(** [buffer_io_error], by the kind of the error *)
Inductive ErrorKind := WriteZero | OutOfMemory.
Definition buffer_io_error (e : PayloadBufferError) : ErrorKind :=
  match e with TooLarge => WriteZero | AllocationFailed => OutOfMemory end.

(** [Write::write] *)
Definition write (a : allocator) (bytes : list byte) (b : PayloadBuffer)
    : outcome (result Z ErrorKind * PayloadBuffer) :=
  '(r, b) ← extend_from_slice a bytes b;
  Ret (match r with Ok _ => Ok (Zlen bytes) | Err e => Err (buffer_io_error e) end, b).

(** * Representation *)

(** [represents b max l]: the buffer holds exactly the bytes [l] under the
    bound [max], and its storage is in one of the two shapes the code keeps. *)
Record represents (b : PayloadBuffer) (max : Z) (l : list byte) : Prop := {
  rep_max : max_len b = max;
  rep_max_range : 0 <= max <= usize_max;
  rep_len : len b = Zlen l;
  rep_bound : Zlen l <= max;
  rep_storage : match storage b with
                | Heap bytes capacity => bytes = l /\ Zlen l <= capacity <= usize_max
                | Mapped bytes => take (length l) bytes = l /\
                    DIRECT_MMAP_THRESHOLD_BYTES <= Zlen bytes <= usize_max
                end
}.

Lemma Zlen_nonneg {A} (l : list A) : 0 <= Zlen l.
Proof. unfold Zlen. lia. Qed.

Lemma Zlen_app {A} (k l : list A) : Zlen (k ++ l) = Zlen k + Zlen l.
Proof. unfold Zlen. rewrite length_app. lia. Qed.

Lemma Zlen_nat {A} (l : list A) : Z.to_nat (Zlen l) = length l.
Proof. unfold Zlen. lia. Qed.

#[export] Hint Resolve Zlen_nonneg : any2api.

Lemma take_prefix_len (l bytes : list byte) :
  take (length l) bytes = l -> Zlen l <= Zlen bytes.
Proof.
  intros E. apply (f_equal length) in E. rewrite length_take in E. unfold Zlen. lia.
Qed.

(** Copying [src] behind the prefix [l] extends the prefix. *)
Lemma copy_range_append dst l src :
  take (length l) dst = l -> Zlen l + Zlen src <= Zlen dst ->
  exists dst', copy_range dst (Zlen l) (Zlen l + Zlen src) src = Ret dst' /\
    take (length (l ++ src)) dst' = l ++ src /\ Zlen dst' = Zlen dst.
Proof.
  intros Hl Hlen. pose proof (Zlen_nonneg l). pose proof (Zlen_nonneg src).
  unfold copy_range. rewrite !(proj2 (Z.leb_le _ _)) by lia.
  rewrite (proj2 (Z.eqb_eq _ _)) by lia. eexists. split; [done|].
  rewrite Zlen_nat, Hl. split.
  - rewrite app_assoc, take_app_length'; done.
  - rewrite !Zlen_app. unfold Zlen in *. rewrite length_drop. lia.
Qed.

Lemma slice_to_prefix l bytes :
  take (length l) bytes = l -> slice_to bytes (Zlen l) = Ret l.
Proof.
  intros E. pose proof (Zlen_nonneg l). pose proof (take_prefix_len _ _ E). unfold slice_to.
  rewrite !(proj2 (Z.leb_le _ _)) by lia. simpl. by rewrite Zlen_nat, E.
Qed.

Lemma payload_new_rep max : 0 <= max <= usize_max -> represents (payload_new max) max [].
Proof.
  intros. split; simpl; try done; unfold Zlen, usize_max in *; simpl; lia.
Qed.

Lemma with_capacity_hint_rep a hint max b :
  allocator_ok a -> 0 <= max <= usize_max ->
  (forall n, hint = Some n -> 0 <= n <= usize_max) ->
  with_capacity_hint a hint max = Ok b -> represents b max [].
Proof.
  intros [_ He Hm] Hmax Hh. unfold with_capacity_hint.
  set (c := match hint with Some _ => _ | None => _ end).
  assert (0 <= c <= usize_max) as Hc.
  { subst c. destruct hint as [n|]; [|lia]. specialize (Hh n eq_refl). solve_cases. }
  clearbody c. unfold allocate_storage, map_anon.
  destruct (_ <=? c) eqn:E; bool_to_prop.
  - destruct (map_pages a c) as [m|] eqn:Em; [|done]. intros [= <-]. apply Hm in Em.
    split; simpl; try done; try (unfold Zlen; simpl; lia).
    split; [done|]. lia.
  - destruct (reserve_exact a 0 0 c) as [cap|] eqn:Er; [|done]. intros [= <-].
    apply He in Er. split; simpl; try done; try (unfold Zlen; simpl; lia).
    split; [done|]. unfold Zlen. simpl. lia.
Qed.

(** Ensuring a capacity within the bound succeeds or reports an allocation
    failure; either way the bytes stay, and on success there is room. *)
Lemma ensure_capacity_rep a b max l required :
  allocator_ok a -> represents b max l -> Zlen l <= required <= max ->
  exists r b', ensure_capacity a required b = Ret (r, b') /\ represents b' max l /\
    match r with
    | Ok _ => required <= allocated_bytes (storage b')
    | Err e => e = AllocationFailed /\ b' = b
    end.
Proof.
  intros [Hr _ Hm] Hrep Hreq. pose proof Hrep as [E1 E2 E3 E4 E5].
  unfold ensure_capacity. destruct (required <=? _) eqn:Ec; bool_to_prop; [by eauto 10|].
  destruct (required <? _) eqn:Et; bool_to_prop.
  - destruct (storage b) as [bytes cap|bytes] eqn:Es; simpl in Ec; [|lia].
    destruct E5 as [-> E5]. destruct (reserve _ _ _ _) as [cap'|] eqn:Ea; [|by eauto 10].
    apply Hr in Ea. unfold saturating_sub in Ea. do 2 eexists. split; [done|].
    split; [|simpl; lia]. split; simpl; try done. split; [done|lia].
  - unfold map_anon. set (capacity := Z.min _ _). assert (required <= capacity <= usize_max) as Hc.
    { subst capacity. unfold saturating_mul. lia. }
    clearbody capacity. destruct (map_pages a capacity) as [m|] eqn:Em; [|by eauto 10].
    apply Hm in Em. assert (exists m', copy_range m 0 (len b) l = Ret m' /\
      take (length l) m' = l /\ Zlen m' = Zlen m) as (m' & Ecopy & Hp & Hl).
    { rewrite E3. apply (copy_range_append m [] l); [done|]. unfold Zlen in *. simpl. lia. }
    assert (match storage b with
            | Heap bytes _ => copy_range m 0 (len b) bytes
            | Mapped bytes => src ← slice_to bytes (len b); copy_range m 0 (len b) src
            end = Ret m') as ->.
    { destruct (storage b) as [bytes cap|bytes]; destruct E5 as [E5 _]; [by subst|].
      rewrite E3, (slice_to_prefix _ _ E5). simpl. by rewrite <- E3. }
    simpl. do 2 eexists. split; [done|]. split; [|simpl; lia].
    split; simpl; try done. split; [done|]. lia.
Qed.

(** What [extend_from_slice] does to a representation. *)
Lemma extend_from_slice_rep a b max l bytes :
  allocator_ok a -> represents b max l -> Zlen bytes <= usize_max ->
  exists r b', extend_from_slice a bytes b = Ret (r, b') /\
    match r with
    | Ok _ => Zlen l + Zlen bytes <= max /\ represents b' max (l ++ bytes)
    | Err TooLarge => max < Zlen l + Zlen bytes /\ b' = b
    | Err AllocationFailed => Zlen l + Zlen bytes <= max /\ b' = b
    end.
Proof.
  intros Ha Hrep Hb. pose proof Hrep as [E1 E2 E3 E4 E5].
  pose proof (Zlen_nonneg bytes) as Hb0. pose proof (Zlen_nonneg l) as Hl0.
  unfold extend_from_slice, checked_add. rewrite E3, E1.
  destruct (_ <=? usize_max) eqn:Eo; bool_to_prop;
    [|do 2 eexists; split; [done|]; simpl; split; [lia|done]].
  destruct (_ <=? max) eqn:Em; bool_to_prop;
    [|do 2 eexists; split; [done|]; simpl; split; [lia|done]].
  destruct (ensure_capacity_rep a b max l (Zlen l + Zlen bytes) Ha Hrep)
    as (r & b' & -> & Hrep' & Hr); [lia|].
  simpl. destruct r as [[]|e]; [|destruct Hr as [-> ->]; do 2 eexists; by split].
  destruct Hrep' as [F1 F2 F3 F4 F5].
  destruct (storage b') as [old cap|old] eqn:Es; simpl in Hr.
  - destruct F5 as [-> F5]. unfold vec_extend. rewrite (proj2 (Z.leb_le _ _)) by done. simpl.
    do 2 eexists. split; [done|]. simpl. split; [done|].
    split; simpl; rewrite ?Zlen_app; try done. split; [done|lia].
  - destruct F5 as [F5 F6]. rewrite F3.
    destruct (copy_range_append old l bytes F5) as (m & Ecopy & Hp & Hl); [done|].
    rewrite Ecopy. simpl. do 2 eexists. split; [done|]. simpl. split; [done|].
    split; simpl; rewrite ?Zlen_app; try done. split; [done|lia].
Qed.

Lemma as_slice_rep b max l : represents b max l -> as_slice b = Ret l.
Proof.
  intros [_ _ E3 _ E5]. unfold as_slice. destruct (storage b); [by destruct E5 as [-> _]|].
  rewrite E3. by apply slice_to_prefix, E5.
Qed.

Lemma freeze_rep b max l :
  represents b max l -> exists f, freeze b = Ret f /\ frozen_bytes f = l /\
    frozen_allocated_bytes f = if Zlen l =? 0 then 0 else allocated_bytes (storage b).
Proof.
  intros [_ _ E3 _ E5]. unfold freeze. rewrite E3. destruct (Zlen l =? 0) eqn:E; bool_to_prop.
  - eexists. split; [done|]. simpl. split; [|done].
    destruct l; [done|]. unfold Zlen in E. simpl in E. lia.
  - assert (slice_to (storage_as_ref (storage b)) (Zlen l) = Ret l) as ->.
    { apply slice_to_prefix. destruct (storage b); destruct E5 as [E5 _]; [subst|done].
      simpl. apply firstn_all. }
    eexists. by split.
Qed.

(** * The interface of a bounded buffer *)

(** What the clients of the buffer rely on: an abstract bounded sequence of
    bytes.  [bb_rep b max l] relates a buffer to its bound and its contents;
    no operation panics on a represented buffer, a refused append leaves the
    buffer as it was, and an append is refused as too large exactly when it
    would pass the bound. *)
Class BoundedBuffer (B : Type) := {
  bb_new : Z -> B;
  bb_with_hint : allocator -> option Z -> Z -> result B PayloadBufferError;
  bb_extend : allocator -> list byte -> B -> outcome (result unit PayloadBufferError * B);
  bb_len : B -> Z;
  bb_slice : B -> outcome (list byte);
  bb_freeze : B -> outcome (list byte);
  bb_rep : B -> Z -> list byte -> Prop;
  bb_new_rep : forall max, 0 <= max <= usize_max -> bb_rep (bb_new max) max [];
  bb_with_hint_rep : forall a hint max b,
    allocator_ok a -> 0 <= max <= usize_max ->
    (forall n, hint = Some n -> 0 <= n <= usize_max) ->
    bb_with_hint a hint max = Ok b -> bb_rep b max [];
  bb_extend_rep : forall a b max l bytes,
    allocator_ok a -> bb_rep b max l -> Zlen bytes <= usize_max ->
    exists r b', bb_extend a bytes b = Ret (r, b') /\
      match r with
      | Ok _ => Zlen l + Zlen bytes <= max /\ bb_rep b' max (l ++ bytes)
      | Err TooLarge => max < Zlen l + Zlen bytes /\ b' = b
      | Err AllocationFailed => Zlen l + Zlen bytes <= max /\ b' = b
      end;
  bb_len_rep : forall b max l, bb_rep b max l -> bb_len b = Zlen l;
  bb_slice_rep : forall b max l, bb_rep b max l -> bb_slice b = Ret l;
  bb_freeze_rep : forall b max l, bb_rep b max l -> bb_freeze b = Ret l;
  bb_bound : forall b max l, bb_rep b max l -> Zlen l <= max <= usize_max
}.

(** [FrozenPayload::into_bytes] *)
Definition into_bytes (f : FrozenPayload) : list byte := frozen_bytes f.

#[export] Program Instance payload_bounded_buffer : BoundedBuffer PayloadBuffer := {|
  bb_new := payload_new;
  bb_with_hint := with_capacity_hint;
  bb_extend := extend_from_slice;
  bb_len := len;
  bb_slice := as_slice;
  bb_freeze := fun b => f ← freeze b; Ret (into_bytes f);
  bb_rep := represents
|}.
Next Obligation. intros. by apply payload_new_rep. Qed.
Next Obligation. intros. by eapply with_capacity_hint_rep. Qed.
Next Obligation. intros. by apply extend_from_slice_rep. Qed.
Next Obligation. intros b max l []. done. Qed.
Next Obligation. intros. by eapply as_slice_rep. Qed.
Next Obligation. intros b max l Hrep. by destruct (freeze_rep _ _ _ Hrep) as (f & -> & <- & _). Qed.
Next Obligation. intros b max l []. lia. Qed.

(** * Runs of appends *)

(** A run of appends, each under its own answers of the allocator; the contents
    that the appends accepted. *)
Fixpoint extend_run (calls : list (allocator * list byte)) (b : PayloadBuffer)
    : outcome (list (result unit PayloadBufferError) * PayloadBuffer) :=
  match calls with
  | [] => Ret ([], b)
  | (a, bytes) :: calls =>
      '(r, b) ← extend_from_slice a bytes b;
      '(rs, b) ← extend_run calls b;
      Ret (r :: rs, b)
  end.

Fixpoint accepted (rs : list (result unit PayloadBufferError)) (calls : list (list byte))
    : list byte :=
  match rs, calls with
  | Ok _ :: rs, c :: calls => c ++ accepted rs calls
  | Err _ :: rs, _ :: calls => accepted rs calls
  | _, _ => []
  end.

Lemma extend_run_rep calls b max l :
  Forall (fun c => allocator_ok c.1 /\ Zlen c.2 <= usize_max) calls -> represents b max l ->
  exists rs b', extend_run calls b = Ret (rs, b') /\
    represents b' max (l ++ accepted rs (snd <$> calls)).
Proof.
  intros Hc. revert b l. induction Hc as [|[a bytes] calls [Ha Hb] Hc IH]; intros b l Hrep; simpl.
  - exists [], b. by rewrite app_nil_r.
  - destruct (extend_from_slice_rep a b max l bytes Ha Hrep Hb) as (r & b1 & -> & Hr). simpl.
    destruct r as [[]|e].
    + destruct Hr as [_ Hr]. destruct (IH _ _ Hr) as (rs & b2 & -> & Hrep2). simpl.
      do 2 eexists. split; [done|]. simpl. by rewrite app_assoc.
    + assert (b1 = b) as -> by (destruct e; by destruct Hr).
      destruct (IH _ _ Hrep) as (rs & b2 & -> & Hrep2). simpl. by do 2 eexists.
Qed.

(** The buffer refines a bounded byte sequence: whatever the appends and
    whatever the allocator answers, nothing panics (neither the [unreachable!]
    of [ensure_capacity] nor a slice), and reading, measuring and freezing the
    buffer give exactly the concatenation of the appends it accepted, never
    longer than the bound. *)
Theorem payload_buffer_refines_bytes calls a0 hint max b :
  allocator_ok a0 -> 0 <= max <= usize_max ->
  (forall n, hint = Some n -> 0 <= n <= usize_max) ->
  with_capacity_hint a0 hint max = Ok b ->
  Forall (fun c => allocator_ok c.1 /\ Zlen c.2 <= usize_max) calls ->
  exists rs b' f, extend_run calls b = Ret (rs, b') /\
    as_slice b' = Ret (accepted rs (snd <$> calls)) /\
    len b' = Zlen (accepted rs (snd <$> calls)) /\ len b' <= max /\
    freeze b' = Ret f /\ frozen_bytes f = accepted rs (snd <$> calls) /\
    Zlen (frozen_bytes f) <= Z.max 0 (frozen_allocated_bytes f).
Proof.
  intros Ha Hmax Hh Hb Hc. pose proof (with_capacity_hint_rep _ _ _ _ Ha Hmax Hh Hb) as Hrep.
  destruct (extend_run_rep _ _ _ _ Hc Hrep) as (rs & b' & E & Hrep'). simpl in Hrep'.
  destruct (freeze_rep _ _ _ Hrep') as (f & Ef & Hf & Hcap).
  exists rs, b', f. split; [done|]. split; [by eapply as_slice_rep|].
  pose proof Hrep' as [E1 E2 E3 E4 E5]. split; [done|]. split; [lia|]. split; [done|].
  split; [done|]. rewrite Hf, Hcap. destruct (Zlen _ =? 0) eqn:Ez; bool_to_prop; [lia|].
  destruct (storage b'); destruct E5 as [E5 ?]; simpl; [lia|].
  apply take_prefix_len in E5. lia.
Qed.

(** Each append succeeds or is refused for the right reason: too large
    exactly when the bytes do not fit the bound, an allocation failure only
    when they fit, and a refusal changes nothing; [write] reports the same
    refusals as [WriteZero] and [OutOfMemory]. *)
Theorem payload_buffer_write_exact a b max l bytes :
  allocator_ok a -> represents b max l -> Zlen bytes <= usize_max ->
  exists r b', write a bytes b = Ret (r, b') /\
    match r with
    | Ok n => n = Zlen bytes /\ Zlen l + Zlen bytes <= max /\ represents b' max (l ++ bytes)
    | Err WriteZero => max < Zlen l + Zlen bytes /\ b' = b
    | Err OutOfMemory => Zlen l + Zlen bytes <= max /\ b' = b
    end.
Proof.
  intros Ha Hrep Hb. destruct (extend_from_slice_rep a b max l bytes Ha Hrep Hb) as (r & b' & E & Hr).
  unfold write. rewrite E. simpl. do 2 eexists. split; [done|].
  destruct r as [[]|[]]; simpl; tauto.
Qed.

(** Growth by mapping is geometric and bounded: an append that has to move
    to a new mapping gets one of at least twice the old capacity or of the
    whole bound, and never more than the bound. *)
Theorem payload_buffer_mapped_growth a required b max l b' :
  allocator_ok a -> represents b max l -> Zlen l <= required <= max ->
  DIRECT_MMAP_THRESHOLD_BYTES <= required -> allocated_bytes (storage b) < required ->
  ensure_capacity a required b = Ret (Ok tt, b') ->
  exists m, storage b' = Mapped m /\ required <= Zlen m <= max /\
    Z.min max (2 * allocated_bytes (storage b)) <= Zlen m.
Proof.
  intros [_ _ Hm] [E1 E2 _ _ E5] Hreq Ht Hc. unfold ensure_capacity.
  rewrite (proj2 (Z.leb_gt _ _)), (proj2 (Z.ltb_ge _ _)) by lia.
  unfold map_anon. destruct (map_pages a _) as [m|] eqn:Em; [|done].
  apply Hm in Em. set (c := match storage b with Heap _ _ => _ | Mapped _ => _ end).
  destruct c as [m'|] eqn:Ecopy; [|done]. simpl. intros [= <-]. simpl. exists m'. split; [done|].
  assert (Zlen m' = Zlen m) as ->.
  { assert (forall src m', copy_range m 0 (len b) src = Ret m' -> Zlen m' = Zlen m) as Hcopy.
    { intros src m2. unfold copy_range. destruct (_ && _) eqn:Ez; [|done].
      bool_to_prop. intros [= <-]. rewrite !Zlen_app. simpl. unfold Zlen in *.
      rewrite length_drop. simpl. lia. }
    subst c. destruct (storage b); [by eapply Hcopy|].
    destruct (slice_to _ _); [by eapply Hcopy|done]. }
  rewrite Em, E1. unfold saturating_mul, usize_max in *. lia.
Qed.

(** * Witnesses *)

(** An allocator that gives what is asked for, up to a bound, and one that
    always fails. *)
Definition bounded_allocator (bound : Z) : allocator := {|
  reserve := fun len cap n => if Z.max (len + n) cap <=? bound then Some (Z.max (len + n) cap) else None;
  reserve_exact := fun len cap n => if Z.max (len + n) cap <=? bound then Some (Z.max (len + n) cap) else None;
  map_pages := fun n => if (0 <=? n) && (n <=? bound) then Some (replicate (Z.to_nat n) x00) else None
|}.

Lemma bounded_allocator_ok bound : bound <= usize_max -> allocator_ok (bounded_allocator bound).
Proof.
  intros Hb. split; simpl.
  - intros len cap n cap'. solve_cases.
  - intros len cap n cap'. solve_cases.
  - intros n m. destruct (_ && _) eqn:E; [|done]. bool_to_prop. intros [= <-].
    unfold Zlen. rewrite length_replicate. lia.
Qed.

Lemma payload_buffer_refines_bytes_witness :
  exists rs b' f,
    extend_run [(bounded_allocator 64, [x61; x62]); (bounded_allocator 0, [x63; x64; x65]);
                (bounded_allocator 64, [x66])] (payload_new 3) = Ret (rs, b') /\
    as_slice b' = Ret (accepted rs [[x61; x62]; [x63; x64; x65]; [x66]]) /\
    freeze b' = Ret f.
Proof.
  destruct (payload_buffer_refines_bytes
    [(bounded_allocator 64, [x61; x62]); (bounded_allocator 0, [x63; x64; x65]);
     (bounded_allocator 64, [x66])] (bounded_allocator 64) None 3 (payload_new 3))
    as (rs & b' & f & E & E1 & _ & _ & E2 & _).
  - by apply bounded_allocator_ok.
  - done.
  - done.
  - reflexivity.
  - repeat (constructor; [split; [by apply bounded_allocator_ok|done]|]). constructor.
  - by exists rs, b', f.
Defined.

Lemma payload_buffer_write_exact_witness :
  exists r b', write (bounded_allocator 64) [x61; x62] (payload_new 1) = Ret (r, b').
Proof.
  destruct (payload_buffer_write_exact (bounded_allocator 64) (payload_new 1) 1 [] [x61; x62])
    as (r & b' & E & _); [by apply bounded_allocator_ok|by apply payload_new_rep|done|].
  by exists r, b'.
Defined.

Lemma payload_buffer_mapped_growth_witness :
  let m := replicate (Z.to_nat DIRECT_MMAP_THRESHOLD_BYTES) x00 in
  exists m', storage {| storage := Mapped m; len := 0; max_len := DIRECT_MMAP_THRESHOLD_BYTES |}
      = Mapped m' /\
    DIRECT_MMAP_THRESHOLD_BYTES <= Zlen m' <= DIRECT_MMAP_THRESHOLD_BYTES /\
    Z.min DIRECT_MMAP_THRESHOLD_BYTES (2 * 0) <= Zlen m'.
Proof.
  intros m.
  apply (payload_buffer_mapped_growth (bounded_allocator usize_max) DIRECT_MMAP_THRESHOLD_BYTES
    (payload_new DIRECT_MMAP_THRESHOLD_BYTES) DIRECT_MMAP_THRESHOLD_BYTES []).
  - by apply bounded_allocator_ok.
  - by apply payload_new_rep.
  - done.
  - done.
  - done.
  - subst m. set (m := replicate _ _).
    assert (Zlen m = DIRECT_MMAP_THRESHOLD_BYTES) as E.
    { subst m. unfold Zlen. rewrite length_replicate. apply Z2Nat.id. done. }
    change (ensure_capacity _ _ _) with
      (replacement ← copy_range m 0 0 [];
       Ret (Ok tt : result unit PayloadBufferError,
            {| storage := Mapped replacement; len := 0; max_len := DIRECT_MMAP_THRESHOLD_BYTES |})).
    unfold copy_range. by rewrite E.
Defined.
