(* ===== verification/SseDecoder.v ===== *)
(** The incremental SSE frame decoder of [crates/protocol/src/sse/decoder.rs]
    and the loop that feeds it
    ([GuardedBody::process_buffered_frame] in
    [crates/runtime/src/public_request/stream/frame_pipeline.rs]).

    A frame is everything up to and including the first blank line, where lines
    end in LF, CR LF or a CR that is followed by another byte.  The decoder gets
    the stream in chunks and looks for the end of the frame only around the
    chunk boundary and in the new chunk; the reference [split_frames] looks at
    the whole stream.  The decoder is verified against the interface
    [BoundedBuffer]. *)

From S2P Require Import Prelude Protocol PayloadBuffer.

Local Open Scope Z_scope.

Definition LF : byte := x0a.
Definition CR : byte := x0d.

(** * The end of an event *)

(** [line_ending_len] *)
Definition line_ending_len (bytes : list byte) (index : nat) : option nat :=
  match bytes !! index with
  | None => None
  | Some b =>
      if decide (b = LF) then Some 1%nat
      else if decide (b = CR) then
        match bytes !! (index + 1)%nat with
        | Some c => if decide (c = LF) then Some 2%nat else Some 1%nat
        | None => None
        end
      else None
  end.

(** The event that starts its terminator at [index], if one does. *)
Definition event_end_at (bytes : list byte) (index : nat) : option nat :=
  match line_ending_len bytes index with
  | None => None
  | Some first =>
      let second_at := (index + first)%nat in
      match line_ending_len bytes second_at with
      | Some second => Some (second_at + second)%nat
      | None => None
      end
  end.

(** [for index in index..index + count] of [find_event_end] *)
Fixpoint find_from (count : nat) (bytes : list byte) (index : nat) : option nat :=
  match count with
  | O => None
  | S count => match event_end_at bytes index with
               | Some e => Some e
               | None => find_from count bytes (S index)
               end
  end.

(** [find_event_end] *)
Definition find_event_end (bytes : list byte) (start : nat) : option nat :=
  let first := (start `min` length bytes)%nat in
  find_from (length bytes - first) bytes first.

Definition BOUNDARY_BYTES : nat := 3.
Definition PREFIX_BYTES : nat := 4.

(** [event_end_after_append] *)
Definition event_end_after_append (buffer input : list byte) : outcome (option nat) :=
  let tail := drop (length buffer - BOUNDARY_BYTES) buffer in
  let prefix := take (length input `min` PREFIX_BYTES) input in
  let boundary := replicate (BOUNDARY_BYTES + PREFIX_BYTES) x00 in
  boundary ← copy_range boundary 0 (Zlen tail) tail;
  boundary ← copy_range boundary (Zlen tail) (Zlen tail + Zlen prefix) prefix;
  window ← slice_to boundary (Zlen tail + Zlen prefix);
  let crossing := match find_event_end window 0 with
                  | Some e => if (length tail <=? e)%nat then Some (e - length tail)%nat else None
                  | None => None
                  end in
  let within_input := find_event_end input 0 in
  Ret (match crossing, within_input with
       | Some x, Some y => Some (x `min` y)%nat
       | Some e, None => Some e
       | None, o => o
       end).

(** * The decoder *)

Section decoder.
Context {B : Type} `{!BoundedBuffer B}.

Record SseDecoder := {
  buffer : B;
  max_frame_bytes : Z;
  frame_ready : bool
}.

Definition buffer_error (e : PayloadBufferError) : ProtocolError :=
  Internal "SSE frame allocation failed".

Definition frame_limit_error : ProtocolError :=
  InvalidPayload "SSE frame exceeded the configured limit".

(** [SseDecoder::new] *)
Definition decoder_new (max_frame_bytes : Z) : SseDecoder :=
  let max_frame_bytes := Z.max max_frame_bytes 1 in
  {| buffer := bb_new (saturating_add usize_max max_frame_bytes 1);
     max_frame_bytes := max_frame_bytes;
     frame_ready := false |}.

(** [SseDecoder::next_input_limit] *)
Definition next_input_limit (d : SseDecoder) : Z :=
  if frame_ready d then 0
  else saturating_add usize_max (saturating_sub (max_frame_bytes d) (bb_len (buffer d))) 1.

(** [SseDecoder::push] *)
Definition push (a : allocator) (chunk : list byte) (d : SseDecoder)
    : outcome (result Z ProtocolError * SseDecoder) :=
  if (Zlen chunk =? 0) || frame_ready d then Ret (Ok 0, d)
  else
    input ← slice_to chunk (Z.min (next_input_limit d) (Zlen chunk));
    seen ← bb_slice (buffer d);
    event_end ← event_end_after_append seen input;
    let consumed := match event_end with Some e => Z.of_nat e | None => Zlen input end in
    piece ← slice_to input consumed;
    '(r, b) ← bb_extend a piece (buffer d);
    Ret (match r with
         | Err e =>
             (Err (buffer_error e),
              {| buffer := b; max_frame_bytes := max_frame_bytes d;
                 frame_ready := frame_ready d |})
         | Ok _ =>
             (Ok consumed,
              {| buffer := b; max_frame_bytes := max_frame_bytes d;
                 frame_ready := match event_end with Some _ => true | None => false end |})
         end).

(** [SseDecoder::check_buffer_limit] *)
Definition check_buffer_limit (d : SseDecoder) : result unit ProtocolError :=
  if max_frame_bytes d <? bb_len (buffer d) then Err frame_limit_error else Ok tt.

(** [mem::replace] of the buffer by a new one, and the frozen frame *)
Definition take_frame (d : SseDecoder)
    : outcome (result (option (list byte)) ProtocolError * SseDecoder) :=
  frame ← bb_freeze (buffer d);
  Ret (Ok (Some frame),
       {| buffer := bb_new (saturating_add usize_max (max_frame_bytes d) 1);
          max_frame_bytes := max_frame_bytes d;
          frame_ready := false |}).

(** [SseDecoder::next_frame] *)
Definition next_frame (d : SseDecoder)
    : outcome (result (option (list byte)) ProtocolError * SseDecoder) :=
  match check_buffer_limit d with
  | Err e => Ret (Err e, d)
  | Ok _ => if frame_ready d then take_frame d else Ret (Ok None, d)
  end.

(** [SseDecoder::finish] *)
Definition finish (d : SseDecoder)
    : outcome (result (option (list byte)) ProtocolError * SseDecoder) :=
  if bb_len (buffer d) =? 0 then Ret (Ok None, d)
  else match check_buffer_limit d with
       | Err e => Ret (Err e, d)
       | Ok _ => take_frame d
       end.

(** * The feeding loop *)

(** How [process_buffered_frame] comes back: with a frame for the bridge, with
    an error, or asking for the next chunk. *)
Inductive pumped :=
| PumpFrame (frame : list byte)
| PumpError (e : ProtocolError)
| PumpNeedsInput.

(** [GuardedBody::process_buffered_frame] on the decoder and the buffered
    chunk; [Ret None] when [fuel] iterations of its loop were not enough. *)
Fixpoint process_buffered_frame (fuel : nat) (a : allocator) (d : SseDecoder)
    (buffered_chunk : option (list byte))
    : outcome (option (pumped * SseDecoder * option (list byte))) :=
  match fuel with
  | O => Ret None
  | S fuel =>
      '(r, d) ← next_frame d;
      match r with
      | Ok (Some frame) => Ret (Some (PumpFrame frame, d, buffered_chunk))
      | Err e => Ret (Some (PumpError e, d, buffered_chunk))
      | Ok None =>
          match buffered_chunk with
          | None => Ret (Some (PumpNeedsInput, d, None))
          | Some chunk =>
              let take_ := Z.min (next_input_limit d) (Zlen chunk) in
              input ← slice_to chunk take_;
              '(r, d) ← push a input d;
              match r with
              | Err e => Ret (Some (PumpError e, d, None))
              | Ok consumed =>
                  let chunk := drop (Z.to_nat consumed) chunk in
                  process_buffered_frame fuel a d
                    (if Zlen chunk =? 0 then None else Some chunk)
              end
          end
      end
  end.

(** The reading loop of the stream: each chunk is buffered
    ([GuardedBody::process_chunk]) and the frames in it are taken one by one
    until more input is needed; the end of the stream flushes the decoder
    ([GuardedBody::finish_decoder]).  The frames in order, and how it ended. *)
Inductive stream_end :=
| StreamFinished
| StreamFailed (e : ProtocolError).

Fixpoint drain (fuel : nat) (a : allocator) (d : SseDecoder) (buffered : option (list byte))
    : outcome (option (list (list byte) * option ProtocolError * SseDecoder)) :=
  match fuel with
  | O => Ret None
  | S fuel =>
      p ← process_buffered_frame 3 a d buffered;
      match p with
      | None => Ret None
      | Some (PumpFrame f, d, buffered) =>
          rest ← drain fuel a d buffered;
          Ret (match rest with
               | None => None
               | Some (fs, e, d) => Some (f :: fs, e, d)
               end)
      | Some (PumpError e, d, _) => Ret (Some ([], Some e, d))
      | Some (PumpNeedsInput, d, _) => Ret (Some ([], None, d))
      end
  end.

Fixpoint decode_stream (chunks : list (allocator * list byte)) (d : SseDecoder)
    : outcome (option (list (list byte) * stream_end)) :=
  match chunks with
  | [] =>
      '(r, _) ← finish d;
      Ret (Some (match r with
                 | Ok None => ([], StreamFinished)
                 | Ok (Some f) => ([f], StreamFinished)
                 | Err e => ([], StreamFailed e)
                 end))
  | (a, chunk) :: chunks =>
      p ← drain (length chunk + 2) a d (if Zlen chunk =? 0 then None else Some chunk);
      match p with
      | None => Ret None
      | Some (fs, Some e, _) => Ret (Some (fs, StreamFailed e))
      | Some (fs, None, d) =>
          rest ← decode_stream chunks d;
          Ret (match rest with
               | None => None
               | Some (fs', e) => Some (fs ++ fs', e)
               end)
      end
  end.
End decoder.
Arguments SseDecoder : clear implicits.

(** * The reference: splitting the whole stream *)

Fixpoint split_frames (fuel : nat) (max : Z) (s : list byte)
    : list (list byte) * stream_end :=
  match fuel, s with
  | _, [] => ([], StreamFinished)
  | O, _ => ([], StreamFinished)
  | S fuel, _ =>
      match find_event_end s 0 with
      | None => if max <? Zlen s then ([], StreamFailed frame_limit_error)
                else ([s], StreamFinished)
      | Some e =>
          if max <? Z.of_nat e then ([], StreamFailed frame_limit_error)
          else let '(fs, r) := split_frames fuel max (drop e s) in (take e s :: fs, r)
      end
  end.

(** Every frame has at least two bytes, so the length of the stream is fuel
    enough. *)
Definition reference_frames (max : Z) (s : list byte) : list (list byte) * stream_end :=
  split_frames (length s) max s.

(** * Where events end *)

Lemma line_ending_len_cons x s i : line_ending_len (x :: s) (S i) = line_ending_len s i.
Proof. done. Qed.

Lemma event_end_at_cons x s i : event_end_at (x :: s) (S i) = S <$> event_end_at s i.
Proof.
  unfold event_end_at. rewrite line_ending_len_cons. destruct (line_ending_len s i) as [n|]; [|done].
  cbn zeta. rewrite Nat.add_succ_l, line_ending_len_cons.
  by destruct (line_ending_len s (i + n)).
Qed.

Lemma find_from_cons n x s i : find_from n (x :: s) (S i) = S <$> find_from n s i.
Proof.
  revert i. induction n as [|n IH]; intros i; [done|]. cbn [find_from].
  rewrite event_end_at_cons, IH. by destruct (event_end_at s i).
Qed.

Lemma find_event_end_nil : find_event_end [] 0 = None.
Proof. done. Qed.

Lemma find_event_end_cons x s :
  find_event_end (x :: s) 0 =
  match event_end_at (x :: s) 0 with
  | Some e => Some e
  | None => S <$> find_event_end s 0
  end.
Proof.
  unfold find_event_end. cbn [length find_from Nat.sub Nat.min].
  rewrite find_from_cons. by rewrite Nat.sub_0_r.
Qed.

(** Case analysis on the first bytes of a list, for facts about a terminator
    at its head. *)
Ltac terminator_cases :=
  unfold event_end_at, line_ending_len in *; simpl in *;
  repeat (case_decide; simplify_eq/=); try done; try lia.

Lemma event_end_at_app s t e : event_end_at s 0 = Some e -> event_end_at (s ++ t) 0 = Some e.
Proof. destruct s as [|a [|b [|c [|d s]]]]; intros He; terminator_cases. Qed.

Lemma event_end_at_4 s t : (4 <= length s)%nat -> event_end_at (s ++ t) 0 = event_end_at s 0.
Proof. destruct s as [|a [|b [|c [|d s]]]]; simpl; try lia; intros _; terminator_cases. Qed.

Lemma event_end_at_bounds s e : event_end_at s 0 = Some e -> (2 <= e <= 4 /\ e <= length s)%nat.
Proof. destruct s as [|a [|b [|c [|d s]]]]; intros He; terminator_cases. Qed.

Lemma event_end_at_take s e n :
  event_end_at s 0 = Some e -> (e < n)%nat -> event_end_at (take n s) 0 = Some e.
Proof.
  intros He Hn. pose proof (event_end_at_bounds _ _ He) as [Hb _].
  destruct n as [|[|[|n]]]; try lia.
  destruct s as [|a [|b [|c [|d s]]]]; destruct n as [|[|n]]; terminator_cases.
Qed.

Lemma find_event_end_bounds s e : find_event_end s 0 = Some e -> (2 <= e <= length s)%nat.
Proof.
  revert e. induction s as [|x s IH]; intros e; [done|]. rewrite find_event_end_cons.
  destruct (event_end_at _ _) as [e'|] eqn:E.
  - intros [= <-]. apply event_end_at_bounds in E. simpl in *. lia.
  - destruct (find_event_end s 0) as [e'|]; [|done]. intros [= <-].
    specialize (IH _ eq_refl). simpl. lia.
Qed.

(** An end that is found stays where it is when more bytes follow. *)
Lemma find_event_end_app s t e :
  find_event_end s 0 = Some e -> find_event_end (s ++ t) 0 = Some e.
Proof.
  revert e. induction s as [|x s IH]; intros e; [done|].
  rewrite <- app_comm_cons, !find_event_end_cons.
  destruct (event_end_at (x :: s) 0) as [e'|] eqn:E.
  - intros [= <-]. rewrite app_comm_cons. by rewrite (event_end_at_app _ t _ E).
  - destruct (find_event_end s 0) as [e'|] eqn:Es; [|done]. intros [= <-].
    rewrite (IH _ eq_refl). rewrite app_comm_cons.
    destruct (decide (4 <= length (x :: s))%nat) as [Hl|Hl].
    + by rewrite event_end_at_4, E.
    + clear IH. destruct s as [|a [|b [|c s]]]; simpl in Hl; try lia;
        unfold find_event_end in Es; simpl in Es; terminator_cases.
Qed.

(** Starting one byte earlier never finds a later end. *)
Lemma find_event_end_mono x s e e' :
  find_event_end s 0 = Some e' -> find_event_end (x :: s) 0 = Some e -> (e <= S e')%nat.
Proof.
  rewrite find_event_end_cons. intros Hs. destruct (event_end_at (x :: s) 0) as [e1|] eqn:E.
  - intros [= <-]. pose proof (event_end_at_bounds _ _ E) as [Hb _].
    pose proof (find_event_end_bounds _ _ Hs).
    destruct (decide (e1 = 4%nat)) as [->|]; [|lia].
    destruct s as [|a [|b [|c s]]]; try by terminator_cases.
    rewrite find_event_end_cons in Hs. terminator_cases.
  - rewrite Hs. intros [= <-]. lia.
Qed.

Lemma find_event_end_app_l s t e e' :
  find_event_end t 0 = Some e' -> find_event_end (s ++ t) 0 = Some e ->
  (e <= length s + e')%nat.
Proof.
  revert e. induction s as [|x s IH]; intros e Ht; simpl.
  - intros He. rewrite Ht in He. by simplify_eq.
  - intros He. destruct (find_event_end (s ++ t) 0) as [e1|] eqn:E1.
    + specialize (IH _ Ht eq_refl). pose proof (find_event_end_mono _ _ _ _ E1 He). lia.
    + rewrite find_event_end_cons, E1 in He.
      destruct (event_end_at _ _) eqn:E2; [|done]. simplify_eq.
      apply event_end_at_bounds in E2. 
      exfalso. clear -Ht E1. revert E1. induction s as [|y s IH]; simpl; [congruence|].
      rewrite find_event_end_cons. destruct (event_end_at _ _); [done|].
      destruct (find_event_end (s ++ t) 0); [done|]. auto.
Qed.

(** Without an end in [s], an end in [s ++ t] is not inside [s]. *)
Lemma find_event_end_new s t e :
  find_event_end s 0 = None -> find_event_end (s ++ t) 0 = Some e -> (length s <= e)%nat.
Proof.
  revert e. induction s as [|x s IH]; intros e Hs He; [simpl; lia|].
  rewrite find_event_end_cons in Hs. rewrite <- app_comm_cons, find_event_end_cons in He.
  destruct (event_end_at (x :: s) 0) eqn:E; [done|].
  destruct (event_end_at (x :: s ++ t) 0) as [e1|] eqn:E1.
  - simplify_eq. destruct (decide (e < length (x :: s))%nat) as [Hlt|]; [|lia].
    apply (event_end_at_take _ _ _ E1) in Hlt. rewrite app_comm_cons, take_app_length in Hlt.
    congruence.
  - destruct (find_event_end s 0) eqn:Es; [done|].
    destruct (find_event_end (s ++ t) 0) as [e1|] eqn:E2; [|done]. simplify_eq/=.
    specialize (IH _ eq_refl eq_refl). lia.
Qed.

(** * The search around a chunk boundary *)

(** The answer of [event_end_after_append] for the kept tail. *)
Definition boundary_end (tail input : list byte) : option nat :=
  let crossing := match find_event_end (tail ++ take PREFIX_BYTES input) 0 with
                  | Some e => if (length tail <=? e)%nat then Some (e - length tail)%nat else None
                  | None => None
                  end in
  match crossing, find_event_end input 0 with
  | Some x, Some y => Some (x `min` y)%nat
  | Some e, None => Some e
  | None, o => o
  end.

Lemma event_end_after_append_window buffer input :
  event_end_after_append buffer input =
  Ret (boundary_end (drop (length buffer - BOUNDARY_BYTES) buffer) input).
Proof.
  unfold event_end_after_append, boundary_end. cbn zeta.
  replace (take (length input `min` PREFIX_BYTES) input) with (take PREFIX_BYTES input); cycle 1.
  { destruct (decide (length input <= PREFIX_BYTES)%nat).
    - rewrite Nat.min_l, !take_ge; [done|lia..].
    - rewrite Nat.min_r; [done|lia]. }
  set (tail := drop _ _). set (prefix := take _ _).
  assert (Zlen tail <= 3) by (subst tail; unfold Zlen, BOUNDARY_BYTES; rewrite length_drop; lia).
  assert (Zlen prefix <= 4) by (subst prefix; unfold Zlen, PREFIX_BYTES; rewrite length_take; lia).
  clearbody tail prefix. set (zeroes := replicate _ _).
  destruct (copy_range_append zeroes [] tail) as (b1 & E1 & H1 & L1);
    [done|unfold Zlen in *; simpl; lia|].
  change (copy_range zeroes 0 (Zlen tail) tail = Ret b1) in E1. rewrite E1. simpl.
  destruct (copy_range_append b1 tail prefix) as (b2 & E2 & H2 & L2);
    [done|rewrite L1; unfold Zlen in *; simpl; lia|].
  rewrite E2. simpl. rewrite <- Zlen_app, (slice_to_prefix _ _ H2). done.
Qed.

(** Over [t], the prefix of the input decides as much as the whole input. *)
Lemma find_event_end_prefix t input :
  (exists e, find_event_end (t ++ input) 0 = Some e /\
             find_event_end (t ++ take PREFIX_BYTES input) 0 = Some e) \/
  (find_event_end (t ++ input) 0 = Nat.add (length t) <$> find_event_end input 0 /\
   find_event_end (t ++ take PREFIX_BYTES input) 0 =
     Nat.add (length t) <$> find_event_end (take PREFIX_BYTES input) 0).
Proof.
  induction t as [|x t IH]; simpl.
  { right. split; by destruct (find_event_end _ 0). }
  rewrite !find_event_end_cons.
  assert (event_end_at (x :: t ++ take PREFIX_BYTES input) 0 =
          event_end_at (x :: t ++ input) 0) as ->.
  { destruct (decide (length input <= PREFIX_BYTES)%nat); [by rewrite take_ge|].
    replace (x :: t ++ input)
      with ((x :: t ++ take PREFIX_BYTES input) ++ drop PREFIX_BYTES input)
      by (simpl; by rewrite <- app_assoc, take_drop).
    rewrite event_end_at_4; [done|].
    simpl. rewrite length_app, length_take. unfold PREFIX_BYTES in *. lia. }
  destruct (event_end_at _ _) as [e|]; [left; by exists e|].
  destruct IH as [(e & -> & ->)|[-> ->]]; [left; by exists (S e)|right].
  split; by destruct (find_event_end _ 0).
Qed.

Lemma boundary_end_spec tail input :
  find_event_end tail 0 = None ->
  boundary_end tail input =
  (fun e => (e - length tail)%nat) <$> find_event_end (tail ++ input) 0.
Proof.
  intros Ht. unfold boundary_end.
  destruct (find_event_end_prefix tail input) as [(e & E1 & E2)|[E1 E2]]; rewrite E2.
  - pose proof (find_event_end_new _ _ _ Ht E1) as Hle. rewrite E1.
    rewrite (proj2 (Nat.leb_le _ _)) by done.
    destruct (find_event_end input 0) as [e2|] eqn:Ei; [|done].
    pose proof (find_event_end_app_l _ _ _ _ Ei E1). simpl. f_equal. lia.
  - rewrite E1. destruct (find_event_end (take PREFIX_BYTES input) 0) as [e1|] eqn:Ep; simpl.
    + apply (find_event_end_app _ (drop PREFIX_BYTES input)) in Ep as Ei.
      rewrite take_drop in Ei. rewrite Ei. simpl. rewrite (proj2 (Nat.leb_le _ _)) by lia.
      f_equal. lia.
    + destruct (find_event_end input 0); simpl; [|done]. f_equal. lia.
Qed.

(** Bytes of the buffer before the kept tail do not matter. *)
Lemma find_event_end_skip x s input :
  (3 <= length s)%nat -> find_event_end (x :: s) 0 = None ->
  find_event_end s 0 = None /\
  find_event_end ((x :: s) ++ input) 0 = S <$> find_event_end (s ++ input) 0.
Proof.
  intros Hl Hn. rewrite find_event_end_cons in Hn.
  destruct (event_end_at (x :: s) 0) eqn:E; [done|].
  rewrite <- app_comm_cons, find_event_end_cons, app_comm_cons, event_end_at_4, E by (simpl; lia).
  by destruct (find_event_end s 0).
Qed.

Lemma event_end_after_append_exact buffer input :
  find_event_end buffer 0 = None ->
  event_end_after_append buffer input =
  Ret ((fun e => (e - length buffer)%nat) <$> find_event_end (buffer ++ input) 0).
Proof.
  intros Hb. rewrite event_end_after_append_window. f_equal.
  induction buffer as [|x b IH]; [by apply boundary_end_spec|].
  destruct (decide (length b < 3)%nat) as [Hl|Hl].
  - unfold BOUNDARY_BYTES. replace (length (x :: b) - 3)%nat with O by (simpl; lia).
    rewrite drop_0. by apply boundary_end_spec.
  - destruct (find_event_end_skip x b input) as [Hb' ->]; [lia|done|].
    unfold BOUNDARY_BYTES in *. replace (length (x :: b) - 3)%nat with (S (length b - 3)) by (simpl; lia).
    simpl. rewrite IH by done. destruct (find_event_end (b ++ input) 0); done.
Qed.

(** * The decoder against the whole stream *)

Section decoder_facts.
Context {B : Type} `{!BoundedBuffer B}.
Implicit Types (d : SseDecoder B) (l chunk s : list byte).

(** The decoder holds the bytes [l] of the current frame. *)
Record holds (max : Z) (l : list byte) (ready : bool) (d : SseDecoder B) : Prop := {
  holds_rep : bb_rep (buffer d) (max + 1) l;
  holds_max : max_frame_bytes d = max;
  holds_range : 1 <= max < usize_max;
  holds_ready : frame_ready d = ready
}.

(** Between frames nothing complete is held, and no more than a frame. *)
Definition idle (max : Z) (l : list byte) (d : SseDecoder B) : Prop :=
  holds max l false d /\ find_event_end l 0 = None /\ Zlen l <= max.

Definition allocation_error : ProtocolError := buffer_error AllocationFailed.

Lemma fresh_buffer_rep max :
  1 <= max < usize_max -> bb_rep (bb_new (B := B) (saturating_add usize_max max 1)) (max + 1) [].
Proof.
  intros. replace (saturating_add usize_max max 1) with (max + 1)
    by (unfold saturating_add; lia). apply bb_new_rep. lia.
Qed.

Lemma decoder_new_idle max : max < usize_max -> idle (Z.max max 1) [] (decoder_new max).
Proof.
  intros Hm. assert (1 <= Z.max max 1 < usize_max) by (unfold usize_max in *; lia).
  split; [|split; [done|unfold Zlen; simpl; lia]].
  split; simpl; try done. by apply fresh_buffer_rep.
Qed.

Lemma slice_min chunk n :
  0 <= n -> slice_to chunk (Z.min n (Zlen chunk)) = Ret (take (Z.to_nat n) chunk).
Proof.
  intros Hn. pose proof (Zlen_nonneg chunk). unfold slice_to.
  rewrite !(proj2 (Z.leb_le _ _)) by lia. simpl. f_equal.
  destruct (Z.min_spec n (Zlen chunk)) as [[? ->]|[? ->]]; [done|].
  unfold Zlen in *. rewrite !take_ge; [done|lia..].
Qed.

Lemma next_input_limit_idle max l d :
  holds max l false d -> Zlen l <= max -> next_input_limit d = max - Zlen l + 1.
Proof.
  intros [Hr Hm Hx Hf] Hl. unfold next_input_limit. rewrite Hf, Hm, (bb_len_rep _ _ _ Hr).
  pose proof (Zlen_nonneg l). unfold saturating_add, saturating_sub. lia.
Qed.

(** The bytes of a chunk that one [push] looks at. *)
Definition window (max : Z) (l chunk : list byte) : list byte :=
  take (Z.to_nat (max - Zlen l + 1)) chunk.

Lemma push_spec a max l chunk d :
  allocator_ok a -> idle max l d -> chunk <> [] -> Zlen chunk <= usize_max ->
  exists r d', push a chunk d = Ret (r, d') /\
    match r with
    | Err e => e = allocation_error
    | Ok n =>
        match find_event_end (l ++ window max l chunk) 0 with
        | Some e => n = Z.of_nat e - Zlen l /\ 0 <= n /\
                    holds max (take e (l ++ window max l chunk)) true d'
        | None => n = Zlen (window max l chunk) /\
                  holds max (l ++ window max l chunk) false d'
        end
    end.
Proof.
  intros Ha (Hh & Hn & Hl) Hc Hcs. unfold push. pose proof Hh as [Hr Hm Hx Hf].
  assert (Zlen chunk =? 0 = false) as -> by (destruct chunk; done).
  rewrite Hf. simpl. rewrite (next_input_limit_idle _ _ _ Hh Hl).
  pose proof (Zlen_nonneg l). rewrite slice_min by lia. simpl.
  fold (window max l chunk). set (input := window max l chunk).
  assert (Zlen l + Zlen input <= max + 1 /\ Zlen input <= usize_max) as [Hfit Hin].
  { subst input. unfold window, Zlen in *. rewrite length_take. lia. }
  rewrite (bb_slice_rep _ _ _ Hr). simpl. rewrite (event_end_after_append_exact _ _ Hn). simpl.
  destruct (find_event_end (l ++ input) 0) as [e|] eqn:E; simpl.
  - pose proof (find_event_end_new _ _ _ Hn E) as Hle.
    pose proof (find_event_end_bounds _ _ E) as [_ Hub]. rewrite length_app in Hub.
    unfold slice_to. rewrite !(proj2 (Z.leb_le _ _)) by (unfold Zlen; lia). simpl.
    rewrite Nat2Z.id. destruct (bb_extend_rep a _ _ l (take (e - length l) input) Ha Hr)
      as (r & b & -> & Hres).
    { unfold Zlen in *. rewrite length_take. lia. }
    simpl. destruct r as [[]|err]; do 2 eexists; (split; [done|]); simpl.
    + split; [unfold Zlen; lia|]. split; [unfold Zlen; lia|]. destruct Hres as [_ Hres].
      split; simpl; try done. rewrite take_app_ge by done. done.
    + done.
  - unfold slice_to. pose proof (Zlen_nonneg input).
    rewrite !(proj2 (Z.leb_le _ _)) by lia. simpl. rewrite Zlen_nat, firstn_all.
    destruct (bb_extend_rep a _ _ l input Ha Hr Hin) as (r & b & -> & Hres).
    simpl. destruct r as [[]|err]; do 2 eexists; (split; [done|]); simpl; [|done].
    split; [done|]. destruct Hres as [_ Hres]. by split.
Qed.

Lemma next_frame_idle max l d : idle max l d -> next_frame d = Ret (Ok None, d).
Proof.
  intros ([Hr Hm Hx Hf] & _ & Hl). unfold next_frame, check_buffer_limit.
  rewrite Hm, (bb_len_rep _ _ _ Hr), (proj2 (Z.ltb_ge _ _)), Hf by done. done.
Qed.

Lemma next_frame_over max l ready d :
  holds max l ready d -> max < Zlen l -> next_frame d = Ret (Err frame_limit_error, d).
Proof.
  intros [Hr Hm Hx Hf] Hl. unfold next_frame, check_buffer_limit.
  by rewrite Hm, (bb_len_rep _ _ _ Hr), (proj2 (Z.ltb_lt _ _)) by done.
Qed.

Lemma take_frame_spec max l ready d :
  holds max l ready d -> exists d', take_frame d = Ret (Ok (Some l), d') /\ idle max [] d'.
Proof.
  intros [Hr Hm Hx Hf]. unfold take_frame. rewrite (bb_freeze_rep _ _ _ Hr). simpl.
  eexists. split; [done|]. split; [|split; [done|unfold Zlen; simpl; lia]].
  split; simpl; rewrite ?Hm; try done. by apply fresh_buffer_rep.
Qed.

Lemma next_frame_ready max l d :
  holds max l true d -> Zlen l <= max ->
  exists d', next_frame d = Ret (Ok (Some l), d') /\ idle max [] d'.
Proof.
  intros Hh Hl. destruct (take_frame_spec _ _ _ _ Hh) as (d' & E & Hd).
  destruct Hh as [Hr Hm Hx Hf]. exists d'. split; [|done]. unfold next_frame, check_buffer_limit.
  by rewrite Hm, (bb_len_rep _ _ _ Hr), (proj2 (Z.ltb_ge _ _)), Hf by done.
Qed.

(** What one [process_buffered_frame] does, in terms of all the bytes at hand:
    a frame when they hold one within the limit, the limit error when the frame
    cannot fit any more, a request for input otherwise. *)
Definition pump_result (max : Z) (s : list byte) (p : pumped) (d : SseDecoder B)
    (rest : option (list byte)) : Prop :=
  match p with
  | PumpFrame f => exists e, find_event_end s 0 = Some e /\ Z.of_nat e <= max /\
      f = take e s /\ default [] rest = drop e s /\ rest <> Some [] /\ idle max [] d
  | PumpError e => e = allocation_error \/
      (e = frame_limit_error /\
       match find_event_end s 0 with Some e => max < Z.of_nat e | None => max < Zlen s end)
  | PumpNeedsInput => idle max s d /\ rest = None
  end.

(** The window of a nonempty chunk is a nonempty prefix of it that fits the
    buffer, and leaves something behind only when it fills the buffer. *)
Lemma window_split max l chunk :
  chunk <> [] -> Zlen l <= max -> Zlen chunk <= usize_max ->
  exists rest, chunk = window max l chunk ++ rest /\ window max l chunk <> [] /\
    drop (length (window max l chunk)) chunk = rest /\
    Zlen (window max l chunk) <= usize_max /\ Zlen l + Zlen (window max l chunk) <= max + 1 /\
    (rest = [] \/ Zlen l + Zlen (window max l chunk) = max + 1).
Proof.
  intros Hc Hl Hcs. exists (drop (Z.to_nat (max - Zlen l + 1)) chunk). unfold window.
  split; [by rewrite take_drop|]. split.
  { destruct chunk as [|x c]; [done|]. destruct (Z.to_nat _) eqn:E; [lia|done]. }
  unfold Zlen in *. rewrite length_take.
  set (n := Z.to_nat (max - Z.of_nat (length l) + 1)).
  assert (Z.of_nat n = max - Z.of_nat (length l) + 1) by lia.
  destruct (decide (n <= length chunk)%nat).
  - rewrite Nat.min_l by done. split_and!; [done|lia|lia|right; lia].
  - rewrite Nat.min_r by lia. rewrite !drop_ge by lia. split_and!; [done|lia|lia|by left].
Qed.

Lemma window_idem max l chunk : window max l (window max l chunk) = window max l chunk.
Proof. unfold window. by rewrite take_take, Nat.min_id. Qed.

(** After a [push] that completed a frame. *)
Lemma pump_after_frame n a max l input rest chunk e d :
  find_event_end (l ++ input) 0 = Some e -> find_event_end l 0 = None -> chunk = input ++ rest ->
  holds max (take e (l ++ input)) true d ->
  let left_ := drop (Z.to_nat (Z.of_nat e - Zlen l)) chunk in
  exists p d' r, process_buffered_frame (S n) a d (if Zlen left_ =? 0 then None else Some left_)
      = Ret (Some (p, d', r)) /\ pump_result max (l ++ chunk) p d' r.
Proof.
  intros E Hn Hsplit Hd left_. pose proof (find_event_end_bounds _ _ E) as [_ Hub].
  pose proof (find_event_end_new _ _ _ Hn E) as Hlb.
  assert (find_event_end (l ++ chunk) 0 = Some e) as E'
    by (rewrite Hsplit, app_assoc; by apply find_event_end_app).
  assert (Zlen (take e (l ++ input)) = Z.of_nat e) as Hle
    by (unfold Zlen; rewrite length_take; lia).
  cbn [process_buffered_frame]. destruct (decide (Z.of_nat e <= max)) as [Hfe|Hfe].
  - destruct (next_frame_ready _ _ _ Hd) as (d2 & -> & Hd2); [lia|]. simpl.
    do 3 eexists. split; [done|]. exists e. split; [done|]. split; [done|]. split.
    { rewrite Hsplit, app_assoc. symmetry. by apply take_app_le. }
    assert (drop e (l ++ chunk) = left_) as ->.
    { subst left_. rewrite drop_app_ge by done. f_equal. unfold Zlen. lia. }
    split; [|split; [|done]]; by destruct left_.
  - rewrite (next_frame_over _ _ _ _ Hd) by lia. simpl. do 3 eexists. split; [done|].
    right. split; [done|]. rewrite E'. lia.
Qed.

(** After a [push] that found no end. *)
Lemma pump_after_input n a max l input rest chunk d :
  find_event_end (l ++ input) 0 = None -> chunk = input ++ rest ->
  (rest = [] \/ Zlen l + Zlen input = max + 1) -> holds max (l ++ input) false d ->
  exists p d' r, process_buffered_frame (S n) a d (if Zlen rest =? 0 then None else Some rest)
      = Ret (Some (p, d', r)) /\ pump_result max (l ++ chunk) p d' r.
Proof.
  intros E Hsplit Hall Hd. cbn [process_buffered_frame].
  destruct (decide (Zlen (l ++ input) <= max)) as [Hfe|Hfe].
  - assert (idle max (l ++ input) d) as Hi by done. rewrite (next_frame_idle _ _ _ Hi).
    rewrite Zlen_app in Hfe. destruct Hall as [->|]; [|lia]. simpl.
    do 3 eexists. split; [done|]. rewrite Hsplit, app_nil_r. done.
  - rewrite (next_frame_over _ _ _ _ Hd) by lia. simpl. do 3 eexists. split; [done|].
    right. split; [done|]. destruct (find_event_end (l ++ chunk) 0) as [e|] eqn:E'.
    + rewrite Hsplit, app_assoc in E'. pose proof (find_event_end_new _ _ _ E E').
      unfold Zlen in *. lia.
    + rewrite Hsplit, app_assoc, Zlen_app. pose proof (Zlen_nonneg rest). lia.
Qed.

Lemma pump_spec n a max l chunk d :
  allocator_ok a -> idle max l d -> chunk <> [] -> Zlen chunk <= usize_max -> (2 <= n)%nat ->
  exists p d' rest, process_buffered_frame n a d (Some chunk) = Ret (Some (p, d', rest)) /\
    pump_result max (l ++ chunk) p d' rest.
Proof.
  intros Ha Hi Hc Hcs Hfuel. pose proof Hi as (Hh & Hn & Hl).
  destruct n as [|[|n]]; try lia. clear Hfuel. set (m := S n).
  cbn [process_buffered_frame]. rewrite (next_frame_idle _ _ _ Hi). simpl.
  rewrite (next_input_limit_idle _ _ _ Hh Hl). pose proof (Zlen_nonneg l).
  rewrite slice_min by lia. simpl. fold (window max l chunk).
  destruct (window_split max l chunk) as (rest & Hsplit & Hne & Hrest & Hin & Hfit & Hall); try done.
  destruct (push_spec a max l (window max l chunk) d Ha Hi Hne Hin) as (r & d1 & -> & Hr). simpl.
  rewrite window_idem in Hr. destruct r as [k|err]; [|by do 3 eexists; split; [done|left]].
  destruct (find_event_end (l ++ window max l chunk) 0) as [e|] eqn:E.
  - destruct Hr as (-> & _ & Hd1). by apply (pump_after_frame n a max l (window max l chunk) rest).
  - destruct Hr as [-> Hd1]. rewrite Zlen_nat, Hrest. by apply (pump_after_input n a max l (window max l chunk) rest).
Qed.

Lemma pump_idle n a max l d :
  idle max l d -> process_buffered_frame (S n) a d None = Ret (Some (PumpNeedsInput, d, None)).
Proof. intros Hi. cbn [process_buffered_frame]. by rewrite (next_frame_idle _ _ _ Hi). Qed.

(** * The reference splitter *)

Lemma split_frames_fuel n m max s :
  (length s <= n)%nat -> (length s <= m)%nat -> split_frames n max s = split_frames m max s.
Proof.
  revert m s. induction n as [|n IH]; intros m s Hn Hm.
  { destruct s; [by destruct m|simpl in Hn; lia]. }
  destruct s as [|x s]; [by destruct m|]. destruct m as [|m]; [simpl in Hm; lia|].
  cbn [split_frames]. destruct (find_event_end (x :: s) 0) as [e|] eqn:E; [|done].
  destruct (max <? _); [done|]. apply find_event_end_bounds in E.
  rewrite (IH m); [done| |]; rewrite length_drop; simpl in *; lia.
Qed.

Lemma reference_frame max s e :
  find_event_end s 0 = Some e -> Z.of_nat e <= max ->
  reference_frames max s =
    (take e s :: (reference_frames max (drop e s)).1, (reference_frames max (drop e s)).2).
Proof.
  intros E He. pose proof (find_event_end_bounds _ _ E) as Hb. unfold reference_frames.
  destruct s as [|x s]; [done|]. cbn [length split_frames].
  rewrite E, (proj2 (Z.ltb_ge _ _)) by done.
  rewrite (split_frames_fuel _ (length (drop e (x :: s)))); [|rewrite length_drop; simpl in *; lia|done].
  by destruct (split_frames _ _ _).
Qed.

Lemma reference_over max s e :
  find_event_end s 0 = Some e -> max < Z.of_nat e ->
  reference_frames max s = ([], StreamFailed frame_limit_error).
Proof.
  intros E He. unfold reference_frames. destruct s as [|x s]; [done|]. cbn [length split_frames].
  by rewrite E, (proj2 (Z.ltb_lt _ _)) by done.
Qed.

Lemma reference_rest max s :
  find_event_end s 0 = None -> s <> [] ->
  reference_frames max s = if max <? Zlen s then ([], StreamFailed frame_limit_error)
                           else ([s], StreamFinished).
Proof.
  intros E Hs. unfold reference_frames. destruct s as [|x s]; [done|]. cbn [length split_frames].
  by rewrite E.
Qed.

(** Bytes that cannot become a frame within the limit fail whatever follows. *)
Lemma reference_too_long max s t :
  0 <= max ->
  match find_event_end s 0 with Some e => max < Z.of_nat e | None => max < Zlen s end ->
  reference_frames max (s ++ t) = ([], StreamFailed frame_limit_error).
Proof.
  intros Hm0 Hlong. destruct (find_event_end s 0) as [e|] eqn:E.
  - by apply (reference_over _ _ e); [apply find_event_end_app|].
  - destruct (find_event_end (s ++ t) 0) as [e|] eqn:E'.
    + apply (reference_over _ _ e); [done|]. pose proof (find_event_end_new _ _ _ E E').
      unfold Zlen in *. lia.
    + rewrite reference_rest; [|done|destruct s; [unfold Zlen in Hlong; simpl in Hlong; lia|done]].
      rewrite (proj2 (Z.ltb_lt _ _)); [done|]. rewrite Zlen_app. pose proof (Zlen_nonneg t). lia.
Qed.

(** * Draining a chunk *)

(** What is left to decode once [fs] came out of [s]. *)
Definition decodes (max : Z) (s : list byte) (fs : list (list byte)) (s' : list byte) : Prop :=
  forall t, reference_frames max (s ++ t) =
    (fs ++ (reference_frames max (s' ++ t)).1, (reference_frames max (s' ++ t)).2).

Definition drain_result (max : Z) (s : list byte) (fs : list (list byte))
    (err : option ProtocolError) (d : SseDecoder B) : Prop :=
  match err with
  | None => exists l', idle max l' d /\ decodes max s fs l'
  | Some e =>
      (e = frame_limit_error /\
       forall t, reference_frames max (s ++ t) = (fs, StreamFailed frame_limit_error)) \/
      (e = allocation_error /\ forall t, fs `prefix_of` (reference_frames max (s ++ t)).1)
  end.

Lemma drain_result_frame max s e fs err d :
  find_event_end s 0 = Some e -> Z.of_nat e <= max ->
  drain_result max (drop e s) fs err d -> drain_result max s (take e s :: fs) err d.
Proof.
  intros E He. pose proof (find_event_end_bounds _ _ E) as [_ Hub].
  assert (forall t, reference_frames max (s ++ t) =
    (take e s :: (reference_frames max (drop e s ++ t)).1,
     (reference_frames max (drop e s ++ t)).2)) as Hstep.
  { intros t. rewrite (reference_frame _ _ e); [|by apply find_event_end_app|done].
    rewrite take_app_le, drop_app_le by done. done. }
  destruct err as [err|]; simpl.
  - intros [[-> Href]|[-> Hpre]]; [left|right]; (split; [done|]); intros t; rewrite Hstep.
    + by rewrite Href.
    + simpl. by apply prefix_cons.
  - intros (l' & Hi & Hdec). exists l'. split; [done|]. intros t. by rewrite Hstep, Hdec.
Qed.

Lemma drain_spec n a max l buffered d :
  allocator_ok a -> idle max l d -> buffered <> Some [] ->
  Zlen (default [] buffered) <= usize_max ->
  (length (default [] buffered) + (if decide (l = []) then 0 else 1) < n)%nat ->
  exists fs err d', drain n a d buffered = Ret (Some (fs, err, d')) /\
    drain_result max (l ++ default [] buffered) fs err d'.
Proof.
  intros Ha. revert l buffered d. induction n as [|n IH]; intros l buffered d Hi Hb Hbs Hn; [lia|].
  cbn [drain]. destruct buffered as [chunk|]; simpl in Hbs, Hn; cycle 1.
  { rewrite (pump_idle _ _ _ _ _ Hi). simpl. do 3 eexists. split; [done|]. exists l.
    split; [done|]. intros t. rewrite app_nil_r. by destruct (reference_frames _ _). }
  assert (chunk <> []) as Hc by congruence.
  destruct (pump_spec 3 a max l chunk d Ha Hi Hc Hbs) as (p & d1 & rest & -> & Hp); [lia|].
  simpl. destruct p as [f|e|]; simpl in Hp.
  - destruct Hp as (e & E & He & -> & Hrest & Hne & Hi1).
    pose proof Hi as (_ & Hln & _). pose proof (find_event_end_bounds _ _ E) as Hb1.
    pose proof (find_event_end_new _ _ _ Hln E) as Hb2.
    assert (length (default [] rest) = length l + length chunk - e)%nat as Hlen
      by (rewrite Hrest, length_drop, length_app; done).
    destruct (IH [] rest d1 Hi1 Hne) as (fs & err & d2 & -> & Hres).
    + unfold Zlen in *. lia.
    + rewrite decide_True by done. case_decide; subst; simpl in *; lia.
    + simpl in *. do 3 eexists. split; [done|]. rewrite Hrest in Hres. by apply drain_result_frame.
  - do 3 eexists. split; [done|]. destruct Hp as [->|[-> Hlong]]; [by right; eauto using prefix_nil|left].
    split; [done|]. intros t. apply reference_too_long; [|done]. destruct Hi as ([] & _). lia.
  - destruct Hp as [Hi1 _]. do 3 eexists. split; [done|]. exists (l ++ chunk). split; [done|].
    intros t. by destruct (reference_frames _ _).
Qed.

(** * Decoding a whole stream *)

(** The outcome the reference gives, or the frames before an allocation failed. *)
Definition agrees (out ref : list (list byte) * stream_end) : Prop :=
  out = ref \/ (out.2 = StreamFailed allocation_error /\ out.1 `prefix_of` ref.1).

Lemma finish_spec max l d :
  idle max l d -> exists r d', finish d = Ret (r, d') /\
    match r with
    | Ok None => reference_frames max l = ([], StreamFinished)
    | Ok (Some f) => reference_frames max l = ([f], StreamFinished)
    | Err _ => False
    end.
Proof.
  intros (Hh & Hn & Hl). pose proof Hh as [Hr Hm Hx Hf]. unfold finish, check_buffer_limit.
  rewrite (bb_len_rep _ _ _ Hr), Hm. destruct (Zlen l =? 0) eqn:E; bool_to_prop.
  - do 2 eexists. split; [done|]. simpl. destruct l; [done|]. unfold Zlen in E. simpl in E. lia.
  - rewrite (proj2 (Z.ltb_ge _ _)) by done.
    destruct (take_frame_spec _ _ _ _ Hh) as (d' & -> & _). do 2 eexists. split; [done|]. simpl.
    rewrite reference_rest, (proj2 (Z.ltb_ge _ _)); try done. by intros ->.
Qed.

Lemma decode_stream_spec chunks max l d :
  Forall (fun c => allocator_ok c.1 /\ Zlen c.2 <= usize_max) chunks -> idle max l d ->
  exists out, decode_stream chunks d = Ret (Some out) /\
    agrees out (reference_frames max (l ++ concat (snd <$> chunks))).
Proof.
  intros Hc. revert l d. induction Hc as [|[a chunk] chunks [Ha Hs] Hc IH]; intros l d Hi;
    [|rewrite fmap_cons]; cbn [decode_stream concat fst snd] in *.
  - destruct (finish_spec _ _ _ Hi) as (r & d' & -> & Hr). rewrite app_nil_r.
    eexists. split; [done|]. left. by destruct r as [[f|]|e].
  - set (buffered := if Zlen chunk =? 0 then None else Some chunk).
    assert (default [] buffered = chunk /\ buffered <> Some []) as [Hd Hne]
      by (subst buffered; by destruct chunk).
    destruct (drain_spec (length chunk + 2) a max l buffered d) as (fs & err & d1 & -> & Hr); try done.
    { by rewrite Hd. }
    { rewrite Hd. case_decide; lia. }
    rewrite Hd in Hr. rewrite app_assoc. destruct err as [e|].
    + eexists. split; [done|].
      destruct Hr as [[-> Href]|[-> Hpre]]; [left; by rewrite Href|right]. split; [done|]. apply Hpre.
    + destruct Hr as (l' & Hi' & Hdec). destruct (IH _ _ Hi') as ([fs' e] & E & Hag).
      cbn. rewrite E. cbn [mbind outcome_bind].
      eexists. split; [done|]. rewrite Hdec.
      destruct Hag as [<-|[He Hpre]]; [by left|right]. simpl in *. split; [done|].
      by apply prefix_app.
Qed.
End decoder_facts.

Lemma find_event_end_frame s e e' :
  find_event_end s 0 = Some e -> find_event_end (take e s) 0 = Some e' -> e' = length (take e s).
Proof.
  intros E E'. pose proof (find_event_end_bounds _ _ E).
  apply (find_event_end_app _ (drop e s)) in E'. rewrite take_drop in E'.
  rewrite length_take. simplify_eq. lia.
Qed.

(** What every frame of the reference is, and that no byte is lost. *)
Definition frame_ok (max : Z) (f : list byte) : Prop :=
  f <> [] /\ Zlen f <= max /\ forall e, find_event_end f 0 = Some e -> e = length f.

Lemma split_frames_ok n max s fs r :
  (length s <= n)%nat -> split_frames n max s = (fs, r) ->
  Forall (frame_ok max) fs /\ concat fs `prefix_of` s /\ (r = StreamFinished -> concat fs = s).
Proof.
  revert s fs r. induction n as [|n IH]; intros s fs r Hn.
  { destruct s; [|simpl in Hn; lia]. by intros [= <- <-]. }
  destruct s as [|x s]; [by intros [= <- <-]|]. cbn [split_frames].
  destruct (find_event_end (x :: s) 0) as [e|] eqn:E.
  - pose proof (find_event_end_bounds _ _ E) as Hb.
    destruct (max <? Z.of_nat e) eqn:Em; bool_to_prop.
    { intros [= <- <-]. split; [done|]. split; [apply prefix_nil|done]. }
    destruct (split_frames n max (drop e (x :: s))) as [fs' r'] eqn:Es. intros [= <- <-].
    apply IH in Es as (Hf & Hp & Hc); [|rewrite length_drop; simpl in *; lia].
    cbn [concat]. split_and!.
    + constructor; [|done]. split_and!.
      * intros H0. apply (f_equal length) in H0. rewrite length_take in H0. cbn [length] in *. lia.
      * unfold Zlen. rewrite length_take. lia.
      * intros e' E'. by eapply find_event_end_frame.
    + rewrite <- (take_drop e (x :: s)) at 2. by apply prefix_app.
    + intros Hr. rewrite (Hc Hr). apply take_drop.
  - destruct (max <? _) eqn:Em; bool_to_prop; intros [= <- <-].
    { split; [done|]. split; [apply prefix_nil|done]. }
    cbn [concat]. rewrite app_nil_r. split; [|done]. constructor; [|done].
    split; [done|]. split; [done|]. intros e E'. congruence.
Qed.

(** * Properties *)

(** Searching only the three bytes before a chunk boundary, the four after
    it and the new chunk finds exactly the end that a search of everything
    received would find, and none of the copies into the boundary window
    panics. *)
Theorem sse_boundary_search_exact buffer input :
  find_event_end buffer 0 = None ->
  event_end_after_append buffer input =
  Ret ((fun e => (e - length buffer)%nat) <$> find_event_end (buffer ++ input) 0).
Proof. apply event_end_after_append_exact. Qed.

Section decoder_properties.
Context {B : Type} `{!BoundedBuffer B}.

(** C23. Decoding does not depend on how the stream is cut into chunks: for
    every sequence of chunks the reading loop ends without a panic with exactly
    the frames and the ending that splitting the whole stream gives, or, if an
    allocation fails, with a prefix of those frames and that error. *)
Theorem sse_decoding_ignores_chunking (max : Z) (chunks : list (allocator * list byte)) :
  max < usize_max ->
  Forall (fun c => allocator_ok c.1 /\ Zlen c.2 <= usize_max) chunks ->
  exists out, decode_stream chunks (decoder_new (B := B) max) = Ret (Some out) /\
    agrees out (reference_frames (Z.max max 1) (concat (snd <$> chunks))).
Proof.
  intros Hm Hc. apply (decode_stream_spec chunks (Z.max max 1) []); [done|].
  by apply decoder_new_idle.
Qed.

(** No byte is lost, invented or reordered, and no frame passes the limit:
    the frames decoded are nonempty, at most [max] bytes long, hold no event
    end before their own, and in order form a prefix of the stream, which is
    the whole stream when decoding finished. *)
Theorem sse_frames_conserve_bytes (max : Z) (chunks : list (allocator * list byte)) fs r :
  max < usize_max ->
  Forall (fun c => allocator_ok c.1 /\ Zlen c.2 <= usize_max) chunks ->
  decode_stream chunks (decoder_new (B := B) max) = Ret (Some (fs, r)) ->
  Forall (frame_ok (Z.max max 1)) fs /\
  concat fs `prefix_of` concat (snd <$> chunks) /\
  (r = StreamFinished -> concat fs = concat (snd <$> chunks)).
Proof.
  intros Hm Hc E.
  destruct (decode_stream_spec chunks (Z.max max 1) [] (decoder_new (B := B) max))
    as (out & E' & Hag); [done|by apply decoder_new_idle|].
  rewrite E in E'. simplify_eq. rewrite app_nil_l in Hag.
  destruct (reference_frames _ _) as [fs' r'] eqn:Er.
  apply split_frames_ok in Er as (Hf & Hp & Hfin); [|done].
  destruct Hag as [[= -> ->]|[Hfail Hpre]]; [done|]. simpl in *. destruct Hpre as [k ->].
  split; [by apply Forall_app in Hf as [? _]|]. split; [|by subst].
  rewrite concat_app in Hp. etransitivity; [|exact Hp]. by eexists.
Qed.

(** The feeding loop ends: with a buffered chunk and a decoder between
    frames, two iterations of [process_buffered_frame] always come back, with a
    frame within the limit, the limit error only when the frame cannot fit any
    more, or a request for input with every byte buffered. *)
Theorem sse_pump_terminates n a max l chunk (d : SseDecoder B) :
  allocator_ok a -> idle max l d -> chunk <> [] -> Zlen chunk <= usize_max -> (2 <= n)%nat ->
  exists p d' rest, process_buffered_frame n a d (Some chunk) = Ret (Some (p, d', rest)) /\
    pump_result max (l ++ chunk) p d' rest.
Proof. apply pump_spec. Qed.
End decoder_properties.

(** * Witnesses *)

(** [a CR LF] and then [CR LF b]: the blank line crosses the boundary. *)
Lemma sse_boundary_search_exact_witness :
  event_end_after_append [x61; CR; LF] [CR; LF; x62] =
  Ret ((fun e => (e - 3)%nat) <$> find_event_end ([x61; CR; LF] ++ [CR; LF; x62]) 0).
Proof. apply (sse_boundary_search_exact [x61; CR; LF] [CR; LF; x62]). reflexivity. Defined.

Definition sample_chunks : list (allocator * list byte) :=
  [(bounded_allocator 64, [x61; CR]); (bounded_allocator 64, [CR]);
   (bounded_allocator 64, [x62; LF; LF; x63])].

Lemma sample_chunks_ok :
  Forall (fun c => allocator_ok c.1 /\ Zlen c.2 <= usize_max) sample_chunks.
Proof. repeat (constructor; [split; [by apply bounded_allocator_ok|done]|]). constructor. Qed.

(** The bare carriage returns end the first frame once the next chunk shows
    that no line feed follows. *)
Example sample_frames :
  decode_stream sample_chunks (decoder_new (B := PayloadBuffer) 8) =
  Ret (Some ([[x61; CR; CR]; [x62; LF; LF]; [x63]], StreamFinished)).
Proof. vm_compute. reflexivity. Qed.

Lemma sse_decoding_ignores_chunking_witness :
  exists out, decode_stream sample_chunks (decoder_new (B := PayloadBuffer) 8) = Ret (Some out) /\
    agrees out (reference_frames 8 [x61; CR; CR; x62; LF; LF; x63]).
Proof.
  apply (sse_decoding_ignores_chunking (B := PayloadBuffer) 8 sample_chunks);
    [done|apply sample_chunks_ok].
Defined.

Lemma sse_frames_conserve_bytes_witness :
  Forall (frame_ok 8) [[x61; CR; CR]; [x62; LF; LF]; [x63]].
Proof.
  apply (sse_frames_conserve_bytes (B := PayloadBuffer) 8 sample_chunks
           [[x61; CR; CR]; [x62; LF; LF]; [x63]] StreamFinished);
    [done|apply sample_chunks_ok|vm_compute; reflexivity].
Defined.

Lemma sse_pump_terminates_witness :
  exists p d' rest,
    process_buffered_frame 2 (bounded_allocator 64) (decoder_new (B := PayloadBuffer) 8)
      (Some [x61; LF; LF; x62]) = Ret (Some (p, d', rest)) /\
    pump_result 8 ([] ++ [x61; LF; LF; x62]) p d' rest.
Proof.
  apply (sse_pump_terminates 2 (bounded_allocator 64) 8 []);
    [by apply bounded_allocator_ok|by apply (decoder_new_idle 8)|done|done|lia].
Defined.
