(* ===== verification/Epoch.v ===== *)
(** The scheduler epoch and its wake schedule
    ([crates/runtime/src/routing/epoch.rs] and
    [crates/runtime/src/routing/epoch/schedule.rs]).

    Waiting requests listen to a counter that is advanced on every change that
    may make a candidate selectable.  Deadlines (cooldowns, open circuits) are
    kept in a two-way index of wake slots; a worker advances the epoch when the
    earliest deadline passes.  The state is explicit and the counters are kept
    at 64 bits, with the [expect]s of the source as panics. *)

From S2P Require Import Prelude.

Local Open Scope Z_scope.

(** * The wake schedule *)

Record WakeSchedule := {
  by_slot : gmap Z Instant;
  by_deadline : gmap Instant (gset Z)
}.

Definition wake_schedule_new : WakeSchedule := {| by_slot := ∅; by_deadline := ∅ |}.

(** The first key of a [BTreeMap]. *)
Definition first_key {A} (m : gmap Z A) : option Z :=
  map_fold (fun k _ acc => opt_min (Some k) acc) None m.

(** [WakeSchedule::remove_reverse] *)
Definition remove_reverse (deadline : Instant) (slot : Z) (m : gmap Instant (gset Z))
    : gmap Instant (gset Z) :=
  match m !! deadline with
  | None => m
  | Some slots =>
      let slots := slots ∖ {[slot]} in
      if decide (slots = ∅) then delete deadline m else <[deadline := slots]> m
  end.

(** [WakeSchedule::schedule] *)
Definition schedule (slot : Z) (deadline : Instant) (s : WakeSchedule) : bool * WakeSchedule :=
  if decide (by_slot s !! slot = Some deadline) then (false, s)
  else
    let reverse := match by_slot s !! slot with
                   | Some previous => remove_reverse previous slot (by_deadline s)
                   | None => by_deadline s
                   end in
    (true, {| by_slot := <[slot := deadline]> (by_slot s);
              by_deadline := <[deadline := {[slot]} ∪ default ∅ (reverse !! deadline)]> reverse |}).

(** [WakeSchedule::cancel] *)
Definition cancel (slot : Z) (s : WakeSchedule) : bool * WakeSchedule :=
  match by_slot s !! slot with
  | None => (false, s)
  | Some deadline =>
      (true, {| by_slot := delete slot (by_slot s);
                by_deadline := remove_reverse deadline slot (by_deadline s) |})
  end.

(** [WakeSchedule::next_deadline] *)
Definition next_deadline (s : WakeSchedule) : option Instant := first_key (by_deadline s).

(** The loop of [WakeSchedule::remove_due], with one iteration per deadline. *)
Fixpoint remove_due_loop (fuel : nat) (now : Instant) (removed : bool) (s : WakeSchedule)
    : bool * WakeSchedule :=
  match fuel with
  | O => (removed, s)
  | S fuel =>
      match first_key (by_deadline s) with
      | Some deadline =>
          if deadline <=? now
          then remove_due_loop fuel now true
                 {| by_slot := set_fold (fun slot m => delete slot m) (by_slot s)
                                 (default ∅ (by_deadline s !! deadline));
                    by_deadline := delete deadline (by_deadline s) |}
          else (removed, s)
      | None => (removed, s)
      end
  end.

(** [WakeSchedule::remove_due] *)
Definition remove_due (now : Instant) (s : WakeSchedule) : bool * WakeSchedule :=
  remove_due_loop (size (by_deadline s)) now false s.

(** * The scheduler epoch *)

Record SchedulerEpoch := {
  current : Z;
  published : Z;
  running : bool;
  wake_schedule : WakeSchedule;
  wake_generation : Z;
  wake_worker_started : bool;
  next_wake_slot : Z
}.

(** [SchedulerEpoch::with_lifecycle]; [running] says whether the lifecycle is
    in its running phase. *)
Definition epoch_new (running : bool) : SchedulerEpoch := {|
  current := 0; published := 0; running := running;
  wake_schedule := wake_schedule_new; wake_generation := 0;
  wake_worker_started := false; next_wake_slot := 1
|}.

Definition set_wake_schedule (ws : WakeSchedule) (e : SchedulerEpoch) : SchedulerEpoch := {|
  current := current e; published := published e; running := running e;
  wake_schedule := ws; wake_generation := wake_generation e;
  wake_worker_started := wake_worker_started e; next_wake_slot := next_wake_slot e
|}.

(** The increment of [SchedulerEpoch::advance] *)
Definition increment (e : SchedulerEpoch) : outcome (Z * SchedulerEpoch) :=
  next ← expect (checked_add u64_max (current e) 1);
  Ret (next, {| current := next; published := published e; running := running e;
                wake_schedule := wake_schedule e; wake_generation := wake_generation e;
                wake_worker_started := wake_worker_started e;
                next_wake_slot := next_wake_slot e |}).

(** Its [send_if_modified] *)
Definition publish_epoch (next : Z) (e : SchedulerEpoch) : SchedulerEpoch :=
  if next <=? published e then e
  else {| current := current e; published := next; running := running e;
          wake_schedule := wake_schedule e; wake_generation := wake_generation e;
          wake_worker_started := wake_worker_started e; next_wake_slot := next_wake_slot e |}.

(** [SchedulerEpoch::advance] when no other advance races *)
Definition advance (e : SchedulerEpoch) : outcome SchedulerEpoch :=
  '(next, e) ← increment e; Ret (publish_epoch next e).

(** [SchedulerEpoch::wake_slot] *)
Definition wake_slot (e : SchedulerEpoch) : outcome (Z * SchedulerEpoch) :=
  next ← expect (checked_add u64_max (next_wake_slot e) 1);
  Ret (next_wake_slot e,
       {| current := current e; published := published e; running := running e;
          wake_schedule := wake_schedule e; wake_generation := wake_generation e;
          wake_worker_started := wake_worker_started e; next_wake_slot := next |}).

Record PendingSchedulerWakeNotification := {
  notify : bool;
  ensure_worker : bool
}.

(** [SchedulerWakeSlot::prepare_schedule] *)
Definition prepare_schedule (slot : Z) (at_ : Instant) (e : SchedulerEpoch)
    : PendingSchedulerWakeNotification * SchedulerEpoch :=
  if running e then
    let '(changed, ws) := schedule slot at_ (wake_schedule e) in
    ({| notify := changed; ensure_worker := true |}, set_wake_schedule ws e)
  else ({| notify := false; ensure_worker := false |}, e).

(** [SchedulerWakeSlot::prepare_cancellation] *)
Definition prepare_cancellation (slot : Z) (e : SchedulerEpoch)
    : PendingSchedulerWakeNotification * SchedulerEpoch :=
  let '(changed, ws) := cancel slot (wake_schedule e) in
  ({| notify := changed; ensure_worker := false |}, set_wake_schedule ws e).

(** [SchedulerEpoch::notify_wake_worker] *)
Definition notify_wake_worker (e : SchedulerEpoch) : outcome SchedulerEpoch :=
  generation ← expect (checked_add u64_max (wake_generation e) 1);
  Ret {| current := current e; published := published e; running := running e;
         wake_schedule := wake_schedule e; wake_generation := generation;
         wake_worker_started := wake_worker_started e; next_wake_slot := next_wake_slot e |}.

(** [SchedulerEpoch::ensure_wake_worker] *)
Definition ensure_wake_worker (e : SchedulerEpoch) : SchedulerEpoch :=
  if negb (running e) || wake_worker_started e then e
  else {| current := current e; published := published e; running := running e;
          wake_schedule := wake_schedule e; wake_generation := wake_generation e;
          wake_worker_started := true; next_wake_slot := next_wake_slot e |}.

(** [PendingSchedulerWakeNotification::publish] *)
Definition publish (n : PendingSchedulerWakeNotification) (e : SchedulerEpoch)
    : outcome SchedulerEpoch :=
  if notify n then
    e ← notify_wake_worker e;
    Ret (if ensure_worker n then ensure_wake_worker e else e)
  else Ret e.

(** [SchedulerWakeSlot::cancel], also run when a slot is dropped *)
Definition slot_cancel (slot : Z) (e : SchedulerEpoch) : outcome SchedulerEpoch :=
  let '(n, e) := prepare_cancellation slot e in publish n e.

(** The branch of [SchedulerEpoch::run_wake_worker] that a deadline takes *)
Definition wake_worker_fire (now : Instant) (e : SchedulerEpoch) : outcome SchedulerEpoch :=
  let '(removed, ws) := remove_due now (wake_schedule e) in
  if removed then advance (set_wake_schedule ws e) else Ret (set_wake_schedule ws e).

(** * The first key *)

Lemma first_key_spec {A} (m : gmap Z A) :
  match first_key m with
  | None => m = ∅
  | Some k => is_Some (m !! k) /\ forall k', is_Some (m !! k') -> k <= k'
  end.
Proof.
  unfold first_key.
  apply (map_fold_weak_ind (fun r m => match r with
    | None => m = ∅
    | Some k => is_Some (m !! k) /\ forall k', is_Some (m !! k') -> k <= k' end)); [done|].
  intros i x m' r Hi IH. destruct r as [k|]; simpl.
  - destruct IH as [Hk Hmin]. split.
    + destruct (Z.min_spec i k) as [[_ ->]|[_ ->]]; [rewrite lookup_insert_eq; by eauto|].
      rewrite lookup_insert. case_decide; by eauto.
    + intros k' Hk'. apply lookup_insert_is_Some' in Hk' as [<-|Hk']; [lia|].
      specialize (Hmin k' Hk'). lia.
  - subst. split; [rewrite lookup_insert_eq; by eauto|].
    intros k' Hk'. apply lookup_insert_is_Some' in Hk' as [<-|[? Hk']]; [lia|].
    by rewrite lookup_empty in Hk'.
Qed.

(** * The two-way index *)

(** Each slot is filed under exactly its deadline, and no deadline is kept
    without a slot. *)
Record schedule_wf (s : WakeSchedule) : Prop := {
  sw_index : forall slot deadline, by_slot s !! slot = Some deadline <->
    exists slots, by_deadline s !! deadline = Some slots /\ slot ∈ slots;
  sw_nonempty : forall deadline slots, by_deadline s !! deadline = Some slots -> slots <> ∅
}.

Lemma wake_schedule_new_wf : schedule_wf wake_schedule_new.
Proof.
  split; simpl.
  - intros slot deadline. rewrite lookup_empty. split; [done|].
    intros (slots & Hd & _). by rewrite lookup_empty in Hd.
  - intros deadline slots Hd. by rewrite lookup_empty in Hd.
Qed.

(** The slots filed under a deadline. *)
Definition filed (m : gmap Instant (gset Z)) (deadline slot : Z) : Prop :=
  exists slots, m !! deadline = Some slots /\ slot ∈ slots.

Lemma remove_reverse_filed m deadline slot d sl :
  filed (remove_reverse deadline slot m) d sl <->
  filed m d sl /\ ~ (d = deadline /\ sl = slot).
Proof.
  unfold filed, remove_reverse. destruct (m !! deadline) as [slots|] eqn:E; cycle 1.
  { split; [|tauto]. intros (s & Hs & Hin). split; [by eauto|]. intros [-> _]. congruence. }
  case_decide as Hempty.
  - rewrite lookup_delete. case_decide as Hd; subst.
    + split; [by intros (? & ? & _)|]. intros ((s & Hs & Hin) & Hne). simplify_eq.
      destruct (decide (sl = slot)); [tauto|]. set_solver.
    + split; [intros Hf; split; [done|naive_solver]|tauto].
  - rewrite lookup_insert. case_decide as Hd; subst.
    + split.
      * intros (s & [= <-] & Hin). apply elem_of_difference in Hin as [Hin Hne].
        split; [by eauto|]. intros [_ ->]. by apply Hne, elem_of_singleton.
      * intros ((s & Hs & Hin) & Hne). simplify_eq. eexists. split; [done|].
        apply elem_of_difference. split; [done|]. rewrite elem_of_singleton. tauto.
    + split; [intros Hf; split; [done|naive_solver]|tauto].
Qed.

Lemma remove_reverse_nonempty m deadline slot :
  (forall d slots, m !! d = Some slots -> slots <> ∅) ->
  forall d slots, remove_reverse deadline slot m !! d = Some slots -> slots <> ∅.
Proof.
  intros Hne d slots. unfold remove_reverse. destruct (m !! deadline) as [s|]; [|by apply Hne].
  case_decide.
  - rewrite lookup_delete. case_decide; [done|by apply Hne].
  - rewrite lookup_insert. case_decide; [by intros [= <-]|by apply Hne].
Qed.

Lemma file_filed m deadline slot d sl :
  filed (<[deadline := {[slot]} ∪ default ∅ (m !! deadline)]> m) d sl <->
  filed m d sl \/ (d = deadline /\ sl = slot).
Proof.
  unfold filed. rewrite lookup_insert. case_decide as Hd; subst; [|naive_solver].
  split.
  - intros (s & [= <-] & Hin). apply elem_of_union in Hin as [Hin|Hin].
    + apply elem_of_singleton in Hin. tauto.
    + left. destruct (m !! d) as [s|]; [by eauto|]. set_solver.
  - intros [(s & -> & Hin)|[_ ->]]; eexists; (split; [done|]); set_solver.
Qed.

Lemma schedule_spec slot deadline s :
  schedule_wf s ->
  let '(changed, s') := schedule slot deadline s in
  schedule_wf s' /\ by_slot s' = <[slot := deadline]> (by_slot s) /\
  (changed = true <-> by_slot s !! slot <> Some deadline).
Proof.
  intros [Hi Hn]. unfold schedule. case_decide as Hsame.
  { split; [done|]. split; [by rewrite insert_id|]. split; [done|tauto]. }
  set (reverse := match by_slot s !! slot with Some _ => _ | None => _ end).
  assert (forall d sl, filed reverse d sl <-> by_slot s !! sl = Some d /\ sl <> slot) as Hrev.
  { intros d sl. subst reverse. destruct (by_slot s !! slot) as [previous|] eqn:E.
    - rewrite remove_reverse_filed. unfold filed. rewrite <- Hi. split; [|naive_solver].
      intros [Hd Hne]. split; [done|]. intros ->. simplify_eq. tauto.
    - unfold filed. rewrite <- Hi. split; [|tauto]. intros Hd. split; [done|]. by intros ->; simplify_eq. }
  assert (forall d slots, reverse !! d = Some slots -> slots <> ∅) as Hrn.
  { subst reverse. destruct (by_slot s !! slot); [by apply remove_reverse_nonempty|done]. }
  split; [split; simpl|by split].
  - intros sl d. change (exists slots, _ /\ sl ∈ slots) with
      (filed (<[deadline := {[slot]} ∪ default ∅ (reverse !! deadline)]> reverse) d sl).
    rewrite file_filed, Hrev, lookup_insert. case_decide; subst; naive_solver.
  - intros d slots. rewrite lookup_insert. case_decide; [intros [= <-]; set_solver|by apply Hrn].
Qed.

Lemma cancel_spec slot s :
  schedule_wf s ->
  let '(changed, s') := cancel slot s in
  schedule_wf s' /\ by_slot s' = delete slot (by_slot s) /\
  (changed = true <-> is_Some (by_slot s !! slot)).
Proof.
  intros [Hi Hn]. unfold cancel. destruct (by_slot s !! slot) as [deadline|] eqn:E.
  - split; [split; simpl|by split; eauto].
    + intros sl d. change (exists slots, _ /\ sl ∈ slots) with
        (filed (remove_reverse deadline slot (by_deadline s)) d sl).
      rewrite remove_reverse_filed. unfold filed. rewrite <- Hi, lookup_delete.
      case_decide; subst; naive_solver.
    + by apply remove_reverse_nonempty.
  - split; [done|]. split; [by rewrite delete_id|]. split; [done|]. by intros [].
Qed.

Lemma next_deadline_spec s :
  schedule_wf s ->
  match next_deadline s with
  | None => by_slot s = ∅
  | Some d => (exists slot, by_slot s !! slot = Some d) /\
              forall slot d', by_slot s !! slot = Some d' -> d <= d'
  end.
Proof.
  intros [Hi Hn]. unfold next_deadline. pose proof (first_key_spec (by_deadline s)) as Hk.
  destruct (first_key _) as [d|].
  - destruct Hk as [[slots Hd] Hmin]. split.
    + destruct (set_choose_L slots) as [slot Hin]; [by eapply Hn|].
      exists slot. apply Hi. by exists slots.
    + intros slot d' Hd'. apply Hi in Hd' as (? & ? & _). by eauto.
  - apply map_eq. intros slot. rewrite lookup_empty.
    destruct (by_slot s !! slot) as [d|] eqn:E; [|done].
    apply Hi in E as (slots & Hd & _). by rewrite Hk, lookup_empty in Hd.
Qed.

Lemma delete_all_lookup (X : gset Z) (m : gmap Z Z) i :
  let r := set_fold (fun slot m => delete slot m) m X in
  (i ∈ X -> r !! i = None) /\ (i ∉ X -> r !! i = m !! i).
Proof.
  apply (set_fold_ind_L (fun (r : gmap Z Z) (X : gset Z) =>
    (i ∈ X -> r !! i = None) /\ (i ∉ X -> r !! i = m !! i))); [set_solver|].
  intros x Y r Hx [IH1 IH2]. rewrite lookup_delete. case_decide; [set_solver|].
  split; intros Hi; [apply IH1|apply IH2]; set_solver.
Qed.

(** The slots that are still ahead of [now]. *)
Definition ahead (now : Instant) (m : gmap Z Instant) : gmap Z Instant :=
  filter (fun kv => now < kv.2) m.

Lemma pop_deadline_spec deadline slots s :
  schedule_wf s -> by_deadline s !! deadline = Some slots ->
  let s' := {| by_slot := set_fold (fun slot m => delete slot m) (by_slot s) slots;
               by_deadline := delete deadline (by_deadline s) |} in
  schedule_wf s' /\ by_slot s' = filter (fun kv => kv.2 <> deadline) (by_slot s).
Proof.
  intros [Hi Hn] Hd. assert (forall sl d, set_fold (fun slot m => delete slot m) (by_slot s) slots !! sl = Some d <->
    by_slot s !! sl = Some d /\ d <> deadline) as Hsl.
  { intros sl d. destruct (delete_all_lookup slots (by_slot s) sl) as [Hin1 Hin2].
    destruct (decide (sl ∈ slots)) as [Hin|Hin]; [rewrite Hin1 by done|rewrite Hin2 by done].
    - split; [done|]. intros [Hd' Hne]. assert (by_slot s !! sl = Some deadline) as Hx
        by (apply Hi; by exists slots). congruence.
    - split; [|tauto]. intros Hd'. split; [done|]. intros ->. apply Hi in Hd' as (? & ? & ?).
      by simplify_eq. }
  split; [split|]; simpl.
  - intros sl d. rewrite Hsl, Hi, lookup_delete. case_decide; subst; naive_solver.
  - intros d sls. rewrite lookup_delete. case_decide; [done|by apply Hn].
  - apply map_eq. intros sl. apply option_eq. intros d. rewrite Hsl, map_lookup_filter_Some. done.
Qed.

Lemma remove_due_loop_spec fuel now removed s :
  schedule_wf s -> (size (by_deadline s) <= fuel)%nat ->
  let '(removed', s') := remove_due_loop fuel now removed s in
  schedule_wf s' /\ by_slot s' = ahead now (by_slot s) /\
  (removed' = true <-> removed = true \/ by_slot s <> ahead now (by_slot s)).
Proof.
  revert removed s. induction fuel as [|fuel IH]; intros removed s Hwf Hf; cbn [remove_due_loop].
  - pose proof (next_deadline_spec s Hwf) as Hn. unfold next_deadline in Hn.
    assert (by_deadline s = ∅) as He by (apply map_size_empty_inv; lia).
    rewrite He in Hn. simpl in Hn. rewrite Hn. unfold ahead. rewrite map_filter_empty. tauto.
  - pose proof (next_deadline_spec s Hwf) as Hn. unfold next_deadline in Hn.
    pose proof (first_key_spec (by_deadline s)) as Hk.
    destruct (first_key (by_deadline s)) as [d|]; cycle 1.
    { rewrite Hn. unfold ahead. rewrite map_filter_empty. tauto. }
    destruct Hk as [[slots Hd] _]. destruct Hn as [[slot Hslot] Hmin]. rewrite Hd. simpl.
    destruct (d <=? now) eqn:Ed; bool_to_prop.
    + destruct (pop_deadline_spec d slots s Hwf Hd) as [Hwf' Hby].
      specialize (IH true _ Hwf'). cbn [by_deadline] in IH. rewrite map_size_delete_Some in IH by eauto.
      specialize (IH ltac:(lia)). destruct (remove_due_loop _ _ _ _) as [removed' s'].
      destruct IH as (Hw & Hb & Hr). split; [done|]. split.
      * rewrite Hb, Hby. unfold ahead. rewrite map_filter_filter_l; [done|]. intros; simpl in *; lia.
      * split; [|by tauto]. intros _. right. intros Heq. rewrite Heq in Hslot.
        apply map_lookup_filter_Some in Hslot as [_ Hlt]. simpl in Hlt. lia.
    + assert (ahead now (by_slot s) = by_slot s) as ->; [|tauto].
      apply map_filter_id. intros sl d' Hd'. simpl. apply Hmin in Hd'. lia.
Qed.

Lemma remove_due_spec now s :
  schedule_wf s ->
  let '(removed, s') := remove_due now s in
  schedule_wf s' /\ by_slot s' = ahead now (by_slot s) /\
  (removed = true <-> by_slot s <> ahead now (by_slot s)).
Proof.
  intros Hwf. pose proof (remove_due_loop_spec (size (by_deadline s)) now false s Hwf) as Hr.
  specialize (Hr ltac:(lia)). unfold remove_due. destruct (remove_due_loop _ _ _ _).
  destruct Hr as (? & ? & Hr). split; [done|]. split; [done|]. rewrite Hr. by split; [intros [|]|auto].
Qed.

(** * What the notifications leave alone *)

Lemma publish_frame n e e' :
  publish n e = Ret e' -> wake_schedule e' = wake_schedule e /\ running e' = running e.
Proof.
  unfold publish, notify_wake_worker, ensure_wake_worker. destruct (notify n); [|by intros [= <-]].
  destruct (checked_add _ _ _); [|done]. simpl. intros [= <-]. by repeat case_match.
Qed.

Lemma advance_frame e e' :
  advance e = Ret e' -> wake_schedule e' = wake_schedule e /\ running e' = running e.
Proof.
  unfold advance, increment, publish_epoch. destruct (checked_add _ _ _); [|done]. simpl.
  intros [= <-]. by case_match.
Qed.

Lemma prepare_schedule_frame slot t e n e' :
  schedule_wf (wake_schedule e) -> prepare_schedule slot t e = (n, e') ->
  schedule_wf (wake_schedule e') /\ running e' = running e /\
  (running e = true -> by_slot (wake_schedule e') = <[slot := t]> (by_slot (wake_schedule e))) /\
  (running e = false -> wake_schedule e' = wake_schedule e).
Proof.
  intros Hwf. unfold prepare_schedule. destruct (running e) eqn:Er; [|intros [= <- <-]; by split].
  pose proof (schedule_spec slot t _ Hwf) as Hs. destruct (schedule slot t _) as [b ws].
  destruct Hs as (? & ? & _). intros [= <- <-]. by split.
Qed.

Lemma prepare_cancellation_frame slot e n e' :
  schedule_wf (wake_schedule e) -> prepare_cancellation slot e = (n, e') ->
  schedule_wf (wake_schedule e') /\ running e' = running e /\
  by_slot (wake_schedule e') = delete slot (by_slot (wake_schedule e)).
Proof.
  intros Hwf. unfold prepare_cancellation.
  pose proof (cancel_spec slot _ Hwf) as Hs. destruct (cancel slot _) as [b ws].
  destruct Hs as (? & ? & _). intros [= <- <-]. done.
Qed.

Lemma wake_worker_fire_frame now e e' :
  schedule_wf (wake_schedule e) -> wake_worker_fire now e = Ret e' ->
  schedule_wf (wake_schedule e') /\ running e' = running e /\
  by_slot (wake_schedule e') = ahead now (by_slot (wake_schedule e)).
Proof.
  intros Hwf. unfold wake_worker_fire. pose proof (remove_due_spec now _ Hwf) as Hr.
  destruct (remove_due now _) as [[] ws]; destruct Hr as (? & ? & _).
  - intros Ha. apply advance_frame in Ha as [-> ->]. done.
  - by intros [= <-].
Qed.

(** * The schedule stays consistent *)

Definition epoch_wf (e : SchedulerEpoch) : Prop := schedule_wf (wake_schedule e).

Lemma publish_wf n e e' : publish n e = Ret e' -> epoch_wf e -> epoch_wf e'.
Proof. intros E. apply publish_frame in E as [E _]. unfold epoch_wf. by rewrite E. Qed.

Lemma advance_wf e e' : advance e = Ret e' -> epoch_wf e -> epoch_wf e'.
Proof. intros E. apply advance_frame in E as [E _]. unfold epoch_wf. by rewrite E. Qed.

Lemma wake_slot_wf e s e' : wake_slot e = Ret (s, e') -> epoch_wf e -> epoch_wf e'.
Proof. unfold wake_slot. destruct (checked_add _ _ _); [|done]. by intros [= <- <-]. Qed.

Lemma prepare_schedule_wf slot t e n e' :
  prepare_schedule slot t e = (n, e') -> epoch_wf e -> epoch_wf e'.
Proof. intros E Hwf. by apply prepare_schedule_frame in E as [? _]. Qed.

Lemma prepare_cancellation_wf slot e n e' :
  prepare_cancellation slot e = (n, e') -> epoch_wf e -> epoch_wf e'.
Proof. intros E Hwf. by apply prepare_cancellation_frame in E as [? _]. Qed.

Lemma slot_cancel_wf slot e e' : slot_cancel slot e = Ret e' -> epoch_wf e -> epoch_wf e'.
Proof.
  unfold slot_cancel. destruct (prepare_cancellation slot e) as [n e1] eqn:E.
  intros Hp Hwf. eapply publish_wf; [exact Hp|]. by eapply prepare_cancellation_wf.
Qed.

#[export] Hint Resolve publish_wf advance_wf wake_slot_wf prepare_schedule_wf
  prepare_cancellation_wf slot_cancel_wf : any2api.

(** * Headroom of the counters *)

(** At least [n] more increments fit each 64-bit counter of the epoch. *)
Record headroom (n : Z) (e : SchedulerEpoch) : Prop := {
  room_current : current e + n <= u64_max;
  room_generation : wake_generation e + n <= u64_max;
  room_slot : next_wake_slot e + n <= u64_max
}.

Lemma headroom_weaken n m e : headroom n e -> m <= n -> headroom m e.
Proof. intros [] ?. split; lia. Qed.

Lemma advance_total n e :
  0 <= n -> headroom (n + 1) e -> exists e', advance e = Ret e' /\ headroom n e'.
Proof.
  intros Hn [H1 H2 H3]. unfold advance, increment, checked_add.
  rewrite (proj2 (Z.leb_le _ _)) by lia. simpl. eexists. split; [done|].
  unfold publish_epoch. destruct (_ <=? _); split; simpl; lia.
Qed.

Lemma publish_total n p e :
  0 <= n -> headroom (n + 1) e -> exists e', publish p e = Ret e' /\ headroom n e'.
Proof.
  intros Hn [H1 H2 H3]. unfold publish, notify_wake_worker, checked_add.
  destruct (notify p); [|eexists; split; [done|split; lia]].
  rewrite (proj2 (Z.leb_le _ _)) by lia. simpl. eexists. split; [done|].
  unfold ensure_wake_worker. destruct (ensure_worker p); [|split; simpl; lia].
  destruct (_ || _); split; simpl; lia.
Qed.

Lemma wake_slot_total n e :
  0 <= n -> headroom (n + 1) e ->
  exists s e', wake_slot e = Ret (s, e') /\ headroom n e' /\
    wake_schedule e' = wake_schedule e /\ running e' = running e.
Proof.
  intros Hn [H1 H2 H3]. unfold wake_slot, checked_add.
  rewrite (proj2 (Z.leb_le _ _)) by lia. simpl. do 2 eexists. split; [done|].
  split; [split; simpl; lia|done].
Qed.

Lemma prepare_schedule_room n slot t e :
  headroom n e -> headroom n (prepare_schedule slot t e).2.
Proof.
  intros []. unfold prepare_schedule. destruct (running e); [|done].
  destruct (schedule _ _ _). by split.
Qed.

Lemma prepare_cancellation_room n slot e :
  headroom n e -> headroom n (prepare_cancellation slot e).2.
Proof. intros []. unfold prepare_cancellation. destruct (cancel _ _). by split. Qed.

Lemma slot_cancel_total n slot e :
  0 <= n -> headroom (n + 1) e -> exists e', slot_cancel slot e = Ret e' /\ headroom n e'.
Proof.
  intros Hn He. unfold slot_cancel. pose proof (prepare_cancellation_room _ slot _ He) as Hp.
  destruct (prepare_cancellation slot e) as [p e1]. by apply publish_total.
Qed.

(** * The schedule as a map from slots to deadlines *)

Inductive wake_op :=
| OpSchedule (slot : Z) (deadline : Instant)
| OpCancel (slot : Z)
| OpRemoveDue (now : Instant).

Definition apply_op (op : wake_op) (s : WakeSchedule) : bool * WakeSchedule :=
  match op with
  | OpSchedule slot deadline => schedule slot deadline s
  | OpCancel slot => cancel slot s
  | OpRemoveDue now => remove_due now s
  end.

Definition abstract_op (op : wake_op) (m : gmap Z Instant) : gmap Z Instant :=
  match op with
  | OpSchedule slot deadline => <[slot := deadline]> m
  | OpCancel slot => delete slot m
  | OpRemoveDue now => ahead now m
  end.

Lemma apply_op_spec op s :
  schedule_wf s ->
  schedule_wf (apply_op op s).2 /\ by_slot (apply_op op s).2 = abstract_op op (by_slot s) /\
  ((apply_op op s).1 = true <-> abstract_op op (by_slot s) <> by_slot s).
Proof.
  intros Hwf. destruct op as [slot d|slot|now]; simpl.
  - pose proof (schedule_spec slot d s Hwf) as Hs. destruct (schedule slot d s) as [b s'].
    destruct Hs as (? & ? & Hb). split; [done|]. split; [done|]. simpl. rewrite Hb.
    split; intros Hne Heq; apply Hne; [|by apply insert_id].
    rewrite <- Heq. apply lookup_insert_eq.
  - pose proof (cancel_spec slot s Hwf) as Hs. destruct (cancel slot s) as [b s'].
    destruct Hs as (? & ? & Hb). split; [done|]. split; [done|]. simpl. rewrite Hb. split.
    + intros [d Hd] Heq. rewrite <- Heq, lookup_delete_eq in Hd. done.
    + intros Hne. destruct (by_slot s !! slot) eqn:E; [by eauto|]. destruct Hne. by apply delete_id.
  - pose proof (remove_due_spec now s Hwf) as Hs. destruct (remove_due now s) as [b s'].
    destruct Hs as (? & ? & Hb). split; [done|]. split; [done|]. simpl. rewrite Hb.
    split; by apply not_symmetry.
Qed.

Definition run_ops (ops : list wake_op) : WakeSchedule :=
  fold_left (fun s op => (apply_op op s).2) ops wake_schedule_new.
Definition run_abstract (ops : list wake_op) : gmap Z Instant :=
  fold_left (fun m op => abstract_op op m) ops ∅.

Lemma run_ops_spec ops :
  schedule_wf (run_ops ops) /\ by_slot (run_ops ops) = run_abstract ops.
Proof.
  unfold run_ops, run_abstract. assert (forall s m, schedule_wf s -> by_slot s = m ->
    schedule_wf (fold_left (fun s op => (apply_op op s).2) ops s) /\
    by_slot (fold_left (fun s op => (apply_op op s).2) ops s) =
      fold_left (fun m op => abstract_op op m) ops m) as Hgen.
  { induction ops as [|op ops IH]; intros s m Hwf <-; [done|]. simpl.
    destruct (apply_op_spec op s Hwf) as (Hwf' & Hb & _). by apply IH. }
  apply Hgen; [apply wake_schedule_new_wf|done].
Qed.

(** * Racing advances *)

(** Threads advance the epoch: each increments the counter and publishes the
    value it got some time later. *)
Record epoch_race := {
  race_epoch : SchedulerEpoch;
  unpublished : list Z
}.

Inductive race_step : epoch_race -> epoch_race -> Prop :=
| race_increment r next e' :
    increment (race_epoch r) = Ret (next, e') ->
    race_step r {| race_epoch := e'; unpublished := next :: unpublished r |}
| race_publish r pre next post :
    unpublished r = pre ++ next :: post ->
    race_step r {| race_epoch := publish_epoch next (race_epoch r); unpublished := pre ++ post |}.

Definition race_inv (r : epoch_race) : Prop :=
  published (race_epoch r) <= current (race_epoch r) /\
  Forall (fun n => n <= current (race_epoch r)) (unpublished r) /\
  (published (race_epoch r) = current (race_epoch r) \/
   current (race_epoch r) ∈ unpublished r).

Lemma increment_current e next e' :
  increment e = Ret (next, e') -> next = current e + 1 /\ current e' = next /\
    published e' = published e.
Proof.
  unfold increment, checked_add. destruct (_ <=? _); [|done]. by intros [= <- <-].
Qed.

Lemma advance_current e e' : advance e = Ret e' -> current e < current e'.
Proof.
  unfold advance. destruct (increment e) as [[next e1]|] eqn:E; [|done].
  apply increment_current in E as (-> & E & _). cbn. intros [= <-].
  unfold publish_epoch. case_match; cbn [current]; lia.
Qed.

Lemma race_step_inv r r' : race_inv r -> race_step r r' -> race_inv r'.
Proof.
  intros (Hp & Hu & Hc) Hstep. destruct Hstep as [r next e' E|r pre next post E].
  - apply increment_current in E as (-> & E1 & E2). unfold race_inv. simpl. rewrite E1, E2.
    split; [lia|]. split; [|right; by left]. constructor; [lia|].
    eapply Forall_impl; [exact Hu|]. simpl. lia.
  - unfold race_inv. simpl. rewrite E in *. apply Forall_app in Hu as [Hpre Hpost].
    apply Forall_cons in Hpost as [Hn Hpost].
    assert (Forall (fun n => n <= current (race_epoch r)) (pre ++ post)) by (by apply Forall_app).
    unfold publish_epoch. destruct (next <=? published _) eqn:Ele; bool_to_prop; simpl.
    + split; [done|]. split; [done|]. destruct Hc as [Hc|Hc]; [by left|].
      apply elem_of_app in Hc as [Hc|Hc]; [right; set_solver|].
      apply elem_of_cons in Hc as [Hc|Hc]; [left; lia|right; set_solver].
    + split; [lia|]. split; [done|]. destruct Hc as [Hc|Hc]; [lia|].
      apply elem_of_app in Hc as [Hc|Hc]; [right; set_solver|].
      apply elem_of_cons in Hc as [Hc|Hc]; [left; lia|right; set_solver].
Qed.

(** * Properties *)

(** C29. The wake schedule is a map from slots to deadlines: whatever is
    scheduled, rescheduled, cancelled or collected, both indexes stay
    consistent, each operation says whether it changed the map, and the next
    deadline is the least one of the map (none exactly when it is empty). *)
Theorem wake_schedule_refines_map ops op :
  by_slot (run_ops ops) = run_abstract ops /\
  ((apply_op op (run_ops ops)).1 = true <->
     abstract_op op (run_abstract ops) <> run_abstract ops) /\
  match next_deadline (run_ops ops) with
  | None => run_abstract ops = ∅
  | Some d => (exists slot, run_abstract ops !! slot = Some d) /\
              forall slot d', run_abstract ops !! slot = Some d' -> d <= d'
  end.
Proof.
  destruct (run_ops_spec ops) as [Hwf Hb]. split; [done|].
  pose proof (apply_op_spec op _ Hwf) as (_ & _ & Hop).
  pose proof (next_deadline_spec _ Hwf) as Hn. rewrite Hb in *. done.
Qed.

(** No wakeup is lost to racing advances: in every interleaving the
    published epoch never runs ahead of the counter, and once every racing
    advance has published, listeners have been told the newest epoch. *)
Theorem epoch_races_publish_newest running r :
  rtc race_step {| race_epoch := epoch_new running; unpublished := [] |} r ->
  published (race_epoch r) <= current (race_epoch r) /\
  (unpublished r = [] -> published (race_epoch r) = current (race_epoch r)).
Proof.
  intros Hrun. assert (race_inv r) as (Hp & _ & Hc).
  { revert Hrun. apply (rtc_ind_r race_inv); [split; [done|by split; [constructor|left]]|].
    intros r1 r2 _ Hs Hi. by eapply race_step_inv. }
  split; [done|]. intros E. rewrite E in Hc. destruct Hc as [|Hc]; [done|]. by apply elem_of_nil in Hc.
Qed.

(** When the wake worker fires it collects every deadline that has passed
    and no other, and advances and publishes the epoch exactly when it
    collected one. *)
Theorem wake_worker_fires_due now e :
  schedule_wf (wake_schedule e) -> 0 <= published e <= current e -> current e < u64_max ->
  exists e', wake_worker_fire now e = Ret e' /\ schedule_wf (wake_schedule e') /\
    by_slot (wake_schedule e') = ahead now (by_slot (wake_schedule e)) /\
    ((exists slot d, by_slot (wake_schedule e) !! slot = Some d /\ d <= now) ->
       current e' = current e + 1 /\ published e' = current e') /\
    ((forall slot d, by_slot (wake_schedule e) !! slot = Some d -> now < d) ->
       current e' = current e /\ published e' = published e).
Proof.
  intros Hwf Hp Hc. unfold wake_worker_fire. pose proof (remove_due_spec now _ Hwf) as Hr.
  destruct (remove_due now _) as [removed ws]. destruct Hr as (Hwf' & Hby & Hr).
  assert ((exists slot d, by_slot (wake_schedule e) !! slot = Some d /\ d <= now) ->
    removed = true) as Hdue.
  { intros (slot & d & Hd & Hle). apply Hr. intros Heq. rewrite Heq in Hd.
    apply map_lookup_filter_Some in Hd as [_ Hlt]. simpl in Hlt. lia. }
  assert ((forall slot d, by_slot (wake_schedule e) !! slot = Some d -> now < d) ->
    removed = false) as Hnone.
  { intros Hall. destruct removed; [|done]. destruct (proj1 Hr eq_refl). symmetry.
    apply map_filter_id. intros slot d Hd. by apply (Hall slot). }
  destruct removed.
  - unfold advance, increment, checked_add, publish_epoch. simpl.
    rewrite (proj2 (Z.leb_le _ _)) by lia. simpl. rewrite (proj2 (Z.leb_gt _ _)) by lia.
    eexists. split; [done|]. simpl. split; [done|]. split; [done|].
    split; [done|]. intros Hall. by specialize (Hnone Hall).
  - eexists. split; [done|]. simpl. split; [done|]. split; [done|]. split; [|done].
    intros Hex. by specialize (Hdue Hex).
Qed.

(** * Witnesses *)

Definition sample_race : epoch_race := {|
  race_epoch := {| current := 2; published := 2; running := true;
                   wake_schedule := wake_schedule_new; wake_generation := 0;
                   wake_worker_started := false; next_wake_slot := 1 |};
  unpublished := []
|}.

(** Two advances race and the later one publishes first. *)
Lemma sample_race_reached :
  rtc race_step {| race_epoch := epoch_new true; unpublished := [] |} sample_race.
Proof.
  eapply rtc_l; [eapply race_increment; reflexivity|].
  eapply rtc_l; [eapply race_increment; reflexivity|]. simpl.
  eapply rtc_l; [eapply (race_publish _ [] 2 [1]); reflexivity|]. simpl.
  eapply rtc_l; [eapply (race_publish _ [] 1 []); reflexivity|]. apply rtc_refl.
Qed.

Lemma epoch_races_publish_newest_witness :
  published (race_epoch sample_race) <= current (race_epoch sample_race) /\
  (unpublished sample_race = [] ->
   published (race_epoch sample_race) = current (race_epoch sample_race)).
Proof. apply (epoch_races_publish_newest true sample_race sample_race_reached). Defined.

Lemma wake_worker_fires_due_witness :
  exists e', wake_worker_fire 7 (set_wake_schedule (run_ops [OpSchedule 1 5; OpSchedule 2 9])
      (epoch_new true)) = Ret e' /\ current e' = 1.
Proof.
  destruct (wake_worker_fires_due 7
    (set_wake_schedule (run_ops [OpSchedule 1 5; OpSchedule 2 9]) (epoch_new true)))
    as (e' & E & _ & _ & Hdue & _).
  - apply run_ops_spec.
  - done.
  - done.
  - exists e'. split; [exact E|]. apply Hdue. exists 1, 5. done.
Defined.
