(* ===== verification/Circuit.v ===== *)
(** The circuit breaker of endpoints, proxies and paths
    ([crates/runtime/src/health/circuit.rs]) with the constants of
    [crates/runtime/src/health/policy.rs].

    A circuit is closed, open until an instant, or half open (its instant has
    passed), where only a bounded number of probes may be in flight.  Every
    acquisition hands out a permit that is settled exactly once: by success,
    by failure or by being dropped. *)

From S2P Require Import Prelude Epoch.

Local Open Scope Z_scope.

(** * Policy *)

Record ReliabilityPolicy := {
  max_total_attempts : Z;
  max_credential_switches : Z;
  max_same_credential_retries : Z;
  precommit_total_budget : Duration;
  base_delay : Duration;
  max_delay : Duration;
  jitter_ratio : Z;
  rate_limit_fallback : Duration;
  model_unsupported : Duration;
  permission_denied : Duration;
  transient_endpoint : Duration;
  endpoint_failure_threshold : Z;
  endpoint_failure_window : Duration;
  endpoint_open_duration : Duration;
  proxy_failure_threshold : Z;
  proxy_failure_window : Duration;
  proxy_open_duration : Duration;
  half_open_max_probes : Z
}.

(** [ReliabilityPolicy::from_settings], from the only setting it reads *)
Definition policy_from_settings (precommit_total_budget_secs : Z) : ReliabilityPolicy := {|
  max_total_attempts := 3;
  max_credential_switches := 2;
  max_same_credential_retries := 1;
  precommit_total_budget := secs precommit_total_budget_secs;
  base_delay := secs 1;
  max_delay := secs 2;
  jitter_ratio := 20;
  rate_limit_fallback := secs 60;
  model_unsupported := secs 3600;
  permission_denied := secs 900;
  transient_endpoint := secs 15;
  endpoint_failure_threshold := 3;
  endpoint_failure_window := secs 30;
  endpoint_open_duration := secs 15;
  proxy_failure_threshold := 3;
  proxy_failure_window := secs 30;
  proxy_open_duration := secs 30;
  half_open_max_probes := 1
|}.

(** * Data *)

(** [CircuitState] with the wake slot of its [CircuitRuntime] *)
Record CircuitRuntime := {
  failure_times : list Instant;
  open_until : option Instant;
  half_open_in_flight : Z;
  last_failure_at : option Instant;
  wake : Z
}.

Inductive CircuitStateSnapshot := Closed | Open | HalfOpen.

(** [CircuitPermit]; that it is settled once is the ledger of the runs below *)
Record CircuitPermit := {
  half_open : bool;
  permit_started_at : Instant
}.

#[export] Instance circuit_permit_eq_dec : EqDecision CircuitPermit.
Proof. solve_decision. Defined.

(** * Operations *)

(** [CircuitRuntime::new] *)
Definition circuit_new (e : SchedulerEpoch) : outcome (CircuitRuntime * SchedulerEpoch) :=
  '(slot, e) ← wake_slot e;
  Ret ({| failure_times := []; open_until := None; half_open_in_flight := 0;
          last_failure_at := None; wake := slot |}, e).

(** [CircuitRuntime::try_acquire] *)
Definition circuit_try_acquire (now : Instant) (max_probes : Z) (c : CircuitRuntime)
    : outcome (result CircuitPermit Instant * CircuitRuntime) :=
  match open_until c with
  | Some until =>
      if now <? until then Ret (Err until, c)
      else if max_probes <=? half_open_in_flight c then Ret (Err (now + millis 10), c)
      else
        n ← expect (checked_add u32_max (half_open_in_flight c) 1);
        Ret (Ok {| half_open := true; permit_started_at := now |},
             {| failure_times := failure_times c; open_until := open_until c;
                half_open_in_flight := n; last_failure_at := last_failure_at c;
                wake := wake c |})
  | None => Ret (Ok {| half_open := false; permit_started_at := now |}, c)
  end.

(** [CircuitRuntime::availability] *)
Definition circuit_availability (now : Instant) (max_probes : Z) (c : CircuitRuntime)
    : result unit Instant :=
  match open_until c with
  | Some until =>
      if now <? until then Err until
      else if max_probes <=? half_open_in_flight c then Err (now + millis 10)
      else Ok tt
  | None => Ok tt
  end.

(** [CircuitRuntime::state_at] *)
Definition state_at (now : Instant) (c : CircuitRuntime) : CircuitStateSnapshot :=
  match open_until c with
  | Some until => if now <? until then Open else HalfOpen
  | None => Closed
  end.

(** Gives back the probe of a half-open permit. *)
Definition return_probe (half_open : bool) (c : CircuitRuntime) : CircuitRuntime :=
  if half_open
  then {| failure_times := failure_times c; open_until := open_until c;
          half_open_in_flight := saturating_sub (half_open_in_flight c) 1;
          last_failure_at := last_failure_at c; wake := wake c |}
  else c.

(** [CircuitRuntime::success] *)
Definition circuit_success (half_open : bool) (started_at : Instant) (c : CircuitRuntime)
    (e : SchedulerEpoch) : outcome (CircuitRuntime * SchedulerEpoch) :=
  let c := return_probe half_open c in
  if match last_failure_at c with Some t => started_at <? t | None => false end then Ret (c, e)
  else
    let changed := negb (bool_decide (failure_times c = [])) ||
                   match open_until c with Some _ => true | None => false end in
    let c := {| failure_times := []; open_until := None;
                half_open_in_flight := half_open_in_flight c;
                last_failure_at := None; wake := wake c |} in
    let '(n, e) := prepare_cancellation (wake c) e in
    e ← publish n e;
    if changed then e ← advance e; Ret (c, e) else Ret (c, e).

(** The failures still in the window once those that left it are popped. *)
Definition recent_failures (window : Duration) (now : Instant) (l : list Instant) : list Instant :=
  drop_while (fun t => window <=? saturating_duration_since now t) l.

(** [CircuitRuntime::failure] *)
Definition circuit_failure (now : Instant) (half_open : bool) (threshold : Z)
    (failure_window open_duration : Duration) (c : CircuitRuntime) (e : SchedulerEpoch)
    : outcome (option Instant * CircuitRuntime * SchedulerEpoch) :=
  let c := return_probe half_open c in
  let times := recent_failures failure_window now (failure_times c) ++ [now] in
  let should_open := half_open || (threshold <=? Zlen times) in
  if should_open then
    let until := now + open_duration in
    let c := {| failure_times := []; open_until := Some until;
                half_open_in_flight := half_open_in_flight c;
                last_failure_at := Some now; wake := wake c |} in
    let '(n, e) := prepare_schedule (wake c) until e in
    e ← publish n e;
    Ret (Some until, c, e)
  else
    Ret (None, {| failure_times := times; open_until := open_until c;
                  half_open_in_flight := half_open_in_flight c;
                  last_failure_at := Some now; wake := wake c |}, e).

(** [CircuitRuntime::release_probe] *)
Definition release_probe (c : CircuitRuntime) (e : SchedulerEpoch)
    : outcome (CircuitRuntime * SchedulerEpoch) :=
  let c := return_probe true c in
  e ← advance e; Ret (c, e).

(** [CircuitPermit::success] *)
Definition permit_success (p : CircuitPermit) (c : CircuitRuntime) (e : SchedulerEpoch) :=
  circuit_success (half_open p) (permit_started_at p) c e.

(** [CircuitPermit::failure] *)
Definition permit_failure (now : Instant) (threshold : Z) (window open_duration : Duration)
    (p : CircuitPermit) (c : CircuitRuntime) (e : SchedulerEpoch) :=
  circuit_failure now (half_open p) threshold window open_duration c e.

(** [CircuitPermit::drop] of a permit that was not settled *)
Definition permit_drop (p : CircuitPermit) (c : CircuitRuntime) (e : SchedulerEpoch)
    : outcome (CircuitRuntime * SchedulerEpoch) :=
  if half_open p then release_probe c e else Ret (c, e).

(** * Runs of a circuit *)

(** A circuit, the epoch it reports to, the clock and the permits not settled
    yet.  [circuit_env] is everything else that may happen to the epoch: it
    does not touch the wake slot of this circuit, and shutting down is final;
    [circuit_wake] is the wake worker. *)
Record circuit_run := {
  run_now : Instant;
  run_circuit : CircuitRuntime;
  run_epoch : SchedulerEpoch;
  run_permits : list CircuitPermit
}.

Inductive circuit_step (probes : Z) : circuit_run -> circuit_run -> Prop :=
| circuit_acquired r now p c :
    run_now r <= now -> circuit_try_acquire now probes (run_circuit r) = Ret (Ok p, c) ->
    circuit_step probes r {| run_now := now; run_circuit := c; run_epoch := run_epoch r;
                             run_permits := p :: run_permits r |}
| circuit_refused r now t c :
    run_now r <= now -> circuit_try_acquire now probes (run_circuit r) = Ret (Err t, c) ->
    circuit_step probes r {| run_now := now; run_circuit := c; run_epoch := run_epoch r;
                             run_permits := run_permits r |}
| circuit_succeeded r now pre p post c e :
    run_now r <= now -> run_permits r = pre ++ p :: post ->
    permit_success p (run_circuit r) (run_epoch r) = Ret (c, e) ->
    circuit_step probes r {| run_now := now; run_circuit := c; run_epoch := e;
                             run_permits := pre ++ post |}
| circuit_failed r now threshold window open_duration pre p post o c e :
    run_now r <= now -> run_permits r = pre ++ p :: post -> 0 <= open_duration ->
    permit_failure now threshold window open_duration p (run_circuit r) (run_epoch r)
      = Ret (o, c, e) ->
    circuit_step probes r {| run_now := now; run_circuit := c; run_epoch := e;
                             run_permits := pre ++ post |}
| circuit_dropped r now pre p post c e :
    run_now r <= now -> run_permits r = pre ++ p :: post ->
    permit_drop p (run_circuit r) (run_epoch r) = Ret (c, e) ->
    circuit_step probes r {| run_now := now; run_circuit := c; run_epoch := e;
                             run_permits := pre ++ post |}
| circuit_env r now e :
    run_now r <= now -> schedule_wf (wake_schedule e) ->
    by_slot (wake_schedule e) !! wake (run_circuit r) =
      by_slot (wake_schedule (run_epoch r)) !! wake (run_circuit r) ->
    (running e = true -> running (run_epoch r) = true) ->
    circuit_step probes r {| run_now := now; run_circuit := run_circuit r; run_epoch := e;
                             run_permits := run_permits r |}
| circuit_wake r now e :
    run_now r <= now -> wake_worker_fire now (run_epoch r) = Ret e ->
    circuit_step probes r {| run_now := now; run_circuit := run_circuit r; run_epoch := e;
                             run_permits := run_permits r |}.

Definition half_open_permits (l : list CircuitPermit) : Z :=
  Zlen (filter (fun p => half_open p = true) l).

Record circuit_inv (probes : Z) (r : circuit_run) : Prop := {
  ci_count : half_open_in_flight (run_circuit r) = half_open_permits (run_permits r);
  ci_bound : half_open_permits (run_permits r) <= Z.max 0 probes;
  ci_sorted : StronglySorted Z.le (failure_times (run_circuit r));
  ci_past : Forall (fun t => t <= run_now r) (failure_times (run_circuit r));
  ci_last : forall t, last_failure_at (run_circuit r) = Some t -> t <= run_now r;
  ci_schedule : schedule_wf (wake_schedule (run_epoch r));
  ci_wake : forall t, open_until (run_circuit r) = Some t -> run_now r < t ->
    running (run_epoch r) = true ->
    by_slot (wake_schedule (run_epoch r)) !! wake (run_circuit r) = Some t
}.

(** * Lemmas *)

Lemma half_open_permits_cons p l :
  half_open_permits (p :: l) = (if half_open p then 1 else 0) + half_open_permits l.
Proof.
  unfold half_open_permits, Zlen. rewrite filter_cons. destruct (half_open p) eqn:E.
  - rewrite decide_True by done. cbn [length]. lia.
  - rewrite decide_False by done. lia.
Qed.

Lemma half_open_permits_remove pre p post :
  half_open_permits (pre ++ p :: post) =
  (if half_open p then 1 else 0) + half_open_permits (pre ++ post).
Proof.
  unfold half_open_permits, Zlen. rewrite !filter_app, !length_app, filter_cons.
  destruct (half_open p) eqn:E.
  - rewrite decide_True by done. cbn [length]. lia.
  - rewrite decide_False by done. lia.
Qed.

Lemma half_open_permits_nonneg l : 0 <= half_open_permits l.
Proof. unfold half_open_permits, Zlen. lia. Qed.

Lemma recent_failures_sublist w now l : recent_failures w now l `sublist_of` l.
Proof. apply drop_while_sublist. Qed.

(** On the failures of a circuit, popping keeps those less than a window old. *)
Lemma recent_failures_filter w now l :
  StronglySorted Z.le l -> Forall (fun t => t <= now) l ->
  recent_failures w now l = filter (fun t => now - t < w) l.
Proof.
  intros Hs Hp. unfold recent_failures.
  rewrite (drop_while_filter _ Z.le); [|unfold saturating_duration_since|done].
  - apply filter_ext_Forall. eapply Forall_impl; [exact Hp|]. intros t Ht. cbn beta in *.
    unfold saturating_duration_since. rewrite Z.leb_gt. lia.
  - intros x y Hxy Hx. cbn beta in *. apply Z.leb_gt in Hx. apply Z.leb_gt. lia.
Qed.

(** What a settled permit leaves of the counter. *)
Lemma return_probe_count probes r pre p post c :
  circuit_inv probes r -> run_permits r = pre ++ p :: post ->
  c = return_probe (half_open p) (run_circuit r) ->
  half_open_in_flight c = half_open_permits (pre ++ post) /\
  half_open_permits (pre ++ post) <= Z.max 0 probes /\
  failure_times c = failure_times (run_circuit r) /\ open_until c = open_until (run_circuit r) /\
  last_failure_at c = last_failure_at (run_circuit r) /\ wake c = wake (run_circuit r).
Proof.
  intros [Hc Hb _ _ _ _ _] E ->. rewrite E, half_open_permits_remove in *.
  pose proof (half_open_permits_nonneg (pre ++ post)).
  unfold return_probe, saturating_sub. destruct (half_open p); simpl; split_and!; try done; lia.
Qed.

Lemma circuit_try_acquire_ok now probes c p c' :
  circuit_try_acquire now probes c = Ret (Ok p, c') ->
  failure_times c' = failure_times c /\ open_until c' = open_until c /\
  last_failure_at c' = last_failure_at c /\ wake c' = wake c /\
  half_open_in_flight c' = half_open_in_flight c + (if half_open p then 1 else 0) /\
  (half_open p = true -> half_open_in_flight c < probes).
Proof.
  unfold circuit_try_acquire, checked_add. destruct (open_until c) as [t|] eqn:E.
  - destruct (now <? t); [done|]. destruct (probes <=? _) eqn:Ep; [done|]. bool_to_prop.
    destruct (_ <=? u32_max); [|done]. simpl. intros [= <- <-]. by simpl.
  - intros [= <- <-]. split_and!; try done. simpl. lia.
Qed.

Lemma circuit_success_state ho started c e c' e' :
  circuit_success ho started c e = Ret (c', e') -> schedule_wf (wake_schedule e) ->
  let c1 := return_probe ho c in
  half_open_in_flight c' = half_open_in_flight c1 /\ wake c' = wake c /\
  schedule_wf (wake_schedule e') /\ running e' = running e /\
  ((failure_times c' = failure_times c /\ open_until c' = open_until c /\
    last_failure_at c' = last_failure_at c /\ wake_schedule e' = wake_schedule e) \/
   (failure_times c' = [] /\ open_until c' = None /\ last_failure_at c' = None)).
Proof.
  intros E Hwf c1. assert (wake c1 = wake c /\ failure_times c1 = failure_times c /\
    open_until c1 = open_until c /\ last_failure_at c1 = last_failure_at c) as (Ew & Ef & Eo & El)
    by (subst c1; by destruct ho).
  unfold circuit_success in E. fold c1 in E. clearbody c1. rewrite El in E.
  destruct (match last_failure_at c with Some _ => _ | None => _ end) eqn:Elast.
  { injection E as <- <-. split_and!; try done. left. by rewrite El. }
  destruct (prepare_cancellation _ e) as [n e1] eqn:Ec. simpl in Ec.
  apply prepare_cancellation_frame in Ec as (Hw1 & Hr1 & _); [|done].
  destruct (publish n e1) as [e2|] eqn:Ep; [|done]. apply publish_frame in Ep as [Hw2 Hr2].
  simpl in E. rewrite <- Hw2 in Hw1. destruct (_ || _).
  - destruct (advance e2) as [e3|] eqn:Ea; [|done]. apply advance_frame in Ea as [Hw3 Hr3].
    injection E as <- <-. simpl. rewrite Hw3, Hr3, Hr2, Hr1. split_and!; try done. by right.
  - injection E as <- <-. simpl. rewrite Hr2, Hr1. split_and!; try done. by right.
Qed.

Lemma circuit_failure_state now ho th w od c e o c' e' :
  circuit_failure now ho th w od c e = Ret (o, c', e') -> schedule_wf (wake_schedule e) ->
  let c1 := return_probe ho c in
  let times := recent_failures w now (failure_times c) ++ [now] in
  half_open_in_flight c' = half_open_in_flight c1 /\ wake c' = wake c /\
  last_failure_at c' = Some now /\ schedule_wf (wake_schedule e') /\ running e' = running e /\
  ((o = None /\ ho = false /\ Zlen times < th /\ failure_times c' = times /\
    open_until c' = open_until c /\ wake_schedule e' = wake_schedule e) \/
   (o = Some (now + od) /\ (ho = true \/ th <= Zlen times) /\ failure_times c' = [] /\
    open_until c' = Some (now + od) /\
    (running e = true -> by_slot (wake_schedule e') !! wake c = Some (now + od)))).
Proof.
  intros E Hwf c1 times. assert (wake c1 = wake c /\ failure_times c1 = failure_times c /\
    open_until c1 = open_until c) as (Ew & Ef & Eo) by (subst c1; by destruct ho).
  unfold circuit_failure in E. fold c1 in E. clearbody c1. rewrite Ef in E. fold times in E.
  clearbody times. destruct (ho || (th <=? Zlen times)) eqn:Eop.
  - destruct (prepare_schedule _ _ e) as [n e1] eqn:Es. simpl in Es.
    apply prepare_schedule_frame in Es as (Hw1 & Hr1 & Hrun & _); [|done].
    destruct (publish n e1) as [e2|] eqn:Ep; [|done]. apply publish_frame in Ep as [Hw2 Hr2].
    injection E as <- <- <-. simpl. rewrite Hw2, Hr2, Hr1. split_and!; try done. right.
    split_and!; try done.
    + apply orb_true_iff in Eop as [|]; bool_to_prop; auto.
    + intros Hr. rewrite (Hrun Hr), Ew. apply lookup_insert_eq.
  - injection E as <- <- <-. simpl. split_and!; try done. left. by bool_to_prop.
Qed.

Lemma circuit_inv_time probes now r :
  circuit_inv probes r -> run_now r <= now ->
  Forall (fun t => t <= now) (failure_times (run_circuit r)) /\
  (forall t, last_failure_at (run_circuit r) = Some t -> t <= now) /\
  (forall t, open_until (run_circuit r) = Some t -> now < t -> running (run_epoch r) = true ->
     by_slot (wake_schedule (run_epoch r)) !! wake (run_circuit r) = Some t).
Proof.
  intros [_ _ _ Hp Hl _ Hw] Hle. split_and!.
  - eapply Forall_impl; [exact Hp|]. simpl. lia.
  - intros t Ht. specialize (Hl t Ht). lia.
  - intros t Ht Hlt. apply Hw; [done|lia].
Qed.

(** * Settling returns *)

Lemma circuit_success_total n ho started c e :
  0 <= n -> headroom (n + 2) e ->
  exists c' e', circuit_success ho started c e = Ret (c', e') /\ headroom n e'.
Proof.
  intros Hn He. unfold circuit_success.
  destruct (match last_failure_at (return_probe ho c) with
            | Some t => started <? t | None => false end).
  { do 2 eexists. split; [done|]. eapply headroom_weaken; [done|lia]. }
  pose proof (prepare_cancellation_room _ (wake (return_probe ho c)) _ He) as Hp.
  cbn [wake]. destruct (prepare_cancellation _ e) as [p e1]. simpl in Hp.
  destruct (publish_total (n + 1) p e1) as (e2 & -> & He2); [lia|by replace (n + 1 + 1) with (n + 2) by lia|].
  simpl. destruct (_ || _).
  - destruct (advance_total n e2) as (e3 & -> & He3); [done|done|]. by do 2 eexists.
  - do 2 eexists. split; [done|]. eapply headroom_weaken; [done|lia].
Qed.

Lemma circuit_failure_total n now ho th w od c e :
  0 <= n -> headroom (n + 1) e ->
  exists o c' e', circuit_failure now ho th w od c e = Ret (o, c', e') /\ headroom n e'.
Proof.
  intros Hn He. unfold circuit_failure. destruct (_ || _).
  - cbn [wake]. pose proof (prepare_schedule_room _ (wake (return_probe ho c)) (now + od) _ He) as Hp.
    destruct (prepare_schedule _ _ e) as [p e1]. cbn [snd] in Hp.
    destruct (publish_total n p e1) as (e2 & -> & He2); [done|done|]. by do 3 eexists.
  - do 3 eexists. split; [done|]. eapply headroom_weaken; [done|lia].
Qed.

Lemma permit_drop_total n p c e :
  0 <= n -> headroom (n + 1) e ->
  exists e', permit_drop p c e = Ret (return_probe (half_open p) c, e') /\ headroom n e'.
Proof.
  intros Hn He. unfold permit_drop, release_probe. destruct (half_open p).
  - destruct (advance_total n e) as (e' & -> & He'); [done|done|]. by eexists.
  - eexists. split; [done|]. eapply headroom_weaken; [done|lia].
Qed.

Lemma circuit_settle_success probes r now pre p post c e :
  circuit_inv probes r -> run_now r <= now -> run_permits r = pre ++ p :: post ->
  permit_success p (run_circuit r) (run_epoch r) = Ret (c, e) ->
  circuit_inv probes {| run_now := now; run_circuit := c; run_epoch := e;
                        run_permits := pre ++ post |}.
Proof.
  intros Hinv Hle E Es. destruct (circuit_inv_time _ _ _ Hinv Hle) as (Hp & Hl & Hw).
  destruct (return_probe_count _ _ _ _ _ _ Hinv E eq_refl) as (Hc & Hb & _ & _ & _ & _).
  destruct Hinv as [_ _ Hs _ _ Hwf _].
  apply circuit_success_state in Es as (Hc' & Hwk & Hwf' & Hr & Hst); [|done].
  rewrite Hc in Hc'. split; simpl; try done.
  - destruct Hst as [(-> & _)|(-> & _)]; [done|constructor].
  - destruct Hst as [(-> & _)|(-> & _)]; [done|constructor].
  - destruct Hst as [(_ & _ & -> & _)|(_ & _ & ->)]; done.
  - rewrite Hwk, Hr. destruct Hst as [(_ & -> & _ & ->)|(_ & -> & _)]; done.
Qed.

Lemma circuit_settle_failure probes r now th w od pre p post o c e :
  circuit_inv probes r -> run_now r <= now -> run_permits r = pre ++ p :: post ->
  permit_failure now th w od p (run_circuit r) (run_epoch r) = Ret (o, c, e) ->
  circuit_inv probes {| run_now := now; run_circuit := c; run_epoch := e;
                        run_permits := pre ++ post |}.
Proof.
  intros Hinv Hle E Es. destruct (circuit_inv_time _ _ _ Hinv Hle) as (Hp & Hl & Hw).
  destruct (return_probe_count _ _ _ _ _ _ Hinv E eq_refl) as (Hc & Hb & _ & _ & _ & _).
  destruct Hinv as [_ _ Hs _ _ Hwf _].
  apply circuit_failure_state in Es as (Hc' & Hwk & Hlast & Hwf' & Hr & Hst); [|done].
  rewrite Hc in Hc'. pose proof (recent_failures_sublist w now (failure_times (run_circuit r))) as Hsub.
  pose proof (Forall_sublist _ _ _ Hsub Hp) as Hp'. split; simpl; try done.
  - destruct Hst as [(_ & _ & _ & -> & _)|(_ & _ & -> & _)]; [|constructor].
    apply StronglySorted_snoc; [by eapply StronglySorted_sublist|done].
  - destruct Hst as [(_ & _ & _ & -> & _)|(_ & _ & -> & _)]; [|constructor].
    apply Forall_app. split; [done|]. repeat constructor. lia.
  - rewrite Hlast. intros t [= <-]. lia.
  - rewrite Hwk, Hr. destruct Hst as [(_ & _ & _ & _ & -> & ->)|(_ & _ & _ & -> & Hrun)]; [done|].
    intros t [= <-] _. done.
Qed.

Lemma circuit_settle_drop probes r now pre p post c e :
  circuit_inv probes r -> run_now r <= now -> run_permits r = pre ++ p :: post ->
  permit_drop p (run_circuit r) (run_epoch r) = Ret (c, e) ->
  circuit_inv probes {| run_now := now; run_circuit := c; run_epoch := e;
                        run_permits := pre ++ post |}.
Proof.
  intros Hinv Hle E Es. destruct (circuit_inv_time _ _ _ Hinv Hle) as (Hp & Hl & Hw).
  destruct (return_probe_count _ _ _ _ _ _ Hinv E eq_refl) as (Hc & Hb & Hf & Ho & Hla & Hwk).
  destruct Hinv as [_ _ Hs _ _ Hwf _].
  assert (c = return_probe (half_open p) (run_circuit r) /\
    wake_schedule e = wake_schedule (run_epoch r) /\ running e = running (run_epoch r)) as (-> & Ew & Er).
  { unfold permit_drop, release_probe in Es. destruct (half_open p); [|by injection Es as <- <-].
    destruct (advance _) eqn:Ea; [|done]. apply advance_frame in Ea as [? ?]. by injection Es as <- <-. }
  split; simpl; rewrite ?Hc, ?Hf, ?Ho, ?Hla, ?Hwk, ?Ew, ?Er; done.
Qed.

Lemma circuit_step_inv probes r r' :
  circuit_inv probes r -> circuit_step probes r r' -> circuit_inv probes r'.
Proof.
  intros Hinv Hstep. destruct Hstep as [r now p c Hle E|r now t c Hle E
    |r now pre p post c e Hle E Es|r now th w od pre p post o c e Hle E Hod Es
    |r now pre p post c e Hle E Es|r now e Hle Hwf Hsame Hrun|r now e Hle E].
  - apply circuit_try_acquire_ok in E as (E1 & E2 & E3 & E4 & E5 & E6).
    destruct (circuit_inv_time _ _ _ Hinv Hle) as (Hp & Hl & Hw).
    destruct Hinv as [Hc Hb Hs _ _ Hwf _].
    split; simpl; rewrite ?E1, ?E2, ?E3, ?E4, ?E5, ?half_open_permits_cons; try done; [lia|].
    destruct (half_open p); [specialize (E6 eq_refl); lia|lia].
  - assert (c = run_circuit r) as ->.
    { unfold circuit_try_acquire in E. destruct (open_until _); [|done].
      destruct (_ <? _); [congruence|]. destruct (_ <=? _); [congruence|].
      by destruct (checked_add _ _ _). }
    destruct (circuit_inv_time _ _ _ Hinv Hle) as (Hp & Hl & Hw). by destruct Hinv.
  - by eapply circuit_settle_success.
  - by eapply circuit_settle_failure.
  - by eapply circuit_settle_drop.
  - destruct (circuit_inv_time _ _ _ Hinv Hle) as (Hp & Hl & Hw). destruct Hinv.
    split; simpl; try done. intros t Ht Hlt He. rewrite Hsame. by apply Hw; [| |apply Hrun].
  - destruct (circuit_inv_time _ _ _ Hinv Hle) as (Hp & Hl & Hw). destruct Hinv as [Hc Hb Hs _ _ Hwf _].
    apply wake_worker_fire_frame in E as (Hwf' & Hr & Hby); [|done].
    split; simpl; try done. intros t Ht Hlt He. rewrite Hby, Hr in *.
    apply map_lookup_filter_Some. split; [by apply Hw|done].
Qed.

Lemma circuit_start e c e' now :
  schedule_wf (wake_schedule e) -> circuit_new e = Ret (c, e') ->
  forall probes, circuit_inv probes {| run_now := now; run_circuit := c; run_epoch := e';
                                       run_permits := [] |}.
Proof.
  intros Hwf. unfold circuit_new, wake_slot. destruct (checked_add _ _ _); [|done]. simpl.
  intros [= <- <-] probes. split; simpl; try done; try constructor.
  unfold half_open_permits, Zlen. simpl. lia.
Qed.

Lemma circuit_reachable_inv probes now e c e' r :
  schedule_wf (wake_schedule e) -> circuit_new e = Ret (c, e') ->
  rtc (circuit_step probes)
    {| run_now := now; run_circuit := c; run_epoch := e'; run_permits := [] |} r ->
  circuit_inv probes r.
Proof.
  intros Hwf E. apply (rtc_ind_r (circuit_inv probes)); [by eapply circuit_start|].
  intros r1 r2 _ Hs Hi. by eapply circuit_step_inv.
Qed.

(** * Properties *)

(** C27. Probes are counted exactly and bounded: after any interleaving of
    acquisitions and of permits that succeed, fail or are dropped, the counter
    is the number of half-open permits not settled yet, there are never more of
    them than the policy allows, and acquiring never overflows it. *)
Theorem circuit_probes_bounded probes now e c e' r now' :
  schedule_wf (wake_schedule e) -> circuit_new e = Ret (c, e') -> 0 <= probes <= u32_max ->
  rtc (circuit_step probes)
    {| run_now := now; run_circuit := c; run_epoch := e'; run_permits := [] |} r ->
  half_open_in_flight (run_circuit r) = half_open_permits (run_permits r) /\
  half_open_permits (run_permits r) <= probes /\
  circuit_try_acquire now' probes (run_circuit r) <> Panic.
Proof.
  intros Hwf E Hp Hrun. destruct (circuit_reachable_inv _ _ _ _ _ _ Hwf E Hrun) as [Hc Hb _ _ _ _ _].
  split; [done|]. split; [lia|]. unfold circuit_try_acquire, checked_add.
  destruct (open_until _); [|done]. destruct (_ <? _); [done|].
  destruct (probes <=? _) eqn:Ep; [done|]. bool_to_prop.
  by rewrite (proj2 (Z.leb_le _ _)) by lia.
Qed.

(** An open circuit will wake its waiters: in every reachable state of a
    running process, a circuit that is open until [t] has its wake slot
    scheduled at exactly [t]. *)
Theorem circuit_open_has_wake probes now e c e' r t :
  schedule_wf (wake_schedule e) -> circuit_new e = Ret (c, e') ->
  rtc (circuit_step probes)
    {| run_now := now; run_circuit := c; run_epoch := e'; run_permits := [] |} r ->
  open_until (run_circuit r) = Some t -> run_now r < t -> running (run_epoch r) = true ->
  by_slot (wake_schedule (run_epoch r)) !! wake (run_circuit r) = Some t.
Proof.
  intros Hwf E Hrun Ho Hlt Hr.
  by apply (ci_wake _ _ (circuit_reachable_inv _ _ _ _ _ _ Hwf E Hrun)).
Qed.

(** A failure opens the circuit exactly when it is the failure of a probe
    or brings the failures of the last window, itself included, to the
    threshold; an open circuit then refuses every acquisition before its
    instant, with that instant, and is half open from it on. *)
Theorem circuit_failure_opens_exactly probes r now now' ho th w od o c e :
  circuit_inv probes r -> run_now r <= now -> now <= now' ->
  circuit_failure now ho th w od (run_circuit r) (run_epoch r) = Ret (o, c, e) ->
  (is_Some o <->
     ho = true \/
     th <= Zlen (filter (fun t => now - t < w) (failure_times (run_circuit r))) + 1) /\
  forall until, o = Some until ->
    until = now + od /\
    (now' < until -> circuit_try_acquire now' probes c = Ret (Err until, c) /\
                     state_at now' c = Open) /\
    (until <= now' -> state_at now' c = HalfOpen).
Proof.
  intros Hinv Hle Hle' E. destruct (circuit_inv_time _ _ _ Hinv Hle) as (Hp & _ & _).
  destruct Hinv as [_ _ Hs _ _ Hwf _].
  apply circuit_failure_state in E as (_ & _ & _ & _ & _ & Hst); [|done].
  rewrite (recent_failures_filter _ _ _ Hs Hp) in Hst.
  set (n := Zlen (filter _ _)) in *.
  assert (Zlen (filter (fun t => now - t < w) (failure_times (run_circuit r)) ++ [now]) = n + 1) as En
    by (unfold n, Zlen; rewrite length_app; simpl; lia).
  rewrite En in Hst. destruct Hst as [(-> & -> & Hlt & _)|(-> & Hor & _ & Ho & _)].
  - split; [|done]. split; [by intros []|]. intros [|]; [done|lia].
  - split; [split; [done|by eauto]|]. intros u [= <-]. split; [done|].
    unfold circuit_try_acquire, state_at. rewrite Ho. split; intros Hlt.
    + by rewrite (proj2 (Z.ltb_lt _ _)).
    + by rewrite (proj2 (Z.ltb_ge _ _)).
Qed.

(** Success only counts for what started after the last failure: a success
    of a request that started before it leaves the circuit as it is (but for
    the probe it gives back), any other success closes the circuit, which then
    admits everyone. *)
Theorem circuit_success_closes_unless_stale ho started c e c' e' now probes :
  schedule_wf (wake_schedule e) -> circuit_success ho started c e = Ret (c', e') ->
  ((exists t, last_failure_at c = Some t /\ started < t) ->
     c' = return_probe ho c /\ e' = e) /\
  ((forall t, last_failure_at c = Some t -> t <= started) ->
     failure_times c' = [] /\ state_at now c' = Closed /\
     circuit_try_acquire now probes c' =
       Ret (Ok {| half_open := false; permit_started_at := now |}, c')).
Proof.
  intros Hwf E. assert (last_failure_at (return_probe ho c) = last_failure_at c) as El
    by (by destruct ho). split.
  - intros (t & Ht & Hlt). unfold circuit_success in E.
    rewrite El, Ht, (proj2 (Z.ltb_lt _ _)) in E by done. by injection E as <- <-.
  - intros Hno. pose proof E as E1.
    apply circuit_success_state in E1 as (_ & _ & _ & _ & Hst); [|done].
    destruct Hst as [(_ & _ & Hl & _)|(Hf & Ho & _)].
    + unfold circuit_success in E. rewrite El in E.
      assert (match last_failure_at c with Some t => started <? t | None => false end = false) as Es.
      { destruct (last_failure_at c) as [t|]; [|done]. apply Z.ltb_ge. by apply Hno. }
      rewrite Es in E. destruct (prepare_cancellation _ _) as [n e1].
      destruct (publish n e1) as [e2|]; [|done]. simpl in E. destruct (_ || _).
      * destruct (advance e2); [|done]. by injection E as <- <-.
      * by injection E as <- <-.
    + split; [done|]. unfold state_at, circuit_try_acquire. by rewrite Ho.
Qed.

(** Asking whether a circuit is available predicts acquiring from it: the
    question answers yes exactly when an acquisition at the same instant is
    granted, and otherwise gives the instant the acquisition is refused with. *)
Theorem circuit_availability_predicts probes now c :
  half_open_in_flight c < u32_max ->
  match circuit_availability now probes c with
  | Ok _ => exists p c', circuit_try_acquire now probes c = Ret (Ok p, c')
  | Err t => circuit_try_acquire now probes c = Ret (Err t, c)
  end.
Proof.
  intros Hn. unfold circuit_availability, circuit_try_acquire, checked_add.
  destruct (open_until c) as [t|]; [|by eauto]. destruct (now <? t); [done|].
  destruct (probes <=? _); [done|]. rewrite (proj2 (Z.leb_le _ u32_max)) by lia. by eauto.
Qed.

(** * Witnesses *)

Definition sample_epoch : SchedulerEpoch := {|
  current := 0; published := 0; running := true; wake_schedule := wake_schedule_new;
  wake_generation := 0; wake_worker_started := false; next_wake_slot := 2
|}.

Definition sample_circuit : CircuitRuntime := {|
  failure_times := []; open_until := None; half_open_in_flight := 0;
  last_failure_at := None; wake := 1
|}.

Definition sample_open_epoch : SchedulerEpoch := {|
  current := 0; published := 0; running := true;
  wake_schedule := {| by_slot := {[1 := secs 25]}; by_deadline := {[secs 25 := {[1]}]} |};
  wake_generation := 1; wake_worker_started := true; next_wake_slot := 2
|}.

(** Open until 25 s after one failure at 10 s, threshold one. *)
Definition sample_open : CircuitRuntime := {|
  failure_times := []; open_until := Some (secs 25); half_open_in_flight := 0;
  last_failure_at := Some (secs 10); wake := 1
|}.

Definition sample_permit : CircuitPermit :=
  {| half_open := false; permit_started_at := secs 5 |}.

Definition sample_open_run : circuit_run :=
  {| run_now := secs 10; run_circuit := sample_open; run_epoch := sample_open_epoch;
     run_permits := [] |}.

Lemma sample_failure :
  circuit_failure (secs 10) false 1 (secs 30) (secs 15) sample_circuit sample_epoch =
  Ret (Some (secs 25), sample_open, sample_open_epoch).
Proof. vm_compute. reflexivity. Qed.

Lemma sample_open_reached :
  rtc (circuit_step 1)
    {| run_now := 0; run_circuit := sample_circuit; run_epoch := sample_epoch; run_permits := [] |}
    sample_open_run.
Proof.
  eapply rtc_l; [eapply (circuit_acquired 1 _ (secs 5)); [done|reflexivity]|]. simpl.
  eapply rtc_l; [|apply rtc_refl].
  eapply (circuit_failed 1 _ (secs 10) 1 (secs 30) (secs 15) [] sample_permit []);
    [done|done|done|apply sample_failure].
Qed.

Lemma circuit_probes_bounded_witness :
  half_open_in_flight sample_open = half_open_permits [] /\ half_open_permits [] <= 1 /\
  circuit_try_acquire (secs 30) 1 sample_open <> Panic.
Proof.
  apply (circuit_probes_bounded 1 0 (epoch_new true) sample_circuit sample_epoch sample_open_run
           (secs 30)); [apply wake_schedule_new_wf|reflexivity|done|apply sample_open_reached].
Defined.

Lemma circuit_open_has_wake_witness :
  by_slot (wake_schedule sample_open_epoch) !! 1 = Some (secs 25).
Proof.
  apply (circuit_open_has_wake 1 0 (epoch_new true) sample_circuit sample_epoch sample_open_run);
    [apply wake_schedule_new_wf|reflexivity|apply sample_open_reached|done|done|done].
Defined.

Lemma circuit_failure_opens_exactly_witness :
  circuit_try_acquire (secs 20) 1 sample_open = Ret (Err (secs 25), sample_open) /\
  state_at (secs 20) sample_open = Open.
Proof.
  apply (circuit_failure_opens_exactly 1
    {| run_now := 0; run_circuit := sample_circuit; run_epoch := sample_epoch; run_permits := [] |}
    (secs 10) (secs 20) false 1 (secs 30) (secs 15) (Some (secs 25)) sample_open sample_open_epoch);
    [|done|done|apply sample_failure|done|done].
  apply (circuit_start (epoch_new true)); [apply wake_schedule_new_wf|reflexivity].
Defined.

Lemma circuit_success_closes_unless_stale_witness :
  sample_open = return_probe false sample_open /\ sample_epoch = sample_epoch.
Proof.
  apply (circuit_success_closes_unless_stale false (secs 5) sample_open sample_epoch sample_open
           sample_epoch 0 1); [apply wake_schedule_new_wf|reflexivity|].
  by exists (secs 10).
Defined.

Lemma circuit_availability_predicts_witness :
  circuit_try_acquire (secs 20) 1 sample_open = Ret (Err (secs 25), sample_open).
Proof. apply (circuit_availability_predicts 1 (secs 20) sample_open). done. Defined.
