(* ===== verification/Upstream.v ===== *)
(** How upstream failures are classified
    ([crates/domain/src/upstream_error.rs],
    [crates/domain/src/routing/retry_safety.rs] and the failure scope of
    [crates/transport/src/error.rs]) and the errors the gateway answers with
    ([crates/domain/src/error.rs]). *)

From S2P Require Import Prelude Text.

Local Open Scope Z_scope.

Inductive RetrySafety :=
| DefinitelyNotSent
| RejectedBeforeExecution
| Idempotent
| Ambiguous.

#[export] Instance retry_safety_eq_dec : EqDecision RetrySafety.
Proof. solve_decision. Defined.

(** [RetrySafety::allows_automatic_retry] *)
Definition allows_automatic_retry (s : RetrySafety) : bool :=
  match s with
  | Ambiguous => false
  | _ => true
  end.

(** [RetrySafety::as_str] *)
Definition retry_safety_as_str (s : RetrySafety) : string :=
  match s with
  | DefinitelyNotSent => "definitely_not_sent"
  | RejectedBeforeExecution => "rejected_before_execution"
  | Idempotent => "idempotent"
  | Ambiguous => "ambiguous"
  end.

(** [RetrySafety::parse] *)
Definition retry_safety_parse (value : string) : option RetrySafety :=
  if decide (value = "definitely_not_sent") then Some DefinitelyNotSent
  else if decide (value = "rejected_before_execution") then Some RejectedBeforeExecution
  else if decide (value = "idempotent") then Some Idempotent
  else if decide (value = "ambiguous") then Some Ambiguous
  else None.

Inductive UpstreamErrorKind :=
| InvalidRequest
| Authentication
| PermissionDenied
| QuotaExhausted
| RateLimited
| ModelUnavailable
| OperationUnavailable
| Transient
| Unknown.

#[export] Instance upstream_error_kind_eq_dec : EqDecision UpstreamErrorKind.
Proof. solve_decision. Defined.

Inductive UpstreamFailureAttribution :=
| Unattributed
| AttrAuthentication
| AttrCredential
| AttrCredentialModel
| AttrRouteOperation
| AttrEgressPath
| AttrEndpoint.

#[export] Instance attribution_eq_dec : EqDecision UpstreamFailureAttribution.
Proof. solve_decision. Defined.

(** [UpstreamFailureAttribution::as_str] *)
Definition attribution_as_str (a : UpstreamFailureAttribution) : string :=
  match a with
  | Unattributed => "unattributed"
  | AttrAuthentication => "authentication"
  | AttrCredential => "credential"
  | AttrCredentialModel => "credential_model"
  | AttrRouteOperation => "route_operation"
  | AttrEgressPath => "egress_path"
  | AttrEndpoint => "endpoint"
  end.

(** [UpstreamFailureAttribution::parse] *)
Definition attribution_parse (value : string) : option UpstreamFailureAttribution :=
  if decide (value = "unattributed") then Some Unattributed
  else if decide (value = "authentication") then Some AttrAuthentication
  else if decide (value = "credential") then Some AttrCredential
  else if decide (value = "credential_model") then Some AttrCredentialModel
  else if decide (value = "route_operation") then Some AttrRouteOperation
  else if decide (value = "egress_path") then Some AttrEgressPath
  else if decide (value = "endpoint") then Some AttrEndpoint
  else None.

(** [UpstreamErrorKind::is_retry_candidate] *)
Definition is_retry_candidate (k : UpstreamErrorKind) : bool :=
  match k with
  | Authentication | PermissionDenied | QuotaExhausted | RateLimited | ModelUnavailable
  | OperationUnavailable | Transient => true
  | InvalidRequest | Unknown => false
  end.

(** [UpstreamErrorKind::default_retry_safety] *)
Definition default_retry_safety (k : UpstreamErrorKind) : RetrySafety :=
  match k with
  | Authentication | PermissionDenied | QuotaExhausted | RateLimited | ModelUnavailable
  | OperationUnavailable => RejectedBeforeExecution
  | InvalidRequest | Transient | Unknown => Ambiguous
  end.

Definition MAX_RETRY_AFTER_SECONDS : Z := 30 * 24 * 60 * 60.

(** [RetryAfterHint]; a [SystemTime] counts nanoseconds like an [Instant]. *)
Inductive RetryAfterHint :=
| Delay (delay : Duration)
| At (instant : Z).

(** [RetryAfterHint::delay_from] *)
Definition delay_from (hint : RetryAfterHint) (now : Z) : Duration :=
  let delay := match hint with
               | Delay delay => delay
               | At instant => if now <=? instant then instant - now else 0
               end in
  Z.min delay (secs MAX_RETRY_AFTER_SECONDS).

Record UpstreamErrorClassification := {
  kind : UpstreamErrorKind;
  retry_safety : RetrySafety;
  retry_after : option RetryAfterHint;
  quota_used_limit : option (Z * Z);
  attribution : UpstreamFailureAttribution
}.

(** [UpstreamErrorClassification::new] *)
Definition classification_new (kind : UpstreamErrorKind) (safety : RetrySafety)
    (retry_after : option RetryAfterHint) : UpstreamErrorClassification :=
  {| kind := kind; retry_safety := safety; retry_after := retry_after;
     quota_used_limit := None; attribution := Unattributed |}.

(** [ErrorClass]; its names that are also kinds carry a prefix. *)
Inductive ErrorClass :=
| ClassInvalidRequest
| ClassAuthentication
| ClassPermissionDenied
| ClassQuotaExhausted
| ClassRateLimited
| ClassModelUnavailable
| ClassOperationUnavailable
| ClassProxy
| ClassNetwork
| ClassUpstream
| ClassCancelled
| ClassInternal.

(** [UpstreamErrorKind::error_class] *)
Definition error_class (k : UpstreamErrorKind) : ErrorClass :=
  match k with
  | InvalidRequest => ClassInvalidRequest
  | Authentication => ClassAuthentication
  | PermissionDenied => ClassPermissionDenied
  | QuotaExhausted => ClassQuotaExhausted
  | RateLimited => ClassRateLimited
  | ModelUnavailable => ClassModelUnavailable
  | OperationUnavailable => ClassOperationUnavailable
  | Transient | Unknown => ClassUpstream
  end.

Inductive PublicErrorCode :=
| Unauthorized
| CodeInvalidRequest
| PayloadTooLarge
| PublicApiNotFound
| MethodNotAllowed
| ModelNotFound
| NoAvailableCredential
| LocalRateLimit
| SessionBindingLost
| CodeUpstreamError
| GatewayTimeout
| InternalError.

#[export] Instance public_error_code_eq_dec : EqDecision PublicErrorCode.
Proof. solve_decision. Defined.

Record PublicError := {
  code : PublicErrorCode;
  message : string;
  retry_after_seconds : option Z
}.

(** [PublicError::new] *)
Definition public_error (code : PublicErrorCode) (message : string) : PublicError :=
  {| code := code; message := message; retry_after_seconds := None |}.

Definition ANY2API_UPSTREAM_TIMEOUT_MESSAGE : string :=
  "any2api timed out waiting for an upstream response".

Inductive TransportFailureScope :=
| ScopeEndpoint
| ScopeProxy
| ScopeEgressPath
| ScopeUnattributed.

Inductive TransportErrorStage :=
| StageDns | StageTcp | StageProxyHandshake | StageTls | StageWriteRequest | StageAwaitHeaders
| StageReadBody.

(** [TransportError], as far as it is read past the transport *)
Record TransportError := {
  error_stage : TransportErrorStage;
  failure_scope_of : TransportFailureScope;
  transport_retry_safety : RetrySafety
}.

(** What the delay of the next attempt counts
    ([crates/protocol/src/api/upstream_failure.rs]) *)
Inductive ProtocolRetryDelayBasis := CandidateAttempts | RequestAttempts.

Record UpstreamError := {
  classification : UpstreamErrorClassification;
  official_message : option string
}.

(** [UpstreamError::new] *)
Definition upstream_error_new (c : UpstreamErrorClassification) (message : option string)
    : UpstreamError :=
  {| classification := c; official_message := message ≫= normalize_message |}.

(** [UpstreamError::with_retry_safety] *)
Definition with_retry_safety (safety : RetrySafety) (e : UpstreamError) : UpstreamError :=
  {| classification :=
       {| kind := kind (classification e); retry_safety := safety;
          retry_after := retry_after (classification e);
          quota_used_limit := quota_used_limit (classification e);
          attribution := attribution (classification e) |};
     official_message := official_message e |}.

Lemma attribution_roundtrip a : attribution_parse (attribution_as_str a) = Some a.
Proof. by destruct a. Qed.

Lemma retry_safety_roundtrip r : retry_safety_parse (retry_safety_as_str r) = Some r.
Proof. by destruct r. Qed.

Lemma retry_safety_parse_inv s r : retry_safety_parse s = Some r -> s = retry_safety_as_str r.
Proof. unfold retry_safety_parse. repeat case_decide; by intros [= <-]. Qed.

Lemma attribution_parse_inv s a : attribution_parse s = Some a -> s = attribution_as_str a.
Proof. unfold attribution_parse. repeat case_decide; by intros [= <-]. Qed.

(** Nothing that is safe to repeat by default is left out of the retries. *)
Lemma default_safe_is_candidate k :
  allows_automatic_retry (default_retry_safety k) = true -> is_retry_candidate k = true.
Proof. by destruct k. Qed.
