(* ===== verification/Health.v ===== *)
(** Health of endpoints, proxies, paths and credentials, and how the outcome
    of an attempt is settled on them
    ([crates/runtime/src/health/runtime/], its [endpoint], [proxy], [time],
    [error], [credential] and [attempt] modules).

    Every operation takes the clock and threads the scheduler epoch it notifies.
    The runtimes that an attempt holds permits of are shared objects: they live
    in a store, and a permit names its runtime by reference. *)

From S2P Require Import Prelude Epoch Circuit Upstream.

Local Open Scope Z_scope.

(** * Errors and deadlines *)

Inductive TemporaryUnavailabilityCause := Outage | RateLimitCooldown.

Record TemporaryUnavailability := {
  unavailable_until : Instant;
  cause : TemporaryUnavailabilityCause
}.

Inductive HealthAcquireError :=
| Temporary (u : TemporaryUnavailability)
| Permanent.

Definition outage (until : Instant) : TemporaryUnavailability :=
  {| unavailable_until := until; cause := Outage |}.
Definition rate_limit_cooldown (until : Instant) : TemporaryUnavailability :=
  {| unavailable_until := until; cause := RateLimitCooldown |}.

Definition MAX_HEALTH_DELAY : Duration := secs MAX_RETRY_AFTER_SECONDS.

(** [retry_delay]; [system_now] is the wall clock *)
Definition retry_delay (system_now : Z) (hint : option RetryAfterHint) (fallback : Duration)
    : Duration :=
  Z.min (match hint with Some h => delay_from h system_now | None => fallback end)
        MAX_HEALTH_DELAY.

(** [deadline] *)
Definition deadline (now : Instant) (delay : Duration) : outcome Instant :=
  expect (instant_checked_add now (Z.min delay MAX_HEALTH_DELAY)).

(** [max_deadline] *)
Definition max_deadline (current next : option Instant) : option Instant := opt_max current next.

(** * Endpoints *)

Record EndpointHealthRuntime := {
  endpoint_circuit : CircuitRuntime;
  transient_until : option Instant;
  transient_wake : Z
}.

(** [EndpointHealthRuntime::new] *)
Definition endpoint_new (e : SchedulerEpoch) : outcome (EndpointHealthRuntime * SchedulerEpoch) :=
  '(slot, e) ← wake_slot e;
  '(c, e) ← circuit_new e;
  Ret ({| endpoint_circuit := c; transient_until := None; transient_wake := slot |}, e).

Definition with_circuit (c : CircuitRuntime) (h : EndpointHealthRuntime) : EndpointHealthRuntime :=
  {| endpoint_circuit := c; transient_until := transient_until h;
     transient_wake := transient_wake h |}.

(** [EndpointHealthRuntime::check_transient] *)
Definition check_transient (now : Instant) (h : EndpointHealthRuntime)
    : result unit HealthAcquireError :=
  match transient_until h with
  | Some until => if now <? until then Err (Temporary (outage until)) else Ok tt
  | None => Ok tt
  end.

(** [EndpointHealthRuntime::try_acquire]; its circuit reads the clock again *)
Definition endpoint_try_acquire (now circuit_now : Instant) (policy : ReliabilityPolicy)
    (h : EndpointHealthRuntime)
    : outcome (result CircuitPermit HealthAcquireError * EndpointHealthRuntime) :=
  match check_transient now h with
  | Err e => Ret (Err e, h)
  | Ok _ =>
      '(r, c) ← circuit_try_acquire circuit_now (half_open_max_probes policy) (endpoint_circuit h);
      Ret (map_err (fun until => Temporary (outage until)) r, with_circuit c h)
  end.

(** [EndpointHealthRuntime::availability] *)
Definition endpoint_availability (now circuit_now : Instant) (policy : ReliabilityPolicy)
    (h : EndpointHealthRuntime) : result unit HealthAcquireError :=
  match check_transient now h with
  | Err e => Err e
  | Ok _ => map_err (fun until => Temporary (outage until))
              (circuit_availability circuit_now (half_open_max_probes policy) (endpoint_circuit h))
  end.

(** [EndpointHealthRuntime::transient], of a permit that failed; the two
    readings of the clock it makes are taken as one *)
Definition endpoint_transient (now : Instant) (policy : ReliabilityPolicy)
    (permit : CircuitPermit) (h : EndpointHealthRuntime) (e : SchedulerEpoch)
    : outcome (EndpointHealthRuntime * SchedulerEpoch) :=
  until ← deadline now (transient_endpoint policy);
  let current := max_deadline (transient_until h) (Some until) in
  at_ ← expect current;
  let '(n, e) := prepare_schedule (transient_wake h) at_ e in
  e ← publish n e;
  '(_, c, e) ← permit_failure now (endpoint_failure_threshold policy)
      (endpoint_failure_window policy) (endpoint_open_duration policy)
      permit (endpoint_circuit h) e;
  Ret ({| endpoint_circuit := c; transient_until := current;
          transient_wake := transient_wake h |}, e).

(** [EndpointHealthRuntime::success], of a permit that succeeded *)
Definition endpoint_success (started_at : Instant) (permit : CircuitPermit)
    (h : EndpointHealthRuntime) (e : SchedulerEpoch)
    : outcome (EndpointHealthRuntime * SchedulerEpoch) :=
  '(c, e) ← permit_success permit (endpoint_circuit h) e;
  let h := with_circuit c h in
  match transient_until h with
  | Some until =>
      if until <=? started_at then
        let '(n, e) := prepare_cancellation (transient_wake h) e in
        e ← publish n e;
        Ret ({| endpoint_circuit := c; transient_until := None;
                transient_wake := transient_wake h |}, e)
      else Ret (h, e)
  | None => Ret (h, e)
  end.

(** [EndpointPermit::neutral] and dropping the permit *)
Definition endpoint_neutral (permit : CircuitPermit) (h : EndpointHealthRuntime)
    (e : SchedulerEpoch) : outcome (EndpointHealthRuntime * SchedulerEpoch) :=
  '(c, e) ← permit_drop permit (endpoint_circuit h) e;
  Ret (with_circuit c h, e).

(** * Proxies *)

(** [ProxyHealthRuntime] is a circuit. *)
Definition proxy_try_acquire (now : Instant) (policy : ReliabilityPolicy) (c : CircuitRuntime)
    : outcome (result CircuitPermit HealthAcquireError * CircuitRuntime) :=
  '(r, c) ← circuit_try_acquire now (half_open_max_probes policy) c;
  Ret (map_err (fun until => Temporary (outage until)) r, c).

(** [ProxyHealthRuntime::availability] *)
Definition proxy_availability (now : Instant) (policy : ReliabilityPolicy) (c : CircuitRuntime)
    : result unit HealthAcquireError :=
  map_err (fun until => Temporary (outage until))
    (circuit_availability now (half_open_max_probes policy) c).

(** [ProxyPermit::failure] *)
Definition proxy_failure (now : Instant) (policy : ReliabilityPolicy) (permit : CircuitPermit)
    (c : CircuitRuntime) (e : SchedulerEpoch) : outcome (CircuitRuntime * SchedulerEpoch) :=
  '(_, c, e) ← permit_failure now (proxy_failure_threshold policy) (proxy_failure_window policy)
      (proxy_open_duration policy) permit c e;
  Ret (c, e).

(** * Credentials *)

Record ModelCooldown := {
  cooldown_until : Instant;
  cooldown_cause : TemporaryUnavailabilityCause;
  cooldown_wake : Z
}.

Record CredentialQuotaExhaustion := {
  observed_at : Z;
  used : option Z;
  limit : option Z;
  quota_retry_at : Instant
}.

(** [RoutingCredentialHealthRuntime] with its state *)
Record RoutingCredentialHealth := {
  credential_cooldown_until : option Instant;
  model_cooldowns : gmap string ModelCooldown;
  quota_exhaustion : option CredentialQuotaExhaustion;
  credential_cooldown_wake : Z;
  quota_exhaustion_wake : Z
}.

(** [CredentialHealthRuntime] *)
Record CredentialHealth := {
  auth_error : bool;
  routing : RoutingCredentialHealth
}.

(** [RoutingCredentialHealthRuntime::new] *)
Definition routing_new (e : SchedulerEpoch) : outcome (RoutingCredentialHealth * SchedulerEpoch) :=
  '(s1, e) ← wake_slot e;
  '(s2, e) ← wake_slot e;
  Ret ({| credential_cooldown_until := None; model_cooldowns := ∅; quota_exhaustion := None;
          credential_cooldown_wake := s1; quota_exhaustion_wake := s2 |}, e).

(** [CredentialHealthRuntime::new] *)
Definition credential_health_new (e : SchedulerEpoch)
    : outcome (CredentialHealth * SchedulerEpoch) :=
  '(r, e) ← routing_new e; Ret ({| auth_error := false; routing := r |}, e).

(** [CredentialHealthRuntime::with_fresh_authentication]; the routing half is
    shared with the old one. *)
Definition with_fresh_authentication (h : CredentialHealth) : CredentialHealth :=
  {| auth_error := false; routing := routing h |}.

(** Dropping cooldowns cancels their wake slots. *)
Fixpoint drop_cooldowns (l : list (string * ModelCooldown)) (e : SchedulerEpoch)
    : outcome SchedulerEpoch :=
  match l with
  | [] => Ret e
  | (_, m) :: l => e ← slot_cancel (cooldown_wake m) e; drop_cooldowns l e
  end.

(** [prune_expired_model_cooldowns]: the cooldowns left, and those to drop *)
Definition prune_expired_model_cooldowns (now : Instant) (m : gmap string ModelCooldown)
    : gmap string ModelCooldown * list (string * ModelCooldown) :=
  (filter (fun kv => now < cooldown_until kv.2) m,
   map_to_list (filter (fun kv => cooldown_until kv.2 <= now) m)).

Definition with_models (m : gmap string ModelCooldown) (h : RoutingCredentialHealth)
    : RoutingCredentialHealth :=
  {| credential_cooldown_until := credential_cooldown_until h; model_cooldowns := m;
     quota_exhaustion := quota_exhaustion h;
     credential_cooldown_wake := credential_cooldown_wake h;
     quota_exhaustion_wake := quota_exhaustion_wake h |}.

(** [Iterator::max_by_key] over the blocks: the last of the latest. *)
Definition later_block (a b : option TemporaryUnavailability) : option TemporaryUnavailability :=
  match a, b with
  | Some x, Some y => if unavailable_until x <=? unavailable_until y then Some y else Some x
  | Some x, None => Some x
  | None, o => o
  end.

(** The block of a model, if any. *)
Definition blocked (model : string) (h : RoutingCredentialHealth) : option TemporaryUnavailability :=
  later_block
    (later_block (outage <$> credential_cooldown_until h)
       ((fun m => {| unavailable_until := cooldown_until m; cause := cooldown_cause m |})
          <$> model_cooldowns h !! model))
    ((fun q => rate_limit_cooldown (quota_retry_at q)) <$> quota_exhaustion h).

(** [RoutingCredentialHealthRuntime::availability] *)
Definition routing_availability (now : Instant) (model : string) (h : RoutingCredentialHealth)
    (e : SchedulerEpoch)
    : outcome (result unit HealthAcquireError * RoutingCredentialHealth * SchedulerEpoch) :=
  let '(m, expired) := prune_expired_model_cooldowns now (model_cooldowns h) in
  let h := with_models m h in
  let r := match blocked model h with
           | Some u => if now <? unavailable_until u then Err (Temporary u) else Ok tt
           | None => Ok tt
           end in
  e ← drop_cooldowns expired e;
  Ret (r, h, e).

(** [CredentialHealthRuntime::availability] *)
Definition credential_availability (now : Instant) (model : string) (h : CredentialHealth)
    (e : SchedulerEpoch)
    : outcome (result unit HealthAcquireError * CredentialHealth * SchedulerEpoch) :=
  if auth_error h then Ret (Err Permanent, h, e)
  else
    '(r, rt, e) ← routing_availability now model (routing h) e;
    Ret (r, {| auth_error := auth_error h; routing := rt |}, e).

(** [RoutingCredentialHealthRuntime::clear_temporary_cooldowns] *)
Definition clear_temporary_cooldowns (h : RoutingCredentialHealth) (e : SchedulerEpoch)
    : outcome (bool * RoutingCredentialHealth * SchedulerEpoch) :=
  let changed := bool_decide (is_Some (credential_cooldown_until h)) ||
                 negb (bool_decide (model_cooldowns h = ∅)) ||
                 bool_decide (is_Some (quota_exhaustion h)) in
  let '(n1, e) := prepare_cancellation (credential_cooldown_wake h) e in
  let '(n2, e) := prepare_cancellation (quota_exhaustion_wake h) e in
  e ← publish n1 e;
  e ← publish n2 e;
  e ← drop_cooldowns (map_to_list (model_cooldowns h)) e;
  e ← (if changed then advance e else Ret e);
  Ret (changed,
       {| credential_cooldown_until := None; model_cooldowns := ∅; quota_exhaustion := None;
          credential_cooldown_wake := credential_cooldown_wake h;
          quota_exhaustion_wake := quota_exhaustion_wake h |}, e).

Definition with_quota (q : option CredentialQuotaExhaustion) (h : RoutingCredentialHealth)
    : RoutingCredentialHealth :=
  {| credential_cooldown_until := credential_cooldown_until h;
     model_cooldowns := model_cooldowns h; quota_exhaustion := q;
     credential_cooldown_wake := credential_cooldown_wake h;
     quota_exhaustion_wake := quota_exhaustion_wake h |}.

(** [RoutingCredentialHealthRuntime::clear_quota_exhaustion], which is also
    what a success records *)
Definition clear_quota_exhaustion (h : RoutingCredentialHealth) (e : SchedulerEpoch)
    : outcome (bool * RoutingCredentialHealth * SchedulerEpoch) :=
  match quota_exhaustion h with
  | None => Ret (false, h, e)
  | Some _ =>
      let '(n, e) := prepare_cancellation (quota_exhaustion_wake h) e in
      e ← publish n e;
      e ← advance e;
      Ret (true, with_quota None h, e)
  end.

(** [RoutingCredentialHealthRuntime::record_quota_exhaustion] *)
Definition record_quota_exhaustion (now : Instant) (unix_now : Z) (delay : Duration)
    (used limit : option Z) (h : RoutingCredentialHealth) (e : SchedulerEpoch)
    : outcome (RoutingCredentialHealth * SchedulerEpoch) :=
  retry_at ← deadline now delay;
  let q := {| observed_at := unix_now; used := used; limit := limit;
              quota_retry_at := retry_at |} in
  let '(n, e) := prepare_schedule (quota_exhaustion_wake h) retry_at e in
  e ← publish n e;
  e ← advance e;
  Ret (with_quota (Some q) h, e).

(** [record_model_cooldown] *)
Definition record_model_cooldown (model : string) (until : Instant)
    (cause : TemporaryUnavailabilityCause) (h : RoutingCredentialHealth) (e : SchedulerEpoch)
    : outcome (PendingSchedulerWakeNotification * RoutingCredentialHealth * SchedulerEpoch) :=
  '(entry, e) ← match model_cooldowns h !! model with
                | Some m => Ret (m, e)
                | None =>
                    '(slot, e) ← wake_slot e;
                    Ret ({| cooldown_until := until; cooldown_cause := cause;
                            cooldown_wake := slot |}, e)
                end;
  let entry := if cooldown_until entry <=? until
               then {| cooldown_until := until; cooldown_cause := cause;
                       cooldown_wake := cooldown_wake entry |}
               else entry in
  let '(n, e) := prepare_schedule (cooldown_wake entry) (cooldown_until entry) e in
  Ret (n, with_models (<[model := entry]> (model_cooldowns h)) h, e).

(** [RoutingCredentialHealthRuntime::record] once expired cooldowns are pruned *)
Definition record_kind (now : Instant) (system_now unix_now : Z) (model : string)
    (c : UpstreamErrorClassification) (policy : ReliabilityPolicy)
    (h : RoutingCredentialHealth) (e : SchedulerEpoch)
    : outcome (RoutingCredentialHealth * SchedulerEpoch) :=
  match kind c with
  | QuotaExhausted =>
      record_quota_exhaustion now unix_now
        (retry_delay system_now (retry_after c) (permission_denied policy))
        (fst <$> quota_used_limit c) (snd <$> quota_used_limit c) h e
  | PermissionDenied =>
      until ← deadline now (permission_denied policy);
      let current := max_deadline (credential_cooldown_until h) (Some until) in
      at_ ← expect current;
      let '(n, e) := prepare_schedule (credential_cooldown_wake h) at_ e in
      e ← publish n e;
      Ret ({| credential_cooldown_until := current; model_cooldowns := model_cooldowns h;
              quota_exhaustion := quota_exhaustion h;
              credential_cooldown_wake := credential_cooldown_wake h;
              quota_exhaustion_wake := quota_exhaustion_wake h |}, e)
  | RateLimited =>
      until ← deadline now (retry_delay system_now (retry_after c) (rate_limit_fallback policy));
      '(n, h, e) ← record_model_cooldown model until RateLimitCooldown h e;
      e ← publish n e;
      Ret (h, e)
  | ModelUnavailable =>
      until ← deadline now (model_unsupported policy);
      '(n, h, e) ← record_model_cooldown model until Outage h e;
      e ← publish n e;
      Ret (h, e)
  | _ => Ret (h, e)
  end.

(** [RoutingCredentialHealthRuntime::record] *)
Definition routing_record (now : Instant) (system_now unix_now : Z) (model : string)
    (c : UpstreamErrorClassification) (policy : ReliabilityPolicy)
    (h : RoutingCredentialHealth) (e : SchedulerEpoch)
    : outcome (RoutingCredentialHealth * SchedulerEpoch) :=
  let '(m, expired) := prune_expired_model_cooldowns now (model_cooldowns h) in
  let h := with_models m h in
  e ← drop_cooldowns expired e;
  record_kind now system_now unix_now model c policy h e.

(** [AuthenticationHealthRuntime::update] *)
Definition update_auth_error (value : bool) (h : CredentialHealth) (e : SchedulerEpoch)
    : outcome (bool * CredentialHealth * SchedulerEpoch) :=
  if bool_decide (auth_error h = value) then Ret (false, h, e)
  else e ← advance e; Ret (true, {| auth_error := value; routing := routing h |}, e).

(** [CredentialHealthRuntime::record] *)
Definition credential_record (now : Instant) (system_now unix_now : Z) (model : string)
    (c : UpstreamErrorClassification) (policy : ReliabilityPolicy)
    (h : CredentialHealth) (e : SchedulerEpoch)
    : outcome (CredentialHealth * SchedulerEpoch) :=
  match attribution c with
  | AttrAuthentication =>
      if decide (kind c = Authentication)
      then '(_, h, e) ← update_auth_error true h e; Ret (h, e)
      else Ret (h, e)
  | AttrCredential | AttrCredentialModel =>
      '(rt, e) ← routing_record now system_now unix_now model c policy (routing h) e;
      Ret ({| auth_error := auth_error h; routing := rt |}, e)
  | Unattributed | AttrRouteOperation | AttrEgressPath | AttrEndpoint => Ret (h, e)
  end.

(** [CredentialHealthRuntime::record_success] *)
Definition record_success (h : CredentialHealth) (e : SchedulerEpoch)
    : outcome (CredentialHealth * SchedulerEpoch) :=
  '(_, rt, e) ← clear_quota_exhaustion (routing h) e;
  Ret ({| auth_error := auth_error h; routing := rt |}, e).

(** * What blocks a model of a credential *)

Definition cooldown_blocks (t : Instant) (h : RoutingCredentialHealth) : bool :=
  match credential_cooldown_until h with Some u => t <? u | None => false end.
Definition model_blocks (t : Instant) (model : string) (h : RoutingCredentialHealth) : bool :=
  match model_cooldowns h !! model with Some m => t <? cooldown_until m | None => false end.
Definition quota_blocks (t : Instant) (h : RoutingCredentialHealth) : bool :=
  match quota_exhaustion h with Some q => t <? quota_retry_at q | None => false end.

Definition is_blocked (t : Instant) (model : string) (h : RoutingCredentialHealth) : bool :=
  cooldown_blocks t h || model_blocks t model h || quota_blocks t h.

(** The instant the last block of the model ends. *)
Definition blocked_until (model : string) (h : RoutingCredentialHealth) : option Instant :=
  opt_max (opt_max (credential_cooldown_until h) (cooldown_until <$> model_cooldowns h !! model))
          (quota_retry_at <$> quota_exhaustion h).

Lemma blocked_is_latest model h : unavailable_until <$> blocked model h = blocked_until model h.
Proof.
  unfold blocked, blocked_until, later_block, opt_max.
  destruct (credential_cooldown_until h), (model_cooldowns h !! model), (quota_exhaustion h);
    simpl; repeat case_match; simplify_eq/=; bool_to_prop; try done; f_equal; lia.
Qed.

Lemma blocked_until_blocks t model h :
  is_blocked t model h = match blocked_until model h with Some u => t <? u | None => false end.
Proof.
  unfold is_blocked, cooldown_blocks, model_blocks, quota_blocks, blocked_until, opt_max.
  assert (forall x y, (t <? x) || (t <? y) = (t <? Z.max x y)) as Hmax.
  { intros x y. apply eq_bool_prop_intro. rewrite orb_True. rewrite !Is_true_true, !Z.ltb_lt. lia. }
  destruct (credential_cooldown_until h), (model_cooldowns h !! model), (quota_exhaustion h);
    simpl; rewrite ?orb_false_r, ?Hmax; done.
Qed.

(** Pruning at [now] does not change what blocks from [now] on. *)
Lemma prune_blocks now t model h :
  now <= t ->
  let h' := with_models (prune_expired_model_cooldowns now (model_cooldowns h)).1 h in
  cooldown_blocks t h' = cooldown_blocks t h /\ model_blocks t model h' = model_blocks t model h /\
  quota_blocks t h' = quota_blocks t h.
Proof.
  intros Hle. split; [done|]. split; [|done]. unfold model_blocks, prune_expired_model_cooldowns.
  simpl. destruct (model_cooldowns h !! model) as [m|] eqn:E.
  - destruct (decide (now < cooldown_until m)) as [Hlt|Hge].
    + by rewrite (map_lookup_filter_Some_2 _ _ model m).
    + rewrite map_lookup_filter_None_2.
      * symmetry. apply Z.ltb_ge. lia.
      * right. intros x Hx. by simplify_eq.
  - by rewrite map_lookup_filter_None_2 by (by left).
Qed.

Lemma drop_cooldowns_total l n e :
  0 <= n -> headroom (n + Zlen l) e -> exists e', drop_cooldowns l e = Ret e' /\ headroom n e'.
Proof.
  revert e. induction l as [|[k m] l IH]; intros e Hn He; cbn [drop_cooldowns].
  - exists e. split; [done|]. eapply headroom_weaken; [done|unfold Zlen; simpl; lia].
  - destruct (slot_cancel_total (n + Zlen l) (cooldown_wake m) e) as (e1 & -> & He1).
    + unfold Zlen; lia.
    + eapply headroom_weaken; [done|]. unfold Zlen. simpl length. lia.
    + simpl. by apply IH.
Qed.

(** Room for every notification that recording one outcome can send. *)
Definition routing_room (n : Z) (h : RoutingCredentialHealth) (e : SchedulerEpoch) : Prop :=
  headroom (n + Z.of_nat (size (model_cooldowns h))) e.

Lemma prune_total now n h e :
  0 <= n -> routing_room n h e ->
  exists e', drop_cooldowns (prune_expired_model_cooldowns now (model_cooldowns h)).2 e = Ret e' /\
    headroom n e'.
Proof.
  intros Hn He. apply drop_cooldowns_total; [done|]. eapply headroom_weaken; [done|].
  unfold prune_expired_model_cooldowns, Zlen. cbn [snd]. rewrite length_map_to_list.
  apply Z.add_le_mono_l, inj_le, map_subseteq_size, map_filter_subseteq.
Qed.

Lemma deadline_total now delay :
  now + MAX_HEALTH_DELAY <= instant_max ->
  deadline now delay = Ret (now + Z.min delay MAX_HEALTH_DELAY).
Proof.
  intros Hn. unfold deadline, instant_checked_add, checked_add.
  by rewrite (proj2 (Z.leb_le _ _)) by lia.
Qed.

Lemma ltb_max t a b : (t <? Z.max a b) = (t <? a) || (t <? b).
Proof. apply eq_bool_prop_intro. rewrite orb_True, !Is_true_true, !Z.ltb_lt. lia. Qed.

(** Recording a cooldown of a model blocks that model until then, as well as
    before, and no other model. *)
Lemma record_model_cooldown_spec n model until c h e :
  0 <= n -> headroom (n + 1) e ->
  exists p h' e', record_model_cooldown model until c h e = Ret (p, h', e') /\ headroom n e' /\
    (forall t, cooldown_blocks t h' = cooldown_blocks t h /\ quota_blocks t h' = quota_blocks t h) /\
    (forall t model', model_blocks t model' h' =
       model_blocks t model' h || (bool_decide (model' = model) && (t <? until))).
Proof.
  intros Hn He. unfold record_model_cooldown.
  set (entry0 := match model_cooldowns h !! model with Some m => Ret (m, e) | None => _ end).
  assert (exists m e1, entry0 = Ret (m, e1) /\ headroom n e1 /\ forall t,
    (t <? until) || (t <? cooldown_until m) = model_blocks t model h || (t <? until))
    as (m & e1 & -> & He1 & Hm).
  { subst entry0. unfold model_blocks. destruct (model_cooldowns h !! model) as [m|].
    - do 2 eexists. split; [done|]. split; [by eapply headroom_weaken; [exact He|lia]|].
      intros t. apply orb_comm.
    - destruct (wake_slot_total n e Hn He) as (s & e1 & -> & He1 & _). simpl.
      do 2 eexists. split; [done|]. split; [done|]. intros t. simpl. by rewrite orb_diag. }
  simpl. set (entry := if cooldown_until m <=? until then _ else _).
  pose proof (prepare_schedule_room n (cooldown_wake entry) (cooldown_until entry) e1 He1) as Hp.
  destruct (prepare_schedule _ _ e1) as [p e2]. do 3 eexists. split; [done|]. split; [done|].
  split; [done|]. intros t model'. unfold model_blocks at 1. simpl. rewrite lookup_insert.
  case_decide as Hd.
  - subst model'. rewrite bool_decide_eq_true_2 by done. rewrite andb_true_l, <- Hm, <- ltb_max.
    f_equal. subst entry. destruct (_ <=? _) eqn:E; bool_to_prop; simpl; lia.
  - rewrite bool_decide_eq_false_2 by done. by rewrite orb_false_r.
Qed.

(** What an outcome recorded at [now] adds to the blocks of a credential. *)
Definition adds_cooldown (now : Instant) (c : UpstreamErrorClassification)
    (policy : ReliabilityPolicy) : option Instant :=
  match kind c with
  | PermissionDenied => Some (now + Z.min (permission_denied policy) MAX_HEALTH_DELAY)
  | _ => None
  end.
Definition adds_model (now : Instant) (system_now : Z) (c : UpstreamErrorClassification)
    (policy : ReliabilityPolicy) : option Instant :=
  match kind c with
  | RateLimited =>
      Some (now + Z.min (retry_delay system_now (retry_after c) (rate_limit_fallback policy))
                        MAX_HEALTH_DELAY)
  | ModelUnavailable => Some (now + Z.min (model_unsupported policy) MAX_HEALTH_DELAY)
  | _ => None
  end.
Definition sets_quota (now : Instant) (system_now : Z) (c : UpstreamErrorClassification)
    (policy : ReliabilityPolicy) : option Instant :=
  match kind c with
  | QuotaExhausted =>
      Some (now + Z.min (retry_delay system_now (retry_after c) (permission_denied policy))
                        MAX_HEALTH_DELAY)
  | _ => None
  end.

Definition before (t : Instant) (o : option Instant) : bool :=
  match o with Some u => t <? u | None => false end.

Lemma before_max t o u : before t (opt_max o (Some u)) = before t o || (t <? u).
Proof. destruct o; simpl; [apply ltb_max|done]. Qed.

(** The blocks of [h'] are those of [h] and what the outcome adds. *)
Definition records (now system_now : Z) (model : string) (c : UpstreamErrorClassification)
    (policy : ReliabilityPolicy) (h h' : RoutingCredentialHealth) : Prop :=
  forall t model', now <= t ->
    cooldown_blocks t h' = cooldown_blocks t h || before t (adds_cooldown now c policy) /\
    model_blocks t model' h' = model_blocks t model' h ||
      (bool_decide (model' = model) && before t (adds_model now system_now c policy)) /\
    quota_blocks t h' = match sets_quota now system_now c policy with
                        | Some u => t <? u
                        | None => quota_blocks t h
                        end.

Lemma records_model_cooldown n now system_now model c policy until cz h e :
  0 <= n -> headroom (n + 2) e ->
  adds_cooldown now c policy = None -> adds_model now system_now c policy = Some until ->
  sets_quota now system_now c policy = None ->
  exists h' e', ('(p, h1, e1) ← record_model_cooldown model until cz h e;
                 e2 ← publish p e1; Ret (h1, e2)) = Ret (h', e') /\
    headroom n e' /\ records now system_now model c policy h h'.
Proof.
  intros Hn He E1 E2 E3.
  destruct (record_model_cooldown_spec (n + 1) model until cz h e) as (p & h' & e1 & -> & He1 & Hc & Hm);
    [lia|by replace (n + 1 + 1) with (n + 2) by lia|].
  simpl. destruct (publish_total n p e1) as (e2 & -> & He2); [done|done|].
  do 2 eexists. split; [done|]. split; [done|]. intros t model' _. rewrite E1, E2, E3.
  destruct (Hc t) as [-> ->]. rewrite Hm. simpl. by rewrite orb_false_r.
Qed.

Lemma record_kind_spec n now system_now unix_now model c policy h e :
  0 <= n -> headroom (n + 2) e -> now + MAX_HEALTH_DELAY <= instant_max ->
  exists h' e', record_kind now system_now unix_now model c policy h e = Ret (h', e') /\
    headroom n e' /\ records now system_now model c policy h h'.
Proof.
  intros Hn He Hnow. unfold record_kind.
  assert (adds_cooldown now c policy = None -> adds_model now system_now c policy = None ->
    sets_quota now system_now c policy = None -> headroom n e /\ records now system_now model c policy h h)
    as Hsame.
  { intros E1 E2 E3. split; [eapply headroom_weaken; [done|lia]|]. intros t model' _.
    rewrite E1, E2, E3. simpl. by rewrite andb_false_r, !orb_false_r. }
  destruct (kind c) eqn:Ek;
    try (do 2 eexists; split; [done|]; apply Hsame;
         unfold adds_cooldown, adds_model, sets_quota; by rewrite Ek).
  - (* permission denied *)
    rewrite deadline_total by done. cbn [mbind outcome_bind].
    set (until := now + _). unfold max_deadline.
    assert (exists u, opt_max (credential_cooldown_until h) (Some until) = Some u) as [u Eu]
      by (destruct (credential_cooldown_until h); simpl; eauto).
    rewrite Eu. cbn [expect mbind outcome_bind].
    pose proof (prepare_schedule_room _ (credential_cooldown_wake h) u _ He) as Hp.
    destruct (prepare_schedule _ u e) as [p e1]. simpl in Hp.
    destruct (publish_total (n + 1) p e1) as (e2 & -> & He2); [lia|by replace (n + 1 + 1) with (n + 2) by lia|].
    do 2 eexists. split; [done|]. split; [eapply headroom_weaken; [done|lia]|].
    intros t model' _. unfold adds_cooldown, adds_model, sets_quota. rewrite Ek.
    unfold cooldown_blocks, model_blocks. cbn [credential_cooldown_until model_cooldowns].
    split; [|split; [by rewrite andb_false_r, orb_false_r|done]].
    pose proof (before_max t (credential_cooldown_until h) until) as Hb. rewrite Eu in Hb. exact Hb.
  - (* quota *)
    unfold record_quota_exhaustion. rewrite deadline_total by done. cbn [mbind outcome_bind].
    set (until := now + _).
    pose proof (prepare_schedule_room _ (quota_exhaustion_wake h) until _ He) as Hp.
    destruct (prepare_schedule _ until e) as [p e1]. simpl in Hp.
    destruct (publish_total (n + 1) p e1) as (e2 & -> & He2); [lia|by replace (n + 1 + 1) with (n + 2) by lia|].
    simpl. destruct (advance_total n e2) as (e3 & -> & He3); [done|done|].
    do 2 eexists. split; [done|]. split; [done|].
    intros t model' _. unfold adds_cooldown, adds_model, sets_quota. rewrite Ek. simpl.
    by rewrite andb_false_r, !orb_false_r.
  - rewrite deadline_total by done. cbn [mbind outcome_bind].
    apply records_model_cooldown; try done; unfold adds_cooldown, adds_model, sets_quota; by rewrite Ek.
  - rewrite deadline_total by done. cbn [mbind outcome_bind].
    apply records_model_cooldown; try done; unfold adds_cooldown, adds_model, sets_quota; by rewrite Ek.
Qed.

Lemma routing_record_spec n now system_now unix_now model c policy h e :
  0 <= n -> routing_room (n + 2) h e -> now + MAX_HEALTH_DELAY <= instant_max ->
  exists h' e', routing_record now system_now unix_now model c policy h e = Ret (h', e') /\
    headroom n e' /\ records now system_now model c policy h h'.
Proof.
  intros Hn He Hnow. unfold routing_record.
  destruct (prune_total now (n + 2) h e) as (e1 & E1 & He1); [lia|done|].
  pose proof (fun t m => prune_blocks now t m h) as Hpr.
  destruct (prune_expired_model_cooldowns now (model_cooldowns h)) as [m expired]. simpl in E1, Hpr.
  rewrite E1. cbn [mbind outcome_bind].
  destruct (record_kind_spec n now system_now unix_now model c policy (with_models m h) e1)
    as (h' & e' & E & He' & Hrec); [done|done|done|].
  exists h', e'. split; [exact E|]. split; [done|]. intros t model' Ht.
  destruct (Hrec t model' Ht) as (-> & -> & ->). destruct (Hpr t model' Ht) as (-> & -> & ->). done.
Qed.

(** * Recording keeps the schedule consistent *)

(** Opens the binds of an operation that returned. *)
Ltac open_binds :=
  repeat match goal with
  | H : (match ?p with (_, _) => _ end) = _ |- _ => destruct p eqn:?
  | H : @mbind outcome outcome_bind _ _ _ ?m = Ret _ |- _ =>
      destruct m eqn:?; cbn [mbind outcome_bind] in H; [|discriminate H]
  | H : Ret _ = Ret _ |- _ => injection H as H; subst
  end.

Lemma drop_cooldowns_wf l e e' : drop_cooldowns l e = Ret e' -> epoch_wf e -> epoch_wf e'.
Proof.
  revert e. induction l as [|[k m] l IH]; intros e; cbn [drop_cooldowns]; [by intros [= <-]|].
  intros E Hwf. open_binds. eauto with any2api.
Qed.

Lemma record_model_cooldown_wf model u cz h e p h' e' :
  record_model_cooldown model u cz h e = Ret (p, h', e') -> epoch_wf e -> epoch_wf e'.
Proof.
  unfold record_model_cooldown. intros E Hwf. destruct (model_cooldowns h !! model) eqn:Em.
  - cbn [mbind outcome_bind] in E. open_binds. eauto with any2api.
  - open_binds. simplify_eq/=. open_binds. eauto with any2api.
Qed.

#[export] Hint Resolve drop_cooldowns_wf record_model_cooldown_wf : any2api.

Lemma record_kind_wf now system_now unix_now model c policy h e h' e' :
  record_kind now system_now unix_now model c policy h e = Ret (h', e') ->
  epoch_wf e -> epoch_wf e'.
Proof.
  unfold record_kind, record_quota_exhaustion. intros E Hwf.
  destruct (kind c); open_binds; eauto with any2api.
Qed.

Lemma credential_record_wf now system_now unix_now model c policy h e h' e' :
  credential_record now system_now unix_now model c policy h e = Ret (h', e') ->
  epoch_wf e -> epoch_wf e'.
Proof.
  unfold credential_record, update_auth_error, routing_record. intros E Hwf.
  destruct (attribution c); try case_decide; try case_bool_decide; open_binds;
    eauto using record_kind_wf with any2api.
Qed.

Lemma record_success_wf h e h' e' :
  record_success h e = Ret (h', e') -> epoch_wf e -> epoch_wf e'.
Proof.
  unfold record_success, clear_quota_exhaustion. intros E Hwf.
  destruct (quota_exhaustion (routing h)); open_binds; eauto with any2api.
Qed.

Lemma record_success_total n h e :
  0 <= n -> headroom (n + 2) e ->
  exists h' e', record_success h e = Ret (h', e') /\ headroom n e'.
Proof.
  intros Hn He. unfold record_success, clear_quota_exhaustion.
  destruct (quota_exhaustion (routing h)); cycle 1.
  { do 2 eexists. split; [done|]. eapply headroom_weaken; [exact He|lia]. }
  pose proof (prepare_cancellation_room _ (quota_exhaustion_wake (routing h)) _ He) as Hp.
  destruct (prepare_cancellation _ e) as [p e1]. simpl in Hp.
  destruct (publish_total (n + 1) p e1) as (e2 & -> & He2);
    [lia|by replace (n + 1 + 1) with (n + 2) by lia|].
  simpl. destruct (advance_total n e2) as (e3 & -> & He3); [done|done|]. by do 2 eexists.
Qed.

Lemma credential_record_total n now system_now unix_now model c policy h e :
  0 <= n -> routing_room (n + 2) (routing h) e -> now + MAX_HEALTH_DELAY <= instant_max ->
  exists h' e', credential_record now system_now unix_now model c policy h e = Ret (h', e') /\
    headroom n e' /\
    match attribution c with
    | AttrCredential | AttrCredentialModel =>
        auth_error h' = auth_error h /\
        records now system_now model c policy (routing h) (routing h')
    | AttrAuthentication => routing h' = routing h /\
        auth_error h' = auth_error h || bool_decide (kind c = Authentication)
    | _ => h' = h
    end.
Proof.
  intros Hn He Hnow. unfold credential_record.
  assert (headroom (n + 1) e) as He1 by (eapply headroom_weaken; [exact He|lia]).
  assert (headroom n e) as He0 by (eapply headroom_weaken; [exact He1|lia]).
  destruct (attribution c); try by do 2 eexists.
  - case_decide as Ek; [|rewrite bool_decide_eq_false_2, orb_false_r by done; by do 2 eexists].
    rewrite bool_decide_eq_true_2, orb_true_r by done. unfold update_auth_error. case_bool_decide as Ea.
    + simpl. by do 2 eexists.
    + destruct (advance_total n e) as (e1 & -> & ?); [done|done|]. simpl. by do 2 eexists.
  - destruct (routing_record_spec n now system_now unix_now model c policy (routing h) e)
      as (h' & e' & -> & ? & Hr); [done|done|done|]. simpl. by do 2 eexists.
  - destruct (routing_record_spec n now system_now unix_now model c policy (routing h) e)
      as (h' & e' & -> & ? & Hr); [done|done|done|]. simpl. by do 2 eexists.
Qed.

(** What a question about a credential answers and leaves, once it returns. *)
Lemma credential_availability_view now model h e r h' e' :
  credential_availability now model h e = Ret (r, h', e') ->
  is_ok r = negb (auth_error h || is_blocked now model (routing h)) /\
  auth_error h' = auth_error h /\
  (forall t m, now <= t -> is_blocked t m (routing h') = is_blocked t m (routing h)).
Proof.
  unfold credential_availability. destruct (auth_error h) eqn:Ea; [by intros [= <- <- <-]|].
  unfold routing_availability. pose proof (fun t m => prune_blocks now t m (routing h)) as Hpr.
  destruct (prune_expired_model_cooldowns now _) as [m expired]. cbn [fst] in Hpr.
  destruct (drop_cooldowns expired e) as [e1|]; [|done]. cbn [mbind outcome_bind].
  set (h1 := with_models m (routing h)) in *.
  assert (forall t m, now <= t -> is_blocked t m h1 = is_blocked t m (routing h)) as Hb.
  { intros t m' Ht. destruct (Hpr t m' Ht) as (H1 & H2 & H3). unfold is_blocked.
    by rewrite H1, H2, H3. }
  intros [= <- <- <-]. split; [|by split]. rewrite <- Hb by done.
  pose proof (blocked_is_latest model h1) as Hl. pose proof (blocked_until_blocks now model h1) as Hu.
  rewrite Hu, <- Hl. destruct (blocked model h1) as [u|]; [|done]. cbn [fmap option_fmap option_map].
  by destruct (now <? unavailable_until u).
Qed.

Lemma credential_availability_total n now model h e :
  0 <= n -> routing_room n (routing h) e ->
  exists r h' e', credential_availability now model h e = Ret (r, h', e') /\ headroom n e' /\
    (size (model_cooldowns (routing h')) <= size (model_cooldowns (routing h)))%nat.
Proof.
  intros Hn He. unfold credential_availability. destruct (auth_error h).
  { do 3 eexists. split; [done|]. split; [|done]. eapply headroom_weaken; [exact He|]. lia. }
  unfold routing_availability. destruct (prune_total now n (routing h) e) as (e1 & E1 & He1); [done|done|].
  unfold prune_expired_model_cooldowns in *. cbn [snd] in E1. rewrite E1. cbn [mbind outcome_bind].
  do 3 eexists. split; [done|]. split; [done|].
  apply map_subseteq_size, map_filter_subseteq.
Qed.

(** * Properties of credential health *)

(** A credential is available for a model exactly when no authentication
    error stands and no cooldown of the credential, cooldown of the model or
    exhausted quota lies ahead; when blocked for a while, the instant reported
    is the one its last block ends at. *)
Theorem credential_available_exactly now model h e :
  routing_room 0 (routing h) e ->
  exists r h' e', credential_availability now model h e = Ret (r, h', e') /\
    match r with
    | Ok _ => auth_error h = false /\ is_blocked now model (routing h) = false
    | Err Permanent => auth_error h = true
    | Err (Temporary u) => auth_error h = false /\ is_blocked now model (routing h) = true /\
        blocked_until model (routing h) = Some (unavailable_until u)
    end.
Proof.
  intros He. unfold credential_availability.
  destruct (auth_error h) eqn:Ea; [by do 3 eexists|]. unfold routing_availability.
  destruct (prune_total now 0 (routing h) e) as (e1 & E1 & _); [done|done|].
  pose proof (fun t m => prune_blocks now t m (routing h)) as Hpr.
  destruct (prune_expired_model_cooldowns now _) as [m expired] eqn:Ep. simpl in E1, Hpr. rewrite E1. simpl.
  do 3 eexists. split; [done|]. destruct (Hpr now model (Z.le_refl now)) as (H1 & H2 & H3).
  set (h1 := with_models m (routing h)) in *.
  assert (is_blocked now model h1 = is_blocked now model (routing h)) as Hb
    by (unfold is_blocked; by rewrite H1, H2, H3).
  pose proof (blocked_is_latest model h1) as Hl. pose proof (blocked_until_blocks now model h1) as Hu.
  destruct (blocked model h1) as [u|]; simpl in Hl; rewrite <- Hl, Hb in Hu; [|done].
  destruct (now <? unavailable_until u) eqn:Eu; [|done]. split; [done|]. split; [done|].
  (* a block that still holds was not pruned, so it is the latest of all *)
  rewrite Hl. clear -Ep Eu Hl. subst h1. bool_to_prop. unfold blocked_until in *.
  injection Ep as <- _. cbn [model_cooldowns with_models credential_cooldown_until quota_exhaustion] in *.
  destruct (model_cooldowns (routing h) !! model) as [mc|] eqn:Em.
  - destruct (decide (now < cooldown_until mc)) as [Hlt|Hge].
    + by rewrite (map_lookup_filter_Some_2 _ _ model mc).
    + rewrite map_lookup_filter_None_2 in Hl |- *; [|right; intros x Hx; by simplify_eq..].
      simpl in *. destruct (credential_cooldown_until (routing h)), (quota_exhaustion (routing h));
        simpl in *; simplify_eq; f_equal; lia.
  - by rewrite map_lookup_filter_None_2 by (by left).
Qed.

(** An upstream failure blocks exactly what it is attributed to: one
    attributed to the credential or to a model of it adds its cooldown (never
    more than thirty days) to the blocks that stood, for that model only when
    it is about the model, and replaces the quota observation; a rejected
    authentication makes the credential unavailable; any other leaves the
    credential as it was. *)
Theorem credential_failure_blocks_exactly now system_now unix_now model c policy h e :
  routing_room 3 (routing h) e -> now + MAX_HEALTH_DELAY <= instant_max ->
  exists h' e', credential_record now system_now unix_now model c policy h e = Ret (h', e') /\
    match attribution c with
    | AttrCredential | AttrCredentialModel =>
        auth_error h' = auth_error h /\
        records now system_now model c policy (routing h) (routing h')
    | AttrAuthentication => routing h' = routing h /\
        auth_error h' = auth_error h || bool_decide (kind c = Authentication)
    | _ => h' = h
    end.
Proof.
  intros He Hnow.
  destruct (credential_record_total 0 now system_now unix_now model c policy h e)
    as (h' & e' & E & _ & Hr); [done| |done|by exists h', e'].
  eapply headroom_weaken; [exact He|lia].
Qed.

(** * Witnesses *)

Definition sample_health : CredentialHealth := {|
  auth_error := false;
  routing := {| credential_cooldown_until := None;
                model_cooldowns := {["m" := {| cooldown_until := secs 20; cooldown_cause := Outage;
                                               cooldown_wake := 3 |}]};
                quota_exhaustion := None; credential_cooldown_wake := 1;
                quota_exhaustion_wake := 2 |}
|}.

Lemma sample_room : routing_room 3 (routing sample_health) (epoch_new true).
Proof. split; vm_compute; discriminate. Qed.

Lemma credential_available_exactly_witness :
  exists r h' e', credential_availability (secs 5) "m" sample_health (epoch_new true) =
    Ret (r, h', e').
Proof.
  destruct (credential_available_exactly (secs 5) "m" sample_health (epoch_new true))
    as (r & h' & e' & E & _); [|by exists r, h', e'].
  eapply headroom_weaken; [apply sample_room|]. apply Z.add_le_mono_r. done.
Defined.

Definition sample_failure_class : UpstreamErrorClassification := {|
  kind := RateLimited; retry_safety := RejectedBeforeExecution;
  retry_after := Some (Delay (secs 30)); quota_used_limit := None;
  attribution := AttrCredentialModel
|}.

Lemma credential_failure_blocks_exactly_witness :
  exists h' e', credential_record (secs 5) 0 0 "m" sample_failure_class (policy_from_settings 60)
      sample_health (epoch_new true) = Ret (h', e') /\
    auth_error h' = false /\
    records (secs 5) 0 "m" sample_failure_class (policy_from_settings 60)
      (routing sample_health) (routing h').
Proof.
  apply (credential_failure_blocks_exactly (secs 5) 0 0 "m" sample_failure_class
           (policy_from_settings 60) sample_health (epoch_new true)); [apply sample_room|].
  vm_compute. discriminate.
Defined.
