(* ===== verification/Attempt.v ===== *)
(** Settling an upstream attempt on the health of everything it used
    ([AttemptHealth] of [crates/runtime/src/health/runtime/attempt.rs]).

    An attempt holds up to four permits (endpoint, proxy, egress path,
    candidate path) and the health of its credential.  It is settled once, by
    success, by an upstream failure, by a transport failure or by being
    dropped.  The runtimes are shared objects: they live in a store and a permit
    names its runtime by reference. *)

From S2P Require Import Prelude Epoch Circuit Upstream Health.

Local Open Scope Z_scope.

(** * The store of health runtimes *)

(** Endpoint, egress-path and candidate-path runtimes are all
    [EndpointHealthRuntime]s; a credential's health is its authentication flag
    and a reference to the routing half that its generations share. *)
Record HealthStore := {
  endpoints : gmap nat EndpointHealthRuntime;
  proxies : gmap nat CircuitRuntime;
  authentications : gmap nat (bool * nat);
  routings : gmap nat RoutingCredentialHealth;
  epoch : SchedulerEpoch
}.

(** A permit with the runtime it belongs to. *)
Record held_permit := {
  held_runtime : nat;
  held : CircuitPermit
}.

Record AttemptHealth := {
  credential : nat;
  model : string;
  endpoint : option held_permit;
  proxy : option held_permit;
  egress_path : option held_permit;
  candidate_path : option held_permit;
  policy : ReliabilityPolicy;
  attempt_started_at : Instant
}.

(** * One permit *)

Inductive settlement := SettleSuccess | SettleFailure | SettleNeutral.

(** [success], [failure] and [neutral] of an optional endpoint permit *)
Definition settle_endpoint (how : settlement) (now started_at : Instant)
    (policy : ReliabilityPolicy) (o : option held_permit) (s : HealthStore) : outcome HealthStore :=
  match o with
  | None => Ret s
  | Some p =>
      h ← expect (endpoints s !! held_runtime p);
      '(h, e) ← match how with
                | SettleSuccess => endpoint_success started_at (held p) h (epoch s)
                | SettleFailure => endpoint_transient now policy (held p) h (epoch s)
                | SettleNeutral => endpoint_neutral (held p) h (epoch s)
                end;
      Ret {| endpoints := <[held_runtime p := h]> (endpoints s); proxies := proxies s;
             authentications := authentications s; routings := routings s; epoch := e |}
  end.

(** [ProxyPermit::success], [failure] and [neutral] of an optional permit *)
Definition settle_proxy (how : settlement) (now : Instant) (policy : ReliabilityPolicy)
    (o : option held_permit) (s : HealthStore) : outcome HealthStore :=
  match o with
  | None => Ret s
  | Some p =>
      c ← expect (proxies s !! held_runtime p);
      '(c, e) ← match how with
                | SettleSuccess => permit_success (held p) c (epoch s)
                | SettleFailure => proxy_failure now policy (held p) c (epoch s)
                | SettleNeutral => permit_drop (held p) c (epoch s)
                end;
      Ret {| endpoints := endpoints s; proxies := <[held_runtime p := c]> (proxies s);
             authentications := authentications s; routings := routings s; epoch := e |}
  end.

(** The health of the attempt's credential, read and written back. *)
Definition on_credential (id : nat)
    (f : CredentialHealth -> SchedulerEpoch -> outcome (CredentialHealth * SchedulerEpoch))
    (s : HealthStore) : outcome HealthStore :=
  '(auth, rt) ← expect (authentications s !! id);
  r ← expect (routings s !! rt);
  '(h, e) ← f {| auth_error := auth; routing := r |} (epoch s);
  Ret {| endpoints := endpoints s; proxies := proxies s;
         authentications := <[id := (auth_error h, rt)]> (authentications s);
         routings := <[rt := routing h]> (routings s); epoch := e |}.

(** * Settling an attempt *)

(** [AttemptHealth::success] *)
Definition attempt_success (now : Instant) (a : AttemptHealth) (s : HealthStore)
    : outcome HealthStore :=
  let ep := fun how => settle_endpoint how now (attempt_started_at a) (policy a) in
  s ← on_credential (credential a) record_success s;
  s ← ep SettleSuccess (endpoint a) s;
  s ← ep SettleSuccess (egress_path a) s;
  s ← ep SettleSuccess (candidate_path a) s;
  settle_proxy SettleSuccess now (policy a) (proxy a) s.

(** How [AttemptHealth::upstream_failure] settles the endpoint, the egress path
    and the candidate path. *)
Definition upstream_settlement (c : UpstreamErrorClassification)
    : settlement * settlement * settlement :=
  match attribution c with
  | AttrEndpoint => (SettleFailure, SettleNeutral, SettleNeutral)
  | AttrEgressPath => (SettleNeutral, SettleFailure, SettleNeutral)
  | AttrAuthentication | AttrCredential | AttrCredentialModel =>
      (SettleNeutral, SettleSuccess, SettleSuccess)
  | AttrRouteOperation => (SettleNeutral, SettleSuccess, SettleFailure)
  | Unattributed =>
      if decide (kind c = InvalidRequest) then (SettleNeutral, SettleNeutral, SettleNeutral)
      else (SettleNeutral, SettleNeutral, SettleFailure)
  end.

(** [AttemptHealth::upstream_failure] *)
Definition attempt_upstream_failure (now : Instant) (system_now unix_now : Z)
    (c : UpstreamErrorClassification) (a : AttemptHealth) (s : HealthStore)
    : outcome HealthStore :=
  let ep := fun how => settle_endpoint how now (attempt_started_at a) (policy a) in
  let '(on_endpoint, on_egress, on_candidate) := upstream_settlement c in
  s ← on_credential (credential a)
        (credential_record now system_now unix_now (model a) c (policy a)) s;
  s ← match attribution c with
      | AttrEndpoint =>
          s ← ep on_egress (egress_path a) s;
          s ← ep on_candidate (candidate_path a) s;
          ep on_endpoint (endpoint a) s
      | AttrEgressPath =>
          s ← ep on_endpoint (endpoint a) s;
          s ← ep on_candidate (candidate_path a) s;
          ep on_egress (egress_path a) s
      | _ =>
          s ← ep on_endpoint (endpoint a) s;
          s ← ep on_egress (egress_path a) s;
          ep on_candidate (candidate_path a) s
      end;
  settle_proxy SettleSuccess now (policy a) (proxy a) s.

(** [AttemptHealth::transport_failure] *)
Definition attempt_transport_failure (now : Instant) (scope : TransportFailureScope)
    (a : AttemptHealth) (s : HealthStore) : outcome HealthStore :=
  let ep := fun how => settle_endpoint how now (attempt_started_at a) (policy a) in
  match scope with
  | ScopeEndpoint =>
      s ← ep SettleNeutral (egress_path a) s;
      s ← ep SettleNeutral (candidate_path a) s;
      s ← settle_proxy SettleNeutral now (policy a) (proxy a) s;
      ep SettleFailure (endpoint a) s
  | ScopeProxy =>
      s ← ep SettleNeutral (endpoint a) s;
      s ← ep SettleNeutral (egress_path a) s;
      s ← ep SettleNeutral (candidate_path a) s;
      settle_proxy SettleFailure now (policy a) (proxy a) s
  | ScopeEgressPath =>
      s ← ep SettleNeutral (endpoint a) s;
      s ← settle_proxy SettleNeutral now (policy a) (proxy a) s;
      s ← ep SettleFailure (egress_path a) s;
      ep SettleFailure (candidate_path a) s
  | ScopeUnattributed =>
      s ← ep SettleNeutral (endpoint a) s;
      s ← settle_proxy SettleNeutral now (policy a) (proxy a) s;
      s ← ep SettleNeutral (egress_path a) s;
      ep SettleFailure (candidate_path a) s
  end.

(** [AttemptHealth::drop] of an attempt that was not settled *)
Definition attempt_drop (now : Instant) (a : AttemptHealth) (s : HealthStore)
    : outcome HealthStore :=
  let ep := fun how => settle_endpoint how now (attempt_started_at a) (policy a) in
  s ← ep SettleNeutral (endpoint a) s;
  s ← ep SettleNeutral (egress_path a) s;
  s ← ep SettleNeutral (candidate_path a) s;
  settle_proxy SettleNeutral now (policy a) (proxy a) s.

(** * What settling does to one runtime *)

(** The probe of the permit is given back. *)
Definition probe_returned (p : CircuitPermit) (c c' : CircuitRuntime) : Prop :=
  half_open_in_flight c' =
    if half_open p then saturating_sub (half_open_in_flight c) 1 else half_open_in_flight c.

(** Nothing new is held against the circuit: it is as it was, or closed. *)
Definition circuit_unblamed (c c' : CircuitRuntime) : Prop :=
  (failure_times c' = failure_times c \/ failure_times c' = []) /\
  (open_until c' = open_until c \/ open_until c' = None).

(** The failure is recorded on the circuit. *)
Definition circuit_blamed (now : Instant) (c c' : CircuitRuntime) : Prop :=
  last_failure_at c' = Some now.

Definition circuit_settled (how : settlement) (now : Instant) (p : CircuitPermit)
    (c c' : CircuitRuntime) : Prop :=
  probe_returned p c c' /\
  match how with
  | SettleFailure => circuit_blamed now c c'
  | SettleSuccess => circuit_unblamed c c'
  | SettleNeutral => c' = return_probe (half_open p) c
  end.

(** An endpoint runtime that is blamed is unavailable for the transient
    period; one that is not is never made unavailable. *)
Definition endpoint_settled (how : settlement) (now : Instant) (policy : ReliabilityPolicy)
    (p : CircuitPermit) (h h' : EndpointHealthRuntime) : Prop :=
  circuit_settled how now p (endpoint_circuit h) (endpoint_circuit h') /\
  match how with
  | SettleFailure =>
      transient_until h' = opt_max (transient_until h)
        (Some (now + Z.min (transient_endpoint policy) MAX_HEALTH_DELAY))
  | SettleSuccess => transient_until h' = transient_until h \/ transient_until h' = None
  | SettleNeutral => transient_until h' = transient_until h
  end.

Lemma return_probe_returned p c : probe_returned p c (return_probe (half_open p) c).
Proof. unfold probe_returned, return_probe. by destruct (half_open p). Qed.

Lemma permit_success_settled n now p c e :
  0 <= n -> headroom (n + 2) e -> schedule_wf (wake_schedule e) ->
  exists c' e', permit_success p c e = Ret (c', e') /\ headroom n e' /\
    schedule_wf (wake_schedule e') /\ circuit_settled SettleSuccess now p c c'.
Proof.
  intros Hn He Hwf. unfold permit_success.
  destruct (circuit_success_total n (half_open p) (permit_started_at p) c e)
    as (c' & e' & E & He'); [done|done|].
  exists c', e'. split; [done|]. split; [done|].
  apply circuit_success_state in E as (Hc & _ & Hw & _ & Hst); [|done].
  split; [done|]. split; [|destruct Hst as [(? & ? & _)|(? & ? & _)]; split; auto].
  unfold probe_returned. rewrite Hc. apply return_probe_returned.
Qed.

Lemma permit_failure_settled n now th w od p c e :
  0 <= n -> headroom (n + 1) e -> schedule_wf (wake_schedule e) ->
  exists o c' e', permit_failure now th w od p c e = Ret (o, c', e') /\ headroom n e' /\
    schedule_wf (wake_schedule e') /\ circuit_settled SettleFailure now p c c'.
Proof.
  intros Hn He Hwf. unfold permit_failure.
  destruct (circuit_failure_total n now (half_open p) th w od c e) as (o & c' & e' & E & He'); [done|done|].
  exists o, c', e'. split; [done|]. split; [done|].
  apply circuit_failure_state in E as (Hc & _ & Hlast & Hw & _ & _); [|done].
  split; [done|]. split; [|done]. unfold probe_returned. rewrite Hc. apply return_probe_returned.
Qed.

Lemma permit_drop_settled n now p c e :
  0 <= n -> headroom (n + 1) e -> schedule_wf (wake_schedule e) ->
  exists c' e', permit_drop p c e = Ret (c', e') /\ headroom n e' /\
    schedule_wf (wake_schedule e') /\ circuit_settled SettleNeutral now p c c'.
Proof.
  intros Hn He Hwf. destruct (permit_drop_total n p c e) as (e' & E & He'); [done|done|].
  do 2 eexists. split; [done|]. split; [done|]. split; [|split; [apply return_probe_returned|done]].
  unfold permit_drop, release_probe in E. destruct (half_open p); [|by simplify_eq].
  destruct (advance e) as [e1|] eqn:Ea; [|done]. apply advance_frame in Ea as [Ew _].
  simplify_eq/=. by rewrite Ew.
Qed.

Lemma endpoint_success_settled n now started_at pol p h e :
  0 <= n -> headroom (n + 3) e -> schedule_wf (wake_schedule e) ->
  exists h' e', endpoint_success started_at p h e = Ret (h', e') /\ headroom n e' /\
    schedule_wf (wake_schedule e') /\ endpoint_settled SettleSuccess now pol p h h'.
Proof.
  intros Hn He Hwf. unfold endpoint_success.
  destruct (permit_success_settled (n + 1) now p (endpoint_circuit h) e)
    as (c & e1 & -> & He1 & Hwf1 & Hc); [lia|by replace (n + 1 + 2) with (n + 3) by lia|done|].
  simpl. destruct (transient_until h) as [u|] eqn:Eu; [destruct (u <=? started_at)|].
  - pose proof (prepare_cancellation_room _ (transient_wake h) _ He1) as Hp.
    destruct (prepare_cancellation (transient_wake h) e1) as [q e2] eqn:Ec. simpl in Hp.
    apply prepare_cancellation_frame in Ec as (Hw2 & _ & _); [|done].
    destruct (publish_total n q e2) as (e3 & E3 & He3); [done|done|]. rewrite E3. simpl.
    apply publish_frame in E3 as [Ew _]. do 2 eexists. split; [done|]. split; [done|].
    split; [by rewrite Ew|]. split; [done|by right].
  - do 2 eexists. split; [done|]. split; [by eapply headroom_weaken; [exact He1|lia]|].
    split; [done|]. split; [done|]. by left.
  - do 2 eexists. split; [done|]. split; [by eapply headroom_weaken; [exact He1|lia]|].
    split; [done|]. split; [done|]. by left.
Qed.

Lemma endpoint_transient_settled n now pol p h e :
  0 <= n -> headroom (n + 2) e -> schedule_wf (wake_schedule e) ->
  now + MAX_HEALTH_DELAY <= instant_max ->
  exists h' e', endpoint_transient now pol p h e = Ret (h', e') /\ headroom n e' /\
    schedule_wf (wake_schedule e') /\ endpoint_settled SettleFailure now pol p h h'.
Proof.
  intros Hn He Hwf Hnow. unfold endpoint_transient. rewrite deadline_total by done.
  cbn [mbind outcome_bind]. set (u := now + _). unfold max_deadline.
  assert (exists v, opt_max (transient_until h) (Some u) = Some v) as [v Ev]
    by (destruct (transient_until h); simpl; eauto).
  rewrite Ev. cbn [expect mbind outcome_bind].
  pose proof (prepare_schedule_room _ (transient_wake h) v _ He) as Hp.
  destruct (prepare_schedule (transient_wake h) v e) as [q e1] eqn:Es. simpl in Hp.
  apply prepare_schedule_frame in Es as (Hw1 & _ & _ & _); [|done].
  destruct (publish_total (n + 1) q e1) as (e2 & E2 & He2);
    [lia|by replace (n + 1 + 1) with (n + 2) by lia|].
  rewrite E2. simpl. apply publish_frame in E2 as [Ew _]. rewrite <- Ew in Hw1.
  destruct (permit_failure_settled n now (endpoint_failure_threshold pol)
    (endpoint_failure_window pol) (endpoint_open_duration pol) p (endpoint_circuit h) e2)
    as (o & c & e3 & -> & He3 & Hw3 & Hc); [done|done|done|].
  do 2 eexists. split; [done|]. split; [done|]. split; [done|]. split; [done|].
  simpl. by rewrite <- Ev.
Qed.

Lemma endpoint_neutral_settled n now pol p h e :
  0 <= n -> headroom (n + 1) e -> schedule_wf (wake_schedule e) ->
  exists h' e', endpoint_neutral p h e = Ret (h', e') /\ headroom n e' /\
    schedule_wf (wake_schedule e') /\ endpoint_settled SettleNeutral now pol p h h'.
Proof.
  intros Hn He Hwf. unfold endpoint_neutral.
  destruct (permit_drop_settled n now p (endpoint_circuit h) e) as (c & e1 & -> & He1 & Hw1 & Hc);
    [done|done|done|].
  do 2 eexists. split; [done|]. split; [done|]. split; [done|]. by split.
Qed.

(** * Settling the permits one after the other *)

Inductive item :=
| ItemEndpoint (how : settlement) (o : option held_permit)
| ItemProxy (how : settlement) (o : option held_permit).

Definition settle_item (now started_at : Instant) (pol : ReliabilityPolicy) (i : item)
    (s : HealthStore) : outcome HealthStore :=
  match i with
  | ItemEndpoint how o => settle_endpoint how now started_at pol o s
  | ItemProxy how o => settle_proxy how now pol o s
  end.

Fixpoint settle_all (now started_at : Instant) (pol : ReliabilityPolicy) (l : list item)
    (s : HealthStore) : outcome HealthStore :=
  match l with
  | [] => Ret s
  | i :: l => s ← settle_item now started_at pol i s; settle_all now started_at pol l s
  end.

(** The runtime an item is about: a proxy or an endpoint, by reference. *)
Definition item_key (i : item) : option (bool * nat) :=
  match i with
  | ItemEndpoint _ o => (fun p => (false, held_runtime p)) <$> o
  | ItemProxy _ o => (fun p => (true, held_runtime p)) <$> o
  end.

Definition runtime_at (s : HealthStore) (k : bool * nat)
    : option (EndpointHealthRuntime + CircuitRuntime) :=
  if k.1 then inr <$> proxies s !! k.2 else inl <$> endpoints s !! k.2.

Definition item_settled (now : Instant) (pol : ReliabilityPolicy) (i : item)
    (s s' : HealthStore) : Prop :=
  match i with
  | ItemEndpoint how (Some p) => exists h h',
      runtime_at s (false, held_runtime p) = Some (inl h) /\
      runtime_at s' (false, held_runtime p) = Some (inl h') /\
      endpoint_settled how now pol (held p) h h'
  | ItemProxy how (Some p) => exists c c',
      runtime_at s (true, held_runtime p) = Some (inr c) /\
      runtime_at s' (true, held_runtime p) = Some (inr c') /\
      circuit_settled how now (held p) c c'
  | _ => True
  end.

(** The store has room for [n] more notifications and a consistent schedule. *)
Definition store_ok (n : Z) (s : HealthStore) : Prop :=
  headroom n (epoch s) /\ schedule_wf (wake_schedule (epoch s)).

Definition item_live (i : item) (s : HealthStore) : Prop :=
  forall k, item_key i = Some k -> is_Some (runtime_at s k).

Lemma store_ok_weaken n m s : store_ok n s -> m <= n -> store_ok m s.
Proof. intros [? ?] ?. split; [by eapply headroom_weaken|done]. Qed.

Lemma runtime_at_insert_endpoint s r h e k :
  runtime_at {| endpoints := <[r := h]> (endpoints s); proxies := proxies s;
                authentications := authentications s; routings := routings s; epoch := e |} k =
  if decide (k = (false, r)) then Some (inl h) else runtime_at s k.
Proof.
  destruct k as [[] x]; unfold runtime_at; cbn [fst snd endpoints proxies].
  - by rewrite decide_False by done.
  - rewrite lookup_insert. repeat case_decide; naive_solver.
Qed.

Lemma runtime_at_insert_proxy s r c e k :
  runtime_at {| endpoints := endpoints s; proxies := <[r := c]> (proxies s);
                authentications := authentications s; routings := routings s; epoch := e |} k =
  if decide (k = (true, r)) then Some (inr c) else runtime_at s k.
Proof.
  destruct k as [[] x]; unfold runtime_at; cbn [fst snd endpoints proxies].
  - rewrite lookup_insert. repeat case_decide; naive_solver.
  - by rewrite decide_False by done.
Qed.

Lemma settle_endpoint_spec n how now started_at pol p s :
  0 <= n -> store_ok (n + 3) s -> now + MAX_HEALTH_DELAY <= instant_max ->
  is_Some (endpoints s !! held_runtime p) ->
  exists s', settle_endpoint how now started_at pol (Some p) s = Ret s' /\ store_ok n s' /\
    item_settled now pol (ItemEndpoint how (Some p)) s s' /\
    forall k, k <> (false, held_runtime p) -> runtime_at s' k = runtime_at s k.
Proof.
  intros Hn [He Hwf] Hnow [h Hh]. cbn [settle_endpoint]. rewrite Hh. cbn [expect mbind outcome_bind].
  set (act := match how with SettleSuccess => _ | SettleFailure => _ | SettleNeutral => _ end).
  assert (exists h' e', act = Ret (h', e') /\ headroom n e' /\ schedule_wf (wake_schedule e') /\
    endpoint_settled how now pol (held p) h h') as (h' & e' & -> & He' & Hwf' & Hset).
  { subst act. destruct how.
    - by apply endpoint_success_settled.
    - apply endpoint_transient_settled; try done. eapply headroom_weaken; [exact He|lia].
    - apply endpoint_neutral_settled; try done. eapply headroom_weaken; [exact He|lia]. }
  eexists. split; [done|]. split; [done|]. split.
  - exists h, h'. rewrite runtime_at_insert_endpoint, decide_True by done.
    split; [|done]. unfold runtime_at. simpl. by rewrite Hh.
  - intros k Hk. by rewrite runtime_at_insert_endpoint, decide_False.
Qed.

Lemma settle_proxy_spec n how now pol p s :
  0 <= n -> store_ok (n + 3) s -> is_Some (proxies s !! held_runtime p) ->
  exists s', settle_proxy how now pol (Some p) s = Ret s' /\ store_ok n s' /\
    item_settled now pol (ItemProxy how (Some p)) s s' /\
    forall k, k <> (true, held_runtime p) -> runtime_at s' k = runtime_at s k.
Proof.
  intros Hn [He Hwf] [c Hc]. cbn [settle_proxy]. rewrite Hc. cbn [expect mbind outcome_bind].
  set (act := match how with SettleSuccess => _ | SettleFailure => _ | SettleNeutral => _ end).
  assert (headroom (n + 2) (epoch s) /\ headroom (n + 1) (epoch s)) as [He2 He1]
    by (split; eapply headroom_weaken; [exact He|lia|exact He|lia]).
  assert (exists c' e', act = Ret (c', e') /\ headroom n e' /\ schedule_wf (wake_schedule e') /\
    circuit_settled how now (held p) c c') as (c' & e' & -> & He' & Hwf' & Hset).
  { subst act. destruct how.
    - by apply permit_success_settled.
    - unfold proxy_failure. destruct (permit_failure_settled n now (proxy_failure_threshold pol)
        (proxy_failure_window pol) (proxy_open_duration pol) (held p) c (epoch s))
        as (o & c' & e' & -> & ? & ? & ?); [done|done|done|]. by do 2 eexists.
    - by apply permit_drop_settled. }
  eexists. split; [done|]. split; [done|]. split.
  - exists c, c'. rewrite runtime_at_insert_proxy, decide_True by done.
    split; [|done]. unfold runtime_at. simpl. by rewrite Hc.
  - intros k Hk. by rewrite runtime_at_insert_proxy, decide_False.
Qed.

Lemma settle_item_spec n now started_at pol i s :
  0 <= n -> store_ok (n + 3) s -> now + MAX_HEALTH_DELAY <= instant_max -> item_live i s ->
  exists s', settle_item now started_at pol i s = Ret s' /\ store_ok n s' /\
    item_settled now pol i s s' /\
    forall k, item_key i <> Some k -> runtime_at s' k = runtime_at s k.
Proof.
  intros Hn Hok Hnow Hl. destruct i as [how [p|]|how [p|]]; cbn [settle_item].
  - destruct (settle_endpoint_spec n how now started_at pol p s) as (s' & E & Hs & Hi & Hf); try done.
    { destruct (Hl (false, held_runtime p) eq_refl) as [x Hx]. unfold runtime_at in Hx. simpl in Hx.
      by destruct (endpoints s !! held_runtime p). }
    exists s'. split; [done|]. split; [done|]. split; [done|]. intros k Hk. apply Hf.
    intros ->. by apply Hk.
  - exists s. split; [done|]. split; [eapply store_ok_weaken; [exact Hok|lia]|done].
  - destruct (settle_proxy_spec n how now pol p s) as (s' & E & Hs & Hi & Hf); try done.
    { destruct (Hl (true, held_runtime p) eq_refl) as [x Hx]. unfold runtime_at in Hx. simpl in Hx.
      by destruct (proxies s !! held_runtime p). }
    exists s'. split; [done|]. split; [done|]. split; [done|]. intros k Hk. apply Hf.
    intros ->. by apply Hk.
  - exists s. split; [done|]. split; [eapply store_ok_weaken; [exact Hok|lia]|done].
Qed.

Lemma item_settled_frame now pol i s0 s s' s1 :
  item_settled now pol i s s' ->
  (forall k, item_key i = Some k -> runtime_at s0 k = runtime_at s k) ->
  (forall k, item_key i = Some k -> runtime_at s1 k = runtime_at s' k) ->
  item_settled now pol i s0 s1.
Proof.
  intros Hi H0 H1. destruct i as [how [p|]|how [p|]]; try done; cbn [item_settled] in *;
    rewrite (H0 _ eq_refl), (H1 _ eq_refl); done.
Qed.

(** Settling a list of items about different runtimes settles each of them and
    touches nothing else. *)
Lemma settle_all_spec n now started_at pol l s :
  0 <= n -> store_ok (n + 3 * Zlen l) s -> now + MAX_HEALTH_DELAY <= instant_max ->
  Forall (fun i => item_live i s) l -> NoDup (omap item_key l) ->
  exists s', settle_all now started_at pol l s = Ret s' /\ store_ok n s' /\
    Forall (fun i => item_settled now pol i s s') l /\
    forall k, k ∉ omap item_key l -> runtime_at s' k = runtime_at s k.
Proof.
  intros Hn. revert s. induction l as [|i l IH]; intros s Hok Hnow Hlive Hnd.
  { exists s. split; [done|]. split; [eapply store_ok_weaken; [exact Hok|unfold Zlen; simpl; lia]|done]. }
  apply Forall_cons in Hlive as [Hi Hlive]. cbn [settle_all].
  assert (Zlen (i :: l) = 1 + Zlen l) as Hz by (unfold Zlen; simpl length; lia).
  assert (0 <= Zlen l) by (unfold Zlen; lia).
  destruct (settle_item_spec (n + 3 * Zlen l) now started_at pol i s) as (s1 & -> & Hok1 & Hset & Hf);
    [lia|by replace (n + 3 * Zlen l + 3) with (n + 3 * Zlen (i :: l)) by lia|done|done|].
  cbn [mbind outcome_bind].
  assert (forall k, item_key i = Some k -> k ∉ omap item_key l) as Hkey.
  { intros k Hk. cbn [omap list_omap] in Hnd. rewrite Hk in Hnd. by apply NoDup_cons in Hnd as [? _]. }
  assert (NoDup (omap item_key l)) as Hnd'.
  { cbn [omap list_omap] in Hnd. destruct (item_key i); [by apply NoDup_cons in Hnd as [_ ?]|done]. }
  assert (forall j k, j ∈ l -> item_key j = Some k -> runtime_at s1 k = runtime_at s k) as Hsame.
  { intros j k Hj Hk. apply Hf. intros Hik. apply (Hkey k Hik). apply list_elem_of_omap. by exists j. }
  destruct (IH s1 Hok1 Hnow) as (s' & -> & Hok' & Hall & Hf'); [|done|].
  { rewrite Forall_forall in Hlive |- *. intros j Hj k Hk. rewrite (Hsame j k Hj Hk). by apply (Hlive j). }
  exists s'. split; [done|]. split; [done|]. split.
  - constructor.
    + eapply item_settled_frame; [exact Hset|done|]. intros k Hk. by apply Hf', Hkey.
    + rewrite Forall_forall in Hall |- *. intros j Hj. eapply item_settled_frame; [by apply Hall| |done].
      intros k Hk. symmetry. by eapply Hsame.
  - intros k Hk. cbn [omap list_omap] in Hk. rewrite Hf'.
    + apply Hf. intros Hik. rewrite Hik in Hk. set_solver.
    + destruct (item_key i); set_solver.
Qed.

(** * The outcomes of an attempt *)

Inductive attempt_outcome :=
| AttemptSucceeded
| AttemptFailedUpstream (c : UpstreamErrorClassification)
| AttemptFailedTransport (scope : TransportFailureScope)
| AttemptDropped.

Definition settle_attempt (now : Instant) (system_now unix_now : Z) (out : attempt_outcome)
    (a : AttemptHealth) (s : HealthStore) : outcome HealthStore :=
  match out with
  | AttemptSucceeded => attempt_success now a s
  | AttemptFailedUpstream c => attempt_upstream_failure now system_now unix_now c a s
  | AttemptFailedTransport scope => attempt_transport_failure now scope a s
  | AttemptDropped => attempt_drop now a s
  end.

(** Who is blamed: the settlement of the endpoint, of the egress path, of the
    candidate path and of the proxy. *)
Definition verdict (out : attempt_outcome) : settlement * settlement * settlement * settlement :=
  match out with
  | AttemptSucceeded => (SettleSuccess, SettleSuccess, SettleSuccess, SettleSuccess)
  | AttemptFailedUpstream c => (upstream_settlement c, SettleSuccess)
  | AttemptFailedTransport ScopeEndpoint =>
      (SettleFailure, SettleNeutral, SettleNeutral, SettleNeutral)
  | AttemptFailedTransport ScopeProxy =>
      (SettleNeutral, SettleNeutral, SettleNeutral, SettleFailure)
  | AttemptFailedTransport ScopeEgressPath =>
      (SettleNeutral, SettleFailure, SettleFailure, SettleNeutral)
  | AttemptFailedTransport ScopeUnattributed =>
      (SettleNeutral, SettleNeutral, SettleFailure, SettleNeutral)
  | AttemptDropped => (SettleNeutral, SettleNeutral, SettleNeutral, SettleNeutral)
  end.

Definition verdict_items (out : attempt_outcome) (a : AttemptHealth) : list item :=
  let '(e, g, c, p) := verdict out in
  [ItemEndpoint e (endpoint a); ItemEndpoint g (egress_path a);
   ItemEndpoint c (candidate_path a); ItemProxy p (proxy a)].

(** The same items in the order the code settles them. *)
Definition ordered_items (out : attempt_outcome) (a : AttemptHealth) : list item :=
  let '(e, g, c, p) := verdict out in
  let e := ItemEndpoint e (endpoint a) in
  let g := ItemEndpoint g (egress_path a) in
  let c := ItemEndpoint c (candidate_path a) in
  let p := ItemProxy p (proxy a) in
  match out with
  | AttemptFailedUpstream cl =>
      match attribution cl with
      | AttrEndpoint => [g; c; e; p]
      | AttrEgressPath => [e; c; g; p]
      | _ => [e; g; c; p]
      end
  | AttemptFailedTransport ScopeEndpoint => [g; c; p; e]
  | AttemptFailedTransport ScopeEgressPath => [e; p; g; c]
  | AttemptFailedTransport ScopeUnattributed => [e; p; g; c]
  | _ => [e; g; c; p]
  end.

Lemma ordered_items_perm out a : ordered_items out a ≡ₚ verdict_items out a.
Proof.
  unfold ordered_items, verdict_items. destruct (verdict out) as [[[e g] c] p].
  destruct out as [|cl|[]|]; try done; try (destruct (attribution cl); try done); solve_Permutation.
Qed.

(** What the outcome says about the credential. *)
Definition settle_credential (now : Instant) (system_now unix_now : Z) (out : attempt_outcome)
    (a : AttemptHealth) (s : HealthStore) : outcome HealthStore :=
  match out with
  | AttemptSucceeded => on_credential (credential a) record_success s
  | AttemptFailedUpstream c => on_credential (credential a)
      (credential_record now system_now unix_now (model a) c (policy a)) s
  | _ => Ret s
  end.

(** Runs through the sequence of settlements on both sides of an equation. *)
Ltac same_sequence :=
  repeat (cbn [mbind outcome_bind settle_all settle_item];
          match goal with
          | |- context [@mbind outcome outcome_bind _ _ _ ?m] => destruct m; [|done]
          end); try reflexivity.

Lemma settle_attempt_items now system_now unix_now out a s :
  settle_attempt now system_now unix_now out a s =
  (s ← settle_credential now system_now unix_now out a s;
   settle_all now (attempt_started_at a) (policy a) (ordered_items out a) s).
Proof.
  destruct out as [|c|scope|]; cbn [settle_attempt settle_credential].
  - unfold attempt_success, ordered_items. cbn [verdict]. same_sequence.
  - unfold attempt_upstream_failure, ordered_items. cbn [verdict].
    destruct (upstream_settlement c) as [[e g] cd]. destruct (attribution c); same_sequence.
  - unfold attempt_transport_failure, ordered_items. destruct scope; cbn [verdict]; same_sequence.
  - unfold attempt_drop, ordered_items. cbn [verdict]. same_sequence.
Qed.

(** The credential's health objects exist, with room for its cooldowns. *)
Definition credential_live (n : Z) (a : AttemptHealth) (s : HealthStore) : Prop :=
  exists auth rt r, authentications s !! credential a = Some (auth, rt) /\
    routings s !! rt = Some r /\ routing_room n r (epoch s).

Lemma settle_credential_spec n now system_now unix_now out a s :
  0 <= n -> credential_live (n + 2) a s -> epoch_wf (epoch s) ->
  now + MAX_HEALTH_DELAY <= instant_max ->
  exists s1, settle_credential now system_now unix_now out a s = Ret s1 /\ store_ok n s1 /\
    endpoints s1 = endpoints s /\ proxies s1 = proxies s.
Proof.
  intros Hn (auth & rt & r & Ea & Er & Hroom) Hwf Hnow.
  assert (headroom (n + 2) (epoch s)) as He by (eapply headroom_weaken; [exact Hroom|lia]).
  assert (store_ok n s) by (split; [eapply headroom_weaken; [exact He|lia]|done]).
  destruct out as [|c|scope|]; cbn [settle_credential]; try (by eexists); unfold on_credential;
    rewrite Ea; cbn [expect mbind outcome_bind]; rewrite Er; cbn [expect mbind outcome_bind].
  - destruct (record_success_total n {| auth_error := auth; routing := r |} (epoch s))
      as (h' & e' & E & He'); [done|done|].
    rewrite E. eexists. split; [done|]. split; [|done]. split; [done|]. by eapply record_success_wf.
  - destruct (credential_record_total n now system_now unix_now (model a) c (policy a)
      {| auth_error := auth; routing := r |} (epoch s)) as (h' & e' & E & He' & _); [done|done|done|].
    rewrite E. eexists. split; [done|]. split; [|done]. split; [done|]. by eapply credential_record_wf.
Qed.

(** The attempt's runtimes exist and are different objects. *)
Definition attempt_live (a : AttemptHealth) (s : HealthStore) : Prop :=
  Forall (fun i => item_live i s) (verdict_items AttemptDropped a) /\
  NoDup (omap item_key (verdict_items AttemptDropped a)).

Lemma attempt_live_items out a s :
  attempt_live a s ->
  Forall (fun i => item_live i s) (ordered_items out a) /\
  NoDup (omap item_key (ordered_items out a)).
Proof.
  intros [Hl Hn]. rewrite (ordered_items_perm out a). unfold verdict_items in *.
  destruct (verdict out) as [[[e g] c] p]. cbn [verdict] in *. split; [|exact Hn].
  rewrite !Forall_cons in Hl |- *. exact Hl.
Qed.

(** * Properties *)

(** Settling an attempt gives back every probe and blames exactly who is at
    fault: whatever the outcome, settling returns; every permit the attempt
    holds is settled once, as [verdict] says, so its probe is returned, a
    failure is recorded on the blamed runtimes, which become unavailable for
    the transient period, and nothing is held against the others; no other
    runtime changes. *)
Theorem attempt_settles_exactly now system_now unix_now out a s :
  attempt_live a s -> credential_live 20 a s -> epoch_wf (epoch s) ->
  now + MAX_HEALTH_DELAY <= instant_max ->
  exists s', settle_attempt now system_now unix_now out a s = Ret s' /\
    Forall (fun i => item_settled now (policy a) i s s') (verdict_items out a) /\
    forall k, k ∉ omap item_key (verdict_items out a) -> runtime_at s' k = runtime_at s k.
Proof.
  intros Hlive Hcred Hwf Hnow. destruct (attempt_live_items out a s Hlive) as [Hl Hnd].
  rewrite settle_attempt_items.
  destruct (settle_credential_spec 18 now system_now unix_now out a s)
    as (s1 & -> & Hok1 & Ee & Ep); [done|exact Hcred|done|done|]. cbn [mbind outcome_bind].
  assert (forall k, runtime_at s1 k = runtime_at s k) as Hsame
    by (intros k; unfold runtime_at; by rewrite Ee, Ep).
  destruct (settle_all_spec 0 now (attempt_started_at a) (policy a) (ordered_items out a) s1)
    as (s' & E & _ & Hall & Hf); [done| |done| |done|].
  { eapply store_ok_weaken; [exact Hok1|]. unfold Zlen.
    rewrite (Permutation_length (ordered_items_perm out a)). unfold verdict_items.
    destruct (verdict out) as [[[? ?] ?] ?]. simpl. lia. }
  { eapply Forall_impl; [exact Hl|]. intros i Hi k Hk. rewrite Hsame. by apply Hi. }
  exists s'. split; [done|]. split.
  - rewrite <- (ordered_items_perm out a). eapply Forall_impl; [exact Hall|]. intros i Hi. eapply item_settled_frame; [exact Hi| |done].
    intros k _. by rewrite Hsame.
  - intros k Hk. rewrite <- (ordered_items_perm out a) in Hk. rewrite Hf; [apply Hsame|done].
Qed.

(** An attempt never blames more than the evidence supports: a runtime is
    blamed by an upstream failure only when the failure is attributed to it (a
    failure attributed to nobody, unless it is the caller's own invalid
    request, counts against the exact candidate), the proxy never is, and an
    attempt that succeeds or is abandoned blames nobody. *)
Theorem attempt_blames_only_attributed out :
  let '(e, g, c, p) := verdict out in
  (e = SettleFailure <-> out = AttemptFailedTransport ScopeEndpoint \/
     exists cl, out = AttemptFailedUpstream cl /\ attribution cl = AttrEndpoint) /\
  (g = SettleFailure <-> out = AttemptFailedTransport ScopeEgressPath \/
     exists cl, out = AttemptFailedUpstream cl /\ attribution cl = AttrEgressPath) /\
  (c = SettleFailure <-> out = AttemptFailedTransport ScopeEgressPath \/
     out = AttemptFailedTransport ScopeUnattributed \/
     exists cl, out = AttemptFailedUpstream cl /\
       (attribution cl = AttrRouteOperation \/
        attribution cl = Unattributed /\ kind cl <> InvalidRequest)) /\
  (p = SettleFailure <-> out = AttemptFailedTransport ScopeProxy).
Proof.
  destruct out as [|cl|[]|]; cbn [verdict]; try (split_and!; naive_solver).
  unfold upstream_settlement. destruct (attribution cl) eqn:Ea; try case_decide as Hk;
    (split; [|split; [|split]]); split; try done;
    first [ intros [|(? & [= <-] & ?)]; congruence
          | intros [|[|(? & [= <-] & [|[? ?]])]]; congruence
          | intros _; right; exists cl; by auto
          | intros _; right; right; exists cl; by auto ].
Qed.

(** * Witnesses *)

Definition sample_endpoint (w : Z) : EndpointHealthRuntime := {|
  endpoint_circuit := {| failure_times := []; open_until := Some (secs 1); half_open_in_flight := 1;
                         last_failure_at := Some 0; wake := w |};
  transient_until := None; transient_wake := w + 1
|}.

Definition sample_store_health : HealthStore := {|
  endpoints := {[0%nat := sample_endpoint 10; 1%nat := sample_endpoint 20]};
  proxies := ∅; authentications := {[0%nat := (false, 0%nat)]};
  routings := {[0%nat := routing sample_health]}; epoch := epoch_new true
|}.

Definition sample_attempt : AttemptHealth := {|
  credential := 0; model := "m";
  endpoint := Some {| held_runtime := 0; held := {| half_open := true; permit_started_at := secs 2 |} |};
  proxy := None; egress_path := None;
  candidate_path := Some {| held_runtime := 1; held := {| half_open := true; permit_started_at := secs 2 |} |};
  policy := policy_from_settings 60; attempt_started_at := secs 2
|}.

Lemma sample_attempt_live : attempt_live sample_attempt sample_store_health.
Proof.
  split.
  - repeat constructor; intros k; simpl; try done; intros [= <-]; vm_compute; by eauto.
  - vm_compute. repeat constructor; set_solver.
Qed.

Lemma attempt_settles_exactly_witness :
  exists s', settle_attempt (secs 3) 0 0 (AttemptFailedTransport ScopeEndpoint) sample_attempt
      sample_store_health = Ret s' /\
    Forall (fun i => item_settled (secs 3) (policy sample_attempt) i sample_store_health s')
      (verdict_items (AttemptFailedTransport ScopeEndpoint) sample_attempt).
Proof.
  destruct (attempt_settles_exactly (secs 3) 0 0 (AttemptFailedTransport ScopeEndpoint)
    sample_attempt sample_store_health) as (s' & E & Hall & _).
  - apply sample_attempt_live.
  - exists false, 0%nat, (routing sample_health). split; [done|]. split; [done|].
    split; vm_compute; discriminate.
  - apply wake_schedule_new_wf.
  - vm_compute. discriminate.
  - by exists s'.
Defined.
