(* ===== verification/Admission.v ===== *)
(** Route admission ([crates/runtime/src/routing/admission.rs]): the switch
    that lets an attempt start on a route, and withdraws it when a new
    configuration no longer has the route.

    An admission is a shared object; the registry keeps weak references to it.
    The objects live in a store, and [alive] is the set of the objects that
    someone still holds, which is what decides whether a weak reference can be
    upgraded. *)

From S2P Require Import Prelude.

Local Open Scope Z_scope.

Section admission.
(** [RouteAdmissionIdentity]: credential, generation, endpoint and proxy with
    their versions, compared as a whole. *)
Context {Identity : Type} `{Countable Identity}.

Record RouteAdmission := {
  identity : Identity;
  incarnation : Z;
  active : bool
}.

(** The objects made so far, the ones still held, and the registry. *)
Record admission_world := {
  admissions : gmap nat RouteAdmission;
  alive : gset nat;
  next_incarnation : Z;
  by_identity : gmap Identity nat
}.

Definition admission_world_new : admission_world :=
  {| admissions := ∅; alive := ∅; next_incarnation := 1; by_identity := ∅ |}.

(** [Weak::upgrade] *)
Definition upgrade (w : admission_world) (r : nat) : option RouteAdmission :=
  if decide (r ∈ alive w) then admissions w !! r else None.

(** [RouteAdmission::try_start] *)
Definition try_start (a : RouteAdmission) : bool := active a.

(** [RouteAdmission::revoke] *)
Definition revoke (a : RouteAdmission) : RouteAdmission :=
  {| identity := identity a; incarnation := incarnation a; active := false |}.

(** [RouteAdmissionRegistry::prepare]; the object it returns is held by the
    caller. *)
Definition prepare (id : Identity) (w : admission_world) : outcome (nat * admission_world) :=
  let current := match by_identity w !! id with
                 | Some r => match upgrade w r with
                             | Some a => if active a then Some r else None
                             | None => None
                             end
                 | None => None
                 end in
  match current with
  | Some r => Ret (r, w)
  | None =>
      next ← expect (checked_add u64_max (next_incarnation w) 1);
      let r := fresh (dom (admissions w)) in
      Ret (r, {| admissions :=
                   <[r := {| identity := id; incarnation := next_incarnation w; active := true |}]>
                     (admissions w);
                 alive := {[r]} ∪ alive w;
                 next_incarnation := next;
                 by_identity := <[id := r]> (by_identity w) |})
  end.

(** Whether [publish_current] keeps a registered object. *)
Definition kept (current : gset Z) (w : admission_world) (r : nat) : bool :=
  match upgrade w r with
  | Some a => bool_decide (incarnation a ∈ current)
  | None => false
  end.

(** Whether it revokes it. *)
Definition revoked (current : gset Z) (w : admission_world) (r : nat) : bool :=
  match upgrade w r with
  | Some a => bool_decide (incarnation a ∉ current)
  | None => false
  end.

(** [RouteAdmissionRegistry::publish_current]; [current] names the admissions
    of the published configuration *)
Definition publish_current (current : list nat) (w : admission_world) : admission_world :=
  let current := list_to_set (omap (fun r => incarnation <$> admissions w !! r) current) in
  let registered := map_img (SA := gset nat) (by_identity w) in
  {| admissions := map_imap (fun r a =>
       Some (if decide (r ∈ registered) then (if revoked current w r then revoke a else a) else a))
       (admissions w);
     alive := alive w;
     next_incarnation := next_incarnation w;
     by_identity := filter (fun kv => kept current w kv.2 = true) (by_identity w) |}.

(** The last holder of an object lets it go. *)
Definition release (r : nat) (w : admission_world) : admission_world :=
  {| admissions := admissions w; alive := alive w ∖ {[r]};
     next_incarnation := next_incarnation w; by_identity := by_identity w |}.

Inductive admission_step : admission_world -> admission_world -> Prop :=
| step_prepare w id r w' : prepare id w = Ret (r, w') -> admission_step w w'
| step_publish w current :
    (forall r, r ∈ current -> r ∈ alive w) -> admission_step w (publish_current current w)
| step_release w r : admission_step w (release r w).

(** * The invariant *)

Record admission_inv (w : admission_world) : Prop := {
  ad_alive : forall r, r ∈ alive w -> is_Some (admissions w !! r);
  ad_registered : forall id r, by_identity w !! id = Some r ->
    exists a, admissions w !! r = Some a /\ identity a = id;
  ad_active : forall r a, r ∈ alive w -> admissions w !! r = Some a -> active a = true ->
    by_identity w !! identity a = Some r;
  ad_below : forall r a, admissions w !! r = Some a -> incarnation a < next_incarnation w;
  ad_unique : forall r r' a a', admissions w !! r = Some a -> admissions w !! r' = Some a' ->
    incarnation a = incarnation a' -> r = r'
}.

Lemma admission_world_new_inv : admission_inv admission_world_new.
Proof.
  split; simpl.
  - intros r Hr. by apply elem_of_empty in Hr.
  - intros id r. by rewrite lookup_empty.
  - intros r a Hr. by apply elem_of_empty in Hr.
  - intros r a. by rewrite lookup_empty.
  - intros r r' a a'. by rewrite lookup_empty.
Qed.

Lemma upgrade_Some w r a : upgrade w r = Some a <-> r ∈ alive w /\ admissions w !! r = Some a.
Proof. unfold upgrade. case_decide; naive_solver. Qed.

Lemma prepare_reuses w id r a :
  by_identity w !! id = Some r -> upgrade w r = Some a -> active a = true ->
  prepare id w = Ret (r, w).
Proof. intros E1 E2 E3. unfold prepare. by rewrite E1, E2, E3. Qed.

Lemma prepare_inv w id r w' :
  admission_inv w -> prepare id w = Ret (r, w') ->
  admission_inv w' /\ r ∈ alive w' /\
  (exists a, admissions w' !! r = Some a /\ identity a = id /\ active a = true) /\
  (forall r' a, admissions w !! r' = Some a -> admissions w' !! r' = Some a).
Proof.
  intros Hinv. pose proof Hinv as [Ha Hr Hact Hb Hu]. unfold prepare.
  set (current := match by_identity w !! id with Some _ => _ | None => _ end).
  destruct current as [r0|] eqn:Ec.
  - intros [= <- <-]. subst current. destruct (by_identity w !! id) as [r1|] eqn:Ei; [|done].
    destruct (upgrade w r1) as [a|] eqn:Eu; [|done]. destruct (active a) eqn:Eact; [|done].
    injection Ec as ->. apply upgrade_Some in Eu as [Hal Ea].
    destruct (Hr _ _ Ei) as (a' & Ea' & Hid). rewrite Ea in Ea'. injection Ea' as <-.
    split; [done|]. split; [done|]. split; [by exists a|done].
  - unfold checked_add. destruct (_ <=? u64_max) eqn:Eo; [|done]. cbn [expect mbind outcome_bind].
    set (f := fresh (dom (admissions w))). assert (admissions w !! f = None) as Hf
      by (apply not_elem_of_dom, is_fresh).
    assert (f ∉ alive w) as Hfa by (intros Hx; apply Ha in Hx as [? Hx]; congruence).
    intros [= <- <-]. split; [|split; [simpl; set_solver|split; [|]]].
    + split; simpl.
      * intros r0 Hr0. apply elem_of_union in Hr0 as [Hr0|Hr0].
        -- apply elem_of_singleton in Hr0 as ->. rewrite lookup_insert_eq. by eauto.
        -- rewrite lookup_insert_ne; [by apply Ha|]. by intros <-.
      * intros id0 r0. rewrite lookup_insert_Some. intros [[<- <-]|[Hne Hi]].
        -- eexists. by rewrite lookup_insert_eq.
        -- destruct (Hr _ _ Hi) as (a & Ea & Hid). exists a. split; [|done].
           rewrite lookup_insert_ne; [done|]. intros <-. congruence.
      * intros r0 a Hr0. rewrite lookup_insert_Some. intros [[<- <-]|[Hne Hl]] Hac.
        -- simpl. by rewrite lookup_insert_eq.
        -- assert (r0 ∈ alive w) as Hal by set_solver. pose proof (Hact _ _ Hal Hl Hac) as Hi.
           rewrite lookup_insert_ne; [done|]. intros Heq. subst current. rewrite Heq, Hi in Ec.
           assert (upgrade w r0 = Some a) as Eu by (by apply upgrade_Some). by rewrite Eu, Hac in Ec.
      * intros r0 a. rewrite lookup_insert_Some. bool_to_prop. intros [[<- <-]|[_ Hl]]; simpl; [lia|].
        specialize (Hb _ _ Hl). lia.
      * intros r0 r1 a0 a1. rewrite !lookup_insert_Some.
        intros [[<- <-]|[_ H0]] [[<- <-]|[_ H1]] Heq; try done; simpl in Heq.
        -- specialize (Hb _ _ H1). lia.
        -- specialize (Hb _ _ H0). lia.
        -- by eapply Hu.
    + simpl. eexists. by rewrite lookup_insert_eq.
    + intros r' a Hl. simpl. rewrite lookup_insert_ne; [done|]. intros <-. congruence.
Qed.

(** What publishing does to an object. *)
Definition after_publish (current : list nat) (w : admission_world) (r : nat) (a : RouteAdmission)
    : RouteAdmission :=
  let incs : gset Z := list_to_set (omap (fun r => incarnation <$> admissions w !! r) current) in
  if decide (r ∈ map_img (SA := gset nat) (by_identity w))
  then (if revoked incs w r then revoke a else a) else a.

Lemma publish_lookup current w r :
  admissions (publish_current current w) !! r = after_publish current w r <$> admissions w !! r.
Proof.
  unfold publish_current. simpl. rewrite map_lookup_imap. by destruct (admissions w !! r).
Qed.

Lemma after_publish_same current w r a :
  identity (after_publish current w r a) = identity a /\
  incarnation (after_publish current w r a) = incarnation a.
Proof. unfold after_publish. by repeat case_match. Qed.

Lemma incarnation_current current w r a :
  admission_inv w -> admissions w !! r = Some a ->
  (incarnation a ∈ (list_to_set (omap (fun r => incarnation <$> admissions w !! r) current) : gset Z)
   <-> r ∈ current).
Proof.
  intros [_ _ _ _ Hu] Ea. rewrite elem_of_list_to_set, list_elem_of_omap. split.
  - intros (r' & Hr' & Hi). destruct (admissions w !! r') as [a'|] eqn:E'; [|done].
    simpl in Hi. injection Hi as Hi. by rewrite (Hu r r' a a' Ea E').
  - intros Hr. exists r. by rewrite Ea.
Qed.

Lemma after_publish_active current w r a :
  admission_inv w -> r ∈ alive w -> admissions w !! r = Some a ->
  (active (after_publish current w r a) = true <-> active a = true /\ r ∈ current).
Proof.
  intros Hinv Hal Ea. unfold after_publish, revoked.
  rewrite (proj2 (upgrade_Some w r a)) by done.
  rewrite <- (incarnation_current current w r a Hinv Ea).
  set (incs := list_to_set _ : gset Z). case_decide as Hreg.
  - case_bool_decide; simpl; [|tauto]. split; [done|]. tauto.
  - split; [|tauto]. intros Hac. destruct Hreg. apply elem_of_map_img.
    exists (identity a). by apply Hinv.
Qed.

Lemma publish_inv current w : admission_inv w -> admission_inv (publish_current current w).
Proof.
  intros Hinv. pose proof Hinv as [Ha Hr Hact Hb Hu].
  assert (forall r a', admissions (publish_current current w) !! r = Some a' ->
    exists a, admissions w !! r = Some a /\ a' = after_publish current w r a) as Hback.
  { intros r a'. rewrite publish_lookup. destruct (admissions w !! r) as [a|]; [|done].
    intros [= <-]. by exists a. }
  split.
  - intros r Hal. rewrite publish_lookup. destruct (Ha r Hal) as [a ->]. by eauto.
  - intros id r Hi. apply map_lookup_filter_Some in Hi as [Hi _].
    destruct (Hr _ _ Hi) as (a & Ea & <-). eexists. rewrite publish_lookup, Ea. split; [done|].
    apply after_publish_same.
  - intros r a' Hal Hl Hac. destruct (Hback _ _ Hl) as (a & Ea & ->).
    apply after_publish_active in Hac as [Hac Hcur]; [|done|done|done].
    destruct (after_publish_same current w r a) as [-> _].
    apply map_lookup_filter_Some. split; [by apply Hact|]. simpl. unfold kept.
    rewrite (proj2 (upgrade_Some w r a)) by done. apply bool_decide_eq_true_2.
    by apply (incarnation_current current w r a Hinv Ea).
  - intros r a' Hl. destruct (Hback _ _ Hl) as (a & Ea & ->).
    destruct (after_publish_same current w r a) as [_ ->]. by apply (Hb r).
  - intros r r' a a' Hl Hl' Heq. destruct (Hback _ _ Hl) as (b & Eb & ->).
    destruct (Hback _ _ Hl') as (b' & Eb' & ->).
    destruct (after_publish_same current w r b) as [_ E1].
    destruct (after_publish_same current w r' b') as [_ E2]. apply (Hu r r' b b'); congruence.
Qed.

Lemma release_inv r w : admission_inv w -> admission_inv (release r w).
Proof.
  intros [Ha Hr Hact Hb Hu]. split; simpl; try done.
  - intros r' Hr'. apply Ha. set_solver.
  - intros r' a Hr'. apply Hact. set_solver.
Qed.

Lemma admission_step_inv w w' : admission_inv w -> admission_step w w' -> admission_inv w'.
Proof.
  intros Hinv Hs. destruct Hs as [w id r w' E|w current Hc|w r].
  - by apply (prepare_inv _ _ _ _ Hinv) in E as [? _].
  - by apply publish_inv.
  - by apply release_inv.
Qed.

(** An object keeps its identity and, once inactive, stays inactive. *)
Lemma admission_step_final w w' r a :
  admission_inv w -> admission_step w w' -> admissions w !! r = Some a ->
  exists a', admissions w' !! r = Some a' /\ identity a' = identity a /\
    incarnation a' = incarnation a /\ (active a = false -> active a' = false).
Proof.
  intros Hinv Hs Ea. destruct Hs as [w id r0 w' E|w current Hc|w r0].
  - apply (prepare_inv _ _ _ _ Hinv) in E as (_ & _ & _ & Hkeep). exists a. by rewrite (Hkeep _ _ Ea).
  - eexists. rewrite publish_lookup, Ea. split; [done|].
    destruct (after_publish_same current w r a) as [-> ->]. split; [done|]. split; [done|].
    intros Hn. unfold after_publish. by repeat case_match.
  - by exists a.
Qed.

Lemma admission_reachable_inv w : rtc admission_step admission_world_new w -> admission_inv w.
Proof.
  apply (rtc_ind_r admission_inv); [apply admission_world_new_inv|].
  intros w1 w2 _ Hs Hi. by eapply admission_step_inv.
Qed.
End admission.
Arguments RouteAdmission : clear implicits.
Arguments admission_world Identity {_ _} : assert.

(** * Properties *)

Section admission_properties.
Context {Identity : Type} `{Countable Identity}.
Implicit Types (w : admission_world Identity) (r : nat).

(** Publishing a configuration admits exactly its routes: among the
    admissions still held anywhere, those that can start an attempt afterwards
    are the ones that could before and belong to the published configuration;
    no withdrawn route keeps an admission that the registry forgot. *)
Theorem admission_publish_admits_exactly w current r a :
  rtc admission_step admission_world_new w -> r ∈ alive w -> admissions w !! r = Some a ->
  exists a', admissions (publish_current current w) !! r = Some a' /\
    (try_start a' = true <-> try_start a = true /\ r ∈ current).
Proof.
  intros Hrun Hal Ea. apply admission_reachable_inv in Hrun.
  eexists. rewrite publish_lookup, Ea. split; [done|]. by apply after_publish_active.
Qed.

(** C30. Revocation is final: an admission that cannot start an attempt never
    can again, whatever is prepared or published later, even for the same
    route; it keeps its identity and incarnation. *)
Theorem admission_revocation_final w w' r a :
  rtc admission_step admission_world_new w -> rtc admission_step w w' ->
  admissions w !! r = Some a -> try_start a = false ->
  exists a', admissions w' !! r = Some a' /\ identity a' = identity a /\
    incarnation a' = incarnation a /\ try_start a' = false.
Proof.
  intros Hrun Hrun' Ea Hoff. apply admission_reachable_inv in Hrun.
  revert a Ea Hoff. induction Hrun' as [w|w w1 w2 Hs Hr IH]; intros a Ea Hoff; [by exists a|].
  destruct (admission_step_final _ _ _ _ Hrun Hs Ea) as (a1 & E1 & I1 & N1 & Hoff1).
  destruct (IH (admission_step_inv _ _ Hrun Hs) a1 E1 (Hoff1 Hoff)) as (a2 & E2 & I2 & N2 & Hoff2).
  exists a2. split; [done|]. split; [congruence|]. split; [congruence|done].
Qed.

(** A route has at most one admission that can start attempts: two held
    admissions of one identity that are both active are the same object, and
    preparing that identity again gives it back. *)
Theorem admission_one_active_per_route w r r' a a' :
  rtc admission_step admission_world_new w ->
  r ∈ alive w -> r' ∈ alive w -> admissions w !! r = Some a -> admissions w !! r' = Some a' ->
  identity a = identity a' -> try_start a = true -> try_start a' = true ->
  r = r' /\ prepare (identity a) w = Ret (r, w).
Proof.
  intros Hrun Hal Hal' Ea Ea' Hid Hon Hon'. apply admission_reachable_inv in Hrun.
  pose proof (ad_active _ Hrun r a Hal Ea Hon) as E1.
  pose proof (ad_active _ Hrun r' a' Hal' Ea' Hon') as E2. split; [congruence|].
  apply (prepare_reuses w (identity a) r a); [done|by apply upgrade_Some|done].
Qed.
End admission_properties.

(** * Witnesses *)

Definition sample_admission : RouteAdmission Z :=
  {| identity := 7; incarnation := 1; active := true |}.

Definition sample_world : admission_world Z :=
  {| admissions := {[0%nat := sample_admission]}; alive := {[0%nat]}; next_incarnation := 2;
     by_identity := {[7 := 0%nat]} |}.

Lemma sample_world_reached : rtc admission_step admission_world_new sample_world.
Proof. apply rtc_once. apply (step_prepare _ 7 0%nat). vm_compute. reflexivity. Qed.

Lemma admission_publish_admits_exactly_witness :
  exists a', admissions (publish_current [] sample_world) !! 0%nat = Some a' /\
    (try_start a' = true <-> try_start sample_admission = true /\ 0%nat ∈ ([] : list nat)).
Proof.
  apply (admission_publish_admits_exactly sample_world [] 0%nat sample_admission);
    [apply sample_world_reached|set_solver|reflexivity].
Defined.

Lemma admission_revocation_final_witness :
  exists a', admissions (publish_current [] sample_world) !! 0%nat = Some a' /\
    identity a' = 7 /\ incarnation a' = 1 /\ try_start a' = false.
Proof.
  apply (admission_revocation_final (publish_current [] sample_world)
           (publish_current [] sample_world) 0%nat (revoke sample_admission)).
  - eapply rtc_r; [apply sample_world_reached|]. apply step_publish. set_solver.
  - apply rtc_refl.
  - vm_compute. reflexivity.
  - reflexivity.
Defined.

Lemma admission_one_active_per_route_witness :
  0%nat = 0%nat /\ prepare 7 sample_world = Ret (0%nat, sample_world).
Proof.
  apply (admission_one_active_per_route sample_world 0%nat 0%nat sample_admission sample_admission);
    [apply sample_world_reached|set_solver|set_solver|reflexivity..].
Defined.
