(* ===== verification/CredentialRuntime.v ===== *)
(** The runtime of a routing credential
    ([crates/runtime/src/credential/runtime/handle.rs], [binding.rs],
    [generation.rs], [metrics.rs]): its request window, its count of requests
    in flight, the fixed waiters it holds slots for, the permits it hands out,
    and what of its health survives a change of configuration.

    A permit is either started (an attempt goes out under it) or rolled back
    before it starts, and is released exactly once.  The runs below keep the
    ledger of the permits and waiters that exist and the reservations that
    count. *)

From S2P Require Import Prelude Epoch RateWindow Admission.

Local Open Scope Z_scope.

(** * Balancing counters *)

Inductive CredentialFilterKind :=
| FilterRateLimit
| FilterCredentialHealth
| FilterEndpointHealth
| FilterProxyHealth
| FilterEgressPathHealth
| FilterCandidateHealth.

#[export] Instance filter_kind_eq_dec : EqDecision CredentialFilterKind.
Proof. solve_decision. Defined.

Record CredentialBalancingMetrics := {
  selected : Z;
  filtered_rate_limit : Z;
  filtered_credential_health : Z;
  filtered_endpoint_health : Z;
  filtered_proxy_health : Z;
  filtered_egress_path_health : Z;
  filtered_candidate_health : Z
}.

(** [AtomicU64::fetch_add] wraps around. *)
Definition record_selection (m : CredentialBalancingMetrics) : CredentialBalancingMetrics := {|
  selected := wrapping_add_u64 (selected m) 1;
  filtered_rate_limit := filtered_rate_limit m;
  filtered_credential_health := filtered_credential_health m;
  filtered_endpoint_health := filtered_endpoint_health m;
  filtered_proxy_health := filtered_proxy_health m;
  filtered_egress_path_health := filtered_egress_path_health m;
  filtered_candidate_health := filtered_candidate_health m
|}.

(** [CredentialBalancingMetrics::record_filter] *)
Definition record_filter (k : CredentialFilterKind) (m : CredentialBalancingMetrics)
    : CredentialBalancingMetrics :=
  let bump := fun k' n => if decide (k = k') then wrapping_add_u64 n 1 else n in
  {| selected := selected m;
     filtered_rate_limit := bump FilterRateLimit (filtered_rate_limit m);
     filtered_credential_health := bump FilterCredentialHealth (filtered_credential_health m);
     filtered_endpoint_health := bump FilterEndpointHealth (filtered_endpoint_health m);
     filtered_proxy_health := bump FilterProxyHealth (filtered_proxy_health m);
     filtered_egress_path_health := bump FilterEgressPathHealth (filtered_egress_path_health m);
     filtered_candidate_health := bump FilterCandidateHealth (filtered_candidate_health m) |}.

(** * Handles and permits *)

(** [CredentialRuntimeHandle] without its current generation *)
Record CredentialRuntimeHandle := {
  in_flight : Z;
  rate_window : CredentialRateWindow;
  fixed_waiters : Z;
  changes : Z
}.

Definition handle_new : CredentialRuntimeHandle :=
  {| in_flight := 0; rate_window := rate_window_new; fixed_waiters := 0; changes := 0 |}.

(** [RoutingPermit]; its admission is a reference, and [attempt_started] says
    that it holds an [AttemptStartPermit]. *)
Record RoutingPermit := {
  rate_reservation : option RateReservation;
  route_admission : option nat;
  attempt_started : bool
}.

(** [CredentialRuntimeHandle::try_reserve], with the admission its binding adds *)
Definition handle_try_reserve (now : Instant) (requests_per_minute : option Z) (fixed : bool)
    (admission : option nat) (h : CredentialRuntimeHandle)
    : outcome (result RoutingPermit RateLimited * CredentialRuntimeHandle) :=
  '(r, w) ← try_reserve now requests_per_minute (fixed_waiters h) fixed (rate_window h);
  let h := {| in_flight := in_flight h; rate_window := w; fixed_waiters := fixed_waiters h;
              changes := changes h |} in
  match r with
  | Err e => Ret (Err e, h)
  | Ok reservation =>
      n ← expect (checked_add u32_max (in_flight h) 1);
      Ret (Ok {| rate_reservation := reservation; route_admission := admission;
                 attempt_started := false |},
           {| in_flight := n; rate_window := rate_window h; fixed_waiters := fixed_waiters h;
              changes := changes h |})
  end.

(** [CredentialRuntimeHandle::release_in_flight] *)
Definition release_in_flight (h : CredentialRuntimeHandle) : outcome CredentialRuntimeHandle :=
  n ← expect (checked_sub (in_flight h) 1);
  Ret {| in_flight := n; rate_window := rate_window h; fixed_waiters := fixed_waiters h;
         changes := changes h |}.

(** [CredentialRuntimeHandle::notify_change] *)
Definition notify_change (h : CredentialRuntimeHandle) : outcome CredentialRuntimeHandle :=
  n ← expect (checked_add u64_max (changes h) 1);
  Ret {| in_flight := in_flight h; rate_window := rate_window h;
         fixed_waiters := fixed_waiters h; changes := n |}.

(** [CredentialRuntimeHandle::rollback_before_attempt] *)
Definition handle_rollback (reservation : option RateReservation) (h : CredentialRuntimeHandle)
    (e : SchedulerEpoch) : outcome (CredentialRuntimeHandle * SchedulerEpoch) :=
  let '(removed, w) := match reservation with
                       | Some r => rollback r (rate_window h)
                       | None => (false, rate_window h)
                       end in
  let h := {| in_flight := in_flight h; rate_window := w; fixed_waiters := fixed_waiters h;
              changes := changes h |} in
  h ← release_in_flight h;
  if removed then h ← notify_change h; e ← advance e; Ret (h, e) else Ret (h, e).

(** [RoutingPermit::drop] *)
Definition routing_permit_drop (h : CredentialRuntimeHandle) : outcome CredentialRuntimeHandle :=
  release_in_flight h.

Section permits.
Context {Identity : Type} `{Countable Identity}.

(** [RoutingPermit::try_start_attempt]: the started permit, or nothing once
    the permit was rolled back *)
Definition try_start_attempt (w : admission_world Identity) (p : RoutingPermit)
    (h : CredentialRuntimeHandle) (e : SchedulerEpoch)
    : outcome (option RoutingPermit * CredentialRuntimeHandle * SchedulerEpoch) :=
  if attempt_started p then Ret (Some p, h, e)
  else
    let admitted := match route_admission p with
                    | Some r => match admissions w !! r with
                                | Some a => try_start a
                                | None => false
                                end
                    | None => false
                    end in
    if admitted
    then Ret (Some {| rate_reservation := rate_reservation p;
                      route_admission := route_admission p; attempt_started := true |}, h, e)
    else '(h, e) ← handle_rollback (rate_reservation p) h e; Ret (None, h, e).
End permits.

(** [CredentialRuntimeHandle::register_fixed_waiter] *)
Definition register_fixed_waiter (h : CredentialRuntimeHandle) : outcome CredentialRuntimeHandle :=
  n ← expect (checked_add u32_max (fixed_waiters h) 1);
  notify_change {| in_flight := in_flight h; rate_window := rate_window h; fixed_waiters := n;
                   changes := changes h |}.

(** [CredentialRuntimeHandle::release_fixed_waiter] *)
Definition release_fixed_waiter (h : CredentialRuntimeHandle) (e : SchedulerEpoch)
    : outcome (CredentialRuntimeHandle * SchedulerEpoch) :=
  n ← expect (checked_sub (fixed_waiters h) 1);
  h ← notify_change {| in_flight := in_flight h; rate_window := rate_window h; fixed_waiters := n;
                       changes := changes h |};
  e ← advance e;
  Ret (h, e).

(** [CredentialRuntimeHandle::rate_snapshot] *)
Definition rate_snapshot (now : Instant) (requests_per_minute : option Z)
    (h : CredentialRuntimeHandle) : outcome (CredentialRateSnapshot * CredentialRuntimeHandle) :=
  '(s, w) ← snapshot now requests_per_minute (rate_window h);
  Ret (s, {| in_flight := in_flight h; rate_window := w; fixed_waiters := fixed_waiters h;
             changes := changes h |}).

(** * Runs of a credential *)

(** The handle with the permits and waiters that exist, and the reservations
    granted and not rolled back. *)
Record credential_run := {
  cr_now : Instant;
  cr_handle : CredentialRuntimeHandle;
  cr_epoch : SchedulerEpoch;
  cr_permits : list RoutingPermit;
  cr_waiters : nat;
  cr_granted : list RateReservation
}.

Definition without (reservation : option RateReservation) (l : list RateReservation)
    : list RateReservation :=
  match reservation with
  | Some r => filter (fun x => rr_id x <> rr_id r) l
  | None => l
  end.

Section runs.
Context {Identity : Type} `{Countable Identity}.

Inductive credential_step (L : Z) : credential_run -> credential_run -> Prop :=
| cs_reserved s now limit fixed adm p h :
    cr_now s <= now -> valid_limit limit -> limit_at_most L limit ->
    handle_try_reserve now limit fixed adm (cr_handle s) = Ret (Ok p, h) ->
    credential_step L s
      {| cr_now := now; cr_handle := h; cr_epoch := cr_epoch s;
         cr_permits := p :: cr_permits s; cr_waiters := cr_waiters s;
         cr_granted := cr_granted s ++ option_list (rate_reservation p) |}
| cs_refused s now limit fixed adm e h :
    cr_now s <= now -> valid_limit limit -> limit_at_most L limit ->
    handle_try_reserve now limit fixed adm (cr_handle s) = Ret (Err e, h) ->
    credential_step L s
      {| cr_now := now; cr_handle := h; cr_epoch := cr_epoch s; cr_permits := cr_permits s;
         cr_waiters := cr_waiters s; cr_granted := cr_granted s |}
| cs_started s (w : admission_world Identity) pre p post p' h e :
    cr_permits s = pre ++ p :: post ->
    try_start_attempt w p (cr_handle s) (cr_epoch s) = Ret (Some p', h, e) ->
    credential_step L s
      {| cr_now := cr_now s; cr_handle := h; cr_epoch := e; cr_permits := pre ++ p' :: post;
         cr_waiters := cr_waiters s; cr_granted := cr_granted s |}
| cs_rejected s (w : admission_world Identity) pre p post h e :
    cr_permits s = pre ++ p :: post ->
    try_start_attempt w p (cr_handle s) (cr_epoch s) = Ret (None, h, e) ->
    credential_step L s
      {| cr_now := cr_now s; cr_handle := h; cr_epoch := e; cr_permits := pre ++ post;
         cr_waiters := cr_waiters s; cr_granted := without (rate_reservation p) (cr_granted s) |}
| cs_rolled_back s pre p post h e :
    cr_permits s = pre ++ p :: post ->
    handle_rollback (rate_reservation p) (cr_handle s) (cr_epoch s) = Ret (h, e) ->
    credential_step L s
      {| cr_now := cr_now s; cr_handle := h; cr_epoch := e; cr_permits := pre ++ post;
         cr_waiters := cr_waiters s; cr_granted := without (rate_reservation p) (cr_granted s) |}
| cs_dropped s pre p post h :
    cr_permits s = pre ++ p :: post -> routing_permit_drop (cr_handle s) = Ret h ->
    credential_step L s
      {| cr_now := cr_now s; cr_handle := h; cr_epoch := cr_epoch s; cr_permits := pre ++ post;
         cr_waiters := cr_waiters s; cr_granted := cr_granted s |}
| cs_wait s h :
    register_fixed_waiter (cr_handle s) = Ret h ->
    credential_step L s
      {| cr_now := cr_now s; cr_handle := h; cr_epoch := cr_epoch s; cr_permits := cr_permits s;
         cr_waiters := S (cr_waiters s); cr_granted := cr_granted s |}
| cs_unwait s n h e :
    cr_waiters s = S n -> release_fixed_waiter (cr_handle s) (cr_epoch s) = Ret (h, e) ->
    credential_step L s
      {| cr_now := cr_now s; cr_handle := h; cr_epoch := e; cr_permits := cr_permits s;
         cr_waiters := n; cr_granted := cr_granted s |}
| cs_snapshot s now limit sn h :
    cr_now s <= now -> valid_limit limit -> rate_snapshot now limit (cr_handle s) = Ret (sn, h) ->
    credential_step L s
      {| cr_now := now; cr_handle := h; cr_epoch := cr_epoch s; cr_permits := cr_permits s;
         cr_waiters := cr_waiters s; cr_granted := cr_granted s |}
| cs_env s e :
    credential_step L s
      {| cr_now := cr_now s; cr_handle := cr_handle s; cr_epoch := e; cr_permits := cr_permits s;
         cr_waiters := cr_waiters s; cr_granted := cr_granted s |}.
End runs.

Definition credential_start (now : Instant) (e : SchedulerEpoch) : credential_run :=
  {| cr_now := now; cr_handle := handle_new; cr_epoch := e; cr_permits := []; cr_waiters := 0;
     cr_granted := [] |}.

(** The run of the request window inside a run of the credential. *)
Definition window_of (s : credential_run) : window_run :=
  {| run_now := cr_now s; run_window := rate_window (cr_handle s); run_granted := cr_granted s |}.

(** The counters are the sizes of the ledger. *)
Definition ledger_exact (s : credential_run) : Prop :=
  in_flight (cr_handle s) = Zlen (cr_permits s) /\
  fixed_waiters (cr_handle s) = Z.of_nat (cr_waiters s).

(** * Lemmas *)

Lemma release_in_flight_spec h h' :
  release_in_flight h = Ret h' ->
  in_flight h' = in_flight h - 1 /\ rate_window h' = rate_window h /\
  fixed_waiters h' = fixed_waiters h /\ changes h' = changes h.
Proof. unfold release_in_flight, checked_sub. destruct (_ <=? _); [|done]. by intros [= <-]. Qed.

Lemma notify_change_spec h h' :
  notify_change h = Ret h' ->
  in_flight h' = in_flight h /\ rate_window h' = rate_window h /\ fixed_waiters h' = fixed_waiters h.
Proof. unfold notify_change, checked_add. destruct (_ <=? _); [|done]. by intros [= <-]. Qed.

(** The window a rollback leaves. *)
Definition rolled_back (reservation : option RateReservation) (w : CredentialRateWindow)
    : CredentialRateWindow :=
  match reservation with Some r => (rollback r w).2 | None => w end.

Lemma handle_rollback_spec reservation h e h' e' :
  handle_rollback reservation h e = Ret (h', e') ->
  in_flight h' = in_flight h - 1 /\ rate_window h' = rolled_back reservation (rate_window h) /\
  fixed_waiters h' = fixed_waiters h.
Proof.
  unfold handle_rollback. set (rb := match reservation with Some _ => _ | None => _ end).
  assert (rb.2 = rolled_back reservation (rate_window h)) as Ew by (by destruct reservation).
  destruct rb as [removed w]. simpl in Ew. subst w. intros E.
  destruct (release_in_flight _) as [h1|] eqn:Er; [|done].
  apply release_in_flight_spec in Er as (E1 & E2 & E3 & _). simpl in *.
  destruct removed; [|injection E as <- <-; by rewrite E1, E2, E3].
  destruct (notify_change h1) as [h2|] eqn:En; [|done]. simpl in E.
  apply notify_change_spec in En as (F1 & F2 & F3).
  destruct (advance e); [|done]. simpl in E. injection E as <- <-.
  by rewrite F1, F2, F3, E1, E2, E3.
Qed.

Lemma handle_try_reserve_ok now limit fixed adm h p h' :
  handle_try_reserve now limit fixed adm h = Ret (Ok p, h') ->
  try_reserve now limit (fixed_waiters h) fixed (rate_window h) =
    Ret (Ok (rate_reservation p), rate_window h') /\
  in_flight h' = in_flight h + 1 /\ fixed_waiters h' = fixed_waiters h.
Proof.
  unfold handle_try_reserve. destruct (try_reserve _ _ _ _ _) as [[[r|e] w]|]; try done.
  cbn [mbind outcome_bind]. unfold checked_add. destruct (_ <=? u32_max); [|done].
  by intros [= <- <-].
Qed.

Lemma handle_try_reserve_err now limit fixed adm h e h' :
  handle_try_reserve now limit fixed adm h = Ret (Err e, h') ->
  try_reserve now limit (fixed_waiters h) fixed (rate_window h) = Ret (Err e, rate_window h') /\
  in_flight h' = in_flight h /\ fixed_waiters h' = fixed_waiters h.
Proof.
  unfold handle_try_reserve. destruct (try_reserve _ _ _ _ _) as [[[r|e'] w]|]; try done.
  - cbn [mbind outcome_bind]. by destruct (expect _).
  - cbn [mbind outcome_bind]. by intros [= <- <-].
Qed.

Lemma Zlen_middle {A} (pre post : list A) x : Zlen (pre ++ x :: post) = Zlen (pre ++ post) + 1.
Proof. unfold Zlen. rewrite !length_app. simpl. lia. Qed.

Lemma window_of_rollback L now w reservation granted :
  rtc (window_step L) {| run_now := now; run_window := w; run_granted := granted |}
    {| run_now := now; run_window := rolled_back reservation w;
       run_granted := without reservation granted |}.
Proof.
  destruct reservation as [r|]; [|apply rtc_refl]. apply rtc_once.
  apply (step_rollback L {| run_now := now; run_window := w; run_granted := granted |} r).
Qed.

Section run_facts.
Context {Identity : Type} `{Countable Identity}.
Abbreviation step := (credential_step (Identity := Identity)).

Lemma try_start_attempt_none (w : admission_world Identity) p h e h' e' :
  try_start_attempt w p h e = Ret (None, h', e') ->
  handle_rollback (rate_reservation p) h e = Ret (h', e').
Proof.
  unfold try_start_attempt. destruct (attempt_started p); [done|]. case_match; [done|].
  destruct (handle_rollback _ _ _) as [[h1 e1]|]; [|done]. by intros [= <- <-].
Qed.

Lemma try_start_attempt_some (w : admission_world Identity) p h e p' h' e' :
  try_start_attempt w p h e = Ret (Some p', h', e') -> h' = h /\ e' = e /\
    rate_reservation p' = rate_reservation p /\ attempt_started p' = true.
Proof.
  unfold try_start_attempt. destruct (attempt_started p) eqn:E; [by intros [= <- <- <-]|].
  case_match; [by intros [= <- <- <-]|].
  by destruct (handle_rollback _ _ _) as [[h1 e1]|].
Qed.

(** Every step of the credential keeps the ledger and is a step, or nothing,
    for its request window. *)
Lemma credential_step_sim L s s' :
  ledger_exact s -> step L s s' ->
  ledger_exact s' /\ rtc (window_step L) (window_of s) (window_of s').
Proof.
  intros [Hf Hw] Hstep.
  destruct Hstep as [s now limit fixed adm p h Hle Hv Hl E|s now limit fixed adm e h Hle Hv Hl E
    |s w pre p post p' h e Ep E|s w pre p post h e Ep E|s pre p post h e Ep E|s pre p post h Ep E
    |s h E|s n h e En E|s now limit sn h Hle Hv E|s e]; unfold ledger_exact, window_of in *; simpl.
  - apply handle_try_reserve_ok in E as (E1 & E2 & E3). split; [|apply rtc_once].
    + rewrite E2, E3, Hf. split; [unfold Zlen; simpl; lia|done].
    + destruct (rate_reservation p) as [r|] eqn:Er; simpl.
      * by eapply (step_granted L {| run_now := cr_now s; run_window := _; run_granted := _ |}).
      * rewrite app_nil_r.
        by eapply (step_unlimited L {| run_now := cr_now s; run_window := _; run_granted := _ |}).
  - apply handle_try_reserve_err in E as (E1 & E2 & E3). split; [by rewrite E2, E3|]. apply rtc_once.
    by eapply (step_refused L {| run_now := cr_now s; run_window := _; run_granted := _ |}).
  - apply try_start_attempt_some in E as (-> & -> & _). rewrite Ep in Hf.
    split; [|apply rtc_refl]. split; [|done]. rewrite Hf, !Zlen_middle. done.
  - apply try_start_attempt_none, handle_rollback_spec in E as (E1 & E2 & E3).
    rewrite E1, E2, E3, Hf, Ep, Zlen_middle. split; [lia|apply window_of_rollback].
  - apply handle_rollback_spec in E as (E1 & E2 & E3).
    rewrite E1, E2, E3, Hf, Ep, Zlen_middle. split; [lia|apply window_of_rollback].
  - apply release_in_flight_spec in E as (E1 & E2 & E3 & _).
    rewrite E1, E2, E3, Hf, Ep, Zlen_middle. split; [lia|apply rtc_refl].
  - unfold register_fixed_waiter, checked_add in E. destruct (_ <=? u32_max); [|done]. simpl in E.
    apply notify_change_spec in E as (E1 & E2 & E3). simpl in *. rewrite E1, E2, E3, Hf, Hw.
    split; [lia|apply rtc_refl].
  - unfold release_fixed_waiter, checked_sub in E. destruct (_ <=? _); [|done]. simpl in E.
    destruct (notify_change _) as [h1|] eqn:En1; [|done]. simpl in E.
    destruct (advance _); [|done]. simpl in E. injection E as <- <-.
    apply notify_change_spec in En1 as (E1 & E2 & E3). simpl in *. rewrite E1, E2, E3, Hf, Hw, En.
    split; [lia|apply rtc_refl].
  - unfold rate_snapshot in E. destruct (snapshot _ _ _) as [[sn' w']|] eqn:Es; [|done].
    simpl in E. injection E as <- <-. simpl. split; [done|]. apply rtc_once.
    by eapply (step_snapshot L {| run_now := cr_now s; run_window := _; run_granted := _ |}).
  - split; [done|apply rtc_refl].
Qed.

Lemma credential_run_sim L now e s :
  rtc (step L) (credential_start now e) s ->
  ledger_exact s /\ rtc (window_step L) (run_start now) (window_of s).
Proof.
  apply (rtc_ind_r (fun s => ledger_exact s /\ rtc (window_step L) (run_start now) (window_of s))).
  - split; [done|apply rtc_refl].
  - intros s1 s2 _ Hs [Hex Hrun]. destruct (credential_step_sim _ _ _ Hex Hs) as [Hex' Hrun'].
    split; [done|]. by etransitivity.
Qed.

(** * Properties *)

(** The counters of a credential are exact: after any interleaving of
    reservations, starts, rejections, rollbacks, drops and fixed waiters, the
    requests in flight are the permits that exist and the fixed waiters the
    ones registered, so releasing a permit never panics. *)
Theorem credential_ledger_is_exact L now e s :
  rtc (step L) (credential_start now e) s ->
  in_flight (cr_handle s) = Zlen (cr_permits s) /\
  fixed_waiters (cr_handle s) = Z.of_nat (cr_waiters s) /\
  (cr_permits s <> [] -> exists h, routing_permit_drop (cr_handle s) = Ret h).
Proof.
  intros Hrun. apply credential_run_sim in Hrun as [[Hf Hw] _]. split; [done|]. split; [done|].
  intros Hne. unfold routing_permit_drop, release_in_flight, checked_sub.
  rewrite Hf, (proj2 (Z.leb_le _ _)); [by eexists|].
  destruct (cr_permits s); [done|]. unfold Zlen. simpl. lia.
Qed.

(** C24. The requests-per-minute limit of a credential holds end to end: with
    limits of at most [L], at most [L] of the reservations whose permits were
    not rolled back fall in any 60-second span, whatever else happens to the
    credential. *)
Theorem credential_rpm_enforced L now e s t :
  0 <= now -> 0 <= L <= MAX_REQUESTS_PER_MINUTE ->
  rtc (step L) (credential_start now e) s ->
  Z.of_nat (length (filter (in_minute t) (cr_granted s))) <= L.
Proof.
  intros H0 HL Hrun. apply credential_run_sim in Hrun as [_ Hrun].
  by apply (inv_count L (window_of s)), (reachable_inv L now).
Qed.

(** An attempt that is refused its start leaves no trace: when the route
    of a permit just granted has been withdrawn, rolling the permit back
    returns, gives back its place in flight and exactly its reservation, and
    wakes the waiters when a reservation was given back. *)
Theorem credential_rejected_start_rolls_back now now0 limit fixed r h h1 p
    (w : admission_world Identity) e :
  window_wf now0 (rate_window h) -> now0 <= now -> 0 <= in_flight h ->
  changes h < u64_max -> current e < u64_max ->
  handle_try_reserve now limit fixed (Some r) h = Ret (Ok p, h1) ->
  (forall a, admissions w !! r = Some a -> try_start a = false) ->
  exists h2 e2, try_start_attempt w p h1 e = Ret (None, h2, e2) /\
    in_flight h2 = in_flight h /\ fixed_waiters h2 = fixed_waiters h /\
    attempts (rate_window h2) = attempts (prune now (rate_window h)) /\
    current e2 = current e + (if rate_reservation p then 1 else 0).
Proof.
  intros Hwf Hle H0 Hc He E Hoff.
  assert (route_admission p = Some r /\ attempt_started p = false /\ changes h1 = changes h) as (Ead & Est & Ech).
  { unfold handle_try_reserve in E. destruct (try_reserve _ _ _ _ _) as [[[o|] w1]|]; try done.
    cbn [mbind outcome_bind] in E. destruct (expect _); [|done]. by injection E as <- <-. }
  apply handle_try_reserve_ok in E as (E1 & E2 & E3).
  unfold try_start_attempt. rewrite Est, Ead.
  assert (match admissions w !! r with Some a => try_start a | None => false end = false) as ->.
  { destruct (admissions w !! r) eqn:Ea; [by apply Hoff|done]. }
  unfold handle_rollback, release_in_flight, checked_sub.
  destruct (rate_reservation p) as [res|] eqn:Er.
  - destruct limit as [l|]; [|done].
    pose proof (rollback_granted _ _ _ _ _ _ _ _ Hwf Hle E1) as Erb.
    rewrite Erb. cbn [in_flight]. rewrite E2, (proj2 (Z.leb_le _ _)) by lia.
    cbn [expect mbind outcome_bind]. unfold notify_change, checked_add. cbn [changes].
    rewrite Ech, (proj2 (Z.leb_le _ _)) by lia. cbn [expect mbind outcome_bind].
    unfold advance, increment, checked_add. rewrite (proj2 (Z.leb_le _ _)) by lia.
    cbn [expect mbind outcome_bind]. do 2 eexists. split; [done|]. simpl.
    split; [lia|]. split; [done|]. split; [done|]. unfold publish_epoch. simpl. by case_match.
  - cbn [in_flight]. rewrite E2, (proj2 (Z.leb_le _ _)) by lia.
    cbn [expect mbind outcome_bind]. do 2 eexists. split; [done|]. simpl.
    split; [lia|]. split; [done|]. split; [|lia].
    by rewrite (try_reserve_not_granted _ _ _ _ _ _ _ E1).
Qed.
End run_facts.

(** * Witnesses *)

Definition sample_permit_issued : RoutingPermit :=
  {| rate_reservation := Some sample_reservation; route_admission := Some 0%nat;
     attempt_started := false |}.

Definition sample_handle : CredentialRuntimeHandle :=
  {| in_flight := 1; rate_window := sample_window; fixed_waiters := 0; changes := 0 |}.

Definition sample_credential_run : credential_run :=
  {| cr_now := secs 100; cr_handle := sample_handle; cr_epoch := epoch_new true;
     cr_permits := [sample_permit_issued]; cr_waiters := 0; cr_granted := [sample_reservation] |}.

Lemma sample_credential_reached :
  rtc (credential_step (Identity := Z) 2) (credential_start (secs 100) (epoch_new true))
    sample_credential_run.
Proof.
  apply rtc_once. apply (cs_reserved 2 (credential_start (secs 100) (epoch_new true)) (secs 100)
    (Some 2) false (Some 0%nat) sample_permit_issued sample_handle); done.
Qed.

Lemma credential_ledger_is_exact_witness :
  in_flight sample_handle = Zlen [sample_permit_issued] /\ fixed_waiters sample_handle = 0 /\
  ([sample_permit_issued] <> [] -> exists h, routing_permit_drop sample_handle = Ret h).
Proof.
  apply (credential_ledger_is_exact (Identity := Z) 2 (secs 100) (epoch_new true) sample_credential_run).
  apply sample_credential_reached.
Defined.

Lemma credential_rpm_enforced_witness :
  Z.of_nat (length (filter (in_minute (secs 130)) (cr_granted sample_credential_run))) <= 2.
Proof.
  apply (credential_rpm_enforced (Identity := Z) 2 (secs 100) (epoch_new true));
    [done|done|apply sample_credential_reached].
Defined.

Lemma credential_rejected_start_rolls_back_witness :
  exists h2 e2, try_start_attempt (publish_current [] sample_world) sample_permit_issued sample_handle
      (epoch_new true) = Ret (None, h2, e2) /\ in_flight h2 = 0 /\ fixed_waiters h2 = 0 /\
    attempts (rate_window h2) = [] /\ current e2 = 0 + 1.
Proof.
  apply (credential_rejected_start_rolls_back (secs 100) (secs 100) (Some 2) false 0%nat handle_new
    sample_handle sample_permit_issued (publish_current [] sample_world) (epoch_new true)).
  - apply (run_start_inv 2); done.
  - done.
  - done.
  - done.
  - done.
  - reflexivity.
  - vm_compute. by intros a [= <-].
Defined.
