(* ===== verification/Candidates.v ===== *)
(** Route candidates and what a request remembers of the candidates that
    failed it ([crates/runtime/src/routing/candidates/identity.rs] and the
    identities of [route.rs]).

    Identifiers are opaque to this code and only compared; they are integers
    here.  [CandidateSelectionState] keeps its fields, grouped into the
    exclusions, the attempts noted and the deferrals. *)

From Stdlib Require Import Btauto.
From S2P Require Import Prelude Protocol.

Local Open Scope Z_scope.

(** * Identities *)

(** [RoutingCredentialId]: a provider credential ([inl]) or an OAuth account
    ([inr]). *)
Abbreviation RoutingCredentialId := (Z + Z)%type (only parsing).

(** [RoutingCredentialId::oauth_account_id] *)
Definition oauth_account_id (id : RoutingCredentialId) : option Z :=
  match id with inl _ => None | inr account => Some account end.

(** The fields of [RouteCandidate] that identify it; its binding matters here
    through the version of its authentication. *)
Record RouteCandidate := {
  target_id : Z;
  operation : ProtocolOperation;
  endpoint_id : Z;
  endpoint_config_version : Z;
  credential_id : RoutingCredentialId;
  routing_generation : Z;
  upstream_model : string;
  proxy_id : Z;
  proxy_config_version : Z;
  authentication_version : Z
}.

(** [CandidateIdentity], [EgressPathIdentity], [CredentialGenerationIdentity]
    and [RouteOperationIdentity] *)
Abbreviation EgressPathIdentity := (Z * Z * Z * Z)%type (only parsing).
Abbreviation CredentialGenerationIdentity := ((Z + Z) * Z)%type (only parsing).
Abbreviation RouteOperationIdentity := (Z * ProtocolOperation)%type (only parsing).
Abbreviation CandidateIdentity :=
  (Z * ProtocolOperation * ((Z + Z) * Z) * (Z * Z * Z * Z))%type (only parsing).

(** [RouteCandidate::egress_path_identity] *)
Definition egress_path_identity (c : RouteCandidate) : EgressPathIdentity :=
  (endpoint_id c, endpoint_config_version c, proxy_id c, proxy_config_version c).

(** [RouteCandidate::credential_generation_identity] *)
Definition credential_generation_identity (c : RouteCandidate) : CredentialGenerationIdentity :=
  (credential_id c, routing_generation c).

(** [route_operation_identity] *)
Definition route_operation_identity (c : RouteCandidate) : RouteOperationIdentity :=
  (target_id c, operation c).

(** [RouteCandidate::identity] *)
Definition candidate_identity (c : RouteCandidate) : CandidateIdentity :=
  (route_operation_identity c, credential_generation_identity c, egress_path_identity c).

Inductive CandidateFailureScope :=
| ExactCandidate
| ScopeCredential
| ScopeCredentialModel
| ScopeRouteOperation
| ScopeEgressPath
| ScopeProxy
| ScopeEndpoint.

(** * The selection state of a request *)

Record Exclusions := {
  ex_candidates : gset CandidateIdentity;
  ex_credentials : gset RoutingCredentialId;
  ex_credential_models : gmap CredentialGenerationIdentity (gset string);
  ex_route_operations : gset RouteOperationIdentity;
  ex_endpoints : gset Z;
  ex_proxies : gset Z;
  ex_egress_paths : gset EgressPathIdentity
}.

Record Attempted := {
  attempted_candidates : gset CandidateIdentity;
  attempted_credentials : gset CredentialGenerationIdentity;
  attempted_egress_paths : gset EgressPathIdentity
}.

Record Deferrals := {
  candidate_not_before : gmap CandidateIdentity Instant;
  credential_not_before : gmap CredentialGenerationIdentity Instant;
  credential_model_not_before : gmap CredentialGenerationIdentity (gmap string Instant);
  route_operation_not_before : gmap RouteOperationIdentity Instant;
  egress_path_not_before : gmap EgressPathIdentity Instant;
  proxy_not_before : gmap Z Instant;
  endpoint_not_before : gmap Z Instant
}.

Record CandidateSelectionState := {
  exclusions : Exclusions;
  attempted : Attempted;
  deferrals : Deferrals
}.

(** [CandidateSelectionState::default] *)
Definition selection_state_new : CandidateSelectionState := {|
  exclusions := {| ex_candidates := ∅; ex_credentials := ∅; ex_credential_models := ∅;
                   ex_route_operations := ∅; ex_endpoints := ∅; ex_proxies := ∅;
                   ex_egress_paths := ∅ |};
  attempted := {| attempted_candidates := ∅; attempted_credentials := ∅;
                  attempted_egress_paths := ∅ |};
  deferrals := {| candidate_not_before := ∅; credential_not_before := ∅;
                  credential_model_not_before := ∅; route_operation_not_before := ∅;
                  egress_path_not_before := ∅; proxy_not_before := ∅; endpoint_not_before := ∅ |}
|}.

(** [CandidateSelectionState::credential_model_excluded] *)
Definition credential_model_excluded (x : Exclusions) (c : RouteCandidate) : bool :=
  match ex_credential_models x !! credential_generation_identity c with
  | Some models => bool_decide (upstream_model c ∈ models)
  | None => false
  end.

(** [CandidateSelectionState::allows] *)
Definition allows (s : CandidateSelectionState) (c : RouteCandidate) : bool :=
  let x := exclusions s in
  negb (bool_decide (candidate_identity c ∈ ex_candidates x)) &&
  negb (bool_decide (credential_id c ∈ ex_credentials x)) &&
  negb (credential_model_excluded x c) &&
  negb (bool_decide (route_operation_identity c ∈ ex_route_operations x)) &&
  negb (bool_decide (endpoint_id c ∈ ex_endpoints x)) &&
  negb (bool_decide (proxy_id c ∈ ex_proxies x)) &&
  negb (bool_decide (egress_path_identity c ∈ ex_egress_paths x)).

Definition RETRY_PREFERENCE_LEVELS : nat := 5.

(** [CandidateSelectionState::retry_preference] *)
Definition retry_preference (s : CandidateSelectionState) (c : RouteCandidate) : nat :=
  let t := attempted s in
  if bool_decide (candidate_identity c ∈ attempted_candidates t) then 4
  else
    let new_credential :=
      negb (bool_decide (credential_generation_identity c ∈ attempted_credentials t)) in
    let new_egress := negb (bool_decide (egress_path_identity c ∈ attempted_egress_paths t)) in
    match new_credential, new_egress with
    | true, true => 0
    | true, false => 1
    | false, true => 2
    | false, false => 3
    end.

(** [CandidateSelectionState::note_failed] *)
Definition note_failed (c : RouteCandidate) (s : CandidateSelectionState)
    : CandidateSelectionState := {|
  exclusions := exclusions s;
  attempted := {|
    attempted_candidates := {[candidate_identity c]} ∪ attempted_candidates (attempted s);
    attempted_credentials :=
      {[credential_generation_identity c]} ∪ attempted_credentials (attempted s);
    attempted_egress_paths := {[egress_path_identity c]} ∪ attempted_egress_paths (attempted s) |};
  deferrals := deferrals s
|}.

(** The exclusions of [CandidateSelectionState::exclude] *)
Definition exclude_in (c : RouteCandidate) (scope : CandidateFailureScope) (x : Exclusions)
    : Exclusions :=
  {| ex_candidates := match scope with
       | ExactCandidate => {[candidate_identity c]} ∪ ex_candidates x
       | _ => ex_candidates x end;
     ex_credentials := match scope with
       | ScopeCredential => {[credential_id c]} ∪ ex_credentials x
       | _ => ex_credentials x end;
     ex_credential_models := match scope with
       | ScopeCredentialModel =>
           <[credential_generation_identity c :=
               {[upstream_model c]} ∪
               default ∅ (ex_credential_models x !! credential_generation_identity c)]>
             (ex_credential_models x)
       | _ => ex_credential_models x end;
     ex_route_operations := match scope with
       | ScopeRouteOperation => {[route_operation_identity c]} ∪ ex_route_operations x
       | _ => ex_route_operations x end;
     ex_endpoints := match scope with
       | ScopeEndpoint => {[endpoint_id c]} ∪ ex_endpoints x
       | _ => ex_endpoints x end;
     ex_proxies := match scope with
       | ScopeProxy => {[proxy_id c]} ∪ ex_proxies x
       | _ => ex_proxies x end;
     ex_egress_paths := match scope with
       | ScopeEgressPath => {[egress_path_identity c]} ∪ ex_egress_paths x
       | _ => ex_egress_paths x end |}.

(** [CandidateSelectionState::exclude] *)
Definition exclude (c : RouteCandidate) (scope : CandidateFailureScope)
    (s : CandidateSelectionState) : CandidateSelectionState :=
  {| exclusions := exclude_in c scope (exclusions s); attempted := attempted s;
     deferrals := deferrals s |}.

(** [extend_deadline] *)
Definition extend_deadline `{Countable K} (key : K) (not_before : Instant) (m : gmap K Instant)
    : gmap K Instant :=
  <[key := match m !! key with Some t => Z.max t not_before | None => not_before end]> m.

(** The deferrals of [CandidateSelectionState::defer] *)
Definition defer_in (c : RouteCandidate) (scope : CandidateFailureScope) (t : Instant)
    (d : Deferrals) : Deferrals :=
  {| candidate_not_before := match scope with
       | ExactCandidate => extend_deadline (candidate_identity c) t (candidate_not_before d)
       | _ => candidate_not_before d end;
     credential_not_before := match scope with
       | ScopeCredential =>
           extend_deadline (credential_generation_identity c) t (credential_not_before d)
       | _ => credential_not_before d end;
     credential_model_not_before := match scope with
       | ScopeCredentialModel =>
           <[credential_generation_identity c :=
               extend_deadline (upstream_model c) t
                 (default ∅ (credential_model_not_before d !! credential_generation_identity c))]>
             (credential_model_not_before d)
       | _ => credential_model_not_before d end;
     route_operation_not_before := match scope with
       | ScopeRouteOperation =>
           extend_deadline (route_operation_identity c) t (route_operation_not_before d)
       | _ => route_operation_not_before d end;
     egress_path_not_before := match scope with
       | ScopeEgressPath => extend_deadline (egress_path_identity c) t (egress_path_not_before d)
       | _ => egress_path_not_before d end;
     proxy_not_before := match scope with
       | ScopeProxy => extend_deadline (proxy_id c) t (proxy_not_before d)
       | _ => proxy_not_before d end;
     endpoint_not_before := match scope with
       | ScopeEndpoint => extend_deadline (endpoint_id c) t (endpoint_not_before d)
       | _ => endpoint_not_before d end |}.

(** [CandidateSelectionState::defer] *)
Definition defer (c : RouteCandidate) (scope : CandidateFailureScope) (not_before : Instant)
    (s : CandidateSelectionState) : CandidateSelectionState :=
  {| exclusions := exclusions s; attempted := attempted s;
     deferrals := defer_in c scope not_before (deferrals s) |}.

(** [CandidateSelectionState::deferred_until] *)
Definition deferred_until (s : CandidateSelectionState) (c : RouteCandidate) : option Instant :=
  let d := deferrals s in
  foldr opt_max None
    [candidate_not_before d !! candidate_identity c;
     credential_not_before d !! credential_generation_identity c;
     (credential_model_not_before d !! credential_generation_identity c)
       ≫= (fun models => models !! upstream_model c);
     route_operation_not_before d !! route_operation_identity c;
     egress_path_not_before d !! egress_path_identity c;
     proxy_not_before d !! proxy_id c;
     endpoint_not_before d !! endpoint_id c].

(** * Scopes *)

(** What a failure of candidate [c] in a scope excludes. *)
Definition excluded_with (scope : CandidateFailureScope) (c d : RouteCandidate) : bool :=
  match scope with
  | ExactCandidate => bool_decide (candidate_identity d = candidate_identity c)
  | ScopeCredential => bool_decide (credential_id d = credential_id c)
  | ScopeCredentialModel =>
      bool_decide (credential_generation_identity d = credential_generation_identity c) &&
      bool_decide (upstream_model d = upstream_model c)
  | ScopeRouteOperation => bool_decide (route_operation_identity d = route_operation_identity c)
  | ScopeEgressPath => bool_decide (egress_path_identity d = egress_path_identity c)
  | ScopeProxy => bool_decide (proxy_id d = proxy_id c)
  | ScopeEndpoint => bool_decide (endpoint_id d = endpoint_id c)
  end.

(** What it defers: a credential only in the generation that failed. *)
Definition deferred_with (scope : CandidateFailureScope) (c d : RouteCandidate) : bool :=
  match scope with
  | ScopeCredential =>
      bool_decide (credential_generation_identity d = credential_generation_identity c)
  | _ => excluded_with scope c d
  end.

Lemma bool_decide_union {A} `{Countable A} (x y : A) (X : gset A) :
  bool_decide (x ∈ {[y]} ∪ X) = bool_decide (x = y) || bool_decide (x ∈ X).
Proof.
  destruct (decide (x = y)) as [->|Hne].
  - by rewrite (bool_decide_eq_true_2 (y = y)), bool_decide_eq_true_2 by
      (done || by apply elem_of_union_l, elem_of_singleton).
  - rewrite (bool_decide_eq_false_2 (x = y)) by done. cbn [orb]. apply bool_decide_ext.
    rewrite elem_of_union, elem_of_singleton. tauto.
Qed.

Lemma credential_model_exclude c d x :
  credential_model_excluded (exclude_in c ScopeCredentialModel x) d =
  credential_model_excluded x d || excluded_with ScopeCredentialModel c d.
Proof.
  unfold credential_model_excluded, exclude_in, excluded_with. cbn [ex_credential_models].
  rewrite lookup_insert. case_decide as Hd.
  - rewrite Hd, (bool_decide_eq_true_2 (_ = _)), bool_decide_union by done. cbn [andb].
    destruct (ex_credential_models x !! _); simpl; [apply orb_comm|].
    assert (upstream_model d ∉ (∅ : gset string)) by apply not_elem_of_empty.
    rewrite (bool_decide_eq_false_2 (_ ∈ (∅ : gset string))) by done. by rewrite orb_false_r.
  - rewrite (bool_decide_eq_false_2 (_ = _)) by congruence. by rewrite orb_false_r.
Qed.

Lemma extend_deadline_lookup `{Countable K} (key k : K) t m :
  extend_deadline key t m !! k =
  if bool_decide (k = key) then opt_max (m !! k) (Some t) else m !! k.
Proof.
  unfold extend_deadline. rewrite lookup_insert. case_decide; case_bool_decide; try congruence.
  subst. by destruct (m !! k).
Qed.

Lemma credential_model_defer c d t x :
  (credential_model_not_before (defer_in c ScopeCredentialModel t x)
     !! credential_generation_identity d) ≫= (fun models => models !! upstream_model d) =
  let old := (credential_model_not_before x !! credential_generation_identity d)
               ≫= (fun models => models !! upstream_model d) in
  if excluded_with ScopeCredentialModel c d then opt_max old (Some t) else old.
Proof.
  unfold defer_in, excluded_with. cbn [credential_model_not_before].
  rewrite lookup_insert. case_decide as Hd.
  - rewrite (bool_decide_eq_true_2 (_ = credential_generation_identity c)) by done. cbn [andb].
    simpl. rewrite extend_deadline_lookup, Hd.
    destruct (credential_model_not_before x !! _); simpl; [done|]. by rewrite lookup_empty.
  - rewrite (bool_decide_eq_false_2 (_ = credential_generation_identity c)) by congruence. done.
Qed.

#[global] Instance opt_max_assoc : Assoc (=) opt_max.
Proof. intros [x|] [y|] [z|]; simpl; f_equal; lia. Qed.

#[global] Instance opt_max_comm : Comm (=) opt_max.
Proof. intros [x|] [y|]; simpl; f_equal; lia. Qed.

Lemma opt_max_swap a b c : opt_max (opt_max a b) c = opt_max (opt_max a c) b.
Proof. by rewrite <-!(assoc_L opt_max), (comm_L opt_max b). Qed.

Lemma opt_max_if (b : bool) a t :
  (if b then opt_max a (Some t) else a) = opt_max a (if b then Some t else None).
Proof. destruct b, a; done. Qed.

(** * The selection state as a log of failures *)

Inductive SelectionStep :=
| NoteFailed (c : RouteCandidate)
| Exclude (c : RouteCandidate) (scope : CandidateFailureScope)
| Defer (c : RouteCandidate) (scope : CandidateFailureScope) (not_before : Instant).

Definition selection_step (s : CandidateSelectionState) (step : SelectionStep)
    : CandidateSelectionState :=
  match step with
  | NoteFailed c => note_failed c s
  | Exclude c scope => exclude c scope s
  | Defer c scope t => defer c scope t s
  end.

Definition selection_run (log : list SelectionStep) : CandidateSelectionState :=
  foldl selection_step selection_state_new log.

(** What one step says of candidate [d]. *)
Definition step_excludes (d : RouteCandidate) (step : SelectionStep) : bool :=
  match step with Exclude c scope => excluded_with scope c d | _ => false end.
Definition step_defers (d : RouteCandidate) (step : SelectionStep) : option Instant :=
  match step with
  | Defer c scope t => if deferred_with scope c d then Some t else None
  | _ => None
  end.
Definition step_failed {K} `{EqDecision K} (key : RouteCandidate -> K) (d : RouteCandidate)
    (step : SelectionStep) : bool :=
  match step with NoteFailed c => bool_decide (key d = key c) | _ => false end.

Lemma allows_exclude c scope s d :
  allows (exclude c scope s) d = allows s d && negb (excluded_with scope c d).
Proof.
  destruct scope; unfold allows; cbn [exclude exclusions];
    try rewrite credential_model_exclude; cbn [exclude_in ex_candidates ex_credentials
      ex_route_operations ex_endpoints ex_proxies ex_egress_paths excluded_with];
    rewrite ?bool_decide_union, ?negb_orb;
    unfold credential_model_excluded, exclude_in; cbn [ex_credential_models]; btauto.
Qed.

Lemma deferred_until_defer c scope t s d :
  deferred_until (defer c scope t s) d =
  opt_max (deferred_until s d) (if deferred_with scope c d then Some t else None).
Proof.
  unfold deferred_until. cbn [defer deferrals foldr].
  destruct scope; try rewrite credential_model_defer; cbn [defer_in candidate_not_before
      credential_not_before credential_model_not_before route_operation_not_before
      egress_path_not_before proxy_not_before endpoint_not_before];
    rewrite ?extend_deadline_lookup; cbn [deferred_with excluded_with]; cbv zeta;
    rewrite opt_max_if;
    match goal with |- context [opt_max _ (if ?b then Some t else None)] =>
      generalize (if b then Some t else None) as added end; intros added;
    rewrite !(assoc_L opt_max); by rewrite ?(opt_max_swap _ added).
Qed.

Lemma existsb_snoc {A} (f : A -> bool) l x : existsb f (l ++ [x]) = existsb f l || f x.
Proof. by rewrite existsb_app; cbn [existsb]; rewrite orb_false_r. Qed.

(** The three sets [note_failed] extends. *)
Lemma attempted_run log d :
  let t := attempted (selection_run log) in
  bool_decide (candidate_identity d ∈ attempted_candidates t) =
    existsb (step_failed candidate_identity d) log /\
  bool_decide (credential_generation_identity d ∈ attempted_credentials t) =
    existsb (step_failed credential_generation_identity d) log /\
  bool_decide (egress_path_identity d ∈ attempted_egress_paths t) =
    existsb (step_failed egress_path_identity d) log.
Proof.
  unfold selection_run. cbv zeta. induction log as [|step log IH] using rev_ind.
  { cbn. by rewrite !bool_decide_eq_false_2 by apply not_elem_of_empty. }
  rewrite foldl_snoc, !existsb_snoc.
  destruct IH as (IH1 & IH2 & IH3), step as [c|c scope|c scope t];
    cbn [selection_step note_failed exclude defer attempted attempted_candidates
      attempted_credentials attempted_egress_paths step_failed];
    rewrite ?bool_decide_union, ?IH1, ?IH2, ?IH3; repeat split; btauto.
Qed.

(** C28. What a request remembers of its failures is exactly the log of them:
    a candidate is allowed unless an exclusion of the log covers it in the
    exclusion's scope, it is deferred to the latest deferral of the log that
    covers it, and its retry preference is 4 when it was tried itself,
    otherwise it orders a new credential before a new egress path. *)
Theorem selection_state_refines_log (log : list SelectionStep) (d : RouteCandidate) :
  allows (selection_run log) d = negb (existsb (step_excludes d) log) /\
  deferred_until (selection_run log) d = foldl opt_max None (step_defers d <$> log) /\
  retry_preference (selection_run log) d =
    if existsb (step_failed candidate_identity d) log then 4%nat
    else ((if existsb (step_failed credential_generation_identity d) log then 2 else 0) +
          (if existsb (step_failed egress_path_identity d) log then 1 else 0))%nat.
Proof.
  split_and!.
  - unfold selection_run. induction log as [|step log IH] using rev_ind.
    { done. }
    rewrite foldl_snoc, existsb_snoc, negb_orb.
    destruct step; cbn [selection_step step_excludes]; rewrite <-IH, ?andb_true_r;
      [done|apply allows_exclude|done].
  - unfold selection_run. induction log as [|step log IH] using rev_ind; [done|].
    rewrite foldl_snoc, fmap_app, foldl_app, <-IH.
    destruct step; cbn [fmap list_fmap foldl step_defers];
      [by destruct deferred_until..|apply deferred_until_defer].
  - destruct (attempted_run log d) as (H1 & H2 & H3). unfold retry_preference.
    rewrite H1, H2, H3. by repeat destruct (existsb _ log).
Qed.
