(* ===== verification/TierCursor.v ===== *)
(** The round-robin cursors of route tiers
    ([crates/runtime/src/routing/tier_cursor.rs]).

    A cursor is a shared atomic counter: it lives in a store and is named by
    reference, so that the bindings of an old configuration and those of a new
    one can share it.  A tier is keyed by its route and its fallback tier.  The
    order in which a [HashSet] is iterated is the argument [order]. *)

From S2P Require Import Prelude.

Local Open Scope Z_scope.

(** * Cursors and their registry *)

Abbreviation RouteTierKey := (Z * Z)%type (only parsing).

(** [RouteTierCursorBindings]: the cursors a configuration was given *)
Abbreviation RouteTierCursorBindings := (gmap (Z * Z) nat) (only parsing).

(** [RouteTierCursorRegistry], with the counters of every cursor that exists *)
Record RouteTierCursorRegistry := {
  registered : gmap (Z * Z) nat;
  counters : gmap nat Z
}.

Definition cursor_registry_new : RouteTierCursorRegistry :=
  {| registered := ∅; counters := ∅ |}.

(** [RouteTierCursor::reserve]: [AtomicU64::fetch_add] returns the old value
    and wraps around. *)
Definition reserve (cursor : nat) (counters : gmap nat Z) : outcome (Z * gmap nat Z) :=
  next ← expect (counters !! cursor);
  Ret (next, <[cursor := wrapping_add_u64 next 1]> counters).

(** [RouteTierCursor::advance_by] *)
Definition advance_by (cursor : nat) (skipped : Z) (counters : gmap nat Z)
    : outcome (gmap nat Z) :=
  next ← expect (counters !! cursor);
  Ret (if 0 <? skipped then <[cursor := wrapping_add_u64 next skipped]> counters else counters).

(** [RouteTierCursorBindings::get] *)
Definition cursor_of (route_id tier : Z) (b : RouteTierCursorBindings) : option nat :=
  b !! (route_id, tier).

(** A route of the configuration: its identifier and the tiers of its targets *)
Abbreviation TieredRoute := (Z * list Z)%type (only parsing).

(** The keys that [reconcile] keeps *)
Definition active_keys (routes : list TieredRoute) (runtime_keys : list RouteTierKey)
    : gset RouteTierKey :=
  list_to_set (r ← routes; tier ← r.2; [(r.1, tier)]) ∪ list_to_set runtime_keys.

(** The loop of [reconcile]: the cursor of a key is kept, or made. *)
Definition bind_key (key : RouteTierKey) (st : RouteTierCursorRegistry * RouteTierCursorBindings)
    : RouteTierCursorRegistry * RouteTierCursorBindings :=
  let '(r, bindings) := st in
  match registered r !! key with
  | Some cursor => (r, <[key := cursor]> bindings)
  | None =>
      let cursor := fresh (dom (counters r)) in
      ({| registered := <[key := cursor]> (registered r);
          counters := <[cursor := 0]> (counters r) |}, <[key := cursor]> bindings)
  end.

Section Reconcile.
(** The order in which a set of keys is iterated. *)
Context (order : gset RouteTierKey -> list RouteTierKey).

(** [RouteTierCursorRegistry::reconcile] *)
Definition reconcile (routes : list TieredRoute) (runtime_keys : list RouteTierKey)
    (r : RouteTierCursorRegistry) : RouteTierCursorRegistry * RouteTierCursorBindings :=
  let active := active_keys routes runtime_keys in
  let r := {| registered := filter (fun kv => kv.1 ∈ active) (registered r);
              counters := counters r |} in
  foldl (fun st key => bind_key key st) (r, ∅) (order active).

(** * Lemmas *)

(** The cursors a registry refers to exist and no two tiers share one. *)
Record registry_wf (r : RouteTierCursorRegistry) : Prop := {
  rw_exists : forall k c, registered r !! k = Some c -> c ∈ dom (counters r);
  rw_injective : forall k k' c, registered r !! k = Some c -> registered r !! k' = Some c -> k = k'
}.

Lemma cursor_registry_new_wf : registry_wf cursor_registry_new.
Proof. split; cbn; intros *; by rewrite lookup_empty. Qed.

Lemma reconcile_filter_wf X r :
  registry_wf r ->
  registry_wf {| registered := filter (fun kv => kv.1 ∈ (X : gset RouteTierKey)) (registered r);
                 counters := counters r |}.
Proof.
  intros [He Hi]. split; cbn [registered counters]; intros *; rewrite ?map_lookup_filter_Some.
  - intros [H _]. by eapply He.
  - intros [H _] [H' _]. by eapply Hi.
Qed.

Lemma bind_key_spec key r b r' b' :
  registry_wf r -> bind_key key (r, b) = (r', b') ->
  registry_wf r' /\
  (forall k, k <> key -> registered r' !! k = registered r !! k) /\
  (forall c, registered r !! key = Some c -> registered r' !! key = Some c) /\
  (registered r !! key = None -> exists c, registered r' !! key = Some c /\
     c ∉ dom (counters r) /\ counters r' !! c = Some 0) /\
  (forall c, c ∈ dom (counters r) -> counters r' !! c = counters r !! c) /\
  dom (counters r) ⊆ dom (counters r') /\
  exists c, registered r' !! key = Some c /\ b' = <[key := c]> b.
Proof.
  intros [He Hi] E. unfold bind_key in E. destruct (registered r !! key) as [c|] eqn:Ek.
  - injection E as <- <-. split; [by split|]. repeat split; try done; [|by eauto].
    intros c' [= <-]. done.
  - set (f := fresh (dom (counters r))) in *.
    assert (f ∉ dom (counters r)) as Hf by apply is_fresh.
    injection E as <- <-. cbn [registered counters].
    assert (forall k c, registered r !! k = Some c -> c <> f) as Hne
      by (intros k c Hk ->; by apply Hf, (He k)).
    split; [|split; [by intros; apply lookup_insert_ne; congruence|split; [done|split;
      [intros _; exists f; by rewrite !lookup_insert_eq|split;
      [intros c Hc; apply lookup_insert_ne; congruence|split;
      [rewrite dom_insert; set_solver|exists f; by rewrite lookup_insert_eq]]]]]].
    split; cbn [registered counters]; intros *.
    + rewrite lookup_insert_Some, dom_insert. intros [[<- <-]|[_ H]]; [set_solver|].
      apply He in H. set_solver.
    + rewrite !lookup_insert_Some. intros [[<- <-]|[? H]] [[<- ?]|[? H']]; [done| | |by eapply Hi].
      * by apply Hne in H'.
      * simplify_eq. by apply Hne in H.
Qed.

(** What the whole loop leaves, key by key. *)
Lemma bind_keys_spec keys r b r' b' :
  registry_wf r -> foldl (fun st key => bind_key key st) (r, b) keys = (r', b') ->
  registry_wf r' /\
  (forall k, k ∉ keys -> registered r' !! k = registered r !! k /\ b' !! k = b !! k) /\
  (forall k, k ∈ keys -> exists c, registered r' !! k = Some c /\ b' !! k = Some c /\
     (registered r !! k = Some c \/
      registered r !! k = None /\ c ∉ dom (counters r) /\ counters r' !! c = Some 0)) /\
  (forall c, c ∈ dom (counters r) -> counters r' !! c = counters r !! c) /\
  dom (counters r) ⊆ dom (counters r').
Proof.
  revert r b. induction keys as [|key keys IH]; intros r b Hwf E; cbn [foldl] in E.
  { injection E as <- <-. split; [done|]. repeat split; try done. intros k H. by inversion H. }
  destruct (bind_key key (r, b)) as [r1 b1] eqn:E1.
  apply bind_key_spec in E1 as (Hwf1 & Hother & Hkeep & Hnew & Hc1 & Hd1 & c & Hc & ->); [|done].
  apply IH in E as (Hwf' & Hout & Hin & Hc2 & Hd2); [|done].
  assert (forall d, d ∈ dom (counters r) -> counters r' !! d = counters r !! d) as Hcc.
  { intros d Hd. rewrite Hc2 by set_solver. by apply Hc1. }
  split; [done|]. split; [|split; [|split; [done|set_solver]]].
  - intros k Hk. apply not_elem_of_cons in Hk as [Hne Hk]. apply Hout in Hk as [-> ->].
    rewrite Hother by done. by rewrite lookup_insert_ne by congruence.
  - intros k Hk. destruct (decide (k ∈ keys)) as [Hin'|Hnin].
    + destruct (Hin _ Hin') as (d & H1 & H2 & H3). exists d. split; [done|]. split; [done|].
      destruct (decide (k = key)) as [->|Hne].
      * destruct (registered r !! key) as [c0|] eqn:E0.
        { left. rewrite (Hkeep c0 eq_refl) in H3. by destruct H3 as [H3|[H3 _]]; [|done]. }
        right. destruct (Hnew eq_refl) as (f & Hf & Hff & Hf0). rewrite Hf in H3.
        destruct H3 as [[= ->]|[? _]]; [|done]. split; [done|]. split; [done|].
        rewrite Hc2, Hf0; [done|]. apply elem_of_dom. eauto.
      * rewrite Hother in H3 by done. destruct H3 as [H3|(H3 & H4 & H5)]; [by left|right].
        split; [done|]. split; [set_solver|done].
    + apply elem_of_cons in Hk as [->|?]; [|done]. destruct (Hout _ Hnin) as [-> ->].
      exists c. split; [done|]. split; [apply lookup_insert_eq|].
      destruct (registered r !! key) as [c0|] eqn:E0.
      { left. by rewrite (Hkeep c0 eq_refl) in Hc. }
      right. destruct (Hnew eq_refl) as (f & Hf & Hff & Hf0). rewrite Hf in Hc.
      injection Hc as ->. split; [done|]. split; [done|]. rewrite Hc2, Hf0; [done|].
      apply elem_of_dom. eauto.
Qed.

(** * Properties *)

(** Reconciling the cursors with a configuration binds exactly the tiers the
    configuration or the runtime names.  A tier that had a cursor keeps it with
    its position, a tier that had none starts at zero, no two tiers share a
    cursor, a withdrawn tier loses its own, and no counter that existed is moved,
    so the bindings of the previous configuration go on unchanged. *)
Theorem tier_cursors_reconciled routes runtime_keys r r' b :
  (forall X, order X ≡ₚ elements X) -> registry_wf r ->
  reconcile routes runtime_keys r = (r', b) ->
  let active := active_keys routes runtime_keys in
  registry_wf r' /\ registered r' = b /\ dom b = active /\
  (forall c, c ∈ dom (counters r) -> counters r' !! c = counters r !! c) /\
  (forall k, k ∈ active -> exists c, b !! k = Some c /\
     match registered r !! k with
     | Some c0 => c = c0
     | None => c ∉ dom (counters r) /\ counters r' !! c = Some 0
     end).
Proof.
  intros Hord Hwf E active. unfold reconcile in E. fold active in E.
  apply bind_keys_spec in E as (Hwf' & Hout & Hin & Hc & Hd); [|by apply reconcile_filter_wf].
  cbn [registered counters] in *.
  assert (forall k, k ∈ order active <-> k ∈ active) as Hk
    by (intros k; by rewrite Hord, elem_of_elements).
  assert (forall k, registered r' !! k = b !! k) as Hrb.
  { intros k. destruct (decide (k ∈ active)) as [Hka|Hka].
    - apply Hk, Hin in Hka as (c & -> & -> & _). done.
    - destruct (Hout k) as [-> ->]; [by rewrite Hk|]. rewrite lookup_empty.
      apply map_lookup_filter_None. right. intros c _. done. }
  split; [done|]. split; [by apply map_eq|]. split; [|split; [done|]].
  - apply set_eq. intros k. rewrite elem_of_dom. split.
    + intros [c Hb]. destruct (decide (k ∈ active)) as [|Hka]; [done|].
      destruct (Hout k) as [_ Hb']; [by rewrite Hk|]. by rewrite Hb, lookup_empty in Hb'.
    + intros Hka. apply Hk, Hin in Hka as (c & _ & -> & _). eauto.
  - intros k Hka. pose proof Hka as Hka'. apply Hk, Hin in Hka as (c & _ & Hb & H). exists c.
    split; [done|]. rewrite map_lookup_filter_Some, map_lookup_filter_None in H.
    destruct (registered r !! k) as [c0|]; [|naive_solver].
    destruct H as [[? _]|[[?|H] _]]; [naive_solver|done|]. by destruct (H c0 eq_refl).
Qed.
End Reconcile.

(** * A concrete registry *)

Definition sample_cursors : RouteTierCursorRegistry :=
  {| registered := {[ (1, 0) := 0%nat; (2, 0) := 1%nat ]};
     counters := {[ 0%nat := 7; 1%nat := 3 ]} |}.

Lemma tier_cursors_reconciled_witness :
  exists r' b, reconcile elements [(1, [0; 1])] [] sample_cursors = (r', b) /\
    dom b = active_keys [(1, [0; 1])] [].
Proof.
  destruct (reconcile elements [(1, [0; 1])] [] sample_cursors) as [r' b] eqn:E. exists r', b.
  split; [done|].
  apply (tier_cursors_reconciled elements [(1, [0; 1])] [] sample_cursors r' b); [done| |exact E].
  split; cbn [registered counters sample_cursors]; intros *;
    rewrite !lookup_insert_Some, ?lookup_singleton_Some.
  - intros [[_ <-]|[_ [_ <-]]]; set_solver.
  - intros [[<- <-]|[_ [<- <-]]] [[<- ?]|[_ [<- ?]]]; done.
Defined.
