(* ===== verification/Queue.v ===== *)
(** The queue of requests that wait for a credential
    ([crates/runtime/src/routing/queue.rs]) and the wait state a request keeps
    across its re-plans ([SelectionWaitState] of
    [crates/runtime/src/public_request/selection/selector.rs]).

    The coordinator counts the tickets that exist; a ticket is held by the wait
    state of one request and returned when that state is dropped.  The receiver
    a ticket carries is the watch channel of the scheduler epoch. *)

From S2P Require Import Prelude.

Local Open Scope Z_scope.

(** * Policy *)

Inductive RateLimitAction := Wait | Reject.

Record QueuePolicy := {
  on_rate_limited : RateLimitAction;
  queue_timeout : Duration;
  max_waiting_requests : Z;
  fallback_on_rate_limit : bool
}.

Inductive QueuePolicyError := ZeroQueueTimeout | ZeroMaxWaitingRequests.

(** [QueuePolicy::new] *)
Definition queue_policy_new (on_rate_limited : RateLimitAction) (queue_timeout : Duration)
    (max_waiting_requests : Z) (fallback_on_rate_limit : bool)
    : result QueuePolicy QueuePolicyError :=
  if queue_timeout =? 0 then Err ZeroQueueTimeout
  else if max_waiting_requests =? 0 then Err ZeroMaxWaitingRequests
  else Ok {| on_rate_limited := on_rate_limited; queue_timeout := queue_timeout;
             max_waiting_requests := max_waiting_requests;
             fallback_on_rate_limit := fallback_on_rate_limit |}.

(** [SchedulerSettings] *)
Record SchedulerSettings := {
  set_on_rate_limited : RateLimitAction;
  set_queue_timeout_secs : Z;
  set_max_waiting_requests : Z;
  set_fallback_on_rate_limit : bool
}.

(** [QueuePolicy::from_scheduler_settings] *)
Definition from_scheduler_settings (s : SchedulerSettings) : outcome QueuePolicy :=
  max_waiting ← expect (if set_max_waiting_requests s <=? u32_max
                        then Some (set_max_waiting_requests s) else None);
  match queue_policy_new (set_on_rate_limited s) (secs (set_queue_timeout_secs s)) max_waiting
          (set_fallback_on_rate_limit s) with
  | Ok p => Ret p
  | Err _ => Panic
  end.

(** * The coordinator *)

(** [QueueCoordinator] with its [QueueState] *)
Record QueueCoordinator := { waiting : Z }.

Definition queue_new : QueueCoordinator := {| waiting := 0 |}.

(** [QueueCoordinator::try_ticket]: whether a ticket was handed out.  The
    increment of the [u32] panics on overflow. *)
Definition try_ticket (max_waiting_requests : Z) (q : QueueCoordinator)
    : outcome (bool * QueueCoordinator) :=
  if max_waiting_requests <=? waiting q then Ret (false, q)
  else n ← expect (checked_add u32_max (waiting q) 1); Ret (true, {| waiting := n |}).

(** [QueueTicket::drop] *)
Definition ticket_drop (q : QueueCoordinator) : outcome QueueCoordinator :=
  n ← expect (checked_sub (waiting q) 1); Ret {| waiting := n |}.

(** * The wait state of a request *)

Record SelectionWaitState := {
  queue_deadline : option Instant;
  binding_deadline : option Instant;
  queue_ticket : bool
}.

(** [SelectionWaitState::default] *)
Definition wait_state_new : SelectionWaitState :=
  {| queue_deadline := None; binding_deadline := None; queue_ticket := false |}.

(** [Option::get_or_insert_with] of [Instant::now() + timeout] *)
Definition get_or_start (now : Instant) (timeout : Duration) (o : option Instant)
    : outcome Instant :=
  match o with
  | Some t => Ret t
  | None => expect (instant_checked_add now timeout)
  end.

(** [SelectionWaitState::queue] *)
Definition wait_queue (now : Instant) (timeout : Duration) (w : SelectionWaitState)
    : outcome (Instant * SelectionWaitState) :=
  t ← get_or_start now timeout (queue_deadline w);
  Ret (t, {| queue_deadline := Some t; binding_deadline := binding_deadline w;
             queue_ticket := queue_ticket w |}).

(** [SelectionWaitState::binding] *)
Definition wait_binding (now : Instant) (timeout : Duration) (w : SelectionWaitState)
    : outcome (Instant * SelectionWaitState) :=
  t ← get_or_start now timeout (binding_deadline w);
  Ret (t, {| queue_deadline := queue_deadline w; binding_deadline := Some t;
             queue_ticket := queue_ticket w |}).

(** [SelectionWaitState::queue_changes]: whether the request may wait *)
Definition queue_changes (max_waiting_requests : Z) (w : SelectionWaitState)
    (q : QueueCoordinator) : outcome (bool * SelectionWaitState * QueueCoordinator) :=
  if queue_ticket w then Ret (true, w, q)
  else
    '(got, q) ← try_ticket max_waiting_requests q;
    Ret (got, {| queue_deadline := queue_deadline w; binding_deadline := binding_deadline w;
                 queue_ticket := got |}, q).

(** Dropping the wait state drops the ticket it holds. *)
Definition wait_state_drop (w : SelectionWaitState) (q : QueueCoordinator)
    : outcome QueueCoordinator :=
  if queue_ticket w then ticket_drop q else Ret q.

(** * Requests that share a coordinator *)

Record queue_world := {
  coordinator : QueueCoordinator;
  requests : gmap nat SelectionWaitState
}.

Inductive queue_op :=
| QueueArrive (request : nat)
| QueueEnter (request : nat) (max_waiting_requests : Z)
| QueueClock (request : nat) (now : Instant) (timeout : Duration)
| BindingClock (request : nat) (now : Instant) (timeout : Duration)
| QueueLeave (request : nat).

Definition with_request (id : nat) (w : SelectionWaitState) (s : queue_world) : queue_world :=
  {| coordinator := coordinator s; requests := <[id := w]> (requests s) |}.

(** One operation; on a request that does not exist nothing happens. *)
Definition queue_apply (op : queue_op) (s : queue_world) : outcome queue_world :=
  match op with
  | QueueArrive id =>
      Ret (match requests s !! id with
           | Some _ => s
           | None => with_request id wait_state_new s
           end)
  | QueueEnter id max_waiting =>
      match requests s !! id with
      | Some w => '(_, w, q) ← queue_changes max_waiting w (coordinator s);
                  Ret {| coordinator := q; requests := <[id := w]> (requests s) |}
      | None => Ret s
      end
  | QueueClock id now timeout =>
      match requests s !! id with
      | Some w => '(_, w) ← wait_queue now timeout w; Ret (with_request id w s)
      | None => Ret s
      end
  | BindingClock id now timeout =>
      match requests s !! id with
      | Some w => '(_, w) ← wait_binding now timeout w; Ret (with_request id w s)
      | None => Ret s
      end
  | QueueLeave id =>
      match requests s !! id with
      | Some w => q ← wait_state_drop w (coordinator s);
                  Ret {| coordinator := q; requests := delete id (requests s) |}
      | None => Ret s
      end
  end.

Fixpoint queue_run (ops : list queue_op) (s : queue_world) : outcome queue_world :=
  match ops with
  | [] => Ret s
  | op :: ops => s ← queue_apply op s; queue_run ops s
  end.

Definition queue_world_new : queue_world := {| coordinator := queue_new; requests := ∅ |}.

(** The requests that hold a ticket. *)
Definition tickets (m : gmap nat SelectionWaitState) : Z :=
  Z.of_nat (size (filter (fun kv => queue_ticket kv.2 = true) m)).

(** The limits are [u32]s of at most [M], and the deadlines fit the clock. *)
Definition queue_op_ok (M : Z) (op : queue_op) : Prop :=
  match op with
  | QueueEnter _ m => 0 <= m <= M
  | QueueClock _ now timeout | BindingClock _ now timeout => now + timeout <= instant_max
  | _ => True
  end.

(** * Lemmas *)

Definition ticket_count (w : SelectionWaitState) : Z := if queue_ticket w then 1 else 0.

Definition ticket_at (m : gmap nat SelectionWaitState) (id : nat) : Z :=
  match m !! id with Some w => ticket_count w | None => 0 end.

Lemma tickets_delete m id : tickets (delete id m) = tickets m - ticket_at m id.
Proof.
  unfold tickets, ticket_at. rewrite map_filter_delete. destruct (m !! id) as [w|] eqn:E.
  - unfold ticket_count. destruct (queue_ticket w) eqn:Ew.
    + rewrite map_size_delete_Some by (exists w; by apply map_lookup_filter_Some).
      assert (size (filter (fun kv => queue_ticket kv.2 = true) m) <> 0%nat); [|lia].
      intros H. apply map_size_empty_inv in H.
      assert (filter (fun kv => queue_ticket kv.2 = true) m !! id = Some w) as H'
        by by apply map_lookup_filter_Some.
      by rewrite H, lookup_empty in H'.
    + rewrite delete_id; [lia|]. apply map_lookup_filter_None. right. intros w' ?. simpl. congruence.
  - rewrite delete_id; [lia|]. apply map_lookup_filter_None. by left.
Qed.

Lemma tickets_insert m id w : tickets (<[id := w]> m) = tickets m - ticket_at m id + ticket_count w.
Proof.
  rewrite <- tickets_delete. rewrite <- insert_delete_eq.
  assert (delete id m !! id = None) as Hd by apply lookup_delete_eq.
  generalize dependent (delete id m). intros m' Hd. unfold tickets, ticket_count.
  rewrite map_filter_insert. simpl. destruct (queue_ticket w) eqn:Ew.
  - rewrite decide_True by done. rewrite map_size_insert_None; [lia|].
    apply map_lookup_filter_None. by left.
  - rewrite decide_False by done. rewrite delete_id; [lia|done].
Qed.

Lemma tickets_bounds m id : 0 <= ticket_at m id <= tickets m.
Proof.
  split; [unfold ticket_at, ticket_count; by repeat case_match|].
  pose proof (tickets_delete m id) as H. unfold tickets at 1 in H. lia.
Qed.

Definition queue_inv (M : Z) (s : queue_world) : Prop :=
  waiting (coordinator s) = tickets (requests s) /\ tickets (requests s) <= M.

(** A request already there keeps its deadlines and its ticket unless it leaves. *)
Definition keeps (o o' : option Instant) : Prop := forall t, o = Some t -> o' = Some t.

Definition request_kept (s s' : queue_world) (id : nat) : Prop :=
  forall w, requests s !! id = Some w -> exists w', requests s' !! id = Some w' /\
    keeps (queue_deadline w) (queue_deadline w') /\
    keeps (binding_deadline w) (binding_deadline w') /\
    (queue_ticket w = true -> queue_ticket w' = true).

Lemma keeps_refl o : keeps o o.
Proof. by intros ? ->. Qed.

Lemma request_kept_refl s id : request_kept s s id.
Proof. intros w Hw. exists w. eauto using keeps_refl. Qed.

Lemma request_kept_trans s1 s2 s3 id :
  request_kept s1 s2 id -> request_kept s2 s3 id -> request_kept s1 s3 id.
Proof.
  intros H1 H2 w Hw. apply H1 in Hw as (w2 & Hw2 & Hq & Hb & Ht).
  apply H2 in Hw2 as (w3 & Hw3 & Hq' & Hb' & Ht'). exists w3. split; [done|].
  unfold keeps in *. eauto 10.
Qed.

Lemma request_kept_update s id w w' q i :
  requests s !! id = Some w ->
  keeps (queue_deadline w) (queue_deadline w') -> keeps (binding_deadline w) (binding_deadline w') ->
  (queue_ticket w = true -> queue_ticket w' = true) ->
  request_kept s {| coordinator := q; requests := <[id := w']> (requests s) |} i.
Proof.
  intros Hw Hq Hb Ht v Hv. cbn [requests]. destruct (decide (i = id)) as [->|Hne].
  - rewrite lookup_insert_eq. simplify_eq. eauto 10.
  - rewrite lookup_insert_ne by done. exists v. eauto 10 using keeps_refl.
Qed.

(** The deadline is the one already started, or starts now. *)
Lemma get_or_start_total now timeout o :
  now + timeout <= instant_max ->
  exists t, get_or_start now timeout o = Ret t /\ keeps o (Some t) /\
    (o = None -> t = now + timeout).
Proof.
  intros H. unfold get_or_start, instant_checked_add, checked_add, keeps.
  destruct o as [t|]; [exists t; naive_solver|]. rewrite (proj2 (Z.leb_le _ _)) by done.
  eexists. naive_solver.
Qed.

#[local] Hint Resolve keeps_refl request_kept_refl : core.

Lemma queue_clock_step M s id w w' :
  queue_inv M s -> requests s !! id = Some w ->
  keeps (queue_deadline w) (queue_deadline w') -> keeps (binding_deadline w) (binding_deadline w') ->
  queue_ticket w' = queue_ticket w ->
  queue_inv M (with_request id w' s) /\ forall i, request_kept s (with_request id w' s) i.
Proof.
  intros [H1 H2] Hw Hq Hb Ht. split.
  - unfold queue_inv, with_request, ticket_count. cbn [coordinator requests].
    rewrite tickets_insert. unfold ticket_at, ticket_count. rewrite Hw, Ht. lia.
  - intros i. unfold with_request. eapply request_kept_update; eauto; by rewrite Ht.
Qed.

Lemma queue_enter_step M s id w m :
  M <= u32_max -> queue_inv M s -> requests s !! id = Some w -> 0 <= m <= M ->
  exists got w' q, queue_changes m w (coordinator s) = Ret (got, w', q) /\
    got = queue_ticket w' /\ (got = false <-> queue_ticket w = false /\ m <= waiting (coordinator s)) /\
    queue_inv M {| coordinator := q; requests := <[id := w']> (requests s) |} /\
    forall i, request_kept s {| coordinator := q; requests := <[id := w']> (requests s) |} i.
Proof.
  intros HM [H1 H2] Hw Hm. unfold queue_changes, queue_inv. cbn [coordinator requests].
  destruct (queue_ticket w) eqn:Et.
  - exists true, w, (coordinator s). split; [done|]. split; [done|]. split; [naive_solver|].
    split; [|intros i; by eapply request_kept_update].
    rewrite tickets_insert. unfold ticket_at, ticket_count. rewrite Hw. lia.
  - unfold try_ticket, checked_add. pose proof (tickets_insert (requests s) id) as Hi.
    unfold ticket_at in Hi. rewrite Hw in Hi. unfold ticket_count in Hi. rewrite Et in Hi.
    destruct (m <=? waiting (coordinator s)) eqn:Em; bool_to_prop.
    + cbn [mbind outcome_bind]. do 3 eexists. split; [done|]. split; [done|].
      split; [naive_solver|]. rewrite Hi. cbn [queue_ticket]. split; [lia|].
      intros i. eapply request_kept_update; eauto; congruence.
    + rewrite (proj2 (Z.leb_le _ _)) by lia. cbn [expect mbind outcome_bind].
      do 3 eexists. split; [done|]. split; [done|]. split; [naive_solver lia|].
      rewrite Hi. cbn [queue_ticket waiting]. split; [lia|].
      intros i. by eapply request_kept_update; eauto.
Qed.

Lemma queue_apply_step M op s :
  M <= u32_max -> queue_inv M s -> queue_op_ok M op ->
  exists s', queue_apply op s = Ret s' /\ queue_inv M s' /\
    forall id, op <> QueueLeave id -> request_kept s s' id.
Proof.
  intros HM Hinv Hop. destruct op as [id|id m|id now timeout|id now timeout|id]; cbn [queue_apply queue_op_ok] in *.
  - destruct (requests s !! id) as [w|] eqn:Ew; [by exists s|]. eexists. split; [done|].
    destruct Hinv as [H1 H2]. split.
    + unfold queue_inv, with_request. cbn [coordinator requests]. rewrite tickets_insert.
      unfold ticket_at. rewrite Ew. cbn. lia.
    + intros i _ w Hw. exists w. split; [|eauto]. cbn [requests with_request].
      rewrite lookup_insert_ne by congruence. done.
  - destruct (requests s !! id) as [w|] eqn:Ew; [|by exists s].
    destruct (queue_enter_step M s id w m) as (got & w' & q & -> & _ & _ & Hi & Hk); try done.
    cbn [mbind outcome_bind]. eauto.
  - destruct (requests s !! id) as [w|] eqn:Ew; [|by exists s]. unfold wait_queue.
    destruct (get_or_start_total now timeout (queue_deadline w)) as (t & -> & Hk & _); [done|].
    cbn [mbind outcome_bind]. eexists. split; [done|].
    destruct (queue_clock_step M s id w
      {| queue_deadline := Some t; binding_deadline := binding_deadline w;
         queue_ticket := queue_ticket w |}) as [Hi Hk']; eauto.
  - destruct (requests s !! id) as [w|] eqn:Ew; [|by exists s]. unfold wait_binding.
    destruct (get_or_start_total now timeout (binding_deadline w)) as (t & -> & Hk & _); [done|].
    cbn [mbind outcome_bind]. eexists. split; [done|].
    destruct (queue_clock_step M s id w
      {| queue_deadline := queue_deadline w; binding_deadline := Some t;
         queue_ticket := queue_ticket w |}) as [Hi Hk']; eauto.
  - destruct (requests s !! id) as [w|] eqn:Ew; [|by exists s]. destruct Hinv as [H1 H2].
    unfold wait_state_drop, ticket_drop, checked_sub. pose proof (tickets_bounds (requests s) id) as Hb.
    pose proof (tickets_delete (requests s) id) as Hd.
    unfold ticket_at in *. rewrite Ew in *. unfold ticket_count in *.
    destruct (queue_ticket w).
    + rewrite (proj2 (Z.leb_le _ _)) by lia. cbn [expect mbind outcome_bind]. eexists.
      split; [done|]. split; [unfold queue_inv; cbn [coordinator requests waiting]; lia|].
      intros i Hi v Hv. exists v. split; [|eauto]. cbn [requests].
      rewrite lookup_delete_ne; [done|congruence].
    + cbn [mbind outcome_bind]. eexists.
      split; [done|]. split; [unfold queue_inv; cbn [coordinator requests waiting]; lia|].
      intros i Hi v Hv. exists v. split; [|eauto]. cbn [requests].
      rewrite lookup_delete_ne; [done|congruence].
Qed.

Lemma queue_run_steps M ops s :
  M <= u32_max -> queue_inv M s -> Forall (queue_op_ok M) ops ->
  exists s', queue_run ops s = Ret s' /\ queue_inv M s' /\
    forall id, QueueLeave id ∉ ops -> request_kept s s' id.
Proof.
  intros HM. revert s. induction ops as [|op ops IH]; intros s Hinv Hops; cbn [queue_run].
  { exists s. eauto. }
  apply Forall_cons in Hops as [Hop Hops].
  destruct (queue_apply_step M op s HM Hinv Hop) as (s1 & -> & Hinv1 & Hk1).
  destruct (IH s1 Hinv1 Hops) as (s2 & E2 & Hinv2 & Hk2). exists s2. split; [done|].
  split; [done|]. intros id Hid. apply not_elem_of_cons in Hid as [Hne Hid].
  eapply request_kept_trans; [apply Hk1|apply Hk2]; congruence.
Qed.

(** * Properties *)

(** C9. Whatever requests arrive, wait, re-plan and leave, no operation of the
    queue panics, the number of waiting requests is exactly the number of
    requests that hold a ticket and never exceeds the largest limit in force,
    and a request that does not leave keeps its ticket and both of its
    deadlines however often it asks again. *)
Theorem queue_bounded_and_stable M before after id :
  M <= u32_max -> 0 <= M -> Forall (queue_op_ok M) before -> Forall (queue_op_ok M) after ->
  QueueLeave id ∉ after ->
  exists s s', queue_run before queue_world_new = Ret s /\ queue_run after s = Ret s' /\
    waiting (coordinator s') = tickets (requests s') /\ tickets (requests s') <= M /\
    request_kept s s' id.
Proof.
  intros HM HM0 Hb Ha Hid.
  destruct (queue_run_steps M before queue_world_new HM) as (s & Es & Hs & _); [by split|done|].
  destruct (queue_run_steps M after s HM Hs Ha) as (s' & Es' & [H1 H2] & Hk).
  exists s, s'. eauto 10.
Qed.

(** * A concrete queue *)

Definition sample_queue_ops : list queue_op :=
  [QueueArrive 1; QueueArrive 2; QueueEnter 1 1; QueueClock 1 0 (secs 5); QueueEnter 2 1].

Lemma queue_bounded_and_stable_witness :
  exists s s', queue_run sample_queue_ops queue_world_new = Ret s /\
    queue_run [QueueEnter 1 1; QueueClock 1 (secs 3) (secs 5); QueueLeave 2] s = Ret s' /\
    waiting (coordinator s') = tickets (requests s') /\ tickets (requests s') <= 1 /\
    request_kept s s' 1.
Proof.
  apply (queue_bounded_and_stable 1); [done|done| | |].
  - unfold sample_queue_ops. repeat constructor; vm_compute; congruence.
  - repeat constructor; vm_compute; congruence.
  - rewrite !elem_of_cons, elem_of_nil. intuition congruence.
Defined.
