(* ===== verification/RouteHealth.v ===== *)
(** A route candidate with the runtimes it uses
    ([RouteCandidate] of [crates/runtime/src/routing/candidates/route.rs], its
    [health_availability], [acquire_health] and
    [acquire_health_with_rpm_reservation]), the reservations of its binding
    ([crates/runtime/src/credential/runtime/binding.rs]) and the recorder of the
    filters of a request
    ([crates/runtime/src/public_request/selection/filter_recorder.rs]).

    The runtimes are shared: candidates name them by reference and they live in
    one store, so two candidates, or two roles of one candidate, may refer to
    the same runtime.  Every reading of the clock is one more value of [clock].
    The operations of one request run in sequence on the store; the requests
    that run between them are not modelled here. *)

From S2P Require Import Prelude Protocol Epoch RateWindow Circuit Upstream Health Attempt Admission.
From S2P Require Import CredentialRuntime Candidates.

Local Open Scope Z_scope.

(** * The store *)

#[export] Instance filter_kind_countable : Countable CredentialFilterKind.
Proof.
  apply (inj_countable
    (fun k => match k with
              | FilterRateLimit => 0 | FilterCredentialHealth => 1 | FilterEndpointHealth => 2
              | FilterProxyHealth => 3 | FilterEgressPathHealth => 4 | FilterCandidateHealth => 5
              end%nat)
    (fun n => [FilterRateLimit; FilterCredentialHealth; FilterEndpointHealth; FilterProxyHealth;
               FilterEgressPathHealth; FilterCandidateHealth] !! n)).
  by intros [].
Defined.

(** [CredentialRuntimeBinding]: references to its handle, to the health of its
    generation and to its admission, and its limit *)
Record CredentialRuntimeBinding := {
  handle : nat;
  generation : nat;
  requests_per_minute : option Z;
  binding_admission : option nat
}.

(** [RouteCandidate]: what identifies it, and its runtimes *)
Record RoutedCandidate := {
  route : RouteCandidate;
  endpoint_health : option nat;
  proxy_health : option nat;
  egress_path_health : nat;
  candidate_path_health : nat;
  binding : CredentialRuntimeBinding;
  candidate_admission : nat
}.

(** The runtimes of the process that a selection touches: health, credential
    handles with their balancing counters, the admissions that are active, the
    filters the request already recorded and the cursors of the route tiers. *)
Record RoutingStore := {
  runtimes : HealthStore;
  credentials : gmap nat (CredentialRuntimeHandle * CredentialBalancingMetrics);
  active_routes : gset nat;
  seen : gset ((Z + Z) * CredentialFilterKind);
  cursors : gmap nat Z;
  ticks : nat
}.

(** [CandidateHealthError] *)
Record CandidateHealthError := {
  error_kind : CredentialFilterKind;
  error_source : HealthAcquireError
}.

Definition with_runtimes (h : HealthStore) (s : RoutingStore) : RoutingStore :=
  {| runtimes := h; credentials := credentials s; active_routes := active_routes s;
     seen := seen s; cursors := cursors s; ticks := ticks s |}.
Definition tick (s : RoutingStore) : RoutingStore :=
  {| runtimes := runtimes s; credentials := credentials s; active_routes := active_routes s;
     seen := seen s; cursors := cursors s; ticks := S (ticks s) |}.
Definition with_credentials (m : gmap nat (CredentialRuntimeHandle * CredentialBalancingMetrics))
    (s : RoutingStore) : RoutingStore :=
  {| runtimes := runtimes s; credentials := m; active_routes := active_routes s;
     seen := seen s; cursors := cursors s; ticks := ticks s |}.
Definition with_endpoints (m : gmap nat EndpointHealthRuntime) (h : HealthStore) : HealthStore :=
  {| endpoints := m; proxies := proxies h; authentications := authentications h;
     routings := routings h; epoch := epoch h |}.
Definition with_proxies (m : gmap nat CircuitRuntime) (h : HealthStore) : HealthStore :=
  {| endpoints := endpoints h; proxies := m; authentications := authentications h;
     routings := routings h; epoch := epoch h |}.
Definition with_epoch (e : SchedulerEpoch) (h : HealthStore) : HealthStore :=
  {| endpoints := endpoints h; proxies := proxies h; authentications := authentications h;
     routings := routings h; epoch := e |}.

(** * Operations on the store *)

(** Code that runs on the store and may panic. *)
Definition R (A : Type) : Type := RoutingStore -> outcome (A * RoutingStore).

#[global] Instance R_ret : MRet R := fun A a s => Ret (a, s).
#[global] Instance R_bind : MBind R := fun A B f m s =>
  match m s with Ret (a, s') => f a s' | Panic => Panic end.

(** A step that reads and writes the store *)
Definition on_store {A} (f : RoutingStore -> outcome (A * RoutingStore)) : R A := f.

(** An operation on the health of the process *)
Definition on_health (f : HealthStore -> outcome HealthStore) : R unit := fun s =>
  h ← f (runtimes s); Ret (tt, with_runtimes h s).

Definition blame {A} (kind : CredentialFilterKind) (r : result A HealthAcquireError)
    : result A CandidateHealthError :=
  map_err (fun e => {| error_kind := kind; error_source := e |}) r.

Section Clock.
(** The readings of the clock, in order. *)
Context (clock : nat -> Instant).

Definition read_clock : R Instant := fun s => Ret (clock (ticks s), tick s).

(** [CredentialHealthRuntime::availability] of a generation *)
Definition check_credential (id : nat) (model : string) : R (result unit HealthAcquireError) :=
  now ← read_clock;
  on_store (fun s =>
    '(auth, rt) ← expect (authentications (runtimes s) !! id);
    r ← expect (routings (runtimes s) !! rt);
    '(res, h, e) ← credential_availability now model {| auth_error := auth; routing := r |}
                     (epoch (runtimes s));
    Ret (res, with_runtimes {| endpoints := endpoints (runtimes s);
                               proxies := proxies (runtimes s);
                               authentications :=
                                 <[id := (auth_error h, rt)]> (authentications (runtimes s));
                               routings := <[rt := routing h]> (routings (runtimes s));
                               epoch := e |} s)).

(** [EndpointHealthRuntime::availability] and [try_acquire] of a runtime *)
Definition check_endpoint (pol : ReliabilityPolicy) (id : nat) : R (result unit HealthAcquireError) :=
  now ← read_clock;
  circuit_now ← read_clock;
  on_store (fun s =>
    h ← expect (endpoints (runtimes s) !! id);
    Ret (endpoint_availability now circuit_now pol h, s)).

Definition take_endpoint_permit (pol : ReliabilityPolicy) (id : nat)
    : R (result held_permit HealthAcquireError) :=
  now ← read_clock;
  circuit_now ← read_clock;
  on_store (fun s =>
    h ← expect (endpoints (runtimes s) !! id);
    '(r, h) ← endpoint_try_acquire now circuit_now pol h;
    Ret (match r with
         | Ok p => Ok {| held_runtime := id; held := p |}
         | Err e => Err e
         end,
         with_runtimes (with_endpoints (<[id := h]> (endpoints (runtimes s))) (runtimes s)) s)).

(** [ProxyHealthRuntime::availability] and [try_acquire] of a runtime *)
Definition check_proxy (pol : ReliabilityPolicy) (id : nat) : R (result unit HealthAcquireError) :=
  now ← read_clock;
  on_store (fun s =>
    c ← expect (proxies (runtimes s) !! id);
    Ret (proxy_availability now pol c, s)).

Definition take_proxy_permit (pol : ReliabilityPolicy) (id : nat)
    : R (result held_permit HealthAcquireError) :=
  now ← read_clock;
  on_store (fun s =>
    c ← expect (proxies (runtimes s) !! id);
    '(r, c) ← proxy_try_acquire now pol c;
    Ret (match r with
         | Ok p => Ok {| held_runtime := id; held := p |}
         | Err e => Err e
         end,
         with_runtimes (with_proxies (<[id := c]> (proxies (runtimes s))) (runtimes s)) s)).

(** An optional runtime: [Option::map] of an operation on it *)
Definition if_some {A} (f : nat -> R (result A HealthAcquireError)) (o : option nat)
    : R (result (option A) HealthAcquireError) :=
  match o with
  | Some id => r ← f id; mret (match r with Ok a => Ok (Some a) | Err e => Err e end)
  | None => mret (Ok None)
  end.

(** [RouteCandidate::health_availability] *)
Definition health_availability (pol : ReliabilityPolicy) (c : RoutedCandidate)
    : R (result unit CandidateHealthError) :=
  r ← check_credential (generation (binding c)) (upstream_model (route c));
  match blame FilterCredentialHealth r with
  | Err e => mret (Err e)
  | Ok _ =>
  r ← if_some (check_endpoint pol) (endpoint_health c);
  match blame FilterEndpointHealth r with
  | Err e => mret (Err e)
  | Ok _ =>
  r ← if_some (check_proxy pol) (proxy_health c);
  match blame FilterProxyHealth r with
  | Err e => mret (Err e)
  | Ok _ =>
  r ← check_endpoint pol (egress_path_health c);
  match blame FilterEgressPathHealth r with
  | Err e => mret (Err e)
  | Ok _ =>
  r ← check_endpoint pol (candidate_path_health c);
  mret (blame FilterCandidateHealth r)
  end end end end.

(** Dropping a permit that was not settled *)
Definition drop_endpoint_permit (pol : ReliabilityPolicy) (o : option held_permit) : R unit :=
  on_health (settle_endpoint SettleNeutral 0 0 pol o).
Definition drop_proxy_permit (pol : ReliabilityPolicy) (o : option held_permit) : R unit :=
  on_health (settle_proxy SettleNeutral 0 pol o).

(** The paths of [RouteCandidate::acquire_health], once the permits of the
    endpoint and of the proxy are held *)
Definition acquire_paths (pol : ReliabilityPolicy) (c : RoutedCandidate)
    (endpoint proxy : option held_permit) : R (result AttemptHealth CandidateHealthError) :=
  r ← take_endpoint_permit pol (egress_path_health c);
  match blame FilterEgressPathHealth r with
  | Err e =>
      _ ← drop_endpoint_permit pol endpoint;
      _ ← drop_proxy_permit pol proxy;
      mret (Err e)
  | Ok egress_path =>
  r ← take_endpoint_permit pol (candidate_path_health c);
  match blame FilterCandidateHealth r with
  | Err e =>
      _ ← drop_endpoint_permit pol endpoint;
      _ ← drop_proxy_permit pol proxy;
      _ ← drop_endpoint_permit pol (Some egress_path);
      mret (Err e)
  | Ok candidate_path =>
      now ← read_clock;
      mret (Ok {| credential := generation (binding c); model := upstream_model (route c);
                  endpoint := endpoint; proxy := proxy; egress_path := Some egress_path;
                  candidate_path := Some candidate_path; policy := pol;
                  attempt_started_at := now |})
  end end.

(** [RouteCandidate::acquire_health] *)
Definition acquire_health (pol : ReliabilityPolicy) (c : RoutedCandidate)
    : R (result AttemptHealth CandidateHealthError) :=
  r ← check_credential (generation (binding c)) (upstream_model (route c));
  match blame FilterCredentialHealth r with
  | Err e => mret (Err e)
  | Ok _ =>
  r ← if_some (take_endpoint_permit pol) (endpoint_health c);
  match blame FilterEndpointHealth r with
  | Err e => mret (Err e)
  | Ok endpoint =>
  r ← if_some (take_proxy_permit pol) (proxy_health c);
  match blame FilterProxyHealth r with
  | Err e =>
      _ ← drop_endpoint_permit pol endpoint;
      mret (Err e)
  | Ok proxy => acquire_paths pol c endpoint proxy
  end end end.

(** [CredentialRuntimeBinding::try_reserve] and [try_reserve_fixed] *)
Definition binding_try_reserve (fixed : bool) (b : CredentialRuntimeBinding)
    : R (result RoutingPermit RateWindow.RateLimited) :=
  now ← read_clock;
  on_store (fun s =>
    '(h, m) ← expect (credentials s !! handle b);
    '(r, h) ← handle_try_reserve now (requests_per_minute b) fixed (binding_admission b) h;
    Ret (r, with_credentials (<[handle b := (h, m)]> (credentials s)) s)).

(** [RoutingPermit::rollback_before_attempt] *)
Definition permit_rollback (b : CredentialRuntimeBinding) (p : RoutingPermit) : R unit := fun s =>
  '(h, m) ← expect (credentials s !! handle b);
  '(h, e) ← handle_rollback (rate_reservation p) h (epoch (runtimes s));
  Ret (tt, with_runtimes (with_epoch e (runtimes s))
             (with_credentials (<[handle b := (h, m)]> (credentials s)) s)).

(** [RouteCandidate::acquire_health_with_rpm_reservation] *)
Definition acquire_health_with_rpm_reservation (pol : ReliabilityPolicy) (c : RoutedCandidate)
    (p : RoutingPermit) : R (result (RoutingPermit * AttemptHealth) CandidateHealthError) :=
  r ← acquire_health pol c;
  match r with
  | Ok health => mret (Ok (p, health))
  | Err e => _ ← permit_rollback (binding c) p; mret (Err e)
  end.

(** [RouteCandidate::admission_active] *)
Definition admission_active (s : RoutingStore) (c : RoutedCandidate) : bool :=
  bool_decide (candidate_admission c ∈ active_routes s).

(** [RouteCandidate::record_selection] *)
Definition note_selection (c : RoutedCandidate) : R unit := fun s =>
  '(h, m) ← expect (credentials s !! handle (binding c));
  Ret (tt, with_credentials (<[handle (binding c) := (h, record_selection m)]> (credentials s)) s).

(** [RequestFilterRecorder::record] with [RouteCandidate::record_filter] *)
Definition filter_record (c : RoutedCandidate) (kind : CredentialFilterKind) : R unit := fun s =>
  let key := (credential_id (route c), kind) in
  if bool_decide (key ∈ seen s) then Ret (tt, s)
  else
    '(h, m) ← expect (credentials s !! handle (binding c));
    Ret (tt, {| runtimes := runtimes s;
                credentials := <[handle (binding c) := (h, record_filter kind m)]> (credentials s);
                active_routes := active_routes s; seen := {[key]} ∪ seen s;
                cursors := cursors s; ticks := ticks s |}).

(** * Reasoning about code on the store *)

(** [m] returns, with a result and a store that satisfy [Q]. *)
Definition wp {A} (m : R A) (Q : A -> RoutingStore -> Prop) (s : RoutingStore) : Prop :=
  match m s with Ret (a, s') => Q a s' | Panic => False end.

Lemma wp_seq {A B} (m : R A) (k : A -> R B) Q s :
  wp m (fun a s' => wp (k a) Q s') s -> wp (m ≫= k) Q s.
Proof. unfold wp, mbind, R_bind. by destruct (m s) as [[a s']|]. Qed.

Lemma wp_weaken {A} (m : R A) (Q Q' : A -> RoutingStore -> Prop) s :
  wp m Q s -> (forall a s', Q a s' -> Q' a s') -> wp m Q' s.
Proof. unfold wp. destruct (m s) as [[a s']|]; eauto. Qed.

Lemma wp_then {A B} (m : R A) (k : A -> R B) (P : A -> RoutingStore -> Prop) Q s :
  wp m P s -> (forall a s', P a s' -> wp (k a) Q s') -> wp (m ≫= k) Q s.
Proof. intros H1 H2. apply wp_seq. eapply wp_weaken; [exact H1|exact H2]. Qed.

Lemma wp_ret {A} (a : A) (Q : A -> RoutingStore -> Prop) s : Q a s -> wp (mret a) Q s.
Proof. done. Qed.

Lemma wp_elim {A} (m : R A) Q s : wp m Q s -> exists a s', m s = Ret (a, s') /\ Q a s'.
Proof. unfold wp. destruct (m s) as [[a s']|]; [by eauto|done]. Qed.

(** * Probes held *)

Definition add_probes (d : Z) (c : CircuitRuntime) : CircuitRuntime :=
  {| failure_times := failure_times c; open_until := open_until c;
     half_open_in_flight := half_open_in_flight c + d;
     last_failure_at := last_failure_at c; wake := wake c |}.

Definition probe_of (p : held_permit) : Z := if half_open (held p) then 1 else 0.

(** The runtimes once one more permit is held. *)
Definition hold_endpoint (p : held_permit) (m : gmap nat EndpointHealthRuntime)
    : gmap nat EndpointHealthRuntime :=
  alter (fun h => with_circuit (add_probes (probe_of p) (endpoint_circuit h)) h) (held_runtime p) m.
Definition hold_proxy (p : held_permit) (m : gmap nat CircuitRuntime) : gmap nat CircuitRuntime :=
  alter (add_probes (probe_of p)) (held_runtime p) m.

Lemma alter_as_insert {A} (f : A -> A) i (m : gmap nat A) x :
  m !! i = Some x -> alter f i m = <[i := f x]> m.
Proof.
  intros Hx. apply map_eq. intros j. destruct (decide (j = i)) as [->|Hne].
  - by rewrite lookup_alter_eq, lookup_insert_eq, Hx.
  - by rewrite lookup_alter_ne, lookup_insert_ne.
Qed.

Lemma alter_swap {A} (f g : A -> A) i j (m : gmap nat A) :
  (forall x, f (g x) = g (f x)) -> alter f i (alter g j m) = alter g j (alter f i m).
Proof.
  intros Hfg. apply map_eq. intros k. destruct (decide (i = j)) as [->|Hne].
  - destruct (decide (k = j)) as [->|Hk]; [|by rewrite !lookup_alter_ne].
    rewrite !lookup_alter_eq. destruct (m !! j); simpl; [by rewrite Hfg|done].
  - destruct (decide (i = k)) as [<-|Hk]; [|destruct (decide (j = k)) as [<-|Hk']].
    + by rewrite lookup_alter_eq, !(lookup_alter_ne _ _ j), lookup_alter_eq by congruence.
    + by rewrite lookup_alter_eq, !(lookup_alter_ne _ _ i), lookup_alter_eq by congruence.
    + by rewrite !lookup_alter_ne by congruence.
Qed.

Lemma add_probes_swap d d' c : add_probes d (add_probes d' c) = add_probes d' (add_probes d c).
Proof. unfold add_probes. simpl. f_equal. lia. Qed.

Lemma hold_endpoint_swap p q m :
  hold_endpoint p (hold_endpoint q m) = hold_endpoint q (hold_endpoint p m).
Proof.
  apply alter_swap. intros h. unfold with_circuit. simpl. by rewrite add_probes_swap.
Qed.

Lemma hold_proxy_swap p q m : hold_proxy p (hold_proxy q m) = hold_proxy q (hold_proxy p m).
Proof. apply alter_swap. intros c. apply add_probes_swap. Qed.

Lemma return_add_probe p c :
  0 <= half_open_in_flight c ->
  return_probe (half_open (held p)) (add_probes (probe_of p) c) = c.
Proof.
  intros H. unfold return_probe, add_probes, probe_of, saturating_sub.
  destruct c as [? ? n ? ?]. simpl in *. destruct (half_open (held p)); simpl; f_equal; lia.
Qed.
End Clock.

(** * What a selection leaves alone *)

(** Whether a runtime refuses at an instant. *)
Definition credential_refuses (id : nat) (model : string) (t : Instant) (h : HealthStore) : bool :=
  match authentications h !! id with
  | Some (auth, rt) =>
      auth || match routings h !! rt with Some r => is_blocked t model r | None => false end
  | None => false
  end.
Definition circuit_refuses (pol : ReliabilityPolicy) (t : Instant) (c : CircuitRuntime) : bool :=
  negb (is_ok (circuit_availability t (half_open_max_probes pol) c)).
Definition transient_refuses (t : Instant) (h : EndpointHealthRuntime) : bool :=
  match transient_until h with Some u => t <? u | None => false end.
Definition endpoint_refuses (pol : ReliabilityPolicy) (id : nat) (t : Instant) (h : HealthStore)
    : bool :=
  match endpoints h !! id with
  | Some r => transient_refuses t r || circuit_refuses pol t (endpoint_circuit r)
  | None => false
  end.
Definition proxy_refuses (pol : ReliabilityPolicy) (id : nat) (t : Instant) (h : HealthStore) : bool :=
  match proxies h !! id with Some c => circuit_refuses pol t c | None => false end.
Definition maybe (f : nat -> Instant -> HealthStore -> bool) (o : option nat) (t : Instant)
    (h : HealthStore) : bool :=
  match o with Some id => f id t h | None => false end.

(** Whether something the candidate needs refuses at an instant. *)
Definition candidate_refuses (pol : ReliabilityPolicy) (c : RoutedCandidate) (t : Instant)
    (h : HealthStore) : bool :=
  credential_refuses (generation (binding c)) (upstream_model (route c)) t h ||
  (maybe (endpoint_refuses pol) (endpoint_health c) t h ||
  (maybe (proxy_refuses pol) (proxy_health c) t h ||
  (endpoint_refuses pol (egress_path_health c) t h ||
   endpoint_refuses pol (candidate_path_health c) t h))).

(** The roles of a candidate are played by distinct runtimes. *)
Definition distinct_runtimes (c : RoutedCandidate) : Prop :=
  egress_path_health c <> candidate_path_health c /\
  forall id, endpoint_health c = Some id ->
    id <> egress_path_health c /\ id <> candidate_path_health c.

(** Everything the candidate refers to exists, and its limit is a valid one. *)
Record candidate_ok (s : RoutingStore) (c : RoutedCandidate) : Prop := {
  co_credential : exists auth rt r,
    authentications (runtimes s) !! generation (binding c) = Some (auth, rt) /\
    routings (runtimes s) !! rt = Some r;
  co_endpoint : forall id, endpoint_health c = Some id -> is_Some (endpoints (runtimes s) !! id);
  co_proxy : forall id, proxy_health c = Some id -> is_Some (proxies (runtimes s) !! id);
  co_egress : is_Some (endpoints (runtimes s) !! egress_path_health c);
  co_candidate : is_Some (endpoints (runtimes s) !! candidate_path_health c);
  co_handle : is_Some (credentials s !! handle (binding c));
  co_limit : valid_limit (requests_per_minute (binding c))
}.

Definition same_blocks (t : Instant) (r r' : RoutingCredentialHealth) : Prop :=
  forall t' m, t <= t' -> is_blocked t' m r' = is_blocked t' m r.

(** Room for [n] more increments of the counters of a circuit and of a handle. *)
Definition probes_ok (n : Z) (c : CircuitRuntime) : Prop :=
  0 <= half_open_in_flight c /\ half_open_in_flight c + n <= u32_max.
Record handle_ok (n : Z) (t : Instant) (h : CredentialRuntimeHandle) : Prop := {
  hok_window : window_wf t (rate_window h);
  hok_in_flight : 0 <= in_flight h;
  hok_flight_room : in_flight h + n <= u32_max;
  hok_id_room : next_reservation_id (rate_window h) + n <= u64_max;
  hok_change_room : changes h + n <= u64_max
}.

Section Holdings.
Context (clock : nat -> Instant) (Hclock : forall i j, (i <= j)%nat -> clock i <= clock j).
(** No credential has more than [K] models on cooldown. *)
Context (K : Z) (HK : 0 <= K).

Record store_ok (n : Z) (s : RoutingStore) : Prop := {
  so_epoch : headroom n (epoch (runtimes s));
  so_cooldowns : forall rt r, routings (runtimes s) !! rt = Some r ->
    Z.of_nat (size (model_cooldowns r)) <= K;
  so_endpoints : forall i h, endpoints (runtimes s) !! i = Some h ->
    probes_ok n (endpoint_circuit h);
  so_proxies : forall i c, proxies (runtimes s) !! i = Some c -> probes_ok n c;
  so_handles : forall i h m, credentials s !! i = Some (h, m) -> handle_ok n (clock (ticks s)) h
}.

(** The store after a step of the request that holds the permits [E] of
    endpoints and [P] of proxies: the circuits count their probes, and nothing
    else that a candidate is chosen by has changed. *)
Record held_over (E P : list held_permit) (s s' : RoutingStore) : Prop := {
  ho_endpoints : endpoints (runtimes s') = foldr hold_endpoint (endpoints (runtimes s)) E;
  ho_proxies : proxies (runtimes s') = foldr hold_proxy (proxies (runtimes s)) P;
  ho_auth : authentications (runtimes s') = authentications (runtimes s);
  ho_routings : forall rt, option_Forall2 (same_blocks (clock (ticks s')))
    (routings (runtimes s) !! rt) (routings (runtimes s') !! rt);
  ho_credentials : credentials s' = credentials s;
  ho_active : active_routes s' = active_routes s;
  ho_seen : seen s' = seen s;
  ho_cursors : cursors s' = cursors s;
  ho_ticks : (ticks s <= ticks s')%nat
}.

Lemma ho_refl s : held_over [] [] s s.
Proof. split; try done. intros rt. destruct (routings _ !! rt); by constructor. Qed.

Lemma ho_trans E P E' P' s1 s2 s3 :
  held_over E P s1 s2 -> held_over E' P' s2 s3 -> held_over (E' ++ E) (P' ++ P) s1 s3.
Proof using Hclock.
  intros [A1 A2 A3 A4 A5 A6 A7 A9 A8] [B1 B2 B3 B4 B5 B6 B7 B9 B8]. split; try congruence; [| | |lia].
  - by rewrite foldr_app, B1, A1.
  - by rewrite foldr_app, B2, A2.
  - intros rt. specialize (A4 rt). specialize (B4 rt).
    destruct A4 as [r r' Hr|]; inversion B4 as [? r'' Hr'|]; simplify_eq; constructor.
    intros t m Ht. rewrite Hr' by done. apply Hr. pose proof (Hclock _ _ B8). lia.
Qed.

Lemma ho_step E P s1 s2 s3 : held_over [] [] s1 s2 -> held_over E P s2 s3 -> held_over E P s1 s3.
Proof using Hclock.
  intros H1 H2. rewrite <- (app_nil_r E), <- (app_nil_r P). by eapply ho_trans.
Qed.

Lemma ho_quiet E P s1 s2 s3 : held_over E P s1 s2 -> held_over [] [] s2 s3 -> held_over E P s1 s3.
Proof using Hclock. intros H1 H2. by apply (ho_trans _ _ [] [] _ _ _ H1 H2). Qed.

Lemma ho_permute E E' P P' s s' :
  E ≡ₚ E' -> P ≡ₚ P' -> held_over E P s s' -> held_over E' P' s s'.
Proof.
  intros HE HP [H1 H2 H3 H4 H5 H6 H7 H9 H8]. split; try done.
  - rewrite H1. apply (foldr_permutation (=) hold_endpoint); [by intros ? ? ? ->| |done].
    intros. apply hold_endpoint_swap.
  - rewrite H2. apply (foldr_permutation (=) hold_proxy); [by intros ? ? ? ->| |done].
    intros. apply hold_proxy_swap.
Qed.

Lemma store_room_weaken n m s : store_ok n s -> m <= n -> store_ok m s.
Proof.
  intros [H1 H2 H3 H4 H5] Hle. split; [by eapply headroom_weaken|done|..].
  - intros i h Hi. destruct (H3 i h Hi). split; lia.
  - intros i h Hi. destruct (H4 i h Hi). split; lia.
  - intros i h mt Hi. destruct (H5 i h mt Hi). split; try done; lia.
Qed.

Lemma window_wf_later t t' w : window_wf t w -> t <= t' -> window_wf t' w.
Proof.
  intros [] Hle. split; try done. eapply Forall_impl; [exact wf_past|]. simpl. lia.
Qed.

Lemma handle_ok_later n t t' h : handle_ok n t h -> t <= t' -> handle_ok n t' h.
Proof. intros [] ?. split; try done. by eapply window_wf_later. Qed.

(** ** Single steps *)

Lemma tick_ok n s : store_ok n s -> store_ok n (tick s).
Proof using Hclock.
  intros [H1 H2 H3 H4 H5]. split; try done. intros i h m Hi.
  eapply handle_ok_later; [by eapply H5|]. apply Hclock. cbn. lia.
Qed.

Lemma tick_held s : held_over [] [] s (tick s).
Proof. split; try done; [|cbn; lia]. intros rt. cbn. destruct (routings _ !! rt); by constructor. Qed.

Lemma wp_read_clock {B} (k : Instant -> R B) Q s :
  wp (k (clock (ticks s))) Q (tick s) -> wp (read_clock clock ≫= k) Q s.
Proof. done. Qed.

Lemma wp_on_store {A} (f : RoutingStore -> outcome (A * RoutingStore)) Q s a s' :
  f s = Ret (a, s') -> Q a s' -> wp (on_store f) Q s.
Proof. unfold wp, on_store. by intros ->. Qed.

(** A question put to the health of a candidate: nothing is held after it; if it
    says no, what it is about refused at a reading of the clock, and if it says
    yes, it no longer refuses. *)
Definition answers {A E} (f : Instant -> HealthStore -> bool) (s : RoutingStore)
    (r : result A E) (s' : RoutingStore) : Prop :=
  held_over [] [] s s' /\
  match r with
  | Ok _ => forall t, clock (ticks s') <= t -> f t (runtimes s) = false
  | Err _ => exists k, (ticks s <= k < ticks s')%nat /\ f (clock k) (runtimes s) = true
  end.

(** What [f] says depends only on what a question leaves alone. *)
Definition settled (f : Instant -> HealthStore -> bool) : Prop :=
  forall s s' t, held_over [] [] s s' -> clock (ticks s') <= t ->
    f t (runtimes s') = f t (runtimes s).

Lemma circuit_refuses_antitone pol t t' c :
  t <= t' -> circuit_refuses pol t' c = true -> circuit_refuses pol t c = true.
Proof.
  unfold circuit_refuses, circuit_availability. destruct (open_until c) as [u|]; [|done].
  intros Hle. destruct (t <? u) eqn:E1, (t' <? u) eqn:E2; bool_to_prop; try done; [lia|]. by destruct (_ <=? _).
Qed.

Lemma is_blocked_antitone m t t' h :
  t <= t' -> is_blocked t' m h = true -> is_blocked t m h = true.
Proof.
  intros Hle. rewrite !blocked_until_blocks. destruct (blocked_until m h) as [u|]; [|done].
  rewrite !Z.ltb_lt. lia.
Qed.

Lemma wp_check_credential n id model s :
  0 <= n -> store_ok (n + K) s ->
  (exists auth rt r, authentications (runtimes s) !! id = Some (auth, rt) /\
     routings (runtimes s) !! rt = Some r) ->
  wp (check_credential clock id model)
    (fun r s' => store_ok n s' /\ answers (credential_refuses id model) s r s') s.
Proof using Hclock HK.
  intros Hn Hok (auth & rt & r & Ea & Er). unfold check_credential. apply wp_read_clock.
  set (now := clock (ticks s)). destruct (tick_ok _ _ Hok) as [H1 H2 H3 H4 H5].
  destruct (credential_availability_total n now model {| auth_error := auth; routing := r |}
    (epoch (runtimes s))) as (res & h & e & Ec & He & Hsize); [done| |].
  { eapply headroom_weaken; [exact H1|]. cbn [routing]. pose proof (H2 rt r Er). lia. }
  eapply wp_on_store.
  { cbn [runtimes tick]. rewrite Ea. cbn [expect mbind outcome_bind]. rewrite Er.
    cbn [expect mbind outcome_bind]. rewrite Ec. done. }
  apply credential_availability_view in Ec as (Hr & Hauth & Hblocks). cbn [auth_error routing] in *.
  pose proof (Hclock (ticks s) (S (ticks s)) ltac:(lia)) as Hnow.
  split; [split; cbn|split; [split; cbn|]]; try done.
  - intros rt' r'. destruct (decide (rt' = rt)) as [->|Hne].
    + rewrite lookup_insert_eq. intros [= <-]. pose proof (H2 rt r Er). lia.
    + rewrite lookup_insert_ne by done. apply H2.
  - intros i hh Hi. destruct (H3 i hh Hi). split; lia.
  - intros i hh Hi. destruct (H4 i hh Hi). split; lia.
  - intros i hh m Hi. destruct (H5 i hh m Hi). split; try done; lia.
  - rewrite Hauth. by apply insert_id.
  - intros rt'. destruct (decide (rt' = rt)) as [->|Hne].
    + rewrite lookup_insert_eq, Er. constructor. intros t m Ht. apply Hblocks. unfold now. lia.
    + rewrite lookup_insert_ne by done. destruct (routings _ !! rt'); by constructor.
  - lia.
  - unfold credential_refuses. destruct res; cbn in Hr.
    + intros t Ht. cbn in Ht. rewrite Ea, Er. symmetry in Hr. apply negb_true_iff, orb_false_iff in Hr as [-> Hb].
      cbn. apply not_true_iff_false. intros Hb'. apply not_true_iff_false in Hb. apply Hb.
      eapply is_blocked_antitone; [|exact Hb']. unfold now. lia.
    + exists (ticks s). split; [cbn; lia|]. rewrite Ea, Er. by apply negb_false_iff.
Qed.

Lemma transient_refuses_antitone t t' h :
  t <= t' -> transient_refuses t' h = true -> transient_refuses t h = true.
Proof. unfold transient_refuses. destruct (transient_until h); [|done]. rewrite !Z.ltb_lt. lia. Qed.

(** The two readings of the clock of an endpoint, as one answer. *)
Lemma endpoint_refusal pol t t' h {A} (r : result A HealthAcquireError) :
  t <= t' ->
  (forall e, check_transient t h = Err e -> is_ok r = false) ->
  (check_transient t h = Ok tt -> is_ok r = negb (circuit_refuses pol t' (endpoint_circuit h))) ->
  if is_ok r
  then forall t'', t' <= t'' -> transient_refuses t'' h || circuit_refuses pol t'' (endpoint_circuit h) = false
  else transient_refuses t h || circuit_refuses pol t (endpoint_circuit h) = true \/
       transient_refuses t' h || circuit_refuses pol t' (endpoint_circuit h) = true.
Proof.
  intros Hle Herr Hok. unfold check_transient in *.
  assert (transient_refuses t h = match transient_until h with Some u => t <? u | None => false end) as Ht by done.
  destruct (match transient_until h with Some u => t <? u | None => false end) eqn:E.
  { destruct (transient_until h) as [u|]; [|done]. rewrite E in Herr. rewrite (Herr _ eq_refl).
    left. by rewrite Ht. }
  assert (is_ok r = negb (circuit_refuses pol t' (endpoint_circuit h))) as ->.
  { apply Hok. destruct (transient_until h) as [u|]; [by rewrite E|done]. }
  destruct (circuit_refuses pol t' (endpoint_circuit h)) eqn:Ec; cbn.
  - right. apply orb_true_r.
  - intros t'' Ht''. apply orb_false_iff. split; apply not_true_iff_false; intros H.
    + apply (transient_refuses_antitone t) in H; [congruence|lia].
    + apply (circuit_refuses_antitone _ t') in H; [congruence|lia].
Qed.

Lemma answers_tick2 {A E} (f : Instant -> HealthStore -> bool) s (r : result A E) :
  (if is_ok r then forall t, clock (S (ticks s)) <= t -> f t (runtimes s) = false
   else f (clock (ticks s)) (runtimes s) = true \/ f (clock (S (ticks s))) (runtimes s) = true) ->
  answers f s r (tick (tick s)).
Proof using Hclock.
  intros H. split; [eapply ho_step; apply tick_held|]. destruct r; cbn in *.
  - intros t Ht. apply H. etrans; [apply Hclock|exact Ht]. lia.
  - destruct H as [H|H]; [exists (ticks s)|exists (S (ticks s))]; (split; [lia|done]).
Qed.

Lemma wp_check_endpoint n pol id s :
  store_ok n s -> is_Some (endpoints (runtimes s) !! id) ->
  wp (check_endpoint clock pol id)
    (fun r s' => store_ok n s' /\ answers (endpoint_refuses pol id) s r s') s.
Proof using Hclock.
  intros Hok [h Hh]. unfold check_endpoint. do 2 apply wp_read_clock. eapply wp_on_store.
  { cbn [runtimes tick]. rewrite Hh. done. }
  split; [by do 2 apply tick_ok|]. apply answers_tick2. unfold endpoint_refuses. rewrite Hh.
  apply endpoint_refusal; [apply Hclock; cbn; lia|..]; unfold endpoint_availability.
  - by intros e ->.
  - intros ->. cbn [ticks tick]. unfold circuit_refuses.
    by destruct (circuit_availability _ _ _).
Qed.

Lemma wp_check_proxy n pol id s :
  store_ok n s -> is_Some (proxies (runtimes s) !! id) ->
  wp (check_proxy clock pol id)
    (fun r s' => store_ok n s' /\ answers (proxy_refuses pol id) s r s') s.
Proof using Hclock.
  intros Hok [c Hc]. unfold check_proxy. apply wp_read_clock. eapply wp_on_store.
  { cbn [runtimes tick]. rewrite Hc. done. }
  split; [by apply tick_ok|]. split; [apply tick_held|]. unfold proxy_refuses. rewrite Hc.
  unfold proxy_availability. destruct (circuit_availability _ _ c) as [a|e] eqn:E; cbn.
  - intros t Ht. apply not_true_iff_false. intros H.
    apply (circuit_refuses_antitone _ (clock (ticks s))) in H.
    + unfold circuit_refuses in H. by rewrite E in H.
    + etrans; [apply Hclock|exact Ht]. lia.
  - exists (ticks s). split; [lia|]. unfold circuit_refuses. by rewrite E.
Qed.

Lemma wp_if_some {A} n m (g : nat -> R (result A HealthAcquireError)) f o s :
  m <= n -> store_ok n s ->
  (forall id, o = Some id -> wp (g id) (fun r s' => store_ok m s' /\ answers (f id) s r s') s) ->
  wp (if_some g o) (fun r s' => store_ok m s' /\ answers (maybe f o) s r s') s.
Proof using Hclock.
  intros Hle Hok H. destruct o as [id|]; cbn.
  - eapply wp_then; [by apply H|]. intros r s' [Hok' [Hh Hr]]. apply wp_ret. split; [done|].
    split; [done|]. by destruct r.
  - split; [by eapply store_room_weaken|]. split; [apply ho_refl|done].
Qed.

(** A question that is refused settles the whole; one that is not leaves the
    rest to the next. *)
Lemma answers_no {A B E F} f g s s' (e : E) (e' : F) :
  answers f s (Err e : result A E) s' ->
  answers (fun t h => f t h || g t h) s (Err e' : result B F) s'.
Proof. intros [Hh (k & Hk & Hf)]. split; [done|]. exists k. by rewrite Hf. Qed.

Lemma answers_yes {A B E F} f g s s1 s' (a : A) (r : result B F) :
  settled g -> answers f s (Ok a : result A E) s1 -> answers g s1 r s' ->
  answers (fun t h => f t h || g t h) s r s'.
Proof using Hclock.
  intros Hg [Hh1 Hf] [Hh2 Hr]. split; [by eapply ho_step|].
  pose proof (ho_ticks _ _ _ _ Hh1). pose proof (ho_ticks _ _ _ _ Hh2). destruct r.
  - intros t Ht. assert (clock (ticks s1) <= t) by (etrans; [by apply Hclock|exact Ht]).
    rewrite Hf by done. cbn. rewrite <- (Hg s s1 t Hh1) by done. by apply Hr.
  - destruct Hr as (k & Hk & Hr). exists k. split; [lia|].
    rewrite (Hg s s1) in Hr; [rewrite Hr; apply orb_true_r|done|]. apply Hclock. lia.
Qed.

Lemma credential_refuses_settled id model : settled (credential_refuses id model).
Proof.
  intros s s' t Hh Ht. unfold credential_refuses. rewrite (ho_auth _ _ _ _ Hh).
  destruct (authentications _ !! id) as [[auth rt]|]; [|done].
  destruct (ho_routings _ _ _ _ Hh rt) as [r r' Hr|]; [|done]. by rewrite Hr.
Qed.

Lemma endpoint_refuses_settled pol id : settled (endpoint_refuses pol id).
Proof. intros s s' t Hh _. unfold endpoint_refuses. by rewrite (ho_endpoints _ _ _ _ Hh). Qed.

Lemma proxy_refuses_settled pol id : settled (proxy_refuses pol id).
Proof. intros s s' t Hh _. unfold proxy_refuses. by rewrite (ho_proxies _ _ _ _ Hh). Qed.

Lemma maybe_settled f o : (forall id, settled (f id)) -> settled (maybe f o).
Proof. intros H. destruct o as [id|]; [apply H|by intros ????]. Qed.

Lemma or_settled f g : settled f -> settled g -> settled (fun t h => f t h || g t h).
Proof. intros Hf Hg s s' t Hh Ht. by rewrite (Hf s s'), (Hg s s'). Qed.

Lemma candidate_refuses_settled pol c : settled (candidate_refuses pol c).
Proof.
  unfold candidate_refuses.
  repeat first [apply (or_settled _ _) | apply credential_refuses_settled
    | apply endpoint_refuses_settled | apply maybe_settled; intros
    | apply proxy_refuses_settled].
Qed.

Lemma hold_endpoints_dom E m i : is_Some (foldr hold_endpoint m E !! i) <-> is_Some (m !! i).
Proof.
  induction E as [|p E IH]; cbn [foldr]; [done|]. rewrite <- IH. unfold hold_endpoint.
  destruct (decide (held_runtime p = i)) as [->|Hne].
  - rewrite lookup_alter_eq. apply fmap_is_Some.
  - by rewrite lookup_alter_ne.
Qed.

Lemma hold_proxies_dom P m i : is_Some (foldr hold_proxy m P !! i) <-> is_Some (m !! i).
Proof.
  induction P as [|p P IH]; cbn [foldr]; [done|]. rewrite <- IH. unfold hold_proxy.
  destruct (decide (held_runtime p = i)) as [->|Hne].
  - rewrite lookup_alter_eq. apply fmap_is_Some.
  - by rewrite lookup_alter_ne.
Qed.

Lemma candidate_ok_held E P s s' c :
  held_over E P s s' -> candidate_ok s c -> candidate_ok s' c.
Proof.
  intros [H1 H2 H3 H4 H5 H6 H7 H9 H8] [C1 C2 C3 C4 C5 C6 C7].
  split; rewrite ?H1, ?H2, ?H3, ?H5, ?hold_endpoints_dom; try done.
  - destruct C1 as (auth & rt & r & Ea & Er). specialize (H4 rt). rewrite Er in H4.
    inversion H4 as [? r' _ E1 E2|]. exists auth, rt, r'. by rewrite <- E2.
  - intros id Hid. rewrite hold_endpoints_dom. by apply C2.
  - intros id Hid. rewrite hold_proxies_dom. by apply C3.
Qed.

Lemma blame_ok {A} kind (r : result A HealthAcquireError) a : blame kind r = Ok a -> r = Ok a.
Proof. destruct r; [by intros [= ->]|done]. Qed.
Lemma blame_err {A} kind (r : result A HealthAcquireError) e :
  blame kind r = Err e -> r = Err (error_source e).
Proof. destruct r; [done|by intros [= <-]]. Qed.

(** One question of a chain of questions. *)
Lemma wp_question {A B} n m (q : R (result A HealthAcquireError)) kind f g
    (k : A -> R (result B CandidateHealthError)) s :
  settled g ->
  wp q (fun r s' => store_ok n s' /\ answers f s r s') s ->
  m <= n ->
  (forall a s1, store_ok n s1 -> held_over [] [] s s1 ->
     wp (k a) (fun r s' => store_ok m s' /\ answers g s1 r s') s1) ->
  wp (r ← q; match blame kind r with Err e => mret (Err e) | Ok a => k a end)
     (fun r s' => store_ok m s' /\ answers (fun t h => f t h || g t h) s r s') s.
Proof using Hclock.
  intros Hg Hq Hle Hk. eapply wp_then; [exact Hq|]. intros r s1 [Hok Ha].
  destruct (blame kind r) as [a|e] eqn:Eb.
  - apply blame_ok in Eb as ->. eapply wp_weaken; [apply Hk; [done|apply Ha]|].
    intros r' s' [Hok' Ha']. split; [done|]. by eapply answers_yes.
  - apply blame_err in Eb as ->. apply wp_ret. split; [by eapply store_room_weaken|].
    by eapply answers_no.
Qed.

Lemma wp_health_availability n pol c s :
  0 <= n -> store_ok (n + K) s -> candidate_ok s c ->
  wp (health_availability clock pol c)
    (fun r s' => store_ok n s' /\ answers (candidate_refuses pol c) s r s') s.
Proof using Hclock HK.
  intros Hn Hok Hc. unfold health_availability, candidate_refuses.
  apply (wp_question n n); [|by apply wp_check_credential, Hc|done|].
  { apply or_settled; [apply maybe_settled; intros; apply endpoint_refuses_settled|].
    apply or_settled; [apply maybe_settled; intros; apply proxy_refuses_settled|].
    apply or_settled; apply endpoint_refuses_settled. }
  intros _ s1 Hok1 Hh1. pose proof (candidate_ok_held _ _ _ _ _ Hh1 Hc) as Hc1.
  apply (wp_question n n); [| |done|].
  { apply or_settled; [apply maybe_settled; intros; apply proxy_refuses_settled|].
    apply or_settled; apply endpoint_refuses_settled. }
  { apply (wp_if_some n n); [done|done|]. intros id Hid.
    apply wp_check_endpoint; [done|by eapply co_endpoint]. }
  intros _ s2 Hok2 Hh2. pose proof (candidate_ok_held _ _ _ _ _ Hh2 Hc1) as Hc2.
  apply (wp_question n n); [| |done|].
  { apply or_settled; apply endpoint_refuses_settled. }
  { apply (wp_if_some n n); [done|done|]. intros id Hid.
    apply wp_check_proxy; [done|by eapply co_proxy]. }
  intros _ s3 Hok3 Hh3. pose proof (candidate_ok_held _ _ _ _ _ Hh3 Hc2) as Hc3.
  apply (wp_question n n); [apply endpoint_refuses_settled| |done|].
  { apply wp_check_endpoint; [done|by apply co_egress]. }
  intros _ s4 Hok4 Hh4. pose proof (candidate_ok_held _ _ _ _ _ Hh4 Hc3) as Hc4.
  eapply wp_then; [apply wp_check_endpoint; [done|by apply co_candidate]|].
  intros r s5 [Hok5 Ha]. apply wp_ret. split; [done|]. destruct Ha as [Hh Ha].
  split; [done|]. by destruct r.
Qed.

(** ** Taking and giving back permits *)

Lemma circuit_try_acquire_total n pol now c :
  0 <= n -> probes_ok (n + 1) c ->
  exists r c', circuit_try_acquire now (half_open_max_probes pol) c = Ret (r, c') /\
    match r with
    | Ok p => c' = add_probes (if half_open p then 1 else 0) c /\ probes_ok n c' /\
              circuit_refuses pol now c = false
    | Err _ => c' = c /\ circuit_refuses pol now c = true
    end.
Proof.
  intros Hn [H0 Hroom]. unfold circuit_try_acquire, circuit_refuses, circuit_availability, checked_add.
  destruct (open_until c) as [u|] eqn:Eu.
  - destruct (now <? u); [by do 2 eexists|]. destruct (_ <=? half_open_in_flight c); [by do 2 eexists|].
    rewrite (proj2 (Z.leb_le _ u32_max)) by lia. cbn [expect mbind outcome_bind]. do 2 eexists.
    split; [done|]. cbn [half_open]. unfold add_probes, probes_ok. rewrite Eu. cbn. split; [done|].
    split; [lia|done].
  - do 2 eexists. split; [done|]. cbn [half_open]. unfold add_probes, probes_ok.
    split; [by rewrite Z.add_0_r; destruct c|]. split; [lia|done].
Qed.

Lemma endpoints_insert_ok n s m :
  store_ok n s -> (forall i h, m !! i = Some h -> probes_ok n (endpoint_circuit h)) ->
  store_ok n (with_runtimes (with_endpoints m (runtimes s)) s).
Proof. intros [H1 H2 H3 H4 H5] Hm. by split. Qed.

Lemma proxies_insert_ok n s m :
  store_ok n s -> (forall i c, m !! i = Some c -> probes_ok n c) ->
  store_ok n (with_runtimes (with_proxies m (runtimes s)) s).
Proof. intros [H1 H2 H3 H4 H5] Hm. by split. Qed.

Lemma held_endpoint p s s1 :
  held_over [] [] s s1 ->
  held_over [p] [] s (with_runtimes (with_endpoints
    (hold_endpoint p (endpoints (runtimes s1))) (runtimes s1)) s1).
Proof.
  intros [H1 H2 H3 H4 H5 H6 H7 H9 H8]. split; try done. cbn. by rewrite H1.
Qed.

Lemma held_proxy p s s1 :
  held_over [] [] s s1 ->
  held_over [] [p] s (with_runtimes (with_proxies
    (hold_proxy p (proxies (runtimes s1))) (runtimes s1)) s1).
Proof.
  intros [H1 H2 H3 H4 H5 H6 H7 H9 H8]. split; try done. cbn. by rewrite H2.
Qed.

(** A permit taken, or a runtime that refused. *)
Definition took_endpoint (pol : ReliabilityPolicy) (id : nat) (s : RoutingStore)
    (r : result held_permit HealthAcquireError) (s' : RoutingStore) : Prop :=
  match r with
  | Ok p => held_runtime p = id /\ held_over [p] [] s s'
  | Err _ => held_over [] [] s s' /\
      exists k, (ticks s <= k)%nat /\ endpoint_refuses pol id (clock k) (runtimes s) = true
  end.

Lemma probes_ok_weaken n m c : probes_ok n c -> m <= n -> probes_ok m c.
Proof. unfold probes_ok. lia. Qed.

Lemma insert_self_runtimes s m :
  m = endpoints (runtimes s) -> with_runtimes (with_endpoints m (runtimes s)) s = s.
Proof. intros ->. destruct s as [[] ? ? ? ? ?]. done. Qed.

Lemma insert_self_proxies s m :
  m = proxies (runtimes s) -> with_runtimes (with_proxies m (runtimes s)) s = s.
Proof. intros ->. destruct s as [[] ? ? ? ? ?]. done. Qed.

Lemma wp_take_endpoint n pol id s :
  0 <= n -> store_ok (n + 1) s -> is_Some (endpoints (runtimes s) !! id) ->
  wp (take_endpoint_permit clock pol id)
    (fun r s' => store_ok n s' /\ took_endpoint pol id s r s') s.
Proof using Hclock.
  intros Hn Hok [h Hh]. unfold take_endpoint_permit. do 2 apply wp_read_clock.
  assert (store_ok n (tick (tick s))) as Hok2
    by (do 2 apply tick_ok; eapply store_room_weaken; [exact Hok|lia]).
  assert (held_over [] [] s (tick (tick s))) as Hho by (eapply ho_step; apply tick_held).
  set (t := clock (ticks s)). cbn [ticks tick]. set (t' := clock (S (ticks s))).
  destruct (circuit_try_acquire_total n pol t' (endpoint_circuit h) Hn) as (r & c & Ec & Hr).
  { by eapply so_endpoints. }
  unfold wp, on_store. cbn [runtimes tick]. rewrite Hh. cbn [expect mbind outcome_bind].
  unfold endpoint_try_acquire. destruct (check_transient t h) as [[]|e] eqn:Et.
  - rewrite Ec. cbn [mbind outcome_bind]. destruct r as [p|u]; cbn [map_err].
    + destruct Hr as (-> & Hp & _).
      replace (<[id := _]> (endpoints (runtimes s)))
        with (hold_endpoint {| held_runtime := id; held := p |} (endpoints (runtimes (tick (tick s))))).
      * split; [|split; [done|exact (held_endpoint _ _ _ Hho)]].
        apply (endpoints_insert_ok _ (tick (tick s))); [done|].
        intros i h'. unfold hold_endpoint. cbn [held_runtime].
        destruct (decide (id = i)) as [<-|Hne].
        -- rewrite lookup_alter_eq. cbn [runtimes tick]. rewrite Hh. cbn. by intros [= <-].
        -- rewrite lookup_alter_ne by done. apply (so_endpoints _ _ Hok2).
      * unfold hold_endpoint. by rewrite (alter_as_insert _ _ _ h).
    + destruct Hr as [-> Hr]. rewrite (insert_self_runtimes (tick (tick s))).
      * split; [done|]. split; [done|]. exists (S (ticks s)). split; [lia|].
        unfold endpoint_refuses. rewrite Hh. fold t'. rewrite Hr. apply orb_true_r.
      * cbn. apply insert_id. rewrite Hh. by destruct h.
  - cbn [mbind outcome_bind]. rewrite (insert_self_runtimes (tick (tick s))); [|by apply insert_id].
    split; [done|]. split; [done|]. exists (ticks s). split; [lia|]. unfold endpoint_refuses, transient_refuses.
    rewrite Hh. unfold check_transient in Et. fold t.
    destruct (transient_until h) as [u|]; [|done]. by destruct (t <? u).
Qed.

Definition took_proxy (pol : ReliabilityPolicy) (id : nat) (s : RoutingStore)
    (r : result held_permit HealthAcquireError) (s' : RoutingStore) : Prop :=
  match r with
  | Ok p => held_runtime p = id /\ held_over [] [p] s s'
  | Err _ => held_over [] [] s s' /\
      exists k, (ticks s <= k)%nat /\ proxy_refuses pol id (clock k) (runtimes s) = true
  end.

Lemma wp_take_proxy n pol id s :
  0 <= n -> store_ok (n + 1) s -> is_Some (proxies (runtimes s) !! id) ->
  wp (take_proxy_permit clock pol id)
    (fun r s' => store_ok n s' /\ took_proxy pol id s r s') s.
Proof using Hclock.
  intros Hn Hok [c Hc]. unfold take_proxy_permit. apply wp_read_clock.
  assert (store_ok n (tick s)) as Hok2 by (apply tick_ok; eapply store_room_weaken; [exact Hok|lia]).
  pose proof (tick_held s) as Hho. set (t := clock (ticks s)).
  destruct (circuit_try_acquire_total n pol t c Hn) as (r & c' & Ec & Hr); [by eapply so_proxies|].
  unfold wp, on_store, proxy_try_acquire. cbn [runtimes tick]. rewrite Hc. cbn [expect mbind outcome_bind].
  rewrite Ec. cbn [mbind outcome_bind]. destruct r as [p|u]; cbn [map_err].
  - destruct Hr as (-> & Hp & _).
    replace (<[id := _]> (proxies (runtimes s)))
      with (hold_proxy {| held_runtime := id; held := p |} (proxies (runtimes (tick s)))).
    + split; [|split; [done|exact (held_proxy _ _ _ Hho)]].
      apply (proxies_insert_ok _ (tick s)); [done|].
      intros i h'. unfold hold_proxy. cbn [held_runtime]. destruct (decide (id = i)) as [<-|Hne].
      * rewrite lookup_alter_eq. cbn [runtimes tick]. rewrite Hc. cbn. by intros [= <-].
      * rewrite lookup_alter_ne by done. apply (so_proxies _ _ Hok2).
    + unfold hold_proxy. by rewrite (alter_as_insert _ _ _ c).
  - destruct Hr as [-> Hr]. rewrite (insert_self_proxies (tick s)); [|by apply insert_id].
    split; [done|]. split; [done|]. exists (ticks s). split; [lia|].
    unfold proxy_refuses. by rewrite Hc.
Qed.

Lemma probe_of_nonneg p : 0 <= probe_of p.
Proof. unfold probe_of. destruct (half_open _); lia. Qed.

Lemma hold_endpoints_nonneg E m :
  (forall i h, m !! i = Some h -> 0 <= half_open_in_flight (endpoint_circuit h)) ->
  forall i h, foldr hold_endpoint m E !! i = Some h -> 0 <= half_open_in_flight (endpoint_circuit h).
Proof.
  intros Hm. induction E as [|p E IH]; cbn [foldr]; [done|]. intros i h. unfold hold_endpoint.
  destruct (decide (held_runtime p = i)) as [<-|Hne].
  - rewrite lookup_alter_eq. destruct (_ !! held_runtime p) as [h0|] eqn:E0; [|done].
    cbn. intros [= <-]. cbn. pose proof (IH _ _ E0). pose proof (probe_of_nonneg p). lia.
  - rewrite lookup_alter_ne by done. apply IH.
Qed.

Lemma hold_proxies_nonneg P m :
  (forall i c, m !! i = Some c -> 0 <= half_open_in_flight c) ->
  forall i c, foldr hold_proxy m P !! i = Some c -> 0 <= half_open_in_flight c.
Proof.
  intros Hm. induction P as [|p P IH]; cbn [foldr]; [done|]. intros i c. unfold hold_proxy.
  destruct (decide (held_runtime p = i)) as [<-|Hne].
  - rewrite lookup_alter_eq. destruct (_ !! held_runtime p) as [h0|] eqn:E0; [|done].
    cbn. intros [= <-]. cbn. pose proof (IH _ _ E0). pose proof (probe_of_nonneg p). lia.
  - rewrite lookup_alter_ne by done. apply IH.
Qed.

Lemma alter_undo {A} (f : A -> A) i (m : gmap nat A) x :
  m !! i = Some x -> <[i := x]> (alter f i m) = m.
Proof.
  intros Hx. apply map_eq. intros j. destruct (decide (i = j)) as [<-|Hne].
  - by rewrite lookup_insert_eq.
  - by rewrite lookup_insert_ne, lookup_alter_ne.
Qed.

(** Giving back a permit that is held: the circuit is as if it had not been taken. *)
Lemma wp_drop_endpoint n m pol o E P s s1 :
  0 <= n -> store_ok m s -> store_ok (n + 1) s1 ->
  held_over (option_list o ++ E) P s s1 ->
  (forall p, o = Some p -> is_Some (endpoints (runtimes s) !! held_runtime p)) ->
  wp (drop_endpoint_permit pol o) (fun _ s2 => store_ok n s2 /\ held_over E P s s2) s1.
Proof.
  intros Hn Hs Hs1 Hh Hex. destruct o as [p|]; cycle 1.
  { split; [|by destruct s1].
    eapply store_room_weaken; [|exact (Z.le_succ_diag_r n)]. by destruct s1. }
  cbn [option_list app] in Hh. specialize (Hex p eq_refl).
  set (M := foldr hold_endpoint (endpoints (runtimes s)) E).
  assert (endpoints (runtimes s1) = hold_endpoint p M) as E1 by apply Hh.
  assert (is_Some (M !! held_runtime p)) as [h0 Hh0] by by apply hold_endpoints_dom.
  assert (0 <= half_open_in_flight (endpoint_circuit h0)) as H0.
  { eapply (hold_endpoints_nonneg E); [|exact Hh0]. intros i h Hi. apply (so_endpoints _ _ Hs i h Hi). }
  assert (endpoints (runtimes s1) !! held_runtime p =
    Some (with_circuit (add_probes (probe_of p) (endpoint_circuit h0)) h0)) as Hl
    by (rewrite E1; unfold hold_endpoint; by rewrite lookup_alter_eq, Hh0).
  unfold wp, drop_endpoint_permit, on_health, settle_endpoint, endpoint_neutral.
  rewrite Hl. cbn [expect mbind outcome_bind].
  destruct (permit_drop_total n (held p) (endpoint_circuit (with_circuit
    (add_probes (probe_of p) (endpoint_circuit h0)) h0)) (epoch (runtimes s1)) Hn) as (e & -> & He);
    [apply Hs1|]. cbn [mbind outcome_bind endpoint_circuit with_circuit].
  rewrite return_add_probe by done.
  replace (with_circuit (endpoint_circuit h0) _) with h0 by by destruct h0.
  rewrite E1. unfold hold_endpoint. rewrite alter_undo by done.
  assert (forall i h, M !! i = Some h -> probes_ok n (endpoint_circuit h)) as HM.
  { intros i h Hi. assert (exists h', endpoints (runtimes s1) !! i = Some h' /\
      half_open_in_flight (endpoint_circuit h) <= half_open_in_flight (endpoint_circuit h')) as (h' & Hi' & Hle).
    { rewrite E1. unfold hold_endpoint. destruct (decide (held_runtime p = i)) as [<-|Hne].
      - rewrite lookup_alter_eq, Hi. eexists. split; [done|]. cbn. pose proof (probe_of_nonneg p). lia.
      - rewrite lookup_alter_ne by done. exists h. split; [done|lia]. }
    apply (so_endpoints _ _ Hs1) in Hi' as [Ha Hb]. split; [|lia].
    eapply (hold_endpoints_nonneg E); [|exact Hi]. intros i' h'' Hi'. apply (so_endpoints _ _ Hs i' h'' Hi'). }
  destruct (store_room_weaken _ n _ Hs1 ltac:(lia)) as [S1 S2 S3 S4 S5].
  destruct Hh as [A1 A2 A3 A4 A5 A6 A7 A9 A8]. split; split; try done.
Qed.

Lemma wp_drop_proxy n m pol o E P s s1 :
  0 <= n -> store_ok m s -> store_ok (n + 1) s1 ->
  held_over E (option_list o ++ P) s s1 ->
  (forall p, o = Some p -> is_Some (proxies (runtimes s) !! held_runtime p)) ->
  wp (drop_proxy_permit pol o) (fun _ s2 => store_ok n s2 /\ held_over E P s s2) s1.
Proof.
  intros Hn Hs Hs1 Hh Hex. destruct o as [p|]; cycle 1.
  { split; [|by destruct s1].
    eapply store_room_weaken; [|exact (Z.le_succ_diag_r n)]. by destruct s1. }
  cbn [option_list app] in Hh. specialize (Hex p eq_refl).
  set (M := foldr hold_proxy (proxies (runtimes s)) P).
  assert (proxies (runtimes s1) = hold_proxy p M) as E1 by apply Hh.
  assert (is_Some (M !! held_runtime p)) as [c0 Hc0] by by apply hold_proxies_dom.
  assert (forall i c, M !! i = Some c -> 0 <= half_open_in_flight c) as HM0.
  { apply hold_proxies_nonneg. intros i c Hi. apply (so_proxies _ _ Hs i c Hi). }
  assert (proxies (runtimes s1) !! held_runtime p = Some (add_probes (probe_of p) c0)) as Hl
    by (rewrite E1; unfold hold_proxy; by rewrite lookup_alter_eq, Hc0).
  unfold wp, drop_proxy_permit, on_health, settle_proxy.
  rewrite Hl. cbn [expect mbind outcome_bind].
  destruct (permit_drop_total n (held p) (add_probes (probe_of p) c0) (epoch (runtimes s1)) Hn)
    as (e & -> & He); [apply Hs1|]. cbn [mbind outcome_bind].
  rewrite return_add_probe by by eapply HM0.
  rewrite E1. unfold hold_proxy. rewrite alter_undo by done.
  assert (forall i c, M !! i = Some c -> probes_ok n c) as HM.
  { intros i c Hi. assert (exists c', proxies (runtimes s1) !! i = Some c' /\
      half_open_in_flight c <= half_open_in_flight c') as (c' & Hi' & Hle).
    { rewrite E1. unfold hold_proxy. destruct (decide (held_runtime p = i)) as [<-|Hne].
      - rewrite lookup_alter_eq, Hi. eexists. split; [done|]. cbn. pose proof (probe_of_nonneg p). lia.
      - rewrite lookup_alter_ne by done. exists c. split; [done|lia]. }
    apply (so_proxies _ _ Hs1) in Hi' as [Ha Hb]. split; [by eapply HM0|lia]. }
  destruct (store_room_weaken _ n _ Hs1 ltac:(lia)) as [S1 S2 S3 S4 S5].
  destruct Hh as [A1 A2 A3 A4 A5 A6 A7 A9 A8]. split; split; try done.
Qed.

(** ** Acquiring everything a candidate needs *)

Definition attempt_endpoints (a : AttemptHealth) : list held_permit :=
  option_list (candidate_path a) ++ option_list (egress_path a) ++ option_list (endpoint a).

(** The attempt is on the runtimes of the candidate. *)
Record attempt_for (pol : ReliabilityPolicy) (c : RoutedCandidate) (a : AttemptHealth) : Prop := {
  af_credential : credential a = generation (binding c);
  af_model : model a = upstream_model (route c);
  af_endpoint : held_runtime <$> endpoint a = endpoint_health c;
  af_proxy : held_runtime <$> proxy a = proxy_health c;
  af_egress : held_runtime <$> egress_path a = Some (egress_path_health c);
  af_candidate : held_runtime <$> candidate_path a = Some (candidate_path_health c);
  af_policy : policy a = pol
}.

(** Everything was acquired, or nothing is held and something refused. *)
Definition acquired (pol : ReliabilityPolicy) (c : RoutedCandidate) (s : RoutingStore)
    (r : result AttemptHealth CandidateHealthError) (s' : RoutingStore) : Prop :=
  match r with
  | Ok a => attempt_for pol c a /\ held_over (attempt_endpoints a) (option_list (proxy a)) s s'
  | Err _ => held_over [] [] s s' /\
      (distinct_runtimes c -> exists k, (ticks s <= k)%nat /\
         candidate_refuses pol c (clock k) (runtimes s) = true)
  end.

Lemma endpoint_refuses_held E P pol id t s s' :
  held_over E P s s' -> (forall p, p ∈ E -> held_runtime p <> id) ->
  endpoint_refuses pol id t (runtimes s') = endpoint_refuses pol id t (runtimes s).
Proof.
  intros Hh HE. unfold endpoint_refuses. rewrite (ho_endpoints _ _ _ _ Hh).
  replace (foldr hold_endpoint (endpoints (runtimes s)) E !! id)
    with (endpoints (runtimes s) !! id); [done|]. clear Hh.
  induction E as [|p E IH]; cbn [foldr]; [done|]. unfold hold_endpoint at 1.
  rewrite lookup_alter_ne by (apply HE; by left). apply IH. intros q Hq. apply HE. by right.
Qed.

Lemma wp_if_take_endpoint n pol o s :
  0 <= n -> store_ok (n + 1) s ->
  (forall id, o = Some id -> is_Some (endpoints (runtimes s) !! id)) ->
  wp (if_some (take_endpoint_permit clock pol) o)
    (fun r s' => store_ok n s' /\ match r with
     | Ok p => held_runtime <$> p = o /\ held_over (option_list p) [] s s'
     | Err _ => held_over [] [] s s' /\ exists k, (ticks s <= k)%nat /\
         maybe (endpoint_refuses pol) o (clock k) (runtimes s) = true
     end) s.
Proof using Hclock.
  intros Hn Hok Hex. destruct o as [id|]; cbn [if_some].
  - eapply wp_then; [apply (wp_take_endpoint n); [done|done|by apply Hex]|]. intros r s' [Hok' Hr]. apply wp_ret.
    split; [done|]. destruct r as [p|e]; [|done]. destruct Hr as [<- Hr]. by split.
  - apply wp_ret. split; [eapply store_room_weaken; [exact Hok|lia]|]. split; [done|]. apply ho_refl.
Qed.

Lemma wp_if_take_proxy n pol o s :
  0 <= n -> store_ok (n + 1) s ->
  (forall id, o = Some id -> is_Some (proxies (runtimes s) !! id)) ->
  wp (if_some (take_proxy_permit clock pol) o)
    (fun r s' => store_ok n s' /\ match r with
     | Ok p => held_runtime <$> p = o /\ held_over [] (option_list p) s s'
     | Err _ => held_over [] [] s s' /\ exists k, (ticks s <= k)%nat /\
         maybe (proxy_refuses pol) o (clock k) (runtimes s) = true
     end) s.
Proof using Hclock.
  intros Hn Hok Hex. destruct o as [id|]; cbn [if_some].
  - eapply wp_then; [apply (wp_take_proxy n); [done|done|by apply Hex]|]. intros r s' [Hok' Hr]. apply wp_ret.
    split; [done|]. destruct r as [p|e]; [|done]. destruct Hr as [<- Hr]. by split.
  - apply wp_ret. split; [eapply store_room_weaken; [exact Hok|lia]|]. split; [done|]. apply ho_refl.
Qed.

(** Something the candidate needs refuses. *)
Lemma refuses_credential pol c t h :
  credential_refuses (generation (binding c)) (upstream_model (route c)) t h = true ->
  candidate_refuses pol c t h = true.
Proof. unfold candidate_refuses. by intros ->. Qed.
Lemma refuses_endpoint pol c t h :
  maybe (endpoint_refuses pol) (endpoint_health c) t h = true -> candidate_refuses pol c t h = true.
Proof. unfold candidate_refuses. intros ->. by rewrite ?orb_true_r. Qed.
Lemma refuses_proxy pol c t h :
  maybe (proxy_refuses pol) (proxy_health c) t h = true -> candidate_refuses pol c t h = true.
Proof. unfold candidate_refuses. intros ->. by rewrite ?orb_true_r. Qed.
Lemma refuses_egress pol c t h :
  endpoint_refuses pol (egress_path_health c) t h = true -> candidate_refuses pol c t h = true.
Proof. unfold candidate_refuses. intros ->. by rewrite ?orb_true_r. Qed.
Lemma refuses_candidate pol c t h :
  endpoint_refuses pol (candidate_path_health c) t h = true -> candidate_refuses pol c t h = true.
Proof. unfold candidate_refuses. intros ->. by rewrite ?orb_true_r. Qed.

Lemma held_runtime_is o id (p : held_permit) :
  held_runtime <$> o = Some id -> o = Some p -> held_runtime p = id.
Proof. intros H ->. by injection H. Qed.

(** The permits of the endpoint and of the proxy, held since [s]. *)
Record first_permits (c : RoutedCandidate) (ep px : option held_permit) (s s' : RoutingStore)
    : Prop := {
  fp_endpoint : held_runtime <$> ep = endpoint_health c;
  fp_proxy : held_runtime <$> px = proxy_health c;
  fp_held : held_over (option_list ep) (option_list px) s s'
}.

Lemma first_permits_endpoint c ep px s s' p :
  first_permits c ep px s s' -> candidate_ok s c -> ep = Some p ->
  is_Some (endpoints (runtimes s) !! held_runtime p).
Proof. intros [H _ _] Hc ->. apply (co_endpoint _ _ Hc). by rewrite <- H. Qed.

Lemma first_permits_proxy c ep px s s' p :
  first_permits c ep px s s' -> candidate_ok s c -> px = Some p ->
  is_Some (proxies (runtimes s) !! held_runtime p).
Proof. intros [_ H _] Hc ->. apply (co_proxy _ _ Hc). by rewrite <- H. Qed.

Lemma first_permits_distinct c ep px s s' p :
  first_permits c ep px s s' -> distinct_runtimes c -> p ∈ option_list ep ->
  held_runtime p <> egress_path_health c /\ held_runtime p <> candidate_path_health c.
Proof.
  intros [H _ _] [_ Hd] Hp. destruct ep as [q|]; [|by inversion Hp].
  apply list_elem_of_singleton in Hp as ->. by apply Hd.
Qed.

Lemma wp_give_back n m pol c ep px E s s0 s1 :
  0 <= n -> store_ok m s -> candidate_ok s c -> store_ok (n + 2) s1 ->
  first_permits c ep px s s0 -> held_over (option_list ep ++ E) (option_list px) s s1 ->
  wp (_ ← drop_endpoint_permit pol ep; drop_proxy_permit pol px)
    (fun _ s2 => store_ok n s2 /\ held_over E [] s s2) s1.
Proof.
  intros Hn Hs Hc Hs1 Hf Hh. eapply wp_then.
  { eapply (wp_drop_endpoint (n + 1));
      [lia|exact Hs|by eapply store_room_weaken; [exact Hs1|lia]|exact Hh|].
    intros p Hp. by eapply first_permits_endpoint. }
  intros [] s2 [Hs2 Hh2]. eapply (wp_drop_proxy n); [done|exact Hs|exact Hs2| |].
  { by rewrite app_nil_r. }
  intros p Hp. by eapply first_permits_proxy.
Qed.

Lemma bind_assoc {A B C} (m : R A) (f : A -> R B) (g : B -> R C) Q s :
  wp ((m ≫= f) ≫= g) Q s -> wp (m ≫= fun a => f a ≫= g) Q s.
Proof. unfold wp, mbind, R_bind. by destruct (m s) as [[a s']|]. Qed.

Lemma wp_acquire_paths n m pol c ep px s s1 :
  0 <= n -> store_ok m s -> store_ok (n + 5) s1 -> candidate_ok s c -> first_permits c ep px s s1 ->
  wp (acquire_paths clock pol c ep px) (fun r s' => store_ok n s' /\ acquired pol c s r s') s1.
Proof using Hclock.
  intros Hn Hs Hok1 Hc Hf. destruct (Hf) as [Eep Epx Hh1]. pose proof (ho_ticks _ _ _ _ Hh1) as T1.
  pose proof (candidate_ok_held _ _ _ _ _ Hh1 Hc) as Hc1. unfold acquire_paths.
  eapply wp_then; [apply (wp_take_endpoint (n + 4));
    [lia|by eapply store_room_weaken; [exact Hok1|lia]|by apply co_egress]|].
  intros r s2 [Hok2 Hr2].
  destruct (blame _ r) as [eg|e] eqn:Eb; [apply blame_ok in Eb as ->|apply blame_err in Eb as ->]; cycle 1.
  { destruct Hr2 as [Hh2 (k & Hk & Hr2)]. apply bind_assoc. eapply wp_then.
    { eapply (wp_give_back n _ pol c ep px []);
        [done|exact Hs|exact Hc|by eapply store_room_weaken; [exact Hok2|lia]|exact Hf|].
      rewrite app_nil_r. by eapply ho_quiet. }
    intros [] s3 [Hok3 Hh3]. apply wp_ret. split; [done|]. split; [done|]. intros Hd.
    exists k. split; [lia|]. apply refuses_egress.
    rewrite <- (endpoint_refuses_held _ _ pol _ (clock k) _ _ Hh1); [done|].
    intros p Hp. by eapply first_permits_distinct. }
  destruct Hr2 as [Eeg Hh2]. pose proof (ho_ticks _ _ _ _ Hh2) as T2.
  assert (held_over (eg :: option_list ep) (option_list px) s s2) as Hs2
    by apply (ho_trans _ _ [eg] [] _ _ _ Hh1 Hh2).
  pose proof (candidate_ok_held _ _ _ _ _ Hs2 Hc) as Hc2.
  eapply wp_then; [apply (wp_take_endpoint (n + 3));
    [lia|by eapply store_room_weaken; [exact Hok2|lia]|by apply co_candidate]|].
  intros r s3 [Hok3 Hr3].
  destruct (blame _ r) as [ca|e] eqn:Eb; [apply blame_ok in Eb as ->|apply blame_err in Eb as ->]; cycle 1.
  { destruct Hr3 as [Hh3 (k & Hk & Hr3)]. apply bind_assoc. eapply wp_then.
    { eapply (wp_give_back (n + 1) _ pol c ep px [eg]);
        [lia|exact Hs|exact Hc|by eapply store_room_weaken; [exact Hok3|lia]|exact Hf|].
      eapply ho_permute; [|done|by eapply ho_quiet; [exact Hs2|exact Hh3]].
      symmetry. apply (Permutation_app_comm _ [eg]). }
    intros [] s4 [Hok4 Hh4]. eapply wp_then.
    { eapply (wp_drop_endpoint n _ pol (Some eg) [] []); [done|exact Hs|exact Hok4|exact Hh4|].
      intros p [= <-]. rewrite Eeg. by apply co_egress. }
    intros [] s5 [Hok5 Hh5]. apply wp_ret. split; [done|]. split; [done|]. intros Hd.
    exists k. split; [lia|]. apply refuses_candidate.
    rewrite <- (endpoint_refuses_held _ _ pol _ (clock k) _ _ Hs2); [done|].
    intros p Hp. apply elem_of_cons in Hp as [->|Hp]; [rewrite Eeg; exact (proj1 Hd)|].
    by eapply first_permits_distinct. }
  destruct Hr3 as [Eca Hh3]. apply wp_read_clock, wp_ret.
  split; [apply tick_ok; eapply store_room_weaken; [exact Hok3|lia]|].
  split; [split; cbn; try done; by f_equal|]. cbn [attempt_endpoints candidate_path egress_path endpoint proxy option_list app].
  eapply ho_quiet; [|apply tick_held]. by apply (ho_trans _ _ [ca] [] _ _ _ Hs2 Hh3).
Qed.

Lemma wp_acquire_health n pol c s :
  0 <= n -> store_ok (n + 8 + K) s -> candidate_ok s c ->
  wp (acquire_health clock pol c) (fun r s' => store_ok n s' /\ acquired pol c s r s') s.
Proof using Hclock HK.
  intros Hn Hok Hc. unfold acquire_health.
  eapply wp_then; [apply (wp_check_credential (n + 8)); [lia|done|apply Hc]|].
  intros r s1 [Hok1 [Hh1 Hr1]]. pose proof (ho_ticks _ _ _ _ Hh1) as T1.
  destruct (blame _ r) as [[]|e] eqn:Eb; [apply blame_ok in Eb as ->|apply blame_err in Eb as ->]; cycle 1.
  { apply wp_ret. split; [eapply store_room_weaken; [exact Hok1|lia]|]. split; [done|]. intros _.
    destruct Hr1 as (k & Hk & Hr1). exists k. split; [lia|]. by apply refuses_credential. }
  clear Hr1. pose proof (candidate_ok_held _ _ _ _ _ Hh1 Hc) as Hc1.
  eapply wp_then; [apply (wp_if_take_endpoint (n + 7)); [lia|by eapply store_room_weaken; [exact Hok1|lia]|apply Hc1]|].
  intros r s2 [Hok2 Hr2].
  destruct (blame _ r) as [ep|e] eqn:Eb; [apply blame_ok in Eb as ->|apply blame_err in Eb as ->]; cycle 1.
  { apply wp_ret. destruct Hr2 as [Hh2 (k & Hk & Hr2)]. split; [eapply store_room_weaken; [exact Hok2|lia]|].
    split; [by eapply ho_step|]. intros _. exists k. split; [lia|]. apply refuses_endpoint.
    rewrite <- (maybe_settled _ _ (endpoint_refuses_settled pol) s s1); [done|done|by apply Hclock]. }
  destruct Hr2 as [Eep Hh2]. pose proof (ho_ticks _ _ _ _ Hh2) as T2.
  assert (held_over (option_list ep) [] s s2) as Hs2 by by eapply ho_step.
  pose proof (candidate_ok_held _ _ _ _ _ Hs2 Hc) as Hc2.
  eapply wp_then; [apply (wp_if_take_proxy (n + 6)); [lia|by eapply store_room_weaken; [exact Hok2|lia]|apply Hc2]|].
  intros r s3 [Hok3 Hr3].
  destruct (blame _ r) as [px|e] eqn:Eb; [apply blame_ok in Eb as ->|apply blame_err in Eb as ->]; cycle 1.
  { destruct Hr3 as [Hh3 (k & Hk & Hr3)]. eapply wp_then.
    { eapply (wp_drop_endpoint n _ _ _ [] []);
        [done|exact Hok|by eapply store_room_weaken; [exact Hok3|lia]| |].
      - rewrite app_nil_r. by eapply ho_quiet.
      - intros p ->. apply (co_endpoint _ _ Hc). by rewrite <- Eep. }
    intros [] s4 [Hok4 Hh4]. apply wp_ret. split; [done|]. split; [done|]. intros _.
    exists k. split; [lia|]. apply refuses_proxy. revert Hr3. destruct (proxy_health c) as [id|]; [|done].
    cbn [maybe]. unfold proxy_refuses. by rewrite (ho_proxies _ _ _ _ Hs2). }
  destruct Hr3 as [Epx Hh3]. eapply (wp_acquire_paths n);
    [done|exact Hok|by eapply store_room_weaken; [exact Hok3|lia]|done|]. split; [done|done|].
  rewrite <- (app_nil_r (option_list px)). by apply (ho_trans _ _ [] _ _ _ _ Hs2 Hh3).
Qed.

(** ** Reservations *)

(** Whether the limit of a credential refuses one more request at an instant; a
    normal request leaves the slots of fixed waiters alone. *)
Definition rate_blocks (fixed : bool) (limit : option Z) (t : Instant)
    (h : CredentialRuntimeHandle) : bool :=
  match limit with
  | None => false
  | Some l =>
      let used := Zlen (attempts (prune t (rate_window h))) in
      (l <=? used) || (negb fixed && (l - used <=? fixed_waiters h))
  end.

Lemma prune_prune t0 t t' w :
  window_wf t0 w -> t0 <= t -> t <= t' -> attempts (prune t' (prune t w)) = attempts (prune t' w).
Proof.
  intros Hw H1 H2. rewrite (prune_filter t t') by (try apply (prune_wf t0); done).
  rewrite !(prune_filter t0) by (done || lia). rewrite list_filter_filter.
  apply filter_ext_Forall, Forall_forall. intros r _. unfold in_window. lia.
Qed.

(** The window of a reservation that is granted, and of one that is not. *)
Lemma try_reserve_outcome n t0 now limit fixed h :
  0 <= n -> handle_ok (n + 1) t0 h -> 0 <= t0 <= now -> valid_limit limit ->
  exists r w, try_reserve now limit (fixed_waiters h) fixed (rate_window h) = Ret (r, w) /\
    window_wf now w /\ next_reservation_id w + n <= u64_max /\
    match r with
    | Ok o => rate_blocks fixed limit now h = false /\
        attempts (rolled_back o w) = attempts (prune now (rate_window h)) /\
        window_wf now (rolled_back o w) /\ next_reservation_id (rolled_back o w) + n <= u64_max
    | Err _ => rate_blocks fixed limit now h = true /\ w = prune now (rate_window h)
    end.
Proof.
  intros Hn [Hw H1 H2 H3 H4] [Ht0 Hle] Hl. pose proof (prune_wf _ _ _ Hw Hle) as Hp.
  assert (next_reservation_id (prune now (rate_window h)) = next_reservation_id (rate_window h)) as En by done.
  destruct limit as [l|]; cycle 1.
  { rewrite try_reserve_unlimited. do 2 eexists. split; [done|]. cbn [rate_blocks rolled_back].
    rewrite En. split; [done|]. split; [lia|]. split; [done|]. split; [done|]. split; [done|lia]. }
  cbn [valid_limit] in Hl. cbn [rate_blocks].
  assert (next_reservation_id (rate_window h) < u64_max) as Hid by lia.
  destruct (try_reserve_cases _ now _ l (fixed_waiters h) fixed Hw Hle Hl Hid)
      as [(Hfull & at_ & _ & ->)|[(Hnot & -> & Hfw & ->)|(Hnot & Hfw & E)]].
  - do 2 eexists. split; [done|]. rewrite En. split; [done|]. split; [lia|].
    by rewrite (proj2 (Z.leb_le _ _) Hfull).
  - do 2 eexists. split; [done|]. rewrite En. split; [done|]. split; [lia|].
    rewrite (proj2 (Z.leb_le _ _) Hfw). cbn. by rewrite orb_true_r.
  - pose proof (rollback_granted _ _ _ _ _ _ _ _ Hw Hle E) as Erb. rewrite E.
    do 2 eexists. split; [done|]. apply requests_per_minute_bounds in Hl as [Hl1 Hl2].
    split; [by eapply reserved_wf; [exact Hw|..]; try lia|]. split; [cbn; lia|].
    cbn [rolled_back]. rewrite Erb. cbn [snd attempts next_reservation_id].
    rewrite (proj2 (Z.leb_gt _ _)) by lia. split.
    { destruct Hfw as [->|Hfw]; [done|]. rewrite (proj2 (Z.leb_gt _ _)) by lia. by rewrite andb_false_r. }
    split; [done|]. split; [|lia]. destruct Hp as [P1 P2 P3 P4 P5 P6]. split; try done; cbn.
    * eapply Forall_impl; [exact P4|]. cbn. lia.
    * lia.
Qed.

(** The permit [p] was reserved on a handle that was [h] and is now [h']. *)
Record reserved (now : Instant) (adm : option nat) (h h' : CredentialRuntimeHandle)
    (p : RoutingPermit) : Prop := {
  rsv_flight : in_flight h' = in_flight h + 1;
  rsv_waiters : fixed_waiters h' = fixed_waiters h;
  rsv_changes : changes h' = changes h;
  rsv_back : attempts (rolled_back (rate_reservation p) (rate_window h')) =
             attempts (prune now (rate_window h));
  rsv_back_wf : window_wf now (rolled_back (rate_reservation p) (rate_window h'));
  rsv_back_id : next_reservation_id (rolled_back (rate_reservation p) (rate_window h')) <=
                next_reservation_id (rate_window h');
  rsv_admission : route_admission p = adm;
  rsv_started : attempt_started p = false
}.

Lemma rolled_back_id o w : next_reservation_id (rolled_back o w) = next_reservation_id w.
Proof.
  destruct o as [r|]; [|done]. cbn. unfold rollback. by destruct (remove_id _ _).
Qed.

Lemma handle_try_reserve_total n t0 now limit fixed adm h :
  0 <= n -> handle_ok (n + 1) t0 h -> 0 <= t0 <= now -> valid_limit limit ->
  exists r h', handle_try_reserve now limit fixed adm h = Ret (r, h') /\ handle_ok n now h' /\
    match r with
    | Ok p => rate_blocks fixed limit now h = false /\ reserved now adm h h' p
    | Err _ => rate_blocks fixed limit now h = true /\ in_flight h' = in_flight h /\
        fixed_waiters h' = fixed_waiters h /\ rate_window h' = prune now (rate_window h)
    end.
Proof.
  intros Hn Hok Ht Hl.
  destruct (try_reserve_outcome n t0 now limit fixed h Hn Hok Ht Hl) as (r & w & E & Hw & Hid & Hr).
  unfold handle_try_reserve. rewrite E. cbn [mbind outcome_bind]. destruct Hok as [W1 W2 W3 W4 W5].
  destruct r as [o|e].
  - unfold checked_add. cbn [in_flight]. rewrite (proj2 (Z.leb_le _ u32_max)) by lia.
    cbn [expect mbind outcome_bind]. do 2 eexists. split; [done|].
    split; [split; cbn; try done; lia|]. destruct Hr as (Hb & Hr1 & Hr2 & Hr3). split; [done|].
    split; cbn; try done. by rewrite rolled_back_id.
  - destruct Hr as [Hb ->]. do 2 eexists. split; [done|]. split; [split; cbn; try done; try lia; apply Hid|].
    by cbn.
Qed.

Lemma handle_rollback_total n t0 now adm h h' p e :
  0 <= n -> 0 <= in_flight h -> handle_ok (n + 1) t0 h' -> reserved now adm h h' p ->
  headroom (n + 1) e ->
  exists h2 e2, handle_rollback (rate_reservation p) h' e = Ret (h2, e2) /\ headroom n e2 /\
    handle_ok n now h2 /\ in_flight h2 = in_flight h /\ fixed_waiters h2 = fixed_waiters h /\
    attempts (rate_window h2) = attempts (prune now (rate_window h)).
Proof.
  intros Hn H0 Hok Hr He.
  assert (exists h2 e2, handle_rollback (rate_reservation p) h' e = Ret (h2, e2) /\
    headroom n e2 /\ changes h2 <= changes h' + 1) as (h2 & e2 & E & He2 & Hch).
  { unfold handle_rollback. destruct (match rate_reservation p with Some _ => _ | None => _ end) as [removed w].
    unfold release_in_flight, checked_sub. cbn [in_flight]. destruct Hr, Hok.
    rewrite (proj2 (Z.leb_le _ _)) by lia. cbn [expect mbind outcome_bind]. destruct removed.
    - unfold notify_change, checked_add. cbn [changes]. rewrite (proj2 (Z.leb_le _ u64_max)) by lia.
      cbn [expect mbind outcome_bind]. destruct (advance_total n e) as (e2 & -> & He2); [done|done|].
      cbn [mbind outcome_bind]. do 2 eexists. split; [done|]. split; [done|]. cbn. lia.
    - do 2 eexists. split; [done|]. split; [by eapply headroom_weaken; [exact He|lia]|]. cbn. lia. }
  exists h2, e2. split; [done|]. split; [done|]. apply handle_rollback_spec in E as (E1 & E2 & E3).
  destruct Hr as [R1 R2 R3 R4 R5 R6 _ _], Hok as [W1 W2 W3 W4 W5]. rewrite E2.
  split; [split; rewrite ?E2; try done; lia|]. split; [lia|]. split; [congruence|done].
Qed.

(** ** Steps that take nothing *)

(** A handle and its counters, as a later selection sees them. *)
Definition same_handle (t : Instant) (x x' : CredentialRuntimeHandle * CredentialBalancingMetrics)
    : Prop :=
  in_flight x'.1 = in_flight x.1 /\ fixed_waiters x'.1 = fixed_waiters x.1 /\
  selected x'.2 = selected x.2 /\
  forall t', t <= t' -> attempts (prune t' (rate_window x'.1)) = attempts (prune t' (rate_window x.1)).

(** Nothing is held that was not, no reservation counts that did not, and
    whatever a candidate is chosen by is as it was. *)
Record quiet (s s' : RoutingStore) : Prop := {
  qt_endpoints : endpoints (runtimes s') = endpoints (runtimes s);
  qt_proxies : proxies (runtimes s') = proxies (runtimes s);
  qt_auth : authentications (runtimes s') = authentications (runtimes s);
  qt_routings : forall rt, option_Forall2 (same_blocks (clock (ticks s')))
    (routings (runtimes s) !! rt) (routings (runtimes s') !! rt);
  qt_credentials : forall i, option_Forall2 (same_handle (clock (ticks s')))
    (credentials s !! i) (credentials s' !! i);
  qt_active : active_routes s' = active_routes s;
  qt_cursors : cursors s' = cursors s;
  qt_ticks : (ticks s <= ticks s')%nat
}.

Lemma option_Forall2_refl {A} (P : A -> A -> Prop) o : (forall x, P x x) -> option_Forall2 P o o.
Proof. intros H. destruct o; by constructor. Qed.

Lemma same_handle_refl t x : same_handle t x x.
Proof. by repeat split. Qed.

Lemma held_quiet s s' : held_over [] [] s s' -> quiet s s'.
Proof.
  intros [H1 H2 H3 H4 H5 H6 H7 H9 H8]. split; try done. intros i. rewrite H5.
  apply option_Forall2_refl. intros x. apply same_handle_refl.
Qed.

#[global] Instance quiet_preorder : PreOrder quiet.
Proof using Hclock.
  split.
  - intros s. split; try done; intros i; apply option_Forall2_refl; [done|].
    intros x. apply same_handle_refl.
  - intros s1 s2 s3 [A1 A2 A3 A4 A5 A6 A8 A7] [B1 B2 B3 B4 B5 B6 B8 B7].
    pose proof (Hclock _ _ B7) as Hle. split; try congruence; [| |lia].
    + intros rt. specialize (A4 rt). specialize (B4 rt).
      destruct A4 as [r r' Hr|]; inversion B4 as [? r'' Hr'|]; simplify_eq; constructor.
      intros t m Ht. rewrite Hr' by done. apply Hr. lia.
    + intros i. specialize (A5 i). specialize (B5 i).
      destruct A5 as [x x' (X1 & X2 & X3 & X4)|]; inversion B5 as [? x'' (Y1 & Y2 & Y3 & Y4)|];
        simplify_eq; constructor.
      split; [congruence|]. split; [congruence|]. split; [congruence|].
      intros t Ht. rewrite Y4 by done. apply X4. lia.
Qed.

(** What a selection at [now] takes from a handle and its counters. *)
Definition handle_took (now : Instant) (adm : option nat) (p : RoutingPermit)
    (x x' : CredentialRuntimeHandle * CredentialBalancingMetrics) : Prop :=
  reserved now adm x.1 x'.1 p /\ selected x'.2 = selected x.2.

(** The reservation [p] is held on the handle of the binding, and nothing else
    was touched since [s]. *)
Definition reserved_on (b : CredentialRuntimeBinding) (p : RoutingPermit) (s s' : RoutingStore)
    : Prop :=
  runtimes s' = runtimes s /\ active_routes s' = active_routes s /\ seen s' = seen s /\
  cursors s' = cursors s /\ (ticks s < ticks s')%nat /\
  exists h m h', credentials s !! handle b = Some (h, m) /\
    credentials s' = <[handle b := (h', m)]> (credentials s) /\
    reserved (clock (ticks s)) (binding_admission b) h h' p.

Definition binding_blocks (fixed : bool) (b : CredentialRuntimeBinding) (t : Instant)
    (s : RoutingStore) : bool :=
  match credentials s !! handle b with
  | Some (h, _) => rate_blocks fixed (requests_per_minute b) t h
  | None => false
  end.

Lemma with_credentials_ok n s i h m m0 h0 :
  store_ok n s -> credentials s !! i = Some (h0, m0) -> handle_ok n (clock (ticks s)) h ->
  store_ok n (with_credentials (<[i := (h, m)]> (credentials s)) s).
Proof.
  intros [H1 H2 H3 H4 H5] Hi Hh. split; try done. cbn. intros j h' m'.
  destruct (decide (i = j)) as [<-|Hne]; [rewrite lookup_insert_eq; by intros [= <- <-]|].
  rewrite lookup_insert_ne by done. apply H5.
Qed.

Lemma wp_binding_try_reserve n fixed b s :
  0 <= n -> 0 <= clock (ticks s) -> store_ok (n + 1) s -> is_Some (credentials s !! handle b) ->
  valid_limit (requests_per_minute b) ->
  wp (binding_try_reserve clock fixed b) (fun r s' => store_ok n s' /\ match r with
    | Ok p => reserved_on b p s s' /\ binding_blocks fixed b (clock (ticks s)) s = false
    | Err _ => quiet s s' /\ (ticks s < ticks s')%nat /\
        binding_blocks fixed b (clock (ticks s)) s = true
    end) s.
Proof using Hclock.
  intros Hn H0 Hok [[h m] Hh] Hl. unfold binding_try_reserve. apply wp_read_clock.
  set (now := clock (ticks s)) in *.
  pose proof (so_handles _ _ Hok _ _ _ Hh) as Hho.
  destruct (handle_try_reserve_total n now now (requests_per_minute b) fixed (binding_admission b) h)
    as (r & h' & E & Hok' & Hr); [done|done|lia|done|].
  eapply wp_on_store; [cbn [credentials tick]; rewrite Hh; cbn [expect mbind outcome_bind]; rewrite E; done|].
  assert (clock (ticks s) <= clock (S (ticks s))) as Hnow by (apply Hclock; lia).
  split.
  { eapply (with_credentials_ok n (tick s)); [|exact Hh|].
    - apply tick_ok. eapply store_room_weaken; [exact Hok|lia].
    - eapply handle_ok_later; [exact Hok'|]. done. }
  unfold binding_blocks. rewrite Hh. destruct r as [p|e].
  - destruct Hr as [Hb Hr]. split; [|done]. split; [done|]. split; [done|]. split; [done|].
    split; [done|]. split; [cbn; lia|]. exists h, m, h'. by split.
  - destruct Hr as (Hb & R1 & R2 & R3). split; [|split; [cbn; lia|done]]. split; try done; cbn.
    + intros rt. by apply option_Forall2_refl.
    + intros i. destruct (decide (handle b = i)) as [<-|Hne].
      * rewrite lookup_insert_eq, Hh. constructor. split; [done|]. split; [done|]. split; [done|].
        cbn. intros t Ht. rewrite R3. eapply (prune_prune now); [apply Hho|lia|unfold now; lia].
      * rewrite lookup_insert_ne by done. apply option_Forall2_refl. intros x. apply same_handle_refl.
    + lia.
Qed.

(** Rolling a reservation back leaves nothing of it. *)
Lemma wp_permit_rollback n b p s s1 s2 :
  0 <= n -> 0 <= clock (ticks s) -> (exists m, store_ok m s) -> store_ok (n + 1) s2 ->
  reserved_on b p s s1 -> held_over [] [] s1 s2 ->
  wp (permit_rollback b p) (fun _ s3 => store_ok n s3 /\ quiet s s3 /\ (ticks s < ticks s3)%nat) s2.
Proof using Hclock.
  intros Hn H0 [m0 Hs] Hok2 (Er & Ea & Es & Eu & Et & h & m & h' & Hh & Ec & Hrsv) Hh12.
  set (now := clock (ticks s)) in *. pose proof (so_handles _ _ Hs _ _ _ Hh) as Hho. fold now in Hho.
  assert (credentials s2 !! handle b = Some (h', m)) as Hh2.
  { rewrite (ho_credentials _ _ _ _ Hh12), Ec. apply lookup_insert_eq. }
  pose proof (ho_ticks _ _ _ _ Hh12) as Ht12.
  assert (now <= clock (ticks s2)) as Hnow by (apply Hclock; lia).
  destruct (handle_rollback_total n (clock (ticks s2)) now (binding_admission b) h h' p
    (epoch (runtimes s2))) as (h2 & e2 & E & He2 & Hok' & F1 & F2 & F3);
    [done|apply Hho|by eapply so_handles|done|apply Hok2|].
  unfold wp, permit_rollback. rewrite Hh2. cbn [expect mbind outcome_bind]. rewrite E.
  cbn [mbind outcome_bind].
  assert (store_ok n (with_credentials (<[handle b := (h2, m)]> (credentials s2)) s2)) as [S1 S2 S3 S4 S5].
  { eapply with_credentials_ok; [by eapply store_room_weaken; [exact Hok2|lia]|exact Hh2|].
    by eapply handle_ok_later. }
  destruct Hh12 as [A1 A2 A3 A4 A5 A6 A7 A9 A8].
  split; [by split|]. split; [split; cbn; rewrite ?Er in *; try congruence; try done|cbn; lia].
  - intros i. rewrite A5, Ec, insert_insert_eq. destruct (decide (handle b = i)) as [<-|Hne].
    + rewrite lookup_insert_eq, Hh. constructor. split; [done|]. split; [done|]. split; [done|].
      cbn [fst]. intros t Ht. rewrite <- (prune_prune now now t (rate_window h)); [|apply Hho|lia|lia].
      unfold prune at 1 3. cbn [attempts]. by rewrite F3.
    + rewrite lookup_insert_ne by done. apply option_Forall2_refl. intros x. apply same_handle_refl.
  - lia.
Qed.

(** Everything the candidate needs, with its reservation: both are held, or
    neither is. *)
Lemma wp_acquire_with_reservation n pol c p s s1 :
  0 <= n -> 0 <= clock (ticks s) -> (exists m, store_ok m s) -> store_ok (n + 9 + K) s1 ->
  candidate_ok s c -> reserved_on (binding c) p s s1 ->
  wp (acquire_health_with_rpm_reservation clock pol c p) (fun r s' => store_ok n s' /\ match r with
    | Ok (p', a) => p' = p /\ attempt_for pol c a /\
        held_over (attempt_endpoints a) (option_list (proxy a)) s1 s'
    | Err _ => quiet s s' /\ (ticks s < ticks s')%nat /\
        (distinct_runtimes c -> exists k, (ticks s <= k)%nat /\
           candidate_refuses pol c (clock k) (runtimes s) = true)
    end) s1.
Proof using Hclock HK.
  intros Hn H0 Hs Hok1 Hc Hrsv. unfold acquire_health_with_rpm_reservation.
  destruct (Hrsv) as (Er & Ea & Es & Eu & Et & h & m & h' & Hh & Ec & _).
  assert (candidate_ok s1 c) as Hc1.
  { destruct Hc as [C1 C2 C3 C4 C5 C6 C7]. split; rewrite ?Er; try done. rewrite Ec, lookup_insert_eq. by eexists. }
  eapply wp_then; [apply (wp_acquire_health (n + 1));
    [lia|by eapply store_room_weaken; [exact Hok1|lia]|done]|].
  intros r s2 [Hok2 Hr]. destruct r as [a|e].
  - apply wp_ret. split; [eapply store_room_weaken; [exact Hok2|lia]|]. by destruct Hr.
  - destruct Hr as [Hh2 Hr]. eapply wp_then; [by eapply (wp_permit_rollback n)|].
    intros [] s3 (Hok3 & Hq & Ht3). apply wp_ret. split; [done|]. split; [done|]. split; [done|].
    intros Hd. destruct (Hr Hd) as (k & Hk & Hf). exists k. rewrite <- Er. split; [lia|done].
Qed.

Lemma wp_on_health_bind f g Q s :
  wp (_ ← on_health f; on_health g) Q s -> wp (on_health (fun h => h ← f h; g h)) Q s.
Proof.
  unfold wp, on_health, mbind, R_bind. destruct (f (runtimes s)) as [h|]; [|done].
  cbn. by destruct s.
Qed.

Lemma held_option_one pol c a (H : attempt_for pol c a) :
  exists eg ca, egress_path a = Some eg /\ candidate_path a = Some ca /\
    held_runtime eg = egress_path_health c /\ held_runtime ca = candidate_path_health c.
Proof.
  destruct H as [_ _ _ _ He Hc _]. destruct (egress_path a) as [eg|]; [|done].
  destruct (candidate_path a) as [ca|]; [|done]. injection He as He. injection Hc as Hc. eauto 10.
Qed.

(** Dropping an attempt gives back everything it held. *)
Lemma wp_attempt_drop n m now pol c a s s1 :
  0 <= n -> store_ok m s -> candidate_ok s c -> store_ok (n + 4) s1 -> attempt_for pol c a ->
  held_over (attempt_endpoints a) (option_list (proxy a)) s s1 ->
  wp (on_health (attempt_drop now a)) (fun _ s2 => store_ok n s2 /\ held_over [] [] s s2) s1.
Proof.
  intros Hn Hs Hc Hok1 Ha Hh. destruct (held_option_one _ _ _ Ha) as (eg & ca & Eeg & Eca & Rg & Rc).
  unfold attempt_endpoints in Hh. rewrite Eeg, Eca in Hh. cbn [option_list app] in Hh.
  unfold attempt_drop. rewrite Eeg, Eca. cbn zeta.
  apply wp_on_health_bind. eapply wp_then.
  { eapply (wp_drop_endpoint (n + 3) m (policy a) (endpoint a) [ca; eg] (option_list (proxy a)));
      [lia|exact Hs|by eapply store_room_weaken; [exact Hok1|lia]| |].
    - eapply ho_permute; [|done|exact Hh]. symmetry. apply (Permutation_app_comm _ [ca; eg]).
    - intros p Hp. apply (co_endpoint _ _ Hc). by rewrite <- (af_endpoint _ _ _ Ha), Hp. }
  intros [] s2 [Hok2 Hh2]. apply wp_on_health_bind. eapply wp_then.
  { eapply (wp_drop_endpoint (n + 2) m (policy a) (Some eg) [ca] (option_list (proxy a)));
      [lia|exact Hs|by eapply store_room_weaken; [exact Hok2|lia]| |].
    - eapply ho_permute; [|done|exact Hh2]. apply Permutation_swap.
    - intros p [= <-]. rewrite Rg. by apply co_egress. }
  intros [] s3 [Hok3 Hh3]. apply wp_on_health_bind. eapply wp_then.
  { eapply (wp_drop_endpoint (n + 1) m (policy a) (Some ca) [] (option_list (proxy a)));
      [lia|exact Hs|by eapply store_room_weaken; [exact Hok3|lia]|exact Hh3|].
    intros p [= <-]. rewrite Rc. by apply co_candidate. }
  intros [] s4 [Hok4 Hh4].
  eapply (wp_drop_proxy n m (policy a) (proxy a) [] []); [done|exact Hs|exact Hok4| |].
  - by rewrite app_nil_r.
  - intros p Hp. apply (co_proxy _ _ Hc). by rewrite <- (af_proxy _ _ _ Ha), Hp.
Qed.

(** * Properties *)

(** C7. Acquiring the health of a candidate is all or nothing.  It returns; on
    success the attempt holds one permit of each runtime of the candidate and
    no circuit counts any other probe, and dropping the attempt gives every
    circuit back as it was; on a refusal every circuit, endpoint and proxy is
    exactly as before, and when the candidate's runtimes are distinct
    something it needs did refuse at an instant of the clock. *)
Theorem route_health_all_or_nothing n pol c now s :
  0 <= n -> store_ok (n + 12 + K) s -> candidate_ok s c ->
  exists r s', acquire_health clock pol c s = Ret (r, s') /\
    match r with
    | Ok a => attempt_for pol c a /\
        endpoints (runtimes s') = foldr hold_endpoint (endpoints (runtimes s)) (attempt_endpoints a) /\
        proxies (runtimes s') = foldr hold_proxy (proxies (runtimes s)) (option_list (proxy a)) /\
        exists h, attempt_drop now a (runtimes s') = Ret h /\
          endpoints h = endpoints (runtimes s) /\ proxies h = proxies (runtimes s)
    | Err _ => endpoints (runtimes s') = endpoints (runtimes s) /\
        proxies (runtimes s') = proxies (runtimes s) /\ credentials s' = credentials s /\
        (distinct_runtimes c -> exists k, (ticks s <= k)%nat /\
           candidate_refuses pol c (clock k) (runtimes s) = true)
    end.
Proof using Hclock HK.
  intros Hn Hok Hc.
  assert (store_ok (n + 4 + 8 + K) s) as Hok8 by (eapply store_room_weaken; [exact Hok|lia]).
  destruct (wp_elim _ _ _ (wp_acquire_health (n + 4) pol c s ltac:(lia) Hok8 Hc))
    as (r & s' & E & Hok' & Hr).
  exists r, s'. split; [done|]. destruct r as [a|e].
  - destruct Hr as [Ha Hh]. split; [done|]. split; [apply Hh|]. split; [apply Hh|].
    destruct (wp_elim _ _ _ (wp_attempt_drop n _ now pol c a s s' Hn Hok Hc Hok' Ha Hh))
      as (u & s2 & E2 & _ & Hh2).
    unfold on_health in E2. destruct (attempt_drop now a (runtimes s')) as [h|]; [|done].
    injection E2 as _ <-. exists h. split; [done|]. split; apply Hh2.
  - destruct Hr as [Hh Hr]. split; [apply Hh|]. split; [apply Hh|]. split; [apply Hh|done].
Qed.
End Holdings.

(** * A concrete candidate *)

Definition sample_clock (n : nat) : Instant := secs 100 + Z.of_nat n.

Definition sample_circuit (slot : Z) : CircuitRuntime :=
  {| failure_times := []; open_until := None; half_open_in_flight := 0; last_failure_at := None;
     wake := slot |}.
(** A circuit that is half open. *)
Definition sample_half_open (slot : Z) : CircuitRuntime :=
  {| failure_times := []; open_until := Some (secs 90); half_open_in_flight := 0;
     last_failure_at := Some (secs 80); wake := slot |}.
Definition sample_endpoint (c : CircuitRuntime) (slot : Z) : EndpointHealthRuntime :=
  {| endpoint_circuit := c; transient_until := None; transient_wake := slot |}.

Definition sample_routing : RoutingCredentialHealth :=
  {| credential_cooldown_until := None; model_cooldowns := ∅; quota_exhaustion := None;
     credential_cooldown_wake := 10; quota_exhaustion_wake := 11 |}.

Definition sample_metrics : CredentialBalancingMetrics :=
  {| selected := 0; filtered_rate_limit := 0; filtered_credential_health := 0;
     filtered_endpoint_health := 0; filtered_proxy_health := 0; filtered_egress_path_health := 0;
     filtered_candidate_health := 0 |}.

Definition sample_store : RoutingStore :=
  {| runtimes := {| endpoints := {[ 1%nat := sample_endpoint (sample_half_open 1) 2;
                                    2%nat := sample_endpoint (sample_circuit 3) 4;
                                    3%nat := sample_endpoint (sample_circuit 5) 6 ]};
                    proxies := {[ 1%nat := sample_circuit 7 ]};
                    authentications := {[ 1%nat := (false, 1%nat) ]};
                    routings := {[ 1%nat := sample_routing ]};
                    epoch := epoch_new true |};
     credentials := {[ 1%nat := (handle_new, sample_metrics) ]};
     active_routes := {[ 1%nat ]}; seen := ∅; cursors := {[ 1%nat := 0 ]}; ticks := 0 |}.

Definition sample_route : RouteCandidate :=
  {| target_id := 1; operation := Responses; endpoint_id := 1; endpoint_config_version := 1;
     credential_id := inl 1; routing_generation := 1; upstream_model := "m"; proxy_id := 1;
     proxy_config_version := 1; authentication_version := 1 |}.

Definition sample_candidate : RoutedCandidate :=
  {| route := sample_route; endpoint_health := Some 1%nat; proxy_health := Some 1%nat;
     egress_path_health := 2; candidate_path_health := 3;
     binding := {| handle := 1; generation := 1; requests_per_minute := Some 1;
                   binding_admission := Some 1%nat |};
     candidate_admission := 1 |}.

Lemma sample_clock_monotone i j : (i <= j)%nat -> sample_clock i <= sample_clock j.
Proof. unfold sample_clock. lia. Qed.

Lemma sample_store_ok n : 0 <= n <= 1000 -> store_ok sample_clock 0 n sample_store.
Proof.
  intros Hn. split; cbn.
  - split; cbn; unfold u64_max; lia.
  - intros rt r Hr. apply lookup_singleton_Some in Hr as [_ <-]. done.
  - intros i h. rewrite !lookup_insert_Some, lookup_singleton_Some.
    unfold probes_ok, u32_max. intros [[_ <-]|[_ [[_ <-]|[_ [_ <-]]]]]; cbn; lia.
  - intros i h Hi. apply lookup_singleton_Some in Hi as [_ <-]. unfold probes_ok, u32_max. cbn. lia.
  - intros i h m Hi. apply lookup_singleton_Some in Hi as [_ [= <- <-]].
    split; cbn; unfold u32_max, u64_max; try lia. split; cbn; try by constructor.
    by vm_compute.
Qed.

Lemma sample_candidate_ok : candidate_ok sample_store sample_candidate.
Proof.
  split; cbn.
  - exists false, 1%nat, sample_routing. done.
  - intros id [= <-]. by eexists.
  - intros id [= <-]. by eexists.
  - by eexists.
  - by eexists.
  - by eexists.
  - done.
Qed.

Lemma route_health_all_or_nothing_witness :
  exists r s', acquire_health sample_clock (policy_from_settings 60) sample_candidate sample_store
    = Ret (r, s') /\ is_ok r = true.
Proof.
  destruct (route_health_all_or_nothing sample_clock sample_clock_monotone 0 ltac:(done) 0
    (policy_from_settings 60) sample_candidate 0 sample_store ltac:(done)
    (sample_store_ok (0 + 12 + 0) ltac:(lia)) sample_candidate_ok) as (r & s' & E & _).
  exists r, s'. split; [exact E|]. vm_compute in E. by injection E as <- _.
Defined.
