(* ===== verification/Selection.v ===== *)
(** Selection of a route candidate
    ([crates/runtime/src/public_request/selection/]: [tier.rs], the synchronous
    half of [generation.rs] and of [fixed.rs]).

    A tier is scanned in rounds, one for each level of retry preference, each
    round starting at the cursor of the tier; the first candidate that is
    admitted, allowed, eligible, not deferred, healthy and within its limit is
    taken.  The tiers of a route are tried in order; what they report decides
    how long the request may wait.  A request bound to a candidate tries that
    candidate alone.

    The tiers of a route are a [BTreeMap]: here a list in the order of its keys. *)

From S2P Require Import Prelude Protocol Epoch RateWindow Circuit Upstream Health Attempt Admission.
From S2P Require Import CredentialRuntime Candidates TierCursor RouteHealth.

Local Open Scope Z_scope.

(** * Scanning one tier *)

(** [SelectedCandidate] *)
Record SelectedCandidate := {
  sel_candidate : RoutedCandidate;
  sel_permit : RoutingPermit;
  sel_health : AttemptHealth
}.

(** [TierScan] *)
Inductive TierScan :=
| Acquired (selected : SelectedCandidate) (skipped : Z)
| TierRateLimited (retry_at outage_retry_at cooldown_retry_at deferred_retry_at : option Instant)
| Exhausted (outage_retry_at cooldown_retry_at deferred_retry_at : option Instant).

(** The variables of the loop of [scan] *)
Record ScanNotes := {
  outage_retry_at : option Instant;
  cooldown_retry_at : option Instant;
  rate_retry_at : option Instant;
  deferred_retry_at : option Instant;
  saw_rate_limit : bool
}.

Definition scan_notes_new : ScanNotes :=
  {| outage_retry_at := None; cooldown_retry_at := None; rate_retry_at := None;
     deferred_retry_at := None; saw_rate_limit := false |}.

(** [earliest] *)
Definition earliest (current : option Instant) (candidate : Instant) : option Instant :=
  Some (match current with Some t => Z.min t candidate | None => candidate end).

(** [earliest_optional] *)
Definition earliest_optional (current candidate : option Instant) : option Instant :=
  match candidate with Some t => earliest current t | None => current end.

(** [note_temporary] *)
Definition note_temporary (u : TemporaryUnavailability) (n : ScanNotes) : ScanNotes :=
  match cause u with
  | Outage =>
      {| outage_retry_at := earliest (outage_retry_at n) (unavailable_until u);
         cooldown_retry_at := cooldown_retry_at n; rate_retry_at := rate_retry_at n;
         deferred_retry_at := deferred_retry_at n; saw_rate_limit := saw_rate_limit n |}
  | RateLimitCooldown =>
      {| outage_retry_at := outage_retry_at n;
         cooldown_retry_at := earliest (cooldown_retry_at n) (unavailable_until u);
         rate_retry_at := rate_retry_at n;
         deferred_retry_at := deferred_retry_at n; saw_rate_limit := saw_rate_limit n |}
  end.

Definition note_deferred (t : Instant) (n : ScanNotes) : ScanNotes :=
  {| outage_retry_at := outage_retry_at n; cooldown_retry_at := cooldown_retry_at n;
     rate_retry_at := rate_retry_at n;
     deferred_retry_at := earliest_optional (deferred_retry_at n) (Some t);
     saw_rate_limit := saw_rate_limit n |}.

Definition note_rate_limit (t : option Instant) (n : ScanNotes) : ScanNotes :=
  {| outage_retry_at := outage_retry_at n; cooldown_retry_at := cooldown_retry_at n;
     rate_retry_at := earliest_optional (rate_retry_at n) t;
     deferred_retry_at := deferred_retry_at n; saw_rate_limit := true |}.

Section Scan.
Context (clock : nat -> Instant).
Context (pol : ReliabilityPolicy) (selection_state : CandidateSelectionState).
Context (credential_eligible : RoutingCredentialId -> bool).

(** [note_health_error] *)
Definition note_health_error (c : RoutedCandidate) (e : CandidateHealthError) (n : ScanNotes)
    : R ScanNotes :=
  _ ← filter_record c (error_kind e);
  mret (match error_source e with
        | Temporary u => note_temporary u n
        | Permanent => n
        end).

(** What may be chosen at all, whatever its health and its limit. *)
Definition considered (active : bool) (c : RoutedCandidate) : bool :=
  active && allows selection_state (route c) && credential_eligible (credential_id (route c)).

(** The deferral of a candidate that has not passed at [now]. *)
Definition deferral (now : Instant) (c : RoutedCandidate) : option Instant :=
  match deferred_until selection_state (route c) with
  | Some not_before => if now <? not_before then Some not_before else None
  | None => None
  end.

(** One candidate of [scan]: it is taken, or the loop continues with what was
    noted. *)
Definition visit (now : Instant) (preference : nat) (c : RoutedCandidate) (n : ScanNotes)
    : R (option SelectedCandidate * ScanNotes) :=
  active ← on_store (fun s => Ret (admission_active s c, s));
  if negb (considered active c) ||
     negb (bool_decide (retry_preference selection_state (route c) = preference))
  then mret (None, n)
  else
    match deferral now c with
    | Some not_before => mret (None, note_deferred not_before n)
    | None =>
        r ← health_availability clock pol c;
        match r with
        | Err e => n ← note_health_error c e n; mret (None, n)
        | Ok _ =>
            r ← binding_try_reserve clock false (binding c);
            match r with
            | Err limited =>
                _ ← filter_record c FilterRateLimit;
                mret (None, note_rate_limit (retry_at limited) n)
            | Ok permit =>
                r ← acquire_health_with_rpm_reservation clock pol c permit;
                match r with
                | Err e => n ← note_health_error c e n; mret (None, n)
                | Ok (permit, health) =>
                    _ ← note_selection c;
                    mret (Some {| sel_candidate := c; sel_permit := permit;
                                  sel_health := health |}, n)
                end
            end
        end
    end.

(** The two loops of [scan]: the levels of preference, and the offsets from the
    start for each *)
Definition scan_order (len : nat) : list (nat * nat) :=
  preference ← seq 0 RETRY_PREFERENCE_LEVELS; offset ← seq 0 len; [(preference, offset)].

Fixpoint scan_loop (now : Instant) (candidates : list RoutedCandidate) (start : nat)
    (todo : list (nat * nat)) (n : ScanNotes) : R TierScan :=
  match todo with
  | [] =>
      mret (if saw_rate_limit n
            then TierRateLimited (rate_retry_at n) (outage_retry_at n) (cooldown_retry_at n)
                   (deferred_retry_at n)
            else Exhausted (outage_retry_at n) (cooldown_retry_at n) (deferred_retry_at n))
  | (preference, offset) :: todo =>
      c ← on_store (fun s => c ← index candidates ((start + offset) mod length candidates);
                             Ret (c, s));
      v ← visit now preference c n;
      match v with
      | (Some x, _) => mret (Acquired x (Z.of_nat offset))
      | (None, n) => scan_loop now candidates start todo n
      end
  end.

(** [scan] *)
Definition scan (candidates : list RoutedCandidate) (tie_breaker : Z) : R TierScan :=
  match candidates with
  | [] => mret (Exhausted None None None)
  | _ =>
      let start := Z.to_nat (tie_breaker mod Zlen candidates) in
      now ← read_clock clock;
      scan_loop now candidates start (scan_order (length candidates)) scan_notes_new
  end.

(** * Scanning the tiers of a route *)

(** [GenerationSelection] *)
Inductive GenerationSelection :=
| SelAcquired (selected : SelectedCandidate)
| SelRateLimited (retry_at : option Instant)
| TemporarilyUnavailable (retry_at : Instant)
| RetryDeferred (retry_at : Instant)
| NoCandidates.

(** The variables of the loop of [try_select_with] *)
Record TierNotes := {
  tn_saw_rate_limit : bool;
  tn_rate_retry_at : option Instant;
  tn_skipped_retry_at : option Instant;
  tn_deferred_retry_at : option Instant
}.

Definition tier_notes_new : TierNotes :=
  {| tn_saw_rate_limit := false; tn_rate_retry_at := None; tn_skipped_retry_at := None;
     tn_deferred_retry_at := None |}.

(** [internal_error] *)
Definition internal_error : PublicError :=
  public_error InternalError "internal request planning failed".

(** A cursor that does not exist is an internal error of the request. *)
Definition reserve_cursor (cursor : option nat) : R (option Z) := on_store (fun s =>
  match cursor with
  | None => Ret (None, s)
  | Some id =>
      '(v, m) ← reserve id (cursors s);
      Ret (Some v, {| runtimes := runtimes s; credentials := credentials s;
                      active_routes := active_routes s; seen := seen s; cursors := m;
                      ticks := ticks s |})
  end).

Definition advance_cursor (cursor : option nat) (skipped : Z) : R bool := on_store (fun s =>
  match cursor with
  | None => Ret (false, s)
  | Some id =>
      m ← advance_by id skipped (cursors s);
      Ret (true, {| runtimes := runtimes s; credentials := credentials s;
                    active_routes := active_routes s; seen := seen s; cursors := m;
                    ticks := ticks s |})
  end).

(** Dropping a [SelectedCandidate]: its permit is released and its health is
    settled as neutral *)
Definition selected_drop (x : SelectedCandidate) : R unit :=
  _ ← on_store (fun s =>
        let i := handle (binding (sel_candidate x)) in
        '(h, m) ← expect (credentials s !! i);
        h ← routing_permit_drop h;
        Ret (tt, with_credentials (<[i := (h, m)]> (credentials s)) s));
  now ← read_clock clock;
  on_health (attempt_drop now (sel_health x)).

(** What [try_select_with] answers once every tier was tried *)
Definition exhausted_selection (n : TierNotes) : GenerationSelection :=
  let earliest_wake_at :=
    earliest_optional (earliest_optional (tn_deferred_retry_at n) (tn_rate_retry_at n))
      (tn_skipped_retry_at n) in
  match tn_deferred_retry_at n, earliest_wake_at with
  | Some _, Some t => RetryDeferred t
  | _, _ =>
      if tn_saw_rate_limit n then SelRateLimited earliest_wake_at
      else match tn_skipped_retry_at n with
           | Some t => TemporarilyUnavailable t
           | None => NoCandidates
           end
  end.

(** The tiers of [try_select_with]; [cursor_for] gives the cursor of a tier *)
Fixpoint select_tiers (fallback_on_rate_limit has_active_deferral : bool)
    (cursor_for : Z -> option nat) (tiers : list (Z * list RoutedCandidate)) (n : TierNotes)
    : R (result GenerationSelection PublicError) :=
  match tiers with
  | [] => mret (Ok (exhausted_selection n))
  | (tier, candidates) :: tiers =>
      v ← reserve_cursor (cursor_for tier);
      match v with
      | None => mret (Err internal_error)
      | Some tie_breaker =>
          r ← scan candidates tie_breaker;
          match r with
          | Acquired x skipped =>
              advanced ← advance_cursor (cursor_for tier) skipped;
              if advanced : bool then mret (Ok (SelAcquired x))
              else _ ← selected_drop x; mret (Err internal_error)
          | TierRateLimited retry_at outage cooldown deferred =>
              let n := {| tn_saw_rate_limit := true;
                          tn_rate_retry_at := earliest_optional (tn_rate_retry_at n) retry_at;
                          tn_skipped_retry_at :=
                            earliest_optional (earliest_optional (tn_skipped_retry_at n) outage)
                              cooldown;
                          tn_deferred_retry_at :=
                            earliest_optional (tn_deferred_retry_at n) deferred |} in
              if negb fallback_on_rate_limit && negb has_active_deferral
              then mret (Ok (SelRateLimited (earliest_optional (tn_rate_retry_at n)
                                               (tn_skipped_retry_at n))))
              else select_tiers fallback_on_rate_limit has_active_deferral cursor_for tiers n
          | Exhausted outage cooldown deferred =>
              let n := {| tn_saw_rate_limit := tn_saw_rate_limit n;
                          tn_rate_retry_at := tn_rate_retry_at n;
                          tn_skipped_retry_at :=
                            earliest_optional (earliest_optional (tn_skipped_retry_at n) outage)
                              cooldown;
                          tn_deferred_retry_at :=
                            earliest_optional (tn_deferred_retry_at n) deferred |} in
              match (if negb fallback_on_rate_limit && negb has_active_deferral
                     then cooldown else None) with
              | Some retry_at =>
                  mret (Ok (TemporarilyUnavailable
                              (match outage with
                               | Some t => Z.min t retry_at
                               | None => retry_at
                               end)))
              | None => select_tiers fallback_on_rate_limit has_active_deferral cursor_for tiers n
              end
          end
      end
  end.

(** Whether some candidate is deferred for now *)
Definition active_deferral (now : Instant) (tiers : list (Z * list RoutedCandidate))
    (s : RoutingStore) : bool :=
  existsb (fun c => considered (admission_active s c) c && bool_decide (is_Some (deferral now c)))
    (tiers ≫= snd).

(** [try_select_with], and [try_select] with the cursors of a route *)
Definition try_select_with (fallback_on_rate_limit : bool) (cursor_for : Z -> option nat)
    (tiers : list (Z * list RoutedCandidate)) : R (result GenerationSelection PublicError) :=
  now ← read_clock clock;
  has_active_deferral ← on_store (fun s => Ret (active_deferral now tiers s, s));
  select_tiers fallback_on_rate_limit has_active_deferral cursor_for tiers tier_notes_new.

Definition try_select (route_id : Z) (bindings : gmap (Z * Z) nat) (fallback_on_rate_limit : bool)
    (tiers : list (Z * list RoutedCandidate)) : R (result GenerationSelection PublicError) :=
  try_select_with fallback_on_rate_limit (fun tier => cursor_of route_id tier bindings) tiers.

(** * A fixed candidate *)

Inductive FixedSelectionError := QueueFull | Timeout | Unavailable | Internal.

Inductive FixedWait :=
| WaitHealth (until : Instant)
| WaitRateLimit (until : option Instant).

Inductive FixedAttempt :=
| FixedAcquired (selected : SelectedCandidate)
| FixedWaiting (wait : FixedWait).

(** [FixedWait::retry_at] and [reserves_rpm_slot] *)
Definition fixed_retry_at (w : FixedWait) : option Instant :=
  match w with WaitHealth t => Some t | WaitRateLimit o => o end.
Definition reserves_rpm_slot (w : FixedWait) : bool :=
  match w with WaitHealth _ => false | WaitRateLimit _ => true end.

(** How a refusal of health ends an attempt on the fixed candidate *)
Definition fixed_refusal (c : RoutedCandidate) (e : CandidateHealthError)
    : R (result FixedAttempt FixedSelectionError) :=
  _ ← filter_record c (error_kind e);
  mret (match error_source e with
        | Temporary u => Ok (FixedWaiting (WaitHealth (unavailable_until u)))
        | Permanent => Err Unavailable
        end).

(** [try_selected] *)
Definition try_selected (c : RoutedCandidate) : R (result FixedAttempt FixedSelectionError) :=
  active ← on_store (fun s => Ret (admission_active s c, s));
  if negb active then mret (Err Unavailable)
  else
    r ← health_availability clock pol c;
    match r with
    | Err e => fixed_refusal c e
    | Ok _ =>
        r ← binding_try_reserve clock true (binding c);
        match r with
        | Err limited =>
            _ ← filter_record c FilterRateLimit;
            mret (Ok (FixedWaiting (WaitRateLimit (retry_at limited))))
        | Ok permit =>
            r ← acquire_health_with_rpm_reservation clock pol c permit;
            match r with
            | Err e => fixed_refusal c e
            | Ok (permit, health) =>
                _ ← note_selection c;
                mret (Ok (FixedAcquired {| sel_candidate := c; sel_permit := permit;
                                           sel_health := health |}))
            end
        end
    end.

(** [final_selection] *)
Definition final_selection (c : RoutedCandidate) : R (result SelectedCandidate FixedSelectionError) :=
  r ← try_selected c;
  mret (match r with
        | Ok (FixedAcquired x) => Ok x
        | Ok (FixedWaiting _) => Err Timeout
        | Err e => Err e
        end).
End Scan.

(** * The order of a scan *)

Definition before (a b : nat * nat) : Prop :=
  (a.1 < b.1)%nat \/ a.1 = b.1 /\ (a.2 < b.2)%nat.

Lemma row_sorted p a k :
  StronglySorted before (offset ← seq a k; [(p, offset)]).
Proof.
  revert a. induction k as [|k IH]; intros a; [constructor|].
  change (StronglySorted before ([(p, a)] ++ (offset ← seq (S a) k; [(p, offset)]))).
  apply StronglySorted_app_2; [|repeat constructor|apply IH].
  intros x y Hx Hy. apply list_elem_of_singleton in Hx as ->.
  apply list_elem_of_bind in Hy as (o & Hy & Ho). apply list_elem_of_singleton in Hy as ->.
  apply elem_of_seq in Ho. right. cbn. lia.
Qed.

Lemma rows_sorted len a k :
  StronglySorted before (preference ← seq a k; offset ← seq 0 len; [(preference, offset)]).
Proof.
  revert a. induction k as [|k IH]; intros a; [constructor|].
  change (StronglySorted before ((offset ← seq 0 len; [(a, offset)]) ++
    (preference ← seq (S a) k; offset ← seq 0 len; [(preference, offset)]))).
  apply StronglySorted_app_2; [|apply row_sorted|apply IH].
  intros x y Hx Hy. apply list_elem_of_bind in Hx as (o & Hx & _).
  apply list_elem_of_singleton in Hx as ->.
  apply list_elem_of_bind in Hy as (p & Hy & Hp). apply list_elem_of_bind in Hy as (o' & Hy & _).
  apply list_elem_of_singleton in Hy as ->. apply elem_of_seq in Hp. left. cbn. lia.
Qed.

Lemma scan_order_elem len p o :
  (p, o) ∈ scan_order len <-> (p < RETRY_PREFERENCE_LEVELS)%nat /\ (o < len)%nat.
Proof.
  unfold scan_order. rewrite list_elem_of_bind. split.
  - intros (p' & Hp & Hin). apply list_elem_of_bind in Hp as (o' & Ho & Hin').
    apply list_elem_of_singleton in Ho as [= -> ->]. apply elem_of_seq in Hin, Hin'. lia.
  - intros [Hp Ho]. exists p. rewrite list_elem_of_bind, elem_of_seq. split; [|lia].
    exists o. rewrite elem_of_seq, list_elem_of_singleton. split; [done|lia].
Qed.

Lemma scan_order_prefix len pre a post b :
  scan_order len = pre ++ a :: post -> b ∈ scan_order len -> before b a -> b ∈ pre.
Proof.
  intros E Hb Hba. pose proof (rows_sorted len 0 RETRY_PREFERENCE_LEVELS) as Hs.
  fold (scan_order len) in Hs. rewrite E in Hs, Hb.
  apply elem_of_app in Hb as [Hb|Hb]; [done|]. exfalso.
  assert (before a b \/ a = b) as [H|<-].
  { apply elem_of_cons in Hb as [->|Hb]; [by right|left].
    apply (StronglySorted_app_1_r _ pre) in Hs. apply StronglySorted_inv in Hs as [_ Hs].
    rewrite Forall_forall in Hs. by apply Hs. }
  - destruct a, b. unfold before in *. cbn in *. lia.
  - destruct a. unfold before in Hba. cbn in Hba. lia.
Qed.

Lemma retry_preference_bound s c : (retry_preference s c < RETRY_PREFERENCE_LEVELS)%nat.
Proof. unfold retry_preference, RETRY_PREFERENCE_LEVELS. repeat case_match; lia. Qed.

(** Every position of a tier is at some offset from the start. *)
Lemma rotation_covers (len start i : nat) :
  (start < len)%nat -> (i < len)%nat -> exists o, (o < len)%nat /\ ((start + o) mod len)%nat = i.
Proof.
  intros Hs Hi. destruct (decide (start <= i)%nat) as [H|H].
  - exists (i - start)%nat. split; [lia|]. replace (start + (i - start))%nat with i by lia.
    by apply Nat.mod_small.
  - exists (i + len - start)%nat. split; [lia|].
    replace (start + (i + len - start))%nat with (i + 1 * len)%nat by lia.
    rewrite Nat.Div0.mod_add. by apply Nat.mod_small.
Qed.

(** * Facts about one visit *)

Section Facts.
Context (clock : nat -> Instant) (Hclock : forall i j, (i <= j)%nat -> clock i <= clock j).
Context (H0 : 0 <= clock 0).
Context (K : Z) (HK : 0 <= K).
Context (pol : ReliabilityPolicy) (selection_state : CandidateSelectionState).
Context (credential_eligible : RoutingCredentialId -> bool).

Local Abbreviation store_ok := (RouteHealth.store_ok clock K).
Local Abbreviation quiet := (RouteHealth.quiet clock).
Local Abbreviation held_over := (RouteHealth.held_over clock).

Lemma clock_nonneg k : 0 <= clock k.
Proof using Hclock H0. etrans; [exact H0|]. apply Hclock. lia. Qed.

(** What a candidate is chosen by is the same after steps that take nothing. *)
Lemma quiet_refuses s s' c t :
  quiet s s' -> clock (ticks s') <= t ->
  candidate_refuses pol c t (runtimes s') = candidate_refuses pol c t (runtimes s).
Proof.
  intros [H1 H2 H3 H4 H5 H6 H7 H8] Ht.
  refine (candidate_refuses_settled clock pol c s
    {| runtimes := runtimes s'; credentials := credentials s; active_routes := active_routes s;
       seen := seen s; cursors := cursors s; ticks := ticks s' |} t _ Ht).
  by split.
Qed.

Lemma quiet_blocks s s' fixed b t :
  quiet s s' -> clock (ticks s') <= t ->
  binding_blocks fixed b t s' = binding_blocks fixed b t s.
Proof.
  intros Hq Ht. unfold binding_blocks.
  destruct (qt_credentials _ _ _ Hq (handle b)) as [[h m] [h' m'] (_ & Hf & _ & Hw)|]; [|done].
  unfold rate_blocks. cbn [fst] in *. by rewrite Hw, Hf.
Qed.

Lemma quiet_active s s' c : quiet s s' -> admission_active s' c = admission_active s c.
Proof. intros Hq. unfold admission_active. by rewrite (qt_active _ _ _ Hq). Qed.

Lemma quiet_candidate_ok s s' c : quiet s s' -> candidate_ok s c -> candidate_ok s' c.
Proof.
  intros [H1 H2 H3 H4 H5 H6 H7 H8] [C1 C2 C3 C4 C5 C6 C7].
  split; rewrite ?H1, ?H2, ?H3; try done.
  - destruct C1 as (auth & rt & r & Ea & Er). specialize (H4 rt). rewrite Er in H4.
    inversion H4 as [? r' _ E1 E2|]. exists auth, rt, r'. by rewrite <- E2.
  - destruct C6 as [x Hx]. specialize (H5 (handle (binding c))). rewrite Hx in H5.
    inversion H5 as [? x' _ E1 E2|]. by eexists.
Qed.

Lemma metrics_quiet s i h m m' :
  credentials s !! i = Some (h, m) -> selected m' = selected m ->
  forall seen', quiet s {| runtimes := runtimes s; credentials := <[i := (h, m')]> (credentials s);
    active_routes := active_routes s; seen := seen'; cursors := cursors s; ticks := ticks s |}.
Proof.
  intros Hi Hm seen'. split; try done; cbn.
  - intros rt. by apply option_Forall2_refl.
  - intros j. destruct (decide (i = j)) as [<-|Hne].
    + rewrite lookup_insert_eq, Hi. constructor. by repeat split.
    + rewrite lookup_insert_ne by done. apply option_Forall2_refl. intros x. apply same_handle_refl.
Qed.

Lemma metrics_ok n s i h m m' seen' :
  store_ok n s -> credentials s !! i = Some (h, m) ->
  store_ok n {| runtimes := runtimes s; credentials := <[i := (h, m')]> (credentials s);
    active_routes := active_routes s; seen := seen'; cursors := cursors s; ticks := ticks s |}.
Proof.
  intros Hok Hi. pose proof (so_handles _ _ _ _ Hok _ _ _ Hi) as Hh.
  destruct Hok as [S1 S2 S3 S4 S5]. split; try done. cbn. intros j h' m''.
  destruct (decide (i = j)) as [<-|Hne]; [rewrite lookup_insert_eq; by intros [= <- <-]|].
  rewrite lookup_insert_ne by done. apply S5.
Qed.

Lemma wp_filter_record n c kind s :
  store_ok n s -> is_Some (credentials s !! handle (binding c)) ->
  wp (filter_record c kind) (fun _ s' => store_ok n s' /\ quiet s s' /\ ticks s' = ticks s) s.
Proof using Hclock.
  intros Hok [[h m] Hh]. unfold wp, filter_record. destruct (bool_decide _).
  - split; [done|]. split; [|done]. pose proof (quiet_preorder clock Hclock) as [Hr _]. apply Hr.
  - rewrite Hh. cbn [expect mbind outcome_bind]. split; [by eapply metrics_ok|].
    split; [by eapply metrics_quiet|done].
Qed.

Lemma wp_note_health_error n c e notes s :
  store_ok n s -> is_Some (credentials s !! handle (binding c)) ->
  wp (note_health_error c e notes) (fun notes' s' => store_ok n s' /\ quiet s s' /\
    ticks s' = ticks s /\ saw_rate_limit notes' = saw_rate_limit notes) s.
Proof using Hclock.
  intros Hok Hh. unfold note_health_error. eapply wp_then; [by apply (wp_filter_record n)|].
  intros [] s' (Hok' & Hq & Ht). apply wp_ret. split; [done|]. split; [done|]. split; [done|].
  destruct (error_source e) as [u|]; [|done]. unfold note_temporary. by destruct (cause u).
Qed.

(** Why a candidate that may be chosen was passed over, as of the store [s]: a
    deferral, a refusal at a reading of the clock or, when [limited], the limit
    of its credential. *)
Definition passed (now : Instant) (limited : bool) (s : RoutingStore) (c : RoutedCandidate) : Prop :=
  is_Some (deferral selection_state now c) \/
  exists k, (ticks s <= k)%nat /\
    (candidate_refuses pol c (clock k) (runtimes s) = true \/
     limited = true /\ binding_blocks false (binding c) (clock k) s = true).

Lemma passed_quiet now limited s s' c :
  quiet s s' -> passed now limited s' c -> passed now limited s c.
Proof using Hclock.
  intros Hq [Hd|(k & Hk & Hr)]; [by left|right]. exists k. pose proof (qt_ticks _ _ _ Hq).
  split; [lia|]. assert (clock (ticks s') <= clock k) as Ht by (apply Hclock; lia).
  by rewrite (quiet_refuses s s') in Hr; [rewrite (quiet_blocks s s') in Hr|..].
Qed.

Lemma passed_weaken now limited s c : passed now limited s c -> passed now true s c.
Proof. intros [Hd|(k & Hk & [Hr|[_ Hr]])]; [by left|right; eauto..]. Qed.

(** The candidate was taken: it holds one permit of each of its runtimes and one
    reservation, at an instant where nothing refused, and nothing else changed. *)
Record taken (fixed : bool) (x : SelectedCandidate) (s s' : RoutingStore) : Prop := {
  tk_attempt : attempt_for pol (sel_candidate x) (sel_health x);
  tk_free : exists k, (ticks s <= k)%nat /\
    candidate_refuses pol (sel_candidate x) (clock k) (runtimes s) = false /\
    binding_blocks fixed (binding (sel_candidate x)) (clock k) s = false;
  tk_endpoints : endpoints (runtimes s') =
    foldr hold_endpoint (endpoints (runtimes s)) (attempt_endpoints (sel_health x));
  tk_proxies : proxies (runtimes s') =
    foldr hold_proxy (proxies (runtimes s)) (option_list (proxy (sel_health x)));
  tk_auth : authentications (runtimes s') = authentications (runtimes s);
  tk_active : active_routes s' = active_routes s;
  tk_cursors : cursors s' = cursors s;
  tk_reserved : exists h m h' k, credentials s !! handle (binding (sel_candidate x)) = Some (h, m) /\
    credentials s' =
      <[handle (binding (sel_candidate x)) := (h', record_selection m)]> (credentials s) /\
    (ticks s <= k)%nat /\
    reserved (clock k) (binding_admission (binding (sel_candidate x))) h h' (sel_permit x)
}.

(** Reserving and acquiring a candidate that was just found available. *)
Lemma wp_take n fixed c p s s1 s2 :
  0 <= n -> store_ok (n + 9 + K) s2 -> candidate_ok s c -> (exists m, store_ok m s1) ->
  answers clock (candidate_refuses pol c) s (Ok tt : result unit CandidateHealthError) s1 ->
  reserved_on clock (binding c) p s1 s2 ->
  binding_blocks fixed (binding c) (clock (ticks s1)) s1 = false ->
  wp (acquire_health_with_rpm_reservation clock pol c p) (fun r s' => store_ok n s' /\ match r with
    | Ok (p, a) =>
        wp (note_selection c) (fun _ s'' => store_ok n s'' /\
          taken fixed {| sel_candidate := c; sel_permit := p; sel_health := a |} s s'') s'
    | Err _ => quiet s s' /\ ~ distinct_runtimes c
    end) s2.
Proof using Hclock H0 HK.
  intros Hn Hok2 Hc Hok1 [Hh1 Hfree] Hrsv Hb.
  pose proof (candidate_ok_held clock _ _ _ _ _ Hh1 Hc) as Hc1.
  assert (0 <= clock (ticks s1)) as Hpos by apply clock_nonneg.
  pose proof (ho_ticks _ _ _ _ _ Hh1) as T1.
  eapply wp_weaken; [by apply (wp_acquire_with_reservation clock Hclock K HK n pol c p s1 s2)|].
  intros r s3 [Hok3 Hr]. split; [done|]. destruct r as [[p' a]|e].
  - destruct Hr as (-> & Ha & Hh3). destruct Hrsv as (Er & Ea & Es & Eu & Et & h & m & h' & Hh & Ec & Hr).
    assert (credentials s3 = <[handle (binding c) := (h', m)]> (credentials s1)) as Ec3
      by (by rewrite (ho_credentials _ _ _ _ _ Hh3), Ec).
    unfold wp, note_selection. rewrite Ec3, lookup_insert_eq. cbn [expect mbind outcome_bind].
    rewrite insert_insert_eq. split.
    { pose proof (metrics_ok n s3 (handle (binding c)) h' m (record_selection m) (seen s3) Hok3) as Hm.
      rewrite Ec3, lookup_insert_eq, insert_insert_eq in Hm. by apply Hm. }
    split; cbn [sel_candidate sel_health sel_permit runtimes with_credentials active_routes cursors credentials]; try done.
    + exists (ticks s1). split; [lia|]. split; [by apply Hfree|].
      rewrite <- Hb. symmetry. apply quiet_blocks; [by apply held_quiet|done].
    + by rewrite (ho_endpoints _ _ _ _ _ Hh3), Er, (ho_endpoints _ _ _ _ _ Hh1).
    + by rewrite (ho_proxies _ _ _ _ _ Hh3), Er, (ho_proxies _ _ _ _ _ Hh1).
    + by rewrite (ho_auth _ _ _ _ _ Hh3), Er, (ho_auth _ _ _ _ _ Hh1).
    + by rewrite (ho_active _ _ _ _ _ Hh3), Ea, (ho_active _ _ _ _ _ Hh1).
    + by rewrite (ho_cursors _ _ _ _ _ Hh3), Eu, (ho_cursors _ _ _ _ _ Hh1).
    + exists h, m, h', (ticks s1). rewrite <- (ho_credentials _ _ _ _ _ Hh1). done.
  - destruct Hr as (Hq & Ht & Hr). split.
    + pose proof (quiet_preorder clock Hclock) as [_ Htr]. eapply Htr; [by apply held_quiet|done].
    + intros Hd. destruct (Hr Hd) as (k & Hk & Hf).
      rewrite (quiet_refuses s s1) in Hf; [|by apply held_quiet|by apply Hclock].
      rewrite Hfree in Hf; [done|by apply Hclock].
Qed.

Lemma quiet_refl s : quiet s s.
Proof using Hclock. apply (quiet_preorder clock Hclock). Qed.

Lemma quiet_trans s1 s2 s3 : quiet s1 s2 -> quiet s2 s3 -> quiet s1 s3.
Proof using Hclock. apply (quiet_preorder clock Hclock). Qed.

Lemma quiet_handle s s' c :
  quiet s s' -> candidate_ok s c -> is_Some (credentials s' !! handle (binding c)).
Proof. intros Hq Hc. by apply (co_handle _ _ (quiet_candidate_ok _ _ _ Hq Hc)). Qed.

(** Room for one visit. *)
Definition visit_cost : Z := 2 * K + 10.

Definition may_choose (s : RoutingStore) (c : RoutedCandidate) : bool :=
  considered selection_state credential_eligible (admission_active s c) c.

Lemma may_choose_quiet s s' c : quiet s s' -> may_choose s' c = may_choose s c.
Proof. intros Hq. unfold may_choose. by rewrite (quiet_active s s'). Qed.

Definition visited (now : Instant) (preference : nat) (c : RoutedCandidate) (n : ScanNotes)
    (s : RoutingStore) (v : option SelectedCandidate * ScanNotes) (s' : RoutingStore) : Prop :=
  match v.1 with
  | None => quiet s s' /\ (saw_rate_limit n = true -> saw_rate_limit v.2 = true) /\
      (may_choose s c = true -> retry_preference selection_state (route c) = preference ->
       distinct_runtimes c -> passed now (saw_rate_limit v.2) s c)
  | Some x => sel_candidate x = c /\ may_choose s c = true /\
      retry_preference selection_state (route c) = preference /\
      deferral selection_state now c = None /\ taken false x s s'
  end.

Lemma wp_visit n now preference c notes s :
  0 <= n -> store_ok (n + visit_cost) s -> candidate_ok s c ->
  wp (visit clock pol selection_state credential_eligible now preference c notes)
    (fun v s' => store_ok n s' /\ visited now preference c notes s v s') s.
Proof using Hclock H0 HK.
  unfold visit_cost. intros Hn Hok Hc. unfold visit. apply wp_seq. unfold wp at 1, on_store.
  fold (may_choose s c).
  destruct (negb (may_choose s c) || _) eqn:Eskip.
  { apply wp_ret. split; [eapply store_room_weaken; [exact Hok|lia]|]. split; [apply quiet_refl|].
    split; [done|]. cbn [snd]. intros Hm Hp. rewrite Hm, (bool_decide_true _ Hp) in Eskip. done. }
  apply orb_false_iff in Eskip as [Em Ep]. apply negb_false_iff in Em, Ep.
  apply bool_decide_eq_true in Ep.
  destruct (deferral selection_state now c) as [t|] eqn:Ed.
  { apply wp_ret. split; [eapply store_room_weaken; [exact Hok|lia]|]. split; [apply quiet_refl|].
    split; [done|]. intros _ _ _. left. by eexists. }
  eapply wp_then; [apply (wp_health_availability clock Hclock K HK (n + 10 + K));
    [lia|by eapply store_room_weaken; [exact Hok|lia]|done]|].
  intros r s1 [Hok1 Ha]. pose proof (held_quiet _ _ _ (proj1 Ha)) as Hq1.
  pose proof (qt_ticks _ _ _ Hq1) as T1. destruct r as [[]|e].
  2: { eapply wp_then; [apply (wp_note_health_error n);
         [by eapply store_room_weaken; [exact Hok1|lia]|by eapply quiet_handle]|].
       intros notes' s2 (Hok2 & Hq2 & _ & Hsaw). apply wp_ret. split; [done|].
       split; [by eapply quiet_trans|]. cbn [snd]. rewrite Hsaw. split; [done|]. intros _ _ _. right.
       destruct Ha as [_ (k & Hk & Hf)]. exists k. split; [lia|by left]. }
  pose proof (quiet_candidate_ok _ _ _ Hq1 Hc) as Hc1.
  eapply wp_then; [apply (wp_binding_try_reserve clock Hclock K (n + 9 + K) false (binding c));
    [lia|by apply clock_nonneg|by eapply store_room_weaken; [exact Hok1|lia]|apply Hc1|apply Hc1]|].
  intros r s2 [Hok2 Hr]. destruct r as [p|e].
  2: { destruct Hr as (Hq2 & Ht2 & Hb). pose proof (quiet_trans _ _ _ Hq1 Hq2) as Hq.
       eapply wp_then; [apply (wp_filter_record n);
         [by eapply store_room_weaken; [exact Hok2|lia]|by eapply quiet_handle]|].
       intros [] s3 (Hok3 & Hq3 & _). apply wp_ret. split; [done|].
       split; [by eapply quiet_trans|]. split; [done|]. intros _ _ _. right.
       exists (ticks s1). split; [lia|]. right. split; [done|].
       by rewrite <- (quiet_blocks s s1). }
  destruct Hr as [Hrsv Hb]. eapply wp_then; [by eapply (wp_take n false c p s s1 s2); eauto|].
  intros r s3 [Hok3 Hr]. destruct r as [[p' a]|e].
  - eapply wp_then; [exact Hr|]. intros [] s4 [Hok4 Ht]. apply wp_ret. split; [done|]. by split.
  - destruct Hr as [Hq Hd]. eapply wp_then; [apply (wp_note_health_error n); [done|by eapply quiet_handle]|].
    intros notes' s4 (Hok4 & Hq4 & _ & Hsaw). apply wp_ret. split; [done|].
    split; [by eapply quiet_trans|]. cbn [snd]. rewrite Hsaw. split; [done|]. intros _ _ Hd'. done.
Qed.

(** * Facts about a scan *)

(** Whoever stands at an entry of the order was passed over. *)
Definition entry_passed (now : Instant) (candidates : list RoutedCandidate) (start : nat)
    (limited : bool) (s : RoutingStore) (e : nat * nat) : Prop :=
  forall c, candidates !! ((start + e.2) mod length candidates)%nat = Some c ->
    may_choose s c = true -> retry_preference selection_state (route c) = e.1 ->
    distinct_runtimes c -> passed now limited s c.

Lemma entry_passed_quiet now candidates start limited s s' e :
  quiet s s' -> entry_passed now candidates start limited s' e ->
  entry_passed now candidates start limited s e.
Proof using Hclock.
  intros Hq He c Hc Hm Hp Hd. eapply passed_quiet; [exact Hq|]. apply He; try done.
  by rewrite (may_choose_quiet s s').
Qed.

Definition loop_scanned (now : Instant) (candidates : list RoutedCandidate) (start : nat)
    (todo : list (nat * nat)) (saw : bool) (s : RoutingStore) (r : TierScan) (s' : RoutingStore)
    : Prop :=
  match r with
  | Acquired x skipped => exists pre p o post s1,
      todo = pre ++ (p, o) :: post /\ skipped = Z.of_nat o /\
      candidates !! ((start + o) mod length candidates)%nat = Some (sel_candidate x) /\
      may_choose s (sel_candidate x) = true /\
      retry_preference selection_state (route (sel_candidate x)) = p /\
      deferral selection_state now (sel_candidate x) = None /\
      quiet s s1 /\ taken false x s1 s' /\
      Forall (entry_passed now candidates start true s) pre
  | TierRateLimited _ _ _ _ =>
      quiet s s' /\ Forall (entry_passed now candidates start true s) todo
  | Exhausted _ _ _ =>
      saw = false /\ quiet s s' /\ Forall (entry_passed now candidates start false s) todo
  end.

Lemma wp_scan_loop n now candidates start todo notes s :
  0 <= n -> candidates <> [] -> store_ok (n + visit_cost * Zlen todo) s ->
  Forall (candidate_ok s) candidates ->
  wp (scan_loop clock pol selection_state credential_eligible now candidates start todo notes)
    (fun r s' => store_ok n s' /\
       loop_scanned now candidates start todo (saw_rate_limit notes) s r s') s.
Proof using Hclock H0 HK.
  intros Hn Hne. revert notes s. induction todo as [|[p o] todo IH]; intros notes s Hok Hcs; cbn [scan_loop].
  { apply wp_ret. split; [eapply store_room_weaken; [exact Hok|unfold Zlen; cbn; lia]|].
    destruct (saw_rate_limit notes) eqn:Es; cbn.
    - split; [apply quiet_refl|constructor].
    - split; [done|]. split; [apply quiet_refl|constructor]. }
  destruct (lookup_lt_is_Some_2 candidates ((start + o) mod length candidates)%nat) as [c Hc].
  { apply Nat.mod_upper_bound. by destruct candidates. }
  apply wp_seq. unfold wp at 1, on_store, index. rewrite Hc. cbn [expect mbind outcome_bind].
  assert (Zlen ((p, o) :: todo) = Zlen todo + 1) as El by (unfold Zlen; cbn [length]; lia).
  assert (0 <= visit_cost * Zlen todo) by (unfold visit_cost, Zlen; nia).
  rewrite El in Hok. eapply wp_then.
  { apply (wp_visit (n + visit_cost * Zlen todo)); [lia| |].
    - eapply store_room_weaken; [exact Hok|]. lia.
    - by eapply Forall_lookup_1. }
  intros [[x|] notes'] s1 [Hok1 Hv]; cbn [visited fst snd] in Hv.
  - apply wp_ret. split; [eapply store_room_weaken; [exact Hok1|lia]|].
    destruct Hv as (<- & Hm & Hp & Hd & Ht). exists [], p, o, todo, s. split_and!; try done.
    apply quiet_refl.
  - destruct Hv as (Hq & Hsaw & Hpass). eapply wp_weaken.
    { apply IH; [done|]. eapply Forall_impl; [exact Hcs|]. intros c'. by apply quiet_candidate_ok. }
    intros r s' [Hok' Hr]. split; [done|].
    assert (forall limited, (limited = false -> saw_rate_limit notes' = false) ->
      entry_passed now candidates start limited s (p, o)) as Hhead.
    { intros limited Hl c' Hc' Hm Hp Hd. cbn [fst snd] in *. rewrite Hc in Hc'. injection Hc' as <-.
      specialize (Hpass Hm Hp Hd). destruct limited; [by eapply passed_weaken|].
      by rewrite Hl in Hpass. }
    destruct r; cbn [loop_scanned] in *.
    + destruct Hr as (pre & p' & o' & post & s2 & -> & Hsk & Hx & Hm & Hp & Hd & Hq2 & Ht & Hpre).
      exists ((p, o) :: pre), p', o', post, s2. rewrite (may_choose_quiet s s1) in Hm by done.
      split_and!; try done; [by eapply quiet_trans|]. constructor; [by apply Hhead|].
      eapply Forall_impl; [exact Hpre|]. intros e. by apply entry_passed_quiet.
    + destruct Hr as [Hq2 Hall]. split; [by eapply quiet_trans|]. constructor; [by apply Hhead|].
      eapply Forall_impl; [exact Hall|]. intros e. by apply entry_passed_quiet.
    + destruct Hr as (Hs1 & Hq2 & Hall). split.
      { destruct (saw_rate_limit notes); [|done]. by rewrite Hsaw in Hs1. }
      split; [by eapply quiet_trans|]. constructor; [by apply Hhead|].
      eapply Forall_impl; [exact Hall|]. intros e. by apply entry_passed_quiet.
Qed.

(** Where the scan of a tier starts. *)
Definition scan_start (candidates : list RoutedCandidate) (tie_breaker : Z) : nat :=
  Z.to_nat (tie_breaker mod Zlen candidates).

Definition all_passed (now : Instant) (limited : bool) (s : RoutingStore)
    (candidates : list RoutedCandidate) : Prop :=
  forall c, c ∈ candidates -> may_choose s c = true -> distinct_runtimes c -> passed now limited s c.

(** What a scan of a tier finds. *)
Definition scanned (now : Instant) (candidates : list RoutedCandidate) (start : nat)
    (s : RoutingStore) (r : TierScan) (s' : RoutingStore) : Prop :=
  match r with
  | Acquired x skipped => exists s1,
      0 <= skipped < Zlen candidates /\
      candidates !! ((start + Z.to_nat skipped) mod length candidates)%nat = Some (sel_candidate x) /\
      may_choose s (sel_candidate x) = true /\
      deferral selection_state now (sel_candidate x) = None /\
      quiet s s1 /\ taken false x s1 s' /\
      (forall o c, (o < length candidates)%nat ->
         candidates !! ((start + o) mod length candidates)%nat = Some c ->
         may_choose s c = true -> distinct_runtimes c ->
         before (retry_preference selection_state (route c), o)
           (retry_preference selection_state (route (sel_candidate x)), Z.to_nat skipped) ->
         passed now true s c)
  | TierRateLimited _ _ _ _ => quiet s s' /\ all_passed now true s candidates
  | Exhausted _ _ _ => quiet s s' /\ all_passed now false s candidates
  end.

Lemma entries_all_passed now candidates start limited s :
  (start < length candidates)%nat ->
  Forall (entry_passed now candidates start limited s) (scan_order (length candidates)) ->
  all_passed now limited s candidates.
Proof.
  intros Hst Hall c Hc Hm Hd. apply list_elem_of_lookup in Hc as [i Hi].
  pose proof (lookup_lt_Some _ _ _ Hi) as Hlt.
  destruct (rotation_covers _ _ _ Hst Hlt) as (o & Ho & Eo). rewrite Forall_forall in Hall.
  apply (Hall (retry_preference selection_state (route c), o)); try done.
  - apply scan_order_elem. split; [apply retry_preference_bound|done].
  - cbn [snd]. by rewrite Eo.
Qed.

Lemma loop_scanned_scanned now candidates start saw s r s' :
  (start < length candidates)%nat ->
  loop_scanned now candidates start (scan_order (length candidates)) saw s r s' ->
  scanned now candidates start s r s'.
Proof.
  intros Hst. destruct r as [x skipped|? ? ? ?|? ? ?]; cbn [loop_scanned scanned].
  - intros (pre & p & o & post & s1 & E & -> & Hx & Hm & Hp & Hd & Hq & Ht & Hpre).
    assert ((p, o) ∈ scan_order (length candidates)) as Hin by (rewrite E; set_solver).
    apply scan_order_elem in Hin as [_ Ho]. exists s1. rewrite Nat2Z.id.
    split_and!; try done; [unfold Zlen; lia..|].
    intros o' c Ho' Hc Hmc Hdc Hb. rewrite Forall_forall in Hpre.
    eapply (Hpre (retry_preference selection_state (route c), o')); try done.
    eapply scan_order_prefix; [exact E| |by rewrite <- Hp].
    apply scan_order_elem. split; [apply retry_preference_bound|done].
  - intros [Hq Hall]. split; [done|]. by eapply entries_all_passed.
  - intros (_ & Hq & Hall). split; [done|]. by eapply entries_all_passed.
Qed.

(** Room for one scan. *)
Definition scan_cost (len : nat) : Z := visit_cost * (Z.of_nat RETRY_PREFERENCE_LEVELS * Z.of_nat len).

Lemma scan_order_length len :
  Zlen (scan_order len) = Z.of_nat RETRY_PREFERENCE_LEVELS * Z.of_nat len.
Proof.
  assert (forall (p : nat) (l : list nat), length (l ≫= fun offset => [(p, offset)]) = length l) as Hrow.
  { intros p l. induction l as [|x l IH]; [done|]. cbn. by rewrite IH. }
  assert (forall k a, length (seq a k ≫= fun p => seq 0 len ≫= fun o => [(p, o)]) = k * len)%nat as Hall.
  { induction k as [|k IH]; intros a; [done|]. cbn [seq mbind list_bind].
    rewrite length_app, IH, Hrow, length_seq. lia. }
  unfold scan_order, Zlen. rewrite Hall. lia.
Qed.

Lemma scan_start_lt candidates tie : candidates <> [] ->
  (scan_start candidates tie < length candidates)%nat.
Proof.
  intros Hne. unfold scan_start. assert (0 < Zlen candidates) by (destruct candidates; [done|unfold Zlen; cbn; lia]).
  pose proof (Z.mod_pos_bound tie (Zlen candidates) ltac:(done)). unfold Zlen in *. lia.
Qed.

Lemma wp_scan n candidates tie s :
  0 <= n -> store_ok (n + scan_cost (length candidates)) s -> Forall (candidate_ok s) candidates ->
  wp (scan clock pol selection_state credential_eligible candidates tie)
    (fun r s' => store_ok n s' /\
       scanned (clock (ticks s)) candidates (scan_start candidates tie) s r s') s.
Proof using Hclock H0 HK.
  intros Hn Hok Hcs. destruct (decide (candidates = [])) as [->|Hne].
  { split; [eapply store_room_weaken; [exact Hok|unfold scan_cost; cbn; lia]|].
    split; [apply quiet_refl|]. intros c Hc. by inversion Hc. }
  unfold scan. destruct candidates as [|c0 cs] eqn:Ecs; [done|]. rewrite <- Ecs in *. cbn zeta.
  fold (scan_start candidates tie). apply wp_read_clock.
  pose proof (held_quiet _ _ _ (tick_held clock s)) as Hqt.
  eapply wp_weaken.
  { apply (wp_scan_loop n); [done|by rewrite Ecs|by rewrite scan_order_length; apply tick_ok|].
    eapply Forall_impl; [exact Hcs|]. intros c. by apply quiet_candidate_ok. }
  intros r s' [Hok' Hr]. split; [done|].
  apply loop_scanned_scanned in Hr; [|apply scan_start_lt; by rewrite Ecs].
  assert (forall lim c, may_choose s c = true -> (may_choose (tick s) c = true -> passed (clock (ticks s)) lim (tick s) c) ->
    passed (clock (ticks s)) lim s c) as Hlift.
  { intros lim c Hm Hp. eapply passed_quiet; [exact Hqt|]. apply Hp. by rewrite (may_choose_quiet s). }
  destruct r as [x skipped|? ? ? ?|? ? ?]; cbn [scanned] in *.
  - destruct Hr as (s1 & H1 & H2 & H3 & H4 & H5 & H6 & H7). exists s1.
    rewrite (may_choose_quiet s) in H3 by done.
    split_and!; try done; [lia|lia|by eapply quiet_trans|]. intros o c Ho Hc Hm Hd Hb.
    apply Hlift; [done|]. intros Hm'. by apply (H7 o c).
  - destruct Hr as [Hq Hall]. split; [by eapply quiet_trans|]. intros c Hc Hm Hd.
    apply Hlift; [done|]. intros Hm'. by apply Hall.
  - destruct Hr as [Hq Hall]. split; [by eapply quiet_trans|]. intros c Hc Hm Hd.
    apply Hlift; [done|]. intros Hm'. by apply Hall.
Qed.

(** * Facts about the tiers *)

Definition recur (m : gmap nat Z) (s : RoutingStore) : RoutingStore :=
  {| runtimes := runtimes s; credentials := credentials s; active_routes := active_routes s;
     seen := seen s; cursors := m; ticks := ticks s |}.

(** Nothing but the cursors moved. *)
Definition calm (s s' : RoutingStore) : Prop := quiet s (recur (cursors s) s').

Lemma quiet_recur m s s' : quiet s s' -> quiet (recur m s) (recur m s').
Proof. intros []. by split. Qed.

Lemma recur_self s : recur (cursors s) s = s.
Proof. by destruct s. Qed.

Lemma quiet_calm s s' : quiet s s' -> calm s s'.
Proof. intros []. by split. Qed.

Lemma recur_calm m s : calm s (recur m s).
Proof using Hclock. unfold calm. cbn. change (quiet s (recur (cursors s) s)). rewrite recur_self. apply quiet_refl. Qed.

Lemma calm_trans s1 s2 s3 : calm s1 s2 -> calm s2 s3 -> calm s1 s3.
Proof using Hclock.
  intros H1 H2. eapply quiet_trans; [exact H1|].
  exact (quiet_recur (cursors s1) _ _ H2).
Qed.

Lemma calm_candidate_ok s s' c : calm s s' -> candidate_ok s c -> candidate_ok s' c.
Proof. intros Hc H. destruct (quiet_candidate_ok _ _ _ Hc H) as []. by split. Qed.

Lemma calm_may_choose s s' c : calm s s' -> may_choose s' c = may_choose s c.
Proof. intros Hc. apply (may_choose_quiet _ _ _ Hc). Qed.

Lemma store_ok_recur n m s : store_ok n s -> store_ok n (recur m s).
Proof. intros []. by split. Qed.

(** Passed over by a scan that started at some reading of the clock. *)
Definition tier_passed (limited : bool) (s : RoutingStore) (candidates : list RoutedCandidate) : Prop :=
  forall c, c ∈ candidates -> may_choose s c = true -> distinct_runtimes c ->
    exists k, (ticks s <= k)%nat /\ passed (clock k) limited s c.

Lemma passed_calm now limited s s' c : calm s s' -> passed now limited s' c -> passed now limited s c.
Proof using Hclock. intros Hc Hp. by eapply passed_quiet; [exact Hc|]. Qed.

Lemma tier_passed_calm limited s s' cs :
  calm s s' -> tier_passed limited s' cs -> tier_passed limited s cs.
Proof using Hclock.
  intros Hc Hp c Hin Hm Hd. rewrite <- (calm_may_choose s s') in Hm by done.
  destruct (Hp c Hin Hm Hd) as (k & Hk & H). exists k. pose proof (qt_ticks _ _ _ Hc) as Ht. cbn in Ht.
  split; [lia|]. by eapply passed_calm.
Qed.

Lemma all_tier_passed limited limited' s s1 cs :
  calm s s1 -> (limited = true -> limited' = true) ->
  all_passed (clock (ticks s1)) limited s1 cs -> tier_passed limited' s cs.
Proof using Hclock.
  intros Hc Hl Hp c Hin Hm Hd. rewrite <- (calm_may_choose s s1) in Hm by done.
  pose proof (qt_ticks _ _ _ Hc) as Ht. cbn in Ht. exists (ticks s1). split; [done|].
  eapply passed_calm; [exact Hc|]. specialize (Hp c Hin Hm Hd). destruct limited.
  - by rewrite Hl.
  - destruct Hp as [Hp|(k & Hk & [Hp|[]])]; [by left|right; eauto|done].
Qed.

(** The tiers before the one a candidate is taken from were passed over, by the
    limit of a credential only if the request may spill to a lower tier. *)
Definition tiers_selected (spill : bool) (tiers : list (Z * list RoutedCandidate)) (saw : bool)
    (s : RoutingStore) (r : result GenerationSelection PublicError) (s' : RoutingStore) : Prop :=
  match r with
  | Ok (SelAcquired x) => exists pre tier cs post s1,
      tiers = pre ++ (tier, cs) :: post /\ sel_candidate x ∈ cs /\
      may_choose s (sel_candidate x) = true /\ calm s s1 /\
      taken false x s1 (recur (cursors s1) s') /\ tier_passed spill s (pre ≫= snd)
  | Ok NoCandidates => calm s s' /\ saw = false /\ tier_passed false s (tiers ≫= snd)
  | Ok _ => calm s s'
  | Err _ => False
  end.

Definition cursor_exists (cursor_for : Z -> option nat) (s : RoutingStore) (tier : Z) : Prop :=
  exists id, cursor_for tier = Some id /\ is_Some (cursors s !! id).

Lemma cursor_exists_keep cf s m tier :
  (forall id, is_Some (cursors s !! id) -> is_Some (m !! id)) ->
  cursor_exists cf s tier -> cursor_exists cf (recur m s) tier.
Proof. intros Hm (id & E & Hid). exists id. split; [done|]. cbn. by apply Hm. Qed.

Lemma insert_keeps (m : gmap nat Z) i x id : is_Some (m !! id) -> is_Some (<[i := x]> m !! id).
Proof.
  intros H. destruct (decide (i = id)) as [->|Hne]; [rewrite lookup_insert_eq; eauto|].
  by rewrite lookup_insert_ne.
Qed.

Lemma wp_reserve_cursor n cf tier s :
  store_ok n s -> cursor_exists cf s tier ->
  wp (reserve_cursor (cf tier)) (fun v s' => exists id w, cf tier = Some id /\
    cursors s !! id = Some w /\ v = Some w /\
    s' = recur (<[id := wrapping_add_u64 w 1]> (cursors s)) s) s.
Proof.
  intros Hok (id & -> & [w Hw]). unfold wp, reserve_cursor, on_store, reserve. rewrite Hw.
  cbn [expect mbind outcome_bind]. by exists id, w.
Qed.

Lemma wp_advance_cursor cf tier skipped s :
  cursor_exists cf s tier ->
  wp (advance_cursor (cf tier) skipped) (fun b s' => b = true /\ exists id w, cf tier = Some id /\
    cursors s !! id = Some w /\
    s' = recur (if 0 <? skipped then <[id := wrapping_add_u64 w skipped]> (cursors s) else cursors s) s) s.
Proof.
  intros (id & -> & [w Hw]). unfold wp, advance_cursor, on_store, advance_by. rewrite Hw.
  cbn [expect mbind outcome_bind]. split; [done|]. by exists id, w.
Qed.
(** Room for the scans of all tiers. *)
Definition tiers_cost (tiers : list (Z * list RoutedCandidate)) : Z :=
  foldr (fun t acc => scan_cost (length t.2) + acc) 0 tiers.

Lemma scan_cost_nonneg len : 0 <= scan_cost len.
Proof using HK. unfold scan_cost, visit_cost. nia. Qed.

Lemma tiers_cost_nonneg tiers : 0 <= tiers_cost tiers.
Proof using HK.
  induction tiers as [|[tier cs] tiers IH]; [done|]. pose proof (scan_cost_nonneg (length cs)).
  cbn [tiers_cost foldr snd]. fold (tiers_cost tiers). lia.
Qed.

Lemma tier_passed_app limited s cs cs' :
  tier_passed limited s cs -> tier_passed limited s cs' -> tier_passed limited s (cs ++ cs').
Proof. intros H1 H2 c Hin. apply elem_of_app in Hin as [?|?]; [by apply H1|by apply H2]. Qed.

(** The tiers after one that was passed over decide. *)
Lemma tiers_selected_cons spill tier cs tiers saw saw' s s1 r s' :
  calm s s1 -> tier_passed spill s cs ->
  (saw' = false -> saw = false /\ tier_passed false s cs) ->
  tiers_selected spill tiers saw' s1 r s' -> tiers_selected spill ((tier, cs) :: tiers) saw s r s'.
Proof using Hclock.
  intros Hc Hp Hsaw Hr. destruct r as [[x| | | |]|e]; cbn [tiers_selected] in *; try done;
    try by eapply calm_trans.
  - destruct Hr as (pre & tier' & cs' & post & s2 & -> & Hx & Hm & Hc2 & Ht & Hpre).
    exists ((tier, cs) :: pre), tier', cs', post, s2. rewrite (calm_may_choose s s1) in Hm by done.
    split_and!; try done; [by eapply calm_trans|]. cbn. apply tier_passed_app; [done|].
    by eapply tier_passed_calm.
  - destruct Hr as (Hc2 & Hs & Hall). destruct (Hsaw Hs) as [-> Hcs]. split; [by eapply calm_trans|].
    split; [done|]. cbn. apply tier_passed_app; [done|]. by eapply tier_passed_calm.
Qed.

Lemma exhausted_takes_nothing n x : exhausted_selection n <> SelAcquired x.
Proof. unfold exhausted_selection. by repeat case_match. Qed.

Lemma exhausted_selected spill s n :
  tiers_selected spill [] (tn_saw_rate_limit n) s (Ok (exhausted_selection n)) s.
Proof using Hclock.
  pose proof (quiet_calm _ _ (quiet_refl s)) as Hc. unfold exhausted_selection.
  repeat case_match; cbn; try done; (split; [done|]; split; [done|]; intros c Hin; by inversion Hin).
Qed.

Lemma wp_select_tiers m fb da cf tiers notes s :
  0 <= m -> store_ok (m + tiers_cost tiers) s ->
  Forall (fun t => cursor_exists cf s t.1 /\ Forall (candidate_ok s) t.2) tiers ->
  wp (select_tiers clock pol selection_state credential_eligible fb da cf tiers notes)
    (fun r s' => store_ok m s' /\ tiers_selected (fb || da) tiers (tn_saw_rate_limit notes) s r s') s.
Proof using Hclock H0 HK.
  intros Hm. revert notes s. induction tiers as [|[tier cs] tiers IH]; intros notes s Hok Hts; cbn [select_tiers].
  { apply wp_ret. split; [eapply store_room_weaken; [exact Hok|cbn; lia]|]. apply exhausted_selected. }
  apply Forall_cons in Hts as [[Hcur Hcs] Hts]. cbn [fst snd] in *.
  pose proof (tiers_cost_nonneg tiers) as Hcost. cbn [tiers_cost foldr snd] in Hok. fold (tiers_cost tiers) in Hok.
  eapply wp_then; [by eapply wp_reserve_cursor|]. intros v s1 (id & w & Ecf & Hw & -> & ->).
  set (s1 := recur _ s). assert (calm s s1) as Hc1 by apply recur_calm.
  assert (forall cs', Forall (candidate_ok s) cs' -> Forall (candidate_ok s1) cs') as Hcs1.
  { intros cs' H. eapply Forall_impl; [exact H|]. intros c. by apply calm_candidate_ok. }
  eapply wp_then.
  { apply (wp_scan (m + tiers_cost tiers)); [lia| |by apply Hcs1].
    apply store_ok_recur. eapply store_room_weaken; [exact Hok|lia]. }
  intros r s2 [Hok2 Hr].
  assert (forall s', quiet s1 s' -> Forall (fun t => cursor_exists cf s' t.1 /\ Forall (candidate_ok s') t.2) tiers) as Hts2.
  { intros s' Hq. eapply Forall_impl; [exact Hts|]. intros t [(i & Ei & Hi) Hct]. split.
    - exists i. split; [done|]. rewrite (qt_cursors _ _ _ Hq). by apply insert_keeps.
    - eapply Forall_impl; [by apply Hcs1|]. intros c. by apply quiet_candidate_ok. }
  destruct r as [x skipped|rt ot ct dt|ot ct dt]; cbn [scanned] in Hr.
  - destruct Hr as (s3 & _ & Hx & Hmay & _ & Hq & Ht & _). eapply wp_then.
    { apply wp_advance_cursor. exists id. split; [done|].
      rewrite (tk_cursors _ _ _ _ Ht), (qt_cursors _ _ _ Hq). cbn. rewrite lookup_insert_eq. by eexists. }
    intros adv s4 [-> (id' & w' & _ & _ & ->)]. apply wp_ret.
    split; [apply store_ok_recur; eapply store_room_weaken; [exact Hok2|lia]|].
    exists [], tier, cs, tiers, s3. split; [done|]. split; [by eapply list_elem_of_lookup_2|].
    split; [by rewrite (calm_may_choose s s1) in Hmay|].
    split; [by eapply calm_trans; [exact Hc1|apply quiet_calm]|]. split; [|intros c Hin; by inversion Hin].
    cbn [recur]. replace (recur (cursors s3) _) with s2; [done|].
    rewrite <- (tk_cursors _ _ _ _ Ht). by destruct s2.
  - destruct Hr as [Hq Hall]. assert (calm s s2) as Hc2 by (eapply calm_trans; [exact Hc1|by apply quiet_calm]).
    destruct (negb fb && negb da) eqn:Espill.
    { apply wp_ret. split; [eapply store_room_weaken; [exact Hok2|lia]|done]. }
    eapply wp_weaken; [by apply IH; [|apply Hts2]|]. intros r s' [Hok' Hr]. split; [done|].
    eapply tiers_selected_cons; [exact Hc2| | |exact Hr]; [|by cbn].
    eapply all_tier_passed; [exact Hc1| |exact Hall]. intros _. by destruct fb, da.
  - destruct Hr as [Hq Hall]. assert (calm s s2) as Hc2 by (eapply calm_trans; [exact Hc1|by apply quiet_calm]).
    assert (forall lim, tier_passed lim s cs) as Hp by (intros lim; by eapply all_tier_passed; [exact Hc1| |exact Hall]).
    destruct (if negb fb && negb da then ct else None).
    { apply wp_ret. split; [eapply store_room_weaken; [exact Hok2|lia]|done]. }
    eapply wp_weaken; [by apply IH; [|apply Hts2]|]. intros r s' [Hok' Hr]. split; [done|].
    eapply tiers_selected_cons; [exact Hc2|apply Hp| |exact Hr]. cbn. by intros ->.
Qed.
Lemma tiers_selected_calm spill tiers saw s s1 r s' :
  calm s s1 -> tiers_selected spill tiers saw s1 r s' -> tiers_selected spill tiers saw s r s'.
Proof using Hclock.
  intros Hc Hr. destruct r as [[x| | | |]|e]; cbn [tiers_selected] in *; try done;
    try by eapply calm_trans.
  - destruct Hr as (pre & tier' & cs' & post & s2 & -> & Hx & Hm & Hc2 & Ht & Hpre).
    exists pre, tier', cs', post, s2. rewrite (calm_may_choose s s1) in Hm by done.
    split_and!; try done; [by eapply calm_trans|by eapply tier_passed_calm].
  - destruct Hr as (Hc2 & Hs & Hall). split_and!; [by eapply calm_trans|done|by eapply tier_passed_calm].
Qed.

Lemma tick_calm s : calm s (tick s).
Proof. apply quiet_calm, held_quiet, tick_held. Qed.

(** Moving the cursor past the candidate at an offset of the scan. *)
Lemma rotation_next cs v skipped :
  cs <> [] -> 0 <= v -> 0 <= skipped < Zlen cs -> v + Zlen cs < 2 ^ 64 ->
  scan_start cs (if 0 <? skipped then wrapping_add_u64 (wrapping_add_u64 v 1) skipped
                 else wrapping_add_u64 v 1) =
  ((((scan_start cs v + Z.to_nat skipped) mod length cs) + 1) mod length cs)%nat.
Proof.
  intros Hne Hv Hs Hroom. assert (0 < Zlen cs) as Hpos by lia.
  replace (if 0 <? skipped then _ else _) with (v + 1 + skipped); cycle 1.
  { unfold wrapping_add_u64. destruct (0 <? skipped) eqn:E; bool_to_prop.
    - rewrite (Z.mod_small (v + 1)) by lia. rewrite Z.mod_small; lia.
    - rewrite Z.mod_small; lia. }
  unfold scan_start. apply Nat2Z.inj. unfold Zlen in *.
  rewrite !Nat2Z.inj_mod, !Nat2Z.inj_add, !Nat2Z.inj_mod, !Nat2Z.inj_add.
  rewrite !Z2Nat.id by (try apply Z.mod_pos_bound; lia).
  rewrite Z.add_mod_idemp_l, <- (Z.add_assoc _ skipped), Z.add_mod_idemp_l by lia. f_equal. lia.
Qed.

Lemma wp_try_selected n c s :
  0 <= n -> store_ok (n + visit_cost) s -> candidate_ok s c ->
  wp (try_selected clock pol c) (fun r s' => store_ok n s' /\ match r with
    | Ok (FixedAcquired x) =>
        sel_candidate x = c /\ admission_active s c = true /\ taken true x s s'
    | Ok (FixedWaiting (WaitRateLimit _)) => quiet s s' /\
        exists k, (ticks s <= k)%nat /\ binding_blocks true (binding c) (clock k) s = true
    | Ok (FixedWaiting (WaitHealth _)) | Err Unavailable => quiet s s' /\
        (admission_active s c = true -> distinct_runtimes c ->
         exists k, (ticks s <= k)%nat /\ candidate_refuses pol c (clock k) (runtimes s) = true)
    | Err _ => False
    end) s.
Proof using Hclock H0 HK.
  unfold visit_cost. intros Hn Hok Hc. unfold try_selected. apply wp_seq. unfold wp at 1, on_store.
  destruct (admission_active s c) eqn:Eact; cbn [negb].
  2: { apply wp_ret. split; [eapply store_room_weaken; [exact Hok|lia]|]. split; [apply quiet_refl|done]. }
  eapply wp_then; [apply (wp_health_availability clock Hclock K HK (n + 10 + K));
    [lia|by eapply store_room_weaken; [exact Hok|lia]|done]|].
  intros r s1 [Hok1 Ha]. pose proof (held_quiet _ _ _ (proj1 Ha)) as Hq1.
  pose proof (qt_ticks _ _ _ Hq1) as T1. destruct r as [[]|e].
  2: { unfold fixed_refusal. eapply wp_then; [apply (wp_filter_record n);
         [by eapply store_room_weaken; [exact Hok1|lia]|by eapply quiet_handle]|].
       intros [] s2 (Hok2 & Hq2 & _). apply wp_ret. split; [done|]. destruct Ha as [_ (k & Hk & Hf)].
       destruct (error_source e); (split; [by eapply quiet_trans|]; intros _ _; exists k; split; [lia|done]). }
  pose proof (quiet_candidate_ok _ _ _ Hq1 Hc) as Hc1.
  eapply wp_then; [apply (wp_binding_try_reserve clock Hclock K (n + 9 + K) true (binding c));
    [lia|by apply clock_nonneg|by eapply store_room_weaken; [exact Hok1|lia]|apply Hc1|apply Hc1]|].
  intros r s2 [Hok2 Hr]. destruct r as [p|e].
  2: { destruct Hr as (Hq2 & Ht2 & Hb). pose proof (quiet_trans _ _ _ Hq1 Hq2) as Hq.
       eapply wp_then; [apply (wp_filter_record n);
         [by eapply store_room_weaken; [exact Hok2|lia]|by eapply quiet_handle]|].
       intros [] s3 (Hok3 & Hq3 & _). apply wp_ret. split; [done|].
       split; [by eapply quiet_trans|]. exists (ticks s1). split; [lia|].
       by rewrite <- (quiet_blocks s s1). }
  destruct Hr as [Hrsv Hb]. eapply wp_then; [by eapply (wp_take n true c p s s1 s2); eauto|].
  intros r s3 [Hok3 Hr]. destruct r as [[p' a]|e].
  - eapply wp_then; [exact Hr|]. intros [] s4 [Hok4 Ht]. apply wp_ret. split; [done|]. by split.
  - destruct Hr as [Hq Hd]. unfold fixed_refusal.
    eapply wp_then; [apply (wp_filter_record n); [done|by eapply quiet_handle]|].
    intros [] s4 (Hok4 & Hq4 & _). apply wp_ret. split; [done|].
    destruct (error_source e); (split; [by eapply quiet_trans|by intros _ Hd']).
Qed.

(** * Properties of a scan *)

(** A scan of a tier returns and picks exactly the candidate the code means
    to pick.  The candidate taken is admitted, allowed, eligible, past its
    deferral, healthy and within its limit; it holds one permit of each of its
    runtimes and one reservation and nothing else is held; and every candidate
    of a better retry preference, or of the same one and nearer to the cursor,
    was deferred, refused or limited.  When none is taken nothing is held at
    all and every candidate that may be chosen was passed over for such a
    reason, by its limit only if the tier is reported as rate limited. *)
Theorem tier_scan_takes_first n candidates tie s :
  0 <= n -> store_ok (n + scan_cost (length candidates)) s -> Forall (candidate_ok s) candidates ->
  exists r s', scan clock pol selection_state credential_eligible candidates tie s = Ret (r, s') /\
    scanned (clock (ticks s)) candidates (scan_start candidates tie) s r s'.
Proof using Hclock H0 HK.
  intros Hn Hok Hcs. destruct (wp_elim _ _ _ (wp_scan n candidates tie s Hn Hok Hcs))
    as (r & s' & E & _ & Hr). eauto.
Qed.

(** C5. Selecting over the tiers of a route returns an answer, never the
    internal error while every tier has a cursor.  A candidate is taken from a
    tier only when every candidate of the tiers before it that may be chosen
    was passed over, by the limit of its credential only if the request may
    spill to a lower tier or a deferral is pending.  When nothing is taken, no
    permit and no reservation is held: only the cursors moved.  The answer that
    there are no candidates means that each was deferred or refused.  What is said
    of candidates passed over is said of those whose endpoint, egress path and
    candidate path are three runtimes, as the registry hands them out. *)
Theorem selection_keeps_tier_order m fb cf tiers s :
  0 <= m -> store_ok (m + tiers_cost tiers) s ->
  Forall (fun t => cursor_exists cf s t.1 /\ Forall (candidate_ok s) t.2) tiers ->
  exists r s', try_select_with clock pol selection_state credential_eligible fb cf tiers s = Ret (r, s') /\
    tiers_selected (fb || active_deferral selection_state credential_eligible (clock (ticks s)) tiers s)
      tiers false s r s'.
Proof using Hclock H0 HK.
  intros Hm Hok Hts.
  assert (wp (try_select_with clock pol selection_state credential_eligible fb cf tiers)
    (fun r s' => tiers_selected (fb || active_deferral selection_state credential_eligible
       (clock (ticks s)) tiers s) tiers false s r s') s) as Hw.
  { unfold try_select_with. apply wp_read_clock, wp_seq. unfold wp at 1, on_store. eapply wp_weaken.
    - apply (wp_select_tiers m); [done|by apply tick_ok|]. eapply Forall_impl; [exact Hts|].
      intros t [Hc Hcs]. split; [done|]. eapply Forall_impl; [exact Hcs|]. intros c.
      apply calm_candidate_ok, tick_calm.
    - intros r s' [_ Hr]. eapply tiers_selected_calm; [apply tick_calm|exact Hr]. }
  destruct (wp_elim _ _ _ Hw) as (r & s' & E & Hr). eauto.
Qed.

(** C6. Selection is fair: when a route of one tier yields a candidate, the
    cursor of the tier is left so that the next selection starts right after
    the candidate just chosen, whatever was skipped on the way to it. *)
Theorem selection_rotates m fb cf tier cs id v s :
  0 <= m -> store_ok (m + scan_cost (length cs)) s -> Forall (candidate_ok s) cs ->
  cf tier = Some id -> cursors s !! id = Some v -> 0 <= v -> v + Zlen cs < 2 ^ 64 ->
  exists r s', try_select_with clock pol selection_state credential_eligible fb cf [(tier, cs)] s
      = Ret (r, s') /\
    forall x, r = Ok (SelAcquired x) -> exists i v', cs !! i = Some (sel_candidate x) /\
      cursors s' !! id = Some v' /\ scan_start cs v' = ((i + 1) mod length cs)%nat.
Proof using Hclock H0 HK.
  intros Hm Hok Hcs Hcf Hv Hv0 Hroom.
  assert (wp (try_select_with clock pol selection_state credential_eligible fb cf [(tier, cs)])
    (fun r s' => forall x, r = Ok (SelAcquired x) -> exists i v', cs !! i = Some (sel_candidate x) /\
      cursors s' !! id = Some v' /\ scan_start cs v' = ((i + 1) mod length cs)%nat) s) as Hw.
  { unfold try_select_with. apply wp_read_clock, wp_seq. unfold wp at 1, on_store. cbn [select_tiers].
    eapply wp_then; [eapply wp_reserve_cursor; [by apply tick_ok|]|].
    { exists id. split; [done|]. cbn. by rewrite Hv. }
    intros w s1 (id' & v1 & Ecf & Ev & -> & ->). assert (id' = id) as -> by congruence.
    cbn in Ev. assert (v1 = v) as -> by congruence. eapply wp_then.
    { apply (wp_scan m); [done|by apply store_ok_recur, tick_ok|]. eapply Forall_impl; [exact Hcs|].
      intros c Hc. eapply calm_candidate_ok; [apply recur_calm|].
      by eapply calm_candidate_ok; [apply tick_calm|]. }
    intros r s2 [_ Hr]. destruct r as [x skipped|rt ot ct dt|ot ct dt]; cbn [scanned] in Hr; cycle 1.
    { destruct (negb fb && _); apply wp_ret; intros x Hx; [done|].
      injection Hx as Hx. by apply exhausted_takes_nothing in Hx. }
    { case_match; apply wp_ret; intros x Hx; [done|].
      injection Hx as Hx. by apply exhausted_takes_nothing in Hx. }
    destruct Hr as (s3 & Hsk & Hx & _ & _ & Hq & Ht & _).
    assert (cursors s2 = <[id := wrapping_add_u64 v 1]> (cursors s)) as Ec2
      by (by rewrite (tk_cursors _ _ _ _ Ht), (qt_cursors _ _ _ Hq)).
    eapply wp_then; [apply wp_advance_cursor; exists id; split; [done|]; rewrite Ec2, lookup_insert_eq; by eexists|].
    intros adv s4 [-> (id' & w' & Ecf' & Ew & ->)]. assert (id' = id) as -> by congruence.
    rewrite Ec2, lookup_insert_eq in Ew. injection Ew as <-. apply wp_ret. intros y [= <-].
    eexists _, _. split; [exact Hx|]. split; [|apply rotation_next; try done; try lia].
    - cbn [cursors recur]. rewrite Ec2. destruct (0 <? skipped); by rewrite ?lookup_insert_eq.
    - by intros ->. }
  destruct (wp_elim _ _ _ Hw) as (r & s' & E & Hr). eauto.
Qed.

(** A request bound to a candidate takes that candidate and no other: it is
    taken only while it is admitted, healthy and within its limit, with the
    slots kept for bound requests at its disposal, and then holds one permit of
    each runtime and one reservation.  Otherwise nothing is held, and the
    request waits for the limit of the credential only if that limit stands in
    its way, or is told that its binding is unavailable or unhealthy only if it
    is withdrawn or something refused. *)
Theorem fixed_selection_exact n c s :
  0 <= n -> store_ok (n + visit_cost) s -> candidate_ok s c ->
  exists r s', try_selected clock pol c s = Ret (r, s') /\
    match r with
    | Ok (FixedAcquired x) =>
        sel_candidate x = c /\ admission_active s c = true /\ taken true x s s'
    | Ok (FixedWaiting (WaitRateLimit _)) => quiet s s' /\
        exists k, (ticks s <= k)%nat /\ binding_blocks true (binding c) (clock k) s = true
    | Ok (FixedWaiting (WaitHealth _)) | Err Unavailable => quiet s s' /\
        (admission_active s c = true -> distinct_runtimes c ->
         exists k, (ticks s <= k)%nat /\ candidate_refuses pol c (clock k) (runtimes s) = true)
    | Err _ => False
    end.
Proof using Hclock H0 HK.
  intros Hn Hok Hc. destruct (wp_elim _ _ _ (wp_try_selected n c s Hn Hok Hc)) as (r & s' & E & _ & Hr).
  eauto.
Qed.
End Facts.

(** * A concrete selection *)

Lemma sample_clock_start : 0 <= sample_clock 0.
Proof. by vm_compute. Qed.

(** A second candidate of the same credential, on other paths. *)
Definition sample_other : RoutedCandidate :=
  {| route := sample_route; endpoint_health := None; proxy_health := None;
     egress_path_health := 1; candidate_path_health := 3; binding := binding sample_candidate;
     candidate_admission := 2 |}.

Lemma sample_other_ok : candidate_ok sample_store sample_other.
Proof.
  split; cbn; try done; try by eexists. exists false, 1%nat, sample_routing. done.
Qed.

Definition sample_pool : list RoutedCandidate := [sample_other; sample_candidate].

Lemma sample_pool_ok : Forall (candidate_ok sample_store) sample_pool.
Proof.
  constructor; [exact sample_other_ok|]. constructor; [exact sample_candidate_ok|constructor].
Qed.

Definition sample_policy : ReliabilityPolicy := policy_from_settings 60.
Definition sample_eligible (id : RoutingCredentialId) : bool := true.
Definition sample_cursor_for (tier : Z) : option nat := if tier =? 0 then Some 1%nat else None.

Lemma tier_scan_takes_first_witness :
  exists r s', scan sample_clock sample_policy selection_state_new sample_eligible sample_pool 0
      sample_store = Ret (r, s') /\
    match r with Acquired x skipped => sel_candidate x = sample_candidate /\ skipped = 1 | _ => False end.
Proof.
  destruct (tier_scan_takes_first sample_clock sample_clock_monotone sample_clock_start 0 ltac:(done)
    sample_policy selection_state_new sample_eligible 0 sample_pool 0 sample_store ltac:(done)
    (sample_store_ok (0 + scan_cost 0 (length sample_pool)) ltac:(by vm_compute)) sample_pool_ok)
    as (r & s' & E & _).
  exists r, s'. split; [exact E|]. vm_compute in E. by injection E as <- _.
Defined.

Lemma selection_keeps_tier_order_witness :
  exists r s', try_select_with sample_clock sample_policy selection_state_new sample_eligible false
      sample_cursor_for [(0, sample_pool)] sample_store = Ret (r, s') /\
    match r with Ok (SelAcquired x) => sel_candidate x = sample_candidate | _ => False end.
Proof.
  destruct (selection_keeps_tier_order sample_clock sample_clock_monotone sample_clock_start 0
    ltac:(done) sample_policy selection_state_new sample_eligible 0 false sample_cursor_for
    [(0, sample_pool)] sample_store ltac:(done)
    (sample_store_ok (0 + tiers_cost 0 [(0, sample_pool)]) ltac:(by vm_compute))) as (r & s' & E & _).
  { constructor; [|constructor]. split; [by exists 1%nat; split; [|eexists]|exact sample_pool_ok]. }
  exists r, s'. split; [exact E|]. vm_compute in E. by injection E as <- _.
Defined.

Lemma selection_rotates_witness :
  exists r s', try_select_with sample_clock sample_policy selection_state_new sample_eligible false
      sample_cursor_for [(0, sample_pool)] sample_store = Ret (r, s') /\
    exists v', cursors s' !! 1%nat = Some v' /\ scan_start sample_pool v' = 0%nat.
Proof.
  destruct (selection_rotates sample_clock sample_clock_monotone sample_clock_start 0
    ltac:(done) sample_policy selection_state_new sample_eligible 0 false sample_cursor_for 0
    sample_pool 1 0 sample_store ltac:(done)
    (sample_store_ok (0 + scan_cost 0 (length sample_pool)) ltac:(by vm_compute)) sample_pool_ok
    ltac:(done) ltac:(done) ltac:(done) ltac:(done)) as (r & s' & E & _).
  exists r, s'. split; [exact E|]. exists 2. vm_compute in E. injection E as _ <-. done.
Defined.

Lemma fixed_selection_exact_witness :
  exists r s', try_selected sample_clock sample_policy sample_candidate sample_store = Ret (r, s') /\
    match r with Ok (FixedAcquired x) => sel_candidate x = sample_candidate | _ => False end.
Proof.
  destruct (fixed_selection_exact sample_clock sample_clock_monotone sample_clock_start 0
    ltac:(done) sample_policy 0 sample_candidate sample_store ltac:(done)
    (sample_store_ok (0 + visit_cost 0) ltac:(by vm_compute)) sample_candidate_ok)
    as (r & s' & E & _).
  exists r, s'. split; [exact E|]. vm_compute in E. by injection E as <- _.
Defined.
