(* ===== verification/Waiting.v ===== *)
(** Waiting for a candidate
    ([crates/runtime/src/public_request/selection/]: the asynchronous half of
    [generation.rs] and of [fixed.rs], and the errors of [selector.rs]).

    A request that cannot be served at once takes a ticket of the queue, fixes
    its deadline, and tries again whenever the scheduler epoch changes or the
    earliest known instant comes.  What a selection answers, what the clock
    reads and what ends a sleep are the arguments of each round; a list of
    rounds that ends while the request still waits gives [None].  The events
    record what the request does: its selections, the instants it sleeps to,
    and the slot it holds on a credential. *)

From S2P Require Import Prelude Protocol Upstream CredentialRuntime Candidates RouteHealth Selection Queue.

Local Open Scope Z_scope.

(** * Errors *)

(** The whole seconds from [now] to [retry_at], rounded up *)
Definition retry_after_seconds_at (now retry_at : Instant) : Z :=
  let delay := saturating_duration_since retry_at now in
  saturating_add u64_max (delay / secs 1) (if 0 <? delay mod secs 1 then 1 else 0).

Definition with_retry_after_seconds (seconds : Z) (e : PublicError) : PublicError :=
  {| code := code e; message := message e; retry_after_seconds := Some seconds |}.

(** [rate_limit_error] *)
Definition rate_limit_error (message : string) : PublicError := public_error LocalRateLimit message.

(** [rate_limited] *)
Definition rate_limited (now : Instant) (message : string) (retry_at : option Instant)
    : PublicError :=
  match retry_at with
  | Some t => with_retry_after_seconds (retry_after_seconds_at now t) (rate_limit_error message)
  | None => rate_limit_error message
  end.

(** [no_available_credentials] *)
Definition no_available_credentials : PublicError :=
  public_error NoAvailableCredential "no eligible provider credential is available".

(** [temporarily_unavailable] *)
Definition temporarily_unavailable (now retry_at : Instant) : PublicError :=
  with_retry_after_seconds (retry_after_seconds_at now retry_at) no_available_credentials.

Definition rpm_exhausted : string := "all eligible credentials have exhausted their local RPM".

(** [FixedSelectionError::into_public_error] *)
Definition into_public_error (e : FixedSelectionError) : PublicError :=
  match e with
  | QueueFull => rate_limit_error "request queue is full"
  | Timeout => rate_limit_error "bound credential has exhausted its local RPM"
  | Unavailable => public_error SessionBindingLost "session binding is unavailable"
  | Internal => internal_error
  end.

(** * Rounds and events *)

(** What ends a sleep: a change of the epoch (or of the credential), the end of
    the channel, or the instant slept to. *)
Inductive Wake := Changed | Closed | Slept.

(** One turn of a waiting loop: what the selection answers, the clock read
    after it, and what ends the sleep. *)
Record Round (A : Type) := {
  answer : A;
  read_at : Instant;
  woken_by : Wake
}.
Arguments answer {A}.
Arguments read_at {A}.
Arguments woken_by {A}.
Arguments Build_Round {A}.

Inductive WaitEvent :=
| Tried
| SleptTo (until : Instant)
| SlotTaken
| SlotReturned.

(** * Any candidate of the route *)

Abbreviation Selected := (result SelectedCandidate PublicError) (only parsing).
Abbreviation Answer := (result GenerationSelection PublicError) (only parsing).

(** [final_selection_or_timeout] *)
Definition final_selection_or_timeout (now : Instant) (a : Answer) : Selected :=
  match a with
  | Err e => Err e
  | Ok (SelAcquired x) => Ok x
  | Ok NoCandidates => Err no_available_credentials
  | Ok (TemporarilyUnavailable t) | Ok (RetryDeferred t) => Err (temporarily_unavailable now t)
  | Ok (SelRateLimited o) => Err (rate_limited now rpm_exhausted o)
  end.

(** The selection after the deadline, on the next round's answer and clock *)
Definition last_selection (rest : list (Round Answer)) : option Selected * list WaitEvent :=
  match rest with
  | [] => (None, [])
  | f :: _ => (Some (final_selection_or_timeout (read_at f) (answer f)), [Tried])
  end.

Definition after {A} (ev : list WaitEvent) (x : A * list WaitEvent) : A * list WaitEvent :=
  (x.1, ev ++ x.2).

(** The loop of [wait_for_candidate]: its result, and its events *)
Fixpoint wait_loop (deadline : Instant) (rounds : list (Round Answer))
    : option Selected * list WaitEvent :=
  match rounds with
  | [] => (None, [])
  | r :: rest =>
      match answer r with
      | Err e => (Some (Err e), [Tried])
      | Ok (SelAcquired x) => (Some (Ok x), [Tried])
      | Ok NoCandidates => (Some (Err no_available_credentials), [Tried])
      | Ok (SelRateLimited None) =>
          if deadline <=? read_at r then after [Tried] (last_selection rest)
          else match woken_by r with
               | Changed => after [Tried; SleptTo deadline] (wait_loop deadline rest)
               | Closed => (Some (Err internal_error), [Tried; SleptTo deadline])
               | Slept => after [Tried; SleptTo deadline] (last_selection rest)
               end
      | Ok (SelRateLimited (Some t)) | Ok (TemporarilyUnavailable t) | Ok (RetryDeferred t) =>
          if deadline <=? read_at r then after [Tried] (last_selection rest)
          else match woken_by r with
               | Changed | Slept =>
                   after [Tried; SleptTo (Z.min t deadline)] (wait_loop deadline rest)
               | Closed => (Some (Err internal_error), [Tried; SleptTo (Z.min t deadline)])
               end
      end
  end.

(** [wait_for_candidate] *)
Definition wait_for_candidate (policy : QueuePolicy) (now : Instant)
    (rounds : list (Round Answer)) (w : SelectionWaitState) (q : QueueCoordinator)
    : outcome (option Selected * list WaitEvent * SelectionWaitState * QueueCoordinator) :=
  '(admitted, w, q) ← queue_changes (max_waiting_requests policy) w q;
  if negb admitted
  then Ret (Some (Err (rate_limit_error "request queue is full")), [], w, q)
  else
    '(deadline, w) ← wait_queue now (queue_timeout policy) w;
    Ret (wait_loop deadline rounds, w, q).

(** [select_with_queue] *)
Definition select_with_queue (policy : QueuePolicy) (first : Round Answer) (now : Instant)
    (rounds : list (Round Answer)) (w : SelectionWaitState) (q : QueueCoordinator)
    : outcome (option Selected * list WaitEvent * SelectionWaitState * QueueCoordinator) :=
  let wait := '(res, ev, w, q) ← wait_for_candidate policy now rounds w q;
              Ret (res, Tried :: ev, w, q) in
  match answer first, on_rate_limited policy with
  | Err e, _ => Ret (Some (Err e), [Tried], w, q)
  | Ok (SelAcquired x), _ => Ret (Some (Ok x), [Tried], w, q)
  | Ok NoCandidates, _ => Ret (Some (Err no_available_credentials), [Tried], w, q)
  | Ok (TemporarilyUnavailable t), Reject =>
      Ret (Some (Err (temporarily_unavailable (read_at first) t)), [Tried], w, q)
  | Ok (SelRateLimited o), Reject =>
      Ret (Some (Err (rate_limited (read_at first) rpm_exhausted o)), [Tried], w, q)
  | _, _ => wait
  end.

(** * The candidate a request is bound to *)

Abbreviation FixedResult := (result SelectedCandidate FixedSelectionError) (only parsing).
Abbreviation FixedAnswer := (result FixedAttempt FixedSelectionError) (only parsing).

(** [final_selection], on what [try_selected] answers *)
Definition fixed_final (a : FixedAnswer) : FixedResult :=
  match a with
  | Ok (FixedAcquired x) => Ok x
  | Ok (FixedWaiting _) => Err Timeout
  | Err e => Err e
  end.

(** Dropping the [FixedCredentialWaiter], if one is held *)
Definition slot_dropped (slot : bool) : list WaitEvent := if slot then [SlotReturned] else [].

(** What a refusal does to the slot held on the credential *)
Definition slot_change (slot wanted : bool) : list WaitEvent :=
  match slot, wanted with
  | false, true => [SlotTaken]
  | true, false => [SlotReturned]
  | _, _ => []
  end.

Definition fixed_last (slot : bool) (rest : list (Round FixedAnswer))
    : option FixedResult * list WaitEvent :=
  match rest with
  | [] => (None, [])
  | f :: _ => (Some (fixed_final (answer f)), Tried :: slot_dropped slot)
  end.

(** The loop of [fixed::select_with_queue]; [slot] says that the request holds a
    [FixedCredentialWaiter] *)
Fixpoint fixed_loop (deadline : Instant) (slot : bool) (rounds : list (Round FixedAnswer))
    : option FixedResult * list WaitEvent :=
  match rounds with
  | [] => (None, [])
  | r :: rest =>
      match answer r with
      | Err e => (Some (Err e), Tried :: slot_dropped slot)
      | Ok (FixedAcquired x) => (Some (Ok x), Tried :: slot_dropped slot)
      | Ok (FixedWaiting wait) =>
          let wanted := reserves_rpm_slot wait in
          let ev := Tried :: slot_change slot wanted in
          if deadline <=? read_at r then after ev (fixed_last wanted rest)
          else
            let wake_at := match fixed_retry_at wait with
                           | Some t => Z.min t deadline
                           | None => deadline
                           end in
            let ev := ev ++ [SleptTo wake_at] in
            match woken_by r, fixed_retry_at wait with
            | Closed, _ => (Some (Err Internal), ev ++ slot_dropped wanted)
            | Slept, None => after ev (fixed_last wanted rest)
            | _, _ => after ev (fixed_loop deadline wanted rest)
            end
      end
  end.

(** [fixed::select_with_queue] *)
Definition fixed_select_with_queue (max_waiting : Z) (wait_timeout : Duration)
    (first : FixedAnswer) (now : Instant) (rounds : list (Round FixedAnswer))
    (w : SelectionWaitState) (q : QueueCoordinator)
    : outcome (option FixedResult * list WaitEvent * SelectionWaitState * QueueCoordinator) :=
  match first with
  | Err e => Ret (Some (Err e), [Tried], w, q)
  | Ok (FixedAcquired x) => Ret (Some (Ok x), [Tried], w, q)
  | Ok (FixedWaiting _) =>
      '(admitted, w, q) ← queue_changes max_waiting w q;
      if negb admitted then Ret (Some (Err QueueFull), [Tried], w, q)
      else
        '(deadline, w) ← wait_binding now wait_timeout w;
        Ret (after [Tried] (fixed_loop deadline false rounds), w, q)
  end.

(** * Lemmas *)

Definition sleeps_by (deadline : Instant) (ev : list WaitEvent) : Prop :=
  Forall (fun e => match e with SleptTo t => t <= deadline | _ => True end) ev.

Ltac solve_sleeps :=
  unfold sleeps_by; cbn; repeat first [apply Forall_nil_2 | apply Forall_cons_2]; try done; try lia.

(** How often a candidate was selected *)
Fixpoint tries (ev : list WaitEvent) : nat :=
  match ev with
  | [] => 0
  | Tried :: ev => S (tries ev)
  | _ :: ev => tries ev
  end.

(** The slot on the credential through the events, if each of them makes sense *)
Fixpoint slot_run (held : bool) (ev : list WaitEvent) : option bool :=
  match ev with
  | [] => Some held
  | SlotTaken :: ev => if held then None else slot_run true ev
  | SlotReturned :: ev => if held then slot_run false ev else None
  | _ :: ev => slot_run held ev
  end.

Lemma slot_run_app held ev ev' :
  slot_run held (ev ++ ev') = slot_run held ev ≫= fun h => slot_run h ev'.
Proof.
  revert held. induction ev as [|e ev IH]; intros held; [done|]. cbn.
  destruct e; try apply IH; destruct held; done || apply IH.
Qed.

Lemma tries_app ev ev' : tries (ev ++ ev') = (tries ev + tries ev')%nat.
Proof. induction ev as [|e ev IH]; [done|]. destruct e; cbn; by rewrite IH. Qed.

Lemma sleeps_by_app d ev ev' : sleeps_by d (ev ++ ev') <-> sleeps_by d ev /\ sleeps_by d ev'.
Proof. apply Forall_app. Qed.

(** The deadline is behind the reading of the round [i], and one more follows. *)
Definition overdue {A} (deadline : Instant) (rounds : list (Round A)) (i : nat) : Prop :=
  exists r, rounds !! i = Some r /\ deadline <= read_at r /\ is_Some (rounds !! S i).

Lemma overdue_cons {A} deadline (r : Round A) rest i :
  overdue deadline (r :: rest) i ->
  (i = 0%nat /\ deadline <= read_at r /\ exists f rest', rest = f :: rest') \/
  exists j, i = S j /\ overdue deadline rest j.
Proof.
  intros (r0 & Hr & Hd & Hf). destruct i as [|j]; cbn in *.
  - left. injection Hr as ->. split; [done|]. split; [done|]. destruct rest as [|f rest']; [by destruct Hf|eauto].
  - right. exists j. split; [done|]. by exists r0.
Qed.

Lemma overdue_nonempty {A} deadline (rounds : list (Round A)) i :
  overdue deadline rounds i -> exists f rest, rounds = f :: rest.
Proof. intros (r & Hr & _). destruct rounds; [done|eauto]. Qed.

(** What a waiting loop guarantees: it never sleeps past its deadline, and once
    the clock has read the deadline it ends with at most one more selection. *)
Definition loop_ok {A B} (deadline : Instant) (rounds : list (Round A))
    (x : option B * list WaitEvent) : Prop :=
  sleeps_by deadline x.2 /\
  forall i, overdue deadline rounds i -> is_Some x.1 /\ (tries x.2 <= i + 2)%nat.

Lemma loop_ok_done {A B} deadline (r : Round A) rest (b : B) ev :
  sleeps_by deadline ev -> (tries ev <= 1)%nat -> loop_ok deadline (r :: rest) (Some b, ev).
Proof. intros Hs Ht. split; [done|]. intros i _. cbn [fst snd]. split; [by eexists|lia]. Qed.

Lemma loop_ok_last {A B} deadline (r : Round A) rest (x : option B * list WaitEvent) ev :
  sleeps_by deadline ev -> (tries ev <= 1)%nat -> sleeps_by deadline x.2 -> (tries x.2 <= 1)%nat ->
  (rest <> [] -> is_Some x.1) -> loop_ok deadline (r :: rest) (after ev x).
Proof.
  intros Hs Ht Hs2 Ht2 Hx. split; cbn [after fst snd]; [by apply sleeps_by_app|]. intros i Hi. rewrite tries_app.
  split; [|lia]. apply Hx. apply overdue_cons in Hi as [(_ & _ & f & rest' & ->)|(j & _ & Hj)]; [done|].
  apply overdue_nonempty in Hj as (f & rest' & ->). done.
Qed.

Lemma loop_ok_next {A B} deadline (r : Round A) rest (x : option B * list WaitEvent) ev :
  sleeps_by deadline ev -> (tries ev <= 1)%nat -> read_at r < deadline ->
  loop_ok deadline rest x -> loop_ok deadline (r :: rest) (after ev x).
Proof.
  intros Hs Ht Hr [Hs2 Hx]. split; cbn [after fst snd]; [by apply sleeps_by_app|]. intros i Hi. rewrite tries_app.
  apply overdue_cons in Hi as [(_ & Hd & _)|(j & -> & Hj)]; [lia|].
  destruct (Hx j Hj) as [? ?]. split; [done|lia].
Qed.

Lemma wait_loop_ok deadline rounds : loop_ok deadline rounds (wait_loop deadline rounds).
Proof.
  induction rounds as [|r rest IH]; cbn [wait_loop].
  { split; [constructor|]. intros i (r & Hr & _). done. }
  assert (forall ev, sleeps_by deadline ev -> (tries ev <= 1)%nat ->
    loop_ok deadline (r :: rest) (after ev (last_selection rest))) as Hlast.
  { intros ev Hs Ht. apply loop_ok_last; [done|done|destruct rest; solve_sleeps|by destruct rest; cbn; lia|].
    intros Hne. destruct rest; [done|by eexists]. }
  assert (forall t, sleeps_by deadline [Tried; SleptTo (Z.min t deadline)]) as Hmin
    by (intros t; solve_sleeps).
  assert (sleeps_by deadline [Tried; SleptTo deadline]) as Hdl by solve_sleeps.
  assert (sleeps_by deadline [Tried]) as H1 by solve_sleeps.
  assert (forall e, answer r = Ok (SelRateLimited (Some e)) \/ answer r = Ok (TemporarilyUnavailable e) \/
    answer r = Ok (RetryDeferred e) -> loop_ok deadline (r :: rest)
    (if deadline <=? read_at r then after [Tried] (last_selection rest)
     else match woken_by r with
          | Changed | Slept => after [Tried; SleptTo (Z.min e deadline)] (wait_loop deadline rest)
          | Closed => (Some (Err internal_error), [Tried; SleptTo (Z.min e deadline)])
          end)) as Htimed.
  { intros e _. destruct (deadline <=? read_at r) eqn:Ed; bool_to_prop; [by apply Hlast|].
    destruct (woken_by r); [by apply loop_ok_next|by apply loop_ok_done|by apply loop_ok_next]. }
  destruct (answer r) as [[x|[t|]|t|t|]|e]; try (by apply loop_ok_done); try (by apply Htimed; eauto).
  destruct (deadline <=? read_at r) eqn:Ed; bool_to_prop; [by apply Hlast|].
  destruct (woken_by r); [by apply loop_ok_next|by apply loop_ok_done|by apply Hlast].
Qed.

(** A candidate is only ever one that a selection took. *)
Lemma wait_loop_source deadline rounds x :
  (wait_loop deadline rounds).1 = Some (Ok x) -> exists r, r ∈ rounds /\ answer r = Ok (SelAcquired x).
Proof.
  induction rounds as [|r rest IH]; cbn [wait_loop]; [done|].
  assert ((wait_loop deadline rest).1 = Some (Ok x) ->
    exists r0, r0 ∈ r :: rest /\ answer r0 = Ok (SelAcquired x)) as Hrest.
  { intros H. destruct (IH H) as (r0 & Hin & Hr0). exists r0. split; [by right|done]. }
  assert ((last_selection rest).1 = Some (Ok x) ->
    exists r0, r0 ∈ r :: rest /\ answer r0 = Ok (SelAcquired x)) as Hlast.
  { destruct rest as [|f rest']; [done|]. cbn. unfold final_selection_or_timeout.
    destruct (answer f) as [[y| | | |]|e] eqn:Ef; try done. intros [= ->]. exists f. split; [|done].
    right. by left. }
  destruct (answer r) as [[y|[t|]|t|t|]|e] eqn:Er; try done;
    try (intros [= ->]; exists r; split; [by left|done]);
    destruct (deadline <=? read_at r); try exact Hlast; destruct (woken_by r); try done; auto.
Qed.

Lemma slot_dropped_run slot : slot_run slot (slot_dropped slot) = Some false.
Proof. by destruct slot. Qed.

Lemma slot_change_run slot wanted : slot_run slot (slot_change slot wanted) = Some wanted.
Proof. by destruct slot, wanted. Qed.

(** The slot is taken and returned in turn, and returned by the end. *)
Definition slot_ok {B} (slot : bool) (x : option B * list WaitEvent) : Prop :=
  exists b, slot_run slot x.2 = Some b /\ (is_Some x.1 -> b = false).

Lemma slot_ok_after {B} slot wanted ev (x : option B * list WaitEvent) :
  slot_run slot ev = Some wanted -> slot_ok wanted x -> slot_ok slot (after ev x).
Proof. intros He (b & Hb & Hx). exists b. cbn. by rewrite slot_run_app, He. Qed.

Lemma fixed_loop_slots deadline slot rounds : slot_ok slot (fixed_loop deadline slot rounds).
Proof.
  revert slot. induction rounds as [|r rest IH]; intros slot; cbn [fixed_loop].
  { exists slot. split; [done|]. by intros [? ?]. }
  assert (forall b, slot_ok b (fixed_last b rest)) as Hlast.
  { intros b. destruct rest as [|f rest']; cbn.
    - exists b. split; [done|]. by intros [? ?].
    - exists false. cbn. by rewrite slot_dropped_run. }
  destruct (answer r) as [[x|w]|e]; [by exists false; cbn; rewrite slot_dropped_run| |
    by exists false; cbn; rewrite slot_dropped_run].
  pose proof (slot_change_run slot (reserves_rpm_slot w)) as Hch.
  destruct (deadline <=? read_at r); [by eapply slot_ok_after|].
  set (wake_at := match fixed_retry_at w with Some _ => _ | None => _ end).
  assert (slot_run slot ((Tried :: slot_change slot (reserves_rpm_slot w)) ++ [SleptTo wake_at]) =
    Some (reserves_rpm_slot w)) as Hev by (by rewrite slot_run_app; cbn; rewrite Hch).
  destruct (woken_by r); [by eapply slot_ok_after| |].
  - exists false. split; [|done]. cbn [snd]. rewrite slot_run_app, Hev. cbn. by rewrite slot_dropped_run.
  - destruct (fixed_retry_at w); by eapply slot_ok_after.
Qed.

Lemma fixed_loop_ok deadline slot rounds : loop_ok deadline rounds (fixed_loop deadline slot rounds).
Proof.
  revert slot. induction rounds as [|r rest IH]; intros slot; cbn [fixed_loop].
  { split; [constructor|]. intros i (r & Hr & _). done. }
  assert (forall b ev, sleeps_by deadline ev -> (tries ev <= 1)%nat ->
    loop_ok deadline (r :: rest) (after ev (fixed_last b rest))) as Hlast.
  { intros b ev Hs Ht. apply loop_ok_last; [done|done| | |].
    - destruct rest; [|destruct b]; solve_sleeps.
    - destruct rest; [|destruct b]; cbn; lia.
    - intros Hne. destruct rest; [done|by eexists]. }
  assert (forall b, sleeps_by deadline (Tried :: slot_dropped b) /\ (tries (Tried :: slot_dropped b) <= 1)%nat) as Hd
    by (intros []; (split; [solve_sleeps|cbn; lia])).
  destruct (answer r) as [[x|w]|e]; [apply loop_ok_done; apply Hd| |apply loop_ok_done; apply Hd].
  set (wanted := reserves_rpm_slot w).
  assert (sleeps_by deadline (Tried :: slot_change slot wanted)) as Hs1
    by (destruct slot, wanted; solve_sleeps).
  assert (tries (Tried :: slot_change slot wanted) <= 1)%nat as Ht1 by (destruct slot, wanted; cbn; lia).
  destruct (deadline <=? read_at r) eqn:Ed; bool_to_prop; [by apply Hlast|].
  set (wake_at := match fixed_retry_at w with Some _ => _ | None => _ end).
  assert (wake_at <= deadline) as Hw by (unfold wake_at; destruct (fixed_retry_at w); lia).
  set (ev := (Tried :: slot_change slot wanted) ++ [SleptTo wake_at]).
  assert (sleeps_by deadline ev) as Hs2 by (apply sleeps_by_app; split; [done|solve_sleeps]).
  assert (tries ev <= 1)%nat as Ht2 by (unfold ev; rewrite tries_app; cbn in *; lia).
  destruct (woken_by r); [by apply loop_ok_next| |].
  - apply loop_ok_done.
    + apply sleeps_by_app. split; [done|]. destruct wanted; solve_sleeps.
    + rewrite tries_app. assert (tries (slot_dropped wanted) = 0)%nat by (by destruct wanted). lia.
  - destruct (fixed_retry_at w); [by apply loop_ok_next|by apply Hlast].
Qed.

(** The ticket of a request that may wait: the one it holds, or a new one, which
    the queue has room for and counts. *)
Definition ticket_for (max : Z) (w : SelectionWaitState) (q q' : QueueCoordinator) : Prop :=
  queue_ticket w = true /\ q' = q \/
  queue_ticket w = false /\ waiting q < max /\ waiting q' = waiting q + 1.

(** The request has no ticket and the queue has none left. *)
Definition queue_full (max : Z) (w : SelectionWaitState) (q : QueueCoordinator) : Prop :=
  queue_ticket w = false /\ max <= waiting q.

(** The ticket a waiting request holds, and the deadline it keeps. *)
Lemma queue_changes_total max w q :
  max <= u32_max -> waiting q <= u32_max ->
  exists got w' q', queue_changes max w q = Ret (got, w', q') /\ got = queue_ticket w' /\
    queue_deadline w' = queue_deadline w /\ binding_deadline w' = binding_deadline w /\
    if got then ticket_for max w q q' else queue_full max w q /\ w' = w /\ q' = q.
Proof.
  intros Hm Hq. unfold queue_changes. destruct (queue_ticket w) eqn:Et.
  { exists true, w, q. rewrite Et. split_and!; try done. by left. }
  unfold try_ticket, checked_add. destruct (max <=? waiting q) eqn:E; bool_to_prop.
  - cbn [mbind outcome_bind]. do 3 eexists. split_and!; try done. destruct w. cbn in *. by rewrite Et.
  - rewrite (proj2 (Z.leb_le _ _)) by lia. cbn [expect mbind outcome_bind]. do 3 eexists.
    split_and!; try done. right. cbn. split_and!; [done|lia|done].
Qed.

(** What waiting ends with: told that the queue is full, when it is and nothing
    was changed; or, with a ticket, what the loop under the deadline gives. *)
Definition waits_ok (policy : QueuePolicy) (rounds : list (Round Answer)) (w w' : SelectionWaitState)
    (q q' : QueueCoordinator) (res : option Selected) (ev : list WaitEvent) : Prop :=
  queue_full (max_waiting_requests policy) w q /\ w' = w /\ q' = q /\ ev = [] /\
    res = Some (Err (rate_limit_error "request queue is full")) \/
  ticket_for (max_waiting_requests policy) w q q' /\ queue_ticket w' = true /\
    exists d, queue_deadline w' = Some d /\ keeps (queue_deadline w) (Some d) /\
      loop_ok d rounds (res, ev).

Lemma wait_for_candidate_spec policy now rounds w q :
  max_waiting_requests policy <= u32_max -> waiting q <= u32_max ->
  now + queue_timeout policy <= instant_max ->
  exists res ev w' q', wait_for_candidate policy now rounds w q = Ret (res, ev, w', q') /\
    (forall x, res = Some (Ok x) -> exists r, r ∈ rounds /\ answer r = Ok (SelAcquired x)) /\
    waits_ok policy rounds w w' q q' res ev.
Proof.
  intros Hm Hq Hnow. unfold wait_for_candidate.
  destruct (queue_changes_total (max_waiting_requests policy) w q Hm Hq)
    as (got & w1 & q1 & -> & Hgot & Hd1 & _ & Hticket). cbn [mbind outcome_bind].
  destruct got; cbn [negb].
  - destruct (get_or_start_total now (queue_timeout policy) (queue_deadline w1) Hnow) as (d & Ed & Hk & _).
    unfold wait_queue. rewrite Ed. cbn [mbind outcome_bind].
    pose proof (wait_loop_ok d rounds) as Hok. pose proof (wait_loop_source d rounds) as Hsrc.
    destruct (wait_loop d rounds) as [res ev]. do 4 eexists. split; [done|]. split; [exact Hsrc|].
    right. cbn [queue_ticket queue_deadline]. rewrite <- Hgot. split_and!; [done|done|]. exists d.
    split; [done|]. rewrite Hd1 in Hk. by split.
  - destruct Hticket as (Hfull & -> & ->). do 4 eexists. split; [done|]. split; [done|]. by left.
Qed.

(** The first selection lets the request wait: every candidate is deferred by
    the request's own retries, or is limited or unhealthy for a time and the
    policy waits for that. *)
Definition may_wait (policy : QueuePolicy) (a : Answer) : Prop :=
  match a with
  | Ok (RetryDeferred _) => True
  | Ok (SelRateLimited _) | Ok (TemporarilyUnavailable _) => on_rate_limited policy = Wait
  | _ => False
  end.

(** * Properties *)

(** C8. Waiting for a candidate is bounded and honest.  A request is answered
    with a candidate only if one of its selections took that candidate.  A
    request whose first selection does not let it wait is answered at once and
    leaves the queue as it is.  Any other is told that the queue is full exactly
    when it has no ticket and the queue has none left; otherwise it waits with a
    ticket, its own or a new one that the queue counts, its deadline is the one
    it had before, if any, it never sleeps past that deadline, and once the
    clock has read the deadline it is answered after at most one more
    selection. *)
Theorem queue_wait_bounded policy first now rounds w q :
  max_waiting_requests policy <= u32_max -> waiting q <= u32_max ->
  now + queue_timeout policy <= instant_max ->
  exists res ev w' q', select_with_queue policy first now rounds w q = Ret (res, Tried :: ev, w', q') /\
    (forall x, res = Some (Ok x) ->
       exists r, (r = first \/ r ∈ rounds) /\ answer r = Ok (SelAcquired x)) /\
    (~ may_wait policy (answer first) /\ ev = [] /\ is_Some res /\ w' = w /\ q' = q \/
     may_wait policy (answer first) /\
       (queue_full (max_waiting_requests policy) w q /\ w' = w /\ q' = q /\ ev = [] /\
          res = Some (Err (rate_limit_error "request queue is full")) \/
        ticket_for (max_waiting_requests policy) w q q' /\ queue_ticket w' = true /\
          exists d, queue_deadline w' = Some d /\ keeps (queue_deadline w) (Some d) /\
            loop_ok d rounds (res, ev))).
Proof.
  intros Hm Hq Hnow. unfold select_with_queue.
  destruct (wait_for_candidate_spec policy now rounds w q Hm Hq Hnow)
    as (res & ev & w' & q' & E & Hsrc & Hok). rewrite E. cbn [mbind outcome_bind].
  assert (forall x, res = Some (Ok x) ->
    exists r, (r = first \/ r ∈ rounds) /\ answer r = Ok (SelAcquired x)) as Hsrc'.
  { intros x Hx. destruct (Hsrc x Hx) as (r & Hin & Hr). eauto. }
  destruct (answer first) as [[x|o|t|t|]|e] eqn:Ea; cbn [may_wait];
    destruct (on_rate_limited policy) eqn:Ep; do 4 eexists; (split; [done|]);
    (split; [try exact Hsrc'; intros y Hy; simplify_eq; eauto|]);
    first [right; by split | left; split_and!; [by intros ?|done|by eexists|done|done]].
Qed.

(** Waiting for a bound candidate is bounded, and holds the slot of the
    credential properly: the loop never sleeps past its deadline and is
    answered after at most one more selection once the clock has read it; the
    slot is never taken twice nor returned without being held, and it is
    returned by the time the request is answered, however it is answered. *)
Theorem fixed_wait_returns_slot max timeout first now rounds w q :
  max <= u32_max -> waiting q <= u32_max -> now + timeout <= instant_max ->
  exists res ev w' q', fixed_select_with_queue max timeout first now rounds w q
      = Ret (res, Tried :: ev, w', q') /\
    slot_ok false (res, ev) /\
    (ev = [] /\ is_Some res \/
     exists d, queue_ticket w' = true /\ binding_deadline w' = Some d /\
       keeps (binding_deadline w) (Some d) /\ loop_ok d rounds (res, ev)).
Proof.
  intros Hm Hq Hnow. unfold fixed_select_with_queue.
  assert (forall r : FixedResult, slot_ok false (Some r, [])) as Hnone by (intros r; by exists false).
  destruct first as [[x|wt]|e]; cycle 1.
  2, 3: do 4 eexists; (split; [done|]); split; [apply Hnone|left; by split; [|eexists]].
  destruct (queue_changes_total max w q Hm Hq) as (got & w1 & q1 & -> & Hgot & _ & Hd1 & Hticket).
  cbn [mbind outcome_bind]. destruct got; cbn [negb]; cycle 1.
  { do 4 eexists. split; [done|]. split; [apply Hnone|left; by split; [|eexists]]. }
  destruct (get_or_start_total now timeout (binding_deadline w1) Hnow) as (d & Ed & Hk & _).
  unfold wait_binding. rewrite Ed. cbn [mbind outcome_bind].
  pose proof (fixed_loop_ok d false rounds) as Hok. pose proof (fixed_loop_slots d false rounds) as Hsl.
  destruct (fixed_loop d false rounds) as [res ev]. exists res, ev. do 2 eexists. split; [done|].
  split; [done|]. right. exists d. cbn [queue_ticket binding_deadline]. rewrite Hd1 in Hk. by rewrite <- Hgot.
Qed.

(** * A concrete wait *)

Definition sample_queue_policy : QueuePolicy :=
  {| on_rate_limited := Wait; queue_timeout := secs 5; max_waiting_requests := 1;
     fallback_on_rate_limit := false |}.

Definition sample_rounds : list (Round Answer) :=
  [ {| answer := Ok (SelRateLimited (Some (secs 3))); read_at := secs 1; woken_by := Slept |};
    {| answer := Ok (SelRateLimited None); read_at := secs 6; woken_by := Changed |};
    {| answer := Ok NoCandidates; read_at := secs 6; woken_by := Changed |} ].

Lemma queue_wait_bounded_witness :
  exists res ev w' q', select_with_queue sample_queue_policy
      {| answer := Ok (SelRateLimited None); read_at := 0; woken_by := Changed |} 0 sample_rounds
      wait_state_new queue_new = Ret (res, Tried :: ev, w', q') /\ tries ev = 3%nat.
Proof.
  destruct (queue_wait_bounded sample_queue_policy
    {| answer := Ok (SelRateLimited None); read_at := 0; woken_by := Changed |} 0 sample_rounds
    wait_state_new queue_new ltac:(done) ltac:(done) ltac:(done)) as (res & ev & w' & q' & E & _).
  exists res, ev, w', q'. split; [exact E|]. vm_compute in E. by injection E as _ <- _ _.
Defined.

Definition sample_fixed_rounds : list (Round FixedAnswer) :=
  [ {| answer := Ok (FixedWaiting (WaitRateLimit (Some (secs 3)))); read_at := secs 1;
       woken_by := Slept |};
    {| answer := Ok (FixedWaiting (WaitHealth (secs 4))); read_at := secs 3; woken_by := Changed |};
    {| answer := Err Unavailable; read_at := secs 4; woken_by := Changed |} ].

Lemma fixed_wait_returns_slot_witness :
  exists res ev w' q', fixed_select_with_queue 1 (secs 5)
      (Ok (FixedWaiting (WaitRateLimit None))) 0 sample_fixed_rounds wait_state_new queue_new
      = Ret (res, Tried :: ev, w', q') /\ res = Some (Err Unavailable).
Proof.
  destruct (fixed_wait_returns_slot 1 (secs 5) (Ok (FixedWaiting (WaitRateLimit None))) 0
    sample_fixed_rounds wait_state_new queue_new ltac:(done) ltac:(done) ltac:(done))
    as (res & ev & w' & q' & E & _).
  exists res, ev, w', q'. split; [exact E|]. vm_compute in E. by injection E as <- _ _ _.
Defined.
