(* ===== verification/RetryBudget.v ===== *)
(** How much a request may retry: the limits of an operation
    ([crates/runtime/src/public_request/execution_limits.rs]) and the retry
    budget ([crates/runtime/src/public_request/retry/budget.rs]).

    A call that reads a clock takes the reading as an argument: [now] for
    [Instant::now()], and one wall-clock reading ([SystemTime::now()], in
    nanoseconds since the epoch) for each of the two places that read it. *)

From S2P Require Import Prelude Protocol Circuit Upstream Candidates.

Local Open Scope Z_scope.

(** * Execution limits *)

Inductive RequestExecutionProfile := Standard | RemoteCompaction.

#[export] Instance execution_profile_eq_dec : EqDecision RequestExecutionProfile.
Proof. solve_decision. Defined.

Definition mebibytes (n : Z) : Z := n * 1024 * 1024.
Definition STANDARD_PUBLIC_REQUEST_BODY_LIMIT_BYTES : Z := mebibytes 32.
Definition IMAGES_EDIT_REQUEST_BODY_LIMIT_BYTES : Z := mebibytes 64.
Definition STANDARD_BUFFERED_RESPONSE_LIMIT_BYTES : Z := mebibytes 16.
Definition IMAGES_BUFFERED_RESPONSE_LIMIT_BYTES : Z := mebibytes 64.
Definition IMAGES_SSE_PRECOMMIT_LIMIT_BYTES : Z := mebibytes 64.
Definition IMAGES_MINIMUM_TIMEOUT : Duration := secs 180.
Definition REMOTE_COMPACTION_SSE_PRECOMMIT_LIMIT_BYTES : Z := mebibytes 64.
Definition REMOTE_COMPACTION_MINIMUM_TIMEOUT : Duration := secs 300.
Definition RESPONSES_COMPACT_MINIMUM_TIMEOUT : Duration := secs 1200.

Definition is_images (o : ProtocolOperation) : bool :=
  match o with ImagesGenerations | ImagesEdits => true | _ => false end.

Definition request_body_limit (o : ProtocolOperation) : Z :=
  match o with
  | ImagesEdits => IMAGES_EDIT_REQUEST_BODY_LIMIT_BYTES
  | _ => STANDARD_PUBLIC_REQUEST_BODY_LIMIT_BYTES
  end.

Definition buffered_response_limit (o : ProtocolOperation) (successful : bool) : Z :=
  if successful && is_images o then IMAGES_BUFFERED_RESPONSE_LIMIT_BYTES
  else STANDARD_BUFFERED_RESPONSE_LIMIT_BYTES.

Definition timeout_floor (o : ProtocolOperation) (profile : RequestExecutionProfile)
    (configured : Duration) : Duration :=
  match o with
  | ResponsesCompact => Z.max configured RESPONSES_COMPACT_MINIMUM_TIMEOUT
  | _ => if decide (profile = RemoteCompaction)
         then Z.max configured REMOTE_COMPACTION_MINIMUM_TIMEOUT
         else if is_images o then Z.max configured IMAGES_MINIMUM_TIMEOUT
         else configured
  end.

(** [read_timeout], [retry_budget] and [stream_timeout] have one body. *)
Definition read_timeout := timeout_floor.
Definition retry_budget := timeout_floor.
Definition stream_timeout := timeout_floor.

Definition stream_precommit_bytes (o : ProtocolOperation) (profile : RequestExecutionProfile)
    (configured : Z) : Z :=
  if bool_decide (o = Responses) && bool_decide (profile = RemoteCompaction)
  then Z.max configured REMOTE_COMPACTION_SSE_PRECOMMIT_LIMIT_BYTES
  else if is_images o then IMAGES_SSE_PRECOMMIT_LIMIT_BYTES
  else configured.

(** * The budget *)

Record RetryBudget := {
  rb_policy : ReliabilityPolicy;
  rb_deadline : Instant;
  attempts : Z;
  switches : Z;
  last_credential : option (Z + Z);
  attempts_by_credential : gmap (Z + Z) Z;
  attempts_by_candidate : gmap (Z * ProtocolOperation * ((Z + Z) * Z) * (Z * Z * Z * Z)) Z
}.

(** [RetryBudget::new]; [Instant + Duration] panics past the last instant. *)
Definition budget_new (policy : ReliabilityPolicy) (o : ProtocolOperation)
    (profile : RequestExecutionProfile) (now : Instant) : outcome RetryBudget :=
  expect (instant_checked_add now (retry_budget o profile (precommit_total_budget policy))) ≫=
  fun deadline => Ret {|
    rb_policy := policy; rb_deadline := deadline; attempts := 0; switches := 0;
    last_credential := None; attempts_by_credential := ∅; attempts_by_candidate := ∅ |}.

Definition remaining (b : RetryBudget) (now : Instant) : Duration :=
  saturating_duration_since (rb_deadline b) now.

(** [last_credential.is_some_and(|previous| previous != credential_id)] *)
Definition switches_credential (b : RetryBudget) (credential : Z + Z) : bool :=
  match last_credential b with
  | Some previous => negb (bool_decide (previous = credential))
  | None => false
  end.

Definition can_register_attempt (b : RetryBudget) (now : Instant) (credential : Z + Z) : bool :=
  if (max_total_attempts (rb_policy b) <=? attempts b) || (remaining b now =? 0) then false
  else if switches_credential b credential &&
          (max_credential_switches (rb_policy b) <=? switches b) then false
  else default 0 (attempts_by_credential b !! credential)
       <=? max_same_credential_retries (rb_policy b).

Definition register_attempt (b : RetryBudget) (now : Instant) (c : RouteCandidate)
    : option (Z * RetryBudget) :=
  let credential := credential_id c in
  if negb (can_register_attempt b now credential) then None
  else
    let prior := default 0 (attempts_by_credential b !! credential) in
    let candidate_attempts := default 0 (attempts_by_candidate b !! candidate_identity c) in
    Some (attempts b + 1, {|
      rb_policy := rb_policy b;
      rb_deadline := rb_deadline b;
      attempts := attempts b + 1;
      switches := if switches_credential b credential then switches b + 1 else switches b;
      last_credential := Some credential;
      attempts_by_credential := <[credential := prior + 1]> (attempts_by_credential b);
      attempts_by_candidate :=
        <[candidate_identity c := candidate_attempts + 1]> (attempts_by_candidate b) |}).

Definition can_retry (b : RetryBudget) (now : Instant) : bool :=
  (attempts b <? max_total_attempts (rb_policy b)) && negb (remaining b now =? 0).

Definition can_wait (b : RetryBudget) (now : Instant) (delay : Duration) : bool :=
  delay <? remaining b now.

(** [jitter]: [wall] is what [SystemTime::now()] reads. *)
Definition jitter (delay : Duration) (ratio : Z) (wall : Z) : Duration :=
  if (ratio =? 0) || (delay =? 0) then delay
  else
    let nanos := if 0 <=? wall then wall mod 1000000000 else 0 in
    let width := saturating_add u32_max (saturating_mul u32_max ratio 2) 1 in
    let offset := nanos mod width - ratio in
    let percent := Z.max (100 + offset) 0 mod 2 ^ 32 in
    saturating_mul duration_max delay percent / 100.

(** The wall-clock readings of one delay: in [jitter] and for the hint. *)
Record WallClock := { jitter_reading : Z; hint_reading : Z }.

Definition delay_for_attempt_count (b : RetryBudget) (attempt_count : Z)
    (hint : option RetryAfterHint) (wall : WallClock) : Duration :=
  let exponent := Z.min (saturating_sub attempt_count 1) 31 in
  let multiplier := Z.shiftl 1 exponent in
  let base := Z.min (saturating_mul duration_max (base_delay (rb_policy b)) multiplier)
                    (max_delay (rb_policy b)) in
  let fallback := jitter base (jitter_ratio (rb_policy b)) (jitter_reading wall) in
  let retry_after :=
    match hint with Some h => delay_from h (hint_reading wall) | None => 0 end in
  Z.max fallback retry_after.

Definition next_delay (b : RetryBudget) (c : RouteCandidate) (hint : option RetryAfterHint)
    (wall : WallClock) : outcome Duration :=
  expect (attempts_by_candidate b !! candidate_identity c) ≫=
  fun candidate_attempts => Ret (delay_for_attempt_count b candidate_attempts hint wall).

Definition next_request_delay (b : RetryBudget) (hint : option RetryAfterHint)
    (wall : WallClock) : Duration :=
  delay_for_attempt_count b (attempts b) hint wall.

(** * Delays *)

Lemma timeout_floor_ge o profile configured : configured <= timeout_floor o profile configured.
Proof. unfold timeout_floor. destruct o; simpl; repeat case_decide; lia. Qed.

(** The delay before jitter: doubled with each attempt up to the policy's
    maximum. *)
Definition backoff (p : ReliabilityPolicy) (attempt_count : Z) : Duration :=
  Z.min (base_delay p * 2 ^ Z.min (Z.max 0 (attempt_count - 1)) 31) (max_delay p).

Lemma jitter_bounds delay ratio wall :
  0 <= delay -> 0 <= ratio <= 100 -> delay * 200 <= duration_max ->
  delay * (100 - ratio) / 100 <= jitter delay ratio wall <= delay * (100 + ratio) / 100.
Proof.
  intros Hd Hr Hm. unfold jitter. destruct (ratio =? 0) eqn:E0; simpl.
  { apply Z.eqb_eq in E0. subst. rewrite Z.sub_0_r, Z.add_0_r, Z.div_mul by lia. lia. }
  destruct (delay =? 0) eqn:E1; simpl. { apply Z.eqb_eq in E1. subst. rewrite !Z.mul_0_l, Z.div_0_l; lia. }
  apply Z.eqb_neq in E0, E1. unfold saturating_mul, saturating_add, u32_max.
  rewrite (Z.min_r _ (ratio * 2)), (Z.min_r _ (ratio * 2 + 1)) by lia.
  set (nanos := if 0 <=? wall then _ else _). clearbody nanos.
  pose proof (Z.mod_pos_bound nanos (ratio * 2 + 1) ltac:(lia)).
  set (offset := nanos mod (ratio * 2 + 1)) in *. clearbody offset.
  rewrite Z.max_l by lia. rewrite Z.mod_small by lia.
  rewrite Z.min_r by nia. split; apply Z.div_le_mono; nia.
Qed.

Lemma backoff_bounds p n :
  0 <= base_delay p -> 0 <= max_delay p -> 0 <= backoff p n <= max_delay p.
Proof.
  intros. unfold backoff. pose proof (Z.pow_nonneg 2 (Z.min (Z.max 0 (n - 1)) 31)). nia.
Qed.

Lemma backoff_shift p n :
  0 <= base_delay p -> max_delay p <= duration_max ->
  Z.min (saturating_mul duration_max (base_delay p)
           (Z.shiftl 1 (Z.min (saturating_sub n 1) 31))) (max_delay p) = backoff p n.
Proof.
  intros. unfold backoff, saturating_mul, saturating_sub.
  rewrite Z.shiftl_1_l. lia.
Qed.

(** A policy whose delays do not saturate. *)
Definition policy_ok (p : ReliabilityPolicy) : Prop :=
  0 <= base_delay p /\ 0 <= max_delay p /\ max_delay p * 200 <= duration_max /\
  0 <= jitter_ratio p <= 100.

(** The delay before a retry is the exponential backoff, capped at the
    policy's maximum and moved by at most the jitter ratio, unless the upstream
    asked for more: it is never shorter than a Retry-After hint, and exceeds the
    jittered backoff only to be exactly that hint. *)
Theorem retry_delay_bounds (b : RetryBudget) (n : Z) (hint : option RetryAfterHint)
    (wall : WallClock) :
  policy_ok (rb_policy b) ->
  let p := rb_policy b in
  let d := delay_for_attempt_count b n hint wall in
  let asked := match hint with Some h => delay_from h (hint_reading wall) | None => 0 end in
  backoff p n * (100 - jitter_ratio p) / 100 <= d /\ asked <= d /\
  (d <= backoff p n * (100 + jitter_ratio p) / 100 \/ d = asked) /\
  asked <= secs MAX_RETRY_AFTER_SECONDS.
Proof.
  intros (Hb & Hm & Hd & Hr). cbv zeta. unfold delay_for_attempt_count.
  rewrite backoff_shift by lia.
  pose proof (backoff_bounds (rb_policy b) n Hb Hm).
  pose proof (jitter_bounds (backoff (rb_policy b) n) (jitter_ratio (rb_policy b))
                (jitter_reading wall) ltac:(lia) Hr ltac:(lia)).
  split_and!; [lia|lia|lia|].
  destruct hint as [h|]; [unfold delay_from; lia|by vm_compute].
Qed.

Lemma retry_delay_bounds_witness :
  let b := {| rb_policy := policy_from_settings 60; rb_deadline := secs 60; attempts := 2;
              switches := 0; last_credential := None; attempts_by_credential := ∅;
              attempts_by_candidate := ∅ |} in
  let w := {| jitter_reading := 0; hint_reading := 0 |} in
  secs 2 * 80 / 100 <= delay_for_attempt_count b 2 (Some (Delay (secs 7))) w.
Proof.
  cbv zeta. apply (retry_delay_bounds {| rb_policy := policy_from_settings 60;
    rb_deadline := secs 60; attempts := 2; switches := 0; last_credential := None;
    attempts_by_credential := ∅; attempts_by_candidate := ∅ |} 2 (Some (Delay (secs 7)))
    {| jitter_reading := 0; hint_reading := 0 |}).
  unfold policy_ok. vm_compute. repeat split; discriminate.
Defined.

(** * The budget as a log of attempts *)

Definition credential_count (id : Z + Z) (log : list RouteCandidate) : Z :=
  Zlen (filter (fun c => credential_id c = id) log).
Definition candidate_count (c : RouteCandidate) (log : list RouteCandidate) : Z :=
  Zlen (filter (fun d => candidate_identity d = candidate_identity c) log).

(** How often the credential changed between consecutive attempts. *)
Fixpoint switch_count (previous : option (Z + Z)) (log : list RouteCandidate) : Z :=
  match log with
  | [] => 0
  | c :: log' =>
      (match previous with
       | Some p => if bool_decide (p = credential_id c) then 0 else 1
       | None => 0
       end) + switch_count (Some (credential_id c)) log'
  end.

Definition last_used (previous : option (Z + Z)) (log : list RouteCandidate) : option (Z + Z) :=
  match last log with Some c => Some (credential_id c) | None => previous end.

Lemma switch_count_snoc previous log c :
  switch_count previous (log ++ [c]) =
  switch_count previous log +
  match last_used previous log with
  | Some p => if bool_decide (p = credential_id c) then 0 else 1
  | None => 0
  end.
Proof.
  revert previous. induction log as [|d log IH]; intros previous.
  - cbn. lia.
  - cbn [app switch_count]. rewrite IH, Z.add_assoc. f_equal. unfold last_used.
    rewrite last_cons. by destruct (last log).
Qed.

Lemma Zlen_snoc_filter {A} (P : A -> Prop) `{!forall x, Decision (P x)} l x :
  Zlen (filter P (l ++ [x])) = Zlen (filter P l) + (if decide (P x) then 1 else 0).
Proof.
  unfold Zlen. rewrite filter_app, length_app, filter_cons, filter_nil.
  case_decide; simpl; lia.
Qed.

(** The budget [b] of policy [p] and deadline [t] after the attempts [log]. *)
Record budget_logs (p : ReliabilityPolicy) (t : Instant) (log : list RouteCandidate)
    (b : RetryBudget) : Prop := {
  bl_policy : rb_policy b = p;
  bl_deadline : rb_deadline b = t;
  bl_attempts : attempts b = Zlen log;
  bl_switches : switches b = switch_count None log;
  bl_last : last_credential b = last_used None log;
  bl_credential : forall id, default 0 (attempts_by_credential b !! id) = credential_count id log;
  bl_candidate : forall c, attempts_by_candidate b !! candidate_identity c =
    if 0 <? candidate_count c log then Some (candidate_count c log) else None
}.

(** What a log keeps to. *)
Definition within_limits (p : ReliabilityPolicy) (log : list RouteCandidate) : Prop :=
  Zlen log <= Z.max 0 (max_total_attempts p) /\
  switch_count None log <= Z.max 0 (max_credential_switches p) /\
  (forall id, credential_count id log <= Z.max 0 (max_same_credential_retries p + 1)).

Lemma credential_count_snoc id log c :
  credential_count id (log ++ [c]) =
  credential_count id log + (if decide (credential_id c = id) then 1 else 0).
Proof. unfold credential_count. by rewrite Zlen_snoc_filter. Qed.

Lemma candidate_count_snoc d log c :
  candidate_count d (log ++ [c]) =
  candidate_count d log +
  (if decide (candidate_identity c = candidate_identity d) then 1 else 0).
Proof. unfold candidate_count. by rewrite Zlen_snoc_filter. Qed.

Lemma candidate_count_nonneg c log : 0 <= candidate_count c log.
Proof. unfold candidate_count, Zlen. lia. Qed.

Lemma budget_new_logs p o profile now b :
  budget_new p o profile now = Ret b ->
  budget_logs p (now + retry_budget o profile (precommit_total_budget p)) [] b.
Proof.
  unfold budget_new, instant_checked_add, checked_add. case_match; [|done].
  cbn. by intros [= <-].
Qed.

Lemma last_used_snoc previous log c : last_used previous (log ++ [c]) = Some (credential_id c).
Proof. unfold last_used. by rewrite last_snoc. Qed.

Lemma within_limits_nil p : within_limits p [].
Proof. split_and!; [unfold Zlen; simpl; lia|cbn; lia|]. intros id. change (credential_count id []) with 0. lia. Qed.

(** An attempt registers exactly when its log stays within the limits and the
    deadline is ahead, and then takes the next number. *)
Lemma register_attempt_logs p t log b now c n b' :
  budget_logs p t log b -> register_attempt b now c = Some (n, b') ->
  budget_logs p t (log ++ [c]) b' /\ n = Zlen log + 1 /\ now < t.
Proof.
  intros [Hp Ht Ha Hs Hl Hc Hi] H. unfold register_attempt in H.
  destruct (can_register_attempt b now (credential_id c)) eqn:Hcan; simplify_eq/=.
  split; [|split; [lia|]].
  - split; cbn [rb_policy rb_deadline attempts switches last_credential attempts_by_credential
                attempts_by_candidate]; try done.
    + unfold Zlen in *. rewrite length_app. simpl. lia.
    + rewrite switch_count_snoc, <-Hs, <-Hl. unfold switches_credential.
      destruct (last_credential b); [case_bool_decide; simpl; lia|lia].
    + by rewrite last_used_snoc.
    + intros id. rewrite lookup_insert, credential_count_snoc, <-Hc.
      case_decide; simplify_eq/=; [done|lia].
    + intros d. rewrite lookup_insert, candidate_count_snoc, !Hi.
      pose proof (candidate_count_nonneg c log). pose proof (candidate_count_nonneg d log).
      case_decide as E; [|by rewrite Z.add_0_r].
      assert (candidate_count d log = candidate_count c log) as ->.
      { unfold candidate_count. by rewrite E. }
      repeat case_match; simplify_eq/=; bool_to_prop; try lia; f_equal; lia.
  - unfold can_register_attempt, remaining, saturating_duration_since in Hcan.
    repeat case_match; bool_to_prop; try done; lia.
Qed.

Lemma register_attempt_within p t log b now c n b' :
  budget_logs p t log b -> register_attempt b now c = Some (n, b') ->
  within_limits p log -> within_limits p (log ++ [c]).
Proof.
  intros [Hp Ht Ha Hs Hl Hc Hi] H (W1 & W2 & W3). unfold register_attempt in H.
  destruct (can_register_attempt b now (credential_id c)) eqn:Hcan; simplify_eq/=.
  unfold can_register_attempt in Hcan.
  destruct (_ || _) eqn:E1 in Hcan; [done|]. destruct (_ && _) eqn:E2 in Hcan; [done|].
  bool_to_prop. rewrite Hc in Hcan. split_and!.
  - unfold Zlen in *. rewrite length_app. simpl. lia.
  - rewrite switch_count_snoc, <-Hs, <-Hl. unfold switches_credential in E2.
    destruct (last_credential b); [|lia]. case_bool_decide; [lia|].
    destruct E2 as [E2|E2]; [done|]. bool_to_prop. lia.
  - intros id. rewrite credential_count_snoc. specialize (W3 id).
    case_decide; simplify_eq/=; lia.
Qed.
