(* ===== verification/Retry.v ===== *)
(** The retry engine of a public request
    ([crates/runtime/src/public_request/retry.rs], [retry/decision.rs],
    [retry/failure.rs], [retry/attempt.rs] and [upstream/failure.rs]).

    One iteration of the loop of [RetryExecution::run] takes from its
    environment what the awaited calls answer: the wake-ups of the selection,
    the snapshot the store holds, whether the attempt may start, what the
    upstream call returned, the readings of the clocks and the answer of an
    OAuth refresh.  The calls with an effect outside the engine are collected
    in its [trace], in order.

    Planning and validation of a snapshot ([planning::replan],
    [LiveRoutingSnapshots::validate]) are parameters: the engine only passes
    their errors on. *)

From S2P Require Import Prelude Protocol Circuit Upstream Candidates RetryBudget.

Local Open Scope Z_scope.

(** * Failures of an attempt *)

Inductive UpstreamFailureOrigin :=
| HttpStatus (error_body_complete : bool)
| BufferedEnvelope
| PreSemanticStreamEnvelope (retry_delay_basis : ProtocolRetryDelayBasis).

(** An HTTP response as it is sent on: status, headers and body. *)
Record EgressResponse := {
  er_status : Z;
  er_headers : list (string * string);
  er_body : list Z
}.

Inductive AttemptFailure :=
| FailTransport (error : TransportError) (candidate : RouteCandidate) (bound : bool)
| FailUpstream (origin : UpstreamFailureOrigin) (response : EgressResponse)
    (error : UpstreamErrorClassification) (candidate : RouteCandidate) (bound : bool)
| FailPublic (error : PublicError).

Inductive FinalFailure :=
| FinalLocal (error : PublicError)
| FinalUpstream (response : EgressResponse) (class : ErrorClass).

(** [UpstreamFailureOrigin::retry_delay_basis] *)
Definition retry_delay_basis (o : UpstreamFailureOrigin) : ProtocolRetryDelayBasis :=
  match o with
  | PreSemanticStreamEnvelope basis => basis
  | HttpStatus _ | BufferedEnvelope => CandidateAttempts
  end.

(** [AttemptFailure::final_failure] *)
Definition final_failure (f : AttemptFailure) : FinalFailure :=
  match f with
  | FailTransport _ _ _ => FinalLocal (public_error CodeUpstreamError "upstream request failed")
  | FailUpstream _ response error _ _ => FinalUpstream response (error_class (kind error))
  | FailPublic error => FinalLocal error
  end.

(** [AttemptFailure::retry_safety] *)
Definition failure_retry_safety (f : AttemptFailure) : RetrySafety :=
  match f with
  | FailTransport error _ _ => transport_retry_safety error
  | FailUpstream _ _ error _ _ => retry_safety error
  | FailPublic _ => Ambiguous
  end.

(** [AttemptFailure::retry_after] *)
Definition failure_retry_after (f : AttemptFailure) : option RetryAfterHint :=
  match f with
  | FailUpstream _ _ error _ _ => retry_after error
  | _ => None
  end.

(** [AttemptFailure::candidate] *)
Definition failure_candidate (f : AttemptFailure) : option RouteCandidate :=
  match f with
  | FailTransport _ c _ | FailUpstream _ _ _ c _ => Some c
  | FailPublic _ => None
  end.

(** [AttemptFailure::bound] *)
Definition failure_bound (f : AttemptFailure) : bool :=
  match f with
  | FailTransport _ _ bound | FailUpstream _ _ _ _ bound => bound
  | FailPublic _ => true
  end.

(** [AttemptFailure::upstream_origin] *)
Definition upstream_origin (f : AttemptFailure) : option UpstreamFailureOrigin :=
  match f with
  | FailUpstream origin _ _ _ _ => Some origin
  | _ => None
  end.

(** [allows_oauth_refresh] *)
Definition allows_oauth_refresh (c : UpstreamErrorClassification) : bool :=
  bool_decide (kind c = Authentication) && allows_automatic_retry (retry_safety c).

(** [AttemptFailure::oauth_authentication_target] *)
Definition oauth_authentication_target (f : AttemptFailure) : option (Z * Z) :=
  match f with
  | FailUpstream _ _ error c _ =>
      if negb (allows_oauth_refresh error) then None
      else (fun id => (id, authentication_version c)) <$> oauth_account_id (credential_id c)
  | _ => None
  end.

(** * Decisions *)

Inductive RetryDecision :=
| Terminal
| OAuthRefresh (account_id token_version : Z)
| RetrySamePath (delay : Duration)
| PreferAlternate (scope : CandidateFailureScope) (retry_delay : Duration)
| Reselect (scope : CandidateFailureScope).

Inductive RequestAttemptRetryDecision :=
| TTerminal | TOAuthRefresh | TRetrySamePath | TReselect.

(** [RetryDecision::telemetry] *)
Definition telemetry (d : RetryDecision) : RequestAttemptRetryDecision :=
  match d with
  | Terminal => TTerminal
  | OAuthRefresh _ _ => TOAuthRefresh
  | RetrySamePath _ => TRetrySamePath
  | PreferAlternate _ _ | Reselect _ => TReselect
  end.

(** [RetryDecision::required_wait] *)
Definition required_wait (d : RetryDecision) : option Duration :=
  match d with RetrySamePath delay => Some delay | _ => None end.

(** [is_hard_reselection_kind] *)
Definition is_hard_reselection_kind (k : UpstreamErrorKind) : bool :=
  match k with
  | Authentication | PermissionDenied | QuotaExhausted | ModelUnavailable
  | OperationUnavailable => true
  | _ => false
  end.

(** [is_nonrecovering_bound_kind] *)
Definition is_nonrecovering_bound_kind (k : UpstreamErrorKind) : bool :=
  is_hard_reselection_kind k.

(** [failure_scope] *)
Definition failure_scope (f : AttemptFailure) : CandidateFailureScope :=
  match f with
  | FailTransport error _ _ =>
      match failure_scope_of error with
      | Upstream.ScopeEndpoint => ScopeEndpoint
      | Upstream.ScopeProxy => ScopeProxy
      | Upstream.ScopeEgressPath => ScopeEgressPath
      | ScopeUnattributed => ExactCandidate
      end
  | FailUpstream _ _ error _ _ =>
      match attribution error with
      | AttrAuthentication | AttrCredential => ScopeCredential
      | AttrCredentialModel => ScopeCredentialModel
      | AttrRouteOperation => ScopeRouteOperation
      | AttrEndpoint => ScopeEndpoint
      | AttrEgressPath => ScopeEgressPath
      | Unattributed => ExactCandidate
      end
  | FailPublic _ => ExactCandidate
  end.

Inductive RequestAttemptFailureScope :=
| TUnattributed | TAuthentication | TCredential | TCredentialModel | TRouteOperation
| TExactCandidate | TEgressPath | TProxy | TEndpoint.

(** [telemetry_failure_scope] *)
Definition telemetry_failure_scope (f : AttemptFailure) : option RequestAttemptFailureScope :=
  match f with
  | FailTransport error _ _ => Some
      match failure_scope_of error with
      | Upstream.ScopeEndpoint => TEndpoint
      | Upstream.ScopeProxy => TProxy
      | Upstream.ScopeEgressPath => TEgressPath
      | ScopeUnattributed => TExactCandidate
      end
  | FailUpstream _ _ error _ _ => Some
      match attribution error with
      | Unattributed => TExactCandidate
      | AttrAuthentication => TAuthentication
      | AttrCredential => TCredential
      | AttrCredentialModel => TCredentialModel
      | AttrRouteOperation => TRouteOperation
      | AttrEgressPath => TEgressPath
      | AttrEndpoint => TEndpoint
      end
  | FailPublic _ => None
  end.

(** [retry_delay] *)
Definition retry_delay (f : AttemptFailure) (b : RetryBudget) (wall : WallClock)
    : outcome Duration :=
  match default CandidateAttempts (retry_delay_basis <$> upstream_origin f) with
  | CandidateAttempts =>
      expect (failure_candidate f) ≫= fun c => next_delay b c (failure_retry_after f) wall
  | RequestAttempts => Ret (next_request_delay b (failure_retry_after f) wall)
  end.

(** [retry_decision], at [now] and with the wall clock of its delay *)
Definition retry_decision (f : AttemptFailure) (b : RetryBudget) (can_refresh_oauth : bool)
    (now : Instant) (wall : WallClock) : outcome RetryDecision :=
  if negb (can_retry b now) then Ret Terminal
  else match f with
  | FailPublic _ => Ret Terminal
  | FailTransport _ _ _ =>
      if negb (allows_automatic_retry (failure_retry_safety f)) then Ret Terminal
      else
        expect (failure_candidate f) ≫= fun c =>
        next_delay b c (failure_retry_after f) wall ≫= fun delay =>
        Ret (if failure_bound f then RetrySamePath delay else Reselect (failure_scope f))
  | FailUpstream origin _ error _ _ =>
      match origin with
      | HttpStatus false => Ret Terminal
      | _ =>
        let k := kind error in
        if decide (k = InvalidRequest) then Ret Terminal
        else if negb (allows_automatic_retry (retry_safety error)) then Ret Terminal
        else match (if can_refresh_oauth then oauth_authentication_target f else None) with
        | Some (account_id, token_version) => Ret (OAuthRefresh account_id token_version)
        | None =>
            if failure_bound f then
              if is_nonrecovering_bound_kind k then Ret Terminal
              else retry_delay f b wall ≫= fun delay => Ret (RetrySamePath delay)
            else if is_hard_reselection_kind k then Ret (Reselect (failure_scope f))
            else retry_delay f b wall ≫= fun delay =>
                 Ret (PreferAlternate (failure_scope f) delay)
        end
      end
  end.

(** [apply_candidate_recovery] *)
Definition apply_candidate_recovery (s : CandidateSelectionState) (f : AttemptFailure)
    (d : RetryDecision) (now : Instant) : CandidateSelectionState :=
  match failure_candidate f with
  | None => s
  | Some c =>
      match d with
      | PreferAlternate scope delay =>
          let s1 := note_failed c s in
          match instant_checked_add now delay with
          | Some not_before => defer c scope not_before s1
          | None => exclude c scope s1
          end
      | Reselect scope => exclude c scope (note_failed c s)
      | Terminal | OAuthRefresh _ _ | RetrySamePath _ => s
      end
  end.

(** A failure that may be repeated: the request was not executed, or its
    execution is idempotent, and the upstream did not call it invalid. *)
Definition repeatable (f : AttemptFailure) : bool :=
  match f with
  | FailTransport error _ _ => allows_automatic_retry (transport_retry_safety error)
  | FailUpstream origin _ error _ _ =>
      match origin with HttpStatus false => false | _ => true end &&
      negb (bool_decide (kind error = InvalidRequest)) &&
      allows_automatic_retry (retry_safety error)
  | FailPublic _ => false
  end.

Lemma retry_decision_repeatable f b can now wall d :
  retry_decision f b can now wall = Ret d -> d <> Terminal ->
  repeatable f = true /\ can_retry b now = true.
Proof.
  unfold retry_decision. intros H Hd. destruct (can_retry b now); simpl in H; [|by simplify_eq].
  split; [|done]. destruct f as [error c bound|origin response error c bound|error]; simpl in *.
  - destruct (allows_automatic_retry _); simpl in *; [done|by simplify_eq].
  - destruct origin as [[]| |basis]; simpl in *; try by simplify_eq.
    all: case_decide as E; [by simplify_eq|]; rewrite bool_decide_eq_false_2 by done;
      destruct (allows_automatic_retry _); simpl in *; [done|by simplify_eq].
  - by simplify_eq.
Qed.

Lemma refresh_requires_permission f b can now wall account version :
  retry_decision f b can now wall = Ret (OAuthRefresh account version) -> can = true.
Proof.
  unfold retry_decision, retry_delay, next_delay. intros H. destruct can; [done|exfalso].
  destruct (can_retry b now); [|done].
  destruct f as [error c bound|origin response error c bound|error]; cbn [negb] in H; [| |done].
  - destruct (negb _); [done|]. cbn [expect failure_candidate mbind outcome_bind] in H.
    destruct (attempts_by_candidate b !! candidate_identity c), bound; done.
  - destruct origin as [[]| |[]]; try done.
    all: case_decide; [done|]; destruct (negb _); [done|]; cbn in H;
      destruct bound, (is_hard_reselection_kind (kind error)) eqn:E;
      unfold is_nonrecovering_bound_kind in H; rewrite ?E in H; try done;
      destruct (attempts_by_candidate b !! candidate_identity c); done.
Qed.

(** A decision panics only for the delay of a candidate without an attempt. *)
Lemma retry_decision_total f b can now wall :
  (forall c, failure_candidate f = Some c ->
     is_Some (attempts_by_candidate b !! candidate_identity c)) ->
  exists d, retry_decision f b can now wall = Ret d.
Proof.
  intros H. unfold retry_decision, retry_delay, next_delay.
  destruct (can_retry b now); simpl; [|by eexists].
  destruct f as [error c bound|origin response error c bound|error]; simpl in *;
    [| |by eexists]; destruct (H c eq_refl) as [n ->].
  - destruct (allows_automatic_retry _); simpl; by eexists.
  - destruct origin as [[]| |[]]; simpl; try by eexists.
    all: case_decide; [by eexists|]; destruct (allows_automatic_retry (retry_safety error)); simpl;
      [|by eexists]; destruct (if can then _ else None) as [[]|]; [by eexists|];
      destruct bound, (is_hard_reselection_kind (kind error)) eqn:E;
      unfold is_nonrecovering_bound_kind; rewrite ?E; by eexists.
Qed.

(** * The engine *)

(** [AffinitySelection], as far as the engine reads it *)
Record Selection := { sel_candidate : RouteCandidate; sel_bound : bool }.

(** What an awaited upstream attempt comes back with; the attempt builds its
    failure with the candidate and the binding of its selection
    ([upstream/buffered.rs], [upstream/streaming.rs]).  [AnsTimedOut] is the
    deadline of [within_attempt_budget]. *)
Inductive AttemptAnswer (Response : Type) :=
| AnsResponse (response : Response)
| AnsTransport (error : TransportError)
| AnsUpstream (origin : UpstreamFailureOrigin) (response : EgressResponse)
    (error : UpstreamErrorClassification)
| AnsPublic (error : PublicError)
| AnsTimedOut.
Arguments AnsResponse {Response}.
Arguments AnsTransport {Response}.
Arguments AnsUpstream {Response}.
Arguments AnsPublic {Response}.
Arguments AnsTimedOut {Response}.

Definition attempt_result {Response} (sel : Selection) (a : AttemptAnswer Response)
    : option (result Response AttemptFailure) :=
  match a with
  | AnsResponse response => Some (Ok response)
  | AnsTransport error =>
      Some (Err (FailTransport error (sel_candidate sel) (sel_bound sel)))
  | AnsUpstream origin response error =>
      Some (Err (FailUpstream origin response error (sel_candidate sel) (sel_bound sel)))
  | AnsPublic error => Some (Err (FailPublic error))
  | AnsTimedOut => None
  end.

(** The calls of a run with an effect outside the engine. *)
Inductive TraceEvent (Response : Type) :=
| RollbackBeforeAttempt (c : RouteCandidate)
| BeginAttempt (attempt_no : Z) (sel : Selection)
| SendUpstream (sel : Selection) (allow_credential_bound_headers : bool)
    (answer : AttemptAnswer Response)
| AnnotateAttempt (attempt_no : Z) (scope : option RequestAttemptFailureScope)
    (d : RequestAttemptRetryDecision)
| RefreshAfterAuthenticationFailure (account_id token_version : Z)
| RefreshedAccessTokenRejected (account_id token_version : Z)
| Sleep (delay : Duration).
Arguments RollbackBeforeAttempt {Response}.
Arguments BeginAttempt {Response}.
Arguments SendUpstream {Response}.
Arguments AnnotateAttempt {Response}.
Arguments RefreshAfterAuthenticationFailure {Response}.
Arguments RefreshedAccessTokenRejected {Response}.
Arguments Sleep {Response}.

Definition budget_exhausted : PublicError :=
  public_error GatewayTimeout ANY2API_UPSTREAM_TIMEOUT_MESSAGE.

Definition binding_lost : PublicError :=
  public_error SessionBindingLost "session binding is missing or unavailable".

(** The clock readings of one [handle_failure]. *)
Record FailureClock := {
  fc_check : Instant;
  fc_decide : Instant;
  fc_wall : WallClock;
  fc_wait : Instant;
  fc_redecide : Instant;
  fc_rewall : WallClock;
  fc_apply : Instant
}.

Section Engine.

Context {Snapshot Plan Response Wait : Type}.
Context (revision : Snapshot -> Z).
(** [LiveRoutingSnapshots::validate] and [planning::replan] *)
Context (validate : Snapshot -> result unit PublicError).
Context (replan : Snapshot -> Plan -> result Plan PublicError).
(** [SelectionWaitState::default] *)
Context (wait_default : Wait).
(** [services.oauth.is_some()], and the token version of an OAuth account *)
Context (has_oauth : bool).
Context (token_version_of : Snapshot -> Z -> option Z).

Record RetryExecution := {
  routing_snapshot : Snapshot;
  plan : Plan;
  budget : RetryBudget;
  selection_state : CandidateSelectionState;
  selection_wait : Wait;
  previous_error : option FinalFailure;
  oauth_refresh_attempted : bool;
  refreshed_oauth_target : option (Z * Z);
  credential_bound_header_owner : option (Z + Z);
  trace : list (TraceEvent Response)
}.

(** [execute], up to the call of [run] *)
Definition execution_new (snapshot : Snapshot) (p : Plan) (b : RetryBudget)
    : RetryExecution := {|
  routing_snapshot := snapshot; plan := p; budget := b;
  selection_state := selection_state_new; selection_wait := wait_default;
  previous_error := None; oauth_refresh_attempted := false; refreshed_oauth_target := None;
  credential_bound_header_owner := None; trace := [] |}.

Definition set_snapshot_plan (snapshot : Snapshot) (p : Plan) (s : RetryExecution)
    : RetryExecution := {|
  routing_snapshot := snapshot; plan := p; budget := budget s;
  selection_state := selection_state s; selection_wait := selection_wait s;
  previous_error := previous_error s; oauth_refresh_attempted := oauth_refresh_attempted s;
  refreshed_oauth_target := refreshed_oauth_target s;
  credential_bound_header_owner := credential_bound_header_owner s; trace := trace s |}.
Definition set_selection (state : CandidateSelectionState) (wait : Wait) (s : RetryExecution)
    : RetryExecution := {|
  routing_snapshot := routing_snapshot s; plan := plan s; budget := budget s;
  selection_state := state; selection_wait := wait;
  previous_error := previous_error s; oauth_refresh_attempted := oauth_refresh_attempted s;
  refreshed_oauth_target := refreshed_oauth_target s;
  credential_bound_header_owner := credential_bound_header_owner s; trace := trace s |}.
Definition set_previous (previous : option FinalFailure) (s : RetryExecution)
    : RetryExecution := {|
  routing_snapshot := routing_snapshot s; plan := plan s; budget := budget s;
  selection_state := selection_state s; selection_wait := selection_wait s;
  previous_error := previous; oauth_refresh_attempted := oauth_refresh_attempted s;
  refreshed_oauth_target := refreshed_oauth_target s;
  credential_bound_header_owner := credential_bound_header_owner s; trace := trace s |}.
Definition set_oauth (attempted : bool) (target : option (Z * Z)) (s : RetryExecution)
    : RetryExecution := {|
  routing_snapshot := routing_snapshot s; plan := plan s; budget := budget s;
  selection_state := selection_state s; selection_wait := selection_wait s;
  previous_error := previous_error s; oauth_refresh_attempted := attempted;
  refreshed_oauth_target := target;
  credential_bound_header_owner := credential_bound_header_owner s; trace := trace s |}.
Definition set_budget_owner (b : RetryBudget) (owner : option (Z + Z)) (s : RetryExecution)
    : RetryExecution := {|
  routing_snapshot := routing_snapshot s; plan := plan s; budget := b;
  selection_state := selection_state s; selection_wait := selection_wait s;
  previous_error := previous_error s; oauth_refresh_attempted := oauth_refresh_attempted s;
  refreshed_oauth_target := refreshed_oauth_target s;
  credential_bound_header_owner := owner; trace := trace s |}.
Definition push_trace (e : TraceEvent Response) (s : RetryExecution) : RetryExecution := {|
  routing_snapshot := routing_snapshot s; plan := plan s; budget := budget s;
  selection_state := selection_state s; selection_wait := selection_wait s;
  previous_error := previous_error s; oauth_refresh_attempted := oauth_refresh_attempted s;
  refreshed_oauth_target := refreshed_oauth_target s;
  credential_bound_header_owner := credential_bound_header_owner s; trace := trace s ++ [e] |}.

(** ** Computations of the engine: a state, an early return, a panic *)

(** Why a computation stops: the [Err] of the source, or the engine is still
    waiting when its environment has said everything. *)
Inductive Stop := Failed (f : FinalFailure) | Waiting.

Definition M (A : Type) : Type := RetryExecution -> outcome (result A Stop * RetryExecution).

#[global] Instance M_ret : MRet M := fun A a s => Ret (Ok a, s).
#[global] Instance M_bind : MBind M := fun A B f m s =>
  match m s with
  | Panic => Panic
  | Ret (Ok a, s') => f a s'
  | Ret (Err stop, s') => Ret (Err stop, s')
  end.

Definition stop {A} (why : Stop) : M A := fun s => Ret (Err why, s).
Definition fail {A} (f : FinalFailure) : M A := stop (Failed f).
Definition gets {A} (f : RetryExecution -> A) : M A := fun s => Ret (Ok (f s), s).
Definition modify (f : RetryExecution -> RetryExecution) : M unit := fun s => Ret (Ok tt, f s).
Definition emit (e : TraceEvent Response) : M unit := modify (push_trace e).
Definition lift {A} (o : outcome A) : M A := fun s =>
  match o with Ret a => Ret (Ok a, s) | Panic => Panic end.

(** [take_previous_or], returned as an error *)
Definition previous_or {A} (fallback : FinalFailure) : M A := fun s =>
  Ret (Err (Failed (default fallback (previous_error s))), set_previous None s).

(** [LiveRoutingSnapshots::refresh]: [latest] is what the store holds. *)
Definition live_refresh (latest current : Snapshot) : option Snapshot :=
  if revision latest =? revision current then None else Some latest.

(** [RetryExecution::rebase_to] *)
Definition rebase_to (next : Snapshot) : M (result unit PublicError) := fun s =>
  match validate next with
  | Err e => Ret (Ok (Err e), s)
  | Ok _ =>
      match replan next (plan s) with
      | Err e => Ret (Ok (Err e), s)
      | Ok p => Ret (Ok (Ok tt), set_snapshot_plan next p s)
      end
  end.

(** The error of a rebase in the selection and before an attempt *)
Definition rebase_failed {A} (e : PublicError) : M A :=
  if decide (code e = Unauthorized) then fail (FinalLocal e) else previous_or (FinalLocal e).

(** *** [RetryExecution::select_attempt] *)

Inductive SelectionWake :=
| WakeSelected (selected : result Selection PublicError)
| WakeRevision (changed : result unit PublicError) (latest : Snapshot)
| WakeTimedOut.

(** One iteration: the clock, the wait state the selection leaves and the
    wake-up. *)
Record SelectionRound := {
  round_now : Instant;
  round_wait : Wait;
  round_wake : SelectionWake
}.

Fixpoint select_attempt (rounds : list SelectionRound) : M Selection :=
  match rounds with
  | [] => stop Waiting
  | r :: rest =>
      b ← gets budget;
      if remaining b (round_now r) =? 0 then previous_or (FinalLocal budget_exhausted)
      else
        _ ← modify (fun s => set_selection (selection_state s) (round_wait r) s);
        match round_wake r with
        | WakeSelected (Ok sel) => mret sel
        | WakeSelected (Err e) => previous_or (FinalLocal e)
        | WakeRevision (Err e) _ => previous_or (FinalLocal e)
        | WakeTimedOut => previous_or (FinalLocal budget_exhausted)
        | WakeRevision (Ok _) latest =>
            current ← gets routing_snapshot;
            match live_refresh latest current with
            | None => select_attempt rest
            | Some next =>
                rebased ← rebase_to next;
                match rebased with
                | Ok _ => select_attempt rest
                | Err e => rebase_failed e
                end
            end
        end
  end.

(** *** [RetryExecution::execute_attempt] *)

(** What the environment answers in one iteration of [run]. *)
Record Iteration := {
  it_rounds : list SelectionRound;
  it_latest : Snapshot;
  it_starts : bool;
  it_register : Instant;
  it_answer : AttemptAnswer Response;
  it_clock : FailureClock;
  it_refresh : option Snapshot
}.

Inductive AttemptExecution :=
| Completed (attempt_no : Z) (attempt : result Response AttemptFailure)
| ReselectAttempt.

(** The part of [execute_attempt] after the attempt has started *)
Definition start_upstream (it : Iteration) (sel : Selection) : M AttemptExecution :=
  _ ← modify (fun s => set_selection (selection_state s) wait_default s);
  let credential := credential_id (sel_candidate sel) in
  b ← gets budget;
  owner ← gets credential_bound_header_owner;
  match register_attempt b (it_register it) (sel_candidate sel) with
  | None =>
      _ ← emit (RollbackBeforeAttempt (sel_candidate sel));
      previous_or (FinalLocal budget_exhausted)
  | Some (attempt_no, b') =>
      let allow := match owner with
                   | Some o => bool_decide (o = credential)
                   | None => true
                   end in
      _ ← modify (set_budget_owner b' (Some (default credential owner)));
      _ ← emit (BeginAttempt attempt_no sel);
      _ ← emit (SendUpstream sel allow (it_answer it));
      match attempt_result sel (it_answer it) with
      | None =>
          _ ← emit (AnnotateAttempt attempt_no (Some TUnattributed) TTerminal);
          previous_or (FinalLocal budget_exhausted)
      | Some attempt => mret (Completed attempt_no attempt)
      end
  end.

Definition execute_attempt (it : Iteration) (sel : Selection) : M AttemptExecution :=
  current ← gets routing_snapshot;
  match live_refresh (it_latest it) current with
  | Some next =>
      _ ← emit (RollbackBeforeAttempt (sel_candidate sel));
      rebased ← rebase_to next;
      match rebased with
      | Err e => rebase_failed e
      | Ok _ => mret ReselectAttempt
      end
  | None =>
      if negb (it_starts it) then
        if sel_bound sel then fail (FinalLocal binding_lost) else mret ReselectAttempt
      else start_upstream it sel
  end.

(** *** [RetryExecution::handle_failure] *)

(** [note_rejected_refreshed_token] *)
Definition note_rejected_refreshed_token (f : AttemptFailure) : M unit :=
  target ← gets refreshed_oauth_target;
  match target with
  | Some (account_id, token_version) =>
      if bool_decide (oauth_authentication_target f = Some (account_id, token_version)) &&
         has_oauth then
        _ ← emit (RefreshedAccessTokenRejected account_id token_version);
        modify (fun s => set_oauth (oauth_refresh_attempted s) None s)
      else mret tt
  | None => mret tt
  end.

(** [refresh_oauth]: [refreshed] is the snapshot of a refresh that succeeded
    within the remaining budget. *)
Definition refresh_oauth (refreshed : option Snapshot) (account_id token_version : Z)
    : M bool :=
  _ ← lift (if has_oauth then Ret tt else Panic);
  _ ← emit (RefreshAfterAuthenticationFailure account_id token_version);
  match refreshed with
  | None => mret false
  | Some next =>
      let target := (fun version => (account_id, version)) <$> token_version_of next account_id in
      rebased ← rebase_to next;
      match rebased with
      | Err e => fail (FinalLocal e)
      | Ok _ =>
          _ ← modify (fun s => set_oauth (oauth_refresh_attempted s) target s);
          mret true
      end
  end.

(** [apply_retry_decision] *)
Definition apply_retry_decision (now : Instant) (attempt_no : Z)
    (scope : option RequestAttemptFailureScope) (f : AttemptFailure) (public : FinalFailure)
    (d : RetryDecision) : M unit :=
  b ← gets budget;
  _ ← match d with
      | Terminal =>
          _ ← emit (AnnotateAttempt attempt_no scope TTerminal);
          fail public
      | RetrySamePath delay =>
          if negb (can_wait b now delay) then
            _ ← emit (AnnotateAttempt attempt_no scope TTerminal);
            fail public
          else if delay =? 0 then mret tt else emit (Sleep delay)
      | PreferAlternate _ _ | Reselect _ =>
          modify (fun s =>
            set_selection (apply_candidate_recovery (selection_state s) f d now)
                          (selection_wait s) s)
      | OAuthRefresh _ _ => mret tt
      end;
  _ ← emit (AnnotateAttempt attempt_no scope (telemetry d));
  modify (set_previous (Some public)).

Definition handle_failure (clock : FailureClock) (refreshed : option Snapshot) (attempt_no : Z)
    (f : AttemptFailure) : M unit :=
  _ ← note_rejected_refreshed_token f;
  let public := final_failure f in
  b ← gets budget;
  attempted ← gets oauth_refresh_attempted;
  let can_refresh_oauth := negb attempted && has_oauth &&
    match failure_candidate f with
    | Some c => can_register_attempt b (fc_check clock) (credential_id c)
    | None => false
    end in
  let scope := telemetry_failure_scope f in
  d ← lift (retry_decision f b can_refresh_oauth (fc_decide clock) (fc_wall clock));
  let d := match required_wait d with
           | Some delay => if can_wait b (fc_wait clock) delay then d else Terminal
           | None => d
           end in
  match d with
  | OAuthRefresh account_id token_version =>
      _ ← modify (fun s => set_oauth true (refreshed_oauth_target s) s);
      ok ← refresh_oauth refreshed account_id token_version;
      if ok : bool then apply_retry_decision (fc_apply clock) attempt_no scope f public d
      else
        d' ← lift (retry_decision f b false (fc_redecide clock) (fc_rewall clock));
        apply_retry_decision (fc_apply clock) attempt_no scope f public d'
  | _ => apply_retry_decision (fc_apply clock) attempt_no scope f public d
  end.

(** *** [RetryExecution::run] *)

Fixpoint run_loop (script : list Iteration) : M Response :=
  match script with
  | [] => stop Waiting
  | it :: rest =>
      sel ← select_attempt (it_rounds it);
      executed ← execute_attempt it sel;
      match executed with
      | ReselectAttempt => run_loop rest
      | Completed _ (Ok response) => mret response
      | Completed attempt_no (Err f) =>
          _ ← handle_failure (it_clock it) (it_refresh it) attempt_no f;
          run_loop rest
      end
  end.

Definition run (latest : Snapshot) (script : list Iteration) : M Response :=
  current ← gets routing_snapshot;
  match live_refresh latest current with
  | None => run_loop script
  | Some next =>
      rebased ← rebase_to next;
      match rebased with
      | Err e => fail (FinalLocal e)
      | Ok _ => run_loop script
      end
  end.

(** ** What a trace says *)

Abbreviation Send := (Selection * bool * AttemptAnswer Response)%type (only parsing).

Definition sends (t : list (TraceEvent Response)) : list Send :=
  omap (fun e => match e with SendUpstream sel allow a => Some (sel, allow, a) | _ => None end) t.
Definition begins (t : list (TraceEvent Response)) : list Z :=
  omap (fun e => match e with BeginAttempt n _ => Some n | _ => None end) t.
Definition refreshes (t : list (TraceEvent Response)) : list (Z * Z) :=
  omap (fun e => match e with
                 | RefreshAfterAuthenticationFailure a v => Some (a, v) | _ => None end) t.

Definition send_candidate (x : Send) : RouteCandidate := sel_candidate x.1.1.
Definition send_failure (x : Send) : option AttemptFailure :=
  match attempt_result x.1.1 x.2 with Some (Err f) => Some f | _ => None end.
Definition sent (t : list (TraceEvent Response)) : list RouteCandidate :=
  send_candidate <$> sends t.

(** The attempt ran into the deadline of the budget: it has no result. *)
Definition timed_out (x : Send) : Prop := attempt_result x.1.1 x.2 = None.
(** The failure of the last attempt *)
Definition last_failure (l : list Send) : option AttemptFailure := last l ≫= send_failure.

(** The credential of the first attempt, and the header permission it gives. *)
Definition first_credential (l : list Send) : option (Z + Z) :=
  (fun x => credential_id (send_candidate x)) <$> head l.
Definition headers_ok (l : list Send) : Prop :=
  Forall (fun x : Send =>
    x.1.2 = bool_decide (first_credential l = Some (credential_id (send_candidate x)))) l.

Definition repeated_safely (x : Send) : Prop :=
  match send_failure x with Some f => repeatable f = true | None => False end.

(** What every step of the engine keeps, over the fields it depends on. *)
Record engine_inv (p : ReliabilityPolicy) (t : Instant) (b : RetryBudget)
    (owner : option (Z + Z)) (refreshed : bool) (tr : list (TraceEvent Response)) : Prop := {
  ei_budget : budget_logs p t (sent tr) b;
  ei_limits : within_limits p (sent tr);
  ei_numbers : begins tr = seqZ 1 (Zlen (sends tr));
  ei_owner : owner = first_credential (sends tr);
  ei_headers : headers_ok (sends tr);
  ei_refresh : (length (refreshes tr) <= if refreshed then 1 else 0)%nat
}.

Definition inv p t (s : RetryExecution) : Prop :=
  engine_inv p t (budget s) (credential_bound_header_owner s) (oauth_refresh_attempted s)
    (trace s).

(** At the head of the loop every attempt made may be repeated, and the error
    kept is that of the last failure. *)
Definition head_inv p t (s : RetryExecution) : Prop :=
  inv p t s /\ Forall repeated_safely (sends (trace s)) /\
  previous_error s = final_failure <$> last_failure (sends (trace s)).

(** When the engine returns, every attempt but the last one may be repeated. *)
Definition exit_inv p t (s : RetryExecution) : Prop :=
  inv p t s /\
  exists l tl, sends (trace s) = l ++ tl /\ (length tl <= 1)%nat /\ Forall repeated_safely l.

Definition stopped {A} (r : result A Stop) : option Stop :=
  match r with Ok _ => None | Err w => Some w end.

(** What it returns: where no attempt timed out, an upstream failure is that of
    the last attempt; an attempt that timed out is the last, and then the
    failure of the attempt before it is returned, if there was one. *)
Definition report_ok {A} (r : result A Stop) (s : RetryExecution) : Prop :=
  (Forall (fun x => ~ timed_out x) (sends (trace s)) /\
   forall response class, stopped r = Some (Failed (FinalUpstream response class)) ->
     final_failure <$> last_failure (sends (trace s)) = Some (FinalUpstream response class)) \/
  (exists l y, sends (trace s) = l ++ [y] /\ timed_out y /\
     stopped r = Some (Failed (default (FinalLocal budget_exhausted) (final_failure <$> last_failure l)))).

(** Events that are no attempt and no refresh *)
Definition quiet (e : TraceEvent Response) : bool :=
  match e with
  | BeginAttempt _ _ | SendUpstream _ _ _ | RefreshAfterAuthenticationFailure _ _ => false
  | _ => true
  end.

Lemma sends_snoc t e : sends (t ++ [e]) =
  sends t ++ match e with SendUpstream sel allow a => [(sel, allow, a)] | _ => [] end.
Proof. unfold sends. rewrite omap_app. by destruct e. Qed.

Lemma begins_snoc t e : begins (t ++ [e]) =
  begins t ++ match e with BeginAttempt n _ => [n] | _ => [] end.
Proof. unfold begins. rewrite omap_app. by destruct e. Qed.

Lemma refreshes_snoc t e : refreshes (t ++ [e]) =
  refreshes t ++ match e with RefreshAfterAuthenticationFailure a v => [(a, v)] | _ => [] end.
Proof. unfold refreshes. rewrite omap_app. by destruct e. Qed.

Lemma quiet_sends t e : quiet e = true -> sends (t ++ [e]) = sends t.
Proof. intros He. rewrite sends_snoc. destruct e; try done; apply app_nil_r. Qed.

Lemma quiet_inv p t b owner refreshed tr e :
  quiet e = true -> engine_inv p t b owner refreshed tr ->
  engine_inv p t b owner refreshed (tr ++ [e]).
Proof.
  intros He [H1 H2 H3 H4 H5 H6].
  assert (begins (tr ++ [e]) = begins tr) as Hb.
  { rewrite begins_snoc. destruct e; try done; apply app_nil_r. }
  assert (refreshes (tr ++ [e]) = refreshes tr) as Hr.
  { rewrite refreshes_snoc. destruct e; try done; apply app_nil_r. }
  split; unfold sent in *; rewrite ?quiet_sends, ?Hb, ?Hr by done; done.
Qed.


Lemma first_credential_snoc l x :
  first_credential (l ++ [x]) =
  Some (default (credential_id (send_candidate x)) (first_credential l)).
Proof. by destruct l. Qed.

(** An attempt: its budget, its number, its headers. *)
Lemma attempt_inv p t b owner refreshed tr now sel a n b' :
  engine_inv p t b owner refreshed tr ->
  register_attempt b now (sel_candidate sel) = Some (n, b') ->
  engine_inv p t b' (Some (default (credential_id (sel_candidate sel)) owner)) refreshed
    ((tr ++ [BeginAttempt n sel]) ++
     [SendUpstream sel (match owner with
                        | Some o => bool_decide (o = credential_id (sel_candidate sel))
                        | None => true
                        end) a]).
Proof.
  intros [H1 H2 H3 H4 H5 H6] Hreg.
  destruct (register_attempt_logs _ _ _ _ _ _ _ _ H1 Hreg) as (H1' & Hn & _).
  pose proof (register_attempt_within _ _ _ _ _ _ _ _ H1 Hreg H2) as H2'.
  set (allow := match owner with Some _ => _ | None => true end).
  assert (sends ((tr ++ [BeginAttempt n sel]) ++ [SendUpstream sel allow a]) =
          sends tr ++ [(sel, allow, a)]) as Hs.
  { by rewrite !sends_snoc, app_nil_r. }
  assert (Zlen (sent tr) = Zlen (sends tr)) as Hlen.
  { unfold sent, Zlen. by rewrite length_fmap. }
  split; unfold sent in *; rewrite ?Hs, ?fmap_app; try done.
  - rewrite !begins_snoc, app_nil_r, H3. rewrite Hn, Hlen.
    replace (Zlen (sends tr ++ [(sel, allow, a)])) with (Zlen (sends tr) + 1)
      by (unfold Zlen; rewrite length_app; simpl; lia).
    rewrite seqZ_app by (unfold Zlen; lia). f_equal.
    change (seqZ (1 + Zlen (sends tr)) 1) with [1 + Zlen (sends tr)]. f_equal. lia.
  - by rewrite first_credential_snoc, <-H4.
  - unfold headers_ok in *. rewrite first_credential_snoc. apply Forall_app. split.
    + destruct (sends tr) as [|y l]; [constructor|]. exact H5.
    + constructor; [|constructor]. cbn [fst snd]. unfold allow. rewrite H4.
      change (send_candidate (sel, _, a)) with (sel_candidate sel).
      destruct (first_credential (sends tr)); simpl; [|by rewrite bool_decide_eq_true_2].
      apply bool_decide_ext. split; congruence.
  - by rewrite !refreshes_snoc, !app_nil_r.
Qed.

(** A candidate that was sent has an attempt in the budget. *)
Lemma sent_registered p t b owner refreshed tr c :
  engine_inv p t b owner refreshed tr -> c ∈ sent tr ->
  is_Some (attempts_by_candidate b !! candidate_identity c).
Proof.
  intros [[_ _ _ _ _ _ H] _ _ _ _ _] Hc. rewrite H.
  assert (0 < candidate_count c (sent tr)) as Hpos.
  { unfold candidate_count, Zlen.
    assert (c ∈ filter (fun d => candidate_identity d = candidate_identity c) (sent tr)) as Hin
      by (by apply list_elem_of_filter).
    destruct (filter _ _); [by apply not_elem_of_nil in Hin|simpl; lia]. }
  apply Z.ltb_lt in Hpos. rewrite Hpos. by eexists.
Qed.

(** ** Hoare rules *)

(** [m] started in [s] does not panic and ends in [Q]. *)
Definition wp {A} (m : M A) (Q : result A Stop -> RetryExecution -> Prop) (s : RetryExecution)
    : Prop :=
  match m s with Panic => False | Ret (r, s') => Q r s' end.

Lemma wp_bind {A B} (m : M A) (k : A -> M B) Q s :
  wp m (fun r s' => match r with Ok a => wp (k a) Q s' | Err w => Q (Err w) s' end) s ->
  wp (m ≫= k) Q s.
Proof. unfold wp, mbind, M_bind. destruct (m s) as [[[a|w] s']|]; done. Qed.

Lemma wp_gets {A B} (f : RetryExecution -> A) (k : A -> M B) Q s :
  wp (k (f s)) Q s -> wp (gets f ≫= k) Q s.
Proof. done. Qed.

Lemma wp_modify {B} f (k : unit -> M B) Q s : wp (k tt) Q (f s) -> wp (modify f ≫= k) Q s.
Proof. done. Qed.

Lemma wp_emit {B} e (k : unit -> M B) Q s :
  wp (k tt) Q (push_trace e s) -> wp (emit e ≫= k) Q s.
Proof. done. Qed.

Lemma wp_lift {A B} (a : A) (k : A -> M B) Q s : wp (k a) Q s -> wp (lift (Ret a) ≫= k) Q s.
Proof. done. Qed.

Lemma wp_mono {A} (m : M A) (Q Q' : result A Stop -> RetryExecution -> Prop) s :
  wp m Q s -> (forall r s', Q r s' -> Q' r s') -> wp m Q' s.
Proof. unfold wp. destruct (m s) as [[r s']|]; eauto. Qed.

Lemma wp_rebase next Q s :
  (forall e, Q (Ok (Err e)) s) -> (forall pl, Q (Ok (Ok tt)) (set_snapshot_plan next pl s)) ->
  wp (rebase_to next) Q s.
Proof.
  intros H1 H2. unfold wp, rebase_to. destruct (validate next); [|apply H1].
  destruct (replan next (plan s)); [apply H2|apply H1].
Qed.

(** The condition of a computation of the loop: it returns to the head of the
    loop, or leaves it. *)
Definition loop_post p t {A} (r : result A Stop) (s : RetryExecution) : Prop :=
  match r with
  | Ok _ => head_inv p t s
  | Err _ => exit_inv p t s /\ report_ok r s
  end.

(** The engine leaves the loop. *)
Definition stop_post p t {A} (r : result A Stop) (s : RetryExecution) : Prop :=
  match r with
  | Ok _ => False
  | Err _ => exit_inv p t s /\ report_ok r s
  end.

Lemma stop_loop p t {A} (m : M A) s : wp m (stop_post p t) s -> wp m (loop_post p t) s.
Proof. intros H. eapply wp_mono; [exact H|]. by intros [] ? ?. Qed.

Lemma head_exit p t s : head_inv p t s -> exit_inv p t s.
Proof.
  intros (H1 & H2 & _). split; [done|]. exists (sends (trace s)), [].
  rewrite app_nil_r. simpl. split_and!; [done|lia|done].
Qed.

Lemma safe_not_timed_out l : Forall repeated_safely l -> Forall (fun x => ~ timed_out x) l.
Proof.
  intros H. eapply Forall_impl; [exact H|]. intros x. unfold repeated_safely, send_failure, timed_out.
  by destruct (attempt_result x.1.1 x.2).
Qed.

(** A local error, or the error of the last attempt, at the head of the loop *)
Lemma head_reports {A} p t s (e : FinalFailure) :
  head_inv p t s ->
  (forall response class, e = FinalUpstream response class ->
     final_failure <$> last_failure (sends (trace s)) = Some e) ->
  exit_inv p t s /\ report_ok (@Err A _ (Failed e)) s.
Proof.
  intros H He. split; [by apply head_exit|]. left. split; [by apply safe_not_timed_out, H|].
  intros response class ?. simplify_eq/=. by eapply He.
Qed.

Lemma wp_head_local {A} p t e s :
  head_inv p t s -> wp (@fail A (FinalLocal e)) (stop_post p t) s.
Proof. intros H. by apply (@head_reports A p t s (FinalLocal e)). Qed.

Lemma wp_previous_or {A} p t e s :
  head_inv p t s -> wp (@previous_or A (FinalLocal e)) (stop_post p t) s.
Proof.
  intros H. unfold wp, previous_or. cbn [stop_post].
  apply (@head_reports A p t s); [done|]. destruct H as (_ & _ & ->).
  by destruct (final_failure <$> last_failure _) as [[]|].
Qed.

(** The attempt [y] timed out after the attempts [l]. *)
Lemma wp_timed_out {A} p t l y s :
  exit_inv p t s -> sends (trace s) = l ++ [y] -> timed_out y ->
  previous_error s = final_failure <$> last_failure l ->
  wp (@previous_or A (FinalLocal budget_exhausted)) (stop_post p t) s.
Proof.
  intros H Hs Hy Hp. unfold wp, previous_or. cbn [stop_post]. split; [exact H|].
  right. exists l, y. split_and!; [exact Hs|exact Hy|]. by rewrite Hp.
Qed.

Lemma wp_rebase_failed {A} p t e s :
  head_inv p t s -> wp (@rebase_failed A e) (stop_post p t) s.
Proof.
  intros H. unfold rebase_failed. case_decide.
  - by apply wp_head_local.
  - by apply wp_previous_or.
Qed.

Lemma head_waits {A} p t s : head_inv p t s -> loop_post p t (@Err A _ Waiting) s.
Proof.
  intros H. split; [by apply head_exit|]. left. split; [by apply safe_not_timed_out, H|done].
Qed.

Lemma wp_select_attempt p t rounds s :
  head_inv p t s -> wp (select_attempt rounds) (loop_post p t) s.
Proof.
  revert s. induction rounds as [|r rest IH]; intros s H; cbn [select_attempt].
  { by apply head_waits. }
  apply wp_gets. destruct (_ =? 0).
  { by apply stop_loop, wp_previous_or. }
  apply wp_modify. set (s1 := set_selection (selection_state s) (round_wait r) s).
  assert (head_inv p t s1) as H1 by exact H.
  assert (forall e, wp (@previous_or Selection (FinalLocal e)) (loop_post p t) s1) as Hprev.
  { intros e. by apply stop_loop, wp_previous_or. }
  destruct (round_wake r) as [[sel|e]|[u|e] latest|]; [exact H1|apply Hprev| |apply Hprev|
    apply Hprev].
  apply wp_gets. destruct (live_refresh _ _); [|by apply IH].
  apply wp_bind, wp_rebase; [intros e; by apply stop_loop, wp_rebase_failed|intros pl; by apply IH].
Qed.

(** After an attempt that failed with [f] *)
Definition failed_inv p t (f : AttemptFailure) (s : RetryExecution) : Prop :=
  inv p t s /\
  exists l x, sends (trace s) = l ++ [x] /\ Forall repeated_safely l /\ send_failure x = Some f.

Definition executed_post p t (r : result AttemptExecution Stop) (s : RetryExecution) : Prop :=
  match r with
  | Ok ReselectAttempt => head_inv p t s
  | Ok (Completed _ (Ok _)) => exit_inv p t s /\ Forall (fun x => ~ timed_out x) (sends (trace s))
  | Ok (Completed _ (Err f)) => failed_inv p t f s
  | Err _ => exit_inv p t s /\ report_ok r s
  end.

Lemma quiet_head p t e s : quiet e = true -> head_inv p t s -> head_inv p t (push_trace e s).
Proof.
  intros He (H1 & H2 & H3). unfold head_inv, inv. cbn [push_trace trace budget
    credential_bound_header_owner oauth_refresh_attempted previous_error].
  rewrite quiet_sends by done. split_and!; [by apply quiet_inv|done|done].
Qed.

Lemma stop_executed p t (m : M AttemptExecution) s :
  wp m (stop_post p t) s -> wp m (executed_post p t) s.
Proof. intros H. eapply wp_mono; [exact H|]. by intros [[]|] ? ?. Qed.

Lemma wp_start_upstream p t it sel s :
  head_inv p t s -> wp (start_upstream it sel) (executed_post p t) s.
Proof.
  intros (Hinv & Hsafe & Hprev). unfold start_upstream.
  apply wp_modify, wp_gets, wp_gets. cbn [set_selection budget credential_bound_header_owner].
  destruct (register_attempt _ _ _) as [[n b']|] eqn:Hreg.
  - pose proof (attempt_inv _ _ _ _ _ _ _ _ (it_answer it) _ _ Hinv Hreg) as Hinv'.
    apply wp_modify, wp_emit, wp_emit.
    match goal with |- wp _ _ ?s1 => set (s' := s1) end.
    assert (exists x, sends (trace s') = sends (trace s) ++ [x] /\
      attempt_result x.1.1 x.2 = attempt_result sel (it_answer it)) as (x & Hs & Hx).
    { eexists (sel, _, it_answer it). split; [|done]. subst s'. cbn [push_trace trace
        set_budget_owner set_selection]. by rewrite !sends_snoc, app_nil_r. }
    assert (inv p t s') as Hi by exact Hinv'.
    assert (exit_inv p t s') as He.
    { split; [done|]. exists (sends (trace s)), [x]. simpl. split_and!; [done|lia|done]. }
    destruct (attempt_result sel (it_answer it)) as [[response|f]|] eqn:Ha.
    + split; [exact He|]. rewrite Hs. apply Forall_app. split; [by apply safe_not_timed_out|].
      constructor; [|constructor]. unfold timed_out. by rewrite Hx.
    + split; [done|]. exists (sends (trace s)), x. unfold send_failure. by rewrite Hx.
    + apply wp_emit. apply stop_executed, (wp_timed_out p t (sends (trace s)) x).
      * unfold exit_inv, inv. cbn [push_trace trace budget credential_bound_header_owner
          oauth_refresh_attempted]. rewrite quiet_sends by done.
        split; [by apply quiet_inv|apply He].
      * cbn [push_trace trace]. by rewrite quiet_sends.
      * exact Hx.
      * exact Hprev.
  - apply wp_emit. assert (head_inv p t (push_trace (RollbackBeforeAttempt (sel_candidate sel))
      (set_selection (selection_state s) wait_default s))) as Hh by (by apply quiet_head).
    by apply stop_executed, wp_previous_or.
Qed.

Lemma wp_execute_attempt p t it sel s :
  head_inv p t s -> wp (execute_attempt it sel) (executed_post p t) s.
Proof.
  intros H. unfold execute_attempt. apply wp_gets.
  destruct (live_refresh _ _) as [next|].
  - apply wp_emit, wp_bind. pose proof (quiet_head p t (RollbackBeforeAttempt
      (sel_candidate sel)) s eq_refl H) as H1.
    apply wp_rebase; [|intros pl; exact H1].
    intros e. by apply stop_executed, wp_rebase_failed.
  - destruct (it_starts it); cbn [negb]; [by apply wp_start_upstream|].
    destruct (sel_bound sel); [|exact H].
    by apply stop_executed, wp_head_local.
Qed.

Lemma quiet_failed p t f e s :
  quiet e = true -> failed_inv p t f s -> failed_inv p t f (push_trace e s).
Proof.
  intros He (H1 & H2). unfold failed_inv, inv. cbn [push_trace trace budget
    credential_bound_header_owner oauth_refresh_attempted].
  rewrite quiet_sends by done. split; [by apply quiet_inv|done].
Qed.

Lemma failed_exit p t f s : failed_inv p t f s -> exit_inv p t s.
Proof.
  intros (H & l & x & Hs & Hl & _). split; [done|]. exists l, [x]. simpl. split_and!; [done|lia|done].
Qed.

Lemma failed_last p t f s : failed_inv p t f s -> last_failure (sends (trace s)) = Some f.
Proof.
  intros (_ & l & x & Hs & _ & Hx). unfold last_failure. by rewrite Hs, last_snoc.
Qed.

(** A local error, or its own, ends the run after an attempt that failed. *)
Lemma failed_reports {A} p t f s e :
  failed_inv p t f s -> (forall response class, e = FinalUpstream response class ->
    e = final_failure f) ->
  exit_inv p t s /\ report_ok (@Err A _ (Failed e)) s.
Proof.
  intros H He. split; [by eapply failed_exit|]. left. split.
  - destruct H as (_ & l & x & -> & Hl & Hx). apply Forall_app.
    split; [by apply safe_not_timed_out|]. constructor; [|constructor].
    unfold send_failure in Hx. unfold timed_out. by destruct (attempt_result x.1.1 x.2).
  - intros response class ?. simplify_eq/=. rewrite (failed_last _ _ _ _ H). cbn.
    by rewrite (He _ _ eq_refl).
Qed.

Lemma failed_head p t f s :
  failed_inv p t f s -> repeatable f = true ->
  head_inv p t (set_previous (Some (final_failure f)) s).
Proof.
  intros H Hf. pose proof (failed_last _ _ _ _ H) as Hl. destruct H as (H & l & x & Hs & Hsafe & Hx).
  split_and!; [exact H| |].
  - change (Forall repeated_safely (sends (trace s))). rewrite Hs. apply Forall_app. split; [done|].
    constructor; [|constructor]. unfold repeated_safely. by rewrite Hx.
  - cbn [set_previous previous_error trace]. by rewrite Hl.
Qed.

(** The terminal branch of [apply_retry_decision] *)
Lemma wp_terminal p t {A} n scope f s :
  failed_inv p t f s ->
  wp (emit (AnnotateAttempt n scope TTerminal) ≫= fun _ => @fail A (final_failure f))
    (stop_post p t) s.
Proof.
  intros H. apply wp_emit. apply (quiet_failed p t f (AnnotateAttempt n scope TTerminal)) in H;
    [|done]. by eapply failed_reports.
Qed.

Lemma wp_apply_retry_decision p t now n scope f d s :
  failed_inv p t f s -> (d <> Terminal -> repeatable f = true) ->
  wp (apply_retry_decision now n scope f (final_failure f) d) (loop_post p t) s.
Proof.
  intros H Hd. unfold apply_retry_decision. apply wp_gets, wp_bind.
  assert (forall s', failed_inv p t f s' -> repeatable f = true ->
    wp (emit (AnnotateAttempt n scope (telemetry d)) ≫= fun _ =>
        modify (set_previous (Some (final_failure f)))) (loop_post p t) s') as Hcont.
  { intros s' Hs' Hf. apply wp_emit. apply failed_head; [by apply quiet_failed|done]. }
  destruct d as [|account version|delay|sc delay|sc];
    try specialize (Hd ltac:(discriminate)); try (by apply Hcont).
  - eapply wp_mono; [by apply wp_terminal|]. by intros [] ? ?.
  - destruct (can_wait _ _ _); cbn [negb].
    + destruct (delay =? 0); apply Hcont; try done. by apply quiet_failed.
    + eapply wp_mono; [by apply wp_terminal|]. by intros [] ? ?.
Qed.

Lemma failed_registered p t f s c :
  failed_inv p t f s -> failure_candidate f = Some c ->
  is_Some (attempts_by_candidate (budget s) !! candidate_identity c).
Proof.
  intros (H & l & x & Hs & _ & Hx) Hc. eapply sent_registered; [exact H|].
  unfold sent. rewrite Hs, fmap_app. apply elem_of_app. right. apply list_elem_of_singleton.
  unfold send_failure in Hx. destruct x as [[sel allow] a], a; simplify_eq/=; done.
Qed.

Lemma wp_note_rejected p t f s :
  failed_inv p t f s ->
  wp (note_rejected_refreshed_token f)
    (fun r s' => r = Ok tt /\ failed_inv p t f s') s.
Proof.
  intros H. unfold note_rejected_refreshed_token. apply wp_gets.
  destruct (refreshed_oauth_target s) as [[account version]|]; [|done].
  destruct (_ && _); [|done]. apply wp_emit. split; [done|]. by apply quiet_failed.
Qed.

(** A refresh is made at most once. *)
Lemma refresh_inv p t b owner tr account version :
  engine_inv p t b owner false tr ->
  engine_inv p t b owner true (tr ++ [RefreshAfterAuthenticationFailure account version]).
Proof.
  intros [H1 H2 H3 H4 H5 H6].
  split; unfold sent in *; rewrite ?sends_snoc, ?begins_snoc, ?app_nil_r; try done.
  rewrite refreshes_snoc, length_app. simpl. lia.
Qed.

Lemma wp_refresh_oauth p t f refreshed account version s :
  has_oauth = true -> oauth_refresh_attempted s = false -> failed_inv p t f s ->
  wp (refresh_oauth refreshed account version)
    (fun r s' => match r with
                 | Ok _ => failed_inv p t f s'
                 | Err _ => stop_post p t r s'
                 end) (set_oauth true (refreshed_oauth_target s) s).
Proof.
  intros Ho Ha (H & Hrest). unfold refresh_oauth. rewrite Ho. apply wp_lift, wp_emit.
  match goal with |- wp _ _ ?s1 => set (s' := s1) end.
  assert (failed_inv p t f s') as H'.
  { unfold inv in H. rewrite Ha in H. split; [by apply refresh_inv|].
    subst s'. cbn [push_trace trace set_oauth]. rewrite sends_snoc, app_nil_r. done. }
  destruct refreshed as [next|]; [|exact H'].
  apply wp_bind, wp_rebase; [intros e|intros pl; apply wp_modify; exact H'].
  by eapply failed_reports.
Qed.

Lemma wp_handle_failure p t clock refreshed n f s :
  failed_inv p t f s -> wp (handle_failure clock refreshed n f) (loop_post p t) s.
Proof.
  intros H0. unfold handle_failure. apply wp_bind. eapply wp_mono; [by apply wp_note_rejected|].
  clear s H0. intros r s (-> & H). apply wp_gets, wp_gets.
  set (can := negb (oauth_refresh_attempted s) && has_oauth && _).
  pose proof (fun c => failed_registered p t f s c H) as Hreg.
  destruct (retry_decision_total f (budget s) can (fc_decide clock) (fc_wall clock) Hreg)
    as [d Hd].
  rewrite Hd. apply wp_lift.
  pose proof (retry_decision_repeatable _ _ _ _ _ _ Hd) as Hrep.
  set (d1 := match required_wait d with Some _ => _ | None => d end).
  assert (d1 = d \/ d1 = Terminal) as Hd1.
  { subst d1. destruct (required_wait d); [case_match|]; auto. }
  assert (d1 <> Terminal -> repeatable f = true) as Hf.
  { destruct Hd1 as [->| ->]; [intros; by apply Hrep|done]. }
  assert (forall s', failed_inv p t f s' -> wp (apply_retry_decision (fc_apply clock) n
    (telemetry_failure_scope f) f (final_failure f) d1) (loop_post p t) s') as Happly.
  { intros. by apply wp_apply_retry_decision. }
  destruct d1 as [|account version|delay|sc delay|sc] eqn:E1; try by apply Happly.
  assert (can = true) as Hcan.
  { destruct Hd1 as [Hd1|]; [|done]. rewrite <-Hd1 in Hd.
    eapply refresh_requires_permission, Hd. }
  subst can. bool_to_prop.
  apply wp_modify, wp_bind. eapply wp_mono; [by apply wp_refresh_oauth|].
  intros [[]|w] s' H'; [by apply Happly| |exact H'].
  destruct (retry_decision_total f (budget s) false (fc_redecide clock) (fc_rewall clock) Hreg)
    as [d' Hd']. rewrite Hd'. apply wp_lift, wp_apply_retry_decision; [done|].
  intros. by eapply retry_decision_repeatable.
Qed.

(** The engine leaves the loop, with a response or without. *)
Definition run_post p t (r : result Response Stop) (s : RetryExecution) : Prop :=
  exit_inv p t s /\ report_ok r s.

Lemma wp_run_loop p t script s : head_inv p t s -> wp (run_loop script) (run_post p t) s.
Proof.
  revert s. induction script as [|it rest IH]; intros s H; cbn [run_loop].
  { by apply head_waits. }
  apply wp_bind. eapply wp_mono; [by apply wp_select_attempt|].
  intros [sel|w] s1 H1; [|exact H1].
  apply wp_bind. eapply wp_mono; [by apply wp_execute_attempt|].
  intros [[n [response|f]|]|w] s2 H2; [| |by apply IH|exact H2].
  { destruct H2 as [He Hn]. split; [exact He|]. left. by split. }
  apply wp_bind. eapply wp_mono; [by apply wp_handle_failure|].
  intros [[]|w] s3 H3; [by apply IH|exact H3].
Qed.

Lemma wp_run p t latest script s : head_inv p t s -> wp (run latest script) (run_post p t) s.
Proof.
  intros H. unfold run. apply wp_gets. destruct (live_refresh _ _); [|by apply wp_run_loop].
  apply wp_bind, wp_rebase; [|intros pl; by apply wp_run_loop].
  intros e. eapply wp_mono; [by apply wp_head_local|]. by intros [] ? ?.
Qed.

Lemma execution_new_head p o profile now b snapshot pl :
  budget_new p o profile now = Ret b ->
  head_inv p (now + retry_budget o profile (precommit_total_budget p))
    (execution_new snapshot pl b).
Proof.
  intros Hb. split_and!; [|by constructor|done].
  split; try done; [by apply budget_new_logs|apply within_limits_nil|by constructor].
Qed.

(** What every run of the engine satisfies; the properties below are its
    parts. *)
Lemma run_sound p o profile now b snapshot pl latest script :
  budget_new p o profile now = Ret b ->
  exists r s, run latest script (execution_new snapshot pl b) = Ret (r, s) /\
    run_post p (now + retry_budget o profile (precommit_total_budget p)) r s.
Proof.
  intros Hb. pose proof (wp_run _ _ latest script _ (execution_new_head _ _ _ _ _ snapshot pl Hb))
    as H.
  unfold wp in H. destruct (run latest script _) as [[r s]|]; [by exists r, s|done].
Qed.

(** The attempt with the last failure *)
Lemma last_failure_Some l f :
  last_failure l = Some f <->
  exists before x, l = before ++ [x] /\ attempt_result x.1.1 x.2 = Some (Err f).
Proof.
  unfold last_failure. split.
  - intros H. destruct (last l) as [x|] eqn:E; [|done]. apply last_Some in E as [before ->].
    exists before, x. split; [done|]. cbn in H. unfold send_failure in H.
    by destruct (attempt_result x.1.1 x.2) as [[]|]; simplify_eq.
  - intros (before & x & -> & Hx). rewrite last_snoc. cbn. unfold send_failure. by rewrite Hx.
Qed.

Lemma reported_failure p t e s :
  exit_inv p t s -> report_ok (@Err Response _ (Failed e)) s ->
  (forall response class, e = FinalUpstream response class ->
     exists before x after f, sends (trace s) = before ++ x :: after /\
       attempt_result x.1.1 x.2 = Some (Err f) /\ final_failure f = e /\
       (after = [] \/ exists y, after = [y] /\ attempt_result y.1.1 y.2 = None)) /\
  (forall before x y, sends (trace s) = before ++ [x; y] -> attempt_result y.1.1 y.2 = None ->
     exists f, attempt_result x.1.1 x.2 = Some (Err f) /\ e = final_failure f) /\
  (forall y, sends (trace s) = [y] -> attempt_result y.1.1 y.2 = None ->
     e = FinalLocal budget_exhausted).
Proof.
  intros (_ & before & tl & Hl & Htl & Hsafe) [[Hn Hr]|(l & y & Hs & Hy & He)].
  - assert (forall k z, sends (trace s) = k ++ [z] -> attempt_result z.1.1 z.2 = None -> False)
      as Hno.
    { intros k z Hk Hz. rewrite Hk in Hn. apply Forall_app in Hn as [_ Hz']. by inversion Hz'. }
    split_and!.
    + intros response class ->. specialize (Hr _ _ eq_refl).
      destruct (last_failure _) as [f|] eqn:Hf; [|done].
      apply last_failure_Some in Hf as (k & x & Hk & Hx). exists k, x, [], f. cbn in Hr.
      split_and!; [exact Hk|exact Hx|congruence|by left].
    + intros k x y Hk Hy. edestruct (Hno (k ++ [x]) y); [|done]. by rewrite <-app_assoc.
    + intros y Hk Hy. by edestruct (Hno [] y).
  - assert (e = default (FinalLocal budget_exhausted) (final_failure <$> last_failure l)) as ->
      by (cbn in He; congruence).
    split_and!.
    + intros response class Hf. destruct (last_failure l) as [f|] eqn:E; [|done].
      apply last_failure_Some in E as (k & x & -> & Hx). exists k, x, [y], f.
      split_and!; [by rewrite Hs, <-app_assoc|done|done|right; by exists y].
    + intros k x z Hk Hz. rewrite Hs in Hk. change (k ++ [x; z]) with (k ++ [x] ++ [z]) in Hk.
      rewrite app_assoc in Hk. apply app_inj_tail in Hk as [-> ->].
      assert (repeated_safely x) as Hx.
      { rewrite Hs in Hl. destruct tl as [|w [|]]; [| |simpl in Htl; lia].
        - rewrite app_nil_r in Hl. rewrite <-Hl, !Forall_app in Hsafe.
          destruct Hsafe as [[_ Hsafe] _]. by inversion Hsafe.
        - apply app_inj_tail in Hl as [<- _]. apply Forall_app in Hsafe as [_ Hsafe].
          by inversion Hsafe. }
      unfold repeated_safely, send_failure in Hx.
      destruct (attempt_result x.1.1 x.2) as [[|f]|] eqn:Ef; try done. exists f. split; [done|].
      assert (last_failure (k ++ [x]) = Some f) as -> by (apply last_failure_Some; eauto). done.
    + intros z Hk Hz. rewrite Hs in Hk. apply (app_inj_tail l []) in Hk as [-> _]. done.
Qed.

(** C1. A public request never panics its retry engine and stays within its
    retry budget, whatever the selection, the snapshots, the clocks, the
    upstreams and the OAuth refreshes answer: at most the policy's number of
    attempts reach an upstream, at most the policy's number of times the
    credential changes between them, each credential is used at most one time
    more than its retries, the attempts are numbered 1, 2, ... in order, and at
    most one OAuth refresh is made. *)
Theorem retry_run_within_budget p o profile now b snapshot pl latest script :
  budget_new p o profile now = Ret b ->
  exists r s, run latest script (execution_new snapshot pl b) = Ret (r, s) /\
    within_limits p (sent (trace s)) /\
    begins (trace s) = seqZ 1 (Zlen (sends (trace s))) /\
    (length (refreshes (trace s)) <= 1)%nat.
Proof.
  intros Hb. destruct (run_sound _ _ _ _ _ snapshot pl latest script Hb)
    as (r & s & Hrun & ([_ H1 H2 _ _ H3] & _) & _).
  exists r, s. split_and!; [done..|]. destruct (oauth_refresh_attempted s); lia.
Qed.

(** C2. An upstream request is only ever repeated when that is safe: every
    attempt that is followed by another one failed with an error whose retry
    safety allows an automatic retry, that is no InvalidRequest and whose error
    body was read completely; a response, a timeout of the attempt or a local
    error is never followed by another attempt. *)
Theorem retry_run_repeats_only_safe p o profile now b snapshot pl latest script r s before x after :
  budget_new p o profile now = Ret b ->
  run latest script (execution_new snapshot pl b) = Ret (r, s) ->
  sends (trace s) = before ++ x :: after -> after <> [] ->
  exists f, attempt_result x.1.1 x.2 = Some (Err f) /\ repeatable f = true.
Proof.
  intros Hb Hrun Hs Ha. destruct (run_sound _ _ _ _ _ snapshot pl latest script Hb)
    as (r' & s' & Hrun' & (_ & l & tl & Hl & Htl & Hsafe) & _).
  assert (s' = s) as -> by congruence. rewrite Hs in Hl.
  assert (x ∈ l) as Hx.
  { destruct (exists_last Ha) as (after' & y & ->).
    destruct tl as [|z [|]]; [|..|simpl in Htl; lia].
    - rewrite app_nil_r in Hl. rewrite <-Hl. apply elem_of_app. right. left.
    - rewrite app_comm_cons, app_assoc in Hl. apply app_inj_tail in Hl as [<- _].
      apply elem_of_app. right. left. }
  rewrite Forall_forall in Hsafe. specialize (Hsafe x Hx). unfold repeated_safely, send_failure in Hsafe.
  destruct (attempt_result x.1.1 x.2) as [[|f]|]; try done. by exists f.
Qed.

(** C3. Headers of the client that belong to a credential are forwarded only to
    the credential of the first attempt: an attempt is allowed to carry them
    exactly when it uses that credential. *)
Theorem retry_run_headers_stay p o profile now b snapshot pl latest script r s first rest x :
  budget_new p o profile now = Ret b ->
  run latest script (execution_new snapshot pl b) = Ret (r, s) ->
  sends (trace s) = first :: rest -> x ∈ sends (trace s) ->
  x.1.2 = bool_decide (credential_id (send_candidate first) = credential_id (send_candidate x)).
Proof.
  intros Hb Hrun Hs Hx. destruct (run_sound _ _ _ _ _ snapshot pl latest script Hb)
    as (r' & s' & Hrun' & ([_ _ _ _ H _] & _) & _).
  assert (s' = s) as -> by congruence. unfold headers_ok in H. rewrite Forall_forall in H.
  rewrite (H x Hx), Hs. cbn. apply bool_decide_ext. split; congruence.
Qed.

(** C4. The error a client receives when a run fails. An upstream error is the
    answer of the last attempt or, where the last attempt ran into the deadline
    of the budget and so has no answer, of the attempt before it. An attempt
    that runs into the deadline ends the run with the error of the attempt
    before it, which wins over the local timeout; the first attempt has none
    before it and ends the run with the local error of an exhausted budget. *)
Theorem retry_run_reports_last_failure p o profile now b snapshot pl latest script e s :
  budget_new p o profile now = Ret b ->
  run latest script (execution_new snapshot pl b) = Ret (Err (Failed e), s) ->
  (forall response class, e = FinalUpstream response class ->
     exists before x after f, sends (trace s) = before ++ x :: after /\
       attempt_result x.1.1 x.2 = Some (Err f) /\ final_failure f = e /\
       (after = [] \/ exists y, after = [y] /\ attempt_result y.1.1 y.2 = None)) /\
  (forall before x y, sends (trace s) = before ++ [x; y] -> attempt_result y.1.1 y.2 = None ->
     exists f, attempt_result x.1.1 x.2 = Some (Err f) /\ e = final_failure f) /\
  (forall y, sends (trace s) = [y] -> attempt_result y.1.1 y.2 = None ->
     e = FinalLocal budget_exhausted).
Proof.
  intros Hb Hrun. destruct (run_sound _ _ _ _ _ snapshot pl latest script Hb)
    as (r' & s' & Hrun' & He & H). rewrite Hrun in Hrun'. simplify_eq.
  by eapply reported_failure.
Qed.

End Engine.

(** * An example run *)

Definition ex_candidate (credential : Z) : RouteCandidate := {|
  target_id := 1; operation := Responses; endpoint_id := 1; endpoint_config_version := 1;
  credential_id := inl credential; routing_generation := 1; upstream_model := "m";
  proxy_id := 0; proxy_config_version := 1; authentication_version := 1 |}.

Definition ex_budget : RetryBudget := {|
  rb_policy := policy_from_settings 60; rb_deadline := secs 60; attempts := 0; switches := 0;
  last_credential := None; attempts_by_credential := ∅; attempts_by_candidate := ∅ |}.

Lemma ex_budget_new : budget_new (policy_from_settings 60) Responses Standard 0 = Ret ex_budget.
Proof. vm_compute. reflexivity. Qed.

Definition ex_wall : WallClock := {| jitter_reading := 0; hint_reading := 0 |}.
Definition ex_clock (now : Instant) : FailureClock := {|
  fc_check := now; fc_decide := now; fc_wall := ex_wall; fc_wait := now; fc_redecide := now;
  fc_rewall := ex_wall; fc_apply := now |}.

(** An iteration in which [credential] is selected and answers [answer]. *)
Definition ex_iteration (now : Instant) (credential : Z) (answer : AttemptAnswer Z)
    : @Iteration Z Z unit := {|
  it_rounds := [{| round_now := now; round_wait := tt;
                   round_wake := WakeSelected (Ok {| sel_candidate := ex_candidate credential;
                                                     sel_bound := false |}) |}];
  it_latest := 0; it_starts := true; it_register := now; it_answer := answer;
  it_clock := ex_clock now; it_refresh := None |}.

Definition ex_response : EgressResponse := {| er_status := 429; er_headers := []; er_body := [] |}.
Definition ex_rate_limited : AttemptAnswer Z :=
  AnsUpstream (HttpStatus true) ex_response
    (classification_new RateLimited RejectedBeforeExecution None).
Definition ex_failed : AttemptAnswer Z :=
  AnsUpstream (HttpStatus true) ex_response (classification_new Transient Ambiguous None).

Definition ex_run (script : list (@Iteration Z Z unit)) :=
  run (fun z => z) (fun _ => Ok tt) (fun _ pl => Ok pl) tt true (fun _ _ => None) 0 script
    (execution_new tt 0 tt ex_budget).

(** One failure that is repeated on another credential, which answers. *)
Definition ex_script : list (@Iteration Z Z unit) :=
  [ex_iteration (secs 1) 1 ex_rate_limited; ex_iteration (secs 2) 2 (AnsResponse 200)].
(** The same, but the second attempt fails ambiguously. *)
Definition ex_failing_script : list (@Iteration Z Z unit) :=
  [ex_iteration (secs 1) 1 ex_rate_limited; ex_iteration (secs 2) 2 ex_failed].
(** The same, but the second attempt runs into the deadline. *)
Definition ex_late_script : list (@Iteration Z Z unit) :=
  [ex_iteration (secs 1) 1 ex_rate_limited; ex_iteration (secs 2) 2 AnsTimedOut].

Definition ex_selection (credential : Z) : Selection :=
  {| sel_candidate := ex_candidate credential; sel_bound := false |}.

Lemma ex_script_runs :
  exists s, ex_run ex_script = Ret (Ok 200, s) /\
    sends (trace s) = [(ex_selection 1, true, ex_rate_limited);
                       (ex_selection 2, false, AnsResponse 200)].
Proof. eexists. split; vm_compute; reflexivity. Qed.

Lemma ex_failing_script_runs :
  exists s, ex_run ex_failing_script = Ret (Err (Failed (FinalUpstream ex_response ClassUpstream)), s).
Proof. eexists. vm_compute. reflexivity. Qed.

Lemma ex_late_script_runs :
  exists e s, ex_run ex_late_script = Ret (Err (Failed e), s) /\
    sends (trace s) = [] ++ [(ex_selection 1, true, ex_rate_limited);
                             (ex_selection 2, false, AnsTimedOut)].
Proof. do 2 eexists. split; vm_compute; reflexivity. Qed.

Lemma retry_run_within_budget_witness :
  exists r s, ex_run ex_script = Ret (r, s) /\
    within_limits (policy_from_settings 60) (sent (trace s)) /\
    begins (trace s) = seqZ 1 (Zlen (sends (trace s))) /\
    (length (refreshes (trace s)) <= 1)%nat.
Proof.
  exact (retry_run_within_budget (fun z => z) (fun _ => Ok tt) (fun _ pl => Ok pl) tt true
    (fun _ _ => None) _ _ _ _ _ 0 tt 0 ex_script ex_budget_new).
Defined.

Lemma retry_run_repeats_only_safe_witness :
  exists s f, ex_run ex_script = Ret (Ok 200, s) /\
    attempt_result (ex_selection 1) ex_rate_limited = Some (Err f) /\ repeatable f = true.
Proof.
  destruct ex_script_runs as (s & Hrun & Hs).
  destruct (retry_run_repeats_only_safe (fun z => z) (fun _ => Ok tt) (fun _ pl => Ok pl) tt true
    (fun _ _ => None) _ _ _ _ _ 0 tt 0 ex_script _ s [] (ex_selection 1, true, ex_rate_limited)
    [(ex_selection 2, false, AnsResponse 200)] ex_budget_new Hrun Hs ltac:(discriminate))
    as (f & Hf & Hr).
  exists s, f. split; [exact Hrun|]. split; [exact Hf|exact Hr].
Defined.

Lemma retry_run_headers_stay_witness :
  exists s, ex_run ex_script = Ret (Ok 200, s) /\ false =
    bool_decide (credential_id (ex_candidate 1) = credential_id (ex_candidate 2)).
Proof.
  destruct ex_script_runs as (s & Hrun & Hs). exists s. split; [exact Hrun|].
  apply (retry_run_headers_stay (fun z => z) (fun _ => Ok tt) (fun _ pl => Ok pl) tt true
    (fun _ _ => None) _ _ _ _ _ 0 tt 0 ex_script _ s (ex_selection 1, true, ex_rate_limited)
    [(ex_selection 2, false, AnsResponse 200)] (ex_selection 2, false, AnsResponse 200)
    ex_budget_new Hrun Hs).
  rewrite Hs. right. left.
Defined.

Lemma retry_run_reports_last_failure_witness :
  (exists s before x after, ex_run ex_failing_script =
     Ret (Err (Failed (FinalUpstream ex_response ClassUpstream)), s) /\
     sends (trace s) = before ++ x :: after) /\
  (exists e s f, ex_run ex_late_script = Ret (Err (Failed e), s) /\
     attempt_result (ex_selection 1) ex_rate_limited = Some (Err f) /\ e = final_failure f).
Proof.
  split.
  - destruct ex_failing_script_runs as (s & Hrun).
    destruct (retry_run_reports_last_failure (fun z => z) (fun _ => Ok tt) (fun _ pl => Ok pl) tt
      true (fun _ _ => None) _ _ _ _ _ 0 tt 0 ex_failing_script _ s ex_budget_new Hrun)
      as [H _].
    destruct (H _ _ eq_refl) as (before & x & after & f & Hs & _).
    exists s, before, x, after. split; [exact Hrun|exact Hs].
  - destruct ex_late_script_runs as (e & s & Hrun & Hs).
    destruct (retry_run_reports_last_failure (fun z => z) (fun _ => Ok tt) (fun _ pl => Ok pl) tt
      true (fun _ _ => None) _ _ _ _ _ 0 tt 0 ex_late_script _ s ex_budget_new Hrun)
      as (_ & H & _).
    destruct (H _ _ _ Hs eq_refl) as (f & Hf & He).
    exists e, s, f. split; [exact Hrun|]. split; [exact Hf|exact He].
Defined.
