(* ===== verification/AffinityStore.v ===== *)
(** The sharded table of session and continuation bindings
    ([crates/runtime/src/affinity/shard.rs]) and the entries it holds
    ([registry.rs], [target.rs]).

    A key is the 256-bit digest of [SessionHash], as an integer whose leading
    byte picks the shard; the digest itself (HMAC-SHA256) is not computed here.
    The counters are atomics that wrap at 64 bits.  Every operation below runs
    under the lock of one shard and is one step; the theorems on runs interleave
    such steps.  The order in which a [HashMap] is iterated is the argument
    [order]. *)

From S2P Require Import Prelude Protocol Candidates.

Local Open Scope Z_scope.

(** * Entries *)

Record AffinityTarget := {
  at_route_id : Z;
  at_target_id : Z;
  at_credential_id : Z + Z;
  at_upstream_model : string;
  ingress_protocol_dialect : ProtocolDialect;
  upstream_protocol_dialect : ProtocolDialect
}.

#[export] Instance affinity_target_eq_dec : EqDecision AffinityTarget.
Proof. solve_decision. Defined.

(** [ProtocolContinuationState]: the bridge that resumes it, and its size *)
Record ProtocolContinuationState := {
  bridge : Z;
  serialized_bytes : Z
}.

Inductive BindingCreationPhase := Selecting | Attempting.

Inductive ContinuationLifecycle :=
| Pending (version : Z)
| Ready (state : option ProtocolContinuationState).

Inductive BindingSource :=
| Session
| Continuation (lifecycle : ContinuationLifecycle).

Record TimedBinding := {
  tb_target : AffinityTarget;
  last_seen_at : Instant;
  source : BindingSource
}.

Inductive BindingState :=
| Creating (version : Z) (phase : BindingCreationPhase)
| Bound (binding : TimedBinding).

(** [TimedBinding::is_pending_continuation] *)
Definition is_pending_continuation (b : TimedBinding) : bool :=
  match source b with Continuation (Pending _) => true | _ => false end.

(** [is_expired] *)
Definition is_expired (now : Instant) (ttl : Duration) (entry : BindingState) : bool :=
  match entry with
  | Bound b =>
      negb (is_pending_continuation b) &&
      (ttl <=? saturating_duration_since now (last_seen_at b))
  | Creating _ _ => false
  end.

Definition MAX_BRIDGE_CONTINUATION_STATE_BYTES : Z := 16 * 1024 * 1024.

(** [continuation_footprint] *)
Definition continuation_footprint (entry : BindingState) : Z :=
  match entry with
  | Creating _ _ => 0
  | Bound b =>
      match source b with
      | Session => 0
      | Continuation (Pending _) => MAX_BRIDGE_CONTINUATION_STATE_BYTES
      | Continuation (Ready state) =>
          match state with Some s => serialized_bytes s | None => 0 end
      end
  end.

(** * The table *)

Definition SHARD_COUNT : Z := 16.
Definition RECLAIM_SAMPLE : nat := 8.
Definition FUTILE_RECLAIM_THROTTLE_MILLIS : Z := 1000.

Abbreviation SessionHash := Z (only parsing).

(** [SessionHash::shard_index]: the first of 32 bytes, big-endian *)
Definition shard_index (key : SessionHash) : nat :=
  Z.to_nat (Z.shiftr key 248 mod 256 mod SHARD_COUNT).

Abbreviation Shard := (gmap Z BindingState) (only parsing).

Record ShardedBindings := {
  shards : list Shard;
  max_entries : Z;
  max_continuation_bytes : Z;
  entry_count : Z;
  continuation_bytes : Z;
  next_version : Z;
  created_at : Instant;
  last_futile_reclaim : Z
}.

(** [ShardedBindings::new] *)
Definition sharded_new (max_entries max_continuation_bytes : Z) (now : Instant)
    : ShardedBindings := {|
  shards := replicate (Z.to_nat SHARD_COUNT) ∅; max_entries := max_entries;
  max_continuation_bytes := max_continuation_bytes; entry_count := 0; continuation_bytes := 0;
  next_version := 0; created_at := now; last_futile_reclaim := 0 |}.

Definition wrapping_sub_u64 (a b : Z) : Z := (a - b) mod 2 ^ 64.

(** The entries of shard [i]; the array has all its shards. *)
Definition shard_at (b : ShardedBindings) (i : nat) : Shard := default ∅ (shards b !! i).

(** [ShardGuard::get] of the shard [lock] picks *)
Definition get (b : ShardedBindings) (key : SessionHash) : option BindingState :=
  shard_at b (shard_index key) !! key.

(** The table with shard [i] and both counters replaced *)
Definition with_shard (i : nat) (m : Shard) (entries bytes : Z) (b : ShardedBindings)
    : ShardedBindings := {|
  shards := <[i := m]> (shards b); max_entries := max_entries b;
  max_continuation_bytes := max_continuation_bytes b; entry_count := entries;
  continuation_bytes := bytes; next_version := next_version b; created_at := created_at b;
  last_futile_reclaim := last_futile_reclaim b |}.

(** Writing an entry through [ShardGuard::get_mut] *)
Definition set_entry (key : SessionHash) (state : BindingState) (b : ShardedBindings)
    : ShardedBindings :=
  with_shard (shard_index key) (<[key := state]> (shard_at b (shard_index key)))
    (entry_count b) (continuation_bytes b) b.

(** [ShardedBindings::next_version] *)
Definition take_version (b : ShardedBindings) : Z * ShardedBindings :=
  let next := wrapping_add_u64 (next_version b) 1 in
  (Z.max next 1, {|
    shards := shards b; max_entries := max_entries b;
    max_continuation_bytes := max_continuation_bytes b; entry_count := entry_count b;
    continuation_bytes := continuation_bytes b; next_version := next;
    created_at := created_at b; last_futile_reclaim := last_futile_reclaim b |}).

(** [try_reserve_entry] and [try_reserve_continuation_bytes]: the new value of
    the counter *)
Definition try_reserve_entry (b : ShardedBindings) : option Z :=
  if entry_count b <? max_entries b then Some (entry_count b + 1) else None.
Definition try_reserve_continuation_bytes (bytes : Z) (b : ShardedBindings) : option Z :=
  if bytes =? 0 then Some (continuation_bytes b)
  else if saturating_add usize_max (continuation_bytes b) bytes <=? max_continuation_bytes b
       then Some (continuation_bytes b + bytes) else None.

Inductive InsertRejection := RejectEntries | RejectContinuationBytes.

(** [ShardGuard::try_insert]; the entry reserved first is given back when the
    bytes are refused. *)
Definition try_insert (key : SessionHash) (state : BindingState) (b : ShardedBindings)
    : result unit InsertRejection * ShardedBindings :=
  match try_reserve_entry b with
  | None => (Err RejectEntries, b)
  | Some entries =>
      match try_reserve_continuation_bytes (continuation_footprint state) b with
      | None => (Err RejectContinuationBytes,
                 with_shard (shard_index key) (shard_at b (shard_index key))
                   (wrapping_sub_u64 entries 1) (continuation_bytes b) b)
      | Some bytes =>
          (Ok tt, with_shard (shard_index key)
                    (<[key := state]> (shard_at b (shard_index key))) entries bytes b)
      end
  end.

(** [ShardGuard::replace] *)
Definition replace (key : SessionHash) (state : BindingState) (b : ShardedBindings)
    : outcome ShardedBindings :=
  let bytes := continuation_footprint state in
  expect (get b key) ≫= fun replaced =>
  let replaced_bytes := continuation_footprint replaced in
  Ret (with_shard (shard_index key) (<[key := state]> (shard_at b (shard_index key)))
         (entry_count b)
         (if bytes <? replaced_bytes
          then wrapping_sub_u64 (continuation_bytes b) (replaced_bytes - bytes)
          else if replaced_bytes <? bytes
               then wrapping_add_u64 (continuation_bytes b) (bytes - replaced_bytes)
               else continuation_bytes b) b).

(** [ShardGuard::remove] *)
Definition remove (key : SessionHash) (b : ShardedBindings)
    : option BindingState * ShardedBindings :=
  match get b key with
  | None => (None, b)
  | Some removed =>
      let bytes := continuation_footprint removed in
      (Some removed,
       with_shard (shard_index key) (delete key (shard_at b (shard_index key)))
         (wrapping_sub_u64 (entry_count b) 1)
         (if 0 <? bytes then wrapping_sub_u64 (continuation_bytes b) bytes
          else continuation_bytes b) b)
  end.

(** [for key in keys { self.remove(key); }] *)
Definition remove_keys (keys : list SessionHash) (b : ShardedBindings) : ShardedBindings :=
  foldl (fun b key => (remove key b).2) b keys.

(** [ShardGuard::remove_if_expired] *)
Definition remove_if_expired (key : SessionHash) (now : Instant) (ttl : Duration)
    (b : ShardedBindings) : bool * ShardedBindings :=
  let expired := match get b key with
                 | Some entry => is_expired now ttl entry
                 | None => false
                 end in
  (expired, if expired then (remove key b).2 else b).

(** [ShardGuard::clear] *)
Definition clear (i : nat) (b : ShardedBindings) : Z * ShardedBindings :=
  let m := shard_at b i in
  let cleared := Z.of_nat (size m) in
  let bytes := map_fold (fun _ entry sum => continuation_footprint entry + sum) 0 m in
  (cleared,
   with_shard i ∅ (wrapping_sub_u64 (entry_count b) cleared)
     (if 0 <? bytes then wrapping_sub_u64 (continuation_bytes b) bytes
      else continuation_bytes b) b).

Section Iteration.

(** The order in which a map is iterated. *)
Context (order : Shard -> list SessionHash).

(** The keys of a shard whose entries satisfy [p], in that order *)
Definition select_keys (p : BindingState -> bool) (m : Shard) (keys : list SessionHash)
    : list SessionHash :=
  filter (fun key => match m !! key with Some entry => p entry | None => false end = true) keys.

(** [ShardGuard::remove_expired] of shard [i] *)
Definition remove_expired (i : nat) (now : Instant) (ttl : Duration) (b : ShardedBindings)
    : Z * ShardedBindings :=
  let expired := select_keys (is_expired now ttl) (shard_at b i) (order (shard_at b i)) in
  (Zlen expired, remove_keys expired b).

(** [ShardGuard::reclaim_expired_sample] of shard [i] *)
Definition reclaim_expired_sample (i : nat) (now : Instant) (ttl : Duration)
    (b : ShardedBindings) : ShardedBindings :=
  remove_keys (select_keys (is_expired now ttl) (shard_at b i)
                 (take RECLAIM_SAMPLE (order (shard_at b i)))) b.

(** [ShardedBindings::for_each_shard] with a counting visit *)
Definition for_each_shard (visit : nat -> ShardedBindings -> Z * ShardedBindings)
    (b : ShardedBindings) : Z * ShardedBindings :=
  foldl (fun '(n, b) i => let '(k, b') := visit i b in (n + k, b')) (0, b)
    (seq 0 (Z.to_nat SHARD_COUNT)).

(** [ShardedBindings::remove_expired_all] *)
Definition remove_expired_all (now : Instant) (ttl : Duration) (b : ShardedBindings)
    : Z * ShardedBindings :=
  for_each_shard (fun i => remove_expired i now ttl) b.

(** [ShardedBindings::elapsed_millis] *)
Definition elapsed_millis (now : Instant) (b : ShardedBindings) : Z :=
  Z.min u64_max (saturating_duration_since now (created_at b) / 1000000).

(** [ShardedBindings::reclaim_for_capacity] *)
Definition reclaim_for_capacity (now : Instant) (ttl : Duration) (b : ShardedBindings)
    : bool * ShardedBindings :=
  let elapsed := elapsed_millis now b in
  let last_futile := last_futile_reclaim b in
  if negb (last_futile =? 0) &&
     (saturating_sub elapsed (last_futile - 1) <? FUTILE_RECLAIM_THROTTLE_MILLIS)
  then (false, b)
  else
    let '(removed, b') := remove_expired_all now ttl b in
    let marker := if removed =? 0 then saturating_add u64_max elapsed 1 else 0 in
    (0 <? removed, {|
      shards := shards b'; max_entries := max_entries b';
      max_continuation_bytes := max_continuation_bytes b'; entry_count := entry_count b';
      continuation_bytes := continuation_bytes b'; next_version := next_version b';
      created_at := created_at b'; last_futile_reclaim := marker |}).

End Iteration.

(** * Accounting *)

(** The sum of a weight over a map. *)
Definition msum (w : BindingState -> Z) (m : Shard) : Z :=
  map_fold (fun _ entry sum => w entry + sum) 0 m.

Lemma msum_empty w : msum w ∅ = 0.
Proof. apply map_fold_empty. Qed.

Lemma msum_insert w key x m : m !! key = None -> msum w (<[key := x]> m) = w x + msum w m.
Proof. intros. unfold msum. apply (map_fold_insert_L (fun _ e s => w e + s)); [lia|done]. Qed.

Lemma msum_delete w key x m : m !! key = Some x -> msum w m = w x + msum w (delete key m).
Proof.
  intros H. rewrite <-(insert_delete_id m key x H) at 1. apply msum_insert, lookup_delete_eq.
Qed.

Lemma msum_replace w key x y m :
  m !! key = Some x -> msum w (<[key := y]> m) = msum w m - w x + w y.
Proof.
  intros H. rewrite (msum_delete w key x m H), <-insert_delete_eq, msum_insert
    by apply lookup_delete_eq. lia.
Qed.

Lemma msum_size m : msum (fun _ => 1) m = Z.of_nat (size m).
Proof.
  induction m as [|key x m Hk IH] using map_ind; [done|].
  rewrite msum_insert, map_size_insert_None by done. cbn beta. rewrite IH. lia.
Qed.

Lemma msum_nonneg w m : (forall key x, m !! key = Some x -> 0 <= w x) -> 0 <= msum w m.
Proof.
  induction m as [|key x m Hk IH] using map_ind; intros H; [by rewrite msum_empty|].
  rewrite msum_insert by done. pose proof (H key x ltac:(by rewrite lookup_insert_eq)).
  enough (0 <= msum w m) by lia. apply IH. intros k y Hy. apply (H k).
  rewrite lookup_insert_ne; [done|]. by intros ->; simplify_eq.
Qed.

(** The sum of a weight over all shards. *)
Definition total (w : BindingState -> Z) (l : list Shard) : Z :=
  foldr (fun m sum => msum w m + sum) 0 l.

Lemma total_insert w l i m m' :
  l !! i = Some m -> total w (<[i := m']> l) = total w l - msum w m + msum w m'.
Proof.
  revert i. induction l as [|x l IH]; intros [|i] H; simplify_eq/=; [lia|].
  rewrite (IH i H). lia.
Qed.

Lemma total_nonneg w l : (forall m, m ∈ l -> 0 <= msum w m) -> 0 <= total w l.
Proof.
  induction l as [|m l IH]; simpl; intros H; [lia|].
  pose proof (H m ltac:(left)). enough (0 <= total w l) by lia. apply IH. intros m' Hm'.
  apply H. by right.
Qed.

Lemma total_ge w l i m :
  (forall m, m ∈ l -> 0 <= msum w m) -> l !! i = Some m -> msum w m <= total w l.
Proof.
  revert i. induction l as [|x l IH]; intros [|i] H Hm; simplify_eq/=.
  - enough (0 <= total w l) by lia. apply total_nonneg. intros m' Hm'. apply H. by right.
  - pose proof (H x ltac:(left)). enough (msum w m <= total w l) by lia.
    apply (IH i); [|done]. intros m' Hm'. apply H. by right.
Qed.

(** The footprint of an entry is within its limit. *)
Definition entries_ok (entry : BindingState) : Prop :=
  0 <= continuation_footprint entry <= MAX_BRIDGE_CONTINUATION_STATE_BYTES.

(** The table is well formed: the shards are all there, an entry is in the
    shard of its key, no continuation is larger than one may be, and the two
    counters are exact and within the limits. *)
Record store_wf (b : ShardedBindings) : Prop := {
  sb_shards : length (shards b) = Z.to_nat SHARD_COUNT;
  sb_home : forall i key, is_Some (shard_at b i !! key) -> i = shard_index key;
  sb_entries : forall key entry, get b key = Some entry -> entries_ok entry;
  sb_count : entry_count b = total (fun _ => 1) (shards b);
  sb_bytes : continuation_bytes b = total continuation_footprint (shards b);
  sb_max_count : 0 <= entry_count b <= max_entries b;
  sb_max_bytes : 0 <= continuation_bytes b <= max_continuation_bytes b;
  sb_limits : max_entries b <= usize_max /\ max_continuation_bytes b < usize_max
}.

Lemma shard_index_bound key : (shard_index key < Z.to_nat SHARD_COUNT)%nat.
Proof.
  unfold shard_index. apply Z2Nat.inj_lt; try done; [|].
  - apply Z.mod_pos_bound. done.
  - apply Z.mod_pos_bound. done.
Qed.

Lemma shard_at_lookup b i :
  store_wf b -> (i < Z.to_nat SHARD_COUNT)%nat -> shards b !! i = Some (shard_at b i).
Proof.
  intros Hb Hi. unfold shard_at.
  destruct (shards b !! i) eqn:E; [done|]. apply lookup_ge_None in E.
  rewrite (sb_shards _ Hb) in E. lia.
Qed.

Lemma shard_at_with_shard b i j m entries bytes :
  store_wf b -> (i < Z.to_nat SHARD_COUNT)%nat ->
  shard_at (with_shard i m entries bytes b) j = if decide (j = i) then m else shard_at b j.
Proof.
  intros Hb Hi. unfold shard_at. cbn [with_shard shards]. case_decide; subst.
  - rewrite list_lookup_insert_eq; [done|]. by rewrite (sb_shards _ Hb).
  - by rewrite list_lookup_insert_ne.
Qed.

Lemma get_with_shard b i m entries bytes key :
  store_wf b -> (i < Z.to_nat SHARD_COUNT)%nat ->
  get (with_shard i m entries bytes b) key =
  if decide (shard_index key = i) then m !! key else get b key.
Proof. intros. unfold get. rewrite shard_at_with_shard by done. by case_decide. Qed.

(** Every entry of a shard is the entry of its key. *)
Lemma shard_at_get b i key x :
  store_wf b -> shard_at b i !! key = Some x -> get b key = Some x.
Proof.
  intros Hb H. unfold get. by rewrite <-(sb_home _ Hb i key) by (by eexists).
Qed.

Lemma footprints_nonneg b m :
  store_wf b -> m ∈ shards b -> 0 <= msum continuation_footprint m.
Proof.
  intros Hb Hm. apply list_elem_of_lookup in Hm as [i Hi].
  assert (shard_at b i = m) as <-. { unfold shard_at. by rewrite Hi. }
  apply msum_nonneg. intros key x Hx. apply (sb_entries _ Hb key), (shard_at_get b i); done.
Qed.

Lemma counts_nonneg m : 0 <= msum (fun _ => 1) m.
Proof. apply msum_nonneg. lia. Qed.

(** What replacing one shard needs to keep the table well formed. *)
Lemma with_shard_wf b i m entries bytes :
  store_wf b -> (i < Z.to_nat SHARD_COUNT)%nat ->
  (forall key x, m !! key = Some x -> i = shard_index key /\ entries_ok x) ->
  entries = entry_count b - msum (fun _ => 1) (shard_at b i) + msum (fun _ => 1) m ->
  bytes = continuation_bytes b - msum continuation_footprint (shard_at b i)
          + msum continuation_footprint m ->
  entries <= max_entries b -> bytes <= max_continuation_bytes b ->
  store_wf (with_shard i m entries bytes b).
Proof.
  intros Hb Hi Hm He Hy Hme Hmy. pose proof (shard_at_lookup b i Hb Hi) as Hl.
  assert (forall j key x, shard_at (with_shard i m entries bytes b) j !! key = Some x ->
    j = shard_index key /\ entries_ok x) as Hx.
  { intros j key x. rewrite shard_at_with_shard by done. case_decide; subst; [by apply Hm|].
    intros Hkx. split; [by apply (sb_home _ Hb); eexists|].
    by eapply (sb_entries _ Hb), shard_at_get. }
  pose proof (total_insert (fun _ => 1) _ i _ m Hl) as T1.
  pose proof (total_insert continuation_footprint _ i _ m Hl) as T2.
  pose proof (counts_nonneg m).
  assert (0 <= msum continuation_footprint m)
    by (apply msum_nonneg; intros key x Hkx; by apply (Hm key x Hkx)).
  pose proof (total_ge (fun _ => 1) _ i _ (fun m _ => counts_nonneg m) Hl).
  pose proof (total_ge continuation_footprint _ i _ (fun m Hm => footprints_nonneg b m Hb Hm) Hl).
  destruct Hb as [B1 B2 B3 B4 B5 B6 B7 B8].
  split; cbn [with_shard shards entry_count continuation_bytes max_entries
    max_continuation_bytes]; try done; try lia.
  - by rewrite length_insert.
  - intros j key [x H']. by apply (Hx j key x).
  - intros key x H'. by apply (Hx _ key x H').
Qed.

Lemma sharded_new_wf me mb now :
  0 <= me <= usize_max -> 0 <= mb < usize_max -> store_wf (sharded_new me mb now).
Proof.
  intros H1 H2. assert (forall i, shard_at (sharded_new me mb now) i = ∅) as He.
  { intros i. unfold shard_at, sharded_new. cbn [shards].
    destruct (replicate _ _ !! i) eqn:E; [|done]. by apply lookup_replicate in E as [-> _]. }
  split; try done; try (simpl; lia).
  - intros i key. rewrite He, lookup_empty. by intros [].
  - intros key x. unfold get. by rewrite He, lookup_empty.
Qed.

(** * What the operations do *)

(** [b'] is well formed, holds what [f] says and has the limits and the
    versions of [b]. *)
Record becomes (b : ShardedBindings) (f : SessionHash -> option BindingState)
    (b' : ShardedBindings) : Prop := {
  bc_wf : store_wf b';
  bc_get : forall key, get b' key = f key;
  bc_max : max_entries b' = max_entries b;
  bc_max_bytes : max_continuation_bytes b' = max_continuation_bytes b;
  bc_version : next_version b' = next_version b
}.

Lemma becomes_refl b : store_wf b -> becomes b (get b) b.
Proof. by split. Qed.

Lemma becomes_trans b f b' g b'' :
  becomes b f b' -> becomes b' g b'' -> becomes b g b''.
Proof. intros [] []. split; [done|done|congruence..]. Qed.

Lemma becomes_ext b f g b' : becomes b f b' -> (forall key, f key = g key) -> becomes b g b'.
Proof. intros [H1 H2 H3 H4 H5] H. split; try done. intros key. by rewrite H2, H. Qed.

(** Replacing the shard of [key], whose other entries stay. *)
Lemma with_shard_becomes b key m entries bytes f :
  store_wf b ->
  (forall k x, m !! k = Some x -> shard_index key = shard_index k /\ entries_ok x) ->
  (forall k, shard_index k = shard_index key -> m !! k = f k) ->
  (forall k, shard_index k <> shard_index key -> get b k = f k) ->
  entries = entry_count b - msum (fun _ => 1) (shard_at b (shard_index key))
            + msum (fun _ => 1) m ->
  bytes = continuation_bytes b
          - msum continuation_footprint (shard_at b (shard_index key))
          + msum continuation_footprint m ->
  entries <= max_entries b -> bytes <= max_continuation_bytes b ->
  becomes b f (with_shard (shard_index key) m entries bytes b).
Proof.
  intros Hb Hm Hf Hg He Hy Hme Hmy. pose proof (shard_index_bound key).
  split; try done; [by apply with_shard_wf|].
  intros k. rewrite get_with_shard by done. case_decide; [by apply Hf|by apply Hg].
Qed.

Lemma get_home b k key x :
  store_wf b -> shard_at b (shard_index key) !! k = Some x -> shard_index key = shard_index k.
Proof. intros Hb H. apply (sb_home _ Hb). by eexists. Qed.

Lemma insert_home b key st k x :
  store_wf b -> entries_ok st -> (<[key := st]> (shard_at b (shard_index key))) !! k = Some x ->
  shard_index key = shard_index k /\ entries_ok x.
Proof.
  intros Hb Hst. rewrite lookup_insert. case_decide; [by intros ?; simplify_eq|].
  intros Hx. split; [by eapply get_home|]. by eapply (sb_entries _ Hb), shard_at_get.
Qed.

Definition updated (b : ShardedBindings) (key : SessionHash) (v : option BindingState)
    (k : SessionHash) : option BindingState :=
  if decide (k = key) then v else get b k.

Lemma insert_updated b key st k :
  shard_index k = shard_index key ->
  (<[key := st]> (shard_at b (shard_index key))) !! k = updated b key (Some st) k.
Proof.
  intros Hk. unfold updated, get. rewrite lookup_insert, Hk.
  repeat case_decide; congruence.
Qed.

Lemma updated_other b key v k :
  shard_index k <> shard_index key -> get b k = updated b key v k.
Proof. intros Hk. unfold updated. case_decide; [by subst|done]. Qed.

Lemma wrapping_sub_exact a b : 0 <= a - b < 2 ^ 64 -> wrapping_sub_u64 a b = a - b.
Proof. apply Z.mod_small. Qed.

Lemma try_insert_spec b key st :
  store_wf b -> get b key = None -> entries_ok st ->
  match try_insert key st b with
  | (Ok _, b') => becomes b (updated b key (Some st)) b'
  | (Err RejectEntries, b') => b' = b /\ entry_count b = max_entries b
  | (Err RejectContinuationBytes, b') => becomes b (get b) b' /\
      max_continuation_bytes b < continuation_bytes b + continuation_footprint st
  end.
Proof.
  intros Hb Hk Hst. pose proof Hb as [_ _ _ B4 B5 B6 B7 B8].
  unfold try_insert, try_reserve_entry. destruct (_ <? _) eqn:E; bool_to_prop; [|split; [done|lia]].
  unfold try_reserve_continuation_bytes.
  assert (forall bytes, bytes = continuation_bytes b + continuation_footprint st ->
    bytes <= max_continuation_bytes b ->
    becomes b (updated b key (Some st))
      (with_shard (shard_index key) (<[key := st]> (shard_at b (shard_index key)))
         (entry_count b + 1) bytes b)) as Hins.
  { intros bytes Hy Hle. apply with_shard_becomes; try done; try lia.
    - intros k x. by apply insert_home.
    - intros k. by apply insert_updated.
    - intros k. by apply updated_other.
    - rewrite msum_insert by exact Hk. lia.
    - rewrite msum_insert by exact Hk. lia. }
  destruct (_ =? 0) eqn:E0; bool_to_prop; [apply Hins; lia|].
  unfold saturating_add. unfold entries_ok in Hst.
  destruct (_ <=? _) eqn:E1; bool_to_prop; [apply Hins; unfold usize_max in *; lia|].
  split; [|unfold usize_max in *; lia].
  rewrite wrapping_sub_exact by (unfold usize_max in *; lia).
  apply with_shard_becomes; try done; try lia.
  - intros k x Hx. split; [by eapply get_home|]. by eapply (sb_entries _ Hb), shard_at_get.
  - intros k Hks. unfold get. by rewrite Hks.
Qed.

Lemma set_entry_spec b key old st :
  store_wf b -> get b key = Some old ->
  continuation_footprint st = continuation_footprint old ->
  becomes b (updated b key (Some st)) (set_entry key st b).
Proof.
  intros Hb Hk Hf. pose proof Hb as [_ _ _ B4 B5 B6 B7 B8].
  assert (entries_ok st) as Hst. { unfold entries_ok. rewrite Hf. by eapply (sb_entries _ Hb). }
  unfold set_entry. apply with_shard_becomes; [done| | | | | |lia|lia].
  - intros k x. by apply insert_home.
  - intros k. by apply insert_updated.
  - intros k. by apply updated_other.
  - rewrite (msum_replace _ _ _ _ _ Hk). lia.
  - rewrite (msum_replace _ _ _ _ _ Hk). lia.
Qed.

Lemma replace_spec b key old st :
  store_wf b -> get b key = Some old ->
  0 <= continuation_footprint st <= continuation_footprint old ->
  exists b', replace key st b = Ret b' /\ becomes b (updated b key (Some st)) b'.
Proof.
  intros Hb Hk Hf. pose proof Hb as [_ _ _ B4 B5 B6 B7 B8].
  assert (entries_ok old) as Hold by (by eapply (sb_entries _ Hb)).
  unfold replace. rewrite Hk. cbn [expect mbind outcome_bind]. eexists. split; [done|].
  pose proof (total_ge continuation_footprint _ _ _ (fun m Hm => footprints_nonneg b m Hb Hm)
    (shard_at_lookup b _ Hb (shard_index_bound key))) as Hge.
  pose proof (msum_delete continuation_footprint _ _ _ Hk) as Hd.
  assert (0 <= msum continuation_footprint (delete key (shard_at b (shard_index key)))).
  { apply msum_nonneg. intros k x Hx. apply lookup_delete_Some in Hx as [_ Hx].
    by eapply (sb_entries _ Hb), shard_at_get. }
  apply with_shard_becomes; try done; try lia.
  - intros k x. apply insert_home; [done|]. unfold entries_ok in *. lia.
  - intros k. by apply insert_updated.
  - intros k. by apply updated_other.
  - rewrite (msum_replace _ _ _ _ _ Hk). lia.
  - rewrite (msum_replace _ _ _ _ _ Hk). unfold usize_max, wrapping_add_u64 in *.
    repeat case_match; bool_to_prop; [rewrite wrapping_sub_exact; lia|lia|lia].
  - unfold usize_max, wrapping_add_u64 in *.
    repeat case_match; bool_to_prop; [rewrite wrapping_sub_exact; lia|lia|lia].
Qed.

Lemma remove_spec b key :
  store_wf b ->
  (remove key b).1 = get b key /\ becomes b (updated b key None) (remove key b).2.
Proof.
  intros Hb. pose proof Hb as [_ _ _ B4 B5 B6 B7 B8]. unfold remove.
  destruct (get b key) as [old|] eqn:Hk; simpl; cycle 1.
  { split; [done|]. eapply becomes_ext; [by apply becomes_refl|]. intros k. unfold updated.
    case_decide; [by subst|done]. }
  split; [done|]. assert (entries_ok old) as Hold by (by eapply (sb_entries _ Hb)).
  pose proof (shard_at_lookup b _ Hb (shard_index_bound key)) as Hl.
  pose proof (total_ge continuation_footprint _ _ _ (fun m Hm => footprints_nonneg b m Hb Hm) Hl).
  pose proof (total_ge (fun _ => 1) _ _ _ (fun m _ => counts_nonneg m) Hl).
  pose proof (msum_delete continuation_footprint _ _ _ Hk) as Hd.
  pose proof (msum_delete (fun _ => 1) _ _ _ Hk) as Hd1.
  pose proof (counts_nonneg (delete key (shard_at b (shard_index key)))).
  assert (0 <= msum continuation_footprint (delete key (shard_at b (shard_index key)))).
  { apply msum_nonneg. intros k x Hx. apply lookup_delete_Some in Hx as [_ Hx].
    by eapply (sb_entries _ Hb), shard_at_get. }
  unfold entries_ok, usize_max in *. cbn beta in *.
  rewrite (wrapping_sub_exact (entry_count b)) by lia.
  set (bytes := if 0 <? _ then _ else _).
  assert (bytes = continuation_bytes b - continuation_footprint old) as ->.
  { subst bytes. destruct (0 <? _) eqn:E; bool_to_prop; [apply wrapping_sub_exact|]; lia. }
  apply with_shard_becomes; try done; try lia.
  - intros k x Hx. apply lookup_delete_Some in Hx as [_ Hx].
    split; [by eapply get_home|]. by eapply (sb_entries _ Hb), shard_at_get.
  - intros k Hks. unfold updated. rewrite lookup_delete. unfold get. rewrite Hks.
    repeat case_decide; congruence.
  - intros k. by apply updated_other.
Qed.

Lemma remove_keys_spec keys b :
  store_wf b ->
  becomes b (fun k => if decide (k ∈ keys) then None else get b k) (remove_keys keys b).
Proof.
  unfold remove_keys. revert b. induction keys as [|key keys IH]; intros b Hb; cbn [foldl].
  { eapply becomes_ext; [by apply becomes_refl|]. intros k. by rewrite decide_False
      by apply not_elem_of_nil. }
  destruct (remove_spec b key Hb) as [_ H1]. eapply becomes_ext.
  { eapply becomes_trans; [exact H1|]. apply IH, (bc_wf _ _ _ H1). }
  intros k. cbn beta. rewrite (bc_get _ _ _ H1). unfold updated.
  destruct (decide (k ∈ keys)) as [Hin|Hin]; [by rewrite decide_True by (by right)|].
  case_decide; subst; [by rewrite decide_True by left|].
  rewrite decide_False; [done|]. by apply not_elem_of_cons.
Qed.

Lemma clear_spec b i :
  store_wf b -> (i < Z.to_nat SHARD_COUNT)%nat ->
  becomes b (fun k => if decide (shard_index k = i) then None else get b k) (clear i b).2.
Proof.
  intros Hb Hi. pose proof Hb as [_ _ _ B4 B5 B6 B7 B8]. unfold clear. cbn [snd].
  change (map_fold _ 0 (shard_at b i)) with (msum continuation_footprint (shard_at b i)).
  rewrite <-msum_size. pose proof (shard_at_lookup b i Hb Hi) as Hl.
  pose proof (total_ge continuation_footprint _ _ _ (fun m Hm => footprints_nonneg b m Hb Hm) Hl).
  pose proof (total_ge (fun _ => 1) _ _ _ (fun m _ => counts_nonneg m) Hl).
  pose proof (counts_nonneg (shard_at b i)).
  assert (0 <= msum continuation_footprint (shard_at b i)).
  { eapply footprints_nonneg; [done|]. by eapply list_elem_of_lookup_2. }
  unfold usize_max in *. rewrite (wrapping_sub_exact (entry_count b)) by lia.
  set (bytes := if 0 <? _ then _ else _).
  assert (bytes = continuation_bytes b - msum continuation_footprint (shard_at b i)) as ->.
  { subst bytes. destruct (0 <? _) eqn:E; bool_to_prop; [apply wrapping_sub_exact|]; lia. }
  split; try done.
  - apply with_shard_wf; rewrite ?msum_empty; try done; try lia.
  - intros k. rewrite get_with_shard by done. by case_decide.
Qed.

(** An entry, unless it expired. *)
Definition unexpired (now : Instant) (ttl : Duration) (o : option BindingState)
    : option BindingState :=
  match o with
  | Some entry => if is_expired now ttl entry then None else Some entry
  | None => None
  end.

(** [f] is the content of [b] without some entries that expired. *)
Definition drops_expired (now : Instant) (ttl : Duration) (b : ShardedBindings)
    (f : SessionHash -> option BindingState) : Prop :=
  forall k, f k = get b k \/ f k = unexpired now ttl (get b k).

Section Sweeping.

Context (order : Shard -> list SessionHash).
(** A map is iterated over exactly its keys. *)
Context (order_keys : forall m k, k ∈ order m <-> is_Some (m !! k)).

Lemma elem_of_select_keys p m keys k :
  k ∈ select_keys p m keys <-> k ∈ keys /\ exists x, m !! k = Some x /\ p x = true.
Proof.
  unfold select_keys. rewrite list_elem_of_filter. split.
  - intros [H1 H2]. split; [done|]. destruct (m !! k) as [x|]; [by exists x|done].
  - intros [H1 (x & Hx & Hp)]. split; [|done]. by rewrite Hx.
Qed.

Lemma remove_expired_spec b i now ttl :
  store_wf b ->
  becomes b (fun k => if decide (shard_index k = i) then unexpired now ttl (get b k) else get b k)
    (remove_expired order i now ttl b).2.
Proof.
  intros Hb. unfold remove_expired. cbn [snd].
  eapply becomes_ext; [by apply remove_keys_spec|]. intros k. cbn beta.
  destruct (decide (k ∈ _)) as [Hin|Hin].
  - apply elem_of_select_keys in Hin as [_ (x & Hx & Hp)].
    rewrite decide_True by (symmetry; apply (sb_home _ Hb); by eexists).
    rewrite (shard_at_get _ _ _ _ Hb Hx). simpl. by rewrite Hp.
  - case_decide as Hi; [|done]. unfold unexpired. destruct (get b k) as [x|] eqn:Hx; [|done].
    destruct (is_expired now ttl x) eqn:Hp; [|done]. destruct Hin. apply elem_of_select_keys.
    unfold get in Hx. rewrite Hi in Hx. split; [apply order_keys; by eexists|by exists x].
Qed.

Lemma reclaim_expired_sample_spec b i now ttl :
  store_wf b ->
  exists f, becomes b f (reclaim_expired_sample order i now ttl b) /\ drops_expired now ttl b f.
Proof.
  intros Hb. unfold reclaim_expired_sample. eexists. split; [by apply remove_keys_spec|].
  intros k. case_decide as Hin; [right|by left].
  apply elem_of_select_keys in Hin as [_ (x & Hx & Hp)].
  rewrite (shard_at_get _ _ _ _ Hb Hx). simpl. by rewrite Hp.
Qed.

Lemma for_each_expired_spec b now ttl idx n :
  store_wf b ->
  becomes b
    (fun k => if decide (shard_index k ∈ idx) then unexpired now ttl (get b k) else get b k)
    (foldl (fun '(n, b) i => let '(k, b') := remove_expired order i now ttl b in (n + k, b'))
       (n, b) idx).2.
Proof.
  revert b n. induction idx as [|i idx IH]; intros b n Hb.
  { eapply becomes_ext; [by apply becomes_refl|]. intros k. by rewrite decide_False
      by apply not_elem_of_nil. }
  cbn [foldl]. pose proof (remove_expired_spec b i now ttl Hb) as H1.
  destruct (remove_expired order i now ttl b) as [c b1]. cbn [snd] in H1.
  eapply becomes_ext; [eapply becomes_trans; [exact H1|apply IH, (bc_wf _ _ _ H1)]|].
  intros k. cbn beta. rewrite (bc_get _ _ _ H1).
  assert (forall o, unexpired now ttl (unexpired now ttl o) = unexpired now ttl o) as Hi.
  { intros [x|]; [|done]. simpl. destruct (is_expired now ttl x) eqn:E; [done|]. simpl.
    by rewrite E. }
  destruct (decide (shard_index k ∈ idx)) as [Hin|Hin].
  - rewrite (decide_True (P := shard_index k ∈ i :: idx)) by (by right).
    case_decide; [apply Hi|done].
  - case_decide; subst; [by rewrite decide_True by left|].
    rewrite decide_False; [done|]. by apply not_elem_of_cons.
Qed.

Lemma remove_expired_all_spec b now ttl :
  store_wf b ->
  becomes b (fun k => unexpired now ttl (get b k)) (remove_expired_all order now ttl b).2.
Proof.
  intros Hb. eapply becomes_ext; [by apply (for_each_expired_spec b now ttl)|].
  intros k. cbn beta. rewrite decide_True; [done|]. apply elem_of_seq.
  pose proof (shard_index_bound k). lia.
Qed.

Lemma reclaim_for_capacity_spec b now ttl :
  store_wf b ->
  exists f, becomes b f (reclaim_for_capacity order now ttl b).2 /\ drops_expired now ttl b f.
Proof.
  intros Hb. unfold reclaim_for_capacity. destruct (_ && _).
  { exists (get b). split; [by apply becomes_refl|by left]. }
  pose proof (remove_expired_all_spec b now ttl Hb) as H.
  destruct (remove_expired_all order now ttl b) as [n b']. cbn [snd] in *.
  exists (fun k => unexpired now ttl (get b k)). split; [|by right].
  destruct H as [[] ? ? ? ?]. split; [split; done|done..].
Qed.

End Sweeping.
