(* ===== verification/Affinity.v ===== *)
(** Session affinity: which target a session or a continuation is bound to
    ([crates/runtime/src/affinity/registry.rs], [lease.rs], [continuation.rs],
    [continuation_lease.rs], [inspection.rs], [target.rs]).

    A session is bound by whoever gets the lease of its creation: the lease is
    the only way to commit the binding, and dropping it withdraws the creation.
    A continuation is bound when its response is known, at once or through a
    pending entry with a lease of its own.  Keys are the digests of the raw
    identities; clock readings are arguments. *)

From S2P Require Import Prelude Search Protocol Epoch Candidates AffinityStore.

Local Open Scope Z_scope.

(** * Targets *)

(** [AffinityTarget::from_candidate]; [dialect] of the upstream is a field of
    the candidate that the other components do not read. *)
Definition from_candidate (route_id : Z) (protocol_dialect upstream_dialect : ProtocolDialect)
    (c : RouteCandidate) : AffinityTarget := {|
  at_route_id := route_id; at_target_id := target_id c; at_credential_id := credential_id c;
  at_upstream_model := upstream_model c; ingress_protocol_dialect := protocol_dialect;
  upstream_protocol_dialect := upstream_dialect |}.

(** [AffinityTarget::matches_candidate] *)
Definition matches_candidate (t : AffinityTarget) (route_id : Z)
    (protocol_dialect upstream_dialect : ProtocolDialect) (c : RouteCandidate) : bool :=
  (at_route_id t =? route_id) &&
  bool_decide (ingress_protocol_dialect t = protocol_dialect) &&
  bool_decide (upstream_protocol_dialect t = upstream_dialect) &&
  (at_target_id t =? target_id c) &&
  bool_decide (at_credential_id t = credential_id c) &&
  bool_decide (at_upstream_model t = upstream_model c).

(** * The registry *)

Definition MAX_BINDINGS : Z := 300000.
Definition MAX_BRIDGE_CONTINUATION_TOTAL_BYTES : Z := 64 * 1024 * 1024.

Record AffinityRegistry := {
  bindings : ShardedBindings;
  scheduler_epoch : SchedulerEpoch
}.

(** [AffinityRegistry::with_scheduler_epoch] *)
Definition registry_new (e : SchedulerEpoch) (now : Instant) : AffinityRegistry := {|
  bindings := sharded_new MAX_BINDINGS MAX_BRIDGE_CONTINUATION_TOTAL_BYTES now;
  scheduler_epoch := e |}.

Inductive AffinityError :=
| Capacity
| IdentityConflict
| LeaseLost
| DeadlineExceeded
| ContinuationCapacity
| ContinuationTooLarge.

(** [From<InsertRejection> for AffinityError] *)
Definition rejection_error (r : InsertRejection) : AffinityError :=
  match r with RejectEntries => Capacity | RejectContinuationBytes => ContinuationCapacity end.

Definition with_bindings (b : ShardedBindings) (r : AffinityRegistry) : AffinityRegistry :=
  {| bindings := b; scheduler_epoch := scheduler_epoch r |}.

(** [AffinityRegistry::wake_waiters] *)
Definition wake_waiters (r : AffinityRegistry) : outcome AffinityRegistry :=
  advance (scheduler_epoch r) ≫= fun e => Ret {| bindings := bindings r; scheduler_epoch := e |}.

Definition wake_if (wake : bool) (r : AffinityRegistry) : outcome AffinityRegistry :=
  if wake then wake_waiters r else Ret r.

(** * Sessions *)

Record BindingLease := { lease_key : SessionHash; lease_version : Z; lease_active : bool }.

Inductive BindingStart :=
| Create (lease : BindingLease)
| WaitFor (phase : BindingCreationPhase)
| BoundTo (target : AffinityTarget).

Definition seen_at (now : Instant) (b : TimedBinding) : TimedBinding :=
  {| tb_target := tb_target b; last_seen_at := now; source := source b |}.

Section Sessions.

Context (order : gmap Z BindingState -> list SessionHash).

(** The loop body of [AffinityRegistry::begin_session], under the lock of the
    key's shard; [None] when the table is full. *)
Definition begin_session_pass (key : SessionHash) (now : Instant) (ttl : Duration)
    (b : ShardedBindings) : option BindingStart * ShardedBindings :=
  let create b :=
    let b := reclaim_expired_sample order (shard_index key) now ttl b in
    let '(version, b) := take_version b in
    match try_insert key (Creating version Selecting) b with
    | (Ok _, b) => (Some (Create {| lease_key := key; lease_version := version;
                                    lease_active := true |}), b)
    | (Err _, b) => (None, b)
    end in
  match get b key with
  | Some (Bound binding) =>
      if saturating_duration_since now (last_seen_at binding) <? ttl
      then (Some (BoundTo (tb_target binding)), set_entry key (Bound (seen_at now binding)) b)
      else create (remove key b).2
  | Some (Creating _ phase) => (Some (WaitFor phase), b)
  | None => create b
  end.

(** [AffinityRegistry::begin_session] *)
Definition begin_session (key : SessionHash) (now : Instant) (ttl : Duration)
    (b : ShardedBindings) : result BindingStart AffinityError * ShardedBindings :=
  match begin_session_pass key now ttl b with
  | (Some start, b) => (Ok start, b)
  | (None, b) =>
      let '(reclaimed, b) := reclaim_for_capacity order now ttl b in
      if negb reclaimed then (Err Capacity, b)
      else match begin_session_pass key now ttl b with
           | (Some start, b) => (Ok start, b)
           | (None, b) => (Err Capacity, b)
           end
  end.

End Sessions.

(** The entry a lease was given for is still there. *)
Definition lease_current (b : ShardedBindings) (l : BindingLease) : bool :=
  match get b (lease_key l) with
  | Some (Creating version _) => version =? lease_version l
  | _ => false
  end.

(** [BindingLease::mark_attempting] *)
Definition mark_attempting (l : BindingLease) (r : AffinityRegistry)
    : outcome (result unit AffinityError * AffinityRegistry) :=
  match get (bindings r) (lease_key l) with
  | Some (Creating version _) =>
      if negb (version =? lease_version l) then Ret (Err LeaseLost, r)
      else
        let b := set_entry (lease_key l) (Creating version Attempting) (bindings r) in
        wake_waiters (with_bindings b r) ≫= fun r' => Ret (Ok tt, r')
  | _ => Ret (Err LeaseLost, r)
  end.

(** [BindingLease::remove_current]: whether the creation was withdrawn *)
Definition remove_current (l : BindingLease) (r : AffinityRegistry)
    : bool * AffinityRegistry :=
  if negb (lease_active l) then (false, r)
  else if lease_current (bindings r) l
       then (true, with_bindings (remove (lease_key l) (bindings r)).2 r)
       else (false, r).

(** [BindingLease::drop] *)
Definition lease_drop (l : BindingLease) (r : AffinityRegistry) : outcome AffinityRegistry :=
  let '(removed, r) := remove_current l r in wake_if removed r.

(** [BindingLease::release_for_wait]; the epoch the waiters wait past is that of
    the registry afterwards. *)
Definition release_for_wait (l : BindingLease) (r : AffinityRegistry)
    : outcome (result unit AffinityError * AffinityRegistry) :=
  let '(removed, r) := remove_current l r in
  if negb removed then Ret (Err LeaseLost, r)
  else wake_waiters r ≫= fun r' => Ret (Ok tt, r').

Definition past (deadline : option Instant) (now : Instant) : bool :=
  match deadline with Some d => d <=? now | None => false end.

(** [BindingLease::commit_with_deadline]: the clock is read before the lock,
    under it and before the write. *)
Definition commit_with_deadline (l : BindingLease) (target : AffinityTarget)
    (deadline : option Instant) (committed_at locked_at written_at : Instant)
    (r : AffinityRegistry) : outcome (result unit AffinityError * AffinityRegistry) :=
  if past deadline committed_at then Ret (Err DeadlineExceeded, r)
  else if past deadline locked_at then Ret (Err DeadlineExceeded, r)
  else
    let matches := match get (bindings r) (lease_key l) with
                   | Some (Creating version Attempting) => version =? lease_version l
                   | _ => false
                   end in
    if negb matches then Ret (Err LeaseLost, r)
    else if past deadline written_at then Ret (Err DeadlineExceeded, r)
    else
      replace (lease_key l)
        (Bound {| tb_target := target; last_seen_at := committed_at; source := Session |})
        (bindings r) ≫= fun b =>
      wake_waiters (with_bindings b r) ≫= fun r' => Ret (Ok tt, r').

(** [BindingLease::commit] and [commit_before]: the lease is consumed, so a
    commit that fails drops it. *)
Definition lease_commit (l : BindingLease) (target : AffinityTarget)
    (deadline : option Instant) (committed_at locked_at written_at : Instant)
    (r : AffinityRegistry) : outcome (result unit AffinityError * AffinityRegistry) :=
  commit_with_deadline l target deadline committed_at locked_at written_at r ≫= fun '(res, r') =>
  match res with
  | Ok _ => Ret (res, r')
  | Err _ => lease_drop l r' ≫= fun r'' => Ret (res, r'')
  end.

(** * Continuations *)

Inductive ContinuationLookup :=
| Missing
| LookupPending
| LookupReady (target : AffinityTarget) (state : option ProtocolContinuationState).

(** [AffinityRegistry::resolve_continuation] *)
Definition resolve_continuation (key : SessionHash) (now : Instant) (ttl : Duration)
    (target_is_available : AffinityTarget -> bool) (b : ShardedBindings)
    : ContinuationLookup * ShardedBindings :=
  match get b key with
  | Some (Bound binding) =>
      match source binding with
      | Continuation (Pending _) => (LookupPending, b)
      | Continuation (Ready state) =>
          if ttl <=? saturating_duration_since now (last_seen_at binding)
          then (Missing, (remove key b).2)
          else if negb (target_is_available (tb_target binding)) then (Missing, b)
          else (LookupReady (tb_target binding) state,
                set_entry key (Bound (seen_at now binding)) b)
      | Session => (Missing, b)
      end
  | _ => (Missing, b)
  end.

(** [checked_state_bytes] *)
Definition checked_state_bytes (state : option ProtocolContinuationState)
    : result Z AffinityError :=
  let bytes := match state with Some s => serialized_bytes s | None => 0 end in
  if bytes <=? MAX_BRIDGE_CONTINUATION_STATE_BYTES then Ok bytes else Err ContinuationTooLarge.

(** The clock readings of one pass over a continuation's shard. *)
Record PassClock := { locked_at : Instant; reclaimed_at : Instant; written_at : Instant }.

Record ContinuationLease := {
  cl_key : SessionHash;
  cl_version : Z;
  cl_target : AffinityTarget;
  cl_active : bool
}.

Section Continuations.

Context (order : gmap Z BindingState -> list SessionHash).

(** The loop body of [bind_ready_continuation_with_deadline]; a rejected insert
    is returned apart from the other errors, because it is retried. *)
Definition bind_ready_pass (key : SessionHash) (target : AffinityTarget)
    (state : option ProtocolContinuationState) (now : Instant) (ttl : Duration)
    (deadline : option Instant) (clock : PassClock) (b : ShardedBindings)
    : result unit (AffinityError + InsertRejection) * ShardedBindings :=
  if past deadline (locked_at clock) then (Err (inl DeadlineExceeded), b)
  else
    let b := (remove_if_expired key now ttl b).2 in
    match get b key with
    | Some (Bound binding) =>
        let idempotent_stateless :=
          bool_decide (tb_target binding = target) &&
          match state with None => true | Some _ => false end &&
          match source binding with Continuation (Ready None) => true | _ => false end in
        if negb idempotent_stateless then (Err (inl IdentityConflict), b)
        else if past deadline (reclaimed_at clock) then (Err (inl DeadlineExceeded), b)
        else (Ok tt, set_entry key (Bound (seen_at (written_at clock) binding)) b)
    | Some (Creating _ _) => (Err (inl IdentityConflict), b)
    | None =>
        let b := reclaim_expired_sample order (shard_index key) now ttl b in
        if past deadline (reclaimed_at clock) then (Err (inl DeadlineExceeded), b)
        else
          let bound := Bound {| tb_target := target; last_seen_at := written_at clock;
                                source := Continuation (Ready state) |} in
          match try_insert key bound b with
          | (Ok _, b) => (Ok tt, b)
          | (Err rejection, b) => (Err (inr rejection), b)
          end
    end.

(** The second pass of an insert, after the table was reclaimed *)
Definition second_pass {A} (now : Instant) (ttl : Duration) (rejection : InsertRejection)
    (again : ShardedBindings -> result A (AffinityError + InsertRejection) * ShardedBindings)
    (b : ShardedBindings) : result A AffinityError * ShardedBindings :=
  let '(reclaimed, b) := reclaim_for_capacity order now ttl b in
  if negb reclaimed then (Err (rejection_error rejection), b)
  else match again b with
       | (Ok a, b) => (Ok a, b)
       | (Err (inl e), b) => (Err e, b)
       | (Err (inr r), b) => (Err (rejection_error r), b)
       end.

(** [AffinityRegistry::bind_ready_continuation_with_deadline]; [checked_at] is
    the clock of the first check and [now] the one of the table, and the two
    clocks those of the passes. *)
Definition bind_ready_continuation (key : SessionHash) (target : AffinityTarget)
    (state : option ProtocolContinuationState) (ttl : Duration) (deadline : option Instant)
    (checked_at now : Instant) (first second : PassClock) (b : ShardedBindings)
    : result unit AffinityError * ShardedBindings :=
  if past deadline checked_at then (Err DeadlineExceeded, b)
  else match checked_state_bytes state with
  | Err e => (Err e, b)
  | Ok _ =>
      match bind_ready_pass key target state now ttl deadline first b with
      | (Ok _, b) => (Ok tt, b)
      | (Err (inl e), b) => (Err e, b)
      | (Err (inr rejection), b) =>
          second_pass now ttl rejection
            (bind_ready_pass key target state now ttl deadline second) b
      end
  end.

(** The loop body of [begin_pending_continuation_with_deadline] *)
Definition begin_pending_pass (key : SessionHash) (target : AffinityTarget) (now : Instant)
    (ttl : Duration) (deadline : option Instant) (clock : PassClock) (b : ShardedBindings)
    : result ContinuationLease (AffinityError + InsertRejection) * ShardedBindings :=
  if past deadline (locked_at clock) then (Err (inl DeadlineExceeded), b)
  else
    let b := (remove_if_expired key now ttl b).2 in
    match get b key with
    | Some _ => (Err (inl IdentityConflict), b)
    | None =>
        let b := reclaim_expired_sample order (shard_index key) now ttl b in
        if past deadline (reclaimed_at clock) then (Err (inl DeadlineExceeded), b)
        else
          let '(version, b) := take_version b in
          let bound := Bound {| tb_target := target; last_seen_at := written_at clock;
                                source := Continuation (Pending version) |} in
          match try_insert key bound b with
          | (Ok _, b) => (Ok {| cl_key := key; cl_version := version; cl_target := target;
                                cl_active := true |}, b)
          | (Err rejection, b) => (Err (inr rejection), b)
          end
    end.

(** [AffinityRegistry::begin_pending_continuation_with_deadline] *)
Definition begin_pending_continuation (key : SessionHash) (target : AffinityTarget)
    (ttl : Duration) (deadline : option Instant) (checked_at now : Instant)
    (first second : PassClock) (b : ShardedBindings)
    : result ContinuationLease AffinityError * ShardedBindings :=
  if past deadline checked_at then (Err DeadlineExceeded, b)
  else
    match begin_pending_pass key target now ttl deadline first b with
    | (Ok lease, b) => (Ok lease, b)
    | (Err (inl e), b) => (Err e, b)
    | (Err (inr rejection), b) =>
        second_pass now ttl rejection
          (begin_pending_pass key target now ttl deadline second) b
    end.

End Continuations.

(** The pending entry of a continuation lease is still there. *)
Definition pending_current (b : ShardedBindings) (l : ContinuationLease) : bool :=
  match get b (cl_key l) with
  | Some (Bound binding) =>
      match source binding with
      | Continuation (Pending version) => version =? cl_version l
      | _ => false
      end
  | _ => false
  end.

(** [ContinuationLease::ready] *)
Definition continuation_ready (l : ContinuationLease) (state : option ProtocolContinuationState)
    (deadline : option Instant) (checked_at locked_at written_at : Instant)
    (r : AffinityRegistry)
    : outcome (result unit AffinityError * ContinuationLease * AffinityRegistry) :=
  if past deadline checked_at then Ret (Err DeadlineExceeded, l, r)
  else match checked_state_bytes state with
  | Err e => Ret (Err e, l, r)
  | Ok _ =>
      if past deadline locked_at then Ret (Err DeadlineExceeded, l, r)
      else
        let target_matches := match get (bindings r) (cl_key l) with
                              | Some (Bound binding) =>
                                  bool_decide (tb_target binding = cl_target l)
                              | _ => false
                              end in
        if negb (target_matches && pending_current (bindings r) l)
        then Ret (Err LeaseLost, l, r)
        else
          replace (cl_key l)
            (Bound {| tb_target := cl_target l; last_seen_at := written_at;
                      source := Continuation (Ready state) |}) (bindings r) ≫= fun b =>
          wake_waiters (with_bindings b r) ≫= fun r' =>
          Ret (Ok tt, {| cl_key := cl_key l; cl_version := cl_version l;
                         cl_target := cl_target l; cl_active := false |}, r')
  end.

(** [ContinuationLease::drop] *)
Definition continuation_drop (l : ContinuationLease) (r : AffinityRegistry)
    : outcome AffinityRegistry :=
  if negb (cl_active l) then Ret r
  else if pending_current (bindings r) l
       then wake_waiters (with_bindings (remove (cl_key l) (bindings r)).2 r)
       else Ret r.

(** * Clearing and inspection *)

Section Clearing.

Context (order : gmap Z BindingState -> list SessionHash).

(** An entry that others wait for *)
Definition waits (entry : BindingState) : bool :=
  match entry with
  | Creating _ _ => true
  | Bound binding => is_pending_continuation binding
  end.

(** [AffinityRegistry::clear_all] *)
Definition clear_all (r : AffinityRegistry) : outcome (Z * AffinityRegistry) :=
  let '(cleared, waiting, b) :=
    foldl (fun '(cleared, waiting, b) i =>
             let waiting := waiting || existsb (fun kx => waits kx.2) (map_to_list (shard_at b i)) in
             let '(n, b) := clear i b in (cleared + n, waiting, b))
      (0, false, bindings r) (seq 0 (Z.to_nat SHARD_COUNT)) in
  wake_if waiting (with_bindings b r) ≫= fun r' => Ret (cleared, r').

Definition bound_to_credential (credential : Z + Z) (entry : BindingState) : bool :=
  match entry with
  | Bound binding => bool_decide (at_credential_id (tb_target binding) = credential)
  | Creating _ _ => false
  end.

Definition pending_at (b : ShardedBindings) (key : SessionHash) : bool :=
  match get b key with Some (Bound binding) => is_pending_continuation binding | _ => false end.

(** One shard of [AffinityRegistry::clear_credential]: the keys are collected
    first, then removed. *)
Definition clear_credential_shard (credential : Z + Z) (i : nat) (b : ShardedBindings)
    : Z * bool * ShardedBindings :=
  let removed := select_keys (bound_to_credential credential) (shard_at b i)
                   (order (shard_at b i)) in
  (Zlen removed, existsb (pending_at b) removed, remove_keys removed b).

(** [AffinityRegistry::clear_credential] *)
Definition clear_credential (credential : Z + Z) (r : AffinityRegistry)
    : outcome (Z * AffinityRegistry) :=
  let '(cleared, waiting, b) :=
    foldl (fun '(cleared, waiting, b) i =>
             let '(n, w, b) := clear_credential_shard credential i b in
             (cleared + n, waiting || w, b))
      (0, false, bindings r) (seq 0 (Z.to_nat SHARD_COUNT)) in
  wake_if waiting (with_bindings b r) ≫= fun r' => Ret (cleared, r').

Record AffinityRuntimeSnapshot := {
  active_session_count : Z;
  creating_session_count : Z
}.

Definition is_creating (entry : BindingState) : bool :=
  match entry with Creating _ _ => true | Bound _ => false end.
Definition is_session (entry : BindingState) : bool :=
  match entry with
  | Bound binding => match source binding with Session => true | _ => false end
  | Creating _ _ => false
  end.
Definition count_entries (p : BindingState -> bool) (m : gmap Z BindingState) : Z :=
  map_fold (fun _ entry n => (if p entry then 1 else 0) + n) 0 m.

(** [AffinityRegistry::snapshot] *)
Definition affinity_snapshot (now : Instant) (ttl : Duration) (enabled : bool)
    (b : ShardedBindings) : AffinityRuntimeSnapshot * ShardedBindings :=
  foldl (fun '(s, b) i =>
           let '(_, b) := remove_expired order i now ttl b in
           if negb enabled then (s, b)
           else ({| active_session_count :=
                      active_session_count s + count_entries is_session (shard_at b i);
                    creating_session_count :=
                      creating_session_count s + count_entries is_creating (shard_at b i) |}, b))
    ({| active_session_count := 0; creating_session_count := 0 |}, b)
    (seq 0 (Z.to_nat SHARD_COUNT)).

(** [AffinityRegistry::sweep_expired] *)
Definition sweep_expired (now : Instant) (ttl : Duration) (b : ShardedBindings)
    : Z * ShardedBindings :=
  remove_expired_all order now ttl b.

End Clearing.

(** * Owners *)

(** What waiters of an entry wait for: the lease of that version. *)
Definition token (entry : BindingState) : option (Z + Z) :=
  match entry with
  | Creating version _ => Some (inl version)
  | Bound binding =>
      match source binding with
      | Continuation (Pending version) => Some (inr version)
      | _ => None
      end
  end.

Definition versions (ls : list BindingLease) (cs : list ContinuationLease) : list Z :=
  (lease_version <$> ls) ++ (cl_version <$> cs).

Definition owned (ls : list BindingLease) (cs : list ContinuationLease) (key : SessionHash)
    (t : Z + Z) : Prop :=
  match t with
  | inl v => exists l, l ∈ ls /\ lease_key l = key /\ lease_version l = v
  | inr v => exists l, l ∈ cs /\ cl_key l = key /\ cl_version l = v /\ cl_active l = true
  end.

(** The table and the leases given out: whatever is waited for has its lease,
    and no two leases have one version. *)
Record affinity_inv (b : ShardedBindings) (ls : list BindingLease)
    (cs : list ContinuationLease) : Prop := {
  ai_store : store_wf b;
  ai_nonneg : 0 <= next_version b;
  ai_owned : forall key t, get b key ≫= token = Some t -> owned ls cs key t;
  ai_fresh : Forall (fun v => v <= next_version b) (versions ls cs);
  ai_distinct : NoDup (versions ls cs);
  ai_active : Forall (fun l => lease_active l = true) ls;
  ai_limits : max_entries b = MAX_BINDINGS /\
              max_continuation_bytes b = MAX_BRIDGE_CONTINUATION_TOTAL_BYTES
}.

Lemma affinity_inv_perm b ls ls' cs cs' :
  ls ≡ₚ ls' -> cs ≡ₚ cs' -> affinity_inv b ls cs -> affinity_inv b ls' cs'.
Proof.
  intros Hl Hc [H1 H2 H3 H4 H5 H6 H7].
  assert (versions ls cs ≡ₚ versions ls' cs') as Hv by (unfold versions; by rewrite Hl, Hc).
  split; [done|done| |by rewrite <-Hv|by rewrite <-Hv|by rewrite <-Hl|done].
  intros key t Ht. specialize (H3 key t Ht). unfold owned in *.
  destruct t; [by setoid_rewrite <-Hl|by setoid_rewrite <-Hc].
Qed.

(** A change of the table that waits for nothing new keeps the invariant. *)
Lemma affinity_inv_becomes b f b' ls cs :
  affinity_inv b ls cs -> becomes b f b' ->
  (forall key t, f key ≫= token = Some t -> get b key ≫= token = Some t) ->
  affinity_inv b' ls cs.
Proof.
  intros [H1 H2 H3 H4 H5 H6 H7] [B1 B2 B3 B4 B5] Hf.
  split; rewrite ?B3, ?B4, ?B5; try done. intros key t. rewrite B2. intros Ht. by apply H3, Hf.
Qed.

Lemma expired_token now ttl entry : is_expired now ttl entry = true -> token entry = None.
Proof.
  destruct entry as [|binding]; simpl; [done|]. unfold is_pending_continuation.
  by destruct (source binding) as [|[]].
Qed.

Lemma drops_expired_token now ttl b f key t :
  drops_expired now ttl b f -> f key ≫= token = Some t -> get b key ≫= token = Some t.
Proof.
  intros H. destruct (H key) as [->| ->]; [done|]. unfold unexpired.
  destruct (get b key) as [x|]; [|done]. destruct (is_expired now ttl x); [done|]. done.
Qed.

Lemma updated_token b key v k t :
  updated b key v k ≫= token = Some t ->
  (k = key /\ v ≫= token = Some t) \/ (k <> key /\ get b k ≫= token = Some t).
Proof. unfold updated. case_decide; intros; [by left|by right]. Qed.

(** Taking a version *)
Lemma take_version_spec b v b' :
  0 <= next_version b < u64_max -> take_version b = (v, b') ->
  v = next_version b + 1 /\ next_version b' = next_version b + 1 /\
  (max_entries b' = max_entries b /\ max_continuation_bytes b' = max_continuation_bytes b) /\
  (forall key, get b' key = get b key) /\ (store_wf b -> store_wf b').
Proof.
  intros Hv. unfold take_version, wrapping_add_u64, u64_max in *.
  rewrite Z.mod_small by lia. intros [= <- <-]. cbn [next_version max_entries].
  split_and!; try done; [lia|]. intros []. by split.
Qed.

Section Invariant.

Context (order : gmap Z BindingState -> list SessionHash).
Context (order_keys : forall m k, k ∈ order m <-> is_Some (m !! k)).

(** Reclaiming keeps the invariant and the versions. *)
Lemma reclaim_sample_inv b ls cs i now ttl :
  affinity_inv b ls cs ->
  let b' := reclaim_expired_sample order i now ttl b in
  affinity_inv b' ls cs /\ next_version b' = next_version b /\
  drops_expired now ttl b (get b').
Proof.
  intros H. cbv zeta.
  destruct (reclaim_expired_sample_spec order b i now ttl (ai_store _ _ _ H)) as (f & Hf & Hd).
  split_and!; [|by apply Hf|].
  - eapply affinity_inv_becomes; [done..|]. intros key t. by eapply drops_expired_token.
  - intros k. rewrite (bc_get _ _ _ Hf). apply Hd.
Qed.

Lemma reclaim_capacity_inv b ls cs now ttl :
  affinity_inv b ls cs ->
  let b' := (reclaim_for_capacity order now ttl b).2 in
  affinity_inv b' ls cs /\ next_version b' = next_version b.
Proof.
  intros H. cbv zeta.
  destruct (reclaim_for_capacity_spec order order_keys b now ttl (ai_store _ _ _ H))
    as (f & Hf & Hd).
  split; [|by apply Hf].
  eapply affinity_inv_becomes; [done..|]. intros key t. by eapply drops_expired_token.
Qed.

Lemma remove_inv b ls cs key :
  affinity_inv b ls cs ->
  affinity_inv (remove key b).2 ls cs /\ next_version (remove key b).2 = next_version b /\
  (forall k, get (remove key b).2 k = updated b key None k).
Proof.
  intros H. destruct (remove_spec b key (ai_store _ _ _ H)) as [_ Hb].
  split_and!; [|by apply Hb|by apply Hb].
  eapply affinity_inv_becomes; [done..|]. intros k t Ht.
  apply updated_token in Ht as [[_ ?]|[_ ?]]; done.
Qed.

(** A lease of a fresh version for a new entry of that version *)
Lemma fresh_version_inv b b1 v ls cs key st :
  affinity_inv b ls cs -> next_version b < u64_max -> take_version b = (v, b1) ->
  get b key = None -> entries_ok st ->
  (exists t, token st = Some t /\ (t = inl v \/ t = inr v)) ->
  match try_insert key st b1 with
  | (Ok _, b2) =>
      next_version b2 = next_version b + 1 /\ store_wf b2 /\
      (forall k, get b2 k = updated b key (Some st) k) /\
      v = next_version b + 1 /\ max_entries b2 = MAX_BINDINGS /\
      max_continuation_bytes b2 = MAX_BRIDGE_CONTINUATION_TOTAL_BYTES
  | (Err _, b2) => affinity_inv b2 ls cs /\ next_version b2 = next_version b + 1
  end.
Proof.
  intros H Hv Hb1 Hk Hst (t & Ht & Htv). pose proof H as [H1 H2 H3 H4 H5 H6 H7].
  destruct (take_version_spec b v b1 ltac:(lia) Hb1) as (-> & Hn & [Hm1 Hm2] & Hg & Hwf).
  specialize (Hwf H1). rewrite <-Hg in Hk.
  assert (affinity_inv b1 ls cs) as Hi.
  { split; rewrite ?Hn, ?Hm1, ?Hm2; try done; [lia|intros key' t'; rewrite Hg; apply H3|].
    eapply Forall_impl; [exact H4|]. simpl. lia. }
  pose proof (try_insert_spec b1 key st Hwf Hk Hst) as Hs.
  destruct (try_insert key st b1) as [[[]|[]] b2].
  - destruct Hs as [S1 S2 S3 S4 S5], H7 as [L1 L2].
    split_and!; [lia|done| |done|congruence|congruence].
    intros k. rewrite S2. unfold updated. by rewrite Hg.
  - destruct Hs as [-> _]. split; [done|lia].
  - destruct Hs as [Hs _]. split; [|rewrite (bc_version _ _ _ Hs); lia].
    by eapply affinity_inv_becomes.
Qed.

Lemma begin_session_pass_inv b ls cs key now ttl :
  affinity_inv b ls cs -> next_version b < u64_max ->
  match begin_session_pass order key now ttl b with
  | (Some (Create l), b') =>
      affinity_inv b' (l :: ls) cs /\ next_version b' <= next_version b + 1
  | (_, b') => affinity_inv b' ls cs /\ next_version b' <= next_version b + 1
  end.
Proof.
  intros H Hv. unfold begin_session_pass.
  assert (forall b0, affinity_inv b0 ls cs -> next_version b0 = next_version b ->
    get b0 key = None ->
    match
      (let b := reclaim_expired_sample order (shard_index key) now ttl b0 in
       let '(version, b) := take_version b in
       match try_insert key (Creating version Selecting) b with
       | (Ok _, b) => (Some (Create {| lease_key := key; lease_version := version;
                                       lease_active := true |}), b)
       | (Err _, b) => (None, b)
       end)
    with
    | (Some (Create l), b') =>
        affinity_inv b' (l :: ls) cs /\ next_version b' <= next_version b + 1
    | (_, b') => affinity_inv b' ls cs /\ next_version b' <= next_version b + 1
    end) as Hcreate.
  { intros b0 H0 Hn0 Hk0. cbv zeta.
    destruct (reclaim_sample_inv b0 ls cs (shard_index key) now ttl H0) as (Hi & Hn & Hd).
    set (b1 := reclaim_expired_sample order (shard_index key) now ttl b0) in *.
    assert (get b1 key = None) as Hk1.
    { destruct (Hd key) as [->| ->]; rewrite Hk0; done. }
    destruct (take_version b1) as [v b2] eqn:Ev.
    pose proof (fresh_version_inv b1 b2 v ls cs key (Creating v Selecting) Hi ltac:(lia) Ev Hk1
      ltac:(unfold entries_ok; simpl; done) ltac:(exists (inl v); auto)) as Hf.
    destruct (try_insert key (Creating v Selecting) b2) as [[[]|rej] b3]; cycle 1.
    { destruct Hf as [? ?]. split; [done|lia]. }
    destruct Hf as (F1 & F2 & F3 & -> & F4). split; [|lia].
    destruct Hi as [I1 I2 I3 I4 I5 I6 I7]. split; [done|lia| | | |by constructor|done].
    - intros k t. rewrite F3. intros Ht. apply updated_token in Ht as [[-> Ht]|[_ Ht]].
      + simplify_eq/=. eexists. split; [left|]. done.
      + apply I3 in Ht. destruct t; simpl in *; [|done].
        destruct Ht as (l & Hl & ?). exists l. split; [by right|done].
    - unfold versions. cbn [fmap list_fmap app lease_version]. constructor; [lia|].
      eapply Forall_impl; [exact I4|]. simpl. lia.
    - unfold versions. cbn [fmap list_fmap app lease_version]. constructor; [|done].
      intros Hin. rewrite Forall_forall in I4. specialize (I4 _ Hin). cbn beta in I4. lia. }
  destruct (get b key) as [[version phase|binding]|] eqn:Hk.
  - split; [done|lia].
  - destruct (_ <? ttl).
    + assert (becomes b (updated b key (Some (Bound (seen_at now binding))))
        (set_entry key (Bound (seen_at now binding)) b)) as Hb.
      { eapply set_entry_spec; [apply H|done|done]. }
      split; [|rewrite (bc_version _ _ _ Hb); lia].
      eapply affinity_inv_becomes; [done..|]. intros k t Ht.
      apply updated_token in Ht as [[-> Ht]|[_ ?]]; [|done]. by rewrite Hk.
    + destruct (remove_inv b ls cs key H) as (R1 & R2 & R3).
      apply Hcreate; [done|done|]. rewrite R3. unfold updated. by rewrite decide_True.
  - by apply Hcreate.
Qed.

Lemma begin_session_inv b ls cs key now ttl :
  affinity_inv b ls cs -> next_version b + 1 < u64_max ->
  match begin_session order key now ttl b with
  | (Ok (Create l), b') =>
      affinity_inv b' (l :: ls) cs /\ next_version b' <= next_version b + 2
  | (_, b') => affinity_inv b' ls cs /\ next_version b' <= next_version b + 2
  end.
Proof.
  intros H Hv. unfold begin_session.
  pose proof (begin_session_pass_inv b ls cs key now ttl H ltac:(lia)) as H1.
  destruct (begin_session_pass order key now ttl b) as [[[l| |]|] b1]; destruct H1 as [H1 N1];
    try (split; [done|lia]).
  destruct (reclaim_capacity_inv b1 ls cs now ttl H1) as [H2 N2].
  destruct (reclaim_for_capacity order now ttl b1) as [[] b2]; cbn [negb snd] in *;
    [|split; [done|lia]].
  pose proof (begin_session_pass_inv b2 ls cs key now ttl H2 ltac:(lia)) as H3.
  destruct (begin_session_pass order key now ttl b2) as [[[l| |]|] b3]; destruct H3 as [H3 N3];
    (split; [done|lia]).
Qed.

End Invariant.

(** * Leases *)

(** [r'] is [r] with another table, after at most one wake-up. *)
Definition woken (n : Z) (b : ShardedBindings) (r' : AffinityRegistry) : Prop :=
  bindings r' = b /\ headroom n (scheduler_epoch r').

Lemma wake_waiters_woken n r :
  0 <= n -> headroom (n + 1) (scheduler_epoch r) ->
  exists r', wake_waiters r = Ret r' /\ woken n (bindings r) r'.
Proof.
  intros Hn Hh. destruct (advance_total n _ Hn Hh) as (e & He & Hh').
  unfold wake_waiters. rewrite He. by eexists.
Qed.

Lemma wake_if_woken n w r :
  0 <= n -> headroom (n + 1) (scheduler_epoch r) ->
  exists r', wake_if w r = Ret r' /\ woken n (bindings r) r'.
Proof.
  intros Hn Hh. destruct w; [by apply wake_waiters_woken|]. exists r.
  split; [done|]. split; [done|]. eapply headroom_weaken; [exact Hh|lia].
Qed.

(** A session lease goes out of use once nothing waits for it. *)
Lemma consume_lease_inv b f b' l ls cs :
  affinity_inv b (l :: ls) cs -> becomes b f b' ->
  (forall key t, f key ≫= token = Some t ->
     get b key ≫= token = Some t /\ ~ (key = lease_key l /\ t = inl (lease_version l))) ->
  affinity_inv b' ls cs.
Proof.
  intros [H1 H2 H3 H4 H5 H6 H7] [B1 B2 B3 B4 B5] Hf.
  unfold versions in *. cbn [fmap list_fmap app] in *.
  split; rewrite ?B3, ?B4, ?B5; try done; [|by apply Forall_cons in H4 as [_ ?]|
    by apply NoDup_cons in H5 as [_ ?]|by apply Forall_cons in H6 as [_ ?]].
  intros key t. rewrite B2. intros Ht. destruct (Hf key t Ht) as [Hg Hne].
  specialize (H3 key t Hg). destruct t as [v|v]; [|done].
  destruct H3 as (l' & Hin & Hk & Hv). apply elem_of_cons in Hin as [->|Hin]; [|by exists l'].
  destruct Hne. by subst.
Qed.

(** A continuation lease is given up or becomes inactive. *)
Lemma consume_continuation_inv b f b' l ls cs :
  affinity_inv b ls (l :: cs) -> becomes b f b' ->
  (forall key t, f key ≫= token = Some t ->
     get b key ≫= token = Some t /\ ~ (key = cl_key l /\ t = inr (cl_version l))) ->
  affinity_inv b' ls cs /\
  forall l', cl_version l' = cl_version l -> affinity_inv b' ls (l' :: cs).
Proof.
  intros [H1 H2 H3 H4 H5 H6 H7] [B1 B2 B3 B4 B5] Hf.
  assert (forall key t, get b' key ≫= token = Some t -> owned ls cs key t) as Ho.
  { intros key t. rewrite B2. intros Ht. destruct (Hf key t Ht) as [Hg Hne].
    specialize (H3 key t Hg). destruct t as [v|v]; [done|].
    destruct H3 as (l' & Hin & Hk & Hv & Ha).
    apply elem_of_cons in Hin as [->|Hin]; [|by exists l']. destruct Hne. by subst. }
  assert (versions ls (l :: cs) ≡ₚ cl_version l :: versions ls cs) as Hv.
  { unfold versions. by rewrite fmap_cons, Permutation_middle. }
  rewrite Hv in H4, H5. split.
  - split; rewrite ?B3, ?B4, ?B5; try done; [by apply Forall_cons in H4 as [_ ?]|
      by apply NoDup_cons in H5 as [_ ?]].
  - intros l' Hl'.
    assert (versions ls (l' :: cs) ≡ₚ cl_version l :: versions ls cs) as Hv'.
    { unfold versions. by rewrite fmap_cons, Permutation_middle, Hl'. }
    split; rewrite ?B3, ?B4, ?B5, ?Hv'; try done. intros key t Ht. apply Ho in Ht.
    destruct t as [v|v]; [done|]. destruct Ht as (l2 & Hin & ?). exists l2. by split; [right|].
Qed.

Lemma mark_attempting_inv n l r ls cs :
  0 <= n -> headroom (n + 1) (scheduler_epoch r) -> affinity_inv (bindings r) ls cs ->
  exists res r', mark_attempting l r = Ret (res, r') /\ headroom n (scheduler_epoch r') /\
    affinity_inv (bindings r') ls cs /\ next_version (bindings r') = next_version (bindings r).
Proof.
  intros Hn Hh H. unfold mark_attempting.
  assert (exists res r', Ret (Err LeaseLost, r) = Ret (A := result unit AffinityError * _) (res, r') /\
    headroom n (scheduler_epoch r') /\ affinity_inv (bindings r') ls cs /\
    next_version (bindings r') = next_version (bindings r)) as Hlost.
  { do 2 eexists. split_and!; try done. eapply headroom_weaken; [exact Hh|lia]. }
  destruct (get (bindings r) (lease_key l)) as [[version phase|binding]|] eqn:Hk; [|done..].
  destruct (version =? lease_version l); cbn [negb]; [|done].
  set (b := set_entry _ _ _).
  assert (becomes (bindings r) (updated (bindings r) (lease_key l)
    (Some (Creating version Attempting))) b) as Hb.
  { eapply set_entry_spec; [apply H|done|done]. }
  destruct (wake_waiters_woken n (with_bindings b r) Hn Hh) as (r' & -> & Hr' & Hh').
  do 2 eexists. split_and!; [done|done| |].
  - rewrite Hr'. eapply affinity_inv_becomes; [done..|]. intros k t Ht.
    apply updated_token in Ht as [[-> Ht]|[_ ?]]; [|done]. by rewrite Hk.
  - rewrite Hr'. apply Hb.
Qed.

(** The creation of a lease's session, withdrawn when it is still current *)
Lemma remove_current_inv l r ls cs :
  affinity_inv (bindings r) (l :: ls) cs ->
  let r' := (remove_current l r).2 in
  affinity_inv (bindings r') ls cs /\ scheduler_epoch r' = scheduler_epoch r /\
  next_version (bindings r') = next_version (bindings r).
Proof.
  intros H. cbv zeta. unfold remove_current.
  assert (lease_active l = true) as -> by (by apply ai_active, Forall_cons in H as [? _]).
  cbn [negb]. destruct (lease_current (bindings r) l) eqn:Hc; cbn [snd with_bindings bindings
    scheduler_epoch].
  - destruct (remove_spec (bindings r) (lease_key l) (ai_store _ _ _ H)) as [_ Hb].
    split_and!; [|done|by apply Hb]. eapply consume_lease_inv; [done..|].
    intros k t Ht. apply updated_token in Ht as [[_ ?]|[? ?]]; [done|]. split; [done|]. by intros [].
  - split_and!; [|done|done]. eapply consume_lease_inv; [done|apply becomes_refl, H|].
    intros k t Ht. split; [done|]. intros [-> ->]. unfold lease_current in Hc.
    destruct (get (bindings r) (lease_key l)) as [[v phase|binding]|] eqn:E; simpl in Ht;
      [|by destruct (source binding) as [|[]]|done].
    simplify_eq. by rewrite Z.eqb_refl in Hc.
Qed.

Lemma lease_drop_inv n l r ls cs :
  0 <= n -> headroom (n + 1) (scheduler_epoch r) -> affinity_inv (bindings r) (l :: ls) cs ->
  exists r', lease_drop l r = Ret r' /\ headroom n (scheduler_epoch r') /\
    affinity_inv (bindings r') ls cs /\ next_version (bindings r') = next_version (bindings r).
Proof.
  intros Hn Hh H. unfold lease_drop.
  destruct (remove_current_inv l r ls cs H) as (H1 & H2 & H3).
  destruct (remove_current l r) as [removed r1]. cbn [snd] in *.
  rewrite <-H2 in Hh. destruct (wake_if_woken n removed r1 Hn Hh) as (r' & -> & Hr' & Hh').
  exists r'. by rewrite Hr'.
Qed.

Lemma release_for_wait_inv n l r ls cs :
  0 <= n -> headroom (n + 1) (scheduler_epoch r) -> affinity_inv (bindings r) (l :: ls) cs ->
  exists res r', release_for_wait l r = Ret (res, r') /\ headroom n (scheduler_epoch r') /\
    affinity_inv (bindings r') ls cs /\ next_version (bindings r') = next_version (bindings r).
Proof.
  intros Hn Hh H. unfold release_for_wait.
  destruct (remove_current_inv l r ls cs H) as (H1 & H2 & H3).
  destruct (remove_current l r) as [[] r1]; cbn [snd negb] in *; rewrite <-H2 in Hh.
  - destruct (wake_waiters_woken n r1 Hn Hh) as (r' & -> & Hr' & Hh').
    do 2 eexists. split; [done|]. by rewrite Hr'.
  - do 2 eexists. split_and!; [done| |done|done]. eapply headroom_weaken; [exact Hh|lia].
Qed.

Lemma session_entries_ok target t :
  continuation_footprint (Bound {| tb_target := target; last_seen_at := t; source := Session |}) = 0.
Proof. done. Qed.

Lemma lease_commit_inv n l target deadline t1 t2 t3 r ls cs :
  0 <= n -> headroom (n + 1) (scheduler_epoch r) -> affinity_inv (bindings r) (l :: ls) cs ->
  exists res r', lease_commit l target deadline t1 t2 t3 r = Ret (res, r') /\
    headroom n (scheduler_epoch r') /\ affinity_inv (bindings r') ls cs /\
    next_version (bindings r') = next_version (bindings r).
Proof.
  intros Hn Hh H. unfold lease_commit, commit_with_deadline.
  assert (forall e, exists res r', (lease_drop l r ≫= fun r'' => Ret (Err (A := unit) e, r'')) =
    Ret (A := result unit AffinityError * AffinityRegistry) (res, r') /\
    headroom n (scheduler_epoch r') /\ affinity_inv (bindings r') ls cs /\
    next_version (bindings r') = next_version (bindings r)) as Hfail.
  { intros e. destruct (lease_drop_inv n l r ls cs Hn Hh H) as (r' & -> & ?).
    by do 2 eexists. }
  destruct (past deadline t1); [apply Hfail|]. destruct (past deadline t2); [apply Hfail|].
  destruct (get (bindings r) (lease_key l)) as [[v [|]|binding]|] eqn:Hk; cbn [negb];
    try apply Hfail.
  destruct (v =? lease_version l) eqn:Ev; cbn [negb]; [|apply Hfail]. apply Z.eqb_eq in Ev.
  destruct (past deadline t3); [apply Hfail|].
  destruct (replace_spec (bindings r) (lease_key l) _ (Bound {| tb_target := target;
    last_seen_at := t1; source := Session |}) (ai_store _ _ _ H) Hk ltac:(simpl; lia))
    as (b' & Hb' & Hbc).
  rewrite Hb'. cbn [mbind outcome_bind].
  destruct (wake_waiters_woken n (with_bindings b' r) Hn Hh) as (r' & -> & Hr' & Hh').
  cbn [mbind outcome_bind]. do 2 eexists. split_and!; [done|done| |by rewrite Hr'; apply Hbc].
  rewrite Hr'. eapply consume_lease_inv; [done..|]. intros k t Ht.
  apply updated_token in Ht as [[_ ?]|[? ?]]; [done|]. split; [done|]. by intros [].
Qed.

(** A commit that succeeds replaces the entry of its session. *)
Lemma lease_commit_ok l target deadline t1 t2 t3 r r' :
  store_wf (bindings r) -> lease_commit l target deadline t1 t2 t3 r = Ret (Ok tt, r') ->
  exists b', becomes (bindings r) (updated (bindings r) (lease_key l)
      (Some (Bound {| tb_target := target; last_seen_at := t1; source := Session |}))) b' /\
    bindings r' = b'.
Proof.
  intros Hwf. unfold lease_commit, commit_with_deadline.
  assert (forall e r0, (lease_drop l r0 ≫= fun r'' => Ret (Err (A := unit) e, r'')) =
    Ret (A := result unit AffinityError * AffinityRegistry) (Ok tt, r') -> False) as Hf.
  { intros e r0. by destruct (lease_drop l r0). }
  destruct (past deadline t1); [by intros ?%Hf|]. destruct (past deadline t2); [by intros ?%Hf|].
  destruct (get (bindings r) (lease_key l)) as [[v [|]|binding]|] eqn:Hk; cbn [negb];
    try by intros ?%Hf.
  destruct (v =? lease_version l); cbn [negb]; [|by intros ?%Hf].
  destruct (past deadline t3); [by intros ?%Hf|].
  destruct (replace_spec (bindings r) (lease_key l) _ (Bound {| tb_target := target;
    last_seen_at := t1; source := Session |}) Hwf Hk ltac:(simpl; lia)) as (b' & Hb' & Hbc).
  rewrite Hb'. cbn [mbind outcome_bind]. unfold wake_waiters. cbn [with_bindings scheduler_epoch].
  destruct (advance (scheduler_epoch r)) as [e|]; [|done]. cbn. intros [= <-]. by exists b'.
Qed.

(** * Continuations keep the invariant *)

(** The size of a continuation state is a [usize]. *)
Definition state_ok (state : option ProtocolContinuationState) : Prop :=
  match state with Some s => 0 <= serialized_bytes s | None => True end.

Lemma ready_footprint target t state bytes :
  state_ok state -> checked_state_bytes state = Ok bytes ->
  0 <= continuation_footprint (Bound {| tb_target := target; last_seen_at := t;
         source := Continuation (Ready state) |}) <= MAX_BRIDGE_CONTINUATION_STATE_BYTES.
Proof.
  unfold checked_state_bytes. cbn [continuation_footprint source].
  destruct state as [st|]; cbn [state_ok]; intros Hs; [|by intros _].
  destruct (_ <=? _) eqn:E; [|done]. bool_to_prop. lia.
Qed.

Section ContinuationInvariant.

Context (order : gmap Z BindingState -> list SessionHash).
Context (order_keys : forall m k, k ∈ order m <-> is_Some (m !! k)).

Lemma remove_if_expired_inv b ls cs key now ttl :
  affinity_inv b ls cs ->
  let b' := (remove_if_expired key now ttl b).2 in
  affinity_inv b' ls cs /\ next_version b' = next_version b.
Proof.
  intros H. cbv zeta. unfold remove_if_expired. cbn [snd].
  destruct (get b key) as [x|]; [|done]. destruct (is_expired now ttl x); [|done].
  by destruct (remove_inv b ls cs key H) as (? & ? & _).
Qed.

Lemma bind_ready_pass_inv b ls cs key target state bytes now ttl deadline clock :
  affinity_inv b ls cs -> state_ok state -> checked_state_bytes state = Ok bytes ->
  let b' := (bind_ready_pass order key target state now ttl deadline clock b).2 in
  affinity_inv b' ls cs /\ next_version b' = next_version b.
Proof.
  intros H Hst Hck. cbv zeta. unfold bind_ready_pass. destruct (past _ _); [done|].
  destruct (remove_if_expired_inv b ls cs key now ttl H) as [H1 N1].
  set (b1 := (remove_if_expired key now ttl b).2) in *. rewrite <-N1. clearbody b1. clear H N1 b.
  destruct (get b1 key) as [[v phase|binding]|] eqn:Hk; [done| |].
  - destruct (negb _); [done|]. destruct (past _ _); [done|]. cbn [snd].
    assert (becomes b1 (updated b1 key (Some (Bound (seen_at (written_at clock) binding))))
      (set_entry key (Bound (seen_at (written_at clock) binding)) b1)) as Hb.
    { eapply set_entry_spec; [apply H1|done|done]. }
    split; [|apply Hb]. eapply affinity_inv_becomes; [done..|]. intros k t Ht.
    apply updated_token in Ht as [[-> Ht]|[_ ?]]; [|done]. by rewrite Hk.
  - destruct (reclaim_sample_inv order b1 ls cs (shard_index key) now ttl H1) as (H2 & N2 & D2).
    set (b2 := reclaim_expired_sample order (shard_index key) now ttl b1) in *.
    assert (get b2 key = None) as Hk2 by (destruct (D2 key) as [->| ->]; by rewrite Hk).
    destruct (past _ _); [by split|].
    pose proof (try_insert_spec b2 key (Bound {| tb_target := target;
      last_seen_at := written_at clock; source := Continuation (Ready state) |})
      (ai_store _ _ _ H2) Hk2 (ready_footprint _ _ _ _ Hst Hck)) as Hs.
    destruct (try_insert key _ b2) as [[[]|[]] b3]; cbn [snd].
    + split; [|rewrite (bc_version _ _ _ Hs); done]. eapply affinity_inv_becomes; [done..|].
      intros k t Ht. apply updated_token in Ht as [[_ ?]|[_ ?]]; done.
    + destruct Hs as [-> _]. by split.
    + destruct Hs as [Hs _]. split; [|rewrite (bc_version _ _ _ Hs); done].
      by eapply affinity_inv_becomes.
Qed.

Lemma bind_ready_inv b ls cs key target state ttl deadline t now c1 c2 :
  affinity_inv b ls cs -> state_ok state ->
  let b' := (bind_ready_continuation order key target state ttl deadline t now c1 c2 b).2 in
  affinity_inv b' ls cs /\ next_version b' = next_version b.
Proof.
  intros H Hst. cbv zeta. unfold bind_ready_continuation. destruct (past _ _); [done|].
  destruct (checked_state_bytes state) as [bytes|e] eqn:Hck; [|done].
  destruct (bind_ready_pass_inv b ls cs key target state bytes now ttl deadline c1 H Hst Hck)
    as [H1 N1].
  destruct (bind_ready_pass order key target state now ttl deadline c1 b) as [[[]|[e|rej]] b1];
    cbn [snd] in *; [done..|].
  unfold second_pass. destruct (reclaim_capacity_inv order order_keys b1 ls cs now ttl H1)
    as [H2 N2].
  destruct (reclaim_for_capacity order now ttl b1) as [[] b2]; cbn [snd negb] in *;
    [|split; [done|congruence]].
  destruct (bind_ready_pass_inv b2 ls cs key target state bytes now ttl deadline c2 H2 Hst Hck)
    as [H3 N3].
  destruct (bind_ready_pass order key target state now ttl deadline c2 b2) as [[[]|[e|rej']] b3];
    cbn [snd] in *; (split; [done|congruence]).
Qed.

(** A binding that succeeds leaves its entry, written by one of the passes. *)
Lemma bind_ready_pass_ok b key target state bytes now ttl deadline clock b' :
  store_wf b -> state_ok state -> checked_state_bytes state = Ok bytes ->
  bind_ready_pass order key target state now ttl deadline clock b = (Ok tt, b') ->
  get b' key = Some (Bound {| tb_target := target; last_seen_at := written_at clock;
                              source := Continuation (Ready state) |}) /\ store_wf b'.
Proof.
  intros Hb Hst Hck. unfold bind_ready_pass. destruct (past _ _); [done|].
  assert (store_wf (remove_if_expired key now ttl b).2) as H1.
  { unfold remove_if_expired. cbn [snd]. destruct (get b key) as [x|]; [|done].
    destruct (is_expired now ttl x); [|done].
    apply (bc_wf _ _ _ (proj2 (remove_spec b key Hb))). }
  set (b1 := (remove_if_expired key now ttl b).2) in *. clearbody b1. clear Hb b.
  destruct (get b1 key) as [[v phase|binding]|] eqn:Hk; [done| |].
  - destruct (negb _) eqn:Hid; [done|]. destruct (past _ _); [done|]. intros [= <-].
    assert (becomes b1 (updated b1 key (Some (Bound (seen_at (written_at clock) binding))))
      (set_entry key (Bound (seen_at (written_at clock) binding)) b1)) as Hb.
    { by eapply set_entry_spec. }
    split; [|apply Hb]. rewrite (bc_get _ _ _ Hb). unfold updated. rewrite decide_True by done.
    apply negb_false_iff, andb_true_iff in Hid as [Hid Hso].
    apply andb_true_iff in Hid as [Ht Hn]. apply bool_decide_eq_true in Ht.
    unfold seen_at. rewrite Ht. destruct state; [done|].
    by destruct (source binding) as [|[|[]]].
  - destruct (reclaim_expired_sample_spec order b1 (shard_index key) now ttl H1) as (f & Hf & Hd).
    set (b2 := reclaim_expired_sample order (shard_index key) now ttl b1) in *.
    assert (get b2 key = None) as Hk2.
    { rewrite (bc_get _ _ _ Hf). destruct (Hd key) as [->| ->]; by rewrite Hk. }
    destruct (past _ _); [done|].
    pose proof (try_insert_spec b2 key (Bound {| tb_target := target;
      last_seen_at := written_at clock; source := Continuation (Ready state) |})
      (bc_wf _ _ _ Hf) Hk2 (ready_footprint _ _ _ _ Hst Hck)) as Hs.
    destruct (try_insert key _ b2) as [[[]|[]] b3]; [|done..]. intros [= <-].
    split; [|apply Hs]. rewrite (bc_get _ _ _ Hs). unfold updated. by rewrite decide_True.
Qed.

Lemma bind_ready_pass_wf b key target state bytes now ttl deadline clock :
  store_wf b -> state_ok state -> checked_state_bytes state = Ok bytes ->
  store_wf (bind_ready_pass order key target state now ttl deadline clock b).2.
Proof.
  intros Hb Hst Hck. unfold bind_ready_pass. destruct (past _ _); [done|].
  assert (store_wf (remove_if_expired key now ttl b).2) as H1.
  { unfold remove_if_expired. cbn [snd]. destruct (get b key) as [x|]; [|done].
    destruct (is_expired now ttl x); [|done].
    apply (bc_wf _ _ _ (proj2 (remove_spec b key Hb))). }
  set (b1 := (remove_if_expired key now ttl b).2) in *. clearbody b1. clear Hb b.
  destruct (get b1 key) as [[v phase|binding]|] eqn:Hk; [done| |].
  - destruct (negb _); [done|]. destruct (past _ _); [done|]. cbn [snd].
    by eapply bc_wf, set_entry_spec.
  - destruct (reclaim_expired_sample_spec order b1 (shard_index key) now ttl H1) as (f & Hf & Hd).
    set (b2 := reclaim_expired_sample order (shard_index key) now ttl b1) in *.
    assert (get b2 key = None) as Hk2.
    { rewrite (bc_get _ _ _ Hf). destruct (Hd key) as [->| ->]; by rewrite Hk. }
    destruct (past _ _); [by apply Hf|].
    pose proof (try_insert_spec b2 key (Bound {| tb_target := target;
      last_seen_at := written_at clock; source := Continuation (Ready state) |})
      (bc_wf _ _ _ Hf) Hk2 (ready_footprint _ _ _ _ Hst Hck)) as Hs.
    destruct (try_insert key _ b2) as [[[]|[]] b3]; cbn [snd]; [by apply Hs| |by apply Hs].
    destruct Hs as [-> _]. apply Hf.
Qed.

Lemma bind_ready_ok b key target state ttl deadline t now c1 c2 b' :
  store_wf b -> state_ok state ->
  bind_ready_continuation order key target state ttl deadline t now c1 c2 b = (Ok tt, b') ->
  exists s, (s = written_at c1 \/ s = written_at c2) /\
    get b' key = Some (Bound {| tb_target := target; last_seen_at := s;
                                source := Continuation (Ready state) |}) /\ store_wf b'.
Proof.
  intros Hb Hst. unfold bind_ready_continuation. destruct (past _ _); [done|].
  destruct (checked_state_bytes state) as [bytes|e] eqn:Hck; [|done].
  pose proof (bind_ready_pass_wf b key target state bytes now ttl deadline c1 Hb Hst Hck) as H1.
  destruct (bind_ready_pass order key target state now ttl deadline c1 b) as [[[]|[e|rej]] b1]
    eqn:E1; cbn [snd] in *; [|done|].
  { intros [= <-]. exists (written_at c1). split; [by left|].
    exact (bind_ready_pass_ok _ _ _ _ _ _ _ _ _ _ Hb Hst Hck E1). }
  unfold second_pass. destruct (reclaim_for_capacity_spec order order_keys b1 now ttl H1)
    as (f & Hf & _).
  destruct (reclaim_for_capacity order now ttl b1) as [[] b2]; cbn [snd negb] in *; [|done].
  destruct (bind_ready_pass order key target state now ttl deadline c2 b2) as [[[]|[e|rej']] b3]
    eqn:E2; [|done..].
  intros [= <-]. exists (written_at c2). split; [by right|].
  exact (bind_ready_pass_ok _ _ _ _ _ _ _ _ _ _ (bc_wf _ _ _ Hf) Hst Hck E2).
Qed.

(** The lease of a begun continuation joins the leases. *)
Definition with_pending {E} (res : result ContinuationLease E) (cs : list ContinuationLease)
    : list ContinuationLease :=
  match res with Ok l => l :: cs | Err _ => cs end.

Lemma begin_pending_pass_inv b ls cs key target now ttl deadline clock :
  affinity_inv b ls cs -> next_version b < u64_max ->
  let '(res, b') := begin_pending_pass order key target now ttl deadline clock b in
  affinity_inv b' ls (with_pending res cs) /\ next_version b' <= next_version b + 1.
Proof.
  intros H Hv. unfold begin_pending_pass. destruct (past _ _); [split; [done|lia]|].
  destruct (remove_if_expired_inv b ls cs key now ttl H) as [H1 N1].
  set (b1 := (remove_if_expired key now ttl b).2) in *. rewrite <-N1 in *. clearbody b1. clear H N1 b.
  destruct (get b1 key) eqn:Hk; [split; [done|lia]|].
  destruct (reclaim_sample_inv order b1 ls cs (shard_index key) now ttl H1) as (H2 & N2 & D2).
  set (b2 := reclaim_expired_sample order (shard_index key) now ttl b1) in *.
  assert (get b2 key = None) as Hk2 by (destruct (D2 key) as [->| ->]; by rewrite Hk).
  destruct (past _ _); [split; [done|lia]|]. destruct (take_version b2) as [v b3] eqn:Ev.
  set (st := Bound _).
  assert (entries_ok st) as Hst by (unfold entries_ok; simpl; done).
  pose proof (fresh_version_inv b2 b3 v ls cs key st H2 ltac:(lia) Ev Hk2 Hst
    ltac:(exists (inr v); auto)) as Hf.
  destruct (try_insert key st b3) as [[[]|rej] b4]; cbn [with_pending]; cycle 1.
  { destruct Hf as [? ?]. split; [done|lia]. }
  destruct Hf as (F1 & F2 & F3 & -> & F4). split; [|lia].
  destruct H2 as [I1 I2 I3 I4 I5 I6 I7].
  match goal with |- affinity_inv _ _ (?c :: _) => set (l := c) end.
  assert (versions ls (l :: cs) ≡ₚ (next_version b2 + 1) :: versions ls cs) as Hp.
  { unfold versions. by rewrite fmap_cons, Permutation_middle. }
  split; [done|lia| |rewrite Hp|rewrite Hp|done|done].
  - intros k t. rewrite F3. intros Ht. apply updated_token in Ht as [[-> Ht]|[_ Ht]].
    + simplify_eq/=. exists l. split; [left|done].
    + apply I3 in Ht. destruct t; simpl in *; [done|].
      destruct Ht as (l' & Hl & ?). exists l'. split; [by right|done].
  - constructor; [lia|]. eapply Forall_impl; [exact I4|]. simpl. lia.
  - constructor; [|done]. intros Hin. rewrite Forall_forall in I4. specialize (I4 _ Hin).
    cbn beta in I4. lia.
Qed.

Lemma begin_pending_inv b ls cs key target ttl deadline t now c1 c2 :
  affinity_inv b ls cs -> next_version b + 1 < u64_max ->
  let '(res, b') :=
    begin_pending_continuation order key target ttl deadline t now c1 c2 b in
  affinity_inv b' ls (with_pending res cs) /\ next_version b' <= next_version b + 2.
Proof.
  intros H Hv. unfold begin_pending_continuation. destruct (past _ _); [split; [done|lia]|].
  pose proof (begin_pending_pass_inv b ls cs key target now ttl deadline c1 H ltac:(lia)) as H1.
  destruct (begin_pending_pass order key target now ttl deadline c1 b) as [[l|[e|rej]] b1];
    destruct H1 as [H1 N1]; cbn [with_pending] in *; try (split; [done|lia]).
  unfold second_pass. destruct (reclaim_capacity_inv order order_keys b1 ls cs now ttl H1)
    as [H2 N2].
  destruct (reclaim_for_capacity order now ttl b1) as [[] b2]; cbn [snd negb] in *;
    [|split; [done|lia]].
  pose proof (begin_pending_pass_inv b2 ls cs key target now ttl deadline c2 H2 ltac:(lia)) as H3.
  destruct (begin_pending_pass order key target now ttl deadline c2 b2) as [[l|[e|rej']] b3];
    destruct H3 as [H3 N3]; cbn [with_pending] in *; (split; [done|lia]).
Qed.

End ContinuationInvariant.

Lemma resolve_inv b ls cs key now ttl available :
  affinity_inv b ls cs ->
  let b' := (resolve_continuation key now ttl available b).2 in
  affinity_inv b' ls cs /\ next_version b' = next_version b.
Proof.
  intros H. cbv zeta. unfold resolve_continuation.
  destruct (get b key) as [[v phase|binding]|] eqn:Hk; [done| |done].
  destruct (source binding) as [|[v|state]] eqn:Hs; [done|done|].
  destruct (ttl <=? _); cbn [snd].
  { by destruct (remove_inv b ls cs key H) as (? & ? & _). }
  destruct (negb _); [done|]. cbn [snd].
  assert (becomes b (updated b key (Some (Bound (seen_at now binding))))
    (set_entry key (Bound (seen_at now binding)) b)) as Hb.
  { eapply set_entry_spec; [apply H|done|done]. }
  split; [|apply Hb]. eapply affinity_inv_becomes; [done..|]. intros k t Ht.
  apply updated_token in Ht as [[-> Ht]|[_ ?]]; [|done]. by rewrite Hk.
Qed.

Lemma continuation_ready_inv n l state deadline t1 t2 t3 r ls cs :
  0 <= n -> headroom (n + 1) (scheduler_epoch r) -> state_ok state ->
  affinity_inv (bindings r) ls (l :: cs) ->
  exists res l' r', continuation_ready l state deadline t1 t2 t3 r = Ret (res, l', r') /\
    headroom n (scheduler_epoch r') /\ affinity_inv (bindings r') ls (l' :: cs) /\
    next_version (bindings r') = next_version (bindings r).
Proof.
  intros Hn Hh Hst H. unfold continuation_ready.
  assert (forall e, exists res l' r', Ret (Err e, l, r) =
    Ret (A := result unit AffinityError * ContinuationLease * AffinityRegistry) (res, l', r') /\
    headroom n (scheduler_epoch r') /\ affinity_inv (bindings r') ls (l' :: cs) /\
    next_version (bindings r') = next_version (bindings r)) as Hfail.
  { intros e. do 3 eexists. split_and!; try done. eapply headroom_weaken; [exact Hh|lia]. }
  destruct (past deadline t1); [apply Hfail|].
  destruct (checked_state_bytes state) as [bytes|e] eqn:Hck; [|apply Hfail].
  destruct (past deadline t2); [apply Hfail|].
  destruct (negb _) eqn:Hm; [apply Hfail|]. apply negb_false_iff, andb_true_iff in Hm as [_ Hm].
  unfold pending_current in Hm.
  destruct (get (bindings r) (cl_key l)) as [[|binding]|] eqn:Hk; [done| |done].
  destruct (source binding) as [|[v|]] eqn:Hs; [done| |done]. apply Z.eqb_eq in Hm.
  assert (0 <= continuation_footprint (Bound {| tb_target := cl_target l; last_seen_at := t3;
    source := Continuation (Ready state) |}) <= continuation_footprint (Bound binding)) as Hfp.
  { pose proof (ready_footprint (cl_target l) t3 state bytes Hst Hck) as Hr.
    assert (continuation_footprint (Bound binding) = MAX_BRIDGE_CONTINUATION_STATE_BYTES) as ->
      by (cbn [continuation_footprint]; by rewrite Hs). exact Hr. }
  destruct (replace_spec (bindings r) (cl_key l) _ _ (ai_store _ _ _ H) Hk Hfp)
    as (b' & Hb' & Hbc).
  rewrite Hb'. cbn [mbind outcome_bind].
  destruct (wake_waiters_woken n (with_bindings b' r) Hn Hh) as (r' & -> & Hr' & Hh').
  cbn [mbind outcome_bind]. do 3 eexists. split_and!; [done|done| |by rewrite Hr'; apply Hbc].
  rewrite Hr'. eapply consume_continuation_inv; [done..| |done]. intros k t Ht.
  apply updated_token in Ht as [[_ ?]|[? ?]]; [done|]. split; [done|]. by intros [].
Qed.

Lemma continuation_drop_inv n l r ls cs :
  0 <= n -> headroom (n + 1) (scheduler_epoch r) -> affinity_inv (bindings r) ls (l :: cs) ->
  exists r', continuation_drop l r = Ret r' /\ headroom n (scheduler_epoch r') /\
    affinity_inv (bindings r') ls cs /\ next_version (bindings r') = next_version (bindings r).
Proof.
  intros Hn Hh H. unfold continuation_drop.
  destruct (cl_active l) eqn:Ha; cbn [negb]; cycle 1.
  { exists r. split_and!; [done|eapply headroom_weaken; [exact Hh|lia]| |done].
    eapply (consume_continuation_inv _ (get (bindings r)));
      [exact H|apply becomes_refl, H|]. intros k t Ht. split; [done|]. intros [-> ->].
    destruct (ai_owned _ _ _ H _ _ Ht) as (l' & Hin & Hk & Hv & Ha').
    apply elem_of_cons in Hin as [->|Hin]; [congruence|].
    pose proof (ai_distinct _ _ _ H) as Hd. unfold versions in Hd. rewrite fmap_cons in Hd.
    rewrite <-Permutation_middle in Hd. apply NoDup_cons in Hd as [Hd _]. apply Hd, elem_of_app.
    right. apply list_elem_of_fmap. by exists l'. }
  destruct (pending_current (bindings r) l) eqn:Hc.
  - destruct (remove_spec (bindings r) (cl_key l) (ai_store _ _ _ H)) as [_ Hb].
    destruct (wake_waiters_woken n (with_bindings (remove (cl_key l) (bindings r)).2 r) Hn Hh)
      as (r' & -> & Hr' & Hh').
    exists r'. rewrite Hr'. split_and!; [done|done| |apply Hb].
    eapply consume_continuation_inv; [done..|]. intros k t Ht.
    apply updated_token in Ht as [[_ ?]|[? ?]]; [done|]. split; [done|]. by intros [].
  - exists r. split_and!; [done|eapply headroom_weaken; [exact Hh|lia]| |done].
    eapply (consume_continuation_inv _ (get (bindings r))); [exact H|apply becomes_refl, H|].
    intros k t Ht. split; [done|]. intros [-> ->]. unfold pending_current in Hc.
    destruct (get (bindings r) (cl_key l)) as [[v phase|binding]|]; [done| |done].
    simpl in Ht. destruct (source binding) as [|[v|]]; [done| |done].
    simplify_eq. by rewrite Z.eqb_refl in Hc.
Qed.

(** * Clearing keeps the invariant *)

Lemma existsb_map_to_list (p : BindingState -> bool) (m : gmap Z BindingState) :
  existsb (fun kx => p kx.2) (map_to_list m) = true <->
  exists k x, m !! k = Some x /\ p x = true.
Proof.
  rewrite existsb_exists. split.
  - intros ([k x] & Hin & Hp). apply list_elem_of_In, elem_of_map_to_list in Hin. by exists k, x.
  - intros (k & x & Hk & Hp). exists (k, x). split; [|done].
    by apply list_elem_of_In, elem_of_map_to_list.
Qed.

Lemma clear_all_fold idx n w b :
  store_wf b -> (forall i, i ∈ idx -> (i < Z.to_nat SHARD_COUNT)%nat) ->
  let '(_, w', b') :=
    foldl (fun '(cleared, waiting, b) i =>
             let waiting := waiting || existsb (fun kx => waits kx.2) (map_to_list (shard_at b i)) in
             let '(n, b) := clear i b in (cleared + n, waiting, b)) (n, w, b) idx in
  becomes b (fun k => if decide (shard_index k ∈ idx) then None else get b k) b' /\
  (w' = true <-> w = true \/
     exists k x, shard_index k ∈ idx /\ get b k = Some x /\ waits x = true).
Proof.
  revert n w b. induction idx as [|i idx IH]; intros n w b Hb Hi; cbn [foldl].
  { split.
    - eapply becomes_ext; [by apply becomes_refl|]. intros k. by rewrite decide_False
        by apply not_elem_of_nil.
    - split; [by left|]. intros [|(k & x & Hk & _)]; [done|]. by apply not_elem_of_nil in Hk. }
  pose proof (clear_spec b i Hb (Hi i ltac:(left))) as Hc.
  destruct (clear i b) as [c b1]. cbn [snd] in Hc. cbv zeta.
  specialize (IH (n + c) (w || existsb (fun kx => waits kx.2) (map_to_list (shard_at b i))) b1
    (bc_wf _ _ _ Hc) ltac:(intros; apply Hi; by right)).
  destruct (foldl _ _ idx) as [[n' w'] b']. destruct IH as [I1 I2]. split.
  - eapply becomes_ext; [eapply becomes_trans; [exact Hc|exact I1]|]. intros k. cbn beta.
    rewrite (bc_get _ _ _ Hc).
    destruct (decide (shard_index k ∈ idx)); [by rewrite decide_True by (by right)|].
    case_decide; subst; [by rewrite decide_True by left|].
    rewrite decide_False; [done|]. by apply not_elem_of_cons.
  - rewrite I2, orb_true_iff, existsb_map_to_list. split.
    + intros [[Hw|(k & x & Hk & Hx)]|(k & x & Hk & Hx & Hp)]; [by left|right|right].
      * exists k, x. split_and!; [|by eapply shard_at_get|done].
        rewrite <-(sb_home _ Hb i k) by (by eexists). left.
      * rewrite (bc_get _ _ _ Hc) in Hx. case_decide; [done|]. exists k, x. by split_and!; [right|..].
    + intros [Hw|(k & x & Hk & Hx & Hp)]; [by left; left|].
      destruct (decide (shard_index k = i)) as [Hki|Hki].
      * left. right. exists k, x. unfold get in Hx. by rewrite Hki in Hx.
      * right. exists k, x. apply elem_of_cons in Hk as [Hk|Hk]; [done|].
        split_and!; [done| |done]. rewrite (bc_get _ _ _ Hc). by rewrite decide_False.
Qed.

Lemma all_shards k : shard_index k ∈ seq 0 (Z.to_nat SHARD_COUNT).
Proof. apply elem_of_seq. pose proof (shard_index_bound k). lia. Qed.

(** Clearing everything leaves nothing, and wakes the waiters there were. *)
Lemma clear_all_spec m r :
  0 <= m -> headroom (m + 1) (scheduler_epoch r) -> store_wf (bindings r) ->
  exists n r', clear_all r = Ret (n, r') /\ headroom m (scheduler_epoch r') /\
    becomes (bindings r) (fun _ => None) (bindings r') /\
    ((exists k x, get (bindings r) k = Some x /\ waits x = true) ->
     current (scheduler_epoch r) < current (scheduler_epoch r')).
Proof.
  intros Hm Hh Hb. unfold clear_all.
  pose proof (clear_all_fold (seq 0 (Z.to_nat SHARD_COUNT)) 0 false (bindings r) Hb
    ltac:(intros i Hi; apply elem_of_seq in Hi; lia)) as Hf.
  destruct (foldl _ _ _) as [[n w] b]. destruct Hf as [F1 F2].
  destruct (wake_if_woken m w (with_bindings b r) Hm Hh) as (r' & Hr & Hr' & Hh').
  rewrite Hr. cbn [mbind outcome_bind]. exists n, r'. split_and!; [done|done| |].
  - rewrite Hr'. eapply becomes_ext; [exact F1|]. intros k. cbn beta.
    by rewrite decide_True by apply all_shards.
  - intros (k & x & Hk & Hp).
    assert (w = true) as ->. { apply F2. right. exists k, x. split; [apply all_shards|done]. }
    cbn [wake_if wake_waiters] in Hr. unfold wake_waiters in Hr. cbn [with_bindings scheduler_epoch] in Hr.
    destruct (advance (scheduler_epoch r)) as [e|] eqn:He; [|done]. cbn in Hr. simplify_eq.
    by apply advance_current in He.
Qed.

(** An entry, unless it is bound to [credential]. *)
Definition without_credential (credential : Z + Z) (o : option BindingState)
    : option BindingState :=
  match o with
  | Some entry => if bound_to_credential credential entry then None else Some entry
  | None => None
  end.

Section ClearingInvariant.

Context (order : gmap Z BindingState -> list SessionHash).
Context (order_keys : forall m k, k ∈ order m <-> is_Some (m !! k)).

Lemma clear_credential_shard_spec credential i b :
  store_wf b ->
  let '(_, w, b') := clear_credential_shard order credential i b in
  becomes b
    (fun k => if decide (shard_index k = i) then without_credential credential (get b k)
              else get b k) b' /\
  (forall k x, shard_index k = i -> get b k = Some x -> bound_to_credential credential x = true ->
     waits x = true -> w = true).
Proof.
  intros Hb. unfold clear_credential_shard.
  assert (forall k x, shard_index k = i -> get b k = Some x ->
    bound_to_credential credential x = true ->
    k ∈ select_keys (bound_to_credential credential) (shard_at b i) (order (shard_at b i))) as Hsel.
  { intros k x Hi Hx Hp. apply elem_of_select_keys. unfold get in Hx. rewrite Hi in Hx.
    split; [apply order_keys; by eexists|by exists x]. }
  split.
  - eapply becomes_ext; [by apply remove_keys_spec|]. intros k. cbn beta.
    destruct (decide (k ∈ _)) as [Hin|Hin].
    + apply elem_of_select_keys in Hin as [_ (x & Hx & Hp)].
      rewrite decide_True by (symmetry; apply (sb_home _ Hb); by eexists).
      rewrite (shard_at_get _ _ _ _ Hb Hx). simpl. by rewrite Hp.
    + case_decide as Hi; [|done]. unfold without_credential.
      destruct (get b k) as [x|] eqn:Hx; [|done].
      destruct (bound_to_credential credential x) eqn:Hp; [|done]. destruct Hin. by eapply Hsel.
  - intros k x Hi Hx Hp Hw. apply existsb_exists. exists k.
    split; [by eapply list_elem_of_In, Hsel|]. unfold pending_at. rewrite Hx. by destruct x.
Qed.

Lemma clear_credential_fold credential idx n w b :
  store_wf b ->
  let '(_, w', b') :=
    foldl (fun '(cleared, waiting, b) i =>
             let '(n, w, b) := clear_credential_shard order credential i b in
             (cleared + n, waiting || w, b)) (n, w, b) idx in
  becomes b
    (fun k => if decide (shard_index k ∈ idx) then without_credential credential (get b k)
              else get b k) b' /\
  (w = true -> w' = true) /\
  (forall k x, shard_index k ∈ idx -> get b k = Some x ->
     bound_to_credential credential x = true -> waits x = true -> w' = true).
Proof.
  revert n w b. induction idx as [|i idx IH]; intros n w b Hb; cbn [foldl].
  { split_and!; [|done|by intros k x Hk; apply not_elem_of_nil in Hk].
    eapply becomes_ext; [by apply becomes_refl|]. intros k. by rewrite decide_False
      by apply not_elem_of_nil. }
  pose proof (clear_credential_shard_spec credential i b Hb) as Hc.
  destruct (clear_credential_shard order credential i b) as [[c w1] b1].
  destruct Hc as [Hc Hw1]. specialize (IH (n + c) (w || w1) b1 (bc_wf _ _ _ Hc)).
  destruct (foldl _ _ idx) as [[n' w'] b']. destruct IH as (I1 & I2 & I3).
  assert (forall o, without_credential credential (without_credential credential o) =
    without_credential credential o) as Hid.
  { intros [x|]; [|done]. simpl. destruct (bound_to_credential credential x) eqn:E; [done|].
    simpl. by rewrite E. }
  split_and!.
  - eapply becomes_ext; [eapply becomes_trans; [exact Hc|exact I1]|]. intros k. cbn beta.
    rewrite (bc_get _ _ _ Hc). destruct (decide (shard_index k ∈ idx)).
    + rewrite (decide_True (P := shard_index k ∈ i :: idx)) by (by right).
      case_decide; [apply Hid|done].
    + case_decide; subst; [by rewrite decide_True by left|].
      rewrite decide_False; [done|]. by apply not_elem_of_cons.
  - intros ->. by apply I2.
  - intros k x Hk Hx Hp Hw. destruct (decide (shard_index k = i)) as [Hi|Hi].
    + apply I2. rewrite (Hw1 k x Hi Hx Hp Hw). by rewrite orb_true_r.
    + apply elem_of_cons in Hk as [Hk|Hk]; [done|]. eapply I3; [done| |done..].
      rewrite (bc_get _ _ _ Hc). by rewrite decide_False.
Qed.

(** Clearing a credential leaves exactly what is not bound to it, and wakes the
    waiters of what it removes. *)
Lemma clear_credential_spec m credential r :
  0 <= m -> headroom (m + 1) (scheduler_epoch r) -> store_wf (bindings r) ->
  exists n r', clear_credential order credential r = Ret (n, r') /\
    headroom m (scheduler_epoch r') /\
    becomes (bindings r) (fun k => without_credential credential (get (bindings r) k))
      (bindings r') /\
    ((exists k x, get (bindings r) k = Some x /\ bound_to_credential credential x = true /\
        waits x = true) -> current (scheduler_epoch r) < current (scheduler_epoch r')).
Proof.
  intros Hm Hh Hb. unfold clear_credential.
  pose proof (clear_credential_fold credential (seq 0 (Z.to_nat SHARD_COUNT)) 0 false
    (bindings r) Hb) as Hf.
  destruct (foldl _ _ _) as [[n w] b]. destruct Hf as (F1 & _ & F3).
  destruct (wake_if_woken m w (with_bindings b r) Hm Hh) as (r' & Hr & Hr' & Hh').
  rewrite Hr. cbn [mbind outcome_bind]. exists n, r'. split_and!; [done|done| |].
  - rewrite Hr'. eapply becomes_ext; [exact F1|]. intros k. cbn beta.
    by rewrite decide_True by apply all_shards.
  - intros (k & x & Hk & Hp & Hw).
    assert (w = true) as -> by (eapply F3; [apply all_shards|done..]).
    cbn [wake_if] in Hr. unfold wake_waiters in Hr. cbn [with_bindings scheduler_epoch] in Hr.
    destruct (advance (scheduler_epoch r)) as [e|] eqn:He; [|done]. cbn in Hr. simplify_eq.
    by apply advance_current in He.
Qed.

Lemma without_credential_token credential o t :
  without_credential credential o ≫= token = Some t -> o ≫= token = Some t.
Proof. destruct o as [x|]; [|done]. simpl. by destruct (bound_to_credential credential x). Qed.

Lemma sweep_inv now ttl b ls cs :
  affinity_inv b ls cs ->
  affinity_inv (sweep_expired order now ttl b).2 ls cs /\
  next_version (sweep_expired order now ttl b).2 = next_version b.
Proof.
  intros H. pose proof (remove_expired_all_spec order order_keys b now ttl (ai_store _ _ _ H)) as Hb.
  split; [|apply Hb]. eapply affinity_inv_becomes; [done..|]. intros k t.
  apply (drops_expired_token now ttl b (fun k => unexpired now ttl (get b k))). by right.
Qed.

(** An inspection removes what expired, and nothing else. *)
Lemma snapshot_becomes now ttl enabled b idx s :
  store_wf b ->
  becomes b
    (fun k => if decide (shard_index k ∈ idx) then unexpired now ttl (get b k) else get b k)
    (foldl (fun '(s, b) i =>
       let '(_, b) := remove_expired order i now ttl b in
       if negb enabled then (s, b)
       else ({| active_session_count :=
                  active_session_count s + count_entries is_session (shard_at b i);
                creating_session_count :=
                  creating_session_count s + count_entries is_creating (shard_at b i) |}, b))
       (s, b) idx).2.
Proof.
  intros Hb. pose proof (for_each_expired_spec order order_keys b now ttl idx 0 Hb) as H.
  assert (forall n s b, (foldl (fun '(s, b) i =>
       let '(_, b) := remove_expired order i now ttl b in
       if negb enabled then (s, b)
       else ({| active_session_count :=
                  active_session_count s + count_entries is_session (shard_at b i);
                creating_session_count :=
                  creating_session_count s + count_entries is_creating (shard_at b i) |}, b))
       (s, b) idx).2 =
    (foldl (fun '(n, b) i => let '(k, b') := remove_expired order i now ttl b in (n + k, b'))
       (n, b) idx).2) as Heq; [|rewrite (Heq 0); exact H].
  clear. induction idx as [|i idx IH]; intros n s b; [done|]. cbn [foldl].
  destruct (remove_expired order i now ttl b) as [k b']. destruct (negb enabled); apply IH.
Qed.

Lemma snapshot_inv now ttl enabled b ls cs :
  affinity_inv b ls cs ->
  affinity_inv (affinity_snapshot order now ttl enabled b).2 ls cs /\
  next_version (affinity_snapshot order now ttl enabled b).2 = next_version b.
Proof.
  intros H. pose proof (snapshot_becomes now ttl enabled b (seq 0 (Z.to_nat SHARD_COUNT))
    {| active_session_count := 0; creating_session_count := 0 |} (ai_store _ _ _ H)) as Hb.
  split; [|apply Hb]. eapply affinity_inv_becomes; [done..|]. intros k t. cbn beta.
  rewrite decide_True by apply all_shards.
  apply (drops_expired_token now ttl b (fun k => unexpired now ttl (get b k))). by right.
Qed.

End ClearingInvariant.

(** * Runs *)

(** A registry with the leases given out and not yet consumed. *)
Record world := {
  w_registry : AffinityRegistry;
  w_leases : list BindingLease;
  w_pending : list ContinuationLease
}.

(** The operations, each with the clock readings it takes; leases by position. *)
Inductive affinity_op :=
| OBegin (key : SessionHash) (now : Instant) (ttl : Duration)
| OMark (i : nat)
| ORelease (i : nat)
| OCommit (i : nat) (target : AffinityTarget) (deadline : option Instant) (t1 t2 t3 : Instant)
| ODrop (i : nat)
| OResolve (key : SessionHash) (now : Instant) (ttl : Duration)
    (available : AffinityTarget -> bool)
| OBindReady (key : SessionHash) (target : AffinityTarget)
    (state : option ProtocolContinuationState) (ttl : Duration) (deadline : option Instant)
    (checked_at now : Instant) (first second : PassClock)
| OBeginPending (key : SessionHash) (target : AffinityTarget) (ttl : Duration)
    (deadline : option Instant) (checked_at now : Instant) (first second : PassClock)
| OReady (i : nat) (state : option ProtocolContinuationState) (deadline : option Instant)
    (t1 t2 t3 : Instant)
| ODropPending (i : nat)
| OClearAll
| OClearCredential (credential : Z + Z)
| OSweep (now : Instant) (ttl : Duration)
| OSnapshot (now : Instant) (ttl : Duration) (enabled : bool).

Definition op_ok (op : affinity_op) : Prop :=
  match op with
  | OBindReady _ _ state _ _ _ _ _ _ | OReady _ state _ _ _ _ => state_ok state
  | _ => True
  end.

Section Runs.

Context (order : gmap Z BindingState -> list SessionHash).

Definition on_table (w : world) (b : ShardedBindings) : world :=
  {| w_registry := with_bindings b (w_registry w); w_leases := w_leases w;
     w_pending := w_pending w |}.
Definition on_registry (w : world) (r : AffinityRegistry) : world :=
  {| w_registry := r; w_leases := w_leases w; w_pending := w_pending w |}.
Definition drop_lease (i : nat) (w : world) (r : AffinityRegistry) : world :=
  {| w_registry := r; w_leases := list_delete i (w_leases w); w_pending := w_pending w |}.

Definition affinity_apply (op : affinity_op) (w : world) : outcome world :=
  let r := w_registry w in
  let b := bindings r in
  match op with
  | OBegin key now ttl =>
      let '(res, b) := begin_session order key now ttl b in
      Ret {| w_registry := with_bindings b r;
             w_leases := match res with Ok (Create l) => l :: w_leases w | _ => w_leases w end;
             w_pending := w_pending w |}
  | OMark i =>
      match w_leases w !! i with
      | None => Ret w
      | Some l => mark_attempting l r ≫= fun '(_, r) => Ret (on_registry w r)
      end
  | ORelease i =>
      match w_leases w !! i with
      | None => Ret w
      | Some l => release_for_wait l r ≫= fun '(_, r) => Ret (drop_lease i w r)
      end
  | OCommit i target deadline t1 t2 t3 =>
      match w_leases w !! i with
      | None => Ret w
      | Some l => lease_commit l target deadline t1 t2 t3 r ≫= fun '(_, r) =>
                  Ret (drop_lease i w r)
      end
  | ODrop i =>
      match w_leases w !! i with
      | None => Ret w
      | Some l => lease_drop l r ≫= fun r => Ret (drop_lease i w r)
      end
  | OResolve key now ttl available => Ret (on_table w (resolve_continuation key now ttl available b).2)
  | OBindReady key target state ttl deadline t now c1 c2 =>
      Ret (on_table w (bind_ready_continuation order key target state ttl deadline t now c1 c2 b).2)
  | OBeginPending key target ttl deadline t now c1 c2 =>
      let '(res, b) := begin_pending_continuation order key target ttl deadline t now c1 c2 b in
      Ret {| w_registry := with_bindings b r; w_leases := w_leases w;
             w_pending := with_pending res (w_pending w) |}
  | OReady i state deadline t1 t2 t3 =>
      match w_pending w !! i with
      | None => Ret w
      | Some l => continuation_ready l state deadline t1 t2 t3 r ≫= fun '(_, l, r) =>
                  Ret {| w_registry := r; w_leases := w_leases w;
                         w_pending := l :: list_delete i (w_pending w) |}
      end
  | ODropPending i =>
      match w_pending w !! i with
      | None => Ret w
      | Some l => continuation_drop l r ≫= fun r =>
                  Ret {| w_registry := r; w_leases := w_leases w;
                         w_pending := list_delete i (w_pending w) |}
      end
  | OClearAll => clear_all r ≫= fun '(_, r) => Ret (on_registry w r)
  | OClearCredential credential =>
      clear_credential order credential r ≫= fun '(_, r) => Ret (on_registry w r)
  | OSweep now ttl => Ret (on_table w (sweep_expired order now ttl b).2)
  | OSnapshot now ttl enabled => Ret (on_table w (affinity_snapshot order now ttl enabled b).2)
  end.

Fixpoint affinity_run (ops : list affinity_op) (w : world) : outcome world :=
  match ops with
  | [] => Ret w
  | op :: ops => affinity_apply op w ≫= affinity_run ops
  end.

Definition world_inv (n : Z) (w : world) : Prop :=
  affinity_inv (bindings (w_registry w)) (w_leases w) (w_pending w) /\
  headroom n (scheduler_epoch (w_registry w)) /\
  next_version (bindings (w_registry w)) + 2 * n < u64_max.

Context (order_keys : forall m k, k ∈ order m <-> is_Some (m !! k)).

Lemma world_new_inv n e now :
  headroom n e -> 2 * n < u64_max ->
  world_inv n {| w_registry := registry_new e now; w_leases := []; w_pending := [] |}.
Proof.
  intros Hh Hn. split_and!; [|done|by simpl; lia].
  assert (forall key, get (bindings (registry_new e now)) key = None) as Hg.
  { intros key. unfold get, shard_at. cbn [bindings registry_new sharded_new shards].
    destruct (replicate _ _ !! _) eqn:E; [|done]. by apply lookup_replicate in E as [-> _]. }
  split; try done; [by apply sharded_new_wf| |by constructor].
  intros key t. rewrite Hg. done.
Qed.

(** A step uses at most one wake-up and two versions. *)
Lemma affinity_apply_inv n op w :
  0 <= n -> op_ok op -> world_inv (n + 1) w ->
  exists w', affinity_apply op w = Ret w' /\ world_inv n w'.
Proof.
  intros Hn Hop (H & Hh & Hv).
  assert (headroom n (scheduler_epoch (w_registry w))) as Hh'
    by (eapply headroom_weaken; [exact Hh|lia]).
  assert (forall b, affinity_inv b (w_leases w) (w_pending w) ->
    next_version b = next_version (bindings (w_registry w)) ->
    exists w', Ret (on_table w b) = Ret w' /\ world_inv n w') as Htable.
  { intros b Hb Hvb. eexists. split; [done|]. split_and!; [done|done|simpl; lia]. }
  assert (exists w', Ret w = Ret w' /\ world_inv n w') as Hsame.
  { eexists. split; [done|]. split_and!; [done|done|lia]. }
  destruct op; unfold affinity_apply.
  - pose proof (begin_session_inv order order_keys _ _ _ key now ttl H ltac:(lia)) as Hb.
    destruct (begin_session order key now ttl _) as [[[l| |]|e] b]; destruct Hb as [Hb Hvb];
      (eexists; split; [done|]; split_and!; [done|done|simpl; lia]).
  - destruct (w_leases w !! i) as [l|] eqn:Hl; [|done].
    destruct (mark_attempting_inv n l _ _ _ Hn Hh H) as (res & r & -> & R1 & R2 & R3).
    eexists. split; [done|]. split_and!; [done|done|simpl; lia].
  - destruct (w_leases w !! i) as [l|] eqn:Hl; [|done].
    eapply affinity_inv_perm in H; [|by apply delete_Permutation|done].
    destruct (release_for_wait_inv n l _ _ _ Hn Hh H) as (res & r & -> & R1 & R2 & R3).
    eexists. split; [done|]. split_and!; [done|done|simpl; lia].
  - destruct (w_leases w !! i) as [l|] eqn:Hl; [|done].
    eapply affinity_inv_perm in H; [|by apply delete_Permutation|done].
    destruct (lease_commit_inv n l target deadline t1 t2 t3 _ _ _ Hn Hh H)
      as (res & r & -> & R1 & R2 & R3).
    eexists. split; [done|]. split_and!; [done|done|simpl; lia].
  - destruct (w_leases w !! i) as [l|] eqn:Hl; [|done].
    eapply affinity_inv_perm in H; [|by apply delete_Permutation|done].
    destruct (lease_drop_inv n l _ _ _ Hn Hh H) as (r & -> & R1 & R2 & R3).
    eexists. split; [done|]. split_and!; [done|done|simpl; lia].
  - destruct (resolve_inv _ _ _ key now ttl available H). by apply Htable.
  - destruct (bind_ready_inv order order_keys _ _ _ key target state ttl deadline checked_at now
      first second H Hop). by apply Htable.
  - pose proof (begin_pending_inv order order_keys _ _ _ key target ttl deadline checked_at now
      first second H ltac:(lia)) as Hb.
    destruct (begin_pending_continuation order key target ttl deadline checked_at now first second _)
      as [res b]. destruct Hb as [Hb Hvb].
    eexists. split; [done|]. split_and!; [done|done|simpl; lia].
  - destruct (w_pending w !! i) as [l|] eqn:Hl; [|done].
    eapply affinity_inv_perm in H; [|done|by apply delete_Permutation].
    destruct (continuation_ready_inv n l state deadline t1 t2 t3 _ _ _ Hn Hh Hop H)
      as (res & l' & r & -> & R1 & R2 & R3).
    eexists. split; [done|]. split_and!; [done|done|simpl; lia].
  - destruct (w_pending w !! i) as [l|] eqn:Hl; [|done].
    eapply affinity_inv_perm in H; [|done|by apply delete_Permutation].
    destruct (continuation_drop_inv n l _ _ _ Hn Hh H) as (r & -> & R1 & R2 & R3).
    eexists. split; [done|]. split_and!; [done|done|simpl; lia].
  - destruct (clear_all_spec n _ Hn Hh (ai_store _ _ _ H)) as (k & r & -> & R1 & R2 & _).
    eexists. split; [done|].
    split_and!; [|done|simpl; rewrite (bc_version _ _ _ R2); lia].
    by eapply affinity_inv_becomes.
  - destruct (clear_credential_spec order order_keys n credential _ Hn Hh (ai_store _ _ _ H))
      as (k & r & -> & R1 & R2 & _).
    eexists. split; [done|].
    split_and!; [|done|simpl; rewrite (bc_version _ _ _ R2); lia].
    eapply affinity_inv_becomes; [done..|]. intros key t. apply without_credential_token.
  - destruct (sweep_inv order order_keys now ttl _ _ _ H). by apply Htable.
  - destruct (snapshot_inv order order_keys now ttl enabled _ _ _ H). by apply Htable.
Qed.

Lemma affinity_run_inv ops n w :
  0 <= n -> Forall op_ok ops -> world_inv (n + Zlen ops) w ->
  exists w', affinity_run ops w = Ret w' /\ world_inv n w'.
Proof.
  intros Hn Hops. revert w. induction Hops as [|op ops Hop Hops IH]; intros w H.
  { exists w. split; [done|]. unfold Zlen in H. simpl in H. by rewrite Z.add_0_r in H. }
  destruct (affinity_apply_inv (n + Zlen ops) op w) as (w1 & H1 & I1);
    [unfold Zlen; lia|done| |].
  { unfold Zlen in *. simpl in H.
    by replace (n + Z.of_nat (length ops) + 1) with (n + Z.of_nat (S (length ops))) by lia. }
  destruct (IH w1 I1) as (w2 & H2 & I2). exists w2. split; [|done].
  cbn [affinity_run]. rewrite H1. exact H2.
Qed.

End Runs.

Definition world_new (e : SchedulerEpoch) (now : Instant) : world :=
  {| w_registry := registry_new e now; w_leases := []; w_pending := [] |}.

Definition iterates (order : gmap Z BindingState -> list SessionHash) : Prop :=
  forall m k, k ∈ order m <-> is_Some (m !! k).

(** C25. The accounting of the bindings is exact: after any sequence of
    operations (sessions begun, attempted, committed, released and dropped,
    continuations bound, resolved and dropped, clearing, sweeping and
    inspection), none of which panics, the entry counter is the number of
    entries of the table and the byte counter the sum of the footprints of its
    continuations, both without wrap-around and within their limits. *)
Theorem affinity_accounting_exact order ops e now :
  iterates order -> Forall op_ok ops -> headroom (Zlen ops) e -> 2 * Zlen ops < u64_max ->
  exists w, affinity_run order ops (world_new e now) = Ret w /\
    let b := bindings (w_registry w) in
    entry_count b = total (fun _ => 1) (shards b) /\ entry_count b <= MAX_BINDINGS /\
    continuation_bytes b = total continuation_footprint (shards b) /\
    continuation_bytes b <= MAX_BRIDGE_CONTINUATION_TOTAL_BYTES.
Proof.
  intros Ho Hops Hh Hn. pose proof (world_new_inv (Zlen ops) e now Hh Hn) as H0.
  destruct (affinity_run_inv order Ho ops 0 (world_new e now)) as (w & Hw & H & _);
    [lia|done|exact H0|].
  exists w. split; [done|]. destruct (ai_store _ _ _ H) as [_ _ _ S1 S2 S3 S4 _].
  destruct (ai_limits _ _ _ H) as [L1 L2]. rewrite L1 in S3. rewrite L2 in S4.
  split_and!; [done|lia|done|lia].
Qed.

(** C26. Whatever is waited for has exactly one owner: after any sequence of
    operations, a session that is being created has a lease given out for it
    that no other lease shares, so waiting ends when that lease commits, is
    released or is dropped, and no other lease can commit the session; the same
    holds for a pending continuation and its lease. *)
Theorem affinity_creation_has_one_owner order ops e now w key :
  iterates order -> Forall op_ok ops -> headroom (Zlen ops) e -> 2 * Zlen ops < u64_max ->
  affinity_run order ops (world_new e now) = Ret w ->
  let b := bindings (w_registry w) in
  (forall v phase, get b key = Some (Creating v phase) ->
     exists l, l ∈ w_leases w /\ lease_key l = key /\ lease_current b l = true /\
       forall l', l' ∈ w_leases w -> lease_key l' = key -> lease_current b l' = true -> l' = l) /\
  (forall binding, get b key = Some (Bound binding) -> is_pending_continuation binding = true ->
     exists l, l ∈ w_pending w /\ cl_key l = key /\ cl_active l = true /\
       pending_current b l = true /\
       forall l', l' ∈ w_pending w -> cl_key l' = key -> pending_current b l' = true -> l' = l).
Proof.
  intros Ho Hops Hh Hn Hrun. pose proof (world_new_inv (Zlen ops) e now Hh Hn) as H0.
  destruct (affinity_run_inv order Ho ops 0 (world_new e now)) as (w' & Hw & H & _);
    [lia|done|exact H0|]. assert (w' = w) as -> by congruence. cbv zeta.
  destruct H as [_ _ Ho' _ Hd _ _]. apply NoDup_app in Hd as (D1 & _ & D2). split.
  - intros v phase Hk. destruct (Ho' key (inl v)) as (l & Hl & <- & <-); [by rewrite Hk|].
    exists l. split_and!; [done|done|unfold lease_current; rewrite Hk; apply Z.eqb_refl|].
    intros l' Hl' Hkey Hc. unfold lease_current in Hc. rewrite Hkey, Hk in Hc.
    apply Z.eqb_eq in Hc. by apply (NoDup_fmap_elem lease_version (w_leases w)).
  - intros binding Hk Hp. unfold is_pending_continuation in Hp.
    destruct (source binding) as [|[v|]] eqn:Hs; [done| |done].
    destruct (Ho' key (inr v)) as (l & Hl & <- & <- & Ha); [rewrite Hk; simpl; by rewrite Hs|].
    exists l. split_and!; [done|done|done|unfold pending_current; rewrite Hk, Hs; apply Z.eqb_refl|].
    intros l' Hl' Hkey Hc. unfold pending_current in Hc. rewrite Hkey, Hk, Hs in Hc.
    apply Z.eqb_eq in Hc. by apply (NoDup_fmap_elem cl_version (w_pending w)).
Qed.

(** A committed session sticks to its target: after the commit of a lease,
    the session is bound to the committed target until its time to live runs
    out, and beginning it again says so, refreshes it and touches no other
    binding. *)
Theorem affinity_session_sticks order l target deadline t1 t2 t3 r r' now ttl :
  store_wf (bindings r) ->
  lease_commit l target deadline t1 t2 t3 r = Ret (Ok tt, r') ->
  saturating_duration_since now t1 < ttl ->
  exists b, begin_session order (lease_key l) now ttl (bindings r') = (Ok (BoundTo target), b) /\
    get b (lease_key l) =
      Some (Bound {| tb_target := target; last_seen_at := now; source := Session |}) /\
    forall k, k <> lease_key l -> get b k = get (bindings r) k.
Proof.
  intros Hwf Hc Hnow. apply lease_commit_ok in Hc as (b' & Hbc & Hb'); [|done].
  unfold begin_session, begin_session_pass. rewrite Hb', (bc_get _ _ _ Hbc).
  unfold updated at 1. rewrite decide_True by done. cbn [last_seen_at].
  apply Z.ltb_lt in Hnow. rewrite Hnow. eexists. split; [done|].
  assert (get b' (lease_key l) = Some (Bound {| tb_target := target; last_seen_at := t1;
    source := Session |})) as Hk by (rewrite (bc_get _ _ _ Hbc); unfold updated; by rewrite decide_True).
  pose proof (set_entry_spec b' (lease_key l) _ (Bound (seen_at now {| tb_target := target;
    last_seen_at := t1; source := Session |})) (bc_wf _ _ _ Hbc) Hk ltac:(done)) as Hset.
  split.
  - rewrite (bc_get _ _ _ Hset). unfold updated. by rewrite decide_True.
  - intros k Hne. rewrite (bc_get _ _ _ Hset). unfold updated. rewrite decide_False by done.
    rewrite (bc_get _ _ _ Hbc). unfold updated. by rewrite decide_False.
Qed.

(** A continuation comes back as it was bound: after a continuation was
    bound, resolving it within its time to live, while its target is available,
    gives exactly the target and the protocol state it was bound with; binding
    an identity again with a state, or with another target, is refused as a
    conflict and changes no entry. *)
Theorem affinity_continuation_roundtrip order key target state ttl deadline t now c1 c2 b b'
    now' available :
  iterates order -> store_wf b -> state_ok state ->
  bind_ready_continuation order key target state ttl deadline t now c1 c2 b = (Ok tt, b') ->
  (forall s, s = written_at c1 \/ s = written_at c2 -> saturating_duration_since now' s < ttl) ->
  available target = true ->
  (resolve_continuation key now' ttl available b').1 = LookupReady target state /\
  forall target' state' deadline' t' now2 c1' c2',
    saturating_duration_since now2 (written_at c1) < ttl ->
    saturating_duration_since now2 (written_at c2) < ttl ->
    target' <> target \/ state' <> None -> past deadline' t' = false ->
    past deadline' (locked_at c1') = false -> is_ok (checked_state_bytes state') = true ->
    bind_ready_continuation order key target' state' ttl deadline' t' now2 c1' c2' b' =
      (Err IdentityConflict, b').
Proof.
  intros Ho Hb Hst H Hnow Hav.
  apply (bind_ready_ok order Ho) in H as (s & Hs & Hk & Hb'); [|done|done]. split.
  - unfold resolve_continuation. rewrite Hk. cbn [source last_seen_at tb_target].
    rewrite (proj2 (Z.leb_gt _ _)) by (by apply Hnow). by rewrite Hav.
  - intros target' state' deadline' t' now2 c1' c2' Hn1 Hn2 Hne Hp1 Hp2 Hck.
    unfold bind_ready_continuation. rewrite Hp1.
    destruct (checked_state_bytes state'); [|done].
    unfold bind_ready_pass. rewrite Hp2. unfold remove_if_expired. rewrite Hk.
    cbn [is_expired is_pending_continuation source last_seen_at negb andb].
    rewrite (proj2 (Z.leb_gt _ _)) by (by destruct Hs as [->| ->]).
    cbn [snd]. rewrite Hk. cbn [tb_target source].
    assert (bool_decide (target = target') &&
      match state' with None => true | Some _ => false end = false) as ->; [|done].
    destruct Hne as [Hne|Hne]; [by rewrite bool_decide_eq_false_2|].
    destruct state'; [|done]. by rewrite andb_false_r.
Qed.

(** Clearing a credential removes exactly the bindings to it: every binding
    to another credential and every session still being created stays, nothing
    bound to the credential is left, and when a pending continuation is among
    what is removed its waiters are woken. *)
Theorem affinity_clear_credential_exact order m credential r :
  iterates order -> 0 <= m -> headroom (m + 1) (scheduler_epoch r) -> store_wf (bindings r) ->
  exists n r', clear_credential order credential r = Ret (n, r') /\ store_wf (bindings r') /\
    (forall k, get (bindings r') k =
       match get (bindings r) k with
       | Some (Bound binding) =>
           if decide (at_credential_id (tb_target binding) = credential) then None
           else Some (Bound binding)
       | o => o
       end) /\
    ((exists k binding, get (bindings r) k = Some (Bound binding) /\
        at_credential_id (tb_target binding) = credential /\
        is_pending_continuation binding = true) ->
     current (scheduler_epoch r) < current (scheduler_epoch r')).
Proof.
  intros Ho Hm Hh Hb.
  destruct (clear_credential_spec order Ho m credential r Hm Hh Hb)
    as (n & r' & Hr & _ & Hbc & Hw). exists n, r'. split_and!; [done|apply Hbc| |].
  - intros k. rewrite (bc_get _ _ _ Hbc). unfold without_credential.
    destruct (get (bindings r) k) as [[|binding]|]; [done| |done]. simpl.
    destruct (decide (at_credential_id (tb_target binding) = credential)) as [E|E];
      [rewrite bool_decide_eq_true_2 by exact E|rewrite bool_decide_eq_false_2 by exact E];
      reflexivity.
  - intros (k & binding & Hk & Hc & Hp). apply Hw. exists k, (Bound binding).
    split_and!; [done|by apply bool_decide_eq_true_2|done].
Qed.

(** * Samples *)

Definition sample_order (m : gmap Z BindingState) : list SessionHash := (map_to_list m).*1.

Lemma sample_order_iterates : iterates sample_order.
Proof.
  intros m k. unfold sample_order. rewrite list_elem_of_fmap. split.
  - intros ([k' x] & -> & Hin). apply elem_of_map_to_list in Hin. by exists x.
  - intros [x Hx]. exists (k, x). split; [done|]. by apply elem_of_map_to_list.
Qed.

Definition sample_target (credential : Z) : AffinityTarget := {|
  at_route_id := 1; at_target_id := 1; at_credential_id := inl credential;
  at_upstream_model := "m"; ingress_protocol_dialect := OpenAiResponses;
  upstream_protocol_dialect := OpenAiResponses |}.

Definition sample_clock (t : Instant) : PassClock :=
  {| locked_at := t; reclaimed_at := t; written_at := t |}.

(** A session begun twice (the second waits) and a pending continuation. *)
Definition sample_ops : list affinity_op :=
  [OBegin 5 (secs 1) (secs 60); OBegin 5 (secs 2) (secs 60);
   OBeginPending 7 (sample_target 1) (secs 60) None (secs 3) (secs 3) (sample_clock (secs 3))
     (sample_clock (secs 3))].

Lemma sample_epoch_headroom n : n <= 10 -> headroom n (epoch_new true).
Proof. intros. split; simpl; unfold u64_max; lia. Qed.

Lemma sample_ops_run :
  exists w, affinity_run sample_order sample_ops (world_new (epoch_new true) 0) = Ret w /\
    get (bindings (w_registry w)) 5 = Some (Creating 1 Selecting).
Proof. eexists. split; vm_compute; reflexivity. Qed.

Lemma affinity_accounting_exact_witness :
  exists w, affinity_run sample_order sample_ops (world_new (epoch_new true) 0) = Ret w /\
    entry_count (bindings (w_registry w)) <= MAX_BINDINGS.
Proof.
  destruct (affinity_accounting_exact sample_order sample_ops (epoch_new true) 0
    sample_order_iterates) as (w & Hw & _ & Hle & _).
  - repeat constructor.
  - apply sample_epoch_headroom. vm_compute. discriminate.
  - vm_compute. reflexivity.
  - exists w. split; [exact Hw|exact Hle].
Defined.

Lemma affinity_creation_has_one_owner_witness :
  exists w l, affinity_run sample_order sample_ops (world_new (epoch_new true) 0) = Ret w /\
    l ∈ w_leases w /\ lease_key l = 5.
Proof.
  destruct sample_ops_run as (w & Hw & Hk).
  destruct (affinity_creation_has_one_owner sample_order sample_ops (epoch_new true) 0 w 5
    sample_order_iterates ltac:(repeat constructor)
    (sample_epoch_headroom (Zlen sample_ops) ltac:(vm_compute; discriminate)) ltac:(vm_compute; reflexivity) Hw)
    as [H _].
  destruct (H _ _ Hk) as (l & Hl & Hkey & _). exists w, l.
  split; [exact Hw|]. split; [exact Hl|exact Hkey].
Defined.

(** A registry in which the session 5 is being attempted under version 1. *)
Definition sample_registry : AffinityRegistry := {|
  bindings := set_entry 5 (Creating 1 Attempting)
    (begin_session sample_order 5 (secs 1) (secs 60) (sharded_new 10 1000 0)).2;
  scheduler_epoch := epoch_new true |}.

Lemma sample_registry_store_wf : store_wf (bindings sample_registry).
Proof.
  cbn [sample_registry bindings].
  assert (store_wf (sharded_new 10 1000 0)) as H0 by (apply sharded_new_wf; vm_compute; split;
    (discriminate || reflexivity)).
  pose proof (try_insert_spec (take_version (sharded_new 10 1000 0)).2 5 (Creating 1 Selecting))
    as H.
  assert (store_wf (take_version (sharded_new 10 1000 0)).2) as H1 by (destruct H0; by split).
  specialize (H H1 ltac:(vm_compute; reflexivity) ltac:(vm_compute; split; discriminate)).
  eapply bc_wf, (set_entry_spec _ _ (Creating 1 Selecting)); [|vm_compute; reflexivity|done].
  exact (bc_wf _ _ _ H).
Qed.

Definition sample_lease : BindingLease :=
  {| lease_key := 5; lease_version := 1; lease_active := true |}.

Lemma affinity_session_sticks_witness :
  exists r' b, lease_commit sample_lease (sample_target 1) None (secs 2) (secs 2) (secs 2)
      sample_registry = Ret (Ok tt, r') /\
    begin_session sample_order 5 (secs 30) (secs 60) (bindings r') =
      (Ok (BoundTo (sample_target 1)), b).
Proof.
  destruct (lease_commit sample_lease (sample_target 1) None (secs 2) (secs 2) (secs 2)
    sample_registry) as [[res r']|] eqn:E; [|vm_compute in E; discriminate].
  assert (res = Ok tt) as -> by (vm_compute in E; injection E as <- _; reflexivity).
  destruct (affinity_session_sticks sample_order sample_lease (sample_target 1) None (secs 2)
    (secs 2) (secs 2) sample_registry r' (secs 30) (secs 60) sample_registry_store_wf E)
    as (b & Hb & _); [vm_compute; reflexivity|].
  exists r', b. split; [reflexivity|exact Hb].
Defined.

Lemma affinity_continuation_roundtrip_witness :
  exists b', bind_ready_continuation sample_order 9 (sample_target 1)
      (Some {| bridge := 1; serialized_bytes := 100 |}) (secs 60) None (secs 1) (secs 1)
      (sample_clock (secs 1)) (sample_clock (secs 1)) (bindings sample_registry) = (Ok tt, b') /\
    (resolve_continuation 9 (secs 2) (secs 60) (fun _ => true) b').1 =
      LookupReady (sample_target 1) (Some {| bridge := 1; serialized_bytes := 100 |}).
Proof.
  destruct (bind_ready_continuation sample_order 9 (sample_target 1)
    (Some {| bridge := 1; serialized_bytes := 100 |}) (secs 60) None (secs 1) (secs 1)
    (sample_clock (secs 1)) (sample_clock (secs 1)) (bindings sample_registry)) as [res b'] eqn:E.
  assert (res = Ok tt) as -> by (vm_compute in E; injection E as <- _; reflexivity).
  exists b'. split; [reflexivity|].
  apply (affinity_continuation_roundtrip sample_order 9 (sample_target 1)
    (Some {| bridge := 1; serialized_bytes := 100 |}) (secs 60) None (secs 1) (secs 1)
    (sample_clock (secs 1)) (sample_clock (secs 1)) (bindings sample_registry) b' (secs 2)
    (fun _ => true) sample_order_iterates sample_registry_store_wf); [simpl; lia|
    exact E|intros s [->| ->]; vm_compute; reflexivity|reflexivity].
Defined.

Lemma affinity_clear_credential_exact_witness :
  exists n r', clear_credential sample_order (inl 1) sample_registry = Ret (n, r') /\
    store_wf (bindings r').
Proof.
  destruct (affinity_clear_credential_exact sample_order 0 (inl 1) sample_registry
    sample_order_iterates) as (n & r' & Hr & Hwf & _);
    [lia|apply sample_epoch_headroom; lia|exact sample_registry_store_wf|].
  exists n, r'. split; [exact Hr|exact Hwf].
Defined.
