(* ===== verification/Lifecycle.v ===== *)
(** * Process lifecycle: admission of requests, shutdown, and when memory is reclaimed

    Models [runtime/src/lifecycle/process.rs] with its two drivers, the shutdown
    sequence of [app/any2api/src/shutdown/finalization.rs] and the worker of
    [app/any2api/src/bootstrap/native_memory_reclamation.rs].

    Every method of [ProcessLifecycle] reads and writes several atomics, so a
    method is a small program and not one step: a thread of the machine below
    performs one atomic access per step, and the steps of all threads interleave
    in any order.  The atomics are sequentially consistent here; the source asks
    for acquire/release, and each handshake it relies on goes through a
    read-modify-write of the same cell.

    Tokio's [TaskTracker], [CancellationToken] and [Notify] are interfaces with
    the laws their documentation gives. *)
From S2P Require Import Prelude.
Local Open Scope Z_scope.

(** * What the lifecycle needs of tokio *)

(** [TaskTracker]: counts tokens and tracked tasks; [wait] completes once the
    tracker is both closed and empty.  Closing it does not refuse new tokens. *)
Class TaskTrackerApi (T : Type) := {
  tracker_new : T;
  tracker_token : T -> T;
  tracker_release : T -> T;
  tracker_close : T -> T;
  tracker_len : T -> nat;
  tracker_closed : T -> bool;
  tracker_new_len : tracker_len tracker_new = 0%nat;
  tracker_new_closed : tracker_closed tracker_new = false;
  tracker_token_len t : tracker_len (tracker_token t) = S (tracker_len t);
  tracker_token_closed t : tracker_closed (tracker_token t) = tracker_closed t;
  tracker_release_len t : (0 < tracker_len t)%nat ->
    tracker_len (tracker_release t) = pred (tracker_len t);
  tracker_release_closed t : tracker_closed (tracker_release t) = tracker_closed t;
  tracker_close_len t : tracker_len (tracker_close t) = tracker_len t;
  tracker_close_closed t : tracker_closed (tracker_close t) = true
}.

(** [CancellationToken]: cancelled once and for all. *)
Class CancellationApi (C : Type) := {
  cancellation_new : C;
  cancel : C -> C;
  is_cancelled : C -> bool;
  cancellation_new_live : is_cancelled cancellation_new = false;
  cancel_cancelled c : is_cancelled (cancel c) = true
}.

(** [Notify]: [notify_one] lets exactly one [notified().await] complete, the
    current or the next one; permits do not add up. *)
Class NotifyApi (N : Type) := {
  notify_new : N;
  notify_one : N -> N;
  notified : N -> N;
  notify_ready : N -> bool;
  notify_new_ready : notify_ready notify_new = false;
  notify_one_ready n : notify_ready (notify_one n) = true;
  notified_ready n : notify_ready (notified n) = false
}.

Section lifecycle.
Context {T C N : Type} `{!TaskTrackerApi T, !CancellationApi C, !NotifyApi N}.

(** * Data *)

Definition RUNNING : Z := 0.
Definition DRAINING : Z := 1.
Definition FORCED : Z := 2.

Inductive ShutdownPhase := Running | Draining | Forced.

(** [MemoryReclamationState]. *)
Record MemoryReclamationState := {
  blockers : Z;
  requested : N;
  completed_runs : Z;
  last_duration_micros : Z
}.

(** [LifecycleInner]: what every handle of the process shares. *)
Record LifecycleInner := {
  phase_cell : Z;
  activity_epoch : Z;
  memory_reclamation : MemoryReclamationState;
  requests : T;
  background : T;
  draining : C;
  forced : C
}.

Definition lifecycle_new : LifecycleInner := {|
  phase_cell := RUNNING;
  activity_epoch := 0;
  memory_reclamation := {| blockers := 0; requested := notify_new;
                           completed_runs := 0; last_duration_micros := 0 |};
  requests := tracker_new;
  background := tracker_new;
  draining := cancellation_new;
  forced := cancellation_new
|}.

(** [phase]: any other value is the source's [unreachable!]. *)
Definition phase (s : LifecycleInner) : outcome ShutdownPhase :=
  if phase_cell s =? RUNNING then Ret Running
  else if phase_cell s =? DRAINING then Ret Draining
  else if phase_cell s =? FORCED then Ret Forced
  else Panic.

Definition set_phase (p : Z) (s : LifecycleInner) : LifecycleInner :=
  {| phase_cell := p; activity_epoch := activity_epoch s;
     memory_reclamation := memory_reclamation s; requests := requests s;
     background := background s; draining := draining s; forced := forced s |}.
Definition set_activity (e : Z) (s : LifecycleInner) : LifecycleInner :=
  {| phase_cell := phase_cell s; activity_epoch := e;
     memory_reclamation := memory_reclamation s; requests := requests s;
     background := background s; draining := draining s; forced := forced s |}.
Definition set_memory (m : MemoryReclamationState) (s : LifecycleInner) : LifecycleInner :=
  {| phase_cell := phase_cell s; activity_epoch := activity_epoch s;
     memory_reclamation := m; requests := requests s;
     background := background s; draining := draining s; forced := forced s |}.
Definition set_requests (t : T) (s : LifecycleInner) : LifecycleInner :=
  {| phase_cell := phase_cell s; activity_epoch := activity_epoch s;
     memory_reclamation := memory_reclamation s; requests := t;
     background := background s; draining := draining s; forced := forced s |}.
Definition set_background (t : T) (s : LifecycleInner) : LifecycleInner :=
  {| phase_cell := phase_cell s; activity_epoch := activity_epoch s;
     memory_reclamation := memory_reclamation s; requests := requests s;
     background := t; draining := draining s; forced := forced s |}.
Definition set_draining (c : C) (s : LifecycleInner) : LifecycleInner :=
  {| phase_cell := phase_cell s; activity_epoch := activity_epoch s;
     memory_reclamation := memory_reclamation s; requests := requests s;
     background := background s; draining := c; forced := forced s |}.
Definition set_forced (c : C) (s : LifecycleInner) : LifecycleInner :=
  {| phase_cell := phase_cell s; activity_epoch := activity_epoch s;
     memory_reclamation := memory_reclamation s; requests := requests s;
     background := background s; draining := draining s; forced := c |}.

(** * The atomic accesses *)

Definition usize_wrap (z : Z) : Z := z mod 2 ^ 64.

Definition set_blockers (b : Z) (m : MemoryReclamationState) : MemoryReclamationState :=
  {| blockers := b; requested := requested m; completed_runs := completed_runs m;
     last_duration_micros := last_duration_micros m |}.
Definition request_reclamation (s : LifecycleInner) : LifecycleInner :=
  let m := memory_reclamation s in
  set_memory {| blockers := blockers m; requested := notify_one (requested m);
                completed_runs := completed_runs m;
                last_duration_micros := last_duration_micros m |} s.
Definition take_reclamation_request (s : LifecycleInner) : LifecycleInner :=
  let m := memory_reclamation s in
  set_memory {| blockers := blockers m; requested := notified (requested m);
                completed_runs := completed_runs m;
                last_duration_micros := last_duration_micros m |} s.

(** [MemoryReclamationBlocker::new]: [fetch_add]. *)
Definition blocker_new (s : LifecycleInner) : LifecycleInner :=
  let m := memory_reclamation s in
  set_memory (set_blockers (usize_wrap (blockers m + 1)) m) s.

(** The [fetch_sub] of [MemoryReclamationBlocker::release], with the value it
    returns; the caller notifies when it was the last. *)
Definition blocker_fetch_sub (s : LifecycleInner) : LifecycleInner * Z :=
  let m := memory_reclamation s in
  (set_memory (set_blockers (usize_wrap (blockers m - 1)) m) s, blockers m).

Definition memory_reclamation_blockers (s : LifecycleInner) : Z :=
  blockers (memory_reclamation s).

(** The [fetch_add] of [record_activity]. *)
Definition bump_activity (s : LifecycleInner) : LifecycleInner :=
  set_activity (wrapping_add_u64 (activity_epoch s) 1) s.

(** [duration.as_micros().try_into().unwrap_or(u64::MAX)]. *)
Definition store_duration (d : Duration) (s : LifecycleInner) : LifecycleInner :=
  let m := memory_reclamation s in
  set_memory {| blockers := blockers m; requested := requested m;
                completed_runs := completed_runs m;
                last_duration_micros := Z.min u64_max (d / 1000) |} s.
Definition bump_completed_runs (s : LifecycleInner) : LifecycleInner :=
  let m := memory_reclamation s in
  set_memory {| blockers := blockers m; requested := requested m;
                completed_runs := wrapping_add_u64 (completed_runs m) 1;
                last_duration_micros := last_duration_micros m |} s.

Definition active_requests (s : LifecycleInner) : nat := tracker_len (requests s).
Definition background_task_count (s : LifecycleInner) : nat := tracker_len (background s).

(** [wait_for_requests] and [wait_for_background_tasks] complete here. *)
Definition requests_drained (s : LifecycleInner) : bool :=
  tracker_closed (requests s) && (tracker_len (requests s) =? 0)%nat.
Definition background_drained (s : LifecycleInner) : bool :=
  tracker_closed (background s) && (tracker_len (background s) =? 0)%nat.

(** * The phase changes: [begin_draining] and [force] *)

Inductive phase_call :=
  | Drain_cas | Drain_close | Drain_cancel
  | Force_swap | Force_close | Force_cancel_draining | Force_cancel_forced
  | Returned (changed : bool).

Definition phase_call_step (c : phase_call) (s : LifecycleInner)
    : LifecycleInner * phase_call :=
  match c with
  | Drain_cas =>
      if phase_cell s =? RUNNING then (set_phase DRAINING s, Drain_close)
      else (s, Returned false)
  | Drain_close => (set_requests (tracker_close (requests s)) s, Drain_cancel)
  | Drain_cancel => (set_draining (cancel (draining s)) s, Returned true)
  | Force_swap =>
      (set_phase FORCED s,
       if phase_cell s =? FORCED then Returned false else Force_close)
  | Force_close => (set_requests (tracker_close (requests s)) s, Force_cancel_draining)
  | Force_cancel_draining =>
      (set_draining (cancel (draining s)) s, Force_cancel_forced)
  | Force_cancel_forced => (set_forced (cancel (forced s)) s, Returned true)
  | Returned b => (s, Returned b)
  end.

(** * The reclaimer's own state *)

(** [ReclaimState::pending_activity]. *)
Definition pending_activity (last_reclaimed_activity activity_epoch blockers : Z)
    : option Z :=
  if negb (blockers =? 0) || (activity_epoch =? last_reclaimed_activity) then None
  else Some activity_epoch.

(** * Threads *)

Inductive task_kind := Critical | Until_draining | Tracked.

Inductive thread :=
  (* [track_request] *)
  | Track_phase | Track_blocker | Track_token | Track_recheck
  | Track_epoch | Track_load
  (* its second check failed: the token and the blocker are dropped *)
  | Reject_token | Reject_blocker
  (* [ActiveRequestGuard], with or without its blocker *)
  | Guard (blocking : bool)
  (* the guard is dropped: the token first, then the blocker *)
  | Drop_token (blocking : bool) | Drop_blocker
  (* after a [fetch_sub]: whether the guard lives on *)
  | Release_notify (previous : Z) (alive : bool)
  | Gone
  (* [record_activity] of a background task *)
  | Activity_epoch | Activity_load
  (* [begin_draining] or [force] *)
  | Phase (c : phase_call)
  (* a task of the [background] tracker *)
  | Spawn (k : task_kind) | Task (k : task_kind) | Task_done (finished : bool)
  (* the reclaimer, a critical task: its [last_reclaimed_activity] and the epoch
     it read; while it reclaims, its blocking task holds a second token *)
  | Worker_wait (last : Z) | Worker_sleep (last : Z) | Worker_epoch (last : Z)
  | Worker_blockers (last read : Z) | Worker_spawn (last read : Z)
  | Worker_reclaim (last read : Z)
  | Worker_duration (last read : Z) | Worker_runs (last read : Z)
  | Worker_stopping
  (* [finalize] *)
  | Finalize_drain (c : phase_call) | Finalize_active | Finalize_phase
  | Finalize_force (c : phase_call) | Finalize_requests | Finalize_close
  | Finalize_background | Finalize_force_tasks (c : phase_call)
  | Finalize_background_again | Finalize_storage
  | Finalized (r : result unit unit).

Definition after_release (alive : bool) : thread := if alive then Guard false else Gone.

(** ** The steps

    One atomic access of a thread.  Where the source races two futures
    ([tokio::select!], [timeout]), both outcomes are steps. *)

(** [track_request], the guard it returns, and the release of its blocker. *)
Inductive request_step (s : LifecycleInner) : thread -> LifecycleInner -> thread -> Prop :=
  | track_phase_ok : phase s = Ret Running ->
      request_step s Track_phase s Track_blocker
  | track_phase_late p : phase s = Ret p -> p <> Running ->
      request_step s Track_phase s Gone
  | track_blocker : request_step s Track_blocker (blocker_new s) Track_token
  | track_token :
      request_step s Track_token (set_requests (tracker_token (requests s)) s) Track_recheck
  | track_recheck_ok : phase s = Ret Running ->
      request_step s Track_recheck s Track_epoch
  | track_recheck_late p : phase s = Ret p -> p <> Running ->
      request_step s Track_recheck s Reject_token
  | track_epoch : request_step s Track_epoch (bump_activity s) Track_load
  | track_load :
      request_step s Track_load
        (if memory_reclamation_blockers s =? 0 then request_reclamation s else s) (Guard true)
  | reject_token :
      request_step s Reject_token (set_requests (tracker_release (requests s)) s) Reject_blocker
  | reject_blocker :
      request_step s Reject_blocker (blocker_fetch_sub s).1
        (Release_notify (blocker_fetch_sub s).2 false)
  | guard_release :
      request_step s (Guard true) (blocker_fetch_sub s).1
        (Release_notify (blocker_fetch_sub s).2 true)
  | guard_release_again : request_step s (Guard false) s (Guard false)
  | guard_drop b : request_step s (Guard b) s (Drop_token b)
  | drop_token b :
      request_step s (Drop_token b) (set_requests (tracker_release (requests s)) s)
        (if b then Drop_blocker else Gone)
  | drop_blocker :
      request_step s Drop_blocker (blocker_fetch_sub s).1
        (Release_notify (blocker_fetch_sub s).2 false)
  | release_notify previous alive :
      request_step s (Release_notify previous alive)
        (if previous =? 1 then request_reclamation s else s) (after_release alive).

(** [record_activity], called by a background task. *)
Inductive activity_step (s : LifecycleInner) : thread -> LifecycleInner -> thread -> Prop :=
  | activity_bump : activity_step s Activity_epoch (bump_activity s) Activity_load
  | activity_load :
      activity_step s Activity_load
        (if memory_reclamation_blockers s =? 0 then request_reclamation s else s) Gone.

(** A call of [begin_draining] or of [force]. *)
Inductive phase_step (s : LifecycleInner) : thread -> LifecycleInner -> thread -> Prop :=
  | phase_change c :
      phase_step s (Phase c) (phase_call_step c s).1 (Phase (phase_call_step c s).2).

(** [spawn_critical], [spawn_until_draining] and [spawn_tracked]. *)
Inductive task_step (s : LifecycleInner) : thread -> LifecycleInner -> thread -> Prop :=
  | spawn_task k :
      task_step s (Spawn k) (set_background (tracker_token (background s)) s) (Task k)
  | task_finished k :
      task_step s (Task k) (set_background (tracker_release (background s)) s)
        (Task_done true)
  | critical_cancelled : is_cancelled (forced s) = true ->
      task_step s (Task Critical) (set_background (tracker_release (background s)) s)
        (Task_done false)
  | task_drained : is_cancelled (draining s) = true ->
      task_step s (Task Until_draining) (set_background (tracker_release (background s)) s)
        (Task_done false).

(** The reclaimer: [run] of native_memory_reclamation.rs. *)
Inductive worker_step (s : LifecycleInner) : thread -> LifecycleInner -> thread -> Prop :=
  | worker_draining last : is_cancelled (draining s) = true ->
      worker_step s (Worker_wait last) s Worker_stopping
  | worker_requested last : notify_ready (requested (memory_reclamation s)) = true ->
      worker_step s (Worker_wait last) (take_reclamation_request s) (Worker_sleep last)
  | worker_draining_asleep last : is_cancelled (draining s) = true ->
      worker_step s (Worker_sleep last) s Worker_stopping
  | worker_slept last : worker_step s (Worker_sleep last) s (Worker_epoch last)
  | worker_epoch last :
      worker_step s (Worker_epoch last) s (Worker_blockers last (activity_epoch s))
  | worker_blockers last read :
      worker_step s (Worker_blockers last read) s
        (match pending_activity last read (memory_reclamation_blockers s) with
         | Some e => Worker_spawn last e
         | None => Worker_wait last
         end)
  | worker_spawn last read :
      worker_step s (Worker_spawn last read)
        (set_background (tracker_token (background s)) s) (Worker_reclaim last read)
  | worker_reclaimed last read :
      worker_step s (Worker_reclaim last read)
        (set_background (tracker_release (background s)) s) (Worker_duration last read)
  | worker_failed last read :
      worker_step s (Worker_reclaim last read)
        (set_background (tracker_release (background s)) s) (Worker_wait last)
  | worker_duration last read d :
      worker_step s (Worker_duration last read) (store_duration d s) (Worker_runs last read)
  | worker_runs last read :
      worker_step s (Worker_runs last read) (bump_completed_runs s) (Worker_wait read)
  | worker_stopping :
      worker_step s Worker_stopping (set_background (tracker_release (background s)) s)
        (Task_done true)
  | worker_forced last : is_cancelled (forced s) = true ->
      worker_step s (Worker_wait last) (set_background (tracker_release (background s)) s)
        (Task_done false)
  | worker_forced_asleep last : is_cancelled (forced s) = true ->
      worker_step s (Worker_sleep last) (set_background (tracker_release (background s)) s)
        (Task_done false)
  | worker_forced_reclaiming last read : is_cancelled (forced s) = true ->
      worker_step s (Worker_reclaim last read)
        (set_background (tracker_release (background s)) s) (Task Tracked).

(** [finalize]. *)
Inductive finalize_step (s : LifecycleInner) : thread -> LifecycleInner -> thread -> Prop :=
  | finalize_drain c :
      finalize_step s (Finalize_drain c) (phase_call_step c s).1
        (match (phase_call_step c s).2 with
         | Returned _ => Finalize_active
         | c' => Finalize_drain c'
         end)
  | finalize_active :
      finalize_step s Finalize_active s
        (if (0 <? active_requests s)%nat then Finalize_phase else Finalize_requests)
  | finalize_phase p : phase s = Ret p ->
      finalize_step s Finalize_phase s
        (match p with Forced => Finalize_requests | _ => Finalize_force Force_swap end)
  | finalize_force c :
      finalize_step s (Finalize_force c) (phase_call_step c s).1
        (match (phase_call_step c s).2 with
         | Returned _ => Finalize_requests
         | c' => Finalize_force c'
         end)
  | finalize_requests : requests_drained s = true ->
      finalize_step s Finalize_requests s Finalize_close
  | finalize_requests_timeout :
      finalize_step s Finalize_requests s (Finalized (Err tt))
  | finalize_close :
      finalize_step s Finalize_close (set_background (tracker_close (background s)) s)
        Finalize_background
  | finalize_background : background_drained s = true ->
      finalize_step s Finalize_background s Finalize_storage
  | finalize_background_timeout :
      finalize_step s Finalize_background s (Finalize_force_tasks Force_swap)
  | finalize_force_tasks c :
      finalize_step s (Finalize_force_tasks c) (phase_call_step c s).1
        (match (phase_call_step c s).2 with
         | Returned _ => Finalize_background_again
         | c' => Finalize_force_tasks c'
         end)
  | finalize_background_again : background_drained s = true ->
      finalize_step s Finalize_background_again s Finalize_storage
  | finalize_background_again_timeout :
      finalize_step s Finalize_background_again s (Finalized (Err tt))
  | finalize_storage r : finalize_step s Finalize_storage s (Finalized r).

Inductive thread_step (s : LifecycleInner) (t : thread) (s' : LifecycleInner) (t' : thread)
    : Prop :=
  | thread_request : request_step s t s' t' -> thread_step s t s' t'
  | thread_activity : activity_step s t s' t' -> thread_step s t s' t'
  | thread_phase : phase_step s t s' t' -> thread_step s t s' t'
  | thread_task : task_step s t s' t' -> thread_step s t s' t'
  | thread_worker : worker_step s t s' t' -> thread_step s t s' t'
  | thread_finalize : finalize_step s t s' t' -> thread_step s t s' t'.

(** How a thread starts. *)
Inductive starts : thread -> Prop :=
  | start_request : starts Track_phase
  | start_activity : starts Activity_epoch
  | start_draining : starts (Phase Drain_cas)
  | start_force : starts (Phase Force_swap)
  | start_task k : starts (Spawn k)
  | start_finalize : starts (Finalize_drain Drain_cas).

(** The process: the shared state and its threads.  It starts with the
    reclaimer as its first background task, and starts any other thread at any
    time; more than [2 ^ 64 - 1] threads do not fit its memory. *)
Record process := { shared : LifecycleInner; threads : list thread }.

Definition process_start : process :=
  {| shared := set_background (tracker_token (background lifecycle_new)) lifecycle_new;
     threads := [Worker_wait 0] |}.

Inductive process_step (p : process) : process -> Prop :=
  | step_start t : starts t -> Zlen (threads p) < u64_max ->
      process_step p {| shared := shared p; threads := threads p ++ [t] |}
  | step_thread i t s' t' : threads p !! i = Some t ->
      thread_step (shared p) t s' t' ->
      process_step p {| shared := s'; threads := <[i := t']> (threads p) |}.

(** * What a thread holds *)

(** A token of the request tracker. *)
Definition request_tokens (t : thread) : nat :=
  match t with
  | Track_recheck | Track_epoch | Track_load | Reject_token | Guard _ | Drop_token _
  | Release_notify _ true => 1
  | _ => 0
  end.

(** A blocker of memory reclamation. *)
Definition request_blocks (t : thread) : nat :=
  match t with
  | Track_token | Track_recheck | Track_epoch | Track_load | Reject_token | Reject_blocker
  | Guard true | Drop_token true | Drop_blocker => 1
  | _ => 0
  end.

(** Tokens of the background tracker. *)
Definition task_tokens (t : thread) : nat :=
  match t with
  | Task _ | Worker_wait _ | Worker_sleep _ | Worker_epoch _ | Worker_blockers _ _
  | Worker_spawn _ _ | Worker_duration _ _ | Worker_runs _ _ | Worker_stopping => 1
  | Worker_reclaim _ _ => 2
  | _ => 0
  end.

(** A request past its second check: it runs, or has its guard. *)
Definition admitted (t : thread) : bool :=
  match t with
  | Track_epoch | Track_load | Guard _ | Drop_token _ | Release_notify _ true => true
  | _ => false
  end.

Definition weigh (f : thread -> nat) (ts : list thread) : nat := sum_list_with f ts.

Lemma weigh_insert f ts i t t' :
  ts !! i = Some t -> (weigh f (<[i := t']> ts) + f t = weigh f ts + f t')%nat.
Proof.
  revert i. induction ts as [|x ts IH]; intros [|i] Hi; simplify_eq/=; [lia|].
  apply IH in Hi. lia.
Qed.

Lemma weigh_lookup f ts i t : ts !! i = Some t -> (f t <= weigh f ts)%nat.
Proof.
  revert i. induction ts as [|x ts IH]; intros [|i] Hi; simplify_eq/=; [lia|].
  apply IH in Hi. lia.
Qed.

Lemma weigh_snoc f ts t : weigh f (ts ++ [t]) = (weigh f ts + f t)%nat.
Proof. unfold weigh. rewrite sum_list_with_app. simpl. lia. Qed.

Lemma weigh_le_length f ts : (forall t, f t <= 1)%nat -> (weigh f ts <= length ts)%nat.
Proof. intros Hf. induction ts as [|t ts IH]; simpl; [done|]. specialize (Hf t). lia. Qed.

Lemma request_blocks_length ts : (weigh request_blocks ts <= length ts)%nat.
Proof. apply weigh_le_length. intros []; simpl; repeat case_match; lia. Qed.

Lemma weigh_zero f ts : weigh f ts = 0%nat -> Forall (fun t => f t = 0%nat) ts.
Proof. induction ts as [|t ts IH]; simpl; [done|]. intros ?. constructor; [lia|apply IH; lia]. Qed.

Lemma start_weightless t : starts t ->
  request_tokens t = 0%nat /\ request_blocks t = 0%nat /\ task_tokens t = 0%nat.
Proof. by destruct 1. Qed.

(** ** One step moves exactly what it says *)

Ltac step_cases H := destruct H as [H|H|H|H|H|H]; destruct H.

Lemma phase_call_keeps c s :
  background (phase_call_step c s).1 = background s /\
  memory_reclamation (phase_call_step c s).1 = memory_reclamation s /\
  activity_epoch (phase_call_step c s).1 = activity_epoch s /\
  tracker_len (requests (phase_call_step c s).1) = tracker_len (requests s).
Proof. destruct c; simpl; try case_match; simpl; rewrite ?tracker_close_len; done. Qed.

Ltac unfold_step :=
  unfold request_reclamation, take_reclamation_request, blocker_new, blocker_fetch_sub,
    bump_activity, store_duration, bump_completed_runs, after_release in *; simpl in *.

Lemma step_request_tokens s t s' t' :
  thread_step s t s' t' -> (request_tokens t <= tracker_len (requests s))%nat ->
  (tracker_len (requests s') + request_tokens t
   = tracker_len (requests s) + request_tokens t')%nat.
Proof.
  intros Hst Hle; step_cases Hst; unfold_step; repeat case_match; simplify_eq/=;
    rewrite ?tracker_token_len, ?tracker_release_len by lia; try lia;
    rewrite ?(proj2 (proj2 (proj2 (phase_call_keeps _ _)))); lia.
Qed.

Lemma step_task_tokens s t s' t' :
  thread_step s t s' t' -> (task_tokens t <= tracker_len (background s))%nat ->
  (tracker_len (background s') + task_tokens t
   = tracker_len (background s) + task_tokens t')%nat.
Proof.
  intros Hst Hle; step_cases Hst; unfold_step; repeat case_match; simplify_eq/=;
    rewrite ?tracker_token_len, ?tracker_release_len, ?tracker_close_len by lia; try lia;
    rewrite ?(proj1 (phase_call_keeps _ _)); lia.
Qed.

Lemma step_request_blocks s t s' t' (n : nat) :
  thread_step s t s' t' -> memory_reclamation_blockers s = Z.of_nat n ->
  (request_blocks t <= n)%nat ->
  Z.of_nat n - Z.of_nat (request_blocks t) + Z.of_nat (request_blocks t') <= u64_max ->
  memory_reclamation_blockers s'
  = Z.of_nat n - Z.of_nat (request_blocks t) + Z.of_nat (request_blocks t').
Proof.
  unfold memory_reclamation_blockers.
  intros Hst Hn Hle Hmax; step_cases Hst; unfold_step; repeat case_match; simplify_eq/=;
    rewrite ?(proj1 (proj2 (phase_call_keeps _ _))), ?Hn; try lia;
    unfold usize_wrap; rewrite Z.mod_small; unfold u64_max in *; lia.
Qed.

(** ** The invariant of the counters *)

Definition accounted (p : process) : Prop :=
  active_requests (shared p) = weigh request_tokens (threads p) /\
  memory_reclamation_blockers (shared p) = Z.of_nat (weigh request_blocks (threads p)) /\
  background_task_count (shared p) = weigh task_tokens (threads p) /\
  Zlen (threads p) <= u64_max.

Lemma accounted_start : accounted process_start.
Proof.
  unfold accounted, active_requests, background_task_count, memory_reclamation_blockers. simpl.
  rewrite tracker_token_len, !tracker_new_len. by split_and!.
Qed.

Lemma accounted_step p p' : process_step p p' -> accounted p -> accounted p'.
Proof.
  intros Hstep (Hr & Hb & Ht & Hlen). destruct Hstep as [t Hs Hmax | i t s' t' Hi Hs].
  - destruct (start_weightless t Hs) as (E1 & E2 & E3). unfold accounted. simpl.
    rewrite !weigh_snoc, E1, E2, E3, !Nat.add_0_r. split_and!; try done.
    unfold Zlen in *. rewrite length_app. simpl. lia.
  - unfold accounted. simpl.
    pose proof (weigh_insert request_tokens _ _ _ t' Hi).
    pose proof (weigh_insert request_blocks _ _ _ t' Hi).
    pose proof (weigh_insert task_tokens _ _ _ t' Hi).
    pose proof (weigh_lookup request_tokens _ _ _ Hi).
    pose proof (weigh_lookup request_blocks _ _ _ Hi).
    pose proof (weigh_lookup task_tokens _ _ _ Hi).
    assert (weigh request_blocks (<[i:=t']> (threads p)) <= length (threads p))%nat.
    { etrans; [apply request_blocks_length|]. by rewrite length_insert. }
    unfold active_requests, background_task_count, Zlen in *.
    pose proof (step_request_tokens _ _ _ _ Hs). pose proof (step_task_tokens _ _ _ _ Hs).
    pose proof (step_request_blocks _ _ _ _ _ Hs Hb).
    rewrite length_insert. split_and!; lia.
Qed.

(** ** The phase only moves forward *)

Definition call_ok (s : LifecycleInner) (c : phase_call) : Prop :=
  match c with
  | Drain_close | Drain_cancel => DRAINING <= phase_cell s
  | Force_close | Force_cancel_draining | Force_cancel_forced => FORCED <= phase_cell s
  | _ => True
  end.

Definition thread_ok (s : LifecycleInner) (t : thread) : Prop :=
  match t with
  | Phase c | Finalize_drain c | Finalize_force c | Finalize_force_tasks c => call_ok s c
  | _ => True
  end.

Definition shared_ok (s : LifecycleInner) : Prop :=
  RUNNING <= phase_cell s <= FORCED /\
  (tracker_closed (requests s) = true -> DRAINING <= phase_cell s) /\
  (is_cancelled (draining s) = true -> DRAINING <= phase_cell s) /\
  (is_cancelled (forced s) = true -> FORCED <= phase_cell s).

Definition phases_ok (p : process) : Prop :=
  shared_ok (shared p) /\ Forall (thread_ok (shared p)) (threads p).

Ltac unfold_phases := unfold shared_ok, call_ok, thread_ok, RUNNING, DRAINING, FORCED in *.

Lemma phase_call_ok c s : shared_ok s -> call_ok s c ->
  shared_ok (phase_call_step c s).1 /\
  call_ok (phase_call_step c s).1 (phase_call_step c s).2 /\
  phase_cell s <= phase_cell (phase_call_step c s).1.
Proof.
  destruct c; simpl; unfold_phases; simpl; try case_match; simpl;
    rewrite ?tracker_close_closed, ?cancel_cancelled; bool_to_prop; intuition lia.
Qed.

Lemma thread_step_phase s t s' t' :
  thread_step s t s' t' -> shared_ok s -> thread_ok s t ->
  shared_ok s' /\ thread_ok s' t' /\ phase_cell s <= phase_cell s'.
Proof.
  intros Hst Hs Ht; step_cases Hst;
    try match goal with
        | |- context [phase_call_step ?c s] => destruct (phase_call_ok c s Hs Ht) as (? & ? & ?)
        end;
    unfold_step; repeat case_match; simpl in *; try done;
    unfold_phases; simpl; rewrite ?tracker_token_closed, ?tracker_release_closed;
    intuition lia.
Qed.

Lemma thread_ok_mono s s' t :
  phase_cell s <= phase_cell s' -> thread_ok s t -> thread_ok s' t.
Proof. destruct t; simpl; try done; unfold_phases; case_match; lia. Qed.

Lemma phases_ok_start : phases_ok process_start.
Proof.
  split; [|by repeat constructor]. unfold_phases. simpl.
  rewrite tracker_new_closed, !cancellation_new_live. intuition (lia || done).
Qed.

Lemma phases_ok_step p p' : process_step p p' -> phases_ok p ->
  phases_ok p' /\ phase_cell (shared p) <= phase_cell (shared p').
Proof.
  intros Hstep [Hs Ht]. destruct Hstep as [t Hst Hmax | i t s' t' Hi Hst].
  - split; [|simpl; lia]. split; [done|]. simpl. apply Forall_app. split; [done|].
    constructor; [|done]. by destruct Hst.
  - destruct (thread_step_phase _ _ _ _ Hst Hs) as (H1 & H2 & H3).
    { rewrite Forall_lookup in Ht. eauto. }
    split; [|done]. split; [done|]. simpl. apply Forall_insert; [|done].
    eapply Forall_impl; [exact Ht|]. intros x. by apply thread_ok_mono.
Qed.

Lemma phase_running s : phase s = Ret Running <-> phase_cell s = RUNNING.
Proof. unfold phase, RUNNING, DRAINING, FORCED. repeat case_match; bool_to_prop; split; (done || lia). Qed.

(** ** Reachable processes *)

Definition reachable (p : process) : Prop := rtc process_step process_start p.

Lemma reachable_ok p : reachable p -> accounted p /\ phases_ok p.
Proof.
  intros H. apply (rtc_invariant process_step (fun q => accounted q /\ phases_ok q) _ _) in H;
    [done| |split; [apply accounted_start | apply phases_ok_start]].
  intros a b Hab [H1 H2]. split; [by eapply accounted_step|].
  by apply (phases_ok_step a b Hab H2).
Qed.

(** ** Closed and empty means over *)

Definition over (p : process) : Prop :=
  DRAINING <= phase_cell (shared p) /\ Forall (fun t => admitted t = false) (threads p).

Lemma thread_step_admitted s t s' t' :
  thread_step s t s' t' -> DRAINING <= phase_cell s -> admitted t = false ->
  admitted t' = false.
Proof.
  intros Hst Hs Ha; step_cases Hst; simpl in *; repeat case_match; try done;
    try (apply phase_running in H; unfold DRAINING, RUNNING in *; lia);
    unfold after_release; by repeat case_match.
Qed.

Lemma over_step p p' : process_step p p' -> phases_ok p -> over p -> over p'.
Proof.
  intros Hstep Hok [Hph Ha]. pose proof (phases_ok_step _ _ Hstep Hok) as [_ Hle].
  split; [lia|]. destruct Hstep as [t Hst Hmax | i t s' t' Hi Hst]; simpl.
  - apply Forall_app. split; [done|]. constructor; [by destruct Hst|done].
  - apply Forall_insert; [done|]. eapply thread_step_admitted; [done..|].
    rewrite Forall_lookup in Ha. eauto.
Qed.

Lemma drained_over p : accounted p -> phases_ok p ->
  requests_drained (shared p) = true -> over p.
Proof.
  unfold requests_drained. intros (Hr & _) [(_ & Hc & _) _] [Hd1 Hd2]%andb_true_iff. split; [by apply Hc|]. apply Nat.eqb_eq in Hd2.
  unfold active_requests in Hr. rewrite Hr in Hd2. apply weigh_zero in Hd2.
  eapply Forall_impl; [exact Hd2|]. intros [] ?; simpl in *; repeat case_match; done.
Qed.

(** A finalizing thread past its wait for the requests. *)
Definition past_requests (t : thread) : bool :=
  match t with
  | Finalize_close | Finalize_background | Finalize_force_tasks _
  | Finalize_background_again | Finalize_storage => true
  | Finalized (Ok _) => true
  | _ => false
  end.

Definition finalize_ok (p : process) : Prop :=
  forall i t, threads p !! i = Some t -> past_requests t = true -> over p.

Lemma thread_step_past s t s' t' :
  thread_step s t s' t' -> past_requests t' = true ->
  past_requests t = true \/ (requests_drained s = true /\ s' = s).
Proof.
  intros Hst; step_cases Hst; simpl; repeat case_match; intros; simplify_eq/=; eauto;
    unfold after_release in *; repeat case_match; done.
Qed.

Lemma finalize_ok_step p p' : process_step p p' -> accounted p -> phases_ok p ->
  finalize_ok p -> finalize_ok p'.
Proof.
  intros Hstep Hacc Hok Hf j u Hj Hu.
  enough (over p) by (by eapply over_step).
  destruct Hstep as [t Hst Hmax | i t s' t' Hi Hst]; simpl in *.
  - apply lookup_app_Some in Hj as [Hj|[_ Hj]]; [by eapply Hf|].
    apply list_lookup_singleton_Some in Hj as [_ <-]. by destruct Hst.
  - destruct (decide (i = j)) as [<-|Hne].
    + rewrite list_lookup_insert_eq in Hj by (by eapply lookup_lt_Some). simplify_eq.
      apply thread_step_past in Hst as [?|[??]]; [by eapply Hf | by apply drained_over | done].
    + rewrite list_lookup_insert_ne in Hj by done. by eapply Hf.
Qed.

Lemma finalize_ok_reachable p : reachable p -> finalize_ok p.
Proof.
  intros H.
  apply (rtc_invariant process_step
           (fun q => accounted q /\ phases_ok q /\ finalize_ok q) _ _) in H; [apply H| |].
  - intros a b Hab (H1 & H2 & H3). split_and!; [by eapply accounted_step| |].
    + by apply (phases_ok_step a b Hab H2).
    + by eapply finalize_ok_step.
  - split_and!; [apply accounted_start | apply phases_ok_start |].
    intros i t Hi Ht. destruct i as [|i]; simplify_eq/=.
Qed.

Lemma over_forever p p' : rtc process_step p p' -> phases_ok p -> over p -> over p'.
Proof.
  intros H Hok Hov.
  apply (rtc_invariant process_step (fun q => phases_ok q /\ over q) _ _) in H; [apply H| |done].
  intros a b Hab [H1 H2]. split; [by apply (phases_ok_step a b Hab H1) | by eapply over_step].
Qed.

(** ** A request to reclaim is never lost *)

Definition is_worker (t : thread) : bool :=
  match t with
  | Worker_wait _ | Worker_sleep _ | Worker_epoch _ | Worker_blockers _ _ | Worker_spawn _ _
  | Worker_reclaim _ _ | Worker_duration _ _ | Worker_runs _ _ => true
  | _ => false
  end.

(** The activity the worker has taken note of: the one it reclaimed, or the one
    it is reclaiming.  Before it reads the epoch it owes nothing. *)
Definition worker_seen (t : thread) : option Z :=
  match t with
  | Worker_wait last => Some last
  | Worker_blockers _ read | Worker_spawn _ read | Worker_reclaim _ read
  | Worker_duration _ read | Worker_runs _ read => Some read
  | _ => None
  end.

(** A thread whose next step notifies, unless a blocker does it later. *)
Definition about_to_notify (t : thread) : bool :=
  match t with
  | Track_load | Activity_load => true
  | Release_notify previous _ => previous =? 1
  | _ => false
  end.

Definition signal (s : LifecycleInner) (t : thread) : Prop :=
  notify_ready (requested (memory_reclamation s)) = true \/
  memory_reclamation_blockers s <> 0 \/ about_to_notify t = true.

Definition signalled (p : process) : Prop :=
  exists i t, threads p !! i = Some t /\ signal (shared p) t.

Definition takes_request (t t' : thread) : bool :=
  match t, t' with Worker_wait _, Worker_sleep _ => true | _, _ => false end.

Lemma step_signal s t s' t' :
  thread_step s t s' t' -> 0 <= memory_reclamation_blockers s ->
  memory_reclamation_blockers s + 1 <= u64_max + Z.of_nat (request_blocks t) ->
  takes_request t t' = false -> signal s t -> signal s' t'.
Proof.
  unfold signal, memory_reclamation_blockers.
  intros Hst Hb Hmax Htake Hsig; step_cases Hst; unfold_step;
    rewrite ?(proj1 (proj2 (phase_call_keeps _ _)));
    repeat case_match; bool_to_prop; simplify_eq/=; rewrite ?notify_one_ready;
    try (by intuition congruence); try (intuition lia).
  all: unfold usize_wrap, u64_max in *; destruct Hsig as [?|[?|?]]; try done; eauto.
  all: right; destruct (decide (blockers (memory_reclamation s) = 1)) as [E|];
    [rewrite E; auto | left; rewrite Z.mod_small; lia].
Qed.

Lemma step_signal_kept s t s' t' :
  thread_step s t s' t' -> takes_request t t' = false ->
  notify_ready (requested (memory_reclamation s)) = true ->
  notify_ready (requested (memory_reclamation s')) = true.
Proof.
  intros Hst; step_cases Hst; unfold_step; rewrite ?(proj1 (proj2 (phase_call_keeps _ _)));
    repeat case_match; simplify_eq/=; rewrite ?notify_one_ready; done.
Qed.

Lemma step_activity s t s' t' :
  thread_step s t s' t' -> activity_epoch s' <> activity_epoch s -> about_to_notify t' = true.
Proof.
  intros Hst; step_cases Hst; unfold_step; rewrite ?(proj1 (proj2 (proj2 (phase_call_keeps _ _))));
    repeat case_match; simplify_eq/=; done.
Qed.

Lemma step_worker s t s' t' :
  thread_step s t s' t' -> is_worker t = false ->
  is_worker t' = false /\ takes_request t t' = false.
Proof.
  intros Hst ?; step_cases Hst; simplify_eq/=; repeat case_match; simplify_eq/=; try done;
    unfold after_release; by repeat case_match.
Qed.

Lemma pending_activity_Some last read b e :
  pending_activity last read b = Some e -> e = read /\ b = 0 /\ read <> last.
Proof. unfold pending_activity. solve_cases; done. Qed.

Lemma pending_activity_None last read b :
  pending_activity last read b = None -> b <> 0 \/ read = last.
Proof.
  unfold pending_activity. case_match; [|done]. intros _. bool_to_prop.
  rename select (_ \/ _) into Ho. destruct Ho; bool_to_prop; auto.
Qed.

(** The worker's next note, unless a run of the reclaimer failed. *)
Lemma step_worker_seen s t s' t' e :
  thread_step s t s' t' ->
  (forall last read, t = Worker_reclaim last read -> t' <> Worker_wait last) ->
  worker_seen t' = Some e -> takes_request t t' = false /\
  (e = activity_epoch s' \/ (worker_seen t = Some e /\ activity_epoch s' = activity_epoch s) \/
   (memory_reclamation_blockers s' <> 0)).
Proof.
  intros Hst Hfail Hseen; step_cases Hst; simplify_eq/=; unfold after_release in *;
    repeat case_match; simplify_eq/=; split; try done; auto.
  - apply pending_activity_Some in H as (-> & _ & _). auto.
  - apply pending_activity_None in H as [?| ->]; auto.
  - by destruct (Hfail e read).
Qed.

Definition run_failed (p p' : process) : Prop :=
  exists last read, threads p !! 0%nat = Some (Worker_reclaim last read) /\
    threads p' !! 0%nat = Some (Worker_wait last).

Definition calm_step (p p' : process) : Prop := process_step p p' /\ ~ run_failed p p'.

Definition reclaim_ok (p : process) : Prop :=
  (forall i t, threads p !! S i = Some t -> is_worker t = false) /\
  (forall w e, threads p !! 0%nat = Some w -> worker_seen w = Some e ->
     activity_epoch (shared p) <> e -> signalled p).

Lemma signalled_thread p i t s' t' :
  threads p !! i = Some t -> thread_step (shared p) t s' t' -> accounted p ->
  takes_request t t' = false -> signalled p ->
  signalled {| shared := s'; threads := <[i := t']> (threads p) |}.
Proof.
  intros Hi Hst (_ & Hb & _ & Hlen) Htake (j & u & Hj & Hsig).
  assert (Hmax : memory_reclamation_blockers (shared p) + 1
                 <= u64_max + Z.of_nat (request_blocks t)).
  { pose proof (weigh_insert request_blocks _ _ _ (Guard true) Hi) as Hw. simpl in Hw.
    pose proof (request_blocks_length (<[i := Guard true]> (threads p))) as Hle.
    rewrite length_insert in Hle. rewrite Hb. unfold Zlen in Hlen. lia. }
  pose proof (step_signal _ _ _ _ Hst ltac:(lia) Hmax Htake) as Hstep.
  destruct (decide (i = j)) as [<-|Hne].
  - exists i, t'. simplify_eq. split; [|by apply Hstep].
    simpl. apply list_lookup_insert_eq. by eapply lookup_lt_Some.
  - destruct Hsig as [Hs|[Hs|Hs]].
    1,2: exists i, t'; split; [simpl; apply list_lookup_insert_eq; by eapply lookup_lt_Some|];
         apply Hstep; unfold signal; auto.
    exists j, u. simpl. rewrite list_lookup_insert_ne by done. split; [done|]. right. by right.
Qed.

Lemma reclaim_ok_step p p' : calm_step p p' -> accounted p -> reclaim_ok p -> reclaim_ok p'.
Proof.
  intros [Hstep Hcalm] Hacc [Hw Hseen]. destruct Hstep as [t Hst Hmax | i t s' t' Hi Hst].
  - split; simpl.
    + intros i u Hu. apply lookup_app_Some in Hu as [Hu|[_ Hu]]; [by eapply Hw|].
      apply list_lookup_singleton_Some in Hu as [_ <-]. by destruct Hst.
    + intros w e H0 Hs He. apply lookup_app_Some in H0 as [H0|[_ H0]].
      * destruct (Hseen w e H0 Hs He) as (j & u & Hj & Hsig). exists j, u.
        split; [by apply lookup_app_l_Some|done].
      * apply list_lookup_singleton_Some in H0 as [_ <-]. by destruct Hst.
  - assert (Hlt := lookup_lt_Some _ _ _ Hi). split; simpl.
    + intros j u Hu. destruct (decide (i = S j)) as [->|Hne].
      * rewrite list_lookup_insert_eq in Hu by done. simplify_eq.
        apply (step_worker _ _ _ _ Hst). by eapply Hw.
      * rewrite list_lookup_insert_ne in Hu by done. by eapply Hw.
    + intros w e H0 Hs He. destruct i as [|i].
      * rewrite list_lookup_insert_eq in H0 by done. simplify_eq.
        assert (Hfail : forall last read, t = Worker_reclaim last read -> w <> Worker_wait last).
        { intros last read -> ->. apply Hcalm. exists last, read. simpl.
          split; [done|]. by apply list_lookup_insert_eq. }
        destruct (step_worker_seen _ _ _ _ _ Hst Hfail Hs) as [Htake [?|[[E1 E2]|Hb]]]; [done| |].
        -- eapply signalled_thread; try done. apply (Hseen t e); [done|done|]. congruence.
        -- exists 0%nat, w. split; [by apply list_lookup_insert_eq|]. right. by left.
      * destruct (step_worker _ _ _ _ Hst) as [_ Htake]; [by eapply Hw|].
        rewrite list_lookup_insert_ne in H0 by done.
        destruct (decide (activity_epoch s' = activity_epoch (shared p))) as [E|E].
        -- eapply signalled_thread; try done. apply (Hseen w e H0 Hs). congruence.
        -- exists (S i), t'. split; [by apply list_lookup_insert_eq|].
           right. right. by eapply step_activity.
Qed.

Lemma reclaim_ok_reachable p : rtc calm_step process_start p ->
  accounted p /\ reclaim_ok p.
Proof.
  intros H.
  apply (rtc_invariant calm_step (fun q => accounted q /\ reclaim_ok q) _ _) in H; [done| |].
  - intros a b Hab [H1 H2]. split; [|by eapply reclaim_ok_step].
    eapply accounted_step; [apply Hab|done].
  - split; [apply accounted_start|]. split.
    + intros [|i] t Hi; done.
    + intros w e Hw He Hne. simplify_eq/=.
Qed.

(** Four steps take the waiting worker to its next run. *)
Lemma worker_runs_next p last :
  threads p !! 0%nat = Some (Worker_wait last) ->
  notify_ready (requested (memory_reclamation (shared p))) = true ->
  memory_reclamation_blockers (shared p) = 0 -> activity_epoch (shared p) <> last ->
  exists p', rtc process_step p p' /\
    threads p' !! 0%nat = Some (Worker_spawn last (activity_epoch (shared p))).
Proof.
  destruct p as [s [|w ts]]; [done|]. simpl. intros [= ->] Hn Hb He. eexists. split.
  - eapply rtc_l; [eapply (step_thread _ 0); [done|by apply thread_worker, worker_requested]|]. simpl.
    eapply rtc_l; [eapply (step_thread _ 0); [done|apply thread_worker, worker_slept]|]. simpl.
    eapply rtc_l; [eapply (step_thread _ 0); [done|apply thread_worker, worker_epoch]|]. simpl.
    eapply rtc_once, (step_thread _ 0); [done|apply thread_worker, worker_blockers].
  - simpl. unfold pending_activity, memory_reclamation_blockers in *. simpl. rewrite Hb. simpl.
    by rewrite (proj2 (Z.eqb_neq _ _) He).
Qed.

(** * Theorems *)

(** In every state the process can reach, whatever the interleaving of its
    threads, each counter is what its name says: the request tracker counts the
    threads that hold a request token, the background tracker the tokens of the
    running tasks, and the reclamation counter the threads that hold a blocker.
    So the [fetch_sub] of a release never sees zero, and the phase cell always
    holds one of the three phases ([phase] does not reach its [unreachable!]). *)
Theorem lifecycle_counters_exact p : reachable p ->
  active_requests (shared p) = weigh request_tokens (threads p) /\
  background_task_count (shared p) = weigh task_tokens (threads p) /\
  memory_reclamation_blockers (shared p) = Z.of_nat (weigh request_blocks (threads p)) /\
  (forall i t, threads p !! i = Some t -> request_blocks t = 1%nat ->
     0 < (blocker_fetch_sub (shared p)).2) /\
  phase (shared p) <> Panic.
Proof.
  intros [(Hr & Hb & Ht & _) [(Hph & _) _]]%reachable_ok. split_and!; try done.
  - intros i t Hi Hone. pose proof (weigh_lookup request_blocks _ _ _ Hi). simpl.
    unfold memory_reclamation_blockers in Hb. lia.
  - unfold phase, RUNNING, DRAINING, FORCED in *. repeat case_match; bool_to_prop; (done || lia).
Qed.

(** C13. Shutdown waits for every request and lets none in afterwards.  Once the
    wait for the requests can complete (the tracker is closed and empty), or a
    finalizing thread has passed it, the process is past [Running], no request
    holds its guard, and in no later state does one: a request that was between
    its two checks of the phase gives its token back. *)
Theorem lifecycle_drained_for_good p p' :
  reachable p ->
  requests_drained (shared p) = true \/
    (exists i t, threads p !! i = Some t /\ past_requests t = true) ->
  rtc process_step p p' ->
  phase (shared p') <> Ret Running /\
  (forall i t, threads p' !! i = Some t -> admitted t = false).
Proof.
  intros Hre Hd Hsteps. destruct (reachable_ok _ Hre) as [Hacc Hok].
  assert (Hov : over p).
  { destruct Hd as [Hd | (i & t & Hi & Ht)]; [by apply drained_over|].
    by apply (finalize_ok_reachable p Hre i t). }
  destruct (over_forever p p' Hsteps Hok Hov) as [Hph Ha]. split.
  - rewrite phase_running. unfold DRAINING, RUNNING in *. lia.
  - by apply Forall_lookup.
Qed.

(** C14. Activity is not forgotten by the reclaimer.  As long as no run of it has
    failed, whenever the worker waits, nothing blocks reclamation and no thread
    is about to notify, activity that has not been reclaimed has left its
    notification: the worker can go on, and its next run is for the current
    activity epoch.  This holds for every interleaving of requests that end and
    background tasks that record activity. *)
Theorem reclamation_not_lost p last :
  rtc calm_step process_start p ->
  threads p !! 0%nat = Some (Worker_wait last) ->
  memory_reclamation_blockers (shared p) = 0 ->
  (forall i t, threads p !! i = Some t -> about_to_notify t = false) ->
  activity_epoch (shared p) <> last ->
  exists p', rtc process_step p p' /\
    threads p' !! 0%nat = Some (Worker_spawn last (activity_epoch (shared p))).
Proof.
  intros [_ [_ Hseen]]%reclaim_ok_reachable Hw Hb Hq He.
  destruct (Hseen _ last Hw eq_refl He) as (i & t & Hi & [Hn|[?|Hn]]); [|done|].
  - by apply worker_runs_next.
  - specialize (Hq _ _ Hi). congruence.
Qed.

End lifecycle.

(** * Concrete instances, for the witnesses *)

Record counted := { count : nat; closed : bool }.

#[global] Program Instance counted_tracker : TaskTrackerApi counted := {|
  tracker_new := {| count := 0; closed := false |};
  tracker_token t := {| count := S (count t); closed := closed t |};
  tracker_release t := {| count := pred (count t); closed := closed t |};
  tracker_close t := {| count := count t; closed := true |};
  tracker_len := count;
  tracker_closed := closed
|}.
Solve All Obligations with done.

#[global] Program Instance bool_cancellation : CancellationApi bool := {|
  cancellation_new := false; cancel _ := true; is_cancelled c := c
|}.
Solve All Obligations with done.

#[global] Program Instance bool_notify : NotifyApi bool := {|
  notify_new := false; notify_one _ := true; notified _ := false; notify_ready n := n
|}.
Solve All Obligations with done.

Abbreviation sample_process := (@process counted bool bool).

(** Runs thread [i] through one step; thread [0] waits, so no run has failed. *)
Ltac thread_i i tac :=
  eapply rtc_l;
  [split; [eapply (step_thread _ i); [reflexivity | tac] | by intros (? & ? & ? & ?)] |]; simpl.

(** A process that has served one request, after [begin_draining]'s swap. *)
Definition sample_served (phase : Z) (closed : bool) (ts : list thread) : sample_process :=
  {| shared := {| phase_cell := phase; activity_epoch := 1;
                  memory_reclamation := {| blockers := 0; requested := true;
                                           completed_runs := 0; last_duration_micros := 0 |};
                  requests := {| count := 0; closed := closed |};
                  background := {| count := 1; closed := false |};
                  draining := false; forced := false |};
     threads := Worker_wait 0 :: ts |}.

Lemma sample_served_run :
  rtc calm_step process_start (sample_served RUNNING false [Gone]).
Proof.
  eapply rtc_l; [split; [apply (step_start _ Track_phase); [constructor|vm_compute; done]
                        |by intros (? & ? & ? & ?)]|]. simpl.
  thread_i 1%nat ltac:(by apply thread_request, track_phase_ok). thread_i 1%nat ltac:(apply thread_request, track_blocker).
  thread_i 1%nat ltac:(apply thread_request, track_token). thread_i 1%nat ltac:(by apply thread_request, track_recheck_ok).
  thread_i 1%nat ltac:(apply thread_request, track_epoch). thread_i 1%nat ltac:(apply thread_request, track_load).
  thread_i 1%nat ltac:(apply thread_request, guard_drop). thread_i 1%nat ltac:(apply thread_request, drop_token).
  thread_i 1%nat ltac:(apply thread_request, drop_blocker). thread_i 1%nat ltac:(apply thread_request, release_notify).
  apply rtc_refl.
Qed.

Lemma sample_drained_run :
  rtc calm_step process_start (sample_served DRAINING true [Gone; Phase Drain_cancel]).
Proof.
  etrans; [apply sample_served_run|].
  eapply rtc_l; [split; [apply (step_start _ (Phase Drain_cas)); [constructor|vm_compute; done]
                        |by intros (? & ? & ? & ?)]|]. simpl.
  thread_i 2%nat ltac:(apply thread_phase, phase_change). thread_i 2%nat ltac:(apply thread_phase, phase_change).
  apply rtc_refl.
Qed.

Lemma calm_reachable (p : sample_process) : rtc calm_step process_start p -> reachable p.
Proof. apply rtc_subrel. by intros ?? []. Qed.

Lemma lifecycle_counters_exact_witness :
  active_requests (shared (sample_served RUNNING false [Gone])) = 0%nat.
Proof. apply (lifecycle_counters_exact _ (calm_reachable _ sample_served_run)). Defined.

Lemma lifecycle_drained_for_good_witness :
  phase (shared (sample_served DRAINING true [Gone; Phase Drain_cancel])) <> Ret Running.
Proof.
  apply (lifecycle_drained_for_good _ _ (calm_reachable _ sample_drained_run));
    [left; reflexivity | apply rtc_refl].
Defined.

Lemma reclamation_not_lost_witness : exists p' : sample_process,
  rtc process_step (sample_served RUNNING false [Gone]) p' /\
  threads p' !! 0%nat = Some (Worker_spawn 0 1).
Proof.
  apply (reclamation_not_lost _ 0 sample_served_run); [reflexivity|reflexivity| |discriminate].
  intros [|[|i]] t Hi; simplify_eq/=; reflexivity.
Defined.
