(* ===== verification/OAuthErrors.v ===== *)
(** * Errors of the OAuth services

    [provider/src/error.rs], [runtime/src/configuration/error.rs],
    [runtime/src/oauth/error.rs] and
    [domain/src/oauth_account/proxy_selection.rs].  Validation errors a
    [ConfigPublishError] wraps are kept as the text they display. *)
From S2P Require Import Prelude Protocol Upstream.
Local Open Scope Z_scope.

Inductive ProviderError :=
| DuplicateProvider (provider : ProviderKind)
| InvalidProviderDescriptor (provider : ProviderKind) (reason : string)
| InvalidCredential (reason : string)
| InvalidEndpoint (reason : string)
| ProviderInvalidRequest (reason : string)
| ProviderInternal (reason : string)
| UnsupportedOAuthModel (provider : ProviderKind) (model : string)
| OfficialClientVersionUnavailable (provider : ProviderKind)
| InvalidResponse (reason : string).

Inductive ConfigPublishError :=
| ShuttingDown
| RevisionConflict (expected actual : Z)
| RevisionOverflow
| UnexpectedCandidateRevision (expected actual : Z)
| ProxyNotFound
| ProxyProtected
| ProxyInUse
| ProxyReferenced
| ProxyDisabled
| ProxyNameConflict
| InvalidProxy (reason : string)
| InvalidProxyPassword (reason : string)
| ProviderEndpointNotFound
| ProviderEndpointVersionConflict
| ProviderEndpointNameConflict
| InvalidProviderEndpoint (reason : string)
| InvalidProviderCapability (reason : string)
| InvalidPublishedSnapshot (reason : string)
| ProviderCredentialNotFound
| ProviderCredentialVersionConflict
| ProviderCredentialSecretVersionConflict
| ProviderCredentialLabelConflict
| InvalidProviderCredential (reason : string)
| InvalidProviderApiKey (reason : string)
| OAuthAccountNotFound
| OAuthAccountVersionConflict
| OAuthAccountTokenVersionConflict
| OAuthAccountLabelConflict
| OAuthAccountIdentityConflict
| InvalidOAuthAccount (reason : string)
| OAuthModelUnavailable
| GatewayApiKeyNotFound
| GatewayApiKeyVersionConflict
| GatewayApiKeyTokenVersionConflict
| GatewayApiKeyNameConflict
| InvalidGatewayApiKey (reason : string)
| GatewayApiKeyTokenGeneration
| InvalidModelRoute (reason : string)
| InvalidSetting (reason : string)
| PublishInternal (reason : string).

Inductive OAuthError :=
| ProviderUnavailable
| UnsupportedProvider (provider : ProviderKind)
| SessionCapacity
| InvalidSession
| SessionExpired
| InvalidCallback
| AuthorizationDenied
| StateMismatch
| RandomGeneration
| OAuthProvider (error : ProviderError)
| OAuthTransport (error : TransportError)
| TokenRejected (status : Z)
| TokenReadTimeout
| TokenResponseTooLarge
| ModelCatalogRejected (status : Z)
| ModelCatalogTransport (error : TransportError)
| ModelCatalogResponseTooLarge
| ModelCatalogResponseInvalid
| ModelCatalogPersistence
| TokenResponseInvalid
| PublishedProxyUnavailable
| DocumentSerialization
| Activation (error : ConfigPublishError).

(** [OAuthError::from_token_response_error] *)
Definition from_token_response_error (error : ProviderError) : OAuthError :=
  match error with
  | InvalidResponse _ => TokenResponseInvalid
  | error => OAuthProvider error
  end.

(** [OAuthError::from_model_catalog_response_error] *)
Definition from_model_catalog_response_error (error : ProviderError) : OAuthError :=
  match error with
  | InvalidResponse _ => ModelCatalogResponseInvalid
  | error => OAuthProvider error
  end.

(** Where the requests of an account go out: proxy profiles are named by their
    identifier. *)
Inductive OAuthProxySelection := GlobalProxy | Profile (id : Z).

(** [OAuthProxySelection::from_profile_id], [profile_id] *)
Definition from_profile_id (profile_id : option Z) : OAuthProxySelection :=
  match profile_id with Some id => Profile id | None => GlobalProxy end.
Definition profile_id (s : OAuthProxySelection) : option Z :=
  match s with GlobalProxy => None | Profile id => Some id end.
