(* ===== verification/Entities.v ===== *)
(** * The entities of a configuration

    Endpoints, credentials, proxies, gateway keys and OAuth accounts as the
    [domain] crate keeps them ([provider/endpoint/], [provider/credential/],
    [proxy/], [gateway_api_key/], [oauth_account/], [routing/model_name.rs],
    [credential/fingerprint.rs]), with their drafts, their versions, and the
    configurations that hold them.

    Identifiers are integers. [str::to_lowercase], which depends on the tables of
    Unicode, and the parser of hosts and URLs (crate [url]) are parameters. *)
From Stdlib Require Import Ascii.
From S2P Require Import Prelude Search Protocol Text Upstream OAuthErrors.
Local Open Scope Z_scope.

(** * Texts and versions *)

(** The shape of every [validate_name] and [validate_label] *)
Definition validate_text {E} (max : nat) (empty not_trimmed too_long : E) (value : string)
    : result string E :=
  if bool_decide (trim value = "") then Err empty
  else if negb (bool_decide (trim value = value)) then Err not_trimmed
  else if bool_decide (max < length (chars value))%nat then Err too_long
  else Ok value.

Definition MAX_VERSION : Z := u32_max.

(** [valid_version], [next_version] *)
Definition valid_version (v : Z) : bool := (0 <? v) && (v <=? MAX_VERSION).
Definition next_version {E} (invalid : E) (v : Z) : result Z E :=
  match checked_add u64_max v 1 with
  | Some next => if next <=? MAX_VERSION then Ok next else Err invalid
  | None => Err invalid
  end.
Definition next_valid_version {E} (invalid : E) (v : Z) : result Z E :=
  match checked_add u64_max v 1 with
  | Some next => if valid_version next then Ok next else Err invalid
  | None => Err invalid
  end.

(** * Model names *)

Definition MAX_MODEL_NAME_CHARS : nat := 255.

Inductive ModelNameValidationError := NameEmpty | NameNotTrimmed | NameTooLong | NameControlCharacter.
#[export] Instance name_error_eq_dec : EqDecision ModelNameValidationError.
Proof. solve_decision. Defined.

(** [validate], behind [PublicModelName::new] and [UpstreamModelName::new] *)
Definition model_name_new (value : string) : result string ModelNameValidationError :=
  if bool_decide (trim value = "") then Err NameEmpty
  else if negb (bool_decide (trim value = value)) then Err NameNotTrimmed
  else if bool_decide (MAX_MODEL_NAME_CHARS < length (chars value))%nat then Err NameTooLong
  else if existsb is_control (chars value) then Err NameControlCharacter
  else Ok value.

(** * Provider endpoints *)

(** The parsed URLs of the [url] crate, as far as a base URL asks them *)
Class UrlLib := {
  Url : Type;
  url_parse : string -> option Url;
  url_scheme : Url -> string;
  url_has_host : Url -> bool;
  url_username : Url -> string;
  url_has_password : Url -> bool;
  url_has_query : Url -> bool;
  url_has_fragment : Url -> bool;
  url_port : Url -> option Z;
  url_segments : Url -> option (list string);
  url_path : Url -> string;
  url_set_path : Url -> string -> Url;
  url_text : Url -> string
}.

Inductive ProviderUrlValidationError :=
| UrlNotTrimmed | UrlMalformed | UrlTooLong | UnsupportedScheme | MissingHost | UserInfoNotAllowed
| QueryNotAllowed | FragmentNotAllowed | UrlInvalidPort | PathTraversalNotAllowed.

Definition MAX_PROVIDER_BASE_URL_CHARS : nat := 2048.

(** [str::contains] and [str::ends_with] of a pattern *)
Fixpoint contains (pat s : string) : bool :=
  String.prefix pat s || match s with EmptyString => false | String _ s => contains pat s end.
Fixpoint ends_with (pat s : string) : bool :=
  bool_decide (s = pat) || match s with EmptyString => false | String _ s => ends_with pat s end.

(** [str::trim_end_matches('/')], [trim_matches('/')], [split('/')] *)
Definition is_slash (c : ascii) : bool := bool_decide (c = "/"%char).
Definition trim_end_slashes (s : string) : string :=
  String.string_of_list_ascii (rev (drop_while is_slash (rev (String.list_ascii_of_string s)))).
Definition trim_slashes (s : string) : string :=
  trim_end_slashes (String.string_of_list_ascii (drop_while is_slash (String.list_ascii_of_string s))).
Fixpoint split_slashes (s : string) : string * list string :=
  match s with
  | EmptyString => ("", [])
  | String c s =>
    let '(first, rest) := split_slashes s in
    if is_slash c then ("", first :: rest) else (String c first, rest)
  end.

(** [raw_has_path_traversal], [has_path_traversal], [has_segment_traversal] *)
Definition raw_has_path_traversal (input : string) : bool :=
  let lower := to_ascii_lowercase input in
  contains "/../" lower || contains "/./" lower || ends_with "/.." lower || ends_with "/." lower ||
  contains "%2e" lower.
Definition is_dots (segment : string) : bool :=
  bool_decide (segment = ".") || bool_decide (segment = "..").
Definition has_segment_traversal (path : string) : bool :=
  let '(first, rest) := split_slashes path in
  existsb is_dots (first :: rest) || contains "%2e" (to_ascii_lowercase path).

(** [String::pop] *)
Fixpoint pop (s : string) : string :=
  match s with
  | EmptyString => ""
  | String c EmptyString => ""
  | String c s => String c (pop s)
  end.

Section base_url.
Context {url_lib : UrlLib}.

Definition has_path_traversal (url : Url) : bool :=
  match url_segments url with Some segments => existsb is_dots segments | None => false end ||
  contains "%2e" (to_ascii_lowercase (url_path url)).

(** [ProviderBaseUrl::parse] *)
Definition base_url_parse (input : string) : result string ProviderUrlValidationError :=
  if bool_decide (input = "") || negb (bool_decide (trim input = input)) then Err UrlNotTrimmed
  else if bool_decide (MAX_PROVIDER_BASE_URL_CHARS < length (chars input))%nat then Err UrlTooLong
  else if raw_has_path_traversal input then Err PathTraversalNotAllowed
  else
    match url_parse input with
    | None => Err UrlMalformed
    | Some url =>
      if negb (bool_decide (url_scheme url = "http") || bool_decide (url_scheme url = "https"))
      then Err UnsupportedScheme
      else if negb (url_has_host url) then Err MissingHost
      else if negb (bool_decide (url_username url = "")) || url_has_password url
      then Err UserInfoNotAllowed
      else if url_has_query url then Err QueryNotAllowed
      else if url_has_fragment url then Err FragmentNotAllowed
      else if bool_decide (url_port url = Some 0) then Err UrlInvalidPort
      else if has_path_traversal url then Err PathTraversalNotAllowed
      else
        let path := trim_end_slashes (url_path url) in
        let url := url_set_path url (if bool_decide (path = "") then "/" else path) in
        Ok (if bool_decide (url_path url = "/") then pop (url_text url) else url_text url)
    end.

(** [ProviderBaseUrl::append_path] *)
Definition append_path (value suffix : string) : result string ProviderUrlValidationError :=
  let suffix := trim_slashes suffix in
  if bool_decide (suffix = "") || has_segment_traversal suffix then Err PathTraversalNotAllowed
  else
    match url_parse value with
    | None => Err UrlMalformed
    | Some url =>
      let prefix := trim_end_slashes (url_path url) in
      let path := if bool_decide (prefix = "") then "/" +:+ suffix else prefix +:+ "/" +:+ suffix in
      Ok (url_text (url_set_path url path))
    end.
End base_url.

Inductive ProviderEndpointValidationError :=
| EndpointEmptyName | EndpointNameNotTrimmed | EndpointNameTooLong
| InvalidBaseUrl (error : ProviderUrlValidationError)
| EndpointInvalidConfigVersion | ProviderKindChanged | EndpointDuplicateId | EndpointDuplicateName.

Definition MAX_ENDPOINT_NAME_CHARS : nat := 100.

Record ProviderEndpointDraft := {
  ed_name : string;
  ed_provider : ProviderKind;
  ed_base_url : string;
  ed_dialect : ProtocolDialect;
  ed_upstream : option ProtocolDialect;
  ed_enabled : bool
}.

Record ProviderEndpoint := {
  ep_id : Z;
  ep_name : string;
  ep_provider : ProviderKind;
  ep_base_url : string;
  ep_dialect : ProtocolDialect;
  ep_upstream : option ProtocolDialect;
  ep_enabled : bool;
  ep_config_version : Z
}.

(** [ProviderEndpointDraft::new], once its URL is parsed *)
Definition endpoint_draft_checked (name : string) (provider : ProviderKind) (base_url : string)
    (dialect : ProtocolDialect) (upstream : option ProtocolDialect) (enabled : bool)
    : result ProviderEndpointDraft ProviderEndpointValidationError :=
  let upstream := match upstream with
                  | Some u => if bool_decide (u = dialect) then None else Some u
                  | None => None
                  end in
  match validate_text MAX_ENDPOINT_NAME_CHARS EndpointEmptyName EndpointNameNotTrimmed
          EndpointNameTooLong name with
  | Err e => Err e
  | Ok name => Ok {| ed_name := name; ed_provider := provider; ed_base_url := base_url;
                     ed_dialect := dialect; ed_upstream := upstream; ed_enabled := enabled |}
  end.
Definition endpoint_draft_new {url_lib : UrlLib} (name : string) (provider : ProviderKind) (base_url : string)
    (dialect : ProtocolDialect) (upstream : option ProtocolDialect) (enabled : bool)
    : result ProviderEndpointDraft ProviderEndpointValidationError :=
  match base_url_parse base_url with
  | Err e => Err (InvalidBaseUrl e)
  | Ok base_url => endpoint_draft_checked name provider base_url dialect upstream enabled
  end.

(** [effective_upstream_protocol_dialect] *)
Definition effective_upstream (e : ProviderEndpoint) : ProtocolDialect :=
  match ep_upstream e with Some d => d | None => ep_dialect e end.

(** [from_draft], [matches_draft] *)
Definition endpoint_from_draft (id : Z) (d : ProviderEndpointDraft) (version : Z) : ProviderEndpoint :=
  {| ep_id := id; ep_name := ed_name d; ep_provider := ed_provider d; ep_base_url := ed_base_url d;
     ep_dialect := ed_dialect d; ep_upstream := ed_upstream d; ep_enabled := ed_enabled d;
     ep_config_version := version |}.
Definition endpoint_matches_draft (e : ProviderEndpoint) (d : ProviderEndpointDraft) : bool :=
  bool_decide (ep_name e = ed_name d) && bool_decide (ep_provider e = ed_provider d) &&
  bool_decide (ep_base_url e = ed_base_url d) && bool_decide (ep_dialect e = ed_dialect d) &&
  bool_decide (ep_upstream e = ed_upstream d) && bool_decide (ep_enabled e = ed_enabled d).

(** [create], [restore], [updated] *)
Definition endpoint_create (id : Z) (d : ProviderEndpointDraft)
    : result ProviderEndpoint ProviderEndpointValidationError := Ok (endpoint_from_draft id d 1).
Definition endpoint_restore (id : Z) (d : ProviderEndpointDraft) (version : Z)
    : result ProviderEndpoint ProviderEndpointValidationError :=
  if bool_decide (version = 0) || (MAX_VERSION <? version) then Err EndpointInvalidConfigVersion
  else Ok (endpoint_from_draft id d version).
Definition endpoint_updated (e : ProviderEndpoint) (d : ProviderEndpointDraft)
    : result ProviderEndpoint ProviderEndpointValidationError :=
  if negb (bool_decide (ep_provider e = ed_provider d)) then Err ProviderKindChanged
  else if endpoint_matches_draft e d then Ok e
  else match next_version EndpointInvalidConfigVersion (ep_config_version e) with
       | Err e => Err e
       | Ok version => Ok (endpoint_from_draft (ep_id e) d version)
       end.

(** * Provider credentials *)

Definition CREDENTIAL_FINGERPRINT_VERSION : Z := 2.

Record CredentialSecretFingerprint := {
  fp_version : Z;
  fp_digest : list Byte.byte;
  fp_tail : option string
}.
Inductive CredentialFingerprintError := UnsupportedVersion | InvalidTail.

(** [CredentialSecretFingerprint::restore] *)
Definition fingerprint_restore (version : Z) (digest : list Byte.byte) (tail : option string)
    : result CredentialSecretFingerprint CredentialFingerprintError :=
  if negb (bool_decide (version = CREDENTIAL_FINGERPRINT_VERSION)) then Err UnsupportedVersion
  else if match tail with
          | Some t => negb (bool_decide (String.length t = 4%nat)) ||
                      negb (forallb (fun c => in_range 33 126 (byte_value c)) (String.list_ascii_of_string t))
          | None => false
          end then Err InvalidTail
  else Ok {| fp_version := version; fp_digest := digest; fp_tail := tail |}.

Inductive CredentialKind := ApiKey.
#[export] Instance credential_kind_eq_dec : EqDecision CredentialKind.
Proof. solve_decision. Defined.

Record ProviderCredentialModel := { upstream_name : string; public_alias : option string }.
#[export] Instance credential_model_eq_dec : EqDecision ProviderCredentialModel.
Proof. solve_decision. Defined.

Inductive ProviderCredentialValidationError :=
| EmptyLabel | LabelNotTrimmed | LabelTooLong | CredentialInvalidVersion | CredentialDuplicateId
| DuplicateLabel | CredentialInvalidModel (error : ModelNameValidationError)
| CredentialInvalidPublicModel (error : ModelNameValidationError)
| DuplicateModel | CredentialDuplicatePublicModel | CredentialMissingEndpoint | CredentialMissingProxy.

(** [ProviderCredentialModel::new]: an alias equal to the upstream name is none. *)
Definition credential_model_new (upstream : string) (alias : option string)
    : result ProviderCredentialModel ProviderCredentialValidationError :=
  match model_name_new upstream with
  | Err e => Err (CredentialInvalidModel e)
  | Ok upstream =>
    match alias with
    | None => Ok {| upstream_name := upstream; public_alias := None |}
    | Some alias =>
      match model_name_new alias with
      | Err e => Err (CredentialInvalidPublicModel e)
      | Ok alias => Ok {| upstream_name := upstream;
                          public_alias := if bool_decide (alias = upstream) then None
                                          else Some alias |}
      end
    end
  end.

(** [ProviderCredentialModel::public_model] *)
Definition public_name (m : ProviderCredentialModel) : string := default (upstream_name m) (public_alias m).

(** The derived order of models: upstream name, then alias, none first *)
Definition alias_le (a b : option string) : Prop :=
  match a, b with
  | None, _ => True
  | Some _, None => False
  | Some a, Some b => name_le a b
  end.
Definition model_le (a b : ProviderCredentialModel) : Prop :=
  name_lt (upstream_name a) (upstream_name b) \/
  upstream_name a = upstream_name b /\ alias_le (public_alias a) (public_alias b).
#[export] Instance model_le_dec : RelDecision model_le.
Proof. intros a b. unfold model_le, alias_le, name_lt. repeat case_match; apply _. Defined.

(** [validate_models] *)
Definition validate_models (models : list ProviderCredentialModel)
    : result (list ProviderCredentialModel) ProviderCredentialValidationError :=
  let models := merge_sort model_le models in
  if adjacent_equal upstream_name models then Err DuplicateModel
  else if adjacent_equal id (merge_sort name_le (public_name <$> models))
  then Err CredentialDuplicatePublicModel
  else Ok models.

Definition MAX_CREDENTIAL_LABEL_CHARS : nat := 100.

Record ProviderCredentialDraft := {
  cd_label : string;
  cd_kind : CredentialKind;
  cd_proxy : Z;
  cd_rpm : option Z;
  cd_enabled : bool
}.

Record ProviderCredential := {
  pc_id : Z;
  pc_endpoint : Z;
  pc_label : string;
  pc_kind : CredentialKind;
  pc_fingerprint : CredentialSecretFingerprint;
  pc_proxy : Z;
  pc_rpm : option Z;
  pc_enabled : bool;
  pc_secret_version : Z;
  pc_generation : Z;
  pc_config_version : Z;
  pc_models : list ProviderCredentialModel
}.

(** [ProviderCredentialDraft::new] *)
Definition credential_draft_new (label : string) (kind : CredentialKind) (proxy : Z) (rpm : option Z)
    (enabled : bool) : result ProviderCredentialDraft ProviderCredentialValidationError :=
  match validate_text MAX_CREDENTIAL_LABEL_CHARS EmptyLabel LabelNotTrimmed LabelTooLong label with
  | Err e => Err e
  | Ok label => Ok {| cd_label := label; cd_kind := kind; cd_proxy := proxy; cd_rpm := rpm;
                      cd_enabled := enabled |}
  end.

(** [from_parts], [matches_draft] *)
Definition credential_from_parts (id endpoint : Z) (d : ProviderCredentialDraft)
    (fingerprint : CredentialSecretFingerprint) (secret_version generation config_version : Z)
    (models : list ProviderCredentialModel) : ProviderCredential :=
  {| pc_id := id; pc_endpoint := endpoint; pc_label := cd_label d; pc_kind := cd_kind d;
     pc_fingerprint := fingerprint; pc_proxy := cd_proxy d; pc_rpm := cd_rpm d;
     pc_enabled := cd_enabled d; pc_secret_version := secret_version; pc_generation := generation;
     pc_config_version := config_version; pc_models := models |}.
Definition credential_matches_draft (c : ProviderCredential) (d : ProviderCredentialDraft) : bool :=
  bool_decide (pc_label c = cd_label d) && bool_decide (pc_kind c = cd_kind d) &&
  bool_decide (pc_proxy c = cd_proxy d) && bool_decide (pc_rpm c = cd_rpm d) &&
  bool_decide (pc_enabled c = cd_enabled d).

(** [create], [restore] *)
Definition credential_create (id endpoint : Z) (d : ProviderCredentialDraft)
    (fingerprint : CredentialSecretFingerprint) : ProviderCredential :=
  credential_from_parts id endpoint d fingerprint 1 1 1 [].
Definition credential_restore (id endpoint : Z) (d : ProviderCredentialDraft)
    (fingerprint : CredentialSecretFingerprint) (secret_version generation config_version : Z)
    (models : list ProviderCredentialModel)
    : result ProviderCredential ProviderCredentialValidationError :=
  if negb (valid_version secret_version) || negb (valid_version generation) ||
     negb (valid_version config_version) then Err CredentialInvalidVersion
  else match validate_models models with
       | Err e => Err e
       | Ok models => Ok (credential_from_parts id endpoint d fingerprint secret_version generation
                            config_version models)
       end.

(** [updated]: enabling a disabled credential starts a generation. *)
Definition credential_updated (c : ProviderCredential) (d : ProviderCredentialDraft)
    : result ProviderCredential ProviderCredentialValidationError :=
  if credential_matches_draft c d then Ok c
  else
    match next_version CredentialInvalidVersion (pc_config_version c) with
    | Err e => Err e
    | Ok config_version =>
      match (if negb (pc_enabled c) && cd_enabled d
             then next_version CredentialInvalidVersion (pc_generation c)
             else Ok (pc_generation c)) with
      | Err e => Err e
      | Ok generation =>
        Ok (credential_from_parts (pc_id c) (pc_endpoint c) d (pc_fingerprint c)
              (pc_secret_version c) generation config_version (pc_models c))
      end
    end.

(** The same credential with other versions and models *)
Definition credential_with (c : ProviderCredential) (fingerprint : CredentialSecretFingerprint)
    (secret_version generation config_version : Z) (models : list ProviderCredentialModel)
    : ProviderCredential :=
  {| pc_id := pc_id c; pc_endpoint := pc_endpoint c; pc_label := pc_label c; pc_kind := pc_kind c;
     pc_fingerprint := fingerprint; pc_proxy := pc_proxy c; pc_rpm := pc_rpm c;
     pc_enabled := pc_enabled c; pc_secret_version := secret_version; pc_generation := generation;
     pc_config_version := config_version; pc_models := models |}.

(** [with_models], [rotated], [next_generation] *)
Definition credential_with_models (c : ProviderCredential) (models : list ProviderCredentialModel)
    : result ProviderCredential ProviderCredentialValidationError :=
  match validate_models models with
  | Err e => Err e
  | Ok models =>
    if bool_decide (pc_models c = models) then Ok c
    else match next_version CredentialInvalidVersion (pc_config_version c) with
         | Err e => Err e
         | Ok v => Ok (credential_with c (pc_fingerprint c) (pc_secret_version c) (pc_generation c) v models)
         end
  end.
Definition credential_rotated (c : ProviderCredential) (fingerprint : CredentialSecretFingerprint)
    : result ProviderCredential ProviderCredentialValidationError :=
  match next_version CredentialInvalidVersion (pc_secret_version c),
        next_version CredentialInvalidVersion (pc_generation c),
        next_version CredentialInvalidVersion (pc_config_version c) with
  | Ok secret_version, Ok generation, Ok config_version =>
    Ok (credential_with c fingerprint secret_version generation config_version [])
  | Err e, _, _ | _, Err e, _ | _, _, Err e => Err e
  end.
Definition credential_next_generation (c : ProviderCredential)
    : result ProviderCredential ProviderCredentialValidationError :=
  match next_version CredentialInvalidVersion (pc_generation c) with
  | Err e => Err e
  | Ok generation => Ok (credential_with c (pc_fingerprint c) (pc_secret_version c) generation
                           (pc_config_version c) (pc_models c))
  end.

(** [supports_model] *)
Definition credential_supports_model (c : ProviderCredential) (model : string) : bool :=
  bool_decide (is_Some (binary_search_by (fun m => String.compare (upstream_name m) model) (pc_models c))).

(** * Proxies *)

Inductive ProxyKind := Direct | Http | Socks5.
#[export] Instance proxy_kind_eq_dec : EqDecision ProxyKind.
Proof. solve_decision. Defined.

(** [ProxyKind::as_str], [ProxyKind::parse] *)
Definition proxy_kind_as_str (k : ProxyKind) : string :=
  match k with Direct => "direct" | Http => "http" | Socks5 => "socks5" end.
Definition proxy_kind_parse (value : string) : option ProxyKind :=
  if bool_decide (value = "direct") then Some Direct
  else if bool_decide (value = "http") then Some Http
  else if bool_decide (value = "socks5") then Some Socks5
  else None.

Definition MAX_PROXY_USERNAME_BYTES : nat := 255.

Inductive ProxyAuthenticationValidationError :=
| EmptyUsername | UsernameTooLong | UsernameControlCharacter | UsernameContainsBasicSeparator.

(** [validate_username], [ProxyAuthentication::new] *)
Definition validate_username (username : string) : result () ProxyAuthenticationValidationError :=
  if bool_decide (username = "") then Err EmptyUsername
  else if bool_decide (MAX_PROXY_USERNAME_BYTES < String.length username)%nat then Err UsernameTooLong
  else if existsb is_control (chars username) then Err UsernameControlCharacter
  else if contains ":" username then Err UsernameContainsBasicSeparator
  else Ok ().
Definition proxy_authentication_new (username : string)
    : result string ProxyAuthenticationValidationError :=
  match validate_username username with Err e => Err e | Ok _ => Ok username end.

Inductive ProxyValidationError :=
| ProxyEmptyName | ProxyNameNotTrimmed | ProxyNameTooLong | InvalidHost | ProxyInvalidPort
| DirectCannotBeCreated | DirectIdReserved | DirectInvariant | MissingAddress
| ProxyInvalidConfigVersion | InvalidAuthenticationVersion
| InvalidAuthentication (error : ProxyAuthenticationValidationError)
| ProxyDuplicateId | ProxyDuplicateName | MissingDirect | GlobalProxyMissing | GlobalProxyDisabled.

Record ProxyAddress := { address_host : string; address_port : Z }.
#[export] Instance proxy_address_eq_dec : EqDecision ProxyAddress.
Proof. solve_decision. Defined.

(** [ProxyAddress::new], with [Host::parse] printed back *)
Definition normalize_host (host_parse : string -> option string) (host : string)
    : result string ProxyValidationError :=
  if bool_decide (host = "") || negb (bool_decide (trim host = host)) then Err InvalidHost
  else match host_parse host with Some h => Ok h | None => Err InvalidHost end.
Definition proxy_address_new (host_parse : string -> option string) (host : string) (port : Z)
    : result ProxyAddress ProxyValidationError :=
  match normalize_host host_parse host with
  | Err e => Err e
  | Ok host => if port =? 0 then Err ProxyInvalidPort
               else Ok {| address_host := host; address_port := port |}
  end.

(** [ProxyProfileId::DIRECT], the nil UUID *)
Definition DIRECT : Z := 0.
Definition MAX_PROXY_NAME_CHARS : nat := 100.

Record ProxyDraft := {
  xd_name : string; xd_kind : ProxyKind; xd_address : ProxyAddress; xd_enabled : bool
}.

Record ProxyProfile := {
  px_id : Z;
  px_name : string;
  px_kind : ProxyKind;
  px_address : option ProxyAddress;
  px_authentication : option string;
  px_authentication_version : Z;
  px_enabled : bool;
  px_config_version : Z
}.

(** [ProxyDraft::new] *)
Definition proxy_draft_new (name : string) (kind : ProxyKind) (address : ProxyAddress) (enabled : bool)
    : result ProxyDraft ProxyValidationError :=
  if bool_decide (kind = Direct) then Err DirectCannotBeCreated
  else match validate_text MAX_PROXY_NAME_CHARS ProxyEmptyName ProxyNameNotTrimmed ProxyNameTooLong name with
       | Err e => Err e
       | Ok name => Ok {| xd_name := name; xd_kind := kind; xd_address := address; xd_enabled := enabled |}
       end.

(** [direct], [is_built_in], [from_draft], [matches_draft] *)
Definition proxy_direct : ProxyProfile :=
  {| px_id := DIRECT; px_name := "DIRECT"; px_kind := Direct; px_address := None;
     px_authentication := None; px_authentication_version := 0; px_enabled := true;
     px_config_version := 1 |}.
Definition is_built_in (p : ProxyProfile) : bool := px_id p =? DIRECT.
Definition proxy_from_draft (id : Z) (d : ProxyDraft) (authentication : option string)
    (authentication_version config_version : Z) : ProxyProfile :=
  {| px_id := id; px_name := xd_name d; px_kind := xd_kind d; px_address := Some (xd_address d);
     px_authentication := authentication; px_authentication_version := authentication_version;
     px_enabled := xd_enabled d; px_config_version := config_version |}.
Definition proxy_matches_draft (p : ProxyProfile) (d : ProxyDraft) : bool :=
  bool_decide (px_name p = xd_name d) && bool_decide (px_kind p = xd_kind d) &&
  bool_decide (px_address p = Some (xd_address d)) && bool_decide (px_enabled p = xd_enabled d).

(** [create], [restore], [updated] *)
Definition proxy_create (id : Z) (d : ProxyDraft) : result ProxyProfile ProxyValidationError :=
  if id =? DIRECT then Err DirectIdReserved else Ok (proxy_from_draft id d None 0 1).
Definition proxy_restore (id : Z) (name : string) (kind : ProxyKind) (address : option ProxyAddress)
    (enabled : bool) (authentication : option string) (authentication_version config_version : Z)
    : result ProxyProfile ProxyValidationError :=
  if (config_version =? 0) || (MAX_VERSION <? config_version) then Err ProxyInvalidConfigVersion
  else if id =? DIRECT then
    if negb (bool_decide (name = px_name proxy_direct)) || negb (bool_decide (kind = Direct)) ||
       bool_decide (is_Some address) || bool_decide (is_Some authentication) ||
       negb (authentication_version =? 0) || negb enabled
    then Err DirectInvariant
    else Ok {| px_id := DIRECT; px_name := px_name proxy_direct; px_kind := Direct; px_address := None;
               px_authentication := None; px_authentication_version := 0; px_enabled := true;
               px_config_version := config_version |}
  else if bool_decide (kind = Direct) then Err DirectIdReserved
  else
    match address with
    | None => Err MissingAddress
    | Some address =>
      match proxy_draft_new name kind address enabled with
      | Err e => Err e
      | Ok d =>
        if bool_decide (is_Some authentication) && (authentication_version =? 0)
        then Err InvalidAuthenticationVersion
        else Ok (proxy_from_draft id d authentication authentication_version config_version)
      end
    end.
Definition proxy_updated (p : ProxyProfile) (d : ProxyDraft) : result ProxyProfile ProxyValidationError :=
  if is_built_in p then Err DirectInvariant
  else if proxy_matches_draft p d then Ok p
  else match next_version ProxyInvalidConfigVersion (px_config_version p) with
       | Err e => Err e
       | Ok version => Ok (proxy_from_draft (px_id p) d (px_authentication p)
                             (px_authentication_version p) version)
       end.

(** The same profile with other authentication and versions *)
Definition proxy_with (p : ProxyProfile) (authentication : option string)
    (authentication_version config_version : Z) : ProxyProfile :=
  {| px_id := px_id p; px_name := px_name p; px_kind := px_kind p; px_address := px_address p;
     px_authentication := authentication; px_authentication_version := authentication_version;
     px_enabled := px_enabled p; px_config_version := config_version |}.

(** [set_authentication], [clear_authentication] *)
Definition set_authentication (p : ProxyProfile) (username : string)
    : result ProxyProfile ProxyValidationError :=
  if is_built_in p then Err DirectInvariant
  else
    match proxy_authentication_new username with
    | Err e => Err (InvalidAuthentication e)
    | Ok username =>
      match next_version ProxyInvalidConfigVersion (px_authentication_version p) with
      | Err e => Err e
      | Ok authentication_version =>
        match next_version ProxyInvalidConfigVersion (px_config_version p) with
        | Err e => Err e
        | Ok config_version => Ok (proxy_with p (Some username) authentication_version config_version)
        end
      end
    end.
Definition clear_authentication (p : ProxyProfile) : result ProxyProfile ProxyValidationError :=
  if is_built_in p then Err DirectInvariant
  else if bool_decide (px_authentication p = None) then Ok p
  else
    match next_version ProxyInvalidConfigVersion (px_authentication_version p) with
    | Err e => Err e
    | Ok authentication_version =>
      match next_version ProxyInvalidConfigVersion (px_config_version p) with
      | Err e => Err e
      | Ok config_version => Ok (proxy_with p None authentication_version config_version)
      end
    end.

(** * Gateway API keys *)

Definition GATEWAY_TOKEN_HASH_VERSION : Z := 2.
Definition GATEWAY_TOKEN_VERSION : Z := 1.
Definition GATEWAY_TOKEN_PREFIX : string := "sk-".
Definition GATEWAY_TOKEN_BODY_LEN : nat := 43.
Definition MAX_KEY_NAME_CHARS : nat := 100.
Definition MAX_PREFIX_CHARS : nat := 64.

Inductive GatewayApiKeyValidationError :=
| KeyEmptyName | KeyNameNotTrimmed | KeyNameTooLong | InvalidTokenPrefix | InvalidToken
| KeyInvalidVersion | InvalidTimestamp | KeyDuplicateId | KeyDuplicateName.

(** [str::is_ascii], [u8::is_ascii_alphanumeric] *)
Definition is_ascii_text (s : string) : bool :=
  forallb (fun c => byte_value c <? 128) (String.list_ascii_of_string s).
Definition is_ascii_alphanumeric (c : ascii) : bool :=
  in_range 48 57 (byte_value c) || in_range 65 90 (byte_value c) || in_range 97 122 (byte_value c).

(** [str::strip_prefix] *)
Definition strip_prefix (prefix s : string) : option string :=
  if String.prefix prefix s
  then Some (String.substring (String.length prefix) (String.length s - String.length prefix) s)
  else None.

(** [validate_prefix], [validate_timestamp], [validate_token] *)
Definition validate_prefix (prefix : string) : result string GatewayApiKeyValidationError :=
  if bool_decide (prefix = "") || bool_decide (MAX_PREFIX_CHARS < length (chars prefix))%nat ||
     negb (is_ascii_text prefix) || existsb is_control (chars prefix)
  then Err InvalidTokenPrefix else Ok prefix.
Definition validate_timestamp (value : string) : result () GatewayApiKeyValidationError :=
  if bool_decide (trim value = "") || negb (bool_decide (trim value = value)) ||
     existsb is_control (chars value)
  then Err InvalidTimestamp else Ok ().
Definition validate_token (token : string) : result () GatewayApiKeyValidationError :=
  match strip_prefix GATEWAY_TOKEN_PREFIX token with
  | None => Err InvalidToken
  | Some body =>
    if negb (bool_decide (String.length body = GATEWAY_TOKEN_BODY_LEN)) || negb (is_ascii_text body) ||
       negb (forallb (fun c => is_ascii_alphanumeric c || bool_decide (c = "-"%char) ||
                               bool_decide (c = "_"%char)) (String.list_ascii_of_string body)) ||
       bool_decide (128 < length (chars token))%nat
    then Err InvalidToken else Ok ()
  end.

Record GatewayApiKeyDraft := { gd_name : string; gd_rpm : option Z; gd_enabled : bool }.

Record GatewayApiKey := {
  gk_id : Z;
  gk_name : string;
  gk_token : string;
  gk_token_prefix : string;
  gk_token_hash : list Byte.byte;
  gk_hash_version : Z;
  gk_token_version : Z;
  gk_config_version : Z;
  gk_rpm : option Z;
  gk_enabled : bool;
  gk_created_at : string;
  gk_last_used_at : option string
}.

(** [GatewayApiKeyDraft::new] with [with_requests_per_minute] *)
Definition key_draft_new (name : string) (rpm : option Z) (enabled : bool)
    : result GatewayApiKeyDraft GatewayApiKeyValidationError :=
  match validate_text MAX_KEY_NAME_CHARS KeyEmptyName KeyNameNotTrimmed KeyNameTooLong name with
  | Err e => Err e
  | Ok name => Ok {| gd_name := name; gd_rpm := rpm; gd_enabled := enabled |}
  end.

(** [create] *)
Definition key_create (id : Z) (d : GatewayApiKeyDraft) (token prefix : string)
    (hash : list Byte.byte) (created_at : string) : result GatewayApiKey GatewayApiKeyValidationError :=
  match validate_token token with
  | Err e => Err e
  | Ok _ =>
    match validate_prefix prefix with
    | Err e => Err e
    | Ok prefix =>
      match validate_timestamp created_at with
      | Err e => Err e
      | Ok _ =>
        Ok {| gk_id := id; gk_name := gd_name d; gk_token := token; gk_token_prefix := prefix;
              gk_token_hash := hash; gk_hash_version := GATEWAY_TOKEN_HASH_VERSION;
              gk_token_version := GATEWAY_TOKEN_VERSION; gk_config_version := GATEWAY_TOKEN_VERSION;
              gk_rpm := gd_rpm d; gk_enabled := gd_enabled d; gk_created_at := created_at;
              gk_last_used_at := None |}
      end
    end
  end.

(** [restore] *)
Definition key_restore (id : Z) (d : GatewayApiKeyDraft) (token prefix : string) (hash : list Byte.byte)
    (hash_version token_version config_version : Z) (created_at : string) (last_used_at : option string)
    : result GatewayApiKey GatewayApiKeyValidationError :=
  if negb (hash_version =? GATEWAY_TOKEN_HASH_VERSION) || negb (valid_version token_version) ||
     negb (valid_version config_version) then Err KeyInvalidVersion
  else
    match validate_token token with
    | Err e => Err e
    | Ok _ =>
      match validate_prefix prefix with
      | Err e => Err e
      | Ok prefix =>
        match match last_used_at with Some v => validate_timestamp v | None => Ok () end with
        | Err e => Err e
        | Ok _ =>
          match validate_timestamp created_at with
          | Err e => Err e
          | Ok _ =>
            Ok {| gk_id := id; gk_name := gd_name d; gk_token := token; gk_token_prefix := prefix;
                  gk_token_hash := hash; gk_hash_version := hash_version;
                  gk_token_version := token_version; gk_config_version := config_version;
                  gk_rpm := gd_rpm d; gk_enabled := gd_enabled d; gk_created_at := created_at;
                  gk_last_used_at := last_used_at |}
          end
        end
      end
    end.

(** [updated], [rotated] *)
Definition key_updated (k : GatewayApiKey) (d : GatewayApiKeyDraft)
    : result GatewayApiKey GatewayApiKeyValidationError :=
  if bool_decide (gk_name k = gd_name d) && bool_decide (gk_rpm k = gd_rpm d) &&
     bool_decide (gk_enabled k = gd_enabled d) then Ok k
  else
    match next_version KeyInvalidVersion (gk_config_version k) with
    | Err e => Err e
    | Ok v =>
      Ok {| gk_id := gk_id k; gk_name := gd_name d; gk_token := gk_token k;
            gk_token_prefix := gk_token_prefix k; gk_token_hash := gk_token_hash k;
            gk_hash_version := gk_hash_version k; gk_token_version := gk_token_version k;
            gk_config_version := v; gk_rpm := gd_rpm d; gk_enabled := gd_enabled d;
            gk_created_at := gk_created_at k; gk_last_used_at := gk_last_used_at k |}
    end.
Definition key_rotated (k : GatewayApiKey) (token prefix : string) (hash : list Byte.byte)
    : result GatewayApiKey GatewayApiKeyValidationError :=
  match validate_token token with
  | Err e => Err e
  | Ok _ =>
    match validate_prefix prefix with
    | Err e => Err e
    | Ok prefix =>
      match next_version KeyInvalidVersion (gk_token_version k) with
      | Err e => Err e
      | Ok token_version =>
        match next_version KeyInvalidVersion (gk_config_version k) with
        | Err e => Err e
        | Ok v =>
          Ok {| gk_id := gk_id k; gk_name := gk_name k; gk_token := token; gk_token_prefix := prefix;
                gk_token_hash := hash; gk_hash_version := gk_hash_version k;
                gk_token_version := token_version; gk_config_version := v; gk_rpm := gk_rpm k;
                gk_enabled := gk_enabled k; gk_created_at := gk_created_at k;
                gk_last_used_at := gk_last_used_at k |}
        end
      end
    end
  end.

(** * OAuth accounts *)

Definition MAX_ACCOUNT_LABEL_CHARS : nat := 100.
Definition MAX_SAFE_EMAIL_CHARS : nat := 320.

Inductive OAuthAccountValidationError :=
| AccountEmptyLabel | AccountLabelNotTrimmed | AccountLabelTooLong | AccountInvalidVersion
| InvalidExpiry | InvalidCreatedAt | InvalidEmail | AccountDuplicateId | AccountDuplicateLabel
| AccountInvalidModel (error : ModelNameValidationError) | AccountDuplicateModel | AccountMissingProxy.

#[export] Instance proxy_selection_eq_dec : EqDecision OAuthProxySelection.
Proof. solve_decision. Defined.

Record OAuthAccountDraft := { ad_label : string; ad_rpm : option Z; ad_enabled : bool }.

Record OAuthAccount := {
  oa_id : Z;
  oa_provider : ProviderKind;
  oa_label : string;
  oa_proxy : OAuthProxySelection;
  oa_rpm : option Z;
  oa_enabled : bool;
  oa_email : option string;
  oa_expires_at : option Z;
  oa_created_at : string;
  oa_token_version : Z;
  oa_generation : Z;
  oa_config_version : Z;
  oa_models : list string
}.

(** [OAuthAccountDraft::new] *)
Definition account_draft_new (label : string) (rpm : option Z) (enabled : bool)
    : result OAuthAccountDraft OAuthAccountValidationError :=
  match validate_text MAX_ACCOUNT_LABEL_CHARS AccountEmptyLabel AccountLabelNotTrimmed
          AccountLabelTooLong label with
  | Err e => Err e
  | Ok label => Ok {| ad_label := label; ad_rpm := rpm; ad_enabled := enabled |}
  end.

(** [validate_safe_email], [validate_created_at], [validate_models] *)
Definition validate_safe_email (email : option string)
    : result (option string) OAuthAccountValidationError :=
  match email with
  | None => Ok None
  | Some email =>
    if negb (bool_decide (trim email = email)) || bool_decide (email = "") ||
       bool_decide (MAX_SAFE_EMAIL_CHARS < length (chars email))%nat || existsb is_control (chars email)
    then Err InvalidEmail else Ok (Some email)
  end.
Definition validate_created_at (value : string) : result string OAuthAccountValidationError :=
  if bool_decide (trim value = "") || negb (bool_decide (trim value = value)) ||
     existsb is_control (chars value)
  then Err InvalidCreatedAt else Ok value.

(** [collect::<Result<Vec<_>, _>>] *)
Fixpoint try_map {A B E} (f : A -> result B E) (l : list A) : result (list B) E :=
  match l with
  | [] => Ok []
  | x :: l => match f x with
              | Err e => Err e
              | Ok y => match try_map f l with Err e => Err e | Ok ys => Ok (y :: ys) end
              end
  end.

Definition validate_account_models (models : list string)
    : result (list string) OAuthAccountValidationError :=
  match try_map (fun m => map_err AccountInvalidModel (model_name_new m)) models with
  | Err e => Err e
  | Ok models =>
    let models := merge_sort name_le models in
    if adjacent_equal id models then Err AccountDuplicateModel else Ok models
  end.

Definition invalid_expiry (expires_at : option Z) : bool :=
  match expires_at with Some v => v <? 0 | None => false end.

(** [restore] and [create] *)
Definition account_restore (id : Z) (provider : ProviderKind) (d : OAuthAccountDraft)
    (proxy : OAuthProxySelection) (email : option string) (expires_at : option Z) (created_at : string)
    (token_version generation config_version : Z) (models : list string)
    : result OAuthAccount OAuthAccountValidationError :=
  if negb (valid_version token_version) || negb (valid_version generation) ||
     negb (valid_version config_version) then Err AccountInvalidVersion
  else if invalid_expiry expires_at then Err InvalidExpiry
  else
    match validate_safe_email email with
    | Err e => Err e
    | Ok email =>
      match validate_created_at created_at with
      | Err e => Err e
      | Ok created_at =>
        match validate_account_models models with
        | Err e => Err e
        | Ok models =>
          Ok {| oa_id := id; oa_provider := provider; oa_label := ad_label d; oa_proxy := proxy;
                oa_rpm := ad_rpm d; oa_enabled := ad_enabled d; oa_email := email;
                oa_expires_at := expires_at; oa_created_at := created_at;
                oa_token_version := token_version; oa_generation := generation;
                oa_config_version := config_version; oa_models := models |}
        end
      end
    end.
Definition account_create (id : Z) (provider : ProviderKind) (d : OAuthAccountDraft)
    (proxy : OAuthProxySelection) (email : option string) (expires_at : option Z) (created_at : string)
    (models : list string) : result OAuthAccount OAuthAccountValidationError :=
  account_restore id provider d proxy email expires_at created_at 1 1 1 models.

(** The same account with other parts *)
Definition account_with (a : OAuthAccount) (d : OAuthAccountDraft) (proxy : OAuthProxySelection)
    (email : option string) (expires_at : option Z) (token_version generation config_version : Z)
    (models : list string) : OAuthAccount :=
  {| oa_id := oa_id a; oa_provider := oa_provider a; oa_label := ad_label d; oa_proxy := proxy;
     oa_rpm := ad_rpm d; oa_enabled := ad_enabled d; oa_email := email; oa_expires_at := expires_at;
     oa_created_at := oa_created_at a; oa_token_version := token_version; oa_generation := generation;
     oa_config_version := config_version; oa_models := models |}.
Definition account_draft (a : OAuthAccount) : OAuthAccountDraft :=
  {| ad_label := oa_label a; ad_rpm := oa_rpm a; ad_enabled := oa_enabled a |}.

(** A version that moves only with a change *)
Definition bump_if (changed : bool) (v : Z) : result Z OAuthAccountValidationError :=
  if changed then next_valid_version AccountInvalidVersion v else Ok v.

(** [updated]: enabling, or changing the proxy, starts a generation. *)
Definition account_updated (a : OAuthAccount) (d : OAuthAccountDraft) (proxy : OAuthProxySelection)
    : result OAuthAccount OAuthAccountValidationError :=
  if bool_decide (oa_label a = ad_label d) && bool_decide (oa_rpm a = ad_rpm d) &&
     bool_decide (oa_enabled a = ad_enabled d) && bool_decide (oa_proxy a = proxy) then Ok a
  else
    match bump_if (negb (oa_enabled a) && ad_enabled d || negb (bool_decide (oa_proxy a = proxy)))
            (oa_generation a) with
    | Err e => Err e
    | Ok generation =>
      match next_valid_version AccountInvalidVersion (oa_config_version a) with
      | Err e => Err e
      | Ok v => Ok (account_with a d proxy (oa_email a) (oa_expires_at a) (oa_token_version a)
                      generation v (oa_models a))
      end
    end.

(** [with_models], [refreshed], [reauthorized] *)
Definition account_with_models (a : OAuthAccount) (models : list string)
    : result OAuthAccount OAuthAccountValidationError :=
  match validate_account_models models with
  | Err e => Err e
  | Ok models =>
    if bool_decide (oa_models a = models) then Ok a
    else match next_valid_version AccountInvalidVersion (oa_config_version a) with
         | Err e => Err e
         | Ok v => Ok (account_with a (account_draft a) (oa_proxy a) (oa_email a) (oa_expires_at a)
                         (oa_token_version a) (oa_generation a) v models)
         end
  end.
Definition account_refreshed (a : OAuthAccount) (email : option string) (expires_at : option Z)
    : result OAuthAccount OAuthAccountValidationError :=
  if invalid_expiry expires_at then Err InvalidExpiry
  else
    match validate_safe_email email with
    | Err e => Err e
    | Ok email =>
      match next_valid_version AccountInvalidVersion (oa_token_version a) with
      | Err e => Err e
      | Ok v => Ok (account_with a (account_draft a) (oa_proxy a) email expires_at v (oa_generation a)
                      (oa_config_version a) (oa_models a))
      end
    end.
Definition account_reauthorized (a : OAuthAccount) (proxy : OAuthProxySelection) (email : option string)
    (expires_at : option Z) (models : list string) : result OAuthAccount OAuthAccountValidationError :=
  if invalid_expiry expires_at then Err InvalidExpiry
  else
    match validate_safe_email email with
    | Err e => Err e
    | Ok email =>
      match validate_account_models models with
      | Err e => Err e
      | Ok models =>
        let route_changed := negb (bool_decide (oa_proxy a = proxy)) in
        let config_changed := route_changed || negb (bool_decide (oa_models a = models)) in
        match next_valid_version AccountInvalidVersion (oa_token_version a),
              bump_if route_changed (oa_generation a),
              bump_if config_changed (oa_config_version a) with
        | Ok token_version, Ok generation, Ok config_version =>
          Ok (account_with a (account_draft a) proxy email expires_at token_version generation
                config_version models)
        | Err e, _, _ | _, Err e, _ | _, _, Err e => Err e
        end
      end
    end.

(** [supports_model] *)
Definition account_supports_model (a : OAuthAccount) (model : string) : bool :=
  bool_decide (is_Some (binary_search_by (fun m => String.compare m model) (oa_models a))).

(** * Histories of an entity *)

(** How an entity comes to be, how it changes, what reading its stored parts
    gives, and the versions it carries *)
Class Entity (A : Type) := {
  made : A -> Prop;
  moved : A -> A -> Prop;
  reload : A -> option A;
  versions : A -> list Z
}.
Definition ok {A E} (r : result A E) : option A := match r with Ok a => Some a | Err _ => None end.

Inductive endpoint_made {url_lib : UrlLib} : ProviderEndpoint -> Prop :=
| endpoint_made_by id name provider url dialect upstream enabled d e :
    endpoint_draft_new name provider url dialect upstream enabled = Ok d ->
    endpoint_create id d = Ok e -> endpoint_made e.
Inductive endpoint_moved {url_lib : UrlLib} (e : ProviderEndpoint) : ProviderEndpoint -> Prop :=
| endpoint_moved_by name provider url dialect upstream enabled d e' :
    endpoint_draft_new name provider url dialect upstream enabled = Ok d ->
    endpoint_updated e d = Ok e' -> endpoint_moved e e'.
Definition endpoint_reload (e : ProviderEndpoint) : option ProviderEndpoint :=
  match endpoint_draft_checked (ep_name e) (ep_provider e) (ep_base_url e) (ep_dialect e)
          (ep_upstream e) (ep_enabled e) with
  | Ok d => ok (endpoint_restore (ep_id e) d (ep_config_version e))
  | Err _ => None
  end.
#[export] Instance endpoint_entity {url_lib : UrlLib} : Entity ProviderEndpoint := {|
  made := endpoint_made; moved := endpoint_moved; reload := endpoint_reload;
  versions e := [ep_config_version e]
|}.

Inductive credential_made : ProviderCredential -> Prop :=
| credential_made_by id endpoint label kind proxy rpm enabled d fingerprint :
    credential_draft_new label kind proxy rpm enabled = Ok d ->
    credential_made (credential_create id endpoint d fingerprint).
Inductive credential_moved (c : ProviderCredential) : ProviderCredential -> Prop :=
| credential_moved_update label kind proxy rpm enabled d c' :
    credential_draft_new label kind proxy rpm enabled = Ok d ->
    credential_updated c d = Ok c' -> credential_moved c c'
| credential_moved_models models c' : credential_with_models c models = Ok c' -> credential_moved c c'
| credential_moved_rotate fingerprint c' : credential_rotated c fingerprint = Ok c' -> credential_moved c c'
| credential_moved_generation c' : credential_next_generation c = Ok c' -> credential_moved c c'.
Definition credential_reload (c : ProviderCredential) : option ProviderCredential :=
  match credential_draft_new (pc_label c) (pc_kind c) (pc_proxy c) (pc_rpm c) (pc_enabled c) with
  | Ok d => ok (credential_restore (pc_id c) (pc_endpoint c) d (pc_fingerprint c)
                  (pc_secret_version c) (pc_generation c) (pc_config_version c) (pc_models c))
  | Err _ => None
  end.
#[export] Instance credential_entity : Entity ProviderCredential := {|
  made := credential_made; moved := credential_moved; reload := credential_reload;
  versions c := [pc_secret_version c; pc_generation c; pc_config_version c]
|}.

Inductive proxy_made : ProxyProfile -> Prop :=
| proxy_made_direct : proxy_made proxy_direct
| proxy_made_by id name kind address enabled d p :
    proxy_draft_new name kind address enabled = Ok d -> proxy_create id d = Ok p -> proxy_made p.
Inductive proxy_moved (p : ProxyProfile) : ProxyProfile -> Prop :=
| proxy_moved_update name kind address enabled d p' :
    proxy_draft_new name kind address enabled = Ok d -> proxy_updated p d = Ok p' -> proxy_moved p p'
| proxy_moved_set username p' : set_authentication p username = Ok p' -> proxy_moved p p'
| proxy_moved_clear p' : clear_authentication p = Ok p' -> proxy_moved p p'.
Definition proxy_reload (p : ProxyProfile) : option ProxyProfile :=
  ok (proxy_restore (px_id p) (px_name p) (px_kind p) (px_address p) (px_enabled p)
        (px_authentication p) (px_authentication_version p) (px_config_version p)).
#[export] Instance proxy_entity : Entity ProxyProfile := {|
  made := proxy_made; moved := proxy_moved; reload := proxy_reload;
  versions p := [px_authentication_version p; px_config_version p]
|}.

Inductive key_made : GatewayApiKey -> Prop :=
| key_made_by id name rpm enabled d token prefix hash created_at k :
    key_draft_new name rpm enabled = Ok d -> key_create id d token prefix hash created_at = Ok k ->
    key_made k.
Inductive key_moved (k : GatewayApiKey) : GatewayApiKey -> Prop :=
| key_moved_update name rpm enabled d k' :
    key_draft_new name rpm enabled = Ok d -> key_updated k d = Ok k' -> key_moved k k'
| key_moved_rotate token prefix hash k' : key_rotated k token prefix hash = Ok k' -> key_moved k k'.
Definition key_reload (k : GatewayApiKey) : option GatewayApiKey :=
  match key_draft_new (gk_name k) (gk_rpm k) (gk_enabled k) with
  | Ok d => ok (key_restore (gk_id k) d (gk_token k) (gk_token_prefix k) (gk_token_hash k)
                  (gk_hash_version k) (gk_token_version k) (gk_config_version k) (gk_created_at k)
                  (gk_last_used_at k))
  | Err _ => None
  end.
#[export] Instance key_entity : Entity GatewayApiKey := {|
  made := key_made; moved := key_moved; reload := key_reload;
  versions k := [gk_token_version k; gk_config_version k]
|}.

Inductive account_made : OAuthAccount -> Prop :=
| account_made_by id provider label rpm enabled d proxy email expires_at created_at models a :
    account_draft_new label rpm enabled = Ok d ->
    account_create id provider d proxy email expires_at created_at models = Ok a -> account_made a.
Inductive account_moved (a : OAuthAccount) : OAuthAccount -> Prop :=
| account_moved_update label rpm enabled d proxy a' :
    account_draft_new label rpm enabled = Ok d -> account_updated a d proxy = Ok a' -> account_moved a a'
| account_moved_models models a' : account_with_models a models = Ok a' -> account_moved a a'
| account_moved_refresh email expires_at a' :
    account_refreshed a email expires_at = Ok a' -> account_moved a a'
| account_moved_reauthorize proxy email expires_at models a' :
    account_reauthorized a proxy email expires_at models = Ok a' -> account_moved a a'.
Definition account_reload (a : OAuthAccount) : option OAuthAccount :=
  match account_draft_new (oa_label a) (oa_rpm a) (oa_enabled a) with
  | Ok d => ok (account_restore (oa_id a) (oa_provider a) d (oa_proxy a) (oa_email a)
                  (oa_expires_at a) (oa_created_at a) (oa_token_version a) (oa_generation a)
                  (oa_config_version a) (oa_models a))
  | Err _ => None
  end.
#[export] Instance account_entity : Entity OAuthAccount := {|
  made := account_made; moved := account_moved; reload := account_reload;
  versions a := [oa_token_version a; oa_generation a; oa_config_version a]
|}.

(** Entities the program can hold *)
Definition reached `{Entity A} (a : A) : Prop := exists a0, made a0 /\ rtc moved a0 a.

(** Versions never go back, and stand still only if nothing changed. *)
Definition grows `{Entity A} (a b : A) : Prop :=
  a = b \/ Forall2 Z.le (versions a) (versions b) /\ versions a <> versions b.

Class EntityLaws A `{Entity A} := {
  good : A -> Prop;
  made_good (a : A) : made a -> good a;
  moved_good (a b : A) : good a -> moved a b -> good b;
  good_reload (a : A) : good a -> reload a = Some a;
  moved_grows (a b : A) : moved a b -> grows a b
}.

Lemma reached_good `{EntityLaws A} (a : A) : reached a -> good a.
Proof.
  intros (a0 & Hm & Hr). eapply rtc_invariant; [|exact Hr|by apply made_good].
  intros x y Hxy Hx. by eapply moved_good.
Qed.

Lemma le_antisym (l k : list Z) : Forall2 Z.le l k -> Forall2 Z.le k l -> l = k.
Proof.
  induction 1 as [|x y l k Hxy Hl IH]; intros Hk; [done|]. inversion_clear Hk. f_equal; [lia|auto].
Qed.

Lemma moved_run_grows `{EntityLaws A} (a b : A) : rtc moved a b -> grows a b.
Proof.
  induction 1 as [a|a b c Hab _ IH]; [by left|]. apply moved_grows in Hab.
  destruct Hab as [->|[Hab Hne]]; [done|]. destruct IH as [->|[Hbc _]]; [by right|]. right.
  split; [by etrans|]. intros E. apply Hne. apply le_antisym; [done|]. by rewrite E.
Qed.

(** * Texts and versions *)

Definition text_ok (max : nat) (s : string) : Prop :=
  trim s <> "" /\ trim s = s /\ (length (chars s) <= max)%nat.

Lemma validate_text_Ok {E} max (e1 e2 e3 : E) s s' :
  validate_text max e1 e2 e3 s = Ok s' <-> s' = s /\ text_ok max s.
Proof.
  unfold validate_text, text_ok. split.
  - repeat case_bool_decide; simpl; intros; simplify_eq. split_and!; try done. lia.
  - intros (-> & H1 & H2 & H3). rewrite bool_decide_eq_false_2, bool_decide_eq_true_2 by done. simpl.
    rewrite bool_decide_eq_false_2; [done|lia].
Qed.

Definition version_ok (v : Z) : Prop := 0 < v <= MAX_VERSION.
Lemma valid_version_spec v : valid_version v = true <-> version_ok v.
Proof. unfold valid_version, version_ok. rewrite andb_true_iff, Z.ltb_lt, Z.leb_le. done. Qed.

Lemma next_version_Ok {E} (e : E) v w : next_version e v = Ok w -> w = v + 1 /\ w <= MAX_VERSION.
Proof.
  unfold next_version, checked_add. repeat case_match; intros; simplify_eq; bool_to_prop. lia.
Qed.
Lemma next_valid_version_Ok {E} (e : E) v w :
  next_valid_version e v = Ok w -> w = v + 1 /\ w <= MAX_VERSION.
Proof.
  unfold next_valid_version, checked_add. destruct (v + 1 <=? u64_max); [|done].
  destruct (valid_version (v + 1)) eqn:E'; [|done]. intros; simplify_eq.
  apply valid_version_spec in E'. unfold version_ok in *. lia.
Qed.
Lemma version_ok_next v : version_ok v -> v + 1 <= MAX_VERSION -> version_ok (v + 1).
Proof. unfold version_ok. lia. Qed.
#[export] Hint Resolve version_ok_next : any2api.

Lemma version_one : version_ok 1.
Proof. unfold version_ok, MAX_VERSION, u32_max. lia. Qed.
#[export] Hint Resolve version_one : any2api.

(** What an operation that succeeded tells of the versions it moved *)
Ltac bumped :=
  repeat match goal with
  | H : next_version _ _ = Ok _ |- _ => apply next_version_Ok in H as [-> ?]
  | H : next_valid_version _ _ = Ok _ |- _ => apply next_valid_version_Ok in H as [-> ?]
  end.
(** The versions of a changed entity are larger. *)
Ltac grown := right; split; [repeat constructor; simpl; lia|simpl; intros E; injection E; lia].

(** * Endpoints *)

Definition endpoint_good (e : ProviderEndpoint) : Prop :=
  text_ok MAX_ENDPOINT_NAME_CHARS (ep_name e) /\ version_ok (ep_config_version e) /\
  ep_upstream e <> Some (ep_dialect e).

Lemma endpoint_draft_Ok name provider url dialect upstream enabled d :
  endpoint_draft_checked name provider url dialect upstream enabled = Ok d ->
  text_ok MAX_ENDPOINT_NAME_CHARS (ed_name d) /\ ed_upstream d <> Some (ed_dialect d).
Proof.
  unfold endpoint_draft_checked. destruct (validate_text _ _ _ _ _) as [s|] eqn:E; [|done].
  apply validate_text_Ok in E as [-> Hs]. intros; simplify_eq/=. split; [done|].
  destruct upstream as [u|]; [|done]. case_bool_decide; congruence.
Qed.

Lemma endpoint_draft_new_Ok {url_lib : UrlLib} name provider url dialect upstream enabled d :
  endpoint_draft_new name provider url dialect upstream enabled = Ok d ->
  text_ok MAX_ENDPOINT_NAME_CHARS (ed_name d) /\ ed_upstream d <> Some (ed_dialect d).
Proof. unfold endpoint_draft_new. destruct (base_url_parse url); [|done]. apply endpoint_draft_Ok. Qed.

#[export] Instance endpoint_laws {url_lib : UrlLib} : EntityLaws ProviderEndpoint.
Proof.
  refine {| good := endpoint_good |}.
  - intros e [id name provider url dialect upstream enabled d e' Hd He]. injection He as <-.
    apply endpoint_draft_new_Ok in Hd as [? ?]. split_and!; [done|apply version_one|done].
  - intros e e' (Hn & Hv & Hu) [name provider url dialect upstream enabled d e'' Hd He].
    apply endpoint_draft_new_Ok in Hd as [? ?]. unfold endpoint_updated in He.
    destruct (negb _); [done|]. destruct (endpoint_matches_draft _ _); [by simplify_eq|].
    destruct (next_version _ _) eqn:Ev; [|done]. bumped. simplify_eq. split_and!; [done| |done].
    by apply version_ok_next.
  - intros e (Hn & Hv & Hu). simpl. unfold endpoint_reload, endpoint_draft_checked, endpoint_restore.
    rewrite (proj2 (validate_text_Ok _ _ _ _ _ _) (conj eq_refl Hn)).
    rewrite bool_decide_eq_false_2 by (unfold version_ok in *; lia).
    rewrite (proj2 (Z.ltb_ge _ _)) by (unfold version_ok in *; lia). simpl. f_equal. destruct e; simpl in *.
    unfold endpoint_from_draft. simpl. f_equal. destruct ep_upstream0 as [u|]; [|done].
    rewrite bool_decide_eq_false_2; congruence.
  - intros e e' [name provider url dialect upstream enabled d e'' Hd He]. unfold endpoint_updated in He.
    destruct (negb _); [done|]. destruct (endpoint_matches_draft _ _) eqn:Em; [simplify_eq; by left|].
    destruct (next_version _ _) eqn:Ev; [|done]. bumped. simplify_eq. grown.
Defined.

(** * Credentials *)

#[export] Instance model_le_trans : Transitive model_le.
Proof.
  intros a b c. unfold model_le. intros [H1|[E1 H1]] [H2|[E2 H2]].
  - left. by etrans.
  - left. congruence.
  - left. congruence.
  - right. split; [congruence|]. destruct (public_alias a), (public_alias b), (public_alias c);
      simpl in *; try done. by etrans.
Qed.
#[export] Instance model_le_antisym : AntiSymm eq model_le.
Proof.
  intros [u p] [v q]. unfold model_le. simpl. intros [H1|[-> H1]] [H2|[E2 H2]].
  - destruct (irreflexivity name_lt u). by etrans.
  - subst. by destruct (irreflexivity name_lt u).
  - by destruct (irreflexivity name_lt v).
  - f_equal. destruct p, q; simpl in *; try done. f_equal. by apply (anti_symm name_le).
Qed.
#[export] Instance model_le_total : Total model_le.
Proof.
  intros [u p] [v q]. unfold model_le. simpl. destruct (String.compare u v) eqn:E.
  - apply String.compare_eq_iff in E as ->. destruct p as [p|], q as [q|]; simpl; auto.
    destruct (total name_le p q); auto.
  - auto.
  - apply compare_gt in E. auto.
Qed.

Lemma sorted_upstream (l : list ProviderCredentialModel) :
  StronglySorted model_le l -> StronglySorted (fun a b => name_le (upstream_name a) (upstream_name b)) l.
Proof.
  induction 1 as [|x l Hl IH Hx]; constructor; [done|]. eapply Forall_impl; [exact Hx|].
  intros y [H|[-> _]]; unfold name_le; apply leb_spec; auto.
Qed.

(** The models of a credential are sorted, without two of one name. *)
Definition models_ok (l : list ProviderCredentialModel) : Prop :=
  StronglySorted model_le l /\ NoDup (upstream_name <$> l) /\ NoDup (public_name <$> l).

Lemma validate_models_spec models models' : validate_models models = Ok models' <->
  models' = merge_sort model_le models /\ models_ok models'.
Proof.
  unfold validate_models, models_ok. set (l := merge_sort model_le models).
  pose proof (merge_sort_strong model_le models) as Hs. fold l in Hs.
  pose proof (adjacent_equal_NoDup upstream_name name_le l _ (sorted_upstream _ Hs)) as H1.
  pose proof (sorted_names_NoDup (public_name <$> l)) as H2. destruct (adjacent_equal upstream_name l).
  { split; [done|]. intros (-> & _ & Hnd & _). by apply H1 in Hnd. }
  destruct (adjacent_equal id _).
  { split; [done|]. intros (-> & _ & _ & Hnd). by apply H2 in Hnd. }
  split; [intros; simplify_eq; split_and!; tauto|]. by intros (-> & _).
Qed.

Lemma validate_models_idem models : models_ok models -> validate_models models = Ok models.
Proof.
  intros Hm. apply validate_models_spec. split; [|done]. symmetry.
  apply merge_sort_sorted; apply _ || apply Hm.
Qed.

Definition credential_good (c : ProviderCredential) : Prop :=
  text_ok MAX_CREDENTIAL_LABEL_CHARS (pc_label c) /\
  (version_ok (pc_secret_version c) /\ version_ok (pc_generation c) /\ version_ok (pc_config_version c)) /\
  models_ok (pc_models c).

Lemma credential_draft_Ok label kind proxy rpm enabled d :
  credential_draft_new label kind proxy rpm enabled = Ok d ->
  text_ok MAX_CREDENTIAL_LABEL_CHARS (cd_label d).
Proof.
  unfold credential_draft_new. destruct (validate_text _ _ _ _ _) eqn:E; [|done].
  apply validate_text_Ok in E as [-> Hs]. by intros; simplify_eq/=.
Qed.

(** What each change of a credential does *)
Inductive credential_change (c : ProviderCredential) : ProviderCredential -> Prop :=
| credential_same : credential_change c c
| credential_to c' :
    pc_secret_version c' = pc_secret_version c \/
      pc_secret_version c' = pc_secret_version c + 1 /\ pc_secret_version c' <= MAX_VERSION ->
    pc_generation c' = pc_generation c \/
      pc_generation c' = pc_generation c + 1 /\ pc_generation c' <= MAX_VERSION ->
    pc_config_version c' = pc_config_version c \/
      pc_config_version c' = pc_config_version c + 1 /\ pc_config_version c' <= MAX_VERSION ->
    pc_generation c' <> pc_generation c \/ pc_config_version c' <> pc_config_version c ->
    pc_label c' = pc_label c \/ text_ok MAX_CREDENTIAL_LABEL_CHARS (pc_label c') ->
    pc_models c' = pc_models c \/ models_ok (pc_models c') ->
    credential_change c c'.

Lemma models_ok_nil : models_ok [].
Proof. split_and!; constructor. Qed.

Lemma credential_moved_change c c' : credential_moved c c' -> credential_change c c'.
Proof.
  intros [label kind proxy rpm enabled d c1 Hd H|models c1 H|fp c1 H|c1 H].
  - apply credential_draft_Ok in Hd. unfold credential_updated in H.
    destruct (credential_matches_draft c d); [simplify_eq; constructor|].
    destruct (next_version _ (pc_config_version c)) eqn:E1; [|done].
    destruct (negb (pc_enabled c) && cd_enabled d).
    + destruct (next_version _ (pc_generation c)) eqn:E2; [|done]. bumped. simplify_eq.
      apply credential_to; simpl; auto. lia.
    + bumped. simplify_eq. apply credential_to; simpl; auto. lia.
  - unfold credential_with_models in H. destruct (validate_models models) as [l|] eqn:El; [|done].
    apply validate_models_spec in El as [_ Hl]. case_bool_decide; [simplify_eq; constructor|].
    destruct (next_version _ _) eqn:E; [|done]. bumped. simplify_eq.
    apply credential_to; simpl; auto. lia.
  - unfold credential_rotated in H. destruct (next_version _ (pc_secret_version c)) eqn:E1; [|done].
    destruct (next_version _ (pc_generation c)) eqn:E2; [|done].
    destruct (next_version _ (pc_config_version c)) eqn:E3; [|done]. bumped. simplify_eq.
    apply credential_to; simpl; auto; [lia|right; apply models_ok_nil].
  - unfold credential_next_generation in H. destruct (next_version _ _) eqn:E; [|done]. bumped.
    simplify_eq. apply credential_to; simpl; auto. lia.
Qed.

#[export] Instance credential_laws : EntityLaws ProviderCredential.
Proof.
  refine {| good := credential_good |}.
  - intros c [id endpoint label kind proxy rpm enabled d fp Hd]. apply credential_draft_Ok in Hd.
    split_and!; simpl; try apply version_one; [done|apply models_ok_nil..].
  - intros c c' (Ht & (H1 & H2 & H3) & Hm) H. apply credential_moved_change in H as [|c1 ? ? ? _ Hl Hm'];
      [by split_and!|]. unfold credential_good, version_ok in *.
    split_and!; [by destruct Hl as [->|]|lia..|by destruct Hm' as [->|]].
  - intros c (Ht & (H1 & H2 & H3) & Hm). simpl. unfold credential_reload, credential_draft_new.
    rewrite (proj2 (validate_text_Ok _ _ _ _ _ _) (conj eq_refl Ht)). unfold credential_restore.
    apply valid_version_spec in H1, H2, H3. rewrite H1, H2, H3. simpl.
    rewrite (validate_models_idem _ Hm). by destruct c.
  - intros c c' H. apply credential_moved_change in H as [|c1 ? ? ? Hne]; [by left|]. right.
    split; [repeat constructor; lia|]. intros E. injection E. lia.
Defined.

(** * Proxies *)

(** A profile is the built-in one, at any version, or a network proxy. *)
Definition proxy_good (p : ProxyProfile) : Prop :=
  version_ok (px_config_version p) /\ 0 <= px_authentication_version p /\
  if decide (px_id p = DIRECT)
  then p = proxy_with proxy_direct None 0 (px_config_version p)
  else px_kind p <> Direct /\ is_Some (px_address p) /\ text_ok MAX_PROXY_NAME_CHARS (px_name p) /\
       (is_Some (px_authentication p) -> px_authentication_version p <> 0).

Lemma proxy_draft_Ok name kind address enabled d : proxy_draft_new name kind address enabled = Ok d ->
  xd_kind d <> Direct /\ text_ok MAX_PROXY_NAME_CHARS (xd_name d).
Proof.
  unfold proxy_draft_new. case_bool_decide; [done|]. destruct (validate_text _ _ _ _ _) eqn:E; [|done].
  apply validate_text_Ok in E as [-> Hs]. by intros; simplify_eq/=.
Qed.

Lemma proxy_draft_self name kind address enabled : kind <> Direct -> text_ok MAX_PROXY_NAME_CHARS name ->
  proxy_draft_new name kind address enabled =
    Ok {| xd_name := name; xd_kind := kind; xd_address := address; xd_enabled := enabled |}.
Proof.
  intros Hk Ht. unfold proxy_draft_new. rewrite bool_decide_eq_false_2 by done.
  by rewrite (proj2 (validate_text_Ok _ _ _ _ _ _) (conj eq_refl Ht)).
Qed.

(** What each change of a profile does *)
Inductive proxy_change (p : ProxyProfile) : ProxyProfile -> Prop :=
| proxy_same : proxy_change p p
| proxy_redrafted d : px_id p <> DIRECT -> px_config_version p + 1 <= MAX_VERSION ->
    xd_kind d <> Direct -> text_ok MAX_PROXY_NAME_CHARS (xd_name d) ->
    proxy_change p (proxy_from_draft (px_id p) d (px_authentication p) (px_authentication_version p)
                      (px_config_version p + 1))
| proxy_reauthenticated username : px_id p <> DIRECT -> px_config_version p + 1 <= MAX_VERSION ->
    proxy_change p (proxy_with p username (px_authentication_version p + 1) (px_config_version p + 1)).

Lemma proxy_moved_change p p' : proxy_moved p p' -> proxy_change p p'.
Proof.
  intros [name kind address enabled d p1 Hd H|username p1 H|p1 H].
  - apply proxy_draft_Ok in Hd as [? ?]. unfold proxy_updated in H.
    destruct (is_built_in p) eqn:Eb; [done|]. unfold is_built_in in Eb. bool_to_prop.
    destruct (proxy_matches_draft p d); [simplify_eq; constructor|].
    destruct (next_version _ _) eqn:E; [|done]. bumped. simplify_eq. by constructor.
  - unfold set_authentication in H. destruct (is_built_in p) eqn:Eb; [done|]. unfold is_built_in in Eb.
    bool_to_prop. destruct (proxy_authentication_new username); [|done].
    destruct (next_version _ (px_authentication_version p)) eqn:E1; [|done].
    destruct (next_version _ (px_config_version p)) eqn:E2; [|done]. bumped. simplify_eq. by constructor.
  - unfold clear_authentication in H. destruct (is_built_in p) eqn:Eb; [done|]. unfold is_built_in in Eb.
    bool_to_prop. case_bool_decide; [simplify_eq; constructor|].
    destruct (next_version _ (px_authentication_version p)) eqn:E1; [|done].
    destruct (next_version _ (px_config_version p)) eqn:E2; [|done]. bumped. simplify_eq. by constructor.
Qed.

Lemma proxy_good_reload p : proxy_good p -> proxy_reload p = Some p.
Proof.
  intros (Hv & Ha & H). unfold proxy_reload, proxy_restore, version_ok in *.
  rewrite (proj2 (Z.eqb_neq _ _)), (proj2 (Z.ltb_ge _ _)) by lia. simpl.
  case_decide as E; [rewrite E; rewrite H; by vm_compute|]. rewrite (proj2 (Z.eqb_neq _ _)) by done.
  destruct H as (Hk & [address Had] & Ht & Hau). rewrite bool_decide_eq_false_2 by done. rewrite Had.
  rewrite proxy_draft_self by done. destruct p as [id name kind ad au av en cv]; simpl in *.
  case_bool_decide as Hs; simpl; [|by simplify_eq].
  rewrite (proj2 (Z.eqb_neq _ _)); [by simplify_eq|by apply Hau].
Qed.

#[export] Instance proxy_laws : EntityLaws ProxyProfile.
Proof.
  refine {| good := proxy_good; good_reload := proxy_good_reload |}.
  - intros p [|id name kind address enabled d p' Hd H].
    + split_and!; [apply version_one|done|]. by case_decide.
    + apply proxy_draft_Ok in Hd as [? ?]. unfold proxy_create in H.
      destruct (id =? DIRECT) eqn:E; [done|]. bool_to_prop. simplify_eq.
      split_and!; [apply version_one|done|]. simpl. case_decide; [done|].
      by split_and!.
  - intros p p' (Hv & Ha & H) Hm. apply proxy_moved_change in Hm as [|d ? ? ? ?|username ? ?].
    + by split_and!.
    + split_and!; simpl; [by apply version_ok_next|done|]. case_decide; [done|].
      destruct H as (? & ? & ? & ?). by split_and!.
    + split_and!; simpl; [by apply version_ok_next|lia|]. case_decide; [done|].
      destruct H as (? & ? & ? & ?). split_and!; try done. lia.
  - intros p p' Hm. apply proxy_moved_change in Hm as [|d ? ? ? ?|username ? ?]; [by left|grown|grown].
Defined.

(** * Gateway keys *)

Definition key_good (k : GatewayApiKey) : Prop :=
  text_ok MAX_KEY_NAME_CHARS (gk_name k) /\ gk_hash_version k = GATEWAY_TOKEN_HASH_VERSION /\
  version_ok (gk_token_version k) /\ version_ok (gk_config_version k) /\
  validate_token (gk_token k) = Ok () /\ validate_prefix (gk_token_prefix k) = Ok (gk_token_prefix k) /\
  validate_timestamp (gk_created_at k) = Ok () /\
  match gk_last_used_at k with Some v => validate_timestamp v = Ok () | None => True end.

Lemma key_draft_Ok name rpm enabled d : key_draft_new name rpm enabled = Ok d ->
  text_ok MAX_KEY_NAME_CHARS (gd_name d).
Proof.
  unfold key_draft_new. destruct (validate_text _ _ _ _ _) eqn:E; [|done].
  apply validate_text_Ok in E as [-> Hs]. by intros; simplify_eq/=.
Qed.
Lemma validate_prefix_Ok prefix p : validate_prefix prefix = Ok p -> p = prefix.
Proof. unfold validate_prefix. case_match; intros; by simplify_eq. Qed.

#[export] Instance key_laws : EntityLaws GatewayApiKey.
Proof.
  refine {| good := key_good |}.
  - intros k [id name rpm enabled d token prefix hash created_at k' Hd H]. apply key_draft_Ok in Hd.
    unfold key_create in H. destruct (validate_token token) as [[]|] eqn:E1; [|done].
    destruct (validate_prefix prefix) eqn:E2; [|done]. pose proof (validate_prefix_Ok _ _ E2). subst.
    destruct (validate_timestamp created_at) as [[]|] eqn:E3; [|done]. simplify_eq.
    unfold key_good. simpl. split_and!; try done; apply version_one.
  - intros k k' (Ht & Hh & Hv & Hc & H1 & H2 & H3 & H4)
      [name rpm enabled d k1 Hd H|token prefix hash k1 H].
    + apply key_draft_Ok in Hd. unfold key_updated in H. destruct (_ && _); [by simplify_eq|].
      destruct (next_version _ _) eqn:E; [|done]. bumped. simplify_eq. unfold key_good. simpl.
      split_and!; try done; by apply version_ok_next.
    + unfold key_rotated in H. destruct (validate_token token) as [[]|] eqn:E1; [|done].
      destruct (validate_prefix prefix) eqn:E2; [|done]. pose proof (validate_prefix_Ok _ _ E2). subst.
      destruct (next_version _ (gk_token_version k)) eqn:E3; [|done].
      destruct (next_version _ (gk_config_version k)) eqn:E4; [|done]. bumped. simplify_eq.
      unfold key_good. simpl. split_and!; try done; by apply version_ok_next.
  - intros k (Ht & Hh & Hv & Hc & H1 & H2 & H3 & H4). simpl. unfold key_reload, key_draft_new.
    rewrite (proj2 (validate_text_Ok _ _ _ _ _ _) (conj eq_refl Ht)). unfold key_restore.
    apply valid_version_spec in Hv, Hc. rewrite Hh, Hv, Hc, Z.eqb_refl. simpl. rewrite H1, H2, H3.
    destruct k as [? ? ? ? ? ? ? ? ? ? ? [u|]]; simpl in *; rewrite ?H4; by subst.
  - intros k k' [name rpm enabled d k1 Hd H|token prefix hash k1 H].
    + unfold key_updated in H. destruct (_ && _); [simplify_eq; by left|].
      destruct (next_version _ _) eqn:E; [|done]. bumped. simplify_eq. grown.
    + unfold key_rotated in H. destruct (validate_token token); [|done].
      destruct (validate_prefix prefix); [|done].
      destruct (next_version _ (gk_token_version k)) eqn:E3; [|done].
      destruct (next_version _ (gk_config_version k)) eqn:E4; [|done]. bumped. simplify_eq. grown.
Defined.

(** * OAuth accounts *)

Definition name_ok (m : string) : Prop := model_name_new m = Ok m.
Definition account_models_ok (l : list string) : Prop :=
  Forall name_ok l /\ StronglySorted name_le l /\ NoDup l.

Lemma model_name_Ok m m' : model_name_new m = Ok m' -> m' = m /\ name_ok m.
Proof. unfold name_ok. intros H. assert (m' = m) as ->; [|done].
  unfold model_name_new in H. by repeat case_match; simplify_eq. Qed.

Lemma try_map_names l l' :
  try_map (fun m => map_err AccountInvalidModel (model_name_new m)) l = Ok l' ->
  l' = l /\ Forall name_ok l.
Proof.
  revert l'. induction l as [|m l IH]; intros l' H; simpl in H; [by simplify_eq|].
  destruct (model_name_new m) as [n|] eqn:E; [|done]. simpl in H.
  destruct (try_map _ l) as [k|]; [|done]. simplify_eq. destruct (IH k eq_refl) as [-> ?].
  apply model_name_Ok in E as [-> ?]. split; [done|by constructor].
Qed.
Lemma try_map_names_Ok l : Forall name_ok l ->
  try_map (fun m => map_err AccountInvalidModel (model_name_new m)) l = Ok l.
Proof. induction 1 as [|m l Hm _ IH]; simpl; [done|]. rewrite Hm. simpl. by rewrite IH. Qed.

Lemma validate_account_models_spec models models' : validate_account_models models = Ok models' ->
  models' ≡ₚ models /\ account_models_ok models'.
Proof.
  unfold validate_account_models. destruct (try_map _ models) as [l|] eqn:E; [|done].
  apply try_map_names in E as [-> Hn]. destruct (adjacent_equal _ _) eqn:Ea; [done|].
  intros; simplify_eq. apply sorted_names_NoDup in Ea.
  pose proof (merge_sort_Permutation name_le models) as Hp. split; [done|]. split_and!.
  - by rewrite Hp.
  - apply (merge_sort_strong name_le).
  - by rewrite Hp.
Qed.
Lemma validate_account_models_idem models : account_models_ok models ->
  validate_account_models models = Ok models.
Proof.
  intros (Hn & Hs & Hd). unfold validate_account_models. rewrite try_map_names_Ok by done.
  rewrite (proj2 (sorted_names_NoDup models) Hd), (merge_sort_sorted name_le) by done. done.
Qed.

Definition account_good (a : OAuthAccount) : Prop :=
  text_ok MAX_ACCOUNT_LABEL_CHARS (oa_label a) /\
  (version_ok (oa_token_version a) /\ version_ok (oa_generation a) /\ version_ok (oa_config_version a)) /\
  invalid_expiry (oa_expires_at a) = false /\ validate_safe_email (oa_email a) = Ok (oa_email a) /\
  validate_created_at (oa_created_at a) = Ok (oa_created_at a) /\ account_models_ok (oa_models a).

Lemma account_draft_Ok label rpm enabled d : account_draft_new label rpm enabled = Ok d ->
  text_ok MAX_ACCOUNT_LABEL_CHARS (ad_label d).
Proof.
  unfold account_draft_new. destruct (validate_text _ _ _ _ _) eqn:E; [|done].
  apply validate_text_Ok in E as [-> Hs]. by intros; simplify_eq/=.
Qed.
Lemma validate_safe_email_Ok e e' : validate_safe_email e = Ok e' -> e' = e.
Proof. unfold validate_safe_email. repeat case_match; intros; by simplify_eq. Qed.
Lemma validate_created_at_Ok v v' : validate_created_at v = Ok v' -> v' = v.
Proof. unfold validate_created_at. case_match; intros; by simplify_eq. Qed.

(** A version that an operation keeps or moves by one *)
Definition kept_or_next (old new : Z) : Prop := new = old \/ new = old + 1 /\ new <= MAX_VERSION.

(** What each change of an account does *)
Inductive account_change (a : OAuthAccount) : OAuthAccount -> Prop :=
| account_same : account_change a a
| account_to d proxy email expires_at token_version generation config_version models :
    kept_or_next (oa_token_version a) token_version -> kept_or_next (oa_generation a) generation ->
    kept_or_next (oa_config_version a) config_version ->
    token_version <> oa_token_version a \/ config_version <> oa_config_version a ->
    (text_ok MAX_ACCOUNT_LABEL_CHARS (oa_label a) -> text_ok MAX_ACCOUNT_LABEL_CHARS (ad_label d)) ->
    (invalid_expiry (oa_expires_at a) = false -> invalid_expiry expires_at = false) ->
    (validate_safe_email (oa_email a) = Ok (oa_email a) -> validate_safe_email email = Ok email) ->
    (account_models_ok (oa_models a) -> account_models_ok models) ->
    account_change a (account_with a d proxy email expires_at token_version generation config_version
                        models).

Lemma bump_if_Ok b v w : bump_if b v = Ok w -> kept_or_next v w.
Proof. unfold bump_if, kept_or_next. destruct b; intros H; [bumped|simplify_eq]; auto. Qed.

Lemma account_moved_change a a' : account_moved a a' -> account_change a a'.
Proof.
  intros [label rpm enabled d proxy a1 Hd H|models a1 H|email expires a1 H|proxy email expires models a1 H].
  - apply account_draft_Ok in Hd. unfold account_updated in H. destruct (_ && _); [simplify_eq; constructor|].
    destruct (bump_if _ _) eqn:E1; [|done]. apply bump_if_Ok in E1.
    destruct (next_valid_version _ _) eqn:E2; [|done]. bumped. simplify_eq.
    apply account_to; auto; unfold kept_or_next; lia.
  - unfold account_with_models in H. destruct (validate_account_models models) as [l|] eqn:El; [|done].
    apply validate_account_models_spec in El as [_ ?]. case_bool_decide; [simplify_eq; constructor|].
    destruct (next_valid_version _ _) eqn:E2; [|done]. bumped. simplify_eq.
    apply account_to; auto; unfold kept_or_next; lia.
  - unfold account_refreshed in H. destruct (invalid_expiry expires) eqn:Ee; [done|].
    destruct (validate_safe_email email) eqn:Em; [|done]. pose proof (validate_safe_email_Ok _ _ Em). subst.
    destruct (next_valid_version _ _) eqn:E2; [|done]. bumped. simplify_eq.
    apply account_to; auto; unfold kept_or_next; lia.
  - unfold account_reauthorized in H. destruct (invalid_expiry expires) eqn:Ee; [done|].
    destruct (validate_safe_email email) eqn:Em; [|done]. pose proof (validate_safe_email_Ok _ _ Em). subst.
    destruct (validate_account_models models) as [l|] eqn:El; [|done].
    apply validate_account_models_spec in El as [_ ?]. cbv zeta in H.
    destruct (next_valid_version _ (oa_token_version a)) eqn:E1; [|done].
    destruct (bump_if _ (oa_generation a)) eqn:E2; [|done].
    destruct (bump_if _ (oa_config_version a)) eqn:E3; [|done].
    apply bump_if_Ok in E2, E3. bumped. simplify_eq.
    apply account_to; auto; unfold kept_or_next; lia.
Qed.

#[export] Instance account_laws : EntityLaws OAuthAccount.
Proof.
  refine {| good := account_good |}.
  - intros a [id provider label rpm enabled d proxy email expires created models a' Hd H].
    apply account_draft_Ok in Hd. unfold account_create, account_restore in H. simpl in H.
    destruct (invalid_expiry expires) eqn:Ee; [done|].
    destruct (validate_safe_email email) eqn:Em; [|done]. pose proof (validate_safe_email_Ok _ _ Em). subst.
    destruct (validate_created_at created) eqn:Ec; [|done]. pose proof (validate_created_at_Ok _ _ Ec). subst.
    destruct (validate_account_models models) as [l|] eqn:El; [|done].
    apply validate_account_models_spec in El as [_ ?]. simplify_eq.
    split_and!; simpl; try done; apply version_one.
  - intros a a' (Ht & (H1 & H2 & H3) & He & Hm & Hc & Ho) H. apply account_moved_change in H as [|].
    { by split_and!. }
    unfold account_good, version_ok, kept_or_next in *. simpl. split_and!; auto; lia.
  - intros a (Ht & (H1 & H2 & H3) & He & Hm & Hc & Ho). simpl. unfold account_reload, account_draft_new.
    rewrite (proj2 (validate_text_Ok _ _ _ _ _ _) (conj eq_refl Ht)). unfold account_restore.
    apply valid_version_spec in H1, H2, H3. rewrite H1, H2, H3. simpl.
    rewrite He, Hm, Hc, (validate_account_models_idem _ Ho). by destruct a.
  - intros a a' H. apply account_moved_change in H as [|]; [by left|]. unfold kept_or_next in *. right.
    split; [repeat constructor; simpl; lia|]. intros E. injection E. lia.
Defined.

(** * What holds of every entity *)

(** Whatever the program made of an endpoint, a credential, a proxy, a gateway
    key or an OAuth account, through any sequence of the operations on it, the
    checks of [restore] accept its parts and give the same entity back: what is
    written to storage can be read again, unchanged. (The base URL of an endpoint
    is taken as it was parsed.) *)
Theorem entities_reload {url_lib : UrlLib} :
  (forall e : ProviderEndpoint, reached e -> endpoint_reload e = Some e) /\
  (forall c : ProviderCredential, reached c -> credential_reload c = Some c) /\
  (forall p : ProxyProfile, reached p -> proxy_reload p = Some p) /\
  (forall k : GatewayApiKey, reached k -> key_reload k = Some k) /\
  (forall a : OAuthAccount, reached a -> account_reload a = Some a).
Proof. split_and!; intros x Hx; apply reached_good in Hx; by apply good_reload in Hx. Qed.

(** The versions of an entity identify its contents: along any sequence of
    operations no version goes back, and two states with the same versions are
    the same state, so a runtime that is keyed by versions is never shared by two
    different configurations of an entity. *)
Theorem entity_versions_identify {url_lib : UrlLib} :
  (forall e e' : ProviderEndpoint, rtc endpoint_moved e e' ->
     ep_config_version e <= ep_config_version e' /\
     (ep_config_version e = ep_config_version e' -> e = e')) /\
  (forall c c' : ProviderCredential, rtc credential_moved c c' -> grows c c' /\
     (versions c = versions c' -> c = c')) /\
  (forall p p' : ProxyProfile, rtc proxy_moved p p' ->
     px_config_version p <= px_config_version p' /\
     (px_config_version p = px_config_version p' -> p = p')) /\
  (forall k k' : GatewayApiKey, rtc key_moved k k' ->
     gk_config_version k <= gk_config_version k' /\
     (gk_config_version k = gk_config_version k' -> k = k')) /\
  (forall a a' : OAuthAccount, rtc account_moved a a' -> grows a a' /\
     (versions a = versions a' -> a = a')).
Proof.
  split_and!.
  - intros e e' H. pose proof (moved_run_grows e e') as Hg. destruct (Hg H) as [->|[Hle Hne]]; [split; [lia|done]|].
    inversion_clear Hle. split; [done|]. intros E. destruct Hne. simpl. by rewrite E.
  - intros c c' H. pose proof (moved_run_grows c c') as Hg. specialize (Hg H).
    split; [done|]. intros E. by destruct Hg as [|[_ ?]].
  - intros p p' H. induction H as [p|p q r Hpq _ [IH1 IH2]]; [split; [lia|done]|].
    apply proxy_moved_change in Hpq. inversion Hpq; subst; [by split| |]; simpl in *; split; lia.
  - intros k k' H. induction H as [k|k q r Hkq _ [IH1 IH2]]; [split; [lia|done]|].
    assert (k = q \/ gk_config_version k < gk_config_version q) as [->|]; [|by split|split; lia].
    destruct Hkq as [name rpm enabled d q Hd Hk|token prefix hash q Hk].
    + unfold key_updated in Hk. destruct (_ && _); [simplify_eq; by left|].
      destruct (next_version _ _) eqn:E; [|done]. bumped. simplify_eq. right. simpl. lia.
    + unfold key_rotated in Hk. destruct (validate_token token); [|done].
      destruct (validate_prefix prefix); [|done].
      destruct (next_version _ (gk_token_version k)) eqn:E3; [|done].
      destruct (next_version _ (gk_config_version k)) eqn:E4; [|done]. bumped. simplify_eq. right. simpl. lia.
  - intros a a' H. pose proof (moved_run_grows a a') as Hg. specialize (Hg H).
    split; [done|]. intros E. by destruct Hg as [|[_ ?]].
Qed.

(** The models of a credential or an account stay sorted and without
    duplicates, whatever is done to it, so the binary search of [supports_model]
    finds a model exactly when it is listed, and a credential publishes no two
    models under one name. *)
Theorem supported_models_exact :
  (forall (c : ProviderCredential) model, reached c ->
     (credential_supports_model c model = true <-> exists m, m ∈ pc_models c /\ upstream_name m = model) /\
     (forall m m', m ∈ pc_models c -> m' ∈ pc_models c -> public_name m = public_name m' -> m = m')) /\
  (forall (a : OAuthAccount) model, reached a ->
     account_supports_model a model = true <-> model ∈ oa_models a).
Proof.
  split.
  - intros c model Hc. apply reached_good in Hc as (_ & _ & Hs & Hu & Hp). split.
    + unfold credential_supports_model. rewrite bool_decide_eq_true, search_by_name
        by (by apply sorted_upstream). rewrite list_elem_of_fmap. naive_solver.
    + intros m m' Hm Hm' E. apply list_elem_of_lookup in Hm as [i Hi]. apply list_elem_of_lookup in Hm' as [j Hj].
      assert (i = j) as ->; [|congruence].
      eapply (NoDup_lookup (public_name <$> pc_models c)); [done|by rewrite list_lookup_fmap, Hi|].
      rewrite list_lookup_fmap, Hj. simpl. by rewrite E.
  - intros a model Ha. apply reached_good in Ha as (_ & _ & _ & _ & _ & _ & Hs & _).
    unfold account_supports_model. rewrite bool_decide_eq_true.
    rewrite (search_by_name (fun m => m) model _ Hs), list_fmap_id. done.
Qed.

(** * A credential through its operations *)

Definition sample_urls : UrlLib := {|
  Url := string; url_parse s := Some s; url_scheme _ := "https"; url_has_host _ := true;
  url_username _ := ""; url_has_password _ := false; url_has_query _ := false;
  url_has_fragment _ := false; url_port _ := None; url_segments _ := Some []; url_path _ := "/";
  url_set_path s _ := s; url_text s := s
|}.
Definition sample_fingerprint : CredentialSecretFingerprint :=
  {| fp_version := 2; fp_digest := []; fp_tail := None |}.
Definition sample_draft (enabled : bool) : ProviderCredentialDraft :=
  {| cd_label := "main"; cd_kind := ApiKey; cd_proxy := DIRECT; cd_rpm := None; cd_enabled := enabled |}.
Definition sample_model (upstream : string) : ProviderCredentialModel :=
  {| upstream_name := upstream; public_alias := None |}.
Definition sample_created : ProviderCredential :=
  credential_create 1 2 (sample_draft false) sample_fingerprint.
Definition sample_enabled : ProviderCredential :=
  {| pc_id := 1; pc_endpoint := 2; pc_label := "main"; pc_kind := ApiKey;
     pc_fingerprint := sample_fingerprint; pc_proxy := DIRECT; pc_rpm := None; pc_enabled := true;
     pc_secret_version := 1; pc_generation := 2; pc_config_version := 3;
     pc_models := [sample_model "a"; sample_model "b"] |}.

Lemma sample_moves : rtc credential_moved sample_created sample_enabled.
Proof.
  eapply rtc_l.
  { eapply (credential_moved_update _ "main" ApiKey DIRECT None true (sample_draft true)); vm_compute; reflexivity. }
  apply rtc_once, (credential_moved_models _ [sample_model "b"; sample_model "a"]). vm_compute. reflexivity.
Qed.
Lemma sample_key_reached : reached sample_enabled.
Proof.
  exists sample_created. split; [|exact sample_moves].
  apply (credential_made_by 1 2 "main" ApiKey DIRECT None false). vm_compute. reflexivity.
Qed.

Lemma entities_reload_witness : reached sample_enabled /\ credential_reload sample_enabled = Some sample_enabled.
Proof.
  split; [exact sample_key_reached|].
  exact (proj1 (proj2 (@entities_reload sample_urls)) sample_enabled sample_key_reached).
Defined.

Lemma entity_versions_identify_witness :
  rtc credential_moved sample_created sample_enabled /\ grows sample_created sample_enabled.
Proof.
  split; [exact sample_moves|].
  exact (proj1 (proj1 (proj2 (@entity_versions_identify sample_urls)) _ _ sample_moves)).
Defined.

Lemma supported_models_exact_witness :
  reached sample_enabled /\ credential_supports_model sample_enabled "b" = true.
Proof.
  split; [exact sample_key_reached|].
  apply (proj1 (proj1 supported_models_exact sample_enabled "b" sample_key_reached)).
  exists (sample_model "b"). split; [right; left|reflexivity].
Defined.
