(* ===== verification/Cost.v ===== *)
(** * Token usage and what a request costs

    The token counts of a request ([domain/src/telemetry/token_usage.rs],
    [speed_tier.rs]), the rates of a model and the cost they give
    ([telemetry/quota_cost.rs]), and the rate card an operator configures
    ([settings/codex_rate_card.rs]).  The numbers are 64-bit and 128-bit unsigned
    integers whose checked operations are written out; a [BTreeMap] is a [gmap]
    that is walked in the order of its keys. *)
From S2P Require Import Prelude Search Text Entities.
Local Open Scope Z_scope.

Definition u128_max : Z := 2 ^ 128 - 1.
Definition i64_max : Z := 2 ^ 63 - 1.

(** The entries of a [BTreeMap] in the order of its keys *)
Definition key_le {A} (a b : string * A) : Prop := name_le a.1 b.1.
#[export] Instance key_le_dec {A} : RelDecision (key_le (A := A)).
Proof. intros a b. apply name_le_dec. Defined.
Definition btree_items {A} (m : gmap string A) : list (string * A) := merge_sort key_le (map_to_list m).

(** * Token usage *)

Definition MAX_TOKEN_COUNT : Z := 2 ^ 53 - 1.

Record TokenUsage := {
  input_tokens : option Z;
  output_tokens : option Z;
  cache_read_tokens : option Z;
  cache_creation_tokens : option Z
}.
#[export] Instance usage_eq_dec : EqDecision TokenUsage.
Proof. solve_decision. Defined.

Definition valid_count (value : option Z) : option Z :=
  match value with Some v => if v <=? MAX_TOKEN_COUNT then Some v else None | None => None end.

(** [TokenUsage::new], [with_cache_creation_tokens], [merge] *)
Definition usage_new (input output cache_read : option Z) : TokenUsage :=
  {| input_tokens := valid_count input; output_tokens := valid_count output;
     cache_read_tokens := valid_count cache_read; cache_creation_tokens := None |}.
Definition with_cache_creation_tokens (count : option Z) (u : TokenUsage) : TokenUsage :=
  {| input_tokens := input_tokens u; output_tokens := output_tokens u;
     cache_read_tokens := cache_read_tokens u; cache_creation_tokens := valid_count count |}.
Definition updated_count (old new : option Z) : option Z := match new with Some _ => new | None => old end.
Definition usage_merge (u update : TokenUsage) : TokenUsage :=
  {| input_tokens := updated_count (input_tokens u) (input_tokens update);
     output_tokens := updated_count (output_tokens u) (output_tokens update);
     cache_read_tokens := updated_count (cache_read_tokens u) (cache_read_tokens update);
     cache_creation_tokens := updated_count (cache_creation_tokens u) (cache_creation_tokens update) |}.

Inductive RequestSpeedTier := SpeedStandard | SpeedFast.
#[export] Instance speed_tier_eq_dec : EqDecision RequestSpeedTier.
Proof. solve_decision. Defined.
Definition speed_tier_as_str (t : RequestSpeedTier) : string :=
  match t with SpeedStandard => "standard" | SpeedFast => "fast" end.
Definition speed_tier_parse (s : string) : option RequestSpeedTier :=
  if bool_decide (s = "standard") then Some SpeedStandard
  else if bool_decide (s = "fast") then Some SpeedFast else None.

(** * Rates and costs *)

Definition MAX_QUOTA_RATE_CARD_CHARS : nat := 128.
Definition MAX_CODEX_RATE_CARD_MODELS : nat := 256.
Definition MAX_CODEX_RATE_NANOS_PER_MILLION : Z := 9000000000000000.
Definition MAX_CODEX_CREDITS_PER_USD : Z := 1000000.

Inductive QuotaCostUnit := CodexCredits.
#[export] Instance unit_eq_dec : EqDecision QuotaCostUnit.
Proof. solve_decision. Defined.
Definition unit_as_str (u : QuotaCostUnit) : string := match u with CodexCredits => "codex_credits" end.
Definition unit_parse (s : string) : option QuotaCostUnit :=
  if bool_decide (s = "codex_credits") then Some CodexCredits else None.

Inductive QuotaServiceTier := TierStandard | TierFast.
#[export] Instance service_tier_eq_dec : EqDecision QuotaServiceTier.
Proof. solve_decision. Defined.
Definition service_tier_as_str (t : QuotaServiceTier) : string :=
  match t with TierStandard => "standard" | TierFast => "fast" end.
Definition service_tier_parse (s : string) : option QuotaServiceTier :=
  if bool_decide (s = "standard") then Some TierStandard
  else if bool_decide (s = "fast") then Some TierFast else None.

Record RequestQuotaCost := {
  cost_unit : QuotaCostUnit;
  amount_nanos : Z;
  cost_rate_card : string;
  cost_service_tier : QuotaServiceTier;
  cost_credits_per_usd : option Z
}.

Record RequestQuotaCostRate := {
  rate_card : string;
  rate_unit : QuotaCostUnit;
  service_tier : QuotaServiceTier;
  input_nanos : Z;
  cached_input_nanos : Z;
  output_nanos : Z;
  credits_per_usd : Z
}.

Record RequestQuotaCostRates := { standard_rate : RequestQuotaCostRate; fast_rate : option RequestQuotaCostRate }.

Definition valid_exchange_rate (value : Z) : bool := (1 <=? value) && (value <=? MAX_CODEX_CREDITS_PER_USD).
Definition valid_rate_card (value : string) : bool :=
  bool_decide (trim value = value) && negb (bool_decide (value = "")) &&
  bool_decide (length (chars value) <= MAX_QUOTA_RATE_CARD_CHARS)%nat &&
  negb (existsb is_control (chars value)).

(** [RequestQuotaCost::new] *)
Definition cost_new (unit : QuotaCostUnit) (amount : Z) (card : string) (tier : QuotaServiceTier)
    (credits : option Z) : option RequestQuotaCost :=
  if negb (valid_rate_card card) ||
     match credits with Some rate => negb (valid_exchange_rate rate) | None => false end
  then None
  else Some {| cost_unit := unit; amount_nanos := amount; cost_rate_card := card;
               cost_service_tier := tier; cost_credits_per_usd := credits |}.

(** [RequestQuotaCostRate::new] *)
Definition rate_new (card : string) (unit : QuotaCostUnit) (tier : QuotaServiceTier)
    (input cached output credits : Z) : option RequestQuotaCostRate :=
  if valid_rate_card card && valid_exchange_rate credits
  then Some {| rate_card := card; rate_unit := unit; service_tier := tier; input_nanos := input;
               cached_input_nanos := cached; output_nanos := output; credits_per_usd := credits |}
  else None.

Definition checked_mul (max a b : Z) : option Z := if a * b <=? max then Some (a * b) else None.

(** [RequestQuotaCostRate::estimate] *)
Definition rate_estimate (r : RequestQuotaCostRate) (usage : TokenUsage) : option RequestQuotaCost :=
  input ← input_tokens usage;
  output ← output_tokens usage;
  let cached := Z.min (default 0 (cache_read_tokens usage)) input in
  let uncached := saturating_sub input cached in
  a ← checked_mul u128_max uncached (input_nanos r);
  b ← checked_mul u128_max cached (cached_input_nanos r);
  ab ← checked_add u128_max a b;
  c ← checked_mul u128_max output (output_nanos r);
  numerator ← checked_add u128_max ab c;
  n ← checked_add u128_max numerator 500000;
  let rounded := n / 1000000 in
  if u64_max <? rounded then None
  else if i64_max <? rounded then None
  else cost_new (rate_unit r) rounded (rate_card r) (service_tier r) (Some (credits_per_usd r)).

(** [RequestQuotaCostRates::new], [estimate] *)
Definition rates_new (standard : RequestQuotaCostRate) (fast : option RequestQuotaCostRate)
    : option RequestQuotaCostRates :=
  if negb (bool_decide (service_tier standard = TierStandard)) ||
     match fast with
     | Some fast => negb (bool_decide (service_tier fast = TierFast)) ||
                    negb (bool_decide (rate_unit fast = rate_unit standard)) ||
                    negb (bool_decide (rate_card fast = rate_card standard)) ||
                    negb (bool_decide (credits_per_usd fast = credits_per_usd standard))
     | None => false
     end
  then None
  else Some {| standard_rate := standard; fast_rate := fast |}.
Definition rates_estimate (r : RequestQuotaCostRates) (usage : TokenUsage) (speed : option RequestSpeedTier)
    : option RequestQuotaCost :=
  match speed with
  | Some SpeedFast => fast ← fast_rate r; rate_estimate fast usage
  | Some SpeedStandard | None => rate_estimate (standard_rate r) usage
  end.

(** * Rate cards *)

Inductive SettingsValidationError := InvalidType | InvalidEnum | InvalidListValue | OutOfRange | InvalidCombination.
#[export] Instance settings_error_eq_dec : EqDecision SettingsValidationError.
Proof. solve_decision. Defined.

Record CodexQuotaTierRate := {
  input_nanos_per_million : Z;
  cached_input_nanos_per_million : Z;
  output_nanos_per_million : Z
}.
#[export] Instance tier_rate_eq_dec : EqDecision CodexQuotaTierRate.
Proof. solve_decision. Defined.

Record CodexQuotaModelRates := { standard : CodexQuotaTierRate; fast : option CodexQuotaTierRate }.
#[export] Instance model_rates_eq_dec : EqDecision CodexQuotaModelRates.
Proof. solve_decision. Defined.

Record CodexQuotaRateCard := {
  card_id : string;
  card_credits_per_usd : Z;
  card_models : gmap string CodexQuotaModelRates
}.
#[export] Instance card_eq_dec : EqDecision CodexQuotaRateCard.
Proof. solve_decision. Defined.

Definition validate_tier (r : CodexQuotaTierRate) : result unit SettingsValidationError :=
  if (input_nanos_per_million r =? 0) || (output_nanos_per_million r =? 0) ||
     (input_nanos_per_million r <? cached_input_nanos_per_million r) ||
     (MAX_CODEX_RATE_NANOS_PER_MILLION <? input_nanos_per_million r) ||
     (MAX_CODEX_RATE_NANOS_PER_MILLION <? cached_input_nanos_per_million r) ||
     (MAX_CODEX_RATE_NANOS_PER_MILLION <? output_nanos_per_million r)
  then Err InvalidCombination else Ok ().

(** [CodexQuotaRateCard::validate] *)
Fixpoint validate_models_rates (l : list (string * CodexQuotaModelRates))
    : result unit SettingsValidationError :=
  match l with
  | [] => Ok ()
  | (model, rates) :: l =>
    match model_name_new model with
    | Err _ => Err InvalidListValue
    | Ok _ =>
      match validate_tier (standard rates) with
      | Err e => Err e
      | Ok _ =>
        match (match fast rates with Some fast => validate_tier fast | None => Ok () end) with
        | Err e => Err e
        | Ok _ => validate_models_rates l
        end
      end
    end
  end.
Definition card_validate (c : CodexQuotaRateCard) : result unit SettingsValidationError :=
  if negb (bool_decide (trim (card_id c) = card_id c)) ||
     bool_decide (card_id c = "") ||
     bool_decide (128 < length (chars (card_id c)))%nat ||
     existsb is_control (chars (card_id c)) ||
     (card_credits_per_usd c =? 0) ||
     (MAX_CODEX_CREDITS_PER_USD <? card_credits_per_usd c) ||
     bool_decide (card_models c = ∅) ||
     bool_decide (MAX_CODEX_RATE_CARD_MODELS < size (card_models c))%nat
  then Err InvalidCombination
  else validate_models_rates (btree_items (card_models c)).

(** [rate], [cost_rate], [cost_rates] *)
Definition card_rate (c : CodexQuotaRateCard) (model : string) (tier : QuotaServiceTier)
    : option CodexQuotaTierRate :=
  rates ← card_models c !! model;
  match tier with TierStandard => Some (standard rates) | TierFast => fast rates end.
Definition cost_rate (c : CodexQuotaRateCard) (model : string) (tier : QuotaServiceTier)
    : option RequestQuotaCostRate :=
  rate ← card_rate c model tier;
  rate_new (card_id c) CodexCredits tier (input_nanos_per_million rate)
    (cached_input_nanos_per_million rate) (output_nanos_per_million rate) (card_credits_per_usd c).
Definition cost_rates (c : CodexQuotaRateCard) (model : string) : option RequestQuotaCostRates :=
  standard ← cost_rate c model TierStandard;
  rates_new standard (cost_rate c model TierFast).

(** [CodexQuotaRateCard::default], [model], [tier] *)
Definition tier_rates (r : Z * Z * Z) : CodexQuotaTierRate :=
  {| input_nanos_per_million := r.1.1; cached_input_nanos_per_million := r.1.2;
     output_nanos_per_million := r.2 |}.
Definition model_rates (standard fast : Z * Z * Z) : CodexQuotaModelRates :=
  {| standard := tier_rates standard; fast := Some (tier_rates fast) |}.
Definition card_default : CodexQuotaRateCard :=
  {| card_id := "openai_codex_credits_2026_08_11";
     card_credits_per_usd := 25;
     card_models :=
       <["gpt-5.4-mini" := model_rates (18750000000, 1875000000, 113000000000)
                                       (37500000000, 3750000000, 226000000000)]>
       (<["gpt-5.4" := model_rates (62500000000, 6250000000, 375000000000)
                                   (125000000000, 12500000000, 750000000000)]>
       (<["gpt-5.6-luna" := model_rates (5000000000, 500000000, 30000000000)
                                        (12500000000, 1250000000, 75000000000)]>
       (<["gpt-5.6-terra" := model_rates (50000000000, 5000000000, 300000000000)
                                         (125000000000, 12500000000, 750000000000)]>
       (<["gpt-5.5" := model_rates (125000000000, 12500000000, 750000000000)
                                   (312500000000, 31250000000, 1875000000000)]>
       (<["gpt-5.6-sol" := model_rates (125000000000, 12500000000, 750000000000)
                                       (312500000000, 31250000000, 1875000000000)]> ∅))))) |}.

(** * Properties *)

(** A usage as the operations make it: every count fits a JSON number *)
Definition count_ok (c : option Z) : Prop := forall n, c = Some n -> 0 <= n <= MAX_TOKEN_COUNT.
Definition usage_ok (u : TokenUsage) : Prop :=
  count_ok (input_tokens u) /\ count_ok (output_tokens u) /\ count_ok (cache_read_tokens u) /\
  count_ok (cache_creation_tokens u).

Lemma valid_count_ok c : (forall n, c = Some n -> 0 <= n) -> count_ok (valid_count c).
Proof. intros H n. destruct c as [v|]; simpl; [|done]. destruct (Z.leb_spec v MAX_TOKEN_COUNT); [|done].
  intros [= <-]. specialize (H _ eq_refl). lia. Qed.
Lemma updated_count_ok a b : count_ok a -> count_ok b -> count_ok (updated_count a b).
Proof. by destruct b. Qed.
Lemma usage_new_ok i o r : (forall n, i = Some n -> 0 <= n) -> (forall n, o = Some n -> 0 <= n) ->
  (forall n, r = Some n -> 0 <= n) -> usage_ok (usage_new i o r).
Proof. intros. split_and!; [by apply valid_count_ok..|done]. Qed.
Lemma with_cache_creation_ok n u : (forall m, n = Some m -> 0 <= m) -> usage_ok u ->
  usage_ok (with_cache_creation_tokens n u).
Proof. intros Hn (? & ? & ? & ?). split_and!; [done..|by apply valid_count_ok]. Qed.
Lemma usage_merge_ok u v : usage_ok u -> usage_ok v -> usage_ok (usage_merge u v).
Proof. intros (? & ? & ? & ?) (? & ? & ? & ?). split_and!; by apply updated_count_ok. Qed.

(** A validated card *)
Definition tier_ok (r : CodexQuotaTierRate) : Prop :=
  0 < input_nanos_per_million r <= MAX_CODEX_RATE_NANOS_PER_MILLION /\
  0 <= cached_input_nanos_per_million r <= input_nanos_per_million r /\
  0 < output_nanos_per_million r <= MAX_CODEX_RATE_NANOS_PER_MILLION.
Definition tier_u64 (r : CodexQuotaTierRate) : Prop :=
  0 <= input_nanos_per_million r /\ 0 <= cached_input_nanos_per_million r /\
  0 <= output_nanos_per_million r.
(** The numbers of a card are unsigned. *)
Definition card_unsigned (c : CodexQuotaRateCard) : Prop :=
  0 <= card_credits_per_usd c /\
  map_Forall (fun _ r => tier_u64 (standard r) /\ forall f, fast r = Some f -> tier_u64 f) (card_models c).
Definition rates_ok (r : CodexQuotaModelRates) : Prop :=
  tier_ok (standard r) /\ forall f, fast r = Some f -> tier_ok f.

Lemma validate_tier_Ok r : tier_u64 r -> validate_tier r = Ok () <-> tier_ok r.
Proof.
  unfold validate_tier, tier_ok, tier_u64. intros Hr.
  match goal with |- (if ?b then _ else _) = _ <-> _ => destruct b eqn:E end; split; try done; intros; lia.
Qed.

Lemma validate_models_Ok l : Forall (fun p => tier_u64 (standard p.2) /\
    forall f, fast p.2 = Some f -> tier_u64 f) l ->
  validate_models_rates l = Ok () <-> Forall (fun p => name_ok p.1 /\ rates_ok p.2) l.
Proof.
  induction 1 as [|[m r] l [Hs Hf] _ IH]; simpl in *; [by split|]. rewrite Forall_cons, <- IH. clear IH.
  unfold name_ok, rates_ok. simpl.
  destruct (model_name_new m) as [m'|] eqn:Em.
  2: { split; [done|]. by intros [[? _] _]. }
  apply model_name_Ok in Em as [-> Hm]. destruct (validate_tier (standard r)) as [[]|e] eqn:Es.
  - apply validate_tier_Ok in Es; [|done]. destruct (fast r) as [f|] eqn:Ef.
    + destruct (validate_tier f) as [[]|e] eqn:Et.
      * apply validate_tier_Ok in Et; [|by apply Hf]. split; [|by intros [_ ?]].
        intros; split_and!; try done. by intros ? [= <-].
      * split; [done|]. intros [(_ & _ & Hx) _]. specialize (Hx f eq_refl).
        apply validate_tier_Ok in Hx; [|by apply Hf]. by rewrite Et in Hx.
    + split; [intros ?; by split_and!|by intros [_ ?]].
  - split; [done|]. intros [(_ & Hx & _) _]. apply validate_tier_Ok in Hx; [|done]. by rewrite Es in Hx.
Qed.

Lemma btree_items_elem {A} (m : gmap string A) k v : (k, v) ∈ btree_items m <-> m !! k = Some v.
Proof. unfold btree_items. rewrite merge_sort_Permutation. apply elem_of_map_to_list. Qed.

Lemma items_Forall {A} (m : gmap string A) (P : string -> A -> Prop) :
  Forall (fun p => P p.1 p.2) (btree_items m) <-> map_Forall P m.
Proof.
  rewrite Forall_forall. split.
  - intros H k v Hk. apply (H (k, v)). by apply btree_items_elem.
  - intros H [k v] Hk. apply H. by apply btree_items_elem.
Qed.

Definition id_ok (s : string) : Prop := valid_rate_card s = true.
Definition card_ok (c : CodexQuotaRateCard) : Prop :=
  id_ok (card_id c) /\ 1 <= card_credits_per_usd c <= MAX_CODEX_CREDITS_PER_USD /\
  card_models c <> ∅ /\ (size (card_models c) <= MAX_CODEX_RATE_CARD_MODELS)%nat /\
  map_Forall (fun m r => name_ok m /\ rates_ok r) (card_models c).

(** A card is accepted exactly when its identifier, its exchange rate, its
    number of models, every model name and every rate are in bounds. *)
Lemma card_validate_Ok c : card_unsigned c -> card_validate c = Ok () <-> card_ok c.
Proof.
  intros [Hc Hm]. unfold card_validate, card_ok, id_ok, valid_rate_card, MAX_QUOTA_RATE_CARD_CHARS.
  rewrite <- (items_Forall (card_models c) (fun m r => name_ok m /\ rates_ok r)).
  rewrite <- (validate_models_Ok (btree_items (card_models c))).
  2: { by apply (items_Forall (card_models c) (fun _ r => tier_u64 (standard r) /\
         forall f, fast r = Some f -> tier_u64 f)). }
  destruct (existsb is_control _), (Z.eqb_spec (card_credits_per_usd c) 0),
    (Z.ltb_spec MAX_CODEX_CREDITS_PER_USD (card_credits_per_usd c)); repeat case_bool_decide; simpl;
    (split; [intros ?; split_and!; done || lia|intros (? & ? & ? & ? & ?); done || lia]).
Qed.

(** The rates of a model, as one asks for them *)
Definition speed_rate (rates : CodexQuotaModelRates) (speed : option RequestSpeedTier)
    : option (QuotaServiceTier * CodexQuotaTierRate) :=
  match speed with
  | Some SpeedFast => (fun r => (TierFast, r)) <$> fast rates
  | _ => Some (TierStandard, standard rates)
  end.

(** The price of the tokens, in millionths of a nano-credit *)
Definition price (r : CodexQuotaTierRate) (input output cached : Z) : Z :=
  (input - cached) * input_nanos_per_million r + cached * cached_input_nanos_per_million r +
  output * output_nanos_per_million r.

Lemma rate_new_valid id tier r credits : id_ok id -> 1 <= credits <= MAX_CODEX_CREDITS_PER_USD ->
  rate_new id CodexCredits tier (input_nanos_per_million r) (cached_input_nanos_per_million r)
    (output_nanos_per_million r) credits =
  Some {| rate_card := id; rate_unit := CodexCredits; service_tier := tier;
          input_nanos := input_nanos_per_million r; cached_input_nanos := cached_input_nanos_per_million r;
          output_nanos := output_nanos_per_million r; credits_per_usd := credits |}.
Proof.
  intros Hi Hc. unfold rate_new, valid_exchange_rate. rewrite Hi.
  rewrite (proj2 (Z.leb_le 1 credits)), (proj2 (Z.leb_le credits _)) by lia. done.
Qed.

Lemma checked_mul_fits a b : a * b <= u128_max -> checked_mul u128_max a b = Some (a * b).
Proof. unfold checked_mul. intros. by rewrite (proj2 (Z.leb_le _ _)). Qed.
Lemma checked_add_fits a b : a + b <= u128_max -> checked_add u128_max a b = Some (a + b).
Proof. unfold checked_add. intros. by rewrite (proj2 (Z.leb_le _ _)). Qed.

(** No product or sum of an estimate overflows 128 bits. *)
Lemma rate_estimate_exact id tier r credits u : id_ok id -> 1 <= credits <= MAX_CODEX_CREDITS_PER_USD ->
  tier_ok r -> usage_ok u ->
  rate_estimate {| rate_card := id; rate_unit := CodexCredits; service_tier := tier;
      input_nanos := input_nanos_per_million r; cached_input_nanos := cached_input_nanos_per_million r;
      output_nanos := output_nanos_per_million r; credits_per_usd := credits |} u =
  input ← input_tokens u;
  output ← output_tokens u;
  let n := (price r input output (Z.min (default 0 (cache_read_tokens u)) input) + 500000) / 1000000 in
  if i64_max <? n then None
  else Some {| cost_unit := CodexCredits; amount_nanos := n; cost_rate_card := id;
               cost_service_tier := tier; cost_credits_per_usd := Some credits |}.
Proof.
  intros Hid Hcr (Hi & Hca & Ho) (Ui & Uo & Uc & _). unfold rate_estimate.
  destruct (input_tokens u) as [i|] eqn:Ei; [|done]. destruct (output_tokens u) as [o|] eqn:Eo; [|done].
  simpl. specialize (Ui i eq_refl). specialize (Uo o eq_refl).
  assert (Hc : 0 <= default 0 (cache_read_tokens u)).
  { destruct (cache_read_tokens u) as [c|] eqn:Ec; simpl; [|lia]. by apply Uc. }
  set (cached := Z.min (default 0 (cache_read_tokens u)) i).
  assert (0 <= cached <= i) by (unfold cached; lia). unfold saturating_sub.
  replace (Z.max 0 (i - cached)) with (i - cached) by lia.
  unfold MAX_TOKEN_COUNT, MAX_CODEX_RATE_NANOS_PER_MILLION in *. clearbody cached.
  assert (B : forall x y, 0 <= x <= 2 ^ 53 - 1 -> 0 <= y <= 9000000000000000 ->
    0 <= x * y <= 2 ^ 53 * 9000000000000000) by (intros; nia).
  pose proof (B (i - cached) (input_nanos_per_million r)) as B1.
  pose proof (B cached (cached_input_nanos_per_million r)) as B2.
  pose proof (B o (output_nanos_per_million r)) as B3.
  assert (2 ^ 53 * 9000000000000000 * 3 + 500000 <= u128_max) by (by vm_compute).
  rewrite !checked_mul_fits by lia. simpl. rewrite (checked_add_fits (_ * _)) by lia. simpl.
  rewrite (checked_add_fits (_ + _)) by lia. simpl. rewrite checked_add_fits by lia. simpl. fold (price r i o cached).
  set (n := (price r i o cached + 500000) / 1000000).
  destruct (Z.ltb_spec u64_max n).
  - destruct (Z.ltb_spec i64_max n); [done|]. unfold u64_max, i64_max in *. lia.
  - destruct (Z.ltb_spec i64_max n); [done|]. unfold cost_new, valid_exchange_rate. rewrite Hid.
    by rewrite (proj2 (Z.leb_le 1 credits)), (proj2 (Z.leb_le credits _)) by lia.
Qed.

(** A validated card gives the rates of each of its models. *)
Lemma cost_rates_estimate c model u speed : card_ok c -> usage_ok u ->
  (r ← cost_rates c model; rates_estimate r u speed) =
  rates ← card_models c !! model;
  '(tier, r) ← speed_rate rates speed;
  input ← input_tokens u;
  output ← output_tokens u;
  let n := (price r input output (Z.min (default 0 (cache_read_tokens u)) input) + 500000) / 1000000 in
  if i64_max <? n then None
  else Some {| cost_unit := CodexCredits; amount_nanos := n; cost_rate_card := card_id c;
               cost_service_tier := tier; cost_credits_per_usd := Some (card_credits_per_usd c) |}.
Proof.
  intros (Hid & Hcr & _ & _ & Hm) Hu. unfold cost_rates, cost_rate, card_rate.
  destruct (card_models c !! model) as [rates|] eqn:E; [|done]. apply Hm in E as [_ [Hs Hf]]. simpl.
  rewrite rate_new_valid by done. simpl.
  destruct (fast rates) as [f|] eqn:Ef; simpl.
  - rewrite rate_new_valid by done. unfold rates_new. simpl. rewrite !bool_decide_true by done. simpl.
    unfold rates_estimate, speed_rate. rewrite Ef.
    destruct speed as [[]|]; simpl; rewrite rate_estimate_exact; auto.
  - unfold rates_new, rates_estimate, speed_rate. simpl. rewrite Ef.
    destruct speed as [[]|]; simpl; [by rewrite rate_estimate_exact|done|by rewrite rate_estimate_exact].
Qed.

Lemma rounded_iff n p : n = (p + 500000) / 1000000 <-> p - 500000 < 1000000 * n <= p + 500000.
Proof.
  split.
  - intros ->. pose proof (Z.div_mod (p + 500000) 1000000) as D.
    pose proof (Z.mod_pos_bound (p + 500000) 1000000). lia.
  - intros H. apply Z.div_unique with (p + 500000 - 1000000 * n); lia.
Qed.

(** The cost recorded for a request is what the card charges: for a
    validated card and any usage, a cost is estimated exactly when the model is on
    the card, has a rate for the speed that was served, both the input and the
    output tokens are known and the amount fits a signed 64-bit integer; the
    amount is then the price of the uncached, cached and output tokens rounded
    half up to a nano-credit, cached tokens never counting for more than the
    input, whatever the provider reported. *)
Theorem card_cost_exact c model u speed cost :
  card_unsigned c -> card_validate c = Ok () -> usage_ok u ->
  (r ← cost_rates c model; rates_estimate r u speed) = Some cost <->
  exists rates tier r input output,
    card_models c !! model = Some rates /\ speed_rate rates speed = Some (tier, r) /\
    input_tokens u = Some input /\ output_tokens u = Some output /\
    cost_unit cost = CodexCredits /\ cost_rate_card cost = card_id c /\
    cost_service_tier cost = tier /\ cost_credits_per_usd cost = Some (card_credits_per_usd c) /\
    amount_nanos cost <= i64_max /\
    let p := price r input output (Z.min (default 0 (cache_read_tokens u)) input) in
    p - 500000 < 1000000 * amount_nanos cost <= p + 500000.
Proof.
  intros Hn Hv Hu. apply card_validate_Ok in Hv; [|done]. rewrite cost_rates_estimate by done. split.
  - destruct (card_models c !! model) as [rates|] eqn:Er; [|done]. simpl.
    destruct (speed_rate rates speed) as [[tier r]|] eqn:Es; [|done]. simpl.
    destruct (input_tokens u) as [i|] eqn:Ei; [|done]. destruct (output_tokens u) as [o|] eqn:Eo; [|done].
    simpl. destruct (Z.ltb_spec i64_max ((price r i o (Z.min (default 0 (cache_read_tokens u)) i) + 500000)
      / 1000000)); [done|].
    intros [= <-]. exists rates, tier, r, i, o. simpl. split_and!; try done; by apply rounded_iff.
  - intros (rates & tier & r & i & o & -> & Hs & -> & -> & E1 & E2 & E3 & E4 & Hle & Hp). simpl.
    rewrite Hs. simpl. apply rounded_iff in Hp. rewrite <- Hp.
    destruct (Z.ltb_spec i64_max (amount_nanos cost)); [lia|]. destruct cost. simpl in *. congruence.
Qed.

Lemma card_default_ok : card_unsigned card_default /\ card_validate card_default = Ok ().
Proof.
  split; [|by vm_compute]. split; [done|]. unfold card_default. simpl.
  assert (U : forall a b, tier_u64 (tier_rates a) -> tier_u64 (tier_rates b) ->
    tier_u64 (standard (model_rates a b)) /\ forall f, fast (model_rates a b) = Some f -> tier_u64 f).
  { intros a b Ha Hb. split; [done|]. by intros ? [= <-]. }
  repeat (apply map_Forall_insert_2; [by apply U|]). apply map_Forall_empty.
Qed.

Lemma card_cost_exact_witness :
  (r ← cost_rates card_default "gpt-5.6-sol";
   rates_estimate r (usage_new (Some 2000) (Some 100) (Some 500)) None) =
  Some {| cost_unit := CodexCredits; amount_nanos := 268750000;
          cost_rate_card := "openai_codex_credits_2026_08_11"; cost_service_tier := TierStandard;
          cost_credits_per_usd := Some 25 |}.
Proof.
  apply card_cost_exact.
  - apply card_default_ok.
  - by vm_compute.
  - apply usage_new_ok; intros ? [= <-]; lia.
  - exists (model_rates (125000000000, 12500000000, 750000000000)
                        (312500000000, 31250000000, 1875000000000)).
    do 4 eexists. split_and!; try reflexivity; simpl; vm_compute; done.
Defined.
