(* ===== verification/Exchange.v ===== *)
(** The protocol exchange of a streamed response
    ([crates/protocol/src/api/exchange.rs], with the data of
    [crates/protocol/src/api/contracts.rs] and
    [crates/protocol/src/api/upstream_failure.rs]).

    An exchange pairs the adapter of the client's dialect with the adapter of
    the upstream's, and holds the session of the bridge between them when the
    dialects differ.  The adapters and the sessions are trait objects in the
    source; here they are the classes [ProtocolAdapter] and
    [ProtocolBridgeSession], so what is proved of a stream holds for every
    dialect and every bridge. *)

From S2P Require Import Prelude Protocol PayloadBuffer SseDecoder Upstream Candidates AffinityStore Cost.

Local Open Scope Z_scope.

(** * Events *)

Inductive StreamCompletionPolicy := EofAllowed | TerminalEventRequired.

#[export] Instance completion_policy_eq_dec : EqDecision StreamCompletionPolicy.
Proof. solve_decision. Defined.

Inductive StreamTermination := TerminationNone | Completed | Failed.

#[export] Instance termination_eq_dec : EqDecision StreamTermination.
Proof. solve_decision. Defined.

(** [StreamTermination::is_terminal] *)
Definition is_terminal (t : StreamTermination) : bool :=
  match t with TerminationNone => false | _ => true end.

Record ProtocolEventTelemetry := {
  token_usage : TokenUsage;
  effective_speed_tier : option RequestSpeedTier;
  has_content_delta : bool;
  retry_transparent : bool
}.

Record ProtocolUpstreamFailureEvidence := {
  raw_json : list byte;
  retry_safety_override : option RetrySafety;
  retry_delay_basis : ProtocolRetryDelayBasis
}.

(** [SseJsonData]: the name of an event and its validated JSON *)
Record SseJsonData := { sse_event_name : option (list byte); sse_data : list byte }.

(** [SseEventPayload]; [Empty] carries a prefix as other types have the name. *)
Inductive SseEventPayload :=
| SseEmpty
| SseDone
| SseNonJson
| SseJson (data : SseJsonData).

(** [AdapterEvent] *)
Record AdapterEvent := {
  event_bytes : list byte;
  telemetry : ProtocolEventTelemetry;
  payload : SseEventPayload;
  termination : StreamTermination;
  upstream_failure : option ProtocolUpstreamFailureEvidence
}.

(** [AdapterEvent::new], [with_termination], [with_upstream_failure] *)
Definition adapter_event (bytes : list byte) (t : ProtocolEventTelemetry) (p : SseEventPayload)
    : AdapterEvent :=
  {| event_bytes := bytes; telemetry := t; payload := p; termination := TerminationNone;
     upstream_failure := None |}.
Definition with_termination (t : StreamTermination) (e : AdapterEvent) : AdapterEvent :=
  {| event_bytes := event_bytes e; telemetry := telemetry e; payload := payload e;
     termination := t; upstream_failure := upstream_failure e |}.
Definition with_upstream_failure (f : option ProtocolUpstreamFailureEvidence) (e : AdapterEvent)
    : AdapterEvent :=
  {| event_bytes := event_bytes e; telemetry := telemetry e; payload := payload e;
     termination := termination e; upstream_failure := f |}.

Inductive BridgeContinuationState :=
| BridgeStateless
| BridgePending
| BridgeReady (state : ProtocolContinuationState).

(** * The traits *)

Class ProtocolAdapter (A : Type) := {
  dialect : A -> ProtocolDialect;
  adapter_completion_policy : A -> ProtocolOperation -> StreamCompletionPolicy;
  adapter_decode_event : A -> list byte -> result AdapterEvent ProtocolError;
  adapter_encode_event : A -> AdapterEvent -> string -> result (list byte) ProtocolError;
  adapter_continuation_id : A -> ProtocolOperation -> AdapterEvent ->
    result (option string) ProtocolError
}.

Class ProtocolBridgeSession (S : Type) := {
  transform_event : AdapterEvent -> S -> result (list AdapterEvent) ProtocolError * S;
  finish_events : S -> result (list AdapterEvent) ProtocolError * S;
  continuation_state : S -> BridgeContinuationState
}.

Section exchange.
Context {A S : Type} `{!ProtocolAdapter A, !ProtocolBridgeSession S}.

(** [ProtocolExchange]; of the bridge only its presence is read here. *)
Record ProtocolExchange := {
  ingress : A;
  upstream_adapter : A;
  operation : ProtocolOperation;
  upstream_operation : ProtocolOperation;
  bridged : bool;
  bridge_session : option S
}.

(** [ProtocolExchange::direct] *)
Definition exchange_direct (adapter : A) (o : ProtocolOperation) : ProtocolExchange :=
  {| ingress := adapter; upstream_adapter := adapter; operation := o; upstream_operation := o;
     bridged := false; bridge_session := None |}.

(** [ProtocolExchange::bridged] *)
Definition exchange_bridged (ingress upstream : A) (o : ProtocolOperation) : ProtocolExchange :=
  {| ingress := ingress; upstream_adapter := upstream; operation := o; upstream_operation := o;
     bridged := true; bridge_session := None |}.

Definition with_session (s : option S) (x : ProtocolExchange) : ProtocolExchange :=
  {| ingress := ingress x; upstream_adapter := upstream_adapter x; operation := operation x;
     upstream_operation := upstream_operation x; bridged := bridged x; bridge_session := s |}.

Definition session_not_prepared : ProtocolError :=
  InvalidPayload "protocol bridge session was not prepared".

(** [ProtocolExchange::decode_upstream_event] *)
Definition decode_upstream_event (frame : list byte) (x : ProtocolExchange)
    : result (list AdapterEvent) ProtocolError * ProtocolExchange :=
  match adapter_decode_event (upstream_adapter x) frame with
  | Err e => (Err e, x)
  | Ok event =>
      match bridge_session x with
      | Some session =>
          let '(r, session) := transform_event event session in
          (r, with_session (Some session) x)
      | None => if negb (bridged x) then (Ok [event], x) else (Err session_not_prepared, x)
      end
  end.

(** [ProtocolExchange::finish_upstream_events] *)
Definition finish_upstream_events (x : ProtocolExchange)
    : result (list AdapterEvent) ProtocolError * ProtocolExchange :=
  match bridge_session x with
  | Some session =>
      let '(r, session) := finish_events session in (r, with_session (Some session) x)
  | None => (Ok [], x)
  end.

(** [ProtocolExchange::bridge_continuation_state] *)
Definition bridge_continuation_state (x : ProtocolExchange) : BridgeContinuationState :=
  match bridge_session x with Some s => continuation_state s | None => BridgeStateless end.

(** [ProtocolExchange::stream_completion_policy] *)
Definition stream_completion_policy (x : ProtocolExchange) : StreamCompletionPolicy :=
  adapter_completion_policy (upstream_adapter x) (upstream_operation x).

(** [ProtocolExchange::encode_egress_event] *)
Definition encode_egress_event (event : AdapterEvent) (public_model : string)
    (x : ProtocolExchange) : result (list byte) ProtocolError :=
  adapter_encode_event (ingress x) event public_model.

(** [ProtocolExchange::continuation_id_from_event] *)
Definition continuation_id_from_event (o : ProtocolOperation) (event : AdapterEvent)
    (x : ProtocolExchange) : result (option string) ProtocolError :=
  adapter_continuation_id (ingress x) o event.

(** A direct exchange gives one event per frame, keeps its state, and has no
    continuation of its own. *)
Lemma direct_exchange_transparent adapter o frame :
  let x := exchange_direct adapter o in
  decode_upstream_event frame x
  = (match adapter_decode_event adapter frame with
     | Ok e => Ok [e] | Err e => Err e
     end, x) /\
  finish_upstream_events x = (Ok [], x) /\ bridge_continuation_state x = BridgeStateless.
Proof. simpl. unfold decode_upstream_event. simpl. by destruct (adapter_decode_event _ _). Qed.

End exchange.
Arguments ProtocolExchange : clear implicits.
