(* ===== verification/Stream.v ===== *)
(** The body of a streamed answer
    ([crates/runtime/src/public_request/stream/]: [body.rs],
    [frame_pipeline.rs], [prime.rs], [completion.rs], [pending_failure.rs],
    [precommit_budget.rs], [precommit_continuation.rs]).

    A [GuardedBody] owns what an attempt holds while its answer is on the way:
    the permit of the credential, the health permits, the recorders, the lease
    of a continuation.  It decodes the upstream's SSE frames, sends each through
    the protocol exchange and queues the result.  Until the answer is committed
    ([prime_attempt]) nothing reaches the client, so the attempt may still be
    given up and another one tried; after it, [poll_next] hands the frames over
    one by one.

    The continuation registry is the class [ContinuationStore] here (it is
    modelled in [Affinity]); the provider driver gives a classifier of failure
    bodies and a reading of speed tiers.  The clock and the allocator are
    functions of the number of readings made, and what is done to things outside
    the body is listed in its [log]. *)

From S2P Require Import Prelude Protocol Candidates RetryBudget AffinityStore Affinity.
From S2P Require Import Upstream Circuit Health Attempt PayloadBuffer SseDecoder Cost Exchange.

Local Open Scope Z_scope.

(** * Failures before they are reported *)

Inductive PendingStreamErrorKind :=
| KindTransport (retry_safety : RetrySafety) (failure_scope : TransportFailureScope)
| KindInvalidResponse
| KindBudgetExceeded
| KindTimeout
| KindLocal.

Record PendingStreamError := {
  error_message : string;
  error_kind : PendingStreamErrorKind
}.

(** [PendingStreamError::transport]; [diagnostic] is [transport_error_diagnostic]. *)
Definition transport_error (diagnostic : string) (e : TransportError) : PendingStreamError :=
  {| error_message := diagnostic;
     error_kind := KindTransport (transport_retry_safety e) (failure_scope_of e) |}.
Definition timeout_error : PendingStreamError :=
  {| error_message := ANY2API_UPSTREAM_TIMEOUT_MESSAGE; error_kind := KindTimeout |}.
Definition postcommit_idle_timeout_error : PendingStreamError :=
  {| error_message := "upstream stream was idle after commit";
     error_kind := KindTransport Ambiguous ScopeUnattributed |}.
Definition invalid_response (message : string) : PendingStreamError :=
  {| error_message := message; error_kind := KindInvalidResponse |}.
Definition local_error (message : string) : PendingStreamError :=
  {| error_message := message; error_kind := KindLocal |}.
Definition budget_exceeded : PendingStreamError :=
  {| error_message := "upstream stream exceeded the precommit byte budget";
     error_kind := KindBudgetExceeded |}.

(** [transport_error_class] *)
Definition transport_error_class (s : TransportFailureScope) : ErrorClass :=
  match s with ScopeProxy => ClassProxy | _ => ClassNetwork end.

(** [PendingStreamErrorKind::error_class] *)
Definition kind_error_class (k : PendingStreamErrorKind) : ErrorClass :=
  match k with
  | KindTransport _ failure_scope => transport_error_class failure_scope
  | KindInvalidResponse | KindBudgetExceeded => ClassUpstream
  | KindTimeout => ClassNetwork
  | KindLocal => ClassInternal
  end.

(** [binding_error] *)
Definition binding_error (e : AffinityError) : PendingStreamError :=
  match e with
  | DeadlineExceeded => timeout_error
  | Capacity | ContinuationCapacity => local_error "protocol continuation capacity is full"
  | ContinuationTooLarge => local_error "protocol continuation state is too large"
  | IdentityConflict | LeaseLost => local_error "upstream SSE identity could not be bound"
  end.

(** * The precommit budget *)

Record PrecommitBudget := {
  max_bytes : Z;
  max_duration : Duration;
  used_bytes : Z;
  committed : bool
}.

(** [PrecommitBudget::new] *)
Definition precommit_new (max_bytes : Z) (max_duration : Duration) : PrecommitBudget :=
  {| max_bytes := max_bytes; max_duration := max_duration; used_bytes := 0; committed := false |}.

(** [PrecommitBudget::from_settings] *)
Definition precommit_from_settings (o : ProtocolOperation) (profile : RequestExecutionProfile)
    (precommit_max_bytes precommit_max_duration_secs : Z) : PrecommitBudget :=
  precommit_new (stream_precommit_bytes o profile precommit_max_bytes)
    (stream_timeout o profile (secs precommit_max_duration_secs)).

(** [PrecommitBudget::observe_frame] *)
Definition observe_frame (bytes : Z) (p : PrecommitBudget) : option PrecommitBudget :=
  if committed p then Some p
  else
    used ← checked_add usize_max (used_bytes p) bytes;
    if max_bytes p <? used then None
    else Some {| max_bytes := max_bytes p; max_duration := max_duration p; used_bytes := used;
                 committed := committed p |}.

(** [PrecommitBudget::commit] *)
Definition precommit_commit (p : PrecommitBudget) : PrecommitBudget :=
  {| max_bytes := max_bytes p; max_duration := max_duration p; used_bytes := used_bytes p;
     committed := true |}.

(** * Data *)

Inductive CommitState := CommitPending | TransportCommitted | Finished.

#[export] Instance commit_state_eq_dec : EqDecision CommitState.
Proof. solve_decision. Defined.

Inductive PrecommitContinuation :=
| ContinuationPending
| ContinuationReady (state : option ProtocolContinuationState).

Record PendingFrame := {
  frame_bytes : list byte;
  frame_has_content_delta : bool;
  frame_termination : StreamTermination;
  frame_token_usage : TokenUsage;
  frame_speed_tier : option RequestSpeedTier;
  frame_continuation_id : option string;
  frame_continuation_state : BridgeContinuationState;
  frame_upstream_error : option UpstreamError
}.

Record PrecommitUpstreamFailure := {
  failure_error : UpstreamError;
  failure_frame : list byte;
  failure_delay_basis : ProtocolRetryDelayBasis
}.

Inductive StreamPrimeFailure :=
| PrimeUpstream (failure : PrecommitUpstreamFailure)
| PrimePublic (error : PublicError).

Inductive StreamOutcome :=
| OutcomeSuccess
| OutcomeUpstreamFailure (e : UpstreamError)
| OutcomeError (class : ErrorClass) (message : string)
| OutcomeCancelled.

(** How the attempt's recorder is closed *)
Inductive attempt_record :=
| RecordSuccess
| RecordUpstreamError (safety : RetrySafety) (class : ErrorClass)
| RecordStreamError (class : ErrorClass) (message : string)
| RecordTransportError (safety : RetrySafety) (class : ErrorClass) (message : string)
| RecordInvalidResponse (message : string)
| RecordLocalError (class : ErrorClass) (message : string)
| RecordCancelled.

(** What the body does to things outside it *)
Inductive effect :=
| FirstUpstreamFrame
| StreamCommit
| FirstDownstreamByte
| FirstToken
| StreamCancel
| ObservedUsage (u : TokenUsage)
| ObservedTier (t : option RequestSpeedTier)
| LeaseBegun
| LeaseReady
| LeaseDropped
| HealthSettled (o : attempt_outcome)
| AttemptRecorded (r : attempt_record)
| RequestFinished (class : option ErrorClass) (message : option string)
| PermitReleased
| QuotaReleased.

(** * The continuation registry, as the stream uses it
    ([ContinuationBindingCommitter] and [ContinuationLease]) *)
Class ContinuationStore (K L : Type) := {
  cs_begin_pending : string -> option Instant -> K -> result L AffinityError * K;
  cs_bind_ready : string -> option ProtocolContinuationState -> option Instant -> K ->
    result unit AffinityError * K;
  cs_ready : L -> option ProtocolContinuationState -> option Instant -> K ->
    result unit AffinityError * K;
  cs_drop : L -> K -> K
}.

Definition MAX_UPSTREAM_ERROR_BODY_BYTES : nat := Z.to_nat (64 * 1024).

Section stream.
Context {B A S K L : Type}.
Context `{!BoundedBuffer B, !ProtocolAdapter A, !ProtocolBridgeSession S, !ContinuationStore K L}.

(** Readings of the clock and of the allocator *)
Variable clock : nat -> Instant.
Variable memory : nat -> allocator.
(** What the body was made with and never changes *)
Variable public_model : string.
Variable continuation_operation : ProtocolOperation.
Variable postcommit_idle_timeout : Duration.
(** [ProviderDriver::classify_error] at the status and headers of the answer,
    and [ProviderDriver::response_speed_tier] at its operation *)
Variable classify_error : list byte -> UpstreamError.
Variable response_speed_tier : option RequestSpeedTier -> option RequestSpeedTier.

Record GuardedBody := MkBody {
  decoder : SseDecoder B;
  buffered_chunk : option (list byte);
  exchange : ProtocolExchange A S;
  pending : list PendingFrame;
  pending_error : option PendingStreamError;
  precommit_upstream_failure : option PrecommitUpstreamFailure;
  precommit_commit_ready : bool;
  permit : bool;
  health : bool;
  continuation_lease : option L;
  precommit_continuation : option PrecommitContinuation;
  continuation_id : option string;
  cancelled : bool;
  state : CommitState;
  upstream_done : bool;
  decoder_finished : bool;
  terminal_seen : bool;
  pending_termination : StreamTermination;
  pending_upstream_error : option UpstreamError;
  attempt_recorder : bool;
  quota_activity : bool;
  owns_request_completion : bool;
  precommit_budget : PrecommitBudget;
  precommit_deadline : option Instant;
  idle_timer : option Instant;
  continuations : K;
  reads : nat;
  log : list effect
}.

(** Field updates *)
Ltac setter proj :=
  let t := constr:(fun b : GuardedBody => MkBody (decoder b) (buffered_chunk b) (exchange b) (pending
      b) (pending_error b) (precommit_upstream_failure b) (precommit_commit_ready b)
      (permit b) (health b) (continuation_lease b) (precommit_continuation b)
      (continuation_id b) (cancelled b) (state b) (upstream_done b)
      (decoder_finished b) (terminal_seen b) (pending_termination b)
      (pending_upstream_error b) (attempt_recorder b) (quota_activity b)
      (owns_request_completion b) (precommit_budget b) (precommit_deadline b)
      (idle_timer b) (continuations b) (reads b) (log b)) in
  match eval pattern proj in t with
  | ?f _ => let r := eval cbv beta in (fun v => f (fun _ => v)) in r
  end.

Definition set_decoder (v : SseDecoder B) : GuardedBody -> GuardedBody :=
  ltac:(let s := setter decoder in exact (s v)).
Definition set_buffered_chunk (v : option (list byte)) : GuardedBody -> GuardedBody :=
  ltac:(let s := setter buffered_chunk in exact (s v)).
Definition set_exchange (v : ProtocolExchange A S) : GuardedBody -> GuardedBody :=
  ltac:(let s := setter exchange in exact (s v)).
Definition set_pending (v : list PendingFrame) : GuardedBody -> GuardedBody :=
  ltac:(let s := setter pending in exact (s v)).
Definition set_pending_error (v : option PendingStreamError) : GuardedBody -> GuardedBody :=
  ltac:(let s := setter pending_error in exact (s v)).
Definition set_precommit_upstream_failure (v : option PrecommitUpstreamFailure) : GuardedBody -> GuardedBody :=
  ltac:(let s := setter precommit_upstream_failure in exact (s v)).
Definition set_precommit_commit_ready (v : bool) : GuardedBody -> GuardedBody :=
  ltac:(let s := setter precommit_commit_ready in exact (s v)).
Definition set_permit (v : bool) : GuardedBody -> GuardedBody :=
  ltac:(let s := setter permit in exact (s v)).
Definition set_health (v : bool) : GuardedBody -> GuardedBody :=
  ltac:(let s := setter health in exact (s v)).
Definition set_continuation_lease (v : option L) : GuardedBody -> GuardedBody :=
  ltac:(let s := setter continuation_lease in exact (s v)).
Definition set_precommit_continuation (v : option PrecommitContinuation) : GuardedBody -> GuardedBody :=
  ltac:(let s := setter precommit_continuation in exact (s v)).
Definition set_continuation_id (v : option string) : GuardedBody -> GuardedBody :=
  ltac:(let s := setter continuation_id in exact (s v)).
Definition set_cancelled (v : bool) : GuardedBody -> GuardedBody :=
  ltac:(let s := setter cancelled in exact (s v)).
Definition set_state (v : CommitState) : GuardedBody -> GuardedBody :=
  ltac:(let s := setter state in exact (s v)).
Definition set_upstream_done (v : bool) : GuardedBody -> GuardedBody :=
  ltac:(let s := setter upstream_done in exact (s v)).
Definition set_decoder_finished (v : bool) : GuardedBody -> GuardedBody :=
  ltac:(let s := setter decoder_finished in exact (s v)).
Definition set_terminal_seen (v : bool) : GuardedBody -> GuardedBody :=
  ltac:(let s := setter terminal_seen in exact (s v)).
Definition set_pending_termination (v : StreamTermination) : GuardedBody -> GuardedBody :=
  ltac:(let s := setter pending_termination in exact (s v)).
Definition set_pending_upstream_error (v : option UpstreamError) : GuardedBody -> GuardedBody :=
  ltac:(let s := setter pending_upstream_error in exact (s v)).
Definition set_attempt_recorder (v : bool) : GuardedBody -> GuardedBody :=
  ltac:(let s := setter attempt_recorder in exact (s v)).
Definition set_quota_activity (v : bool) : GuardedBody -> GuardedBody :=
  ltac:(let s := setter quota_activity in exact (s v)).
Definition set_owns_request_completion (v : bool) : GuardedBody -> GuardedBody :=
  ltac:(let s := setter owns_request_completion in exact (s v)).
Definition set_precommit_budget (v : PrecommitBudget) : GuardedBody -> GuardedBody :=
  ltac:(let s := setter precommit_budget in exact (s v)).
Definition set_precommit_deadline (v : option Instant) : GuardedBody -> GuardedBody :=
  ltac:(let s := setter precommit_deadline in exact (s v)).
Definition set_idle_timer (v : option Instant) : GuardedBody -> GuardedBody :=
  ltac:(let s := setter idle_timer in exact (s v)).
Definition set_continuations (v : K) : GuardedBody -> GuardedBody :=
  ltac:(let s := setter continuations in exact (s v)).
Definition set_reads (v : nat) : GuardedBody -> GuardedBody :=
  ltac:(let s := setter reads in exact (s v)).
Definition set_log (v : list effect) : GuardedBody -> GuardedBody :=
  ltac:(let s := setter log in exact (s v)).

Definition emit (e : effect) (b : GuardedBody) : GuardedBody := set_log (log b ++ [e]) b.

(** * Fallible operations on the body *)

Definition E (X : Type) : Type := GuardedBody -> result X PendingStreamError * GuardedBody.

#[local] Instance E_ret : MRet E := fun X x b => (Ok x, b).
#[local] Instance E_bind : MBind E := fun X Y f m b =>
  match m b with
  | (Ok x, b') => f x b'
  | (Err e, b') => (Err e, b')
  end.

Definition throw {X} (e : PendingStreamError) : E X := fun b => (Err e, b).
Definition get {X} (f : GuardedBody -> X) : E X := fun b => (Ok (f b), b).
Definition modify (f : GuardedBody -> GuardedBody) : E unit := fun b => (Ok tt, f b).
Definition guard_error (bad : bool) (e : PendingStreamError) : E unit :=
  if bad then throw e else mret tt.
Definition or_error {X Y} (r : result X Y) (e : Y -> PendingStreamError) : E X :=
  match r with Ok x => mret x | Err y => throw (e y) end.

(** [Instant::now] *)
Definition read_clock (b : GuardedBody) : Instant * GuardedBody :=
  (clock (reads b), set_reads (Datatypes.S (reads b)) b).

(** [check && deadline.is_some_and(|deadline| Instant::now() >= deadline)]: the
    clock is only read when there is something to compare it with. *)
Definition check_deadline (check : bool) (deadline : option Instant) : E unit := fun b =>
  match check, deadline with
  | true, Some d =>
      let '(now, b) := read_clock b in
      if d <=? now then (Err timeout_error, b) else (Ok tt, b)
  | _, _ => (Ok tt, b)
  end.

(** [set_pending_error] *)
Definition set_pending_stream_error (e : PendingStreamError) (b : GuardedBody) : GuardedBody :=
  match pending_error b with None => set_pending_error (Some e) b | Some _ => b end.

(** * Continuations *)

(** A call of the registry *)
Definition on_continuations {X} (f : K -> result X AffinityError * K) : E X := fun b =>
  let '(r, k) := f (continuations b) in
  (map_err binding_error r, set_continuations k b).

(** [continuation_lease.take()], which drops the lease *)
Definition drop_lease (b : GuardedBody) : GuardedBody :=
  match continuation_lease b with
  | None => b
  | Some lease =>
      emit LeaseDropped
        (set_continuations (cs_drop lease (continuations b)) (set_continuation_lease None b))
  end.

(** [continuation_lease.take()] after [ready]: dropping an inactive lease does
    nothing. *)
Definition end_lease (b : GuardedBody) : GuardedBody :=
  emit LeaseReady (set_continuation_lease None b).

Definition keep_lease (id : string) (lease : L) : E unit :=
  modify (fun b => emit LeaseBegun
    (set_continuation_id (Some id) (set_continuation_lease (Some lease) b))).

Definition conflicting (id : option string) (b : GuardedBody) : bool :=
  match id, continuation_id b with
  | Some id, Some existing => negb (bool_decide (existing = id))
  | _, _ => false
  end.

Definition conflicting_identities : PendingStreamError :=
  local_error "upstream SSE emitted conflicting response identities".
Definition missing_identity : PendingStreamError :=
  local_error "upstream SSE continuation identity was missing".

(** [commit_continuation_state] *)
Definition commit_continuation_state (id : option string) (state : BridgeContinuationState)
    (deadline : option Instant) : E unit :=
  conflict ← get (conflicting id);
  guard_error conflict conflicting_identities;;
  match state with
  | BridgeStateless =>
      match id with
      | None => mret tt
      | Some id =>
          on_continuations (cs_bind_ready id None deadline);;
          modify (set_continuation_id (Some id))
      end
  | BridgePending =>
      match id with
      | None => mret tt
      | Some id =>
          lease ← get continuation_lease;
          match lease with
          | Some _ => mret tt
          | None =>
              lease ← on_continuations (cs_begin_pending id deadline);
              keep_lease id lease
          end
      end
  | BridgeReady continuation =>
      lease ← get continuation_lease;
      match lease, id with
      | Some lease, _ =>
          on_continuations (cs_ready lease (Some continuation) deadline);;
          modify end_lease
      | None, Some id =>
          on_continuations (cs_bind_ready id (Some continuation) deadline);;
          modify (set_continuation_id (Some id))
      | None, None =>
          existing ← get continuation_id;
          guard_error (bool_decide (existing = None)) missing_identity
      end
  end.

(** [begin_precommit_continuation] *)
Definition begin_precommit_continuation (id : string) (deadline : option Instant) : E unit :=
  lease ← get continuation_lease;
  match lease with
  | Some _ => mret tt
  | None =>
      lease ← on_continuations (cs_begin_pending id deadline);
      keep_lease id lease
  end.

Definition next_continuation (s : BridgeContinuationState) : PrecommitContinuation :=
  match s with
  | BridgeStateless => ContinuationReady None
  | BridgePending => ContinuationPending
  | BridgeReady state => ContinuationReady (Some state)
  end.

(** The [match] of [stage_precommit_continuation_state] on what is staged and
    what comes next: go on, leave it as it is, or a conflict. *)
Inductive staging := StageNext | StageKeep | StageConflict.
Definition stage (current : option PrecommitContinuation) (next : PrecommitContinuation)
    : staging :=
  match current, next with
  | None, _ => StageNext
  | Some ContinuationPending, (ContinuationPending | ContinuationReady (Some _)) => StageNext
  | Some (ContinuationReady None), ContinuationReady None => StageKeep
  | Some (ContinuationReady (Some _)), ContinuationReady (Some _) => StageKeep
  | _, _ => StageConflict
  end.

(** [stage_precommit_continuation_state] *)
Definition stage_precommit_continuation_state (id : option string)
    (state : BridgeContinuationState) (deadline : option Instant) : E unit :=
  conflict ← get (conflicting id);
  guard_error conflict conflicting_identities;;
  current ← get precommit_continuation;
  match current, id, state with
  | None, None, (BridgeStateless | BridgePending) => mret tt
  | None, None, BridgeReady _ => throw missing_identity
  | _, _, _ =>
      let next := next_continuation state in
      match stage current next with
      | StageKeep => mret tt
      | StageConflict =>
          throw (local_error "upstream SSE emitted conflicting continuation states")
      | StageNext =>
          match id with
          | Some id => begin_precommit_continuation id deadline
          | None => mret tt
          end;;
          lease ← get continuation_lease;
          guard_error (match lease with None => true | Some _ => false end) missing_identity;;
          modify (set_precommit_continuation (Some next))
      end
  end.

(** [finalize_precommit_continuation] *)
Definition finalize_precommit_continuation (deadline : option Instant) : E unit :=
  current ← get precommit_continuation;
  modify (set_precommit_continuation None);;
  match current with
  | None | Some ContinuationPending => mret tt
  | Some (ContinuationReady state) =>
      lease ← get continuation_lease;
      match lease with
      | None => throw (local_error "upstream SSE continuation lease was missing")
      | Some lease =>
          on_continuations (cs_ready lease state deadline);;
          modify end_lease
      end
  end.

(** [validate_deferred_continuation_id] *)
Definition validate_deferred_continuation_id (id : option string) : E unit :=
  match id with
  | None => mret tt
  | Some id' =>
      committed_conflict ← get (conflicting id);
      frames ← get pending;
      guard_error
        (committed_conflict ||
         existsb (fun f => match frame_continuation_id f with
                           | Some existing => negb (bool_decide (existing = id'))
                           | None => false
                           end) frames)
        conflicting_identities
  end.

(** * Frames *)

(** [classify_upstream_failure] *)
Definition classify_upstream_failure (evidence : ProtocolUpstreamFailureEvidence)
    (allow_retry_safety_override : bool) : UpstreamError :=
  let classified := classify_error (take MAX_UPSTREAM_ERROR_BODY_BYTES (raw_json evidence)) in
  match allow_retry_safety_override, retry_safety_override evidence with
  | true, Some safety => with_retry_safety safety classified
  | _, _ => classified
  end.

(** [precommit_budget.observe_frame] *)
Definition charge_frame (bytes : list byte) : E unit := fun b =>
  match observe_frame (Zlen bytes) (precommit_budget b) with
  | Some p => (Ok tt, set_precommit_budget p b)
  | None => (Err budget_exceeded, b)
  end.

(** The failure of an event that ends the attempt before anything is committed *)
Definition note_upstream_failure (check : bool) (event : AdapterEvent) (bytes : list byte)
    (failure : option (UpstreamError * ProtocolRetryDelayBasis)) (b : GuardedBody) : GuardedBody :=
  match failure with
  | Some (error, basis) =>
      if check && bool_decide (termination event = Failed) && negb (precommit_commit_ready b)
      then set_precommit_upstream_failure
             (Some {| failure_error := error; failure_frame := bytes;
                      failure_delay_basis := basis |}) b
      else b
  | None => b
  end.

(** The end of [push_event]: whether the answer may be committed now *)
Definition note_commit_ready (check : bool) (event : AdapterEvent) (b : GuardedBody)
    : GuardedBody :=
  if check && negb (bool_decide (is_Some (precommit_upstream_failure b))) &&
     (has_content_delta (telemetry event) || negb (retry_transparent (telemetry event)) ||
      is_terminal (termination event))
  then set_precommit_commit_ready true b
  else b.

(** [push_event] *)
Definition push_event (event : AdapterEvent) (deadline : option Instant) : E unit :=
  check ← get (fun b => negb (committed (precommit_budget b)));
  check_deadline check deadline;;
  let tele := telemetry event in
  let tier := response_speed_tier (effective_speed_tier tele) in
  ready ← get precommit_commit_ready;
  let failure := (fun ev => (classify_upstream_failure ev (check && negb ready),
                             retry_delay_basis ev)) <$> upstream_failure event in
  x ← get exchange;
  id ← or_error (continuation_id_from_event continuation_operation event x)
         (fun _ => invalid_response "upstream SSE identity was invalid");
  let continuation := bridge_continuation_state x in
  guard_error
    (bool_decide (termination event = Completed) &&
     match continuation with BridgePending => true | _ => false end)
    (invalid_response "upstream SSE continuation was incomplete");;
  bytes ← or_error (encode_egress_event event public_model x)
            (fun _ => local_error "upstream SSE event could not be encoded");
  check_deadline check deadline;;
  charge_frame bytes;;
  (if check then validate_deferred_continuation_id id
   else
     commit_continuation_state id continuation None;;
     modify (emit (ObservedTier tier) ∘ emit (ObservedUsage (token_usage tele))));;
  modify (note_upstream_failure check event bytes failure);;
  modify (fun b => set_pending (pending b ++
    [{| frame_bytes := bytes; frame_has_content_delta := has_content_delta tele;
        frame_termination := termination event; frame_token_usage := token_usage tele;
        frame_speed_tier := tier; frame_continuation_id := id;
        frame_continuation_state := continuation; frame_upstream_error := fst <$> failure |}]) b);;
  modify (fun b => set_terminal_seen (terminal_seen b || is_terminal (termination event)) b);;
  modify (note_commit_ready check event).

(** The loops over the events of a frame, left at the first terminal event *)
Fixpoint push_events (events : list AdapterEvent) (deadline : option Instant) : E unit :=
  match events with
  | [] => mret tt
  | event :: events =>
      push_event event deadline;;
      terminal ← get terminal_seen;
      if (terminal : bool) then mret tt else push_events events deadline
  end.

(** A call of the exchange that may change its session *)
Definition on_exchange {X} (f : ProtocolExchange A S -> result X ProtocolError * ProtocolExchange A S)
    (e : PendingStreamError) : E X := fun b =>
  let '(r, x) := f (exchange b) in
  (map_err (fun _ => e) r, set_exchange x b).

(** [push_frame] *)
Definition push_frame (frame : list byte) (deadline : option Instant) : E unit :=
  check ← get (fun b => negb (committed (precommit_budget b)));
  check_deadline check deadline;;
  events ← on_exchange (decode_upstream_event frame)
             (invalid_response "upstream SSE event was invalid");
  push_events events deadline.

(** [if let Err(error) = .. { self.set_pending_error(error) }] *)
Definition noting_error (m : E unit) (b : GuardedBody) : GuardedBody :=
  match m b with
  | (Ok _, b) => b
  | (Err e, b) => set_pending_stream_error e b
  end.

Definition frame_invalid (e : ProtocolError) : PendingStreamError :=
  invalid_response ("upstream SSE frame was invalid: " +:+ protocol_error_text e).

Definition note_first_frame (b : GuardedBody) : GuardedBody :=
  if attempt_recorder b then emit FirstUpstreamFrame b else b.

(** [process_buffered_frame]; its loop is [SseDecoder.process_buffered_frame],
    which comes back within three iterations. *)
Definition body_process_buffered_frame (deadline : option Instant) (b : GuardedBody)
    : outcome (bool * GuardedBody) :=
  p ← process_buffered_frame 3 (memory (reads b)) (decoder b) (buffered_chunk b);
  match p with
  | None => Panic
  | Some (pump, d, chunk) =>
      let b := set_buffered_chunk chunk (set_decoder d b) in
      Ret match pump with
          | PumpFrame frame => (true, noting_error (push_frame frame deadline) (note_first_frame b))
          | PumpError e => (true, set_pending_stream_error (frame_invalid e) b)
          | PumpNeedsInput => (false, b)
          end
  end.

(** [process_chunk] *)
Definition process_chunk (chunk : list byte) (deadline : option Instant) (b : GuardedBody)
    : outcome GuardedBody :=
  let b := if Zlen chunk =? 0 then b else set_buffered_chunk (Some chunk) b in
  '(_, b) ← body_process_buffered_frame deadline b;
  Ret b.

(** The calls of [finish_decoder] after the last frame *)
Definition finish_exchange (deadline : option Instant) (b : GuardedBody) : GuardedBody :=
  if bool_decide (is_Some (pending_error b)) then b
  else noting_error
    (events ← on_exchange finish_upstream_events
                (invalid_response "upstream SSE bridge could not be finalized");
     push_events events deadline) b.

Definition require_terminal (b : GuardedBody) : GuardedBody :=
  if negb (bool_decide (is_Some (pending_error b))) &&
     bool_decide (stream_completion_policy (exchange b) = TerminalEventRequired) &&
     negb (terminal_seen b)
  then set_pending_stream_error
         (invalid_response "upstream SSE ended before a required terminal event") b
  else b.

(** [finish_decoder] *)
Definition finish_decoder (deadline : option Instant) (b : GuardedBody) : outcome GuardedBody :=
  if decoder_finished b then Ret b
  else
    let b := set_decoder_finished true b in
    '(r, d) ← SseDecoder.finish (decoder b);
    let b := set_decoder d b in
    let b := match r with
             | Ok (Some frame) => noting_error (push_frame frame deadline) b
             | Ok None => b
             | Err e => set_pending_stream_error (frame_invalid e) b
             end in
    Ret (require_terminal (finish_exchange deadline b)).

(** [process_eof] *)
Definition process_eof (deadline : option Instant) (b : GuardedBody) : outcome GuardedBody :=
  let b := set_upstream_done true b in
  '(progress, b) ← body_process_buffered_frame deadline b;
  if (progress : bool) then Ret b else finish_decoder deadline b.

(** * The end of the body *)

(** [health.take()] and a call on it, or its drop *)
Definition settle_health (o : attempt_outcome) (b : GuardedBody) : GuardedBody :=
  if health b then emit (HealthSettled o) (set_health false b) else b.

(** [attempt_recorder.take()] and a call on it *)
Definition record_attempt (r : attempt_record) (b : GuardedBody) : GuardedBody :=
  if attempt_recorder b then emit (AttemptRecorded r) (set_attempt_recorder false b) else b.

Definition release_permit (b : GuardedBody) : GuardedBody :=
  if permit b then emit PermitReleased (set_permit false b) else b.
Definition release_quota (b : GuardedBody) : GuardedBody :=
  if quota_activity b then emit QuotaReleased (set_quota_activity false b) else b.

Definition note_cancel (outcome : StreamOutcome) (b : GuardedBody) : GuardedBody :=
  if owns_request_completion b &&
     match outcome with OutcomeCancelled => true | _ => false end && attempt_recorder b
  then emit StreamCancel b else b.

Definition outcome_health (outcome : StreamOutcome) : attempt_outcome :=
  match outcome with
  | OutcomeSuccess => AttemptSucceeded
  | OutcomeUpstreamFailure error => AttemptFailedUpstream (classification error)
  | OutcomeError _ _ | OutcomeCancelled => AttemptDropped
  end.

Definition outcome_record (outcome : StreamOutcome) : attempt_record :=
  match outcome with
  | OutcomeSuccess => RecordSuccess
  | OutcomeUpstreamFailure error =>
      RecordUpstreamError (Upstream.retry_safety (classification error))
        (error_class (kind (classification error)))
  | OutcomeError class message => RecordStreamError class message
  | OutcomeCancelled => RecordCancelled
  end.

Definition upstream_failure_message : string :=
  "upstream response stream reported a failure event".

Definition finish_request (outcome : StreamOutcome) (b : GuardedBody) : GuardedBody :=
  if owns_request_completion b then
    emit match outcome with
         | OutcomeSuccess => RequestFinished None None
         | OutcomeUpstreamFailure error =>
             RequestFinished (Some (error_class (kind (classification error))))
               (Some upstream_failure_message)
         | OutcomeError class message => RequestFinished (Some class) (Some message)
         | OutcomeCancelled => RequestFinished (Some ClassCancelled) (Some "request cancelled")
         end b
  else b.

(** [finish] *)
Definition finish (outcome : StreamOutcome) (b : GuardedBody) : GuardedBody :=
  if bool_decide (state b = Finished) then b
  else
    let b := set_cancelled true (set_state Finished b) in
    let b := set_precommit_continuation None (drop_lease b) in
    let b := settle_health (outcome_health outcome) (note_cancel outcome b) in
    let b := finish_request outcome (record_attempt (outcome_record outcome) b) in
    release_quota (release_permit b).

(** [release_guards] *)
Definition release_guards (b : GuardedBody) : GuardedBody :=
  let b := set_cancelled true (set_state Finished b) in
  let b := set_precommit_continuation None (drop_lease b) in
  release_quota (release_permit (settle_health AttemptDropped b)).

(** [fail_before_handoff] *)
Definition fail_before_handoff (class : ErrorClass) (message : string) (b : GuardedBody)
    : GuardedBody := release_guards (record_attempt (RecordLocalError class message) b).

Definition pending_kind (e : option PendingStreamError) : PendingStreamErrorKind :=
  match e with Some e => error_kind e | None => KindInvalidResponse end.
Definition pending_message (e : option PendingStreamError) : string :=
  match e with
  | Some e => error_message e
  | None => "upstream stream ended before the first event"
  end.

(** The settlement of [finish_precommit_failure]: what the health of the attempt
    is told and what its recorder *)
Definition precommit_verdict (kind : PendingStreamErrorKind) (diagnostic : string)
    : attempt_outcome * attempt_record :=
  match kind with
  | KindTransport safety scope =>
      (AttemptFailedTransport scope,
       RecordTransportError safety (transport_error_class scope) diagnostic)
  | KindInvalidResponse =>
      (AttemptFailedTransport ScopeEndpoint, RecordInvalidResponse diagnostic)
  | KindBudgetExceeded => (AttemptSucceeded, RecordInvalidResponse diagnostic)
  | KindTimeout => (AttemptDropped, RecordLocalError ClassNetwork diagnostic)
  | KindLocal => (AttemptSucceeded, RecordLocalError ClassInternal diagnostic)
  end.

(** The public error of [finish_precommit_failure] *)
Definition precommit_public_error (kind : PendingStreamErrorKind) (some_pending : bool)
    : PublicError :=
  match kind with
  | KindTimeout => public_error GatewayTimeout ANY2API_UPSTREAM_TIMEOUT_MESSAGE
  | KindLocal => public_error InternalError "internal stream processing failed"
  | KindTransport _ _ | KindInvalidResponse | KindBudgetExceeded =>
      public_error CodeUpstreamError
        (if some_pending then "upstream stream failed before the first event"
         else "upstream stream ended before the first event")
  end.

(** [finish_precommit_failure] *)
Definition finish_precommit_failure (b : GuardedBody) : PublicError * GuardedBody :=
  let failed := pending_error b in
  let '(h, r) := precommit_verdict (pending_kind failed) (pending_message failed) in
  let b := record_attempt r (settle_health h (set_pending_error None b)) in
  (precommit_public_error (pending_kind failed) (bool_decide (is_Some failed)),
   release_guards b).

(** [finish_precommit_upstream_failure] *)
Definition finish_precommit_upstream_failure (error : UpstreamError) (b : GuardedBody)
    : GuardedBody :=
  let c := classification error in
  let b := settle_health (AttemptFailedUpstream c) b in
  release_guards
    (record_attempt (RecordUpstreamError (Upstream.retry_safety c) (error_class (kind c))) b).

(** [commit_precommit_continuation] *)
Definition commit_precommit_continuation (deadline : option Instant) (b : GuardedBody)
    : result unit PublicError * GuardedBody :=
  match finalize_precommit_continuation deadline b with
  | (Ok _, b) => (Ok tt, b)
  | (Err e, b) =>
      let '(error, b) := finish_precommit_failure (set_pending_stream_error e b) in
      (Err error, b)
  end.

(** * The commit of the answer *)

Definition stripped (f : PendingFrame) : PendingFrame :=
  {| frame_bytes := frame_bytes f; frame_has_content_delta := frame_has_content_delta f;
     frame_termination := frame_termination f; frame_token_usage := frame_token_usage f;
     frame_speed_tier := frame_speed_tier f; frame_continuation_id := None;
     frame_continuation_state := BridgeStateless;
     frame_upstream_error := frame_upstream_error f |}.

(** The loop of [commit_precommit_frames] *)
Fixpoint commit_frames (frames : list PendingFrame) (deadline : option Instant) : E unit :=
  match frames with
  | [] => mret tt
  | f :: frames =>
      stage_precommit_continuation_state (frame_continuation_id f) (frame_continuation_state f)
        deadline;;
      modify (fun b => emit (ObservedTier (frame_speed_tier f))
                         (emit (ObservedUsage (frame_token_usage f)) b));;
      modify (fun b => set_pending (pending b ++ [stripped f]) b);;
      commit_frames frames deadline
  end.

(** [commit_precommit_frames] *)
Definition commit_precommit_frames (deadline : option Instant) : E unit :=
  frames ← get pending;
  modify (set_pending []);;
  commit_frames frames deadline;;
  modify (fun b => set_precommit_budget (precommit_commit (precommit_budget b)) b);;
  modify (fun b => if attempt_recorder b then emit StreamCommit b else b).

(** What the upstream answers when the body reads it; nothing more listed means
    that it does not answer. *)
Inductive upstream_item :=
| UpChunk (chunk : list byte)
| UpError (diagnostic : string) (e : TransportError)
| UpEof
| UpPending.

(** The length of a [Bytes] is a [usize]. *)
Definition item_ok (i : upstream_item) : Prop :=
  match i with UpChunk chunk => Zlen chunk <= usize_max | _ => True end.

Definition settled_enough (b : GuardedBody) : bool :=
  precommit_commit_ready b || bool_decide (is_Some (precommit_upstream_failure b)) ||
  bool_decide (is_Some (pending_error b)).

(** The reading loop of [prime_attempt]; [None] when [fuel] iterations were not
    enough.  A read that does not answer ends in the timeout. *)
Fixpoint prime_loop (fuel : nat) (deadline : Instant) (ups : list upstream_item)
    (b : GuardedBody) : outcome (option (list upstream_item * GuardedBody)) :=
  match fuel with
  | O => Ret None
  | Datatypes.S fuel =>
      if settled_enough b then Ret (Some (ups, b))
      else
        '(progress, b) ← body_process_buffered_frame (Some deadline) b;
        if (progress : bool) then prime_loop fuel deadline ups b
        else if upstream_done b then
          b ← finish_decoder (Some deadline) b;
          if settled_enough b then prime_loop fuel deadline ups b else Ret (Some (ups, b))
        else
          let '(now, b) := read_clock b in
          if deadline <=? now then Ret (Some (ups, set_pending_stream_error timeout_error b))
          else
            let '(item, ups) := match ups with
                                | [] => (UpPending, [])
                                | item :: ups => (item, ups)
                                end in
            match item with
            | UpChunk chunk =>
                b ← process_chunk chunk (Some deadline) b;
                prime_loop fuel deadline ups b
            | UpError diagnostic e =>
                prime_loop fuel deadline ups
                  (set_pending_stream_error (transport_error diagnostic e) b)
            | UpEof =>
                b ← process_eof (Some deadline) b;
                prime_loop fuel deadline ups b
            | UpPending =>
                prime_loop fuel deadline ups (set_pending_stream_error timeout_error b)
            end
  end.

(** The end of [prime_attempt] *)
Definition prime_verdict (deadline : Instant) (b : GuardedBody)
    : result unit StreamPrimeFailure * GuardedBody :=
  match precommit_upstream_failure b with
  | Some failure =>
      let b := set_precommit_upstream_failure None b in
      (Err (PrimeUpstream failure), finish_precommit_upstream_failure (failure_error failure) b)
  | None =>
      if (bool_decide (is_Some (pending_error b)) && negb (precommit_commit_ready b)) ||
         bool_decide (pending b = [])
      then let '(e, b) := finish_precommit_failure b in (Err (PrimePublic e), b)
      else
        match commit_precommit_frames (Some deadline) b with
        | (Ok _, b) => (Ok tt, b)
        | (Err error, b) =>
            let '(e, b) := finish_precommit_failure (set_pending_stream_error error b) in
            (Err (PrimePublic e), b)
        end
  end.

(** [prime_attempt] *)
Definition prime_attempt (fuel : nat) (ups : list upstream_item) (b : GuardedBody)
    : outcome (option (result unit StreamPrimeFailure * list upstream_item * GuardedBody)) :=
  let '(now, b) := read_clock b in
  let deadline := now + max_duration (precommit_budget b) in
  p ← prime_loop fuel deadline ups (set_precommit_deadline (Some deadline) b);
  Ret match p with
      | None => None
      | Some (ups, b) => let '(r, b) := prime_verdict deadline b in Some (r, ups, b)
      end.

(** * The committed stream *)

(** [reset_idle_timer] and [start_idle_timer] *)
Definition reset_idle_timer (b : GuardedBody) : GuardedBody :=
  let '(now, b) := read_clock b in set_idle_timer (Some (now + postcommit_idle_timeout)) b.
Definition start_idle_timer (b : GuardedBody) : GuardedBody :=
  match idle_timer b with None => reset_idle_timer b | Some _ => b end.

(** [idle_timer_elapsed] *)
Definition idle_timer_elapsed (b : GuardedBody) : bool * GuardedBody :=
  match idle_timer b with
  | None => (false, b)
  | Some deadline => let '(now, b) := read_clock b in (deadline <=? now, b)
  end.

(** [finish_pending_termination]; its [unreachable!] is [Panic]. *)
Definition finish_pending_termination (b : GuardedBody) : outcome GuardedBody :=
  let taken := set_pending_termination TerminationNone b in
  match pending_termination b with
  | TerminationNone => Panic
  | Completed => Ret (finish OutcomeSuccess taken)
  | Failed =>
      Ret match pending_upstream_error b with
          | Some error =>
              finish (OutcomeUpstreamFailure error) (set_pending_upstream_error None taken)
          | None => finish (OutcomeError ClassUpstream upstream_failure_message) taken
          end
  end.

Inductive poll_result :=
| PollItem (bytes : list byte)
| PollFailed (message : string)
| PollEnd
| PollPending.

(** [poll_next] with a frame queued *)
Definition deliver (f : PendingFrame) (rest : list PendingFrame) (b : GuardedBody)
    : outcome (poll_result * GuardedBody) :=
  let b := set_state TransportCommitted (set_pending rest b) in
  let b := if negb (bool_decide (frame_bytes f = [])) && attempt_recorder b
           then emit FirstDownstreamByte b else b in
  let b := if frame_has_content_delta f then emit FirstToken b else b in
  b ← (if is_terminal (frame_termination f) then
         finish_pending_termination
           (set_idle_timer None
             (set_pending_upstream_error (frame_upstream_error f)
               (set_pending_termination (frame_termination f) b)))
       else Ret (start_idle_timer b));
  Ret (PollItem (frame_bytes f), b).

(** [poll_next]; [None] when [fuel] iterations of its loop were not enough. *)
Fixpoint poll_next (fuel : nat) (ups : list upstream_item) (b : GuardedBody)
    : outcome (option (poll_result * list upstream_item * GuardedBody)) :=
  match fuel with
  | O => Ret None
  | Datatypes.S fuel =>
      if bool_decide (state b = Finished) then Ret (Some (PollEnd, ups, b))
      else if is_terminal (pending_termination b) then
        b ← finish_pending_termination b;
        Ret (Some (PollEnd, ups, b))
      else
        match pending b with
        | f :: rest =>
            '(r, b) ← deliver f rest b;
            Ret (Some (r, ups, b))
        | [] =>
            match pending_error b with
            | Some error =>
                Ret (Some (PollFailed (error_message error), ups,
                           finish (OutcomeError (kind_error_class (error_kind error))
                                     (error_message error)) (set_pending_error None b)))
            | None =>
                '(progress, b) ← body_process_buffered_frame None b;
                if (progress : bool) then poll_next fuel ups b
                else
                  b ← (if upstream_done b then finish_decoder None b else Ret b);
                  if upstream_done b &&
                     (negb (decoder_finished b) || negb (bool_decide (pending b = [])) ||
                      bool_decide (is_Some (pending_error b)))
                  then poll_next fuel ups b
                  else if upstream_done b || cancelled b
                  then Ret (Some (PollEnd, ups, finish OutcomeSuccess b))
                  else
                    let '(item, ups) := match ups with
                                        | [] => (UpPending, [])
                                        | item :: ups => (item, ups)
                                        end in
                    match item with
                    | UpChunk chunk =>
                        b ← process_chunk chunk None (reset_idle_timer b);
                        poll_next fuel ups b
                    | UpError diagnostic e =>
                        poll_next fuel ups
                          (set_pending_stream_error (transport_error diagnostic e) b)
                    | UpEof =>
                        b ← process_eof None b;
                        poll_next fuel ups b
                    | UpPending =>
                        let '(elapsed, b) := idle_timer_elapsed b in
                        if (elapsed : bool)
                        then poll_next fuel ups
                               (set_pending_stream_error postcommit_idle_timeout_error b)
                        else Ret (Some (PollPending, ups, b))
                    end
            end
        end
  end.

(** [drop] *)
Definition body_drop (b : GuardedBody) : GuardedBody := finish OutcomeCancelled b.

(** [into_stream] *)
Definition into_stream (b : GuardedBody) : GuardedBody := set_owns_request_completion true b.

(** [GuardedBody::new]; of the parts only what the attempt may lack is an
    argument. *)
Definition body_new (x : ProtocolExchange A S) (budget : PrecommitBudget)
    (has_health has_quota_activity : bool) (k : K) : GuardedBody :=
  MkBody (decoder_new (max_bytes budget)) None x [] None None false true has_health None None None
    false CommitPending false false false TerminationNone None true has_quota_activity false
    budget None None k 0 [].

Create HintDb stream.

(** * What every operation before the end leaves alone *)

Definition countb (p : effect -> bool) (l : list effect) : nat :=
  sum_list_with (fun e => Nat.b2n (p e)) l.

Definition is_permit (e : effect) : bool := match e with PermitReleased => true | _ => false end.
Definition is_quota (e : effect) : bool := match e with QuotaReleased => true | _ => false end.
Definition is_health (e : effect) : bool := match e with HealthSettled _ => true | _ => false end.
Definition is_attempt (e : effect) : bool :=
  match e with AttemptRecorded _ => true | _ => false end.
Definition is_request (e : effect) : bool :=
  match e with RequestFinished _ _ => true | _ => false end.
Definition is_begun (e : effect) : bool := match e with LeaseBegun => true | _ => false end.
Definition is_ended (e : effect) : bool :=
  match e with LeaseReady | LeaseDropped => true | _ => false end.

(** An effect that settles nothing *)
Definition is_settling (e : effect) : bool :=
  is_permit e || is_quota e || is_health e || is_attempt e || is_request e.

Lemma countb_app p l k : countb p (l ++ k) = (countb p l + countb p k)%nat.
Proof. apply sum_list_with_app. Qed.

Lemma countb_none p l : Forall (fun e => p e = false) l -> countb p l = 0%nat.
Proof. unfold countb. induction 1 as [|e l He _ IH]; simpl; [done|]. by rewrite He, IH. Qed.

Definition leased (b : GuardedBody) : nat :=
  match continuation_lease b with Some _ => 1 | None => 0 end.

Definition over (b : GuardedBody) : bool := bool_decide (state b = Finished).

(** [calm b b']: on the way from [b] to [b'] nothing was settled, the guards are
    as they were, and a lease is held exactly while one was begun and not ended. *)
Record calm (b b' : GuardedBody) : Prop := {
  calm_permit : permit b' = permit b;
  calm_health : health b' = health b;
  calm_recorder : attempt_recorder b' = attempt_recorder b;
  calm_quota : quota_activity b' = quota_activity b;
  calm_owns : owns_request_completion b' = owns_request_completion b;
  calm_over : over b' = over b;
  calm_log : exists l, log b' = log b ++ l /\ Forall (fun e => is_settling e = false) l /\
    (countb is_begun l + leased b = countb is_ended l + leased b')%nat
}.

#[local] Instance calm_preorder : PreOrder calm.
Proof.
  split.
  - intros b. split; try done. exists []. by rewrite app_nil_r.
  - intros a b c [?????? (l & El & Hl & Cl)] [?????? (k & Ek & Hk & Ck)].
    split; try congruence. exists (l ++ k). rewrite Ek, El, app_assoc. split; [done|].
    split; [by apply Forall_app|]. rewrite !countb_app. lia.
Qed.

(** ** A relation every run of a fallible operation respects *)

Definition keeps {X} (R : relation GuardedBody) (m : E X) : Prop := forall b, R b (m b).2.

Section keeps.
Context (R : relation GuardedBody) `{!PreOrder R}.

Lemma keeps_ret {X} (x : X) : keeps R (mret x).
Proof using PreOrder0. by intros b. Qed.
Lemma keeps_throw {X} e : keeps R (throw (X := X) e).
Proof using PreOrder0. by intros b. Qed.
Lemma keeps_get {X} (f : GuardedBody -> X) : keeps R (get f).
Proof using PreOrder0. by intros b. Qed.
Lemma keeps_modify f : (forall b, R b (f b)) -> keeps R (modify f).
Proof. by intros H b. Qed.
Lemma keeps_bind {X Y} (m : E X) (k : X -> E Y) :
  keeps R m -> (forall x, keeps R (k x)) -> keeps R (m ≫= k).
Proof using PreOrder0.
  intros Hm Hk b. unfold mbind, E_bind. specialize (Hm b).
  destruct (m b) as [[x|e] b']; simpl in *; [|done]. etrans; [done|apply Hk].
Qed.
Lemma keeps_guard bad e : keeps R (guard_error bad e).
Proof using PreOrder0. unfold guard_error. destruct bad; [apply keeps_throw|apply keeps_ret]. Qed.
Lemma keeps_or_error {X Y} (r : result X Y) e : keeps R (or_error r e).
Proof using PreOrder0. unfold or_error. destruct r; [apply keeps_ret|apply keeps_throw]. Qed.
End keeps.

(** Breaks a fallible operation into its calls. *)
Ltac keeps_step :=
  match goal with
  | |- keeps _ (mret _) => apply keeps_ret; exact _
  | |- keeps _ (throw _) => apply keeps_throw; exact _
  | |- keeps _ (get _) => apply keeps_get; exact _
  | |- keeps _ (guard_error _ _) => apply keeps_guard; exact _
  | |- keeps _ (or_error _ _) => apply keeps_or_error; exact _
  | |- keeps _ (modify _) => apply keeps_modify; intros ?
  | |- keeps _ (_ ≫= _) => apply keeps_bind; [exact _| |intros ?]
  | |- keeps _ (match ?x with _ => _ end) => destruct x
  | |- keeps _ (let _ := _ in _) => cbv zeta
  end.
Ltac keeps_tac := repeat keeps_step; eauto with stream.

(** Closes [calm] for an update that only touches other fields. *)
Ltac calm_same := split; try reflexivity; exists []; rewrite app_nil_r; by split_and!.

Lemma calm_emit e b : is_settling e = false -> is_begun e = false -> is_ended e = false ->
  calm b (emit e b).
Proof.
  intros H1 H2 H3. split; try reflexivity. exists [e]. split; [done|]. split; [by constructor|].
  unfold countb. simpl. rewrite H2, H3. simpl. unfold leased. simpl. lia.
Qed.

Lemma calm_read_clock b : calm b (read_clock b).2.
Proof. calm_same. Qed.

Lemma calm_check_deadline check deadline : keeps calm (check_deadline check deadline).
Proof.
  intros b. unfold check_deadline. destruct check, deadline as [d|]; simpl; try reflexivity.
  case_match; simpl; apply calm_read_clock.
Qed.

Lemma calm_on_continuations {X} (f : K -> result X AffinityError * K) :
  keeps calm (on_continuations f).
Proof. intros b. unfold on_continuations. destruct (f _) as [r k]. simpl. calm_same. Qed.

(** A lease that is begun while none is held, and one that ends. *)
Lemma calm_begin_lease id f b : continuation_lease b = None ->
  calm b ((lease ← on_continuations f; keep_lease id lease) b).2.
Proof.
  intros Hnone. unfold mbind, E_bind, on_continuations.
  destruct (f (continuations b)) as [[lease|e] k]; simpl; [|calm_same].
  split; try reflexivity. exists [LeaseBegun]. split; [done|]. split; [by constructor|].
  unfold leased. simpl. rewrite Hnone. done.
Qed.

Lemma calm_end_lease b : is_Some (continuation_lease b) -> calm b (end_lease b).
Proof.
  intros [lease E0]. split; try reflexivity. exists [LeaseReady]. split; [done|].
  split; [by constructor|]. unfold leased. rewrite E0. done.
Qed.

Lemma calm_ready_lease lease state deadline b : continuation_lease b = Some lease ->
  calm b ((on_continuations (cs_ready lease state deadline);; modify end_lease) b).2.
Proof.
  intros Hs. unfold mbind, E_bind, on_continuations.
  destruct (cs_ready _ _ _ _) as [[u|e] k]; simpl; [|calm_same].
  transitivity (set_continuations k b); [calm_same|]. by apply calm_end_lease.
Qed.

#[local] Hint Resolve calm_check_deadline calm_on_continuations : stream.

(** Reading a field first: the rest runs on the same body. *)
Lemma bind_get {X Y} (f : GuardedBody -> X) (k : X -> E Y) b : (get f ≫= k) b = k (f b) b.
Proof. done. Qed.
Lemma bind_modify {Y} f (k : unit -> E Y) b : (modify f ≫= k) b = k tt (f b).
Proof. done. Qed.
Lemma bind_run {X Y} (m : E X) (k : X -> E Y) b :
  (m ≫= k) b = match m b with (Ok x, b') => k x b' | (Err e, b') => (Err e, b') end.
Proof. done. Qed.

Lemma calm_begin_precommit id deadline : keeps calm (begin_precommit_continuation id deadline).
Proof.
  intros b. unfold begin_precommit_continuation. rewrite bind_get.
  destruct (continuation_lease b) eqn:El; [done|]. by apply calm_begin_lease.
Qed.
#[local] Hint Resolve calm_begin_precommit : stream.

Lemma calm_commit_continuation id s deadline :
  keeps calm (commit_continuation_state id s deadline).
Proof.
  unfold commit_continuation_state. keeps_step; [keeps_tac|]. keeps_step; [keeps_tac|].
  destruct s as [| |c].
  - keeps_tac. calm_same.
  - destruct id as [id|]; [|keeps_tac]. intros b. rewrite bind_get.
    destruct (continuation_lease b) eqn:El; [done|]. by apply calm_begin_lease.
  - intros b. rewrite bind_get. destruct (continuation_lease b) as [lease|] eqn:El.
    { by apply calm_ready_lease. }
    revert b El. assert (H : keeps calm (match id with
      | Some id => on_continuations (cs_bind_ready id (Some c) deadline);;
                   modify (set_continuation_id (Some id))
      | None => existing ← get continuation_id;
                guard_error (bool_decide (existing = None)) missing_identity
      end)) by (keeps_tac; calm_same).
    intros b _. destruct id; apply H.
Qed.

Lemma calm_stage id s deadline : keeps calm (stage_precommit_continuation_state id s deadline).
Proof. unfold stage_precommit_continuation_state. keeps_tac; calm_same. Qed.

Lemma calm_finalize deadline : keeps calm (finalize_precommit_continuation deadline).
Proof.
  intros b. unfold finalize_precommit_continuation. rewrite bind_get.
  transitivity (set_precommit_continuation None b); [calm_same|].
  set (b1 := set_precommit_continuation None b). unfold modify, mbind at 1, E_bind at 1. fold b1.
  destruct (precommit_continuation b) as [[|st]|]; [done| |done]. rewrite bind_get.
  destruct (continuation_lease b1) as [lease|] eqn:El; [|done]. by apply calm_ready_lease.
Qed.

Lemma calm_validate id : keeps calm (validate_deferred_continuation_id id).
Proof. unfold validate_deferred_continuation_id. keeps_tac. Qed.

Lemma calm_charge bytes : keeps calm (charge_frame bytes).
Proof. intros b. unfold charge_frame. case_match; simpl; [calm_same|done]. Qed.

Lemma calm_set_error e b : calm b (set_pending_stream_error e b).
Proof. unfold set_pending_stream_error. case_match; [done|calm_same]. Qed.

Lemma calm_note_failure check event bytes failure b :
  calm b (note_upstream_failure check event bytes failure b).
Proof. unfold note_upstream_failure. repeat case_match; try done; calm_same. Qed.

Lemma calm_note_ready check event b : calm b (note_commit_ready check event b).
Proof. unfold note_commit_ready. case_match; [calm_same|done]. Qed.

#[local] Hint Resolve calm_commit_continuation calm_stage calm_validate calm_charge : stream.
#[local] Hint Resolve calm_note_failure calm_note_ready calm_finalize : stream.

Lemma calm_emit2 e1 e2 b : is_settling e1 = false -> is_begun e1 = false -> is_ended e1 = false ->
  is_settling e2 = false -> is_begun e2 = false -> is_ended e2 = false ->
  calm b (emit e2 (emit e1 b)).
Proof. intros. transitivity (emit e1 b); by apply calm_emit. Qed.

Lemma calm_push_event event deadline : keeps calm (push_event event deadline).
Proof.
  unfold push_event. cbv zeta. keeps_tac; try calm_same. by apply calm_emit2.
Qed.
#[local] Hint Resolve calm_push_event : stream.

Lemma calm_push_events events deadline : keeps calm (push_events events deadline).
Proof. induction events as [|e es IH]; simpl; keeps_tac. Qed.
#[local] Hint Resolve calm_push_events : stream.

Lemma calm_on_exchange {X} f e : keeps calm (on_exchange (X := X) f e).
Proof. intros b. unfold on_exchange. destruct (f _) as [r x]. simpl. calm_same. Qed.
#[local] Hint Resolve calm_on_exchange : stream.

Lemma calm_push_frame frame deadline : keeps calm (push_frame frame deadline).
Proof. unfold push_frame. keeps_tac. Qed.

Lemma calm_noting m b : keeps calm m -> calm b (noting_error m b).
Proof.
  intros Hm. specialize (Hm b). unfold noting_error. destruct (m b) as [[u|e] b']; simpl in *; [done|].
  etrans; [exact Hm|apply calm_set_error].
Qed.

Lemma calm_first_frame b : calm b (note_first_frame b).
Proof. unfold note_first_frame. case_match; [by apply calm_emit|done]. Qed.

Lemma calm_process_buffered deadline b r b' :
  body_process_buffered_frame deadline b = Ret (r, b') -> calm b b'.
Proof.
  unfold body_process_buffered_frame.
  destruct (process_buffered_frame _ _ _ _) as [[[[p d] chunk]|]|]; simpl; try done.
  set (b1 := set_buffered_chunk chunk (set_decoder d b)).
  intros [= E0]. transitivity b1; [calm_same|]. destruct p; simplify_eq.
  - transitivity (note_first_frame b1); [apply calm_first_frame|]. apply calm_noting, calm_push_frame.
  - apply calm_set_error.
  - done.
Qed.

Lemma calm_process_chunk chunk deadline b b' :
  process_chunk chunk deadline b = Ret b' -> calm b b'.
Proof.
  unfold process_chunk. destruct (body_process_buffered_frame _ _) as [[r b2]|] eqn:E0; simpl; [|done].
  intros [= <-]. apply calm_process_buffered in E0. etrans; [|exact E0]. case_match; [done|calm_same].
Qed.

Lemma calm_finish_exchange deadline b : calm b (finish_exchange deadline b).
Proof. unfold finish_exchange. case_match; [done|]. apply calm_noting. keeps_tac. Qed.

Lemma calm_require_terminal b : calm b (require_terminal b).
Proof. unfold require_terminal. case_match; [apply calm_set_error|done]. Qed.

Lemma calm_finish_decoder deadline b b' : finish_decoder deadline b = Ret b' -> calm b b'.
Proof.
  unfold finish_decoder. case_match; [by intros [= <-]|].
  destruct (SseDecoder.finish _) as [[r d]|]; simpl; [|done]. intros [= <-].
  set (b1 := set_decoder d _). transitivity b1; [calm_same|].
  etrans; [|apply calm_require_terminal]. etrans; [|apply calm_finish_exchange].
  destruct r as [[f|]|e]; [apply calm_noting, calm_push_frame|done|apply calm_set_error].
Qed.

Lemma calm_process_eof deadline b b' : process_eof deadline b = Ret b' -> calm b b'.
Proof.
  unfold process_eof. destruct (body_process_buffered_frame _ _) as [[r b2]|] eqn:E0; simpl; [|done].
  apply calm_process_buffered in E0. intros H.
  transitivity b2; [etrans; [|exact E0]; calm_same|].
  destruct r; [by simplify_eq | by eapply calm_finish_decoder].
Qed.

Lemma calm_commit_frames frames deadline : keeps calm (commit_frames frames deadline).
Proof.
  induction frames as [|f fs IH]; simpl; keeps_tac; [by apply calm_emit2 | calm_same].
Qed.
#[local] Hint Resolve calm_commit_frames : stream.

Lemma calm_commit_precommit deadline : keeps calm (commit_precommit_frames deadline).
Proof.
  unfold commit_precommit_frames. keeps_tac; [calm_same..|].
  case_match; [by apply calm_emit|done].
Qed.

Lemma calm_prime_loop fuel deadline ups b ups' b' :
  prime_loop fuel deadline ups b = Ret (Some (ups', b')) -> calm b b'.
Proof.
  revert ups b. induction fuel as [|fuel IH]; intros ups b; [done|]. cbn [prime_loop].
  case_match; [by intros [= <- <-]|].
  destruct (body_process_buffered_frame _ _) as [[r b1]|] eqn:E1; simpl; [|done].
  apply calm_process_buffered in E1. intros Hrun. etrans; [exact E1|]. clear E1. revert Hrun.
  destruct r; [apply IH|]. case_match.
  { destruct (finish_decoder _ _) as [b2|] eqn:E2; simpl; [|done].
    apply calm_finish_decoder in E2. intros Hrun. etrans; [exact E2|].
    destruct (settled_enough b2); [by eapply IH|by simplify_eq]. }
  intros Hrun. transitivity (read_clock b1).2; [apply calm_read_clock|]. revert Hrun. simpl.
  set (b2 := set_reads _ _). case_match; [intros [= <- <-]; apply calm_set_error|].
  destruct ups as [|[chunk|diag e| |] ups].
  - intros Hrun%IH. etrans; [apply calm_set_error|done].
  - destruct (process_chunk _ _ _) as [b3|] eqn:E3; simpl; [|done].
    apply calm_process_chunk in E3. intros Hrun%IH. by etrans.
  - intros Hrun%IH. etrans; [apply calm_set_error|done].
  - destruct (process_eof _ _) as [b3|] eqn:E3; simpl; [|done].
    apply calm_process_eof in E3. intros Hrun%IH. by etrans.
  - intros Hrun%IH. etrans; [apply calm_set_error|done].
Qed.

(** * The ledger of the guards *)

(** What was given up plus what is still held: the permit, the health, the
    attempt's recorder, the quota guard; and the requests that were closed. *)
Definition tally (b : GuardedBody) : nat * nat * nat * nat * nat :=
  (countb is_permit (log b) + Nat.b2n (permit b),
   countb is_health (log b) + Nat.b2n (health b),
   countb is_attempt (log b) + Nat.b2n (attempt_recorder b),
   countb is_quota (log b) + Nat.b2n (quota_activity b),
   countb is_request (log b))%nat.

Definition lease_balanced (b : GuardedBody) : Prop :=
  countb is_begun (log b) = (countb is_ended (log b) + leased b)%nat.

Definition released (b : GuardedBody) : Prop :=
  permit b = false /\ health b = false /\ attempt_recorder b = false /\
  quota_activity b = false /\ continuation_lease b = None.

Record ledger (h0 q0 : bool) (b : GuardedBody) : Prop := {
  ledger_tally : tally b =
    (1, Nat.b2n h0, 1, Nat.b2n q0, Nat.b2n (over b && owns_request_completion b))%nat;
  ledger_lease : lease_balanced b;
  ledger_over : over b = true -> released b
}.

Lemma calm_counts b b' p : calm b b' -> (forall e, p e = true -> is_settling e = true) ->
  countb p (log b') = countb p (log b).
Proof.
  intros [_ _ _ _ _ _ (l & -> & Hl & _)] Hp. rewrite countb_app.
  rewrite (countb_none p l); [lia|]. eapply Forall_impl; [exact Hl|].
  intros e He. simpl in He. destruct (p e) eqn:Ep; [|done]. apply Hp in Ep. congruence.
Qed.

Lemma calm_tally b b' : calm b b' -> tally b' = tally b.
Proof.
  intros Hc. unfold tally.
  rewrite !(calm_counts b b' _ Hc) by (intros []; done).
  by rewrite (calm_permit _ _ Hc), (calm_health _ _ Hc), (calm_recorder _ _ Hc), (calm_quota _ _ Hc).
Qed.

Lemma calm_ledger h0 q0 b b' : calm b b' -> over b = false -> ledger h0 q0 b -> ledger h0 q0 b'.
Proof.
  intros Hc Ho [Ht Hl _]. pose proof (calm_over _ _ Hc) as Eo. split.
  - by rewrite (calm_tally _ _ Hc), Eo, (calm_owns _ _ Hc).
  - destruct Hc as [_ _ _ _ _ _ (l & E0 & _ & Hb)]. unfold lease_balanced in *.
    rewrite E0, !countb_app. lia.
  - congruence.
Qed.

(** ** The pieces of the end *)

Ltac tally_tac := unfold tally; simpl; rewrite ?countb_app; simpl; rewrite ?Nat.add_0_r.
Ltac tally_flag flag :=
  let E0 := fresh in destruct flag eqn:E0; [|done]; tally_tac; by rewrite E0.

Lemma tally_settle_health o b : tally (settle_health o b) = tally b.
Proof. unfold settle_health. tally_flag (health b). Qed.
Lemma tally_record_attempt r b : tally (record_attempt r b) = tally b.
Proof. unfold record_attempt. tally_flag (attempt_recorder b). Qed.
Lemma tally_release_permit b : tally (release_permit b) = tally b.
Proof. unfold release_permit. tally_flag (permit b). Qed.
Lemma tally_release_quota b : tally (release_quota b) = tally b.
Proof. unfold release_quota. tally_flag (quota_activity b). Qed.
Lemma tally_drop_lease b : tally (drop_lease b) = tally b.
Proof. unfold drop_lease. destruct (continuation_lease b); [|done]. by tally_tac. Qed.
Lemma tally_note_cancel o b : tally (note_cancel o b) = tally b.
Proof. unfold note_cancel. case_match; [|done]. by tally_tac. Qed.
Lemma tally_finish_request o b :
  tally (finish_request o b)
  = ((tally b).1, ((tally b).2 + Nat.b2n (owns_request_completion b))%nat).
Proof.
  unfold finish_request. destruct (owns_request_completion b); unfold tally; simpl;
    [|by rewrite Nat.add_0_r].
  rewrite !countb_app. destruct o; simpl; by rewrite ?Nat.add_0_r.
Qed.

(** The flags each piece leaves. *)
Definition flags (b : GuardedBody) : bool * bool * bool * bool * bool * bool * nat :=
  (permit b, health b, attempt_recorder b, quota_activity b, over b, owns_request_completion b,
   leased b).

Lemma flags_inv b p h a q o w l : flags b = (p, h, a, q, o, w, l) ->
  permit b = p /\ health b = h /\ attempt_recorder b = a /\ quota_activity b = q /\
  over b = o /\ owns_request_completion b = w /\ leased b = l.
Proof. unfold flags. by intros [=]. Qed.

Lemma flags_settle_health x b p h a q o w l : flags b = (p, h, a, q, o, w, l) ->
  flags (settle_health x b) = (p, false, a, q, o, w, l).
Proof. unfold settle_health. destruct (health b) eqn:E0; intros [=]; subst; unfold flags; by rewrite ?E0. Qed.
Lemma flags_record_attempt x b p h a q o w l : flags b = (p, h, a, q, o, w, l) ->
  flags (record_attempt x b) = (p, h, false, q, o, w, l).
Proof. unfold record_attempt. destruct (attempt_recorder b) eqn:E0; intros [=]; subst; unfold flags; by rewrite ?E0. Qed.
Lemma flags_release_permit b p h a q o w l : flags b = (p, h, a, q, o, w, l) ->
  flags (release_permit b) = (false, h, a, q, o, w, l).
Proof. unfold release_permit. destruct (permit b) eqn:E0; intros [=]; subst; unfold flags; by rewrite ?E0. Qed.
Lemma flags_release_quota b p h a q o w l : flags b = (p, h, a, q, o, w, l) ->
  flags (release_quota b) = (p, h, a, false, o, w, l).
Proof. unfold release_quota. destruct (quota_activity b) eqn:E0; intros [=]; subst; unfold flags; by rewrite ?E0. Qed.
Lemma flags_drop_lease b p h a q o w l : flags b = (p, h, a, q, o, w, l) ->
  flags (drop_lease b) = (p, h, a, q, o, w, 0%nat).
Proof. unfold drop_lease. destruct (continuation_lease b) eqn:E0; intros [=]; subst; unfold flags, leased; by rewrite ?E0. Qed.
Lemma flags_note_cancel x b : flags (note_cancel x b) = flags b.
Proof. unfold note_cancel. by case_match. Qed.
Lemma flags_finish_request x b : flags (finish_request x b) = flags b.
Proof. unfold finish_request. by case_match. Qed.

Lemma flags_released b o w : flags b = (false, false, false, false, o, w, 0%nat) -> released b.
Proof.
  unfold flags, leased, released. intros [=]. split_and!; try done. by destruct (continuation_lease b).
Qed.

(** The balance of leases: only [drop_lease] ends one, and only if it is held. *)
Lemma balanced_emit e b : is_begun e = false -> is_ended e = false ->
  lease_balanced (emit e b) <-> lease_balanced b.
Proof.
  intros H1 H2. unfold lease_balanced. simpl. rewrite !countb_app. unfold countb at 2 4. simpl.
  rewrite H1, H2. simpl. unfold leased. simpl. lia.
Qed.
Lemma balanced_settle_health o b : lease_balanced (settle_health o b) <-> lease_balanced b.
Proof. unfold settle_health. case_match; [|done]. by rewrite balanced_emit. Qed.
Lemma balanced_record_attempt r b : lease_balanced (record_attempt r b) <-> lease_balanced b.
Proof. unfold record_attempt. case_match; [|done]. by rewrite balanced_emit. Qed.
Lemma balanced_release_permit b : lease_balanced (release_permit b) <-> lease_balanced b.
Proof. unfold release_permit. case_match; [|done]. by rewrite balanced_emit. Qed.
Lemma balanced_release_quota b : lease_balanced (release_quota b) <-> lease_balanced b.
Proof. unfold release_quota. case_match; [|done]. by rewrite balanced_emit. Qed.
Lemma balanced_note_cancel o b : lease_balanced (note_cancel o b) <-> lease_balanced b.
Proof. unfold note_cancel. case_match; [|done]. by rewrite balanced_emit. Qed.
Lemma balanced_finish_request o b : lease_balanced (finish_request o b) <-> lease_balanced b.
Proof. unfold finish_request. case_match; [|done]. by destruct o; rewrite balanced_emit. Qed.
Lemma balanced_drop_lease b : lease_balanced b -> lease_balanced (drop_lease b).
Proof.
  unfold drop_lease, lease_balanced, leased. destruct (continuation_lease b) eqn:E0; simpl;
    rewrite ?countb_app, ?E0; simpl; lia.
Qed.

(** ** The whole end *)

Definition closed_state (b : GuardedBody) : GuardedBody :=
  set_precommit_continuation None (drop_lease (set_cancelled true (set_state Finished b))).

Lemma closed_state_flags b p h a q o w l : flags b = (p, h, a, q, o, w, l) ->
  flags (closed_state b) = (p, h, a, q, true, w, 0%nat).
Proof.
  intros [=]. subst. apply (flags_drop_lease (set_cancelled true (set_state Finished b)) _ _ _ _ _ _ _ eq_refl).
Qed.

Lemma closed_state_tally b : tally (closed_state b) = tally b.
Proof. apply (tally_drop_lease (set_cancelled true (set_state Finished b))). Qed.

Lemma closed_state_balanced b : lease_balanced b -> lease_balanced (closed_state b).
Proof. intros H. by apply (balanced_drop_lease (set_cancelled true (set_state Finished b))). Qed.

Lemma finish_unfold o b : over b = false -> finish o b =
  release_quota (release_permit (finish_request o (record_attempt (outcome_record o)
    (settle_health (outcome_health o) (note_cancel o (closed_state b)))))).
Proof. unfold over, finish. by intros ->. Qed.

Lemma finish_ledger h0 q0 o b : ledger h0 q0 b -> ledger h0 q0 (finish o b) /\ over (finish o b) = true.
Proof.
  intros Hled. destruct (over b) eqn:Eo.
  { unfold finish. fold (over b). by rewrite Eo. }
  destruct Hled as [Ht Hl Ho].
  rewrite (finish_unfold o b Eo).
  destruct (flags b) as [[[[[[p h] a] q] o'] w] l] eqn:Ef.
  pose proof (closed_state_flags _ _ _ _ _ _ _ _ Ef) as Ef'.
  rewrite <- (flags_note_cancel o) in Ef'.
  apply (flags_settle_health (outcome_health o)) in Ef'.
  apply (flags_record_attempt (outcome_record o)) in Ef'.
    assert (Et : tally (finish_request o (record_attempt (outcome_record o)
            (settle_health (outcome_health o) (note_cancel o (closed_state b)))))
          = (1, Nat.b2n h0, 1, Nat.b2n q0, Nat.b2n w)%nat).
  { rewrite tally_finish_request, tally_record_attempt, tally_settle_health, tally_note_cancel,
      closed_state_tally, Ht, Eo. simpl.
    by apply flags_inv in Ef' as (_ & _ & _ & _ & _ & -> & _). }
  rewrite <- (flags_finish_request o) in Ef'.
  apply flags_release_permit, flags_release_quota in Ef'.
  set (b' := release_quota _) in *. pose proof (flags_released _ _ _ Ef') as Hrel.
  apply flags_inv in Ef' as (_ & _ & _ & _ & Eover & Eowns & _). split; [|exact Eover]. split.
  - unfold b'. rewrite tally_release_quota, tally_release_permit, Et. fold b'.
    by rewrite Eover, Eowns.
  - unfold b'. rewrite balanced_release_quota, balanced_release_permit, balanced_finish_request,
      balanced_record_attempt, balanced_settle_health, balanced_note_cancel.
    by apply closed_state_balanced.
  - intros _. exact Hrel.
Qed.

(** The attempt's recorder was closed before the guards are released. *)
Lemma release_guards_ledger h0 q0 b :
  over b = false -> owns_request_completion b = false -> attempt_recorder b = false ->
  tally b = (1, Nat.b2n h0, 1, Nat.b2n q0, 0)%nat -> lease_balanced b ->
  let b' := release_guards b in
  ledger h0 q0 b' /\ over b' = true /\ owns_request_completion b' = false.
Proof.
  intros Eo Ew Ea Ht Hl. cbv zeta. unfold release_guards. fold (closed_state b).
  assert (Ef : flags b = (permit b, health b, false, quota_activity b, false, false, leased b))
    by (unfold flags; by rewrite Eo, Ew, Ea).
  apply closed_state_flags, (flags_settle_health AttemptDropped), flags_release_permit,
    flags_release_quota in Ef.
  set (b' := release_quota _) in *. pose proof (flags_released _ _ _ Ef) as Hrel.
  apply flags_inv in Ef as (_ & _ & _ & _ & Eover & Eowns & _). split; [|by split]. split.
  - unfold b'. rewrite tally_release_quota, tally_release_permit, tally_settle_health,
      closed_state_tally, Ht. fold b'. by rewrite Eover, Eowns.
  - unfold b'. rewrite balanced_release_quota, balanced_release_permit, balanced_settle_health.
    by apply closed_state_balanced.
  - intros _. exact Hrel.
Qed.

Lemma recorded_release_ledger h0 q0 x r b :
  ledger h0 q0 b -> over b = false -> owns_request_completion b = false ->
  let b' := release_guards (record_attempt r (settle_health x b)) in
  ledger h0 q0 b' /\ over b' = true /\ owns_request_completion b' = false.
Proof.
  intros [Ht Hl _] Eo Ew. simpl.
  assert (Ef : flags b = (permit b, health b, attempt_recorder b, quota_activity b, false, false, leased b))
    by (unfold flags; by rewrite Eo, Ew).
  apply (flags_settle_health x), (flags_record_attempt r) in Ef. apply flags_inv in Ef as (_ & _ & E1 & _ & E2 & E3 & _).
  apply release_guards_ledger; try done.
  - by rewrite tally_record_attempt, tally_settle_health, Ht, Eo.
  - by rewrite balanced_record_attempt, balanced_settle_health.
Qed.

(** ** The operations keep the ledger *)

Section ledgers.
Context (h0 q0 : bool).

Lemma precommit_failure_ledger b :
  ledger h0 q0 b -> over b = false -> owns_request_completion b = false ->
  let b' := (finish_precommit_failure b).2 in ledger h0 q0 b' /\ over b' = true /\
    owns_request_completion b' = false.
Proof.
  intros Hled Eo Ew. unfold finish_precommit_failure. destruct (precommit_verdict _ _) as [x r].
  simpl. apply recorded_release_ledger; try done.
  eapply calm_ledger; [|done|exact Hled]. calm_same.
Qed.

Lemma precommit_upstream_ledger error b :
  ledger h0 q0 b -> over b = false -> owns_request_completion b = false ->
  let b' := finish_precommit_upstream_failure error b in ledger h0 q0 b' /\ over b' = true /\
    owns_request_completion b' = false.
Proof. apply recorded_release_ledger. Qed.

Lemma fail_before_handoff_ledger class message b :
  ledger h0 q0 b -> over b = false -> owns_request_completion b = false ->
  let b' := fail_before_handoff class message b in ledger h0 q0 b' /\ over b' = true /\
    owns_request_completion b' = false.
Proof.
  intros [Ht Hl _] Eo Ew. simpl. unfold fail_before_handoff.
  assert (Ef : flags b = (permit b, health b, attempt_recorder b, quota_activity b, false, false,
                          leased b)) by (unfold flags; by rewrite Eo, Ew).
  apply (flags_record_attempt (RecordLocalError class message)) in Ef.
  apply flags_inv in Ef as (_ & _ & E1 & _ & E2 & E3 & _).
  apply release_guards_ledger; try done.
  - by rewrite tally_record_attempt, Ht, Eo.
  - by rewrite balanced_record_attempt.
Qed.

Lemma prime_verdict_ledger deadline b r b' :
  ledger h0 q0 b -> over b = false -> owns_request_completion b = false ->
  prime_verdict deadline b = (r, b') ->
  ledger h0 q0 b' /\ over b' = negb (is_ok r) /\ owns_request_completion b' = false.
Proof.
  intros Hled Eo Ew. unfold prime_verdict.
  destruct (precommit_upstream_failure b) as [failure|].
  { intros [= <- <-]. apply precommit_upstream_ledger; try done.
    eapply calm_ledger; [|done|exact Hled]. calm_same. }
  case_match.
  { pose proof (precommit_failure_ledger b Hled Eo Ew).
    destruct (finish_precommit_failure b) as [e b1]. by intros [= <- <-]. }
  pose proof (calm_commit_precommit (Some deadline) b) as Hc.
  destruct (commit_precommit_frames _ b) as [[u|error] b1]; simpl in Hc.
  - intros [= <- <-]. pose proof (calm_over _ _ Hc). pose proof (calm_owns _ _ Hc). simpl.
    split; [by eapply calm_ledger|]. split; congruence.
  - assert (calm b (set_pending_stream_error error b1)) as Hc2
      by (etrans; [exact Hc|apply calm_set_error]).
    pose proof (calm_over _ _ Hc2). pose proof (calm_owns _ _ Hc2).
    pose proof (precommit_failure_ledger (set_pending_stream_error error b1)) as Hf.
    destruct (finish_precommit_failure _) as [e b2]. intros [= <- <-]. simpl in *.
    apply Hf; [by eapply calm_ledger|congruence..].
Qed.

Lemma prime_ledger fuel ups b r ups' b' :
  ledger h0 q0 b -> over b = false -> owns_request_completion b = false ->
  prime_attempt fuel ups b = Ret (Some (r, ups', b')) ->
  ledger h0 q0 b' /\ over b' = negb (is_ok r) /\ owns_request_completion b' = false.
Proof.
  intros Hled Eo Ew. unfold prime_attempt. simpl. set (b1 := set_precommit_deadline _ _).
  assert (calm b b1) as Hc1 by calm_same.
  destruct (prime_loop _ _ _ b1) as [[[ups1 b2]|]|] eqn:El; simpl; [|done..].
  apply calm_prime_loop in El. assert (calm b b2) as Hc by (by etrans).
  destruct (prime_verdict _ b2) as [r0 b3] eqn:Ev. intros [= <- <- <-].
  eapply prime_verdict_ledger; [| | |exact Ev].
  - by eapply calm_ledger.
  - by rewrite (calm_over _ _ Hc).
  - by rewrite (calm_owns _ _ Hc).
Qed.

Lemma commit_continuation_ledger deadline b r b' :
  ledger h0 q0 b -> over b = false -> owns_request_completion b = false ->
  commit_precommit_continuation deadline b = (r, b') -> ledger h0 q0 b'.
Proof.
  intros Hled Eo Ew. unfold commit_precommit_continuation.
  pose proof (calm_finalize deadline b) as Hc.
  destruct (finalize_precommit_continuation _ b) as [[u|error] b1]; simpl in Hc.
  { intros [= <- <-]. by eapply calm_ledger. }
  assert (calm b (set_pending_stream_error error b1)) as Hc2
    by (etrans; [exact Hc|apply calm_set_error]).
  pose proof (calm_over _ _ Hc2). pose proof (calm_owns _ _ Hc2).
  pose proof (precommit_failure_ledger (set_pending_stream_error error b1)) as Hf.
  destruct (finish_precommit_failure _) as [e b2]. intros [= <- <-]. simpl in *.
  apply Hf; [by eapply calm_ledger|congruence..].
Qed.

Lemma finish_termination_ledger b b' :
  ledger h0 q0 b -> over b = false -> finish_pending_termination b = Ret b' -> ledger h0 q0 b'.
Proof.
  intros Hled Eo. unfold finish_pending_termination.
  assert (ledger h0 q0 (set_pending_termination TerminationNone b))
    by (eapply calm_ledger; [|done|exact Hled]; calm_same).
  destruct (pending_termination b); [done|intros [= <-]; by apply finish_ledger|].
  destruct (pending_upstream_error b) as [error|]; intros [= <-]; apply finish_ledger; [|done].
  eapply calm_ledger; [|done|exact Hled]. calm_same.
Qed.

Lemma calm_sent b : over b = false -> calm b (set_state TransportCommitted b).
Proof.
  intros Eo. split; try reflexivity; [by rewrite Eo|]. exists []. rewrite app_nil_r. by split_and!.
Qed.

Lemma calm_reset_idle b : calm b (reset_idle_timer b).
Proof. calm_same. Qed.

Lemma deliver_ledger f rest b r b' :
  ledger h0 q0 b -> over b = false -> deliver f rest b = Ret (r, b') -> ledger h0 q0 b'.
Proof.
  intros Hled Eo. unfold deliver. set (b1 := set_state _ _).
  assert (calm b b1) as Hc1 by (transitivity (set_pending rest b); [calm_same|by apply calm_sent]).
  set (b2 := if negb _ && _ then _ else _).
  assert (calm b b2) as Hc2
    by (etrans; [exact Hc1|]; unfold b2; case_match; [by apply calm_emit|done]).
  set (b3 := if frame_has_content_delta f then _ else _).
  assert (calm b b3) as Hc3
    by (etrans; [exact Hc2|]; unfold b3; case_match; [by apply calm_emit|done]).
  case_match.
  - set (b4 := set_idle_timer None _). destruct (finish_pending_termination b4) as [b5|] eqn:Ef;
      simpl; [|done]. intros [= <- <-].
    assert (calm b b4) as Hc4 by (etrans; [exact Hc3|]; calm_same).
    eapply finish_termination_ledger; [| |exact Ef].
    + by eapply calm_ledger.
    + by rewrite (calm_over _ _ Hc4).
  - simpl. intros [= <- <-]. eapply calm_ledger; [|done|exact Hled]. etrans; [exact Hc3|].
    unfold start_idle_timer. case_match; [done|apply calm_reset_idle].
Qed.

Lemma poll_ledger fuel ups b r ups' b' :
  ledger h0 q0 b -> poll_next fuel ups b = Ret (Some (r, ups', b')) -> ledger h0 q0 b'.
Proof.
  revert ups b. induction fuel as [|fuel IH]; intros ups b Hled; [done|]. cbn [poll_next].
  fold (over b). destruct (over b) eqn:Eo; [by intros [= <- <- <-]|].
  case_match.
  { destruct (finish_pending_termination b) as [b1|] eqn:Ef; simpl; [|done].
    intros [= <- <- <-]. by eapply finish_termination_ledger. }
  destruct (pending b) as [|f rest]; cycle 1.
  { destruct (deliver f rest b) as [[r1 b1]|] eqn:Ed; simpl; [|done].
    intros [= <- <- <-]. by eapply deliver_ledger. }
  destruct (pending_error b) as [error|].
  { intros [= <- <- <-]. apply finish_ledger. eapply calm_ledger; [|done|exact Hled]. calm_same. }
  destruct (body_process_buffered_frame _ _) as [[pr b1]|] eqn:E1; simpl; [|done].
  apply calm_process_buffered in E1 as Hc1.
  assert (Hb : forall b2, calm b b2 -> ledger h0 q0 b2) by (intros; by eapply calm_ledger).
  destruct pr; [apply IH, Hb, Hc1|].
  destruct (if upstream_done b1 then _ else _) as [b2|] eqn:E2; simpl; [|done].
  assert (calm b b2) as Hc2.
  { etrans; [exact Hc1|]. destruct (upstream_done b1); [by eapply calm_finish_decoder|].
    by simplify_eq. }
  clear E2. case_match; [apply IH, Hb, Hc2|].
  case_match; [intros [= <- <- <-]; by apply finish_ledger, Hb|].
  assert (Hidle : forall ups : list upstream_item,
    (let '(elapsed, b3) := idle_timer_elapsed b2 in
     if (elapsed : bool)
     then poll_next fuel ups (set_pending_stream_error postcommit_idle_timeout_error b3)
     else Ret (Some (PollPending, ups, b3))) = Ret (Some (r, ups', b')) -> ledger h0 q0 b').
  { intros ups0. unfold idle_timer_elapsed. destruct (idle_timer b2); simpl;
      [|intros [= <- <- <-]; by apply Hb].
    assert (calm b (read_clock b2).2) by (etrans; [exact Hc2|apply calm_read_clock]).
    case_match; [|intros [= <- <- <-]; by apply Hb].
    apply IH, Hb. etrans; [eassumption|apply calm_set_error]. }
  destruct ups as [|[chunk|diag e| |] ups]; try apply Hidle.
  - destruct (process_chunk _ _ _) as [b3|] eqn:E3; simpl; [|done]. apply IH, Hb.
    etrans; [exact Hc2|]. etrans; [apply calm_reset_idle|]. by eapply calm_process_chunk.
  - apply IH, Hb. etrans; [exact Hc2|apply calm_set_error].
  - destruct (process_eof _ _) as [b3|] eqn:E3; simpl; [|done]. apply IH, Hb.
    etrans; [exact Hc2|]. by eapply calm_process_eof.
Qed.
End ledgers.

(** * Before the commit *)

(** What the precommit phase decides with. *)
Definition view (b : GuardedBody)
    : PrecommitBudget * list PendingFrame * bool * option PrecommitUpstreamFailure :=
  (precommit_budget b, pending b, precommit_commit_ready b, precommit_upstream_failure b).

Definition same_view (b b' : GuardedBody) : Prop := view b' = view b.

#[local] Instance same_view_preorder : PreOrder same_view.
Proof. split; unfold same_view; [done|intros a b c; congruence]. Qed.

Definition frames_bytes (fs : list PendingFrame) : Z :=
  Z.of_nat (sum_list_with (fun f => length (frame_bytes f)) fs).

Lemma frames_bytes_snoc fs f : frames_bytes (fs ++ [f]) = frames_bytes fs + Zlen (frame_bytes f).
Proof. unfold frames_bytes, Zlen. rewrite sum_list_with_app. simpl. lia. Qed.

Definition silent (f : PendingFrame) : Prop := frame_has_content_delta f = false.

(** The frame of a failure event *)
Definition reports (failure : PrecommitUpstreamFailure) (f : PendingFrame) : Prop :=
  frame_termination f = Failed /\ frame_bytes f = failure_frame failure /\
  frame_upstream_error f = Some (failure_error failure).

(** The queue holds the frame of the failure, and nothing before the first
    failure event carries content. *)
Definition failed_at (failure : PrecommitUpstreamFailure) (fs : list PendingFrame) : Prop :=
  exists before f after, fs = before ++ f :: after /\ Forall silent before /\
    frame_termination f = Failed /\ Exists (reports failure) (f :: after).

(** Uncommitted, within the budget; while no event made the answer ready to
    commit, none of the queued frames carries content; and a failure that ends
    the attempt came before any such event. *)
Record uncommitted (max : Z)
    (v : PrecommitBudget * list PendingFrame * bool * option PrecommitUpstreamFailure) : Prop := {
  un_committed : committed v.1.1.1 = false;
  un_max : max_bytes v.1.1.1 = max;
  un_used : frames_bytes v.1.1.2 <= used_bytes v.1.1.1 <= max;
  un_content : v.1.2 = false -> v.2 = None -> Forall silent v.1.1.2;
  un_failure : forall failure, v.2 = Some failure -> v.1.2 = false /\ failed_at failure v.1.1.2
}.

Lemma bind_view {X Y} (P : _ -> Prop) (m : E X) (k : X -> E Y) b :
  keeps same_view m -> P (view b) ->
  (forall x b1, view b1 = view b -> P (view (k x b1).2)) -> P (view ((m ≫= k) b).2).
Proof.
  intros Hm HP Hk. specialize (Hm b). unfold mbind, E_bind.
  destruct (m b) as [[x|e] b1]; simpl in *; [by apply Hk|]. red in Hm. by rewrite Hm.
Qed.

Lemma view_check_deadline check deadline : keeps same_view (check_deadline check deadline).
Proof.
  intros b. unfold check_deadline. destruct check, deadline; simpl; try done. by case_match.
Qed.
Lemma view_validate id : keeps same_view (validate_deferred_continuation_id id).
Proof. unfold validate_deferred_continuation_id. keeps_tac. Qed.
Lemma view_on_exchange {X} f e : keeps same_view (on_exchange (X := X) f e).
Proof. intros b. unfold on_exchange. by destruct (f _). Qed.
Lemma view_set_error e b : view (set_pending_stream_error e b) = view b.
Proof. unfold set_pending_stream_error. by case_match. Qed.

Lemma uncommitted_charge max bytes b :
  uncommitted max (view b) ->
  match charge_frame bytes b with
  | (Ok _, b1) => uncommitted max (view b1) /\ pending b1 = pending b /\
      frames_bytes (pending b) + Zlen bytes <= used_bytes (precommit_budget b1)
  | (Err _, b1) => uncommitted max (view b1)
  end.
Proof.
  intros Hun. pose proof Hun as [H1 H2 H3 H4 H5]. unfold charge_frame, observe_frame. simpl in *.
  rewrite H1. unfold checked_add. destruct (_ <=? usize_max); simpl; [|done].
  destruct (_ <? _) eqn:Elt; simpl; [done|]. bool_to_prop. unfold Zlen in *.
  split; [|split; [done|simpl; lia]]. split; simpl; try done. lia.
Qed.

Lemma failed_at_snoc failure fs f : failed_at failure fs -> failed_at failure (fs ++ [f]).
Proof.
  intros (before & f0 & after & -> & Hb & Ht & Hex). exists before, f0, (after ++ [f]).
  rewrite <- app_assoc. split_and!; try done. rewrite app_comm_cons. apply Exists_app. by left.
Qed.

Lemma failed_at_again failure old fs f :
  failed_at old fs -> reports failure f -> failed_at failure (fs ++ [f]).
Proof.
  intros (before & f0 & after & -> & Hb & Ht & _) Hr. exists before, f0, (after ++ [f]).
  rewrite <- app_assoc. split_and!; try done. rewrite app_comm_cons. apply Exists_app. right.
  by apply Exists_cons_hd.
Qed.

Lemma failed_at_first failure fs f :
  Forall silent fs -> reports failure f -> failed_at failure (fs ++ [f]).
Proof. intros Hb Hr. exists fs, f, []. split_and!; [done..|apply Hr|by apply Exists_cons_hd]. Qed.

(** The end of [push_event]: the frame is queued and the answer judged. *)
Lemma uncommitted_queue max event bytes failure f b :
  uncommitted max (view b) -> frame_bytes f = bytes ->
  frame_has_content_delta f = has_content_delta (telemetry event) ->
  frame_termination f = termination event -> frame_upstream_error f = fst <$> failure ->
  frames_bytes (pending b) + Zlen bytes <= used_bytes (precommit_budget b) ->
  let b1 := note_upstream_failure true event bytes failure b in
  let b2 := set_pending (pending b1 ++ [f]) b1 in
  uncommitted max (view (note_commit_ready true event
    (set_terminal_seen (terminal_seen b2 || is_terminal (termination event)) b2))).
Proof.
  intros [H1 H2 H3 H4 H5] Hf Hd Ht He Hu b1 b2. simpl in *.
  assert (E1 : precommit_budget b1 = precommit_budget b /\ pending b1 = pending b /\
               precommit_commit_ready b1 = precommit_commit_ready b /\
               (precommit_upstream_failure b1 = None -> precommit_upstream_failure b = None)).
  { unfold b1, note_upstream_failure. destruct failure as [[er basis]|]; [|done]. by case_match. }
  destruct E1 as (E1 & E2 & E3 & E5).
  assert (E4 : forall fl, precommit_upstream_failure b1 = Some fl ->
            precommit_commit_ready b = false /\ failed_at fl (pending b ++ [f])).
  { unfold b1, note_upstream_failure. intros fl. destruct failure as [[er basis]|]; simpl in He.
    2: { intros [??]%H5. split; [done|by apply failed_at_snoc]. }
    case_match eqn:Ec; cycle 1.
    { intros [??]%H5. split; [done|by apply failed_at_snoc]. }
    bool_to_prop. intros [= <-]. split; [done|].
    assert (reports {| failure_error := er; failure_frame := bytes; failure_delay_basis := basis |} f).
    { split_and!; simpl; try done. rewrite Ht. by eapply bool_decide_eq_true. }
    destruct (precommit_upstream_failure b) as [old|] eqn:Eold.
    - eapply failed_at_again; [by apply (H5 old)|done].
    - apply failed_at_first; [by apply H4|done]. }
  set (b3 := set_terminal_seen _ b2).
  assert (Ev : view b3 = (precommit_budget b, pending b ++ [f], precommit_commit_ready b,
                          precommit_upstream_failure b1)) by (unfold view; simpl; congruence).
  unfold note_commit_ready. destruct (_ && _) eqn:Ec.
  - replace (view (set_precommit_commit_ready true b3)) with
      (precommit_budget b, pending b ++ [f], true, precommit_upstream_failure b1)
      by (unfold view in *; simpl in *; congruence).
    bool_to_prop. assert (precommit_upstream_failure b1 = None) as En.
    { apply eq_None_not_Some. rename select (bool_decide _ = false) into Hn.
      by apply bool_decide_eq_false in Hn. }
    split; simpl; [done|done|rewrite frames_bytes_snoc, Hf; lia|done|congruence].
  - rewrite Ev. split; simpl; [done|done|rewrite frames_bytes_snoc, Hf; lia| |done].
    intros Er En. apply Forall_app. split; [by apply H4; auto|]. constructor; [|done].
    assert (precommit_upstream_failure b3 = None) as En3 by done. rewrite En3 in Ec.
    rewrite bool_decide_eq_false_2 in Ec by (by intros []). simpl in Ec.
    apply orb_false_iff in Ec as [Ec _]. apply orb_false_iff in Ec as [Ec _]. unfold silent. congruence.
Qed.

Lemma uncommitted_push_event max event deadline b :
  uncommitted max (view b) -> uncommitted max (view (push_event event deadline b).2).
Proof.
  intros Hun. unfold push_event. rewrite bind_get. simpl.
  rewrite (un_committed _ _ Hun : committed (precommit_budget b) = false). cbv zeta.
  apply bind_view; [apply view_check_deadline|done|]. intros _ b1 E1. rewrite !bind_get.
  apply bind_view; [keeps_tac|by rewrite E1|]. intros id b2 E2.
  apply bind_view; [keeps_tac|by rewrite E2, E1|]. intros _ b3 E3.
  apply bind_view; [keeps_tac|by rewrite E3, E2, E1|]. intros bytes b4 E4.
  apply bind_view; [apply view_check_deadline|by rewrite E4, E3, E2, E1|]. intros _ b5 E5.
  assert (Hun5 : uncommitted max (view b5)) by (by rewrite E5, E4, E3, E2, E1).
  clear Hun E1 E2 E3 E4 E5. unfold mbind at 1, E_bind at 1.
  pose proof (uncommitted_charge max bytes b5 Hun5) as Hch.
  destruct (charge_frame bytes b5) as [[u|e] b6]; [|done]. destruct Hch as (Hun6 & Ep6 & Hu6).
  rewrite <- Ep6 in Hu6. apply bind_view; [apply view_validate|done|]. intros _ b7 E7.
  assert (Hun7 : uncommitted max (view b7)) by (by rewrite E7).
  assert (frames_bytes (pending b7) + Zlen bytes <= used_bytes (precommit_budget b7)) as Hu7.
  { injection E7 as -> -> _ _. done. }
  eapply uncommitted_queue; try done.
Qed.

Lemma uncommitted_push_events max events deadline b :
  uncommitted max (view b) -> uncommitted max (view (push_events events deadline b).2).
Proof.
  revert b. induction events as [|e es IH]; intros b Hun; [done|]. cbn [push_events].
  pose proof (uncommitted_push_event max e deadline b Hun) as H1. unfold mbind at 1, E_bind at 1.
  destruct (push_event e deadline b) as [[u|er] b1]; [|done]. rewrite bind_get.
  case_match; [done|by apply IH].
Qed.

Lemma uncommitted_push_frame max frame deadline b :
  uncommitted max (view b) -> uncommitted max (view (push_frame frame deadline b).2).
Proof.
  intros Hun. unfold push_frame. rewrite bind_get.
  apply bind_view; [apply view_check_deadline|done|]. intros _ b1 E1.
  apply bind_view; [apply view_on_exchange|by rewrite E1|]. intros events b2 E2.
  apply uncommitted_push_events. by rewrite E2, E1.
Qed.

Lemma uncommitted_noting max m b :
  uncommitted max (view (m b).2) -> uncommitted max (view (noting_error m b)).
Proof. unfold noting_error. destruct (m b) as [[u|e] b1]; simpl; by rewrite ?view_set_error. Qed.

Lemma view_first_frame b : view (note_first_frame b) = view b.
Proof. unfold note_first_frame. by case_match. Qed.

Lemma uncommitted_process_buffered max deadline b r b' :
  uncommitted max (view b) -> body_process_buffered_frame deadline b = Ret (r, b') ->
  uncommitted max (view b').
Proof.
  intros Hun. unfold body_process_buffered_frame.
  destruct (process_buffered_frame _ _ _ _) as [[[[p d] chunk]|]|]; simpl; try done.
  set (b1 := set_buffered_chunk chunk (set_decoder d b)).
  destruct p; intros [= <- <-]; [|by rewrite view_set_error|done].
  apply uncommitted_noting, uncommitted_push_frame. by rewrite view_first_frame.
Qed.

Lemma uncommitted_finish_decoder max deadline b b' :
  uncommitted max (view b) -> finish_decoder deadline b = Ret b' -> uncommitted max (view b').
Proof.
  intros Hun. unfold finish_decoder. case_match; [by intros [= <-]|].
  destruct (SseDecoder.finish _) as [[r d]|]; simpl; [|done]. intros [= <-].
  set (b1 := set_decoder d _). set (b2 := match r with Ok (Some _) => _ | _ => _ end).
  assert (Hun2 : uncommitted max (view b2)).
  { unfold b2. destruct r as [[f|]|e]; [|done|by rewrite view_set_error].
    by apply uncommitted_noting, uncommitted_push_frame. }
  set (b3 := finish_exchange deadline b2). assert (Hun3 : uncommitted max (view b3)).
  { unfold b3, finish_exchange. case_match; [done|]. apply uncommitted_noting.
    apply bind_view; [apply view_on_exchange|done|]. intros events b4 E4.
    apply uncommitted_push_events. by rewrite E4. }
  unfold require_terminal. case_match; [by rewrite view_set_error|done].
Qed.

Lemma uncommitted_process_chunk max chunk deadline b b' :
  uncommitted max (view b) -> process_chunk chunk deadline b = Ret b' -> uncommitted max (view b').
Proof.
  intros Hun. unfold process_chunk.
  destruct (body_process_buffered_frame _ _) as [[r b2]|] eqn:E0; simpl; [|done].
  intros [= <-]. eapply uncommitted_process_buffered; [|exact E0]. by case_match.
Qed.

Lemma uncommitted_process_eof max deadline b b' :
  uncommitted max (view b) -> process_eof deadline b = Ret b' -> uncommitted max (view b').
Proof.
  intros Hun. unfold process_eof.
  destruct (body_process_buffered_frame _ _) as [[r b2]|] eqn:E0; simpl; [|done].
  assert (uncommitted max (view b2)) by (by eapply uncommitted_process_buffered; [|exact E0]).
  destruct r; [by intros [= <-]|by eapply uncommitted_finish_decoder].
Qed.

Lemma uncommitted_prime_loop max fuel deadline ups b ups' b' :
  uncommitted max (view b) -> prime_loop fuel deadline ups b = Ret (Some (ups', b')) ->
  uncommitted max (view b').
Proof.
  revert ups b. induction fuel as [|fuel IH]; intros ups b Hun; [done|]. cbn [prime_loop].
  case_match; [by intros [= <- <-]|].
  destruct (body_process_buffered_frame _ _) as [[r b1]|] eqn:E1; simpl; [|done].
  assert (Hun1 : uncommitted max (view b1)) by (by eapply uncommitted_process_buffered).
  destruct r; [by apply IH|]. case_match.
  { destruct (finish_decoder _ _) as [b2|] eqn:E2; simpl; [|done].
    assert (Hun2 : uncommitted max (view b2)) by (by eapply uncommitted_finish_decoder).
    destruct (settled_enough b2); [by eapply IH|by intros [= <- <-]]. }
  set (b2 := set_reads _ _). assert (Hun2 : uncommitted max (view b2)) by done.
  case_match; [intros [= <- <-]; by rewrite view_set_error|].
  assert (Hset : forall e, uncommitted max (view (set_pending_stream_error e b2)))
    by (intros; by rewrite view_set_error).
  destruct ups as [|[chunk|diag e| |] ups]; try (apply IH, Hset).
  - destruct (process_chunk _ _ _) as [b3|] eqn:E3; simpl; [|done].
    apply IH. by eapply uncommitted_process_chunk.
  - destruct (process_eof _ _) as [b3|] eqn:E3; simpl; [|done].
    apply IH. by eapply uncommitted_process_eof.
Qed.

(** ** The commit *)

Lemma view_on_continuations {X} f : keeps same_view (on_continuations (X := X) f).
Proof. intros b. unfold on_continuations. by destruct (f _). Qed.
#[local] Hint Resolve view_on_continuations : stream.

Lemma view_begin_precommit id deadline : keeps same_view (begin_precommit_continuation id deadline).
Proof. unfold begin_precommit_continuation, keep_lease. keeps_tac; done. Qed.
#[local] Hint Resolve view_begin_precommit : stream.

Lemma view_stage id s deadline : keeps same_view (stage_precommit_continuation_state id s deadline).
Proof. unfold stage_precommit_continuation_state. keeps_tac; done. Qed.

Lemma commit_frames_queue frames deadline b u b' :
  commit_frames frames deadline b = (Ok u, b') ->
  pending b' = pending b ++ map stripped frames /\ precommit_budget b' = precommit_budget b.
Proof.
  revert b. induction frames as [|f fs IH]; intros b.
  { simpl. intros [= _ <-]. by rewrite app_nil_r. }
  cbn [commit_frames]. unfold mbind at 1, E_bind at 1.
  pose proof (view_stage (frame_continuation_id f) (frame_continuation_state f) deadline b) as Hv.
  destruct (stage_precommit_continuation_state _ _ _ b) as [[v|e] b1]; [|done]. simpl in Hv.
  intros Hrun. injection Hv as E1 E2 _ _. apply IH in Hrun as [H1 H2]. simpl in *.
  rewrite H1, H2, E1, E2, <- app_assoc. done.
Qed.

Lemma frames_bytes_stripped fs : frames_bytes (map stripped fs) = frames_bytes fs.
Proof.
  unfold frames_bytes. f_equal. induction fs as [|f fs IH]; simpl; [done|]. by rewrite IH.
Qed.

Lemma commit_precommit_queue deadline b u b' :
  commit_precommit_frames deadline b = (Ok u, b') ->
  pending b' = map stripped (pending b) /\
  precommit_budget b' = precommit_commit (precommit_budget b).
Proof.
  unfold commit_precommit_frames. rewrite bind_get, bind_modify, bind_run.
  destruct (commit_frames (pending b) deadline (set_pending [] b)) as [[v|e] b1] eqn:Ec; [|done].
  apply commit_frames_queue in Ec as [E1 E2]. rewrite bind_modify. simpl in *.
  intros Hrun. injection Hrun as _ <-.
  case_match; simpl; by rewrite E1, E2.
Qed.

(** ** What a failed prime reports *)

Lemma in_record r b e : e ∈ log b -> e ∈ log (record_attempt r b).
Proof. unfold record_attempt. case_match; [|done]. intros. simpl. set_solver. Qed.
Lemma in_settle o b e : e ∈ log b -> e ∈ log (settle_health o b).
Proof. unfold settle_health. case_match; [|done]. intros. simpl. set_solver. Qed.
Lemma in_closed b e : e ∈ log b -> e ∈ log (closed_state b).
Proof. unfold closed_state, drop_lease. simpl. case_match; [|done]. intros. simpl. set_solver. Qed.
Lemma in_release_guards b e : e ∈ log b -> e ∈ log (release_guards b).
Proof.
  intros He%in_closed%(in_settle AttemptDropped). unfold release_guards. fold (closed_state b).
  unfold release_quota, release_permit. repeat case_match; simpl; set_solver.
Qed.

(** The health of the attempt was told [o] and its recorder [r]. *)
Definition reported (h0 : bool) (o : attempt_outcome) (r : attempt_record) (b : GuardedBody) : Prop :=
  (h0 = true -> HealthSettled o ∈ log b) /\ AttemptRecorded r ∈ log b.

Lemma settled_reported h0 o r b : health b = h0 -> attempt_recorder b = true ->
  reported h0 o r (release_guards (record_attempt r (settle_health o b))).
Proof.
  intros Hh Ha. split.
  - intros ->. apply in_release_guards, in_record. unfold settle_health. rewrite Hh. simpl. set_solver.
  - apply in_release_guards. unfold record_attempt.
    replace (attempt_recorder (settle_health o b)) with true
      by (unfold settle_health; by destruct (health b)).
    simpl. set_solver.
Qed.

Lemma pending_release_guards r o b :
  pending (release_guards (record_attempt r (settle_health o b))) = pending b.
Proof.
  unfold release_guards, drop_lease, release_quota, release_permit, settle_health, record_attempt.
  repeat (case_match; simpl); done.
Qed.

(** * The life of a body *)

(** What its owner may do with it: prime it once, bind its continuation, hand it
    over to the client or give it up, poll it, drop it. *)
Inductive body_step (b : GuardedBody) : GuardedBody -> Prop :=
| step_prime fuel ups r ups' b' :
    over b = false -> owns_request_completion b = false -> Forall item_ok ups ->
    prime_attempt fuel ups b = Ret (Some (r, ups', b')) -> body_step b b'
| step_commit_continuation deadline r b' :
    over b = false -> owns_request_completion b = false ->
    commit_precommit_continuation deadline b = (r, b') -> body_step b b'
| step_handoff : over b = false -> body_step b (into_stream b)
| step_fail class message :
    over b = false -> owns_request_completion b = false ->
    body_step b (fail_before_handoff class message b)
| step_poll fuel ups r ups' b' :
    Forall item_ok ups -> poll_next fuel ups b = Ret (Some (r, ups', b')) -> body_step b b'
| step_drop : body_step b (body_drop b).

Lemma body_step_ledger h0 q0 b b' : body_step b b' -> ledger h0 q0 b -> ledger h0 q0 b'.
Proof.
  destruct 1 as [fuel ups r ups' b' Ho Hw _ Hp|deadline r b' Ho Hw Hc|Ho|class message Ho Hw
                |fuel ups r ups' b' _ Hp|]; intros Hled.
  - by eapply prime_ledger.
  - by eapply commit_continuation_ledger.
  - destruct Hled as [Ht Hl Hr]. split; [|done|done]. rewrite Ho in Ht. simpl in Ht.
    change (tally (into_stream b)) with (tally b). change (over (into_stream b)) with (over b).
    by rewrite Ht, Ho.
  - by apply fail_before_handoff_ledger.
  - by eapply poll_ledger.
  - by apply finish_ledger.
Qed.

Lemma body_new_ledger x budget h0 q0 k : ledger h0 q0 (body_new x budget h0 q0 k).
Proof. by split. Qed.

(** C15. Whatever happens to a streamed answer, what it holds is given back
    exactly once.  In every order of priming, polling, handing over, giving up
    and dropping, when the body is gone the permit of the credential has been
    released once, the health of the attempt has been settled once (if it had
    one), the attempt has been recorded once, the quota guard (if any) is
    released, the request has been closed once if the body was handed over and
    not at all otherwise, and every lease that was begun has ended. *)
Theorem stream_settles_once x budget h0 q0 k b :
  rtc body_step (body_new x budget h0 q0 k) b ->
  let done := log (body_drop b) in
  countb is_permit done = 1%nat /\
  countb is_health done = Nat.b2n h0 /\
  countb is_attempt done = 1%nat /\
  countb is_quota done = Nat.b2n q0 /\
  countb is_request done = Nat.b2n (owns_request_completion (body_drop b)) /\
  countb is_begun done = countb is_ended done.
Proof.
  intros Hr. apply (rtc_invariant body_step (ledger h0 q0) _ _) in Hr;
    [|intros ???; by apply body_step_ledger|apply body_new_ledger].
  destruct (finish_ledger h0 q0 OutcomeCancelled b Hr) as [[Ht Hl Hover] Ho]. simpl.
  destruct (Hover Ho) as (E1 & E2 & E3 & E4 & E5). unfold body_drop, tally, lease_balanced, leased in *.
  rewrite E1, E2, E3, E4, Ho in Ht. rewrite E5 in Hl. simpl in *. rewrite !Nat.add_0_r in *.
  injection Ht as <- <- <- <- <-. done.
Qed.

(** C16. What priming decides.  When it succeeds, the answer is committed with at
    least one frame, within the byte budget, and nothing has been given up or
    reported: the attempt is alive.  When it fails, everything is released and
    nothing was sent, so the request can go to another attempt; a failure the
    upstream reported in the stream is only passed on when every frame before
    the first failure event carried no content, and the health and the recorder
    of the attempt are told exactly that failure. *)
Theorem stream_prime_decides fuel ups x budget h0 q0 k r ups' b' :
  committed budget = false -> used_bytes budget = 0 -> 0 <= max_bytes budget ->
  prime_attempt fuel ups (body_new x budget h0 q0 k) = Ret (Some (r, ups', b')) ->
  match r with
  | Ok _ =>
      over b' = false /\ committed (precommit_budget b') = true /\ pending b' <> [] /\
      frames_bytes (pending b') <= max_bytes budget /\
      permit b' = true /\ health b' = h0 /\ Forall (fun e => is_settling e = false) (log b')
  | Err (PrimeUpstream failure) =>
      let c := classification (failure_error failure) in
      released b' /\ failed_at failure (pending b') /\
      reported h0 (AttemptFailedUpstream c)
        (RecordUpstreamError (Upstream.retry_safety c) (error_class (kind c))) b'
  | Err (PrimePublic error) =>
      released b' /\ exists e,
        error = precommit_public_error (pending_kind e) (bool_decide (is_Some e)) /\
        let v := precommit_verdict (pending_kind e) (pending_message e) in
        reported h0 v.1 v.2 b'
  end.
Proof.
  intros Hc0 Hu0 Hm0 Hprime.
  destruct (prime_ledger h0 q0 _ _ _ _ _ _ (body_new_ledger x budget h0 q0 k) eq_refl eq_refl Hprime)
    as ([_ _ Hover] & Eo & _).
  revert Hprime. unfold prime_attempt. simpl. set (b1 := set_precommit_deadline _ _).
  destruct (prime_loop _ _ _ b1) as [[[ups1 b2]|]|] eqn:El; simpl; [|done..].
  assert (Hc : calm (body_new x budget h0 q0 k) b2)
    by (etrans; [|eapply calm_prime_loop; exact El]; calm_same).
  assert (Hun : uncommitted (max_bytes budget) (view b2)).
  { eapply uncommitted_prime_loop; [|exact El]. split; simpl; try done.
    unfold frames_bytes. simpl. lia. }
  pose proof (calm_health _ _ Hc : health b2 = h0) as Eh.
  pose proof (calm_recorder _ _ Hc : attempt_recorder b2 = true) as Ea.
  destruct (prime_verdict _ b2) as [r0 b3] eqn:Ev. intros [= <- <- <-].
  revert Ev. unfold prime_verdict. destruct (precommit_upstream_failure b2) as [failure|] eqn:Ef.
  { intros [= <- <-]. split; [by apply Hover|]. unfold finish_precommit_upstream_failure. split.
    - rewrite pending_release_guards. by apply (un_failure _ _ Hun failure).
    - by apply settled_reported. }
  assert (Hpub : forall b, calm b2 b -> let f := finish_precommit_failure b in
    exists e, f.1 = precommit_public_error (pending_kind e) (bool_decide (is_Some e)) /\
      let v := precommit_verdict (pending_kind e) (pending_message e) in reported h0 v.1 v.2 f.2).
  { intros b Hcb. exists (pending_error b). unfold finish_precommit_failure.
    destruct (precommit_verdict _ _) as [o rec]. split; [done|]. apply settled_reported.
    - rewrite <- Eh. exact (calm_health _ _ Hcb).
    - rewrite <- Ea. exact (calm_recorder _ _ Hcb). }
  destruct (_ || _) eqn:Eor.
  { specialize (Hpub b2 (reflexivity b2)). destruct (finish_precommit_failure b2) as [e b4].
    intros [= <- <-]. split; [by apply Hover|done]. }
  pose proof (calm_commit_precommit (Some (clock 0 + max_duration budget)) b2) as Hcc.
  destruct (commit_precommit_frames _ b2) as [[u|error] b4] eqn:Ecp; simpl in Hcc.
  - intros [= <- <-]. apply commit_precommit_queue in Ecp as [Ep Eb].
    assert (Hc4 : calm (body_new x budget h0 q0 k) b4) by (by etrans).
    rewrite Ep, Eb, frames_bytes_stripped. destruct (un_used _ _ Hun) as [Hs1 Hs2].
    apply orb_false_iff in Eor as [_ Eor]. apply bool_decide_eq_false in Eor. simpl in *.
    split_and!; try done; [by destruct (pending b2)|lia|exact (calm_permit _ _ Hc4)
                          |exact (calm_health _ _ Hc4)|].
    by destruct (calm_log _ _ Hc4) as (l & -> & Hl & _).
  - specialize (Hpub (set_pending_stream_error error b4)).
    destruct (finish_precommit_failure _) as [e b5]. intros [= <- <-].
    split; [by apply Hover|]. apply Hpub. etrans; [exact Hcc|apply calm_set_error].
Qed.

(** * The body never stalls *)

(** What the operations above leave of the decoding *)
Definition pipe (b : GuardedBody) : SseDecoder B * option (list byte) * bool * bool :=
  (decoder b, buffered_chunk b, upstream_done b, decoder_finished b).
Definition same_pipe (b b' : GuardedBody) : Prop :=
  pipe b' = pipe b /\ (is_Some (pending_error b) -> is_Some (pending_error b')).

#[local] Instance same_pipe_preorder : PreOrder same_pipe.
Proof.
  split; unfold same_pipe; [done|]. intros a b c [??] [??]. split; [congruence|tauto].
Qed.

Lemma pipe_check_deadline check deadline : keeps same_pipe (check_deadline check deadline).
Proof.
  intros b. unfold check_deadline. destruct check, deadline; simpl; try done. by case_match.
Qed.
Lemma pipe_on_continuations {X} f : keeps same_pipe (on_continuations (X := X) f).
Proof. intros b. unfold on_continuations. by destruct (f _). Qed.
Lemma pipe_on_exchange {X} f e : keeps same_pipe (on_exchange (X := X) f e).
Proof. intros b. unfold on_exchange. by destruct (f _). Qed.
Lemma pipe_charge bytes : keeps same_pipe (charge_frame bytes).
Proof. intros b. unfold charge_frame. by case_match. Qed.
Lemma pipe_commit_continuation id s deadline :
  keeps same_pipe (commit_continuation_state id s deadline).
Proof.
  unfold commit_continuation_state, keep_lease, end_lease.
  keeps_tac; try apply pipe_on_continuations; done.
Qed.
Lemma pipe_validate id : keeps same_pipe (validate_deferred_continuation_id id).
Proof. unfold validate_deferred_continuation_id. keeps_tac. Qed.
#[local] Hint Resolve pipe_check_deadline pipe_on_exchange pipe_charge : stream.
#[local] Hint Resolve pipe_commit_continuation pipe_validate : stream.

Lemma pipe_note_failure check event bytes failure b :
  same_pipe b (note_upstream_failure check event bytes failure b).
Proof. unfold note_upstream_failure. destruct failure as [[??]|]; [|done]. by case_match. Qed.
Lemma pipe_note_ready check event b : same_pipe b (note_commit_ready check event b).
Proof. unfold note_commit_ready. by case_match. Qed.
#[local] Hint Resolve pipe_note_failure pipe_note_ready : stream.

Lemma pipe_push_event event deadline : keeps same_pipe (push_event event deadline).
Proof. unfold push_event. cbv zeta. keeps_tac; done. Qed.
#[local] Hint Resolve pipe_push_event : stream.
Lemma pipe_push_events events deadline : keeps same_pipe (push_events events deadline).
Proof. induction events as [|e es IH]; simpl; keeps_tac. Qed.
#[local] Hint Resolve pipe_push_events : stream.
Lemma pipe_push_frame frame deadline : keeps same_pipe (push_frame frame deadline).
Proof. unfold push_frame. keeps_tac. Qed.

Lemma pipe_set_error e b : same_pipe b (set_pending_stream_error e b).
Proof. unfold set_pending_stream_error. case_match; by split. Qed.
Lemma error_set e b : is_Some (pending_error (set_pending_stream_error e b)).
Proof. unfold set_pending_stream_error. case_match eqn:Ep; simpl; [by rewrite Ep|done]. Qed.
Lemma pipe_noting m b : keeps same_pipe m -> same_pipe b (noting_error m b).
Proof.
  intros Hm. specialize (Hm b). unfold noting_error.
  destruct (m b) as [[u|e] b']; simpl in *; [done|]. etrans; [exact Hm|apply pipe_set_error].
Qed.
Lemma pipe_first_frame b : same_pipe b (note_first_frame b).
Proof. unfold note_first_frame. by case_match. Qed.

(** ** Bytes at hand *)

Definition chunk_ok (c : option (list byte)) : Prop :=
  forall chunk, c = Some chunk -> chunk <> [] /\ Zlen chunk <= usize_max.

(** [n] bytes wait in the decoder and the buffered chunk. *)
Definition held (max : Z) (n : nat) (b : GuardedBody) : Prop :=
  chunk_ok (buffered_chunk b) /\ exists l, idle max l (decoder b) /\
    n = (length l + length (default [] (buffered_chunk b)))%nat.

(** The body can be read from: an error is noted, or at most [n] bytes wait. *)
Definition fed (max : Z) (n : nat) (b : GuardedBody) : Prop :=
  is_Some (pending_error b) \/ exists m, (m <= n)%nat /\ held max m b.

Lemma held_pipe max n b b' : pipe b' = pipe b -> held max n b -> held max n b'.
Proof. unfold held. by intros [= -> -> _ _]. Qed.
Lemma fed_pipe max n b b' : same_pipe b b' -> fed max n b -> fed max n b'.
Proof.
  intros [Hp He] [Hs|(m & Hm & Hh)]; [left; auto|right]. exists m. split; [done|]. by eapply held_pipe.
Qed.
Lemma fed_mono max n n' b : fed max n b -> (n <= n')%nat -> fed max n' b.
Proof. intros [?|(m & ? & ?)] ?; [by left|right; exists m; split; [lia|done]]. Qed.

Section progress.
Context (Hmem : forall n, allocator_ok (memory n)).
Context (max : Z).

Lemma process_buffered_progress deadline n b : held max n b ->
  exists r b', body_process_buffered_frame deadline b = Ret (r, b') /\
    upstream_done b' = upstream_done b /\ decoder_finished b' = decoder_finished b /\
    if (r : bool) then is_Some (pending_error b') \/ exists m, (m < n)%nat /\ held max m b'
    else held max n b' /\ buffered_chunk b' = None.
Proof using Hmem.
  intros (Hc & l & Hl & ->). unfold body_process_buffered_frame.
  destruct (buffered_chunk b) as [chunk|] eqn:Eb; cycle 1.
  { rewrite (pump_idle 2 _ max l) by done. simpl. do 2 eexists. split; [done|].
    split; [done|]. split; [done|]. split; [|done]. split; [done|]. by exists l. }
  destruct (Hc chunk eq_refl) as [Hne Hsz].
  destruct (pump_spec 3 (memory (reads b)) max l chunk (decoder b)) as (p & d' & rest & -> & Hp);
    try done; [lia|]. simpl. set (b1 := set_buffered_chunk rest (set_decoder d' b)).
  destruct p as [f|e|]; do 2 eexists; (split; [reflexivity|]).
  - assert (Hpipe : same_pipe b1 (noting_error (push_frame f deadline) (note_first_frame b1))).
    { etrans; [apply pipe_first_frame|]. apply pipe_noting, pipe_push_frame. }
    destruct Hpipe as [Hpipe _]. injection Hpipe as Hd1 Hd2 Hd3 Hd4.
    split; [done|]. split; [done|]. right.
    destruct Hp as (e & He & Hmax & -> & Hrest & Hrne & Hid).
    pose proof (find_event_end_bounds _ _ He) as Hbnd.
    assert (Hlen : length (default [] rest) = (length l + length chunk - e)%nat)
      by (rewrite Hrest, length_drop, length_app; done).
    rewrite length_app in Hbnd. exists (length (default [] rest)). split; [lia|]. split.
    + rewrite Hd2. simpl. intros c Ec. rewrite Ec in Hrne, Hlen. simpl in Hlen.
      split; [by intros ->|]. pose proof (find_event_end_new l chunk e (proj1 (proj2 Hl)) He).
      unfold Zlen in *. lia.
    + exists []. rewrite Hd1, Hd2. done.
  - simpl. split; [unfold set_pending_stream_error; by case_match|].
    split; [unfold set_pending_stream_error; by case_match|]. left. apply error_set.
  - destruct Hp as [Hid ->]. split; [done|]. split; [done|]. split; [|done].
    split; [done|]. exists (l ++ chunk). simpl. rewrite length_app. split; [done|lia].
Qed.

Lemma process_chunk_progress chunk deadline n b :
  held max n b -> buffered_chunk b = None -> Zlen chunk <= usize_max ->
  exists b', process_chunk chunk deadline b = Ret b' /\
    upstream_done b' = upstream_done b /\ fed max (n + length chunk) b'.
Proof using Hmem.
  intros Hh Eb Hsz. unfold process_chunk.
  set (b1 := if Zlen chunk =? 0 then b else set_buffered_chunk (Some chunk) b).
  assert (held max (n + length chunk) b1 /\ upstream_done b1 = upstream_done b) as [Hh1 Eu].
  { destruct Hh as (Hc & l & Hl & ->). unfold b1. destruct (Zlen chunk =? 0) eqn:Ez; bool_to_prop.
    - split; [|done]. split; [done|]. exists l. split; [done|].
      destruct chunk; [simpl; lia|unfold Zlen in Ez; simpl in Ez; lia].
    - split; [|done]. split.
      + simpl. intros c [= <-]. split; [by intros ->|done].
      + exists l. simpl. rewrite Eb. simpl. split; [done|lia]. }
  destruct (process_buffered_progress deadline _ _ Hh1) as (r & b' & -> & E1 & _ & Hr). simpl.
  exists b'. split; [done|]. split; [congruence|]. destruct r.
  - destruct Hr as [?|(m & ? & ?)]; [by left|right; exists m; split; [lia|done]].
  - right. exists (n + length chunk)%nat. by destruct Hr.
Qed.

Lemma finish_decoder_progress deadline n b :
  held max n b -> exists b', finish_decoder deadline b = Ret b' /\
    upstream_done b' = upstream_done b /\ decoder_finished b' = true /\ fed max n b'.
Proof using Hmem.
  intros (Hc & l & Hl & ->). unfold finish_decoder. destruct (decoder_finished b) eqn:Ef.
  { exists b. split; [done|]. split; [done|]. split; [done|]. right. eexists. split; [done|].
    split; [done|]. by exists l. }
  set (b1 := set_decoder_finished true b).
  assert (exists r d' l', SseDecoder.finish (decoder b1) = Ret (r, d') /\ idle max l' d' /\
            (length l' <= length l)%nat) as (r & d' & l' & -> & Hl' & Hle).
  { pose proof Hl as (Hh & Hn & Hlen). pose proof Hh as [Hr Hm Hx Hfr].
    unfold SseDecoder.finish, check_buffer_limit. simpl. rewrite (bb_len_rep _ _ _ Hr), Hm.
    destruct (Zlen l =? 0); [by exists (Ok None), (decoder b), l|].
    rewrite (proj2 (Z.ltb_ge _ _)) by done.
    destruct (take_frame_spec _ _ _ _ Hh) as (d' & -> & Hd'). exists (Ok (Some l)), d', [].
    split_and!; [done|done|simpl; lia]. }
  simpl. set (b2 := set_decoder d' b1). set (b3 := match r with Ok (Some _) => _ | _ => _ end).
  assert (H3 : same_pipe b2 b3).
  { unfold b3. destruct r as [[f|]|e]; [apply pipe_noting, pipe_push_frame|done|apply pipe_set_error]. }
  eexists. split; [done|].
  assert (H4 : same_pipe b3 (require_terminal (finish_exchange deadline b3))).
  { transitivity (finish_exchange deadline b3).
    - unfold finish_exchange. case_match; [done|]. apply pipe_noting. keeps_tac.
    - unfold require_terminal. case_match; [apply pipe_set_error|done]. }
  assert (H5 : same_pipe b2 (require_terminal (finish_exchange deadline b3))) by (by etrans).
  pose proof (proj1 H5) as Hp. injection Hp as _ _ -> ->. split; [done|]. split; [done|].
  eapply fed_pipe; [exact H5|]. right. eexists. split; [|split; [done|by exists l']].
  simpl. lia.
Qed.

Lemma process_eof_progress deadline n b :
  held max n b -> exists b', process_eof deadline b = Ret b' /\ fed max n b'.
Proof using Hmem.
  intros Hh. unfold process_eof.
  destruct (process_buffered_progress deadline n (set_upstream_done true b)) as (r & b1 & -> & _ & _ & Hr).
  { destruct Hh as (? & l & ? & ?). split; [done|by exists l]. }
  simpl. destruct r.
  - exists b1. split; [done|]. destruct Hr as [?|(m & ? & ?)]; [by left|right; exists m; split; [lia|done]].
  - destruct Hr as [Hh1 _]. destruct (finish_decoder_progress deadline n b1 Hh1) as (b2 & E2 & _ & _ & ?).
    by exists b2.
Qed.

Definition item_cost (i : upstream_item) : nat :=
  match i with UpChunk chunk => 2 + length chunk | _ => 2 end.
Definition script_cost (ups : list upstream_item) : nat := sum_list_with item_cost ups.

(** The result of a loop run with [fuel]: it is there when the fuel exceeds
    [bound], and satisfies [P]. *)
Definition returns {X} (bound fuel : nat) (P : X -> Prop) (o : outcome (option X)) : Prop :=
  exists r, o = Ret r /\ ((bound < fuel)%nat -> is_Some r) /\ forall x, r = Some x -> P x.

Lemma returns_now {X} bound fuel (P : X -> Prop) x : P x -> returns bound fuel P (Ret (Some x)).
Proof. intros HP. exists (Some x). split; [done|]. split; [done|]. by intros ? [= <-]. Qed.
Lemma returns_out {X} bound (P : X -> Prop) : returns bound 0 P (Ret None).
Proof. exists None. split_and!; [done|lia|done]. Qed.
Lemma returns_mono {X} bound bound' fuel fuel' (P : X -> Prop) o :
  returns bound fuel P o -> (bound' < fuel' -> bound < fuel)%nat -> returns bound' fuel' P o.
Proof. intros (r & -> & Hs & HP) Hb. exists r. split; [done|]. split; [auto|done]. Qed.

Lemma settled_error b : is_Some (pending_error b) -> settled_enough b = true.
Proof. intros H. unfold settled_enough. rewrite (bool_decide_eq_true_2 _ H). by rewrite orb_true_r. Qed.

Definition prime_fed (x : list upstream_item * GuardedBody) : Prop := exists n, fed max n x.2.

Lemma prime_settled fuel deadline ups b n : settled_enough b = true -> fed max n b ->
  returns 0 fuel prime_fed (prime_loop fuel deadline ups b).
Proof.
  intros Hs Hf. destruct fuel; [apply returns_out|].
  cbn [prime_loop]. rewrite Hs. apply returns_now. by exists n.
Qed.

Lemma prime_loop_progress fuel deadline ups n b :
  Forall item_ok ups -> fed max n b ->
  returns (n + script_cost ups + 3) fuel prime_fed (prime_loop fuel deadline ups b).
Proof using Hmem.
  revert ups n b. induction fuel as [|fuel IH]; intros ups n b Hups Hfed.
  { apply returns_out. }
  cbn [prime_loop]. destruct (settled_enough b) eqn:Es; [apply returns_now; by exists n|].
  assert (Herr : forall bound ups b, (1 <= bound)%nat -> is_Some (pending_error b) ->
            returns bound (Datatypes.S fuel) prime_fed (prime_loop fuel deadline ups b)).
  { intros bound ups0 b0 Hb H0. eapply returns_mono.
    - apply (prime_settled fuel deadline ups0 b0 0); [by apply settled_error|by left].
    - lia. }
  destruct Hfed as [He|(m & Hm & Hh)]; [by rewrite settled_error in Es|].
  destruct (process_buffered_progress (Some deadline) m b Hh) as (r & b1 & -> & Eu & _ & Hr). simpl.
  destruct r.
  { destruct Hr as [He|(m' & Hlt & Hh')]; [apply Herr; [lia|done]|].
    eapply returns_mono; [apply (IH ups m'); [done|right; by exists m']|lia]. }
  destruct Hr as [Hh1 Eb1]. destruct (upstream_done b1).
  { destruct (finish_decoder_progress (Some deadline) m b1 Hh1) as (b2 & -> & _ & _ & Hf2). simpl.
    destruct (settled_enough b2) eqn:Es2; [|apply returns_now; by exists m].
    eapply returns_mono; [by eapply prime_settled|lia]. }
  set (b2 := set_reads _ b1). assert (Hh2 : held max m b2) by done.
  case_match; [apply returns_now; exists 0%nat; left; apply error_set|].
  destruct ups as [|[chunk|diag e| |] ups]; try (apply Herr; [lia|apply error_set]);
    apply Forall_cons in Hups as [Hi Hups]; simpl in Hi.
  - destruct (process_chunk_progress chunk (Some deadline) m b2 Hh2 Eb1 Hi) as (b3 & -> & _ & Hf3).
    simpl. eapply returns_mono; [by apply (IH ups (m + length chunk)%nat)|simpl; lia].
  - destruct (process_eof_progress (Some deadline) m b2 Hh2) as (b3 & -> & Hf3).
    simpl. eapply returns_mono; [by apply (IH ups m)|simpl; lia].
Qed.

(** A body that is over, or can be read from *)
Definition readable (b : GuardedBody) : Prop := over b = true \/ exists n, fed max n b.

Lemma state_settle o b : state (settle_health o b) = state b.
Proof. unfold settle_health. by case_match. Qed.
Lemma state_record r b : state (record_attempt r b) = state b.
Proof. unfold record_attempt. by case_match. Qed.
Lemma state_releases b : state (release_quota (release_permit b)) = state b.
Proof. unfold release_quota, release_permit. by repeat (case_match; simpl). Qed.
Lemma state_closed b : state (closed_state b) = Finished.
Proof. unfold closed_state, drop_lease. simpl. by case_match. Qed.

Lemma finish_over o b : over (finish o b) = true.
Proof.
  unfold finish, over. destruct (bool_decide (state b = Finished)) eqn:E; [done|].
  fold (closed_state b). apply bool_decide_eq_true_2. rewrite state_releases. unfold finish_request.
  assert (E' : state (record_attempt (outcome_record o)
    (settle_health (outcome_health o) (note_cancel o (closed_state b)))) = Finished).
  { rewrite state_record, state_settle. unfold note_cancel. case_match; apply state_closed. }
  case_match; done.
Qed.
Lemma release_guards_over b : over (release_guards b) = true.
Proof.
  unfold release_guards, over. fold (closed_state b). apply bool_decide_eq_true_2.
  by rewrite state_releases, state_settle, state_closed.
Qed.

Lemma deliver_readable f rest n b : fed max n b ->
  exists r b', deliver f rest b = Ret (r, b') /\ readable b'.
Proof.
  intros Hf. unfold deliver. set (b1 := set_state TransportCommitted _).
  set (b2 := if (_ : bool) then emit FirstDownstreamByte b1 else b1).
  set (b3 := if (_ : bool) then emit FirstToken b2 else b2).
  assert (Hf3 : fed max n b3).
  { eapply fed_pipe; [|exact Hf]. unfold b3, b2, b1. repeat (case_match; simpl); done. }
  destruct (frame_termination f); simpl; do 2 eexists.
  - split; [done|]. right. exists n. eapply fed_pipe; [|exact Hf3].
    unfold start_idle_timer. by case_match.
  - split; [done|]. left. apply finish_over.
  - split; [done|]. left. case_match; apply finish_over.
Qed.

Definition poll_readable (x : poll_result * list upstream_item * GuardedBody) : Prop := readable x.2.

Lemma poll_error fuel ups b : is_Some (pending_error b) ->
  returns 0 fuel poll_readable (poll_next fuel ups b).
Proof.
  intros [e He]. destruct fuel; [apply returns_out|].
  cbn [poll_next]. case_match eqn:Eo; [apply returns_now; by left|].
  destruct (pending_termination b) eqn:Et; cbn [is_terminal]; cycle 1.
  { unfold finish_pending_termination. rewrite Et. apply returns_now. left. apply finish_over. }
  { unfold finish_pending_termination. rewrite Et. apply returns_now. left.
    case_match; apply finish_over. }
  destruct (pending b) as [|f rest].
  - rewrite He. apply returns_now. left. apply finish_over.
  - destruct (deliver_readable f rest 0 b) as (r & b' & -> & Hr); [by left; exists e|].
    by apply returns_now.
Qed.

Lemma poll_at_hand fuel ups n b : fed max n b ->
  (is_terminal (pending_termination b) || negb (bool_decide (pending b = [])) ||
   bool_decide (is_Some (pending_error b))) = true ->
  returns 0 fuel poll_readable (poll_next fuel ups b).
Proof.
  intros Hf Hb. destruct (decide (is_Some (pending_error b))) as [He|He]; [by apply poll_error|].
  rewrite (bool_decide_eq_false_2 _ He), orb_false_r in Hb. destruct fuel; [apply returns_out|].
  cbn [poll_next]. case_match eqn:Eo; [apply returns_now; by left|]. unfold finish_pending_termination.
  destruct (pending_termination b); cbn [is_terminal] in *.
  - destruct (pending b) as [|f rest]; [done|].
    destruct (deliver_readable f rest n b Hf) as (r & b' & -> & Hr). by apply returns_now.
  - apply returns_now. left. apply finish_over.
  - apply returns_now. left. case_match; apply finish_over.
Qed.

Lemma fed_idle_timer n b : fed max n b -> fed max n (reset_idle_timer b).
Proof. done. Qed.

Lemma poll_progress fuel ups n b :
  Forall item_ok ups -> fed max n b ->
  returns (n + script_cost ups + 3) fuel poll_readable (poll_next fuel ups b).
Proof using Hmem.
  revert ups n b. induction fuel as [|fuel IH]; intros ups n b Hups Hfed.
  { apply returns_out. }
  assert (Hnow : forall bound ups b, (1 <= bound)%nat ->
            returns 0 fuel poll_readable (poll_next fuel ups b) ->
            returns bound (Datatypes.S fuel) poll_readable (poll_next fuel ups b))
    by (intros; eapply returns_mono; [done|lia]).
  destruct (is_terminal (pending_termination b) || negb (bool_decide (pending b = [])) ||
            bool_decide (is_Some (pending_error b))) eqn:Eh.
  { eapply returns_mono; [by eapply poll_at_hand|lia]. }
  destruct Hfed as [He|(m & Hm & Hh)].
  { rewrite (bool_decide_eq_true_2 _ He), orb_true_r in Eh. done. }
  apply orb_false_iff in Eh as [[Et Ep]%orb_false_iff Ee].
  apply negb_false_iff, bool_decide_eq_true in Ep. apply bool_decide_eq_false in Ee.
  cbn [poll_next]. case_match eqn:Eo; [apply returns_now; by left|]. rewrite Et, Ep.
  destruct (pending_error b); [by destruct Ee|].
  destruct (process_buffered_progress None m b Hh) as (r & b1 & -> & Eu & _ & Hr). simpl. destruct r.
  { destruct Hr as [He|(m' & Hlt & Hh')]; [apply Hnow; [lia|by apply poll_error]|].
    eapply returns_mono; [apply (IH ups m'); [done|right; by exists m']|lia]. }
  destruct Hr as [Hh1 Eb1]. destruct (upstream_done b1) eqn:Eud.
  { destruct (finish_decoder_progress None m b1 Hh1) as (b2 & -> & Eu2 & Ef2 & Hf2). simpl.
    rewrite Eu2, Eud, Ef2. simpl. case_match; [|apply returns_now; left; apply finish_over].
    apply Hnow; [lia|]. eapply poll_at_hand; [done|]. rewrite <- orb_assoc.
    apply orb_true_iff. by right. }
  simpl. rewrite Eud. simpl. case_match; [apply returns_now; left; apply finish_over|].
  assert (Hpend : forall ups bound, (1 <= bound)%nat -> returns bound (Datatypes.S fuel) poll_readable
    (let '(elapsed, b) := idle_timer_elapsed b1 in
     if (elapsed : bool) then poll_next fuel ups
       (set_pending_stream_error postcommit_idle_timeout_error b)
     else Ret (Some (PollPending, ups, b)))).
  { intros ups0 bound Hb. unfold idle_timer_elapsed. destruct (idle_timer b1); simpl.
    - case_match; [apply Hnow; [done|apply poll_error, error_set]|].
      apply returns_now. right. exists m. right. by exists m.
    - apply returns_now. right. exists m. right. by exists m. }
  destruct ups as [|[chunk|diag e| |] ups];
    try (apply Hnow; [lia|apply poll_error, error_set]).
  - apply Hpend; lia.
  - apply Forall_cons in Hups as [Hi Hups]. simpl in Hi.
    destruct (process_chunk_progress chunk None m (reset_idle_timer b1) Hh1 Eb1 Hi) as (b3 & -> & _ & Hf3).
    simpl. eapply returns_mono; [by apply (IH ups (m + length chunk)%nat)|simpl; lia].
  - apply Forall_cons in Hups as [Hi Hups].
    destruct (process_eof_progress None m b1 Hh1) as (b3 & -> & Hf3).
    simpl. eapply returns_mono; [by apply (IH ups m)|simpl; lia].
  - apply Hpend; lia.
Qed.

(** ** Every step leaves a body that can be read from *)

Lemma pipe_begin_precommit id deadline : keeps same_pipe (begin_precommit_continuation id deadline).
Proof.
  unfold begin_precommit_continuation, keep_lease. keeps_tac; try apply pipe_on_continuations; done.
Qed.
#[local] Hint Resolve pipe_begin_precommit : stream.
Lemma pipe_stage id s deadline : keeps same_pipe (stage_precommit_continuation_state id s deadline).
Proof. unfold stage_precommit_continuation_state. keeps_tac; done. Qed.
#[local] Hint Resolve pipe_stage : stream.
Lemma pipe_commit_frames frames deadline : keeps same_pipe (commit_frames frames deadline).
Proof. induction frames as [|f fs IH]; cbn [commit_frames]; keeps_tac; done. Qed.
#[local] Hint Resolve pipe_commit_frames : stream.
Lemma pipe_commit_precommit deadline : keeps same_pipe (commit_precommit_frames deadline).
Proof. unfold commit_precommit_frames. keeps_tac; try done. by case_match. Qed.
Lemma pipe_finalize deadline : keeps same_pipe (finalize_precommit_continuation deadline).
Proof.
  unfold finalize_precommit_continuation. keeps_tac; try apply pipe_on_continuations; done.
Qed.

Lemma precommit_failure_over b : over (finish_precommit_failure b).2 = true.
Proof.
  unfold finish_precommit_failure. destruct (precommit_verdict _ _). apply release_guards_over.
Qed.

Lemma prime_verdict_readable deadline n b : fed max n b -> readable (prime_verdict deadline b).2.
Proof.
  intros Hf. unfold prime_verdict. case_match; [left; apply release_guards_over|]. case_match.
  { left. pose proof (precommit_failure_over b). by destruct (finish_precommit_failure b). }
  pose proof (pipe_commit_precommit (Some deadline) b) as Hp.
  destruct (commit_precommit_frames _ b) as [[u|error] b1]; simpl in *.
  - right. exists n. by eapply fed_pipe.
  - left. pose proof (precommit_failure_over (set_pending_stream_error error b1)).
    by destruct (finish_precommit_failure _).
Qed.

Lemma prime_attempt_returns fuel ups n b : Forall item_ok ups -> fed max n b ->
  returns (n + script_cost ups + 3) fuel (fun x => readable x.2) (prime_attempt fuel ups b).
Proof using Hmem.
  intros Hups Hf. unfold prime_attempt. simpl. set (b1 := set_precommit_deadline _ _).
  assert (Hf1 : fed max n b1) by done. set (d := clock _ + _).
  destruct (prime_loop_progress fuel d ups n b1 Hups Hf1) as (r & -> & Hs & HP).
  destruct r as [[ups' b']|]; simpl.
  - destruct (HP _ eq_refl) as [m Hm]. apply (prime_verdict_readable d) in Hm. cbn [snd] in Hm.
    destruct (prime_verdict d b') as [r b2]. cbn [snd] in Hm. by apply returns_now.
  - exists None. split; [done|]. split; [|done]. by intros ?%Hs%is_Some_None.
Qed.

Lemma poll_returns b : readable b -> exists bound, forall fuel ups, Forall item_ok ups ->
  returns (bound + script_cost ups) fuel poll_readable (poll_next fuel ups b).
Proof using Hmem.
  intros [Ho|[n Hf]].
  - exists 0%nat. intros [|fuel] ups _; [apply returns_out|]. cbn [poll_next]. unfold over in Ho.
    rewrite Ho. apply returns_now. by left.
  - exists (n + 3)%nat. intros fuel ups Hups. eapply returns_mono; [by apply poll_progress|lia].
Qed.

Lemma body_step_readable b b' : body_step b b' -> readable b -> readable b'.
Proof using Hmem.
  destruct 1 as [fuel ups r ups' b' Ho Hw Hups Hp|deadline r b' Ho Hw Hc|Ho|class message Ho Hw
                |fuel ups r ups' b' Hups Hp|]; intros Hr.
  - destruct Hr as [?|[n Hf]]; [congruence|].
    destruct (prime_attempt_returns fuel ups n b Hups Hf) as (x & E & _ & HP).
    rewrite E in Hp. injection Hp as ->. exact (HP _ eq_refl).
  - destruct Hr as [?|[n Hf]]; [congruence|]. revert Hc. unfold commit_precommit_continuation.
    pose proof (pipe_finalize deadline b) as Hpi.
    destruct (finalize_precommit_continuation deadline b) as [[u|e] b1].
    + intros [= <- <-]. right. exists n. by eapply fed_pipe.
    + pose proof (precommit_failure_over (set_pending_stream_error e b1)).
      destruct (finish_precommit_failure _). intros [= <- <-]. by left.
  - destruct Hr as [?|[n Hf]]; [congruence|]. right. by exists n.
  - left. apply release_guards_over.
  - destruct (poll_returns b Hr) as [bound Hb].
    destruct (Hb fuel ups Hups) as (x & E & _ & HP). rewrite E in Hp. injection Hp as ->.
    exact (HP _ eq_refl).
  - left. apply finish_over.
Qed.
End progress.

(** C17. A streamed answer never stalls and never panics.  Whatever was done to a
    body, what it still holds gives a bound on the turns of its loops: with that
    many, plus two for every item the upstream has yet to deliver and one per
    byte, every call of [poll_next] comes back, and so does [prime_attempt] as
    long as the body is not finished. *)
Theorem stream_never_stalls x budget h0 q0 k b :
  (forall n, allocator_ok (memory n)) -> max_bytes budget < usize_max ->
  rtc body_step (body_new x budget h0 q0 k) b ->
  exists bound, forall fuel ups, Forall item_ok ups -> (bound + script_cost ups < fuel)%nat ->
    (exists r, poll_next fuel ups b = Ret (Some r)) /\
    (over b = false -> exists r, prime_attempt fuel ups b = Ret (Some r)).
Proof.
  intros Hmem Hmax Hr. set (m := Z.max (max_bytes budget) 1).
  assert (Hb : readable m b).
  { apply (rtc_invariant body_step (readable m) _ _) in Hr; [done| |].
    - intros ???. by apply body_step_readable.
    - right. exists 0%nat. right. exists 0%nat. split; [done|]. split; [done|]. exists [].
      split; [by apply decoder_new_idle|done]. }
  destruct (poll_returns Hmem m b Hb) as [n1 H1].
  assert (exists n2, over b = false -> fed m n2 b) as [n2 H2].
  { destruct Hb as [Ho|[n Hf]]; [exists 0%nat; by rewrite Ho|by exists n]. }
  exists (n1 + n2 + 3)%nat. intros fuel ups Hups Hfuel. split.
  - destruct (H1 fuel ups Hups) as (r & -> & Hs & _). destruct Hs as [r' ->]; [lia|]. by exists r'.
  - intros Ho. destruct (prime_attempt_returns Hmem m fuel ups n2 b Hups (H2 Ho))
      as (r & -> & Hs & _). destruct Hs as [r' ->]; [lia|]. by exists r'.
Qed.

End stream.

(** * Witnesses *)

(** A dialect whose frames are passed on as they are: a frame that begins with
    [!] reports a failure, one that begins with [.] ends the answer, and every
    other one carries content. *)
#[local] Instance plain_adapter : ProtocolAdapter unit := {|
  dialect := fun _ => OpenAiResponses;
  adapter_completion_policy := fun _ _ => TerminalEventRequired;
  adapter_decode_event := fun _ frame => Ok {|
    event_bytes := frame;
    telemetry := {| token_usage := {| input_tokens := None; output_tokens := None;
                                      cache_read_tokens := None; cache_creation_tokens := None |};
                    effective_speed_tier := None;
                    has_content_delta := bool_decide (head frame = Some x61);
                    retry_transparent := negb (bool_decide (head frame = Some x61)) |};
    payload := SseNonJson;
    termination := match head frame with
                   | Some x2e => Completed | Some x21 => Failed | _ => TerminationNone
                   end;
    upstream_failure := match head frame with
                        | Some x21 => Some {| raw_json := frame; retry_safety_override := None;
                                              retry_delay_basis := CandidateAttempts |}
                        | _ => None
                        end |};
  adapter_encode_event := fun _ event _ => Ok (event_bytes event);
  adapter_continuation_id := fun _ _ _ => Ok None
|}.
#[local] Instance no_session : ProtocolBridgeSession Empty_set := {|
  transform_event := fun _ (s : Empty_set) => match s with end;
  finish_events := fun s : Empty_set => match s with end;
  continuation_state := fun s : Empty_set => match s with end
|}.
#[local] Instance no_continuations : ContinuationStore unit unit := {|
  cs_begin_pending := fun _ _ k => (Ok tt, k);
  cs_bind_ready := fun _ _ _ k => (Ok tt, k);
  cs_ready := fun _ _ _ k => (Ok tt, k);
  cs_drop := fun _ k => k
|}.

Definition sample_clock (n : nat) : Instant := Z.of_nat n.
Definition sample_memory (_ : nat) : allocator := bounded_allocator 4096.
Definition sample_error (_ : list byte) : UpstreamError :=
  {| classification := classification_new RateLimited RejectedBeforeExecution None;
     official_message := None |}.
Definition sample_tier (t : option RequestSpeedTier) := t.
Definition sample_exchange : ProtocolExchange unit Empty_set := exchange_direct tt Responses.
Definition sample_budget : PrecommitBudget := precommit_new 64 1000.
Definition plain_body : Type :=
  GuardedBody (B := PayloadBuffer) (A := unit) (S := Empty_set) (K := unit) (L := unit).
#[local] Notation sample_body :=
  (body_new (B := PayloadBuffer) (K := unit) (L := unit) sample_exchange sample_budget true false tt).

(** The first chunk ends inside its second frame. *)
Definition sample_script : list upstream_item :=
  [UpChunk [x61; LF; LF; x2e]; UpChunk [LF; LF]; UpEof].
#[local] Notation sample_prime :=
  (prime_attempt sample_clock sample_memory "model" Responses sample_error sample_tier).
#[local] Notation sample_poll :=
  (poll_next sample_clock sample_memory "model" Responses 1000 sample_error sample_tier).
Definition sample_step : plain_body -> plain_body -> Prop :=
  body_step sample_clock sample_memory "model" Responses 1000 sample_error sample_tier.

Definition outcome_body {X} (o : outcome (option (X * list upstream_item * plain_body)))
    : plain_body :=
  match o with Ret (Some (_, _, b)) => b | _ => sample_body end.
Definition sample_primed := outcome_body (sample_prime 40 sample_script sample_body).
Definition sample_polled :=
  outcome_body (sample_poll 40 (drop 1 sample_script) (into_stream sample_primed)).

Lemma sample_script_ok : Forall item_ok sample_script.
Proof. repeat constructor; unfold item_ok; by vm_compute. Qed.

Lemma sample_reached : rtc sample_step sample_body sample_polled.
Proof.
  eapply rtc_l; [|eapply rtc_l; [|apply rtc_once]].
  - apply (step_prime _ _ _ _ _ _ _ _ 40 sample_script (Ok tt) (drop 1 sample_script) sample_primed).
    + by vm_compute.
    + by vm_compute.
    + apply sample_script_ok.
    + vm_compute. reflexivity.
  - apply step_handoff. by vm_compute.
  - apply (step_poll _ _ _ _ _ _ _ _ 40 (drop 1 sample_script) (PollItem [x61; LF; LF])
             (drop 1 sample_script) sample_polled).
    + apply Forall_drop, sample_script_ok.
    + vm_compute. reflexivity.
Qed.

Lemma stream_settles_once_witness :
  let done := log (body_drop sample_polled) in
  countb is_permit done = 1%nat /\ countb is_health done = 1%nat /\
  countb is_attempt done = 1%nat /\ countb is_quota done = 0%nat /\
  countb is_request done = 1%nat /\ countb is_begun done = countb is_ended done.
Proof.
  exact (stream_settles_once _ _ _ _ _ _ _ _ _ true false _ _ sample_reached).
Defined.

(** The upstream reports a failure in its first frame. *)
Definition sample_failure : PrecommitUpstreamFailure :=
  {| failure_error := sample_error []; failure_frame := [x21; LF; LF];
     failure_delay_basis := CandidateAttempts |}.
Definition sample_failed : plain_body :=
  outcome_body (sample_prime 40 [UpChunk [x21; LF; LF]] sample_body).
Lemma sample_fails :
  sample_prime 40 [UpChunk [x21; LF; LF]] sample_body
  = Ret (Some (Err (PrimeUpstream sample_failure), [], sample_failed)).
Proof. vm_compute. reflexivity. Qed.

Lemma stream_prime_decides_witness :
  let c := classification (failure_error sample_failure) in
  released sample_failed /\ failed_at sample_failure (pending sample_failed) /\
  reported true (AttemptFailedUpstream c)
    (RecordUpstreamError (Upstream.retry_safety c) (error_class (kind c))) sample_failed.
Proof.
  refine (stream_prime_decides _ _ _ _ _ _ 40 [UpChunk [x21; LF; LF]]
            sample_exchange sample_budget true false tt
            (Err (PrimeUpstream sample_failure)) [] sample_failed eq_refl eq_refl _ sample_fails).
  simpl. lia.
Defined.

Lemma stream_never_stalls_witness :
  exists bound, forall fuel ups, Forall item_ok ups -> (bound + script_cost ups < fuel)%nat ->
    (exists r, sample_poll fuel ups sample_polled = Ret (Some r)) /\
    (over sample_polled = false -> exists r, sample_prime fuel ups sample_polled = Ret (Some r)).
Proof.
  apply (stream_never_stalls _ _ _ _ _ _ _ sample_exchange sample_budget
           true false tt sample_polled).
  - intros n. by apply bounded_allocator_ok.
  - by vm_compute.
  - exact sample_reached.
Defined.
