(* ===== verification/RawJson.v ===== *)
(** JSON request bodies kept as they came over the wire
    ([crates/protocol/src/raw_json.rs]).

    A [RawJsonPayload] is the body and, for every top-level field, the range of
    its value: sorted by name, with the last of several fields of one name.  A
    body that has to change is rebuilt field by field, and everything that does
    not change is copied.

    [serde_json] is not part of this code: [Json] is what is called of it and
    [JsonLaws] what the JSON grammar guarantees of those calls.  Buffers are the
    interface [BoundedBuffer]; [memory n] is the allocator at the [n]-th write. *)

From Stdlib Require Import Ascii.
From S2P Require Import Prelude Search Protocol PayloadBuffer.

Local Open Scope Z_scope.

Definition bytes_of (s : string) : list byte := String.list_byte_of_string s.

(** * Ranges *)

Definition Range : Type := nat * nat.

(** [RawFields] *)
Abbreviation RawFields := (list (string * Range)) (only parsing).

(** [&bytes[range]] *)
Definition slice_range (bytes : list byte) (r : Range) : outcome (list byte) :=
  if (r.1 <=? r.2)%nat && (r.2 <=? length bytes)%nat
  then Ret (take (r.2 - r.1) (drop r.1 bytes)) else Panic.

(** The ranges follow one another from [from] on, none is empty and none passes
    [len]. *)
Fixpoint ranges_within (from len : nat) (rs : list Range) : Prop :=
  match rs with
  | [] => True
  | r :: rs => (from <= r.1 < r.2)%nat /\ (r.2 <= len)%nat /\ ranges_within r.2 len rs
  end.

(** * [serde_json] *)

(** - [json_valid]: [from_slice::<IgnoredAny>];
    - [json_map wanted bytes]: the entries a map visitor reads of an object, the
      values of the [wanted] keys as [&RawValue] and the others skipped, with
      the range of every value, and whether it got to the end of the input;
    - [json_array]: [from_slice::<Vec<&RawValue>>], as ranges;
    - [json_string], [json_opt_string], [json_bool]: [from_slice] at [String],
      [Option<String>] and [bool];
    - [json_pieces s]: what [to_writer] writes, in turn, of a string. *)
Class Json := {
  json_valid : list byte -> bool;
  json_map : (string -> bool) -> list byte -> list (string * Range) * bool;
  json_array : list byte -> option (list Range);
  json_string : list byte -> option string;
  json_opt_string : list byte -> option (option string);
  json_bool : list byte -> option bool;
  json_pieces : string -> list (list byte)
}.

(** [to_string] of a string *)
Definition json_text `{!Json} (s : string) : list byte := concat (json_pieces s).

(** An object printed without blanks, and where its values are *)
Definition print_prefix `{!Json} (first : bool) (name : string) : list byte :=
  (if first then [] else [x2c]) ++ json_text name ++ [x3a].
Fixpoint print_fields `{!Json} (first : bool) (fs : list (string * list byte)) : list byte :=
  match fs with
  | [] => []
  | (name, value) :: fs => print_prefix first name ++ value ++ print_fields false fs
  end.
Definition print_object `{!Json} (fs : list (string * list byte)) : list byte :=
  [x7b] ++ print_fields true fs ++ [x7d].
Fixpoint print_ranges `{!Json} (pos : nat) (first : bool) (fs : list (string * list byte))
    : list (string * Range) :=
  match fs with
  | [] => []
  | (name, value) :: fs =>
      let start := (pos + length (print_prefix first name))%nat in
      (name, (start, start + length value)%nat) :: print_ranges (start + length value) false fs
  end.

(** What the grammar guarantees: [json_value] holds of the text of a value.
    Values of an object are disjoint, in order and values themselves; the text
    of a string is a value that reads back; a printed object reads back field by
    field; no piece of text is larger than an allocation can be. *)
Class JsonLaws `{!Json} := {
  json_value : list byte -> Prop;
  json_map_within : forall wanted bytes,
    ranges_within 0 (length bytes) ((json_map wanted bytes).1.*2);
  json_map_values : forall wanted bytes name r, wanted name = true ->
    (name, r) ∈ (json_map wanted bytes).1 -> json_value (take (r.2 - r.1) (drop r.1 bytes));
  json_text_value : forall s, json_value (json_text s);
  json_text_string : forall s, json_string (json_text s) = Some s;
  json_print_read : forall wanted fs, Forall (fun f => json_value f.2) fs ->
    json_map wanted (print_object fs) = (print_ranges 1 true fs, true);
  json_pieces_fit : forall s, Forall (fun p => Zlen p <= usize_max) (json_pieces s)
}.

(** * Errors *)

Definition buffer_error : ProtocolError := Internal "protocol payload allocation failed".
Definition encode_error : ProtocolError := InvalidPayload "request JSON could not be encoded".
Definition invalid_json : ProtocolError := InvalidPayload "request body must be valid JSON".
Definition invalid_root : ProtocolError := InvalidPayload "request body must be a JSON object".
Definition invalid_model : ProtocolError := InvalidPayload "model must be a non-empty string".

(** * Reading *)

Section payload.
Context `{!Json}.

Record RawJsonPayload := {
  body : list byte;
  fields : RawFields;
  has_duplicate_fields : bool
}.

(** [u8::is_ascii_whitespace] *)
Definition is_ascii_whitespace (b : byte) : bool :=
  match b with x20 | x09 | x0a | x0c | x0d => true | _ => false end.

(** [bytes.iter().copied().find(|byte| !byte.is_ascii_whitespace())] *)
Definition first_byte (bytes : list byte) : option byte :=
  head (drop_while is_ascii_whitespace bytes).

(** [raw_object_fields] and its visitor: every value must lie in the input. *)
Definition raw_object_fields (bytes : list byte) : option RawFields :=
  let '(entries, complete) := json_map (fun _ => true) bytes in
  if forallb (fun e => (e.2.2 <=? length bytes)%nat) entries && complete
  then Some entries else None.

(** [fields.sort_by(|left, right| left.0.cmp(&right.0))]: a stable sort *)
Fixpoint insert_field (f : string * Range) (fs : RawFields) : RawFields :=
  match fs with
  | [] => [f]
  | g :: fs' => if String.leb f.1 g.1 then f :: fs else g :: insert_field f fs'
  end.
Definition sort_fields (fs : RawFields) : RawFields := foldr insert_field [] fs.

(** [dedup_by]: of fields of one name in a row the first stays, with the range
    of the last. *)
Fixpoint dedup_onto (name : string) (r : Range) (fs : RawFields) : RawFields :=
  match fs with
  | [] => [(name, r)]
  | (name', r') :: fs =>
      if bool_decide (name' = name) then dedup_onto name r' fs
      else (name, r) :: dedup_onto name' r' fs
  end.
Definition dedup_fields (fs : RawFields) : RawFields :=
  match fs with [] => [] | (name, r) :: fs => dedup_onto name r fs end.

(** [RawJsonPayload::parse] *)
Definition parse (bytes : list byte) : result RawJsonPayload ProtocolError :=
  if negb (bool_decide (first_byte bytes = Some x7b)) then
    if json_valid bytes then Err invalid_root else Err invalid_json
  else
    match raw_object_fields bytes with
    | None => Err invalid_json
    | Some entries =>
        let fs := sort_fields entries in
        let deduped := dedup_fields fs in
        Ok {| body := bytes; fields := deduped;
              has_duplicate_fields := negb (length deduped =? length fs)%nat |}
    end.

(** [field_range] *)
Definition field_range (fs : RawFields) (name : string) : option Range :=
  match binary_search_by (fun f : string * Range => String.compare f.1 name) fs with
  | Some i => snd <$> fs !! i
  | None => None
  end.

(** [contains_field] *)
Definition contains_field (fs : RawFields) (name : string) : bool :=
  bool_decide (is_Some (field_range fs name)).

(** [RawJsonPayload::field] *)
Definition field (p : RawJsonPayload) (name : string) : outcome (option (list byte)) :=
  match field_range (fields p) name with
  | Some r => bytes ← slice_range (body p) r; Ret (Some bytes)
  | None => Ret None
  end.

(** [RawJsonPayload::parse_field]: [Err] when the field is there and does not
    read as [T]. *)
Definition parse_field {T} (read : list byte -> option T) (p : RawJsonPayload) (name : string)
    : outcome (result (option T) unit) :=
  o ← field p name;
  Ret match o with
      | None => Ok None
      | Some bytes => match read bytes with Some v => Ok (Some v) | None => Err tt end
      end.

(** [scan_object_fields]: the values of the requested names that come before the
    end of the input or an error, with the index of the name *)
Definition position (names : list string) (key : string) : option nat :=
  fst <$> list_find (fun name => name = key) names.
Definition wants (names : list string) (key : string) : bool :=
  bool_decide (is_Some (position names key)).
Definition scan_object_fields (json : list byte) (names : list string) : list (nat * Range) :=
  omap (fun e => i ← position names e.1; Some (i, e.2))
    (json_map (wants names) json).1.

(** [object_field_raw] and [top_fields] at one name: the last occurrence *)
Definition object_field_raw (bytes : list byte) (name : string) : option Range :=
  last ((scan_object_fields bytes [name]).*2).

(** [object_field] *)
Definition object_field (bytes : list byte) (name : string) : outcome (option (list byte)) :=
  match object_field_raw bytes name with
  | Some r => value ← slice_range bytes r; Ret (Some value)
  | None => Ret None
  end.

(** [raw_array] *)
Definition raw_array (bytes : list byte) : option (list Range) :=
  if negb (bool_decide (first_byte bytes = Some x5b)) then None else json_array bytes.

(** [json_string]: the text of a string, unescaped *)
Definition raw_json_string (text : list byte) : option string :=
  if bool_decide (head text = Some x22) then json_string text else None.

End payload.

(** * Writing *)

Section writer.
Context `{!Json} {B : Type} `{!BoundedBuffer B}.
Variable memory : nat -> allocator.

(** A computation that appends to a buffer; the number counts the writes. *)
Definition W (X : Type) : Type := B * nat -> outcome (result X ProtocolError * (B * nat)).

#[local] Instance W_ret : MRet W := fun X x s => Ret (Ok x, s).
#[local] Instance W_bind : MBind W := fun X Y f m s =>
  '(r, s) ← m s;
  match r with Ok x => f x s | Err e => Ret (Err e, s) end.

(** [encoded.extend_from_slice(bytes).map_err(buffer_error)?] *)
Definition extend (bytes : list byte) : W unit := fun s =>
  '(r, b) ← bb_extend (memory s.2) bytes s.1;
  Ret (map_err (fun _ => buffer_error) r, (b, S s.2)).

(** [&body[range]] *)
Definition read_range (bytes : list byte) (r : Range) : W (list byte) := fun s =>
  value ← slice_range bytes r; Ret (Ok value, s).

Definition written : W nat := fun s => Ret (Ok (Z.to_nat (bb_len s.1)), s).

Fixpoint extend_all (pieces : list (list byte)) : W unit :=
  match pieces with
  | [] => mret tt
  | piece :: pieces => extend piece;; extend_all pieces
  end.

(** [serde_json::to_writer] of a string; writing is all that can fail. *)
Definition to_writer (s : string) : W unit := extend_all (json_pieces s).

(** [write_field_prefix] *)
Definition write_field_prefix (first : bool) (name : string) : W unit :=
  (if first then mret tt else extend [x2c]);; to_writer name;; extend [x3a].

(** A buffer, what is written to it, and the bytes *)
Definition run_writer {X} (hint limit : Z) (m : W X)
    : outcome (result (list byte * X) ProtocolError) :=
  match bb_with_hint (memory 0) (Some hint) limit with
  | Err _ => Ret (Err buffer_error)
  | Ok b =>
      '(r, s) ← m (b, 1%nat);
      match r with
      | Err e => Ret (Err e)
      | Ok x => bytes ← bb_freeze s.1; Ret (Ok (bytes, x))
      end
  end.

(** The loop of [encode] *)
Fixpoint encode_fields (o : ProtocolOperation) (upstream_model : string) (bytes : list byte)
    (first : bool) (fs : RawFields) : W unit :=
  match fs with
  | [] => mret tt
  | (name, r) :: fs =>
      if bool_decide (name = "stream") && negb (allows_stream o)
      then encode_fields o upstream_model bytes first fs
      else
        write_field_prefix first name;;
        (if bool_decide (name = "model") then to_writer upstream_model
         else value ← read_range bytes r; extend value);;
        encode_fields o upstream_model bytes false fs
  end.

(** [RawJsonPayload::encode] *)
Definition encode (o : ProtocolOperation) (upstream_model : string) (p : RawJsonPayload)
    : outcome (result (list byte) ProtocolError) :=
  model ← parse_field json_string p "model";
  match model with
  | Err _ => Ret (Err invalid_model)
  | Ok model =>
      let model_matches := bool_decide (model = Some upstream_model) in
      let removes_stream := negb (allows_stream o) && contains_field (fields p) "stream" in
      if model_matches && negb removes_stream && negb (has_duplicate_fields p)
      then Ret (Ok (body p))
      else
        r ← run_writer (Zlen (body p)) usize_max
              (extend [x7b];; encode_fields o upstream_model (body p) true (fields p);;
               extend [x7d]);
        Ret match r with Ok (bytes, _) => Ok bytes | Err e => Err e end
  end.

(** The loop of [rebuild_raw_field]; its [expect] is met as long as no name
    repeats. *)
Fixpoint rebuild_fields (bytes : list byte) (target : string) (rewrite : option (list byte -> W unit))
    (first : bool) (fs : RawFields) : W RawFields :=
  match fs with
  | [] => mret []
  | (name, r) :: fs =>
      write_field_prefix first name;;
      start ← written;
      rewrite ←
        (if bool_decide (name = target) then
           match rewrite with
           | None => fun _ => Panic
           | Some rewrite => value ← read_range bytes r; rewrite value;; mret None
           end
         else value ← read_range bytes r; extend value;; mret rewrite);
      end_ ← written;
      rest ← rebuild_fields bytes target rewrite false fs;
      mret ((name, (start, end_)) :: rest)
  end.

(** [RawJsonPayload::rewrite_raw_field] *)
Definition rewrite_raw_field (target : string) (rewrite : list byte -> W unit) (p : RawJsonPayload)
    : outcome (result RawJsonPayload ProtocolError) :=
  if negb (contains_field (fields p) target) then Ret (Ok p)
  else
    r ← run_writer (Zlen (body p)) usize_max
          (extend [x7b];;
           fs ← rebuild_fields (body p) target (Some rewrite) true (fields p);
           extend [x7d];;
           mret fs);
    Ret match r with
        | Ok (bytes, fs) => Ok {| body := bytes; fields := fs; has_duplicate_fields := false |}
        | Err e => Err e
        end.

(** The loop of [splice_ranges] *)
Fixpoint splice_loop (source replacement : list byte) (cursor : nat) (spans : list Range) : W unit :=
  match spans with
  | [] => tail ← read_range source (cursor, length source); extend tail
  | span :: spans =>
      kept ← read_range source (cursor, span.1);
      extend kept;;
      extend replacement;;
      splice_loop source replacement span.2 spans
  end.

(** [spans.iter().try_fold(0, |total, span| total.checked_add(span.len()))] *)
Fixpoint removed_bytes (total : Z) (spans : list Range) : option Z :=
  match spans with
  | [] => Some total
  | span :: spans =>
      total ← checked_add usize_max total (Z.of_nat (span.2 - span.1));
      removed_bytes total spans
  end.

(** [splice_ranges] *)
Definition splice_ranges (source : list byte) (spans : list Range) (replacement : list byte)
    : outcome (result (list byte) ProtocolError) :=
  match removed ← removed_bytes 0 spans;
        let replaced := Zlen spans * Zlen replacement in
        if usize_max <? replaced then None
        else kept ← checked_sub (Zlen source) removed; checked_add usize_max kept replaced
  with
  | None => Ret (Err encode_error)
  | Some output_len =>
      r ← run_writer output_len output_len (splice_loop source replacement 0 spans);
      Ret match r with Ok (bytes, _) => Ok bytes | Err e => Err e end
  end.

End writer.

(** * The last field of a name *)

Fixpoint last_of {V} (name : string) (l : list (string * V)) : option V :=
  match l with
  | [] => None
  | (n, v) :: l =>
      match last_of name l with
      | Some v => Some v
      | None => if bool_decide (n = name) then Some v else None
      end
  end.

Definition increasing {V} (l : list (string * V)) : Prop :=
  StronglySorted (fun a b => name_lt a.1 b.1) l.

Lemma last_of_fmap {V V'} (f : string -> V -> V') name (l : list (string * V)) :
  last_of name (map (fun x => (x.1, f x.1 x.2)) l) = f name <$> last_of name l.
Proof.
  induction l as [|[n v] l IH]; simpl; [done|]. rewrite IH. destruct (last_of name l); simpl; [done|].
  by case_bool_decide; subst.
Qed.

Lemma last_of_None {V} name (l : list (string * V)) : last_of name l = None <-> name ∉ l.*1.
Proof.
  induction l as [|[n v] l IH]; simpl; [set_solver|]. destruct (last_of name l).
  - split; [done|]. rewrite not_elem_of_cons, <- IH. by intros [_ ?].
  - case_bool_decide; rewrite not_elem_of_cons, <- IH; naive_solver.
Qed.

Lemma last_of_elem {V} name v (l : list (string * V)) : last_of name l = Some v -> (name, v) ∈ l.
Proof.
  induction l as [|[n w] l IH]; simpl; [done|]. destruct (last_of name l) as [u|] eqn:E.
  - intros [= ->]. right. by apply IH.
  - case_bool_decide; [|done]. intros [= ->]. subst. by left.
Qed.

Lemma increasing_NoDup {V} (l : list (string * V)) : increasing l -> NoDup (l.*1).
Proof.
  induction 1 as [|[n v] l _ IH Hx]; simpl; [constructor|]. constructor; [|done].
  rewrite list_elem_of_fmap. intros ([n' v'] & -> & Hin). rewrite Forall_forall in Hx.
  specialize (Hx _ Hin). by apply name_lt_ne in Hx.
Qed.

Lemma last_of_lookup {V} name k v (l : list (string * V)) :
  increasing l -> l !! k = Some (name, v) -> last_of name l = Some v.
Proof.
  intros Hl. revert k. induction Hl as [|[n w] l Hl IH Hx]; intros [|k]; simpl; [done..| |].
  - intros [= -> ->]. rewrite (proj2 (last_of_None name l)), bool_decide_eq_true_2; [done..|].
    apply increasing_NoDup in Hl. rewrite list_elem_of_fmap. intros ([n' v'] & -> & Hin).
    rewrite Forall_forall in Hx. specialize (Hx _ Hin). by apply name_lt_ne in Hx.
  - intros E. by rewrite (IH k E).
Qed.

(** ** Sorting and dropping duplicates *)

Lemma last_of_insert name f fs : last_of name (insert_field f fs) = last_of name (f :: fs).
Proof.
  destruct f as [n r]. induction fs as [|[n' r'] fs IH]; simpl; [done|].
  destruct (String.leb n n') eqn:E; [done|]. simpl. rewrite IH. simpl.
  apply leb_false, name_lt_ne in E. destruct (last_of name fs); [done|].
  repeat case_bool_decide; congruence.
Qed.

Lemma last_of_sort name fs : last_of name (sort_fields fs) = last_of name fs.
Proof.
  induction fs as [|[n r] fs IH]; [done|]. cbn [sort_fields foldr]. rewrite last_of_insert. simpl.
  fold (sort_fields fs). by rewrite IH.
Qed.

Definition ascending (fs : RawFields) : Prop :=
  StronglySorted (fun a b => name_lt a.1 b.1 \/ a.1 = b.1) fs.

Lemma insert_elem f g fs : g ∈ insert_field f fs <-> g = f \/ g ∈ fs.
Proof.
  induction fs as [|h fs IH]; simpl; [set_solver|]. case_match; [set_solver|].
  rewrite !elem_of_cons, IH. tauto.
Qed.

Lemma insert_ascending f fs : ascending fs -> ascending (insert_field f fs).
Proof.
  induction 1 as [|g fs Hfs IH Hg]; simpl; [repeat constructor|].
  destruct (String.leb f.1 g.1) eqn:E.
  - apply leb_spec in E. constructor; [by constructor|]. constructor; [done|].
    eapply Forall_impl; [exact Hg|]. intros h Hh. simpl in Hh.
    destruct E as [E|E], Hh as [Hh|Hh]; rewrite ?E; rewrite <- ?Hh; eauto.
    left. by etrans.
  - constructor; [done|]. apply Forall_forall. intros h [->|Hh]%insert_elem.
    + left. by apply leb_false.
    + by rewrite Forall_forall in Hg; apply Hg.
Qed.

Lemma sort_ascending fs : ascending (sort_fields fs).
Proof. induction fs; simpl; [constructor|by apply insert_ascending]. Qed.

Lemma insert_length f fs : length (insert_field f fs) = S (length fs).
Proof. induction fs; simpl; [done|]. case_match; simpl; congruence. Qed.
Lemma sort_length fs : length (sort_fields fs) = length fs.
Proof. induction fs; simpl; [done|]. rewrite insert_length. by f_equal. Qed.

Lemma sort_increasing fs : increasing fs -> sort_fields fs = fs.
Proof.
  induction 1 as [|f fs Hfs IH Hf]; [done|]. simpl. rewrite IH. destruct fs as [|g fs]; [done|].
  simpl. apply Forall_cons in Hf as [Hfg _]. by rewrite (proj2 (leb_spec _ _) (or_introl Hfg)).
Qed.

Lemma last_of_dedup_onto name n r fs : last_of name (dedup_onto n r fs) = last_of name ((n, r) :: fs).
Proof.
  revert n r. induction fs as [|[n' r'] fs IH]; intros n r; simpl; [done|].
  case_bool_decide as E; [|simpl; by rewrite IH]. subst. rewrite IH. simpl.
  destruct (last_of name fs); [done|]. by case_bool_decide.
Qed.
Lemma last_of_dedup name fs : last_of name (dedup_fields fs) = last_of name fs.
Proof. destruct fs as [|[n r] fs]; [done|]. apply last_of_dedup_onto. Qed.

Lemma dedup_onto_elem n r fs f : f ∈ dedup_onto n r fs -> f.1 = n \/ f.1 ∈ fs.*1.
Proof.
  revert n r. induction fs as [|[n' r'] fs IH]; intros n r; simpl.
  - rewrite list_elem_of_singleton. intros ->. by left.
  - case_bool_decide; [intros H'%IH; set_solver|].
    intros H'. apply elem_of_cons in H' as [->|H'%IH]; set_solver.
Qed.

Lemma dedup_onto_increasing n r fs : ascending ((n, r) :: fs) -> increasing (dedup_onto n r fs).
Proof.
  revert n r. induction fs as [|[n' r'] fs IH]; intros n r Hs; simpl; [repeat constructor|].
  apply StronglySorted_inv in Hs as [Hs Hn]. apply Forall_cons in Hn as [Hnn Hn]. simpl in Hnn.
  case_bool_decide as E.
  - subst. apply IH. constructor; [|done]. by apply StronglySorted_inv in Hs as [? _].
  - constructor; [by apply IH|]. apply Forall_forall. intros f [->|Hf]%dedup_onto_elem; simpl.
    + by destruct Hnn.
    + apply list_elem_of_fmap in Hf as (g & -> & Hg). apply StronglySorted_inv in Hs as [_ Hs].
      rewrite Forall_forall in Hs. specialize (Hs _ Hg). simpl in Hs.
      assert (name_lt n n') by (by destruct Hnn). destruct Hs as [Hs|<-]; [by etrans|done].
Qed.
Lemma dedup_increasing fs : ascending fs -> increasing (dedup_fields fs).
Proof. destruct fs as [|[n r] fs]; [constructor|]. apply dedup_onto_increasing. Qed.

Lemma dedup_id fs : increasing fs -> dedup_fields fs = fs.
Proof.
  destruct fs as [|[n r] fs]; [done|]. simpl. revert n r.
  induction fs as [|[n' r'] fs IH]; intros n r Hs; simpl; [done|].
  apply StronglySorted_inv in Hs as [Hs Hn]. apply Forall_cons in Hn as [Hnn _]. simpl in Hnn.
  apply name_lt_ne in Hnn. rewrite bool_decide_eq_false_2 by congruence. f_equal. by apply IH.
Qed.

Lemma dedup_onto_length n r fs : (length (dedup_onto n r fs) <= S (length fs))%nat /\
  (length (dedup_onto n r fs) = S (length fs) -> dedup_onto n r fs = (n, r) :: fs).
Proof.
  revert n r. induction fs as [|[n' r'] fs IH]; intros n r; simpl; [done|].
  case_bool_decide.
  - destruct (IH n r') as [? _]. split; [lia|]. intros. lia.
  - destruct (IH n' r') as [? Hd]. simpl. split; [lia|]. intros E. f_equal. apply Hd. lia.
Qed.

Lemma sort_perm fs : sort_fields fs ≡ₚ fs.
Proof.
  induction fs as [|f fs IH]; [done|]. simpl. fold (sort_fields fs).
  transitivity (f :: sort_fields fs); [|by rewrite IH]. generalize (sort_fields fs). clear.
  intros l. induction l as [|g l IH]; simpl; [done|]. case_match; [done|].
  rewrite IH. apply Permutation_swap.
Qed.

Lemma ascending_increasing fs : ascending fs -> NoDup fs.*1 -> increasing fs.
Proof.
  induction 1 as [|f fs Ha IH Hf]; intros Hnd; [constructor|].
  simpl in Hnd. apply NoDup_cons in Hnd as [Hn Hnd].
  constructor; [by apply IH|]. apply Forall_forall. intros g Hg. rewrite Forall_forall in Hf.
  destruct (Hf g Hg) as [?|E]; [done|]. destruct Hn. rewrite E. apply list_elem_of_fmap. eauto.
Qed.

(** ** Binary search *)

Lemma increasing_search fs name : increasing fs ->
  search_sorted (fun f : string * Range => String.compare f.1 name) fs.
Proof.
  intros Hs. apply (sorted_by_name fst). induction Hs as [|f fs _ IH Hf]; constructor; [done|].
  eapply Forall_impl; [exact Hf|]. intros g Hg. apply leb_spec. by left.
Qed.

Lemma field_range_last_of fs name : increasing fs -> field_range fs name = last_of name fs.
Proof.
  intros Hs. unfold field_range. destruct (last_of name fs) as [v|] eqn:El.
  - apply last_of_elem, list_elem_of_lookup in El as [j Hj].
    destruct (binary_search_found (fun f : string * Range => String.compare f.1 name) fs j (name, v)) as [k Hk];
      [by apply increasing_search|done|apply compare_refl|].
    rewrite Hk. apply binary_search_Some in Hk as ([n w] & Hw & Hc). simpl in Hc.
    apply String.compare_eq_iff in Hc as ->. rewrite Hw. simpl.
    pose proof (last_of_lookup _ _ _ _ Hs Hw). pose proof (last_of_lookup _ _ _ _ Hs Hj). congruence.
  - destruct (binary_search_by _ fs) as [k|] eqn:Ek; [|done].
    apply binary_search_Some in Ek as ([n w] & Hw & Hc). simpl in Hc.
    apply String.compare_eq_iff in Hc as ->. by rewrite (last_of_lookup _ _ _ _ Hs Hw) in El.
Qed.

(** * Parsed payloads *)

Section parsed.
Context `{!Json}.

(** The value of a field, when every range is in the body *)
Definition value_at (bytes : list byte) (r : Range) : list byte := take (r.2 - r.1) (drop r.1 bytes).
Definition value (p : RawJsonPayload) (name : string) : option (list byte) :=
  value_at (body p) <$> last_of name (fields p).

Record parsed (bytes : list byte) (entries : RawFields) (p : RawJsonPayload) : Prop := {
  parsed_body : body p = bytes;
  parsed_entries : json_map (fun _ => true) bytes = (entries, true);
  parsed_fields : fields p = dedup_fields (sort_fields entries);
  parsed_duplicates :
    has_duplicate_fields p = negb (length (fields p) =? length entries)%nat
}.

Lemma parse_inv bytes p : parse bytes = Ok p -> exists entries, parsed bytes entries p.
Proof.
  unfold parse, raw_object_fields. case_match; [by case_match|].
  destruct (json_map _ _) as [entries complete] eqn:Em.
  destruct (_ && _) eqn:E; [|done]. intros [= <-]. bool_to_prop. subst. exists entries.
  split; simpl; [done..|]. by rewrite sort_length.
Qed.

Lemma parsed_increasing bytes entries p : parsed bytes entries p -> increasing (fields p).
Proof. intros [_ _ -> _]. apply dedup_increasing, sort_ascending. Qed.

Lemma parsed_last bytes entries p name :
  parsed bytes entries p -> last_of name (fields p) = last_of name entries.
Proof. intros [_ _ -> _]. by rewrite last_of_dedup, last_of_sort. Qed.

Lemma parsed_duplicate_iff bytes entries p : parsed bytes entries p ->
  has_duplicate_fields p = false <-> NoDup entries.*1.
Proof.
  intros [_ _ Hf ->]. rewrite Hf, negb_false_iff, Nat.eqb_eq. rewrite <- (sort_length entries) at 1.
  pose proof (sort_perm entries) as Hp.
  split.
  - intros E. rewrite <- Hp. destruct (sort_fields entries) as [|[n r] fs] eqn:Es; [constructor|].
    destruct (dedup_onto_length n r fs) as [_ Hd]. apply increasing_NoDup.
    simpl in E. rewrite <- (Hd E). apply dedup_onto_increasing. rewrite <- Es. apply sort_ascending.
  - intros Hnd. rewrite <- Hp in Hnd. rewrite dedup_id; [done|].
    apply ascending_increasing; [apply sort_ascending|done].
Qed.

Context `{!JsonLaws}.

Lemma ranges_within_mono from from' len rs : (from' <= from)%nat ->
  ranges_within from len rs -> ranges_within from' len rs.
Proof. destruct rs as [|r rs]; simpl; [done|]. intros ? (? & ? & ?). split_and!; [lia..|done]. Qed.

Lemma ranges_within_elem from len rs r : ranges_within from len rs -> r ∈ rs ->
  (r.1 < r.2 <= len)%nat.
Proof.
  revert from. induction rs as [|s rs IH]; intros from; simpl; [set_solver|].
  intros (? & ? & ?) [->|Hr]%elem_of_cons; [lia|]. by eapply IH.
Qed.

Lemma parsed_range bytes entries p name r : parsed bytes entries p ->
  last_of name (fields p) = Some r ->
  slice_range bytes r = Ret (value_at bytes r) /\ json_value (value_at bytes r).
Proof.
  intros Hp Hr. rewrite (parsed_last _ _ _ _ Hp) in Hr. apply last_of_elem in Hr.
  pose proof (json_map_within (fun _ => true) bytes) as Hw.
  pose proof (json_map_values (fun _ => true) bytes name r eq_refl) as Hv.
  rewrite (parsed_entries _ _ _ Hp) in Hw, Hv. simpl in Hw, Hv.
  assert (r ∈ entries.*2) as Hin by (apply list_elem_of_fmap; by exists (name, r)).
  pose proof (ranges_within_elem _ _ _ _ Hw Hin) as [Hlt Hle].
  split; [|by apply Hv]. unfold slice_range.
  rewrite (proj2 (Nat.leb_le _ _)), (proj2 (Nat.leb_le _ _)) by lia. done.
Qed.

Lemma field_value bytes entries p name : parsed bytes entries p -> field p name = Ret (value p name).
Proof.
  intros Hp. unfold field, value. rewrite field_range_last_of by (by eapply parsed_increasing).
  destruct (last_of name (fields p)) as [r|] eqn:E; simpl; [|done].
  destruct (parsed_range _ _ _ _ _ Hp E) as [Hs _]. rewrite (parsed_body _ _ _ Hp), Hs. done.
Qed.

End parsed.

(** Looking up a field of a request body finds what JSON readers agree on:
    the value of the last field of that name, and nothing when there is none.
    The fields are sorted by name without repetition, the binary search is exact
    on them, the slice never panics, and the payload knows exactly whether a
    name was repeated on the wire. *)
Theorem raw_json_last_field_wins `{!Json, !JsonLaws} bytes p :
  parse bytes = Ok p ->
  exists entries, json_map (fun _ => true) bytes = (entries, true) /\
    (forall name, field p name = Ret (value_at bytes <$> last_of name entries)) /\
    StronglySorted name_lt (fields p).*1 /\
    (has_duplicate_fields p = false <-> NoDup entries.*1).
Proof.
  intros [entries Hp]%parse_inv. exists entries. split_and!.
  - by eapply parsed_entries.
  - intros name. rewrite (field_value _ _ _ _ Hp). unfold value.
    by rewrite (parsed_last _ _ _ _ Hp), (parsed_body _ _ _ Hp).
  - apply parsed_increasing in Hp. induction Hp as [|f fs ? IH Hf]; simpl; constructor; [done|].
    by apply Forall_fmap.
  - by eapply parsed_duplicate_iff.
Qed.

(** * What is written *)

Section written.
Context {json : Json} {laws : JsonLaws} {B : Type} `{!BoundedBuffer B}.
Variable memory : nat -> allocator.
Context (Hmem : forall n, allocator_ok (memory n)).
Variable limit : Z.
(** The errors that may end the writing *)
Variable fails : ProtocolError -> Prop.
Context (Hfails : fails buffer_error).

#[local] Existing Instances W_ret W_bind.

(** Run on a buffer that holds [l], the computation does not panic, and leaves
    contents and a result in [Q] unless it fails. *)
Definition wp {X} (l : list byte) (m : W (B := B) X) (Q : X -> list byte -> Prop) : Prop :=
  forall b n, bb_rep b limit l -> exists r b' n', m (b, n) = Ret (r, (b', n')) /\
    match r with Ok x => exists l', bb_rep b' limit l' /\ Q x l' | Err e => fails e end.

Lemma writer_ret {X} l (x : X) (Q : X -> list byte -> Prop) : Q x l -> wp l (mret x) Q.
Proof. intros HQ b n Hb. do 3 eexists. split; [done|]. by exists l. Qed.

Lemma writer_bind {X Y} l (m : W X) (f : X -> W Y) Q :
  wp l m (fun x l' => wp l' (f x) Q) -> wp l (m ≫= f) Q.
Proof.
  intros Hm b n Hb. destruct (Hm b n Hb) as (r & b' & n' & E & Hr).
  unfold mbind, W_bind. rewrite E. simpl. destruct r as [x|e].
  - destruct Hr as (l' & Hb' & Hf). by apply Hf.
  - do 3 eexists. by split.
Qed.

Lemma writer_mono {X} l (m : W X) (Q Q' : X -> list byte -> Prop) :
  wp l m Q -> (forall x l', Q x l' -> Q' x l') -> wp l m Q'.
Proof.
  intros Hm HQ b n Hb. destruct (Hm b n Hb) as (r & b' & n' & E & Hr). do 3 eexists. split; [done|].
  destruct r; [|done]. destruct Hr as (l' & ? & ?). eauto.
Qed.

Lemma wp_extend l bytes : Zlen bytes <= usize_max ->
  wp l (extend memory bytes) (fun _ l' => l' = l ++ bytes).
Proof using Hmem Hfails.
  intros Hsz b n Hb. unfold extend.
  destruct (bb_extend_rep (memory n) b limit l bytes (Hmem n) Hb Hsz) as (r & b' & E & Hr).
  simpl. rewrite E. simpl. do 3 eexists. split; [done|]. destruct r as [u|[]]; simpl; [|done..].
  destruct Hr. eauto.
Qed.

Lemma wp_read {Y} l bytes r v (f : list byte -> W Y) Q :
  slice_range bytes r = Ret v -> wp l (f v) Q -> wp l (x ← read_range bytes r; f x) Q.
Proof.
  intros Hr Hf. apply writer_bind. intros b n Hb. unfold read_range. rewrite Hr. do 3 eexists.
  split; [done|]. by exists l.
Qed.

Lemma wp_written l : wp l written (fun x l' => x = length l /\ l' = l).
Proof.
  intros b n Hb. unfold written. do 3 eexists. split; [done|]. exists l. split; [done|].
  simpl. rewrite (bb_len_rep _ _ _ Hb). unfold Zlen. by rewrite Nat2Z.id.
Qed.

Lemma wp_extend_all l pieces : Forall (fun p => Zlen p <= usize_max) pieces ->
  wp l (extend_all memory pieces) (fun _ l' => l' = l ++ concat pieces).
Proof using Hmem Hfails.
  intros Hp. revert l. induction Hp as [|p ps Hp _ IH]; intros l; simpl.
  - apply writer_ret. by rewrite app_nil_r.
  - apply writer_bind. eapply writer_mono; [by apply wp_extend|]. intros _ l' ->.
    eapply writer_mono; [apply IH|]. intros _ l' ->. by rewrite <- app_assoc.
Qed.

Lemma wp_to_writer l s : wp l (to_writer memory s) (fun _ l' => l' = l ++ json_text s).
Proof using Hmem Hfails laws. apply wp_extend_all, json_pieces_fit. Qed.

Lemma small_byte (x : byte) : Zlen [x] <= usize_max.
Proof. unfold Zlen, usize_max. simpl. lia. Qed.

Lemma wp_prefix l first name :
  wp l (write_field_prefix memory first name) (fun _ l' => l' = l ++ print_prefix first name).
Proof using Hmem Hfails laws.
  unfold write_field_prefix, print_prefix. apply writer_bind.
  apply writer_mono with (Q := fun _ l' => l' = l ++ (if first then [] else [x2c])).
  { destruct first; [apply writer_ret; by rewrite app_nil_r|apply wp_extend, small_byte]. }
  intros _ l' ->. apply writer_bind. eapply writer_mono; [apply wp_to_writer|]. intros _ l' ->.
  eapply writer_mono; [apply wp_extend, small_byte|]. intros _ l' ->. by rewrite <- !app_assoc.
Qed.

(** ** The loops *)

Definition readable (bytes : list byte) (fs : RawFields) : Prop :=
  Zlen bytes <= usize_max /\ Forall (fun f => slice_range bytes f.2 = Ret (value_at bytes f.2)) fs.

Lemma value_at_small bytes r : Zlen bytes <= usize_max -> Zlen (value_at bytes r) <= usize_max.
Proof. unfold value_at, Zlen. rewrite length_take, length_drop. lia. Qed.

(** The fields [encode] keeps, with the values it gives them *)
Definition kept_fields (o : ProtocolOperation) (upstream_model : string) (bytes : list byte)
    (fs : RawFields) : list (string * list byte) :=
  omap (fun f =>
    if bool_decide (f.1 = "stream") && negb (allows_stream o) then None
    else Some (f.1, if bool_decide (f.1 = "model") then json_text upstream_model
                    else value_at bytes f.2)) fs.

Lemma wp_encode_fields l o upstream_model bytes first fs : readable bytes fs ->
  wp l (encode_fields memory o upstream_model bytes first fs)
    (fun _ l' => l' = l ++ print_fields first (kept_fields o upstream_model bytes fs)).
Proof using Hmem Hfails laws.
  intros [Hsz Hr]. revert l first. induction Hr as [|[name r] fs Hr _ IH]; intros l first.
  { apply writer_ret. simpl. by rewrite app_nil_r. }
  cbn [encode_fields kept_fields omap list_omap fst snd]. destruct (_ && _); [apply IH|].
  cbn [print_fields]. apply writer_bind. eapply writer_mono; [apply wp_prefix|]. intros _ l1 ->.
  apply writer_bind. apply writer_mono with (Q := fun _ l' => l' = (l ++ print_prefix first name) ++
    (if bool_decide (name = "model") then json_text upstream_model else value_at bytes r)).
  { case_bool_decide; [apply wp_to_writer|]. eapply wp_read; [done|].
    by apply wp_extend, value_at_small. }
  intros _ l2 ->. eapply writer_mono; [apply IH|]. intros _ l3 ->. by rewrite <- !app_assoc.
Qed.

Definition rewritten_fields (target : string) (new bytes : list byte) (fs : RawFields)
    : list (string * list byte) :=
  map (fun f => (f.1, if bool_decide (f.1 = target) then new else value_at bytes f.2)) fs.

Lemma wp_rebuild_fields l bytes target rewrite new first fs :
  readable bytes fs -> NoDup fs.*1 ->
  match rewrite with
  | Some rw => forall r, (target, r) ∈ fs -> forall l,
      wp l (rw (value_at bytes r)) (fun _ l' => l' = l ++ new)
  | None => target ∉ fs.*1
  end ->
  wp l (rebuild_fields memory bytes target rewrite first fs)
    (fun fs' l' => l' = l ++ print_fields first (rewritten_fields target new bytes fs) /\
       fs' = print_ranges (length l) first (rewritten_fields target new bytes fs)).
Proof using Hmem Hfails laws.
  intros [Hsz Hr]. revert l first rewrite.
  induction Hr as [|[name r] fs Hr _ IH]; intros l first rewrite Hnd Hrw.
  { apply writer_ret. simpl. by rewrite app_nil_r. }
  cbn [rebuild_fields]. simpl in Hnd. apply NoDup_cons in Hnd as [Hname Hnd].
  apply writer_bind. eapply writer_mono; [apply wp_prefix|]. intros _ l1 ->.
  apply writer_bind. eapply writer_mono; [apply wp_written|]. intros start l1 [-> ->].
  set (v := if bool_decide (name = target) then new else value_at bytes r).
  apply writer_bind. apply writer_mono with (Q := fun rw' l' =>
    l' = (l ++ print_prefix first name) ++ v /\
    rw' = if bool_decide (name = target) then None else rewrite).
  { unfold v. case_bool_decide as E.
    - subst name. destruct rewrite as [rw|]; [|by destruct Hrw; left].
      eapply wp_read; [done|]. apply writer_bind. eapply writer_mono; [apply (Hrw r); by left|].
      intros _ l' ->. by apply writer_ret.
    - eapply wp_read; [done|]. apply writer_bind. eapply writer_mono; [by apply wp_extend, value_at_small|].
      intros _ l' ->. by apply writer_ret. }
  intros rw' l2 [-> ->]. apply writer_bind. eapply writer_mono; [apply wp_written|]. intros e l2 [-> ->].
  apply writer_bind. eapply writer_mono; [apply (IH _ false)|].
  - done.
  - case_bool_decide; [by subst|]. destruct rewrite; [|set_solver]. intros r' Hin. apply Hrw. by right.
  - intros fs' l' [-> ->]. apply writer_ret. simpl. fold v. rewrite !length_app, <- !app_assoc. split; [done|].
    by rewrite ?Nat.add_assoc.
Qed.

Lemma writer_run {X} hint (m : W X) Q : 0 <= hint <= usize_max -> 0 <= limit <= usize_max ->
  wp [] m Q ->
  exists r, run_writer memory hint limit m = Ret r /\
    match r with Ok (bytes, x) => Q x bytes | Err e => fails e end.
Proof using Hmem Hfails.
  intros Hh Hl Hm. unfold run_writer.
  destruct (bb_with_hint (memory 0) (Some hint) limit) as [b|e] eqn:Eb; [|by eexists].
  assert (Hb : bb_rep b limit []).
  { eapply (bb_with_hint_rep (memory 0) (Some hint)); [apply Hmem|done| |done]. by intros n [= <-]. }
  destruct (Hm b 1%nat Hb) as (r & b' & n' & -> & Hr). simpl. destruct r as [x|e]; [|by eexists].
  destruct Hr as (l' & Hb' & HQ). rewrite (bb_freeze_rep _ _ _ Hb'). simpl. by eexists.
Qed.

End written.

(** * Printed objects *)

Section printed.
Context {json : Json} {laws : JsonLaws}.

Lemma print_ranges_names pos first fs : (print_ranges pos first fs).*1 = fs.*1.
Proof. revert pos first. induction fs as [|[n v] fs IH]; intros; simpl; [done|]. by rewrite IH. Qed.

Lemma take_drop_middle_value (l v r : list byte) a b :
  a = length l -> b = (length l + length v)%nat -> value_at (l ++ v ++ r) (a, b) = v.
Proof.
  intros -> ->. unfold value_at. simpl. rewrite drop_app_length.
  replace (length l + length v - length l)%nat with (length v) by lia. apply take_app_length.
Qed.

Lemma print_slices l first fs tail :
  map (fun f => (f.1, value_at (l ++ print_fields first fs ++ tail) f.2)) (print_ranges (length l) first fs)
  = fs.
Proof.
  revert l first. induction fs as [|[n v] fs IH]; intros l first; simpl; [done|]. f_equal.
  - f_equal. rewrite <- !app_assoc, app_assoc. apply take_drop_middle_value; by rewrite length_app.
  - rewrite <- (IH ((l ++ print_prefix first n) ++ v) false) at 2. rewrite !length_app, <- !app_assoc.
    done.
Qed.

Lemma increasing_names {V V'} (l : list (string * V)) (l' : list (string * V')) :
  l.*1 = l'.*1 -> increasing l -> increasing l'.
Proof.
  intros E Hl. revert l' E. induction Hl as [|f l Hl IH Hf]; intros [|g l'] E; [constructor|done..|].
  rewrite !fmap_cons in E. injection E as E E'. constructor; [by apply IH|].
  apply Forall_forall. intros h Hh. apply (list_elem_of_fmap_2 fst) in Hh. rewrite <- E' in Hh.
  apply list_elem_of_fmap in Hh as (f' & Hff & Hin). rewrite Forall_forall in Hf.
  rewrite Hff, <- E. by apply Hf.
Qed.

Lemma increasing_sub {V V'} (l : list (string * V)) (g : string * V -> option (string * V')) :
  (forall f f', g f = Some f' -> f'.1 = f.1) -> increasing l -> increasing (omap g l).
Proof.
  intros Hg. induction 1 as [|f l Hl IH Hf]; simpl; [constructor|]. destruct (g f) as [f'|] eqn:E; [|done].
  constructor; [done|]. apply Forall_forall. intros h (h0 & Hin & E')%list_elem_of_omap.
  rewrite (Hg _ _ E), (Hg _ _ E'). rewrite Forall_forall in Hf. by apply Hf.
Qed.

(** An object printed with its names in order is read back as it is. *)
Lemma parse_print fs : increasing fs -> Forall (fun f => json_value f.2) fs ->
  parse (print_object fs)
  = Ok {| body := print_object fs; fields := print_ranges 1 true fs; has_duplicate_fields := false |}.
Proof.
  intros Hs Hv. unfold parse, raw_object_fields. rewrite bool_decide_eq_true_2 by done. simpl negb.
  pose proof (json_map_within (fun _ => true) (print_object fs)) as Hw.
  rewrite json_print_read in Hw |- * by done. cbv iota. cbn [fst] in Hw.
  rewrite (proj2 (forallb_forall _ _)); cycle 1.
  { intros f Hf. apply Nat.leb_le. apply (ranges_within_elem _ _ _ f.2) in Hw; [lia|].
    apply list_elem_of_fmap_2. by apply list_elem_of_In. }
  simpl andb. cbv iota. assert (Hinc : increasing (print_ranges 1 true fs)).
  { eapply increasing_names; [|exact Hs]. by rewrite print_ranges_names. }
  rewrite sort_increasing, dedup_id by done. by rewrite Nat.eqb_refl.
Qed.

Lemma value_printed fs name :
  value {| body := print_object fs; fields := print_ranges 1 true fs; has_duplicate_fields := false |} name
  = last_of name fs.
Proof.
  unfold value. simpl fields. simpl body.
  rewrite <- (print_slices [x7b] true fs [x7d]) at 3. rewrite last_of_fmap with (f := fun _ => value_at _).
  done.
Qed.

End printed.

Section raw_json_properties.
Context {json : Json} {laws : JsonLaws} {B : Type} `{!BoundedBuffer B}.
Variable memory : nat -> allocator.
Context (Hmem : forall n, allocator_ok (memory n)).
Variable bytes : list byte.
Context (Hbytes : Zlen bytes <= usize_max).
Variable p : RawJsonPayload.
Context (Hparse : parse bytes = Ok p).

#[local] Existing Instances W_ret W_bind.

Lemma payload_readable : readable bytes (fields p) /\ increasing (fields p) /\ body p = bytes /\
  Forall (fun f => json_value (value_at bytes f.2)) (fields p).
Proof using All.
  destruct (parse_inv _ _ Hparse) as [entries Hp]. pose proof (parsed_increasing _ _ _ Hp) as Hinc.
  assert (H : forall f, f ∈ fields p -> slice_range bytes f.2 = Ret (value_at bytes f.2) /\
                json_value (value_at bytes f.2)).
  { intros [n r] [k Hk]%list_elem_of_lookup. apply (parsed_range bytes entries p n r Hp).
    by eapply last_of_lookup. }
  split_and!; [split; [done|]|done|apply Hp|]; apply Forall_forall; naive_solver.
Qed.

(** What the encoded request says of a field *)
Definition encoded_as (o : ProtocolOperation) (upstream_model name : string)
    (before after : option (list byte)) : Prop :=
  match before with
  | None => after = None
  | Some v =>
      if bool_decide (name = "stream") && negb (allows_stream o) then after = None
      else if bool_decide (name = "model")
      then exists v', after = Some v' /\ json_string v' = Some upstream_model
      else after = Some v
  end.

Lemma kept_fields_last o m name :
  last_of name (kept_fields o m bytes (fields p)) =
  (v ← value p name;
   if bool_decide (name = "stream") && negb (allows_stream o) then None
   else Some (if bool_decide (name = "model") then json_text m else v)).
Proof using All.
  destruct payload_readable as (_ & _ & Eb & _). unfold value. rewrite Eb. clear.
  induction (fields p) as [|[n r] fs IH]; [done|].
  cbn [kept_fields omap list_omap last_of fst snd]. fold (kept_fields o m bytes fs).
  destruct (decide (n = name)) as [->|Hne].
  - rewrite (bool_decide_eq_true_2 (name = name)) by done.
    destruct (bool_decide (name = "stream") && _); cbn [last_of]; rewrite IH;
      destruct (last_of name fs); simpl; try done. by rewrite (bool_decide_eq_true_2 (name = name)).
  - rewrite (bool_decide_eq_false_2 (n = name)) by done.
    destruct (bool_decide (n = "stream") && _); cbn [last_of]; rewrite IH;
      destruct (last_of name fs); simpl; rewrite ?(bool_decide_eq_false_2 (n = name)) by done; try done.
    by case_match.
Qed.

Lemma encode_spec o upstream_model :
  exists r, encode memory o upstream_model p = Ret r /\
    match r with
    | Ok out => exists p', parse out = Ok p' /\
        forall name, encoded_as o upstream_model name (value p name) (value p' name)
    | Err e => e = buffer_error \/
        (e = invalid_model /\ exists v, value p "model" = Some v /\ json_string v = None)
    end.
Proof using All.
  destruct (parse_inv _ _ Hparse) as [entries Hp].
  destruct payload_readable as (Hread & Hinc & Eb & Hval).
  unfold encode, parse_field. rewrite (field_value _ _ _ _ Hp). simpl.
  destruct (match value p "model" with Some _ => _ | None => _ end) as [model|u] eqn:Em; cycle 1.
  { eexists. split; [done|]. right. split; [done|]. destruct (value p "model") as [v|]; [|done].
    exists v. split; [done|]. by destruct (json_string v). }
  destruct (_ && negb (has_duplicate_fields p)) eqn:Ereuse.
  - eexists. split; [done|]. exists p. rewrite Eb. split; [done|]. intros name. bool_to_prop.
    apply bool_decide_eq_true in H. subst model. unfold encoded_as.
    destruct (value p name) as [v|] eqn:Ev; [|done].
    destruct (bool_decide (name = "stream")) eqn:Es; simpl.
    + apply bool_decide_eq_true in Es. subst. destruct (allows_stream o); [done|].
      exfalso. unfold contains_field in H1. destruct H1 as [?|H1]; [done|].
      apply bool_decide_eq_false in H1. apply H1.
      rewrite field_range_last_of by done. unfold value in Ev. by destruct (last_of "stream" (fields p)).
    + clear Es H0 H1. case_bool_decide; [|done]. subst. rewrite Ev in Em. exists v. split; [done|].
      destruct (json_string v); [by injection Em as ->|done].
  - clear Ereuse. destruct (writer_run memory Hmem usize_max (fun e => e = buffer_error) eq_refl
      (Zlen (body p)) (extend memory [x7b];;
         encode_fields memory o upstream_model (body p) true (fields p);; extend memory [x7d])
      (fun _ l => l = print_object (kept_fields o upstream_model bytes (fields p)))) as (r & -> & Hr).
    + rewrite Eb. unfold Zlen in *. lia.
    + unfold usize_max. lia.
    + apply writer_bind. eapply writer_mono; [apply wp_extend; [done..|apply small_byte]|]. intros _ l ->.
      apply writer_bind. rewrite Eb. eapply writer_mono; [by apply wp_encode_fields|]. intros _ l ->.
      eapply writer_mono; [apply wp_extend; [done..|apply small_byte]|]. intros _ l ->. done.
    + simpl. eexists. split; [done|]. destruct r as [[out u]|e]; [|by left]. subst out.
      eexists. split; [apply parse_print|].
      * apply (increasing_sub _ _); [|done]. intros f f'. destruct (_ && _); [done|]. by intros [= <-].
      * clear Em. apply Forall_forall. intros f (f0 & Hin & Ef)%list_elem_of_omap. rewrite Forall_forall in Hval.
        specialize (Hval _ Hin). destruct (_ && _); [done|]. injection Ef as <-. simpl.
        case_bool_decide; [apply json_text_value|done].
      * clear Em. intros name. rewrite value_printed, kept_fields_last. unfold encoded_as.
        destruct (value p name) as [v|]; simpl; [|done]. destruct (_ && _); [done|].
        case_bool_decide; [|done]. eexists. split; [done|]. apply json_text_string.
Qed.

(** The request sent upstream is the client's request with three changes:
    the model is the upstream's, [stream] is left out where the operation does
    not stream, and of repeated fields only the last is left.  Every other field
    keeps its bytes.  Encoding does not panic, and fails only when the model is
    not a string or memory runs out. *)
Theorem raw_json_encode_exact o upstream_model :
  exists r, encode memory o upstream_model p = Ret r /\
    match r with
    | Ok out => exists p', parse out = Ok p' /\
        forall name, encoded_as o upstream_model name (value p name) (value p' name)
    | Err e => e = buffer_error \/
        (e = invalid_model /\ exists v, value p "model" = Some v /\ json_string v = None)
    end.
Proof using All. apply encode_spec. Qed.

Lemma rewrite_spec (fails : ProtocolError -> Prop) target rewrite new :
  fails buffer_error -> json_value new ->
  (forall v l, value p target = Some v ->
     wp (B := B) usize_max fails l (rewrite v) (fun _ l' => l' = l ++ new)) ->
  exists r, rewrite_raw_field memory target rewrite p = Ret r /\
    match r with
    | Ok p' => parse (body p') = Ok p' /\ forall name,
        value p' name = (v ← value p name; Some (if bool_decide (name = target) then new else v))
    | Err e => fails e
    end.
Proof using All.
  intros Hf Hnew Hrw. destruct payload_readable as (Hread & Hinc & Eb & Hval).
  unfold rewrite_raw_field, contains_field. rewrite field_range_last_of by done.
  case_bool_decide as Ht; simpl; cycle 1.
  { eexists. split; [done|]. simpl. rewrite Eb. split; [done|]. intros name. unfold value.
    destruct (last_of name (fields p)) as [r|] eqn:E; simpl; [|done].
    rewrite bool_decide_eq_false_2; [done|]. intros ->. apply Ht. by rewrite E. }
  set (vs := rewritten_fields target new bytes (fields p)).
  destruct (writer_run memory Hmem usize_max fails Hf (Zlen (body p))
    (extend memory [x7b];;
     fs ← rebuild_fields memory (body p) target (Some rewrite) true (fields p);
     extend memory [x7d];; mret fs)
    (fun fs l => l = print_object vs /\ fs = print_ranges 1 true vs)) as (r & -> & Hr).
  - rewrite Eb. unfold Zlen in *. lia.
  - unfold usize_max. lia.
  - apply writer_bind. eapply writer_mono; [apply wp_extend; [done..|apply small_byte]|]. intros _ l ->.
    apply writer_bind. rewrite Eb. eapply writer_mono.
    { apply wp_rebuild_fields with (new := new); [done..| |].
      - by apply increasing_NoDup.
      - intros r [k Hk]%list_elem_of_lookup l. apply Hrw. unfold value. rewrite Eb.
        by rewrite (last_of_lookup _ _ _ _ Hinc Hk). }
    intros fs l [-> ->]. apply writer_bind. eapply writer_mono; [apply wp_extend; [done..|apply small_byte]|].
    intros _ l ->. by apply writer_ret.
  - simpl. eexists. split; [done|]. destruct r as [[out fs]|e]; [|done]. destruct Hr as [-> ->]. simpl.
    split.
    + apply parse_print.
      * eapply increasing_names; [|exact Hinc]. unfold vs, rewritten_fields. clear.
        induction (fields p); simpl; [done|]. by f_equal.
      * apply Forall_map. eapply Forall_impl; [exact Hval|]. intros f ?. simpl. by case_bool_decide.
    + intros name. rewrite value_printed. unfold vs, rewritten_fields.
      pose (f := fun (n : string) (r : Range) =>
                   if bool_decide (n = target) then new else value_at bytes r).
      etrans; [apply (last_of_fmap f)|].
      unfold value. rewrite Eb. by destruct (last_of name (fields p)).
Qed.

(** Rewriting one field of a payload changes that field and no other, and
    what it leaves is what reading the new body would give: the ranges it
    computes while writing are exact.  It does not panic (the [expect] on the
    closure included), and fails only when the closure or memory does. *)
Theorem raw_json_rewrite_exact (fails : ProtocolError -> Prop) target rewrite new :
  fails buffer_error -> json_value new ->
  (forall v l, value p target = Some v ->
     wp (B := B) usize_max fails l (rewrite v) (fun _ l' => l' = l ++ new)) ->
  exists r, rewrite_raw_field memory target rewrite p = Ret r /\
    match r with
    | Ok p' => parse (body p') = Ok p' /\ forall name,
        value p' name = (v ← value p name; Some (if bool_decide (name = target) then new else v))
    | Err e => fails e
    end.
Proof using All. apply rewrite_spec. Qed.

End raw_json_properties.

(** * Splicing *)

(** [source] with every span replaced, read from [cursor] on *)
Fixpoint spliced (source replacement : list byte) (cursor : nat) (spans : list Range) : list byte :=
  match spans with
  | [] => drop cursor source
  | span :: spans =>
      value_at source (cursor, span.1) ++ replacement ++ spliced source replacement span.2 spans
  end.

(** Spans that follow one another, possibly empty *)
Fixpoint spans_within (from len : nat) (spans : list Range) : Prop :=
  match spans with
  | [] => (from <= len)%nat
  | s :: spans => (from <= s.1 <= s.2)%nat /\ spans_within s.2 len spans
  end.

Lemma spans_within_le from len spans : spans_within from len spans -> (from <= len)%nat.
Proof. revert from. induction spans as [|s ss IH]; intros from; simpl; [done|]. intros (? & ?%IH). lia. Qed.

Definition removed_length (spans : list Range) : nat := sum_list_with (fun s => s.2 - s.1)%nat spans.

Lemma spliced_length source replacement cursor spans :
  spans_within cursor (length source) spans ->
  (length (spliced source replacement cursor spans) + removed_length spans =
   length source - cursor + length spans * length replacement)%nat.
Proof.
  unfold removed_length. revert cursor. induction spans as [|s ss IH]; intros cursor; simpl.
  - intros. rewrite length_drop. lia.
  - intros (Hs & Hss). pose proof (spans_within_le _ _ _ Hss). specialize (IH _ Hss).
    unfold value_at. rewrite !length_app, length_take, length_drop. simpl. lia.
Qed.

Lemma removed_bytes_sum total spans : total + Z.of_nat (removed_length spans) <= usize_max ->
  removed_bytes total spans = Some (total + Z.of_nat (removed_length spans)).
Proof.
  unfold removed_length. revert total. induction spans as [|s ss IH]; intros total Ht; simpl in *.
  - by rewrite Z.add_0_r.
  - unfold checked_add. rewrite (proj2 (Z.leb_le _ _)) by lia. simpl. rewrite IH by lia. f_equal. lia.
Qed.

Lemma removed_length_le from len spans :
  spans_within from len spans -> (removed_length spans <= len - from)%nat.
Proof.
  unfold removed_length. revert from. induction spans as [|s ss IH]; intros from; simpl; [lia|].
  intros (? & Hss). specialize (IH _ Hss). pose proof (spans_within_le _ _ _ Hss). lia.
Qed.

Section splicing.
Context {B : Type} `{!BoundedBuffer B}.
Variable memory : nat -> allocator.
Context (Hmem : forall n, allocator_ok (memory n)).

#[local] Existing Instances W_ret W_bind.

Lemma slice_range_ok (source : list byte) a b : (a <= b <= length source)%nat ->
  slice_range source (a, b) = Ret (value_at source (a, b)).
Proof. intros. unfold slice_range. simpl. by rewrite !(proj2 (Nat.leb_le _ _)) by lia. Qed.

Lemma wp_splice_loop limit l source replacement cursor spans :
  Zlen source <= usize_max -> Zlen replacement <= usize_max ->
  spans_within cursor (length source) spans ->
  wp (B := B) limit (fun e => e = buffer_error) l (splice_loop memory source replacement cursor spans)
    (fun _ l' => l' = l ++ spliced source replacement cursor spans).
Proof using Hmem.
  intros Hsz Hrep. revert l cursor. induction spans as [|s ss IH]; intros l cursor; simpl.
  - intros Hc. eapply wp_read; [by apply slice_range_ok|]. eapply writer_mono.
    { apply wp_extend; [done..|by apply value_at_small]. }
    intros _ l' ->. unfold value_at. simpl. rewrite take_ge; [done|]. rewrite length_drop. lia.
  - intros (Hs & Hss). pose proof (spans_within_le _ _ _ Hss).
    eapply wp_read; [apply slice_range_ok; lia|]. apply writer_bind. eapply writer_mono.
    { apply wp_extend; [done..|by apply value_at_small]. }
    intros _ l1 ->. apply writer_bind. eapply writer_mono; [by apply wp_extend|]. intros _ l2 ->.
    eapply writer_mono; [by apply IH|]. intros _ l3 ->. by rewrite <- !app_assoc.
Qed.

Lemma splice_spec source spans replacement :
  Zlen source <= usize_max -> Zlen replacement <= usize_max ->
  spans_within 0 (length source) spans ->
  exists r, splice_ranges memory source spans replacement = Ret r /\
    match r with
    | Ok out => out = spliced source replacement 0 spans
    | Err e => e = buffer_error \/
        (e = encode_error /\ usize_max < Zlen (spliced source replacement 0 spans))
    end.
Proof using Hmem.
  intros Hsz Hrep Hsp. pose proof (removed_length_le _ _ _ Hsp) as Hrem.
  pose proof (spliced_length source replacement 0 spans Hsp) as Hlen. unfold splice_ranges.
  rewrite removed_bytes_sum by (unfold Zlen in *; lia). simpl. unfold checked_sub, checked_add.
  unfold Zlen in *. destruct (usize_max <? _) eqn:E1; bool_to_prop.
  { eexists. split; [done|]. right. split; [done|]. lia. }
  rewrite (proj2 (Z.leb_le _ _)) by lia. simpl. destruct (_ <=? usize_max) eqn:E2; bool_to_prop; cycle 1.
  { eexists. split; [done|]. right. split; [done|]. lia. }
  match goal with |- context [run_writer _ ?n _ _] => set (output_len := n) end.
  assert (0 <= output_len <= usize_max) by (unfold output_len; lia).
  destruct (writer_run memory Hmem output_len (fun e => e = buffer_error) eq_refl output_len
      (splice_loop memory source replacement 0 spans)
      (fun _ l => l = spliced source replacement 0 spans)) as (r & -> & Hr); [done..| |].
  - by apply (wp_splice_loop _ []).
  - simpl. eexists. split; [done|]. destruct r as [[out u]|e]; [done|by left].
Qed.

(** [splice_ranges] replaces exactly the spans it is given: for spans in
    order that do not overlap it never panics, every byte outside them is passed
    on in place, and it only fails when memory runs out or the result would not
    fit a [usize]. *)
Theorem splice_ranges_exact source spans replacement :
  Zlen source <= usize_max -> Zlen replacement <= usize_max ->
  spans_within 0 (length source) spans ->
  exists r, splice_ranges memory source spans replacement = Ret r /\
    match r with
    | Ok out => out = spliced source replacement 0 spans
    | Err e => e = buffer_error \/
        (e = encode_error /\ usize_max < Zlen (spliced source replacement 0 spans))
    end.
Proof using Hmem. by apply splice_spec. Qed.

End splicing.

(** * Witnesses *)

(** The laws hold of a small JSON: objects of strings, whose characters are
    written as eight binary digits. *)
Module BitJson.

Definition bit (b : bool) : byte := if b then x31 else x30.
Definition of_bit (b : byte) : option bool :=
  match b with x30 => Some false | x31 => Some true | _ => None end.
Definition bits (c : ascii) : list byte :=
  let '(Ascii b0 b1 b2 b3 b4 b5 b6 b7) := c in
  [bit b0; bit b1; bit b2; bit b3; bit b4; bit b5; bit b6; bit b7].
Definition pieces (s : string) : list (list byte) :=
  [[x22]] ++ map bits (String.list_ascii_of_string s) ++ [[x22]].
Definition text (s : string) : list byte := concat (pieces s).
#[local] Arguments text : simpl never.

Fixpoint read_bits (l : list byte) : option (string * list byte) :=
  match l with
  | [] => None
  | b0 :: l =>
      if Byte.eqb b0 x22 then Some ("", l)
      else
        match l with
        | b1 :: b2 :: b3 :: b4 :: b5 :: b6 :: b7 :: r =>
            b0 ← of_bit b0; b1 ← of_bit b1; b2 ← of_bit b2; b3 ← of_bit b3;
            b4 ← of_bit b4; b5 ← of_bit b5; b6 ← of_bit b6; b7 ← of_bit b7;
            '(s, r) ← read_bits r;
            Some (String (Ascii b0 b1 b2 b3 b4 b5 b6 b7) s, r)
        | _ => None
        end
  end.
Definition read_text (l : list byte) : option (string * list byte) :=
  match l with b :: r => if Byte.eqb b x22 then read_bits r else None | [] => None end.

(** One entry, and what follows it *)
Definition read_entry (total : nat) (l : list byte) : option (string * Range * list byte) :=
  '(name, r) ← read_text l;
  match r with
  | [] => None
  | c :: r =>
      if Byte.eqb c x3a then
        '(_, r') ← read_text r;
        Some (name, (total - length r, total - length r')%nat, r')
      else None
  end.
Fixpoint read_entries (fuel total : nat) (l : list byte) : RawFields * bool :=
  match fuel with
  | O => ([], false)
  | S fuel =>
      match read_entry total l with
      | None => ([], false)
      | Some (entry, []) => ([entry], false)
      | Some (entry, c :: r) =>
          if Byte.eqb c x2c then
            let '(entries, complete) := read_entries fuel total r in (entry :: entries, complete)
          else ([entry], Byte.eqb c x7d && bool_decide (r = []))
      end
  end.
Definition read_map (l : list byte) : RawFields * bool :=
  match l with
  | [] => ([], false)
  | c :: r =>
      if Byte.eqb c x7b then
        if bool_decide (r = [x7d]) then ([], true) else read_entries (length r) (length l) r
      else ([], false)
  end.
Definition read_string (l : list byte) : option string :=
  match read_text l with Some (s, []) => Some s | _ => None end.

#[export] Instance bit_json : Json := {|
  json_valid := fun l => (read_map l).2 || bool_decide (is_Some (read_string l));
  json_map := fun _ => read_map;
  json_array := fun _ => None;
  json_string := read_string;
  json_opt_string := fun l => Some <$> read_string l;
  json_bool := fun l => s ← read_string l; Some (bool_decide (s = "true"));
  json_pieces := pieces
|}.

Lemma read_bits_text s r : read_bits (concat (map bits (String.list_ascii_of_string s)) ++ x22 :: r) = Some (s, r).
Proof.
  induction s as [|c s IH]; [done|]. destruct c as [b0 b1 b2 b3 b4 b5 b6 b7].
  destruct b0, b1, b2, b3, b4, b5, b6, b7; simpl; by rewrite IH.
Qed.
Lemma text_eq s : text s = x22 :: concat (map bits (String.list_ascii_of_string s)) ++ [x22].
Proof. unfold text, pieces. simpl. by rewrite concat_app. Qed.
Lemma read_text_text s r : read_text (text s ++ r) = Some (s, r).
Proof. rewrite text_eq. simpl. rewrite <- app_assoc. apply read_bits_text. Qed.

Lemma of_bit_inv b c : of_bit b = Some c -> b = bit c.
Proof. destruct b; simpl; intros; simplify_eq; done. Qed.
Lemma eqb_byte b c : Byte.eqb b c = true -> b = c.
Proof. apply Byte.byte_dec_bl. Qed.

Lemma read_bits_inv n l s r : (length l <= n)%nat -> read_bits l = Some (s, r) ->
  l = concat (map bits (String.list_ascii_of_string s)) ++ x22 :: r.
Proof.
  revert l s. induction n as [|n IH]; intros l s Hn Hl.
  { destruct l; [done|simpl in Hn; lia]. }
  destruct l as [|b0 l]; [done|]. cbn [read_bits] in Hl. destruct (Byte.eqb b0 x22) eqn:E0.
  { apply eqb_byte in E0 as ->. by injection Hl as <- <-. }
  clear E0. destruct l as [|b1 [|b2 [|b3 [|b4 [|b5 [|b6 [|b7 l]]]]]]]; try done.
  destruct (of_bit b0) as [c0|] eqn:E0; [|done]. destruct (of_bit b1) as [c1|] eqn:E1; [|done].
  destruct (of_bit b2) as [c2|] eqn:E2; [|done]. destruct (of_bit b3) as [c3|] eqn:E3; [|done].
  destruct (of_bit b4) as [c4|] eqn:E4; [|done]. destruct (of_bit b5) as [c5|] eqn:E5; [|done].
  destruct (of_bit b6) as [c6|] eqn:E6; [|done]. destruct (of_bit b7) as [c7|] eqn:E7; [|done].
  simpl in Hl. destruct (read_bits l) as [[s' r']|] eqn:El; [|done]. simpl in Hl.
  injection Hl as <- <-. apply IH in El; [|simpl in Hn; lia]. simpl.
  apply of_bit_inv in E0, E1, E2, E3, E4, E5, E6, E7. by subst.
Qed.
Lemma read_text_inv l s r : read_text l = Some (s, r) -> l = text s ++ r.
Proof.
  unfold read_text. destruct l as [|b l]; [done|]. destruct (Byte.eqb b x22) eqn:E; [|done].
  apply eqb_byte in E as ->. intros Hl. apply (read_bits_inv (length l)) in Hl; [|done]. subst.
  rewrite text_eq. simpl. by rewrite <- app_assoc.
Qed.

Lemma text_length s : (0 < length (text s))%nat.
Proof. rewrite text_eq. simpl. lia. Qed.

Lemma read_entry_inv total l name r l' : read_entry total l = Some (name, r, l') ->
  exists v, l = text name ++ x3a :: text v ++ l' /\
    r = (total - length (text v ++ l'), total - length l')%nat.
Proof.
  unfold read_entry. destruct (read_text l) as [[n l1]|] eqn:E1; simpl; [|done].
  destruct l1 as [|c l1]; [done|]. destruct (Byte.eqb c x3a) eqn:Ec; [|done].
  destruct (read_text l1) as [[v l2]|] eqn:E2; simpl; [|done]. intros [= <- <- <-].
  apply read_text_inv in E1, E2. apply eqb_byte in Ec. subst. by exists v.
Qed.

Lemma read_entry_text total name s rest :
  read_entry total (text name ++ x3a :: text s ++ rest)
  = Some (name, (total - length (text s ++ rest), total - length rest)%nat, rest).
Proof.
  unfold read_entry. rewrite read_text_text. cbn [mbind option_bind].
  change (Byte.eqb x3a x3a) with true. cbv iota. by rewrite read_text_text.
Qed.

Lemma read_entries_spec fuel pre l : forall total, total = length (pre ++ l) ->
  let es := (read_entries fuel total l).1 in
  ranges_within (length pre) total es.*2 /\
  forall name r, (name, r) ∈ es -> exists s, value_at (pre ++ l) r = text s.
Proof.
  revert pre l. induction fuel as [|fuel IH]; intros pre l total Ht; simpl; [set_solver|].
  destruct (read_entry total l) as [[[name r] l']|] eqn:E; [|simpl; set_solver].
  apply read_entry_inv in E as (v & -> & ->).
  set (r := ((total - length (text v ++ l'))%nat, (total - length l')%nat)). set (pre' := pre ++ text name ++ [x3a]).
  assert (El : pre ++ text name ++ x3a :: text v ++ l' = pre' ++ text v ++ l')
    by (unfold pre'; by rewrite <- !app_assoc).
  rewrite El in Ht |- *. pose proof (text_length v).
  assert (Er : r = (length pre', length (pre' ++ text v))%nat).
  { unfold r. rewrite Ht, !length_app. f_equal; lia. }
  assert (Hv : value_at (pre' ++ text v ++ l') r = text v).
  { rewrite Er. apply take_drop_middle_value; [done|by rewrite length_app]. }
  assert (Hr : (length pre <= r.1 < r.2)%nat /\ (r.2 <= total)%nat).
  { rewrite Er, Ht. unfold pre'. cbn [fst snd]. rewrite !length_app. simpl length. lia. }
  clearbody r. destruct l' as [|c l']; [|destruct (Byte.eqb c x2c) eqn:Ec].
  - simpl. split; [tauto|]. intros n r' Hin. apply list_elem_of_singleton in Hin as [= -> ->]. by exists v.
  - destruct (read_entries fuel total l') as [es ok] eqn:Ee.
    destruct (IH ((pre' ++ text v) ++ [c]) l' total) as [IH1 IH2].
    { rewrite Ht, <- !app_assoc. done. }
    rewrite Ee in IH1, IH2. simpl in IH1, IH2 |- *. split.
    + split_and!; [lia|lia|lia|]. eapply ranges_within_mono; [|exact IH1].
      rewrite Er. cbn [snd]. rewrite (length_app (pre' ++ text v)). lia.
    + intros n r' Hin. apply elem_of_cons in Hin as [[= -> ->]|Hin]; [by exists v|].
      destruct (IH2 n r' Hin) as [s Hs]. exists s. rewrite <- Hs. by rewrite <- !app_assoc.
  - simpl. split; [tauto|]. intros n r' Hin. apply list_elem_of_singleton in Hin as [= -> ->]. by exists v.
Qed.

Lemma print_prefix_true name : print_prefix true name = text name ++ [x3a].
Proof. done. Qed.
Lemma print_fields_false f fs : print_fields false (f :: fs) = x2c :: print_fields true (f :: fs).
Proof. by destruct f. Qed.
Lemma print_ranges_false pos f fs :
  print_ranges pos false (f :: fs) = print_ranges (S pos) true (f :: fs).
Proof.
  destruct f as [n v]. cbn [print_ranges]. unfold print_prefix. cbn [app length].
  by rewrite Nat.add_succ_r, Nat.add_succ_l.
Qed.

Lemma print_ranges_cons pos first name v fs : print_ranges pos first ((name, v) :: fs) =
  let start := (pos + length (print_prefix first name))%nat in
  (name, (start, start + length v)%nat) :: print_ranges (start + length v) false fs.
Proof. done. Qed.

Lemma read_entries_print fuel f fs pre total :
  Forall (fun f => exists s, f.2 = text s) (f :: fs) -> (length fs < fuel)%nat ->
  total = length (pre ++ print_fields true (f :: fs) ++ [x7d]) ->
  read_entries fuel total (print_fields true (f :: fs) ++ [x7d])
  = (print_ranges (length pre) true (f :: fs), true).
Proof.
  revert f fs pre. induction fuel as [|fuel IH]; intros [name v] fs pre Hv Hf Ht; [lia|].
  apply Forall_cons in Hv as [[s Hs] Hv]. simpl in Hs. subst v.
  set (rest := print_fields false fs ++ [x7d]).
  assert (E : print_fields true ((name, text s) :: fs) ++ [x7d] = text name ++ x3a :: text s ++ rest).
  { cbn [print_fields]. rewrite print_prefix_true. unfold rest. by rewrite <- !app_assoc. }
  rewrite E in *. cbn [read_entries]. rewrite read_entry_text.
  assert (Er : (name, (total - length (text s ++ rest), total - length rest)%nat) =
    (name, ((length pre + length (print_prefix true name))%nat,
            (length pre + length (print_prefix true name) + length (text s))%nat))).
  { rewrite print_prefix_true, Ht, !length_app. simpl. rewrite !length_app. f_equal. f_equal; lia. }
  rewrite Er. destruct fs as [|g fs]; [done|]. unfold rest. rewrite print_fields_false, <- app_comm_cons.
  change (Byte.eqb x2c x2c) with true. cbv iota. simpl in Hf.
  rewrite (IH g fs (pre ++ text name ++ x3a :: text s ++ [x2c])); [|done|lia|].
  - f_equal. rewrite (print_ranges_cons _ _ name). f_equal. rewrite print_ranges_false. f_equal. rewrite print_prefix_true.
    rewrite !length_app. simpl. rewrite !length_app. simpl. lia.
  - rewrite Ht. f_equal. unfold rest. rewrite print_fields_false, <- !app_assoc. cbn [app].
    by rewrite <- !app_assoc.
Qed.

#[export] Program Instance bit_json_laws : JsonLaws := {|
  json_value := fun l => exists s, l = text s
|}.
Next Obligation.
  intros wanted l. simpl. unfold read_map. destruct l as [|c l]; [done|]. destruct (Byte.eqb c x7b); [|done].
  case_bool_decide; [done|]. destruct (read_entries_spec (length l) [c] l (length (c :: l)) eq_refl) as [H' _].
  by eapply ranges_within_mono; [|exact H']; simpl; lia.
Qed.
Next Obligation.
  intros wanted l name r Hw Hin. simpl in Hin. unfold read_map in Hin. destruct l as [|c l]; [set_solver|].
  destruct (Byte.eqb c x7b); [|set_solver]. case_bool_decide; [set_solver|].
  destruct (read_entries_spec (length l) [c] l (length (c :: l)) eq_refl) as [_ H'].
  exact (H' name r Hin).
Qed.
Next Obligation. intros s. by exists s. Qed.
Next Obligation.
  intros s. change (read_string (text s) = Some s). unfold read_string.
  by rewrite <- (app_nil_r (text s)), read_text_text.
Qed.
Next Obligation.
  intros wanted [|f fs] Hv; [done|].
  assert (Hlen : (length fs < length (print_fields true (f :: fs)))%nat).
  { clear. assert (H : forall b, (length fs <= length (print_fields b fs))%nat).
    { induction fs as [|[n v] fs IH]; intros b; simpl; [lia|]. unfold print_prefix.
      rewrite !length_app. simpl. specialize (IH false). lia. }
    specialize (H false). destruct f. cbn [print_fields]. unfold print_prefix.
    rewrite !length_app. simpl. lia. }
  change (read_map (x7b :: print_fields true (f :: fs) ++ [x7d]) = (print_ranges 1 true (f :: fs), true)).
  unfold read_map. change (Byte.eqb x7b x7b) with true. cbv iota. rewrite bool_decide_eq_false_2.
  - apply (read_entries_print _ f fs [x7b]); [done| |done]. rewrite length_app. lia.
  - intros E. apply (f_equal length) in E. rewrite length_app in E. cbn [length] in E. lia.
Qed.
Next Obligation.
  intros s. simpl. unfold pieces. constructor; [done|]. apply Forall_app. split; [|by repeat constructor].
  apply Forall_map, Forall_forall. intros [] _. done.
Qed.

End BitJson.

#[local] Existing Instances BitJson.bit_json BitJson.bit_json_laws.

Definition sample_body : list byte :=
  print_object [("stream", BitJson.text "true"); ("model", BitJson.text "a");
                ("model", BitJson.text "b")].
Definition sample_payload : RawJsonPayload :=
  match parse sample_body with
  | Ok p => p
  | Err _ => {| body := []; fields := []; has_duplicate_fields := false |}
  end.
Definition sample_memory (_ : nat) : allocator := bounded_allocator 4096.

Lemma sample_parsed : parse sample_body = Ok sample_payload.
Proof. vm_compute. reflexivity. Qed.
Lemma sample_small : Zlen sample_body <= usize_max.
Proof. vm_compute. discriminate. Qed.
Lemma sample_memory_ok n : allocator_ok (sample_memory n).
Proof. by apply bounded_allocator_ok. Qed.

(** The second model wins, and the stream is dropped. *)
Example sample_encoded :
  encode (B := PayloadBuffer) sample_memory MessagesCountTokens "up" sample_payload
  = Ret (Ok (print_object [("model", BitJson.text "up")])).
Proof. vm_compute. reflexivity. Qed.

Lemma raw_json_last_field_wins_witness :
  exists entries, json_map (fun _ => true) sample_body = (entries, true) /\
    (forall name, field sample_payload name = Ret (value_at sample_body <$> last_of name entries)) /\
    StronglySorted name_lt (fields sample_payload).*1 /\
    (has_duplicate_fields sample_payload = false <-> NoDup entries.*1).
Proof. exact (raw_json_last_field_wins sample_body sample_payload sample_parsed). Defined.

Lemma raw_json_encode_exact_witness :
  exists r, encode (B := PayloadBuffer) sample_memory MessagesCountTokens "up" sample_payload = Ret r /\
    match r with
    | Ok out => exists p', parse out = Ok p' /\ forall name,
        encoded_as MessagesCountTokens "up" name (value sample_payload name) (value p' name)
    | Err e => e = buffer_error \/
        (e = invalid_model /\ exists v, value sample_payload "model" = Some v /\ json_string v = None)
    end.
Proof.
  exact (raw_json_encode_exact sample_memory sample_memory_ok sample_body sample_small
           sample_payload sample_parsed MessagesCountTokens "up").
Defined.

Lemma raw_json_rewrite_exact_witness :
  exists r, rewrite_raw_field (B := PayloadBuffer) sample_memory "model"
              (fun _ => to_writer sample_memory "c") sample_payload = Ret r /\
    match r with
    | Ok p' => parse (body p') = Ok p' /\ forall name,
        value p' name = (v ← value sample_payload name;
                         Some (if bool_decide (name = "model") then json_text "c" else v))
    | Err e => e = buffer_error
    end.
Proof.
  apply (raw_json_rewrite_exact sample_memory sample_memory_ok sample_body sample_small
           sample_payload sample_parsed (fun e => e = buffer_error) "model"
           (fun _ => to_writer sample_memory "c") (json_text "c")).
  - reflexivity.
  - apply json_text_value.
  - intros v l _. apply wp_to_writer; [exact sample_memory_ok|reflexivity].
Defined.

Lemma splice_ranges_exact_witness :
  exists r, splice_ranges (B := PayloadBuffer) sample_memory [x61; x62; x63; x64] [(1, 2); (3, 3)]%nat [x7a]
            = Ret r /\
    match r with
    | Ok out => out = [x61; x7a; x63; x7a; x64]
    | Err e => e = buffer_error \/ (e = encode_error /\ usize_max < 5)
    end.
Proof.
  apply (splice_ranges_exact sample_memory sample_memory_ok [x61; x62; x63; x64]
           [(1, 2); (3, 3)]%nat [x7a]); [done|done|simpl; lia].
Defined.
