(* ===== verification/JsonCodec.v ===== *)
(** JSON requests and responses of one dialect
    ([crates/protocol/src/json_codec.rs]) and the session a request names
    ([crates/protocol/src/affinity.rs]).

    The header map is [http::HeaderMap], which is not part of this code: the
    class [Headers] is what is called of it, [HeadersLaws] what it documents ([to_str]
    gives text).  A JSON document inside a string is read by [serde_json] too
    ([JsonDocument]). *)

From Stdlib Require Import Ascii.
From S2P Require Import Prelude Protocol Text PayloadBuffer RawJson RetryBudget Upstream AffinityStore Cost Exchange.

Local Open Scope Z_scope.

(** A call that may panic or fail *)
Abbreviation answer X := (outcome (result X ProtocolError)) (only parsing).
Definition and_then {X Y} (f : X -> answer Y) (m : answer X) : answer Y :=
  m ≫= fun r => match r with Ok x => f x | Err e => Ret (Err e) end.
Arguments and_then : simpl never.
Notation "x ←? m ; f" := (and_then (fun x => f) m)
  (at level 20, m at level 100, f at level 200, only parsing).
Lemma and_then_run {X Y} (f : X -> answer Y) x : and_then f (Ret (Ok x)) = f x.
Proof. done. Qed.
Definition fail {X} (message : string) : answer X := Ret (Err (InvalidPayload message)).

(** * Headers *)

(** [hm_get_all]: [get_all]; [hm_insert]: [insert], which drops the other values
    of the name; [hv_to_str]: [HeaderValue::to_str]; [hv_static]:
    [HeaderValue::from_static]; [HeaderMap::get] is the first of [get_all]. *)
Class Headers (H V : Type) := {
  hm_empty : H;
  hm_get_all : string -> H -> list V;
  hm_insert : string -> V -> H -> H;
  hv_to_str : V -> option string;
  hv_static : string -> V
}.

Class HeadersLaws (H V : Type) `{!Headers H V} := {
  hv_str_utf8 : forall v s, hv_to_str v = Some s -> utf8 s
}.

(** [from_str::<Value>(text)], then [get(name)] and [as_str] *)
Class JsonDocument := { json_document_string : string -> string -> option string }.

(** * Sessions *)

Inductive IngressAffinity :=
| AffinityNone
| AffinityContinuation (id : string)
| AffinitySession (id : string).

Definition MAX_SESSION_ID_BYTES : nat := 4 * 1024.

Definition too_long {X} : result X ProtocolError :=
  Err (InvalidPayload "session identifier is too long").

(** [normalized] *)
Definition normalized (v : string) : result (option string) ProtocolError :=
  let v := trim v in
  if bool_decide (v = "") then Ok None
  else if (MAX_SESSION_ID_BYTES <? String.length v)%nat then too_long
  else Ok (Some v).

(** [namespaced] *)
Definition namespaced (source v : string) : answer string :=
  match normalized v with
  | Err e => Ret (Err e)
  | Ok None => Panic
  | Ok (Some v) => Ret (Ok (source +:+ ":" +:+ v))
  end.

(** [codex_session] *)
Definition codex_session (v : string) : answer (option IngressAffinity) :=
  match normalized v with
  | Err e => Ret (Err e)
  | Ok None => Ret (Ok None)
  | Ok (Some v) => id ←? namespaced "codex" v; Ret (Ok (Some (AffinitySession id)))
  end.

Section codec.
Context {json : Json} {document : JsonDocument} {H V : Type} {header_map : Headers H V}.

(** [header_value] *)
Definition header_value (headers : H) (name : string) : result (option string) ProtocolError :=
  match head (hm_get_all name headers) with
  | None => Ok None
  | Some v =>
      match hv_to_str v with
      | None => Err (InvalidPayload "session header is not valid text")
      | Some s => normalized s
      end
  end.

(** [claude_session_id_from_user_id] *)
Definition claude_session_id_from_user_id (user_id : string) : result (option string) ProtocolError :=
  if (MAX_SESSION_ID_BYTES <? String.length user_id)%nat then too_long
  else
    match json_document_string user_id "session_id" with
    | Some session_id => normalized session_id
    | None =>
        match after_last "_session_" user_id with
        | Some session_id => normalized session_id
        | None => Ok None
        end
    end.

Definition session_headers : list (string * string) :=
  [("x-any2api-session", "any2api"); ("x-session-id", "session"); ("session-id", "codex");
   ("session_id", "codex")].

(** The loop of [extract_parts] over the headers *)
Fixpoint session_of_headers (headers : H) (names : list (string * string))
    : answer (option IngressAffinity) :=
  match names with
  | [] => Ret (Ok None)
  | (name, source) :: names =>
      match header_value headers name with
      | Err e => Ret (Err e)
      | Ok (Some v) => id ←? namespaced source v; Ret (Ok (Some (AffinitySession id)))
      | Ok None => session_of_headers headers names
      end
  end.

Definition no_affinity (o : ProtocolOperation) : bool :=
  match o with ImagesGenerations | ImagesEdits | MessagesCountTokens => true | _ => false end.

(** A value that names a session of [source], if it is given and not blank *)
Definition session_from (source : string) (v : option string)
    (read : string -> result (option string) ProtocolError) : answer (option IngressAffinity) :=
  match v with
  | None => Ret (Ok None)
  | Some v =>
      match read v with
      | Err e => Ret (Err e)
      | Ok None => Ret (Ok None)
      | Ok (Some v) => id ←? namespaced source v; Ret (Ok (Some (AffinitySession id)))
      end
  end.

(** [extract_parts] *)
Definition extract_parts (o : ProtocolOperation) (headers : H)
    (previous_response_id claude_user_id conversation_id : option string) : answer IngressAffinity :=
  if no_affinity o then Ret (Ok AffinityNone)
  else
    previous ←? Ret match previous_response_id with
                    | Some v => if bool_decide (o = Responses) then normalized v else Ok None
                    | None => Ok None
                    end;
    match previous with
    | Some id => Ret (Ok (AffinityContinuation id))
    | None =>
        from_headers ←? session_of_headers headers session_headers;
        match from_headers with
        | Some a => Ret (Ok a)
        | None =>
            claude ←? session_from "claude" claude_user_id claude_session_id_from_user_id;
            match claude with
            | Some a => Ret (Ok a)
            | None =>
                conversation ←? session_from "conversation" conversation_id normalized;
                Ret (Ok match conversation with Some a => a | None => AffinityNone end)
            end
        end
    end.

(** * Requests *)

(** A field of the payload that must read as [T] *)
Definition typed_field {T} (read : list byte -> option T) (message : string) (p : RawJsonPayload)
    (name : string) : answer (option T) :=
  r ← parse_field read p name;
  Ret match r with Ok v => Ok v | Err _ => Err (InvalidPayload message) end.

(** [payload.field(name).and_then(raw_string)] and the like: what does not read
    is not there. *)
Definition field_string (p : RawJsonPayload) (name : string) : outcome (option string) :=
  o ← field p name; Ret (o ≫= json_string).
Definition nested_string (p : RawJsonPayload) (name inner : string) : outcome (option string) :=
  o ← field p name;
  match o with
  | None => Ret None
  | Some bytes => v ← object_field bytes inner; Ret (v ≫= json_string)
  end.

(** [extract_affinity] *)
Definition extract_affinity (o : ProtocolOperation) (headers : H) (p : RawJsonPayload)
    : answer IngressAffinity :=
  if no_affinity o then Ret (Ok AffinityNone)
  else
    explicit ←? (if bool_decide (o = AlphaSearch) then
                   id ←? typed_field json_string "id must be a string" p "id";
                   match id with Some id => codex_session id | None => Ret (Ok None) end
                 else Ret (Ok None));
    match explicit with
    | Some a => Ret (Ok a)
    | None =>
        previous ←? (if bool_decide (o = Responses) then
                       v ←? typed_field json_opt_string "previous_response_id must be a string or null"
                              p "previous_response_id";
                       Ret (Ok (mjoin v))
                     else Ret (Ok None));
        claude_user_id ← nested_string p "metadata" "user_id";
        conversation_id ← field_string p "conversation_id";
        extract_parts o headers previous claude_user_id conversation_id
    end.

(** [request_execution_profile_raw] *)
Definition request_execution_profile_raw (o : ProtocolOperation) (p : RawJsonPayload)
    : outcome RequestExecutionProfile :=
  if bool_decide (o = ResponsesCompact) then Ret RemoteCompaction
  else if negb (bool_decide (o = Responses)) then Ret Standard
  else
    input ← field p "input";
    match input with
    | None => Ret Standard
    | Some bytes =>
        match raw_array bytes ≫= last with
        | None => Ret Standard
        | Some item =>
            item ← slice_range bytes item;
            kind ← object_field item "type";
            Ret (if bool_decide (kind ≫= json_string = Some "compaction_trigger")
                 then RemoteCompaction else Standard)
        end
    end.

(** [extract_raw_thinking_level] *)
Definition extract_raw_thinking_level (d : ProtocolDialect) (p : RawJsonPayload)
    : outcome (option string) :=
  effort ← match d with
           | OpenAiResponses => nested_string p "reasoning" "effort"
           | OpenAiChatCompletions => field_string p "reasoning_effort"
           | AnthropicMessages => nested_string p "output_config" "effort"
           | OpenAiImages => Ret None
           end;
  Ret (effort ≫= bound_thinking_level).

(** [request_body_encoding] *)
Definition request_body_encoding (headers : H) : result RequestBodyEncoding ProtocolError :=
  match hm_get_all "content-encoding" headers with
  | [] => Ok Identity
  | [v] =>
      match hv_to_str v with
      | None => Err (InvalidPayload "content-encoding is invalid")
      | Some s =>
          let s := to_ascii_lowercase (trim s) in
          if bool_decide (s = "identity") then Ok Identity
          else if bool_decide (s = "zstd") then Ok Zstd
          else Err (InvalidPayload "content-encoding is not supported")
      end
  | _ => Err (InvalidPayload "content-encoding must appear at most once")
  end.

(** [IngressRequest]; of its method only whether it is [POST] is read. *)
Record IngressRequest := {
  is_post : bool;
  ingress_headers : H;
  ingress_body : list byte;
  ingress_operation : ProtocolOperation
}.

Record DecodedRequest := {
  request_dialect : ProtocolDialect;
  request_operation : ProtocolOperation;
  execution_profile : RequestExecutionProfile;
  client_headers : H;
  request_headers : H;
  body_encoding : RequestBodyEncoding;
  model : option string;
  stream : bool;
  thinking_level : option string;
  affinity : IngressAffinity;
  payload : RawJsonPayload
}.

(** The model of a request *)
Definition required_model (p : RawJsonPayload) : answer string :=
  m ←? typed_field json_string "model must be a non-empty string" p "model";
  match m with
  | Some m => if bool_decide (m = "") then fail "model must be a non-empty string" else Ret (Ok m)
  | None => fail "model must be a non-empty string"
  end.

(** [decode_request]; [operation_debug] is the [Debug] name of the operation. *)
Definition decode_request (operation_debug : ProtocolOperation -> string) (d : ProtocolDialect)
    (req : IngressRequest) : answer DecodedRequest :=
  let o := ingress_operation req in
  if negb (is_post req) || negb (bool_decide (operation_dialect o = d))
  then Ret (Err (Unsupported (operation_debug o)))
  else
    p ←? Ret (parse (ingress_body req));
    model ←? required_model p;
    stream ←? typed_field json_bool "stream must be a boolean" p "stream";
    let stream := default false stream in
    if stream && negb (allows_stream o) then fail "this operation does not support streaming"
    else
      affinity ←? extract_affinity o (ingress_headers req) p;
      thinking_level ← extract_raw_thinking_level d p;
      body_encoding ←? Ret (request_body_encoding (ingress_headers req));
      profile ← request_execution_profile_raw o p;
      Ret (Ok {| request_dialect := d; request_operation := o; execution_profile := profile;
                 client_headers := ingress_headers req; request_headers := hm_empty;
                 body_encoding := body_encoding; model := Some model; stream := stream;
                 thinking_level := thinking_level; affinity := affinity; payload := p |}).

End codec.

(** * Speed tiers *)

Record SpeedTierWire := {
  tier_field : string;
  tier_fast : string;
  tier_standard : string
}.

(** [speed_tier_wire] *)
Definition speed_tier_wire (o : ProtocolOperation) : option SpeedTierWire :=
  match operation_dialect o with
  | OpenAiResponses =>
      Some {| tier_field := "service_tier"; tier_fast := "priority"; tier_standard := "default" |}
  | AnthropicMessages =>
      Some {| tier_field := "speed"; tier_fast := "fast"; tier_standard := "standard" |}
  | OpenAiChatCompletions | OpenAiImages => None
  end.

(** [parse_request_speed_tier] *)
Definition parse_request_speed_tier (d : ProtocolDialect) (value : option string)
    : option RequestSpeedTier :=
  match d, value with
  | OpenAiResponses, Some v =>
      if bool_decide (v = "priority") then Some SpeedFast
      else if bool_decide (v = "default") || bool_decide (v = "auto") || bool_decide (v = "flex") ||
              bool_decide (v = "standard") then Some SpeedStandard
      else None
  | AnthropicMessages, Some v =>
      if bool_decide (v = "fast") then Some SpeedFast
      else if bool_decide (v = "standard") then Some SpeedStandard
      else None
  | _, _ => None
  end.

Section encoding.
Context {json : Json} {H V : Type} {header_map : Headers H V} {B : Type} `{!BoundedBuffer B}.
Variable memory : nat -> allocator.

(** [raw_request_speed_tier] *)
Definition raw_request_speed_tier (o : ProtocolOperation) (p : RawJsonPayload)
    : outcome (option RequestSpeedTier) :=
  match speed_tier_wire o with
  | None => Ret None
  | Some wire =>
      v ← field_string p (tier_field wire);
      Ret (parse_request_speed_tier (operation_dialect o) v)
  end.

(** [normalize_fast_tier_to_standard] of a raw payload *)
Definition normalize_fast_tier_to_standard (o : ProtocolOperation) (p : RawJsonPayload)
    : answer RawJsonPayload :=
  match speed_tier_wire o with
  | None => Ret (Ok p)
  | Some wire =>
      v ← field_string p (tier_field wire);
      if bool_decide (v = Some (tier_fast wire))
      then rewrite_raw_field memory (tier_field wire)
             (fun _ => to_writer (B := B) memory (tier_standard wire)) p
      else Ret (Ok p)
  end.

(** [EncodedUpstreamRequest]; its method is [POST] and its URI [/]. *)
Record EncodedUpstreamRequest := {
  encoded_headers : H;
  encoded_body : list byte;
  requested_speed_tier : option RequestSpeedTier
}.

(** [encode_raw_json_request] *)
Definition encode_raw_json_request (o : ProtocolOperation) (forwarded : H) (p : RawJsonPayload)
    (upstream_model : string) : answer EncodedUpstreamRequest :=
  tier ← raw_request_speed_tier o p;
  stream ←? typed_field json_bool "stream must be a boolean" p "stream";
  body ←? encode (B := B) memory o upstream_model p;
  let headers := hm_insert "content-type" (hv_static "application/json") forwarded in
  let headers := hm_insert "accept"
                   (hv_static (if default false stream then "text/event-stream"
                               else "application/json")) headers in
  Ret (Ok {| encoded_headers := headers; encoded_body := body; requested_speed_tier := tier |}).

(** [rewrite_body_model]; the value of a field borrows from the body, so its
    range is known. *)
Definition rewrite_body_model (body : list byte) (public_model : string) : answer (list byte) :=
  match object_field_raw body "model" with
  | None => Ret (Ok body)
  | Some range =>
      model ← slice_range body range;
      if bool_decide (raw_json_string model = Some public_model) then Ret (Ok body)
      else splice_ranges (B := B) memory body [range] (json_text public_model)
  end.

End encoding.

(** * Properties *)

(** ** Sessions *)

Lemma normalized_trim v w : normalized v = Ok (Some w) ->
  w = trim v /\ w <> "" /\ (String.length w <= MAX_SESSION_ID_BYTES)%nat.
Proof.
  unfold normalized. case_bool_decide; [done|]. destruct (_ <? _)%nat eqn:E; [done|].
  apply Nat.ltb_ge in E. by intros [= <-].
Qed.

Lemma namespaced_normalized source v w : utf8 v -> normalized v = Ok (Some w) ->
  namespaced source w = Ret (Ok (source +:+ ":" +:+ w)).
Proof.
  intros Hu Hn. destruct (normalized_trim _ _ Hn) as (-> & Hne & Hl). unfold namespaced, normalized.
  rewrite trim_idem by done. rewrite bool_decide_eq_false_2 by done.
  by rewrite (proj2 (Nat.ltb_ge _ _)).
Qed.

(** The sources of session identifiers have no colon. *)
Fixpoint plain (s : string) : bool :=
  match s with
  | EmptyString => true
  | String c s => negb (bool_decide (c = ":"%char)) && plain s
  end.

Lemma namespace_inj a b v w : plain a = true -> plain b = true ->
  a +:+ ":" +:+ v = b +:+ ":" +:+ w -> a = b /\ v = w.
Proof.
  revert b. induction a as [|c a IH]; intros [|d b] Ha Hb E; simpl in Ha, Hb, E.
  - injection E as E. by split.
  - injection E as <- E. bool_to_prop. by rewrite bool_decide_eq_true_2 in H.
  - injection E as -> E. bool_to_prop. by rewrite bool_decide_eq_true_2 in H.
  - bool_to_prop. injection E as -> E. by destruct (IH b) as [-> ->].
Qed.

(** A session identifier that a request may have *)
Definition session_sources : list string := ["any2api"; "session"; "codex"; "claude"; "conversation"].
Definition session_id_ok (id : string) : Prop :=
  exists source v, source ∈ session_sources /\ id = source +:+ ":" +:+ v /\
    v <> "" /\ (String.length v <= MAX_SESSION_ID_BYTES)%nat /\ trim v = v.
Definition affinity_ok (o : ProtocolOperation) (a : IngressAffinity) : Prop :=
  match a with
  | AffinityNone => True
  | AffinityContinuation id => o = Responses /\ id <> "" /\ (String.length id <= MAX_SESSION_ID_BYTES)%nat
  | AffinitySession id => no_affinity o = false /\ session_id_ok id
  end.

(** Where an identifier comes from - [None] continues a response, [Some source]
    is a session - and what was read there *)
Definition naming : Type := option string * result (option string) ProtocolError.

(** The first place that names something decides; one that cannot be read is
    reported only when it is reached. *)
Fixpoint first_named (l : list naming) : result (option IngressAffinity) ProtocolError :=
  match l with
  | [] => Ok None
  | (_, Err e) :: _ => Err e
  | (_, Ok None) :: l => first_named l
  | (None, Ok (Some id)) :: _ => Ok (Some (AffinityContinuation id))
  | (Some source, Ok (Some id)) :: _ => Ok (Some (AffinitySession (source +:+ ":" +:+ id)))
  end.

Lemma first_named_app l l' : first_named (l ++ l') =
  match first_named l with Ok None => first_named l' | r => r end.
Proof. induction l as [|[[source|] [[id|]|e]] l IH]; simpl; done. Qed.

(** A name that was read is not blank and of bounded length; that of a session
    is trimmed. *)
Definition naming_ok (o : ProtocolOperation) (n : naming) : Prop :=
  match n with
  | (source, Ok (Some id)) =>
      id <> "" /\ (String.length id <= MAX_SESSION_ID_BYTES)%nat /\
      match source with
      | None => o = Responses
      | Some source => source ∈ session_sources /\ trim id = id
      end
  | _ => True
  end.

Lemma first_named_ok o l a : no_affinity o = false -> Forall (naming_ok o) l ->
  first_named l = Ok (Some a) -> affinity_ok o a.
Proof.
  intros Ho. induction 1 as [|[[source|] [[id|]|e]] l Hn _ IH]; simpl; intros E; simplify_eq; auto.
  - split; [done|]. destruct Hn as (? & ? & ? & ?). by exists source, id.
  - by destruct Hn as (? & ? & ?).
Qed.

(** A text, if there is one, read *)
Definition given (v : option string) (read : string -> result (option string) ProtocolError)
    : result (option string) ProtocolError :=
  match v with Some v => read v | None => Ok None end.

Lemma session_named source v w : utf8 v -> normalized v = Ok (Some w) ->
  (id ←? namespaced source w; Ret (Ok (Some (AffinitySession id))))
  = Ret (Ok (Some (AffinitySession (source +:+ ":" +:+ w)))).
Proof. intros Hu Hn. by rewrite (namespaced_normalized _ _ _ Hu Hn). Qed.

Lemma session_ok o source v w : source ∈ session_sources -> utf8 v -> normalized v = Ok (Some w) ->
  naming_ok o (Some source, Ok (Some w)).
Proof.
  intros Hs Hu Hn. destruct (normalized_trim _ _ Hn) as (-> & ? & ?). split_and!; try done.
  by apply trim_idem.
Qed.

Section sessions.
Context {document : JsonDocument} {H V : Type} {header_map : Headers H V}.
Context {header_laws : HeadersLaws H V}.
Context (Hdoc : forall text name s, json_document_string text name = Some s -> utf8 s).

Definition header_namings (headers : H) (names : list (string * string)) : list naming :=
  (fun n => (Some n.2, header_value headers n.1)) <$> names.

Lemma header_normalized headers name w : header_value headers name = Ok (Some w) ->
  exists v, utf8 v /\ normalized v = Ok (Some w).
Proof using header_laws.
  unfold header_value. destruct (head _) as [v|]; [|done].
  destruct (hv_to_str v) as [s|] eqn:Ev; [|done]. intros Hn. exists s. split; [by eapply hv_str_utf8|done].
Qed.

Lemma session_of_headers_spec headers names :
  session_of_headers headers names = Ret (first_named (header_namings headers names)).
Proof using header_laws.
  induction names as [|[name source] names IH]; simpl; [done|].
  destruct (header_value headers name) as [[w|]|e] eqn:Eh; [|done..].
  destruct (header_normalized _ _ _ Eh) as (v & Hu & Hn). by eapply session_named.
Qed.

Lemma header_namings_ok o headers names : Forall (fun n => n.2 ∈ session_sources) names ->
  Forall (naming_ok o) (header_namings headers names).
Proof using header_laws.
  intros Hs. unfold header_namings. apply Forall_fmap.
  refine (Forall_impl _ _ _ Hs _). intros [name source] Hin. simpl in *.
  destruct (header_value headers name) as [[w|]|e] eqn:Eh; [|done..].
  destruct (header_normalized _ _ _ Eh) as (v & Hu & Hn). by apply (session_ok o source v w).
Qed.

Lemma claude_normalized user_id w : utf8 user_id ->
  claude_session_id_from_user_id user_id = Ok (Some w) -> exists v, utf8 v /\ normalized v = Ok (Some w).
Proof using Hdoc.
  intros Hu. unfold claude_session_id_from_user_id. case_match; [done|].
  destruct (json_document_string _ _) as [s|] eqn:Ed; [exists s; split; [by eapply Hdoc|done]|].
  destruct (after_last _ _) as [s|] eqn:Ea; [|done]. intros Hn. exists s. split; [|done].
  apply after_last_split in Ea as [a ->]. apply (utf8_suffix (a +:+ "_session") "_"%char); [|done..].
  by rewrite !string_app_assoc.
Qed.

(** Reading that gives what is normalized from text *)
Definition reads_normalized (v : option string)
    (read : string -> result (option string) ProtocolError) : Prop :=
  forall x w, v = Some x -> read x = Ok (Some w) -> exists y, utf8 y /\ normalized y = Ok (Some w).

Lemma session_from_spec source v read : reads_normalized v read ->
  session_from source v read = Ret (first_named [(Some source, given v read)]).
Proof.
  intros Hr. unfold session_from, given. destruct v as [x|]; [|done]. simpl.
  destruct (read x) as [[w|]|e] eqn:E; [|done..]. destruct (Hr _ _ eq_refl E) as (y & Hu & Hn).
  by eapply session_named.
Qed.
Lemma given_session_ok o source v read : source ∈ session_sources -> reads_normalized v read ->
  naming_ok o (Some source, given v read).
Proof.
  intros Hs Hr. unfold given. destruct v as [x|]; [|done]. simpl.
  destruct (read x) as [[w|]|e] eqn:E; [|done..]. destruct (Hr _ _ eq_refl E) as (y & Hu & Hn).
  by apply (session_ok o source y w).
Qed.

(** What the headers, a Claude user and a conversation name, in that order *)
Definition part_namings (headers : H) (claude conversation : option string) : list naming :=
  header_namings headers session_headers ++
  [(Some "claude", given claude claude_session_id_from_user_id);
   (Some "conversation", given conversation normalized)].

Section texts.
Context (claude conversation : option string).
Context (Hclaude : forall v, claude = Some v -> utf8 v).
Context (Hconversation : forall v, conversation = Some v -> utf8 v).

Lemma claude_reads : reads_normalized claude claude_session_id_from_user_id.
Proof using Hdoc Hclaude. intros x w Hx. apply claude_normalized. by apply Hclaude. Qed.
Lemma conversation_reads : reads_normalized conversation normalized.
Proof using Hconversation. intros x w Hx Hn. exists x. split; [by apply Hconversation|done]. Qed.

Lemma part_namings_ok o headers : Forall (naming_ok o) (part_namings headers claude conversation).
Proof using All.
  apply Forall_app. split; [apply header_namings_ok; repeat constructor; set_solver|].
  repeat constructor; apply given_session_ok; [set_solver|apply claude_reads|set_solver|
    apply conversation_reads].
Qed.

Lemma extract_parts_spec o headers previous : no_affinity o = false ->
  extract_parts o headers previous claude conversation =
  Ret match first_named ((if bool_decide (o = Responses) then [(None, given previous normalized)]
                          else []) ++ part_namings headers claude conversation) with
      | Ok a => Ok (default AffinityNone a)
      | Err e => Err e
      end.
Proof using All.
  intros Ho. unfold extract_parts, part_namings. rewrite Ho, session_of_headers_spec.
  rewrite (session_from_spec "claude"), (session_from_spec "conversation")
    by (apply claude_reads || apply conversation_reads).
  rewrite !first_named_app. change [?a; ?b] with ([a] ++ [b]). rewrite first_named_app.
  assert (E : match previous with
              | Some v => if bool_decide (o = Responses) then normalized v else Ok None
              | None => Ok None
              end = if bool_decide (o = Responses) then given previous normalized else Ok None).
  { destruct previous; [done|]. by case_bool_decide. }
  rewrite E. clear E. generalize (header_namings headers session_headers). intros l.
  unfold and_then. simpl. destruct (if bool_decide (o = Responses) then given previous normalized else Ok None) as [[w|]|e] eqn:Ep;
    case_bool_decide; try discriminate Ep; simpl; rewrite ?Ep; simpl; try done.
  all: destruct (first_named l) as [[x|]|e]; simpl; [done| |done].
  all: destruct (given claude _) as [[c|]|e]; simpl; [done| |done].
  all: by destruct (given conversation normalized) as [[c|]|e].
Qed.
End texts.
End sessions.

(** Identifiers of different sources never meet, and one source keeps its
    identifiers apart. *)
Lemma session_ids_apart a b v w : a ∈ session_sources -> b ∈ session_sources ->
  a +:+ ":" +:+ v = b +:+ ":" +:+ w -> a = b /\ v = w.
Proof.
  intros Ha Hb. apply namespace_inj.
  - unfold session_sources in Ha. set_unfold in Ha. naive_solver.
  - unfold session_sources in Hb. set_unfold in Hb. naive_solver.
Qed.

(** ** Requests *)

Section requests.
Context {json : Json} {laws : JsonLaws} {document : JsonDocument}.
Context {H V : Type} {header_map : Headers H V}.

Section same_fields.
Context (p p' : RawJsonPayload) (bytes bytes' : list byte).
Context (Hp : parse bytes = Ok p) (Hp' : parse bytes' = Ok p').

Lemma parsed_field q l name : parse l = Ok q -> field q name = Ret (value q name).
Proof using laws. intros [es Hq]%parse_inv. by eapply field_value. Qed.

Lemma same_field name : value p' name = value p name -> field p' name = field p name.
Proof using laws Hp Hp'. intros E. by rewrite !(parsed_field _ _ _ Hp), !(parsed_field _ _ _ Hp'), E. Qed.
Lemma same_parse_field {T} (read : list byte -> option T) name :
  value p' name = value p name -> parse_field read p' name = parse_field read p name.
Proof using laws Hp Hp'. intros E. unfold parse_field. by rewrite same_field. Qed.
Lemma same_string name : value p' name = value p name -> field_string p' name = field_string p name.
Proof using laws Hp Hp'. intros E. unfold field_string. by rewrite same_field. Qed.
Lemma same_nested name inner :
  value p' name = value p name -> nested_string p' name inner = nested_string p name inner.
Proof using laws Hp Hp'. intros E. unfold nested_string. by rewrite same_field. Qed.

Context (Hsame : forall name, name <> "model" -> name <> "stream" -> value p' name = value p name).

Lemma same_affinity o (headers : H) : extract_affinity o headers p' = extract_affinity o headers p.
Proof using laws Hp Hp' Hsame.
  unfold extract_affinity, typed_field. rewrite !same_parse_field by (by apply Hsame).
  rewrite same_nested, same_string by (by apply Hsame). done.
Qed.
Lemma same_profile o : request_execution_profile_raw o p' = request_execution_profile_raw o p.
Proof using laws Hp Hp' Hsame.
  unfold request_execution_profile_raw. by rewrite same_field by (by apply Hsame).
Qed.
Lemma same_thinking d : extract_raw_thinking_level d p' = extract_raw_thinking_level d p.
Proof using laws Hp Hp' Hsame.
  unfold extract_raw_thinking_level. destruct d; rewrite ?same_nested, ?same_string by (by apply Hsame); done.
Qed.
End same_fields.

Lemma and_then_ok {X Y} (f : X -> answer Y) m y : and_then f m = Ret (Ok y) ->
  exists x, m = Ret (Ok x) /\ f x = Ret (Ok y).
Proof. unfold and_then. destruct m as [[x|e]|]; simpl; naive_solver. Qed.

Lemma typed_field_value {T} (read : list byte -> option T) message bytes p name v :
  parse bytes = Ok p -> typed_field read message p name = Ret (Ok v) ->
  match value p name with None => v = None | Some b => exists x, read b = Some x /\ v = Some x end.
Proof using laws.
  intros Hp. unfold typed_field, parse_field. rewrite (parsed_field _ _ _ Hp). simpl.
  destruct (value p name) as [b|]; [|by intros [= <-]].
  destruct (read b) as [x|]; [|done]. intros [= <-]. by exists x.
Qed.
Lemma typed_field_run {T} (read : list byte -> option T) message bytes p name :
  parse bytes = Ok p ->
  typed_field read message p name =
  Ret match value p name with
      | None => Ok None
      | Some b => match read b with Some x => Ok (Some x) | None => Err (InvalidPayload message) end
      end.
Proof using laws.
  intros Hp. unfold typed_field, parse_field. rewrite (parsed_field _ _ _ Hp). simpl.
  destruct (value p name) as [b|]; [|done]. by destruct (read b).
Qed.

(** What [decode_request] found when it accepts a request *)
Lemma decode_request_inv debug d (req : IngressRequest (H := H)) r :
  decode_request debug d req = Ret (Ok r) ->
  exists p m, parse (ingress_body req) = Ok p /\ is_post req = true /\
    operation_dialect (ingress_operation req) = d /\
    (exists b, value p "model" = Some b /\ json_string b = Some m) /\ m <> "" /\
    typed_field json_bool "stream must be a boolean" p "stream"
    = Ret (Ok (match value p "stream" with Some _ => Some (stream r) | None => None end)) /\
    (value p "stream" = None -> stream r = false) /\
    (stream r = true -> allows_stream (ingress_operation req) = true) /\
    extract_affinity (ingress_operation req) (ingress_headers req) p = Ret (Ok (affinity r)) /\
    extract_raw_thinking_level d p = Ret (thinking_level r) /\
    request_body_encoding (ingress_headers req) = Ok (body_encoding r) /\
    request_execution_profile_raw (ingress_operation req) p = Ret (execution_profile r) /\
    r = {| request_dialect := d; request_operation := ingress_operation req;
           execution_profile := execution_profile r; client_headers := ingress_headers req;
           request_headers := hm_empty; body_encoding := body_encoding r; model := Some m;
           stream := stream r; thinking_level := thinking_level r; affinity := affinity r;
           payload := p |}.
Proof using laws.
  unfold decode_request. destruct (is_post req); simpl; [|done].
  case_bool_decide as Hd; simpl; [|done].
  intros (p & Hparse & Hr)%and_then_ok. injection Hparse as Hparse.
  apply and_then_ok in Hr as (m & Hm & Hr). apply and_then_ok in Hr as (st & Hst & Hr).
  destruct (default false st && _) eqn:Es; [done|].
  apply and_then_ok in Hr as (a & Ha & Hr).
  destruct (extract_raw_thinking_level d p) as [t|] eqn:Et; simpl in Hr; [|done].
  apply and_then_ok in Hr as (be & Hbe & Hr). injection Hbe as Hbe.
  destruct (request_execution_profile_raw _ p) as [pr|] eqn:Epr; simpl in Hr; [|done].
  injection Hr as <-. simpl. exists p, m. split; [done|]. split; [done|]. split; [done|].
  unfold required_model in Hm. apply and_then_ok in Hm as (mo & Hmo & Hm).
  pose proof (typed_field_value _ _ _ _ _ _ Hparse Hmo) as Hmv.
  pose proof (typed_field_value _ _ _ _ _ _ Hparse Hst) as Hsv.
  destruct mo as [m'|]; [|done]. case_bool_decide as Hne; [done|]. injection Hm as ->.
  split. { destruct (value p "model") as [b|]; [|done]. destruct Hmv as (x & Hx & [= ->]). by exists b. }
  split; [done|]. rewrite Hst.
  split. { destruct (value p "stream"); [|by subst]. destruct Hsv as (x & _ & ->). done. }
  split. { intros E. rewrite E in Hsv. by subst. }
  split; [|done]. intros E. rewrite E in Es. by destruct (allows_stream _).
Qed.

Context {B : Type} `{!BoundedBuffer B}.
Variable memory : nat -> allocator.

(** C31. A request that is decoded and encoded for an upstream is the same
    request: decoding what was sent, with the client's headers, gives the model
    of the upstream and otherwise exactly what the client asked for - operation,
    streaming, execution profile, thinking level, session and body encoding. *)
Theorem json_codec_roundtrip debug d (req : IngressRequest (H := H)) forwarded m r e :
  (forall n, allocator_ok (memory n)) -> Zlen (ingress_body req) <= usize_max -> m <> "" ->
  decode_request debug d req = Ret (Ok r) ->
  encode_raw_json_request (B := B) memory (request_operation r) forwarded (payload r) m = Ret (Ok e) ->
  exists p', parse (encoded_body e) = Ok p' /\
    decode_request debug d {| is_post := true; ingress_headers := ingress_headers req;
                              ingress_body := encoded_body e;
                              ingress_operation := request_operation r |}
    = Ret (Ok {| request_dialect := d; request_operation := request_operation r;
                 execution_profile := execution_profile r; client_headers := client_headers r;
                 request_headers := hm_empty; body_encoding := body_encoding r; model := Some m;
                 stream := stream r; thinking_level := thinking_level r; affinity := affinity r;
                 payload := p' |}).
Proof using laws.
  intros Hmem Hsz Hm Hd He.
  apply decode_request_inv in Hd as (p & m0 & Hparse & _ & Hdial & (b & Hb & _) & _ & Hst & Hst0 &
    Hal & Ha & Ht & Hbe & Hpr & Er).
  rewrite Er in He |- *. cbn [request_operation payload client_headers] in He |- *.
  set (o := ingress_operation req) in *. unfold encode_raw_json_request in He.
  destruct (raw_request_speed_tier o p) as [tier|]; simpl in He; [|done].
  apply and_then_ok in He as (st & _ & He). apply and_then_ok in He as (body & Henc & He).
  injection He as <-. simpl.
  destruct (encode_spec memory Hmem _ Hsz p Hparse o m) as (out & Eenc & Hout).
  rewrite Eenc in Henc. injection Henc as ->. destruct Hout as (p' & Hparse' & Hval).
  exists p'. split; [done|].
  assert (Hsame : forall name, name <> "model" -> name <> "stream" -> value p' name = value p name).
  { intros name H1 H2. specialize (Hval name). unfold encoded_as in Hval.
    rewrite (bool_decide_eq_false_2 (name = "stream")), (bool_decide_eq_false_2 (name = "model")) in Hval
      by done. by destruct (value p name). }
  pose proof (Hval "model") as Hvm. rewrite Hb in Hvm. destruct Hvm as (b' & Hb' & Hs').
  unfold decode_request. cbn [is_post ingress_operation ingress_body ingress_headers negb orb].
  rewrite bool_decide_eq_true_2 by done. cbn [negb]. rewrite Hparse', and_then_run.
  assert (Hrm : required_model p' = Ret (Ok m)).
  { unfold required_model. rewrite (typed_field_run _ _ _ _ _ Hparse'), Hb', Hs', and_then_run.
    by rewrite bool_decide_eq_false_2. }
  assert (Hrs : exists st', typed_field json_bool "stream must be a boolean" p' "stream" = Ret (Ok st') /\
                  default false st' = stream r).
  { rewrite (typed_field_run _ _ _ _ _ Hparse'). specialize (Hval "stream"). unfold encoded_as in Hval.
    rewrite (bool_decide_eq_true_2 ("stream" = "stream")) in Hval by done.
    rewrite (bool_decide_eq_false_2 ("stream" = "model")) in Hval by done.
    rewrite (typed_field_run _ _ _ _ _ Hparse) in Hst.
    destruct (value p "stream") as [bs|]; [|rewrite Hval; exists None; by rewrite Hst0].
    destruct (allows_stream o); simpl in Hval; rewrite Hval.
    - injection Hst as Hst. rewrite Hst. by eexists.
    - exists None. split; [done|]. by destruct (stream r); [discriminate Hal|]. }
  destruct Hrs as (st' & Hrs & Est). rewrite Hrm, and_then_run, Hrs, and_then_run, Est.
  assert (Hns : stream r && negb (allows_stream o) = false).
  { destruct (stream r); [|done]. by rewrite Hal. }
  rewrite Hns, (same_affinity p p' _ _ Hparse Hparse' Hsame), Ha, and_then_run.
  rewrite (same_thinking p p' _ _ Hparse Hparse' Hsame), Ht. cbn [mbind outcome_bind].
  rewrite Hbe, and_then_run.
  rewrite (same_profile p p' _ _ Hparse Hparse' Hsame), Hpr. cbn [mbind outcome_bind].
  rewrite Er at 5 6 7 8 9 10. done.
Qed.

End requests.

(** ** Tiers and responses *)

Section rewriting.
Context {json : Json} {laws : JsonLaws} {B : Type} `{!BoundedBuffer B}.
Variable memory : nat -> allocator.
Context (Hmem : forall n, allocator_ok (memory n)).

(** Taking the fast tier out of a request leaves a request that asks for the
    standard tier where it asked for the fast one and for the same tier
    otherwise; no other field changes, and the payload is again what its body
    reads as. *)
Theorem fast_tier_normalized o bytes p :
  Zlen bytes <= usize_max -> parse bytes = Ok p ->
  exists r t, normalize_fast_tier_to_standard (B := B) memory o p = Ret r /\
    raw_request_speed_tier o p = Ret t /\
    match r with
    | Err e => e = buffer_error
    | Ok p' => parse (body p') = Ok p' /\
        raw_request_speed_tier o p' =
          Ret (if bool_decide (t = Some SpeedFast) then Some SpeedStandard else t) /\
        forall name, (forall wire, speed_tier_wire o = Some wire -> name <> tier_field wire) ->
          value p' name = value p name
    end.
Proof using laws Hmem.
  intros Hsz Hp. assert (Eb : body p = bytes) by (by destruct (parse_inv _ _ Hp) as [? []]).
  unfold normalize_fast_tier_to_standard, raw_request_speed_tier.
  destruct (speed_tier_wire o) as [wire|] eqn:Ew; cycle 1.
  { exists (Ok p), None. split; [done|]. split; [done|]. by rewrite Eb. }
  unfold field_string. rewrite (parsed_field _ _ _ Hp). simpl.
  set (v := value p (tier_field wire) ≫= json_string).
  assert (Hfast : bool_decide (parse_request_speed_tier (operation_dialect o) v = Some SpeedFast)
                  = bool_decide (v = Some (tier_fast wire))).
  { unfold speed_tier_wire, parse_request_speed_tier in *.
    destruct (operation_dialect o), v as [w|]; simplify_eq; simpl; repeat case_bool_decide;
      naive_solver. }
  destruct (decide (v = Some (tier_fast wire))) as [Ev|Ev];
    [rewrite (bool_decide_eq_true_2 _ Ev) in Hfast |- *
    |rewrite (bool_decide_eq_false_2 _ Ev) in Hfast |- *]; cycle 1.
  { eexists (Ok p), _. split; [done|]. split; [done|]. rewrite Eb. split; [done|].
    rewrite (parsed_field _ _ _ Hp). simpl. fold v. split; [|done]. by rewrite Hfast. }
  destruct (rewrite_spec memory Hmem bytes Hsz p Hp (fun e => e = buffer_error) (tier_field wire)
    (fun _ => to_writer (B := B) memory (tier_standard wire)) (json_text (tier_standard wire)))
    as (r & -> & Hr); [done|apply json_text_value| |].
  { intros ? l _. by apply wp_to_writer. }
  eexists r, _. split; [done|]. split; [done|]. destruct r as [p'|e]; [|done].
  destruct Hr as (Hp' & Hv). split; [done|]. rewrite (parsed_field _ _ _ Hp'). simpl.
  rewrite !Hv, Hfast. split.
  - destruct (value p (tier_field wire)) as [b|] eqn:Evb; [|done]. simpl.
    rewrite bool_decide_eq_true_2 by done. rewrite json_text_string. f_equal.
    unfold speed_tier_wire in Ew. destruct (operation_dialect o); simplify_eq; done.
  - intros name Hn. rewrite Hv. specialize (Hn wire eq_refl).
    rewrite bool_decide_eq_false_2 by done. by destruct (value p name).
Qed.

Lemma object_field_raw_last bytes name :
  object_field_raw bytes name =
  last_of name (json_map (wants [name]) bytes).1.
Proof.
  unfold object_field_raw, scan_object_fields. generalize (json_map (wants [name]) bytes).1. intros es.
  induction es as [|[n r] es IH] using rev_ind; [done|].
  rewrite omap_app, fmap_app. assert (Hl : forall l, last_of name (l ++ [(n, r)]) =
    if bool_decide (n = name) then Some r else last_of name l).
  { intros l. induction l as [|[n' r'] l IHl]; simpl; [done|]. rewrite IHl. by case_bool_decide. }
  rewrite Hl. simpl. unfold position. simpl. case_bool_decide as E.
  - rewrite decide_True by done. simpl. by rewrite last_snoc.
  - rewrite decide_False by done. simpl. by rewrite app_nil_r.
Qed.

(** The model name in an upstream's response is replaced in place: of the
    response body only the bytes of the last [model] value change, and only when
    it is not the public name already; a body without one, or one that is not a
    JSON object, is passed on untouched.  Nothing panics. *)
Theorem response_model_rewritten bytes public_model :
  Zlen bytes <= usize_max -> Zlen (json_text public_model) <= usize_max ->
  exists r, rewrite_body_model (B := B) memory bytes public_model = Ret r /\
    let found := last_of "model" (json_map (wants ["model"]) bytes).1 in
    match r with
    | Ok out =>
        match found with
        | None => out = bytes
        | Some (a, b) =>
            (a < b <= length bytes)%nat /\
            out = if bool_decide (raw_json_string (value_at bytes (a, b)) = Some public_model) then bytes
                  else take a bytes ++ json_text public_model ++ drop b bytes
        end
    | Err e => is_Some found /\ (e = buffer_error \/ e = encode_error)
    end.
Proof using laws Hmem.
  intros Hsz Hpub. unfold rewrite_body_model. rewrite object_field_raw_last. cbv zeta.
  set (wanted := wants ["model"]). destruct (last_of "model" (json_map wanted bytes).1) as [[a b]|] eqn:El;
    [|by eexists].
  assert (Hin : ((a, b) : Range) ∈ (json_map wanted bytes).1.*2).
  { apply last_of_elem in El. apply list_elem_of_fmap. by exists ("model", (a, b)). }
  pose proof (ranges_within_elem _ _ _ _ (json_map_within wanted bytes) Hin) as [Hab Hbl]. simpl in Hab, Hbl.
  rewrite slice_range_ok by lia. simpl. case_bool_decide as Em.
  { eexists. split; [done|]. cbv iota. split; [lia|done]. }
  destruct (splice_spec (B := B) memory Hmem bytes (@cons Range (a, b) []) (json_text public_model)) as (r & -> & Hr);
    [done|done|simpl; lia|].
  exists r. split; [done|]. destruct r as [out|e]; [|split; [done|]; naive_solver]. subst out.
  split; [lia|]. cbn [spliced fst snd]. unfold value_at. simpl.
  by rewrite Nat.sub_0_r, drop_0.
Qed.

End rewriting.

(** ** The session of a request *)

Section affinity.
Context {json : Json} {laws : JsonLaws} {document : JsonDocument}.
Context {H V : Type} {header_map : Headers H V} {header_laws : HeadersLaws H V}.
Context (Hdoc : forall text name s, json_document_string text name = Some s -> utf8 s).

(** The strings of a payload are text, as every [String] is. *)
Definition payload_texts (p : RawJsonPayload) : Prop :=
  (forall name s, field_string p name = Ret (Some s) -> utf8 s) /\
  (forall name inner s, nested_string p name inner = Ret (Some s) -> utf8 s).

(** A string inside an object of the payload *)
Definition inner_string (p : RawJsonPayload) (name inner : string) : option string :=
  b ← value p name; r ← object_field_raw b inner; json_string (value_at b r).

Lemma nested_string_run bytes p name inner : parse bytes = Ok p ->
  nested_string p name inner = Ret (inner_string p name inner).
Proof using laws.
  intros Hp. unfold nested_string, inner_string. rewrite (parsed_field _ _ _ Hp). simpl.
  destruct (value p name) as [b|]; [|done]. unfold object_field. simpl.
  destruct (object_field_raw b inner) as [[x y]|] eqn:Er; [|done].
  rewrite object_field_raw_last in Er. apply last_of_elem in Er.
  assert (Hin : ((x, y) : Range) ∈ (json_map (wants [inner]) b).1.*2).
  { apply list_elem_of_fmap. by exists (inner, (x, y)). }
  pose proof (ranges_within_elem _ _ _ _ (json_map_within (wants [inner]) b) Hin) as [Hab Hbl].
  simpl in Hab, Hbl. by rewrite slice_range_ok by lia.
Qed.
Lemma field_string_run bytes p name : parse bytes = Ok p ->
  field_string p name = Ret (value p name ≫= json_string).
Proof using laws. intros Hp. unfold field_string. by rewrite (parsed_field _ _ _ Hp). Qed.

(** A field that must read as [T], if it is there *)
Definition typed {T} (read : list byte -> option T) (message : string) (b : option (list byte))
    : result (option T) ProtocolError :=
  match b with
  | None => Ok None
  | Some b => match read b with Some x => Ok (Some x) | None => Err (InvalidPayload message) end
  end.

(** The texts of a parsed payload *)
Section texts_of.
Context (bytes : list byte) (p : RawJsonPayload) (Hp : parse bytes = Ok p) (Ht : payload_texts p).

Lemma metadata_text v : inner_string p "metadata" "user_id" = Some v -> utf8 v.
Proof using All. intros Hv. destruct Ht as [_ Hn]. apply (Hn "metadata" "user_id"). by rewrite (nested_string_run _ _ _ _ Hp), Hv. Qed.
Lemma conversation_text v : value p "conversation_id" ≫= json_string = Some v -> utf8 v.
Proof using All. intros Hv. destruct Ht as [Hf _]. apply (Hf "conversation_id"). by rewrite (field_string_run _ _ _ Hp), Hv. Qed.
Lemma id_text message v : typed json_string message (value p "id") = Ok (Some v) -> utf8 v.
Proof using All.
  intros Hv. destruct Ht as [Hf _]. apply (Hf "id"). rewrite (field_string_run _ _ _ Hp). unfold typed in Hv.
  destruct (value p "id") as [b|]; [|done]. simpl. destruct (json_string b); by simplify_eq.
Qed.
End texts_of.

(** The session an [id] names *)
Lemma codex_session_spec (id : result (option string) ProtocolError) :
  (forall v, id = Ok (Some v) -> utf8 v) ->
  (id ←? Ret id; match id with Some id => codex_session id | None => Ret (Ok None) end) =
  Ret (first_named [(Some "codex", match id with Ok id => given id normalized | Err e => Err e end)]).
Proof.
  intros Hu. destruct id as [[v|]|e]; [|done..]. rewrite and_then_run. unfold codex_session. simpl.
  destruct (normalized v) as [[w|]|e] eqn:E; [|done..]. eapply session_named; [by apply Hu|done].
Qed.

(** The places a request may name its session in, in the order they count: the
    [id] of an alpha search, the response a [Responses] request continues, the
    four headers, a Claude user and a conversation *)
Definition namings (o : ProtocolOperation) (headers : H) (p : RawJsonPayload) : list naming :=
  (if bool_decide (o = AlphaSearch) then
     [(Some "codex", match typed json_string "id must be a string" (value p "id") with
                     | Ok id => given id normalized
                     | Err e => Err e
                     end)]
   else []) ++
  (if bool_decide (o = Responses) then
     [(None, match typed json_opt_string "previous_response_id must be a string or null"
                     (value p "previous_response_id") with
             | Ok id => given (mjoin id) normalized
             | Err e => Err e
             end)]
   else []) ++
  part_namings headers (inner_string p "metadata" "user_id")
    (value p "conversation_id" ≫= json_string).

Lemma namings_ok o headers bytes p : parse bytes = Ok p -> payload_texts p ->
  Forall (naming_ok o) (namings o headers p).
Proof using laws header_laws Hdoc.
  intros Hp Ht. unfold namings. apply Forall_app_2; [|apply Forall_app_2].
  - case_bool_decide; [|done]. constructor; [|done].
    destruct (typed _ _ _) as [id|] eqn:E; [|done]. apply given_session_ok; [set_solver|].
    intros x w -> Hw. exists x. split; [by eapply (id_text bytes)|done].
  - case_bool_decide; [|done]. constructor; [|done]. simpl. destruct (typed _ _ _) as [v|]; [|done].
    unfold given. destruct (mjoin v) as [x|]; [|done]. destruct (normalized x) as [[w|]|] eqn:E; [|done..].
    by destruct (normalized_trim _ _ E) as (_ & ? & ?).
  - apply part_namings_ok; [done|by apply (metadata_text bytes)|by apply (conversation_text bytes)].
Qed.

(** C32. The session a request names, for the whole reading of headers and body.
    It never panics: the [expect] on an identifier that is not blank always
    holds, on every path that reaches it.  Of the places an identifier may stand
    in - the [id] of an alpha search, the response a [Responses] request
    continues, the four headers, a Claude user, a conversation - the first that
    names one that is not blank decides, and one that cannot be read fails the
    request when it is reached.  Only a [Responses] request continues a response; a
    session is one of five sources and a trimmed identifier of at most 4096
    bytes, and operations without sessions have none.  The strings [serde_json]
    and the header map give are text. *)
Theorem ingress_affinity_exact o headers bytes p :
  parse bytes = Ok p -> payload_texts p ->
  exists r, extract_affinity o headers p = Ret r /\
    r = (if no_affinity o then Ok AffinityNone
         else match first_named (namings o headers p) with
              | Ok a => Ok (default AffinityNone a)
              | Err e => Err e
              end) /\
    match r with Ok a => affinity_ok o a | Err _ => True end.
Proof using laws header_laws Hdoc.
  intros Hp Ht. pose proof (namings_ok o headers _ _ Hp Ht) as Hok.
  unfold extract_affinity. destruct (no_affinity o) eqn:Ho; [by exists (Ok AffinityNone)|].
  eexists. split; [|split; [reflexivity|]]; cycle 1.
  { destruct (first_named _) as [[a|]|] eqn:E; [|done..]. by eapply first_named_ok. }
  rewrite !(typed_field_run _ _ _ _ _ Hp), (nested_string_run _ _ _ _ Hp), (field_string_run _ _ _ Hp).
  fold (typed json_string "id must be a string" (value p "id")).
  fold (typed json_opt_string "previous_response_id must be a string or null"
          (value p "previous_response_id")).
  unfold namings. rewrite first_named_app. cbn [mbind outcome_bind].
  pose proof (fun previous => extract_parts_spec Hdoc _ _ (metadata_text _ _ Hp Ht)
    (conversation_text _ _ Hp Ht) o headers previous Ho) as Hparts.
  destruct (decide (o = AlphaSearch)) as [->|Ha].
  - rewrite !(bool_decide_eq_true_2 (AlphaSearch = AlphaSearch)), !(bool_decide_eq_false_2 (AlphaSearch = Responses)) by done.
    rewrite !(bool_decide_eq_false_2 (AlphaSearch = Responses)) in Hparts by done.
    rewrite codex_session_spec by (by apply (id_text bytes)).
    destruct (typed json_string _ _) as [id|e]; simpl; [|done].
    destruct (given id normalized) as [[w|]|e]; simpl; [done| |done].
    rewrite !and_then_run. apply Hparts.
  - rewrite (bool_decide_eq_false_2 _ Ha), and_then_run. case_bool_decide as Hr; [|rewrite and_then_run; apply Hparts].
    destruct (typed json_opt_string _ _) as [v|e]; [|done]. rewrite !and_then_run. apply Hparts.
Qed.

End affinity.

(** * Witnesses *)

(** Headers as a list of names and texts, and documents that name no session *)
Module ListHeaders.
Definition visible_text (s : string) : bool :=
  forallb (fun c => byte_value c <? 128) (String.list_ascii_of_string s).

#[export] Instance list_headers : Headers (list (string * string)) string := {|
  hm_empty := [];
  hm_get_all := fun name h => snd <$> filter (fun e => e.1 = name) h;
  hm_insert := fun name v h => (name, v) :: filter (fun e => e.1 <> name) h;
  hv_to_str := fun v => if visible_text v then Some v else None;
  hv_static := fun v => v
|}.
#[export] Instance list_headers_laws : HeadersLaws (list (string * string)) string.
Proof.
  split. simpl. intros v s. destruct (visible_text v) eqn:E; [|done]. intros [= <-]. by apply ascii_utf8.
Qed.
#[export] Instance no_documents : JsonDocument := {| json_document_string := fun _ _ => None |}.
End ListHeaders.

#[local] Existing Instances ListHeaders.list_headers ListHeaders.list_headers_laws
  ListHeaders.no_documents BitJson.bit_json BitJson.bit_json_laws.

Definition sample_request : IngressRequest (H := list (string * string)) :=
  {| is_post := true; ingress_headers := [("x-session-id", "s1")];
     ingress_body := print_object [("stream", BitJson.text "true"); ("model", BitJson.text "a");
                                   ("service_tier", BitJson.text "priority");
                                   ("model", BitJson.text "b")];
     ingress_operation := Responses |}.
Definition answered {X} (d : X) (m : answer X) : X := match m with Ret (Ok x) => x | _ => d end.
Definition sample_payload : RawJsonPayload :=
  answered {| body := []; fields := []; has_duplicate_fields := false |}
    (Ret (parse (ingress_body sample_request))).
Definition sample_decoded : DecodedRequest (H := list (string * string)) :=
  answered {| request_dialect := OpenAiResponses; request_operation := Responses;
              execution_profile := Standard; client_headers := []; request_headers := [];
              body_encoding := Identity; model := None; stream := false; thinking_level := None;
              affinity := AffinityNone; payload := sample_payload |}
    (decode_request operation_as_str OpenAiResponses sample_request).
Definition sample_encoded_request : EncodedUpstreamRequest (H := list (string * string)) :=
  answered {| encoded_headers := []; encoded_body := []; requested_speed_tier := None |}
    (encode_raw_json_request (B := PayloadBuffer) sample_memory Responses [] (payload sample_decoded)
       "up").

Example sample_affinity : affinity sample_decoded = AffinitySession "session:s1".
Proof. vm_compute. reflexivity. Qed.
Lemma sample_decodes : decode_request operation_as_str OpenAiResponses sample_request
  = Ret (Ok sample_decoded).
Proof. vm_compute. reflexivity. Qed.
Lemma sample_encodes :
  encode_raw_json_request (B := PayloadBuffer) sample_memory (request_operation sample_decoded) []
    (payload sample_decoded) "up" = Ret (Ok sample_encoded_request).
Proof. vm_compute. reflexivity. Qed.
Lemma sample_request_small : Zlen (ingress_body sample_request) <= usize_max.
Proof. vm_compute. discriminate. Qed.
Lemma sample_payload_parsed : parse (ingress_body sample_request) = Ok sample_payload.
Proof. vm_compute. reflexivity. Qed.

(** An alpha search that names its session in its body and in a header *)
Definition search_body : list byte := print_object [("id", BitJson.text " s2 ")].
Definition search_payload : RawJsonPayload :=
  answered {| body := []; fields := []; has_duplicate_fields := false |} (Ret (parse search_body)).
Lemma search_payload_parsed : parse search_body = Ok search_payload.
Proof. vm_compute. reflexivity. Qed.
Example search_affinity :
  extract_affinity AlphaSearch [("session-id", "s3")] search_payload
  = Ret (Ok (AffinitySession "codex:s2")).
Proof. vm_compute. reflexivity. Qed.
Lemma search_value name : value search_payload name =
  if bool_decide (name = "id") then Some (BitJson.text " s2 ") else None.
Proof.
  assert (E : fields search_payload = [("id", (20, 54)%nat)]) by (vm_compute; reflexivity).
  unfold value. rewrite E. cbn [last_of]. destruct (decide (name = "id")) as [->|Hn].
  - rewrite !bool_decide_eq_true_2 by done. vm_compute. reflexivity.
  - by rewrite !bool_decide_eq_false_2 by done.
Qed.
Lemma search_texts : payload_texts search_payload.
Proof.
  split; [intros name s|intros name inner s].
  - rewrite (field_string_run _ _ _ search_payload_parsed), search_value. case_bool_decide; [|done].
    assert (E : json_string (BitJson.text " s2 ") = Some " s2 ") by (vm_compute; reflexivity).
    cbn [mbind option_bind]. rewrite E. intros [= <-]. by apply ascii_utf8.
  - rewrite (nested_string_run _ _ _ _ search_payload_parsed). unfold inner_string.
    rewrite search_value. case_bool_decide; [|done]. by destruct inner.
Qed.

Lemma ingress_affinity_exact_witness :
  payload_texts search_payload /\
  exists r, extract_affinity AlphaSearch [("session-id", "s3")] search_payload = Ret r /\
    r = (if no_affinity AlphaSearch then Ok AffinityNone
         else match first_named (namings AlphaSearch [("session-id", "s3")] search_payload) with
              | Ok a => Ok (default AffinityNone a)
              | Err e => Err e
              end) /\
    match r with Ok a => affinity_ok AlphaSearch a | Err _ => True end.
Proof.
  split; [exact search_texts|].
  apply (ingress_affinity_exact (H := list (string * string)) (V := string)) with search_body.
  - intros text name s Hs. discriminate Hs.
  - exact search_payload_parsed.
  - exact search_texts.
Defined.

Lemma json_codec_roundtrip_witness :
  exists p', parse (encoded_body sample_encoded_request) = Ok p' /\
    decode_request operation_as_str OpenAiResponses
      {| is_post := true; ingress_headers := ingress_headers sample_request;
         ingress_body := encoded_body sample_encoded_request;
         ingress_operation := request_operation sample_decoded |}
    = Ret (Ok {| request_dialect := OpenAiResponses;
                 request_operation := request_operation sample_decoded;
                 execution_profile := execution_profile sample_decoded;
                 client_headers := client_headers sample_decoded;
                 request_headers := hm_empty; body_encoding := body_encoding sample_decoded;
                 model := Some "up"; stream := stream sample_decoded;
                 thinking_level := thinking_level sample_decoded; affinity := affinity sample_decoded;
                 payload := p' |}).
Proof.
  exact (json_codec_roundtrip (B := PayloadBuffer) sample_memory operation_as_str OpenAiResponses
           sample_request [] "up" sample_decoded sample_encoded_request sample_memory_ok
           sample_request_small ltac:(discriminate) sample_decodes sample_encodes).
Defined.

Lemma fast_tier_normalized_witness :
  exists r t, normalize_fast_tier_to_standard (B := PayloadBuffer) sample_memory Responses sample_payload
              = Ret r /\
    raw_request_speed_tier Responses sample_payload = Ret t /\
    match r with
    | Err e => e = buffer_error
    | Ok p' => parse (body p') = Ok p' /\
        raw_request_speed_tier Responses p' =
          Ret (if bool_decide (t = Some SpeedFast) then Some SpeedStandard else t) /\
        forall name,
          (forall wire, speed_tier_wire Responses = Some wire -> name <> tier_field wire) ->
          value p' name = value sample_payload name
    end.
Proof.
  exact (fast_tier_normalized sample_memory sample_memory_ok Responses (ingress_body sample_request)
           sample_payload sample_request_small sample_payload_parsed).
Defined.

Lemma response_model_rewritten_witness :
  exists r, rewrite_body_model (B := PayloadBuffer) sample_memory sample_body "pub" = Ret r /\
    let found := last_of "model" (json_map (wants ["model"]) sample_body).1 in
    match r with
    | Ok out =>
        match found with
        | None => out = sample_body
        | Some (a, b) =>
            (a < b <= length sample_body)%nat /\
            out = if bool_decide (raw_json_string (value_at sample_body (a, b)) = Some "pub")
                  then sample_body
                  else take a sample_body ++ json_text "pub" ++ drop b sample_body
        end
    | Err e => is_Some found /\ (e = buffer_error \/ e = encode_error)
    end.
Proof.
  apply (response_model_rewritten sample_memory sample_memory_ok sample_body "pub");
    [exact sample_small|vm_compute; discriminate].
Defined.
