(* ===== verification/JsonValue.v ===== *)
(** JSON values, as the bridges between dialects hold them ([serde_json::Value]
    and its [Map], which is a [BTreeMap]), and the two shapes of fallible code
    they are handled with.

    A map is the list of its entries in the order of its keys, so printing and
    iterating follow that order.  What [serde_json] prints and parses is the
    class [JsonText]; [JsonTextLaws] is what the bridge relies on of it. *)

From Stdlib Require Import Ascii.
From stdpp Require Import pretty.
From S2P Require Import Prelude Search Protocol Text.

Local Open Scope Z_scope.

(** * Values *)

(** [serde_json::Number]: a [u64], a negative [i64], or the bits of an [f64] *)
Inductive Number := PosInt (n : Z) | NegInt (n : Z) | Float (bits : Z).

Inductive Value :=
| JNull
| JBool (b : bool)
| JNumber (n : Number)
| JString (s : string)
| JArray (l : list Value)
| JObject (m : list (string * Value)).

#[export] Instance number_eq_dec : EqDecision Number.
Proof. solve_decision. Defined.

(** [PartialEq] of [Value] *)
#[export] Instance value_eq_dec : EqDecision Value.
Proof.
  refine (fix go (v w : Value) : Decision (v = w) :=
    match v, w with
    | JNull, JNull => left eq_refl
    | JBool a, JBool b => cast_if (decide (a = b))
    | JNumber a, JNumber b => cast_if (decide (a = b))
    | JString a, JString b => cast_if (decide (a = b))
    | JArray a, JArray b => cast_if (@list_eq_dec _ go a b)
    | JObject a, JObject b => cast_if (@list_eq_dec _ (@prod_eq_dec _ _ _ go) a b)
    | _, _ => right _
    end); clear go; congruence.
Defined.

Abbreviation Map := (list (string * Value)) (only parsing).

(** [Map::get], [contains_key], [keys], [values] *)
Fixpoint map_get (k : string) (m : Map) : option Value :=
  match m with
  | [] => None
  | (k', v) :: m => if bool_decide (k = k') then Some v else map_get k m
  end.
Definition contains_key (k : string) (m : Map) : bool :=
  match map_get k m with Some _ => true | None => false end.
Definition map_keys (m : Map) : list string := m.*1.
Definition map_values (m : Map) : list Value := m.*2.

(** [Map::insert] *)
Fixpoint map_insert (k : string) (v : Value) (m : Map) : Map :=
  match m with
  | [] => [(k, v)]
  | (k', v') :: m' =>
      match String.compare k k' with
      | Lt => (k, v) :: m
      | Eq => (k, v) :: m'
      | Gt => (k', v') :: map_insert k v m'
      end
  end.

(** [Map::remove], without the value *)
Definition map_remove (k : string) (m : Map) : Map :=
  filter (fun e => e.1 <> k) m.

(** [entry(k).or_insert(v)] *)
Definition or_insert (k : string) (v : Value) (m : Map) : Map :=
  if contains_key k m then m else map_insert k v m.

(** [Map::extend], and the map a [json!] object is built as *)
Definition map_extend (m entries : Map) : Map :=
  foldl (fun m e => map_insert e.1 e.2 m) m entries.
Definition fields (entries : Map) : Map := map_extend [] entries.
Definition json_object (entries : Map) : Value := JObject (fields entries).

(** ** Reading a value *)

(** [Value::get] with a string *)
Definition get (k : string) (v : Value) : option Value :=
  match v with JObject m => map_get k m | _ => None end.
(** [v["k"]]: null where there is nothing *)
Definition at_key (k : string) (v : Value) : Value :=
  match get k v with Some x => x | None => JNull end.

Definition as_str (v : Value) : option string := match v with JString s => Some s | _ => None end.
Definition as_array (v : Value) : option (list Value) :=
  match v with JArray l => Some l | _ => None end.
Definition as_object (v : Value) : option Map := match v with JObject m => Some m | _ => None end.
Definition as_u64 (v : Value) : option Z :=
  match v with JNumber (PosInt n) => Some n | _ => None end.
Definition is_null (v : Value) : bool := match v with JNull => true | _ => false end.
Definition is_object (v : Value) : bool := match v with JObject _ => true | _ => false end.
Definition is_string (v : Value) : bool := match v with JString _ => true | _ => false end.

(** [option.and_then(Value::as_str)] and the like *)
Definition opt_str (v : option Value) : option string := v ≫= as_str.
Definition opt_u64 (v : option Value) : option Z := v ≫= as_u64.
Definition opt_array (v : option Value) : option (list Value) := v ≫= as_array.
Definition opt_object (v : option Value) : option Map := v ≫= as_object.
(** [is_some_and(|v| !v.is_null())] *)
Definition present (v : option Value) : bool :=
  match v with Some v => negb (is_null v) | None => false end.

Definition num (n : Z) : Value := JNumber (PosInt n).

Definition str_is_empty (s : string) : bool := bool_decide (s = "").
Definition str_len (s : string) : Z := Z.of_nat (String.length s).

(** * [serde_json] *)

(** [to_string] and [from_str] *)
Class JsonText := {
  to_string : Value -> string;
  from_str : string -> option Value
}.

(** A printed string holds every byte of the text and its two quotes, and an
    object with one text is read back as it was printed. *)
Class JsonTextLaws `{!JsonText} := {
  string_text_len : forall s, str_len s + 2 <= str_len (to_string (JString s));
  envelope_text : forall k s,
    from_str (to_string (JObject [(k, JString s)])) = Some (JObject [(k, JString s)])
}.

(** The length of what is printed between brackets, given the lengths of the
    members: a comma stands between two. *)
Definition joined (l : list Z) : Z :=
  match l with [] => 0 | n :: l => n + foldr (fun m total => 1 + m + total) 0 l end.
(** Words are printed between quotes as they are. *)
Definition word_char (c : ascii) : bool :=
  let n := nat_of_ascii c in
  ((97 <=? n) && (n <=? 122) || (48 <=? n) && (n <=? 57) || (65 <=? n) && (n <=? 90) || (n =? 95))%nat.
Definition is_word (s : string) : bool := forallb word_char (String.list_ascii_of_string s).

(** The compact form is as long as its parts: a text is escaped character by
    character, and nothing stands between the members of an array or an object
    but commas and colons. *)
Class JsonTextSize `{!JsonText} := {
  null_size : str_len (to_string JNull) = 4;
  text_size_app : forall a b, str_len (to_string (JString (a +:+ b)))
    = str_len (to_string (JString a)) + str_len (to_string (JString b)) - 2;
  word_size : forall s, is_word s = true -> str_len (to_string (JString s)) = str_len s + 2;
  array_size : forall l, str_len (to_string (JArray l)) = 2 + joined ((fun v => str_len (to_string v)) <$> l);
  object_size : forall m, str_len (to_string (JObject m))
    = 2 + joined ((fun e => str_len (to_string (JString e.1)) + 1 + str_len (to_string e.2)) <$> m)
}.

(** * Fallible code *)

(** [Result<A, ProtocolError>] *)
Definition R (A : Type) : Type := result A ProtocolError.
#[export] Instance R_ret : MRet R := fun A a => Ok a.
#[export] Instance R_bind : MBind R := fun A B f m => match m with Ok a => f a | Err e => Err e end.

Definition fail {A} (e : ProtocolError) : R A := Err e.
(** [ok_or_else] *)
Definition ok_or {A} (o : option A) (e : ProtocolError) : R A :=
  match o with Some a => Ok a | None => Err e end.
Definition guard_or (b : bool) (e : ProtocolError) : R unit := if b then Ok tt else Err e.

(** [invalid] of every file of the bridge *)
Definition invalid (message : string) : ProtocolError := InvalidPayload message.

(** The [?] of a loop: the first error ends it. *)
Fixpoint each {A B} (f : A -> R B) (l : list A) : R (list B) :=
  match l with
  | [] => Ok []
  | x :: l => y ← f x; ys ← each f l; mret (y :: ys)
  end.

(** A method with [&mut self]: what it changed before it failed stays changed. *)
Definition M (S A : Type) : Type := S -> R A * S.
#[export] Instance M_ret {S} : MRet (M S) := fun A a s => (Ok a, s).
#[export] Instance M_bind {S} : MBind (M S) := fun A B f m s =>
  match m s with (Ok a, s) => f a s | (Err e, s) => (Err e, s) end.

Section methods.
Context {S : Type}.

Definition gets {A} (f : S -> A) : M S A := fun s => (Ok (f s), s).
Definition modify (f : S -> S) : M S unit := fun s => (Ok tt, f s).
Definition lift {A} (r : R A) : M S A := fun s => (r, s).

Fixpoint each_m {A B} (f : A -> M S (list B)) (l : list A) : M S (list B) :=
  match l with
  | [] => mret []
  | x :: l => ys ← f x; zs ← each_m f l; mret (ys ++ zs)
  end.
End methods.

(** A method of a part of the state *)
Definition zoom {S T A} (part : S -> T) (put : T -> S -> S) (m : M T A) : M S A := fun s =>
  let '(r, t) := m (part s) in (r, put t s).

(** * Lemmas *)

Lemma R_bind_Ok {A B} (m : R A) (f : A -> R B) b :
  m ≫= f = Ok b <-> exists a, m = Ok a /\ f a = Ok b.
Proof.
  split; [|by intros (a & -> & H)]. destruct m as [a|e]; [|done]. intros H. by exists a.
Qed.

Lemma M_bind_Ok {S A B} (m : M S A) (f : A -> M S B) s b s2 :
  (m ≫= f) s = (Ok b, s2) <-> exists a s1, m s = (Ok a, s1) /\ f a s1 = (Ok b, s2).
Proof.
  unfold mbind, M_bind. split.
  - destruct (m s) as [[a|e] s1]; [|done]. intros H. by exists a, s1.
  - by intros (a & s1 & -> & H).
Qed.

Lemma ok_or_Ok {A} (o : option A) e a : ok_or o e = Ok a <-> o = Some a.
Proof. destruct o; simpl; split; congruence. Qed.

Lemma guard_or_Ok b e u : guard_or b e = Ok u <-> b = true.
Proof. destruct b, u; simpl; split; done. Qed.

Lemma lift_Ok {S A} (r : R A) (s : S) a s' : lift r s = (Ok a, s') <-> r = Ok a /\ s' = s.
Proof. unfold lift. split; [intros; by simplify_eq|by intros [-> ->]]. Qed.

Lemma gets_Ok {S A} (f : S -> A) s a s' : gets f s = (Ok a, s') <-> a = f s /\ s' = s.
Proof. unfold gets. split; [intros; by simplify_eq|by intros [-> ->]]. Qed.

Lemma modify_Ok {S} (f : S -> S) s u s' : modify f s = (Ok u, s') <-> s' = f s.
Proof. unfold modify. destruct u. split; [intros; by simplify_eq|by intros ->]. Qed.

Lemma R_ret_Ok {A} (a b : A) : (mret a : R A) = Ok b <-> b = a.
Proof. unfold mret, R_ret. split; congruence. Qed.

Lemma ret_Ok {S A} (a b : A) (s s' : S) : (mret a : M S A) s = (Ok b, s') <-> b = a /\ s' = s.
Proof. unfold mret, M_ret. split; [intros; by simplify_eq|by intros [-> ->]]. Qed.

Lemma zoom_Ok {S T A} (part : S -> T) put (m : M T A) s a s' :
  zoom part put m s = (Ok a, s') <-> exists t, m (part s) = (Ok a, t) /\ s' = put t s.
Proof.
  unfold zoom. destruct (m (part s)) as [r t]. split.
  - intros [= -> <-]. by exists t.
  - by intros (t' & [= -> ->] & ->).
Qed.

(** ** Methods whose successful runs stay within a relation *)

Definition respects {S A} (rel : relation S) (m : M S A) : Prop :=
  forall s a s', m s = (Ok a, s') -> rel s s'.

Section respects.
Context {S : Type} (rel : relation S) {rel_preorder : PreOrder rel}.

Lemma respects_bind {A B} (m : M S A) (f : A -> M S B) :
  respects rel m -> (forall a, respects rel (f a)) -> respects rel (m ≫= f).
Proof.
  intros Hm Hf s b s' H. apply M_bind_Ok in H as (a & s1 & H1 & H2).
  etrans; [by eapply Hm|by eapply Hf].
Qed.
Lemma respects_ret {A} (a : A) : respects rel (mret a).
Proof. intros s b s' H. by apply ret_Ok in H as [_ ->]. Qed.
Lemma respects_lift {A} (r : R A) : respects rel (lift r).
Proof. intros s b s' H. by apply lift_Ok in H as [_ ->]. Qed.
Lemma respects_gets {A} (f : S -> A) : respects rel (gets f).
Proof. intros s b s' H. by apply gets_Ok in H as [_ ->]. Qed.
Lemma respects_modify f : (forall s, rel s (f s)) -> respects rel (modify f).
Proof. intros Hf s u s' H. apply modify_Ok in H as ->. apply Hf. Qed.
Lemma respects_zoom {T A} (part : S -> T) put (m : M T A) :
  (forall s t, rel s (put t s)) -> respects rel (zoom part put m).
Proof. intros Hp s a s' H. apply zoom_Ok in H as (t & _ & ->). apply Hp. Qed.
Lemma respects_each {A B} (f : A -> M S (list B)) l :
  (forall x, respects rel (f x)) -> respects rel (each_m f l).
Proof.
  intros Hf. induction l as [|x l IH]; cbn [each_m]; [apply respects_ret|].
  apply respects_bind; [done|]. intros. apply respects_bind; [done|]. intros. apply respects_ret.
Qed.
End respects.

(** By the shape of a method; [leaf] closes what remains. *)
Ltac respects_with leaf :=
  repeat match goal with
  | |- respects _ (_ ≫= _) => apply respects_bind; [apply _| |intros ?]
  | |- respects _ (mret _) => apply respects_ret; apply _
  | |- respects _ (lift _) => apply respects_lift; apply _
  | |- respects _ (gets _) => apply respects_gets; apply _
  | |- respects _ (each_m _ _) => apply respects_each; [apply _|intros ?]
  | |- respects _ (match ?x with _ => _ end) => destruct x
  | |- respects _ _ => solve [leaf]
  end.

(** Takes a successful run apart. *)
Ltac runs H :=
  repeat match type of H with
  | (_ ≫= _) _ = (Ok _, _) =>
      let a := fresh "a" in let s := fresh "s" in let H1 := fresh "H" in
      apply (proj1 (M_bind_Ok _ _ _ _ _)) in H; destruct H as (a & s & H1 & H); runs H1
  | (_ ≫= _) = Ok _ =>
      let a := fresh "a" in let H1 := fresh "H" in
      apply (proj1 (R_bind_Ok _ _ _)) in H; destruct H as (a & H1 & H); runs H1
  | lift _ _ = (Ok _, _) => apply (proj1 (lift_Ok _ _ _ _)) in H; destruct H as [H ->]
  | gets _ _ = (Ok _, _) => apply (proj1 (gets_Ok _ _ _ _)) in H; destruct H as [-> ->]
  | modify _ _ = (Ok _, _) => apply (proj1 (modify_Ok _ _ _ _)) in H; subst
  | @mret (M _) _ _ _ _ = (Ok _, _) => apply (proj1 (ret_Ok _ _ _ _)) in H; destruct H as [-> ->]
  | @mret R _ _ _ = Ok _ => apply (proj1 (R_ret_Ok _ _)) in H; simplify_eq
  | ok_or _ _ = Ok _ => apply (proj1 (ok_or_Ok _ _ _)) in H
  | guard_or _ _ = Ok _ => apply (proj1 (guard_or_Ok _ _ _)) in H
  end.

Lemma map_get_insert k v m : map_get k (map_insert k v m) = Some v.
Proof.
  induction m as [|[k' v'] m IH]; simpl; [by rewrite bool_decide_true|].
  destruct (String.compare k k') eqn:E; simpl; [by rewrite bool_decide_true..|].
  rewrite bool_decide_false; [done|]. intros ->. by rewrite compare_refl in E.
Qed.

Lemma map_get_insert_ne k k' v m : k <> k' -> map_get k (map_insert k' v m) = map_get k m.
Proof.
  intros Hne. induction m as [|[k1 v1] m IH]; simpl; [by rewrite bool_decide_false|].
  destruct (String.compare k' k1) eqn:E; simpl; [|by rewrite (bool_decide_false (k = k'))|by rewrite IH].
  apply String.compare_eq_iff in E as ->. by rewrite !bool_decide_false.
Qed.

(** Where the last entry for a key is what it was built with *)
Lemma map_get_extend k m entries :
  map_get k (map_extend m entries)
  = match map_get k (rev entries) with Some v => Some v | None => map_get k m end.
Proof.
  revert m. induction entries as [|[k1 v1] es IH] using rev_ind; intros m; [done|].
  unfold map_extend in *. rewrite foldl_app, rev_app_distr. simpl.
  case_bool_decide as E; [by subst; rewrite map_get_insert|].
  rewrite map_get_insert_ne by done. apply IH.
Qed.

Lemma map_get_elem_of k m v : map_get k m = Some v -> (k, v) ∈ m.
Proof.
  induction m as [|[k' v'] m IH]; simpl; [done|].
  case_bool_decide as E; [intros [= ->]; subst; by left|]. intros H. right. auto.
Qed.

Lemma elem_of_map_insert k v m e : e ∈ map_insert k v m -> e = (k, v) \/ e ∈ m.
Proof.
  induction m as [|[k' v'] m IH]; simpl; [set_solver|].
  destruct (String.compare k k'); set_solver.
Qed.

(** * An instance *)

(** A small printer and reader that the laws hold for: strings escape quotes
    and backslashes, and numbers are counts. *)
Module Plain.
Definition quote : ascii := "034".
Definition backslash : ascii := "\".

Fixpoint escape (s : string) : string :=
  match s with
  | EmptyString => ""
  | String c s =>
      if bool_decide (c = quote) || bool_decide (c = backslash)
      then String backslash (String c (escape s)) else String c (escape s)
  end.
Definition text (s : string) : string := String quote (escape s +:+ String quote "").

Fixpoint join (l : list string) : string :=
  match l with [] => "" | [s] => s | s :: l => s +:+ "," +:+ join l end.

Fixpoint print (v : Value) : string :=
  match v with
  | JNull => "null"
  | JBool b => if b then "true" else "false"
  | JNumber (PosInt n) | JNumber (NegInt n) | JNumber (Float n) => pretty n
  | JString s => text s
  | JArray l => "[" +:+ join (map print l) +:+ "]"
  | JObject m => "{" +:+ join (map (fun e => text e.1 +:+ ":" +:+ print e.2) m) +:+ "}"
  end.

(** The rest of a string literal, and what follows it *)
Fixpoint read_text (s : string) : option (string * string) :=
  match s with
  | EmptyString => None
  | String c s =>
      if bool_decide (c = quote) then Some ("", s)
      else if bool_decide (c = backslash) then
        match s with
        | EmptyString => None
        | String d s => '(t, rest) ← read_text s; Some (String d t, rest)
        end
      else '(t, rest) ← read_text s; Some (String c t, rest)
  end.

Definition digit (c : ascii) : option Z :=
  let n := Z.of_nat (nat_of_ascii c) in if (48 <=? n) && (n <=? 57) then Some (n - 48) else None.
Fixpoint read_number (acc : Z) (s : string) : Z * string :=
  match s with
  | EmptyString => (acc, s)
  | String c s' => match digit c with Some d => read_number (acc * 10 + d) s' | None => (acc, s) end
  end.

Definition strip (p s : string) : option string :=
  if String.prefix p s then Some (String.substring (String.length p) (String.length s) s) else None.

Fixpoint read (fuel : nat) (s : string) : option (Value * string) :=
  match fuel with
  | O => None
  | Datatypes.S fuel =>
      match s with
      | EmptyString => None
      | String c rest =>
          if bool_decide (c = quote) then '(t, rest) ← read_text rest; Some (JString t, rest)
          else if bool_decide (c = "{"%char) then
            match strip "}" rest with
            | Some rest => Some (JObject [], rest)
            | None => '(m, rest) ← read_members fuel rest; Some (json_object m, rest)
            end
          else if bool_decide (c = "["%char) then
            match strip "]" rest with
            | Some rest => Some (JArray [], rest)
            | None => '(l, rest) ← read_items fuel rest; Some (JArray l, rest)
            end
          else match strip "null" s, strip "true" s, strip "false" s, digit c with
               | Some rest, _, _, _ => Some (JNull, rest)
               | _, Some rest, _, _ => Some (JBool true, rest)
               | _, _, Some rest, _ => Some (JBool false, rest)
               | _, _, _, Some _ => let '(n, rest) := read_number 0 s in Some (num n, rest)
               | _, _, _, _ => None
               end
      end
  end
with read_members (fuel : nat) (s : string) : option (Map * string) :=
  match fuel with
  | O => None
  | Datatypes.S fuel =>
      rest ← strip (String quote "") s; '(k, rest) ← read_text rest;
      rest ← strip ":" rest; '(v, rest) ← read fuel rest;
      match strip "}" rest with
      | Some rest => Some ([(k, v)], rest)
      | None => rest ← strip "," rest; '(m, rest) ← read_members fuel rest; Some ((k, v) :: m, rest)
      end
  end
with read_items (fuel : nat) (s : string) : option (list Value * string) :=
  match fuel with
  | O => None
  | Datatypes.S fuel =>
      '(v, rest) ← read fuel s;
      match strip "]" rest with
      | Some rest => Some ([v], rest)
      | None => rest ← strip "," rest; '(l, rest) ← read_items fuel rest; Some (v :: l, rest)
      end
  end.

Definition parse (s : string) : option Value :=
  match read (4 + String.length s) s with Some (v, "") => Some v | _ => None end.

Lemma read_text_escape s rest : read_text (escape s +:+ String quote rest) = Some (s, rest).
Proof.
  induction s as [|c s IH]; [done|]. simpl.
  destruct (bool_decide (c = quote)) eqn:E1; simpl; [by rewrite IH|].
  destruct (bool_decide (c = backslash)) eqn:E2; simpl; [by rewrite IH|].
  by rewrite E1, E2, IH.
Qed.

Lemma escape_length s : (String.length s <= String.length (escape s))%nat.
Proof. induction s as [|c s IH]; simpl; [lia|]. case_match; simpl; lia. Qed.

Lemma quoted_length s : (String.length (text s) = String.length (escape s) + 2)%nat.
Proof. unfold text. simpl. rewrite string_length_app. simpl. lia. Qed.

Lemma substring_app p s m : (String.length s <= m)%nat ->
  String.substring (String.length p) m (p +:+ s) = s.
Proof.
  intros Hm. induction p as [|c p IH]; simpl; [|done].
  revert m Hm. induction s as [|c s IH]; intros [|m] Hm; simpl in *; try done; try lia.
  rewrite IH; [done|lia].
Qed.

Lemma strip_app p s : strip p (p +:+ s) = Some s.
Proof.
  unfold strip.
  assert (String.prefix p (p +:+ s) = true) as ->.
  { induction p as [|c p IH]; [by destruct s|]. simpl. by destruct (ascii_dec c c). }
  f_equal. apply substring_app. induction p as [|c p IH]; [done|]. simpl. by apply le_S.
Qed.

#[export] Instance plain : JsonText := {| to_string := print; from_str := parse |}.

Lemma text_app s rest : text s +:+ rest = String quote (escape s +:+ String quote rest).
Proof.
  unfold text. change (String quote ((escape s +:+ String quote "") +:+ rest) =
    String quote (escape s +:+ String quote rest)). by rewrite string_app_assoc.
Qed.

Lemma read_string fuel s rest : read (Datatypes.S fuel) (text s +:+ rest) = Some (JString s, rest).
Proof. rewrite text_app. cbn [read]. rewrite bool_decide_true, read_text_escape by done. done. Qed.

Lemma read_member fuel k s :
  read_members (Datatypes.S (Datatypes.S fuel)) (text k +:+ ":" +:+ text s +:+ "}") =
  Some ([(k, JString s)], "").
Proof.
  cbn [read_members]. rewrite (text_app k).
  change (String quote (escape k +:+ String quote (":" +:+ text s +:+ "}"))) with
    (String quote "" +:+ (escape k +:+ String quote (":" +:+ text s +:+ "}"))).
  rewrite strip_app. cbn [mbind option_bind].
  rewrite read_text_escape. cbn [mbind option_bind]. rewrite (strip_app ":"). cbn [mbind option_bind].
  rewrite read_string. done.
Qed.

Lemma escape_app a b : escape (a +:+ b) = escape a +:+ escape b.
Proof.
  induction a as [|c a IH]; [done|]. change (String c a +:+ b) with (String c (a +:+ b)). simpl.
  rewrite IH. by destruct (_ || _).
Qed.
Lemma escape_word s : is_word s = true -> escape s = s.
Proof.
  unfold is_word. induction s as [|c s IH]; [done|]. simpl. intros [Hc Hs]%andb_prop.
  rewrite IH by done. destruct (bool_decide (c = quote)) eqn:E1; [by apply bool_decide_eq_true in E1 as ->|].
  destruct (bool_decide (c = backslash)) eqn:E2; [by apply bool_decide_eq_true in E2 as ->|done].
Qed.
Lemma join_size l : Z.of_nat (String.length (join l)) = joined (str_len <$> l).
Proof.
  induction l as [|x [|y l] IH]; [done|simpl; unfold str_len; lia|].
  change (join (x :: y :: l)) with (x +:+ "," +:+ join (y :: l)).
  change (joined (str_len <$> x :: y :: l)) with (str_len x + (1 + str_len y +
    foldr (fun m total => 1 + m + total) 0 (str_len <$> l))).
  rewrite string_length_app. change (String.length ("," +:+ join (y :: l))) with (1 + String.length (join (y :: l)))%nat.
  change (joined (str_len <$> y :: l)) with (str_len y + foldr (fun m total => 1 + m + total) 0 (str_len <$> l)) in IH.
  unfold str_len at 1. lia.
Qed.
Lemma bracketed_size o c x : str_len (String o "" +:+ x +:+ String c "") = 2 + str_len x.
Proof.
  change (String o "" +:+ x +:+ String c "") with (String o (x +:+ String c "")). unfold str_len.
  change (String.length (String o ?t)) with (S (String.length t)). rewrite string_length_app.
  change (String.length (String c "")) with 1%nat. lia.
Qed.

#[export] Instance plain_size : JsonTextSize.
Proof.
  split.
  - done.
  - intros a b. unfold str_len. change (to_string (JString ?s)) with (text s).
    rewrite !quoted_length, escape_app, string_length_app. lia.
  - intros s Hs. unfold str_len. change (to_string (JString s)) with (text s).
    rewrite quoted_length, escape_word by done. lia.
  - intros l. change (to_string (JArray l)) with (String "[" "" +:+ join (map print l) +:+ String "]" "").
    rewrite bracketed_size. f_equal. unfold str_len at 1. rewrite join_size.
    f_equal. symmetry. apply (list_fmap_compose print str_len).
  - intros m. change (to_string (JObject m)) with
      (String "{" "" +:+ join (map (fun e => text e.1 +:+ ":" +:+ print e.2) m) +:+ String "}" "").
    rewrite bracketed_size. f_equal. unfold str_len at 1. rewrite join_size. f_equal.
    change (map (fun e => text e.1 +:+ ":" +:+ print e.2) m) with ((fun e => text e.1 +:+ ":" +:+ print e.2) <$> m).
    rewrite <-list_fmap_compose. apply list_fmap_ext. intros ? e _. unfold str_len.
    change (Z.of_nat (String.length (text e.1 +:+ String ":" (print e.2))) = Z.of_nat (String.length (text e.1)) + 1 +
      Z.of_nat (String.length (print e.2)) :> Z). rewrite string_length_app.
    change (String.length (String ":" (print e.2))) with (S (String.length (print e.2))). lia.
Qed.

#[export] Instance plain_laws : JsonTextLaws.
Proof.
  split.
  - intros s. unfold str_len. change (to_string (JString s)) with (text s).
    rewrite quoted_length. pose proof (escape_length s). lia.
  - intros k s. change (parse ("{" +:+ (text k +:+ ":" +:+ text s) +:+ "}") =
      Some (JObject [(k, JString s)])).
    rewrite string_app_assoc. change ((":" +:+ text s) +:+ "}") with (":" +:+ text s +:+ "}").
    unfold parse. rewrite Nat.add_comm. generalize (String.length ("{" +:+ text k +:+ ":" +:+ text s +:+ "}")).
    intros n. replace (n + 4)%nat with (Datatypes.S (Datatypes.S (Datatypes.S (Datatypes.S n)))) by lia.
    change ("{" +:+ text k +:+ ":" +:+ text s +:+ "}") with
      (String "{" (text k +:+ ":" +:+ text s +:+ "}")).
    remember (Datatypes.S (Datatypes.S (Datatypes.S n))) as fuel eqn:Ef. cbn [read].
    rewrite !bool_decide_false by done. rewrite bool_decide_true by done.
    assert (strip "}" (text k +:+ ":" +:+ text s +:+ "}") = None) as -> by (by rewrite text_app).
    rewrite Ef, read_member. done.
Qed.
End Plain.
