(* ===== verification/ChatTools.v ===== *)
(** The tools of a Responses request as a Chat Completions upstream sees them
    ([crates/protocol/src/openai_responses_chat/tool_projection] with the target
    profiles of [crates/protocol/src/api/target_profile.rs]).

    Chat Completions has functions and, on some upstreams, custom tools, under
    one flat set of short names.  A projection gives every tool of the client
    (functions and custom tools, alone or in a namespace, and the tool search)
    a name of its own, remembers which were offered in this turn, and turns the
    calls of the model back into calls of the client's tools.  SHA-256 is a
    parameter, JSON the interface [JsonText].  A projection that fails is
    dropped by the caller, so the operations return the new one. *)

From Stdlib Require Import Ascii.
From S2P Require Import Prelude Search Protocol Text JsonValue.

Local Open Scope Z_scope.

(** * Target profiles *)

Inductive OpenAiChatTokenLimitField := MaxTokens | MaxCompletionTokens.
Inductive OpenAiChatInstructionRole := RoleSystem | RoleDeveloper.
Inductive OpenAiChatReasoningRequest := RequestUnsupported | ReasoningEffort.
Inductive OpenAiChatReasoningResponse :=
| ReasoningUnsupported | ReasoningContent | Reasoning | ReasoningContentOrReasoning.
Inductive OpenAiChatCachedTokensField :=
| PromptTokensDetails | TopLevel | PromptTokensDetailsOrTopLevel.
Inductive OpenAiChatCustomToolMode := Native | FunctionEnvelope.

#[export] Instance custom_tool_mode_eq_dec : EqDecision OpenAiChatCustomToolMode.
Proof. solve_decision. Defined.
#[export] Instance reasoning_response_eq_dec : EqDecision OpenAiChatReasoningResponse.
Proof. solve_decision. Defined.

Inductive OpenAiChatRequestField :=
| FrequencyPenalty | LogitBias | Logprobs | FieldMetadata | ParallelToolCalls | PresencePenalty
| PromptCacheKey | ResponseFormat | Seed | ServiceTier | FieldStop | FieldStore | Temperature
| TopLogprobs | TopP | FieldUser | Verbosity.

(** The discriminant of [#[repr(u8)]] *)
Definition field_bit (f : OpenAiChatRequestField) : Z :=
  match f with
  | FrequencyPenalty => 0 | LogitBias => 1 | Logprobs => 2 | FieldMetadata => 3
  | ParallelToolCalls => 4 | PresencePenalty => 5 | PromptCacheKey => 6 | ResponseFormat => 7
  | Seed => 8 | ServiceTier => 9 | FieldStop => 10 | FieldStore => 11 | Temperature => 12
  | TopLogprobs => 13 | TopP => 14 | FieldUser => 15 | Verbosity => 16
  end.

(** [OpenAiChatRequestFields], a [u32] *)
Definition fields_none : Z := 0.
Definition fields_all : Z := Z.shiftl 1 17 - 1.
Definition fields_with (fs : Z) (f : OpenAiChatRequestField) : Z :=
  Z.lor fs (Z.shiftl 1 (field_bit f)).
Definition fields_without (fs : Z) (f : OpenAiChatRequestField) : Z :=
  Z.land fs (u32_max - Z.shiftl 1 (field_bit f)).
Definition fields_contain (fs : Z) (f : OpenAiChatRequestField) : bool :=
  negb (Z.land fs (Z.shiftl 1 (field_bit f)) =? 0).

Record OpenAiChatCompletionsProfile := {
  token_limit_field : OpenAiChatTokenLimitField;
  instruction_role : OpenAiChatInstructionRole;
  reasoning_request : OpenAiChatReasoningRequest;
  reasoning_response : OpenAiChatReasoningResponse;
  cached_tokens_field : OpenAiChatCachedTokensField;
  custom_tools : OpenAiChatCustomToolMode;
  tool_name_max_chars : Z;
  request_fields : Z;
  supports_image_url : bool;
  supports_image_detail : bool;
  supports_input_audio : bool;
  supports_file : bool
}.

Definition CURRENT_OPENAI : OpenAiChatCompletionsProfile := {|
  token_limit_field := MaxCompletionTokens;
  instruction_role := RoleDeveloper;
  reasoning_request := ReasoningEffort;
  reasoning_response := ReasoningContentOrReasoning;
  cached_tokens_field := PromptTokensDetails;
  custom_tools := Native;
  tool_name_max_chars := 128;
  request_fields := fields_all;
  supports_image_url := true;
  supports_image_detail := true;
  supports_input_audio := true;
  supports_file := true
|}.

Definition COMPATIBLE_BASELINE : OpenAiChatCompletionsProfile := {|
  token_limit_field := MaxTokens;
  instruction_role := RoleSystem;
  reasoning_request := ReasoningEffort;
  reasoning_response := ReasoningContentOrReasoning;
  cached_tokens_field := PromptTokensDetailsOrTopLevel;
  custom_tools := FunctionEnvelope;
  tool_name_max_chars := 64;
  request_fields := fields_all;
  supports_image_url := true;
  supports_image_detail := true;
  supports_input_audio := false;
  supports_file := false
|}.

Definition supports_request_field (p : OpenAiChatCompletionsProfile) (f : OpenAiChatRequestField)
    : bool := fields_contain (request_fields p) f.

Definition token_limit_as_str (f : OpenAiChatTokenLimitField) : string :=
  match f with MaxTokens => "max_tokens" | MaxCompletionTokens => "max_completion_tokens" end.
Definition instruction_role_as_str (r : OpenAiChatInstructionRole) : string :=
  match r with RoleSystem => "system" | RoleDeveloper => "developer" end.

(** * Tools and their names *)

Inductive ChatToolKind := ChatFunction | ChatCustom.
Inductive SourceCallKind := SourceFunction | SourceCustom | SourceToolSearch.
Inductive ToolIdentity :=
| IdFunction (name : string)
| IdCustom (name : string)
| IdNamespaceFunction (namespace name : string)
| IdNamespaceCustom (namespace name : string)
| IdToolSearch.

#[export] Instance chat_tool_kind_eq_dec : EqDecision ChatToolKind.
Proof. solve_decision. Defined.
#[export] Instance source_call_kind_eq_dec : EqDecision SourceCallKind.
Proof. solve_decision. Defined.
#[export] Instance tool_identity_eq_dec : EqDecision ToolIdentity.
Proof. solve_decision. Defined.
#[export] Instance chat_tool_kind_countable : Countable ChatToolKind.
Proof.
  refine (inj_countable' (fun k => match k with ChatFunction => true | ChatCustom => false end)
    (fun b : bool => if b then ChatFunction else ChatCustom) _). by intros [].
Defined.
#[export] Instance tool_identity_countable : Countable ToolIdentity.
Proof.
  refine (inj_countable'
    (fun i => match i with
      | IdFunction n => (0%nat, "", n) | IdCustom n => (1%nat, "", n)
      | IdNamespaceFunction s n => (2%nat, s, n) | IdNamespaceCustom s n => (3%nat, s, n)
      | IdToolSearch => (4%nat, "", "") end)
    (fun '(t, s, n) => match t with
      | 0%nat => IdFunction n | 1%nat => IdCustom n | 2%nat => IdNamespaceFunction s n
      | 3%nat => IdNamespaceCustom s n | _ => IdToolSearch end) _).
  by intros [].
Defined.

(** [ToolIdentity::source_call_kind], [chat_kind] *)
Definition source_call_kind (i : ToolIdentity) : SourceCallKind :=
  match i with
  | IdFunction _ | IdNamespaceFunction _ _ => SourceFunction
  | IdCustom _ | IdNamespaceCustom _ _ => SourceCustom
  | IdToolSearch => SourceToolSearch
  end.
Definition chat_kind (i : ToolIdentity) (p : OpenAiChatCompletionsProfile) : ChatToolKind :=
  match i with
  | IdCustom _ | IdNamespaceCustom _ _ =>
      if bool_decide (custom_tools p = Native) then ChatCustom else ChatFunction
  | _ => ChatFunction
  end.

(** The derived [Ord]: the variants in their order, then the fields in theirs *)
Definition identity_rank (i : ToolIdentity) : nat * string * string :=
  match i with
  | IdFunction n => (0%nat, n, "") | IdCustom n => (1%nat, n, "")
  | IdNamespaceFunction s n => (2%nat, s, n) | IdNamespaceCustom s n => (3%nat, s, n)
  | IdToolSearch => (4%nat, "", "")
  end.
Definition identity_le (a b : ToolIdentity) : Prop :=
  let '(ra, sa, na) := identity_rank a in
  let '(rb, sb, nb) := identity_rank b in
  (ra < rb)%nat \/ ra = rb /\ (name_lt sa sb \/ sa = sb /\ name_le na nb).
#[export] Instance identity_le_dec : RelDecision identity_le.
Proof.
  intros a b. unfold identity_le.
  destruct (identity_rank a) as [[ra sa] na], (identity_rank b) as [[rb sb] nb].
  unfold name_lt, name_le. apply _.
Defined.

Section tools.
Context {JT : JsonText} (sha256 : list Byte.byte -> list Byte.byte).

(** [sanitize] *)
Definition sanitize_char (ch : string) : string :=
  match ch with
  | String c EmptyString => if token_char c then ch else "_"
  | _ => "_"
  end.
Definition sanitize (value : string) : string :=
  let output := concat_chars (sanitize_char <$> chars value) in
  if str_is_empty output then "tool" else output.

(** A string of one NUL byte *)
Definition nul : string := String "000"%char "".

(** [canonical] *)
Definition canonical (i : ToolIdentity) : string :=
  match i with
  | IdFunction name => "function" +:+ nul +:+ name
  | IdCustom name => "custom" +:+ nul +:+ name
  | IdNamespaceFunction namespace name =>
      "namespace-function" +:+ nul +:+ namespace +:+ nul +:+ name
  | IdNamespaceCustom namespace name =>
      "namespace-custom" +:+ nul +:+ namespace +:+ nul +:+ name
  | IdToolSearch => "tool-search"
  end.

(** [{byte:02x}] *)
Definition hex_digit (n : N) : ascii := ascii_of_N (if (n <? 10)%N then 48 + n else 87 + n).
Definition hex_byte (b : Byte.byte) : string :=
  let n := Byte.to_N b in String (hex_digit (n / 16)) (String (hex_digit (n mod 16)) "").

(** [digest_suffix] *)
Definition digest_suffix (input : string) : string :=
  concat_chars (hex_byte <$> take 6 (sha256 (String.list_byte_of_string input))).

(** The name [project_name] would like to give *)
Definition desired_name (i : ToolIdentity) (k : ChatToolKind) : string :=
  match i with
  | IdFunction name => sanitize name
  | IdCustom name =>
      if bool_decide (k = ChatCustom) then sanitize name else "custom__" +:+ sanitize name
  | IdNamespaceFunction namespace name => sanitize namespace +:+ "__" +:+ sanitize name
  | IdNamespaceCustom namespace name =>
      "custom__" +:+ sanitize namespace +:+ "__" +:+ sanitize name
  | IdToolSearch => "tool_search"
  end.
Definition lossless (i : ToolIdentity) (k : ChatToolKind) : bool :=
  match i with
  | IdFunction name => bool_decide (name = desired_name i k)
  | IdCustom name => bool_decide (k = ChatCustom) && bool_decide (name = desired_name i k)
  | _ => false
  end.

Definition take_chars (n : Z) (s : string) : string := concat_chars (take (Z.to_nat n) (chars s)).

(** [project_name] *)
Definition project_name (i : ToolIdentity) (k : ChatToolKind) (max_chars : Z)
    (collides : string -> bool) : R string :=
  if max_chars <? 17
  then Err (invalid "Chat target tool name limit is too small for reversible projection") else
  let desired := desired_name i k in
  if lossless i k && (Zlen (chars desired) <=? max_chars) && negb (collides desired)
  then Ok desired else
  let suffix := digest_suffix (canonical i) in
  let prefix_chars := saturating_sub max_chars (str_len suffix + 1) in
  let prefix := take_chars prefix_chars desired in
  let prefix := if str_is_empty prefix then take_chars prefix_chars "tool" else prefix in
  let projected := prefix +:+ "_" +:+ suffix in
  if collides projected then Err (invalid "tool names collide after deterministic projection")
  else Ok projected.

(** * The projection *)

Record ToolProjection := {
  profile : OpenAiChatCompletionsProfile;
  original_to_chat : gmap ToolIdentity string;
  chat_to_original : gmap (ChatToolKind * string) ToolIdentity;
  deferred : gset ToolIdentity;
  active : gset (ChatToolKind * string);
  chat_tools : list Value
}.

(** [ToolProjection::new] *)
Definition projection_new (p : OpenAiChatCompletionsProfile) (previous : option ToolProjection)
    : ToolProjection :=
  {| profile := p;
     original_to_chat := match previous with Some t => original_to_chat t | None => ∅ end;
     chat_to_original := match previous with Some t => chat_to_original t | None => ∅ end;
     deferred := match previous with Some t => deferred t | None => ∅ end;
     active := ∅; chat_tools := [] |}.

Definition has_active_tools (t : ToolProjection) : bool := negb (bool_decide (active t = ∅)).

Definition identity_bytes (i : ToolIdentity) : Z :=
  match i with
  | IdFunction name | IdCustom name => str_len name
  | IdNamespaceFunction namespace name | IdNamespaceCustom namespace name =>
      saturating_add usize_max (str_len namespace) (str_len name)
  | IdToolSearch => str_len "tool_search"
  end.

(** [ToolProjection::serialized_bytes]; saturating sums do not depend on the
    order of the maps. *)
Definition projection_bytes (t : ToolProjection) : Z :=
  let mappings := foldl (fun total e =>
    saturating_add usize_max (saturating_add usize_max total (identity_bytes e.1)) (str_len e.2))
    0 (map_to_list (original_to_chat t)) in
  foldl (fun total i => saturating_add usize_max total (identity_bytes i)) mappings
    (elements (deferred t)).

Definition register_deferred (i : ToolIdentity) (t : ToolProjection) : ToolProjection :=
  {| profile := profile t; original_to_chat := original_to_chat t;
     chat_to_original := chat_to_original t; deferred := {[ i ]} ∪ deferred t;
     active := active t; chat_tools := chat_tools t |}.
Definition is_registered_deferred (i : ToolIdentity) (t : ToolProjection) : bool :=
  bool_decide (i ∈ deferred t).
Definition has_registered_identity (i : ToolIdentity) (t : ToolProjection) : bool :=
  bool_decide (is_Some (original_to_chat t !! i)).

(** The [collides] of [ensure_identity] *)
Definition name_taken (i : ToolIdentity) (t : ToolProjection) (candidate : string) : bool :=
  match chat_to_original t !! (chat_kind i (profile t), candidate) with
  | Some existing => bool_decide (existing <> i)
  | None => false
  end.

Definition with_identity (i : ToolIdentity) (name : string) (t : ToolProjection) : ToolProjection :=
  {| profile := profile t; original_to_chat := <[i := name]> (original_to_chat t);
     chat_to_original := <[(chat_kind i (profile t), name) := i]> (chat_to_original t);
     deferred := deferred t; active := active t; chat_tools := chat_tools t |}.

(** [ToolProjection::ensure_identity] *)
Definition ensure_identity (i : ToolIdentity) (t : ToolProjection) : R (string * ToolProjection) :=
  match original_to_chat t !! i with
  | Some name => Ok (name, t)
  | None =>
      name ← project_name i (chat_kind i (profile t)) (tool_name_max_chars (profile t))
               (name_taken i t);
      mret (name, with_identity i name t)
  end.

(** [ToolProjection::activate] *)
Definition projection_activate (i : ToolIdentity) (definition : Value) (t : ToolProjection)
    : R ToolProjection :=
  '(name, t) ← ensure_identity i t;
  let key := (chat_kind i (profile t), name) in
  if bool_decide (key ∈ active t) then Err (invalid "tool is declared more than once")
  else mret {| profile := profile t; original_to_chat := original_to_chat t;
               chat_to_original := chat_to_original t; deferred := deferred t;
               active := {[ key ]} ∪ active t; chat_tools := chat_tools t ++ [definition] |}.

(** [ToolProjection::active_name], [active_identity], [known_identity] *)
Definition active_name (i : ToolIdentity) (t : ToolProjection) : R string :=
  name ← ok_or (original_to_chat t !! i) (invalid "tool_choice references an undeclared tool");
  if bool_decide ((chat_kind i (profile t), name) ∈ active t) then mret name
  else Err (invalid "tool_choice references an inactive tool").
Definition active_identity (k : ChatToolKind) (name : string) (t : ToolProjection)
    : R ToolIdentity :=
  if bool_decide ((k, name) ∈ active t)
  then ok_or (chat_to_original t !! (k, name))
         (Internal "active tool projection has no reverse mapping")
  else Err (invalid "Chat Completions returned a call for an undeclared tool").
Definition known_identity (k : ChatToolKind) (name : string) (t : ToolProjection)
    : R ToolIdentity :=
  ok_or (chat_to_original t !! (k, name))
    (invalid "conversation contains an unknown projected tool name").

(** * Calls *)

(** [required_string_allow_empty], [required_string] *)
Definition required_string_allow_empty (v : option Value) (field : string) : R string :=
  ok_or (opt_str v) (invalid field).
Definition required_string (v : option Value) (field : string) : R string :=
  s ← required_string_allow_empty v field;
  if str_is_empty s then Err (invalid field) else mret s.

Inductive RestoredToolCall :=
| RestoredFunction (name : string) (namespace : option string) (arguments : string)
| RestoredCustom (name : string) (namespace : option string) (input : string)
| RestoredToolSearch (arguments : Value).

Record ProjectedSourceCall := { chat_call : Value; call_identity : ToolIdentity }.

(** [optional_string] of [call.rs] *)
Definition call_optional_string (v : option Value) (field : string) : R (option string) :=
  match v with
  | None | Some JNull => Ok None
  | Some (JString s) => if str_is_empty s then Err (invalid field) else Ok (Some s)
  | Some _ => Err (invalid field)
  end.

(** [source_identity] *)
Definition source_identity (object : Map) (k : SourceCallKind) : R ToolIdentity :=
  match k with
  | SourceToolSearch => Ok IdToolSearch
  | SourceFunction =>
      name ← required_string (map_get "name" object) "function_call.name";
      namespace ← call_optional_string (map_get "namespace" object) "tool call namespace";
      mret match namespace with
           | None => IdFunction name | Some s => IdNamespaceFunction s name
           end
  | SourceCustom =>
      name ← required_string (map_get "name" object) "custom_tool_call.name";
      namespace ← call_optional_string (map_get "namespace" object) "tool call namespace";
      mret match namespace with
           | None => IdCustom name | Some s => IdNamespaceCustom s name
           end
  end.

(** The two shapes of a call of Chat Completions *)
Definition function_call (name arguments : string) : Value :=
  json_object [("type", JString "function");
               ("function", json_object [("name", JString name); ("arguments", JString arguments)])].
Definition custom_call (name input : string) : Value :=
  json_object [("type", JString "custom");
               ("custom", json_object [("name", JString name); ("input", JString input)])].

(** The envelope of a custom tool that is offered as a function *)
Definition envelope (input : string) : Value := json_object [("input", JString input)].

(** [project_source_call] *)
Definition project_source_call (object : Map) (k : SourceCallKind) (t : ToolProjection)
    : R (ProjectedSourceCall * ToolProjection) :=
  identity ← source_identity object k;
  if bool_decide (k = SourceToolSearch) && negb (has_registered_identity identity t)
  then Err (invalid "tool_search_call requires a registered client tool_search") else
  '(chat_name, t) ← ensure_identity identity t;
  call ← match k with
         | SourceFunction =>
             arguments ← required_string (map_get "arguments" object) "function_call.arguments";
             mret (function_call chat_name arguments)
         | SourceCustom =>
             input ← required_string_allow_empty (map_get "input" object) "custom_tool_call.input";
             if bool_decide (chat_kind identity (profile t) = ChatCustom)
             then mret (custom_call chat_name input)
             else mret (function_call chat_name (to_string (envelope input)))
         | SourceToolSearch =>
             execution ← required_string (map_get "execution" object) "tool_search_call.execution";
             if negb (bool_decide (execution = "client"))
             then Err (invalid "only client-executed tool_search_call is supported") else
             arguments ← ok_or (map_get "arguments" object)
                           (invalid "tool_search_call.arguments is required");
             mret (function_call chat_name (to_string arguments))
         end;
  mret ({| chat_call := call; call_identity := identity |}, t).

(** [custom_input] *)
Definition custom_input (payload : string) (t : ToolProjection) : R string :=
  if bool_decide (custom_tools (profile t) = Native) then Ok payload else
  value ← ok_or (from_str payload) (invalid "Chat custom tool envelope must be valid JSON");
  object ← ok_or (as_object value) (invalid "Chat custom tool envelope must be an object");
  if negb (Zlen object =? 1)
  then Err (invalid "Chat custom tool envelope contains unexpected fields")
  else required_string_allow_empty (map_get "input" object) "custom tool envelope input".

(** [restore_call] *)
Definition restore_call (k : ChatToolKind) (name payload : string) (t : ToolProjection)
    : R RestoredToolCall :=
  identity ← active_identity k name t;
  match identity with
  | IdFunction name => mret (RestoredFunction name None payload)
  | IdNamespaceFunction namespace name => mret (RestoredFunction name (Some namespace) payload)
  | IdCustom name => input ← custom_input payload t; mret (RestoredCustom name None input)
  | IdNamespaceCustom namespace name =>
      input ← custom_input payload t; mret (RestoredCustom name (Some namespace) input)
  | IdToolSearch =>
      arguments ← ok_or (from_str payload)
        (invalid "Chat tool_search arguments must contain one complete JSON value");
      mret (RestoredToolSearch arguments)
  end.

(** * Definitions of tools *)

Inductive ParsedTool :=
| ParsedFunction (identity : ToolIdentity) (description : option string) (parameters : Value)
    (strict deferred : bool)
| ParsedCustom (identity : ToolIdentity) (description : option string) (format : option Value)
    (deferred : bool)
| ParsedToolSearch (description : string) (parameters : Value).

Definition tool_is_deferred (t : ParsedTool) : bool :=
  match t with ParsedFunction _ _ _ _ d | ParsedCustom _ _ _ d => d | ParsedToolSearch _ _ => false end.
Definition tool_identity (t : ParsedTool) : ToolIdentity :=
  match t with
  | ParsedFunction i _ _ _ _ | ParsedCustom i _ _ _ => i
  | ParsedToolSearch _ _ => IdToolSearch
  end.

(** [reject_fields] *)
Definition reject_fields (object : Map) (scope : string) (allowed : list string) : R unit :=
  match list_find (fun f => f ∉ allowed) (map_keys object) with
  | Some (_, field) => Err (unsupported_field (Some scope) field)
  | None => Ok tt
  end.

(** [optional_string], [optional_bool] of [parse.rs] *)
Definition parse_optional_string (v : option Value) (field : string) : R (option string) :=
  match v with
  | None => Ok None
  | Some (JString s) => Ok (Some s)
  | Some _ => Err (invalid field)
  end.
Definition optional_bool (v : option Value) (field : string) : R (option bool) :=
  match v with
  | None => Ok None
  | Some (JBool b) => Ok (Some b)
  | Some _ => Err (invalid field)
  end.

(** [validate_loading_fields] *)
Definition validate_loading_fields (object : Map) : R bool :=
  d ← optional_bool (map_get "defer_loading" object) "tool.defer_loading";
  let deferred := default false d in
  match map_get "allowed_callers" object with
  | None => mret deferred
  | Some callers =>
      callers ← ok_or (as_array callers) (invalid "tool.allowed_callers must be an array");
      if negb (forallb is_string callers)
      then Err (invalid "tool.allowed_callers values must be strings")
      else if negb deferred && negb (existsb (fun c => bool_decide (as_str c = Some "direct")) callers)
      then Err (invalid "tool.allowed_callers excludes direct model calls")
      else mret deferred
  end.

(** [parse_function] *)
Definition parse_function (object : Map) (namespace : option string) : R ParsedTool :=
  _ ← reject_fields object "tools[]" ["type"; "name"; "description"; "parameters"; "strict";
        "defer_loading"; "output_schema"; "allowed_callers"];
  deferred ← validate_loading_fields object;
  if present (map_get "output_schema" object)
  then Err (invalid "function output_schema has no Chat Completions equivalent") else
  name ← required_string (map_get "name" object) "function tool.name";
  let identity := match namespace with
                  | None => IdFunction name | Some s => IdNamespaceFunction s name
                  end in
  description ← parse_optional_string (map_get "description" object) "function tool.description";
  parameters ← match map_get "parameters" object with
               | None => Ok (json_object [("type", JString "object"); ("properties", JObject [])])
               | Some v => if is_object v then Ok v
                           else Err (invalid "function tool.parameters must be an object")
               end;
  strict ← optional_bool (map_get "strict" object) "function tool.strict";
  mret (ParsedFunction identity description parameters (default false strict) deferred).

(** [parse_custom] *)
Definition parse_custom (object : Map) (namespace : option string) : R ParsedTool :=
  _ ← reject_fields object "tools[]" ["type"; "name"; "description"; "format"; "defer_loading"];
  deferred ← validate_loading_fields object;
  name ← required_string (map_get "name" object) "custom tool.name";
  let identity := match namespace with
                  | None => IdCustom name | Some s => IdNamespaceCustom s name
                  end in
  description ← parse_optional_string (map_get "description" object) "custom tool.description";
  format ← match map_get "format" object with
           | None => Ok None
           | Some v => if is_object v then Ok (Some v)
                       else Err (invalid "custom tool.format must be an object")
           end;
  mret (ParsedCustom identity description format deferred).

(** [parse_tool_search] *)
Definition parse_tool_search (object : Map) : R ParsedTool :=
  _ ← reject_fields object "tools[]" ["type"; "execution"; "description"; "parameters"];
  execution ← required_string (map_get "execution" object) "tool_search.execution";
  if negb (bool_decide (execution = "client"))
  then Err (invalid "only client-executed tool_search is supported") else
  description ← required_string (map_get "description" object) "tool_search.description";
  parameters ← ok_or (map_get "parameters" object ≫= fun v => if is_object v then Some v else None)
                 (invalid "tool_search.parameters must be an object");
  mret (ParsedToolSearch description parameters).

(** [prepend_description] *)
Definition prepend_description (t : ParsedTool) (namespace : option string) : ParsedTool :=
  match namespace with
  | None => t
  | Some namespace =>
      if str_is_empty namespace then t else
      let joined d := Some match d with
                           | None => namespace
                           | Some child => namespace +:+ String "010" (String "010" "") +:+ child
                           end in
      match t with
      | ParsedFunction i d p s f => ParsedFunction i (joined d) p s f
      | ParsedCustom i d o f => ParsedCustom i (joined d) o f
      | ParsedToolSearch _ _ => t
      end
  end.

(** One tool of a namespace *)
Definition parse_child (namespace : string) (description : option string) (tool : Value)
    : R ParsedTool :=
  child ← ok_or (as_object tool) (invalid "namespace tool must be an object");
  kind ← required_string (map_get "type" child) "namespace tool.type";
  parsed ← (if bool_decide (kind = "function") then parse_function child (Some namespace)
            else if bool_decide (kind = "custom") then parse_custom child (Some namespace)
            else Err (unsupported_value "namespace tool type" kind));
  mret (prepend_description parsed description).

(** [parse_namespace] *)
Definition parse_namespace (object : Map) : R (list ParsedTool) :=
  _ ← reject_fields object "tools[]" ["type"; "name"; "description"; "tools"];
  namespace ← required_string (map_get "name" object) "namespace.name";
  description ← parse_optional_string (map_get "description" object) "namespace.description";
  tools ← ok_or (opt_array (map_get "tools" object)) (invalid "namespace.tools must be an array");
  match tools with
  | [] => Err (invalid "namespace.tools must not be empty")
  | _ => each (parse_child namespace description) tools
  end.

(** [parse::top_level]: what it pushes *)
Definition top_level (value : Value) : R (list ParsedTool) :=
  object ← ok_or (as_object value) (invalid "tool must be an object");
  kind ← required_string (map_get "type" object) "tool.type";
  if bool_decide (kind = "function") then t ← parse_function object None; mret [t]
  else if bool_decide (kind = "custom") then t ← parse_custom object None; mret [t]
  else if bool_decide (kind = "namespace") then parse_namespace object
  else if bool_decide (kind = "tool_search") then t ← parse_tool_search object; mret [t]
  else Err (unsupported_value "tool type" kind).

(** The [for] of [configure] and [activate_loaded] over what was declared *)
Definition parse_tools (tools : list Value) : R (list ParsedTool) :=
  parsed ← each top_level tools; mret (concat parsed).

(** [validate_envelope_format] *)
Definition validate_envelope_format (format : option Value) : R unit :=
  match format with
  | None => Ok tt
  | Some format =>
      object ← ok_or (as_object format) (invalid "custom tool.format must be an object");
      if (Zlen object =? 1) && bool_decide (opt_str (map_get "type" object) = Some "text")
      then mret tt
      else Err (invalid "custom tool grammar requires native Chat custom tool support")
  end.

Definition opt_field (k : string) (v : option Value) : Map :=
  match v with Some v => [(k, v)] | None => [] end.

(** The schema of an envelope *)
Definition envelope_schema : Value :=
  json_object [("type", JString "object");
    ("properties", json_object [("input", json_object [("type", JString "string")])]);
    ("required", JArray [JString "input"]); ("additionalProperties", JBool false)].

(** [ParsedTool::into_chat_definition] *)
Definition into_chat_definition (t : ParsedTool) (p : ToolProjection) (chat_name : string)
    : R Value :=
  match t with
  | ParsedFunction _ description parameters strict _ =>
      mret (json_object [("type", JString "function"); ("function", json_object
        ([("name", JString chat_name)] ++ opt_field "description" (JString <$> description) ++
         [("parameters", parameters); ("strict", JBool strict)]))])
  | ParsedCustom _ description format _ =>
      if bool_decide (custom_tools (profile p) = Native) then
        mret (json_object [("type", JString "custom"); ("custom", json_object
          ([("name", JString chat_name)] ++ opt_field "description" (JString <$> description) ++
           opt_field "format" format))])
      else
        _ ← validate_envelope_format format;
        mret (json_object [("type", JString "function"); ("function", json_object
          ([("name", JString chat_name)] ++ opt_field "description" (JString <$> description) ++
           [("parameters", envelope_schema); ("strict", JBool true)]))])
  | ParsedToolSearch description parameters =>
      mret (json_object [("type", JString "function"); ("function", json_object
        [("name", JString chat_name); ("description", JString description);
         ("parameters", parameters); ("strict", JBool false)])])
  end.

(** [activate] of [definition.rs] *)
Definition activate_tool (tool : ParsedTool) (t : ToolProjection) : R ToolProjection :=
  chat_name ← ok_or (original_to_chat t !! tool_identity tool)
                (Internal "tool projection was not allocated");
  definition ← into_chat_definition tool t chat_name;
  projection_activate (tool_identity tool) definition t.

(** A loop that threads the projection *)
Fixpoint thread {A} (f : A -> ToolProjection -> R ToolProjection) (l : list A)
    (t : ToolProjection) : R ToolProjection :=
  match l with
  | [] => Ok t
  | x :: l => t ← f x t; thread f l t
  end.

Definition ensure_only (i : ToolIdentity) (t : ToolProjection) : R ToolProjection :=
  '(_, t) ← ensure_identity i t; mret t.
Definition configure_tool (tool : ParsedTool) (t : ToolProjection) : R ToolProjection :=
  if tool_is_deferred tool then Ok (register_deferred (tool_identity tool) t)
  else activate_tool tool t.
Definition is_tool_search (tool : ParsedTool) : bool :=
  match tool with ParsedToolSearch _ _ => true | _ => false end.

(** [configure] *)
Definition configure (value : option Value) (t : ToolProjection) : R ToolProjection :=
  match value with
  | None => Ok t
  | Some value =>
      tools ← ok_or (as_array value) (invalid "tools must be an array");
      parsed ← parse_tools tools;
      if existsb tool_is_deferred parsed && negb (existsb is_tool_search parsed)
      then Err (invalid "deferred tools require a client-executed tool_search tool") else
      let identities := tool_identity <$> parsed in
      if negb (bool_decide (NoDup identities))
      then Err (invalid "tool is declared more than once") else
      t ← thread ensure_only (merge_sort identity_le identities) t;
      thread configure_tool parsed t
  end.

(** The body of [activate_loaded] *)
Definition load_tool (tool : ParsedTool) (t : ToolProjection) : R ToolProjection :=
  if is_tool_search tool
  then Err (invalid "tool_search_output cannot dynamically load another tool_search")
  else if negb (tool_is_deferred tool)
  then Err (invalid "tool_search_output tools must retain defer_loading=true")
  else if negb (is_registered_deferred (tool_identity tool) t)
  then Err (invalid "tool_search_output returned an unregistered tool")
  else activate_tool tool t.
Definition activate_loaded (tools : list Value) (t : ToolProjection) : R ToolProjection :=
  parsed ← parse_tools tools; thread load_tool parsed t.

(** [function_choice] *)
Definition function_choice (choice : Map) (custom : bool) : R ToolIdentity :=
  name ← required_string (map_get "name" choice) "tool_choice.name";
  match map_get "namespace" choice with
  | None => mret (if custom then IdCustom name else IdFunction name)
  | Some namespace =>
      namespace ← required_string (Some namespace) "tool_choice.namespace";
      mret (if custom then IdNamespaceCustom namespace name else IdNamespaceFunction namespace name)
  end.

(** The tool a [tool_choice] object names *)
Definition choice_identity (choice : Map) (kind : string) : R ToolIdentity :=
  if bool_decide (kind = "function") then function_choice choice false
  else if bool_decide (kind = "custom") then function_choice choice true
  else if bool_decide (kind = "tool_search") then
    if contains_key "name" choice || contains_key "namespace" choice
    then Err (invalid "tool_search tool_choice cannot contain name or namespace")
    else mret IdToolSearch
  else if bool_decide (kind = "namespace")
  then Err (invalid "namespace-wide tool_choice has no Chat Completions equivalent")
  else Err (unsupported_value "tool_choice type" kind).

(** [project_tool_choice] *)
Definition project_tool_choice (value : Value) (t : ToolProjection) : R Value :=
  match as_str value with
  | Some choice =>
      if bool_decide (choice ∈ ["none"; "auto"; "required"]) then Ok value
      else Err (unsupported_value "tool_choice" choice)
  | None =>
      choice ← ok_or (as_object value) (invalid "tool_choice must be a string or object");
      _ ← reject_fields choice "tool_choice" ["type"; "name"; "namespace"];
      kind ← required_string (map_get "type" choice) "tool_choice.type";
      identity ← choice_identity choice kind;
      chat_name ← active_name identity t;
      mret match chat_kind identity (profile t) with
           | ChatFunction => json_object [("type", JString "function");
                               ("function", json_object [("name", JString chat_name)])]
           | ChatCustom => json_object [("type", JString "custom");
                             ("custom", json_object [("name", JString chat_name)])]
           end
  end.

(** * Names are legal *)

(** What the upstreams accept as the name of a tool *)
Definition all_token (s : string) : bool := forallb token_char (String.list_ascii_of_string s).
Definition legal_name (max : Z) (s : string) : Prop :=
  s <> "" /\ str_len s <= max /\ all_token s = true.

Lemma all_token_app a b : all_token (a +:+ b) = all_token a && all_token b.
Proof.
  unfold all_token. induction a as [|c a IH]; [done|]. simpl. rewrite IH. by rewrite andb_assoc.
Qed.

Lemma all_token_concat l : Forall (fun s => all_token s = true) l -> all_token (concat_chars l) = true.
Proof. induction 1 as [|s l Hs _ IH]; [done|]. simpl. rewrite all_token_app, Hs. done. Qed.

Lemma sanitize_token value : all_token (sanitize value) = true.
Proof.
  unfold sanitize. case_match; [done|]. apply all_token_concat, Forall_fmap, Forall_forall.
  intros ch _. simpl. unfold sanitize_char. destruct ch as [|c [|]]; [done| |done].
  destruct (token_char c) eqn:E; [|done]. unfold all_token. simpl. by rewrite E.
Qed.

Lemma desired_token i k : all_token (desired_name i k) = true.
Proof.
  destruct i as [n|n|s n|s n|]; simpl; try case_match; rewrite ?all_token_app, ?sanitize_token; done.
Qed.

Lemma sanitize_nonempty value : sanitize value <> "".
Proof. unfold sanitize, str_is_empty. case_bool_decide; done. Qed.

Lemma append_nonempty_l a b : a <> "" -> a +:+ b <> "".
Proof. by destruct a. Qed.

Lemma desired_nonempty i k : desired_name i k <> "".
Proof.
  destruct i as [n|n|s n|s n|]; simpl; try case_match; try done;
    try apply append_nonempty_l; apply sanitize_nonempty.
Qed.

Lemma token_not_continuation c : token_char c = true -> is_continuation c = false.
Proof.
  unfold token_char, is_continuation, byte_value. intros H. apply andb_false_iff. left.
  apply Z.leb_gt. repeat (apply orb_true_iff in H; destruct H as [H|H]);
    rewrite ?andb_true_iff, ?Nat.leb_le, ?Nat.eqb_eq in H; lia.
Qed.

Lemma chars_token s : all_token s = true ->
  chars s = (fun c => String c "") <$> String.list_ascii_of_string s.
Proof.
  unfold all_token. induction s as [|c s IH]; [done|]. simpl. intros [Hc Hs]%andb_true_iff.
  rewrite IH by done. destruct s as [|d s]; [done|]. simpl in *.
  apply andb_true_iff in Hs as [Hd _]. by rewrite token_not_continuation.
Qed.

Lemma length_list_ascii s : length (String.list_ascii_of_string s) = String.length s.
Proof. induction s as [|c s IH]; simpl; congruence. Qed.

Lemma concat_singles l : concat_chars ((fun c => String c "") <$> l) = String.string_of_list_ascii l.
Proof. induction l as [|c l IH]; [done|]. simpl. f_equal. apply IH. Qed.

Lemma length_string_of l : String.length (String.string_of_list_ascii l) = length l.
Proof. induction l as [|c l IH]; simpl; congruence. Qed.

Lemma take_chars_spec n s : all_token s = true -> 0 <= n ->
  all_token (take_chars n s) = true /\ str_len (take_chars n s) = Z.min n (str_len s).
Proof.
  intros Hs Hn. unfold take_chars. rewrite chars_token, <-fmap_take, concat_singles by done.
  split.
  - unfold all_token in *. rewrite String.list_ascii_of_string_of_list_ascii.
    rewrite <-(take_drop (Z.to_nat n) (String.list_ascii_of_string s)), forallb_app in Hs. by apply andb_true_iff in Hs as [-> _].
  - unfold str_len. rewrite length_string_of, length_take, length_list_ascii. lia.
Qed.

Lemma hex_digit_token n : (n < 16)%N -> token_char (hex_digit n) = true.
Proof.
  intros H. assert (Hall : forallb (fun m => token_char (hex_digit (N.of_nat m))) (seq 0 16) = true)
    by reflexivity.
  rewrite forallb_forall in Hall. rewrite <-(N2Nat.id n). apply Hall, in_seq. lia.
Qed.

Lemma hex_byte_spec b : all_token (hex_byte b) = true /\ String.length (hex_byte b) = 2%nat.
Proof.
  split; [|done]. unfold all_token, hex_byte. simpl. pose proof (Byte.to_N_bounded b).
  rewrite !hex_digit_token; [done|by apply N.mod_lt|]. apply N.Div0.div_lt_upper_bound. lia.
Qed.

Lemma concat_chars_length n l : Forall (fun s => String.length s = n) l ->
  String.length (concat_chars l) = (n * length l)%nat.
Proof.
  induction 1 as [|s l Hs _ IH]; simpl; [lia|]. rewrite string_length_app, Hs, IH. lia.
Qed.

Lemma digest_suffix_spec input :
  all_token (digest_suffix input) = true /\ str_len (digest_suffix input) <= 12.
Proof.
  unfold digest_suffix. split.
  - apply all_token_concat, Forall_fmap, Forall_forall. intros b _. apply hex_byte_spec.
  - unfold str_len. rewrite (concat_chars_length 2).
    + rewrite length_fmap, length_take. lia.
    + apply Forall_fmap, Forall_forall. intros b _. apply hex_byte_spec.
Qed.

Lemma str_len_app a b : str_len (a +:+ b) = str_len a + str_len b.
Proof. unfold str_len. rewrite string_length_app. lia. Qed.

Lemma project_name_legal i k max collides name :
  project_name i k max collides = Ok name -> legal_name max name /\ collides name = false.
Proof.
  unfold project_name, legal_name. destruct (max <? 17) eqn:Hmax; [done|]. bool_to_prop.
  pose proof (desired_token i k) as Ht. pose proof (desired_nonempty i k) as Hne.
  case_match eqn:E1.
  - intros [= <-]. bool_to_prop. split_and!; [done| |done|done].
    revert H1. rewrite chars_token by done. unfold Zlen, str_len. rewrite length_fmap, length_list_ascii. done.
  - destruct (digest_suffix_spec (canonical i)) as [Hs Hl].
    set (pc := saturating_sub _ _). assert (Hpc : pc = max - (str_len (digest_suffix (canonical i)) + 1)).
    { unfold pc, saturating_sub. lia. }
    assert (0 <= pc) by lia. clearbody pc.
    set (prefix := if str_is_empty _ then _ else _). assert (Hp : all_token prefix = true /\ str_len prefix <= pc).
    { unfold prefix. case_match.
      - destruct (take_chars_spec pc "tool") as [? ->]; [done..|]. split; [done|lia].
      - destruct (take_chars_spec pc (desired_name i k)) as [? ->]; [done..|]. split; [done|lia]. }
    destruct Hp as [Hp1 Hp2]. clearbody prefix. case_match eqn:E2; [done|]. intros [= <-].
    split_and!; [|rewrite !str_len_app; unfold str_len at 2; simpl; lia|
      by rewrite !all_token_app, Hp1, Hs|done].
    intros E. apply (f_equal str_len) in E. rewrite !str_len_app in E. unfold str_len in E.
    simpl in E. lia.
Qed.

(** * The projection is invertible *)

(** Every tool that has a name is the tool of that name, under the kind it is
    offered as, and the names are legal; what is offered has a tool. *)
Record projection_ok (t : ToolProjection) : Prop := {
  ok_forward i n : original_to_chat t !! i = Some n ->
    chat_to_original t !! (chat_kind i (profile t), n) = Some i;
  ok_back k n i : chat_to_original t !! (k, n) = Some i ->
    original_to_chat t !! i = Some n /\ k = chat_kind i (profile t);
  ok_legal i n : original_to_chat t !! i = Some n ->
    legal_name (tool_name_max_chars (profile t)) n;
  ok_active k n : (k, n) ∈ active t -> is_Some (chat_to_original t !! (k, n))
}.

(** The parts of a profile the names depend on *)
Definition same_tools (p q : OpenAiChatCompletionsProfile) : Prop :=
  custom_tools p = custom_tools q /\ tool_name_max_chars p = tool_name_max_chars q.

(** What is known stays known, and the profile stays. *)
Definition extends (t t' : ToolProjection) : Prop :=
  profile t' = profile t /\ original_to_chat t ⊆ original_to_chat t' /\
  chat_to_original t ⊆ chat_to_original t' /\ active t ⊆ active t'.

#[export] Instance extends_preorder : PreOrder extends.
Proof.
  split; [by intros t|]. intros t1 t2 t3 (E1 & ? & ? & ?) (E2 & ? & ? & ?).
  split; [congruence|]. split_and!; etrans; eauto.
Qed.

(** An operation on projections that keeps them in order and forgets nothing *)
Definition sound_op (f : ToolProjection -> R ToolProjection) : Prop :=
  forall t t', f t = Ok t' -> projection_ok t -> projection_ok t' /\ extends t t'.

Lemma chat_kind_same i p q : same_tools p q -> chat_kind i p = chat_kind i q.
Proof. intros [E _]. unfold chat_kind. by rewrite E. Qed.

Lemma projection_new_ok p previous :
  (forall t, previous = Some t -> projection_ok t /\ same_tools (profile t) p) ->
  projection_ok (projection_new p previous).
Proof.
  intros H. destruct previous as [t|]; [|by split; intros; simpl in *].
  destruct (H t eq_refl) as [[Hf Hb Hl Ha] Hs]. split; simpl.
  - intros i n E. rewrite <-(chat_kind_same i _ _ Hs). auto.
  - intros k n i E. rewrite <-(chat_kind_same i _ _ Hs). auto.
  - intros i n E. destruct Hs as [_ <-]. eauto.
  - set_solver.
Qed.

Lemma with_identity_ok i n t : projection_ok t -> original_to_chat t !! i = None ->
  name_taken i t n = false -> legal_name (tool_name_max_chars (profile t)) n ->
  projection_ok (with_identity i n t).
Proof.
  intros [Hf Hb Hl Ha] Hi Hn Hleg. unfold name_taken in Hn.
  assert (Hfree : chat_to_original t !! (chat_kind i (profile t), n) = None).
  { destruct (chat_to_original t !! _) as [j|] eqn:E; [|done]. apply bool_decide_eq_false in Hn.
    apply dec_stable in Hn as ->. apply Hb in E as [E _]. congruence. }
  split; simpl.
  - intros j m. rewrite lookup_insert_Some. intros [[<- <-]|[Hne E]]; [by rewrite lookup_insert_eq|].
    rewrite lookup_insert_ne; [auto|]. intros [= E1 E2]. subst m. apply Hf in E. congruence.
  - intros k m j. rewrite lookup_insert_Some. intros [[[= <- <-] <-]|[Hne E]].
    + by rewrite lookup_insert_eq.
    + apply Hb in E as [E ->]. split; [|done]. rewrite lookup_insert_ne; congruence.
  - intros j m. rewrite lookup_insert_Some. intros [[_ <-]|[_ E]]; eauto.
  - intros k m E. apply lookup_insert_is_Some'. right. auto.
Qed.

Lemma ensure_identity_ok i t n t' : ensure_identity i t = Ok (n, t') -> projection_ok t ->
  projection_ok t' /\ extends t t' /\ original_to_chat t' !! i = Some n /\ active t' = active t.
Proof.
  unfold ensure_identity. destruct (original_to_chat t !! i) as [m|] eqn:E.
  { intros [= -> ->] Hok. by split_and!. }
  intros H Hok. runs H. apply project_name_legal in H0 as [Hleg Hn].
  split_and!; [by apply with_identity_ok| |by apply lookup_insert_eq|done].
  split_and!; [done|by apply insert_subseteq| |done].
  simpl. destruct (chat_to_original t !! (chat_kind i (profile t), a)) as [j|] eqn:Ej.
  - unfold name_taken in Hn. rewrite Ej in Hn. apply bool_decide_eq_false, dec_stable in Hn as ->.
    by rewrite insert_id.
  - by apply insert_subseteq.
Qed.

Lemma ensure_only_sound i : sound_op (ensure_only i).
Proof.
  intros t t' H Hok. unfold ensure_only in H. runs H. destruct a as [n t1]. runs H.
  destruct (ensure_identity_ok _ _ _ _ H0 Hok) as (? & ? & _). done.
Qed.

Lemma projection_activate_sound i d : sound_op (projection_activate i d).
Proof.
  intros t t' H Hok. unfold projection_activate in H. runs H. destruct a as [n t1].
  destruct (ensure_identity_ok _ _ _ _ H0 Hok) as (Hok1 & Hex & Hi & Ha).
  case_match; [done|]. runs H. split.
  - destruct Hok1 as [Hf Hb Hl Hac]. split; simpl; [done..|].
    intros k m [E|E]%elem_of_union; [|auto]. apply elem_of_singleton in E as [= -> ->].
    rewrite (Hf _ _ Hi). eauto.
  - destruct Hex as (E & ? & ? & ?). split_and!; simpl; [done..|]. set_solver.
Qed.

Lemma register_deferred_sound i : sound_op (fun t => Ok (register_deferred i t)).
Proof. intros t t' [= <-] [Hf Hb Hl Ha]. split; [by split|by split]. Qed.

Lemma activate_tool_sound tool : sound_op (activate_tool tool).
Proof.
  intros t t' H Hok. unfold activate_tool in H. runs H. by eapply projection_activate_sound.
Qed.

Lemma thread_sound {A} (f : A -> ToolProjection -> R ToolProjection) l :
  (forall x, sound_op (f x)) -> sound_op (thread f l).
Proof.
  intros Hf. induction l as [|x l IH]; intros t t' H Hok; [by injection H as <-|].
  simpl in H. runs H. destruct (Hf _ _ _ H0 Hok) as [Hok1 ?].
  destruct (IH _ _ H Hok1) as [? ?]. split; [done|]. by etrans.
Qed.

Lemma configure_tool_sound tool : sound_op (configure_tool tool).
Proof.
  unfold configure_tool. destruct (tool_is_deferred tool);
    [apply register_deferred_sound | apply activate_tool_sound].
Qed.

Lemma configure_sound value : sound_op (configure value).
Proof.
  intros t t' H Hok. unfold configure in H. destruct value as [v|]; [|by injection H as <-].
  runs H. case_match; [done|]. case_match; [done|]. runs H.
  destruct (thread_sound _ _ ensure_only_sound _ _ H4 Hok) as [Hok1 Hx].
  destruct (thread_sound _ _ configure_tool_sound _ _ H Hok1) as [? ?].
  split; [done|]. by etrans.
Qed.

Lemma activate_loaded_sound tools : sound_op (activate_loaded tools).
Proof.
  intros t t' H Hok. unfold activate_loaded in H. runs H.
  refine (thread_sound load_tool _ _ _ _ H Hok).
  intros tool. unfold load_tool. intros u u' Hu. repeat case_match; try done.
  exact (activate_tool_sound _ _ _ Hu).
Qed.

Lemma project_source_call_ok object k t pc t' :
  project_source_call object k t = Ok (pc, t') -> projection_ok t ->
  projection_ok t' /\ extends t t' /\ active t' = active t.
Proof.
  unfold project_source_call. intros H Hok. runs H. case_match; [done|]. runs H.
  destruct a0 as [n t1]. runs H.
  destruct (ensure_identity_ok _ _ _ _ H2 Hok) as (? & ? & _ & ?). done.
Qed.

End tools.

(** * A projection with a function and a custom tool, for the baseline profile *)

Definition sample_sha (l : list Byte.byte) : list Byte.byte := take 6 (l ++ repeat Byte.x61 6).
Definition sample_tools_json : Value :=
  JArray [json_object [("type", JString "function"); ("name", JString "look")];
          json_object [("type", JString "custom"); ("name", JString "run")]].
Definition sample_tools : ToolProjection :=
  match configure sample_sha (Some sample_tools_json) (projection_new COMPATIBLE_BASELINE None) with
  | Ok t => t | Err _ => projection_new COMPATIBLE_BASELINE None
  end.
Definition sample_name (i : ToolIdentity) : string := default "" (original_to_chat sample_tools !! i).

Lemma sample_tools_configured :
  configure sample_sha (Some sample_tools_json) (projection_new COMPATIBLE_BASELINE None) = Ok sample_tools.
Proof.
  assert (E : is_ok (configure sample_sha (Some sample_tools_json)
    (projection_new COMPATIBLE_BASELINE None)) = true) by (vm_compute; reflexivity).
  unfold sample_tools. by destruct (configure _ _ _).
Qed.

Lemma sample_tools_ok : projection_ok sample_tools.
Proof.
  eapply (configure_sound sample_sha); [exact sample_tools_configured|]. by apply projection_new_ok.
Qed.
