(* ===== verification/ChatResponse.v ===== *)
(** Answers of Chat Completions as answers of the Responses API: the buffered
    conversion and what it shares with the streamed one
    ([crates/protocol/src/openai_responses_chat/response.rs] with its modules
    [items.rs], [metadata.rs] and [usage.rs], and [response_projection.rs]).

    The clock is read once, when the projection of an answer is made. *)

From Stdlib Require Import Ascii.
From stdpp Require Import pretty.
From S2P Require Import Prelude Search Protocol Text Cost JsonValue ChatTools.

Local Open Scope Z_scope.

(** * The frame of an answer *)

Record ResponseProjection := {
  response_id : string;
  projection_created_at : Z;
  upstream_model : string;
  echoed_fields : Map
}.

Definition ECHO_FIELDS : list string :=
  ["instructions"; "max_output_tokens"; "parallel_tool_calls"; "previous_response_id"; "reasoning";
   "text"; "tool_choice"; "tools"; "temperature"; "top_p"; "service_tier"; "store"; "metadata"].

(** [ResponseProjection::new], with the seconds the clock shows *)
Definition response_projection_new (id model : string) (request : Value) (now : Z)
    : ResponseProjection :=
  let copied := match as_object request with
                | Some source =>
                    foldl (fun m field => match map_get field source with
                                          | Some v => map_insert field v m
                                          | None => m
                                          end) [] ECHO_FIELDS
                | None => []
                end in
  {| response_id := id; projection_created_at := now; upstream_model := model;
     echoed_fields :=
       or_insert "tools" (JArray []) (or_insert "parallel_tool_calls" (JBool true) copied) |}.

(** [ResponseProjection::base_response], as the fields of the object *)
Definition base_fields (p : ResponseProjection) (status : string) (output : list Value)
    (created_at : Z) (model : string) (usage : Value) : Map :=
  map_extend
    (fields [("id", JString (response_id p)); ("object", JString "response");
             ("created_at", num created_at); ("status", JString status);
             ("model", JString model); ("output", JArray output); ("error", JNull);
             ("incomplete_details", JNull); ("usage", usage)])
    (echoed_fields p).

(** * Items *)

Definition message_item_id (id : string) : string := "msg_" +:+ id.
Definition reasoning_item_id (id : string) : string := "rs_" +:+ id.
Definition function_call_item_id (id : string) (index : Z) : string :=
  "fc_" +:+ id +:+ "_" +:+ pretty index.
Definition custom_call_item_id (id : string) (index : Z) : string :=
  "ctc_" +:+ id +:+ "_" +:+ pretty index.
Definition tool_search_call_item_id (id : string) (index : Z) : string :=
  "tsc_" +:+ id +:+ "_" +:+ pretty index.

Definition text_part (text : string) : Value :=
  json_object [("type", JString "output_text"); ("text", JString text); ("annotations", JArray [])].
Definition summary_part (text : string) : Value :=
  json_object [("type", JString "summary_text"); ("text", JString text)].

Definition message_item (id text : string) : Value :=
  json_object [("id", JString (message_item_id id)); ("type", JString "message");
    ("status", JString "completed"); ("role", JString "assistant");
    ("content", JArray [text_part text])].
Definition reasoning_item (id text : string) : Value :=
  json_object [("id", JString (reasoning_item_id id)); ("type", JString "reasoning");
    ("status", JString "completed"); ("summary", JArray [summary_part text])].

(** [restored_call_item], as the fields of the object *)
Definition call_fields (id : string) (index : Z) (call_id : string) (call : RestoredToolCall)
    (status : string) : Map :=
  match call with
  | RestoredFunction name namespace arguments =>
      fields ([("id", JString (function_call_item_id id index)); ("type", JString "function_call");
               ("status", JString status); ("call_id", JString call_id); ("name", JString name);
               ("arguments", JString arguments)] ++ opt_field "namespace" (JString <$> namespace))
  | RestoredCustom name namespace input =>
      fields ([("id", JString (custom_call_item_id id index)); ("type", JString "custom_tool_call");
               ("status", JString status); ("call_id", JString call_id); ("name", JString name);
               ("input", JString input)] ++ opt_field "namespace" (JString <$> namespace))
  | RestoredToolSearch arguments =>
      fields [("id", JString (tool_search_call_item_id id index));
              ("type", JString "tool_search_call"); ("status", JString status);
              ("call_id", JString call_id); ("execution", JString "client");
              ("arguments", arguments)]
  end.
Definition restored_call_item (id : string) (index : Z) (call_id : string)
    (call : RestoredToolCall) (status : string) : Value :=
  JObject (call_fields id index call_id call status).

(** * Metadata and usage *)

Definition metadata_created_at (v : option Value) (fallback : Z) : R Z :=
  match v with
  | None | Some JNull => Ok fallback
  | Some v => ok_or (as_u64 v) (invalid "Chat Completions created must be a non-negative integer")
  end.
Definition response_model (v : option Value) (fallback : string) : R string :=
  match v with
  | None | Some JNull => Ok fallback
  | Some (JString s) =>
      if str_is_empty s then Err (invalid "Chat Completions model must be a non-empty string")
      else Ok s
  | Some _ => Err (invalid "Chat Completions model must be a non-empty string")
  end.

(** The value at the end of a path of keys *)
Definition at_path (v : option Value) (path : list string) : option Value :=
  foldl (fun current part => current ≫= get part) v path.

Definition required_token (v : option Value) (field : string) : R Z :=
  ok_or (opt_u64 v) (InvalidPayload (field +:+ " must be an integer")).
Definition optional_token (v : Value) (path : list string) : R (option Z) :=
  match at_path (Some v) path with
  | None | Some JNull => Ok None
  | Some v => n ← ok_or (as_u64 v) (invalid "Chat Completions usage token counts must be integers");
              mret (Some n)
  end.
Definition token (v : option Value) (path : list string) : option Z := opt_u64 (at_path v path).

Definition cached_tokens (v : Value) (p : OpenAiChatCompletionsProfile) : R (option Z) :=
  let nested := optional_token v ["prompt_tokens_details"; "cached_tokens"] in
  let top_level := optional_token v ["cached_tokens"] in
  match cached_tokens_field p with
  | PromptTokensDetails => nested
  | TopLevel => top_level
  | PromptTokensDetailsOrTopLevel =>
      a ← nested; b ← top_level;
      match a, b with
      | Some x, Some y =>
          if x =? y then mret (Some x)
          else Err (invalid "Chat Completions usage contains conflicting cached token counts")
      | Some n, None | None, Some n => mret (Some n)
      | None, None => mret None
      end
  end.

Definition responses_usage (v : option Value) (p : OpenAiChatCompletionsProfile) : R Value :=
  match v with
  | None | Some JNull => Ok JNull
  | Some v =>
      usage ← ok_or (as_object v) (invalid "Chat Completions usage must be an object or null");
      prompt ← required_token (map_get "prompt_tokens" usage) "usage.prompt_tokens";
      completion ← required_token (map_get "completion_tokens" usage) "usage.completion_tokens";
      cached ← cached_tokens v p;
      reasoning ← optional_token v ["completion_tokens_details"; "reasoning_tokens"];
      mret (json_object [("input_tokens", num prompt); ("output_tokens", num completion);
        ("total_tokens", num (saturating_add u64_max prompt completion));
        ("input_tokens_details", json_object [("cached_tokens", num (default 0 cached))]);
        ("output_tokens_details", json_object [("reasoning_tokens", num (default 0 reasoning))])])
  end.

(** [token_usage]; the name is taken by a field. *)
Definition chat_token_usage (v : option Value) (p : OpenAiChatCompletionsProfile) : R TokenUsage :=
  cached ← match v with None => Ok None | Some v => cached_tokens v p end;
  mret (usage_new (token v ["prompt_tokens"]) (token v ["completion_tokens"]) cached).

(** * Reasons to stop *)

Definition incomplete_reason (finish_reason : string) : option string :=
  if bool_decide (finish_reason = "length") then Some "max_output_tokens"
  else if bool_decide (finish_reason = "content_filter") then Some "content_filter"
  else None.

Definition validate_finish_reason (value : string) : R unit :=
  if bool_decide (value ∈ ["stop"; "length"; "tool_calls"; "content_filter"]) then Ok tt
  else Err (unsupported_value "finish_reason" value).

Definition finish_reason_of (v : option Value) : R string :=
  value ← ok_or (opt_str v) (invalid "Chat Completions finish_reason must be a string");
  _ ← validate_finish_reason value;
  mret value.

(** The status of an answer, and the object with the reason it is incomplete *)
Definition final_status (reason : option string) : string :=
  match reason with Some _ => "incomplete" | None => "completed" end.
Definition with_incomplete (reason : option string) (response : Map) : Map :=
  match reason with
  | Some r => map_insert "incomplete_details" (json_object [("reason", JString r)]) response
  | None => response
  end.

(** * The message *)

Definition UNSUPPORTED_OUTPUTS : list string := ["function_call"; "refusal"; "audio"].

Definition validate_message (message : Map) : R unit :=
  if negb (bool_decide (opt_str (map_get "role" message) = Some "assistant"))
  then Err (invalid "Chat Completions response message role must be assistant")
  else if existsb (fun f => present (map_get f message)) UNSUPPORTED_OUTPUTS
  then Err (invalid "Chat Completions response contains an unsupported output")
  else Ok tt.

(** One part of an array of content *)
Definition content_part_text (part : Value) : R string :=
  match part with
  | JString s => Ok s
  | JObject m =>
      if bool_decide (opt_str (map_get "type" m) = Some "text")
      then required_string (map_get "text" m) "assistant text content"
      else Err (invalid "assistant content part type is unsupported")
  | _ => Err (invalid "assistant content part type is unsupported")
  end.

Definition message_text (message : Map) : R (option string) :=
  match map_get "content" message with
  | None | Some JNull => Ok None
  | Some (JString s) => Ok (Some s)
  | Some (JArray parts) => texts ← each content_part_text parts; mret (Some (concat_chars texts))
  | Some _ => Err (invalid "assistant content must be null, a string, or an array")
  end.

Definition optional_reasoning (v : option Value) : R (option string) :=
  match v with
  | None | Some JNull => Ok None
  | Some (JString s) => Ok (Some s)
  | Some _ => Err (invalid "Chat reasoning content must be a string")
  end.

(** The reasoning a profile lets through, of the two fields that may carry it *)
Definition choose_reasoning (p : OpenAiChatCompletionsProfile) (content reasoning : option string)
    (conflict : string) : R (option string) :=
  match reasoning_response p with
  | ReasoningUnsupported =>
      match content, reasoning with
      | None, None => Ok None
      | _, _ => Err (invalid "Chat target returned unsupported reasoning content")
      end
  | ReasoningContent =>
      match reasoning with
      | Some _ => Err (invalid "Chat target returned an undeclared reasoning field")
      | None => Ok content
      end
  | Reasoning =>
      match content with
      | Some _ => Err (invalid "Chat target returned an undeclared reasoning field")
      | None => Ok reasoning
      end
  | ReasoningContentOrReasoning =>
      match content, reasoning with
      | Some x, Some y => if bool_decide (x = y) then Ok (Some x) else Err (invalid conflict)
      | Some v, None | None, Some v => Ok (Some v)
      | None, None => Ok None
      end
  end.

Definition reasoning_text (message : Map) (p : OpenAiChatCompletionsProfile) : R (option string) :=
  content ← optional_reasoning (map_get "reasoning_content" message);
  reasoning ← optional_reasoning (map_get "reasoning" message);
  choose_reasoning p content reasoning "Chat target returned conflicting reasoning fields".

Section response.
Context {JT : JsonText}.

(** [restore_tool_call] *)
Definition restore_tool_call (call : Map) (t : ToolProjection) : R RestoredToolCall :=
  match opt_str (map_get "type" call) with
  | Some kind =>
      if bool_decide (kind = "function") then
        function ← ok_or (opt_object (map_get "function" call))
                     (invalid "function tool call payload is missing");
        name ← required_string (map_get "name" function) "tool call name";
        arguments ← required_string_allow_empty (map_get "arguments" function) "tool call arguments";
        restore_call ChatFunction name arguments t
      else if bool_decide (kind = "custom") then
        custom ← ok_or (opt_object (map_get "custom" call))
                   (invalid "custom tool call payload is missing");
        name ← required_string (map_get "name" custom) "custom tool call name";
        input ← required_string_allow_empty (map_get "input" custom) "custom tool call input";
        restore_call ChatCustom name input t
      else Err (unsupported_value "tool call type" kind)
  | None => Err (invalid "Chat Completions tool call type is required")
  end.

(** The loop of [append_tool_calls], from position [index] on *)
Fixpoint append_calls (id : string) (t : ToolProjection) (index : Z) (seen : list string)
    (calls : list Value) : R (list Value) :=
  match calls with
  | [] => Ok []
  | call :: calls =>
      object ← ok_or (as_object call) (invalid "Chat Completions tool call must be an object");
      call_id ← required_string (map_get "id" object) "tool call id";
      if bool_decide (call_id ∈ seen)
      then Err (invalid "Chat Completions tool call ids must be unique") else
      restored ← restore_tool_call object t;
      items ← append_calls id t (index + 1) (call_id :: seen) calls;
      mret (restored_call_item id index call_id restored "completed" :: items)
  end.
Definition append_tool_calls (message : Map) (id : string) (t : ToolProjection) : R (list Value) :=
  match map_get "tool_calls" message with
  | None => Ok []
  | Some v =>
      calls ← ok_or (as_array v) (invalid "Chat Completions tool_calls must be an array");
      append_calls id t 0 [] calls
  end.

(** Whether a message has tool calls at all *)
Definition has_tool_calls (message : Map) : bool :=
  match opt_array (map_get "tool_calls" message) with Some (_ :: _) => true | _ => false end.

(** [text] as the one item it becomes, unless it is missing or empty *)
Definition text_item (make : string -> Value) (text : option string) : list Value :=
  match text with
  | Some s => if str_is_empty s then [] else [make s]
  | None => []
  end.

Record ConvertedResponse := { converted_body : Value; converted_message : Value }.

(** [convert] *)
Definition response_convert (body : Value) (p : ResponseProjection) (t : ToolProjection)
    (profile : OpenAiChatCompletionsProfile) : R ConvertedResponse :=
  choices ← ok_or (opt_array (get "choices" body))
              (invalid "Chat Completions response has no choices");
  choice ← match choices with
           | [choice] => ok_or (as_object choice) (invalid "Chat Completions choice must be an object")
           | _ => Err (invalid "Chat Completions response must contain exactly one choice")
           end;
  if negb (bool_decide (opt_u64 (map_get "index" choice) = Some 0))
  then Err (invalid "Chat Completions choice index must be 0") else
  finish_reason ← finish_reason_of (map_get "finish_reason" choice);
  message ← ok_or (opt_object (map_get "message" choice))
              (invalid "Chat Completions choice has no message");
  _ ← validate_message message;
  reasoning ← reasoning_text message profile;
  text ← message_text message;
  calls ← append_tool_calls message (response_id p) t;
  if bool_decide (finish_reason = "tool_calls") && negb (has_tool_calls message)
  then Err (invalid "finish_reason tool_calls requires at least one tool call") else
  if negb (bool_decide (finish_reason = "tool_calls")) && has_tool_calls message
  then Err (invalid "Chat Completions tool calls require finish_reason tool_calls") else
  let output := text_item (reasoning_item (response_id p)) reasoning ++
                text_item (message_item (response_id p)) text ++ calls in
  let reason := incomplete_reason finish_reason in
  created_at ← metadata_created_at (get "created" body) (projection_created_at p);
  model ← response_model (get "model" body) (upstream_model p);
  usage ← responses_usage (get "usage" body) profile;
  mret {| converted_body := JObject (with_incomplete reason
            (base_fields p (final_status reason) output created_at model usage));
          converted_message := JObject message |}.
End response.

(** * Calls come back as they went *)

(** The call that an input item describes *)
Definition described_call (object : Map) (k : SourceCallKind) : option RestoredToolCall :=
  let namespace := opt_str (map_get "namespace" object) in
  match k with
  | SourceFunction =>
      name ← opt_str (map_get "name" object); arguments ← opt_str (map_get "arguments" object);
      Some (RestoredFunction name namespace arguments)
  | SourceCustom =>
      name ← opt_str (map_get "name" object); input ← opt_str (map_get "input" object);
      Some (RestoredCustom name namespace input)
  | SourceToolSearch => RestoredToolSearch <$> map_get "arguments" object
  end.

Lemma allow_empty_inv v field s : required_string_allow_empty v field = Ok s -> opt_str v = Some s.
Proof. apply ok_or_Ok. Qed.

Lemma required_string_inv v field s : required_string v field = Ok s -> opt_str v = Some s /\ s <> "".
Proof.
  unfold required_string. intros H. runs H. apply allow_empty_inv in H0.
  unfold str_is_empty in H. case_bool_decide; [done|]. runs H. done.
Qed.

Lemma required_string_Ok s field : s <> "" -> required_string (Some (JString s)) field = Ok s.
Proof. intros H. unfold required_string, str_is_empty. simpl. by rewrite bool_decide_false. Qed.

Lemma call_namespace v field o : call_optional_string v field = Ok o -> opt_str v = o.
Proof.
  destruct v as [[]|]; simpl; try (by intros [= <-]); try done.
  case_match; [done|]. by intros [= <-].
Qed.

Section roundtrip.
Context {JT : JsonText} {JL : JsonTextLaws}.

(** A name that is offered is the name of its tool. *)
Lemma offered_identity i n t : projection_ok t -> original_to_chat t !! i = Some n ->
  (chat_kind i (profile t), n) ∈ active t -> active_identity (chat_kind i (profile t)) n t = Ok i.
Proof.
  intros Hok Hi Ha. unfold active_identity. rewrite bool_decide_true by done.
  by rewrite (ok_forward _ Hok _ _ Hi).
Qed.

(** A call in the shape of its kind *)
Definition call_shape (k : ChatToolKind) (name payload : string) : Value :=
  match k with ChatFunction => function_call name payload | ChatCustom => custom_call name payload end.

Lemma restore_shape k n payload t : n <> "" ->
  exists m, as_object (call_shape k n payload) = Some m /\
    restore_tool_call m t = restore_call k n payload t.
Proof.
  intros Hn. destruct k; (eexists; split; [reflexivity|]; unfold restore_tool_call; simpl;
    rewrite required_string_Ok by done; done).
Qed.

(** An input that is sent in its envelope, or as it is where the upstream has
    custom tools, comes back. *)
Lemma custom_input_back i input t : source_call_kind i = SourceCustom ->
  custom_input (if bool_decide (chat_kind i (profile t) = ChatCustom) then input
                else to_string (envelope input)) t = Ok input.
Proof.
  intros Hk. unfold custom_input.
  assert (bool_decide (chat_kind i (profile t) = ChatCustom)
          = bool_decide (custom_tools (profile t) = Native)) as ->.
  { destruct i; try done; simpl; by repeat case_bool_decide. }
  case_bool_decide; [done|].
  change (envelope input) with (JObject [("input", JString input)]). rewrite envelope_text. done.
Qed.

Lemma source_identity_inv object k i : source_identity object k = Ok i ->
  match k with
  | SourceToolSearch => i = IdToolSearch
  | SourceFunction => exists name, opt_str (map_get "name" object) = Some name /\
      i = match opt_str (map_get "namespace" object) with
          | None => IdFunction name | Some s => IdNamespaceFunction s name end
  | SourceCustom => exists name, opt_str (map_get "name" object) = Some name /\
      i = match opt_str (map_get "namespace" object) with
          | None => IdCustom name | Some s => IdNamespaceCustom s name end
  end.
Proof.
  destruct k; simpl; intros H; [| |by injection H as <-];
    apply R_bind_Ok in H as (n & Hn & H); apply R_bind_Ok in H as (o & Ho & H); injection H as <-;
    apply required_string_inv in Hn as [Hn _]; apply call_namespace in Ho as ->; eauto.
Qed.

(** What a projected call carries *)
Definition carries (object : Map) (k : SourceCallKind) (kind : ChatToolKind) (payload : string)
    : Prop :=
  match k with
  | SourceFunction => opt_str (map_get "arguments" object) = Some payload
  | SourceCustom => exists input, opt_str (map_get "input" object) = Some input /\
      payload = if bool_decide (kind = ChatCustom) then input else to_string (envelope input)
  | SourceToolSearch => exists a, map_get "arguments" object = Some a /\ payload = to_string a
  end.

Lemma projected_call sha256 object k t pc t' :
  project_source_call sha256 object k t = Ok (pc, t') ->
  source_identity object k = Ok (call_identity pc) /\
  exists name payload, ensure_identity sha256 (call_identity pc) t = Ok (name, t') /\
    chat_call pc = call_shape (chat_kind (call_identity pc) (profile t')) name payload /\
    carries object k (chat_kind (call_identity pc) (profile t')) payload.
Proof.
  intros H. unfold project_source_call in H. apply R_bind_Ok in H as (i & Hi & H).
  case_match; [done|]. apply R_bind_Ok in H as ([n t1] & Hn & H).
  apply R_bind_Ok in H as (c & Hc & H). injection H as <- <-. simpl. split; [done|]. exists n.
  apply source_identity_inv in Hi. destruct k; cbv beta iota in Hc, Hi.
  - destruct Hi as (nm & _ & ->).
    apply R_bind_Ok in Hc as (a & Ha & Hc). injection Hc as <-. exists a.
    apply required_string_inv in Ha as [Ha _]. split_and!; [done|by destruct (opt_str (map_get "namespace" object))|done].
  - apply R_bind_Ok in Hc as (a & Ha & Hc). apply allow_empty_inv in Ha.
    exists (if bool_decide (chat_kind i (profile t1) = ChatCustom) then a else to_string (envelope a)).
    split_and!; [done| |by exists a]. case_bool_decide as E; injection Hc as <-; [by rewrite E|].
    by destruct (chat_kind i (profile t1)).
  - subst i. apply R_bind_Ok in Hc as (x & _ & Hc). case_match; [done|].
    apply R_bind_Ok in Hc as (a & Ha & Hc). apply ok_or_Ok in Ha. injection Hc as <-.
    exists (to_string a). split_and!; [done|done|by exists a].
Qed.

(** C22. A tool call survives the way to a Chat Completions upstream and back: when
    the call an input item describes is projected, under the name its tool is
    offered as, then what a Chat Completions message makes of the projected
    call is the call that was described, with its name, its namespace and its
    arguments or input.  (What a tool search carries is any JSON value, which
    has to survive being printed and read.) *)
Theorem tool_call_roundtrip sha256 object k t pc t' name :
  projection_ok t -> project_source_call sha256 object k t = Ok (pc, t') ->
  original_to_chat t' !! call_identity pc = Some name ->
  (chat_kind (call_identity pc) (profile t'), name) ∈ active t' ->
  (k = SourceToolSearch -> forall a, map_get "arguments" object = Some a ->
     from_str (to_string a) = Some a) ->
  exists m call, as_object (chat_call pc) = Some m /\ described_call object k = Some call /\
    restore_tool_call m t' = Ok call.
Proof.
  intros Hok H Hname Hact Hsearch.
  apply projected_call in H as (Hs & n & payload & Hn & Hc & Hp).
  destruct (ensure_identity_ok _ _ _ _ _ Hn Hok) as (Hok1 & _ & Hn1 & _).
  rewrite Hname in Hn1. injection Hn1 as ->. destruct (ok_legal _ Hok1 _ _ Hname) as (Hne & _ & _).
  pose proof (offered_identity _ _ _ Hok1 Hname Hact) as Hid.
  destruct (restore_shape (chat_kind (call_identity pc) (profile t')) n payload t' Hne) as (m & Hm & Hr).
  exists m. rewrite Hc, Hr. unfold restore_call. rewrite Hid. cbn [mbind R_bind].
  apply source_identity_inv in Hs. unfold described_call. destruct k; cbv beta iota in Hs, Hp.
  - destruct Hs as (nm & En & Ei). rewrite En, Hp.
    destruct (opt_str (map_get "namespace" object)); rewrite Ei in *; by eexists.
  - destruct Hs as (nm & En & Ei), Hp as (input & Einput & ->). rewrite En, Einput.
    assert (Hk : source_call_kind (call_identity pc) = SourceCustom)
      by (rewrite Ei; by destruct (opt_str (map_get "namespace" object))).
    pose proof (custom_input_back (call_identity pc) input t' Hk) as Hb.
    destruct (opt_str (map_get "namespace" object)); rewrite Ei in *; rewrite Hb; by eexists.
  - destruct Hp as (a & Ea & ->). rewrite Hs in *. rewrite Ea, (Hsearch eq_refl a Ea). by eexists.
Qed.
End roundtrip.

(** A call of a custom tool of a target that has functions only *)
Definition sample_item : Map := fields [("name", JString "run"); ("input", JString "ls -l")].
Definition sample_projected : ProjectedSourceCall :=
  {| chat_call := function_call (sample_name (IdCustom "run")) (Plain.print (envelope "ls -l"));
     call_identity := IdCustom "run" |}.

Lemma tool_call_roundtrip_witness :
  exists m call, as_object (chat_call sample_projected) = Some m /\
    described_call sample_item SourceCustom = Some call /\
    restore_tool_call (JT := Plain.plain) m sample_tools = Ok call.
Proof.
  apply (tool_call_roundtrip (JT := Plain.plain) (JL := Plain.plain_laws) sample_sha sample_item
    SourceCustom sample_tools sample_projected sample_tools (sample_name (IdCustom "run"))).
  - exact sample_tools_ok.
  - vm_compute. reflexivity.
  - vm_compute. reflexivity.
  - apply (bool_decide_unpack _). vm_compute. exact I.
  - intros H. discriminate H.
Defined.
