(* ===== verification/ChatStream.v ===== *)
(** The streamed answers of Chat Completions as events of the Responses API
    ([crates/protocol/src/openai_responses_chat/stream]).

    A [ChatToResponsesStream] takes the chunks of an upstream and gives the
    events a client of the Responses API expects: every item is announced, its
    text and its arguments follow as deltas, and at the end every item and the
    whole answer are repeated.  What it keeps between chunks is the record of
    the same name.  The methods change it in place, so they are [M] computations:
    what they changed before they failed stays changed. *)

From Stdlib Require Import Ascii.
From stdpp Require Import pretty.
From S2P Require Import Prelude Search Protocol Text Upstream Candidates AffinityStore Cost Exchange JsonValue ChatTools ChatResponse.

Local Open Scope Z_scope.

Definition bytes_of_string (s : string) : list Byte.byte := String.list_byte_of_string s.
Definition string_of_bytes (l : list Byte.byte) : string := String.string_of_list_byte l.

(** * Synthesized events *)

Record SynthesizedEvent := {
  synth_kind : string;
  synth_data : Value;
  synth_telemetry : ProtocolEventTelemetry;
  synth_termination : StreamTermination;
  synth_failure : option ProtocolUpstreamFailureEvidence
}.

Definition no_usage : TokenUsage :=
  {| input_tokens := None; output_tokens := None; cache_read_tokens := None;
     cache_creation_tokens := None |}.
Definition default_telemetry : ProtocolEventTelemetry :=
  {| token_usage := no_usage; effective_speed_tier := None; has_content_delta := false;
     retry_transparent := false |}.
Definition content_telemetry : ProtocolEventTelemetry :=
  {| token_usage := no_usage; effective_speed_tier := None; has_content_delta := true;
     retry_transparent := false |}.
Definition transparent_telemetry : ProtocolEventTelemetry :=
  {| token_usage := no_usage; effective_speed_tier := None; has_content_delta := false;
     retry_transparent := true |}.
Definition usage_telemetry (u : TokenUsage) : ProtocolEventTelemetry :=
  {| token_usage := u; effective_speed_tier := None; has_content_delta := false;
     retry_transparent := false |}.

(** [terminal_event], [event], [event_default] *)
Definition terminal_event (kind : string) (data : Value) (t : ProtocolEventTelemetry)
    (end_ : StreamTermination) : SynthesizedEvent :=
  {| synth_kind := kind; synth_data := data; synth_telemetry := t; synth_termination := end_;
     synth_failure := None |}.
Definition event (kind : string) (data : Value) (t : ProtocolEventTelemetry) : SynthesizedEvent :=
  terminal_event kind data t TerminationNone.
Definition event_default (kind : string) (data : Value) : SynthesizedEvent :=
  event kind data default_telemetry.
Definition synth_with_failure (f : option ProtocolUpstreamFailureEvidence) (e : SynthesizedEvent)
    : SynthesizedEvent :=
  {| synth_kind := synth_kind e; synth_data := synth_data e; synth_telemetry := synth_telemetry e;
     synth_termination := synth_termination e; synth_failure := f |}.

(** A line feed *)
Definition newline : string := String "010" "".

(** [encode_event] *)
Definition encode_event `{!JsonText} (e : SynthesizedEvent) : AdapterEvent :=
  let encoded := to_string (synth_data e) in
  let bytes := bytes_of_string
    ("event: " +:+ synth_kind e +:+ newline +:+ "data: " +:+ encoded +:+ newline +:+ newline) in
  with_upstream_failure (synth_failure e)
    (with_termination (synth_termination e)
      (adapter_event bytes (synth_telemetry e)
        (SseJson {| sse_event_name := Some (bytes_of_string (synth_kind e));
                    sse_data := bytes_of_string encoded |}))).

(** * State *)

Record TextState := {
  text_index : option Z;
  text_item_id : string;
  text_value : string;
  text_done : bool
}.
Definition text_default : TextState :=
  {| text_index := None; text_item_id := ""; text_value := ""; text_done := false |}.

Record ToolState := {
  tool_index : option Z;
  tool_item_id : string;
  tool_kind : option ChatToolKind;
  tool_call_id : option string;
  tool_name : option string;
  tool_payload : string;
  tool_emitted : nat;
  tool_ident : option ToolIdentity;
  tool_done : bool
}.
Definition tool_default : ToolState :=
  {| tool_index := None; tool_item_id := ""; tool_kind := None; tool_call_id := None;
     tool_name := None; tool_payload := ""; tool_emitted := 0; tool_ident := None;
     tool_done := false |}.

Record ChatToResponsesStream := {
  response : ResponseProjection;
  stream_profile : OpenAiChatCompletionsProfile;
  projection : ToolProjection;
  model : string;
  created_at : Z;
  observed_model : option string;
  observed_created_at : option Z;
  observed_role : bool;
  started : bool;
  completed : bool;
  finish_reason : option string;
  usage : TokenUsage;
  usage_json : option Value;
  next_sequence_number : Z;
  next_output_index : Z;
  reasoning : TextState;
  message : TextState;
  tools : gmap Z ToolState;
  completed_items : list (Z * Value);
  continuation_bytes : Z
}.

Definition set_model (v : string) (s : ChatToResponsesStream) : ChatToResponsesStream :=
  {| response := response s; stream_profile := stream_profile s; projection := projection s;
     model := v; created_at := created_at s; observed_model := observed_model s;
     observed_created_at := observed_created_at s; observed_role := observed_role s; started
     := started s; completed := completed s; finish_reason := finish_reason s; usage := usage
     s; usage_json := usage_json s; next_sequence_number := next_sequence_number s;
     next_output_index := next_output_index s; reasoning := reasoning s; message := message s;
     tools := tools s; completed_items := completed_items s; continuation_bytes :=
     continuation_bytes s |}.
Definition set_created_at (v : Z) (s : ChatToResponsesStream) : ChatToResponsesStream :=
  {| response := response s; stream_profile := stream_profile s; projection := projection s;
     model := model s; created_at := v; observed_model := observed_model s;
     observed_created_at := observed_created_at s; observed_role := observed_role s; started
     := started s; completed := completed s; finish_reason := finish_reason s; usage := usage
     s; usage_json := usage_json s; next_sequence_number := next_sequence_number s;
     next_output_index := next_output_index s; reasoning := reasoning s; message := message s;
     tools := tools s; completed_items := completed_items s; continuation_bytes :=
     continuation_bytes s |}.
Definition set_observed_model (v : option string) (s : ChatToResponsesStream) : ChatToResponsesStream :=
  {| response := response s; stream_profile := stream_profile s; projection := projection s;
     model := model s; created_at := created_at s; observed_model := v; observed_created_at :=
     observed_created_at s; observed_role := observed_role s; started := started s; completed
     := completed s; finish_reason := finish_reason s; usage := usage s; usage_json :=
     usage_json s; next_sequence_number := next_sequence_number s; next_output_index :=
     next_output_index s; reasoning := reasoning s; message := message s; tools := tools s;
     completed_items := completed_items s; continuation_bytes := continuation_bytes s |}.
Definition set_observed_created_at (v : option Z) (s : ChatToResponsesStream) : ChatToResponsesStream :=
  {| response := response s; stream_profile := stream_profile s; projection := projection s;
     model := model s; created_at := created_at s; observed_model := observed_model s;
     observed_created_at := v; observed_role := observed_role s; started := started s;
     completed := completed s; finish_reason := finish_reason s; usage := usage s; usage_json
     := usage_json s; next_sequence_number := next_sequence_number s; next_output_index :=
     next_output_index s; reasoning := reasoning s; message := message s; tools := tools s;
     completed_items := completed_items s; continuation_bytes := continuation_bytes s |}.
Definition set_observed_role (v : bool) (s : ChatToResponsesStream) : ChatToResponsesStream :=
  {| response := response s; stream_profile := stream_profile s; projection := projection s;
     model := model s; created_at := created_at s; observed_model := observed_model s;
     observed_created_at := observed_created_at s; observed_role := v; started := started s;
     completed := completed s; finish_reason := finish_reason s; usage := usage s; usage_json
     := usage_json s; next_sequence_number := next_sequence_number s; next_output_index :=
     next_output_index s; reasoning := reasoning s; message := message s; tools := tools s;
     completed_items := completed_items s; continuation_bytes := continuation_bytes s |}.
Definition set_started (v : bool) (s : ChatToResponsesStream) : ChatToResponsesStream :=
  {| response := response s; stream_profile := stream_profile s; projection := projection s;
     model := model s; created_at := created_at s; observed_model := observed_model s;
     observed_created_at := observed_created_at s; observed_role := observed_role s; started
     := v; completed := completed s; finish_reason := finish_reason s; usage := usage s;
     usage_json := usage_json s; next_sequence_number := next_sequence_number s;
     next_output_index := next_output_index s; reasoning := reasoning s; message := message s;
     tools := tools s; completed_items := completed_items s; continuation_bytes :=
     continuation_bytes s |}.
Definition set_completed (v : bool) (s : ChatToResponsesStream) : ChatToResponsesStream :=
  {| response := response s; stream_profile := stream_profile s; projection := projection s;
     model := model s; created_at := created_at s; observed_model := observed_model s;
     observed_created_at := observed_created_at s; observed_role := observed_role s; started
     := started s; completed := v; finish_reason := finish_reason s; usage := usage s;
     usage_json := usage_json s; next_sequence_number := next_sequence_number s;
     next_output_index := next_output_index s; reasoning := reasoning s; message := message s;
     tools := tools s; completed_items := completed_items s; continuation_bytes :=
     continuation_bytes s |}.
Definition set_finish_reason (v : option string) (s : ChatToResponsesStream) : ChatToResponsesStream :=
  {| response := response s; stream_profile := stream_profile s; projection := projection s;
     model := model s; created_at := created_at s; observed_model := observed_model s;
     observed_created_at := observed_created_at s; observed_role := observed_role s; started
     := started s; completed := completed s; finish_reason := v; usage := usage s; usage_json
     := usage_json s; next_sequence_number := next_sequence_number s; next_output_index :=
     next_output_index s; reasoning := reasoning s; message := message s; tools := tools s;
     completed_items := completed_items s; continuation_bytes := continuation_bytes s |}.
Definition set_usage (v : TokenUsage) (s : ChatToResponsesStream) : ChatToResponsesStream :=
  {| response := response s; stream_profile := stream_profile s; projection := projection s;
     model := model s; created_at := created_at s; observed_model := observed_model s;
     observed_created_at := observed_created_at s; observed_role := observed_role s; started
     := started s; completed := completed s; finish_reason := finish_reason s; usage := v;
     usage_json := usage_json s; next_sequence_number := next_sequence_number s;
     next_output_index := next_output_index s; reasoning := reasoning s; message := message s;
     tools := tools s; completed_items := completed_items s; continuation_bytes :=
     continuation_bytes s |}.
Definition set_usage_json (v : option Value) (s : ChatToResponsesStream) : ChatToResponsesStream :=
  {| response := response s; stream_profile := stream_profile s; projection := projection s;
     model := model s; created_at := created_at s; observed_model := observed_model s;
     observed_created_at := observed_created_at s; observed_role := observed_role s; started
     := started s; completed := completed s; finish_reason := finish_reason s; usage := usage
     s; usage_json := v; next_sequence_number := next_sequence_number s; next_output_index :=
     next_output_index s; reasoning := reasoning s; message := message s; tools := tools s;
     completed_items := completed_items s; continuation_bytes := continuation_bytes s |}.
Definition set_next_sequence_number (v : Z) (s : ChatToResponsesStream) : ChatToResponsesStream :=
  {| response := response s; stream_profile := stream_profile s; projection := projection s;
     model := model s; created_at := created_at s; observed_model := observed_model s;
     observed_created_at := observed_created_at s; observed_role := observed_role s; started
     := started s; completed := completed s; finish_reason := finish_reason s; usage := usage
     s; usage_json := usage_json s; next_sequence_number := v; next_output_index :=
     next_output_index s; reasoning := reasoning s; message := message s; tools := tools s;
     completed_items := completed_items s; continuation_bytes := continuation_bytes s |}.
Definition set_next_output_index (v : Z) (s : ChatToResponsesStream) : ChatToResponsesStream :=
  {| response := response s; stream_profile := stream_profile s; projection := projection s;
     model := model s; created_at := created_at s; observed_model := observed_model s;
     observed_created_at := observed_created_at s; observed_role := observed_role s; started
     := started s; completed := completed s; finish_reason := finish_reason s; usage := usage
     s; usage_json := usage_json s; next_sequence_number := next_sequence_number s;
     next_output_index := v; reasoning := reasoning s; message := message s; tools := tools s;
     completed_items := completed_items s; continuation_bytes := continuation_bytes s |}.
Definition set_reasoning (v : TextState) (s : ChatToResponsesStream) : ChatToResponsesStream :=
  {| response := response s; stream_profile := stream_profile s; projection := projection s;
     model := model s; created_at := created_at s; observed_model := observed_model s;
     observed_created_at := observed_created_at s; observed_role := observed_role s; started
     := started s; completed := completed s; finish_reason := finish_reason s; usage := usage
     s; usage_json := usage_json s; next_sequence_number := next_sequence_number s;
     next_output_index := next_output_index s; reasoning := v; message := message s; tools :=
     tools s; completed_items := completed_items s; continuation_bytes := continuation_bytes s |}.
Definition set_message (v : TextState) (s : ChatToResponsesStream) : ChatToResponsesStream :=
  {| response := response s; stream_profile := stream_profile s; projection := projection s;
     model := model s; created_at := created_at s; observed_model := observed_model s;
     observed_created_at := observed_created_at s; observed_role := observed_role s; started
     := started s; completed := completed s; finish_reason := finish_reason s; usage := usage
     s; usage_json := usage_json s; next_sequence_number := next_sequence_number s;
     next_output_index := next_output_index s; reasoning := reasoning s; message := v; tools
     := tools s; completed_items := completed_items s; continuation_bytes :=
     continuation_bytes s |}.
Definition set_tools (v : gmap Z ToolState) (s : ChatToResponsesStream) : ChatToResponsesStream :=
  {| response := response s; stream_profile := stream_profile s; projection := projection s;
     model := model s; created_at := created_at s; observed_model := observed_model s;
     observed_created_at := observed_created_at s; observed_role := observed_role s; started
     := started s; completed := completed s; finish_reason := finish_reason s; usage := usage
     s; usage_json := usage_json s; next_sequence_number := next_sequence_number s;
     next_output_index := next_output_index s; reasoning := reasoning s; message := message s;
     tools := v; completed_items := completed_items s; continuation_bytes :=
     continuation_bytes s |}.
Definition set_completed_items (v : list (Z * Value)) (s : ChatToResponsesStream) : ChatToResponsesStream :=
  {| response := response s; stream_profile := stream_profile s; projection := projection s;
     model := model s; created_at := created_at s; observed_model := observed_model s;
     observed_created_at := observed_created_at s; observed_role := observed_role s; started
     := started s; completed := completed s; finish_reason := finish_reason s; usage := usage
     s; usage_json := usage_json s; next_sequence_number := next_sequence_number s;
     next_output_index := next_output_index s; reasoning := reasoning s; message := message s;
     tools := tools s; completed_items := v; continuation_bytes := continuation_bytes s |}.
Definition set_continuation_bytes (v : Z) (s : ChatToResponsesStream) : ChatToResponsesStream :=
  {| response := response s; stream_profile := stream_profile s; projection := projection s;
     model := model s; created_at := created_at s; observed_model := observed_model s;
     observed_created_at := observed_created_at s; observed_role := observed_role s; started
     := started s; completed := completed s; finish_reason := finish_reason s; usage := usage
     s; usage_json := usage_json s; next_sequence_number := next_sequence_number s;
     next_output_index := next_output_index s; reasoning := reasoning s; message := message s;
     tools := tools s; completed_items := completed_items s; continuation_bytes := v |}.

(** What the assistant turn costs before it holds anything: the length of
    an object with a role and no content *)
Definition ASSISTANT_TURN_BYTES : Z := 36.

(** [ChatToResponsesStream::new] *)
Definition stream_new (r : ResponseProjection) (p : OpenAiChatCompletionsProfile)
    (t : ToolProjection) (bytes : Z) : ChatToResponsesStream :=
  {| response := r; stream_profile := p; projection := t; model := upstream_model r;
     created_at := projection_created_at r; observed_model := None; observed_created_at := None;
     observed_role := false; started := false; completed := false; finish_reason := None;
     usage := no_usage; usage_json := None; next_sequence_number := 0; next_output_index := 0;
     reasoning := text_default; message := text_default; tools := ∅; completed_items := [];
     continuation_bytes := saturating_add usize_max bytes ASSISTANT_TURN_BYTES |}.

Abbreviation SM := (M ChatToResponsesStream).

(** * Accounting of the continuation *)

(** [reserve_continuation_bytes] *)
Definition reserve_continuation_bytes (additional : Z) : M Z unit := fun bytes =>
  let bytes := saturating_add usize_max bytes additional in
  if MAX_BRIDGE_CONTINUATION_STATE_BYTES <? bytes
  then (Err (BridgeContinuationTooLarge bytes MAX_BRIDGE_CONTINUATION_STATE_BYTES), bytes)
  else (Ok tt, bytes).

Section stream.
Context {JT : JsonText}.

(** [serialized_json_bytes] *)
Definition serialized_json_bytes (v : Value) : Z := str_len (to_string v).

Definition reserve (additional : Z) : SM unit :=
  zoom continuation_bytes set_continuation_bytes (reserve_continuation_bytes additional).

(** [allocate_output] *)
Definition allocate_output : SM Z :=
  index ← gets next_output_index;
  _ ← modify (set_next_output_index (index + 1));
  mret index.

(** * Texts *)

Definition item_added (index : Z) (item : Value) : SynthesizedEvent :=
  event_default "response.output_item.added"
    (json_object [("type", JString "response.output_item.added"); ("output_index", num index);
                  ("item", item)]).
Definition item_done (index : Z) (item : Value) : SynthesizedEvent :=
  event_default "response.output_item.done"
    (json_object [("type", JString "response.output_item.done"); ("output_index", num index);
                  ("item", item)]).

(** The two parts of the state a text is kept in, with what is announced *)
Definition message_added (s : ChatToResponsesStream) (index : Z) : list SynthesizedEvent :=
  let id := message_item_id (response_id (response s)) in
  [item_added index (json_object [("id", JString id); ("type", JString "message");
     ("status", JString "in_progress"); ("role", JString "assistant"); ("content", JArray [])]);
   event_default "response.content_part.added"
     (json_object [("type", JString "response.content_part.added"); ("item_id", JString id);
       ("output_index", num index); ("content_index", num 0); ("part", text_part "")])].
Definition reasoning_added (s : ChatToResponsesStream) (index : Z) : list SynthesizedEvent :=
  let id := reasoning_item_id (response_id (response s)) in
  [item_added index (json_object [("id", JString id); ("type", JString "reasoning");
     ("status", JString "in_progress"); ("summary", JArray [])]);
   event_default "response.reasoning_summary_part.added"
     (json_object [("type", JString "response.reasoning_summary_part.added"); ("item_id", JString id);
       ("output_index", num index); ("summary_index", num 0); ("part", summary_part "")])].

Definition opened (t : TextState) (index : Z) (id : string) : TextState :=
  {| text_index := Some index; text_item_id := id; text_value := text_value t;
     text_done := text_done t |}.
Definition appended (t : TextState) (delta : string) : TextState :=
  {| text_index := text_index t; text_item_id := text_item_id t;
     text_value := text_value t +:+ delta; text_done := text_done t |}.
Definition closed (t : TextState) : TextState :=
  {| text_index := text_index t; text_item_id := text_item_id t; text_value := text_value t;
     text_done := true |}.

(** [push_text] *)
Definition push_text (delta : string) : SM (list SynthesizedEvent) :=
  if str_is_empty delta then mret [] else
  _ ← reserve (serialized_json_bytes (JString delta) - 2);
  m ← gets message;
  added ← match text_index m with
          | Some _ => mret []
          | None =>
              index ← allocate_output;
              s ← gets id;
              _ ← modify (set_message (opened m index (message_item_id (response_id (response s)))));
              mret (message_added s index)
          end;
  m ← gets message;
  _ ← modify (set_message (appended m delta));
  mret (added ++ [event "response.output_text.delta"
    (json_object [("type", JString "response.output_text.delta"); ("item_id", JString (text_item_id m));
       ("output_index", num (default 0 (text_index m))); ("content_index", num 0);
       ("delta", JString delta)]) content_telemetry]).

(** The lengths of the empty fields of a reasoning text in an assistant turn *)
Definition reasoning_field_bytes (p : OpenAiChatCompletionsProfile) : Z :=
  match reasoning_response p with Reasoning => 15 | _ => 23 end.

(** [push_reasoning] *)
Definition push_reasoning (delta : string) : SM (list SynthesizedEvent) :=
  if str_is_empty delta then mret [] else
  _ ← reserve (serialized_json_bytes (JString delta) - 2);
  m ← gets reasoning;
  added ← match text_index m with
          | Some _ => mret []
          | None =>
              p ← gets stream_profile;
              _ ← reserve (reasoning_field_bytes p);
              index ← allocate_output;
              s ← gets id;
              _ ← modify (set_reasoning (opened m index (reasoning_item_id (response_id (response s)))));
              mret (reasoning_added s index)
          end;
  m ← gets reasoning;
  _ ← modify (set_reasoning (appended m delta));
  mret (added ++ [event "response.reasoning_summary_text.delta"
    (json_object [("type", JString "response.reasoning_summary_text.delta");
       ("item_id", JString (text_item_id m)); ("output_index", num (default 0 (text_index m)));
       ("summary_index", num 0); ("delta", JString delta)]) content_telemetry]).

(** [finish_message] *)
Definition finish_message : SM (list SynthesizedEvent) :=
  s ← gets id;
  let m := message s in
  match text_index m with
  | None => mret []
  | Some index =>
      if text_done m then mret [] else
      let item := message_item (response_id (response s)) (text_value m) in
      _ ← modify (set_message (closed m));
      _ ← modify (fun s => set_completed_items (completed_items s ++ [(index, item)]) s);
      mret [event_default "response.output_text.done"
              (json_object [("type", JString "response.output_text.done");
                 ("item_id", JString (text_item_id m)); ("output_index", num index);
                 ("content_index", num 0); ("text", JString (text_value m))]);
            event_default "response.content_part.done"
              (json_object [("type", JString "response.content_part.done");
                 ("item_id", JString (text_item_id m)); ("output_index", num index);
                 ("content_index", num 0); ("part", text_part (text_value m))]);
            item_done index item]
  end.

(** [finish_reasoning] *)
Definition finish_reasoning : SM (list SynthesizedEvent) :=
  s ← gets id;
  let m := reasoning s in
  match text_index m with
  | None => mret []
  | Some index =>
      if text_done m then mret [] else
      let item := reasoning_item (response_id (response s)) (text_value m) in
      _ ← modify (set_reasoning (closed m));
      _ ← modify (fun s => set_completed_items (completed_items s ++ [(index, item)]) s);
      mret [event_default "response.reasoning_summary_text.done"
              (json_object [("type", JString "response.reasoning_summary_text.done");
                 ("item_id", JString (text_item_id m)); ("output_index", num index);
                 ("summary_index", num 0); ("text", JString (text_value m))]);
            event_default "response.reasoning_summary_part.done"
              (json_object [("type", JString "response.reasoning_summary_part.done");
                 ("item_id", JString (text_item_id m)); ("output_index", num index);
                 ("summary_index", num 0); ("part", summary_part (text_value m))]);
            item_done index item]
  end.

(** * Tool calls *)

(** A call under construction, and the accounting it may fail at *)
Abbreviation TM := (M (ToolState * Z)).

Definition set_kind (k : ChatToolKind) (t : ToolState) : ToolState :=
  {| tool_index := tool_index t; tool_item_id := tool_item_id t; tool_kind := Some k;
     tool_call_id := tool_call_id t; tool_name := tool_name t; tool_payload := tool_payload t;
     tool_emitted := tool_emitted t; tool_ident := tool_ident t; tool_done := tool_done t |}.
Definition set_call_id (v : option string) (t : ToolState) : ToolState :=
  {| tool_index := tool_index t; tool_item_id := tool_item_id t; tool_kind := tool_kind t;
     tool_call_id := v; tool_name := tool_name t; tool_payload := tool_payload t;
     tool_emitted := tool_emitted t; tool_ident := tool_ident t; tool_done := tool_done t |}.
Definition set_name (v : option string) (t : ToolState) : ToolState :=
  {| tool_index := tool_index t; tool_item_id := tool_item_id t; tool_kind := tool_kind t;
     tool_call_id := tool_call_id t; tool_name := v; tool_payload := tool_payload t;
     tool_emitted := tool_emitted t; tool_ident := tool_ident t; tool_done := tool_done t |}.
Definition set_payload (v : string) (t : ToolState) : ToolState :=
  {| tool_index := tool_index t; tool_item_id := tool_item_id t; tool_kind := tool_kind t;
     tool_call_id := tool_call_id t; tool_name := tool_name t; tool_payload := v;
     tool_emitted := tool_emitted t; tool_ident := tool_ident t; tool_done := tool_done t |}.
Definition set_emitted (v : nat) (t : ToolState) : ToolState :=
  {| tool_index := tool_index t; tool_item_id := tool_item_id t; tool_kind := tool_kind t;
     tool_call_id := tool_call_id t; tool_name := tool_name t; tool_payload := tool_payload t;
     tool_emitted := v; tool_ident := tool_ident t; tool_done := tool_done t |}.
Definition set_ident (v : ToolIdentity) (t : ToolState) : ToolState :=
  {| tool_index := tool_index t; tool_item_id := tool_item_id t; tool_kind := tool_kind t;
     tool_call_id := tool_call_id t; tool_name := tool_name t; tool_payload := tool_payload t;
     tool_emitted := tool_emitted t; tool_ident := Some v; tool_done := tool_done t |}.
Definition set_placed (index : Z) (id : string) (t : ToolState) : ToolState :=
  {| tool_index := Some index; tool_item_id := id; tool_kind := tool_kind t;
     tool_call_id := tool_call_id t; tool_name := tool_name t; tool_payload := tool_payload t;
     tool_emitted := tool_emitted t; tool_ident := tool_ident t; tool_done := tool_done t |}.
Definition set_done (t : ToolState) : ToolState :=
  {| tool_index := tool_index t; tool_item_id := tool_item_id t; tool_kind := tool_kind t;
     tool_call_id := tool_call_id t; tool_name := tool_name t; tool_payload := tool_payload t;
     tool_emitted := tool_emitted t; tool_ident := tool_ident t; tool_done := true |}.

Definition tool_reserve (additional : Z) : TM unit :=
  zoom snd (fun b st => (st.1, b)) (reserve_continuation_bytes additional).
Definition tool_modify (f : ToolState -> ToolState) : TM unit :=
  modify (fun st => (f st.1, st.2)).

(** The kind a chunk of a call states, and the kind its payload implies *)
Definition explicit_kind (object : Map) : R (option ChatToolKind) :=
  match map_get "type" object with
  | None | Some JNull => Ok None
  | Some (JString kind) =>
      if bool_decide (kind = "function") then Ok (Some ChatFunction)
      else if bool_decide (kind = "custom") then Ok (Some ChatCustom)
      else Err (unsupported_value "streamed tool call type" kind)
  | Some _ => Err (invalid "streamed tool call type must be a string")
  end.
Definition inferred_kind (object : Map) : R (option ChatToolKind) :=
  match present (map_get "function" object), present (map_get "custom" object) with
  | true, false => Ok (Some ChatFunction)
  | false, true => Ok (Some ChatCustom)
  | true, true => Err (invalid "streamed tool call has two payload types")
  | false, false => Ok None
  end.

(** The empty call of a kind *)
Definition empty_call (k : ChatToolKind) : Value :=
  match k with
  | ChatFunction =>
      json_object [("id", JString ""); ("type", JString "function");
        ("function", json_object [("name", JString ""); ("arguments", JString "")])]
  | ChatCustom =>
      json_object [("id", JString ""); ("type", JString "custom");
        ("custom", json_object [("name", JString ""); ("input", JString "")])]
  end.

(** [observe_kind] *)
Definition observe_kind (object : Map) : TM unit :=
  explicit ← lift (explicit_kind object);
  inferred ← lift (inferred_kind object);
  _ ← lift (match explicit, inferred with
            | Some a, Some b => guard_or (bool_decide (a = b))
                (invalid "streamed tool call type conflicts with its payload")
            | _, _ => Ok tt
            end);
  match (match explicit with Some k => Some k | None => inferred end) with
  | None => mret tt
  | Some observed =>
      st ← gets fst;
      match tool_kind st with
      | None =>
          _ ← tool_reserve (serialized_json_bytes (empty_call observed) + 1);
          tool_modify (set_kind observed)
      | Some existing =>
          lift (guard_or (bool_decide (existing = observed))
            (invalid "streamed tool call type changed"))
      end
  end.

(** [set_once] *)
Definition set_once (target : ToolState -> option string)
    (put : option string -> ToolState -> ToolState) (value : option Value) (field : string)
    : TM unit :=
  match value with
  | None => mret tt
  | Some value =>
      value ← lift (ok_or (as_str value) (invalid field));
      st ← gets fst;
      match target st with
      | None =>
          _ ← tool_reserve (serialized_json_bytes (JString value) - 2);
          tool_modify (put (Some value))
      | Some existing =>
          lift (guard_or (bool_decide (existing = value)) (InvalidPayload (field +:+ " changed")))
      end
  end.

(** [payload_object] *)
Definition payload_object (kind : option ChatToolKind) (object : Map) : R (option Map) :=
  match kind with
  | None => Ok None
  | Some k =>
      match map_get (match k with ChatFunction => "function" | ChatCustom => "custom" end) object with
      | None | Some JNull => Ok None
      | Some (JObject m) => Ok (Some m)
      | Some _ => Err (invalid "streamed tool call payload must be an object")
      end
  end.

(** [append_payload] *)
Definition append_payload (payload : Map) : TM unit :=
  st ← gets fst;
  match tool_kind st with
  | None => mret tt
  | Some k =>
      match map_get (match k with ChatFunction => "arguments" | ChatCustom => "input" end) payload with
      | None => mret tt
      | Some value =>
          value ← lift (ok_or (as_str value)
            (invalid "streamed tool call payload fragment must be a string"));
          _ ← tool_reserve (serialized_json_bytes (JString value) - 2);
          tool_modify (fun t => set_payload (tool_payload t +:+ value) t)
      end
  end.

(** The part of [push_tool] that reads a chunk of a call *)
Definition observe_call (object : Map) (t : ToolProjection) : TM unit :=
  _ ← observe_kind object;
  _ ← set_once tool_call_id set_call_id (map_get "id" object) "streamed tool call id";
  st ← gets fst;
  payload ← lift (payload_object (tool_kind st) object);
  _ ← match payload with
      | Some payload =>
          _ ← set_once tool_name set_name (map_get "name" payload) "streamed tool call name";
          append_payload payload
      | None => mret tt
      end;
  st ← gets fst;
  match tool_ident st, tool_kind st, tool_name st with
  | None, Some kind, Some name =>
      identity ← lift (active_identity kind name t);
      tool_modify (set_ident identity)
  | _, _, _ => mret tt
  end.

(** Whether what is known of a call lets it be streamed *)
Definition streamable (st : ToolState) : bool :=
  match tool_call_id st with Some id => negb (str_is_empty id) | None => false end &&
  match tool_ident st with
  | Some (IdFunction _) | Some (IdNamespaceFunction _ _) => true
  | Some (IdCustom _) | Some (IdNamespaceCustom _ _) => bool_decide (tool_kind st = Some ChatCustom)
  | _ => false
  end.

(** [item_id] *)
Definition tool_item_id_of (id : string) (key : Z) (identity : option ToolIdentity) : R string :=
  identity ← ok_or identity (invalid "streamed tool projection is incomplete");
  mret match identity with
       | IdFunction _ | IdNamespaceFunction _ _ => function_call_item_id id key
       | IdCustom _ | IdNamespaceCustom _ _ => custom_call_item_id id key
       | IdToolSearch => tool_search_call_item_id id key
       end.

(** [initial_call] *)
Definition initial_call (identity : ToolIdentity) : RestoredToolCall :=
  match identity with
  | IdFunction name => RestoredFunction name None ""
  | IdNamespaceFunction namespace name => RestoredFunction name (Some namespace) ""
  | IdCustom name => RestoredCustom name None ""
  | IdNamespaceCustom namespace name => RestoredCustom name (Some namespace) ""
  | IdToolSearch => RestoredToolSearch (JObject [])
  end.

(** [added_event] *)
Definition added_event (index : Z) (st : ToolState) : R SynthesizedEvent :=
  identity ← ok_or (tool_ident st) (invalid "streamed tool projection is incomplete");
  call_id ← ok_or (tool_call_id st) (invalid "streamed tool call id is incomplete");
  mret (item_added index (JObject (map_insert "id" (JString (tool_item_id st))
    (call_fields "placeholder" 0 call_id (initial_call identity) "in_progress")))).

Definition call_delta (kind id : string) (index : Z) (delta : string) : SynthesizedEvent :=
  event kind (json_object [("type", JString kind); ("item_id", JString id);
                           ("output_index", num index); ("delta", JString delta)]) content_telemetry.

(** The suffix of a text from a byte on *)
Definition string_drop (n : nat) (s : string) : string := String.substring n (String.length s) s.

(** [emit_payload_delta] *)
Definition emit_payload_delta (st : ToolState) : list SynthesizedEvent * ToolState :=
  match tool_index st with
  | None => ([], st)
  | Some index =>
      if (String.length (tool_payload st) <=? tool_emitted st)%nat then ([], st) else
      let delta := string_drop (tool_emitted st) (tool_payload st) in
      let st' := set_emitted (String.length (tool_payload st)) st in
      match tool_ident st with
      | Some (IdFunction _) | Some (IdNamespaceFunction _ _) =>
          ([call_delta "response.function_call_arguments.delta" (tool_item_id st) index delta], st')
      | Some (IdCustom _) | Some (IdNamespaceCustom _ _) =>
          if bool_decide (tool_kind st = Some ChatCustom)
          then ([call_delta "response.custom_tool_call_input.delta" (tool_item_id st) index delta], st')
          else ([], st')
      | _ => ([], st')
      end
  end.

Definition set_tool (key : Z) (st : ToolState) (s : ChatToResponsesStream) : ChatToResponsesStream :=
  set_tools (<[key := st]> (tools s)) s.

(** Gives a call its place in the output, and announces it *)
Definition place_call (key : Z) (st : ToolState) : SM (list SynthesizedEvent * ToolState) :=
  index ← allocate_output;
  s ← gets id;
  item ← lift (tool_item_id_of (response_id (response s)) key (tool_ident st));
  let st := set_placed index item st in
  added ← lift (added_event index st);
  mret ([added], st).

(** [push_tool]; the entry of the call is there from the moment its key is
    known, and keeps what was read of a chunk that fails. *)
Definition push_tool (call : Value) : SM (list SynthesizedEvent) :=
  object ← lift (ok_or (as_object call) (invalid "streamed tool call must be an object"));
  key ← lift (ok_or (opt_u64 (map_get "index" object))
               (invalid "streamed tool call index must be a non-negative integer"));
  s ← gets id;
  _ ← (if bool_decide (tools s = ∅) then reserve 16 else mret tt);
  _ ← zoom (fun s => (default tool_default (tools s !! key), continuation_bytes s))
        (fun st s => set_continuation_bytes st.2 (set_tool key st.1 s))
        (observe_call object (projection s));
  st ← gets (fun s => default tool_default (tools s !! key));
  '(added, st) ← (if streamable st && bool_decide (tool_index st = None)
                  then place_call key st else mret ([], st));
  let '(deltas, st) := emit_payload_delta st in
  _ ← modify (set_tool key st);
  mret (added ++ deltas).

(** The call of a kind, as its tool's *)
Definition restore_state (k : ChatToolKind) (name payload : string) (s : ChatToResponsesStream)
    : R RestoredToolCall := restore_call k name payload (projection s).

(** The body of the loop of [validate_tool_identities], with the ids so far *)
Definition validate_tool (s : ChatToResponsesStream) (seen : list string) (st : ToolState)
    : R (list string) :=
  kind ← ok_or (tool_kind st)
           (invalid "streamed tool call identity is incomplete: type is missing");
  call_id ← ok_or (tool_call_id st ≫= fun v => if str_is_empty v then None else Some v)
              (invalid "streamed tool call identity is incomplete: id is missing");
  name ← ok_or (tool_name st ≫= fun v => if str_is_empty v then None else Some v)
           (invalid "streamed tool call identity is incomplete: name is missing");
  if bool_decide (call_id ∈ seen) then Err (invalid "streamed tool call ids must be unique") else
  _ ← restore_state kind name (tool_payload st) s;
  mret (call_id :: seen).
Fixpoint validate_tools (s : ChatToResponsesStream) (seen : list string) (l : list ToolState)
    : R unit :=
  match l with
  | [] => Ok tt
  | st :: l => seen ← validate_tool s seen st; validate_tools s seen l
  end.

(** The calls in the order of their keys *)
Definition key_below (a b : Z * ToolState) : Prop := a.1 <= b.1.
#[export] Instance key_below_dec : RelDecision key_below.
Proof. intros a b. unfold key_below. apply _. Defined.
Definition tool_entries (s : ChatToResponsesStream) : list (Z * ToolState) :=
  merge_sort key_below (map_to_list (tools s)).

(** [validate_tool_identities] *)
Definition validate_tool_identities (s : ChatToResponsesStream) : R unit :=
  validate_tools s [] (tool_entries s).*2.

(** [finish_tool]; the caller holds the state of the call. *)
Definition finish_tool (key : Z) (st : ToolState) : SM (list SynthesizedEvent * ToolState) :=
  if tool_done st then mret ([], st) else
  kind ← lift (ok_or (tool_kind st) (invalid "streamed tool call type is incomplete"));
  call_id ← lift (ok_or (tool_call_id st) (invalid "streamed tool call id is incomplete"));
  name ← lift (ok_or (tool_name st) (invalid "streamed tool call name is incomplete"));
  s ← gets id;
  restored ← lift (restore_state kind name (tool_payload st) s);
  '(added, st) ← (if bool_decide (tool_index st = None) then place_call key st else mret ([], st));
  let '(deltas, st) := emit_payload_delta st in
  index ← lift (ok_or (tool_index st) (invalid "streamed tool output index is missing"));
  let custom_delta := match restored with
    | RestoredCustom _ _ input =>
        if bool_decide (kind = ChatFunction) && negb (str_is_empty input)
        then [call_delta "response.custom_tool_call_input.delta" (tool_item_id st) index input] else []
    | _ => []
    end in
  let done := match restored with
    | RestoredFunction _ _ arguments =>
        [event_default "response.function_call_arguments.done"
          (json_object [("type", JString "response.function_call_arguments.done");
             ("item_id", JString (tool_item_id st)); ("output_index", num index);
             ("arguments", JString arguments)])]
    | RestoredCustom _ _ input =>
        [event_default "response.custom_tool_call_input.done"
          (json_object [("type", JString "response.custom_tool_call_input.done");
             ("item_id", JString (tool_item_id st)); ("output_index", num index);
             ("input", JString input)])]
    | RestoredToolSearch _ => []
    end in
  let item := restored_call_item (response_id (response s)) key call_id restored "completed" in
  _ ← modify (fun s => set_completed_items (completed_items s ++ [(index, item)]) s);
  mret (added ++ deltas ++ custom_delta ++ done ++ [item_done index item], set_done st).

(** One turn of the loop of [finish_tools] *)
Definition finish_key (key : Z) : SM (list SynthesizedEvent) :=
  s ← gets id;
  st ← lift (ok_or (tools s !! key) (invalid "streamed tool state disappeared"));
  _ ← modify (fun s => set_tools (delete key (tools s)) s);
  '(events, st) ← finish_tool key st;
  _ ← modify (set_tool key st);
  mret events.
(** [finish_tools] *)
Definition finish_tools : SM (list SynthesizedEvent) :=
  s ← gets id;
  each_m finish_key (tool_entries s).*1.

(** [ToolState::assistant_call] *)
Definition assistant_call (st : ToolState) : option Value :=
  kind ← tool_kind st; call_id ← tool_call_id st; name ← tool_name st;
  Some match kind with
       | ChatFunction =>
           json_object [("id", JString call_id); ("type", JString "function");
             ("function", json_object [("name", JString name); ("arguments", JString (tool_payload st))])]
       | ChatCustom =>
           json_object [("id", JString call_id); ("type", JString "custom");
             ("custom", json_object [("name", JString name); ("input", JString (tool_payload st))])]
       end.

Definition reasoning_field (p : OpenAiChatCompletionsProfile) : string :=
  match reasoning_response p with Reasoning => "reasoning" | _ => "reasoning_content" end.

(** [assistant_message] *)
Definition assistant_fields (s : ChatToResponsesStream) : Map :=
  let text := text_value (message s) in
  let base := fields [("role", JString "assistant");
                      ("content", if str_is_empty text then JNull else JString text)] in
  let thought := text_value (reasoning s) in
  let base := if str_is_empty thought then base
              else map_insert (reasoning_field (stream_profile s)) (JString thought) base in
  match omap assistant_call (tool_entries s).*2 with
  | [] => base
  | calls => map_insert "tool_calls" (JArray calls) base
  end.
Definition assistant_message (s : ChatToResponsesStream) : Value := JObject (assistant_fields s).

(** * Chunks *)

(** [observe_metadata] *)
Definition observe_created (created : Value) : SM unit :=
  created ← lift (ok_or (as_u64 created)
    (invalid "Chat Completions stream created must be a non-negative integer"));
  s ← gets id;
  _ ← lift (match observed_created_at s with
            | Some observed => guard_or (observed =? created)
                (invalid "Chat Completions stream created value changed")
            | None => Ok tt
            end);
  _ ← modify (set_observed_created_at (Some created));
  modify (set_created_at created).
Definition observe_model (model : Value) : SM unit :=
  model ← lift (ok_or (as_str model ≫= fun v => if str_is_empty v then None else Some v)
    (invalid "Chat Completions stream model must be a non-empty string"));
  s ← gets id;
  _ ← lift (match observed_model s with
            | Some observed => guard_or (bool_decide (observed = model))
                (invalid "Chat Completions stream model changed")
            | None => Ok tt
            end);
  _ ← modify (set_observed_model (Some model));
  modify (set_model model).
Definition observe_metadata (value : Value) : SM unit :=
  _ ← lift (match get "object" value with
            | Some object => guard_or (bool_decide (as_str object = Some "chat.completion.chunk"))
                (invalid "Chat Completions stream object must be chat.completion.chunk")
            | None => Ok tt
            end);
  _ ← match get "created" value with Some created => observe_created created | None => mret tt end;
  match get "model" value with Some model => observe_model model | None => mret tt end.

(** [validate_role] *)
Definition validate_role (value : option Value) : SM unit :=
  match value with
  | None => mret tt
  | Some value =>
      _ ← lift (guard_or (bool_decide (as_str value = Some "assistant"))
            (invalid "Chat Completions stream delta role must be assistant"));
      modify (set_observed_role true)
  end.

(** [optional_string] of [chunk.rs] *)
Definition chunk_optional_string (v : option Value) : R (option string) :=
  match v with
  | None | Some JNull => Ok None
  | Some (JString s) => Ok (Some s)
  | Some _ => Err (invalid "streamed reasoning content must be a string")
  end.

(** [reasoning_delta] *)
Definition reasoning_delta (p : OpenAiChatCompletionsProfile) (delta : Map) : R (option string) :=
  content ← chunk_optional_string (map_get "reasoning_content" delta);
  thought ← chunk_optional_string (map_get "reasoning" delta);
  choose_reasoning p content thought "Chat target returned conflicting reasoning deltas".

(** What [apply_choices] does with the delta of a choice *)
Definition apply_delta (delta : Map) : SM (list SynthesizedEvent) :=
  _ ← validate_role (map_get "role" delta);
  _ ← lift (guard_or (negb (existsb (fun f => present (map_get f delta)) UNSUPPORTED_OUTPUTS))
        (invalid "Chat Completions stream contains an unsupported output"));
  p ← gets stream_profile;
  thought ← lift (reasoning_delta p delta);
  e1 ← match thought with Some thought => push_reasoning thought | None => mret [] end;
  e2 ← match map_get "content" delta with
       | None | Some JNull => mret []
       | Some (JString content) => push_text content
       | Some _ => lift (Err (invalid "streamed assistant content must be a string or null"))
       end;
  e3 ← match map_get "tool_calls" delta with
       | None | Some JNull => mret []
       | Some (JArray calls) => each_m push_tool calls
       | Some _ => lift (Err (invalid "streamed tool_calls must be an array"))
       end;
  mret (e1 ++ e2 ++ e3).

(** The end of [apply_choices] *)
Definition apply_finish_reason (value : option Value) : SM unit :=
  match value with
  | None | Some JNull => mret tt
  | Some (JString reason) =>
      _ ← lift (validate_finish_reason reason);
      modify (set_finish_reason (Some reason))
  | Some _ => lift (Err (invalid "streamed finish_reason must be a string or null"))
  end.

(** [apply_choices] *)
Definition apply_choices (choices : list Value) : SM (list SynthesizedEvent) :=
  match choices with
  | [] => mret []
  | [choice] =>
      s ← gets id;
      _ ← lift (guard_or (bool_decide (finish_reason s = None))
            (invalid "Chat Completions stream emitted a choice after finish_reason"));
      choice ← lift (ok_or (as_object choice)
                 (invalid "Chat Completions stream choice must be an object"));
      _ ← lift (guard_or (bool_decide (opt_u64 (map_get "index" choice) = Some 0))
            (invalid "Chat Completions stream choice index must be 0"));
      delta ← lift (ok_or (opt_object (map_get "delta" choice))
                (invalid "Chat Completions stream choice delta must be an object"));
      events ← apply_delta delta;
      _ ← apply_finish_reason (map_get "finish_reason" choice);
      mret events
  | _ => lift (Err (invalid "Chat Completions stream event must contain at most one choice"))
  end.

(** * Failures *)

(** [optional_string], [required_string] of [failure.rs] *)
Definition failure_optional_string (source : Map) (field : string) : R (option string) :=
  match map_get field source with
  | None | Some JNull => Ok None
  | Some (JString s) =>
      if str_is_empty s
      then Err (invalid "Chat Completions stream error fields must be non-empty strings or null")
      else Ok (Some s)
  | Some _ => Err (invalid "Chat Completions stream error fields must be non-empty strings or null")
  end.
Definition failure_required_string (source : Map) (field : string) : R string :=
  s ← failure_optional_string source field;
  ok_or s (invalid "Chat Completions stream error message must be a non-empty string").

(** [failure::convert] *)
Definition failure_convert (value : Value) (f : option ProtocolUpstreamFailureEvidence)
    : R SynthesizedEvent :=
  source ← ok_or (match opt_object (get "error" value) with Some m => Some m | None => as_object value end)
             (invalid "Chat Completions stream error must be an object");
  message ← failure_required_string source "message";
  code ← failure_optional_string source "code";
  type_ ← failure_optional_string source "type";
  param ← match map_get "param" source with
          | None | Some JNull => Ok JNull
          | Some (JString s) => Ok (JString s)
          | Some _ => Err (invalid "Chat Completions stream error param must be a string or null")
          end;
  let code := match code, type_ with
              | Some c, _ => c
              | None, Some t => if bool_decide (t = "error") then "upstream_error" else t
              | None, None => "upstream_error"
              end in
  mret (synth_with_failure f (terminal_event "error"
    (json_object [("type", JString "error"); ("code", JString code); ("message", JString message);
                  ("param", param)]) default_telemetry Failed)).

(** * The translator *)

(** One turn of [sequence_events] *)
Definition sequence_event (e : SynthesizedEvent) : SM (list SynthesizedEvent) :=
  object ← lift (ok_or (as_object (synth_data e))
                  (invalid "bridged Responses event data must be an object"));
  n ← gets next_sequence_number;
  next ← lift (ok_or (checked_add u64_max n 1)
                (invalid "bridged Responses sequence number overflowed"));
  _ ← modify (set_next_sequence_number next);
  mret [{| synth_kind := synth_kind e;
           synth_data := JObject (map_insert "sequence_number" (num n) object);
           synth_telemetry := synth_telemetry e; synth_termination := synth_termination e;
           synth_failure := synth_failure e |}].
(** [sequence_events], before [encode_event] *)
Definition sequence_events (events : list SynthesizedEvent) : SM (list SynthesizedEvent) :=
  each_m sequence_event events.

Definition stream_base (s : ChatToResponsesStream) (status : string) (output : list Value)
    (usage : Value) : Map :=
  base_fields (response s) status output (created_at s) (model s) usage.

(** [ensure_started] *)
Definition ensure_started : SM (list SynthesizedEvent) :=
  s ← gets id;
  if started s then mret [] else
  _ ← modify (set_started true);
  let response := JObject (stream_base s "in_progress" [] JNull) in
  mret [event "response.created"
          (json_object [("type", JString "response.created"); ("response", response)])
          transparent_telemetry;
        event "response.in_progress"
          (json_object [("type", JString "response.in_progress"); ("response", response)])
          transparent_telemetry].

(** [StreamUpdate]; [update_events] are encoded by [encode_event]. *)
Record StreamUpdate := {
  update_events : list SynthesizedEvent;
  update_message : option Value
}.
Definition no_update : StreamUpdate := {| update_events := []; update_message := None |}.

Definition index_below (a b : Z * Value) : Prop := a.1 <= b.1.
#[export] Instance index_below_dec : RelDecision index_below.
Proof. intros a b. unfold index_below. apply _. Defined.

(** The checks of [finish] *)
Definition finish_guards (s : ChatToResponsesStream) : R string :=
  _ ← validate_tool_identities s;
  reason ← ok_or (finish_reason s)
             (invalid "Chat Completions stream ended without finish_reason");
  _ ← guard_or (observed_role s)
        (invalid "Chat Completions stream never identified the assistant role");
  _ ← guard_or (negb (bool_decide (reason = "tool_calls") && bool_decide (tools s = ∅)))
        (invalid "finish_reason tool_calls requires at least one tool call");
  _ ← guard_or (bool_decide (reason = "tool_calls") || bool_decide (tools s = ∅))
        (invalid "streamed tool calls require finish_reason tool_calls");
  mret reason.

(** [finish] *)
Definition finish : SM StreamUpdate :=
  s ← gets id;
  if completed s then mret no_update else
  finish_reason ← lift (finish_guards s);
  e0 ← ensure_started;
  e1 ← finish_reasoning;
  e2 ← finish_message;
  e3 ← finish_tools;
  _ ← modify (fun s => set_completed_items (merge_sort index_below (completed_items s)) s);
  s ← gets id;
  let output := (completed_items s).*2 in
  let reason := incomplete_reason finish_reason in
  let status := final_status reason in
  total ← lift (match usage_json s with
                | Some u => responses_usage (Some u) (stream_profile s)
                | None => Ok JNull
                end);
  let response := JObject (with_incomplete reason (stream_base s status output total)) in
  let kind := match reason with Some _ => "response.incomplete" | None => "response.completed" end in
  events ← sequence_events (e0 ++ e1 ++ e2 ++ e3 ++
    [terminal_event kind (json_object [("type", JString kind); ("response", response)])
       (usage_telemetry (usage s)) Completed]);
  _ ← modify (set_completed true);
  s ← gets id;
  mret {| update_events := events; update_message := Some (assistant_message s) |}.

(** What [push] does with the usage of a chunk *)
Definition observe_usage (value : Value) : SM unit :=
  match get "usage" value with
  | None | Some JNull => mret tt
  | Some u =>
      p ← gets stream_profile;
      _ ← lift (responses_usage (Some u) p);
      _ ← modify (set_usage_json (Some u));
      counts ← lift (chat_token_usage (Some u) p);
      modify (fun s => set_usage (usage_merge (usage s) counts) s)
  end.

(** [push], from the parsed chunk on *)
Definition push_value (value : Value) (end_ : StreamTermination)
    (f : option ProtocolUpstreamFailureEvidence) : SM StreamUpdate :=
  _ ← observe_usage value;
  if bool_decide (end_ = Failed) then
    e ← lift (failure_convert value f);
    events ← sequence_events [e];
    _ ← modify (set_completed true);
    mret {| update_events := events; update_message := None |}
  else
    _ ← observe_metadata value;
    e0 ← ensure_started;
    match get "choices" value with
    | Some (JArray choices) =>
        e1 ← apply_choices choices;
        s ← gets id;
        _ ← lift (match finish_reason s with Some _ => validate_tool_identities s | None => Ok tt end);
        events ← sequence_events (e0 ++ e1);
        mret {| update_events := events; update_message := None |}
    | None =>
        if match get "usage" value with Some u => is_object u | None => false end then
          events ← sequence_events e0;
          mret {| update_events := events; update_message := None |}
        else lift (Err (invalid "Chat Completions stream event has no choices array"))
    | Some _ => lift (Err (invalid "Chat Completions stream event has no choices array"))
    end.

(** [push] *)
Definition push (e : AdapterEvent) : SM StreamUpdate :=
  s ← gets id;
  if completed s
  then lift (Err (invalid "Chat Completions stream continued after termination")) else
  _ ← modify (set_usage (usage_merge (usage s) (token_usage (telemetry e))));
  match payload e with
  | SseJson data =>
      value ← lift (ok_or (from_str (string_of_bytes (sse_data data)))
                     (invalid "Chat Completions stream data is not valid JSON"));
      push_value value (termination e) (upstream_failure e)
  | SseNonJson => lift (Err (invalid "Chat Completions stream data is not valid JSON"))
  | SseDone => finish
  | SseEmpty => mret no_update
  end.
End stream.
