(* ===== verification/ChatClient.v ===== *)
(** What a client of the Responses API makes of a bridged stream.

    [read_event] is how a client reads an event, and [client_step] what the
    Responses API promises of the order and the contents of events: they are
    numbered from 0, an item is announced under the next index before anything
    is said of it, its text is what its deltas add up to, each item is closed
    once, and the answer at the end repeats the closed items.  The theorem of
    this file is that [ChatStream] keeps that promise for every upstream. *)

From Stdlib Require Import Ascii.
From stdpp Require Import pretty.
From S2P Require Import Prelude Search Protocol Text Upstream Candidates AffinityStore Cost Exchange JsonValue ChatTools ChatResponse ChatStream.

Local Open Scope Z_scope.

(** * Reading events *)

Inductive Signal :=
| SigCreated (id : string)
| SigInProgress (id : string)
| SigAdded (index : nat) (id : string)
| SigPart (index : nat) (id text : string)
| SigDelta (index : nat) (id delta : string)
| SigSaid (index : nat) (id text : string)
| SigClosed (index : nat) (item : Value)
| SigAnswer (id : string) (output : list Value)
| SigError.

Definition text_at (k : string) (v : Value) : option string := opt_str (get k v).
Definition index_at (k : string) (v : Value) : option nat := Z.to_nat <$> opt_u64 (get k v).

(** An answer with its status *)
Definition answer_id (status : string) (data : Value) : option string :=
  r ← get "response" data;
  if bool_decide (text_at "status" r = Some status) then text_at "id" r else None.

(** The signal of an event of a kind *)
Definition read_signal (kind : string) (data : Value) : option Signal :=
  if bool_decide (kind = "response.created") then SigCreated <$> answer_id "in_progress" data
  else if bool_decide (kind = "response.in_progress")
  then SigInProgress <$> answer_id "in_progress" data
  else if bool_decide (kind = "response.output_item.added") then
    i ← index_at "output_index" data; item ← get "item" data; id ← text_at "id" item;
    if bool_decide (text_at "status" item = Some "in_progress") then Some (SigAdded i id) else None
  else if bool_decide (kind ∈ ["response.content_part.added"; "response.content_part.done";
    "response.reasoning_summary_part.added"; "response.reasoning_summary_part.done"]) then
    i ← index_at "output_index" data; id ← text_at "item_id" data; part ← get "part" data;
    text ← text_at "text" part; Some (SigPart i id text)
  else if bool_decide (kind ∈ ["response.output_text.delta"; "response.reasoning_summary_text.delta";
    "response.function_call_arguments.delta"; "response.custom_tool_call_input.delta"]) then
    i ← index_at "output_index" data; id ← text_at "item_id" data; d ← text_at "delta" data;
    Some (SigDelta i id d)
  else if bool_decide (kind ∈ ["response.output_text.done"; "response.reasoning_summary_text.done"]) then
    i ← index_at "output_index" data; id ← text_at "item_id" data; t ← text_at "text" data;
    Some (SigSaid i id t)
  else if bool_decide (kind = "response.function_call_arguments.done") then
    i ← index_at "output_index" data; id ← text_at "item_id" data; t ← text_at "arguments" data;
    Some (SigSaid i id t)
  else if bool_decide (kind = "response.custom_tool_call_input.done") then
    i ← index_at "output_index" data; id ← text_at "item_id" data; t ← text_at "input" data;
    Some (SigSaid i id t)
  else if bool_decide (kind = "response.output_item.done") then
    i ← index_at "output_index" data; item ← get "item" data; Some (SigClosed i item)
  else if bool_decide (kind = "response.completed") then
    id ← answer_id "completed" data; r ← get "response" data; output ← opt_array (get "output" r);
    Some (SigAnswer id output)
  else if bool_decide (kind = "response.incomplete") then
    id ← answer_id "incomplete" data; r ← get "response" data; output ← opt_array (get "output" r);
    Some (SigAnswer id output)
  else if bool_decide (kind = "error") then _ ← text_at "message" data; Some SigError
  else None.

(** An event: its number and its signal; the kind is in its name and in its data. *)
Definition read_event (e : SynthesizedEvent) : option (Z * Signal) :=
  n ← opt_u64 (get "sequence_number" (synth_data e));
  if bool_decide (text_at "type" (synth_data e) = Some (synth_kind e))
  then sig ← read_signal (synth_kind e) (synth_data e); Some (n, sig) else None.

(** The text of an item that is complete *)
Definition item_text (item : Value) : option string :=
  if bool_decide (text_at "type" item = Some "message") then
    parts ← opt_array (get "content" item); part ← head parts; text_at "text" part
  else if bool_decide (text_at "type" item = Some "reasoning") then
    parts ← opt_array (get "summary" item); part ← head parts; text_at "text" part
  else if bool_decide (text_at "type" item = Some "function_call") then text_at "arguments" item
  else if bool_decide (text_at "type" item = Some "custom_tool_call") then text_at "input" item
  else if bool_decide (text_at "type" item = Some "tool_search_call") then Some ""
  else None.
(** A tool search carries no text, so nothing is said of it. *)
Definition is_search_item (item : Value) : bool :=
  bool_decide (text_at "type" item = Some "tool_search_call").

(** * The promise *)

Inductive ClientItem := Open (id text : string) (said : bool) | Closed (item : Value).
Inductive Phase := Fresh | Announced | Running | Ended.

Record Client := {
  client_next : Z;
  client_phase : Phase;
  client_id : option string;
  client_items : list ClientItem
}.
Definition client_new : Client :=
  {| client_next := 0; client_phase := Fresh; client_id := None; client_items := [] |}.

Definition closed_item (i : ClientItem) : option Value :=
  match i with Closed item => Some item | Open _ _ _ => None end.

(** The items after a signal of a running stream, if the signal is in order *)
Definition items_step (sig : Signal) (items : list ClientItem) : option (list ClientItem) :=
  match sig with
  | SigAdded i id => if bool_decide (i = length items) then Some (items ++ [Open id "" false]) else None
  | SigPart i id text =>
      match items !! i with
      | Some (Open id' t _) => if bool_decide (id' = id /\ t = text) then Some items else None
      | _ => None
      end
  | SigDelta i id d =>
      match items !! i with
      | Some (Open id' t false) =>
          if bool_decide (id' = id) then Some (<[i := Open id (t +:+ d) false]> items) else None
      | _ => None
      end
  | SigSaid i id text =>
      match items !! i with
      | Some (Open id' t false) =>
          if bool_decide (id' = id /\ t = text) then Some (<[i := Open id t true]> items) else None
      | _ => None
      end
  | SigClosed i item =>
      match items !! i with
      | Some (Open id t said) =>
          if bool_decide (text_at "id" item = Some id /\ text_at "status" item = Some "completed" /\
               item_text item = Some t) && (said || is_search_item item)
          then Some (<[i := Closed item]> items) else None
      | _ => None
      end
  | _ => None
  end.

Definition client_step (n : Z) (sig : Signal) (c : Client) : option Client :=
  if negb (n =? client_next c) then None else
  match client_phase c, sig with
  | Ended, _ => None
  | _, SigError =>
      Some {| client_next := n + 1; client_phase := Ended; client_id := client_id c;
              client_items := client_items c |}
  | Fresh, SigCreated id =>
      Some {| client_next := n + 1; client_phase := Announced; client_id := Some id; client_items := [] |}
  | Announced, SigInProgress id =>
      if bool_decide (client_id c = Some id)
      then Some {| client_next := n + 1; client_phase := Running; client_id := Some id; client_items := [] |}
      else None
  | Running, SigAnswer id output =>
      if bool_decide (client_id c = Some id /\
           Forall2 (fun i v => closed_item i = Some v) (client_items c) output)
      then Some {| client_next := n + 1; client_phase := Ended; client_id := client_id c;
                   client_items := client_items c |}
      else None
  | Running, _ =>
      items ← items_step sig (client_items c);
      Some {| client_next := n + 1; client_phase := Running; client_id := client_id c;
              client_items := items |}
  | _, _ => None
  end.

(** A run of the client over events *)
Fixpoint client_run (es : list SynthesizedEvent) (c : Client) : option Client :=
  match es with
  | [] => Some c
  | e :: es => '(n, sig) ← read_event e; c ← client_step n sig c; client_run es c
  end.
Fixpoint signals_run (sigs : list Signal) (c : Client) : option Client :=
  match sigs with
  | [] => Some c
  | sig :: sigs => c ← client_step (client_next c) sig c; signals_run sigs c
  end.

(** * Reading what the translator makes *)

(** An event before it is numbered, and its signal *)
Definition reads_as (e : SynthesizedEvent) (sig : Signal) : Prop :=
  exists m, synth_data e = JObject m /\ map_get "type" m = Some (JString (synth_kind e)) /\
    read_signal (synth_kind e) (JObject m) = Some sig.

Lemma read_signal_numbered kind n m :
  read_signal kind (JObject (map_insert "sequence_number" n m)) = read_signal kind (JObject m).
Proof.
  unfold read_signal, answer_id, text_at, index_at. cbn [get].
  by rewrite !map_get_insert_ne by done.
Qed.

Lemma client_step_next n sig c c' : client_step n sig c = Some c' -> client_next c' = n + 1.
Proof.
  unfold client_step. case_match; [done|]. intros H1.
  destruct (client_phase c), sig; simplify_option_eq; done.
Qed.

Lemma client_run_next es c c' : client_run es c = Some c' -> client_next c' = client_next c + Zlen es.
Proof.
  revert c. induction es as [|e es IH]; intros c; cbn [client_run].
  { intros [= ->]. unfold Zlen. simpl. lia. }
  destruct (read_event e) as [[n sig]|]; [|done]. cbn [mbind option_bind].
  destruct (client_step n sig c) as [c1|] eqn:E; [|done]. cbn [mbind option_bind]. intros H.
  pose proof (client_step_next _ _ _ _ E). apply IH in H. unfold Zlen in *. simpl.
  assert (n = client_next c); [|lia]. unfold client_step in E. case_match; [done|]. bool_to_prop. lia.
Qed.

Section client.
Context {JT : JsonText}.

(** Numbering changes nothing but the numbers. *)
Lemma sequence_events_run es sigs s es' s' c c' :
  Forall2 reads_as es sigs -> sequence_events es s = (Ok es', s') ->
  client_next c = next_sequence_number s -> signals_run sigs c = Some c' ->
  client_run es' c = Some c' /\ client_next c' = next_sequence_number s' /\
  s' = set_next_sequence_number (next_sequence_number s') s.
Proof.
  intros HF. revert s es' c. unfold sequence_events.
  induction HF as [|e sig es sigs (m & Ed & Et & Er) _ IH]; intros s es' c H Hn Hrun.
  { simpl in H, Hrun. runs H. injection Hrun as ->. by destruct s. }
  cbn [each_m] in H. apply M_bind_Ok in H as (e1 & s1 & He & H). apply M_bind_Ok in H as (es1 & s2 & Hes & H).
  apply ret_Ok in H as [-> ->]. unfold sequence_event in He. rewrite Ed in He.
  cbn [as_object] in He. runs He. simplify_eq. cbn [signals_run] in Hrun.
  destruct (client_step (client_next c) sig c) as [c1|] eqn:Hc; [|done]. cbn [mbind option_bind] in Hrun.
  unfold checked_add in *. case_match; [|done]. simplify_eq.
  pose proof (client_step_next _ _ _ _ Hc) as Hn1.
  destruct (IH _ _ c1 Hes) as (Hr & Hn2 & Hs); [simpl; congruence|done|].
  split_and!; [|done|].
  - simpl. unfold read_event. simpl. rewrite map_get_insert. cbn [opt_u64 mbind option_bind as_u64].
    unfold text_at. cbn [get]. rewrite map_get_insert_ne, Et by done. simpl.
    rewrite bool_decide_true by done. rewrite read_signal_numbered, Er. simpl.
    rewrite <-Hn, Hc. done.
  - rewrite Hs at 1. done.
Qed.

Lemma signals_run_app a b c : signals_run (a ++ b) c = signals_run a c ≫= signals_run b.
Proof. revert c. induction a as [|x a IH]; intros c; [done|]. simpl. destruct (client_step _ _ _); simpl; auto. Qed.

Lemma client_run_app a b c : client_run (a ++ b) c = client_run a c ≫= client_run b.
Proof.
  revert c. induction a as [|x a IH]; intros c; [done|]. simpl. destruct (read_event x) as [[n sg]|]; [|done].
  simpl. destruct (client_step _ _ _); simpl; auto.
Qed.

Ltac reads := eexists; split_and!; reflexivity.

Lemma reads_added i item id : text_at "id" item = Some id ->
  text_at "status" item = Some "in_progress" -> reads_as (item_added i item) (SigAdded (Z.to_nat i) id).
Proof.
  intros H1 H2. eexists. split_and!; [reflexivity..|]. 
  change ((id0 ← text_at "id" item; if bool_decide (text_at "status" item = Some "in_progress")
           then Some (SigAdded (Z.to_nat i) id0) else None) = Some (SigAdded (Z.to_nat i) id)).
  rewrite H1. cbn [mbind option_bind]. by rewrite bool_decide_true.
Qed.
Lemma reads_item_done i item : reads_as (item_done i item) (SigClosed (Z.to_nat i) item).
Proof. reads. Qed.
Lemma reads_function_delta id i d :
  reads_as (call_delta "response.function_call_arguments.delta" id i d) (SigDelta (Z.to_nat i) id d).
Proof. reads. Qed.
Lemma reads_custom_delta id i d :
  reads_as (call_delta "response.custom_tool_call_input.delta" id i d) (SigDelta (Z.to_nat i) id d).
Proof. reads. Qed.

(** * Items *)

Fixpoint items_run (sigs : list Signal) (items : list ClientItem) : option (list ClientItem) :=
  match sigs with
  | [] => Some items
  | sig :: sigs => items ← items_step sig items; items_run sigs items
  end.

Lemma items_run_app a b items : items_run (a ++ b) items = items_run a items ≫= items_run b.
Proof. revert items. induction a as [|x a IH]; intros items; [done|]. simpl. destruct (items_step _ _); simpl; auto. Qed.

Definition with_items (c : Client) (n : Z) (items : list ClientItem) : Client :=
  {| client_next := n; client_phase := client_phase c; client_id := client_id c; client_items := items |}.

(** A running client follows the items. *)
Lemma items_signals sigs c items : client_phase c = Running -> items_run sigs (client_items c) = Some items ->
  signals_run sigs c = Some (with_items c (client_next c + Zlen sigs) items).
Proof.
  revert c. induction sigs as [|sig sigs IH]; intros c Hp H; cbn [items_run] in H.
  { injection H as <-. unfold Zlen. simpl. rewrite Z.add_0_r. by destruct c. }
  destruct (items_step sig (client_items c)) as [items1|] eqn:E; [|done]. cbn [mbind option_bind] in H.
  cbn [signals_run]. set (c1 := with_items c (client_next c + 1) items1).
  assert (client_step (client_next c) sig c = Some c1) as ->.
  { unfold client_step. rewrite Z.eqb_refl, Hp. simpl.
    destruct sig; try done; rewrite E; cbn [mbind option_bind]; unfold c1, with_items; by rewrite Hp. }
  cbn [mbind option_bind]. rewrite (IH c1); [|done|done]. f_equal. unfold with_items, c1, Zlen.
  f_equal; simpl; try lia.
Qed.

Lemma items_new items id d :
  items_run [SigAdded (length items) id; SigPart (length items) id ""; SigDelta (length items) id d] items
  = Some (items ++ [Open id d false]).
Proof.
  cbn [items_run items_step]. rewrite bool_decide_true by done. cbn [mbind option_bind].
  rewrite list_lookup_middle by done. rewrite bool_decide_true by done. cbn [mbind option_bind].
  rewrite list_lookup_middle by done. rewrite bool_decide_true by done. cbn [mbind option_bind].
  f_equal. rewrite insert_app_r_alt by lia. by rewrite Nat.sub_diag.
Qed.

Lemma items_delta items n id t d : items !! n = Some (Open id t false) ->
  items_run [SigDelta n id d] items = Some (<[n := Open id (t +:+ d) false]> items).
Proof. intros H. cbn. rewrite H, bool_decide_true by done. done. Qed.

(** * What the client sees of the translator *)

Inductive Owner := OReasoning | OMessage | OTool (key : Z).
#[local] Instance owner_eq_dec : EqDecision Owner.
Proof. solve_decision. Defined.

Definition rid (s : ChatToResponsesStream) : string := response_id (response s).
Definition index_of (s : ChatToResponsesStream) (o : Owner) : option Z :=
  match o with
  | OReasoning => text_index (reasoning s)
  | OMessage => text_index (message s)
  | OTool k => tools s !! k ≫= tool_index
  end.

(** Calls whose payload is streamed as it comes *)
Definition direct (st : ToolState) : bool :=
  match tool_ident st with
  | Some (IdFunction _) | Some (IdNamespaceFunction _ _) => true
  | Some (IdCustom _) | Some (IdNamespaceCustom _ _) => bool_decide (tool_kind st = Some ChatCustom)
  | _ => false
  end.

(** The item a call becomes *)
Definition tool_item (s : ChatToResponsesStream) (k : Z) (st : ToolState) : Value :=
  match tool_kind st, tool_name st, tool_call_id st with
  | Some kind, Some name, Some call_id =>
      match restore_call kind name (tool_payload st) (projection s) with
      | Ok r => restored_call_item (rid s) k call_id r "completed"
      | Err _ => JNull
      end
  | _, _, _ => JNull
  end.
Definition view_tool (s : ChatToResponsesStream) (k : Z) (st : ToolState) : ClientItem :=
  if tool_done st then Closed (tool_item s k st)
  else Open (tool_item_id st) (if direct st then tool_payload st else "") false.
Definition view (s : ChatToResponsesStream) (o : Owner) : ClientItem :=
  match o with
  | OReasoning => let t := reasoning s in
      if text_done t then Closed (reasoning_item (rid s) (text_value t))
      else Open (text_item_id t) (text_value t) false
  | OMessage => let t := message s in
      if text_done t then Closed (message_item (rid s) (text_value t))
      else Open (text_item_id t) (text_value t) false
  | OTool k => match tools s !! k with Some st => view_tool s k st | None => Closed JNull end
  end.

(** Every index belongs to one owner. *)
Record indexed (f : Owner -> option Z) (next : Z) (owners : list Owner) : Prop := {
  ix_nodup : NoDup owners;
  ix_next : next = Zlen owners;
  ix_index o i : f o = Some i <-> 0 <= i /\ owners !! Z.to_nat i = Some o
}.

Lemma indexed_ext f g next owners : (forall o, g o = f o) -> indexed f next owners ->
  indexed g next owners.
Proof. intros E [H1 H2 H3]. split; [done..|]. intros o i. by rewrite E. Qed.

Lemma indexed_snoc f g next owners o : indexed f next owners -> f o = None ->
  g o = Some next -> (forall o', o' <> o -> g o' = f o') -> indexed g (next + 1) (owners ++ [o]).
Proof.
  intros [H1 H2 H3] Hf Hg Hne.
  assert (Hno : o ∉ owners).
  { intros (n & Hn)%list_elem_of_lookup. assert (f o = Some (Z.of_nat n)); [|congruence].
    apply H3. rewrite Nat2Z.id. split; [lia|done]. }
  split.
  - apply NoDup_app. split_and!; [done| |apply NoDup_singleton]. set_solver.
  - unfold Zlen in *. rewrite length_app. simpl. lia.
  - intros o' i. destruct (decide (o' = o)) as [->|Hoo].
    + rewrite Hg. split.
      * intros [= <-]. unfold Zlen in H2. split; [lia|].
        rewrite lookup_app_r by lia. by replace (Z.to_nat next - length owners)%nat with 0%nat by lia.
      * intros [Hi Hl]. apply lookup_app_Some in Hl as [Hl|[Hl Hs]].
        { apply list_elem_of_lookup_2 in Hl. done. }
        apply list_lookup_singleton_Some in Hs as [Hs _]. f_equal. unfold Zlen in H2. lia.
    + rewrite Hne by done. rewrite H3. split; intros [Hi Hl]; (split; [done|]).
      * by apply lookup_app_l_Some.
      * apply lookup_app_Some in Hl as [Hl|[_ Hs]]; [done|].
        apply list_lookup_singleton_Some in Hs as [_ ->]. done.
Qed.

Lemma indexed_bound f next owners o i : indexed f next owners -> f o = Some i -> 0 <= i < next.
Proof.
  intros [H1 H2 H3] [Hi Hl]%H3. apply lookup_lt_Some in Hl. unfold Zlen in H2. lia.
Qed.

Lemma view_update s s' owners n o : NoDup owners -> owners !! n = Some o ->
  (forall o', o' <> o -> view s' o' = view s o') ->
  view s' <$> owners = <[n := view s' o]> (view s <$> owners).
Proof.
  intros Hnd Hn Hv. apply list_eq. intros m. rewrite list_lookup_fmap.
  destruct (decide (m = n)) as [->|Hne].
  - rewrite Hn, list_lookup_insert_eq; [done|]. rewrite length_fmap. by eapply lookup_lt_Some.
  - rewrite list_lookup_insert_ne, list_lookup_fmap by done.
    destruct (owners !! m) as [o'|] eqn:E; [|done]. simpl. f_equal. apply Hv. intros ->.
    apply Hne. eapply NoDup_lookup; eauto.
Qed.

Lemma view_fmap_same s s' (owners : list Owner) : (forall o, o ∈ owners -> view s' o = view s o) ->
  view s' <$> owners = view s <$> owners.
Proof. intros H. apply list_fmap_ext. intros n o Hn. apply H. by eapply list_elem_of_lookup_2. Qed.

(** * The translator and its client *)

Definition tool_id_of (id : string) (k : Z) (i : ToolIdentity) : string :=
  match i with
  | IdFunction _ | IdNamespaceFunction _ _ => function_call_item_id id k
  | IdCustom _ | IdNamespaceCustom _ _ => custom_call_item_id id k
  | IdToolSearch => tool_search_call_item_id id k
  end.

(** What is known of a call fits together. *)
Record tool_ok (t : ToolProjection) (id : string) (k : Z) (st : ToolState) : Prop := {
  to_ident i : tool_ident st = Some i -> exists kind name,
    tool_kind st = Some kind /\ tool_name st = Some name /\ active_identity kind name t = Ok i;
  to_known kind name : tool_kind st = Some kind -> tool_name st = Some name -> is_Some (tool_ident st);
  to_placed i : tool_index st = Some i -> exists ident call_id,
    tool_ident st = Some ident /\ tool_call_id st = Some call_id /\
    tool_item_id st = tool_id_of id k ident /\ tool_emitted st = String.length (tool_payload st);
  to_unplaced : tool_index st = None -> tool_emitted st = 0%nat /\ tool_done st = false
}.

(** A text that is not announced is empty; its item carries its name. *)
Definition text_ok (id : string) (t : TextState) : Prop :=
  match text_index t with
  | None => text_value t = "" /\ text_done t = false
  | Some _ => text_item_id t = id
  end.

Record linked (s : ChatToResponsesStream) (owners : list Owner) : Prop := {
  ln_index : indexed (index_of s) (next_output_index s) owners;
  ln_message : text_ok (message_item_id (rid s)) (message s);
  ln_reasoning : text_ok (reasoning_item_id (rid s)) (reasoning s);
  ln_tools k st : tools s !! k = Some st -> tool_ok (projection s) (rid s) k st
}.

(** Nothing is closed before the end. *)
Definition all_open (s : ChatToResponsesStream) : Prop :=
  text_done (message s) = false /\ text_done (reasoning s) = false /\
  (forall k st, tools s !! k = Some st -> tool_done st = false) /\ completed_items s = [].

(** What a chunk leaves alone *)
Record frame (s s' : ChatToResponsesStream) : Prop := {
  fr_response : response s' = response s;
  fr_profile : stream_profile s' = stream_profile s;
  fr_projection : projection s' = projection s;
  fr_started : started s' = started s;
  fr_completed : completed s' = completed s;
  fr_sequence : next_sequence_number s' = next_sequence_number s
}.

#[local] Instance frame_preorder : PreOrder frame.
Proof. split; [by intros s|]. intros a b c [] []. split; congruence. Qed.

(** The events of a step take the client from what it saw to what it sees. *)
Definition step_ok (s : ChatToResponsesStream) (es : list SynthesizedEvent)
    (s' : ChatToResponsesStream) : Prop :=
  frame s s' /\ forall owners, linked s owners -> all_open s ->
  exists owners' sigs, linked s' owners' /\ all_open s' /\ Forall2 reads_as es sigs /\
    items_run sigs (view s <$> owners) = Some (view s' <$> owners').

Lemma step_ok_trans s e1 s1 e2 s2 : step_ok s e1 s1 -> step_ok s1 e2 s2 -> step_ok s (e1 ++ e2) s2.
Proof.
  intros [F1 H1] [F2 H2]. split; [by etrans|]. intros owners Hl Ho.
  destruct (H1 owners Hl Ho) as (o1 & sg1 & Hl1 & Ho1 & R1 & I1).
  destruct (H2 o1 Hl1 Ho1) as (o2 & sg2 & Hl2 & Ho2 & R2 & I2).
  exists o2, (sg1 ++ sg2). split_and!; [done..|by apply Forall2_app|].
  by rewrite items_run_app, I1.
Qed.

(** The parts of the state the client and the invariant look at *)
Lemma step_ok_quiet s s' : frame s s' -> next_output_index s' = next_output_index s ->
  message s' = message s -> reasoning s' = reasoning s -> tools s' = tools s ->
  completed_items s' = completed_items s -> step_ok s [] s'.
Proof.
  intros F E1 E2 E3 E4 E5. split; [done|]. intros owners Hl Ho. destruct F as [Fr _ Fj _ _ _].
  exists owners, []. split_and!.
  - destruct Hl as [A B C D]. split; unfold rid in *; rewrite ?Fr, ?Fj, ?E1, ?E2, ?E3, ?E4; [|done..].
    apply (indexed_ext (index_of s)); [|done]. intros []; simpl; by rewrite ?E2, ?E3, ?E4.
  - unfold all_open in *. by rewrite E2, E3, E4, E5.
  - constructor.
  - simpl. f_equal. symmetry. apply view_fmap_same. intros o _.
    unfold view, view_tool, tool_item, rid. by rewrite E2, E3, E4, Fr, Fj.
Qed.

Lemma step_ok_refl s : step_ok s [] s.
Proof. by apply step_ok_quiet. Qed.

Definition method_ok (m : SM (list SynthesizedEvent)) : Prop :=
  forall s es s', m s = (Ok es, s') -> step_ok s es s'.
Definition quiet_method {A} (m : SM A) : Prop :=
  forall s a s', m s = (Ok a, s') -> step_ok s [] s'.

Lemma each_m_ok {A} (f : A -> SM (list SynthesizedEvent)) l :
  (forall x, method_ok (f x)) -> method_ok (each_m f l).
Proof.
  intros Hf. induction l as [|x l IH]; intros s es s' H; cbn [each_m] in H.
  { apply ret_Ok in H as [-> ->]. apply step_ok_refl. }
  apply M_bind_Ok in H as (e1 & s1 & H1 & H). apply M_bind_Ok in H as (e2 & s2 & H2 & H).
  apply ret_Ok in H as [-> ->]. eapply step_ok_trans; eauto. by eapply Hf.
Qed.

Lemma reserve_inv n s u s' : reserve n s = (Ok u, s') ->
  s' = set_continuation_bytes (saturating_add usize_max (continuation_bytes s) n) s /\
  saturating_add usize_max (continuation_bytes s) n <= MAX_BRIDGE_CONTINUATION_STATE_BYTES.
Proof.
  unfold reserve. intros (t & H & ->)%zoom_Ok. unfold reserve_continuation_bytes in H.
  case_match; [done|]. injection H as _ <-. bool_to_prop. split; [done|lia].
Qed.

Lemma reserve_quiet n : quiet_method (reserve n).
Proof. intros s u s' H. apply reserve_inv in H as [-> _]. by apply step_ok_quiet. Qed.

(** What [linked] says beside the indices *)
Definition contents (s : ChatToResponsesStream) : Prop :=
  text_ok (message_item_id (rid s)) (message s) /\
  text_ok (reasoning_item_id (rid s)) (reasoning s) /\
  forall k st, tools s !! k = Some st -> tool_ok (projection s) (rid s) k st.

Lemma linked_contents s owners : linked s owners -> contents s.
Proof. by intros [? ? ? ?]. Qed.

Lemma link_new s s' owners o : linked s owners -> contents s' ->
  index_of s o = None -> index_of s' o = Some (next_output_index s) ->
  (forall o', o' <> o -> index_of s' o' = index_of s o') ->
  next_output_index s' = next_output_index s + 1 ->
  (forall o', o' <> o -> view s' o' = view s o') ->
  linked s' (owners ++ [o]) /\ Z.to_nat (next_output_index s) = length (view s <$> owners) /\
  view s' <$> owners ++ [o] = (view s <$> owners) ++ [view s' o].
Proof.
  intros Hl (C1 & C2 & C3) Hn Hs Hi Hx Hv. pose proof (ln_index _ _ Hl) as Hix. split_and!.
  - split; [|done..]. rewrite Hx. by eapply indexed_snoc.
  - rewrite (ix_next _ _ _ Hix), length_fmap. unfold Zlen. lia.
  - rewrite fmap_app. f_equal. apply view_fmap_same. intros o' Ho. apply Hv. intros ->.
    apply list_elem_of_lookup in Ho as (n & Hn1).
    assert (index_of s o = Some (Z.of_nat n)); [|congruence].
    apply (ix_index _ _ _ Hix). rewrite Nat2Z.id. split; [lia|done].
Qed.

Lemma link_same s s' owners o i : linked s owners -> contents s' -> index_of s o = Some i ->
  (forall o', index_of s' o' = index_of s o') ->
  next_output_index s' = next_output_index s ->
  (forall o', o' <> o -> view s' o' = view s o') ->
  linked s' owners /\ (view s <$> owners) !! Z.to_nat i = Some (view s o) /\
  view s' <$> owners = <[Z.to_nat i := view s' o]> (view s <$> owners).
Proof.
  intros Hl (C1 & C2 & C3) Ho Hi Hx Hv. pose proof (ln_index _ _ Hl) as Hix.
  destruct (proj1 (ix_index _ _ _ Hix o i) Ho) as [Hpos Hlk]. split_and!.
  - split; [|done..]. rewrite Hx. by apply (indexed_ext (index_of s)).
  - by rewrite list_lookup_fmap, Hlk.
  - apply view_update; [by destruct Hix|done|done].
Qed.

(** ** Texts *)

Lemma text_step_new s s' o id d es :
  frame s s' -> (contents s -> contents s') -> (all_open s -> all_open s') ->
  index_of s o = None -> index_of s' o = Some (next_output_index s) ->
  (forall o', o' <> o -> index_of s' o' = index_of s o') ->
  next_output_index s' = next_output_index s + 1 ->
  (forall o', o' <> o -> view s' o' = view s o') ->
  (contents s -> all_open s -> view s' o = Open id d false) ->
  (let n := Z.to_nat (next_output_index s) in
   Forall2 reads_as es [SigAdded n id; SigPart n id ""; SigDelta n id d]) -> step_ok s es s'.
Proof.
  intros F C O H1 H2 H3 H4 H5 H6 H7. split; [done|]. intros owners Hl Ho.
  pose proof (linked_contents _ _ Hl) as Hc.
  destruct (link_new s s' owners o) as (Hl' & Hn & Hv); [auto..|].
  eexists _, _. split_and!; [exact Hl'|auto|exact H7|]. cbv zeta. rewrite Hn, Hv, items_new.
  by rewrite H6.
Qed.

Lemma text_step_more s s' o i id t d es :
  frame s s' -> (contents s -> contents s') -> (all_open s -> all_open s') ->
  index_of s o = Some i -> (forall o', index_of s' o' = index_of s o') ->
  next_output_index s' = next_output_index s ->
  (forall o', o' <> o -> view s' o' = view s o') ->
  (contents s -> all_open s -> view s o = Open id t false /\ view s' o = Open id (t +:+ d) false) ->
  Forall2 reads_as es [SigDelta (Z.to_nat i) id d] -> step_ok s es s'.
Proof.
  intros F C O H1 H2 H3 H4 H5 H6. split; [done|]. intros owners Hl Ho.
  pose proof (linked_contents _ _ Hl) as Hc. destruct (H5 Hc Ho) as [V1 V2].
  destruct (link_same s s' owners o i) as (Hl' & Hn & Hv); [auto..|].
  eexists _, _. split_and!; [exact Hl'|auto|exact H6|]. rewrite Hv, V2.
  apply items_delta. by rewrite Hn, V1.
Qed.

Ltac owners_differ := let o := fresh in intros o ?; by destruct o.

Lemma push_text_ok delta : method_ok (push_text delta).
Proof.
  intros s es s' H. unfold push_text, allocate_output in H. destruct (str_is_empty delta).
  { apply ret_Ok in H as [-> ->]. apply step_ok_refl. }
  apply M_bind_Ok in H as (u & s1 & Hr & H). apply (step_ok_trans s [] s1); [by eapply reserve_quiet|].
  apply M_bind_Ok in H as (m & s2 & Hm & H). runs Hm. destruct (text_index (message s1)) as [i|] eqn:Ei.
  - runs H. eapply (text_step_more _ _ OMessage i (text_item_id (message s1)) (text_value (message s1)) delta);
      try done.
    + intros (C1 & C2 & C3). split_and!; [|done..]. unfold text_ok in *. simpl. by rewrite Ei in *.
    + owners_differ.
    + intros _ (O1 & _). simpl. by rewrite O1.
    + simpl. rewrite Ei. repeat constructor. reads.
  - runs H. eapply (text_step_new _ _ OMessage (message_item_id (rid s1)) delta); try done.
    + intros (C1 & C2 & C3). split_and!; done.
    + owners_differ.
    + owners_differ.
    + intros (C1 & _) (O1 & _). unfold text_ok in C1. rewrite Ei in C1. simpl. rewrite O1.
      by destruct C1 as [-> _].
    + repeat constructor; reads.
Qed.

Lemma push_reasoning_ok delta : method_ok (push_reasoning delta).
Proof.
  intros s es s' H. unfold push_reasoning, allocate_output in H. destruct (str_is_empty delta).
  { apply ret_Ok in H as [-> ->]. apply step_ok_refl. }
  apply M_bind_Ok in H as (u & s1 & Hr & H). apply (step_ok_trans s [] s1); [by eapply reserve_quiet|].
  apply M_bind_Ok in H as (m & s2 & Hm & H). runs Hm. destruct (text_index (reasoning s1)) as [i|] eqn:Ei.
  - runs H. eapply (text_step_more _ _ OReasoning i (text_item_id (reasoning s1)) (text_value (reasoning s1)) delta);
      try done.
    + intros (C1 & C2 & C3). split_and!; [done| |done]. unfold text_ok in *. simpl. by rewrite Ei in *.
    + owners_differ.
    + intros _ (_ & O1 & _). simpl. by rewrite O1.
    + simpl. rewrite Ei. repeat constructor. reads.
  - runs H. match goal with H : reserve _ _ = (Ok _, ?x) |- _ =>
      apply (step_ok_trans s1 [] x); [by eapply reserve_quiet|]; apply reserve_inv in H as [E _]; subst x end.
    eapply (text_step_new _ _ OReasoning (reasoning_item_id (rid s1)) delta); try done.
    + intros (C1 & C2 & C3). split_and!; done.
    + owners_differ.
    + owners_differ.
    + intros (_ & C1 & _) (_ & O1 & _). unfold text_ok in C1. simpl in *. rewrite Ei in C1. rewrite O1.
      by destruct C1 as [-> _].
    + repeat constructor; reads.
Qed.

(** ** Calls *)

(** The state of one call is replaced. *)
Record retool (s : ChatToResponsesStream) (key : Z) (st : ToolState) (s' : ChatToResponsesStream)
    : Prop := {
  rt_frame : frame s s';
  rt_message : message s' = message s;
  rt_reasoning : reasoning s' = reasoning s;
  rt_items : completed_items s' = completed_items s;
  rt_tools : tools s' = <[key := st]> (tools s)
}.

Definition tool_at (s : ChatToResponsesStream) (key : Z) : ToolState :=
  default tool_default (tools s !! key).

Lemma tool_default_ok t id k : tool_ok t id k tool_default.
Proof. by split. Qed.

Lemma tool_at_ok s key : contents s -> tool_ok (projection s) (rid s) key (tool_at s key).
Proof.
  intros (_ & _ & H). unfold tool_at. destruct (tools s !! key) as [st|] eqn:E; [by apply H|].
  apply tool_default_ok.
Qed.

Lemma tool_at_open s key : all_open s -> tool_done (tool_at s key) = false.
Proof.
  intros (_ & _ & H & _). unfold tool_at. destruct (tools s !! key) as [st|] eqn:E; [by eapply H|done].
Qed.

Section retool.
Context (s : ChatToResponsesStream) (key : Z) (st : ToolState) (s' : ChatToResponsesStream).
Context (Hrt : retool s key st s').

Lemma retool_contents : tool_ok (projection s) (rid s) key st -> contents s -> contents s'.
Proof.
  destruct Hrt as [[Fr _ Fj _ _ _] E1 E2 _ E4]. intros Hok (C1 & C2 & C3). unfold contents, rid in *.
  rewrite Fr, Fj, E1, E2, E4. split_and!; [done..|]. intros k st1.
  rewrite lookup_insert_Some. intros [[<- <-]|[_ H]]; [done|by apply C3].
Qed.

Lemma retool_open : tool_done st = false -> all_open s -> all_open s'.
Proof.
  destruct Hrt as [_ E1 E2 E3 E4]. intros Hd (O1 & O2 & O3 & O4). unfold all_open.
  rewrite E1, E2, E3, E4. split_and!; [done..| |done]. intros k st1.
  rewrite lookup_insert_Some. intros [[_ <-]|[_ H]]; [done|by eapply O3].
Qed.

Lemma retool_index o : o <> OTool key -> index_of s' o = index_of s o.
Proof.
  destruct Hrt as [_ E1 E2 _ E4]. destruct o as [| |k]; simpl; rewrite ?E1, ?E2, ?E4; [done..|].
  intros Hne. rewrite lookup_insert_ne by congruence. done.
Qed.
Lemma retool_index_key : index_of s' (OTool key) = tool_index st.
Proof. destruct Hrt as [_ _ _ _ E4]. simpl. by rewrite E4, lookup_insert_eq. Qed.
Lemma index_tool_at : index_of s (OTool key) = tool_index (tool_at s key).
Proof. unfold tool_at. simpl. by destruct (tools s !! key). Qed.

Lemma view_tool_frame st1 : view_tool s' key st1 = view_tool s key st1.
Proof. destruct Hrt as [[Fr _ Fj _ _ _] _ _ _ _]. unfold view_tool, tool_item, rid. by rewrite Fr, Fj. Qed.

Lemma retool_view o : o <> OTool key -> view s' o = view s o.
Proof.
  destruct Hrt as [[Fr _ Fj _ _ _] E1 E2 _ E4]. unfold view, view_tool, tool_item, rid.
  rewrite Fr, Fj, E1, E2, E4. destruct o as [| |k]; [done..|]. intros Hne.
  rewrite lookup_insert_ne by congruence. done.
Qed.
Lemma retool_view_key : view s' (OTool key) = view_tool s key st.
Proof.
  rewrite <-view_tool_frame. destruct Hrt as [_ _ _ _ E4]. simpl. by rewrite E4, lookup_insert_eq.
Qed.
Lemma view_tool_at i : tool_index (tool_at s key) = Some i ->
  view s (OTool key) = view_tool s key (tool_at s key).
Proof. unfold tool_at. simpl. by destruct (tools s !! key). Qed.

(** A call that has no place in the output stays unseen. *)
Lemma tool_step_hidden :
  (contents s -> tool_ok (projection s) (rid s) key st) -> (all_open s -> tool_done st = false) ->
  next_output_index s' = next_output_index s -> tool_index (tool_at s key) = None ->
  tool_index st = None -> step_ok s [] s'.
Proof.
  intros Hok Hd Hn H1 H2. split; [by destruct Hrt|]. intros owners Hl Ho.
  pose proof (linked_contents _ _ Hl) as Hc. pose proof (ln_index _ _ Hl) as Hix.
  destruct (retool_contents (Hok Hc) Hc) as (C1 & C2 & C3).
  exists owners, []. split_and!; [|by apply retool_open; auto|constructor|].
  - split; [|done..]. rewrite Hn. eapply indexed_ext; [|done]. intros o.
    destruct (decide (o = OTool key)) as [->|Hne]; [|by apply retool_index].
    by rewrite retool_index_key, index_tool_at, H1.
  - simpl. f_equal. symmetry. apply view_fmap_same. intros o Hin. apply retool_view. intros ->.
    apply list_elem_of_lookup in Hin as (n & Hin).
    assert (index_of s (OTool key) = Some (Z.of_nat n)) as E.
    { apply (ix_index _ _ _ Hix). rewrite Nat2Z.id. split; [lia|done]. }
    by rewrite index_tool_at, H1 in E.
Qed.

(** A call that gets its place *)
Lemma tool_step_new es sigs :
  (contents s -> tool_ok (projection s) (rid s) key st) -> (all_open s -> tool_done st = false) ->
  tool_index (tool_at s key) = None -> tool_index st = Some (next_output_index s) ->
  next_output_index s' = next_output_index s + 1 -> Forall2 reads_as es sigs ->
  (all_open s -> forall items, length items = Z.to_nat (next_output_index s) ->
     items_run sigs items = Some (items ++ [view_tool s key st])) -> step_ok s es s'.
Proof.
  intros Hok Hd H1 H2 Hn HF Hrun. split; [by destruct Hrt|]. intros owners Hl Ho.
  pose proof (linked_contents _ _ Hl) as Hc.
  destruct (link_new s s' owners (OTool key)) as (Hl' & Hlen & Hv); try done.
  - by apply retool_contents; auto.
  - by rewrite index_tool_at.
  - by rewrite retool_index_key.
  - apply retool_index.
  - apply retool_view.
  - exists (owners ++ [OTool key]), sigs. split_and!; [done|by apply retool_open; auto|done|].
    rewrite Hv, retool_view_key. by apply Hrun.
Qed.

(** A call that has its place *)
Lemma tool_step_more es sigs i :
  (contents s -> tool_ok (projection s) (rid s) key st) -> (all_open s -> tool_done st = false) ->
  tool_index (tool_at s key) = Some i -> tool_index st = Some i ->
  next_output_index s' = next_output_index s -> Forall2 reads_as es sigs ->
  (contents s -> all_open s ->
     forall items, items !! Z.to_nat i = Some (view_tool s key (tool_at s key)) ->
     items_run sigs items = Some (<[Z.to_nat i := view_tool s key st]> items)) -> step_ok s es s'.
Proof.
  intros Hok Hd H1 H2 Hn HF Hrun. split; [by destruct Hrt|]. intros owners Hl Ho.
  pose proof (linked_contents _ _ Hl) as Hc.
  destruct (link_same s s' owners (OTool key) i) as (Hl' & Hlk & Hv); try done.
  - by apply retool_contents; auto.
  - by rewrite index_tool_at.
  - intros o. destruct (decide (o = OTool key)) as [->|Hne]; [|by apply retool_index].
    by rewrite retool_index_key, index_tool_at, H1.
  - apply retool_view.
  - exists owners, sigs. split_and!; [done|by apply retool_open; auto|done|].
    rewrite Hv, retool_view_key. apply Hrun; [done..|]. rewrite Hlk. f_equal. by eapply view_tool_at.
Qed.
End retool.

(** ** Chunks of a call *)

(** What was read of a call stays, and its payload grows. *)
Record grows (st st' : ToolState) : Prop := {
  gr_index : tool_index st' = tool_index st;
  gr_item : tool_item_id st' = tool_item_id st;
  gr_emitted : tool_emitted st' = tool_emitted st;
  gr_done : tool_done st' = tool_done st;
  gr_ident : tool_ident st' = tool_ident st;
  gr_kind k : tool_kind st = Some k -> tool_kind st' = Some k;
  gr_call_id v : tool_call_id st = Some v -> tool_call_id st' = Some v;
  gr_name v : tool_name st = Some v -> tool_name st' = Some v;
  gr_payload : exists d, tool_payload st' = tool_payload st +:+ d
}.

#[local] Instance grows_preorder : PreOrder grows.
Proof.
  split.
  - intros st. split; try done. exists "". by rewrite string_app_nil_r.
  - intros a b c [A1 A2 A3 A4 A5 A6 A7 A8 [d1 A9]] [B1 B2 B3 B4 B5 B6 B7 B8 [d2 B9]].
    split; try congruence; eauto. exists (d1 +:+ d2). by rewrite B9, A9, string_app_assoc.
Qed.

Definition growing {A} (m : M (ToolState * Z) A) : Prop :=
  forall x a y, m x = (Ok a, y) -> grows x.1 y.1.

Lemma growing_bind {A B} (m : M (ToolState * Z) A) (f : A -> M (ToolState * Z) B) :
  growing m -> (forall a, growing (f a)) -> growing (m ≫= f).
Proof.
  intros Hm Hf x b y H. apply M_bind_Ok in H as (a & z & H1 & H2).
  etrans; [by eapply Hm|by eapply Hf].
Qed.
Lemma growing_ret {A} (a : A) : growing (mret a).
Proof. intros x b y H. by apply ret_Ok in H as [_ ->]. Qed.
Lemma growing_lift {A} (r : R A) : growing (lift r).
Proof. intros x b y H. by apply lift_Ok in H as [_ ->]. Qed.
Lemma growing_gets {A} (f : ToolState * Z -> A) : growing (gets f).
Proof. intros x b y H. by apply gets_Ok in H as [_ ->]. Qed.
Lemma growing_reserve n : growing (tool_reserve n).
Proof. intros x u y H. unfold tool_reserve in H. by apply zoom_Ok in H as (b & _ & ->). Qed.
Lemma growing_modify f : (forall st, grows st (f st)) -> growing (tool_modify f).
Proof. intros Hf x u y H. unfold tool_modify in H. apply modify_Ok in H as ->. apply Hf. Qed.

#[local] Hint Resolve growing_bind growing_ret growing_lift growing_gets growing_reserve : growing.

(** Runs a computation that reads the state before it changes it. *)
Lemma growing_read {A} (f : ToolState -> M (ToolState * Z) A) :
  (forall st b a y, f st (st, b) = (Ok a, y) -> grows st y.1) -> growing (st ← gets fst; f st).
Proof.
  intros Hf [st b] a y H. apply M_bind_Ok in H as (st1 & z & Hg & H). apply gets_Ok in Hg as [-> ->].
  by eapply Hf.
Qed.

Lemma observe_kind_growing object : growing (observe_kind object).
Proof.
  unfold observe_kind. repeat (apply growing_bind; [apply growing_lift|intros ?]).
  case_match; [|apply growing_ret]. clear. apply growing_read. intros st b res y H.
  destruct (tool_kind st) as [k|] eqn:E.
  - by apply lift_Ok in H as [_ ->].
  - apply M_bind_Ok in H as (u & z & Hr & H). unfold tool_reserve in Hr.
    apply zoom_Ok in Hr as (b1 & _ & ->). unfold tool_modify in H. apply modify_Ok in H as ->.
    simpl. split; simpl; try done; [congruence|]. exists "". by rewrite string_app_nil_r.
Qed.

Lemma set_once_growing target put v field :
  (forall st w, target st = None -> grows st (put (Some w) st)) ->
  growing (set_once target put v field).
Proof.
  intros Hp. unfold set_once. case_match; [|apply growing_ret].
  apply growing_bind; [apply growing_lift|]. intros w. apply growing_read. intros st b res y H1.
  destruct (target st) eqn:E.
  - by apply lift_Ok in H1 as [_ ->].
  - apply M_bind_Ok in H1 as (u & z & Hr & H1). unfold tool_reserve in Hr.
    apply zoom_Ok in Hr as (b1 & _ & ->). unfold tool_modify in H1. apply modify_Ok in H1 as ->. by apply Hp.
Qed.

Lemma append_payload_growing m : growing (append_payload m).
Proof.
  unfold append_payload. apply growing_read. intros st b a y H.
  destruct (tool_kind st) eqn:E; [|by apply ret_Ok in H as [_ ->]].
  destruct (map_get _ m); [|by apply ret_Ok in H as [_ ->]].
  revert H. apply (growing_bind _ _ (growing_lift _)). intros w.
  apply growing_bind; [apply growing_reserve|]. intros _. apply growing_modify.
  intros st1. split; simpl; try done. by exists w.
Qed.

Lemma set_call_id_grows st w : tool_call_id st = None -> grows st (set_call_id (Some w) st).
Proof. intros H. split; simpl; try done; [congruence|]. exists "". by rewrite string_app_nil_r. Qed.
Lemma set_name_grows st w : tool_name st = None -> grows st (set_name (Some w) st).
Proof. intros H. split; simpl; try done; [congruence|]. exists "". by rewrite string_app_nil_r. Qed.

(** What [observe_call] leaves: the identity of a call is found as soon as its
    kind and its name are known. *)
Lemma observe_call_inv object t x u y : observe_call object t x = (Ok u, y) ->
  exists st1, grows x.1 st1 /\
    ((y.1 = st1 /\ (tool_ident st1 = None -> tool_kind st1 = None \/ tool_name st1 = None)) \/
     (exists kind name i, tool_ident st1 = None /\ tool_kind st1 = Some kind /\
        tool_name st1 = Some name /\ active_identity kind name t = Ok i /\ y.1 = set_ident i st1)).
Proof.
  intros H. unfold observe_call in H.
  apply M_bind_Ok in H as (a1 & x1 & H1 & H). apply observe_kind_growing in H1.
  apply M_bind_Ok in H as (a2 & x2 & H2 & H). apply set_once_growing in H2; [|apply set_call_id_grows].
  apply M_bind_Ok in H as (a3 & x3 & H3 & H). apply gets_Ok in H3 as [-> ->].
  apply M_bind_Ok in H as (a4 & x4 & H4 & H). apply lift_Ok in H4 as [_ ->].
  apply M_bind_Ok in H as (a5 & x5 & H5 & H).
  assert (G : grows x2.1 x5.1).
  { destruct a4 as [m|]; [|by apply ret_Ok in H5 as [_ ->]].
    revert H5. apply growing_bind; [apply set_once_growing, set_name_grows|].
    intros _. apply append_payload_growing. }
  apply M_bind_Ok in H as (a6 & x6 & H6 & H). apply gets_Ok in H6 as [-> ->].
  exists x5.1. split; [by etrans; [|etrans; [|exact G]]|].
  destruct (tool_ident x5.1) as [i|] eqn:Ei; [by apply ret_Ok in H as [_ ->]; left|].
  destruct (tool_kind x5.1) as [kd|] eqn:Ek; [|apply ret_Ok in H as [_ ->]; left; auto].
  destruct (tool_name x5.1) as [nm|] eqn:En; [|apply ret_Ok in H as [_ ->]; left; auto].
  apply M_bind_Ok in H as (i & x7 & Hi & H). apply lift_Ok in Hi as [Hi ->].
  unfold tool_modify in H. apply modify_Ok in H as ->. right. by exists kd, nm, i.
Qed.

(** What a chunk makes of a call, as the invariant needs it *)
Record observed (t : ToolProjection) (id : string) (key : Z) (st st' : ToolState) : Prop := {
  ob_index : tool_index st' = tool_index st;
  ob_item : tool_item_id st' = tool_item_id st;
  ob_emitted : tool_emitted st' = tool_emitted st;
  ob_done : tool_done st' = tool_done st;
  ob_kind k : tool_kind st = Some k -> tool_kind st' = Some k;
  ob_ident i : tool_ident st = Some i -> tool_ident st' = Some i;
  ob_payload : exists d, tool_payload st' = tool_payload st +:+ d;
  ob_placed n : tool_ok t id key st -> tool_index st = Some n ->
    tool_ok t id key (set_emitted (String.length (tool_payload st')) st');
  ob_unplaced : tool_ok t id key st -> tool_index st = None -> tool_ok t id key st'
}.

Lemma observe_call_observed object t id key x u y : observe_call object t x = (Ok u, y) ->
  observed t id key x.1 y.1.
Proof.
  intros H. apply observe_call_inv in H as (st1 & [G1 G2 G3 G4 G5 G6 G7 G8 G9] & Hcase).
  assert (Hy : tool_index y.1 = tool_index x.1 /\ tool_item_id y.1 = tool_item_id x.1 /\
    tool_emitted y.1 = tool_emitted x.1 /\ tool_done y.1 = tool_done x.1 /\
    tool_kind y.1 = tool_kind st1 /\ tool_name y.1 = tool_name st1 /\
    tool_call_id y.1 = tool_call_id st1 /\ tool_payload y.1 = tool_payload st1 /\
    (forall i, tool_ident x.1 = Some i -> tool_ident y.1 = Some i)).
  { destruct Hcase as [[-> _]|(kd & nm & i & E & _ & _ & _ & ->)]; simpl; split_and!; congruence. }
  destruct Hy as (Y1 & Y2 & Y3 & Y4 & Y5 & Y6 & Y7 & Y8 & Y9).
  assert (I1 : tool_ok t id key x.1 -> forall i, tool_ident y.1 = Some i -> exists kind name,
    tool_kind y.1 = Some kind /\ tool_name y.1 = Some name /\ active_identity kind name t = Ok i).
  { intros K i Hi. rewrite Y5, Y6. destruct Hcase as [[E _]|(kd & nm & j & E1 & E2 & E3 & E4 & E)];
      rewrite E in Hi; simpl in Hi.
    - rewrite G5 in Hi. destruct (to_ident _ _ _ _ K i Hi) as (kd & nm & ? & ? & ?). exists kd, nm. auto.
    - injection Hi as ->. by exists kd, nm. }
  assert (I2 : forall kind name, tool_kind y.1 = Some kind -> tool_name y.1 = Some name ->
    is_Some (tool_ident y.1)).
  { intros kd nm. rewrite Y5, Y6. intros E1 E2.
    destruct Hcase as [[E Hn]|(? & ? & j & _ & _ & _ & _ & E)]; rewrite E; [|by eexists].
    destruct (tool_ident st1) eqn:Ei; [by eexists|]. destruct (Hn eq_refl); congruence. }
  split; try done; [intros k Hk; rewrite Y5; auto|by rewrite Y8| |].
  - intros n K Ex. destruct (to_placed _ _ _ _ K n Ex) as (i & c & E1 & E2 & E3 & E4).
    split; simpl; [by apply I1|done| |congruence].
    intros m Hm. exists i, c. rewrite Y7, Y2. split_and!; auto.
  - intros K Ex. split; [by apply I1|done|congruence|]. intros _. rewrite Y3, Y4.
    by apply (to_unplaced _ _ _ _ K).
Qed.

(** ** Announcing a call and passing its payload on *)

Lemma call_fields_status id index c call status :
  map_get "status" (call_fields id index c call status) = Some (JString status).
Proof. by destruct call as [n [ns|] a|n [ns|] a|a]. Qed.

Lemma place_call_inv key st s added st' s' : place_call key st s = (Ok (added, st'), s') ->
  exists ident call_id e, tool_ident st = Some ident /\ tool_call_id st = Some call_id /\
    st' = set_placed (next_output_index s) (tool_id_of (rid s) key ident) st /\
    s' = set_next_output_index (next_output_index s + 1) s /\ added = [e] /\
    reads_as e (SigAdded (Z.to_nat (next_output_index s)) (tool_id_of (rid s) key ident)).
Proof.
  intros H. unfold place_call, allocate_output in H. runs H. simplify_eq.
  unfold tool_item_id_of in *. destruct (tool_ident st) as [i|] eqn:Ei; [|done].
  cbn [ok_or mbind R_bind] in *. match goal with H : mret _ = Ok _ |- _ => apply R_ret_Ok in H as -> end.
  match goal with H : added_event _ _ = Ok _ |- _ => unfold added_event in H; simpl in H; rewrite Ei in H;
    cbn [ok_or mbind R_bind] in H end.
  destruct (tool_call_id st) as [c|] eqn:Ec; [|done]. cbn [ok_or mbind R_bind] in *.
  match goal with H : mret _ = Ok _ |- _ => apply R_ret_Ok in H as -> end.
  apply ret_Ok in H as [H ->]. injection H as -> ->. eexists i, c, _. split_and!; try done.
  apply reads_added; unfold text_at; cbn [get].
  - rewrite map_get_insert. by destruct i.
  - rewrite map_get_insert_ne by done. by rewrite call_fields_status.
Qed.

Lemma string_drop_app p d : string_drop (String.length p) (p +:+ d) = d.
Proof. unfold string_drop. apply Plain.substring_app. rewrite string_length_app. lia. Qed.

Lemma set_emitted_same st : set_emitted (tool_emitted st) st = st.
Proof. by destruct st. Qed.

Lemma emit_spec st i p d : tool_index st = Some i -> tool_payload st = p +:+ d ->
  tool_emitted st = String.length p ->
  exists es sigs, emit_payload_delta st = (es, set_emitted (String.length (tool_payload st)) st) /\
    Forall2 reads_as es sigs /\
    forall items, items !! Z.to_nat i = Some (Open (tool_item_id st) (if direct st then p else "") false) ->
      items_run sigs items = Some (<[Z.to_nat i :=
        Open (tool_item_id st) (if direct st then tool_payload st else "") false]> items).
Proof.
  intros Hi Hp He. unfold emit_payload_delta. rewrite Hi, Hp, He, string_length_app, string_drop_app.
  destruct (Nat.leb_spec (String.length p + String.length d) (String.length p)) as [Hle|Hlt].
  - assert (d = "") as -> by (destruct d; simpl in *; [done|lia]).
    exists [], []. rewrite string_app_nil_r, Nat.add_0_r, <-He, set_emitted_same. split_and!; [done|constructor|].
    intros items Hit. simpl. by rewrite list_insert_id.
  - assert (Hdir : forall es, (direct st = true -> exists kind, es = [call_delta kind (tool_item_id st) i d] /\
        forall id j x, reads_as (call_delta kind id j x) (SigDelta (Z.to_nat j) id x)) ->
      (direct st = false -> es = []) -> exists sigs, Forall2 reads_as es sigs /\
      forall items, items !! Z.to_nat i = Some (Open (tool_item_id st) (if direct st then p else "") false) ->
      items_run sigs items = Some (<[Z.to_nat i :=
        Open (tool_item_id st) (if direct st then p +:+ d else "") false]> items)).
    { intros es H1 H2. destruct (direct st).
      - destruct (H1 eq_refl) as (kind & -> & Hr). exists [SigDelta (Z.to_nat i) (tool_item_id st) d].
        split; [by repeat constructor|]. intros items Hit. by apply items_delta.
      - rewrite H2 by done. exists []. split; [constructor|]. intros items Hit. simpl.
        by rewrite list_insert_id. }
    revert Hdir. unfold direct.
    destruct (tool_ident st) as [[]|]; try case_bool_decide; intros Hdir;
      (edestruct Hdir as (sigs & HF & Hrun); [| |eexists _, sigs; split_and!; [reflexivity|exact HF|exact Hrun]]);
      intros Hd; try done; eexists; (split; [reflexivity|]);
      first [exact reads_function_delta|exact reads_custom_delta].
Qed.

Lemma direct_frame i e n st : direct (set_emitted e (set_placed i n st)) = direct st.
Proof. done. Qed.

(** A call that has no place yet, after a chunk of it *)
Lemma push_tool_places s key st s' added st1 s1 deltas st2 :
  retool s key st2 s' -> observed (projection s) (rid s) key (tool_at s key) st ->
  tool_index st = None -> rid s1 = rid s -> next_output_index s1 = next_output_index s ->
  place_call key st s1 = (Ok (added, st1), set_next_output_index (next_output_index s + 1) s1) ->
  emit_payload_delta st1 = (deltas, st2) -> next_output_index s' = next_output_index s + 1 ->
  step_ok s (added ++ deltas) s'.
Proof.
  intros Hrt Hob Hix Hrid Hnx Hp He Hn. split; [by destruct Hrt|]. intros owners Hl Ho.
  pose proof (linked_contents _ _ Hl) as Hc. pose proof (tool_at_ok _ key Hc) as Hok0.
  pose proof (ob_index _ _ _ _ _ Hob) as Hi0. rewrite Hix in Hi0.
  pose proof (ob_unplaced _ _ _ _ _ Hob Hok0 (eq_sym Hi0)) as Hok.
  destruct (to_unplaced _ _ _ _ Hok Hix) as [Hem Hdn].
  apply place_call_inv in Hp as (ident & cid & e & E1 & E2 & -> & _ & -> & Hr).
  rewrite Hrid, Hnx in *. destruct (emit_spec (set_placed (next_output_index s) (tool_id_of (rid s) key ident) st)
    (next_output_index s) "" (tool_payload st)) as (es & sigs & Ee & HF & Hrun); [done..|].
  rewrite Ee in He. injection He as <- <-. simpl in Hrun.
  refine (proj2 (tool_step_new s key _ s' Hrt ([e] ++ es) (SigAdded (Z.to_nat (next_output_index s))
    (tool_id_of (rid s) key ident) :: sigs) _ _ _ _ _ _ _) owners Hl Ho); try done.
  - intros _. destruct Hok as [K1 K2 K3 K4]. split; simpl; [done..| |done]. intros i _. by exists ident, cid.
  - by constructor.
  - intros _ items Hlen. cbn [items_run items_step]. rewrite bool_decide_true by done.
    cbn [mbind option_bind]. rewrite Hrun.
    + f_equal. rewrite insert_app_r_alt by lia. rewrite <-Hlen, Nat.sub_diag. simpl. f_equal. f_equal.
      unfold view_tool. rewrite direct_frame. simpl. by rewrite Hdn.
    + rewrite lookup_app_r by lia. rewrite Hlen, Nat.sub_diag. simpl. by case_match.
Qed.

(** A call that has its place, after a chunk of it *)
Lemma push_tool_extends s key st s' deltas st2 :
  retool s key st2 s' -> observed (projection s) (rid s) key (tool_at s key) st ->
  tool_index st <> None -> emit_payload_delta st = (deltas, st2) ->
  next_output_index s' = next_output_index s -> step_ok s deltas s'.
Proof.
  intros Hrt Hob Hix He Hn. split; [by destruct Hrt|]. intros owners Hl Ho.
  pose proof (linked_contents _ _ Hl) as Hc. pose proof (tool_at_ok _ key Hc) as Hok0.
  pose proof (ob_index _ _ _ _ _ Hob) as Hi0. destruct (tool_index st) as [i|] eqn:Ei; [|done].
  symmetry in Hi0. pose proof (ob_placed _ _ _ _ _ Hob i Hok0 Hi0) as Hok.
  destruct (to_placed _ _ _ _ Hok0 i Hi0) as (ident & cid & E1 & E2 & E3 & E4).
  destruct (ob_payload _ _ _ _ _ Hob) as [d Hd].
  assert (Hdir : direct st = direct (tool_at s key)).
  { unfold direct. rewrite E1, (ob_ident _ _ _ _ _ Hob _ E1).
    destruct (to_ident _ _ _ _ Hok0 _ E1) as (kd & nm & Ek & _).
    by rewrite Ek, (ob_kind _ _ _ _ _ Hob _ Ek). }
  destruct (emit_spec st i (tool_payload (tool_at s key)) d) as (es & sigs & Ee & HF & Hrun);
    [done|done|by rewrite (ob_emitted _ _ _ _ _ Hob)|].
  rewrite Ee in He. injection He as <- <-.
  assert (Hdn : tool_done (tool_at s key) = false) by (by apply tool_at_open).
  refine (proj2 (tool_step_more s key _ s' Hrt es sigs i _ _ _ _ _ _ _) owners Hl Ho); try done.
  - intros _. simpl. by rewrite (ob_done _ _ _ _ _ Hob).
  - intros _ _ items Hit. rewrite Hrun.
    + f_equal. f_equal. unfold view_tool. simpl. by rewrite (ob_done _ _ _ _ _ Hob), Hdn.
    + rewrite Hit. unfold view_tool. by rewrite Hdn, Hdir, (ob_item _ _ _ _ _ Hob).
Qed.

Lemma emit_unplaced st : tool_index st = None -> emit_payload_delta st = ([], st).
Proof. intros H. unfold emit_payload_delta. by rewrite H. Qed.

Lemma push_tool_ok call : method_ok (push_tool call).
Proof.
  intros s es s' H. unfold push_tool in H.
  apply M_bind_Ok in H as (object & s0 & H0 & H). apply lift_Ok in H0 as [_ ->].
  apply M_bind_Ok in H as (key & s0 & H0 & H). apply lift_Ok in H0 as [_ ->].
  apply M_bind_Ok in H as (s0 & s1 & H0 & H). apply gets_Ok in H0 as [-> ->].
  apply M_bind_Ok in H as (u & s1 & H0 & H). apply (step_ok_trans s [] s1).
  { case_match; [by eapply reserve_quiet|]. apply ret_Ok in H0 as [_ ->]. apply step_ok_refl. }
  assert (Hproj : projection (id s) = projection s1).
  { case_match; [by apply reserve_inv in H0 as [-> _]|]. by apply ret_Ok in H0 as [_ ->]. }
  rewrite Hproj in H. clear H0 Hproj.
  apply M_bind_Ok in H as (u1 & s2 & Hz & H). apply zoom_Ok in Hz as ([st b] & Hz & ->).
  apply (observe_call_observed _ _ (rid s1) key) in Hz. simpl in Hz.
  apply M_bind_Ok in H as (st0 & s3 & Hg & H). apply gets_Ok in Hg as [-> ->].
  cbn [set_continuation_bytes set_tool tools set_tools fst snd] in H. rewrite lookup_insert_eq in H. cbn [default from_option id] in H.
  apply M_bind_Ok in H as ([added st1] & s4 & Hp & H).
  destruct (emit_payload_delta st1) as [deltas st2] eqn:Hem.
  apply M_bind_Ok in H as (u2 & s5 & Hm & H). apply modify_Ok in Hm as ->.
  apply ret_Ok in H as [-> ->].
  destruct (streamable st && bool_decide (tool_index st = None)) eqn:Hs.
  - apply andb_true_iff in Hs as [_ Hs%bool_decide_eq_true_1].
    pose proof (place_call_inv _ _ _ _ _ _ Hp) as (_ & _ & _ & _ & _ & _ & -> & _).
    eapply (push_tool_places s1 key st); [|exact Hz|exact Hs| | |exact Hp|exact Hem|]; try done.
    split; try done. simpl. by rewrite insert_insert_eq.
  - apply ret_Ok in Hp as [Hp ->]. injection Hp as -> ->. simpl.
    assert (Hrt : retool s1 key st2 (set_tool key st2 (set_continuation_bytes b (set_tool key st s1)))).
    { split; try done. simpl. by rewrite insert_insert_eq. }
    destruct (decide (tool_index st = None)) as [Hix|Hix].
    + rewrite emit_unplaced in Hem by done. injection Hem as <- <-.
      eapply (tool_step_hidden s1 key st _ Hrt); try done.
      * intros Hc. apply (ob_unplaced _ _ _ _ _ Hz); [by apply tool_at_ok|].
        by rewrite <-(ob_index _ _ _ _ _ Hz).
      * intros Ho. rewrite (ob_done _ _ _ _ _ Hz). by apply tool_at_open.
      * unfold tool_at. by rewrite <-(ob_index _ _ _ _ _ Hz).
    + by eapply (push_tool_extends s1 key st _ deltas st2 Hrt Hz).
Qed.

(** ** Chunks *)

Lemma quiet_bind {A B} (m : SM A) (f : A -> SM B) :
  quiet_method m -> (forall a, quiet_method (f a)) -> quiet_method (m ≫= f).
Proof.
  intros Hm Hf s b s' H. apply M_bind_Ok in H as (a & s1 & H1 & H2).
  apply (step_ok_trans s [] s1 []); [by eapply Hm|by eapply Hf].
Qed.
Lemma quiet_ret {A} (a : A) : quiet_method (mret a).
Proof. intros s b s' H. apply ret_Ok in H as [_ ->]. apply step_ok_refl. Qed.
Lemma quiet_lift {A} (r : R A) : quiet_method (lift r).
Proof. intros s b s' H. apply lift_Ok in H as [_ ->]. apply step_ok_refl. Qed.
Lemma quiet_gets {A} (f : ChatToResponsesStream -> A) : quiet_method (gets f).
Proof. intros s b s' H. apply gets_Ok in H as [_ ->]. apply step_ok_refl. Qed.
Lemma quiet_modify f : (forall s, step_ok s [] (f s)) -> quiet_method (modify f).
Proof. intros Hf s u s' H. apply modify_Ok in H as ->. apply Hf. Qed.

Ltac quiet :=
  repeat match goal with
  | |- quiet_method (_ ≫= _) => apply quiet_bind; [|intros ?]
  | |- quiet_method (mret _) => apply quiet_ret
  | |- quiet_method (lift _) => apply quiet_lift
  | |- quiet_method (gets _) => apply quiet_gets
  | |- quiet_method (modify _) => apply quiet_modify; intros ?; by apply step_ok_quiet
  | |- quiet_method (match ?x with _ => _ end) => destruct x
  end.

Lemma observe_metadata_quiet v : quiet_method (observe_metadata v).
Proof. unfold observe_metadata, observe_created, observe_model. quiet. Qed.
Lemma observe_usage_quiet v : quiet_method (observe_usage v).
Proof. unfold observe_usage. quiet. Qed.
Lemma validate_role_quiet v : quiet_method (validate_role v).
Proof. unfold validate_role. quiet. Qed.
Lemma apply_finish_reason_quiet v : quiet_method (apply_finish_reason v).
Proof. unfold apply_finish_reason. quiet. Qed.

Lemma method_ret : method_ok (mret []).
Proof. intros s es s' H. apply ret_Ok in H as [-> ->]. apply step_ok_refl. Qed.
Lemma method_lift_err e : method_ok (lift (Err e)).
Proof. intros s es s' H. by apply lift_Ok in H as [? _]. Qed.

Lemma apply_delta_ok delta : method_ok (apply_delta delta).
Proof.
  intros s es s' H. unfold apply_delta in H.
  apply M_bind_Ok in H as (u & s1 & H1 & H). apply validate_role_quiet in H1.
  apply M_bind_Ok in H as (u2 & s2 & H2 & H). apply lift_Ok in H2 as [_ ->].
  apply M_bind_Ok in H as (p & s2 & H2 & H). apply gets_Ok in H2 as [-> ->].
  apply M_bind_Ok in H as (th & s2 & H2 & H). apply lift_Ok in H2 as [_ ->].
  apply M_bind_Ok in H as (e1 & s2 & H2 & H). apply M_bind_Ok in H as (e2 & s3 & H3 & H).
  apply M_bind_Ok in H as (e3 & s4 & H4 & H). apply ret_Ok in H as [-> ->].
  apply (step_ok_trans s [] s1); [done|]. apply (step_ok_trans s1 e1 s2).
  { destruct th; [exact (push_reasoning_ok _ _ _ _ H2)|exact (method_ret _ _ _ H2)]. }
  apply (step_ok_trans s2 e2 s3).
  { repeat case_match; first [exact (push_text_ok _ _ _ _ H3)|exact (method_ret _ _ _ H3)|
      exact (method_lift_err _ _ _ _ H3)]. }
  repeat case_match; first [exact (each_m_ok push_tool _ push_tool_ok _ _ _ H4)|
    exact (method_ret _ _ _ H4)|exact (method_lift_err _ _ _ _ H4)].
Qed.

Lemma apply_choices_ok choices : method_ok (apply_choices choices).
Proof.
  intros s es s' H. unfold apply_choices in H. destruct choices as [|choice [|]];
    [by eapply method_ret| |by eapply method_lift_err].
  apply M_bind_Ok in H as (s1 & s2 & H2 & H). apply gets_Ok in H2 as [-> ->].
  apply M_bind_Ok in H as (u & s2 & H2 & H). apply lift_Ok in H2 as [_ ->].
  apply M_bind_Ok in H as (m & s2 & H2 & H). apply lift_Ok in H2 as [_ ->].
  apply M_bind_Ok in H as (u1 & s2 & H2 & H). apply lift_Ok in H2 as [_ ->].
  apply M_bind_Ok in H as (d & s2 & H2 & H). apply lift_Ok in H2 as [_ ->].
  apply M_bind_Ok in H as (e & s2 & H2 & H). apply apply_delta_ok in H2.
  apply M_bind_Ok in H as (u2 & s3 & H3 & H). apply apply_finish_reason_quiet in H3.
  apply ret_Ok in H as [-> ->]. rewrite <-(app_nil_r e). by eapply step_ok_trans.
Qed.

(** * The start *)

Ltac by_decision := match goal with |- ?P => exact (bool_decide_unpack P I) end.

(** What is echoed of a request never covers what the bridge says itself. *)
Definition echo_ok (p : ResponseProjection) : Prop :=
  Forall (fun e => e.1 ∈ ECHO_FIELDS) (echoed_fields p).

Lemma echo_fields_new id m request now : echo_ok (response_projection_new id m request now).
Proof.
  assert (Hins : forall k v m, k ∈ ECHO_FIELDS -> Forall (fun e => e.1 ∈ ECHO_FIELDS) m ->
    Forall (fun e : string * Value => e.1 ∈ ECHO_FIELDS) (map_insert k v m)).
  { intros k v m0 Hk Hm. apply Forall_forall. intros e [->|He]%elem_of_map_insert; [done|].
    rewrite Forall_forall in Hm. auto. }
  assert (Hor : forall k v m, k ∈ ECHO_FIELDS -> Forall (fun e => e.1 ∈ ECHO_FIELDS) m ->
    Forall (fun e : string * Value => e.1 ∈ ECHO_FIELDS) (or_insert k v m)).
  { intros k v m0 Hk Hm. unfold or_insert. case_match; auto. }
  unfold echo_ok. cbn [response_projection_new echoed_fields].
  apply Hor; [by_decision|]. apply Hor; [by_decision|].
  destruct (as_object request) as [source|]; [|done].
  assert (Hall : forall l m, Forall (fun f => f ∈ ECHO_FIELDS) l -> Forall (fun e => e.1 ∈ ECHO_FIELDS) m ->
    Forall (fun e => e.1 ∈ ECHO_FIELDS) (foldl (fun m field => match map_get field source with
      | Some v => map_insert field v m | None => m end) m l)).
  { induction l as [|f l IH]; intros m0 Hl Hm; [done|]. apply Forall_cons in Hl as [Hf Hl]. simpl.
    apply IH; [done|]. case_match; auto. }
  apply Hall; [|done]. by apply Forall_forall.
Qed.

Lemma base_get p status output created m usage k : echo_ok p -> k ∉ ECHO_FIELDS ->
  map_get k (base_fields p status output created m usage)
  = map_get k (fields [("id", JString (response_id p)); ("object", JString "response");
      ("created_at", num created); ("status", JString status); ("model", JString m);
      ("output", JArray output); ("error", JNull); ("incomplete_details", JNull); ("usage", usage)]).
Proof.
  intros He Hk. unfold base_fields. rewrite map_get_extend.
  destruct (map_get k (rev (echoed_fields p))) as [v|] eqn:E; [|done].
  apply map_get_elem_of, list_elem_of_In, in_rev, list_elem_of_In in E. unfold echo_ok in He.
  rewrite Forall_forall in He. by apply He in E.
Qed.

Lemma base_id p status output created m usage : echo_ok p ->
  map_get "id" (base_fields p status output created m usage) = Some (JString (response_id p)).
Proof. intros He. rewrite base_get; [done|done|by_decision]. Qed.
Lemma base_status p status output created m usage : echo_ok p ->
  map_get "status" (base_fields p status output created m usage) = Some (JString status).
Proof. intros He. rewrite base_get; [done|done|by_decision]. Qed.
Lemma base_output p status output created m usage : echo_ok p ->
  map_get "output" (base_fields p status output created m usage) = Some (JArray output).
Proof. intros He. rewrite base_get; [done|done|by_decision]. Qed.

(** Two states the client and the invariant do not tell apart *)
Record alike (s s' : ChatToResponsesStream) : Prop := {
  al_response : response s' = response s;
  al_projection : projection s' = projection s;
  al_next : next_output_index s' = next_output_index s;
  al_message : message s' = message s;
  al_reasoning : reasoning s' = reasoning s;
  al_tools : tools s' = tools s
}.

Lemma alike_view s s' o : alike s s' -> view s' o = view s o.
Proof.
  intros [E1 E2 _ E4 E5 E6]. unfold view, view_tool, tool_item, rid. by rewrite E1, E2, E4, E5, E6.
Qed.

Lemma alike_views s s' (owners : list Owner) : alike s s' -> view s' <$> owners = view s <$> owners.
Proof. intros Ha. apply view_fmap_same. intros o _. by apply alike_view. Qed.

Lemma alike_linked s s' owners : alike s s' -> linked s owners -> linked s' owners.
Proof.
  intros [E1 E2 E3 E4 E5 E6] [A B C D].
  split; unfold rid in *; rewrite ?E1, ?E2, ?E3, ?E4, ?E5, ?E6; [|done..].
  apply (indexed_ext (index_of s)); [|done]. intros []; simpl; by rewrite ?E4, ?E5, ?E6.
Qed.

(** The client and the translator agree. *)
Record follows (s : ChatToResponsesStream) (c : Client) : Prop := {
  fo_next : client_next c = next_sequence_number s;
  fo_ended : completed s = true -> client_phase c = Ended;
  fo_open : completed s = false -> exists owners, linked s owners /\ all_open s /\
    client_items c = view s <$> owners /\
    if started s then client_phase c = Running /\ client_id c = Some (rid s)
    else client_phase c = Fresh /\ owners = []
}.

(** What never changes *)
Definition static_ok (s : ChatToResponsesStream) : Prop :=
  echo_ok (response s) /\ projection_ok (projection s).

Lemma reads_created s kind : echo_ok (response s) ->
  reads_as (event "response.created" (json_object [("type", JString "response.created");
    ("response", JObject (stream_base s "in_progress" [] JNull))]) kind) (SigCreated (rid s)).
Proof.
  intros He. eexists. split_and!; [reflexivity..|].
  change (SigCreated <$> (if bool_decide (text_at "status" (JObject (stream_base s "in_progress" [] JNull))
    = Some "in_progress") then text_at "id" (JObject (stream_base s "in_progress" [] JNull)) else None)
    = Some (SigCreated (rid s))).
  unfold text_at, stream_base. cbn [get]. rewrite base_status, base_id by done. done.
Qed.
Lemma reads_in_progress s kind : echo_ok (response s) ->
  reads_as (event "response.in_progress" (json_object [("type", JString "response.in_progress");
    ("response", JObject (stream_base s "in_progress" [] JNull))]) kind) (SigInProgress (rid s)).
Proof.
  intros He. eexists. split_and!; [reflexivity..|].
  change (SigInProgress <$> (if bool_decide (text_at "status" (JObject (stream_base s "in_progress" [] JNull))
    = Some "in_progress") then text_at "id" (JObject (stream_base s "in_progress" [] JNull)) else None)
    = Some (SigInProgress (rid s))).
  unfold text_at, stream_base. cbn [get]. rewrite base_status, base_id by done. done.
Qed.

Lemma start_signals id c : client_phase c = Fresh ->
  signals_run [SigCreated id; SigInProgress id] c
  = Some {| client_next := client_next c + 1 + 1; client_phase := Running; client_id := Some id;
            client_items := [] |}.
Proof.
  intros Hp. simpl. unfold client_step. rewrite Z.eqb_refl, Hp. simpl.
  rewrite Z.eqb_refl. simpl. by rewrite bool_decide_true.
Qed.

(** What a running stream and its client share *)
Definition running (s : ChatToResponsesStream) (c : Client) (owners : list Owner) : Prop :=
  linked s owners /\ client_items c = view s <$> owners /\
  client_phase c = Running /\ client_id c = Some (rid s).

Lemma ensure_started_ok s c e0 s1 owners : static_ok s -> linked s owners ->
  client_items c = view s <$> owners ->
  (if started s then client_phase c = Running /\ client_id c = Some (rid s)
   else client_phase c = Fresh /\ owners = []) ->
  ensure_started s = (Ok e0, s1) ->
  exists sigs c1, Forall2 reads_as e0 sigs /\ signals_run sigs c = Some c1 /\
    running s1 c1 owners /\ alike s s1 /\ started s1 = true /\ completed s1 = completed s /\
    completed_items s1 = completed_items s /\ next_sequence_number s1 = next_sequence_number s /\
    finish_reason s1 = finish_reason s /\ stream_profile s1 = stream_profile s.
Proof.
  intros [He _] Hl Hi Hp H. unfold ensure_started in H.
  apply M_bind_Ok in H as (s0 & s2 & Hg & H). apply gets_Ok in Hg as [-> ->].
  change (id s) with s in H. destruct (started s) eqn:Es.
  - apply ret_Ok in H as [-> ->]. destruct Hp as [Hp1 Hp2]. exists [], c.
    by split_and!; [constructor|..].
  - apply M_bind_Ok in H as (u & s2 & Hm & H). apply modify_Ok in Hm as ->.
    apply ret_Ok in H as [-> ->]. destruct Hp as [Hp1 ->].
    exists [SigCreated (rid s); SigInProgress (rid s)]. eexists. split_and!.
    + constructor; [by apply reads_created|]. constructor; [by apply reads_in_progress|constructor].
    + by apply start_signals.
    + split_and!; [|done..]. by apply (alike_linked s).
    + done.
    + done. + done. + done. + done. + done. + done.
Qed.

(** * Chunks and their client *)

Definition open_follows (s : ChatToResponsesStream) (c : Client) (owners : list Owner) : Prop :=
  linked s owners /\ all_open s /\ client_items c = view s <$> owners /\
  if started s then client_phase c = Running /\ client_id c = Some (rid s)
  else client_phase c = Fresh /\ owners = [].

Lemma quiet_follows s s' c owners : step_ok s [] s' -> open_follows s c owners ->
  exists owners', open_follows s' c owners'.
Proof.
  intros [F H] (Hl & Ho & Hi & Hp). destruct (H owners Hl Ho) as (o' & sigs & Hl' & Ho' & HF & Hr).
  apply Forall2_nil_inv_l in HF as ->. injection Hr as Hr. exists o'. split_and!; [done..|congruence|].
  rewrite (fr_started _ _ F). unfold rid in *. rewrite (fr_response _ _ F).
  destruct (started s); [done|]. destruct Hp as [Hp ->]. split; [done|]. by destruct o'.
Qed.

Lemma static_frame s s' : frame s s' -> static_ok s -> static_ok s'.
Proof. intros [E1 _ E3 _ _ _]. unfold static_ok. by rewrite E1, E3. Qed.

(** Events of a running stream, numbered and read *)
Lemma sequence_follows c e0 sigs0 c0 e1 s1 s2 events s3 owners :
  Forall2 reads_as e0 sigs0 -> signals_run sigs0 c = Some c0 -> running s1 c0 owners -> all_open s1 ->
  step_ok s1 e1 s2 -> client_next c = next_sequence_number s2 -> started s1 = true ->
  completed s1 = false -> sequence_events (e0 ++ e1) s2 = (Ok events, s3) ->
  exists c', client_run events c = Some c' /\ follows s3 c' /\ frame s1 (set_next_sequence_number (next_sequence_number s1) s3).
Proof.
  intros HF0 Hs0 (Hl & Hi & Hp & Hid) Ho [F H] Hn Hst Hcm Hseq.
  destruct (H owners Hl Ho) as (o' & sigs & Hl' & Ho' & HF & Hr).
  rewrite <-Hi in Hr. apply items_signals in Hr; [|done].
  destruct (sequence_events_run (e0 ++ e1) (sigs0 ++ sigs) s2 events s3 c
    (with_items c0 (client_next c0 + Zlen sigs) (view s2 <$> o'))) as (Hrun & Hn' & Hs3);
    [by apply Forall2_app|done|done|by rewrite signals_run_app, Hs0|].
  exists (with_items c0 (client_next c0 + Zlen sigs) (view s2 <$> o')). split; [done|].
  assert (Ha : alike s2 s3) by (rewrite Hs3; by split).
  assert (Ho3 : all_open s3) by (rewrite Hs3; done).
  assert (E : started s3 = true /\ completed s3 = false /\ response s3 = response s1).
  { rewrite Hs3. simpl. destruct F. split_and!; congruence. }
  destruct E as (E1 & E2 & E3). split.
  - split; [done|by rewrite E2|]. intros _. exists o'. split_and!; [by eapply alike_linked|done| |].
    + simpl. symmetry. by apply alike_views.
    + rewrite E1. unfold rid in *. by rewrite E3.
  - rewrite Hs3. destruct F. by split; simpl.
Qed.

Lemma reads_failure v f e : failure_convert v f = Ok e -> reads_as e SigError /\ synth_termination e = Failed.
Proof.
  unfold failure_convert. intros H.
  apply R_bind_Ok in H as (source & _ & H). apply R_bind_Ok in H as (m & _ & H).
  apply R_bind_Ok in H as (cd & _ & H). apply R_bind_Ok in H as (ty & _ & H).
  apply R_bind_Ok in H as (pr & _ & H). apply R_ret_Ok in H as ->. split; [reads|done].
Qed.

Lemma failure_follows s c e s1 events : client_phase c <> Ended -> reads_as e SigError ->
  client_next c = next_sequence_number s -> sequence_events [e] s = (Ok events, s1) ->
  exists c', client_run events c = Some c' /\ follows (set_completed true s1) c' /\
    frame s (set_next_sequence_number (next_sequence_number s) s1).
Proof.
  intros Hp Hr Hn Hseq.
  set (c' := {| client_next := client_next c + 1; client_phase := Ended; client_id := client_id c;
                client_items := client_items c |}).
  destruct (sequence_events_run [e] [SigError] s events s1 c c') as (Hrun & Hn' & Hs);
    [by repeat constructor|done|done| |].
  { simpl. unfold client_step. rewrite Z.eqb_refl. simpl. by destruct (client_phase c). }
  exists c'. split_and!; [done|by split|]. rewrite Hs. by split.
Qed.

Lemma open_not_ended s c owners : open_follows s c owners -> client_phase c <> Ended.
Proof. intros (_ & _ & _ & H). destruct (started s); destruct H as [-> _]; done. Qed.

Lemma static_sequence s s' n : frame s (set_next_sequence_number n s') -> static_ok s -> static_ok s'.
Proof. intros [E1 _ E3 _ _ _]. simpl in *. unfold static_ok. by rewrite E1, E3. Qed.

Lemma push_value_follows value end_ f s c u s' owners : static_ok s -> completed s = false ->
  client_next c = next_sequence_number s -> open_follows s c owners ->
  push_value value end_ f s = (Ok u, s') ->
  exists c', client_run (update_events u) c = Some c' /\ follows s' c' /\ static_ok s'.
Proof.
  intros Hst Hcm Hn Hf H. unfold push_value in H.
  apply M_bind_Ok in H as (u1 & s1 & H1 & H). apply observe_usage_quiet in H1.
  destruct (quiet_follows _ _ _ _ H1 Hf) as (o1 & Hf1). destruct H1 as [F1 _].
  apply (static_frame _ _ F1) in Hst. rewrite <-(fr_sequence _ _ F1) in Hn.
  rewrite <-(fr_completed _ _ F1) in Hcm. clear F1 Hf.
  case_bool_decide as Ef.
  { apply M_bind_Ok in H as (e & s2 & H1 & H). apply lift_Ok in H1 as [H1 ->].
    apply M_bind_Ok in H as (ev & s2 & H2 & H). apply M_bind_Ok in H as (u2 & s3 & H3 & H).
    apply modify_Ok in H3 as ->. apply ret_Ok in H as [-> ->]. apply reads_failure in H1 as [H1 _].
    destruct (failure_follows s1 c e s2 ev) as (c' & Hr & Hfo & F); [by eapply open_not_ended|done..|].
    exists c'. split_and!; [done..|]. exact (static_sequence _ _ _ F Hst). }
  apply M_bind_Ok in H as (u2 & s2 & H2 & H). apply observe_metadata_quiet in H2.
  destruct (quiet_follows _ _ _ _ H2 Hf1) as (o2 & (Hl & Ho & Hi & Hp)). destruct H2 as [F2 _].
  apply (static_frame _ _ F2) in Hst. rewrite <-(fr_sequence _ _ F2) in Hn.
  rewrite <-(fr_completed _ _ F2) in Hcm. clear F2.
  apply M_bind_Ok in H as (e0 & s3 & H3 & H).
  destruct (ensure_started_ok _ _ _ _ _ Hst Hl Hi Hp H3)
    as (sigs & c1 & HF & Hrun & Hrn & Hal & E1 & E2 & E3 & E4 & _ & _).
  assert (Ho3 : all_open s3).
  { unfold all_open in *. rewrite (al_message _ _ Hal), (al_reasoning _ _ Hal), (al_tools _ _ Hal), E3. done. }
  assert (Hst3 : static_ok s3).
  { unfold static_ok in *. by rewrite (al_response _ _ Hal), (al_projection _ _ Hal). }
  rewrite <-E4 in Hn. rewrite <-E2 in Hcm.
  assert (Hfin : forall e1 s4 events s5, step_ok s3 e1 s4 -> sequence_events (e0 ++ e1) s4 = (Ok events, s5) ->
    exists c', client_run events c = Some c' /\ follows s5 c' /\ static_ok s5).
  { intros e1 s4 events s5 Hs Hseq. pose proof Hs as [F _].
    destruct (sequence_follows c e0 sigs c1 e1 s3 s4 events s5 o2) as (c' & Hr & Hfo & F');
      [done..|by rewrite (fr_sequence _ _ F)|done|done|done|].
    exists c'. split_and!; [done..|]. exact (static_sequence _ _ _ F' Hst3). }
  destruct (get "choices" value) as [[]|]; try by apply lift_Ok in H as [? _].
  - apply M_bind_Ok in H as (e1 & s4 & H4 & H). apply apply_choices_ok in H4.
    apply M_bind_Ok in H as (s5 & s6 & H5 & H). apply gets_Ok in H5 as [-> ->].
    apply M_bind_Ok in H as (u5 & s6 & H5 & H). apply lift_Ok in H5 as [_ ->].
    apply M_bind_Ok in H as (ev & s6 & H5 & H). apply ret_Ok in H as [-> ->]. by eapply Hfin.
  - match type of H with (if ?b then _ else _) _ = _ => destruct b end;
      [|by apply lift_Ok in H as [? _]].
    apply M_bind_Ok in H as (ev & s6 & H5 & H). apply ret_Ok in H as [-> ->].
    apply (Hfin [] s3); [apply step_ok_refl|by rewrite app_nil_r].
Qed.

(** * The end *)

(** What was collected for the answer is what was closed. *)
Definition collected (s : ChatToResponsesStream) (owners : list Owner) : Prop :=
  NoDup (completed_items s).*1 /\
  forall i v, (i, v) ∈ completed_items s <->
    0 <= i /\ exists o, owners !! Z.to_nat i = Some o /\ view s o = Closed v.

Definition closed_in (s : ChatToResponsesStream) (o : Owner) : Prop := exists v, view s o = Closed v.

Lemma close_link s s' owners o i id t item sigs :
  linked s owners -> collected s owners -> contents s' -> index_of s o = Some i ->
  (forall o', index_of s' o' = index_of s o') -> next_output_index s' = next_output_index s ->
  (forall o', o' <> o -> view s' o' = view s o') -> view s o = Open id t false ->
  view s' o = Closed item -> completed_items s' = completed_items s ++ [(i, item)] ->
  (forall items, items !! Z.to_nat i = Some (Open id t false) ->
     items_run sigs items = Some (<[Z.to_nat i := Closed item]> items)) ->
  linked s' owners /\ collected s' owners /\
  items_run sigs (view s <$> owners) = Some (view s' <$> owners) /\
  (forall o', closed_in s o' -> closed_in s' o') /\ closed_in s' o.
Proof.
  intros Hl [Hnd Hco] Hc Hi Hix Hn Hv Ho Ho' Hci Hrun.
  destruct (link_same s s' owners o i Hl Hc Hi Hix Hn Hv) as (Hl' & Hlk & Hvs).
  pose proof (ln_index _ _ Hl) as Hx. destruct (proj1 (ix_index _ _ _ Hx o i) Hi) as [Hpos Hown].
  assert (Hnot : forall v, (i, v) ∉ completed_items s).
  { intros v Hin. apply Hco in Hin as (_ & o2 & E1 & E2). simplify_eq. congruence. }
  split_and!; [done| | | |by exists item].
  - split.
    + rewrite Hci, fmap_app. apply NoDup_app. split_and!; [done| |apply NoDup_singleton].
      intros j Hj Hj2. apply list_elem_of_singleton in Hj2. simpl in Hj2. subst j.
      apply list_elem_of_fmap in Hj as ([j v] & E & Hj). simpl in E. subst j. by apply (Hnot v).
    + intros j v. rewrite Hci, elem_of_app, list_elem_of_singleton, Hco. split.
      * intros [(H1 & o2 & H2 & H3)|[= -> ->]]; [|by eauto].
        split; [done|]. exists o2. split; [done|]. rewrite Hv; [done|]. intros ->. congruence.
      * intros (H1 & o2 & H2 & H3). destruct (decide (o2 = o)) as [->|Hne].
        { right. assert (Z.to_nat j = Z.to_nat i) by (eapply NoDup_lookup; [apply Hx|done|done]).
          f_equal; [lia|congruence]. }
        left. split; [done|]. exists o2. split; [done|]. by rewrite <-Hv.
  - rewrite Hvs, Ho'. apply Hrun. by rewrite Hlk, Ho.
  - intros o2 [v Hv2]. destruct (decide (o2 = o)) as [->|Hne]; [by exists item|].
    exists v. by rewrite Hv.
Qed.

Lemma collected_snoc s s' owners o : collected s owners -> completed_items s' = completed_items s ->
  (forall o', o' ∈ owners -> view s' o' = view s o') -> closed_item (view s' o) = None ->
  collected s' (owners ++ [o]).
Proof.
  intros [Hnd Hco] Hci Hv Ho. split; [by rewrite Hci|]. intros i v. rewrite Hci, Hco. split.
  - intros (H1 & o2 & H2 & H3). split; [done|]. exists o2. split; [by apply lookup_app_l_Some|].
    rewrite Hv; [done|]. by eapply list_elem_of_lookup_2.
  - intros (H1 & o2 & H2 & H3). split; [done|]. exists o2.
    apply lookup_app_Some in H2 as [H2|[_ H2]].
    + split; [done|]. rewrite <-Hv; [done|]. by eapply list_elem_of_lookup_2.
    + apply list_lookup_singleton_Some in H2 as [_ <-]. by rewrite H3 in Ho.
Qed.

Lemma items_close n id t item items : items !! n = Some (Open id t true) ->
  text_at "id" item = Some id -> text_at "status" item = Some "completed" -> item_text item = Some t ->
  items_run [SigClosed n item] items = Some (<[n := Closed item]> items).
Proof. intros H1 H2 H3 H4. cbn [items_run items_step]. rewrite H1, bool_decide_true by done. done. Qed.

Lemma items_say n id t items sigs : items !! n = Some (Open id t false) ->
  items_run (SigSaid n id t :: sigs) items = items_run sigs (<[n := Open id t true]> items).
Proof. intros H1. cbn [items_run items_step]. rewrite H1, bool_decide_true by done. done. Qed.

Lemma items_part n id t said items sigs : items !! n = Some (Open id t said) ->
  items_run (SigPart n id t :: sigs) items = items_run sigs items.
Proof. intros H1. cbn [items_run items_step]. rewrite H1, bool_decide_true by done. done. Qed.

Lemma items_close_text n id t item items : items !! n = Some (Open id t false) ->
  text_at "id" item = Some id -> text_at "status" item = Some "completed" -> item_text item = Some t ->
  items_run [SigSaid n id t; SigPart n id t; SigClosed n item] items = Some (<[n := Closed item]> items).
Proof.
  intros H1 H2 H3 H4. rewrite items_say by done.
  assert (H5 : <[n := Open id t true]> items !! n = Some (Open id t true)).
  { apply list_lookup_insert_eq. by eapply lookup_lt_Some. }
  rewrite (items_part _ _ _ true) by done. rewrite (items_close _ id t) by done.
  by rewrite list_insert_insert_eq.
Qed.

Lemma items_close_said n id t item items : items !! n = Some (Open id t false) ->
  text_at "id" item = Some id -> text_at "status" item = Some "completed" -> item_text item = Some t ->
  items_run [SigSaid n id t; SigClosed n item] items = Some (<[n := Closed item]> items).
Proof.
  intros H1 H2 H3 H4. rewrite items_say by done.
  assert (H5 : <[n := Open id t true]> items !! n = Some (Open id t true)).
  { apply list_lookup_insert_eq. by eapply lookup_lt_Some. }
  rewrite (items_close _ id t) by done. by rewrite list_insert_insert_eq.
Qed.

(** Steps of the end; [P] is who is closed by it. *)
Definition fin_step (s : ChatToResponsesStream) (es : list SynthesizedEvent)
    (s' : ChatToResponsesStream) (P : Owner -> Prop) : Prop :=
  frame s s' /\ dom (tools s') = dom (tools s) /\
  forall owners, static_ok s -> linked s owners -> collected s owners ->
  exists owners' sigs, linked s' owners' /\ collected s' owners' /\ Forall2 reads_as es sigs /\
    items_run sigs (view s <$> owners) = Some (view s' <$> owners') /\
    (forall o, closed_in s o -> closed_in s' o) /\
    (forall o, o ∈ owners' -> o ∈ owners \/ P o) /\
    (forall o, o ∈ owners' -> P o -> closed_in s' o).

Lemma fin_step_trans s e1 s1 e2 s2 P Q : fin_step s e1 s1 P -> fin_step s1 e2 s2 Q ->
  fin_step s (e1 ++ e2) s2 (fun o => P o \/ Q o).
Proof.
  intros (F1 & D1 & H1) (F2 & D2 & H2). split_and!; [by etrans|congruence|].
  intros owners Hst Hl Hc.
  destruct (H1 owners Hst Hl Hc) as (o1 & sg1 & Hl1 & Hc1 & R1 & I1 & M1 & N1 & P1).
  destruct (H2 o1 (static_frame _ _ F1 Hst) Hl1 Hc1) as (o2 & sg2 & Hl2 & Hc2 & R2 & I2 & M2 & N2 & P2).
  exists o2, (sg1 ++ sg2). split_and!; [done|done|by apply Forall2_app| |by auto| |].
  - by rewrite items_run_app, I1.
  - intros o Ho. destruct (N2 o Ho) as [Ho1|]; [|by auto]. destruct (N1 o Ho1); auto.
  - intros o Ho HPQ. destruct (N2 o Ho) as [Ho1|HQ]; [|by apply P2].
    destruct HPQ as [HP|HQ]; [by apply M2, P1|by apply P2].
Qed.

Lemma not_owner s owners o : linked s owners -> index_of s o = None -> o ∉ owners.
Proof.
  intros Hl Hn (n & Hin)%list_elem_of_lookup.
  assert (index_of s o = Some (Z.of_nat n)); [|congruence].
  apply (ix_index _ _ _ (ln_index _ _ Hl)). rewrite Nat2Z.id. split; [lia|done].
Qed.

(** A step at the end that has nothing to do *)
Lemma fin_step_refl s (P : Owner -> Prop) :
  (forall o, P o -> index_of s o = None \/ closed_in s o) -> fin_step s [] s P.
Proof.
  intros HP. split_and!; [done..|]. intros owners _ Hl Hc. exists owners, [].
  split_and!; [done|done|constructor|done|done|by auto|]. intros o Ho Hp.
  destruct (HP o Hp) as [Hn|]; [|done]. by destruct (not_owner _ _ _ Hl Hn).
Qed.

(** A step at the end that closes an item which has its place *)
Lemma fin_step_close s s' o i id t item es sigs :
  frame s s' -> dom (tools s') = dom (tools s) -> (contents s -> contents s') ->
  index_of s o = Some i -> (forall o', index_of s' o' = index_of s o') ->
  next_output_index s' = next_output_index s ->
  (forall o', o' <> o -> view s' o' = view s o') ->
  (contents s -> view s o = Open id t false) -> view s' o = Closed item ->
  completed_items s' = completed_items s ++ [(i, item)] ->
  Forall2 reads_as es sigs ->
  (contents s -> forall items, items !! Z.to_nat i = Some (Open id t false) ->
     items_run sigs items = Some (<[Z.to_nat i := Closed item]> items)) ->
  fin_step s es s' (fun x => x = o).
Proof.
  intros F D C H1 H2 H3 H4 H5 H6 H7 H8 H9. split_and!; [done..|]. intros owners _ Hl Hc.
  pose proof (linked_contents _ _ Hl) as Hct.
  destruct (close_link s s' owners o i id t item sigs) as (Hl' & Hc' & Hr & Hm & Ho); [by auto..|].
  exists owners, sigs. split_and!; [done..|by auto|]. by intros o' _ ->.
Qed.

Lemma finish_message_fin s es s' : finish_message s = (Ok es, s') -> fin_step s es s' (fun x => x = OMessage).
Proof.
  intros H. unfold finish_message in H. apply M_bind_Ok in H as (s0 & s1 & Hg & H).
  apply gets_Ok in Hg as [-> ->]. change (id s) with s in H. cbv zeta in H.
  destruct (text_index (message s)) as [i|] eqn:Ei.
  2:{ apply ret_Ok in H as [-> ->]. apply fin_step_refl. intros o ->. by left. }
  destruct (text_done (message s)) eqn:Ed.
  { apply ret_Ok in H as [-> ->]. apply fin_step_refl. intros o ->. right. unfold closed_in, view.
    rewrite Ed. by eexists. }
  apply M_bind_Ok in H as (u1 & s2 & Hm & H). apply modify_Ok in Hm as ->.
  apply M_bind_Ok in H as (u2 & s2 & Hm & H). apply modify_Ok in Hm as ->.
  apply ret_Ok in H as [-> ->].
  eapply (fin_step_close _ _ OMessage i (text_item_id (message s)) (text_value (message s)));
    try done; [| | |by repeat constructor; reads|].
  - intros (C1 & C2 & C3). split_and!; [|done..]. unfold text_ok in *. simpl. by rewrite Ei in *.
  - owners_differ.
  - intros _. simpl. by rewrite Ed.
  - intros (C1 & _) items Hit. unfold text_ok in C1. rewrite Ei in C1. rewrite C1 in *.
    by apply items_close_text.
Qed.

Lemma finish_reasoning_fin s es s' : finish_reasoning s = (Ok es, s') -> fin_step s es s' (fun x => x = OReasoning).
Proof.
  intros H. unfold finish_reasoning in H. apply M_bind_Ok in H as (s0 & s1 & Hg & H).
  apply gets_Ok in Hg as [-> ->]. change (id s) with s in H. cbv zeta in H.
  destruct (text_index (reasoning s)) as [i|] eqn:Ei.
  2:{ apply ret_Ok in H as [-> ->]. apply fin_step_refl. intros o ->. by left. }
  destruct (text_done (reasoning s)) eqn:Ed.
  { apply ret_Ok in H as [-> ->]. apply fin_step_refl. intros o ->. right. unfold closed_in, view.
    rewrite Ed. by eexists. }
  apply M_bind_Ok in H as (u1 & s2 & Hm & H). apply modify_Ok in Hm as ->.
  apply M_bind_Ok in H as (u2 & s2 & Hm & H). apply modify_Ok in Hm as ->.
  apply ret_Ok in H as [-> ->].
  eapply (fin_step_close _ _ OReasoning i (text_item_id (reasoning s)) (text_value (reasoning s)));
    try done; [| | |by repeat constructor; reads|].
  - intros (C1 & C2 & C3). split_and!; [done| |done]. unfold text_ok in *. simpl. by rewrite Ei in *.
  - owners_differ.
  - intros _. simpl. by rewrite Ed.
  - intros (_ & C1 & _) items Hit. unfold text_ok in C1. rewrite Ei in C1. rewrite C1 in *.
    by apply items_close_text.
Qed.

(** ** Closing a call *)

(** The events of [finish_tool] once the call has its place *)
Definition closing_events (kind : ChatToolKind) (id : string) (index : Z) (r : RestoredToolCall)
    (item : Value) : list SynthesizedEvent :=
  match r with
  | RestoredCustom _ _ input =>
      if bool_decide (kind = ChatFunction) && negb (str_is_empty input)
      then [call_delta "response.custom_tool_call_input.delta" id index input] else []
  | _ => []
  end ++
  match r with
  | RestoredFunction _ _ arguments =>
      [event_default "response.function_call_arguments.done"
        (json_object [("type", JString "response.function_call_arguments.done");
           ("item_id", JString id); ("output_index", num index); ("arguments", JString arguments)])]
  | RestoredCustom _ _ input =>
      [event_default "response.custom_tool_call_input.done"
        (json_object [("type", JString "response.custom_tool_call_input.done");
           ("item_id", JString id); ("output_index", num index); ("input", JString input)])]
  | RestoredToolSearch _ => []
  end ++ [item_done index item].

Definition direct_of (ident : ToolIdentity) (kind : ChatToolKind) : bool :=
  match ident with
  | IdFunction _ | IdNamespaceFunction _ _ => true
  | IdCustom _ | IdNamespaceCustom _ _ => bool_decide (kind = ChatCustom)
  | IdToolSearch => false
  end.

Lemma direct_of_state st ident kind : tool_ident st = Some ident -> tool_kind st = Some kind ->
  direct st = direct_of ident kind.
Proof.
  intros E1 E2. unfold direct. rewrite E1, E2. destruct ident; try done; simpl; by repeat case_bool_decide; simplify_eq.
Qed.

Lemma active_identity_kind t kind name ident : projection_ok t ->
  active_identity kind name t = Ok ident -> kind = chat_kind ident (profile t).
Proof.
  intros Hok. unfold active_identity. case_bool_decide; [|done]. intros H1%ok_or_Ok.
  by apply (ok_back _ Hok) in H1 as [_ ->].
Qed.

Lemma custom_closing n ns input kind id index key cid resp :
  let item := restored_call_item resp key cid (RestoredCustom n ns input) "completed" in
  id = custom_call_item_id resp key ->
  exists sigs, Forall2 reads_as (closing_events kind id index (RestoredCustom n ns input) item) sigs /\
    forall items, items !! Z.to_nat index
        = Some (Open id (if bool_decide (kind = ChatCustom) then input else "") false) ->
      items_run sigs items = Some (<[Z.to_nat index := Closed item]> items).
Proof.
  intros item Hid.
  assert (Hit : text_at "id" item = Some id /\ text_at "status" item = Some "completed" /\
                item_text item = Some input) by (subst id; by destruct ns).
  destruct Hit as (I1 & I2 & I3). unfold closing_events.
  destruct (bool_decide (kind = ChatFunction) && negb (str_is_empty input)) eqn:E.
  - apply andb_true_iff in E as [Ek%bool_decide_eq_true_1 _]. subst kind. rewrite bool_decide_false by done.
    exists [SigDelta (Z.to_nat index) id input; SigSaid (Z.to_nat index) id input;
            SigClosed (Z.to_nat index) item].
    split; [constructor; [apply reads_custom_delta|]; constructor; [reads|]; constructor;
            [apply reads_item_done|constructor]|].
    intros items Hi. change (items_run ([SigDelta (Z.to_nat index) id input] ++
      [SigSaid (Z.to_nat index) id input; SigClosed (Z.to_nat index) item]) items
      = Some (<[Z.to_nat index := Closed item]> items)).
    rewrite items_run_app, (items_delta _ _ id "" input) by done. cbn [mbind option_bind].
    rewrite (items_close_said _ id input); [by rewrite list_insert_insert_eq| |done..].
    apply list_lookup_insert_eq. by eapply lookup_lt_Some.
  - exists [SigSaid (Z.to_nat index) id input; SigClosed (Z.to_nat index) item].
    split; [constructor; [reads|]; constructor; [apply reads_item_done|constructor]|].
    intros items Hi. apply (items_close_said _ id input); [|done..]. rewrite Hi. f_equal. f_equal.
    destruct kind; [|done]. simpl in E. apply negb_false_iff in E. unfold str_is_empty in E.
    by apply bool_decide_eq_true_1 in E as ->.
Qed.

Lemma closing_ok t kind name payload ident r resp key cid index :
  projection_ok t -> active_identity kind name t = Ok ident -> restore_call kind name payload t = Ok r ->
  let item := restored_call_item resp key cid r "completed" in
  let id := tool_id_of resp key ident in
  exists sigs, Forall2 reads_as (closing_events kind id index r item) sigs /\
    forall items, items !! Z.to_nat index
        = Some (Open id (if direct_of ident kind then payload else "") false) ->
      items_run sigs items = Some (<[Z.to_nat index := Closed item]> items).
Proof.
  intros Hok Ha Hr. pose proof (active_identity_kind _ _ _ _ Hok Ha) as Hk.
  unfold restore_call in Hr. rewrite Ha in Hr. cbn [mbind R_bind] in Hr.
  assert (Hfun : forall n ns, exists sigs, Forall2 reads_as (closing_events kind (function_call_item_id resp key)
      index (RestoredFunction n ns payload) (restored_call_item resp key cid (RestoredFunction n ns payload) "completed")) sigs /\
    forall items, items !! Z.to_nat index = Some (Open (function_call_item_id resp key) payload false) ->
      items_run sigs items = Some (<[Z.to_nat index := Closed
        (restored_call_item resp key cid (RestoredFunction n ns payload) "completed")]> items)).
  { intros n ns. exists [SigSaid (Z.to_nat index) (function_call_item_id resp key) payload;
      SigClosed (Z.to_nat index) (restored_call_item resp key cid (RestoredFunction n ns payload) "completed")].
    split; [constructor; [reads|]; constructor; [apply reads_item_done|constructor]|].
    intros items Hi. by apply items_close_said; [done|destruct ns..]. }
  assert (Hcus : forall n ns input, custom_input payload t = Ok input ->
      kind = (if bool_decide (custom_tools (profile t) = Native) then ChatCustom else ChatFunction) ->
    exists sigs, Forall2 reads_as (closing_events kind (custom_call_item_id resp key)
      index (RestoredCustom n ns input) (restored_call_item resp key cid (RestoredCustom n ns input) "completed")) sigs /\
    forall items, items !! Z.to_nat index = Some (Open (custom_call_item_id resp key)
        (if bool_decide (kind = ChatCustom) then payload else "") false) ->
      items_run sigs items = Some (<[Z.to_nat index := Closed
        (restored_call_item resp key cid (RestoredCustom n ns input) "completed")]> items)).
  { intros n ns input Hin Hkd.
    destruct (custom_closing n ns input kind (custom_call_item_id resp key) index key cid resp eq_refl)
      as (sigs & HF & Hrun). exists sigs. split; [done|]. intros items Hi. apply Hrun. rewrite Hi.
    unfold custom_input in Hin. destruct (bool_decide (custom_tools (profile t) = Native)).
    - injection Hin as ->. done.
    - by rewrite Hkd. }
  destruct ident as [n|n|ns n|ns n|]; cbn [tool_id_of direct_of].
  - apply R_ret_Ok in Hr as ->. apply Hfun.
  - apply R_bind_Ok in Hr as (input & Hin & Hr). apply R_ret_Ok in Hr as ->. by apply Hcus.
  - apply R_ret_Ok in Hr as ->. apply Hfun.
  - apply R_bind_Ok in Hr as (input & Hin & Hr). apply R_ret_Ok in Hr as ->. by apply Hcus.
  - apply R_bind_Ok in Hr as (a & _ & Hr). apply R_ret_Ok in Hr as ->.
    exists [SigClosed (Z.to_nat index) (restored_call_item resp key cid (RestoredToolSearch a) "completed")].
    split; [constructor; [apply reads_item_done|constructor]|]. intros items Hi.
    cbn [items_run items_step]. rewrite Hi. rewrite bool_decide_true by done. done.
Qed.

Lemma finish_tool_inv key st s es st' s1 : finish_tool key st s = (Ok (es, st'), s1) ->
  tool_done st = false ->
  exists kind cid name r added st1 s2 deltas st2 i,
    tool_kind st = Some kind /\ tool_call_id st = Some cid /\ tool_name st = Some name /\
    restore_call kind name (tool_payload st) (projection s) = Ok r /\
    (if bool_decide (tool_index st = None) then place_call key st s = (Ok (added, st1), s2)
     else added = [] /\ st1 = st /\ s2 = s) /\
    emit_payload_delta st1 = (deltas, st2) /\ tool_index st2 = Some i /\
    es = added ++ deltas ++ closing_events kind (tool_item_id st2) i r
           (restored_call_item (rid s) key cid r "completed") /\
    st' = set_done st2 /\
    s1 = set_completed_items (completed_items s2 ++
           [(i, restored_call_item (rid s) key cid r "completed")]) s2.
Proof.
  intros H Hd. unfold finish_tool in H. rewrite Hd in H.
  apply M_bind_Ok in H as (kind & x1 & H1 & H). apply lift_Ok in H1 as [H1 ->]. apply ok_or_Ok in H1.
  apply M_bind_Ok in H as (cid & x1 & H2 & H). apply lift_Ok in H2 as [H2 ->]. apply ok_or_Ok in H2.
  apply M_bind_Ok in H as (name & x1 & H3 & H). apply lift_Ok in H3 as [H3 ->]. apply ok_or_Ok in H3.
  apply M_bind_Ok in H as (s0 & x1 & H4 & H). apply gets_Ok in H4 as [-> ->].
  apply M_bind_Ok in H as (r & x1 & H4 & H). apply lift_Ok in H4 as [H4 ->].
  apply M_bind_Ok in H as ([added st1] & s2 & H5 & H).
  destruct (emit_payload_delta st1) as [deltas st2] eqn:He.
  apply M_bind_Ok in H as (i & x1 & H6 & H). apply lift_Ok in H6 as [H6 ->]. apply ok_or_Ok in H6.
  cbv zeta in H. apply M_bind_Ok in H as (u & x1 & H7 & H). apply modify_Ok in H7 as ->.
  apply ret_Ok in H as [H ->]. injection H as -> ->.
  exists kind, cid, name, r, added, st1, s2, deltas, st2, i. split_and!; try done.
  case_bool_decide; [done|]. apply ret_Ok in H5 as [H5 ->]. by injection H5 as -> ->.
Qed.

Lemma emit_done st i : tool_index st = Some i -> tool_emitted st = String.length (tool_payload st) ->
  emit_payload_delta st = ([], st).
Proof. intros H1 H2. unfold emit_payload_delta. rewrite H1, H2, Nat.leb_refl. done. Qed.

(** What never changes of a call when it is passed on *)
Lemma emit_keeps st : exists e, (emit_payload_delta st).2 = set_emitted e st.
Proof.
  unfold emit_payload_delta. destruct (tool_index st); [|exists (tool_emitted st); by rewrite set_emitted_same].
  case_match; [exists (tool_emitted st); by rewrite set_emitted_same|].
  destruct (tool_ident st) as [[]|]; try case_match; by eexists.
Qed.

Lemma fin_step_alike s s' (P : Owner -> Prop) : frame s s' -> alike s s' ->
  completed_items s' = completed_items s -> (forall o, P o -> closed_in s o) -> fin_step s [] s' P.
Proof.
  intros F Ha Hc HP. split_and!; [done|by rewrite (al_tools _ _ Ha)|]. intros owners _ Hl Hco.
  assert (Hcl : forall o, closed_in s o -> closed_in s' o).
  { intros o [v Hv]. exists v. by rewrite (alike_view _ _ _ Ha). }
  exists owners, []. split_and!; [by eapply alike_linked| |constructor| |done|by auto|by auto].
  - destruct Hco as [H1 H2]. split; [by rewrite Hc|]. intros i v. rewrite Hc, H2.
    setoid_rewrite (fun o => alike_view s s' o Ha). done.
  - simpl. f_equal. symmetry. by apply alike_views.
Qed.

(** A call that has its place is closed. *)
Lemma finish_placed s key st i s' kind cid name r :
  tools s !! key = Some st -> tool_done st = false -> tool_index st = Some i ->
  tool_kind st = Some kind -> tool_call_id st = Some cid -> tool_name st = Some name ->
  restore_call kind name (tool_payload st) (projection s) = Ok r ->
  frame s s' -> message s' = message s -> reasoning s' = reasoning s ->
  next_output_index s' = next_output_index s -> tools s' = <[key := set_done st]> (tools s) ->
  completed_items s' = completed_items s ++ [(i, restored_call_item (rid s) key cid r "completed")] ->
  projection_ok (projection s) -> contents s ->
  fin_step s (closing_events kind (tool_item_id st) i r (restored_call_item (rid s) key cid r "completed"))
    s' (fun x => x = OTool key).
Proof.
  intros Hst Hd Hi Hk Hc Hn Hr F E1 E2 E3 E4 E5 Hok Hct.
  destruct Hct as (C1 & C2 & C3). pose proof (C3 _ _ Hst) as Hto.
  destruct (to_placed _ _ _ _ Hto i Hi) as (ident & cid2 & K1 & K2 & K3 & K4).
  destruct (to_ident _ _ _ _ Hto _ K1) as (kind2 & name2 & K5 & K6 & K7).
  assert (cid2 = cid) by congruence. assert (kind2 = kind) by congruence.
  assert (name2 = name) by congruence. subst cid2 kind2 name2.
  destruct (closing_ok _ _ _ _ _ _ (rid s) key cid i Hok K7 Hr) as (sigs & HF & Hrun).
  rewrite K3. eapply (fin_step_close s s' (OTool key) i _ (if direct_of ident kind then tool_payload st else ""));
    [done| | | | |done| | | |done|exact HF|intros _ items Hit; by apply Hrun].
  - rewrite E4. by rewrite dom_insert_lookup_L.
  - intros _. destruct F as [Fr _ Fj _ _ _]. unfold contents, rid in *. rewrite Fr, Fj, E1, E2, E4.
    split_and!; [done..|]. intros k x. rewrite lookup_insert_Some. intros [[<- <-]|[_ H]]; [|by apply C3].
    destruct Hto as [T1 T2 T3 T4]. split; simpl; try done. congruence.
  - simpl. by rewrite Hst.
  - intros [| |k]; simpl; rewrite ?E1, ?E2, ?E4; [done..|].
    destruct (decide (k = key)) as [->|Hne]; [by rewrite lookup_insert_eq, Hst|].
    by rewrite lookup_insert_ne.
  - destruct F as [Fr _ Fj _ _ _]. intros [| |k] Hne; unfold view, view_tool, tool_item, rid;
      rewrite Fr, ?Fj, ?E1, ?E2, ?E4; [done..|]. rewrite lookup_insert_ne by congruence. done.
  - intros _. simpl. rewrite Hst. unfold view_tool. by rewrite Hd, K3, (direct_of_state _ _ _ K1 K5).
  - destruct F as [Fr _ Fj _ _ _]. simpl. rewrite E4, lookup_insert_eq. unfold view_tool, tool_item. simpl.
    unfold rid in *. by rewrite Fj, Hk, Hn, Hc, Hr, Fr.
Qed.

(** A call gets its place at the end. *)
Lemma finish_places s key st s0 added st1 s2 deltas st2 i smid :
  tools s !! key = Some st -> tool_done st = false -> tool_index st = None ->
  rid s0 = rid s -> next_output_index s0 = next_output_index s ->
  place_call key st s0 = (Ok (added, st1), s2) -> emit_payload_delta st1 = (deltas, st2) ->
  tool_index st2 = Some i -> smid = set_tool key st2 (set_next_output_index (next_output_index s + 1) s) ->
  forall owners, linked s owners -> collected s owners ->
  exists sigs, linked smid (owners ++ [OTool key]) /\ collected smid (owners ++ [OTool key]) /\
    Forall2 reads_as (added ++ deltas) sigs /\
    items_run sigs (view s <$> owners) = Some (view smid <$> owners ++ [OTool key]) /\
    (forall o, closed_in s o -> closed_in smid o) /\
    exists e, st2 = set_emitted e st1 /\ i = next_output_index s.
Proof.
  intros Hst Hd Hi Hrid Hnx Hp He Hi2 -> owners Hl Hc.
  pose proof (linked_contents _ _ Hl) as Hct. pose proof (proj2 (proj2 Hct) _ _ Hst) as Hto.
  destruct (to_unplaced _ _ _ _ Hto Hi) as [Hem _].
  apply place_call_inv in Hp as (ident & cid & e & E1 & E2 & -> & _ & -> & Hr). rewrite Hrid, Hnx in *.
  destruct (emit_spec (set_placed (next_output_index s) (tool_id_of (rid s) key ident) st)
    (next_output_index s) "" (tool_payload st)) as (es & sigs & Ee & HF & Hrun); [done..|].
  rewrite Ee in He. injection He as <- <-. simpl in Hi2. injection Hi2 as <-. simpl in Hrun.
  set (st2 := set_emitted _ (set_placed _ _ _)). set (smid := set_tool key st2 _).
  assert (Hrt : retool s key st2 smid) by (by split).
  assert (Hview : view smid (OTool key)
    = Open (tool_id_of (rid s) key ident) (if direct st then tool_payload st else "") false).
  { rewrite (retool_view_key s key st2 smid Hrt). unfold view_tool. simpl. by rewrite Hd. }
  assert (Hto2 : tool_ok (projection s) (rid s) key st2).
  { destruct Hto as [K1 K2 K3 K4]. split; simpl; [done..| |done]. intros j _. by exists ident, cid. }
  destruct (link_new s smid owners (OTool key)) as (Hl' & Hlen & Hv); try done.
  - by apply (retool_contents s key st2 smid Hrt).
  - simpl. by rewrite Hst.
  - by rewrite (retool_index_key s key st2 smid Hrt).
  - apply (retool_index s key st2 smid Hrt).
  - apply (retool_view s key st2 smid Hrt).
  - exists (SigAdded (Z.to_nat (next_output_index s)) (tool_id_of (rid s) key ident) :: sigs).
    assert (Hnin : OTool key ∉ owners) by (apply (not_owner s); [done|]; simpl; by rewrite Hst).
    split_and!; [done| |by constructor| | |by eexists].
    + eapply collected_snoc; [done|done| |by rewrite Hview].
      intros o Ho. apply (retool_view s key st2 smid Hrt). by intros ->.
    + rewrite Hv, Hview. cbn [items_run items_step]. rewrite bool_decide_true by done.
      cbn [mbind option_bind]. rewrite Hrun.
      * rewrite insert_app_r_alt by lia. by rewrite <-Hlen, Nat.sub_diag.
      * rewrite lookup_app_r by lia. rewrite Hlen, Nat.sub_diag. simpl.
        by destruct (direct (set_placed (next_output_index s) (tool_id_of (rid s) key ident) st)).
    + intros o [v Hcl]. destruct (decide (o = OTool key)) as [->|Hne].
      * simpl in Hcl. rewrite Hst in Hcl. unfold view_tool in Hcl. by rewrite Hd in Hcl.
      * exists v. by rewrite (retool_view s key st2 smid Hrt).
Qed.

Lemma finish_key_fin key s es s' : finish_key key s = (Ok es, s') -> fin_step s es s' (fun x => x = OTool key).
Proof.
  intros H. unfold finish_key in H.
  apply M_bind_Ok in H as (s0 & x & H1 & H). apply gets_Ok in H1 as [-> ->]. change (id s) with s in H.
  apply M_bind_Ok in H as (st & x & H1 & H). apply lift_Ok in H1 as [H1 ->]. apply ok_or_Ok in H1 as Hst.
  apply M_bind_Ok in H as (u & s0 & H2 & H). apply modify_Ok in H2 as ->.
  apply M_bind_Ok in H as ([ev st'] & s1 & H2 & H). apply M_bind_Ok in H as (u2 & x & H3 & H).
  apply modify_Ok in H3 as ->. apply ret_Ok in H as [-> ->].
  destruct (tool_done st) eqn:Hd.
  { unfold finish_tool in H2. rewrite Hd in H2. apply ret_Ok in H2 as [H2 ->]. injection H2 as -> ->.
    apply fin_step_alike; [by split| |done|].
    - split; try done. simpl. by rewrite insert_delete_eq, insert_id.
    - intros o ->. unfold closed_in. simpl. rewrite Hst. unfold view_tool. rewrite Hd. by eexists. }
  apply finish_tool_inv in H2 as (kind & cid & name & r & added & st1 & s2 & deltas & st2 & i &
    Hk & Hc & Hn & Hr & Hp & He & Hi & -> & -> & ->); [|done].
  change (rid (set_tools (delete key (tools s)) s)) with (rid s) in *.
  change (projection (set_tools (delete key (tools s)) s)) with (projection s) in Hr.
  assert (Hs2 : exists n, s2 = set_next_output_index n (set_tools (delete key (tools s)) s) /\
    n = if bool_decide (tool_index st = None) then next_output_index s + 1 else next_output_index s).
  { case_bool_decide.
    - apply place_call_inv in Hp as (_ & _ & _ & _ & _ & _ & -> & _). by eexists.
    - destruct Hp as (_ & _ & ->). exists (next_output_index s). by destruct s. }
  destruct Hs2 as (nn & -> & Enn).
  assert (Hdom : forall x, dom (<[key := x]> (delete key (tools s))) = dom (tools s)).
  { intros x. rewrite insert_delete_eq. by rewrite dom_insert_lookup_L. }
  split_and!; [by split|by simpl; rewrite Hdom|]. intros owners Hstat Hl Hco.
  pose proof (linked_contents _ _ Hl) as Hct. pose proof (proj2 (proj2 Hct) _ _ Hst) as Hto.
  destruct Hstat as [Hecho Hproj].
  case_bool_decide as Hix.
  - destruct (finish_places s key st (set_tools (delete key (tools s)) s) _ _ _ _ _ _ _
      Hst Hd Hix eq_refl eq_refl Hp He Hi eq_refl owners Hl Hco)
      as (sg1 & Hl1 & Hc1 & HF1 & Hr1 & Hm1 & e & Est2 & ->).
    apply place_call_inv in Hp as (ident & cid1 & ev & E1 & E2 & Est1 & _ & _ & _).
    set (smid := set_tool key st2 _) in *.
    assert (Hd2 : tool_done st2 = false) by (by rewrite Est2, Est1).
    set (s' := set_tool key (set_done st2) _).
    destruct (finish_placed smid key st2 (next_output_index s) s' kind cid name r) as (_ & _ & Hfin);
      try done; try (by rewrite Est2, Est1); try (by apply lookup_insert_eq); try (by split).
    { simpl. by rewrite insert_delete_eq, insert_insert_eq. }
    { by eapply linked_contents. }
    destruct (Hfin _ (conj Hecho Hproj) Hl1 Hc1) as (o2 & sg2 & Hl2 & Hc2 & HF2 & Hr2 & Hm2 & Hn2 & HP2).
    exists o2, (sg1 ++ sg2). split_and!; [done|done| | |by auto| |done].
    + rewrite app_assoc. by apply Forall2_app.
    + by rewrite items_run_app, Hr1.
    + intros o Ho. destruct (Hn2 o Ho) as [Ho2| ->]; [|by right]. set_solver.
  - destruct Hp as (-> & -> & _). destruct (tool_index st) as [i0|] eqn:Ei; [|done].
    destruct (to_placed _ _ _ _ Hto i0 Ei) as (ident & cid2 & K1 & K2 & K3 & K4).
    rewrite (emit_done st i0) in He by done. injection He as <- <-. rewrite Ei in Hi. injection Hi as ->.
    set (s' := set_tool key (set_done st) _).
    destruct (finish_placed s key st i s' kind cid name r) as (_ & _ & Hfin); try done.
    { simpl. by rewrite insert_delete_eq. }
    by apply (Hfin owners).
Qed.

(** ** The whole end *)

Lemma finish_keys_fin keys s es s' : each_m finish_key keys s = (Ok es, s') ->
  fin_step s es s' (fun x => exists k, k ∈ keys /\ x = OTool k).
Proof.
  revert s es. induction keys as [|k keys IH]; intros s es H; cbn [each_m] in H.
  { apply ret_Ok in H as [-> ->]. apply fin_step_refl. intros o (k & Hk & _). by apply not_elem_of_nil in Hk. }
  apply M_bind_Ok in H as (e1 & s1 & H1 & H). apply M_bind_Ok in H as (e2 & s2 & H2 & H).
  apply ret_Ok in H as [-> ->]. apply finish_key_fin in H1. apply IH in H2.
  destruct (fin_step_trans _ _ _ _ _ _ _ H1 H2) as (F & D & Hf). split_and!; [done..|].
  intros owners Hst Hl Hc. destruct (Hf owners Hst Hl Hc) as (o' & sg & A1 & A2 & A3 & A4 & A5 & A6 & A7).
  exists o', sg. split_and!; [done..| |].
  - intros o Ho. destruct (A6 o Ho) as [|[->|(k' & ? & ->)]]; [by left|right; exists k|right; exists k'];
      set_solver.
  - intros o Ho (k' & [->|Hk']%elem_of_cons & ->); apply A7; [done|by left|done|right; by exists k'].
Qed.

#[local] Instance index_below_total : Total index_below.
Proof. intros a b. unfold index_below. lia. Qed.
#[local] Instance index_below_trans : Transitive index_below.
Proof. intros a b c. unfold index_below. lia. Qed.

Definition numbered (vals : list Value) : list (Z * Value) := imap (fun n v => (Z.of_nat n, v)) vals.

Lemma elem_of_numbered vals i v : (i, v) ∈ numbered vals <-> 0 <= i /\ vals !! Z.to_nat i = Some v.
Proof.
  unfold numbered. rewrite list_elem_of_lookup. setoid_rewrite list_lookup_imap. split.
  - intros (n & Hn). apply fmap_Some in Hn as (w & Hw & [= -> ->]). rewrite Nat2Z.id. split; [lia|done].
  - intros [Hi Hv]. exists (Z.to_nat i). rewrite Hv. simpl. f_equal. f_equal. lia.
Qed.

Lemma numbered_fst vals : (numbered vals).*1 = seqZ 0 (Zlen vals).
Proof.
  unfold numbered, seqZ, Zlen. rewrite Nat2Z.id. apply list_eq. intros n.
  rewrite !list_lookup_fmap, list_lookup_imap. destruct (vals !! n) as [v|] eqn:E; simpl.
  - rewrite lookup_seq_lt by (by eapply lookup_lt_Some). simpl. f_equal. lia.
  - rewrite lookup_seq_ge by (by apply lookup_ge_None). done.
Qed.

Lemma numbered_snd vals : (numbered vals).*2 = vals.
Proof.
  unfold numbered. apply list_eq. intros n. rewrite list_lookup_fmap, list_lookup_imap.
  by destruct (vals !! n).
Qed.

Lemma numbered_sorted vals : StronglySorted index_below (numbered vals).
Proof.
  unfold numbered. generalize 0%nat as k.
  assert (H : forall k, StronglySorted index_below (imap (fun n v => (Z.of_nat (k + n), v)) vals) /\
    Forall (fun e => Z.of_nat k <= e.1) (imap (fun n v => (Z.of_nat (k + n), v)) vals)).
  { induction vals as [|v vals IH]; intros k; [by split; constructor|].
    cbn [imap]. destruct (IH (Datatypes.S k)) as [H1 H2].
    assert (E : imap ((fun n v0 => (Z.of_nat (k + n), v0)) ∘ Datatypes.S) vals
      = imap (fun n v0 => (Z.of_nat (Datatypes.S k + n), v0)) vals).
    { apply imap_ext. intros n x _. simpl. f_equal. lia. }
    rewrite E. split.
    - constructor; [done|]. eapply Forall_impl; [exact H2|]. intros e He. unfold index_below. cbn in *. lia.
    - constructor; [simpl; lia|]. eapply Forall_impl; [exact H2|]. intros e He. cbn in *. lia. }
  intros _. apply (H 0%nat).
Qed.

(** Everything that was closed is the answer, in order. *)
Lemma output_exact s owners : linked s owners -> collected s owners ->
  (forall o, o ∈ owners -> closed_in s o) ->
  Forall2 (fun i v => closed_item i = Some v) (view s <$> owners)
    (merge_sort index_below (completed_items s)).*2.
Proof.
  intros Hl [Hnd Hco] Hall.
  assert (exists vals, Forall2 (fun o v => view s o = Closed v) owners vals) as (vals & HF).
  { clear Hl Hnd Hco. induction owners as [|o owners IH]; [by exists []|].
    destruct (Hall o) as [v Hv]; [by left|]. destruct IH as (vals & H); [intros; apply Hall; by right|].
    exists (v :: vals). by constructor. }
  assert (Hp : completed_items s ≡ₚ numbered vals).
  { apply NoDup_Permutation; [by eapply NoDup_fmap_1|..].
    { apply (NoDup_fmap_1 fst). rewrite numbered_fst. apply NoDup_seqZ. }
    intros [i v]. rewrite Hco, elem_of_numbered. split.
    - intros (Hi & o & Ho & Hv). split; [done|].
      destruct (Forall2_lookup_l _ _ _ _ _ HF Ho) as (w & Hw & E). congruence.
    - intros (Hi & Hv). split; [done|]. destruct (Forall2_lookup_r _ _ _ _ _ HF Hv) as (o & Ho & E). eauto. }
  assert (merge_sort index_below (completed_items s) = numbered vals) as ->.
  { apply (StronglySorted_unique_strong index_below).
    - intros [i v] [j w]. rewrite merge_sort_Permutation, Hp, !elem_of_numbered.
      unfold index_below. simpl. intros [? H1] [? H2] ? ?. assert (i = j) as -> by lia. congruence.
    - apply StronglySorted_merge_sort; apply _.
    - apply numbered_sorted.
    - by rewrite merge_sort_Permutation. }
  rewrite numbered_snd, Forall2_fmap_l. eapply Forall2_impl; [exact HF|]. intros o v E. simpl. by rewrite E.
Qed.

Definition end_kind (reason : option string) : string :=
  match reason with Some _ => "response.incomplete" | None => "response.completed" end.

Lemma reads_answer s reason output usage t : echo_ok (response s) ->
  reads_as (terminal_event (end_kind reason) (json_object [("type", JString (end_kind reason));
    ("response", JObject (with_incomplete reason (stream_base s (final_status reason) output usage)))]) t Completed)
    (SigAnswer (rid s) output).
Proof.
  intros He. set (m := with_incomplete reason _).
  assert (Hm : map_get "status" m = Some (JString (final_status reason)) /\
    map_get "id" m = Some (JString (rid s)) /\ map_get "output" m = Some (JArray output)).
  { unfold m, with_incomplete, stream_base. destruct reason;
      rewrite ?map_get_insert_ne, base_status, base_id, base_output by done; done. }
  destruct Hm as (M1 & M2 & M3). clearbody m.
  eexists. split_and!; [reflexivity|by destruct reason|].
  transitivity ((id0 ← (if bool_decide (text_at "status" (JObject m) = Some (final_status reason))
      then text_at "id" (JObject m) else None); o ← opt_array (get "output" (JObject m));
      Some (SigAnswer id0 o)) : option Signal); [by destruct reason|].
  unfold text_at. cbn [get]. rewrite M1, M2, M3. cbn [opt_str mbind option_bind as_str].
  by rewrite bool_decide_true.
Qed.

Lemma all_open_view s owners o : linked s owners -> all_open s -> o ∈ owners -> closed_item (view s o) = None.
Proof.
  intros Hl (O1 & O2 & O3 & _) Ho. destruct o as [| |k]; simpl; [by rewrite O2|by rewrite O1|].
  destruct (tools s !! k) as [st|] eqn:E; [unfold view_tool; by rewrite (O3 _ _ E)|].
  destruct (not_owner s owners (OTool k) Hl); [simpl; by rewrite E|done].
Qed.

Lemma all_open_collected s owners : linked s owners -> all_open s -> collected s owners.
Proof.
  intros Hl Ho. split; [destruct Ho as (_ & _ & _ & ->); constructor|]. intros i v.
  pose proof Ho as (_ & _ & _ & ->). split; [by intros ?%not_elem_of_nil|].
  intros (_ & o & Hlk & Hv). apply list_elem_of_lookup_2 in Hlk.
  pose proof (all_open_view _ _ _ Hl Ho Hlk) as E. by rewrite Hv in E.
Qed.

Lemma tool_keys s k st : tools s !! k = Some st -> k ∈ (tool_entries s).*1.
Proof.
  intros H. apply list_elem_of_fmap. exists (k, st). split; [done|]. unfold tool_entries.
  rewrite merge_sort_Permutation. by apply elem_of_map_to_list.
Qed.

(** The three steps that close everything *)
Lemma finish_all s e1 s1 e2 s2 e3 s3 owners : static_ok s -> linked s owners -> all_open s ->
  finish_reasoning s = (Ok e1, s1) -> finish_message s1 = (Ok e2, s2) -> finish_tools s2 = (Ok e3, s3) ->
  frame s s3 /\ exists owners' sigs, linked s3 owners' /\ collected s3 owners' /\
    Forall2 reads_as (e1 ++ e2 ++ e3) sigs /\
    items_run sigs (view s <$> owners) = Some (view s3 <$> owners') /\
    (forall o, o ∈ owners' -> closed_in s3 o).
Proof.
  intros Hst Hl Ho H1 H2 H3. apply finish_reasoning_fin in H1. apply finish_message_fin in H2.
  unfold finish_tools in H3. apply M_bind_Ok in H3 as (x & y & Hg & H3). apply gets_Ok in Hg as [-> ->].
  apply finish_keys_fin in H3. pose proof (proj1 (proj2 H3)) as Hdom.
  destruct (fin_step_trans _ _ _ _ _ _ _ H1 (fin_step_trans _ _ _ _ _ _ _ H2 H3)) as (F & _ & Hf).
  destruct (Hf owners Hst Hl (all_open_collected _ _ Hl Ho)) as (o' & sg & A1 & A2 & A3 & A4 & _ & _ & A7).
  split; [done|]. exists o', sg. split_and!; [done..|]. intros o Hin. apply A7; [done|].
  destruct o as [| |k]; [by left|by right; left|]. right; right. exists k. split; [|done].
  destruct (tools s3 !! k) as [st|] eqn:E.
  - assert (Hk : k ∈ dom (tools s2)) by (rewrite <-Hdom; by eapply elem_of_dom_2).
    apply elem_of_dom in Hk as [st2 Hk]. by eapply tool_keys.
  - destruct (not_owner s3 o' (OTool k) A1); [simpl; by rewrite E|done].
Qed.

Lemma finish_follows s c u s' owners : static_ok s -> completed s = false ->
  client_next c = next_sequence_number s -> open_follows s c owners -> finish s = (Ok u, s') ->
  exists c', client_run (update_events u) c = Some c' /\ follows s' c' /\ static_ok s' /\
    completed s' = true.
Proof.
  intros Hst Hcm Hn (Hl & Ho & Hi & Hp) H. unfold finish in H.
  apply M_bind_Ok in H as (x & y & Hg & H). apply gets_Ok in Hg as [-> ->]. change (id s) with s in H.
  rewrite Hcm in H. apply M_bind_Ok in H as (reason & x & Hg & H). apply lift_Ok in Hg as [Hg ->].
  apply M_bind_Ok in H as (e0 & s0 & H0 & H).
  destruct (ensure_started_ok _ _ _ _ _ Hst Hl Hi Hp H0)
    as (sg0 & c0 & HF0 & Hr0 & (Hl0 & Hi0 & Hp0 & Hid0) & Hal & _ & _ & E3 & E4 & _ & _).
  assert (Ho0 : all_open s0).
  { unfold all_open in *. rewrite (al_message _ _ Hal), (al_reasoning _ _ Hal), (al_tools _ _ Hal), E3. done. }
  assert (Hst0 : static_ok s0).
  { unfold static_ok in *. by rewrite (al_response _ _ Hal), (al_projection _ _ Hal). }
  apply M_bind_Ok in H as (e1 & s1 & H1 & H). apply M_bind_Ok in H as (e2 & s2 & H2 & H).
  apply M_bind_Ok in H as (e3 & s3 & H3 & H).
  destruct (finish_all _ _ _ _ _ _ _ _ Hst0 Hl0 Ho0 H1 H2 H3) as (F & o3 & sg & Hl3 & Hc3 & HF & Hr & Hall).
  apply M_bind_Ok in H as (x & s4 & Hm & H). apply modify_Ok in Hm as ->.
  apply M_bind_Ok in H as (x1 & s4 & Hm & H). apply gets_Ok in Hm as [-> ->]. cbv zeta in H.
  apply M_bind_Ok in H as (total & x1 & Hm & H). apply lift_Ok in Hm as [_ ->].
  apply M_bind_Ok in H as (ev & s5 & Hseq & H). apply M_bind_Ok in H as (x1 & s6 & Hm & H).
  apply modify_Ok in Hm as ->. apply M_bind_Ok in H as (x2 & s6 & Hm & H). apply gets_Ok in Hm as [-> ->].
  apply ret_Ok in H as [-> ->]. cbn [update_events].
  set (s4 := set_completed_items _ s3) in *.
  assert (He4 : echo_ok (response (id s4))) by (simpl; rewrite (fr_response _ _ F); apply Hst0).
  rewrite <-Hi0 in Hr. apply items_signals in Hr; [|done].
  set (c1 := with_items c0 (client_next c0 + Zlen sg) (view s3 <$> o3)) in *.
  set (c2 := {| client_next := client_next c1 + 1; client_phase := Ended; client_id := client_id c1;
                client_items := client_items c1 |}).
  assert (Hrid : rid (id s4) = rid s0) by (unfold rid; simpl; by rewrite (fr_response _ _ F)).
  match type of Hseq with sequence_events ?es _ = _ =>
    destruct (sequence_events_run es
      (sg0 ++ sg ++ [SigAnswer (rid (id s4)) (completed_items (id s4)).*2]) s4 ev s5 c c2)
      as (Hrun & Hn' & Hs5); [|exact Hseq|..] end.
  - apply Forall2_app; [done|]. rewrite !app_assoc. apply Forall2_app; [by rewrite <-app_assoc|].
    constructor; [|constructor]. by apply (reads_answer (id s4) (incomplete_reason reason)).
  - simpl. by rewrite Hn, <-E4, (fr_sequence _ _ F).
  - rewrite signals_run_app, Hr0. cbn [mbind option_bind]. rewrite signals_run_app, Hr.
    cbn [mbind option_bind signals_run].
    unfold client_step. rewrite Z.eqb_refl. unfold c1 at 1. cbn [negb with_items client_phase]. rewrite Hp0.
    rewrite bool_decide_true; [done|]. split; [change (client_id c0 = Some (rid (id s4))); by rewrite Hid0, Hrid|].
    simpl. apply output_exact; done.
  - exists c2. split_and!; [done|by split| |done]. rewrite Hs5. simpl. split; simpl.
    + rewrite (fr_response _ _ F). apply Hst0.
    + rewrite (fr_projection _ _ F). apply Hst0.
Qed.

(** * The promise is kept *)

(** What a session asks of the translator *)
Inductive StreamCall := Chunk (e : AdapterEvent) | Finish.
Definition stream_call (x : StreamCall) : SM StreamUpdate :=
  match x with Chunk e => push e | Finish => finish end.
Definition run_call (x : StreamCall) : SM (list SynthesizedEvent) :=
  u ← stream_call x; mret (update_events u).
Definition run_calls (xs : list StreamCall) : SM (list SynthesizedEvent) := each_m run_call xs.

Lemma follows_quiet s s' c : completed s = false -> step_ok s [] s' -> follows s c ->
  exists owners, open_follows s' c owners /\ client_next c = next_sequence_number s' /\
    completed s' = false.
Proof.
  intros Hcm Hq [Hn _ Hop]. destruct (Hop Hcm) as (owners & Hop').
  destruct (quiet_follows _ _ _ owners Hq Hop') as (o' & Ho'). exists o'. destruct Hq as [F _].
  by rewrite (fr_sequence _ _ F), (fr_completed _ _ F).
Qed.

Lemma update_follows x s c u s' : static_ok s -> follows s c -> stream_call x s = (Ok u, s') ->
  exists c', client_run (update_events u) c = Some c' /\ follows s' c' /\ static_ok s'.
Proof.
  intros Hst Hf H. destruct x as [e|]; simpl in H.
  - unfold push in H. apply M_bind_Ok in H as (x & y & Hg & H). apply gets_Ok in Hg as [-> ->].
    change (id s) with s in H. destruct (completed s) eqn:Hcm; [by apply lift_Ok in H as [? _]|].
    apply M_bind_Ok in H as (x & s1 & Hm & H). apply modify_Ok in Hm as ->.
    set (s1 := set_usage _ s) in *.
    assert (Hq : step_ok s [] s1) by (by apply step_ok_quiet).
    destruct (follows_quiet _ _ _ Hcm Hq Hf) as (o1 & Hop & Hn & Hc1).
    assert (Hst1 : static_ok s1) by done. destruct (payload e) as [| | |data].
    + apply ret_Ok in H as [-> ->]. exists c. split_and!; [done| |done].
      split; [done|by rewrite Hc1|]. intros _. exists o1. exact Hop.
    + destruct (finish_follows _ _ _ _ _ Hst1 Hc1 Hn Hop H) as (c' & ? & ? & ? & _). by exists c'.
    + by apply lift_Ok in H as [? _].
    + apply M_bind_Ok in H as (v & s2 & Hv & H). apply lift_Ok in Hv as [_ ->].
      by eapply push_value_follows.
  - destruct (completed s) eqn:Hcm.
    + unfold finish in H. apply M_bind_Ok in H as (x & y & Hg & H). apply gets_Ok in Hg as [-> ->].
      change (id s) with s in H. rewrite Hcm in H. apply ret_Ok in H as [-> ->]. by exists c.
    + destruct Hf as [Hn _ Hop]. destruct (Hop Hcm) as (owners & Hop').
      destruct (finish_follows _ _ _ _ _ Hst Hcm Hn Hop' H) as (c' & ? & ? & ? & _). by exists c'.
Qed.

Lemma calls_follow xs s c events s' : static_ok s -> follows s c -> run_calls xs s = (Ok events, s') ->
  exists c', client_run events c = Some c' /\ follows s' c' /\ static_ok s'.
Proof.
  revert s c events. unfold run_calls. induction xs as [|x xs IH]; intros s c events Hst Hf H; cbn [each_m] in H.
  { apply ret_Ok in H as [-> ->]. by exists c. }
  apply M_bind_Ok in H as (e1 & s1 & H1 & H). apply M_bind_Ok in H as (e2 & s2 & H2 & H).
  apply ret_Ok in H as [-> ->]. unfold run_call in H1. apply M_bind_Ok in H1 as (u & s3 & H1 & H3).
  apply ret_Ok in H3 as [-> ->]. destruct (update_follows _ _ _ _ _ Hst Hf H1) as (c1 & R1 & F1 & S1).
  destruct (IH _ _ _ S1 F1 H2) as (c2 & R2 & F2 & S2). exists c2. split_and!; [|done..].
  by rewrite client_run_app, R1.
Qed.

Lemma stream_new_follows r p t bytes : follows (stream_new r p t bytes) client_new.
Proof.
  split; [done..|]. intros _. exists []. split_and!; [|by split_and!|done..].
  split; [|done..]. split; [constructor|done|]. intros o i. split.
  - destruct o as [| |k]; simpl; [done..|]. by rewrite lookup_empty.
  - intros [_ H]. done.
Qed.
End client.

(** C20. A bridged stream keeps the promise of the Responses API, whatever the
    upstream sends.  Take any sequence of chunks and of calls of [finish] that
    the translator accepts, from a session whose tools are in order.  A client
    that reads the events one after the other finds them in order: they are
    numbered 0, 1, 2 and so on without a gap; the answer is announced first,
    under the id it is ended with; every item is announced under the next free
    index before anything is said of it, under an id that stays; its deltas add
    up to the text that is repeated when it is complete and to the text in the
    item that closes it; each item is closed once; and the answer at the end
    lists exactly the closed items in the order of their indices, with every
    item closed.  The stream has ended for the client exactly when the
    translator is completed, and then nothing follows. *)
Theorem bridged_stream_in_order {JT : JsonText} id m request now p t bytes xs events s :
  projection_ok t ->
  run_calls xs (stream_new (response_projection_new id m request now) p t bytes) = (Ok events, s) ->
  exists c, client_run events client_new = Some c /\
    (completed s = true <-> client_phase c = Ended) /\ client_next c = Zlen events.
Proof.
  intros Hok H.
  assert (Hst : static_ok (stream_new (response_projection_new id m request now) p t bytes)).
  { split; [apply echo_fields_new|done]. }
  destruct (calls_follow xs _ client_new events s Hst (stream_new_follows _ _ _ _) H) as (c & Hr & Hf & _).
  exists c. split_and!; [done| |].
  - split; [apply Hf|]. intros He. destruct (completed s) eqn:Hc; [done|].
    destruct (fo_open _ _ Hf Hc) as (o & _ & _ & _ & Hp). destruct (started s); destruct Hp; congruence.
  - apply client_run_next in Hr. simpl in Hr. lia.
Qed.

(** * A stream *)

(** A reasoning text, a text in two pieces, a function that is streamed and a
    custom tool in its envelope, from an upstream of the baseline profile *)
Definition sample_chunk (v : Value) : StreamCall :=
  Chunk (adapter_event [] default_telemetry
    (SseJson {| sse_event_name := None; sse_data := bytes_of_string (Plain.print v) |})).
Definition sample_delta (d : Map) (reason : Value) : StreamCall :=
  sample_chunk (json_object [("model", JString "m"); ("created", num 7);
    ("choices", JArray [json_object [("index", num 0); ("delta", json_object d);
                                     ("finish_reason", reason)]])]).
Definition sample_call (key : Z) (id : string) (name payload : string) : Value :=
  json_object [("index", num key); ("id", JString id); ("type", JString "function");
    ("function", json_object [("name", JString name); ("arguments", JString payload)])].
Definition sample_more (key : Z) (payload : string) : Value :=
  json_object [("index", num key); ("function", json_object [("arguments", JString payload)])].
Definition sample_calls : list StreamCall :=
  [sample_delta [("role", JString "assistant"); ("reasoning", JString "hm")] JNull;
   sample_delta [("content", JString "Hel")] JNull;
   sample_delta [("tool_calls", JArray [sample_call 0 "c0" (sample_name (IdFunction "look")) "{";
      sample_call 1 "c1" (sample_name (IdCustom "run")) (Plain.print (envelope "ls"))])] JNull;
   sample_delta [("content", JString "lo"); ("tool_calls", JArray [sample_more 0 "}"])] JNull;
   sample_delta [] (JString "tool_calls");
   sample_chunk (json_object [("choices", JArray []);
     ("usage", json_object [("prompt_tokens", num 3); ("completion_tokens", num 4)])]);
   Chunk (adapter_event [] default_telemetry SseDone); Finish].
Definition sample_stream : ChatToResponsesStream :=
  stream_new (response_projection_new "r" "m" (json_object [("model", JString "public")]) 5)
    COMPATIBLE_BASELINE sample_tools 10.
Definition sample_events : list SynthesizedEvent :=
  match (run_calls (JT := Plain.plain) sample_calls sample_stream).1 with Ok es => es | Err _ => [] end.
Definition sample_end : ChatToResponsesStream :=
  (run_calls (JT := Plain.plain) sample_calls sample_stream).2.

Lemma sample_runs : run_calls (JT := Plain.plain) sample_calls sample_stream = (Ok sample_events, sample_end).
Proof.
  assert (E : is_ok (run_calls (JT := Plain.plain) sample_calls sample_stream).1 = true)
    by (vm_compute; reflexivity).
  unfold sample_events, sample_end. by destruct (run_calls sample_calls sample_stream) as [[] ?].
Qed.

Lemma bridged_stream_in_order_witness :
  (exists c, client_run sample_events client_new = Some c /\
    (completed sample_end = true <-> client_phase c = Ended) /\ client_next c = Zlen sample_events) /\
  Zlen sample_events = 25 /\ completed sample_end = true.
Proof.
  split.
  - exact (bridged_stream_in_order "r" "m" (json_object [("model", JString "public")]) 5
      COMPATIBLE_BASELINE sample_tools 10 sample_calls sample_events sample_end sample_tools_ok sample_runs).
  - split; vm_compute; reflexivity.
Defined.
