(* ===== verification/ChatRequest.v ===== *)
(** Requests of the Responses API as requests of Chat Completions
    ([crates/protocol/src/openai_responses_chat/request] and the contract of the
    bridge in [capabilities.rs]).

    The input items of a request are assembled into the messages of a
    conversation: calls that follow one another share one assistant message,
    outputs follow their calls, and what comes between a call and its output
    waits until every call is settled.  A [ConversationLedger] keeps the calls
    that are open.  A request that fails is dropped with everything that was
    built for it, so the methods return the new assembler; an index or an
    [expect] that does not hold is a panic. *)

From Stdlib Require Import Ascii.
From S2P Require Import Prelude Search Protocol Text JsonValue ChatTools.

Local Open Scope Z_scope.

(** * Code that fails or panics *)

Definition PR (A : Type) : Type := outcome (R A).
#[export] Instance PR_ret : MRet PR := fun A a => Ret (Ok a).
#[export] Instance PR_bind : MBind PR := fun A B f m =>
  match m with Ret (Ok a) => f a | Ret (Err e) => Ret (Err e) | Panic => Panic end.
Definition sure {A} (r : R A) : PR A := Ret r.

Fixpoint thread_pr {S A} (f : A -> S -> PR S) (l : list A) (s : S) : PR S :=
  match l with
  | [] => Ret (Ok s)
  | x :: l => s ← f x s; thread_pr f l s
  end.

(** * Texts *)

Definition line_feed : string := String "010" "".

Section request.
Context {JT : JsonText} (sha256 : list Byte.byte -> list Byte.byte).

(** [text_value] *)
Definition text_element (v : Value) : R string :=
  ok_or (match as_str v with Some s => Some s | None => opt_str (get "text" v) end)
    (invalid "text array contains an unsupported value").
Definition text_value (v : Value) : R string :=
  match v with
  | JString s => Ok s
  | JArray values => texts ← each text_element values; mret (String.concat line_feed texts)
  | other => Ok (to_string other)
  end.

(** [reasoning_text] of [input.rs] *)
Definition summary_text (v : Value) : string :=
  String.concat line_feed
    (omap (fun part => opt_str (get "text" part)) (default [] (opt_array (get "summary" v)))).

(** [image_detail] *)
Definition image_detail (v : option Value) : R (option string) :=
  match v with
  | None | Some JNull => Ok None
  | Some (JString detail) =>
      if bool_decide (detail ∈ ["auto"; "low"; "high"; "original"]) then Ok (Some detail)
      else Err (invalid "input_image.detail must be auto, low, high, or original")
  | Some _ => Err (invalid "input_image.detail must be auto, low, high, or original")
  end.

(** The parts of [convert_content] *)
Definition convert_image (part : Value) (p : OpenAiChatCompletionsProfile) : R Value :=
  if negb (supports_image_url p)
  then Err (invalid "Chat target does not support image_url content") else
  url ← required_string (get "image_url" part) "input_image.image_url";
  detail ← image_detail (get "detail" part);
  if match detail with Some _ => negb (supports_image_detail p) | None => false end
  then Err (invalid "Chat target does not support image detail")
  else mret (json_object [("type", JString "image_url"); ("image_url", json_object
         ([("url", JString url)] ++ opt_field "detail" (JString <$> detail)))]).
Definition convert_audio (part : Value) (p : OpenAiChatCompletionsProfile) : R Value :=
  if negb (supports_input_audio p)
  then Err (invalid "Chat target does not support input_audio content") else
  audio ← ok_or (opt_object (get "input_audio" part))
            (invalid "input_audio.input_audio must be an object");
  data ← required_string (map_get "data" audio) "input_audio.data";
  format ← required_string (map_get "format" audio) "input_audio.format";
  if bool_decide (format ∈ ["wav"; "mp3"])
  then mret (json_object [("type", JString "input_audio");
         ("input_audio", json_object [("data", JString data); ("format", JString format)])])
  else Err (invalid "input_audio.format must be wav or mp3").
Definition file_field (part : Value) (field : string) : R (list (string * Value)) :=
  match get field part with
  | None => Ok []
  | Some v => s ← required_string (Some v) "input_file field"; mret [(field, JString s)]
  end.
Definition convert_file (part : Value) (p : OpenAiChatCompletionsProfile) : R Value :=
  if negb (supports_file p) then Err (invalid "Chat target does not support file content") else
  entries ← each (file_field part) ["file_id"; "file_data"; "filename"];
  let file := fields (concat entries) in
  if xorb (contains_key "file_id" file) (contains_key "file_data" file)
  then mret (json_object [("type", JString "file"); ("file", JObject file)])
  else Err (invalid "input_file must contain exactly one of file_id or file_data").
Definition convert_part (role : string) (p : OpenAiChatCompletionsProfile) (part : Value) : R Value :=
  match opt_str (get "type" part) with
  | None => Err (invalid "message content part type is required")
  | Some kind =>
      if bool_decide (kind ∈ ["input_text"; "output_text"; "text"]) then
        text ← required_string (get "text" part) "content text";
        mret (json_object [("type", JString "text"); ("text", JString text)])
      else if bool_decide (kind = "input_image") && bool_decide (role = "user")
      then convert_image part p
      else if bool_decide (kind = "input_audio") && bool_decide (role = "user")
      then convert_audio part p
      else if bool_decide (kind = "input_file") && bool_decide (role = "user")
      then convert_file part p
      else Err (unsupported_value "message content part type" kind)
  end.

(** [convert_content] *)
Definition convert_content (v : Value) (role : string) (p : OpenAiChatCompletionsProfile) : R Value :=
  match as_str v with
  | Some text => Ok (JString text)
  | None =>
      parts ← ok_or (as_array v) (invalid "message content must be a string or array");
      converted ← each (convert_part role p) parts;
      mret (if bool_decide (role = "assistant")
            then JString (concat_chars (omap (fun part => opt_str (get "text" part)) converted))
            else JArray converted)
  end.

(** A message *)
Definition chat_message (role : string) (content : Value) : Map :=
  fields [("role", JString role); ("content", content)].

(** [append_instructions]: what it pushes *)
Definition append_instructions (v : option Value) (p : OpenAiChatCompletionsProfile) : R (list Value) :=
  match v with
  | None => Ok []
  | Some v =>
      text ← text_value v;
      mret (if str_is_empty text then []
            else [JObject (chat_message (instruction_role_as_str (instruction_role p)) (JString text))])
  end.

(** * The ledger *)

Record ConversationLedger := {
  seen_calls : gset string;
  outstanding : gmap string ToolIdentity
}.
Definition ledger_new : ConversationLedger := {| seen_calls := ∅; outstanding := ∅ |}.
Definition is_settled (l : ConversationLedger) : bool := bool_decide (outstanding l = ∅).

(** [add_call] *)
Definition add_call (call_id : string) (identity : ToolIdentity) (l : ConversationLedger)
    : R ConversationLedger :=
  if bool_decide (call_id ∈ seen_calls l)
  then Err (invalid "tool call.call_id must be unique across the conversation")
  else Ok {| seen_calls := {[ call_id ]} ∪ seen_calls l;
             outstanding := <[call_id := identity]> (outstanding l) |}.

(** [settle] *)
Definition settle (call_id : string) (k : SourceCallKind) (l : ConversationLedger)
    : R (ToolIdentity * ConversationLedger) :=
  match outstanding l !! call_id with
  | None =>
      Err (invalid (if bool_decide (call_id ∈ seen_calls l)
                    then "tool call output settles an already completed call"
                    else "tool call output references an unknown call_id"))
  | Some identity =>
      if bool_decide (source_call_kind identity = k)
      then Ok (identity, {| seen_calls := seen_calls l; outstanding := delete call_id (outstanding l) |})
      else Err (invalid "tool call output type does not match its call")
  end.

(** [scan_assistant_calls] *)
Definition scan_call (t : ToolProjection) (l : ConversationLedger) (call : Value)
    : R ConversationLedger :=
  object ← ok_or (as_object call) (invalid "assistant tool call must be an object");
  call_id ← required_string (map_get "id" object) "assistant tool call id";
  '(kind, payload) ← match opt_str (map_get "type" object) with
    | Some kind =>
        if bool_decide (kind = "function") then Ok (ChatFunction, map_get "function" object)
        else if bool_decide (kind = "custom") then Ok (ChatCustom, map_get "custom" object)
        else Err (invalid "assistant tool call type is unsupported")
    | None => Err (invalid "assistant tool call type is unsupported")
    end;
  name ← required_string (payload ≫= get "name") "assistant tool call name";
  identity ← known_identity kind name t;
  add_call call_id identity l.
Fixpoint scan_calls (t : ToolProjection) (calls : list Value) (l : ConversationLedger)
    : R ConversationLedger :=
  match calls with
  | [] => Ok l
  | call :: calls => l ← scan_call t l call; scan_calls t calls l
  end.
Definition scan_assistant_calls (v : Value) (t : ToolProjection) (l : ConversationLedger)
    : R ConversationLedger :=
  calls ← ok_or (as_array v) (invalid "assistant tool_calls must be an array");
  scan_calls t calls l.

(** [scan_tool_output] *)
Definition scan_tool_output (message : Map) (l : ConversationLedger) : R ConversationLedger :=
  call_id ← required_string (map_get "tool_call_id" message) "tool message tool_call_id";
  match outstanding l !! call_id with
  | None => Err (invalid "conversation tool output references an unknown call_id")
  | Some _ => mret {| seen_calls := seen_calls l; outstanding := delete call_id (outstanding l) |}
  end.

(** The body of the loop of [from_messages] *)
Definition scan_message (t : ToolProjection) (l : ConversationLedger) (message : Value)
    : R ConversationLedger :=
  object ← ok_or (as_object message) (invalid "conversation message must be an object");
  match opt_str (map_get "role" object) with
  | None => Err (invalid "conversation message role is required")
  | Some role =>
      if bool_decide (role = "assistant") then
        if negb (is_settled l)
        then Err (invalid "assistant message appears before outstanding tool calls are settled")
        else match map_get "tool_calls" object with
             | Some calls => scan_assistant_calls calls t l
             | None => mret l
             end
      else if bool_decide (role = "tool") then scan_tool_output object l
      else if is_settled l then mret l
      else Err (invalid "regular message appears before outstanding tool calls are settled")
  end.
Fixpoint scan_messages (t : ToolProjection) (messages : list Value) (l : ConversationLedger)
    : R ConversationLedger :=
  match messages with
  | [] => Ok l
  | m :: messages => l ← scan_message t l m; scan_messages t messages l
  end.
(** [ConversationLedger::from_messages] *)
Definition from_messages (messages : list Value) (t : ToolProjection) : R ConversationLedger :=
  scan_messages t messages ledger_new.

(** * Assembling the input *)

(** [insert_reasoning] *)
Definition reasoning_key (p : OpenAiChatCompletionsProfile) : R string :=
  match reasoning_response p with
  | ReasoningContent | ReasoningContentOrReasoning => Ok "reasoning_content"
  | Reasoning => Ok "reasoning"
  | ReasoningUnsupported => Err (invalid "Chat target cannot represent reasoning history")
  end.
(** [message[field] = value] *)
Definition index_set (field : string) (v message : Value) : outcome Value :=
  match message with
  | JObject m => Ret (JObject (map_insert field v m))
  | JNull => Ret (JObject [(field, v)])
  | _ => Panic
  end.
Definition insert_reasoning (message : Value) (thought : string) (p : OpenAiChatCompletionsProfile)
    : PR Value :=
  field ← sure (reasoning_key p);
  match (match get field message with
         | Some (JString existing) => index_set field (JString (existing +:+ thought)) message
         | _ => index_set field (JString thought) message
         end) with
  | Ret m => mret m
  | Panic => Panic
  end.

Record InputAssembler := {
  asm_messages : list Value;
  asm_projection : ToolProjection;
  asm_profile : OpenAiChatCompletionsProfile;
  pending_calls : list Value;
  call_message_index : option nat;
  pending_reasoning : string;
  output_call_ids : gmap string SourceCallKind;
  asm_ledger : ConversationLedger;
  deferred_messages : list Value
}.

(** [message["role"] == "assistant"] *)
Definition is_assistant (m : Value) : bool := bool_decide (at_key "role" m = JString "assistant").
(** [rposition] *)
Fixpoint rposition {A} (f : A -> bool) (l : list A) : option nat :=
  match l with
  | [] => None
  | x :: l => match rposition f l with
              | Some n => Some (Datatypes.S n)
              | None => if f x then Some 0%nat else None
              end
  end.

(** [InputAssembler::new] *)
Definition assembler_new (messages : list Value) (ids : gmap string SourceCallKind)
    (l : ConversationLedger) (t : ToolProjection) (p : OpenAiChatCompletionsProfile)
    : InputAssembler :=
  {| asm_messages := messages; asm_projection := t; asm_profile := p; pending_calls := [];
     call_message_index := if is_settled l then None else rposition is_assistant messages;
     pending_reasoning := ""; output_call_ids := ids; asm_ledger := l; deferred_messages := [] |}.

Definition with_messages (ms : list Value) (a : InputAssembler) : InputAssembler :=
  {| asm_messages := ms; asm_projection := asm_projection a; asm_profile := asm_profile a;
     pending_calls := pending_calls a; call_message_index := call_message_index a;
     pending_reasoning := pending_reasoning a; output_call_ids := output_call_ids a;
     asm_ledger := asm_ledger a; deferred_messages := deferred_messages a |}.
Definition with_thought (s : string) (a : InputAssembler) : InputAssembler :=
  {| asm_messages := asm_messages a; asm_projection := asm_projection a;
     asm_profile := asm_profile a; pending_calls := pending_calls a;
     call_message_index := call_message_index a; pending_reasoning := s;
     output_call_ids := output_call_ids a; asm_ledger := asm_ledger a;
     deferred_messages := deferred_messages a |}.

(** [append_regular] *)
Definition append_regular (m : Value) (a : InputAssembler) : InputAssembler :=
  if is_settled (asm_ledger a) then with_messages (asm_messages a ++ [m]) a
  else {| asm_messages := asm_messages a; asm_projection := asm_projection a;
          asm_profile := asm_profile a; pending_calls := pending_calls a;
          call_message_index := call_message_index a; pending_reasoning := pending_reasoning a;
          output_call_ids := output_call_ids a; asm_ledger := asm_ledger a;
          deferred_messages := deferred_messages a ++ [m] |}.

(** [flush_deferred] *)
Definition flush_deferred (a : InputAssembler) : InputAssembler :=
  {| asm_messages := asm_messages a ++ deferred_messages a; asm_projection := asm_projection a;
     asm_profile := asm_profile a; pending_calls := pending_calls a;
     call_message_index := call_message_index a; pending_reasoning := pending_reasoning a;
     output_call_ids := output_call_ids a; asm_ledger := asm_ledger a; deferred_messages := [] |}.

(** The assistant message calls are collected in *)
Definition call_message : Value :=
  json_object [("role", JString "assistant"); ("content", JNull); ("tool_calls", JArray [])].

(** [message["tool_calls"].as_array_mut().expect(..).append(calls)] *)
Definition extend_calls (calls : list Value) (message : Value) : outcome Value :=
  match message with
  | JObject m =>
      match map_get "tool_calls" m with
      | Some (JArray l) => Ret (JObject (map_insert "tool_calls" (JArray (l ++ calls)) m))
      | _ => Panic
      end
  | _ => Panic
  end.

(** [flush_calls] *)
Definition flush_calls (a : InputAssembler) : PR InputAssembler :=
  match pending_calls a with
  | [] => mret a
  | calls =>
      let index := default (length (asm_messages a)) (call_message_index a) in
      let messages := match call_message_index a with
                      | Some _ => asm_messages a
                      | None => asm_messages a ++ [call_message]
                      end in
      match messages !! index with
      | None => Panic
      | Some message =>
          match extend_calls calls message with
          | Panic => Panic
          | Ret message =>
              '(message, thought) ←
                (if str_is_empty (pending_reasoning a) then mret (message, "")
                 else m ← insert_reasoning message (pending_reasoning a) (asm_profile a);
                      mret (m, ""));
              mret {| asm_messages := <[index := message]> messages;
                      asm_projection := asm_projection a; asm_profile := asm_profile a;
                      pending_calls := []; call_message_index := Some index;
                      pending_reasoning := thought; output_call_ids := output_call_ids a;
                      asm_ledger := asm_ledger a; deferred_messages := deferred_messages a |}
          end
      end
  end.

(** [flush_reasoning] *)
Definition flush_reasoning (a : InputAssembler) : PR InputAssembler :=
  if str_is_empty (pending_reasoning a) then mret a else
  message ← insert_reasoning (JObject (chat_message "assistant" JNull)) (pending_reasoning a)
              (asm_profile a);
  mret (append_regular message (with_thought "" a)).

(** [append_message] *)
Definition message_role (object : Map) (p : OpenAiChatCompletionsProfile) : R string :=
  match opt_str (map_get "role" object) with
  | None => Err (invalid "message role is required")
  | Some role =>
      if bool_decide (role ∈ ["developer"; "system"])
      then Ok (instruction_role_as_str (instruction_role p))
      else if bool_decide (role ∈ ["user"; "assistant"]) then Ok role
      else Err (unsupported_value "message role" role)
  end.
Definition append_message (object : Map) (a : InputAssembler) : PR InputAssembler :=
  role ← sure (message_role object (asm_profile a));
  a ← (if bool_decide (role = "assistant") then mret a else flush_reasoning a);
  content ← sure (ok_or (map_get "content" object) (invalid "message content is required"));
  content ← sure (convert_content content role (asm_profile a));
  let message := JObject (chat_message role content) in
  if bool_decide (role = "assistant") && negb (str_is_empty (pending_reasoning a)) then
    message ← insert_reasoning message (pending_reasoning a) (asm_profile a);
    mret (append_regular message (with_thought "" a))
  else mret (append_regular message a).

(** [append_call] *)
Definition append_call (object : Map) (k : SourceCallKind) (a : InputAssembler) : PR InputAssembler :=
  call_id ← sure (required_string (map_get "call_id" object) "tool call.call_id");
  if negb (bool_decide (output_call_ids a !! call_id = Some k))
  then sure (Err (invalid match k with
    | SourceFunction => "current function_call has no unique matching function_call_output"
    | SourceCustom => "current custom_tool_call has no unique matching custom_tool_call_output"
    | SourceToolSearch => "current tool_search_call has no unique matching tool_search_output"
    end)) else
  '(pc, t) ← sure (project_source_call sha256 object k (asm_projection a));
  ledger ← sure (add_call call_id (call_identity pc) (asm_ledger a));
  match index_set "id" (JString call_id) (chat_call pc) with
  | Panic => Panic
  | Ret call =>
      mret {| asm_messages := asm_messages a; asm_projection := t; asm_profile := asm_profile a;
              pending_calls := pending_calls a ++ [call]; call_message_index := call_message_index a;
              pending_reasoning := pending_reasoning a; output_call_ids := output_call_ids a;
              asm_ledger := ledger; deferred_messages := deferred_messages a |}
  end.

(** [validate_identity], [tool_search_tools], [tool_search_output] *)
Definition validate_identity (object : Map) (identity : ToolIdentity) : R unit :=
  match map_get "name" object with
  | None => Ok tt
  | Some name =>
      match identity with
      | IdCustom expected | IdNamespaceCustom _ expected =>
          guard_or (bool_decide (as_str name = Some expected))
            (invalid "custom_tool_call_output.name does not match its call")
      | _ => Err (invalid "name is only valid on custom_tool_call_output")
      end
  end.
Definition tool_search_tools (object : Map) : R (list Value) :=
  ok_or (opt_array (map_get "tools" object)) (invalid "tool_search_output.tools must be an array").
Definition tool_search_output (object : Map) (tools : list Value) : R string :=
  status ← required_string (map_get "status" object) "tool_search_output.status";
  execution ← required_string (map_get "execution" object) "tool_search_output.execution";
  if bool_decide (execution = "client")
  then mret (to_string (json_object [("status", JString status); ("execution", JString "client");
                                     ("tools", JArray tools)]))
  else Err (invalid "only client-executed tool_search_output is supported").

(** The message of an output *)
Definition tool_message (call_id content : string) : Value :=
  json_object [("role", JString "tool"); ("tool_call_id", JString call_id); ("content", JString content)].

(** [append_output] *)
Definition append_output (object : Map) (k : SourceCallKind) (a : InputAssembler) : PR InputAssembler :=
  call_id ← sure (required_string (map_get "call_id" object) "tool call output.call_id");
  '(identity, ledger) ← sure (settle call_id k (asm_ledger a));
  _ ← sure (validate_identity object identity);
  '(content, t) ← match k with
    | SourceToolSearch =>
        tools ← sure (tool_search_tools object);
        t ← sure (activate_loaded sha256 tools (asm_projection a));
        content ← sure (tool_search_output object tools);
        mret (content, t)
    | _ =>
        output ← sure (ok_or (map_get "output" object) (invalid "tool call output.output is required"));
        content ← sure (text_value output);
        mret (content, asm_projection a)
    end;
  let a := {| asm_messages := asm_messages a ++ [tool_message call_id content];
              asm_projection := t; asm_profile := asm_profile a; pending_calls := pending_calls a;
              call_message_index := call_message_index a; pending_reasoning := pending_reasoning a;
              output_call_ids := output_call_ids a; asm_ledger := ledger;
              deferred_messages := deferred_messages a |} in
  mret (if is_settled ledger
        then flush_deferred
          {| asm_messages := asm_messages a; asm_projection := asm_projection a;
             asm_profile := asm_profile a; pending_calls := pending_calls a;
             call_message_index := None; pending_reasoning := pending_reasoning a;
             output_call_ids := output_call_ids a; asm_ledger := asm_ledger a;
             deferred_messages := deferred_messages a |}
        else a).

(** The kind of call or of output an item is *)
Definition call_item_kind (kind : option string) : option SourceCallKind :=
  if bool_decide (kind = Some "function_call") then Some SourceFunction
  else if bool_decide (kind = Some "custom_tool_call") then Some SourceCustom
  else if bool_decide (kind = Some "tool_search_call") then Some SourceToolSearch else None.
Definition output_item_kind (kind : option string) : option SourceCallKind :=
  if bool_decide (kind = Some "function_call_output") then Some SourceFunction
  else if bool_decide (kind = Some "custom_tool_call_output") then Some SourceCustom
  else if bool_decide (kind = Some "tool_search_output") then Some SourceToolSearch else None.

(** [InputAssembler::append] *)
Definition append_item (item : Value) (a : InputAssembler) : PR InputAssembler :=
  object ← sure (ok_or (as_object item) (invalid "input items must be objects"));
  let kind := opt_str (map_get "type" object) in
  match call_item_kind kind with
  | Some k => append_call object k a
  | None =>
      a ← flush_calls a;
      if (bool_decide (kind = Some "message") || bool_decide (kind = None)) && contains_key "role" object
      then append_message object a
      else if bool_decide (kind = Some "input_text") then
        a ← flush_reasoning a;
        text ← sure (required_string (map_get "text" object) "input_text.text");
        mret (append_regular (JObject (chat_message "user" (JString text))) a)
      else match output_item_kind kind with
           | Some k => append_output object k a
           | None =>
               if bool_decide (kind = Some "reasoning")
               then mret (with_thought (pending_reasoning a +:+ summary_text item) a)
               else match kind with
                    | Some kind => sure (Err (unsupported_value "input item type" kind))
                    | None => sure (Err (invalid "Responses input item type is required"))
                    end
           end
  end.

(** [InputAssembler::finish] *)
Definition assembler_finish (a : InputAssembler) : PR (list Value * ToolProjection) :=
  a ← flush_calls a;
  a ← flush_reasoning a;
  if negb (is_settled (asm_ledger a))
  then sure (Err (invalid "tool call has no matching output before the next model turn"))
  else mret (asm_messages (flush_deferred a), asm_projection a).

(** [collect_output_call_ids] *)
Definition collect_output_id (item : Value) (ids : gmap string SourceCallKind)
    : R (gmap string SourceCallKind) :=
  match as_object item with
  | None => Ok ids
  | Some object =>
      match output_item_kind (opt_str (map_get "type" object)) with
      | None => Ok ids
      | Some k =>
          call_id ← required_string (map_get "call_id" object) "tool call output.call_id";
          if bool_decide (is_Some (ids !! call_id))
          then Err (invalid "tool call output.call_id must be unique in the current input")
          else mret (<[call_id := k]> ids)
      end
  end.
Fixpoint collect_output_call_ids (items : list Value) (ids : gmap string SourceCallKind)
    : R (gmap string SourceCallKind) :=
  match items with
  | [] => Ok ids
  | item :: items => ids ← collect_output_id item ids; collect_output_call_ids items ids
  end.

(** [append_items] *)
Definition append_items (items messages : list Value) (t : ToolProjection)
    (p : OpenAiChatCompletionsProfile) : PR (list Value * ToolProjection) :=
  ids ← sure (collect_output_call_ids items ∅);
  ledger ← sure (from_messages messages t);
  a ← thread_pr append_item items (assembler_new messages ids ledger t p);
  assembler_finish a.

(** [append_input] *)
Definition append_input (input : option Value) (messages : list Value) (t : ToolProjection)
    (p : OpenAiChatCompletionsProfile) : PR (list Value * ToolProjection) :=
  match input with
  | None => sure (Err (invalid "input is required"))
  | Some (JString text) => mret (messages ++ [JObject (chat_message "user" (JString text))], t)
  | Some (JArray items) => append_items items messages t p
  | Some _ => sure (Err (invalid "input must be a string or array"))
  end.

(** * The rest of a request *)

Inductive BridgeRequestFieldBehavior := Translated | Forwarded | LocalState | ValidatedOnly.
#[export] Instance field_behavior_eq_dec : EqDecision BridgeRequestFieldBehavior.
Proof. solve_decision. Defined.

Definition REQUEST_FIELDS : list (string * BridgeRequestFieldBehavior) :=
  [("model", Translated); ("input", Translated); ("instructions", Translated);
   ("previous_response_id", LocalState); ("include", ValidatedOnly); ("stream", Translated);
   ("max_output_tokens", Translated); ("reasoning", Translated); ("text", Translated);
   ("tools", Translated); ("tool_choice", Translated); ("client_metadata", ValidatedOnly);
   ("n", ValidatedOnly); ("frequency_penalty", Forwarded); ("logit_bias", Forwarded);
   ("logprobs", Forwarded); ("metadata", Forwarded); ("parallel_tool_calls", Forwarded);
   ("presence_penalty", Forwarded); ("prompt_cache_key", Forwarded); ("seed", Forwarded);
   ("service_tier", Forwarded); ("stop", Forwarded); ("store", Forwarded);
   ("temperature", Forwarded); ("top_logprobs", Forwarded); ("top_p", Forwarded);
   ("user", Forwarded)].

(** [request_field] *)
Definition request_field (path : string) : option OpenAiChatRequestField :=
  snd <$> find (fun e => bool_decide (e.1 = path))
    [("frequency_penalty", FrequencyPenalty); ("logit_bias", LogitBias); ("logprobs", Logprobs);
     ("metadata", FieldMetadata); ("parallel_tool_calls", ParallelToolCalls);
     ("presence_penalty", PresencePenalty); ("prompt_cache_key", PromptCacheKey); ("seed", Seed);
     ("service_tier", ServiceTier); ("stop", FieldStop); ("store", FieldStore);
     ("temperature", Temperature); ("top_logprobs", TopLogprobs); ("top_p", TopP);
     ("user", FieldUser)].

(** [validate_top_level_fields], [reject_multiple_choices], [validate_prompt_cache_key] *)
Definition validate_top_level_fields (source : Map) : R unit :=
  match list_find (fun f => f ∉ REQUEST_FIELDS.*1) (map_keys source) with
  | Some (_, field) => Err (unsupported_field None field)
  | None => Ok tt
  end.
Definition reject_multiple_choices (source : Map) : R unit :=
  match map_get "n" source with
  | Some v => guard_or (bool_decide (as_u64 v = Some 1))
                (invalid "Responses bridge supports exactly one choice")
  | None => Ok tt
  end.
Definition validate_prompt_cache_key (v : option Value) : R unit :=
  match v with
  | None | Some (JString _) => Ok tt
  | Some _ => Err (invalid "prompt_cache_key must be a string")
  end.

(** [validate_include], [validate_client_metadata] *)
Definition validate_include (v : option Value) : R unit :=
  match v with
  | None => Ok tt
  | Some v =>
      include ← ok_or (as_array v) (invalid "include must be an array");
      guard_or (forallb (fun i => bool_decide (as_str i = Some "reasoning.encrypted_content")) include)
        (invalid "only reasoning.encrypted_content can be included by this bridge")
  end.
Definition validate_client_metadata (v : option Value) : R unit :=
  match v with
  | None => Ok tt
  | Some v =>
      metadata ← ok_or (as_object v) (invalid "client_metadata must be an object");
      guard_or (forallb is_string (map_values metadata)) (invalid "client_metadata values must be strings")
  end.

(** A field of an object that is not among the known ones *)
Definition unknown_field (object : Map) (known : list string) : option string :=
  snd <$> list_find (fun f => f ∉ known) (map_keys object).

(** [convert_reasoning] *)
Definition convert_reasoning (v : Value) : R (option Value) :=
  reasoning ← ok_or (as_object v) (invalid "reasoning must be an object");
  match unknown_field reasoning ["effort"; "summary"] with
  | Some field => Err (unsupported_field (Some "reasoning") field)
  | None =>
      _ ← match map_get "summary" reasoning with
          | Some summary =>
              guard_or match as_str summary with
                       | Some s => bool_decide (s ∈ ["auto"; "concise"; "detailed"])
                       | None => false
                       end (invalid "reasoning.summary must be auto, concise, or detailed")
          | None => Ok tt
          end;
      match map_get "effort" reasoning with
      | Some effort => if is_string effort then mret (Some effort)
                       else Err (invalid "reasoning.effort must be a string")
      | None => if contains_key "summary" reasoning then mret None
                else Err (invalid "reasoning must contain effort or summary for this bridge")
      end
  end.

(** [convert_json_schema] *)
Definition convert_json_schema (format : Map) : R Value :=
  match unknown_field format ["type"; "name"; "description"; "schema"; "strict"] with
  | Some field => Err (unsupported_field (Some "text.format") field)
  | None =>
      name ← required_string (map_get "name" format) "text.format.name";
      schema ← ok_or (map_get "schema" format ≫= fun v => if is_object v then Some v else None)
                 (invalid "text.format.schema must be an object");
      mret (json_object [("type", JString "json_schema"); ("json_schema", json_object
        ([("name", JString name); ("schema", schema)] ++
         opt_field "description" (map_get "description" format) ++
         opt_field "strict" (map_get "strict" format)))])
  end.
(** [convert_text_format], [convert_verbosity] *)
Definition convert_text_format (v : Value) : R Value :=
  format ← ok_or (as_object v) (invalid "text.format must be an object");
  kind ← required_string (map_get "type" format) "text.format.type";
  if bool_decide (kind ∈ ["text"; "json_object"]) then mret (json_object [("type", JString kind)])
  else if bool_decide (kind = "json_schema") then convert_json_schema format
  else Err (invalid "text.format type is not supported by this bridge").
Definition convert_verbosity (v : Value) : R Value :=
  if match as_str v with Some s => bool_decide (s ∈ ["low"; "medium"; "high"]) | None => false end
  then Ok v else Err (invalid "text.verbosity must be low, medium, or high").

Definition opt_each {A B} (f : A -> R B) (o : option A) : R (option B) :=
  match o with None => Ok None | Some a => b ← f a; mret (Some b) end.

(** [convert_text_config] *)
Definition convert_text_config (v : Value) : R (option Value * option Value) :=
  text ← ok_or (as_object v) (invalid "text must be an object");
  match unknown_field text ["format"; "verbosity"] with
  | Some field => Err (unsupported_field (Some "text") field)
  | None =>
      match text with
      | [] => Err (invalid "text must contain format or verbosity for this bridge")
      | _ => format ← opt_each convert_text_format (map_get "format" text);
             verbosity ← opt_each convert_verbosity (map_get "verbosity" text);
             mret (format, verbosity)
      end
  end.

(** [require_field] *)
Definition require_field (p : OpenAiChatCompletionsProfile) (f : OpenAiChatRequestField) (name : string)
    : R unit :=
  guard_or (supports_request_field p f) (InvalidPayload ("Chat target does not support " +:+ name)).

(** One turn of [append_forwarded_fields] *)
Definition forward_field (source : Map) (p : OpenAiChatCompletionsProfile) (path : string)
    : R (list (string * Value)) :=
  match map_get path source with
  | None => Ok []
  | Some v =>
      if bool_decide (path = "parallel_tool_calls") then Ok [] else
      capability ← ok_or (request_field path)
        (Internal ("forwarded bridge field `" +:+ path +:+ "` has no target profile capability"));
      if supports_request_field p capability then mret [(path, v)]
      else Err (InvalidPayload ("Chat target does not support request field `" +:+ path +:+ "`"))
  end.
Definition forwarded_fields : list string :=
  omap (fun e => if bool_decide (e.2 = Forwarded) then Some e.1 else None) REQUEST_FIELDS.

(** [append_reasoning], [append_text_config], [append_tools]: what they insert *)
Definition append_reasoning (source : Map) (p : OpenAiChatCompletionsProfile) : R (list (string * Value)) :=
  match map_get "reasoning" source with
  | None => Ok []
  | Some reasoning =>
      effort ← convert_reasoning reasoning;
      match effort, reasoning_request p with
      | None, _ => mret []
      | Some effort, ReasoningEffort => mret [("reasoning_effort", effort)]
      | Some _, RequestUnsupported => Err (invalid "Chat target does not support reasoning effort")
      end
  end.
Definition append_text_config (source : Map) (p : OpenAiChatCompletionsProfile)
    : R (list (string * Value)) :=
  match map_get "text" source with
  | None => Ok []
  | Some text =>
      '(format, verbosity) ← convert_text_config text;
      _ ← match format with Some _ => require_field p ResponseFormat "response_format" | None => Ok tt end;
      _ ← match verbosity with Some _ => require_field p Verbosity "verbosity" | None => Ok tt end;
      mret (opt_field "response_format" format ++ opt_field "verbosity" verbosity)
  end.
Definition append_tools (source : Map) (p : OpenAiChatCompletionsProfile) (t : ToolProjection)
    : R (list (string * Value)) :=
  if negb (has_active_tools t) then
    match map_get "tool_choice" source with
    | None => Ok []
    | Some choice =>
        if match as_str choice with Some s => bool_decide (s ∈ ["none"; "auto"]) | None => false end
        then Ok [] else Err (invalid "tool_choice requires at least one active tool")
    end
  else
    choice ← match map_get "tool_choice" source with
             | Some v => c ← project_tool_choice v t; mret [("tool_choice", c)]
             | None => Ok []
             end;
    parallel ← match map_get "parallel_tool_calls" source with
               | Some v => _ ← require_field p ParallelToolCalls "parallel_tool_calls";
                           mret [("parallel_tool_calls", v)]
               | None => Ok []
               end;
    mret ([("tools", JArray (chat_tools t))] ++ choice ++ parallel).

(** [target::build] *)
Definition target_build (source : Map) (model : string) (p : OpenAiChatCompletionsProfile)
    (messages : list Value) (t : ToolProjection) : R Value :=
  forwarded ← each (forward_field source p) forwarded_fields;
  let limit := match map_get "max_output_tokens" source with
               | Some v => [(token_limit_as_str (token_limit_field p), v)]
               | None => []
               end in
  let stream := match map_get "stream" source with
                | Some v => [("stream", v)] ++
                    if bool_decide (v = JBool true)
                    then [("stream_options", json_object [("include_usage", JBool true)])] else []
                | None => []
                end in
  reasoning ← append_reasoning source p;
  text ← append_text_config source p;
  tools ← append_tools source p t;
  mret (json_object ([("model", JString model); ("messages", JArray messages)] ++ concat forwarded ++
                     limit ++ stream ++ reasoning ++ text ++ tools)).

Record ConvertedRequest := {
  request_body : Value;
  conversation_start : nat;
  request_projection : ToolProjection
}.

(** [ConvertedRequest::conversation], and [into_conversation] *)
Definition request_conversation (c : ConvertedRequest) : outcome (list Value) :=
  match get "messages" (request_body c) with
  | Some (JArray messages) =>
      if (conversation_start c <=? length messages)%nat then Ret (drop (conversation_start c) messages)
      else Panic
  | _ => Panic
  end.

(** [convert] *)
Definition request_convert (body : Value) (model : string) (p : OpenAiChatCompletionsProfile)
    (previous : list Value) (previous_projection : option ToolProjection) : PR ConvertedRequest :=
  source ← sure (ok_or (as_object body) (invalid "request must be an object"));
  _ ← sure (validate_top_level_fields source);
  _ ← sure (reject_multiple_choices source);
  _ ← sure (validate_prompt_cache_key (map_get "prompt_cache_key" source));
  _ ← sure (validate_include (map_get "include" source));
  _ ← sure (validate_client_metadata (map_get "client_metadata" source));
  t ← sure (configure sha256 (map_get "tools" source) (projection_new p previous_projection));
  '(conversation, t) ← append_input (map_get "input" source) previous t p;
  instructions ← sure (append_instructions (map_get "instructions" source) p);
  target ← sure (target_build source model p (instructions ++ conversation) t);
  mret {| request_body := target; conversation_start := length instructions; request_projection := t |}.
End request.
