(* ===== verification/ChatHistory.v ===== *)
(** The conversations the bridge sends upstream
    ([crates/protocol/src/openai_responses_chat/request/{history,ledger}.rs]).

    A target of Chat Completions answers a conversation only when every tool
    call of it has its output, directly after the message that made the call:
    what [ConversationLedger::from_messages] accepts and finds settled.  This
    file shows that the assembler keeps that shape: the invariant relates the
    messages, the calls that wait for a message and the assembler's ledger to
    the ledger of the messages, and every item of an input keeps it, without
    any of the indices and [expect]s of the assembler failing. *)

From S2P Require Import Prelude Search Protocol Text JsonValue ChatTools ChatRequest.

Local Open Scope Z_scope.

(** * Runs that may fail but do not panic *)

Definition holds {A} (m : PR A) (Q : A -> Prop) : Prop :=
  match m with Panic => False | Ret (Err _) => True | Ret (Ok a) => Q a end.

Lemma holds_bind {A B} (m : PR A) (f : A -> PR B) Q :
  holds m (fun a => holds (f a) Q) -> holds (m ≫= f) Q.
Proof. by destruct m as [[a|e]|]. Qed.
Lemma holds_ret {A} (a : A) (Q : A -> Prop) : Q a -> holds (mret a) Q.
Proof. done. Qed.
Lemma holds_sure {A} (r : R A) (Q : A -> Prop) : (forall a, r = Ok a -> Q a) -> holds (sure r) Q.
Proof. destruct r; simpl; auto. Qed.
Lemma holds_mono {A} (m : PR A) (P Q : A -> Prop) : holds m P -> (forall a, P a -> Q a) -> holds m Q.
Proof. destruct m as [[a|e]|]; simpl; auto. Qed.
Lemma holds_thread {S A} (f : A -> S -> PR S) (I : S -> Prop) l s :
  (forall x s, I s -> holds (f x s) I) -> I s -> holds (thread_pr f l s) I.
Proof.
  intros Hf. revert s. induction l as [|x l IH]; intros s Hs; [done|].
  apply holds_bind. apply (holds_mono _ I); [by apply Hf|]. auto.
Qed.

(** Steps through a run *)
Ltac run_step :=
  match goal with
  | |- holds (_ ≫= _) _ => apply holds_bind
  | |- holds (mret _) _ => apply holds_ret
  | |- holds (sure (Err _)) _ => exact I
  | |- holds (sure _) _ => apply holds_sure; intros ? ?
  end.

(** * What the ledger makes of messages *)

Definition ledger_wf (l : ConversationLedger) : Prop :=
  forall id, is_Some (outstanding l !! id) -> id ∈ seen_calls l.

Lemma settled_iff l : is_settled l = true <-> outstanding l = ∅.
Proof. apply bool_decide_eq_true. Qed.
Lemma unsettled l id i : outstanding l !! id = Some i -> is_settled l = false.
Proof. intros E. apply bool_decide_eq_false. intros E1. by rewrite E1 in E. Qed.

Lemma add_call_Ok id i l l' : add_call id i l = Ok l' <->
  id ∉ seen_calls l /\ l' = {| seen_calls := {[ id ]} ∪ seen_calls l;
                               outstanding := <[id := i]> (outstanding l) |}.
Proof. unfold add_call. case_bool_decide; split; [done|tauto|by intros [= <-]|by intros [? ->]]. Qed.

Lemma add_call_wf id i l l' : add_call id i l = Ok l' -> ledger_wf l -> ledger_wf l'.
Proof.
  intros [_ ->]%add_call_Ok Hwf id' H. simpl in *. apply elem_of_union.
  destruct (decide (id' = id)) as [->|Hne]; [set_solver|].
  rewrite lookup_insert_ne in H by done. right. by apply Hwf.
Qed.

(** The call a value is *)
Definition call_of (t : ToolProjection) (call : Value) (id : string) (i : ToolIdentity) : Prop :=
  forall l, scan_call t l call = add_call id i l.

Lemma scan_call_inv t l call l' : scan_call t l call = Ok l' ->
  exists id i, call_of t call id i /\ add_call id i l = Ok l'.
Proof.
  unfold call_of, scan_call. intros H. runs H. destruct a1 as [k payload]. runs H.
  eexists _, _. split; [|exact H]. intros l1. rewrite H0. simpl. rewrite H1. simpl. rewrite H2. simpl.
  rewrite H3. simpl. by rewrite H4.
Qed.

Lemma scan_calls_app t c1 c2 l : scan_calls t (c1 ++ c2) l = (scan_calls t c1 l ≫= scan_calls t c2).
Proof.
  revert l. induction c1 as [|c c1 IH]; intros l; [done|]. simpl.
  destruct (scan_call t l c) as [l1|e]; simpl; [apply IH|done].
Qed.
Lemma scan_messages_app t m1 m2 l :
  scan_messages t (m1 ++ m2) l = (scan_messages t m1 l ≫= scan_messages t m2).
Proof.
  revert l. induction m1 as [|m m1 IH]; intros l; [done|]. simpl.
  destruct (scan_message t l m) as [l1|e]; simpl; [apply IH|done].
Qed.

Lemma scan_calls_wf t calls l l' : scan_calls t calls l = Ok l' -> ledger_wf l -> ledger_wf l'.
Proof.
  revert l. induction calls as [|c calls IH]; intros l H Hwf; [by injection H as <-|].
  simpl in H. runs H. apply scan_call_inv in H0 as (id & i & _ & H0). eauto using add_call_wf.
Qed.

(** Outputs *)
Lemma scan_tool_output_Ok m l l' : scan_tool_output m l = Ok l' <->
  exists id, required_string (map_get "tool_call_id" m) "tool message tool_call_id" = Ok id /\
    is_Some (outstanding l !! id) /\
    l' = {| seen_calls := seen_calls l; outstanding := delete id (outstanding l) |}.
Proof.
  unfold scan_tool_output. split.
  - intros H. runs H. exists a. case_match; [|done]. runs H. eauto.
  - intros (id & -> & [i E] & ->). simpl. by rewrite E.
Qed.

(** An output of a call *)
Definition answer (m : Value) : Prop :=
  exists o, m = JObject o /\ opt_str (map_get "role" o) = Some "tool".
(** A message that neither makes calls nor answers one *)
Definition regular (m : Value) : Prop :=
  exists o role, m = JObject o /\ opt_str (map_get "role" o) = Some role /\ role <> "tool" /\
    (role = "assistant" -> map_get "tool_calls" o = None).
(** A message that makes calls *)
Definition caller (m : Value) (calls : list Value) : Prop :=
  exists o, m = JObject o /\ opt_str (map_get "role" o) = Some "assistant" /\
    map_get "tool_calls" o = Some (JArray calls).

Lemma scan_regular t l m : regular m -> is_settled l = true -> scan_message t l m = Ok l.
Proof.
  intros (o & role & -> & E & Hne & Hc) Hs. unfold scan_message. simpl. rewrite E, Hs.
  case_bool_decide as Ha; [by rewrite Hc|]. by rewrite bool_decide_false.
Qed.
Lemma scan_regulars t l ms : Forall regular ms -> is_settled l = true -> scan_messages t ms l = Ok l.
Proof.
  intros H Hs. induction H as [|m ms Hm _ IH]; [done|]. simpl. by rewrite scan_regular.
Qed.
Lemma scan_answer t l o : opt_str (map_get "role" o) = Some "tool" ->
  scan_message t l (JObject o) = scan_tool_output o l.
Proof. intros E. unfold scan_message. simpl. by rewrite E. Qed.
Lemma scan_caller t l m calls : caller m calls -> is_settled l = true ->
  scan_message t l m = scan_calls t calls l.
Proof.
  intros (o & -> & E & Ec) Hs. unfold scan_message. simpl. rewrite E, Hs. simpl. by rewrite Ec.
Qed.

(** The three kinds of messages a ledger accepts *)
Lemma scan_message_inv t l m l' : scan_message t l m = Ok l' ->
  (regular m /\ is_settled l = true /\ l' = l) \/
  (exists calls, caller m calls /\ is_settled l = true /\ scan_calls t calls l = Ok l') \/
  (exists o, m = JObject o /\ answer m /\ scan_tool_output o l = Ok l').
Proof.
  unfold scan_message. intros H. runs H. destruct m as [| | | | |o]; try done. simplify_eq/=.
  destruct (opt_str (map_get "role" a)) as [role|] eqn:E; [|done].
  case_bool_decide as Ha; [subst role|case_bool_decide as Ht; [subst role|]].
  - destruct (is_settled l) eqn:Hs; [|done]. simpl in H.
    destruct (map_get "tool_calls" a) as [v|] eqn:Ec.
    + unfold scan_assistant_calls in H. runs H. destruct v; simplify_eq/=.
      right. left. eexists. split; [|done]. by exists a.
    + runs H. left. split; [|done]. exists a, "assistant". by split_and!.
  - right. right. exists a. split; [done|]. split; [by exists a|done].
  - destruct (is_settled l) eqn:Hs; [|done]. runs H. left. split; [|done].
    exists a, role. by split_and!.
Qed.

Lemma scan_message_wf t l m l' : scan_message t l m = Ok l' -> ledger_wf l -> ledger_wf l'.
Proof.
  intros [(_ & _ & ->)|[(calls & _ & _ & E)|(o & _ & _ & E)]]%scan_message_inv Hwf; [done| |].
  - by eapply scan_calls_wf.
  - apply scan_tool_output_Ok in E as (id & _ & _ & ->). intros id' [i E]. simpl in *.
    apply lookup_delete_Some in E as [_ E]. apply Hwf. eauto.
Qed.
Lemma scan_messages_wf t ms l l' : scan_messages t ms l = Ok l' -> ledger_wf l -> ledger_wf l'.
Proof.
  revert l. induction ms as [|m ms IH]; intros l H Hwf; [by injection H as <-|].
  simpl in H. runs H. eauto using scan_message_wf.
Qed.
Lemma from_messages_wf t ms l : from_messages ms t = Ok l -> ledger_wf l.
Proof. intros H. apply (scan_messages_wf _ _ _ _ H). intros id [i E]. done. Qed.

(** ** A call can be made before outputs that came earlier *)

Lemma call_before_answer t call o l l1 l2 :
  ledger_wf l -> scan_tool_output o l = Ok l1 -> scan_call t l1 call = Ok l2 ->
  exists l', scan_call t l call = Ok l' /\ scan_tool_output o l' = Ok l2.
Proof.
  intros Hwf H1 H2. apply scan_call_inv in H2 as (id & i & Hc & [Hn ->]%add_call_Ok).
  apply scan_tool_output_Ok in H1 as (cid & Hr & [j E] & ->). simpl in *.
  assert (cid <> id) as Hne by (intros ->; apply Hn, Hwf; eauto).
  eexists. split; [rewrite Hc; by apply add_call_Ok|].
  apply scan_tool_output_Ok. exists cid. simpl. rewrite lookup_insert_ne by done.
  split_and!; [done|eauto|]. by rewrite delete_insert_ne by done.
Qed.

Lemma calls_before_answer t calls o l l1 l2 :
  ledger_wf l -> scan_tool_output o l = Ok l1 -> scan_calls t calls l1 = Ok l2 ->
  exists l', scan_calls t calls l = Ok l' /\ scan_tool_output o l' = Ok l2.
Proof.
  revert l l1. induction calls as [|c calls IH]; intros l l1 Hwf H1 H2; simpl in H2.
  { injection H2 as <-. by exists l. }
  runs H2. destruct (call_before_answer _ _ _ _ _ _ Hwf H1 H) as (l' & Hc & Ho).
  pose proof Hc as (id & i & _ & Ha)%scan_call_inv.
  destruct (IH _ _ (add_call_wf _ _ _ _ Ha Hwf) Ho H2) as (l'' & Hs & Hl).
  exists l''. simpl. by rewrite Hc.
Qed.

Lemma calls_before_answers t calls ms l l1 l2 :
  Forall answer ms -> ledger_wf l -> scan_messages t ms l = Ok l1 -> scan_calls t calls l1 = Ok l2 ->
  exists l', scan_calls t calls l = Ok l' /\ scan_messages t ms l' = Ok l2.
Proof.
  intros Hms. revert l. induction Hms as [|m ms (o & -> & Er) _ IH]; intros l Hwf H1 H2; simpl in H1.
  { injection H1 as <-. by exists l2. }
  runs H1. pose proof (scan_message_wf _ _ _ _ H Hwf) as Hwf1.
  destruct (IH _ Hwf1 H1 H2) as (l' & Hc & Hm). rewrite scan_answer in H by done.
  destruct (calls_before_answer _ _ _ _ _ _ Hwf H Hc) as (l'' & Hc' & Ho).
  exists l''. split; [done|]. simpl. rewrite scan_answer by done. by rewrite Ho.
Qed.

(** ** Tools that are added change nothing *)

(** The names of tools that are known stay known. *)
Definition remembers (t t' : ToolProjection) : Prop := chat_to_original t ⊆ chat_to_original t'.
Lemma extends_remembers t t' : extends t t' -> remembers t t'.
Proof. by intros (_ & _ & ? & _). Qed.

Lemma known_remembers t t' k n i : remembers t t' -> known_identity k n t = Ok i ->
  known_identity k n t' = Ok i.
Proof.
  intros Hs H. unfold known_identity in *. runs H.
  apply ok_or_Ok. by eapply lookup_weaken.
Qed.
Lemma scan_call_remembers t t' l call l' : remembers t t' -> scan_call t l call = Ok l' ->
  scan_call t' l call = Ok l'.
Proof.
  intros Hx H. unfold scan_call in *. runs H. destruct a1 as [k payload]. runs H.
  rewrite H0. simpl. rewrite H1. simpl. rewrite H2. simpl. rewrite H3. simpl.
  by rewrite (known_remembers _ _ _ _ _ Hx H4).
Qed.
Lemma scan_calls_remembers t t' calls l l' : remembers t t' -> scan_calls t calls l = Ok l' ->
  scan_calls t' calls l = Ok l'.
Proof.
  intros Hx. revert l. induction calls as [|c calls IH]; intros l H; [done|]. simpl in *.
  runs H. rewrite (scan_call_remembers _ _ _ _ _ Hx H0). by apply IH.
Qed.
Lemma scan_message_remembers t t' l m l' : remembers t t' -> scan_message t l m = Ok l' ->
  scan_message t' l m = Ok l'.
Proof.
  intros Hx H. apply scan_message_inv in H as [(? & ? & ->)|[(calls & ? & ? & E)|(o & -> & Ho & E)]].
  - by apply scan_regular.
  - rewrite (scan_caller _ _ _ calls) by done. by eapply scan_calls_remembers.
  - destruct Ho as (? & [= <-] & ?). by rewrite scan_answer.
Qed.
Lemma scan_messages_remembers t t' ms l l' : remembers t t' -> scan_messages t ms l = Ok l' ->
  scan_messages t' ms l = Ok l'.
Proof.
  intros Hx. revert l. induction ms as [|m ms IH]; intros l H; [done|]. simpl in *.
  runs H. rewrite (scan_message_remembers _ _ _ _ _ Hx H0). by apply IH.
Qed.

(** ** Where calls that are open were made *)

Lemma rposition_last {A} (f : A -> bool) before x after :
  f x = true -> Forall (fun y => f y = false) after ->
  rposition f (before ++ x :: after) = Some (length before).
Proof.
  intros Hx Ha. induction before as [|y before IH]; simpl.
  - enough (rposition f after = None) as -> by (by rewrite Hx).
    induction Ha as [|z after Hz _ IH]; [done|]. simpl. by rewrite IH, Hz.
  - by rewrite IH.
Qed.

Lemma open_calls t ms l : from_messages ms t = Ok l -> is_settled l = false ->
  exists before m calls after, ms = before ++ m :: after /\ caller m calls /\ Forall answer after.
Proof.
  unfold from_messages. revert l. induction ms as [|m ms IH] using rev_ind; intros l H Hl.
  { by injection H as <-. }
  rewrite scan_messages_app in H. runs H. simpl in H. runs H. simplify_eq.
  apply scan_message_inv in H1 as [(_ & Hs & ->)|[(calls & Hc & _ & _)|(o & -> & Ho & E)]].
  - congruence.
  - by exists ms, m, calls, [].
  - apply scan_tool_output_Ok in E as (id & _ & [i Hi] & ->).
    destruct (IH _ H0 (unsettled _ _ _ Hi)) as (before & m & calls & after & -> & Hm & Ha).
    exists before, m, calls, (after ++ [JObject o]). rewrite <-app_assoc. split_and!; [done..|].
    apply Forall_app_2; [done|by constructor].
Qed.

Lemma caller_assistant m calls : caller m calls -> is_assistant m = true.
Proof.
  intros (o & -> & E & _). unfold is_assistant, at_key. simpl.
  destruct (map_get "role" o) as [[]|]; by simplify_eq/=.
Qed.
Lemma answer_not_assistant m : answer m -> is_assistant m = false.
Proof.
  intros (o & -> & E). unfold is_assistant, at_key. simpl.
  destruct (map_get "role" o) as [[]|]; by simplify_eq/=.
Qed.

(** * What becomes of the messages of previous turns *)

(** The same message of the model, perhaps with further calls and more of its
    reasoning *)
Definition grown (m m' : Value) : Prop :=
  exists o o' calls more, m = JObject o /\ m' = JObject o' /\ caller m calls /\
    caller m' (calls ++ more) /\
    forall k, k ∉ ["tool_calls"; "reasoning"; "reasoning_content"] -> map_get k o' = map_get k o.

Lemma grown_trans m1 m2 m3 : grown m1 m2 -> grown m2 m3 -> grown m1 m3.
Proof.
  intros (o1 & o2 & c1 & d1 & -> & -> & H1 & H2 & E1) (? & o3 & c2 & d2 & [= <-] & -> & H2' & H3 & E2).
  exists o1, o3, c1, (d1 ++ d2). split_and!; [done..| |].
  - destruct H2 as (? & [= <-] & _ & Ec), H2' as (? & [= <-] & _ & Ec'). rewrite Ec in Ec'.
    injection Ec' as <-. by rewrite app_assoc.
  - intros k Hk. by rewrite E2, E1.
Qed.

(** [ms] starts with the messages [previous], one for one; only the one at [o],
    where there is one, may have grown. *)
Definition carried (previous : list Value) (o : option nat) (ms : list Value) : Prop :=
  exists now rest, ms = now ++ rest /\ length now = length previous /\
    forall j m, previous !! j = Some m ->
      exists m', now !! j = Some m' /\ (m' = m \/ o = Some j /\ grown m m').

Lemma carried_refl previous o : carried previous o previous.
Proof. exists previous, []. rewrite app_nil_r. split_and!; [done..|]. eauto. Qed.
Lemma carried_app previous o ms k : carried previous o ms -> carried previous o (ms ++ k).
Proof. intros (now & rest & -> & H). exists now, (rest ++ k). by rewrite app_assoc. Qed.
Lemma carried_prefix previous ms : carried previous None ms -> previous `prefix_of` ms.
Proof.
  intros (now & rest & -> & Hl & H). exists rest. f_equal. symmetry. apply list_eq_same_length with (length previous); [done..|].
  intros j m m' _ Hm Hn. destruct (H j m Hm) as (m1 & Hm1 & [->|[? _]]); [|done]. congruence.
Qed.
Lemma carried_length previous o ms : carried previous o ms -> (length previous <= length ms)%nat.
Proof. intros (now & rest & -> & <- & _). rewrite length_app. lia. Qed.

(** A message that makes calls grows: one after those of previous turns, or the
    one of them that may. *)
Lemma carried_insert previous o ms i m m' : carried previous o ms ->
  o = Some i \/ (length previous <= i)%nat -> ms !! i = Some m -> grown m m' ->
  carried previous o (<[i := m']> ms).
Proof.
  intros (now & rest & -> & Hl & H) Hi Hm Hg.
  destruct (decide (i < length previous)%nat) as [Hlt|Hge].
  - destruct Hi as [->|?]; [|lia]. rewrite lookup_app_l in Hm by lia.
    rewrite insert_app_l by lia. exists (<[i := m']> now), rest. rewrite length_insert.
    split_and!; [done..|]. intros j mj Hj. destruct (H j mj Hj) as (m1 & Hm1 & Hc).
    destruct (decide (i = j)) as [<-|Hne].
    + exists m'. rewrite list_lookup_insert_eq by lia. split; [done|]. right. split; [done|].
      assert (m1 = m) as -> by congruence.
      destruct Hc as [<-|[_ Hg']]; [done|by eapply grown_trans].
    + exists m1. by rewrite list_lookup_insert_ne.
  - rewrite insert_app_r_alt by lia. by exists now, (<[(i - length now)%nat := m']> rest).
Qed.

(** * The invariant of the assembler *)

(** [t0] is the projection the input is assembled from, and [base] the messages
    of previous turns, with the place of the one whose calls are open. *)
Record assembled (t0 : ToolProjection) (base : list Value * option nat) (a : InputAssembler) : Prop := {
  asm_tools : projection_ok (asm_projection a) /\ extends t0 (asm_projection a);
  asm_kept : carried base.1 base.2 (asm_messages a);
  asm_place i : call_message_index a = Some i -> base.2 = Some i \/ (length base.1 <= i)%nat;
  asm_scanned : exists l, from_messages (asm_messages a) (asm_projection a) = Ok l /\
    scan_calls (asm_projection a) (pending_calls a) l = Ok (asm_ledger a) /\
    match call_message_index a with
    | None => is_settled l = true
    | Some i => exists before m calls after,
        asm_messages a = before ++ m :: after /\ length before = i /\
        caller m calls /\ Forall answer after
    end;
  asm_regular : Forall regular (deferred_messages a);
  asm_quiet : is_settled (asm_ledger a) = true ->
    deferred_messages a = [] /\ call_message_index a = None /\ pending_calls a = []
}.

(** Where the message is whose calls are open *)
Definition open_place (messages : list Value) (l : ConversationLedger) : option nat :=
  if is_settled l then None else rposition is_assistant messages.

Lemma assembler_new_ok messages ids l t p :
  projection_ok t -> from_messages messages t = Ok l ->
  assembled t (messages, open_place messages l) (assembler_new messages ids l t p).
Proof.
  intros Ht Hl. unfold open_place. split; simpl; [done|apply carried_refl| | |constructor|].
  - intros i ->. by left.
  - exists l. split_and!; [done..|]. destruct (is_settled l) eqn:Hs; [done|].
    destruct (open_calls _ _ _ Hl Hs) as (before & m & calls & after & -> & Hm & Ha).
    rewrite (rposition_last is_assistant before m after);
      [|by eapply caller_assistant|by eapply Forall_impl; [|apply answer_not_assistant]].
    by exists before, m, calls, after.
  - by intros ->.
Qed.

(** * The steps of the assembler *)

(** A field that neither is a role nor holds calls can be set. *)
Lemma insert_reasoning_fields o thought p :
  holds (insert_reasoning (JObject o) thought p) (fun m => exists o', m = JObject o' /\
    forall k, k ∉ ["reasoning"; "reasoning_content"] -> map_get k o' = map_get k o).
Proof.
  unfold insert_reasoning. run_step. run_step. unfold reasoning_key in *.
  assert (a ∈ ["reasoning"; "reasoning_content"]) as Ha by (destruct (reasoning_response p); simplify_eq; set_solver).
  destruct (get a (JObject o)) as [[]|]; simpl; eexists; (split; [done|]); intros k Hk;
    by rewrite map_get_insert_ne by set_solver.
Qed.

Lemma chat_message_get role content :
  map_get "role" (chat_message role content) = Some (JString role) /\
  map_get "tool_calls" (chat_message role content) = None.
Proof. done. Qed.
Lemma chat_message_regular role content : role <> "tool" -> regular (JObject (chat_message role content)).
Proof. intros H. exists (chat_message role content), role. by split_and!. Qed.
Lemma thought_regular role content thought p : role <> "tool" ->
  holds (insert_reasoning (JObject (chat_message role content)) thought p) regular.
Proof.
  intros H. eapply holds_mono; [apply insert_reasoning_fields|].
  intros m (o & -> & E). exists o, role. rewrite !E by set_solver. by split_and!.
Qed.

Definition no_calls (t0 : ToolProjection) (base : list Value * option nat) (a : InputAssembler) : Prop :=
  assembled t0 base a /\ pending_calls a = [].

(** Without calls that wait, the ledger is that of the messages. *)
Lemma no_calls_ledger t0 base a : no_calls t0 base a ->
  from_messages (asm_messages a) (asm_projection a) = Ok (asm_ledger a).
Proof. intros [[_ _ _ (l & Hl & Hc & _) _ _] Hp]. rewrite Hp in Hc. by injection Hc as ->. Qed.

Lemma with_thought_ok t0 base s a : assembled t0 base a -> assembled t0 base (with_thought s a).
Proof. intros []. by split. Qed.

Lemma append_regular_ok t0 base m a : no_calls t0 base a -> regular m -> no_calls t0 base (append_regular m a).
Proof.
  intros Ha Hm. pose proof (no_calls_ledger _ _ _ Ha) as Hl.
  destruct Ha as [[Ht Hk Hpl (l & Hf & Hc & Hi) Hr Hq] Hp]. unfold append_regular.
  destruct (is_settled (asm_ledger a)) eqn:Hs; (split; [split; simpl|done]); try done.
  - by apply carried_app.
  - destruct (Hq eq_refl) as (_ & -> & _). exists (asm_ledger a). rewrite Hp.
    split_and!; [|done..]. unfold from_messages in *. rewrite scan_messages_app, Hl. simpl.
    by rewrite scan_regular.
  - intros _. by apply Hq.
  - by exists l.
  - apply Forall_app_2; [done|by constructor].
  - congruence.
Qed.

Lemma flush_reasoning_ok t0 base a : no_calls t0 base a ->
  holds (flush_reasoning a) (no_calls t0 base).
Proof.
  intros Ha. unfold flush_reasoning. destruct (str_is_empty _); [done|]. run_step.
  eapply holds_mono; [by apply thought_regular|]. intros m Hm. run_step.
  apply append_regular_ok; [|done]. destruct Ha. split; [by apply with_thought_ok|done].
Qed.

(** ** The calls that wait get a message *)

Lemma call_message_caller : caller call_message [].
Proof. by eexists. Qed.

(** A message for calls is there. *)
Definition opened (a : InputAssembler) : InputAssembler :=
  {| asm_messages := match call_message_index a with
                     | Some _ => asm_messages a
                     | None => asm_messages a ++ [call_message]
                     end;
     asm_projection := asm_projection a; asm_profile := asm_profile a;
     pending_calls := pending_calls a;
     call_message_index := Some (default (length (asm_messages a)) (call_message_index a));
     pending_reasoning := pending_reasoning a; output_call_ids := output_call_ids a;
     asm_ledger := asm_ledger a; deferred_messages := deferred_messages a |}.

Lemma opened_ok t0 base a : assembled t0 base a -> pending_calls a <> [] -> assembled t0 base (opened a).
Proof.
  intros [Ht Hk Hpl (l & Hf & Hc & Hi) Hr Hq] Hp. split; simpl; try done.
  - destruct (call_message_index a); [done|by apply carried_app].
  - destruct (call_message_index a) as [n|]; intros i [= <-]; [by apply Hpl|]. right. by eapply carried_length.
  - exists l. destruct (call_message_index a) as [i|]; [by split_and!|]. simpl. split_and!; [|done|].
    + unfold from_messages in *. rewrite scan_messages_app, Hf. simpl.
      by rewrite (scan_caller _ _ _ _ call_message_caller).
    + exists (asm_messages a), call_message, [], []. split_and!; [done..| |done]. apply call_message_caller.
  - intros Hs. by destruct (Hq Hs) as (_ & _ & ?).
Qed.

Lemma extend_calls_fields calls more m : caller m calls -> exists o o',
  m = JObject o /\ extend_calls more m = Ret (JObject o') /\ caller (JObject o') (calls ++ more) /\
  forall k, k <> "tool_calls" -> map_get k o' = map_get k o.
Proof.
  intros (o & -> & Er & Ec). simpl. rewrite Ec. eexists o, _. split_and!; [done..| |].
  - eexists. split; [done|]. rewrite map_get_insert_ne by done. by rewrite map_get_insert.
  - intros k Hk. by rewrite map_get_insert_ne.
Qed.

Lemma caller_same_fields o o' calls :
  (forall k, k ∉ ["reasoning"; "reasoning_content"] -> map_get k o' = map_get k o) ->
  caller (JObject o) calls -> caller (JObject o') calls.
Proof. intros E (? & [= <-] & ? & ?). exists o'. by rewrite !E by set_solver. Qed.

(** The messages once the calls are with the message that makes them *)
Lemma more_calls t before m m' after calls more l l' :
  from_messages (before ++ m :: after) t = Ok l -> scan_calls t more l = Ok l' ->
  caller m calls -> caller m' (calls ++ more) -> Forall answer after ->
  from_messages (before ++ m' :: after) t = Ok l'.
Proof.
  unfold from_messages. intros Hf Hc Hm Hm' Ha. rewrite scan_messages_app in *.
  runs Hf. rewrite H. simpl in *. runs Hf.
  assert (is_settled a = true) as Hs.
  { apply scan_message_inv in H0 as [(_ & ? & _)|[(? & _ & ? & _)|(o & -> & (? & [= <-] & Er) & _)]]; try done.
    destruct Hm as (? & [= <-] & Er' & _). congruence. }
  rewrite (scan_caller _ _ _ calls) in H0 by done.
  rewrite (scan_caller _ _ _ (calls ++ more)) by done.
  pose proof (scan_calls_wf _ _ _ _ H0 (from_messages_wf _ _ _ H)) as Hwf.
  destruct (calls_before_answers _ _ _ _ _ _ Ha Hwf Hf Hc) as (l1 & E1 & E2).
  rewrite scan_calls_app, H0. simpl. by rewrite E1.
Qed.

Lemma flush_calls_ok t0 base a : assembled t0 base a -> holds (flush_calls a) (no_calls t0 base).
Proof.
  intros Ha. unfold flush_calls.
  destruct (pending_calls a) as [|c cs] eqn:Hp; [done|]. rewrite <-Hp.
  destruct (opened_ok _ _ _ Ha) as [Ht Hk Hpl (l & Hf & Hc & before & m & calls & after & Em & Ei & Hm & Haf) Hr Hq];
    [by rewrite Hp|]. simpl in *. rewrite <-Ei in *. rewrite Em in *. rewrite list_lookup_middle by done.
  destruct (extend_calls_fields _ (pending_calls a) _ Hm) as (o & o1 & -> & -> & Ho & Hsame).
  run_step. apply (holds_mono _ (fun r => caller r.1 (calls ++ pending_calls a) /\ grown (JObject o) r.1)).
  { assert (forall o2, (forall k, k ∉ ["reasoning"; "reasoning_content"] -> map_get k o2 = map_get k o1) ->
      caller (JObject o2) (calls ++ pending_calls a) /\ grown (JObject o) (JObject o2)) as Hg.
    { intros o2 E. pose proof (caller_same_fields _ _ _ E Ho). split; [done|].
      exists o, o2, calls, (pending_calls a). split_and!; [done..|]. intros k Hk'.
      rewrite E by set_solver. apply Hsame. set_solver. }
    destruct (str_is_empty _); [by apply Hg|]. run_step. eapply holds_mono; [apply insert_reasoning_fields|].
    intros m' (o' & -> & E). run_step. by apply Hg. }
  intros [m' thought] [Hm' Hg]. run_step. split; [|done].
  assert (<[length before := m']> (before ++ JObject o :: after) = before ++ m' :: after) as Eins
    by (by rewrite insert_app_r_alt, Nat.sub_diag by done). split; simpl; try done.
  - apply (carried_insert _ _ _ _ (JObject o)); [done|by apply Hpl|by apply list_lookup_middle|done].
  - rewrite Eins. exists (asm_ledger a). split_and!; [|done|]; [by eapply more_calls|].
    by exists before, m', (calls ++ pending_calls a), after.
  - intros Hs. destruct (Hq Hs) as (_ & ? & _). done.
Qed.

(** ** The items of an input *)

Lemma message_role_regular object p role : message_role object p = Ok role -> role <> "tool".
Proof.
  unfold message_role. destruct (opt_str _) as [r|]; [|done].
  repeat case_bool_decide; intros [= <-]; [by destruct (instruction_role p)|].
  intros ->. set_solver.
Qed.

Lemma append_message_ok t0 base object a : no_calls t0 base a ->
  holds (append_message object a) (no_calls t0 base).
Proof.
  intros Ha. unfold append_message. run_step. run_step. rename a0 into role.
  apply message_role_regular in H. run_step.
  apply (holds_mono _ (no_calls t0 base)); [case_bool_decide; [done|by apply flush_reasoning_ok]|].
  clear a Ha. intros a Ha. do 4 run_step. destruct (_ && _).
  - run_step. eapply holds_mono; [by apply thought_regular|]. intros m Hm. run_step.
    apply append_regular_ok; [|done]. destruct Ha. split; [by apply with_thought_ok|done].
  - run_step. apply append_regular_ok; [done|by apply chat_message_regular].
Qed.

(** More tools change nothing but the projection. *)
Lemma asm_scanned_remembers t t' ms pending l l' : remembers t t' ->
  from_messages ms t = Ok l -> scan_calls t pending l = Ok l' ->
  from_messages ms t' = Ok l /\ scan_calls t' pending l = Ok l'.
Proof. intros Hx. split; [by eapply scan_messages_remembers|by eapply scan_calls_remembers]. Qed.

Lemma required_string_iff v field s : required_string v field = Ok s <-> v = Some (JString s) /\ s <> "".
Proof.
  unfold required_string, required_string_allow_empty. split.
  - intros H. runs H. unfold str_is_empty in H. case_bool_decide; [done|]. runs H.
    destruct v as [[]|]; by simplify_eq/=.
  - intros [-> Hs]. simpl. unfold str_is_empty. by rewrite bool_decide_false.
Qed.

Lemma call_of_fields t o id n i (custom : bool) :
  let kind := if custom then "custom" else "function" in
  map_get "id" o = Some (JString id) -> map_get "type" o = Some (JString kind) ->
  map_get kind o ≫= get "name" = Some (JString n) -> id <> "" -> n <> "" ->
  known_identity (if custom then ChatCustom else ChatFunction) n t = Ok i ->
  call_of t (JObject o) id i.
Proof.
  intros kind Ei Et En Hid Hn Hk l. unfold scan_call. cbn [as_object ok_or mbind R_bind].
  rewrite Ei, (proj2 (required_string_iff _ _ id)) by done. cbn [mbind R_bind]. rewrite Et.
  pose proof (proj2 (required_string_iff _ "assistant tool call name" n) (conj En Hn)) as Hr.
  destruct custom; subst kind; cbn [opt_str as_str mbind option_bind];
    [rewrite bool_decide_false by done|]; rewrite bool_decide_true by done;
    cbn [mbind R_bind]; setoid_rewrite Hr; cbn; by rewrite Hk.
Qed.

Lemma function_call_of t n arguments i id : known_identity ChatFunction n t = Ok i ->
  n <> "" -> id <> "" -> exists v,
    index_set "id" (JString id) (function_call n arguments) = Ret v /\ call_of t v id i.
Proof. intros. eexists. split; [done|]. by apply (call_of_fields _ _ _ n _ false). Qed.
Lemma custom_call_of t n input i id : known_identity ChatCustom n t = Ok i ->
  n <> "" -> id <> "" -> exists v,
    index_set "id" (JString id) (custom_call n input) = Ret v /\ call_of t v id i.
Proof. intros. eexists. split; [done|]. by apply (call_of_fields _ _ _ n _ true). Qed.

Lemma source_identity_kind object k i : source_identity object k = Ok i -> source_call_kind i = k.
Proof. destruct k; simpl; intros H; runs H; [by destruct a0..|by injection H as <-]. Qed.
Lemma function_kind i p : source_call_kind i <> SourceCustom -> chat_kind i p = ChatFunction.
Proof. by destruct i. Qed.

Section steps.
Context {JT : JsonText} (sha256 : list Byte.byte -> list Byte.byte).

(** A call that is projected is the call the ledger finds. *)
Lemma scanned_call object k t pc t' id :
  project_source_call sha256 object k t = Ok (pc, t') -> projection_ok t -> id <> "" ->
  exists v, index_set "id" (JString id) (chat_call pc) = Ret v /\ call_of t' v id (call_identity pc).
Proof.
  unfold project_source_call. intros H Hok Hid. runs H. case_match; [done|]. runs H.
  destruct a0 as [n t1]. apply (proj1 (R_bind_Ok _ _ _)) in H as (c & H3 & H).
  injection H as <- <-. simpl.
  destruct (ensure_identity_ok _ _ _ _ _ H2 Hok) as (Hok' & _ & Hn & _).
  pose proof (ok_forward _ Hok' _ _ Hn) as Hb.
  destruct (ok_legal _ Hok' _ _ Hn) as (Hne & _).
  assert (known_identity (chat_kind a (profile t1)) n t1 = Ok a) as Hk
    by (unfold known_identity; by rewrite Hb).
  apply source_identity_kind in H0.
  destruct k; runs H3.
  - rewrite function_kind in Hk by congruence. by apply function_call_of.
  - case_bool_decide as Ec; runs H3; [rewrite Ec in Hk; by apply custom_call_of|].
    destruct (chat_kind a (profile t1)); [by apply function_call_of|done].
  - case_match; [done|]. runs H3. rewrite function_kind in Hk by congruence. by apply function_call_of.
Qed.

Lemma append_call_ok t0 base object k a : assembled t0 base a ->
  holds (append_call sha256 object k a) (assembled t0 base).
Proof.
  intros [[Ht Hx0] Hk Hpl (l & Hf & Hc & Hi) Hr Hq]. unfold append_call. do 2 run_step. rename a0 into id.
  destruct (negb _); [done|]. do 2 run_step. destruct a0 as [pc t]. do 2 run_step. rename a0 into l'.
  apply required_string_iff in H as [_ Hid].
  destruct (scanned_call _ _ _ _ _ _ H0 Ht Hid) as (v & -> & Hv).
  destruct (project_source_call_ok _ _ _ _ _ _ H0 Ht) as (Ht' & Hx & _).
  pose proof (transitivity Hx0 Hx) as Hx'.
  destruct (asm_scanned_remembers _ _ _ _ _ _ (extends_remembers _ _ Hx) Hf Hc) as [Hf' Hc'].
  run_step. split; simpl; try done.
  - exists l. split_and!; [done| |done]. rewrite scan_calls_app, Hc'. simpl. by rewrite Hv, H1.
  - apply add_call_Ok in H1 as [_ ->]. intros Hs%settled_iff. simpl in Hs.
    by apply insert_non_empty in Hs.
Qed.

(** The ledger of the assembler and that of the messages settle a call alike. *)
Lemma settle_scan t id k l i l' content : settle id k l = Ok (i, l') -> id <> "" ->
  scan_message t l (tool_message id content) = Ok l' /\ answer (tool_message id content) /\
  is_settled l = false.
Proof.
  unfold settle. destruct (outstanding l !! id) as [j|] eqn:E; [|done].
  case_bool_decide; [|done]. intros [= -> <-] Hid. split_and!; [|by eexists|by eapply unsettled].
  unfold tool_message, json_object. rewrite scan_answer by done. apply scan_tool_output_Ok. exists id.
  split_and!; [by apply required_string_iff|eauto|done].
Qed.

Lemma append_output_ok t0 base object k a : no_calls t0 base a ->
  holds (append_output sha256 object k a) (no_calls t0 base).
Proof.
  intros Ha. pose proof (no_calls_ledger _ _ _ Ha) as Hl.
  destruct Ha as [[[Ht Hx0] Hk Hpl (l & Hf & _ & Hi) Hr Hq] Hp]. rewrite Hf in Hl. simplify_eq.
  unfold append_output. do 2 run_step. rename a0 into id. do 2 run_step. destruct a0 as [i l'].
  do 3 run_step. apply (holds_mono _ (fun r => projection_ok r.2 /\ extends (asm_projection a) r.2)).
  { destruct k; repeat run_step; try done. by eapply activate_loaded_sound. }
  intros [content t] [Ht' Hx]. simpl in Ht', Hx. run_step. pose proof (transitivity Hx0 Hx) as Hx'.
  apply required_string_iff in H as [_ Hid].
  destruct (settle_scan t _ _ _ _ _ content H0 Hid) as (Hs & Hans & Hun).
  apply (scan_messages_remembers _ _ _ _ _ (extends_remembers _ _ Hx)) in Hf.
  assert (from_messages (asm_messages a ++ [tool_message id content]) t = Ok l') as Hf'.
  { unfold from_messages. rewrite scan_messages_app, Hf. simpl. by rewrite Hs. }
  destruct (is_settled l') eqn:Hs'; (split; [split; simpl|done]); try done.
  - by do 2 apply carried_app.
  - exists l'. rewrite Hp. split_and!; [|done..]. unfold from_messages in *.
    rewrite scan_messages_app, Hf'. simpl. by apply scan_regulars.
  - by apply carried_app.
  - exists l'. rewrite Hp. split_and!; [done..|]. destruct (call_message_index a) as [n|]; [|congruence].
    destruct Hi as (before & m & calls & after & -> & ? & ? & ?).
    exists before, m, calls, (after ++ [tool_message id content]). rewrite <-app_assoc.
    split_and!; [done..|]. apply Forall_app_2; [done|by constructor].
  - congruence.
Qed.

Lemma append_item_ok t0 base item a : assembled t0 base a ->
  holds (append_item sha256 item a) (assembled t0 base).
Proof.
  intros Ha. unfold append_item. do 2 run_step. rename a0 into object. cbv zeta.
  destruct (call_item_kind _); [by apply append_call_ok|]. run_step.
  eapply holds_mono; [by apply flush_calls_ok|]. clear a Ha. intros a Ha.
  apply (holds_mono _ (no_calls t0 base)); [|by intros ? [? _]].
  destruct (_ && _); [by apply append_message_ok|].
  case_bool_decide.
  { run_step. eapply holds_mono; [by apply flush_reasoning_ok|]. intros a1 Ha1. do 3 run_step.
    apply append_regular_ok; [done|by apply chat_message_regular]. }
  destruct (output_item_kind _); [by apply append_output_ok|].
  case_bool_decide; [|by destruct (opt_str _)]. run_step. destruct Ha.
  split; [by apply with_thought_ok|done].
Qed.

Lemma assembler_finish_ok t0 base a : assembled t0 base a ->
  holds (assembler_finish a) (fun r => (projection_ok r.2 /\ extends t0 r.2) /\ carried base.1 base.2 r.1 /\
    exists l, from_messages r.1 r.2 = Ok l /\ is_settled l = true).
Proof.
  intros Ha. unfold assembler_finish. run_step. eapply holds_mono; [by apply flush_calls_ok|].
  clear a Ha. intros a Ha. run_step. eapply holds_mono; [by apply flush_reasoning_ok|].
  clear a Ha. intros a Ha. destruct (is_settled (asm_ledger a)) eqn:Hs; [|done].
  pose proof (no_calls_ledger _ _ _ Ha) as Hl. destruct Ha as [[Ht Hk _ _ _ Hq] _].
  destruct (Hq Hs) as (Hd & _). simpl. rewrite Hd, app_nil_r. eauto.
Qed.

(** A conversation that can be sent: every call has its output in its place. *)
Definition sendable (t : ToolProjection) (messages : list Value) : Prop :=
  exists l, from_messages messages t = Ok l /\ is_settled l = true.

(** The messages of previous turns in the messages that are sent: kept as they
    were if every call of theirs had its output; otherwise the last message of
    the model, which made the open calls, may be given further ones. *)
Definition kept_history (t : ToolProjection) (previous messages : list Value) : Prop :=
  (sendable t previous -> previous `prefix_of` messages) /\
  carried previous (rposition is_assistant previous) messages.

Lemma carried_settled previous o ms : carried previous None ms -> carried previous o ms.
Proof.
  intros (now & rest & E & Hl & H). exists now, rest. split_and!; [done..|]. intros j m Hm.
  destruct (H j m Hm) as (m' & Hm' & [->|[? _]]); [eauto|done].
Qed.

Lemma append_items_ok items messages t p : projection_ok t ->
  holds (append_items sha256 items messages t p) (fun r =>
    (projection_ok r.2 /\ extends t r.2) /\ sendable r.2 r.1 /\ kept_history t messages r.1).
Proof.
  intros Ht. unfold append_items. do 4 run_step. run_step. rename a into ids, a0 into l.
  eapply holds_mono; [apply (holds_thread _ (assembled t (messages, open_place messages l)))|].
  - intros item a. apply append_item_ok.
  - by apply assembler_new_ok.
  - intros a Ha. eapply holds_mono; [by apply assembler_finish_ok|].
    intros r (Hok & Hk & Hs). split; [done|]. split; [done|]. unfold open_place in Hk. simpl in Hk. split.
    + intros (l' & E & Hset). rewrite H0 in E. simplify_eq. rewrite Hset in Hk. by apply carried_prefix.
    + destruct (is_settled l); [by apply carried_settled|done].
Qed.
End steps.

(** * The request *)

Lemma each_Forall {A B} (f : A -> R B) (P : B -> Prop) l r :
  each f l = Ok r -> (forall x y, x ∈ l -> f x = Ok y -> P y) -> Forall P r.
Proof.
  revert r. induction l as [|x l IH]; intros r H HP; simpl in H; runs H.
  - injection H as <-. constructor.
  - constructor; [by eapply HP; [left|]|]. apply IH; [done|]. intros. eapply HP; [by right|done].
Qed.

Lemma map_get_skip k (m m' : Map) : k ∉ m.*1 -> map_get k (m ++ m') = map_get k m'.
Proof.
  induction m as [|[k' v] m IH]; [done|]. simpl. intros H. rewrite bool_decide_false by set_solver.
  apply IH. set_solver.
Qed.
Lemma map_get_fields_skip k (m more : Map) : k ∉ more.*1 ->
  map_get k (fields (m ++ more)) = map_get k (fields m).
Proof.
  intros H. unfold fields. rewrite !map_get_extend, rev_app_distr, map_get_skip; [done|].
  intros (e & -> & E)%list_elem_of_fmap. apply H, list_elem_of_fmap. exists e. split; [done|].
  by apply list_elem_of_In, in_rev, list_elem_of_In.
Qed.

(** Nothing that is added to a body is its messages. *)
Lemma messages_not_forwarded : "messages" ∉ forwarded_fields.
Proof. exact (proj1 (bool_decide_eq_false ("messages" ∈ forwarded_fields)) eq_refl). Qed.
Lemma forwarded_keys source p es : each (forward_field source p) forwarded_fields = Ok es ->
  "messages" ∉ (concat es).*1.
Proof.
  intros H. assert (Forall (fun e : Map => "messages" ∉ e.*1) es) as HF.
  { eapply each_Forall; [exact H|]. intros path y Hp Hy. unfold forward_field in Hy.
    assert (path <> "messages") by (intros ->; by apply messages_not_forwarded). clear Hp.
    destruct (map_get path source); [|by simplify_eq; set_solver].
    case_bool_decide; [by simplify_eq; set_solver|]. runs Hy.
    case_match; runs Hy; set_solver. }
  clear H. induction HF as [|e es He _ IH]; [set_solver|]. simpl. rewrite fmap_app. set_solver.
Qed.
Lemma append_reasoning_keys source p es : append_reasoning source p = Ok es -> "messages" ∉ es.*1.
Proof.
  unfold append_reasoning. intros H. destruct (map_get _ _); [|simplify_eq; set_solver].
  runs H. destruct a as [effort|]; [|runs H; set_solver].
  destruct (reasoning_request p); [done|]. runs H. set_solver.
Qed.
Lemma append_text_keys source p es : append_text_config source p = Ok es -> "messages" ∉ es.*1.
Proof.
  unfold append_text_config. intros H. destruct (map_get _ _); [|simplify_eq; set_solver].
  runs H. destruct a as [format verbosity]. runs H. destruct format, verbosity; simpl; set_solver.
Qed.
Lemma append_tools_keys source p t es : append_tools source p t = Ok es -> "messages" ∉ es.*1.
Proof.
  unfold append_tools. intros H. destruct (negb _).
  { destruct (map_get _ _); [case_match|]; simplify_eq; set_solver. }
  runs H. assert ("messages" ∉ a.*1) by (destruct (map_get "tool_choice" _); runs H0; simplify_eq; set_solver).
  assert ("messages" ∉ a0.*1)
    by (destruct (map_get "parallel_tool_calls" _); runs H1; simplify_eq; set_solver).
  rewrite !fmap_app. set_solver.
Qed.

Lemma target_build_messages source model p messages t body :
  target_build source model p messages t = Ok body -> get "messages" body = Some (JArray messages).
Proof.
  unfold target_build. intros H. runs H. unfold json_object. cbn [get].
  rewrite map_get_fields_skip; [done|].
  rewrite !fmap_app, !not_elem_of_app. split_and!;
    [by eapply forwarded_keys| | |by eapply append_reasoning_keys|by eapply append_text_keys
    |by eapply append_tools_keys].
  - destruct (map_get _ _); [|set_solver]. destruct (token_limit_field p); set_solver.
  - destruct (map_get _ _); [|set_solver]. case_bool_decide; set_solver.
Qed.

Section request.
Context {JT : JsonText} (sha256 : list Byte.byte -> list Byte.byte).

(** The previous turn of a conversation, where there is one, left a projection
    that was made for the tools of this target. *)
Definition resumable (p : OpenAiChatCompletionsProfile) (previous : option ToolProjection) : Prop :=
  forall t, previous = Some t -> projection_ok t /\ same_tools (profile t) p.

(** What a request is converted to: its conversation can be read back, and is
    sendable when the input is a list of items; then what could be sent before
    is its beginning, and of a conversation with open calls only the message
    that made them may have grown. *)
Definition converted_ok (body : Value) (p : OpenAiChatCompletionsProfile) (previous : list Value)
    (t0 : option ToolProjection) (c : ConvertedRequest) : Prop :=
  (projection_ok (request_projection c) /\ profile (request_projection c) = p) /\
  exists conversation, request_conversation c = Ret conversation /\
    (forall t, t0 = Some t -> kept_history t previous conversation) /\
    forall items, get "input" body = Some (JArray items) -> sendable (request_projection c) conversation.

Lemma append_input_ok input messages t p : projection_ok t ->
  holds (append_input sha256 input messages t p) (fun r => (projection_ok r.2 /\ extends t r.2) /\
    kept_history t messages r.1 /\ forall items, input = Some (JArray items) -> sendable r.2 r.1).
Proof.
  intros Ht. destruct input as [[]|]; try done.
  - simpl. split; [done|]. split; [|done]. split; [intros _; by eexists|].
    apply carried_app, carried_refl.
  - eapply holds_mono; [by apply append_items_ok|]. simpl. intros r (Hok & Hs & Hk).
    exact (conj Hok (conj Hk (fun _ _ => Hs))).
Qed.

Lemma sendable_remembers t t' messages : remembers t t' -> sendable t messages -> sendable t' messages.
Proof. intros Hx (l & Hl & Hs). exists l. split; [by eapply scan_messages_remembers|done]. Qed.

Lemma request_convert_ok body model p previous t0 : resumable p t0 ->
  holds (request_convert sha256 body model p previous t0) (converted_ok body p previous t0).
Proof.
  intros Hres.
  unfold request_convert. run_step. run_step. destruct body as [| | | | |source]; try done. injection H as <-.
  do 13 run_step.
  destruct (configure_sound _ _ _ _ H4 (projection_new_ok _ _ Hres)) as [Ht Hx].
  eapply holds_mono; [by apply append_input_ok|]. intros [conversation t'] [[Ht' Hx'] [Hkept Hin]]. cbn [fst snd] in Ht', Hx', Hkept, Hin |- *.
  do 5 run_step. apply target_build_messages in H6. split.
  { split; [done|]. destruct Hx as (E & _), Hx' as (E' & _). simpl in *. congruence. }
  exists conversation. split.
  - unfold request_conversation. simpl. rewrite H6, length_app.
    rewrite (proj2 (Nat.leb_le _ _)) by lia. by rewrite drop_app_length.
  - split; [|done]. intros t1 ->. destruct Hkept as [Hp Hc]. split; [|done].
    intros Hs1. apply Hp. eapply sendable_remembers; [|exact Hs1]. by apply extends_remembers in Hx.
Qed.

(** C19. Requests of the Responses API become requests of Chat Completions without
    a panic, whatever their body: the tool names stay in order, the
    conversation is found again in the body that is sent, and it starts with
    the messages of previous turns, one for one.  They are kept as they were if
    every call of theirs had its output; if calls are still open, the last
    message of the model, which made them, may be given further calls and more
    reasoning, and the others are kept as they were.  Where the input is a list
    of items every tool call of the conversation, those of previous turns
    included, has its one output directly after the message that makes it. *)
Theorem bridged_conversation_settled body model p previous t0 : resumable p t0 ->
  request_convert sha256 body model p previous t0 <> Panic /\
  forall c, request_convert sha256 body model p previous t0 = Ret (Ok c) ->
    converted_ok body p previous t0 c.
Proof.
  intros Hres. pose proof (request_convert_ok body model p previous t0 Hres) as Hh.
  split; [intros E; by rewrite E in Hh|]. intros c E. by rewrite E in Hh.
Qed.
End request.

(** * Conversations *)

(** A turn in which the model called a tool, and the next request *)
Definition sample_previous : list Value :=
  [JObject (chat_message "user" (JString "hi"));
   json_object [("role", JString "assistant"); ("content", JNull);
     ("tool_calls", JArray [json_object [("id", JString "c1"); ("type", JString "function");
       ("function", json_object [("name", JString (sample_name (IdFunction "look")));
                                 ("arguments", JString "{}")])]])]].
Definition sample_request (input : Value) : Value :=
  json_object [("model", JString "public"); ("input", input); ("tools", sample_tools_json)].
Definition sample_convert (input : Value) : PR ConvertedRequest :=
  request_convert (JT := Plain.plain) sample_sha (sample_request input) "m" COMPATIBLE_BASELINE
    sample_previous (Some sample_tools).
Definition sample_items : Value :=
  JArray [json_object [("type", JString "message"); ("role", JString "user"); ("content", JString "and?")];
          json_object [("type", JString "custom_tool_call"); ("call_id", JString "c2");
                       ("name", JString "run"); ("input", JString "ls")];
          json_object [("type", JString "function_call_output"); ("call_id", JString "c1");
                       ("output", JString "1")];
          json_object [("type", JString "custom_tool_call_output"); ("call_id", JString "c2");
                       ("output", JString "2")]].
Definition sample_converted : ConvertedRequest :=
  match sample_convert sample_items with
  | Ret (Ok c) => c
  | _ => {| request_body := JNull; conversation_start := 0; request_projection := sample_tools |}
  end.
Definition conversation_roles (c : ConvertedRequest) : list Value :=
  match request_conversation c with Ret ms => at_key "role" <$> ms | Panic => [] end.

Lemma sample_resumable : resumable COMPATIBLE_BASELINE (Some sample_tools).
Proof. intros t [= <-]. split; [exact sample_tools_ok|]. split; vm_compute; reflexivity. Qed.

Lemma bridged_conversation_settled_witness :
  converted_ok (sample_request sample_items) COMPATIBLE_BASELINE sample_previous (Some sample_tools) sample_converted /\
  conversation_roles sample_converted
  = JString <$> ["user"; "assistant"; "tool"; "tool"; "user"].
Proof.
  split; [|vm_compute; reflexivity].
  apply (bridged_conversation_settled (JT := Plain.plain) sample_sha (sample_request sample_items) "m"
    COMPATIBLE_BASELINE sample_previous (Some sample_tools) sample_resumable).
  vm_compute. reflexivity.
Defined.

(** A text is not checked against the calls that are open: after a turn in
    which the model called a tool, the text alone is sent and leaves the call
    without its output, while the same text as a list of one message is
    refused. *)
Lemma text_input_skips_open_calls :
  (exists c conversation, sample_convert (JString "and?") = Ret (Ok c) /\
    request_conversation c = Ret conversation /\ ~ sendable (request_projection c) conversation) /\
  sample_convert (JArray [json_object [("type", JString "message"); ("role", JString "user");
                                       ("content", JString "and?")]])
  = Ret (Err (invalid "tool call has no matching output before the next model turn")).
Proof.
  split; [|vm_compute; reflexivity].
  assert (match sample_convert (JString "and?") with
          | Ret (Ok c) => match request_conversation c with
                          | Ret ms => is_ok (from_messages ms (request_projection c))
                          | Panic => true
                          end
          | _ => true end = false) as E by (vm_compute; reflexivity).
  destruct (sample_convert (JString "and?")) as [[c|]|]; try done.
  destruct (request_conversation c) as [ms|] eqn:Em; [|done]. exists c, ms. split_and!; [done|done|].
  intros (l & Hl & _). by rewrite Hl in E.
Qed.
