(* ===== verification/ChatBridge.v ===== *)
(** The bridge from the Responses API to Chat Completions
    ([crates/protocol/src/openai_responses_chat/{bridge,continuation}.rs], the
    bridged half of [crates/protocol/src/api/exchange.rs] and the structured
    half of [crates/protocol/src/json_codec.rs]).

    A session is started by a request, from nothing or from the continuation of
    a turn before; it translates what the upstream answers, a body or the
    events of a stream, and when the answer is complete it holds the
    continuation the next turn is started from.  Continuations are shared
    handles in the source; here a session is given the handle its continuation
    will have ([handle]).  The texts of identifiers, the clock and whether a
    buffer finds memory are arguments. *)

From S2P Require Import Prelude Search Protocol Upstream Candidates AffinityStore Cost Exchange JsonCodec JsonValue ChatTools ChatResponse ChatStream ChatRequest.

Local Open Scope Z_scope.

(** * Requests with a structured body *)

(** [BorrowedRequest::serialize]: the entries that are written *)
Definition borrowed_request (object : Map) (upstream_model : string) (include_stream : bool) : Map :=
  omap (fun e => if bool_decide (e.1 = "stream") && negb include_stream then None
                 else if bool_decide (e.1 = "model") then Some (e.1, JString upstream_model)
                 else Some e) object ++
  (if contains_key "model" object then [] else [("model", JString upstream_model)]).

Section encoding.
Context {JT : JsonText} {H V : Type} {header_map : Headers H V}.

(** [request_encoding::encode]; [room] is whether the buffer finds memory. *)
Definition encode_value (room : bool) (o : ProtocolOperation) (value : Value) (upstream_model : string)
    : R string :=
  object ← ok_or (as_object value) (invalid "request body must be a JSON object");
  if room then mret (to_string (JObject (borrowed_request object upstream_model (allows_stream o))))
  else Err (Internal "protocol payload allocation failed").

(** [request_speed_tier] *)
Definition request_speed_tier (o : ProtocolOperation) (value : Value) : option RequestSpeedTier :=
  match speed_tier_wire o with
  | None => None
  | Some wire => parse_request_speed_tier (operation_dialect o) (opt_str (get (tier_field wire) value))
  end.

(** [encode_json_request] *)
Definition encode_json_request (room : bool) (o : ProtocolOperation) (forwarded : H) (value : Value)
    (upstream_model : string) : R (EncodedUpstreamRequest (H := H)) :=
  object ← ok_or (as_object value) (invalid "request body must be a JSON object");
  let stream := match map_get "stream" object with Some (JBool b) => b | _ => false end in
  body ← encode_value room o value upstream_model;
  let headers := hm_insert "content-type" (hv_static "application/json") forwarded in
  let headers := hm_insert "accept"
                   (hv_static (if stream then "text/event-stream" else "application/json")) headers in
  mret {| encoded_headers := headers; encoded_body := String.list_byte_of_string body;
          requested_speed_tier := request_speed_tier o value |}.
End encoding.

(** * Continuations *)

Record ResponsesChatContinuation := {
  kept_conversation : list Value;
  kept_projection : ToolProjection;
  kept_bytes : Z
}.

Section continuation.
Context {JT : JsonText}.

(** The size of a conversation and its tools: [serialized_json_bytes] and
    [ToolProjection::serialized_bytes], added with [checked_add] and held
    against the limit, in [ResponsesChatContinuation::new] and in
    [start_session] *)
Definition continuation_size (conversation : list Value) (t : ToolProjection) : R Z :=
  let bytes := serialized_json_bytes (JArray conversation) + projection_bytes t in
  if usize_max <? bytes
  then Err (BridgeContinuationTooLarge usize_max MAX_BRIDGE_CONTINUATION_STATE_BYTES)
  else if MAX_BRIDGE_CONTINUATION_STATE_BYTES <? bytes
  then Err (BridgeContinuationTooLarge bytes MAX_BRIDGE_CONTINUATION_STATE_BYTES)
  else Ok bytes.

(** [ResponsesChatContinuation::new] *)
Definition continuation_new (conversation : list Value) (t : ToolProjection)
    : R ResponsesChatContinuation :=
  bytes ← continuation_size conversation t;
  mret {| kept_conversation := conversation; kept_projection := t; kept_bytes := bytes |}.

(** [ProtocolContinuationState::new] *)
Definition continuation_state_new (handle : Z) (c : ResponsesChatContinuation)
    : R ProtocolContinuationState :=
  if MAX_BRIDGE_CONTINUATION_STATE_BYTES <? kept_bytes c
  then Err (BridgeContinuationTooLarge (kept_bytes c) MAX_BRIDGE_CONTINUATION_STATE_BYTES)
  else Ok {| bridge := handle; serialized_bytes := kept_bytes c |}.

(** * Sessions *)

Record ResponsesToChatSession := {
  conversation : list Value;
  session_stream : ChatToResponsesStream;
  session_response : ResponseProjection;
  continuation : option (ResponsesChatContinuation * ProtocolContinuationState);
  session_profile : OpenAiChatCompletionsProfile;
  session_projection : ToolProjection;
  handle : Z
}.
Definition set_stream (st : ChatToResponsesStream) (s : ResponsesToChatSession) : ResponsesToChatSession :=
  {| conversation := conversation s; session_stream := st; session_response := session_response s;
     continuation := continuation s; session_profile := session_profile s;
     session_projection := session_projection s; handle := handle s |}.
Definition set_conversation (l : list Value) (s : ResponsesToChatSession) : ResponsesToChatSession :=
  {| conversation := l; session_stream := session_stream s; session_response := session_response s;
     continuation := continuation s; session_profile := session_profile s;
     session_projection := session_projection s; handle := handle s |}.
Definition set_continuation (c : ResponsesChatContinuation * ProtocolContinuationState)
    (s : ResponsesToChatSession) : ResponsesToChatSession :=
  {| conversation := conversation s; session_stream := session_stream s;
     session_response := session_response s; continuation := Some c;
     session_profile := session_profile s; session_projection := session_projection s;
     handle := handle s |}.

(** [complete]: the conversation is taken whether or not it can be kept. *)
Definition complete (assistant_message : Value) : M ResponsesToChatSession unit :=
  s ← gets id;
  match continuation s with
  | Some _ => mret tt
  | None =>
      let messages := conversation s ++ [assistant_message] in
      _ ← modify (set_conversation []);
      c ← lift (continuation_new messages (session_projection s));
      state ← lift (continuation_state_new (handle s) c);
      modify (set_continuation (c, state))
  end.

(** [DecodedResponsePayload] *)
Inductive DecodedResponsePayload := RawJson (body : list Byte.byte) | StructuredJson (v : Value).

(** [transform_response]; of a response only the payload changes. *)
Definition transform_response (p : DecodedResponsePayload)
    : M ResponsesToChatSession DecodedResponsePayload :=
  match p with
  | RawJson _ => lift (Err (invalid "protocol bridge requires a structured response"))
  | StructuredJson parsed =>
      s ← gets id;
      converted ← lift (response_convert parsed (session_response s) (session_projection s)
                          (session_profile s));
      _ ← complete (converted_message converted);
      mret (StructuredJson (converted_body converted))
  end.

(** What [transform_event] and [finish_events] do with an update *)
Definition complete_update (u : StreamUpdate) : M ResponsesToChatSession (list AdapterEvent) :=
  _ ← match update_message u with Some m => complete m | None => mret tt end;
  mret (encode_event <$> update_events u).

(** [transform_event], [finish_events] *)
Definition session_event (e : AdapterEvent) : M ResponsesToChatSession (list AdapterEvent) :=
  u ← zoom session_stream set_stream (push e);
  complete_update u.
Definition session_finish : M ResponsesToChatSession (list AdapterEvent) :=
  u ← zoom session_stream set_stream finish;
  complete_update u.

(** [continuation_state] *)
Definition session_continuation (s : ResponsesToChatSession) : BridgeContinuationState :=
  match continuation s with
  | Some (_, state) => BridgeReady state
  | None => BridgePending
  end.

#[export] Instance responses_chat_session : ProtocolBridgeSession ResponsesToChatSession := {
  transform_event := session_event;
  finish_events := session_finish;
  continuation_state := session_continuation
}.

(** [validate_continuation_reference] *)
Definition validate_continuation_reference (value : Value) (supplied : bool) : R unit :=
  match get "previous_response_id" value with
  | Some (JString id) =>
      if str_is_empty id then Err (invalid "previous_response_id must be a string")
      else if supplied then Ok tt else Err BridgeSessionBindingLost
  | Some JNull | None => if negb supplied then Ok tt else Err BridgeSessionBindingLost
  | Some _ => Err (invalid "previous_response_id must be a string")
  end.
End continuation.

(** * Starting and resuming *)

(** What is read of a [DecodedRequest]; [structured_body] is what
    [materialize_json] finds. *)
Record BridgeRequest (H : Type) := {
  bridge_dialect : ProtocolDialect;
  bridge_operation : ProtocolOperation;
  bridge_headers : H;
  structured_body : option Value
}.
Arguments bridge_dialect {H}.
Arguments bridge_operation {H}.
Arguments bridge_headers {H}.
Arguments structured_body {H}.

(** [StartedProtocolBridge] *)
Record StartedProtocolBridge (H : Type) := {
  started_operation : ProtocolOperation;
  started_request : EncodedUpstreamRequest (H := H);
  started_session : ResponsesToChatSession
}.
Arguments started_operation {H}.
Arguments started_request {H}.
Arguments started_session {H}.

(** What a session is given from outside: an identifier, the clock, the handle
    of its continuation, and whether there is memory for the body *)
Record BridgeEnvironment := {
  uuid : string;
  env_now : Z;
  env_handle : Z;
  env_room : bool
}.

Section starting.
Context {JT : JsonText} {H V : Type} {header_map : Headers H V}.
Context (sha256 : list Byte.byte -> list Byte.byte) (operation_debug : ProtocolOperation -> string).

(** [start_session] *)
Definition start_session (env : BridgeEnvironment) (request : BridgeRequest H) (upstream_model : string)
    (p : OpenAiChatCompletionsProfile) (previous : option ResponsesChatContinuation)
    : PR (StartedProtocolBridge H) :=
  value ← sure (ok_or (structured_body request)
                  (invalid "Responses bridge requires a JSON request body"));
  _ ← sure (validate_continuation_reference value (bool_decide (is_Some previous)));
  converted ← request_convert sha256 value upstream_model p
                (match previous with Some c => kept_conversation c | None => [] end)
                (kept_projection <$> previous);
  match request_conversation converted with
  | Panic => Panic
  | Ret messages =>
      let t := request_projection converted in
      bytes ← sure (continuation_size messages t);
      encoded ← sure (encode_json_request (env_room env) ChatCompletions (bridge_headers request)
                        (request_body converted) upstream_model);
      let response := response_projection_new ("resp_" +:+ uuid env) upstream_model value (env_now env) in
      mret {| started_operation := ChatCompletions; started_request := encoded;
              started_session :=
                {| conversation := messages; session_stream := stream_new response p t bytes;
                   session_response := response; continuation := None; session_profile := p;
                   session_projection := t; handle := env_handle env |} |}
  end.

(** [ResponsesToChatCompletionsBridge::start] *)
Definition bridge_start (env : BridgeEnvironment) (request : BridgeRequest H) (upstream_model : string)
    (p : OpenAiChatCompletionsProfile) : PR (StartedProtocolBridge H) :=
  if negb (bool_decide (bridge_operation request = Responses))
  then sure (Err (Unsupported (operation_debug (bridge_operation request))))
  else start_session env request upstream_model p None.

(** [ProtocolContinuationState::resume] and [ResponsesChatContinuation::resume] *)
Definition bridge_resume (env : BridgeEnvironment) (request : BridgeRequest H) (upstream_model : string)
    (p : OpenAiChatCompletionsProfile) (ingress upstream : ProtocolDialect) (o : ProtocolOperation)
    (c : ResponsesChatContinuation) : PR (StartedProtocolBridge H) :=
  if bool_decide (ingress = OpenAiResponses) && bool_decide (upstream = OpenAiChatCompletions) &&
     bool_decide (o = Responses)
  then start_session env request upstream_model p (Some c)
  else sure (Err BridgeSessionBindingLost).

(** [prepare_request_with_target_profile] of a bridged exchange *)
Definition prepare_bridged {A} `{!ProtocolAdapter A} (env : BridgeEnvironment)
    (dialect_debug : ProtocolDialect -> string) (request : BridgeRequest H) (upstream_model : string)
    (target_profile : option OpenAiChatCompletionsProfile)
    (previous : option ResponsesChatContinuation) (x : ProtocolExchange A ResponsesToChatSession)
    : PR (EncodedUpstreamRequest (H := H) * ProtocolExchange A ResponsesToChatSession) :=
  if negb (bool_decide (bridge_dialect request = dialect (ingress x))) ||
     negb (bool_decide (bridge_operation request = operation x))
  then sure (Err (Unsupported (operation_debug (bridge_operation request) +:+ " request on " +:+
                               dialect_debug (dialect (ingress x)) +:+ " exchange")))
  else
    p ← sure (ok_or target_profile (Unsupported "bridge target profile is unavailable"));
    started ← match previous with
              | Some c => bridge_resume env request upstream_model p (dialect (ingress x))
                            (dialect (upstream_adapter x)) (operation x) c
              | None => bridge_start env request upstream_model p
              end;
    mret (started_request started,
          {| ingress := ingress x; upstream_adapter := upstream_adapter x; operation := operation x;
             upstream_operation := started_operation started; bridged := bridged x;
             bridge_session := Some (started_session started) |}).
End starting.
