(* ===== verification/ChatBudget.v ===== *)
(** The budget of a bridged stream
    ([crates/protocol/src/openai_responses_chat/stream/translator] and
    [continuation::reserve_continuation_bytes]).

    The answer of a stream becomes part of the continuation of its session,
    which must not be larger than a limit.  The translator reserves, piece by
    piece, what its answer will take when it is serialized: the turn itself, the
    texts, the fields they are in, and the calls.  This file shows that the
    reservations cover the serialized answer at every point of a stream, so
    that what is complete can be kept.

    Only what becomes part of the continuation is reserved.  The translator
    also holds the items it has closed, the usage, the names of models and an
    entry for every index of a call it has seen; these are not counted against
    the limit ([index_fragments_uncounted]). *)

From S2P Require Import Prelude Search Protocol Upstream Candidates AffinityStore Cost Exchange JsonValue ChatTools ChatResponse ChatStream ChatClient ChatBridge.

Local Open Scope Z_scope.

Lemma str_len_nonneg s : 0 <= str_len s.
Proof. unfold str_len. lia. Qed.

Section budget.
Context {JT : JsonText} {JL : JsonTextLaws} {JS : JsonTextSize}.

(** * What an answer takes *)

(** A text, without its quotes *)
Definition text_cost (v : string) : Z := serialized_json_bytes (JString v) - 2.
Definition opt_cost (o : option string) : Z := match o with Some v => text_cost v | None => 0 end.
(** A call: its empty form with a comma, and what it is filled with *)
Definition kind_cost (o : option ChatToolKind) : Z :=
  match o with Some k => serialized_json_bytes (empty_call k) + 1 | None => 0 end.
Definition tool_weight (st : ToolState) : Z :=
  kind_cost (tool_kind st) + opt_cost (tool_call_id st) + opt_cost (tool_name st) + text_cost (tool_payload st).
Definition tools_weight (m : gmap Z ToolState) : Z :=
  map_fold (fun _ st total => tool_weight st + total) 0 m.
(** The length of the empty field the calls are in *)
Definition calls_field_bytes (m : gmap Z ToolState) : Z := if bool_decide (m = ∅) then 0 else 16.
Definition thought_field_bytes (s : ChatToResponsesStream) : Z :=
  match text_index (reasoning s) with Some _ => reasoning_field_bytes (stream_profile s) | None => 0 end.
(** What the answer a translator has takes beyond an empty turn *)
Definition held (s : ChatToResponsesStream) : Z :=
  text_cost (text_value (message s)) + text_cost (text_value (reasoning s)) + thought_field_bytes s +
  calls_field_bytes (tools s) + tools_weight (tools s).

Lemma text_cost_nonneg v : 0 <= text_cost v.
Proof.
  unfold text_cost, serialized_json_bytes. pose proof (string_text_len v). pose proof (str_len_nonneg v). lia.
Qed.
Lemma text_cost_app a b : text_cost (a +:+ b) = text_cost a + text_cost b.
Proof. unfold text_cost, serialized_json_bytes. rewrite text_size_app. lia. Qed.
Lemma text_cost_word w : is_word w = true -> text_cost w = str_len w.
Proof. intros H. unfold text_cost, serialized_json_bytes. rewrite word_size by done. lia. Qed.
Lemma text_cost_empty : text_cost "" = 0.
Proof. by rewrite text_cost_word. Qed.
Lemma kind_cost_nonneg o : 0 <= kind_cost o.
Proof. destruct o as [k|]; simpl; [|lia]. unfold serialized_json_bytes. pose proof (str_len_nonneg (to_string (empty_call k))). lia. Qed.
Lemma tool_weight_nonneg st : 0 <= tool_weight st.
Proof.
  unfold tool_weight, opt_cost. pose proof (text_cost_nonneg (tool_payload st)). pose proof (kind_cost_nonneg (tool_kind st)).
  destruct (tool_call_id st) as [i|], (tool_name st) as [n|]; try pose proof (text_cost_nonneg i);
    try pose proof (text_cost_nonneg n); lia.
Qed.
Lemma tool_default_weight : tool_weight tool_default = 0.
Proof. unfold tool_weight. simpl. rewrite text_cost_empty. done. Qed.

Lemma tools_weight_insert m k st : m !! k = None ->
  tools_weight (<[k := st]> m) = tool_weight st + tools_weight m.
Proof. intros H. unfold tools_weight. rewrite map_fold_insert_L; [done|intros; lia|done]. Qed.
Definition weight_at (m : gmap Z ToolState) (k : Z) : Z := tool_weight (default tool_default (m !! k)).
Lemma tools_weight_delete m k : tools_weight m = weight_at m k + tools_weight (delete k m).
Proof.
  unfold weight_at. destruct (m !! k) as [st|] eqn:E.
  - rewrite <-(insert_delete_id m k st E) at 1. by rewrite tools_weight_insert by apply lookup_delete_eq.
  - rewrite delete_id by done. simpl. rewrite tool_default_weight. lia.
Qed.
Lemma tools_weight_set m k st : tools_weight (<[k := st]> m) = tools_weight m - weight_at m k + tool_weight st.
Proof.
  rewrite (tools_weight_delete m k), <-insert_delete_eq, tools_weight_insert by apply lookup_delete_eq. lia.
Qed.
Lemma tools_weight_nonneg m : 0 <= tools_weight m.
Proof.
  induction m as [|k st m Hk IH] using map_ind; [done|]. rewrite tools_weight_insert by done.
  pose proof (tool_weight_nonneg st). lia.
Qed.
Lemma calls_field_insert m k st : calls_field_bytes (<[k := st]> m) = 16.
Proof. unfold calls_field_bytes. rewrite bool_decide_false; [done|apply insert_non_empty]. Qed.

(** * The invariant *)

(** A text that was not announced is empty. *)
Definition announced (s : ChatToResponsesStream) : Prop :=
  text_index (reasoning s) = None -> text_value (reasoning s) = "".

(** A method reserves at least what it adds, and stays within the limit. *)
Definition spends (s s' : ChatToResponsesStream) : Prop :=
  held s' - held s <= continuation_bytes s' - continuation_bytes s /\
  (continuation_bytes s' = continuation_bytes s \/
   continuation_bytes s' <= MAX_BRIDGE_CONTINUATION_STATE_BYTES) /\
  (announced s -> announced s') /\ stream_profile s' = stream_profile s.
#[local] Instance spends_preorder : PreOrder spends.
Proof.
  split; [intros s; unfold spends; split_and!; auto; lia|].
  intros a b c (H1 & H2 & H3 & E) (H4 & H5 & H6 & E'). unfold spends. split_and!; [lia|lia|auto|congruence].
Qed.

Lemma spends_same s s' : held s' = held s -> continuation_bytes s' = continuation_bytes s ->
  reasoning s' = reasoning s -> stream_profile s' = stream_profile s -> spends s s'.
Proof. intros E1 E2 E3 E4. unfold spends, announced. rewrite E1, E2, E3. split_and!; auto; lia. Qed.

Abbreviation frugal := (respects spends).

Create HintDb chat_frugal.
Ltac frugal := respects_with ltac:(first
  [ apply respects_modify; intros ?; by apply spends_same | auto with chat_frugal ]).

(** * Reservations *)

Lemma not_saturated a n : saturating_add usize_max a n <= MAX_BRIDGE_CONTINUATION_STATE_BYTES ->
  saturating_add usize_max a n = a + n.
Proof.
  unfold saturating_add. assert (MAX_BRIDGE_CONTINUATION_STATE_BYTES < usize_max) by done. lia.
Qed.

Lemma reserve_adds n s u s' : reserve n s = (Ok u, s') ->
  s' = set_continuation_bytes (continuation_bytes s + n) s /\
  continuation_bytes s + n <= MAX_BRIDGE_CONTINUATION_STATE_BYTES.
Proof.
  intros H. apply reserve_inv in H as [-> Hle]. rewrite not_saturated in * by done. done.
Qed.
Lemma reserve_frugal n : 0 <= n -> frugal (reserve n).
Proof.
  intros Hn s u s' H. apply reserve_adds in H as [-> Hle]. unfold spends.
  change (held (set_continuation_bytes _ s)) with (held s). simpl. split_and!; [lia|lia|done|done].
Qed.

(** ** Texts *)

Lemma held_message s m :
  held (set_message m s) = held s - text_cost (text_value (message s)) + text_cost (text_value m).
Proof. unfold held, thought_field_bytes. simpl. lia. Qed.
Lemma set_message_spends m s : text_value m = text_value (message s) -> spends s (set_message m s).
Proof. intros E. apply spends_same; [|done..]. rewrite held_message, E. lia. Qed.
Lemma held_reasoning s m : text_index m = text_index (reasoning s) ->
  held (set_reasoning m s) = held s - text_cost (text_value (reasoning s)) + text_cost (text_value m).
Proof. intros E. unfold held, thought_field_bytes. simpl. rewrite E. lia. Qed.

Lemma appended_cost t d : text_cost (text_value (appended t d)) = text_cost (text_value t) + text_cost d.
Proof. apply text_cost_app. Qed.

(** A piece that was paid for, and that is added once the text has its place *)
Lemma paid_piece d s s1 s2 s3 :
  continuation_bytes s + text_cost d <= MAX_BRIDGE_CONTINUATION_STATE_BYTES ->
  s1 = set_continuation_bytes (continuation_bytes s + text_cost d) s ->
  spends s1 s2 -> held s3 = held s2 + text_cost d -> continuation_bytes s3 = continuation_bytes s2 ->
  (announced s2 -> announced s3) -> stream_profile s3 = stream_profile s2 -> spends s s3.
Proof.
  intros Hle -> (H1 & H2 & H3 & H4) E1 E2 E3 E4. change (held (set_continuation_bytes _ s)) with (held s) in *.
  simpl in *. unfold spends. split_and!; [lia|lia|auto|congruence].
Qed.

Lemma push_text_frugal delta : frugal (push_text delta).
Proof.
  intros s es s' H. unfold push_text in H. destruct (str_is_empty delta); [by runs H|].
  apply M_bind_Ok in H as (u & s1 & H1 & H). apply reserve_adds in H1 as [H1 Hle].
  apply M_bind_Ok in H as (m & s2 & H2 & H). apply gets_Ok in H2 as [-> ->].
  apply M_bind_Ok in H as (added & s2 & H2 & H). runs H.
  refine (paid_piece delta s _ s2 _ Hle eq_refl _ _ _ _ _); try done.
  - destruct (text_index (message _)) eqn:E; [by runs H2|].
    unfold allocate_output in H2. runs H2. etrans; [|by apply set_message_spends].
    by apply spends_same.
  - rewrite held_message, appended_cost. lia.
Qed.

(** The field of the reasoning is paid for when the reasoning is announced. *)
Lemma open_reasoning_frugal m s : text_index (reasoning s) = None -> is_Some (text_index m) ->
  text_value m = text_value (reasoning s) ->
  continuation_bytes s + reasoning_field_bytes (stream_profile s) <= MAX_BRIDGE_CONTINUATION_STATE_BYTES ->
  spends s (set_reasoning m (set_continuation_bytes
    (continuation_bytes s + reasoning_field_bytes (stream_profile s)) s)).
Proof.
  intros E1 [i E2] E3 Hle. unfold spends, held, thought_field_bytes, announced. simpl. rewrite E1, E2, E3.
  split_and!; [lia|lia|done|done].
Qed.

Lemma push_reasoning_frugal delta : frugal (push_reasoning delta).
Proof.
  intros s es s' H. unfold push_reasoning in H. destruct (str_is_empty delta); [by runs H|].
  apply M_bind_Ok in H as (u & s1 & H1 & H). apply reserve_adds in H1 as [H1 Hle].
  pose proof (fun s2 s3 => paid_piece delta s s1 s2 s3 Hle H1) as Hpaid. clear H1 Hle.
  apply M_bind_Ok in H as (m & s2 & H2 & H). apply gets_Ok in H2 as [-> ->].
  apply M_bind_Ok in H as (added & s2 & H2 & H).
  assert (spends s1 s2 /\ is_Some (text_index (reasoning s2))) as [Hs2 Hi].
  { destruct (text_index (reasoning s1)) eqn:E; [runs H2; split; [done|by eexists]|].
    unfold allocate_output in H2. runs H2.
    match goal with Hr : reserve _ _ = _ |- _ => apply reserve_adds in Hr as [-> Hr] end.
    split; [|by eexists]. etrans; [|by apply spends_same].
    apply (open_reasoning_frugal (opened (reasoning s1) (next_output_index s1)
      (reasoning_item_id (response_id (response s1)))) s1); [done|by eexists|done|done]. }
  runs H. refine (Hpaid s2 _ Hs2 _ _ _ _); try done.
  - rewrite held_reasoning, appended_cost by done. lia.
  - intros _ E. destruct Hi as [i Hi]. simpl in E. congruence.
Qed.

Lemma finish_message_frugal : frugal finish_message.
Proof.
  intros s es s' H. unfold finish_message in H. runs H. simpl in H.
  destruct (text_index (message s)); [|by runs H]. destruct (text_done (message s)); runs H; [done|].
  etrans; [by apply (set_message_spends (closed (message s)))|]. by apply spends_same.
Qed.
Lemma finish_reasoning_frugal : frugal finish_reasoning.
Proof.
  intros s es s' H. unfold finish_reasoning in H. runs H. simpl in H.
  destruct (text_index (reasoning s)) eqn:E; [|by runs H]. destruct (text_done (reasoning s)); runs H; [done|].
  transitivity (set_reasoning (closed (reasoning s)) s); [|by apply spends_same].
  unfold spends. rewrite held_reasoning by done. simpl. split_and!; [lia|by left| |done].
  unfold announced. simpl. congruence.
Qed.

(** ** Calls *)

(** What reading a chunk of a call reserves for it *)
Definition pays (x y : ToolState * Z) : Prop :=
  tool_weight y.1 - tool_weight x.1 <= y.2 - x.2 /\
  (y.2 = x.2 \/ y.2 <= MAX_BRIDGE_CONTINUATION_STATE_BYTES).
#[local] Instance pays_preorder : PreOrder pays.
Proof. split; [intros x; unfold pays; lia|]. intros a b c. unfold pays. lia. Qed.
Abbreviation paying := (respects pays).

Lemma tool_reserve_adds n x u y : tool_reserve n x = (Ok u, y) ->
  y = (x.1, x.2 + n) /\ x.2 + n <= MAX_BRIDGE_CONTINUATION_STATE_BYTES.
Proof.
  intros (t & H & ->)%zoom_Ok. unfold reserve_continuation_bytes in H.
  destruct (_ <? _) eqn:E; [done|]. injection H as _ <-. apply Z.ltb_ge in E.
  rewrite not_saturated in * by done. done.
Qed.

(** A reservation, and what it is for *)
Lemma paying_for n f x u y : tool_weight (f x.1) = tool_weight x.1 + n ->
  (_ ← tool_reserve n; tool_modify f) x = (Ok u, y) -> pays x y.
Proof.
  intros Hf H. runs H. unfold tool_modify in H. runs H. apply tool_reserve_adds in H0 as [-> Hle].
  unfold pays. simpl. rewrite Hf. lia.
Qed.

Lemma observe_kind_paying object : paying (observe_kind object).
Proof.
  unfold observe_kind. do 3 (apply respects_bind; [apply _|apply respects_lift, _|intros ?]).
  destruct (match a with Some _ => _ | None => _ end) as [k|]; [|apply respects_ret, _].
  intros x u y H. apply M_bind_Ok in H as (st & z & Hst & H). apply gets_Ok in Hst as [-> ->].
  destruct (tool_kind x.1) eqn:E; [by apply lift_Ok in H as [_ ->]|].
  eapply paying_for; [|exact H]. unfold tool_weight. simpl. rewrite E. simpl. lia.
Qed.

Lemma set_once_paying target put v field :
  (forall st w, target st = None -> tool_weight (put (Some w) st) = tool_weight st + text_cost w) ->
  paying (set_once target put v field).
Proof.
  intros Hput. unfold set_once. destruct v as [v|]; [|apply respects_ret, _].
  apply respects_bind; [apply _|apply respects_lift, _|]. intros w x u y H.
  apply M_bind_Ok in H as (st & z & Hst & H). apply gets_Ok in Hst as [-> ->].
  destruct (target x.1) eqn:E; [by apply lift_Ok in H as [_ ->]|].
  eapply paying_for; [|exact H]. by apply Hput.
Qed.

Lemma append_payload_paying m : paying (append_payload m).
Proof.
  unfold append_payload. apply respects_bind; [apply _|apply respects_gets, _|]. intros st.
  destruct (tool_kind st); [|apply respects_ret, _]. destruct (map_get _ m) as [v|]; [|apply respects_ret, _].
  apply respects_bind; [apply _|apply respects_lift, _|]. intros w x u y H.
  eapply paying_for; [|exact H]. unfold tool_weight. simpl. rewrite text_cost_app. unfold text_cost. lia.
Qed.

Lemma observe_call_paying object t : paying (observe_call object t).
Proof.
  unfold observe_call. apply respects_bind; [apply _|apply observe_kind_paying|intros _].
  apply respects_bind; [apply _|apply set_once_paying; intros st w E; unfold tool_weight; simpl; rewrite E; simpl; lia|].
  intros _. apply respects_bind; [apply _|apply respects_gets, _|intros st].
  apply respects_bind; [apply _|apply respects_lift, _|intros payload]. apply respects_bind; [apply _| |].
  { destruct payload; [|apply respects_ret, _]. apply respects_bind; [apply _| |intros _; apply append_payload_paying].
    apply set_once_paying. intros st' w E. unfold tool_weight. simpl. rewrite E. simpl. lia. }
  intros _. apply respects_bind; [apply _|apply respects_gets, _|intros st'].
  repeat (case_match; try (apply respects_ret, _)).
  apply respects_bind; [apply _|apply respects_lift, _|intros i]. apply respects_modify. intros x.
  unfold pays. simpl. unfold tool_weight. simpl. lia.
Qed.

(** A call that is changed *)
Lemma held_set_tool s key st :
  held (set_tool key st s) = held s - calls_field_bytes (tools s) + 16 - weight_at (tools s) key + tool_weight st.
Proof.
  unfold held, thought_field_bytes, set_tool. simpl. rewrite tools_weight_set, calls_field_insert. lia.
Qed.
Lemma has_calls s key st : tools s !! key = Some st -> calls_field_bytes (tools s) = 16.
Proof. intros E. unfold calls_field_bytes. rewrite bool_decide_false; [done|]. intros E'. by rewrite E' in E. Qed.
Lemma set_tool_spends s key st st' : tools s !! key = Some st -> tool_weight st' = tool_weight st ->
  spends s (set_tool key st' s).
Proof.
  intros E1 E2. apply spends_same; [|done..]. rewrite held_set_tool, (has_calls _ _ _ E1), E2.
  unfold weight_at. rewrite E1. simpl. lia.
Qed.

Lemma emit_weight st : tool_weight (emit_payload_delta st).2 = tool_weight st.
Proof. unfold emit_payload_delta. repeat case_match; done. Qed.
Lemma place_call_spends key st s added st' s' : place_call key st s = (Ok (added, st'), s') ->
  spends s s' /\ tools s' = tools s /\ tool_weight st' = tool_weight st.
Proof.
  unfold place_call, allocate_output. intros H. runs H.
  apply ret_Ok in H as [E ->]. simplify_eq. split; [by apply spends_same|done].
Qed.

(** The field of the calls and the chunk of a call are paid for together. *)
Lemma read_call_spends key st b s s1 u :
  (if bool_decide (tools s = ∅) then reserve 16 else mret tt) s = (Ok u, s1) ->
  pays (default tool_default (tools s1 !! key), continuation_bytes s1) (st, b) ->
  spends s (set_continuation_bytes b (set_tool key st s1)).
Proof.
  intros H [P1 P2]. simpl in P1, P2.
  assert (tools s1 = tools s /\ reasoning s1 = reasoning s /\ stream_profile s1 = stream_profile s /\
    held s1 = held s /\ continuation_bytes s1 = continuation_bytes s + 16 - calls_field_bytes (tools s) /\
    (continuation_bytes s1 = continuation_bytes s \/ continuation_bytes s1 <= MAX_BRIDGE_CONTINUATION_STATE_BYTES))
    as (Et & Er & Ep & Eh & Eb & Hb).
  { unfold calls_field_bytes. destruct (bool_decide (tools s = ∅)).
    - apply reserve_adds in H as [-> Hle]. simpl. split_and!; try done; lia.
    - apply ret_Ok in H as [_ ->]. split_and!; try done; [lia|by left]. }
  unfold spends. change (held (set_continuation_bytes b ?x)) with (held x).
  rewrite held_set_tool, Et. unfold weight_at. rewrite <- Et. simpl.
  split_and!; [rewrite Et in *; lia|lia| |done]. unfold announced. simpl. by rewrite Er.
Qed.

Lemma push_tool_frugal call : frugal (push_tool call).
Proof.
  intros s es s' H. unfold push_tool in H.
  apply M_bind_Ok in H as (object & s1 & H1 & H). apply lift_Ok in H1 as [_ ->].
  apply M_bind_Ok in H as (key & s1 & H1 & H). apply lift_Ok in H1 as [_ ->].
  apply M_bind_Ok in H as (s0 & s1 & H1 & H). apply gets_Ok in H1 as [-> ->].
  apply M_bind_Ok in H as (u & s1 & H1 & H). change (id s) with s in H1.
  apply M_bind_Ok in H as (u1 & s2 & H2 & H). apply zoom_Ok in H2 as ([st b] & H2 & ->).
  apply observe_call_paying in H2. pose proof (read_call_spends _ _ _ _ _ _ H1 H2) as Hs2. clear H1 H2.
  apply M_bind_Ok in H as (st1 & s3 & H3 & H).
  apply gets_Ok in H3 as [-> ->]. simpl in H. rewrite lookup_insert_eq in H. simpl in H.
  apply M_bind_Ok in H as ([added st2] & s3 & H3 & H).
  set (s2 := set_continuation_bytes b (set_tool key st s1)) in *.
  assert (spends s2 s3 /\ tools s3 = tools s2 /\ tool_weight st2 = tool_weight st) as (Hs3 & Ht & Hw2).
  { destruct (_ && _); [by eapply place_call_spends|]. by apply ret_Ok in H3 as [[= -> ->] ->]. }
  destruct (emit_payload_delta st2) as [deltas st3] eqn:Ee. runs H.
  etrans; [exact Hs2|]. etrans; [exact Hs3|]. apply (set_tool_spends _ _ st).
  - rewrite Ht. apply lookup_insert_eq.
  - rewrite <-Hw2, <-(emit_weight st2). by rewrite Ee.
Qed.

Lemma finish_tool_spends key st s es st' s' : finish_tool key st s = (Ok (es, st'), s') ->
  spends s s' /\ tools s' = tools s /\ tool_weight st' = tool_weight st.
Proof.
  unfold finish_tool. intros H. destruct (tool_done st); [by apply ret_Ok in H as [[= -> ->] ->]|].
  do 3 (apply M_bind_Ok in H as (? & s1 & H1 & H); apply lift_Ok in H1 as [_ ->]).
  apply M_bind_Ok in H as (s0 & s1 & H1 & H). apply gets_Ok in H1 as [-> ->].
  apply M_bind_Ok in H as (restored & s1 & H1 & H). apply lift_Ok in H1 as [_ ->].
  apply M_bind_Ok in H as ([added st1] & s1 & H1 & H).
  assert (spends s s1 /\ tools s1 = tools s /\ tool_weight st1 = tool_weight st) as (Hs & Ht & Hw).
  { destruct (bool_decide _); [by eapply place_call_spends|]. by apply ret_Ok in H1 as [[= -> ->] ->]. }
  destruct (emit_payload_delta st1) as [deltas st2] eqn:Ee.
  apply M_bind_Ok in H as (index & s2 & H2 & H). apply lift_Ok in H2 as [_ ->].
  apply M_bind_Ok in H as (u & s2 & H2 & H). apply modify_Ok in H2 as ->.
  apply ret_Ok in H as [[= -> ->] ->]. split_and!; [|done|].
  - etrans; [exact Hs|]. by apply spends_same.
  - rewrite <-Hw, <-(emit_weight st1), Ee. done.
Qed.

(** A call is taken out and put back. *)
Lemma finish_key_frugal key : frugal (finish_key key).
Proof.
  intros s es s' H. unfold finish_key in H. runs H. destruct a1 as [events st]. runs H. simpl in *.
  apply finish_tool_spends in H1 as (Hs & Ht & Hw). destruct Hs as (Hs1 & Hs2 & Hs3 & Hs4).
  assert (weight_at (tools s) key = tool_weight a) as Ea by (unfold weight_at; by rewrite H0).
  pose proof (tools_weight_delete (tools s) key) as Hd. pose proof (has_calls _ _ _ H0) as Hf.
  assert (held (set_tools (delete key (tools s)) s) =
    held s - tool_weight a - 16 + calls_field_bytes (tools s0)) as Eh.
  { rewrite Ht. unfold held, thought_field_bytes. simpl. lia. }
  assert (weight_at (tools s0) key = 0) as Ez.
  { unfold weight_at. rewrite Ht. simpl. rewrite lookup_delete_eq. apply tool_default_weight. }
  unfold spends. rewrite held_set_tool, Ez, Hw. rewrite Eh in *. simpl in *. split_and!; [lia|lia|done|done].
Qed.

#[local] Hint Resolve push_text_frugal push_reasoning_frugal push_tool_frugal finish_message_frugal
  finish_reasoning_frugal finish_key_frugal : chat_frugal.

(** ** The stream *)

Lemma sequence_frugal es : frugal (sequence_events es).
Proof. unfold sequence_events, sequence_event. frugal. Qed.
Lemma ensure_started_frugal : frugal ensure_started.
Proof. unfold ensure_started. frugal. Qed.
Lemma observe_metadata_frugal v : frugal (observe_metadata v).
Proof. unfold observe_metadata, observe_created, observe_model. frugal. Qed.
Lemma observe_usage_frugal v : frugal (observe_usage v).
Proof. unfold observe_usage. frugal. Qed.
Lemma validate_role_frugal v : frugal (validate_role v).
Proof. unfold validate_role. frugal. Qed.
Lemma apply_finish_reason_frugal v : frugal (apply_finish_reason v).
Proof. unfold apply_finish_reason. frugal. Qed.
#[local] Hint Resolve sequence_frugal ensure_started_frugal observe_metadata_frugal observe_usage_frugal
  validate_role_frugal apply_finish_reason_frugal : chat_frugal.

Lemma apply_delta_frugal delta : frugal (apply_delta delta).
Proof. unfold apply_delta. frugal. Qed.
#[local] Hint Resolve apply_delta_frugal : chat_frugal.
Lemma apply_choices_frugal choices : frugal (apply_choices choices).
Proof. unfold apply_choices. frugal. Qed.
Lemma finish_tools_frugal : frugal finish_tools.
Proof. unfold finish_tools. frugal. Qed.
#[local] Hint Resolve apply_choices_frugal finish_tools_frugal : chat_frugal.
Lemma finish_frugal : frugal finish.
Proof. unfold finish. frugal. Qed.
#[local] Hint Resolve finish_frugal : chat_frugal.
Lemma push_frugal e : frugal (push e).
Proof. unfold push, push_value. frugal. Qed.
#[local] Hint Resolve push_frugal : chat_frugal.
Lemma run_calls_frugal xs : frugal (run_calls xs).
Proof. unfold run_calls, run_call, stream_call. frugal. Qed.

(** * The serialized answer *)

Definition entry_bytes (e : string * Value) : Z :=
  serialized_json_bytes (JString e.1) + 1 + serialized_json_bytes e.2.
(** The members of an object, each with a comma *)
Definition entries_bytes (m : list (string * Value)) : Z := foldr (fun e n => 1 + entry_bytes e + n) 0 m.
Definition values_bytes (l : list Value) : Z := foldr (fun v n => 1 + serialized_json_bytes v + n) 0 l.

Lemma joined_members {A} (f : A -> Z) l : l <> [] ->
  joined (f <$> l) = foldr (fun x n => 1 + f x + n) 0 l - 1.
Proof.
  destruct l as [|x l]; [done|]. intros _. change (f <$> x :: l) with (f x :: (f <$> l)). cbn [joined foldr].
  enough (foldr (fun m total => 1 + m + total) 0 (f <$> l) = foldr (fun x n => 1 + f x + n) 0 l) as -> by lia.
  induction l as [|y l IH]; [done|]. change (f <$> y :: l) with (f y :: (f <$> l)). cbn [foldr]. by rewrite IH.
Qed.
Lemma object_bytes m : m <> [] -> serialized_json_bytes (JObject m) = 1 + entries_bytes m.
Proof.
  intros H. unfold serialized_json_bytes at 1. rewrite object_size.
  rewrite (joined_members (fun e => str_len (to_string (JString e.1)) + 1 + str_len (to_string e.2))) by done.
  unfold entries_bytes, entry_bytes, serialized_json_bytes. lia.
Qed.
Lemma array_bytes l : serialized_json_bytes (JArray l) <= 2 + values_bytes l.
Proof.
  unfold serialized_json_bytes at 1. rewrite array_size. unfold values_bytes, serialized_json_bytes.
  destruct (decide (l = [])) as [->|H]; [done|]. rewrite (joined_members (fun v => str_len (to_string v))) by done. lia.
Qed.
(** One more member *)
Lemma array_bytes_snoc l v :
  serialized_json_bytes (JArray (l ++ [v])) <= serialized_json_bytes (JArray l) + 1 + serialized_json_bytes v.
Proof.
  assert (0 <= serialized_json_bytes v) by apply str_len_nonneg.
  unfold serialized_json_bytes at 1 2. rewrite !array_size. destruct (decide (l = [])) as [->|H'].
  - unfold serialized_json_bytes. simpl. lia.
  - rewrite !(joined_members (fun v => str_len (to_string v))) by (done || by destruct l).
    rewrite foldr_app. simpl. unfold serialized_json_bytes.
    generalize (str_len (to_string v)). intros n. clear.
    enough (foldr (fun x n => 1 + str_len (to_string x) + n) (1 + n + 0) l =
      foldr (fun x n => 1 + str_len (to_string x) + n) 0 l + 1 + n) by lia.
    induction l as [|x l IH]; simpl; lia.
Qed.
Lemma entries_insert k v m : map_get k m = None ->
  entries_bytes (map_insert k v m) = entries_bytes m + 1 + entry_bytes (k, v).
Proof.
  induction m as [|[k' v'] m IH]; simpl; [lia|]. case_bool_decide as E; [done|]. intros H.
  destruct (String.compare k k') eqn:Ec; simpl; [|lia|rewrite IH by done; lia].
  by apply String.compare_eq_iff in Ec.
Qed.
Lemma text_bytes v : serialized_json_bytes (JString v) = text_cost v + 2.
Proof. unfold text_cost. lia. Qed.
Lemma word_bytes w : is_word w = true -> serialized_json_bytes (JString w) = str_len w + 2.
Proof. intros H. by rewrite text_bytes, text_cost_word. Qed.

(** A call takes what was reserved for it. *)
Lemma call_bytes st v : assistant_call st = Some v -> 1 + serialized_json_bytes v <= tool_weight st.
Proof.
  unfold assistant_call, tool_weight. destruct (tool_kind st) as [k|], (tool_call_id st) as [i|], (tool_name st) as [n|];
    try done. cbn [mbind option_bind]. intros [= <-]. destruct k; unfold kind_cost, empty_call, json_object;
    simpl; rewrite !object_bytes by done; unfold entries_bytes, entry_bytes; simpl;
    rewrite !object_bytes by done; unfold entries_bytes, entry_bytes; simpl;
    rewrite !text_bytes, text_cost_empty; lia.
Qed.
Lemma tools_weight_entries s :
  tools_weight (tools s) = foldr (fun e n => tool_weight e.2 + n) 0 (tool_entries s).
Proof.
  unfold tools_weight, tool_entries. rewrite map_fold_foldr.
  rewrite (foldr_permutation eq (fun e n => tool_weight e.2 + n) 0 (merge_sort key_below (map_to_list (tools s)))
    (map_to_list (tools s))); [|intros; lia|apply merge_sort_Permutation].
  induction (map_to_list (tools s)) as [|[k st] l IH]; simpl; [done|]. by rewrite IH.
Qed.
Lemma calls_bytes (l : list (Z * ToolState)) :
  values_bytes (omap assistant_call l.*2) <= foldr (fun e n => tool_weight e.2 + n) 0 l.
Proof.
  induction l as [|[k st] l IH]; [done|]. cbn [foldr snd].
  change (omap assistant_call ((k, st) :: l).*2) with
    (match assistant_call st with Some v => v :: omap assistant_call l.*2 | None => omap assistant_call l.*2 end).
  destruct (assistant_call st) as [v|] eqn:E.
  - apply call_bytes in E. cbn [values_bytes foldr]. unfold values_bytes in IH. lia.
  - pose proof (tool_weight_nonneg st). lia.
Qed.

(** An empty turn, and one with a text *)
Lemma turn_bytes v n : serialized_json_bytes v <= 4 + n ->
  entries_bytes (fields [("role", JString "assistant"); ("content", v)]) <= 34 + n.
Proof.
  intros H. unfold fields, map_extend. simpl. unfold entry_bytes. simpl. rewrite !word_bytes by done.
  unfold str_len. simpl. lia.
Qed.

Lemma message_bytes s : announced s -> serialized_json_bytes (assistant_message s) <= 35 + held s.
Proof.
  intros Ha. unfold assistant_message, assistant_fields. cbv zeta.
  set (content := if str_is_empty (text_value (message s)) then JNull else JString (text_value (message s))).
  assert (serialized_json_bytes content <= 4 + text_cost (text_value (message s))) as Hc.
  { pose proof (text_cost_nonneg (text_value (message s))). unfold content. destruct (str_is_empty _).
    - unfold serialized_json_bytes. rewrite null_size. lia.
    - rewrite text_bytes. lia. }
  pose proof (turn_bytes _ _ Hc) as Hb.
  set (base := fields _) in *. assert (base <> [] /\ map_get "tool_calls" base = None /\
    map_get (reasoning_field (stream_profile s)) base = None) as (Hn & Ht & Hr).
  { subst base. split_and!; [done..|]. unfold reasoning_field. by destruct (reasoning_response _). }
  clearbody base. set (thought := text_value (reasoning s)) in *.
  set (base1 := if str_is_empty thought then base else map_insert _ _ base).
  assert (base1 <> [] /\ map_get "tool_calls" base1 = None /\
    entries_bytes base1 <= entries_bytes base + text_cost thought + thought_field_bytes s) as (Hn1 & Ht1 & Hb1).
  { subst base1. pose proof (text_cost_nonneg thought). unfold str_is_empty. case_bool_decide as E.
    - split_and!; [done..|]. unfold thought_field_bytes. destruct (text_index _); [|lia].
      unfold reasoning_field_bytes. destruct (reasoning_response _); lia.
    - split_and!; [by destruct base as [|[]]; simpl; [|case_match]|
        rewrite map_get_insert_ne; [done|unfold reasoning_field; by destruct (reasoning_response _)]|].
      rewrite entries_insert by done. unfold entry_bytes. simpl fst. simpl snd. rewrite !text_bytes.
      unfold thought_field_bytes. destruct (text_index (reasoning s)) eqn:Ei; [|by destruct (E (Ha Ei))].
      unfold reasoning_field, reasoning_field_bytes. destruct (reasoning_response _);
        rewrite text_cost_word by done; unfold str_len; simpl (String.length _); lia. }
  clearbody base1. unfold held. fold thought. pose proof (tools_weight_entries s) as Hw.
  pose proof (calls_bytes (tool_entries s)) as Hcalls.
  destruct (omap assistant_call (tool_entries s).*2) as [|v calls] eqn:Ec.
  - rewrite object_bytes by done. pose proof (tools_weight_nonneg (tools s)).
    assert (0 <= calls_field_bytes (tools s)) by (unfold calls_field_bytes; case_bool_decide; lia). lia.
  - rewrite object_bytes by (by destruct base1 as [|[]]; simpl; [|case_match]).
    rewrite entries_insert by done. unfold entry_bytes. simpl fst. simpl snd. rewrite word_bytes by done.
    pose proof (array_bytes (v :: calls)). unfold calls_field_bytes. case_bool_decide as E.
    + unfold tool_entries in Ec. rewrite E in Ec. done.
    + unfold str_len in *. simpl (String.length _). lia.
Qed.

Lemma projection_bytes_nonneg t : 0 <= projection_bytes t.
Proof.
  assert (forall (A : Type) (f : Z -> A -> Z) l n, (forall n x, 0 <= n -> 0 <= f n x) -> 0 <= n -> 0 <= foldl f n l) as Hf.
  { intros A f l n Hf. revert n. induction l as [|x l IH]; intros n Hn; simpl; auto. }
  assert (forall i, 0 <= identity_bytes i) as Hi.
  { intros []; simpl; try apply str_len_nonneg; apply Z.min_glb; try done;
      apply Z.add_nonneg_nonneg; apply str_len_nonneg. }
  unfold projection_bytes. apply Hf; [|apply Hf; [|done]]; intros n x Hn.
  - specialize (Hi x). unfold saturating_add. assert (0 <= usize_max) by done. lia.
  - specialize (Hi x.1). pose proof (str_len_nonneg x.2). unfold saturating_add. assert (0 <= usize_max) by done. lia.
Qed.

(** C21. Whatever an upstream streams, its answer fits what was reserved for it.  At
    every point of a stream that has not failed, the conversation before with
    the answer so far, serialized, and its tools take no more than what the
    stream has reserved; and what it has reserved is within the 16 MiB of a
    continuation, unless it still is the reservation it was started with.  So once
    anything of the answer has been reserved, the conversation with the answer can
    be kept as the continuation of its session.  The conversation before and its
    tools are within the limit themselves, as every stored continuation is. *)
Theorem bridged_answer_fits_continuation r p t conversation xs events s :
  let bytes := serialized_json_bytes (JArray conversation) + projection_bytes t in
  bytes <= MAX_BRIDGE_CONTINUATION_STATE_BYTES ->
  run_calls xs (stream_new r p t bytes) = (Ok events, s) ->
  serialized_json_bytes (JArray (conversation ++ [assistant_message s])) + projection_bytes t
    <= continuation_bytes s /\
  (continuation_bytes s = bytes + ASSISTANT_TURN_BYTES \/
   continuation_bytes s <= MAX_BRIDGE_CONTINUATION_STATE_BYTES /\
   exists c, continuation_new (conversation ++ [assistant_message s]) t = Ok c).
Proof.
  intros bytes Hb H. apply run_calls_frugal in H as (Hh & Hl & Ha & _).
  assert (0 <= bytes) as H0.
  { unfold bytes, serialized_json_bytes. pose proof (str_len_nonneg (to_string (JArray conversation))).
    pose proof (projection_bytes_nonneg t). lia. }
  assert (continuation_bytes (stream_new r p t bytes) = bytes + ASSISTANT_TURN_BYTES) as E.
  { simpl. unfold saturating_add. assert (MAX_BRIDGE_CONTINUATION_STATE_BYTES + ASSISTANT_TURN_BYTES < usize_max) by done. lia. }
  assert (held (stream_new r p t bytes) = 0) as Eh.
  { unfold held, thought_field_bytes, calls_field_bytes, tools_weight. simpl. rewrite text_cost_empty. done. }
  assert (announced s) as Hs by (apply Ha; done). pose proof (message_bytes s Hs) as Hm.
  pose proof (array_bytes_snoc conversation (assistant_message s)) as Hsn.
  rewrite E, Eh in *. assert (ASSISTANT_TURN_BYTES = 36) as Et by done.
  assert (serialized_json_bytes (JArray (conversation ++ [assistant_message s])) + projection_bytes t
    <= continuation_bytes s) as Hfit by (unfold bytes in *; lia).
  split; [done|]. destruct Hl as [Hl|Hl]; [by left|right]. split; [done|].
  unfold continuation_new, continuation_size.
  assert (MAX_BRIDGE_CONTINUATION_STATE_BYTES < usize_max) by done.
  rewrite (proj2 (Z.ltb_ge usize_max _)) by lia. rewrite (proj2 (Z.ltb_ge _ _)) by lia. by eexists.
Qed.
End budget.

(** * What is not counted *)

(** A fragment of a call that states nothing but its index *)
Definition index_fragment (k : Z) : Value := json_object [("index", num k)].

Section fragments.
Context {JT : JsonText}.

Lemma push_index_fragment k s : tools s !! k = None ->
  (tools s = ∅ -> 0 <= continuation_bytes s /\ continuation_bytes s + 16 <= MAX_BRIDGE_CONTINUATION_STATE_BYTES) ->
  exists s', push_tool (index_fragment k) s = (Ok [], s') /\ tools s' = <[k := tool_default]> (tools s) /\
    continuation_bytes s' = continuation_bytes s + (if bool_decide (tools s = ∅) then 16 else 0).
Proof.
  intros Hk Hroom. unfold push_tool, index_fragment. simpl. unfold mbind, M_bind, gets, lift. simpl.
  case_bool_decide as E.
  - destruct (Hroom E) as [H0 Hle]. unfold reserve, zoom, reserve_continuation_bytes.
    assert (saturating_add usize_max (continuation_bytes s) 16 = continuation_bytes s + 16) as ->.
    { unfold saturating_add. assert (MAX_BRIDGE_CONTINUATION_STATE_BYTES < usize_max) by done. lia. }
    rewrite (proj2 (Z.ltb_ge _ _)) by done. simpl. rewrite Hk. simpl. rewrite lookup_insert_eq. simpl.
    eexists. split; [done|]. simpl. by rewrite insert_insert_eq.
  - unfold zoom. simpl. rewrite Hk. simpl. rewrite lookup_insert_eq. simpl.
    eexists. split; [done|]. simpl. rewrite insert_insert_eq. split; [done|lia].
Qed.

(** An upstream that only names indices of calls makes the translator keep an
    entry for each of them, and reserves nothing but the empty field. *)
Lemma index_fragments_uncounted n s : tools s = ∅ -> 0 <= continuation_bytes s ->
  continuation_bytes s + 16 <= MAX_BRIDGE_CONTINUATION_STATE_BYTES ->
  exists s', each_m push_tool ((fun k => index_fragment (Z.of_nat k)) <$> seq 0 (S n)) s = (Ok [], s') /\
    size (tools s') = S n /\ continuation_bytes s' = continuation_bytes s + 16.
Proof.
  intros E H0 Hle.
  assert (forall m i s, (forall k, Z.of_nat i <= k -> tools s !! k = None) -> tools s <> ∅ ->
    exists s', each_m push_tool ((fun k => index_fragment (Z.of_nat k)) <$> seq i m) s = (Ok [], s') /\
      size (tools s') = (size (tools s) + m)%nat /\ continuation_bytes s' = continuation_bytes s) as Hrest.
  { clear. induction m as [|m IH]; intros i s Hf Hn; [exists s; split_and!; [done|lia|done]|].
    destruct (push_index_fragment (Z.of_nat i) s) as (s1 & H1 & Ht & Hb); [apply Hf; lia|done|].
    destruct (IH (S i) s1) as (s2 & H2 & Hs & Hb2).
    { intros k Hk. rewrite Ht, lookup_insert_ne by lia. apply Hf. lia. }
    { rewrite Ht. apply insert_non_empty. }
    exists s2. split_and!.
    - change (each_m push_tool ((fun k => index_fragment (Z.of_nat k)) <$> seq i (S m))) with
        (ys ← push_tool (index_fragment (Z.of_nat i));
         zs ← each_m push_tool ((fun k => index_fragment (Z.of_nat k)) <$> seq (S i) m); mret (ys ++ zs)).
      unfold mbind, M_bind. rewrite H1, H2. done.
    - rewrite Hs, Ht, map_size_insert_None by (apply Hf; lia). lia.
    - rewrite bool_decide_false in Hb by done. lia. }
  destruct (push_index_fragment 0 s) as (s1 & H1 & Ht & Hb); [by rewrite E|done|].
  destruct (Hrest n 1%nat s1) as (s2 & H2 & Hs & Hb2).
  { intros k Hk. rewrite Ht, E, lookup_insert_ne by lia. done. }
  { rewrite Ht. apply insert_non_empty. }
  exists s2. split_and!.
  - change (each_m push_tool ((fun k => index_fragment (Z.of_nat k)) <$> seq 0 (S n))) with
      (ys ← push_tool (index_fragment 0);
       zs ← each_m push_tool ((fun k => index_fragment (Z.of_nat k)) <$> seq 1 n); mret (ys ++ zs)).
    unfold mbind, M_bind. rewrite H1, H2. done.
  - rewrite Hs, Ht, E, insert_empty, map_size_singleton. lia.
  - rewrite bool_decide_true in Hb by done. lia.
Qed.
End fragments.

(** * A stream *)

(** The sample stream as the first turn of a session *)
#[local] Abbreviation first_bytes :=
  (serialized_json_bytes (JT := Plain.plain) (JArray []) + projection_bytes sample_tools).
#[local] Abbreviation first_run :=
  (run_calls (JT := Plain.plain) sample_calls
    (stream_new (response_projection_new "r" "m" (json_object [("model", JString "public")]) 5)
      COMPATIBLE_BASELINE sample_tools first_bytes)).

Lemma first_run_reserves : exists events s, first_run = (Ok events, s) /\
  continuation_bytes s <> first_bytes + ASSISTANT_TURN_BYTES.
Proof.
  assert (match first_run with
          | (Ok _, s) => bool_decide (continuation_bytes s <> first_bytes + ASSISTANT_TURN_BYTES)
          | _ => false end = true) as E by (vm_compute; reflexivity).
  destruct first_run as [[events|] s]; [|discriminate E]. apply bool_decide_eq_true in E. by exists events, s.
Qed.

Lemma bridged_answer_fits_continuation_witness :
  exists events s, first_run = (Ok events, s) /\
    serialized_json_bytes (JT := Plain.plain) (JArray ([] ++ [assistant_message s])) + projection_bytes sample_tools
      <= continuation_bytes s /\
    exists c, continuation_new (JT := Plain.plain) ([] ++ [assistant_message s]) sample_tools = Ok c.
Proof.
  destruct first_run_reserves as (events & s & Er & E).
  assert (first_bytes <= MAX_BRIDGE_CONTINUATION_STATE_BYTES) as Hb by (vm_compute; discriminate).
  destruct (bridged_answer_fits_continuation (JT := Plain.plain) (JL := Plain.plain_laws) (JS := Plain.plain_size)
    (response_projection_new "r" "m" (json_object [("model", JString "public")]) 5)
    COMPATIBLE_BASELINE sample_tools [] sample_calls events s Hb Er) as [Hfit [Hn|[_ Hc]]].
  - destruct (E Hn).
  - exists events, s. exact (conj Er (conj Hfit Hc)).
Defined.
