(* ===== verification/ChatTurns.v ===== *)
(** Conversations over several turns of the bridge from the Responses API to
    Chat Completions ([ChatBridge]).

    A turn starts a session from the continuation of the turn before, lets the
    session translate the answer, and ends with the continuation the session
    holds.  The continuations that turns lead to are an inductive relation;
    what every turn promises is shown by induction on it. *)

From S2P Require Import Prelude Search Protocol Upstream Candidates AffinityStore Cost Exchange JsonCodec JsonValue ChatTools ChatResponse ChatStream ChatRequest ChatHistory ChatBridge.

Local Open Scope Z_scope.

(** * Answers of a session *)

Inductive SessionCall :=
| AnswerBody (p : DecodedResponsePayload)
| AnswerEvent (e : AdapterEvent)
| AnswerEnd.

Section turns.
Context {JT : JsonText}.

Definition session_call (c : SessionCall) : M ResponsesToChatSession unit :=
  match c with
  | AnswerBody p => _ ← transform_response p; mret tt
  | AnswerEvent e => _ ← transform_event e; mret tt
  | AnswerEnd => _ ← finish_events; mret tt
  end.
(** Nothing is asked of a session that has failed. *)
Fixpoint session_run (calls : list SessionCall) : M ResponsesToChatSession unit :=
  match calls with
  | [] => mret tt
  | c :: calls => _ ← session_call c; session_run calls
  end.

(** ** What a stream answers *)

Lemma finish_message_of s u s' : finish s = (Ok u, s') ->
  (completed s = true /\ u = no_update /\ s' = s) \/
  (completed s' = true /\ update_message u = Some (assistant_message s')).
Proof.
  unfold finish. intros H. runs H. destruct (completed _) eqn:E; runs H; [by left|].
  right. by simplify_eq.
Qed.

Lemma push_message_of e s u s' : push e s = (Ok u, s') ->
  completed s = false /\
  (update_message u = None \/
   (completed s' = true /\ update_message u = Some (assistant_message s'))).
Proof.
  unfold push. intros H. runs H. destruct (completed _) eqn:E; [by runs H|]. split; [done|].
  runs H. destruct (Exchange.payload e).
  - runs H. by left.
  - apply finish_message_of in H as [(_ & -> & _)|?]; [by left|by right].
  - by runs H.
  - runs H. left. unfold push_value in H. runs H.
    destruct (bool_decide _); runs H; [by simplify_eq|].
    destruct (get "choices" _) as [[]|]; try by runs H.
    destruct (get "usage" _) as [v|]; [destruct (is_object v)|]; by runs H.
Qed.

(** Only the end of a stream completes it. *)
Definition steady_rel (s s' : ChatToResponsesStream) : Prop := completed s' = completed s.
#[local] Instance steady_preorder : PreOrder steady_rel.
Proof. split; [done|]. intros a b c. unfold steady_rel. congruence. Qed.
Abbreviation steady := (respects steady_rel).
Create HintDb chat_steady.
Ltac steady := respects_with ltac:(first
  [ apply respects_modify; intros ?; done | apply respects_zoom; intros ? ?; done | auto with chat_steady ]).

Lemma reserve_steady n : steady (reserve n).
Proof. unfold reserve. steady. Qed.
#[local] Hint Resolve reserve_steady : chat_steady.
Lemma push_text_steady d : steady (push_text d).
Proof. unfold push_text, allocate_output. steady. Qed.
Lemma push_reasoning_steady d : steady (push_reasoning d).
Proof. unfold push_reasoning, allocate_output. steady. Qed.
Lemma push_tool_steady call : steady (push_tool call).
Proof. unfold push_tool, place_call, allocate_output. steady. Qed.
#[local] Hint Resolve push_text_steady push_reasoning_steady push_tool_steady : chat_steady.
Lemma apply_choices_steady choices : steady (apply_choices choices).
Proof. unfold apply_choices, apply_delta, validate_role, apply_finish_reason. steady. Qed.
#[local] Hint Resolve apply_choices_steady : chat_steady.
Lemma push_value_steady v end_ f : end_ <> Failed -> steady (push_value v end_ f).
Proof.
  intros He. unfold push_value, observe_usage, observe_metadata, observe_created, observe_model, ensure_started,
    sequence_events, sequence_event. rewrite (bool_decide_false (end_ = Failed)) by done. steady.
Qed.

(** An event completes a stream only with its answer, unless it reports a
    failure; the end of the stream always does. *)
Lemma push_completes e s u s' : push e s = (Ok u, s') -> termination e <> Failed ->
  (update_message u = None -> completed s' = false) /\
  (Exchange.payload e = SseDone -> is_Some (update_message u)).
Proof.
  unfold push. intros H He. runs H. destruct (completed _) eqn:E; [by runs H|]. runs H.
  assert (completed (set_usage (usage_merge (usage s) (token_usage (telemetry e))) s) = false) as Hc by exact E.
  destruct (Exchange.payload e).
  - runs H. by split.
  - apply finish_message_of in H as [(Hd & _)|[Hd Hm]]; [exfalso; revert Hd Hc; simpl; congruence|]. rewrite Hm. split; [done|by eexists].
  - by runs H.
  - runs H. split; [|done]. intros _. by rewrite (push_value_steady _ _ _ He _ _ _ H).
Qed.

(** ** What a session keeps *)

(** The message [m] is the answer of session [s]: of a body it was given, or of
    the stream it has ended. *)
Definition answer_of (s : ResponsesToChatSession) (bodies : list Value) (m : Value) : Prop :=
  (exists body c, body ∈ bodies /\
     response_convert body (session_response s) (session_projection s) (session_profile s) = Ok c /\
     m = converted_message c) \/
  (completed (session_stream s) = true /\ m = assistant_message (session_stream s)).

(** What a session started as [s0] is after it was given [bodies]: it still
    has the conversation, or a continuation that is the conversation and the
    answer, with its tools and its exact size, within the limit. *)
Record answering (s0 : ResponsesToChatSession) (bodies : list Value) (s : ResponsesToChatSession)
    : Prop := {
  an_projection : session_projection s = session_projection s0;
  an_response : session_response s = session_response s0;
  an_profile : session_profile s = session_profile s0;
  an_handle : handle s = handle s0;
  an_conversation : match continuation s with
    | None => conversation s = conversation s0
    | Some (c, state) => exists m, answer_of s bodies m /\
        kept_conversation c = conversation s0 ++ [m] /\
        kept_projection c = session_projection s0 /\
        kept_bytes c = serialized_json_bytes (JArray (kept_conversation c)) +
                       projection_bytes (kept_projection c) /\
        kept_bytes c <= MAX_BRIDGE_CONTINUATION_STATE_BYTES /\
        state = {| bridge := handle s0; serialized_bytes := kept_bytes c |}
    end
}.

Lemma continuation_new_Ok conversation t c : continuation_new conversation t = Ok c ->
  kept_conversation c = conversation /\ kept_projection c = t /\
  kept_bytes c = serialized_json_bytes (JArray conversation) + projection_bytes t /\
  kept_bytes c <= MAX_BRIDGE_CONTINUATION_STATE_BYTES.
Proof.
  unfold continuation_new, continuation_size. intros H. runs H.
  destruct (_ <? _); [done|]. destruct (_ <? _) eqn:E in H0; [done|]. injection H0 as <-.
  simpl. split_and!; [done..|]. by apply Z.ltb_ge in E.
Qed.

(** The answer of a session does not change once the stream has ended. *)
Lemma answer_of_same s s' bodies bodies' m : bodies ⊆ bodies' ->
  session_response s' = session_response s -> session_projection s' = session_projection s ->
  session_profile s' = session_profile s ->
  (completed (session_stream s) = true -> session_stream s' = session_stream s) ->
  answer_of s bodies m -> answer_of s' bodies' m.
Proof.
  intros Hb E1 E2 E3 E4 [(body & c & Hin & Hc & ->)|[Hc ->]]; [left|right].
  - exists body, c. rewrite E1, E2, E3. auto.
  - by rewrite E4.
Qed.

Lemma complete_answering s0 bodies m s u s' :
  answering s0 bodies s -> answer_of s bodies m -> complete m s = (Ok u, s') ->
  answering s0 bodies s'.
Proof.
  intros [E1 E2 E3 E4 Ha] Hm H. unfold complete in H. runs H.
  destruct (continuation (id s)) as [[c st]|] eqn:Ec; runs H.
  - by split.
  - simpl in *. rewrite Ec in Ha. apply continuation_new_Ok in H0 as (H0 & Hp & Hsz & Hle).
    unfold continuation_state_new in H1. rewrite (proj2 (Z.ltb_ge _ _)) in H1 by done.
    injection H1 as <-. split; simpl; try done. exists m. rewrite Ha in H0.
    rewrite H0, Hp, E1, E4 in *. split_and!; try done. rewrite Hsz. by rewrite Ha.
Qed.

(** A stream that goes on *)
Lemma answering_stream s0 bodies s st :
  answering s0 bodies s -> (completed (session_stream s) = true -> st = session_stream s) ->
  answering s0 bodies (set_stream st s).
Proof.
  intros [E1 E2 E3 E4 Ha] Hst. split; simpl; try done.
  destruct (continuation s) as [[c state]|]; [|done]. destruct Ha as (m & Hm & Ha).
  exists m. split; [|done]. by apply (answer_of_same s _ bodies).
Qed.

Lemma complete_update_answering s0 bodies upd s r s' :
  answering s0 bodies s ->
  (update_message upd = None \/
   (completed (session_stream s) = true /\
    update_message upd = Some (assistant_message (session_stream s)))) ->
  complete_update upd s = (Ok r, s') -> answering s0 bodies s'.
Proof.
  intros Ha Hu H. unfold complete_update in H. runs H. destruct Hu as [E|[Hc E]]; rewrite E in H0.
  - by runs H0.
  - eapply complete_answering; [exact Ha| |exact H0]. by right.
Qed.

Lemma session_event_answering s0 bodies e s r s' :
  answering s0 bodies s -> session_event e s = (Ok r, s') -> answering s0 bodies s'.
Proof.
  intros Ha H. unfold session_event in H. runs H. apply zoom_Ok in H0 as (st & Hp & ->).
  apply push_message_of in Hp as [Hc Hu].
  refine (complete_update_answering _ _ _ (set_stream st s) _ _ _ Hu H). apply answering_stream; [done|congruence].
Qed.

Lemma session_finish_answering s0 bodies s r s' :
  answering s0 bodies s -> session_finish s = (Ok r, s') -> answering s0 bodies s'.
Proof.
  intros Ha H. unfold session_finish in H. runs H. apply zoom_Ok in H0 as (st & Hp & ->).
  assert (completed (session_stream s) = true -> st = session_stream s) as Hst.
  { intros Hc. unfold finish in Hp. runs Hp. simpl in Hp. rewrite Hc in Hp. by runs Hp. }
  pose proof (answering_stream _ _ _ _ Ha Hst) as Ha'.
  apply finish_message_of in Hp as [(_ & -> & ->)|Hu].
  - refine (complete_update_answering _ _ _ _ _ _ Ha' _ H). by left.
  - exact (complete_update_answering _ _ _ (set_stream st s) _ _ Ha' (or_intror Hu) H).
Qed.

Definition bodies_of (c : SessionCall) : list Value :=
  match c with AnswerBody (StructuredJson v) => [v] | _ => [] end.

Lemma transform_response_answering s0 bodies p s r s' :
  answering s0 bodies s -> transform_response p s = (Ok r, s') ->
  answering s0 (bodies ++ bodies_of (AnswerBody p)) s'.
Proof.
  intros Ha H. unfold transform_response in H. destruct p as [|v]; [by runs H|]. runs H. simpl.
  assert (answering s0 (bodies ++ [v]) s) as Ha'.
  { destruct Ha as [? ? ? ? Ha]. split; try done. destruct (continuation s) as [[c st]|]; [|done].
    destruct Ha as (m & Hm & Ha). exists m. split; [|done].
    apply (answer_of_same s _ bodies); [set_solver|done..]. }
  refine (complete_answering _ _ _ _ _ _ Ha' _ H1). left. exists v, a. split; [set_solver|done].
Qed.

Lemma session_run_answering s0 calls bodies s u s' :
  answering s0 bodies s -> session_run calls s = (Ok u, s') ->
  answering s0 (bodies ++ (calls ≫= bodies_of)) s'.
Proof.
  revert bodies s. induction calls as [|c calls IH]; intros bodies s Ha H; simpl in H; runs H.
  { by rewrite app_nil_r. }
  cbn [mbind list_bind]. rewrite app_assoc. eapply IH; [|exact H].
  destruct c as [p|e|]; simpl in H0; runs H0.
  - by eapply transform_response_answering.
  - rewrite app_nil_r. by eapply session_event_answering.
  - rewrite app_nil_r. by eapply session_finish_answering.
Qed.

(** ** The end of an answer *)

(** The calls that end an answer, and those that report a failure *)
Definition ends (c : SessionCall) : Prop :=
  match c with AnswerBody _ | AnswerEnd => True | AnswerEvent e => Exchange.payload e = SseDone end.
Definition fails (c : SessionCall) : Prop :=
  match c with AnswerEvent e => termination e = Failed | _ => False end.

(** A session without a continuation has not seen the end of its stream. *)
Definition unfinished (s : ResponsesToChatSession) : Prop :=
  continuation s = None -> completed (session_stream s) = false.

Lemma complete_keeps m s u s' : complete m s = (Ok u, s') ->
  is_Some (continuation s') /\ session_stream s' = session_stream s.
Proof.
  unfold complete. intros H. runs H. destruct (continuation (id s)) as [x|] eqn:E; runs H.
  - change (continuation s = Some x) in E. rewrite E. by split; [eexists|].
  - simpl. by split; [eexists|].
Qed.
Lemma complete_update_keeps upd s r s' : complete_update upd s = (Ok r, s') ->
  session_stream s' = session_stream s /\
  (is_Some (continuation s') \/ update_message upd = None /\ continuation s' = continuation s).
Proof.
  unfold complete_update. intros H. runs H. destruct (update_message upd) as [m|].
  - apply complete_keeps in H0 as [? ?]. auto.
  - runs H0. auto.
Qed.

Lemma session_call_ends c s u s' : session_call c s = (Ok u, s') -> ~ fails c -> unfinished s ->
  unfinished s' /\ (ends c -> is_Some (continuation s')).
Proof.
  intros H Hf Hs. destruct c as [p|e|]; simpl in H; runs H.
  - unfold transform_response in H0. destruct p as [|v]; [by runs H0|]. runs H0.
    match goal with Hc : complete _ _ = _ |- _ => apply complete_keeps in Hc as [[x Hx] _] end.
    split; [|by eexists]. intros E. congruence.
  - unfold session_event in H0. runs H0. apply zoom_Ok in H as (st & Hp & ->).
    apply push_completes in Hp as [Hn Hd]; [|done]. apply complete_update_keeps in H0 as [Es [[x Hx]|[Hm Ec]]].
    + split; [intros E; congruence|by eexists].
    + split; [intros _; rewrite Es; by apply Hn|]. intros He. by destruct (Hd He) as [? ?]; congruence.
  - unfold session_finish in H0. runs H0. apply zoom_Ok in H as (st & Hp & ->).
    apply complete_update_keeps in H0 as [Es [[x Hx]|[Hm Ec]]]; [split; [intros E; congruence|by eexists]|].
    apply finish_message_of in Hp as [(Hc & -> & ->)|[_ Hu]]; [|congruence].
    simpl in Ec. destruct (continuation s) as [x|] eqn:E; [|by rewrite (Hs E) in Hc].
    rewrite Ec. split; [intros ?; congruence|by eexists].
Qed.

(** A continuation stays. *)
Lemma session_call_keeps c s u s' : session_call c s = (Ok u, s') -> is_Some (continuation s) -> is_Some (continuation s').
Proof.
  intros H Hs. destruct c as [p|e|]; simpl in H; runs H.
  - unfold transform_response in H0. destruct p as [|v]; [by runs H0|]. runs H0.
    match goal with Hc : complete _ _ = _ |- _ => by apply complete_keeps in Hc as [? _] end.
  - unfold session_event in H0. runs H0. apply zoom_Ok in H as (st & _ & ->).
    apply complete_update_keeps in H0 as [_ [?|[_ ->]]]; done.
  - unfold session_finish in H0. runs H0. apply zoom_Ok in H as (st & _ & ->).
    apply complete_update_keeps in H0 as [_ [?|[_ ->]]]; done.
Qed.

Lemma session_run_ends calls s u s' : session_run calls s = (Ok u, s') -> Forall (fun c => ~ fails c) calls ->
  unfinished s -> is_Some (continuation s) \/ Exists ends calls -> is_Some (continuation s').
Proof.
  revert s. induction calls as [|c calls IH]; intros s H Hf Hs Hor; simpl in H; runs H.
  { destruct Hor as [?|He]; [done|by inversion He]. }
  inversion Hf as [|? ? Hc Hf']; subst. destruct (session_call_ends _ _ _ _ H0 Hc Hs) as [Hs1 He1].
  apply (IH _ H Hf' Hs1). destruct Hor as [Hk|He]; [left; by eapply session_call_keeps|].
  inversion He; subst; auto.
Qed.

(** * Turns *)

Context {H V : Type} {header_map : Headers H V}.
Context (sha256 : list Byte.byte -> list Byte.byte) (q : OpenAiChatCompletionsProfile).

(** What turns lead to, for targets that have the tools of [q] *)
Inductive reached : option ResponsesChatContinuation -> Prop :=
| reached_new : reached None
| reached_turn previous env request model p (st : StartedProtocolBridge H) calls u s c state :
    reached previous -> same_tools q p ->
    start_session sha256 env request model p previous = Ret (Ok st) ->
    session_run calls (started_session st) = (Ok u, s) ->
    continuation s = Some (c, state) ->
    reached (Some c).

(** What a session is when it is started *)
Definition session_new (request : BridgeRequest H) (p : OpenAiChatCompletionsProfile)
    (previous : option ResponsesChatContinuation) (s : ResponsesToChatSession) : Prop :=
  continuation s = None /\ projection_ok (session_projection s) /\
  profile (session_projection s) = p /\
  completed (session_stream s) = false /\
  (forall c, previous = Some c -> kept_history (kept_projection c) (kept_conversation c) (conversation s)) /\
  forall v items, structured_body request = Some v -> get "input" v = Some (JArray items) ->
    sendable (session_projection s) (conversation s).

Lemma start_session_ok env request model p previous :
  resumable p (kept_projection <$> previous) ->
  holds (start_session sha256 env request model p previous)
    (fun st => session_new request p previous (started_session st)).
Proof.
  intros Hres. unfold start_session. do 4 run_step. run_step.
  eapply holds_mono; [by apply request_convert_ok|]. intros c ([Hpo Hpp] & messages & Hm & Hkept & Hin).
  rewrite Hm.
  do 5 run_step. apply ok_or_Ok in H0. split; [done|]. split; [done|]. split; [done|]. split; [done|].
  simpl. split; [intros c' ->; by apply Hkept|]. intros v items Hv Hi.
  rewrite H0 in Hv. simplify_eq. by eapply Hin.
Qed.

Lemma session_new_answering request p previous s : session_new request p previous s -> answering s [] s.
Proof. intros (E & _). split; try done. by rewrite E. Qed.

Lemma reached_resumable previous p : reached previous -> same_tools q p ->
  resumable p (kept_projection <$> previous).
Proof.
  intros Hr. revert p. induction Hr as [|previous env request model p st calls u s c state _ IH Hq Hst Hrun Hc];
    intros p' Hp' t Ht; [done|]. simpl in Ht. injection Ht as <-.
  pose proof (start_session_ok env request model p previous (IH _ Hq)) as Hs. rewrite Hst in Hs.
  pose proof (session_run_answering _ _ _ _ _ _ (session_new_answering _ _ _ _ Hs) Hrun) as Ha.
  pose proof (an_conversation _ _ _ Ha) as Hk. rewrite Hc in Hk.
  destruct Hk as (m & _ & _ & Hkp & _). destruct Hs as (_ & Hpo & Hpp & _).
  rewrite Hkp, Hpp. split; [done|]. destruct Hq, Hp'. split; congruence.
Qed.

(** C18. Over any number of turns, the bridge never panics.  A turn sends a conversation
    that starts with the conversation of the turns before, one message for one
    (as they were, or with the last message of the model grown, if its calls are
    still open and the input makes further ones); where the input is a list of
    items, every call has its output in its place.  Once the answer has ended, a
    body or a stream without a failure, the session holds a continuation; and a
    continuation it holds is that conversation with the answer, counted to the
    byte and within the limit. *)
Theorem bridged_turns_keep_conversation env request model p previous :
  reached previous -> same_tools q p ->
  start_session sha256 env request model p previous <> Panic /\
  forall st, start_session sha256 env request model p previous = Ret (Ok st) ->
    session_new request p previous (started_session st) /\
    forall calls u s, session_run calls (started_session st) = (Ok u, s) ->
      answering (started_session st) (calls ≫= bodies_of) s /\
      (Exists ends calls -> Forall (fun c => ~ fails c) calls -> is_Some (continuation s)).
Proof.
  intros Hr Hp. pose proof (start_session_ok env request model p previous (reached_resumable _ _ Hr Hp)) as Hs.
  split; [intros E; by rewrite E in Hs|]. intros st E. rewrite E in Hs. split; [done|].
  intros calls u s Hrun. split; [|intros He Hf].
  - apply (session_run_answering _ _ [] _ _ _ (session_new_answering _ _ _ _ Hs) Hrun).
  - eapply session_run_ends; [exact Hrun|done| |by right]. intros _. apply Hs.
Qed.
End turns.

(** * Two turns *)

Module TwoTurns.
Import ListHeaders.

Definition environment (n : string) : BridgeEnvironment :=
  {| uuid := n; env_now := 5; env_handle := 1; env_room := true |}.
Definition request_of (fields : Map) : BridgeRequest (list (string * string)) :=
  {| bridge_dialect := OpenAiResponses; bridge_operation := Responses; bridge_headers := [];
     structured_body := Some (json_object ([("model", JString "public"); ("tools", sample_tools_json)] ++ fields)) |}.
Definition first_request := request_of [("input", JString "hi")].
Definition second_request := request_of [("previous_response_id", JString "resp_a");
  ("input", JArray [json_object [("type", JString "function_call_output"); ("call_id", JString "c1");
                                 ("output", JString "1")]])].

(** The model calls a tool. *)
Definition first_answer : Value :=
  json_object [("model", JString "m"); ("created", num 7);
    ("usage", json_object [("prompt_tokens", num 3); ("completion_tokens", num 4); ("total_tokens", num 7)]);
    ("choices", JArray [json_object [("index", num 0); ("finish_reason", JString "tool_calls");
      ("message", json_object [("role", JString "assistant"); ("content", JNull);
        ("tool_calls", JArray [json_object [("id", JString "c1"); ("type", JString "function");
          ("function", json_object [("name", JString (sample_name (IdFunction "look")));
                                    ("arguments", JString "{}")])]])])]])].
Definition first_calls : list SessionCall := [AnswerBody (StructuredJson first_answer)].

Definition turn (n : string) (request : BridgeRequest (list (string * string)))
    (previous : option ResponsesChatContinuation) : PR (StartedProtocolBridge (list (string * string))) :=
  start_session (JT := Plain.plain) sample_sha (environment n) request "m" COMPATIBLE_BASELINE previous.
Definition after_turn (calls : list SessionCall) (r : PR (StartedProtocolBridge (list (string * string))))
    : option ResponsesToChatSession :=
  match r with
  | Ret (Ok st) => match session_run (JT := Plain.plain) calls (started_session st) with
                   | (Ok _, s) => Some s
                   | _ => None
                   end
  | _ => None
  end.
Definition first_session := after_turn first_calls (turn "a" first_request None).
Definition first_kept : option ResponsesChatContinuation :=
  match first_session with Some s => fst <$> continuation s | None => None end.
Definition second_turn := turn "b" second_request first_kept.

Lemma first_kept_reached :
  is_Some first_kept /\ reached (JT := Plain.plain) (header_map := list_headers) sample_sha COMPATIBLE_BASELINE first_kept.
Proof.
  assert (match first_session with Some s => bool_decide (is_Some (continuation s)) | None => false end = true)
    as E by (vm_compute; reflexivity).
  unfold first_kept, first_session, after_turn in *.
  destruct (turn "a" first_request None) as [[st|]|] eqn:Et; [|discriminate E..].
  destruct (session_run first_calls (started_session st)) as [[u|] s] eqn:Es; [|discriminate E].
  destruct (continuation s) as [[c state]|] eqn:Ec; [|discriminate E].
  split; [by eexists|]. cbn [fmap option_fmap option_map fst].
  refine (reached_turn _ _ None _ _ _ COMPATIBLE_BASELINE st first_calls u s c state (reached_new _ _) _ Et Es Ec).
  split; reflexivity.
Qed.
End TwoTurns.

Lemma bridged_turns_keep_conversation_witness :
  (exists st, TwoTurns.second_turn = Ret (Ok st) /\
    sendable (session_projection (started_session st)) (conversation (started_session st))) /\
  match TwoTurns.second_turn with
  | Ret (Ok st) => at_key "role" <$> conversation (started_session st)
  | _ => []
  end = JString <$> ["user"; "assistant"; "tool"].
Proof.
  split; [|vm_compute; reflexivity].
  assert (match TwoTurns.second_turn with Ret (Ok _) => true | _ => false end = true)
    as E by (vm_compute; reflexivity).
  pose proof (bridged_turns_keep_conversation (JT := Plain.plain) (header_map := ListHeaders.list_headers)
    sample_sha COMPATIBLE_BASELINE (TwoTurns.environment "b") TwoTurns.second_request "m"
    COMPATIBLE_BASELINE TwoTurns.first_kept (proj2 TwoTurns.first_kept_reached)
    (conj eq_refl eq_refl)) as [_ Hok].
  unfold TwoTurns.second_turn, TwoTurns.turn in *.
  destruct (start_session sample_sha (TwoTurns.environment "b") TwoTurns.second_request "m"
    COMPATIBLE_BASELINE TwoTurns.first_kept) as [[st|]|]; [|discriminate E..].
  exists st. split; [reflexivity|]. destruct (Hok st eq_refl) as [(_ & _ & _ & _ & _ & Hs) _].
  refine (Hs _ _ eq_refl eq_refl).
Defined.
