(* ===== verification/Registry.v ===== *)
(** * The registries of runtimes, across changes of configuration

    Models [runtime/src/health/registry.rs] with [health/path.rs], and how
    [runtime/src/registry.rs] reconciles credential handles and their
    generations ([credential/runtime/handle.rs], [generation.rs]).

    A publication hands every registry the keys that are active from now on.
    Runtimes are shared objects: the registry maps keys to references into the
    store of health runtimes ([Attempt.HealthStore]), and snapshots keep
    references too.  The order in which a hash set yields its keys is an
    argument. *)
From S2P Require Import Prelude Protocol Epoch Circuit Upstream Health Attempt CredentialRuntime Candidates.
Local Open Scope Z_scope.

(** * Keys *)

Record EgressPathKey := {
  egress_endpoint : Z;
  egress_endpoint_version : Z;
  egress_proxy : Z;
  egress_proxy_version : Z
}.
#[export] Instance egress_key_eq_dec : EqDecision EgressPathKey.
Proof. solve_decision. Defined.
#[export] Instance egress_key_countable : Countable EgressPathKey.
Proof.
  apply (inj_countable'
    (fun k => (egress_endpoint k, egress_endpoint_version k, egress_proxy k, egress_proxy_version k))
    (fun '(a, b, c, d) => {| egress_endpoint := a; egress_endpoint_version := b;
                             egress_proxy := c; egress_proxy_version := d |})).
  by intros [].
Defined.

Record CandidatePathBaseKey := {
  base_target : Z;
  base_credential : RoutingCredentialId;
  base_generation : Z;
  base_path : EgressPathKey
}.
#[export] Instance base_key_eq_dec : EqDecision CandidatePathBaseKey.
Proof. solve_decision. Defined.
#[export] Instance base_key_countable : Countable CandidatePathBaseKey.
Proof.
  apply (inj_countable'
    (fun k => (base_target k, base_credential k, base_generation k, base_path k))
    (fun '(a, b, c, d) => {| base_target := a; base_credential := b; base_generation := c;
                             base_path := d |})).
  by intros [].
Defined.

(** [CandidatePathBaseKey::egress_path] *)
Definition base_egress_path (k : CandidatePathBaseKey) : EgressPathKey := base_path k.

Record CandidatePathKey := {
  path_operation : ProtocolOperation;
  path_base : CandidatePathBaseKey
}.
#[export] Instance path_key_eq_dec : EqDecision CandidatePathKey.
Proof. solve_decision. Defined.
#[export] Instance path_key_countable : Countable CandidatePathKey.
Proof.
  apply (inj_countable' (fun k => (path_operation k, path_base k))
    (fun '(a, b) => {| path_operation := a; path_base := b |})).
  by intros [].
Defined.

(** * The store of runtimes *)

Definition with_endpoints (m : gmap nat EndpointHealthRuntime) (e : SchedulerEpoch) (h : HealthStore)
    : HealthStore :=
  {| endpoints := m; proxies := proxies h; authentications := authentications h;
     routings := routings h; epoch := e |}.
Definition with_proxies (m : gmap nat CircuitRuntime) (e : SchedulerEpoch) (h : HealthStore)
    : HealthStore :=
  {| endpoints := endpoints h; proxies := m; authentications := authentications h;
     routings := routings h; epoch := e |}.
Definition with_credentials (a : gmap nat (bool * nat)) (r : gmap nat RoutingCredentialHealth)
    (e : SchedulerEpoch) (h : HealthStore) : HealthStore :=
  {| endpoints := endpoints h; proxies := proxies h; authentications := a; routings := r;
     epoch := e |}.

(** [Arc::new] of a runtime: a reference nothing else has *)
Definition alloc_endpoint (h : HealthStore) : outcome (nat * HealthStore) :=
  '(rt, e) ← endpoint_new (epoch h);
  let r := fresh (dom (endpoints h)) in
  Ret (r, with_endpoints (<[r := rt]> (endpoints h)) e h).
Definition alloc_proxy (h : HealthStore) : outcome (nat * HealthStore) :=
  '(rt, e) ← circuit_new (epoch h);
  let r := fresh (dom (proxies h)) in
  Ret (r, with_proxies (<[r := rt]> (proxies h)) e h).

Section keyed.
Context {K : Type} `{Countable K} (alloc : HealthStore -> outcome (nat * HealthStore)).

(** [entry(key).or_insert_with(new)] *)
Definition ensure (key : K) (m : gmap K nat) (h : HealthStore)
    : outcome (nat * gmap K nat * HealthStore) :=
  match m !! key with
  | Some r => Ret (r, m, h)
  | None => '(r, h) ← alloc h; Ret (r, <[key := r]> m, h)
  end.

(** The loop over the active keys *)
Fixpoint ensure_all (keys : list K) (m : gmap K nat) (h : HealthStore)
    : outcome (list (K * nat) * gmap K nat * HealthStore) :=
  match keys with
  | [] => Ret ([], m, h)
  | key :: keys =>
    '(r, m, h) ← ensure key m h;
    '(bound, m, h) ← ensure_all keys m h;
    Ret ((key, r) :: bound, m, h)
  end.

(** [retain], then the loop: [order] is the order the set yields. *)
Definition reconcile_keys (order : list K) (m : gmap K nat) (h : HealthStore)
    : outcome (list (K * nat) * gmap K nat * HealthStore) :=
  ensure_all order (filter (fun kv => kv.1 ∈ order) m) h.
End keyed.

(** * The health registry *)

Record HealthRegistry := {
  reg_endpoints : gmap (Z * Z) nat;
  reg_proxies : gmap (Z * Z) nat;
  egress_active : gset EgressPathKey;
  egress_runtimes : gmap EgressPathKey nat;
  candidate_active : gset CandidatePathBaseKey;
  candidate_runtimes : gmap CandidatePathKey nat
}.

Definition registry_new : HealthRegistry :=
  {| reg_endpoints := ∅; reg_proxies := ∅; egress_active := ∅; egress_runtimes := ∅;
     candidate_active := ∅; candidate_runtimes := ∅ |}.

(** [HealthBindings]: what a snapshot keeps; a later pair of an identifier
    replaces an earlier one, as [collect] into a map does. *)
Record HealthBindings := { bound_endpoints : gmap Z nat; bound_proxies : gmap Z nat }.

Definition bind_by_id (bound : list ((Z * Z) * nat)) : gmap Z nat :=
  foldl (fun m kr => <[kr.1.1 := kr.2]> m) ∅ bound.

(** [reconcile_paths] *)
Definition reconcile_paths (active : gset CandidatePathBaseKey) (reg : HealthRegistry)
    : HealthRegistry :=
  let active_egress := set_map base_egress_path active in
  {| reg_endpoints := reg_endpoints reg; reg_proxies := reg_proxies reg;
     egress_active := active_egress;
     egress_runtimes := filter (fun kv => kv.1 ∈ active_egress) (egress_runtimes reg);
     candidate_active := active;
     candidate_runtimes := filter (fun kv => path_base kv.1 ∈ active) (candidate_runtimes reg) |}.

(** [HealthRegistry::reconcile]: [endpoint_order] and [proxy_order] list the
    sets of active endpoint and proxy keys. *)
Definition registry_reconcile (endpoint_order proxy_order : list (Z * Z))
    (active : gset CandidatePathBaseKey) (reg : HealthRegistry) (h : HealthStore)
    : outcome (HealthBindings * HealthRegistry * HealthStore) :=
  '(be, me, h) ← reconcile_keys alloc_endpoint endpoint_order (reg_endpoints reg) h;
  '(bp, mp, h) ← reconcile_keys alloc_proxy proxy_order (reg_proxies reg) h;
  let reg := {| reg_endpoints := me; reg_proxies := mp; egress_active := egress_active reg;
                egress_runtimes := egress_runtimes reg;
                candidate_active := candidate_active reg;
                candidate_runtimes := candidate_runtimes reg |} in
  Ret ({| bound_endpoints := bind_by_id be; bound_proxies := bind_by_id bp |},
       reconcile_paths active reg, h).

Definition set_egress (m : gmap EgressPathKey nat) (reg : HealthRegistry) : HealthRegistry :=
  {| reg_endpoints := reg_endpoints reg; reg_proxies := reg_proxies reg;
     egress_active := egress_active reg; egress_runtimes := m;
     candidate_active := candidate_active reg; candidate_runtimes := candidate_runtimes reg |}.
Definition set_candidate (m : gmap CandidatePathKey nat) (reg : HealthRegistry) : HealthRegistry :=
  {| reg_endpoints := reg_endpoints reg; reg_proxies := reg_proxies reg;
     egress_active := egress_active reg; egress_runtimes := egress_runtimes reg;
     candidate_active := candidate_active reg; candidate_runtimes := m |}.

(** [egress_path] past the look-up under the read lock: the registry may have
    changed in between. *)
Definition egress_path_insert (key : EgressPathKey) (reg : HealthRegistry) (h : HealthStore)
    : outcome (nat * HealthRegistry * HealthStore) :=
  if decide (key ∈ egress_active reg) then
    '(r, m, h) ← ensure alloc_endpoint key (egress_runtimes reg) h; Ret (r, set_egress m reg, h)
  else '(r, h) ← alloc_endpoint h; Ret (r, reg, h).
Definition egress_path (key : EgressPathKey) (reg : HealthRegistry) (h : HealthStore)
    : outcome (nat * HealthRegistry * HealthStore) :=
  match egress_runtimes reg !! key with
  | Some r => Ret (r, reg, h)
  | None => egress_path_insert key reg h
  end.

(** [candidate_path], likewise *)
Definition candidate_path_insert (key : CandidatePathKey) (reg : HealthRegistry) (h : HealthStore)
    : outcome (nat * HealthRegistry * HealthStore) :=
  if decide (path_base key ∈ candidate_active reg) then
    '(r, m, h) ← ensure alloc_endpoint key (candidate_runtimes reg) h; Ret (r, set_candidate m reg, h)
  else '(r, h) ← alloc_endpoint h; Ret (r, reg, h).
Definition candidate_path (key : CandidatePathKey) (reg : HealthRegistry) (h : HealthStore)
    : outcome (nat * HealthRegistry * HealthStore) :=
  match candidate_runtimes reg !! key with
  | Some r => Ret (r, reg, h)
  | None => candidate_path_insert key reg h
  end.

(** * Counting breakers *)

Record BreakerStateCounts := { closed_count : nat; open_count : nat; half_open_count : nat }.

(** [BreakerStateCounts::record] *)
Definition counts_record (c : BreakerStateCounts) (s : CircuitStateSnapshot) : BreakerStateCounts :=
  match s with
  | Closed => {| closed_count := S (closed_count c); open_count := open_count c;
                 half_open_count := half_open_count c |}
  | Open => {| closed_count := closed_count c; open_count := S (open_count c);
               half_open_count := half_open_count c |}
  | HalfOpen => {| closed_count := closed_count c; open_count := open_count c;
                   half_open_count := S (half_open_count c) |}
  end.

Definition endpoint_states (now : Instant) (h : HealthStore) (refs : list nat)
    : list CircuitStateSnapshot :=
  omap (fun r => rt ← endpoints h !! r; Some (state_at now (endpoint_circuit rt))) refs.
Definition proxy_states (now : Instant) (h : HealthStore) (refs : list nat)
    : list CircuitStateSnapshot :=
  omap (fun r => c ← proxies h !! r; Some (state_at now c)) refs.

(** [HealthBindings::breaker_state_counts] with [record_path_breaker_states] *)
Definition breaker_state_counts (now : Instant) (b : HealthBindings) (reg : HealthRegistry)
    (h : HealthStore) : BreakerStateCounts :=
  foldl counts_record {| closed_count := 0; open_count := 0; half_open_count := 0 |}
    (endpoint_states now h (snd <$> map_to_list (bound_endpoints b)) ++
     proxy_states now h (snd <$> map_to_list (bound_proxies b)) ++
     endpoint_states now h (snd <$> map_to_list (egress_runtimes reg)) ++
     endpoint_states now h (snd <$> map_to_list (candidate_runtimes reg))).

(** * Reconciling one map of runtimes *)

(** What an allocator promises: a reference that was free, holding a new
    runtime, and nothing else touched in its part of the store *)
Class AllocLaws {A : Type} (alloc : HealthStore -> outcome (nat * HealthStore))
    (heap : HealthStore -> gmap nat A) (new : A -> Prop) := {
  alloc_fresh h r h' : alloc h = Ret (r, h') -> heap h !! r = None;
  alloc_heap h r h' : alloc h = Ret (r, h') -> exists a, heap h' = <[r := a]> (heap h) /\ new a
}.

(** A circuit, or an endpoint runtime, that has seen nothing yet *)
Definition circuit_pristine (c : CircuitRuntime) : Prop :=
  failure_times c = [] /\ open_until c = None /\ half_open_in_flight c = 0.
Definition endpoint_pristine (rt : EndpointHealthRuntime) : Prop :=
  circuit_pristine (endpoint_circuit rt) /\ transient_until rt = None.

#[export] Instance alloc_endpoint_laws : AllocLaws alloc_endpoint endpoints endpoint_pristine.
Proof.
  split; unfold alloc_endpoint; intros h r h' E;
    destruct (endpoint_new (epoch h)) as [[rt e]|] eqn:En; simplify_eq/=.
  - apply not_elem_of_dom, is_fresh.
  - exists rt. split; [done|]. unfold endpoint_new, circuit_new in En.
    destruct (wake_slot _) as [[s1 e1]|]; simplify_eq/=.
    destruct (wake_slot _) as [[s2 e2]|]; simplify_eq/=. by repeat split.
Qed.

#[export] Instance alloc_proxy_laws : AllocLaws alloc_proxy proxies circuit_pristine.
Proof.
  split; unfold alloc_proxy; intros h r h' E;
    destruct (circuit_new (epoch h)) as [[rt e]|] eqn:En; simplify_eq/=.
  - apply not_elem_of_dom, is_fresh.
  - exists rt. split; [done|]. unfold circuit_new in En.
    destruct (wake_slot _) as [[s1 e1]|]; simplify_eq/=. by repeat split.
Qed.

Section reconcile.
Context {K A : Type} `{Countable K}.
Context (alloc : HealthStore -> outcome (nat * HealthStore)) (heap : HealthStore -> gmap nat A).
Context (new : A -> Prop) {laws : AllocLaws alloc heap new}.

(** [m], with the store [h], keeps what it had in [m0] with [h0], and what it
    got since is new and has a reference that was free. *)
Definition extends (m0 : gmap K nat) (h0 : HealthStore) (m : gmap K nat) (h : HealthStore) : Prop :=
  heap h0 ⊆ heap h /\ m0 ⊆ m /\
  forall k r, m !! k = Some r -> m0 !! k = None ->
    heap h0 !! r = None /\ exists a, heap h !! r = Some a /\ new a.

(** Every key has a runtime of its own. *)
Definition private (m : gmap K nat) (h : HealthStore) : Prop :=
  (forall k r, m !! k = Some r -> is_Some (heap h !! r)) /\
  forall k k' r, m !! k = Some r -> m !! k' = Some r -> k = k'.

Lemma extends_refl m h : extends m h m h.
Proof. split; [done|]. split; [done|]. intros; congruence. Qed.

Lemma extends_trans m0 h0 m1 h1 m2 h2 :
  extends m0 h0 m1 h1 -> extends m1 h1 m2 h2 -> extends m0 h0 m2 h2.
Proof.
  intros (Hh1 & Hm1 & Hn1) (Hh2 & Hm2 & Hn2). split; [by etrans|]. split; [by etrans|].
  intros k r Hk H0. destruct (m1 !! k) as [r1|] eqn:E1.
  - pose proof (lookup_weaken _ _ _ _ E1 Hm2). simplify_eq.
    destruct (Hn1 _ _ E1 H0) as (? & a & Ha & ?). split; [done|]. exists a.
    split; [exact (lookup_weaken _ _ _ _ Ha Hh2)|done].
  - destruct (Hn2 _ _ Hk E1) as [Hf ?]. split; [exact (lookup_weaken_None _ _ _ Hf Hh1)|done].
Qed.

Lemma ensure_spec key m h r m' h' : ensure alloc key m h = Ret (r, m', h') ->
  extends m h m' h' /\ m' !! key = Some r /\ dom m' = {[key]} ∪ dom m /\ (private m h -> private m' h').
Proof using laws.
  unfold ensure. destruct (m !! key) as [r0|] eqn:E; intros Hr; simplify_eq/=.
  - split; [apply extends_refl|]. split; [done|]. split; [apply elem_of_dom_2 in E; set_solver|done].
  - destruct (alloc h) as [[r1 h1]|] eqn:Ea; simplify_eq/=.
    pose proof (alloc_fresh _ _ _ Ea) as Hf. destruct (alloc_heap _ _ _ Ea) as (a & Hh & Hnew).
    split; [|split; [apply lookup_insert_eq|split; [by rewrite dom_insert_L|]]].
    + split; [rewrite Hh; by apply insert_subseteq|]. split; [by apply insert_subseteq|].
      intros k x Hk Hm. apply lookup_insert_Some in Hk as [[<- <-]|[Hne Hk]]; [|congruence].
      split; [done|]. exists a. split; [rewrite Hh; apply lookup_insert_eq|done].
    + intros [Hall Hinj]. split.
      * intros k x Hk. rewrite Hh. apply lookup_insert_Some in Hk as [[<- <-]|[Hne Hk]].
        -- rewrite lookup_insert_eq. eauto.
        -- apply lookup_insert_is_Some'. right. eauto.
      * intros k k' x Hk Hk'.
        apply lookup_insert_Some in Hk as [[<- <-]|[Hne Hk]];
          apply lookup_insert_Some in Hk' as [[<- E']|[Hne' Hk']]; try done.
        -- destruct (Hall _ _ Hk') as [? ?]. congruence.
        -- subst. destruct (Hall _ _ Hk) as [? ?]. congruence.
        -- eauto.
Qed.

Lemma ensure_all_spec keys m h bound m' h' : ensure_all alloc keys m h = Ret (bound, m', h') ->
  extends m h m' h' /\ dom m' = list_to_set keys ∪ dom m /\
  (fst <$> bound) = keys /\ (forall k r, (k, r) ∈ bound -> m' !! k = Some r) /\
  (private m h -> private m' h').
Proof using laws.
  revert m h bound. induction keys as [|key keys IH]; intros m h bound; simpl; intros E; simplify_eq/=.
  { split; [apply extends_refl|]. split; [set_solver|]. by split_and!; [|set_solver|]. }
  destruct (ensure alloc key m h) as [[[r m1] h1]|] eqn:E1; simplify_eq/=.
  destruct (ensure_all alloc keys m1 h1) as [[[b m2] h2]|] eqn:E2; simplify_eq/=.
  apply ensure_spec in E1 as (X1 & Hr & Hd1 & Hp1). apply IH in E2 as (X2 & Hd2 & Hb & Hlook & Hp2).
  split; [by eapply extends_trans|]. split; [rewrite Hd2, Hd1; set_solver|].
  split; [by rewrite <- Hb|]. split; [|auto].
  intros k x Hx. apply elem_of_cons in Hx as [Hx|Hx]; [|auto]. simplify_eq.
  eapply lookup_weaken; [exact Hr|]. apply X2.
Qed.

(** After a reconciliation exactly the active keys have a runtime; a key that
    stays keeps the one it had; a new one starts afresh; and no runtime of the
    store is touched. *)
Lemma reconcile_keys_spec order m h bound m' h' : reconcile_keys alloc order m h = Ret (bound, m', h') ->
  dom m' = list_to_set order /\ heap h ⊆ heap h' /\
  (forall k r, k ∈ order -> m !! k = Some r -> m' !! k = Some r) /\
  (forall k r, m !! k = None -> m' !! k = Some r ->
     heap h !! r = None /\ exists a, heap h' !! r = Some a /\ new a) /\
  (fst <$> bound) = order /\ (forall k r, (k, r) ∈ bound -> m' !! k = Some r) /\
  (private m h -> private m' h').
Proof using laws.
  unfold reconcile_keys. set (kept := filter _ _). intros E.
  assert (kept ⊆ m) as Hsub by apply map_filter_subseteq.
  apply ensure_all_spec in E as ((Hh & Hm & Hn) & Hd & Hb & Hl & Hp).
  split; [|split; [done|split; [|split; [|split; [done|split; [done|]]]]]].
  - rewrite Hd. assert (dom kept ⊆ list_to_set order) as Hk; [|set_solver].
    intros k Hk. apply elem_of_dom in Hk as [r Hk]. apply map_lookup_filter_Some in Hk as [_ Hk].
    by apply elem_of_list_to_set.
  - intros k r Hk Hr. eapply lookup_weaken; [|exact Hm]. by apply map_lookup_filter_Some.
  - intros k r Hr Hr'. apply (Hn k r Hr'). exact (lookup_weaken_None _ _ _ Hr Hsub).
  - intros [Hall Hinj]. apply Hp. split.
    + intros k r Hk. exact (Hall _ _ (lookup_weaken _ _ _ _ Hk Hsub)).
    + intros k k' r Hk Hk'. exact (Hinj _ _ _ (lookup_weaken _ _ _ _ Hk Hsub) (lookup_weaken _ _ _ _ Hk' Hsub)).
Qed.
End reconcile.

(** * The health registry *)

(** Who owns an endpoint runtime *)
Inductive owner :=
| OwnEndpoint (k : Z * Z)
| OwnEgress (k : EgressPathKey)
| OwnCandidate (k : CandidatePathKey).

Definition owned (reg : HealthRegistry) (o : owner) : option nat :=
  match o with
  | OwnEndpoint k => reg_endpoints reg !! k
  | OwnEgress k => egress_runtimes reg !! k
  | OwnCandidate k => candidate_runtimes reg !! k
  end.

Record registry_ok (reg : HealthRegistry) (h : HealthStore) : Prop := {
  rok_alloc : forall o r, owned reg o = Some r -> is_Some (endpoints h !! r);
  rok_private : forall o o' r, owned reg o = Some r -> owned reg o' = Some r -> o = o';
  rok_proxies : private proxies (reg_proxies reg) h;
  rok_egress : forall k, is_Some (egress_runtimes reg !! k) -> k ∈ egress_active reg;
  rok_candidate : forall k, is_Some (candidate_runtimes reg !! k) ->
    path_base k ∈ candidate_active reg;
  rok_paths : egress_active reg = set_map base_egress_path (candidate_active reg)
}.

(** Operations on the registry, by any snapshot *)
Inductive registry_op :=
| OpReconcile (endpoint_order proxy_order : list (Z * Z)) (active : gset CandidatePathBaseKey)
| OpEgressPath (k : EgressPathKey)
| OpCandidatePath (k : CandidatePathKey)
| OpWork.

(** [OpWork]: requests use the runtimes meanwhile; their state changes, and none
    of them goes away. *)
Inductive registry_step : registry_op -> HealthRegistry * HealthStore ->
    HealthRegistry * HealthStore -> Prop :=
| step_reconcile eo po active reg h b reg' h' :
    registry_reconcile eo po active reg h = Ret (b, reg', h') ->
    registry_step (OpReconcile eo po active) (reg, h) (reg', h')
| step_egress k reg h r reg' h' :
    egress_path k reg h = Ret (r, reg', h') ->
    registry_step (OpEgressPath k) (reg, h) (reg', h')
| step_candidate k reg h r reg' h' :
    candidate_path k reg h = Ret (r, reg', h') ->
    registry_step (OpCandidatePath k) (reg, h) (reg', h')
| step_work reg h h' :
    dom (endpoints h') = dom (endpoints h) -> dom (proxies h') = dom (proxies h) ->
    registry_step OpWork (reg, h) (reg, h').

Lemma alloc_endpoint_proxies h r h' : alloc_endpoint h = Ret (r, h') -> proxies h' = proxies h.
Proof. unfold alloc_endpoint. destruct (endpoint_new _) as [[]|]; intros; by simplify_eq/=. Qed.
Lemma alloc_proxy_endpoints h r h' : alloc_proxy h = Ret (r, h') -> endpoints h' = endpoints h.
Proof. unfold alloc_proxy. destruct (circuit_new _) as [[]|]; intros; by simplify_eq/=. Qed.

Lemma ensure_other {K B} `{Countable K} alloc (view : HealthStore -> B) (key : K) m h r m' h' :
  (forall h r h', alloc h = Ret (r, h') -> view h' = view h) ->
  ensure alloc key m h = Ret (r, m', h') -> view h' = view h.
Proof.
  intros Hv. unfold ensure. destruct (m !! key); intros E; simplify_eq/=; [done|].
  destruct (alloc h) as [[]|] eqn:Ea; simplify_eq/=. eauto.
Qed.

Lemma ensure_all_other {K B} `{Countable K} alloc (view : HealthStore -> B) (keys : list K) m h b m' h' :
  (forall h r h', alloc h = Ret (r, h') -> view h' = view h) ->
  ensure_all alloc keys m h = Ret (b, m', h') -> view h' = view h.
Proof.
  intros Hv. revert m h b. induction keys as [|k keys IH]; intros m h b E; simplify_eq/=; [done|].
  destruct (ensure alloc k m h) as [[[r m1] h1]|] eqn:E1; simplify_eq/=.
  destruct (ensure_all alloc keys m1 h1) as [[[b' m2] h2]|] eqn:E2; simplify_eq/=.
  rewrite (IH _ _ _ E2). by eapply ensure_other.
Qed.

(** A runtime was allocated and, perhaps, given to one owner: whatever had a
    runtime keeps it. *)
Lemma owned_grows reg h reg' h' r o0 :
  alloc_endpoint h = Ret (r, h') -> registry_ok reg h ->
  reg_proxies reg' = reg_proxies reg -> egress_active reg' = egress_active reg ->
  candidate_active reg' = candidate_active reg ->
  (forall o x, owned reg' o = Some x -> owned reg o = Some x \/ o = o0 /\ x = r) ->
  (forall k, o0 = OwnEgress k -> k ∈ egress_active reg) ->
  (forall k, o0 = OwnCandidate k -> path_base k ∈ candidate_active reg) ->
  registry_ok reg' h'.
Proof.
  intros Ea [H1 H2 H3 H4 H5 H6] Ep Eea Eca Hown He Hc.
  pose proof (alloc_fresh _ _ _ Ea) as Hf. destruct (alloc_heap _ _ _ Ea) as (a & Hh & _).
  apply alloc_endpoint_proxies in Ea as Hp.
  assert (forall o x, owned reg o = Some x -> x <> r) as Hne.
  { intros o x Ho ->. destruct (H1 _ _ Ho). congruence. }
  constructor; rewrite ?Eea, ?Eca; auto.
  - intros o x Ho. rewrite Hh. destruct (Hown _ _ Ho) as [Ho'|[_ ->]].
    + rewrite lookup_insert_ne; [eauto|]. intros ->. by eapply Hne.
    + rewrite lookup_insert_eq. eauto.
  - intros o o' x Ho Ho'. destruct (Hown _ _ Ho) as [Ha|[-> ->]], (Hown _ _ Ho') as [Hb|[-> E]]; subst;
      eauto; by edestruct Hne.
  - rewrite Ep. unfold private. by rewrite Hp.
  - intros k [x Hx]. destruct (Hown (OwnEgress k) x Hx) as [?|[E _]]; [|eauto]. apply H4. eauto.
  - intros k [x Hx]. destruct (Hown (OwnCandidate k) x Hx) as [?|[E _]]; [|eauto]. apply H5. eauto.
Qed.

Lemma registry_new_ok h : registry_ok registry_new h.
Proof.
  constructor; simpl; try done.
  - by intros [] r Hr.
  - by intros [] o' r Hr.
  - by intros k [? ?].
  - by intros k [? ?].
Qed.

Lemma egress_path_ok k reg h r reg' h' : egress_path k reg h = Ret (r, reg', h') ->
  registry_ok reg h -> registry_ok reg' h'.
Proof.
  intros E Hok. unfold egress_path, egress_path_insert, ensure in E.
  destruct (egress_runtimes reg !! k) as [r0|] eqn:Ek; [by simplify_eq|].
  destruct (decide _) as [Hact|Hina]; destruct (alloc_endpoint h) as [[r1 h1]|] eqn:Ea; simplify_eq/=.
  - eapply (owned_grows _ _ _ _ _ (OwnEgress k)); [done..| | |done]; [|by intros ? [= <-]].
    intros [] x Ho; simpl in *; auto. apply lookup_insert_Some in Ho as [[<- <-]|[_ ?]]; auto.
  - eapply (owned_grows _ _ _ _ _ (OwnEndpoint (0, 0))); eauto; done.
Qed.

Lemma candidate_path_ok k reg h r reg' h' : candidate_path k reg h = Ret (r, reg', h') ->
  registry_ok reg h -> registry_ok reg' h'.
Proof.
  intros E Hok. unfold candidate_path, candidate_path_insert, ensure in E.
  destruct (candidate_runtimes reg !! k) as [r0|] eqn:Ek; [by simplify_eq|].
  destruct (decide _) as [Hact|Hina]; destruct (alloc_endpoint h) as [[r1 h1]|] eqn:Ea; simplify_eq/=.
  - eapply (owned_grows _ _ _ _ _ (OwnCandidate k)); [done..| |done|]; [|by intros ? [= <-]].
    intros [] x Ho; simpl in *; auto. apply lookup_insert_Some in Ho as [[<- <-]|[_ ?]]; auto.
  - eapply (owned_grows _ _ _ _ _ (OwnEndpoint (0, 0))); eauto; done.
Qed.

Lemma lookup_filter_decide {K A} `{Countable K} (P : K -> Prop) `{!forall k, Decision (P k)}
    (m : gmap K A) k :
  filter (fun kv => P kv.1) m !! k = if decide (P k) then m !! k else None.
Proof.
  destruct (decide (P k)) as [Hp|Hp].
  - destruct (m !! k) as [x|] eqn:E; [by apply map_lookup_filter_Some|].
    apply map_lookup_filter_None. by left.
  - apply map_lookup_filter_None. right. by intros ? _.
Qed.

(** A reconciliation, in full *)
Lemma registry_reconcile_spec eo po active reg h b reg' h' :
  registry_reconcile eo po active reg h = Ret (b, reg', h') ->
  exists me mp h1 be bp,
    reconcile_keys alloc_endpoint eo (reg_endpoints reg) h = Ret (be, me, h1) /\
    reconcile_keys alloc_proxy po (reg_proxies reg) h1 = Ret (bp, mp, h') /\
    reg_endpoints reg' = me /\ reg_proxies reg' = mp /\
    egress_active reg' = set_map base_egress_path active /\ candidate_active reg' = active /\
    (forall k, egress_runtimes reg' !! k =
       if decide (k ∈ egress_active reg') then egress_runtimes reg !! k else None) /\
    (forall k, candidate_runtimes reg' !! k =
       if decide (path_base k ∈ active) then candidate_runtimes reg !! k else None) /\
    bound_endpoints b = bind_by_id be /\ bound_proxies b = bind_by_id bp /\
    proxies h1 = proxies h /\ endpoints h' = endpoints h1.
Proof.
  unfold registry_reconcile.
  destruct (reconcile_keys alloc_endpoint eo _ h) as [[[be me] h1]|] eqn:E1; [simpl|done].
  destruct (reconcile_keys alloc_proxy po _ h1) as [[[bp mp] h2]|] eqn:E2; [simpl|done].
  intros; simplify_eq/=. exists me, mp, h1, be, bp. split_and!; try done.
  - intros k. set (ae := set_map base_egress_path active).
    exact (lookup_filter_decide (fun k : EgressPathKey => k ∈ ae) (egress_runtimes reg) k).
  - intros k. exact (lookup_filter_decide (fun k : CandidatePathKey => path_base k ∈ active) (candidate_runtimes reg) k).
  - eapply (ensure_all_other _ proxies); [apply alloc_endpoint_proxies|exact E1].
  - eapply (ensure_all_other _ endpoints); [apply alloc_proxy_endpoints|exact E2].
Qed.

Lemma reconcile_ok eo po active reg h b reg' h' :
  registry_reconcile eo po active reg h = Ret (b, reg', h') ->
  registry_ok reg h -> registry_ok reg' h'.
Proof.
  intros E [H1 H2 H3 H4 H5 H6].
  apply registry_reconcile_spec in E as
    (me & mp & h1 & be & bp & E1 & E2 & Hme & Hmp & Hea & Hca & Heg & Hcd & _ & _ & Hp1 & He2).
  apply (reconcile_keys_spec _ endpoints endpoint_pristine) in E1 as (D1 & Hh1 & Hkeep & Hnew & _ & _ & Hpr).
  apply (reconcile_keys_spec _ proxies circuit_pristine) in E2 as (D2 & Hh2 & _ & _ & _ & _ & Hpr2).
  assert (private endpoints (reg_endpoints reg) h) as Hpe.
  { split; [intros k r Hk; exact (H1 (OwnEndpoint k) r Hk)|].
    intros k k' r Hk Hk'. by injection (H2 (OwnEndpoint k) (OwnEndpoint k') r Hk Hk'). }
  apply Hpr in Hpe as [Hall Hinj].
  (** an owner now owned its runtime before, or is an endpoint with a new one *)
  assert (forall o r, owned reg' o = Some r -> owned reg o = Some r \/
    (exists k, o = OwnEndpoint k) /\ endpoints h !! r = None) as Hown.
  { intros [k|k|k] r Ho; simpl in Ho.
    - rewrite Hme in Ho. destruct (reg_endpoints reg !! k) as [r0|] eqn:Ek.
      + left. simpl. rewrite Ek. assert (k ∈ eo) as Hk.
        { apply elem_of_dom_2 in Ho. rewrite D1 in Ho. by apply elem_of_list_to_set in Ho. }
        rewrite (Hkeep _ _ Hk Ek) in Ho. done.
      + right. split; [eauto|]. by destruct (Hnew _ _ Ek Ho).
    - rewrite Heg in Ho. case_decide; [by left|done].
    - rewrite Hcd in Ho. case_decide; [by left|done]. }
  constructor.
  - intros o r Ho. rewrite He2. destruct (Hown _ _ Ho) as [Ho'|[[k ->] _]].
    + destruct (H1 _ _ Ho') as [x Hx]. exists x. by eapply lookup_weaken.
    + simpl in Ho. rewrite Hme in Ho. eauto.
  - intros o o' r Ho Ho'.
    destruct (Hown _ _ Ho) as [Ha|[[k ->] Hf]], (Hown _ _ Ho') as [Hb|[[k' ->] Hf']]; [eauto| | |].
    + destruct (H1 _ _ Ha). congruence.
    + destruct (H1 _ _ Hb). congruence.
    + simpl in *. rewrite Hme in *. f_equal. eauto.
  - rewrite Hmp. apply Hpr2. unfold private. by rewrite Hp1.
  - intros k [r Hr]. rewrite Heg in Hr. by case_decide.
  - intros k [r Hr]. rewrite Hcd in Hr. rewrite Hca. by case_decide.
  - by rewrite Hea, Hca.
Qed.

Lemma registry_step_ok op s s' : registry_step op s s' -> registry_ok s.1 s.2 -> registry_ok s'.1 s'.2.
Proof.
  destruct 1 as [eo po active reg h b reg' h' E|k reg h r reg' h' E|k reg h r reg' h' E|reg h h' He Hp];
    simpl; eauto using reconcile_ok, egress_path_ok, candidate_path_ok.
  intros [H1 H2 [H3 H3'] H4 H5 H6]. constructor; try done.
  - intros o r Ho. apply elem_of_dom. rewrite He. apply elem_of_dom. eauto.
  - split; [|done]. intros k r Hk. apply elem_of_dom. rewrite Hp. apply elem_of_dom. eauto.
Qed.

(** C34. Whatever publications, look-ups by new and by old snapshots, and requests
    follow each other: no two keys (endpoints, egress paths, candidate paths)
    share a health runtime, so a failure is held against one of them only; nor do
    two proxies; and runtimes of paths are kept only for paths the current
    configuration has, however late an old snapshot asks for one. *)
Theorem health_runtimes_private h0 reg h :
  rtc (fun s s' => exists op, registry_step op s s') (registry_new, h0) (reg, h) ->
  (forall o o' r, owned reg o = Some r -> owned reg o' = Some r -> o = o') /\
  (forall o r, owned reg o = Some r -> is_Some (endpoints h !! r)) /\
  (forall k k' r, reg_proxies reg !! k = Some r -> reg_proxies reg !! k' = Some r -> k = k') /\
  (forall k, is_Some (egress_runtimes reg !! k) -> k ∈ egress_active reg) /\
  (forall k, is_Some (candidate_runtimes reg !! k) -> path_base k ∈ candidate_active reg) /\
  egress_active reg = set_map base_egress_path (candidate_active reg).
Proof.
  intros Hrun.
  assert (registry_ok reg h) as [H1 H2 [H3 H3'] H4 H5 H6]; [|by split_and!].
  apply (rtc_invariant _ (fun s => registry_ok s.1 s.2)) in Hrun; [done| |apply registry_new_ok].
  intros s s' [op Hs]. by eapply registry_step_ok.
Qed.

(** What a publication does to health runtimes: exactly the active endpoint and
    proxy keys have one afterwards; a key that was there keeps its runtime and
    its state, a new one starts closed; a path that stays active keeps its
    runtime, every other path loses it.  A changed endpoint or proxy has a new
    version, hence a new key. *)
Theorem health_reconcile_exact eo po active reg h b reg' h' :
  registry_reconcile eo po active reg h = Ret (b, reg', h') ->
  dom (reg_endpoints reg') = list_to_set eo /\ dom (reg_proxies reg') = list_to_set po /\
  (forall r rt, endpoints h !! r = Some rt -> endpoints h' !! r = Some rt) /\
  (forall r c, proxies h !! r = Some c -> proxies h' !! r = Some c) /\
  (forall k r, k ∈ eo -> reg_endpoints reg !! k = Some r -> reg_endpoints reg' !! k = Some r) /\
  (forall k r, reg_endpoints reg !! k = None -> reg_endpoints reg' !! k = Some r ->
     exists rt, endpoints h' !! r = Some rt /\ endpoint_pristine rt) /\
  (forall k r, k ∈ po -> reg_proxies reg !! k = Some r -> reg_proxies reg' !! k = Some r) /\
  (forall k r, reg_proxies reg !! k = None -> reg_proxies reg' !! k = Some r ->
     exists c, proxies h' !! r = Some c /\ circuit_pristine c) /\
  (forall k, egress_runtimes reg' !! k =
     if decide (k ∈ (set_map base_egress_path active : gset EgressPathKey))
     then egress_runtimes reg !! k else None) /\
  (forall k, candidate_runtimes reg' !! k =
     if decide (path_base k ∈ active) then candidate_runtimes reg !! k else None).
Proof.
  intros E. apply registry_reconcile_spec in E as
    (me & mp & h1 & be & bp & E1 & E2 & -> & -> & Hea & Hca & Heg & Hcd & _ & _ & Hp1 & He2).
  apply (reconcile_keys_spec _ endpoints endpoint_pristine) in E1 as (D1 & Hh1 & Hk1 & Hn1 & _).
  apply (reconcile_keys_spec _ proxies circuit_pristine) in E2 as (D2 & Hh2 & Hk2 & Hn2 & _).
  split_and!; try done.
  - intros r rt Hr. rewrite He2. by eapply lookup_weaken.
  - intros r c Hr. rewrite <- Hp1 in Hr. by eapply lookup_weaken.
  - intros k r Hk Hr. rewrite He2. by destruct (Hn1 _ _ Hk Hr).
  - intros k r Hk Hr. by destruct (Hn2 _ _ Hk Hr).
  - intros k. rewrite Heg, Hea. done.
Qed.

(** * Credentials *)

(** [CredentialGenerationDefinition], but for the secret it carries *)
Record GenerationDefinition := { def_routing : Z; def_authentication : Z }.

(** [CredentialGenerationRuntime]: [gen_health] refers to its health, a pair of
    an authentication flag and of a routing health that generations may share. *)
Record CredentialGeneration := {
  gen_routing : Z;
  gen_authentication : Z;
  gen_health : nat
}.

(** [matches], [matches_routing_generation] *)
Definition gen_matches (g : CredentialGeneration) (d : GenerationDefinition) : bool :=
  (gen_routing g =? def_routing d) && (gen_authentication g =? def_authentication d).
Definition gen_matches_routing (g : CredentialGeneration) (d : GenerationDefinition) : bool :=
  gen_routing g =? def_routing d.

(** [CredentialGenerationRuntime::new] *)
Definition gen_new (d : GenerationDefinition) (h : HealthStore)
    : outcome (CredentialGeneration * HealthStore) :=
  '(rt, e) ← routing_new (epoch h);
  let r := fresh (dom (routings h)) in
  let a := fresh (dom (authentications h)) in
  Ret ({| gen_routing := def_routing d; gen_authentication := def_authentication d; gen_health := a |},
       with_credentials (<[a := (false, r)]> (authentications h)) (<[r := rt]> (routings h)) e h).

(** [with_reused_routing_health]: the routing half of the health is shared, the
    authentication half starts afresh. *)
Definition gen_reuse (d : GenerationDefinition) (previous : CredentialGeneration) (h : HealthStore)
    : outcome (CredentialGeneration * HealthStore) :=
  '(_, r) ← expect (authentications h !! gen_health previous);
  let a := fresh (dom (authentications h)) in
  Ret ({| gen_routing := def_routing d; gen_authentication := def_authentication d; gen_health := a |},
       with_credentials (<[a := (false, r)]> (authentications h)) (routings h) (epoch h) h).

(** A handle of the registry: the reference of its counters, its windows and
    waiters, and the generation it is at *)
Record RegistryHandle := { handle_ref : nat; current_generation : CredentialGeneration }.

Record CredentialRegistry := {
  cred_handles : gmap RoutingCredentialId RegistryHandle;
  cred_runtimes : gmap nat CredentialRuntimeHandle
}.

(** [CredentialRuntimeBinding], but for its admission *)
Record BoundCredential := {
  bound_handle : nat;
  bound_generation : CredentialGeneration;
  bound_limit : option Z
}.

(** [RoutingCredentialSpec]: identifier, limit and generation *)
Record CredentialSpec := {
  spec_id : RoutingCredentialId;
  spec_limit : option Z;
  spec_generation : GenerationDefinition
}.

(** [CredentialRuntimeHandle::reconcile] *)
Definition handle_reconcile (hd : RegistryHandle) (d : GenerationDefinition) (h : HealthStore)
    : outcome (CredentialGeneration * HealthStore) :=
  if gen_matches (current_generation hd) d then Ret (current_generation hd, h)
  else if gen_matches_routing (current_generation hd) d
  then gen_reuse d (current_generation hd) h
  else gen_new d h.

(** One turn of the loop of [reconcile_configuration] *)
Definition reconcile_spec (spec : CredentialSpec) (reg : CredentialRegistry) (h : HealthStore)
    : outcome (BoundCredential * CredentialRegistry * HealthStore) :=
  match cred_handles reg !! spec_id spec with
  | Some hd =>
    '(g, h) ← handle_reconcile hd (spec_generation spec) h;
    Ret ({| bound_handle := handle_ref hd; bound_generation := g; bound_limit := spec_limit spec |},
         {| cred_handles := <[spec_id spec := {| handle_ref := handle_ref hd;
                                                 current_generation := g |}]> (cred_handles reg);
            cred_runtimes := cred_runtimes reg |}, h)
  | None =>
    '(g, h) ← gen_new (spec_generation spec) h;
    let r := fresh (dom (cred_runtimes reg)) in
    Ret ({| bound_handle := r; bound_generation := g; bound_limit := spec_limit spec |},
         {| cred_handles := <[spec_id spec := {| handle_ref := r; current_generation := g |}]>
                              (cred_handles reg);
            cred_runtimes := <[r := handle_new]> (cred_runtimes reg) |}, h)
  end.

Fixpoint reconcile_specs (specs : list CredentialSpec) (reg : CredentialRegistry) (h : HealthStore)
    : outcome (list BoundCredential * CredentialRegistry * HealthStore) :=
  match specs with
  | [] => Ret ([], reg, h)
  | spec :: specs =>
    '(b, reg, h) ← reconcile_spec spec reg h;
    '(bs, reg, h) ← reconcile_specs specs reg h;
    Ret (b :: bs, reg, h)
  end.

(** [RuntimeRegistry::reconcile_configuration], but for the admissions *)
Definition reconcile_configuration (specs : list CredentialSpec) (reg : CredentialRegistry)
    (h : HealthStore) : outcome (list BoundCredential * CredentialRegistry * HealthStore) :=
  '(bs, reg, h) ← reconcile_specs specs reg h;
  Ret (bs, {| cred_handles := filter (fun kv => kv.1 ∈ (spec_id <$> specs)) (cred_handles reg);
              cred_runtimes := cred_runtimes reg |}, h).

(** * What a publication keeps of credentials *)

(** How the generation [g] of a binding relates to what its handle had *)
Definition generation_kept (old : CredentialGeneration) (d : GenerationDefinition)
    (g : CredentialGeneration) (h h' : HealthStore) : Prop :=
  gen_routing g = def_routing d /\ gen_authentication g = def_authentication d /\
  if gen_matches old d then g = old
  else if gen_matches_routing old d
  then exists auth r, authentications h !! gen_health old = Some (auth, r) /\
         authentications h !! gen_health g = None /\
         authentications h' !! gen_health g = Some (false, r)
  else exists r rt, authentications h !! gen_health g = None /\ routings h !! r = None /\
         authentications h' !! gen_health g = Some (false, r) /\ routings h' !! r = Some rt /\
         credential_cooldown_until rt = None /\ model_cooldowns rt = ∅ /\ quota_exhaustion rt = None.

Lemma gen_new_spec d h g h' : gen_new d h = Ret (g, h') ->
  gen_routing g = def_routing d /\ gen_authentication g = def_authentication d /\
  authentications h ⊆ authentications h' /\ routings h ⊆ routings h' /\
  exists r rt, authentications h !! gen_health g = None /\ routings h !! r = None /\
    authentications h' !! gen_health g = Some (false, r) /\ routings h' !! r = Some rt /\
    credential_cooldown_until rt = None /\ model_cooldowns rt = ∅ /\ quota_exhaustion rt = None.
Proof.
  unfold gen_new. destruct (routing_new (epoch h)) as [[rt e]|] eqn:E; [simpl|done].
  intros; simplify_eq/=.
  assert (routings h !! fresh (dom (routings h)) = None) by apply not_elem_of_dom, is_fresh.
  assert (authentications h !! fresh (dom (authentications h)) = None)
    by apply not_elem_of_dom, is_fresh.
  split_and!; try done; [by apply insert_subseteq|by apply insert_subseteq|].
  exists (fresh (dom (routings h))), rt. rewrite !lookup_insert_eq. split_and!; try done.
  all: unfold routing_new in E; destruct (wake_slot _) as [[s1 e1]|]; simplify_eq/=;
    destruct (wake_slot _) as [[s2 e2]|]; by simplify_eq/=.
Qed.

Lemma handle_reconcile_spec hd d h g h' : handle_reconcile hd d h = Ret (g, h') ->
  generation_kept (current_generation hd) d g h h' /\
  authentications h ⊆ authentications h' /\ routings h ⊆ routings h'.
Proof.
  unfold handle_reconcile, generation_kept. destruct (gen_matches _ d) eqn:Em; [|destruct (gen_matches_routing _ d)].
  - intros; simplify_eq. unfold gen_matches in Em. by bool_to_prop.
  - unfold gen_reuse. destruct (authentications h !! _) as [[auth r]|] eqn:Ea; [simpl|done].
    intros; simplify_eq/=.
    assert (authentications h !! fresh (dom (authentications h)) = None) as Hf
      by apply not_elem_of_dom, is_fresh.
    split; [|split; [by apply insert_subseteq|done]]. split_and!; try done.
    exists auth, r. by rewrite lookup_insert_eq.
  - intros H. apply gen_new_spec in H as (H1 & H2 & H3 & H4 & H5). by split_and!.
Qed.

(** The loop leaves a handle alone until it comes to its credential. *)
Lemma reconcile_specs_spec specs reg h bs reg' h' :
  reconcile_specs specs reg h = Ret (bs, reg', h') -> NoDup (spec_id <$> specs) ->
  cred_runtimes reg ⊆ cred_runtimes reg' /\
  authentications h ⊆ authentications h' /\ routings h ⊆ routings h' /\
  dom (cred_handles reg') = list_to_set (spec_id <$> specs) ∪ dom (cred_handles reg) /\
  (forall id, id ∉ (spec_id <$> specs) -> cred_handles reg' !! id = cred_handles reg !! id) /\
  Forall2 (fun spec b =>
    bound_limit b = spec_limit spec /\
    cred_handles reg' !! spec_id spec =
      Some {| handle_ref := bound_handle b; current_generation := bound_generation b |} /\
    match cred_handles reg !! spec_id spec with
    | Some hd => bound_handle b = handle_ref hd /\
        exists h1 h2, authentications h ⊆ authentications h1 /\ routings h ⊆ routings h1 /\
          authentications h2 ⊆ authentications h' /\ routings h2 ⊆ routings h' /\
          generation_kept (current_generation hd) (spec_generation spec) (bound_generation b) h1 h2
    | None => cred_runtimes reg !! bound_handle b = None /\
        cred_runtimes reg' !! bound_handle b = Some handle_new
    end) specs bs.
Proof.
  revert reg h bs. induction specs as [|spec specs IH]; intros reg h bs; simpl; intros E Hnd.
  { simplify_eq. split_and!; try done; set_solver. }
  apply NoDup_cons in Hnd as [Hni Hnd].
  destruct (reconcile_spec spec reg h) as [[[b reg1] h1]|] eqn:E1; [simpl in E|done].
  destruct (reconcile_specs specs reg1 h1) as [[[bs2 reg2] h2]|] eqn:E2; simplify_eq/=.
  apply IH in E2 as (R2 & A2 & T2 & D2 & K2 & F2); [|done]. clear IH.
  assert (cred_runtimes reg ⊆ cred_runtimes reg1 /\ authentications h ⊆ authentications h1 /\
    routings h ⊆ routings h1 /\
    cred_handles reg1 = <[spec_id spec := {| handle_ref := bound_handle b;
                            current_generation := bound_generation b |}]> (cred_handles reg) /\
    bound_limit b = spec_limit spec /\
    match cred_handles reg !! spec_id spec with
    | Some hd => bound_handle b = handle_ref hd /\
        generation_kept (current_generation hd) (spec_generation spec) (bound_generation b) h h1
    | None => cred_runtimes reg !! bound_handle b = None /\
        cred_runtimes reg1 !! bound_handle b = Some handle_new
    end) as (R1 & A1 & T1 & Hins & Hlim & Hcase).
  { unfold reconcile_spec in E1. destruct (cred_handles reg !! spec_id spec) as [hd|] eqn:Eh.
    - destruct (handle_reconcile hd _ h) as [[g h3]|] eqn:E3; simplify_eq/=.
      apply handle_reconcile_spec in E3 as (? & ? & ?). by split_and!.
    - destruct (gen_new _ h) as [[g h3]|] eqn:E3; simplify_eq/=.
      apply gen_new_spec in E3 as (? & ? & ? & ? & ?).
      assert (cred_runtimes reg !! fresh (dom (cred_runtimes reg)) = None)
        by apply not_elem_of_dom, is_fresh.
      split_and!; try done; [by apply insert_subseteq|apply lookup_insert_eq]. }
  split_and!; try (by etrans).
  - rewrite D2, Hins, dom_insert_L. set_solver.
  - intros id Hid. rewrite K2 by set_solver. rewrite Hins, lookup_insert_ne; [done|set_solver].
  - constructor.
    + split; [done|]. split; [by rewrite (K2 _ Hni), Hins, lookup_insert_eq|].
      destruct (cred_handles reg !! spec_id spec) as [hd|].
      * destruct Hcase as [Hb Hk]. split; [done|]. exists h, h1. by split_and!.
      * destruct Hcase as [Hb Hk]. split; [done|]. by eapply lookup_weaken.
    + rewrite Forall2_lookup in *. intros i. specialize (F2 i).
      destruct (specs !! i) as [spec'|] eqn:Es;
        inversion F2 as [? b' (Hl' & Hh' & Hc')|]; subst; constructor.
      split; [done|]. split; [done|].
      assert (spec_id spec <> spec_id spec') as Hne.
      { intros Heq. apply Hni. rewrite Heq. apply list_elem_of_fmap.
        exists spec'. split; [done|]. by eapply list_elem_of_lookup_2. }
      rewrite Hins, lookup_insert_ne in Hc' by done.
      destruct (cred_handles reg !! spec_id spec') as [hd|].
      * destruct Hc' as (Hb' & h3 & h4 & ? & ? & ? & ? & ?). split; [done|].
        exists h3, h4. split_and!; try done; by etrans.
      * destruct Hc' as [Hf Hn]. split; [|done]. by eapply lookup_weaken_None.
Qed.

(** What a publication does to credentials: exactly the credentials of the new
    configuration have a handle; one that was there keeps its handle, and with it
    its requests in flight, its rate window and its waiters; it keeps its
    generation if neither its routing generation nor its authentication changed;
    a change of the authentication alone (a refreshed token) starts the
    authentication health afresh and shares the routing health, cooldowns and
    quota observations included; a new routing generation starts all of it
    afresh.  Handles of credentials that are gone live on with the requests that
    hold them. *)
Theorem credential_reconcile_exact specs reg h bs reg' h' :
  reconcile_configuration specs reg h = Ret (bs, reg', h') -> NoDup (spec_id <$> specs) ->
  dom (cred_handles reg') = list_to_set (spec_id <$> specs) /\
  (forall r hd, cred_runtimes reg !! r = Some hd -> cred_runtimes reg' !! r = Some hd) /\
  forall i spec b, specs !! i = Some spec -> bs !! i = Some b ->
    bound_limit b = spec_limit spec /\
    match cred_handles reg !! spec_id spec with
    | Some hd => bound_handle b = handle_ref hd /\
        let old := current_generation hd in
        let d := spec_generation spec in
        (gen_matches old d = true -> bound_generation b = old) /\
        (gen_matches old d = false -> gen_matches_routing old d = true ->
           forall auth r, authentications h !! gen_health old = Some (auth, r) ->
             authentications h !! gen_health (bound_generation b) = None /\
             authentications h' !! gen_health (bound_generation b) = Some (false, r)) /\
        (gen_matches_routing old d = false ->
           exists r rt, authentications h' !! gen_health (bound_generation b) = Some (false, r) /\
             routings h !! r = None /\ routings h' !! r = Some rt /\
             credential_cooldown_until rt = None /\ quota_exhaustion rt = None)
    | None => cred_runtimes reg !! bound_handle b = None /\
        cred_runtimes reg' !! bound_handle b = Some handle_new
    end.
Proof.
  unfold reconcile_configuration.
  destruct (reconcile_specs specs reg h) as [[[bs1 reg1] h1]|] eqn:E; [simpl|done].
  intros H Hnd. simplify_eq/=. apply reconcile_specs_spec in E as (R & A & T & D & K & F); [|done].
  split; [|split].
  - apply set_eq. intros id. rewrite elem_of_dom, elem_of_list_to_set. split.
    + intros [x Hx]. by apply map_lookup_filter_Some in Hx as [_ Hx].
    + intros Hid. assert (id ∈ dom (cred_handles reg1)) as [x Hx]%elem_of_dom by (rewrite D; set_solver).
      exists x. by apply map_lookup_filter_Some.
  - intros r hd Hr. by eapply lookup_weaken.
  - intros i spec b Hs Hb. rewrite Forall2_lookup in F. specialize (F i). rewrite Hs, Hb in F.
    inversion F as [? ? (Hl & Hh & Hc)|]; subst. split; [done|].
    destruct (cred_handles reg !! spec_id spec) as [hd|]; [|done].
    destruct Hc as (Hb' & h2 & h3 & A2 & T2 & A3 & T3 & Hr & Ha & Hk). split; [done|]. simpl.
    split_and!.
    + intros Hm. by rewrite Hm in Hk.
    + intros Hm Hrt. rewrite Hm, Hrt in Hk. destruct Hk as (auth & r & Hold & Hnew & Hg).
      intros auth' r' Hold'. pose proof (lookup_weaken _ _ _ _ Hold' A2). simplify_eq.
      split; [by eapply lookup_weaken_None|by eapply lookup_weaken].
    + intros Hrt. assert (gen_matches (current_generation hd) (spec_generation spec) = false) as Hm.
      { unfold gen_matches, gen_matches_routing in *. by rewrite Hrt. }
      rewrite Hm, Hrt in Hk. destruct Hk as (r & rt & Hn1 & Hn2 & Hg & Hrt' & Hc1 & Hc2 & Hc3).
      exists r, rt. split; [by eapply lookup_weaken|]. split; [by eapply lookup_weaken_None|].
      split; [by eapply lookup_weaken|done].
Qed.

(** * Witnesses *)

Definition empty_store : HealthStore :=
  {| endpoints := ∅; proxies := ∅; authentications := ∅; routings := ∅; epoch := epoch_new true |}.
Definition sample_path : EgressPathKey :=
  {| egress_endpoint := 1; egress_endpoint_version := 1; egress_proxy := 2; egress_proxy_version := 1 |}.
Definition sample_base : CandidatePathBaseKey :=
  {| base_target := 9; base_credential := inl 4; base_generation := 1; base_path := sample_path |}.

(** The state after a publication, and after a look-up of the path of its candidate *)
Definition sample_published : outcome (HealthBindings * HealthRegistry * HealthStore) :=
  registry_reconcile [(1, 1)] [(2, 1)] {[ sample_base ]} registry_new empty_store.

Definition sample_check : bool :=
  match sample_published with
  | Ret (_, reg, h) =>
    match egress_path sample_path reg h with
    | Ret (_, reg', _) => bool_decide (is_Some (egress_runtimes reg' !! sample_path))
    | Panic => false
    end
  | Panic => false
  end.
Lemma sample_check_true : sample_check = true.
Proof. vm_compute. reflexivity. Qed.

Lemma sample_published_ret : exists b reg h r reg' h',
  sample_published = Ret (b, reg, h) /\ egress_path sample_path reg h = Ret (r, reg', h') /\
  is_Some (egress_runtimes reg' !! sample_path).
Proof.
  pose proof sample_check_true as H. unfold sample_check in H.
  destruct sample_published as [[[b reg] h]|]; [|done].
  destruct (egress_path sample_path reg h) as [[[r reg'] h']|] eqn:E2; [|done].
  apply bool_decide_eq_true in H. by exists b, reg, h, r, reg', h'.
Qed.

Lemma health_runtimes_private_witness : exists reg : HealthRegistry,
  is_Some (egress_runtimes reg !! sample_path) /\
  forall o o' r, owned reg o = Some r -> owned reg o' = Some r -> o = o'.
Proof.
  destruct sample_published_ret as (b & reg & h & r & reg' & h' & E1 & E2 & Hs).
  exists reg'. split; [exact Hs|].
  apply (health_runtimes_private empty_store reg' h').
  eapply rtc_l; [exists (OpReconcile [(1, 1)] [(2, 1)] {[ sample_base ]});
                 eapply step_reconcile; exact E1|].
  eapply rtc_l; [exists (OpEgressPath sample_path); eapply step_egress; exact E2|]. apply rtc_refl.
Defined.

Lemma health_reconcile_exact_witness : exists b reg h,
  sample_published = Ret (b, reg, h) /\ dom (reg_endpoints reg) = {[ (1, 1) ]} ∪ ∅.
Proof.
  destruct sample_published_ret as (b & reg & h & r & reg' & h' & E1 & E2 & Hs).
  exists b, reg, h. split; [exact E1|].
  exact (proj1 (health_reconcile_exact _ _ _ _ _ _ _ _ E1)).
Defined.

Definition sample_spec (authentication : Z) : CredentialSpec :=
  {| spec_id := inr 5; spec_limit := Some 10;
     spec_generation := {| def_routing := 1; def_authentication := authentication |} |}.

Lemma sample_refreshed : exists bs1 reg1 h1 b reg2 h2 old,
  reconcile_configuration [sample_spec 1] {| cred_handles := ∅; cred_runtimes := ∅ |} empty_store =
    Ret (bs1, reg1, h1) /\
  reconcile_configuration [sample_spec 2] reg1 h1 = Ret ([b], reg2, h2) /\
  cred_handles reg1 !! inr 5 = Some old.
Proof.
  destruct (reconcile_configuration [sample_spec 1] {| cred_handles := ∅; cred_runtimes := ∅ |}
    empty_store) as [[[bs1 reg1] h1]|] eqn:E1; [|by vm_compute in E1].
  destruct (reconcile_configuration [sample_spec 2] reg1 h1) as [[[bs2 reg2] h2]|] eqn:E2;
    vm_compute in E1; injection E1 as <- <- <-; [|by vm_compute in E2].
  vm_compute in E2. injection E2 as <- <- <-.
  do 7 eexists. split_and!; reflexivity.
Qed.

Lemma credential_reconcile_exact_witness : exists b old, bound_handle b = handle_ref old.
Proof.
  destruct sample_refreshed as (bs1 & reg1 & h1 & b & reg2 & h2 & old & E1 & E2 & Hold).
  exists b, old.
  destruct (credential_reconcile_exact _ _ _ _ _ _ E2) as (_ & _ & H);
    [apply NoDup_singleton|].
  destruct (H 0%nat (sample_spec 2) b eq_refl eq_refl) as [_ Hb].
  change (spec_id (sample_spec 2)) with (inr 5 : RoutingCredentialId) in Hb. rewrite Hold in Hb. apply Hb.
Defined.
