(* ===== verification/Catalog.v ===== *)
(** * The configurations of entities

    [ProviderEndpointConfiguration], [ProviderCredentialConfiguration],
    [ProxyConfiguration], [GatewayApiKeyConfiguration] and
    [OAuthAccountConfiguration] of the [domain] crate: what they check, the order
    they keep, and what they find. *)
From S2P Require Import Prelude Search Protocol Text Upstream OAuthErrors Entities.
Local Open Scope Z_scope.

(** The loop of every [Configuration::new]: identifiers and keys seen so far,
    then what else is asked of an entity *)
Section checked.
Context {A K E : Type} `{Countable K}.
Context (id_of : A -> Z) (key_of : A -> K) (duplicate_id duplicate_key : E) (extra : A -> option E).

Fixpoint check_entities (l : list A) (ids : gset Z) (keys : gset K) : result () E :=
  match l with
  | [] => Ok ()
  | x :: l =>
    if decide (id_of x ∈ ids) then Err duplicate_id
    else if decide (key_of x ∈ keys) then Err duplicate_key
    else match extra x with
         | Some e => Err e
         | None => check_entities l ({[ id_of x ]} ∪ ids) ({[ key_of x ]} ∪ keys)
         end
  end.

Definition entity_get (l : list A) (id : Z) : option A := snd <$> list_find (fun x => id_of x = id) l.
End checked.

#[export] Instance provider_kind_countable : Countable ProviderKind.
Proof.
  apply (inj_countable (fun d => list_find (fun x => x = d) all_providers ≫= fun p => Some p.1)
    (fun o => n ← o; all_providers !! n)).
  by intros [].
Defined.
Definition provider_index (p : ProviderKind) : nat :=
  match p with OpenAi => 0 | Codex => 1 | Claude => 2 | Grok => 3 | Kimi => 4 end.

(** Pairs of an integer and a name, in the order of [cmp().then_with()] *)
Definition pair_le (a b : Z * string) : Prop :=
  a.1 < b.1 \/ a.1 = b.1 /\ name_le a.2 b.2.
#[export] Instance pair_le_dec : RelDecision pair_le.
Proof. intros a b. unfold pair_le. apply _. Defined.

Definition endpoint_order (e : ProviderEndpoint) : Z * string :=
  (Z.of_nat (provider_index (ep_provider e)), ep_name e).
Definition credential_order (c : ProviderCredential) : Z * string := (pc_endpoint c, pc_label c).
Definition proxy_order (p : ProxyProfile) : Z * string := (if is_built_in p then 0 else 1, px_name p).
Definition account_order (a : OAuthAccount) : Z * string :=
  (Z.of_nat (provider_index (oa_provider a)), oa_label a).

(** [sort_by] with such an order *)
Definition sort_entities {A} (order : A -> Z * string) (l : list A) : list A :=
  merge_sort (fun a b => pair_le (order a) (order b)) l.

Record ProxyConfiguration := { profiles : list ProxyProfile; global_proxy_id : Z }.

(** [get] *)
Definition endpoint_get : list ProviderEndpoint -> Z -> option ProviderEndpoint := entity_get ep_id.
Definition credential_get : list ProviderCredential -> Z -> option ProviderCredential := entity_get pc_id.
Definition proxy_get (c : ProxyConfiguration) (id : Z) : option ProxyProfile :=
  entity_get px_id (profiles c) id.
Definition key_get : list GatewayApiKey -> Z -> option GatewayApiKey := entity_get gk_id.
Definition account_get : list OAuthAccount -> Z -> option OAuthAccount := entity_get oa_id.

(** [ProxyConfiguration::resolve_oauth] *)
Definition resolve_oauth (c : ProxyConfiguration) (s : OAuthProxySelection) : option ProxyProfile :=
  match s with GlobalProxy => proxy_get c (global_proxy_id c) | Profile id => proxy_get c id end.

Section configurations.
Context (to_lowercase : string -> string).

(** [ProviderEndpointConfiguration::new] *)
Definition endpoints_new (endpoints : list ProviderEndpoint)
    : result (list ProviderEndpoint) ProviderEndpointValidationError :=
  match check_entities ep_id (fun e => to_lowercase (ep_name e)) EndpointDuplicateId
          EndpointDuplicateName (fun _ => None) endpoints ∅ ∅ with
  | Err e => Err e
  | Ok _ => Ok (sort_entities endpoint_order endpoints)
  end.

(** [validate_profiles], [ProxyConfiguration::new] *)
Definition validate_profiles (l : list ProxyProfile) (global : Z) : result () ProxyValidationError :=
  match check_entities px_id (fun p => to_lowercase (px_name p)) ProxyDuplicateId ProxyDuplicateName
          (fun _ => None) l ∅ ∅ with
  | Err e => Err e
  | Ok _ =>
    match entity_get px_id l DIRECT with
    | None => Err MissingDirect
    | Some direct =>
      if negb (is_built_in direct) then Err DirectInvariant
      else match entity_get px_id l global with
           | None => Err GlobalProxyMissing
           | Some global => if negb (px_enabled global) then Err GlobalProxyDisabled else Ok ()
           end
    end
  end.
Definition proxies_new (l : list ProxyProfile) (global : Z)
    : result ProxyConfiguration ProxyValidationError :=
  match validate_profiles l global with
  | Err e => Err e
  | Ok _ => Ok {| profiles := sort_entities proxy_order l; global_proxy_id := global |}
  end.

(** What a credential refers to *)
Definition credential_reference (endpoints : list ProviderEndpoint) (proxies : ProxyConfiguration)
    (c : ProviderCredential) : option ProviderCredentialValidationError :=
  match endpoint_get endpoints (pc_endpoint c) with
  | None => Some CredentialMissingEndpoint
  | Some _ => match proxy_get proxies (pc_proxy c) with
              | None => Some CredentialMissingProxy
              | Some _ => None
              end
  end.

(** [ProviderCredentialConfiguration::new] *)
Definition credentials_new (credentials : list ProviderCredential) (endpoints : list ProviderEndpoint)
    (proxies : ProxyConfiguration)
    : result (list ProviderCredential) ProviderCredentialValidationError :=
  match check_entities pc_id (fun c => (pc_endpoint c, to_lowercase (pc_label c))) CredentialDuplicateId
          DuplicateLabel (credential_reference endpoints proxies) credentials ∅ ∅ with
  | Err e => Err e
  | Ok _ => Ok (sort_entities credential_order credentials)
  end.

(** [with_endpoint_generation_incremented] *)
Definition with_endpoint_generation_incremented (credentials : list ProviderCredential) (endpoint : Z)
    (endpoints : list ProviderEndpoint) (proxies : ProxyConfiguration)
    : result (list ProviderCredential) ProviderCredentialValidationError :=
  match try_map (fun c => if pc_endpoint c =? endpoint then credential_next_generation c else Ok c)
          credentials with
  | Err e => Err e
  | Ok credentials => credentials_new credentials endpoints proxies
  end.

(** The proxy an account selects *)
Definition account_reference (proxies : ProxyConfiguration) (a : OAuthAccount)
    : option OAuthAccountValidationError :=
  match oa_proxy a with
  | Profile id => match proxy_get proxies id with None => Some AccountMissingProxy | Some _ => None end
  | GlobalProxy => None
  end.

(** [OAuthAccountConfiguration::new] *)
Definition accounts_new (accounts : list OAuthAccount) (proxies : ProxyConfiguration)
    : result (list OAuthAccount) OAuthAccountValidationError :=
  match check_entities oa_id (fun a => (oa_provider a, to_lowercase (oa_label a))) AccountDuplicateId
          AccountDuplicateLabel (account_reference proxies) accounts ∅ ∅ with
  | Err e => Err e
  | Ok _ => Ok (sort_entities account_order accounts)
  end.
End configurations.

(** [GatewayApiKeyConfiguration::new] compares each key with those before it. *)
Fixpoint check_keys (before keys : list GatewayApiKey) : result () GatewayApiKeyValidationError :=
  match keys with
  | [] => Ok ()
  | k :: keys =>
    if existsb (fun other => gk_id other =? gk_id k) before then Err KeyDuplicateId
    else if existsb (fun other => bool_decide (to_ascii_lowercase (gk_name other) =
                                               to_ascii_lowercase (gk_name k))) before
    then Err KeyDuplicateName
    else check_keys (before ++ [k]) keys
  end.
Definition key_name_le (a b : GatewayApiKey) : Prop := name_le (gk_name a) (gk_name b).
#[export] Instance key_name_le_dec : RelDecision key_name_le.
Proof. intros a b. unfold key_name_le. apply _. Defined.
Definition keys_new (keys : list GatewayApiKey) : result (list GatewayApiKey) GatewayApiKeyValidationError :=
  match check_keys [] keys with
  | Err e => Err e
  | Ok _ => Ok (merge_sort key_name_le keys)
  end.

(** * What the checks amount to *)

Section checked_facts.
Context {A K E : Type} {key_eq : EqDecision K} {key_countable : Countable K}.
Context (id_of : A -> Z) (key_of : A -> K) (duplicate_id duplicate_key : E) (extra : A -> option E).

Lemma check_entities_from l ids keys :
  check_entities id_of key_of duplicate_id duplicate_key extra l ids keys = Ok () <->
  (NoDup (id_of <$> l) /\ Forall (fun x => id_of x ∉ ids) l) /\
  (NoDup (key_of <$> l) /\ Forall (fun x => key_of x ∉ keys) l) /\ Forall (fun x => extra x = None) l.
Proof.
  revert ids keys. induction l as [|x l IH]; intros ids keys.
  { simpl. split; [|done]. intros _. split_and!; constructor. }
  cbn [check_entities]. rewrite !fmap_cons, !NoDup_cons, !Forall_cons, !list_elem_of_fmap.
  case_decide; [split; [done|]; by intros ((_ & ? & _) & _)|].
  case_decide; [split; [done|]; by intros (_ & (_ & ? & _) & _)|].
  destruct (extra x) eqn:Ex; [split; [done|]; by intros (_ & _ & ? & _)|].
  rewrite IH, !Forall_forall. split.
  - intros ((H1 & H2) & (H3 & H4) & H5). split_and!; try done.
    + intros (y & E1 & Hy). apply (H2 y Hy). set_solver.
    + intros y Hy Hin. apply (H2 y Hy). set_solver.
    + intros (y & E1 & Hy). apply (H4 y Hy). set_solver.
    + intros y Hy Hin. apply (H4 y Hy). set_solver.
  - intros (((H1 & H2) & _ & H3) & ((H4 & H5) & _ & H6) & _ & H7). split_and!; try done.
    + intros y Hy Hin. apply elem_of_union in Hin as [Hin|Hin]; [|by apply (H3 y)].
      apply H1. exists y. set_solver.
    + intros y Hy Hin. apply elem_of_union in Hin as [Hin|Hin]; [|by apply (H6 y)].
      apply H4. exists y. set_solver.
Qed.

Lemma check_entities_Ok l :
  check_entities id_of key_of duplicate_id duplicate_key extra l ∅ ∅ = Ok () <->
  NoDup (id_of <$> l) /\ NoDup (key_of <$> l) /\ Forall (fun x => extra x = None) l.
Proof.
  rewrite check_entities_from. split; [tauto|]. intros (? & ? & ?).
  split_and!; try done; apply Forall_forall; set_solver.
Qed.

Lemma entity_get_Some l id x : NoDup (id_of <$> l) ->
  entity_get id_of l id = Some x <-> x ∈ l /\ id_of x = id.
Proof.
  intros Hnd. unfold entity_get. split.
  - destruct (list_find _ _) as [[n y]|] eqn:E1; intros; simplify_eq/=.
    apply list_find_Some in E1 as (Hn & <- & _). split; [by eapply list_elem_of_lookup_2|done].
  - intros [Hin <-]. destruct (list_find _ _) as [[n y]|] eqn:E1; simpl.
    + apply list_find_Some in E1 as (Hn & Hid & _). apply list_elem_of_lookup in Hin as [k Hk].
      assert (n = k) as ->; [|congruence].
      eapply (NoDup_lookup (id_of <$> l)); [done|by rewrite list_lookup_fmap, Hn|].
      rewrite list_lookup_fmap, Hk. simpl. by rewrite Hid.
    + apply list_find_None in E1. rewrite Forall_forall in E1. by destruct (E1 _ Hin).
Qed.

Lemma entity_get_None l id : entity_get id_of l id = None <-> id ∉ id_of <$> l.
Proof.
  unfold entity_get. destruct (list_find _ _) as [[n y]|] eqn:E1; simpl.
  - apply list_find_Some in E1 as (Hn & <- & _). split; [done|]. intros []. apply list_elem_of_fmap_2.
    by eapply list_elem_of_lookup_2.
  - apply list_find_None in E1. rewrite Forall_forall in E1. split; [|done]. intros _ Hin.
    apply list_elem_of_fmap in Hin as (y & -> & Hy). by apply (E1 y Hy).
Qed.
End checked_facts.

Lemma sort_entities_perm {A} (order : A -> Z * string) l : sort_entities order l ≡ₚ l.
Proof. apply merge_sort_Permutation. Qed.
(** Comparing each key with all before it finds what the sets of the other
    configurations find. *)
Lemma check_keys_entities before keys :
  check_keys before keys =
  check_entities gk_id (fun k => to_ascii_lowercase (gk_name k)) KeyDuplicateId KeyDuplicateName
    (fun _ => None) keys (list_to_set (gk_id <$> before))
    (list_to_set ((fun k => to_ascii_lowercase (gk_name k)) <$> before)).
Proof.
  revert before. induction keys as [|k keys IH]; intros before; [done|].
  cbn [check_keys check_entities].
  assert (existsb (fun other => gk_id other =? gk_id k) before = true <->
    gk_id k ∈ (list_to_set (gk_id <$> before) : gset Z)) as Hid.
  { rewrite existsb_exists, elem_of_list_to_set, list_elem_of_fmap.
    setoid_rewrite list_elem_of_In. setoid_rewrite Z.eqb_eq. naive_solver. }
  assert (existsb (fun other => bool_decide (to_ascii_lowercase (gk_name other) =
      to_ascii_lowercase (gk_name k))) before = true <-> to_ascii_lowercase (gk_name k) ∈
    (list_to_set ((fun k => to_ascii_lowercase (gk_name k)) <$> before) : gset string)) as Hname.
  { rewrite existsb_exists, elem_of_list_to_set, list_elem_of_fmap.
    setoid_rewrite list_elem_of_In. setoid_rewrite bool_decide_eq_true. naive_solver. }
  destruct (existsb (fun other => gk_id other =? _) before), (decide (gk_id k ∈ _)) as [H1|H1];
    [done|by destruct (H1 (proj1 Hid eq_refl))|by apply Hid in H1|].
  destruct (existsb _ before), (decide (to_ascii_lowercase (gk_name k) ∈ _)) as [H2|H2];
    [done|by destruct (H2 (proj1 Hname eq_refl))|by apply Hname in H2|].
  rewrite IH. rewrite !fmap_app, !list_to_set_app_L. f_equal; simpl; set_solver.
Qed.

Lemma check_keys_start keys : check_keys [] keys =
  check_entities gk_id (fun k => to_ascii_lowercase (gk_name k)) KeyDuplicateId KeyDuplicateName
    (fun _ => None) keys ∅ ∅.
Proof. exact (check_keys_entities [] keys). Qed.

Section configuration_facts.
Context (to_lowercase : string -> string).

Lemma endpoints_new_Ok l l' : endpoints_new to_lowercase l = Ok l' <->
  l' = sort_entities endpoint_order l /\ NoDup (ep_id <$> l) /\
  NoDup ((fun e => to_lowercase (ep_name e)) <$> l).
Proof.
  unfold endpoints_new. destruct (check_entities _ _ _ _ _ _ _ _) as [[]|] eqn:E.
  - apply check_entities_Ok in E as (? & ? & _). split; [intros; by simplify_eq|by intros (-> & _)].
  - split; [done|]. intros (_ & H1 & H2).
    rewrite (proj2 (check_entities_Ok ep_id _ _ _ _ l)) in E; [done|]. split_and!; [done..|].
    by apply Forall_true.
Qed.

(** What [credentials_new] and [accounts_new] ask of a reference *)
Definition references (endpoints : list ProviderEndpoint) (proxies : ProxyConfiguration)
    (c : ProviderCredential) : Prop :=
  is_Some (endpoint_get endpoints (pc_endpoint c)) /\ is_Some (proxy_get proxies (pc_proxy c)).
Definition account_references (proxies : ProxyConfiguration) (a : OAuthAccount) : Prop :=
  match oa_proxy a with Profile id => is_Some (proxy_get proxies id) | GlobalProxy => True end.

Lemma credentials_new_Ok l endpoints proxies l' : credentials_new to_lowercase l endpoints proxies = Ok l' <->
  l' = sort_entities credential_order l /\ NoDup (pc_id <$> l) /\
  NoDup ((fun c => (pc_endpoint c, to_lowercase (pc_label c))) <$> l) /\
  Forall (references endpoints proxies) l.
Proof.
  unfold credentials_new. set (extra := credential_reference endpoints proxies).
  assert (forall c, extra c = None <-> references endpoints proxies c) as He.
  { intros c. unfold extra, credential_reference, references. destruct (endpoint_get _ _), (proxy_get _ _); split; try done;
      try (by intros _; split; eexists); by intros [[? ?] [? ?]]. }
  destruct (check_entities _ _ _ _ _ _ _ _) as [[]|] eqn:E.
  - apply check_entities_Ok in E as (? & ? & Hx). split; [intros; simplify_eq|by intros (-> & _)].
    split_and!; try done. eapply Forall_impl; [exact Hx|]. intros c. apply He.
  - split; [done|]. intros (_ & H1 & H2 & H3).
    rewrite (proj2 (check_entities_Ok pc_id _ _ _ extra l)) in E; [done|]. split_and!; [done..|].
    eapply Forall_impl; [exact H3|]. intros c. apply He.
Qed.

Lemma accounts_new_Ok l proxies l' : accounts_new to_lowercase l proxies = Ok l' <->
  l' = sort_entities account_order l /\ NoDup (oa_id <$> l) /\
  NoDup ((fun a => (oa_provider a, to_lowercase (oa_label a))) <$> l) /\
  Forall (account_references proxies) l.
Proof.
  unfold accounts_new. set (extra := account_reference proxies).
  assert (forall a, extra a = None <-> account_references proxies a) as He.
  { intros a. unfold extra, account_reference, account_references. destruct (oa_proxy a); [done|].
    destruct (proxy_get _ _); split; try done; by intros [? ?]. }
  destruct (check_entities _ _ _ _ _ _ _ _) as [[]|] eqn:E.
  - apply check_entities_Ok in E as (? & ? & Hx). split; [intros; simplify_eq|by intros (-> & _)].
    split_and!; try done. eapply Forall_impl; [exact Hx|]. intros c. apply He.
  - split; [done|]. intros (_ & H1 & H2 & H3).
    rewrite (proj2 (check_entities_Ok oa_id _ _ _ extra l)) in E; [done|]. split_and!; [done..|].
    eapply Forall_impl; [exact H3|]. intros c. apply He.
Qed.

Lemma keys_new_Ok l l' : keys_new l = Ok l' <-> l' = merge_sort key_name_le l /\ NoDup (gk_id <$> l) /\
  NoDup ((fun k => to_ascii_lowercase (gk_name k)) <$> l).
Proof.
  unfold keys_new. rewrite check_keys_start. destruct (check_entities _ _ _ _ _ _ _ _) as [[]|] eqn:E.
  - apply check_entities_Ok in E as (? & ? & _). split; [intros; by simplify_eq|by intros (-> & _)].
  - split; [done|]. intros (_ & H1 & H2). rewrite (proj2 (check_entities_Ok gk_id _ _ _ _ l)) in E; [done|].
    split_and!; [done..|]. by apply Forall_true.
Qed.

Lemma proxies_new_Ok l global c : proxies_new to_lowercase l global = Ok c <->
  c = {| profiles := sort_entities proxy_order l; global_proxy_id := global |} /\
  NoDup (px_id <$> l) /\ NoDup ((fun p => to_lowercase (px_name p)) <$> l) /\
  (exists direct, direct ∈ l /\ px_id direct = DIRECT) /\
  (exists g, g ∈ l /\ px_id g = global /\ px_enabled g = true).
Proof.
  unfold proxies_new, validate_profiles. destruct (check_entities _ _ _ _ _ _ _ _) as [[]|] eqn:E.
  - apply check_entities_Ok in E as (Hid & Hn & _).
    destruct (entity_get px_id l DIRECT) as [direct|] eqn:Ed.
    + apply (entity_get_Some px_id _ _ _ Hid) in Ed as [Hd Ed].
      unfold is_built_in. rewrite Ed. simpl.
      destruct (entity_get px_id l global) as [g|] eqn:Eg.
      * apply (entity_get_Some px_id _ _ _ Hid) in Eg as [Hg Eg]. destruct (px_enabled g) eqn:En; simpl.
        -- split; [intros; simplify_eq; by eauto 10|by intros (-> & _)].
        -- split; [done|]. intros (_ & _ & _ & _ & g' & Hg' & Eg' & En').
           assert (g' = g) as ->; [|congruence].
           assert (Some g' = Some g) as [=]; [|done].
           rewrite <- (proj2 (entity_get_Some px_id l global g' Hid) (conj Hg' Eg')).
           by rewrite (proj2 (entity_get_Some px_id l global g Hid) (conj Hg Eg)).
      * split; [done|]. intros (_ & _ & _ & _ & g & Hg & <- & _). apply entity_get_None in Eg.
        destruct Eg. by apply list_elem_of_fmap_2.
    + split; [done|]. intros (_ & _ & _ & (d & Hd & Ed') & _). apply entity_get_None in Ed. destruct Ed.
      rewrite <- Ed'. by apply list_elem_of_fmap_2.
  - split; [done|]. intros (_ & H1 & H2 & _). rewrite (proj2 (check_entities_Ok px_id _ _ _ _ l)) in E; [done|].
    split_and!; [done..|]. by apply Forall_true.
Qed.
End configuration_facts.

Lemma get_of_sorted {A} (id_of : A -> Z) (order : A -> Z * string) l id x : NoDup (id_of <$> l) ->
  entity_get id_of (sort_entities order l) id = Some x <-> x ∈ l /\ id_of x = id.
Proof.
  intros Hnd. pose proof (sort_entities_perm order l) as Hp.
  rewrite (entity_get_Some id_of); [by rewrite Hp|by rewrite Hp].
Qed.

(** A set of configurations that was accepted holds together: whatever was
    given is found under its identifier and nothing else is, every credential
    finds its endpoint and its proxy, every OAuth account finds the proxy it
    selects, the built-in direct proxy is there, and the global proxy is there
    and enabled. *)
Theorem catalog_references_resolve to_lowercase l_p global proxies l_e endpoints l_c credentials
    l_a accounts l_k keys :
  proxies_new to_lowercase l_p global = Ok proxies ->
  endpoints_new to_lowercase l_e = Ok endpoints ->
  credentials_new to_lowercase l_c endpoints proxies = Ok credentials ->
  accounts_new to_lowercase l_a proxies = Ok accounts ->
  keys_new l_k = Ok keys ->
  ((forall id p, proxy_get proxies id = Some p <-> p ∈ l_p /\ px_id p = id) /\
   (forall id e, endpoint_get endpoints id = Some e <-> e ∈ l_e /\ ep_id e = id) /\
   (forall id c, credential_get credentials id = Some c <-> c ∈ l_c /\ pc_id c = id) /\
   (forall id a, account_get accounts id = Some a <-> a ∈ l_a /\ oa_id a = id) /\
   (forall id k, key_get keys id = Some k <-> k ∈ l_k /\ gk_id k = id)) /\
  (forall c, c ∈ credentials -> exists e p,
     endpoint_get endpoints (pc_endpoint c) = Some e /\ proxy_get proxies (pc_proxy c) = Some p) /\
  (forall a, a ∈ accounts -> exists p, resolve_oauth proxies (oa_proxy a) = Some p) /\
  (exists direct, proxy_get proxies DIRECT = Some direct) /\
  (exists g, resolve_oauth proxies GlobalProxy = Some g /\ px_enabled g = true).
Proof.
  intros Hp He Hc Ha Hk.
  apply proxies_new_Ok in Hp as (-> & Hpid & _ & (direct & Hd & Ed) & g & Hg & Eg & En).
  apply endpoints_new_Ok in He as (-> & Heid & _).
  apply credentials_new_Ok in Hc as (-> & Hcid & _ & Href).
  apply accounts_new_Ok in Ha as (-> & Haid & _ & Haref). apply keys_new_Ok in Hk as (-> & Hkid & _).
  assert (forall id p, proxy_get {| profiles := sort_entities proxy_order l_p; global_proxy_id := global |} id
    = Some p <-> p ∈ l_p /\ px_id p = id) as Hget.
  { intros id p. by apply (get_of_sorted px_id proxy_order). }
  assert (exists g, proxy_get {| profiles := sort_entities proxy_order l_p; global_proxy_id := global |} global
    = Some g /\ px_enabled g = true) as Hglobal by (exists g; split; [by apply Hget|done]).
  split_and!; try done.
  - intros id e. by apply (get_of_sorted ep_id endpoint_order).
  - intros id c. by apply (get_of_sorted pc_id credential_order).
  - intros id a. by apply (get_of_sorted oa_id account_order).
  - intros id k. pose proof (merge_sort_Permutation key_name_le l_k) as Hperm. unfold key_get.
    rewrite (entity_get_Some gk_id); by rewrite Hperm.
  - intros c Hc. rewrite (sort_entities_perm credential_order) in Hc. rewrite Forall_forall in Href.
    destruct (Href c Hc) as [[e ?] [p ?]]. by exists e, p.
  - intros a Ha. rewrite (sort_entities_perm account_order) in Ha. rewrite Forall_forall in Haref.
    specialize (Haref a Ha). unfold account_references, resolve_oauth in *. destruct (oa_proxy a).
    + destruct Hglobal as (x & ? & _). by exists x.
    + destruct Haref as [p ?]. by exists p.
  - exists direct. by apply Hget.
Qed.

Definition sample_proxies : ProxyConfiguration := {| profiles := [proxy_direct]; global_proxy_id := DIRECT |}.
Definition sample_endpoint : ProviderEndpoint :=
  {| ep_id := 2; ep_name := "openai"; ep_provider := OpenAi; ep_base_url := "https://x";
     ep_dialect := OpenAiResponses; ep_upstream := None; ep_enabled := true; ep_config_version := 1 |}.
Definition sample_account : OAuthAccount :=
  {| oa_id := 4; oa_provider := Codex; oa_label := "me"; oa_proxy := GlobalProxy; oa_rpm := None;
     oa_enabled := true; oa_email := None; oa_expires_at := None; oa_created_at := "2026-01-01";
     oa_token_version := 1; oa_generation := 1; oa_config_version := 1; oa_models := [] |}.

Lemma catalog_references_resolve_witness :
  credential_get [sample_enabled] 1 = Some sample_enabled /\
  exists p, resolve_oauth sample_proxies (oa_proxy sample_account) = Some p.
Proof.
  pose proof (catalog_references_resolve to_ascii_lowercase [proxy_direct] DIRECT sample_proxies
    [sample_endpoint] [sample_endpoint] [sample_enabled] [sample_enabled] [sample_account]
    [sample_account] [] [] eq_refl eq_refl eq_refl eq_refl eq_refl) as ((_ & _ & Hc & _) & _ & Ha & _).
  split; [apply Hc; split; [left|reflexivity]|apply Ha; left].
Defined.
