(* ===== verification/Routes.v ===== *)
(** * Model routes: names, capabilities and the routes derived from credentials

    Models [domain/src/routing/target.rs], [model_route/route.rs] and
    [configuration.rs], the descriptor of a provider
    ([provider/src/api/descriptor.rs]) and the registry of protocols
    ([protocol/src/registry.rs]) as far as routing asks it.

    Identifiers are integers; those derived by hashing (UUID v5) are parameters. *)
From S2P Require Import Prelude Search Protocol Text Upstream OAuthErrors Entities Catalog.
Local Open Scope Z_scope.

#[export] Instance dialect_countable : Countable ProtocolDialect.
Proof.
  apply (inj_countable (fun d => list_find (fun x => x = d) all_dialects ≫= fun p => Some p.1)
    (fun o => n ← o; all_dialects !! n)).
  by intros [].
Defined.

(** * Capabilities *)

Inductive TransportMode := Json | Sse.
#[export] Instance transport_mode_eq_dec : EqDecision TransportMode.
Proof. solve_decision. Defined.

Inductive OAuthLoginFlow := AuthorizationCodePkce | DeviceCodeFlow.

Record OAuthCapabilities := {
  oauth_operations : list ProtocolOperation;
  login_flow : OAuthLoginFlow;
  quota : bool;
  quota_supplement : bool;
  quota_reset : bool
}.

Record ProviderDescriptor := {
  descriptor_kind : ProviderKind;
  api_key_operations : list ProtocolOperation;
  oauth : option OAuthCapabilities;
  transport_modes : list TransportMode
}.

(** [supports_protocol], [supports_api_key_operation], [supports_oauth_operation],
    [supports_transport_mode] *)
Definition supports_protocol (p : ProviderDescriptor) (d : ProtocolDialect) : bool :=
  existsb (fun o => bool_decide (operation_dialect o = d))
    (api_key_operations p ++ match oauth p with Some o => oauth_operations o | None => [] end).
Definition supports_api_key_operation (p : ProviderDescriptor) (o : ProtocolOperation) : bool :=
  bool_decide (o ∈ api_key_operations p).
Definition supports_oauth_operation (p : ProviderDescriptor) (o : ProtocolOperation) : bool :=
  match oauth p with Some c => bool_decide (o ∈ oauth_operations c) | None => false end.
Definition supports_transport_mode (p : ProviderDescriptor) (m : TransportMode) : bool :=
  bool_decide (m ∈ transport_modes p).

(** [has_duplicates], [ProviderDescriptor::validate] *)
Fixpoint has_duplicates {A} `{EqDecision A} (l : list A) : bool :=
  match l with
  | [] => false
  | x :: l => bool_decide (x ∈ l) || has_duplicates l
  end.
Definition descriptor_validate (p : ProviderDescriptor) : result () string :=
  if bool_decide (api_key_operations p = []) && match oauth p with None => true | Some _ => false end
  then Err "provider has no credential mode"
  else if has_duplicates (api_key_operations p) then Err "API-key operation is duplicated"
  else if has_duplicates (transport_modes p) || bool_decide (transport_modes p = [])
  then Err "transport modes are empty or duplicated"
  else if match oauth p with
          | Some o => bool_decide (oauth_operations o = []) || has_duplicates (oauth_operations o)
          | None => false
          end
  then Err "OAuth operations are empty or duplicated"
  else Ok ().

(** [ProtocolRegistry]: the dialects with an adapter, and the operations of the
    bridge of a pair of dialects *)
Record ProtocolRegistry := {
  adapters : gset ProtocolDialect;
  bridges : gmap (ProtocolDialect * ProtocolDialect) (list ProtocolOperation)
}.

(** [register], [register_bridge] *)
Definition register (r : ProtocolRegistry) (d : ProtocolDialect) : result ProtocolRegistry ProtocolError :=
  if bool_decide (d ∈ adapters r) then Err (DuplicateDialect d)
  else Ok {| adapters := {[ d ]} ∪ adapters r; bridges := bridges r |}.
Definition register_bridge (r : ProtocolRegistry) (ingress upstream : ProtocolDialect)
    (operations : list ProtocolOperation) : result ProtocolRegistry ProtocolError :=
  match bridges r !! (ingress, upstream) with
  | Some _ => Err (DuplicateBridge ingress upstream)
  | None => Ok {| adapters := adapters r; bridges := <[(ingress, upstream) := operations]> (bridges r) |}
  end.

(** [supports_pair], [supports_operation] *)
Definition supports_pair (r : ProtocolRegistry) (ingress upstream : ProtocolDialect) : bool :=
  bool_decide (ingress ∈ adapters r) && bool_decide (upstream ∈ adapters r) &&
  (bool_decide (ingress = upstream) || bool_decide (is_Some (bridges r !! (ingress, upstream)))).
Definition supports_operation (r : ProtocolRegistry) (ingress upstream : ProtocolDialect)
    (o : ProtocolOperation) : bool :=
  if negb (bool_decide (operation_dialect o = ingress)) || negb (supports_pair r ingress upstream)
  then false
  else bool_decide (ingress = upstream) ||
       match bridges r !! (ingress, upstream) with
       | Some operations => bool_decide (o ∈ operations)
       | None => false
       end.

(** * Routes *)

Record RouteTargetDraft := {
  draft_id : Z;
  draft_endpoint : Z;
  draft_upstream_model : string;
  draft_upstream_dialect : ProtocolDialect;
  draft_tier : Z;
  draft_enabled : bool
}.

(** [RouteTarget]: a draft with its route *)
Record RouteTarget := { target_route : Z; target : RouteTargetDraft }.

Record ModelRoute := {
  route_id : Z;
  route_public_model : string;
  route_ingress : ProtocolDialect;
  route_fallback_on_rate_limit : option bool;
  route_enabled : bool;
  route_config_version : Z;
  route_targets : list RouteTarget
}.

Inductive ModelRouteValidationError :=
| InvalidPublicModel (error : ModelNameValidationError)
| InvalidUpstreamModel (error : ModelNameValidationError)
| EmptyTargets
| NoEnabledTarget
| DuplicateTargetId
| DuplicateTarget
| InvalidConfigVersion
| IngressProtocolChanged
| TargetIdentityChanged
| DuplicateRouteId
| DuplicatePublicModel
| ReusedTargetId
| MissingProviderEndpoint (id : Z)
| IncompatibleTargetProtocol (id : Z)
| ConflictingUpstreamModel (endpoint public_model first second : string)
| ConflictingPublicModel (endpoint upstream_model first second : string).

(** [RouteTargetDraft::new] *)
Definition target_draft_new (id endpoint : Z) (upstream : string) (dialect : ProtocolDialect)
    (tier : Z) (enabled : bool) : result RouteTargetDraft ModelRouteValidationError :=
  match model_name_new upstream with
  | Err e => Err (InvalidUpstreamModel e)
  | Ok upstream => Ok {| draft_id := id; draft_endpoint := endpoint; draft_upstream_model := upstream;
                         draft_upstream_dialect := dialect; draft_tier := tier;
                         draft_enabled := enabled |}
  end.

(** [validate_targets]: the loop keeps the identifiers and the identities seen. *)
Fixpoint validate_loop (targets : list RouteTargetDraft) (ids : gset Z)
    (identities : gset (Z * string * ProtocolDialect)) : result () ModelRouteValidationError :=
  match targets with
  | [] => Ok ()
  | t :: targets =>
    let identity := (draft_endpoint t, draft_upstream_model t, draft_upstream_dialect t) in
    if decide (draft_id t ∈ ids) then Err DuplicateTargetId
    else if decide (identity ∈ identities) then Err DuplicateTarget
    else validate_loop targets ({[ draft_id t ]} ∪ ids) ({[ identity ]} ∪ identities)
  end.
Definition validate_targets (route_enabled : bool) (targets : list RouteTargetDraft)
    : result () ModelRouteValidationError :=
  if bool_decide (targets = []) then Err EmptyTargets
  else if route_enabled && negb (existsb draft_enabled targets) then Err NoEnabledTarget
  else validate_loop targets ∅ ∅.

(** The order of [sort_target_drafts]: tier, endpoint, upstream model *)
Definition target_le (a b : RouteTargetDraft) : Prop :=
  draft_tier a < draft_tier b \/
  draft_tier a = draft_tier b /\
  (draft_endpoint a < draft_endpoint b \/
   draft_endpoint a = draft_endpoint b /\
   String.leb (draft_upstream_model a) (draft_upstream_model b) = true).
#[export] Instance target_le_dec : RelDecision target_le.
Proof. intros a b. unfold target_le. apply _. Defined.

(** [ModelRouteDraft::new] and [ModelRoute::create] of it *)
Definition route_create (id : Z) (public : string) (ingress : ProtocolDialect)
    (fallback : option bool) (enabled : bool) (targets : list RouteTargetDraft)
    : result ModelRoute ModelRouteValidationError :=
  match validate_targets enabled targets with
  | Err e => Err e
  | Ok _ =>
    match model_name_new public with
    | Err e => Err (InvalidPublicModel e)
    | Ok public =>
      Ok {| route_id := id; route_public_model := public; route_ingress := ingress;
            route_fallback_on_rate_limit := fallback; route_enabled := enabled;
            route_config_version := 1;
            route_targets := (fun t => {| target_route := id; target := t |})
                             <$> merge_sort target_le targets |}
    end
  end.

#[export] Instance target_draft_eq_dec : EqDecision RouteTargetDraft.
Proof. solve_decision. Defined.
#[export] Instance route_target_eq_dec : EqDecision RouteTarget.
Proof. solve_decision. Defined.
#[export] Instance model_route_eq_dec : EqDecision ModelRoute.
Proof. solve_decision. Defined.

(** [RouteTarget::updated], of a target found under the identifier of the draft *)
Definition target_updated (t : RouteTarget) (d : RouteTargetDraft)
    : result RouteTarget ModelRouteValidationError :=
  if bool_decide (draft_endpoint (target t) = draft_endpoint d) &&
     bool_decide (draft_upstream_model (target t) = draft_upstream_model d) &&
     bool_decide (draft_upstream_dialect (target t) = draft_upstream_dialect d)
  then Ok {| target_route := target_route t; target := d |}
  else Err TargetIdentityChanged.

(** The last target under an identifier, as collecting into a map keeps it *)
Definition find_target (targets : list RouteTarget) (id : Z) : option RouteTarget :=
  snd <$> list_find (fun t => draft_id (target t) = id) (rev targets).

(** [ModelRoute::updated], with the parts of a draft *)
Definition route_updated (r : ModelRoute) (public : string) (ingress : ProtocolDialect)
    (fallback : option bool) (enabled : bool) (drafts : list RouteTargetDraft)
    : result ModelRoute ModelRouteValidationError :=
  if negb (bool_decide (route_ingress r = ingress)) then Err IngressProtocolChanged
  else
    match try_map (fun d => match find_target (route_targets r) (draft_id d) with
                            | Some current => target_updated current d
                            | None => Ok {| target_route := route_id r; target := d |}
                            end) drafts with
    | Err e => Err e
    | Ok targets =>
      let updated :=
        {| route_id := route_id r; route_public_model := public; route_ingress := ingress;
           route_fallback_on_rate_limit := fallback; route_enabled := enabled;
           route_config_version := route_config_version r;
           route_targets := merge_sort (fun a b => target_le (target a) (target b)) targets |} in
      if decide (updated = r) then Ok r
      else match next_valid_version InvalidConfigVersion (route_config_version r) with
           | Err e => Err e
           | Ok v =>
             Ok {| route_id := route_id updated; route_public_model := route_public_model updated;
                   route_ingress := route_ingress updated;
                   route_fallback_on_rate_limit := route_fallback_on_rate_limit updated;
                   route_enabled := route_enabled updated; route_config_version := v;
                   route_targets := route_targets updated |}
           end
    end.

(** * The configuration of routes *)

(** [ModelRouteConfiguration::new]: the checks of one route's targets *)
Fixpoint check_targets (endpoints : list ProviderEndpoint) (ingress : ProtocolDialect)
    (targets : list RouteTarget) (ids : gset Z) : result (gset Z) ModelRouteValidationError :=
  match targets with
  | [] => Ok ids
  | t :: targets =>
    if decide (draft_id (target t) ∈ ids) then Err ReusedTargetId
    else
      match endpoint_get endpoints (draft_endpoint (target t)) with
      | None => Err (MissingProviderEndpoint (draft_endpoint (target t)))
      | Some e =>
        if bool_decide (ep_dialect e = ingress) &&
           bool_decide (effective_upstream e = draft_upstream_dialect (target t))
        then check_targets endpoints ingress targets ({[ draft_id (target t) ]} ∪ ids)
        else Err (IncompatibleTargetProtocol (draft_endpoint (target t)))
      end
  end.

Fixpoint check_routes (endpoints : list ProviderEndpoint) (routes : list ModelRoute)
    (route_ids : gset Z) (keys : gset (ProtocolDialect * string)) (target_ids : gset Z)
    : result () ModelRouteValidationError :=
  match routes with
  | [] => Ok ()
  | r :: routes =>
    if decide (route_id r ∈ route_ids) then Err DuplicateRouteId
    else if decide ((route_ingress r, route_public_model r) ∈ keys) then Err DuplicatePublicModel
    else match check_targets endpoints (route_ingress r) (route_targets r) target_ids with
         | Err e => Err e
         | Ok target_ids =>
           check_routes endpoints routes ({[ route_id r ]} ∪ route_ids)
             ({[ (route_ingress r, route_public_model r) ]} ∪ keys) target_ids
         end
  end.

(** Dialects and routes in the order [Ord] gives them *)
Definition dialect_index (d : ProtocolDialect) : nat :=
  match d with
  | OpenAiResponses => 0 | OpenAiChatCompletions => 1 | OpenAiImages => 2 | AnthropicMessages => 3
  end.
Definition key_le (a b : ProtocolDialect * string) : Prop :=
  (dialect_index a.1 < dialect_index b.1)%nat \/
  dialect_index a.1 = dialect_index b.1 /\ String.leb a.2 b.2 = true.
#[export] Instance key_le_dec : RelDecision key_le.
Proof. intros a b. unfold key_le. apply _. Defined.

Definition route_key (r : ModelRoute) : ProtocolDialect * string :=
  (route_ingress r, route_public_model r).

(** [ModelRouteConfiguration::new] *)
Definition routes_new (routes : list ModelRoute) (endpoints : list ProviderEndpoint)
    : result (list ModelRoute) ModelRouteValidationError :=
  match check_routes endpoints routes ∅ ∅ ∅ with
  | Err e => Err e
  | Ok _ => Ok (merge_sort (fun a b => key_le (route_key a) (route_key b)) routes)
  end.

(** [get], [resolve] *)
Definition route_get (routes : list ModelRoute) (id : Z) : option ModelRoute :=
  snd <$> list_find (fun r => route_id r = id) routes.
Definition resolve (routes : list ModelRoute) (ingress : ProtocolDialect) (public : string)
    : option ModelRoute :=
  snd <$> list_find (fun r => route_ingress r = ingress /\ route_public_model r = public) routes.

(** * Routes derived from credentials *)

(** [RouteGroups], and what each endpoint publishes *)
Abbreviation RouteGroups := (gmap (ProtocolDialect * string) (gmap Z string)) (only parsing).
Abbreviation Published := (gmap (Z * string) string) (only parsing).

(** [register_endpoint_model] *)
Definition register_endpoint_model (groups : RouteGroups) (published : Published)
    (e : ProviderEndpoint) (upstream public : string)
    : result (RouteGroups * Published) ModelRouteValidationError :=
  match published !! (ep_id e, upstream) with
  | Some existing =>
    if decide (existing = public) then
      match (groups !! (ep_dialect e, public)) ≫= (fun g => g !! ep_id e) with
      | Some first =>
        if decide (first = upstream) then Ok (groups, published)
        else Err (ConflictingUpstreamModel (ep_name e) public first upstream)
      | None =>
        Ok (<[(ep_dialect e, public) :=
               <[ep_id e := upstream]> (default ∅ (groups !! (ep_dialect e, public)))]> groups,
            published)
      end
    else Err (ConflictingPublicModel (ep_name e) upstream existing public)
  | None =>
    let published := <[(ep_id e, upstream) := public]> published in
    match (groups !! (ep_dialect e, public)) ≫= (fun g => g !! ep_id e) with
    | Some first =>
      if decide (first = upstream) then Ok (groups, published)
      else Err (ConflictingUpstreamModel (ep_name e) public first upstream)
    | None =>
      Ok (<[(ep_dialect e, public) :=
             <[ep_id e := upstream]> (default ∅ (groups !! (ep_dialect e, public)))]> groups,
          published)
    end
  end.

Fixpoint register_models (groups : RouteGroups) (published : Published) (e : ProviderEndpoint)
    (models : list ProviderCredentialModel)
    : result (RouteGroups * Published) ModelRouteValidationError :=
  match models with
  | [] => Ok (groups, published)
  | m :: models =>
    match register_endpoint_model groups published e (upstream_name m) (public_name m) with
    | Err e => Err e
    | Ok (groups, published) => register_models groups published e models
    end
  end.

Fixpoint register_credentials (endpoints : list ProviderEndpoint) (groups : RouteGroups)
    (published : Published) (credentials : list ProviderCredential)
    : result (RouteGroups * Published) ModelRouteValidationError :=
  match credentials with
  | [] => Ok (groups, published)
  | c :: credentials =>
    match endpoint_get endpoints (pc_endpoint c) with
    | None => Err (MissingProviderEndpoint (pc_endpoint c))
    | Some e =>
      match register_models groups published e (pc_models c) with
      | Err e => Err e
      | Ok (groups, published) => register_credentials endpoints groups published credentials
      end
    end
  end.

(** A group in the order of its endpoints *)
Definition endpoint_le (a b : Z * string) : Prop := a.1 <= b.1.
#[export] Instance endpoint_le_dec : RelDecision endpoint_le.
Proof. intros a b. unfold endpoint_le. apply _. Defined.

Section derived.
(** [derived_route_id], [derived_target_id]: UUIDs of namespaces *)
Context (derived_route_id : ProtocolDialect -> string -> Z).
Context (derived_target_id : Z -> Z -> ProtocolDialect -> string -> Z).

(** The targets of one group; its endpoints were looked up before. *)
Fixpoint derive_targets (endpoints : list ProviderEndpoint) (id : Z) (l : list (Z * string))
    : outcome (result (list RouteTargetDraft) ModelRouteValidationError) :=
  match l with
  | [] => Ret (Ok [])
  | (endpoint, upstream) :: l =>
    e ← expect (endpoint_get endpoints endpoint);
    match target_draft_new (derived_target_id id endpoint (effective_upstream e) upstream)
            endpoint upstream (effective_upstream e) 0 true with
    | Err e => Ret (Err e)
    | Ok t =>
      ts ← derive_targets endpoints id l;
      Ret (match ts with Err e => Err e | Ok ts => Ok (t :: ts) end)
    end
  end.

Definition derive_route (endpoints : list ProviderEndpoint)
    (group : (ProtocolDialect * string) * gmap Z string)
    : outcome (result ModelRoute ModelRouteValidationError) :=
  let '((dialect, public), by_endpoint) := group in
  let id := derived_route_id dialect public in
  ts ← derive_targets endpoints id (merge_sort endpoint_le (map_to_list by_endpoint));
  Ret (match ts with
       | Err e => Err e
       | Ok ts => route_create id public dialect None true ts
       end).

Fixpoint derive_routes (endpoints : list ProviderEndpoint)
    (groups : list ((ProtocolDialect * string) * gmap Z string))
    : outcome (result (list ModelRoute) ModelRouteValidationError) :=
  match groups with
  | [] => Ret (Ok [])
  | group :: groups =>
    r ← derive_route endpoints group;
    match r with
    | Err e => Ret (Err e)
    | Ok route =>
      rs ← derive_routes endpoints groups;
      Ret (match rs with Err e => Err e | Ok routes => Ok (route :: routes) end)
    end
  end.

(** [ModelRouteConfiguration::from_credentials] *)
Definition from_credentials (credentials : list ProviderCredential)
    (endpoints : list ProviderEndpoint) : outcome (result (list ModelRoute) ModelRouteValidationError) :=
  match register_credentials endpoints ∅ ∅ credentials with
  | Err e => Ret (Err e)
  | Ok (groups, _) =>
    rs ← derive_routes endpoints
           (merge_sort (fun a b => key_le a.1 b.1) (map_to_list groups));
    Ret (match rs with Err e => Err e | Ok routes => routes_new routes endpoints end)
  end.
End derived.

(** * What the derivation of routes guarantees *)

(** Some credential of endpoint [i] serves upstream model [u] as [p]. *)
Definition offers (endpoints : list ProviderEndpoint) (credentials : list ProviderCredential)
    (i : Z) (u p : string) : Prop :=
  exists c e m, c ∈ credentials /\ endpoint_get endpoints (pc_endpoint c) = Some e /\ ep_id e = i /\
    m ∈ pc_models c /\ upstream_name m = u /\ public_name m = p.

Definition speaks (endpoints : list ProviderEndpoint) (i : Z) (d : ProtocolDialect) : Prop :=
  exists e, endpoint_get endpoints i = Some e /\ ep_dialect e = d.

Lemma endpoint_get_id endpoints i e : endpoint_get endpoints i = Some e ->
  ep_id e = i /\ endpoint_get endpoints (ep_id e) = Some e.
Proof.
  unfold endpoint_get, entity_get. destruct (list_find _ _) as [[n x]|] eqn:E; intros; simplify_eq/=.
  destruct (proj1 (list_find_Some _ _ _ _) E) as (_ & Hid & _). split; [done|]. by rewrite Hid, E.
Qed.

Section registered.
Context (endpoints : list ProviderEndpoint).

(** The maps hold exactly the triples [T] registered so far. *)
Record registered (T : Z -> string -> string -> Prop) (groups : RouteGroups) (published : Published)
    : Prop := {
  rg_published : forall i u p, published !! (i, u) = Some p <-> T i u p;
  rg_groups : forall d p i u, (exists g, groups !! (d, p) = Some g /\ g !! i = Some u) <->
    T i u p /\ speaks endpoints i d;
  rg_nonempty : forall k g, groups !! k = Some g -> g <> ∅
}.

Lemma register_spec T groups published e u p groups' published' :
  registered T groups published -> endpoint_get endpoints (ep_id e) = Some e ->
  register_endpoint_model groups published e u p = Ok (groups', published') ->
  registered (fun i u' p' => T i u' p' \/ (i, u', p') = (ep_id e, u, p)) groups' published'.
Proof.
  intros [HA HB HC] He H.
  assert (published' = <[(ep_id e, u) := p]> published /\
    (published !! (ep_id e, u) = None \/ published !! (ep_id e, u) = Some p) /\
    ((groups' = groups /\ exists g, groups !! (ep_dialect e, p) = Some g /\ g !! ep_id e = Some u) \/
     groups' = <[(ep_dialect e, p) := <[ep_id e := u]> (default ∅ (groups !! (ep_dialect e, p)))]> groups /\
     (forall g, groups !! (ep_dialect e, p) = Some g -> g !! ep_id e = None)))
    as (-> & Hpub & Hgr).
  { unfold register_endpoint_model in H. destruct (published !! (ep_id e, u)) as [x|] eqn:Ep;
      destruct (groups !! (ep_dialect e, p)) as [g|] eqn:Eg; simpl in H;
      try destruct (g !! ep_id e) as [f|] eqn:Ef; repeat (destruct (decide _); try done); simplify_eq;
      (split; [first [done|by rewrite insert_id]|]; split; [auto|]);
      first [left; split; [done|]; by eauto | right; split; [by rewrite ?Eg|]; by intros; simplify_eq]. }
  constructor.
  - intros i u' p'. rewrite lookup_insert_Some, HA. destruct (decide ((i, u') = (ep_id e, u))) as [E|E].
    + simplify_eq. split; [intros [[_ ->]|[? _]]; [by right|done]|].
      intros [HT|E]; [|simplify_eq; by left]. left. split; [done|]. apply HA in HT.
      destruct Hpub; congruence.
    + split; [intros [[? _]|[_ ?]]; [congruence|by left]|].
      intros [HT|E']; [right; split; [congruence|done]|congruence].
  - intros d p' i u'. destruct Hgr as [[-> Hg]|[-> Hnone]].
    + rewrite HB. split; [by intros [? ?]; auto|]. intros [[HT|E] Hd]; [by split|].
      simplify_eq. apply HB in Hg as [HT _]. by split.
    + destruct (decide ((d, p') = (ep_dialect e, p))) as [E|E]; simplify_eq.
      * split.
        -- intros (g & Hg & Hi). rewrite lookup_insert_eq in Hg. simplify_eq.
           apply lookup_insert_Some in Hi as [[<- <-]|[Hne Hi]].
           ++ split; [by right|]. by exists e.
           ++ assert (exists g, groups !! (ep_dialect e, p) = Some g /\ g !! i = Some u') as Hx.
              { destruct (groups !! _) as [g|]; simpl in Hi; [by eauto|by rewrite lookup_empty in Hi]. }
              apply HB in Hx as [? ?]. auto.
        -- intros [[HT|E] Hd].
           ++ destruct (proj2 (HB _ _ _ _) (conj HT Hd)) as (g & Hg & Hi). exists (<[ep_id e := u]> g).
              rewrite lookup_insert_eq, Hg. split; [done|]. rewrite lookup_insert_ne; [done|].
              intros <-. rewrite (Hnone _ Hg) in Hi. done.
           ++ simplify_eq. eexists. rewrite lookup_insert_eq. split; [done|]. apply lookup_insert_eq.
      * rewrite lookup_insert_ne by congruence. rewrite HB. split; [intros [? ?]; auto|].
        intros [[HT|E'] Hd]; [by split|]. simplify_eq. destruct Hd as (e' & He' & <-).
        rewrite He in He'. by simplify_eq.
  - intros k g Hg. destruct Hgr as [[-> _]|[-> _]]; [eauto|].
    apply lookup_insert_Some in Hg as [[_ <-]|[_ ?]]; [apply insert_non_empty|eauto].
Qed.

Lemma registered_ext T T' groups published : (forall i u p, T i u p <-> T' i u p) ->
  registered T groups published -> registered T' groups published.
Proof. intros HT [HA HB HC]. constructor; [| |done]; intros; by rewrite <- HT. Qed.

Lemma register_models_spec T groups published e models groups' published' :
  registered T groups published -> endpoint_get endpoints (ep_id e) = Some e ->
  register_models groups published e models = Ok (groups', published') ->
  registered (fun i u p => T i u p \/ i = ep_id e /\
    exists m, m ∈ models /\ upstream_name m = u /\ public_name m = p) groups' published'.
Proof.
  intros Hr He. revert T groups published Hr. induction models as [|m models IH];
    intros T groups published Hr H; simpl in H.
  - simplify_eq. eapply registered_ext; [|exact Hr]. intros. split; [by left|].
    intros [?|(_ & x & Hx & _)]; [done|by apply elem_of_nil in Hx].
  - destruct (register_endpoint_model _ _ _ _ _) as [[g1 p1]|] eqn:E; [|done].
    eapply register_spec in E; [|done|done]. eapply IH in H; [|exact E].
    eapply registered_ext; [|exact H]. intros i u p. split.
    + intros [[?|E']|(-> & x & Hx & ? & ?)]; [by left| |].
      * simplify_eq. right. split; [done|]. exists m. split; [by left|done].
      * right. split; [done|]. exists x. split; [by right|done].
    + intros [?|(-> & x & Hx & <- & <-)]; [auto|]. apply elem_of_cons in Hx as [->|Hx]; [auto|].
      right. split; [done|]. eauto.
Qed.

Lemma register_credentials_spec T groups published credentials groups' published' :
  registered T groups published ->
  register_credentials endpoints groups published credentials = Ok (groups', published') ->
  registered (fun i u p => T i u p \/ offers endpoints credentials i u p) groups' published'.
Proof.
  revert T groups published. induction credentials as [|c credentials IH];
    intros T groups published Hr H; simpl in H.
  - simplify_eq. eapply registered_ext; [|exact Hr]. intros. split; [by left|].
    intros [?|(x & _ & _ & Hx & _)]; [done|by apply elem_of_nil in Hx].
  - destruct (endpoint_get endpoints (pc_endpoint c)) as [e|] eqn:Ee; [|done].
    destruct (endpoint_get_id _ _ _ Ee) as [Hid Hget].
    destruct (register_models _ _ _ _) as [[g1 p1]|] eqn:E; [|done].
    eapply register_models_spec in E; [|done|done]. eapply IH in H; [|exact E].
    eapply registered_ext; [|exact H]. intros i u p. unfold offers. split.
    + intros [[?|(-> & m & Hm & ? & ?)]|(c' & e' & m & Hc & ?)]; [by left| |].
      * right. exists c, e, m. split; [by left|]. by split_and!.
      * right. exists c', e', m. split; [by right|done].
    + intros [?|(c' & e' & m & Hc & He' & <- & Hm & Hu & Hp)]; [auto|].
      apply elem_of_cons in Hc as [->|Hc].
      * left. right. simplify_eq. split; [done|]. eauto.
      * right. exists c', e', m. by split_and!.
Qed.

Lemma registered_start : registered (fun _ _ _ => False) ∅ ∅.
Proof.
  constructor; [by intros; rewrite lookup_empty| |by intros ? ?; rewrite lookup_empty].
  intros. split; [intros (g & Hg & _); by rewrite lookup_empty in Hg|tauto].
Qed.
End registered.

Lemma resolve_Some routes d p r : NoDup (route_key <$> routes) ->
  resolve routes d p = Some r <-> r ∈ routes /\ route_key r = (d, p).
Proof.
  intros Hnd. unfold resolve. split.
  - destruct (list_find _ _) as [[n x]|] eqn:E; intros; simplify_eq/=.
    apply list_find_Some in E as (Hn & [<- <-] & _). split; [by eapply list_elem_of_lookup_2|done].
  - intros [Hin Hk]. destruct (list_find _ _) as [[n x]|] eqn:E; simpl.
    + apply list_find_Some in E as (Hn & [Hd Hp] & _). f_equal.
      apply list_elem_of_lookup in Hin as [k Hk'].
      assert (n = k) as ->.
      { eapply (NoDup_lookup (route_key <$> routes)); [done|rewrite list_lookup_fmap, Hn; done|].
        rewrite list_lookup_fmap, Hk'. simpl. unfold route_key in *. congruence. }
      congruence.
    + apply list_find_None in E. rewrite Forall_forall in E. destruct (E _ Hin).
      unfold route_key in Hk. by simplify_eq.
Qed.

Section derived_facts.
Context (derived_route_id : ProtocolDialect -> string -> Z).
Context (derived_target_id : Z -> Z -> ProtocolDialect -> string -> Z).
Context (endpoints : list ProviderEndpoint).

Definition target_pair (t : RouteTargetDraft) : Z * string := (draft_endpoint t, draft_upstream_model t).

Lemma target_draft_pair id i u d tier enabled t :
  target_draft_new id i u d tier enabled = Ok t -> target_pair t = (i, u).
Proof. unfold target_draft_new, model_name_new. intros H. by repeat case_match; simplify_eq. Qed.

Lemma derive_targets_spec id l : (forall x, x ∈ l -> is_Some (endpoint_get endpoints x.1)) ->
  exists r, derive_targets derived_target_id endpoints id l = Ret r /\
    forall ts, r = Ok ts -> target_pair <$> ts = l.
Proof.
  induction l as [|[i u] l IH]; intros Hl; simpl.
  { eexists. split; [done|]. intros ? ?. by simplify_eq. }
  destruct (Hl (i, u)) as [e He]; [by left|]. simpl in He. rewrite He. simpl.
  destruct (target_draft_new _ _ _ _ _ _) as [t|] eqn:Et; [|by eexists].
  apply target_draft_pair in Et.
  destruct IH as (r & -> & Hr); [intros x Hx; apply Hl; by right|]. simpl. eexists. split; [done|].
  intros ts. destruct r as [ts'|]; intros; simplify_eq/=. by rewrite Hr, Et.
Qed.

(** A route stands for its group. *)
Definition route_of (group : (ProtocolDialect * string) * gmap Z string) (r : ModelRoute) : Prop :=
  route_key r = group.1 /\ target_pair <$> (target <$> route_targets r) ≡ₚ map_to_list group.2.

Lemma derive_route_spec group : (forall i u, group.2 !! i = Some u -> is_Some (endpoint_get endpoints i)) ->
  exists r, derive_route derived_route_id derived_target_id endpoints group = Ret r /\
    forall route, r = Ok route -> route_of group route.
Proof.
  destruct group as [[d p] g]. intros Hg. simpl in *.
  destruct (derive_targets_spec (derived_route_id d p) (merge_sort endpoint_le (map_to_list g)))
    as (r & -> & Hr).
  { intros [i u] Hx. rewrite merge_sort_Permutation in Hx. apply elem_of_map_to_list in Hx.
    by eapply Hg. }
  simpl. eexists. split; [done|]. intros route Hroute. destruct r as [ts|]; [|done].
  unfold route_create, model_name_new in Hroute. repeat case_match; simplify_eq.
  split; [done|]. simpl. rewrite <- !list_fmap_compose. change (target_pair ∘ target ∘ _) with target_pair.
  rewrite merge_sort_Permutation, (Hr _ eq_refl). apply merge_sort_Permutation.
Qed.

Lemma derive_routes_spec groups :
  (forall group, group ∈ groups -> forall i u, group.2 !! i = Some u -> is_Some (endpoint_get endpoints i)) ->
  exists r, derive_routes derived_route_id derived_target_id endpoints groups = Ret r /\
    forall routes, r = Ok routes -> Forall2 route_of groups routes.
Proof.
  induction groups as [|g groups IH]; intros Hg; cbn [derive_routes].
  { eexists. split; [done|]. intros ? ?. simplify_eq. constructor. }
  destruct (derive_route_spec g) as (r & -> & Hr); [apply Hg; by left|]. simpl.
  destruct r as [route|]; [|by eexists].
  destruct IH as (rs & -> & Hrs); [intros; eapply Hg; [by right|done]|]. simpl. eexists. split; [done|].
  intros routes ?. destruct rs; simplify_eq. constructor; auto.
Qed.

Lemma routes_of_keys groups routes : Forall2 route_of groups routes -> route_key <$> routes = groups.*1.
Proof. induction 1 as [|g r ? ? [Hk _] ? IH]; [done|]. rewrite !fmap_cons. by f_equal. Qed.
End derived_facts.

(** C33. The routes derived from credentials are exactly what the credentials
    offer: the derivation never panics, and when it succeeds, the route of a
    dialect and a public model has a target for an endpoint and an upstream
    model iff some credential of that endpoint serves that upstream model under
    that public name and the endpoint speaks the dialect. No endpoint then
    publishes one upstream model under two names, or one name for two models. *)
Theorem derived_routes_exact route_ids target_ids credentials endpoints :
  exists r, from_credentials route_ids target_ids credentials endpoints = Ret r /\
  forall routes, r = Ok routes ->
  (forall d p i u,
     (exists route t, resolve routes d p = Some route /\ t ∈ route_targets route /\
        draft_endpoint (target t) = i /\ draft_upstream_model (target t) = u) <->
     offers endpoints credentials i u p /\ speaks endpoints i d) /\
  (forall i u p p', offers endpoints credentials i u p -> offers endpoints credentials i u p' -> p = p') /\
  (forall i u u' p, offers endpoints credentials i u p -> offers endpoints credentials i u' p -> u = u').
Proof.
  unfold from_credentials.
  destruct (register_credentials endpoints ∅ ∅ credentials) as [[groups published]|] eqn:E;
    [|by eexists; split; [done|]; intros].
  apply (register_credentials_spec _ (fun _ _ _ => False)) in E; [|by apply registered_start].
  eapply registered_ext with (T' := offers endpoints credentials) in E; [|tauto].
  destruct E as [HA HB HC]. set (sorted := merge_sort _ (map_to_list groups)).
  assert (Hs : sorted ≡ₚ map_to_list groups) by apply merge_sort_Permutation.
  destruct (derive_routes_spec route_ids target_ids endpoints sorted) as (rs & -> & Hrs).
  { intros [[d p] g] Hg i u Hi. rewrite Hs in Hg. apply elem_of_map_to_list in Hg. simpl in *.
    destruct (proj1 (HB d p i u)) as [_ (e & He & _)]; eauto. }
  simpl. eexists. split; [done|]. intros routes Hroutes.
  destruct rs as [rs|]; [|done]. specialize (Hrs _ eq_refl).
  unfold routes_new in Hroutes. destruct (check_routes _ _ _ _ _); [|done]. simplify_eq.
  set (routes := merge_sort _ rs). assert (Hp : routes ≡ₚ rs) by apply merge_sort_Permutation.
  assert (Hnd : NoDup (route_key <$> routes)).
  { rewrite Hp, (routes_of_keys _ _ Hrs), Hs. apply NoDup_fst_map_to_list. }
  split; [|split].
  - intros d p i u. rewrite <- HB. split.
    + intros (route & t & Hr & Ht & <- & <-). apply (resolve_Some _ _ _ _ Hnd) in Hr as [Hr Hk].
      rewrite Hp in Hr. apply list_elem_of_lookup in Hr as [n Hn].
      destruct (Forall2_lookup_r _ _ _ _ _ Hrs Hn) as ([k g] & Hg & Hk' & Hts). simpl in *.
      exists g. split.
      * apply elem_of_map_to_list. rewrite <- Hs. rewrite <- Hk, Hk'. by eapply list_elem_of_lookup_2.
      * apply elem_of_map_to_list. rewrite <- Hts.
        apply (list_elem_of_fmap_2 target_pair). by apply list_elem_of_fmap_2.
    + intros (g & Hg & Hi). assert (Hin : ((d, p), g) ∈ sorted).
      { rewrite Hs. by apply elem_of_map_to_list. }
      apply list_elem_of_lookup in Hin as [n Hn].
      destruct (Forall2_lookup_l _ _ _ _ _ Hrs Hn) as (route & Hroute & Hk & Hts). simpl in *.
      assert (Hiu : (i, u) ∈ target_pair <$> (target <$> route_targets route)).
      { rewrite Hts. by apply elem_of_map_to_list. }
      apply list_elem_of_fmap in Hiu as (t' & Ht' & Hin). apply list_elem_of_fmap in Hin as (t & -> & Ht).
      exists route, t. unfold target_pair in Ht'. simplify_eq. split_and!; try done.
      apply (resolve_Some _ _ _ _ Hnd). rewrite Hp. split; [by eapply list_elem_of_lookup_2|done].
  - intros i u p p' H1 H2. apply HA in H1, H2. congruence.
  - intros i u u' p H1 H2. assert (exists d, speaks endpoints i d) as [d Hd].
    { destruct H1 as (c & e & m & _ & He & <- & _). exists (ep_dialect e), e. split; [|done].
      by eapply endpoint_get_id. }
    destruct (proj2 (HB d p i u)) as (g & Hg & Hi); [done|].
    destruct (proj2 (HB d p i u')) as (g' & Hg' & Hi'); [done|]. congruence.
Qed.

(** Two credentials of one endpoint and one of another share a public model. *)
Definition route_endpoint (id : Z) : ProviderEndpoint :=
  {| ep_id := id; ep_name := "endpoint"; ep_provider := OpenAi; ep_base_url := "https://x";
     ep_dialect := OpenAiResponses; ep_upstream := None; ep_enabled := true; ep_config_version := 1 |}.
Definition route_credential (id endpoint : Z) (upstream : string) : ProviderCredential :=
  credential_with (credential_create id endpoint (sample_draft true) sample_fingerprint)
    sample_fingerprint 1 1 1 [{| upstream_name := upstream; public_alias := Some "gpt" |}].
Definition derived_sample : list (Z * string) :=
  match from_credentials (fun _ _ => 7) (fun _ endpoint _ _ => endpoint)
          [route_credential 1 20 "a"; route_credential 2 10 "b"; route_credential 3 20 "a"]
          [route_endpoint 10; route_endpoint 20] with
  | Ret (Ok routes) =>
    match resolve routes OpenAiResponses "gpt" with
    | Some r => (fun t => target_pair (target t)) <$> route_targets r
    | None => []
    end
  | _ => []
  end.
Example derived_sample_routes : derived_sample = [(10, "b"); (20, "a")].
Proof. vm_compute. reflexivity. Qed.
