(* ===== verification/OAuthLogin.v ===== *)
(** * OAuth logins: sessions, device polls and the callback

    Models [runtime/src/oauth/login/session.rs], [session/store.rs],
    [callback.rs], [token_request.rs] and the login flows of
    [runtime/src/oauth/coordinator.rs].

    The store is one map under one lock, so an operation is one step.  A poll
    of a device session takes the session out of the store and leaves a
    [Polling] mark with a fresh generation in its place; the lease that carries
    the session puts it back, or ends it, only while its mark is still there.
    Leases are owned values: the history below keeps them in a list, and a lease
    leaves the list with the one call that consumes it.  URLs ([url]), random
    bytes, SHA-256 with base64, and the provider drivers are parameters. *)
From S2P Require Import Prelude Protocol Text Upstream OAuthErrors.
From Stdlib Require Import Ascii.
Local Open Scope Z_scope.

(** * Sessions *)

Definition CALLBACK_SESSION_TTL_SECONDS : Z := 600.
Definition MAX_DEVICE_SESSION_TTL_SECONDS : Z := 30 * 60.
Definition DEVICE_SLOW_DOWN_SECONDS : Z := 5.
Definition MAX_ACTIVE_SESSIONS : nat := 64.

Record AuthorizationCodeSession := {
  code_provider : ProviderKind;
  redirect_uri : string;
  code_proxy_selection : OAuthProxySelection;
  code_state : string;
  code_verifier : string;
  code_expires_at : Instant
}.

Record DeviceCodeSession := {
  device_provider : ProviderKind;
  device_proxy_selection : OAuthProxySelection;
  device_code : string;
  poll_interval_seconds : Z;
  next_poll_at : Instant;
  device_expires_at : Instant
}.

(** [Instant + Duration]: panics when the sum is not an instant. *)
Definition instant_add (t : Instant) (d : Duration) : outcome Instant :=
  expect (instant_checked_add t d).

(** [Duration::as_secs] and [subsec_nanos] *)
Definition as_secs (d : Duration) : Z := d / 1000000000.
Definition subsec_nanos (d : Duration) : Z := d mod 1000000000.

Record PreparedAuthorizationCodeSession := {
  prepared_code_id : string;
  prepared_code_state : string;
  code_challenge : string;
  prepared_code : AuthorizationCodeSession
}.

Record PreparedDeviceCodeSession := {
  prepared_device_id : string;
  prepared_expires_in_seconds : Z;
  prepared_poll_interval_seconds : Z;
  prepared_device : DeviceCodeSession
}.

(** [AuthorizationCodeSession::prepare].  [random] is what the three calls of
    [random_urlsafe] give; [challenge] is the base64 of the SHA-256 digest. *)
Definition code_prepare (challenge : string -> string) (provider : ProviderKind)
    (proxy_selection : OAuthProxySelection) (redirect : string) (now : Instant)
    (random : option string * option string * option string)
    : outcome (result PreparedAuthorizationCodeSession OAuthError) :=
  let '(r1, r2, r3) := random in
  match r1, r2, r3 with
  | Some id, Some state, Some verifier =>
    expires_at ← instant_add now (secs CALLBACK_SESSION_TTL_SECONDS);
    Ret (Ok {| prepared_code_id := id; prepared_code_state := state;
               code_challenge := challenge verifier;
               prepared_code :=
                 {| code_provider := provider; redirect_uri := redirect;
                    code_proxy_selection := proxy_selection; code_state := state;
                    code_verifier := verifier; code_expires_at := expires_at |} |})
  | _, _, _ => Ret (Err RandomGeneration)
  end.

(** [DeviceCodeSession::prepare] *)
Definition device_prepare (provider : ProviderKind) (proxy_selection : OAuthProxySelection)
    (device : string) (expires_in poll_interval : Z) (now : Instant) (random : option string)
    : outcome (result PreparedDeviceCodeSession OAuthError) :=
  if bool_decide (trim device = "") || (expires_in =? 0) || (poll_interval =? 0)
  then Ret (Err TokenResponseInvalid)
  else
    let expires_in := Z.min expires_in MAX_DEVICE_SESSION_TTL_SECONDS in
    let poll_interval := Z.min poll_interval expires_in in
    match random with
    | None => Ret (Err RandomGeneration)
    | Some id =>
      expires_at ← instant_add now (secs expires_in);
      Ret (Ok {| prepared_device_id := id;
                 prepared_expires_in_seconds := expires_in;
                 prepared_poll_interval_seconds := poll_interval;
                 prepared_device :=
                   {| device_provider := provider; device_proxy_selection := proxy_selection;
                      device_code := device; poll_interval_seconds := poll_interval;
                      next_poll_at := now; device_expires_at := expires_at |} |})
    end.

(** [DeviceCodeSession::retry_after] *)
Definition device_retry_after (s : DeviceCodeSession) (now : Instant)
    : result (option Z) OAuthError :=
  if device_expires_at s <=? now then Err SessionExpired
  else Ok (if now <? next_poll_at s then
             let remaining := saturating_duration_since (next_poll_at s) now in
             Some (saturating_add u64_max (as_secs remaining)
                     (if 0 <? subsec_nanos remaining then 1 else 0))
           else None).

(** [DeviceCodeSession::defer] *)
Definition defer (s : DeviceCodeSession) (now : Instant) (slow_down : bool)
    : outcome (result (DeviceCodeSession * Z) OAuthError) :=
  if device_expires_at s <=? now then Ret (Err SessionExpired)
  else
    let interval :=
      if slow_down
      then Z.min (saturating_add u64_max (poll_interval_seconds s) DEVICE_SLOW_DOWN_SECONDS)
                 MAX_DEVICE_SESSION_TTL_SECONDS
      else poll_interval_seconds s in
    let remaining := Z.max (as_secs (saturating_duration_since (device_expires_at s) now)) 1 in
    let retry_after := Z.min interval remaining in
    next ← instant_add now (secs retry_after);
    Ret (Ok ({| device_provider := device_provider s;
                device_proxy_selection := device_proxy_selection s;
                device_code := device_code s;
                poll_interval_seconds := interval;
                next_poll_at := next;
                device_expires_at := device_expires_at s |}, retry_after)).

(** * The store *)

Inductive DeviceSessionState :=
| Ready (session : DeviceCodeSession)
| Polling (generation : Z) (expires_at : Instant).

Inductive OAuthSession :=
| AuthorizationCode (session : AuthorizationCodeSession)
| DeviceCode (state : DeviceSessionState).

(** [OAuthSession::expires_at] *)
Definition session_expires_at (s : OAuthSession) : Instant :=
  match s with
  | AuthorizationCode s => code_expires_at s
  | DeviceCode (Ready s) => device_expires_at s
  | DeviceCode (Polling _ expires_at) => expires_at
  end.

Record OAuthSessionStore := {
  sessions : gmap string OAuthSession;
  next_poll_generation : Z
}.

Definition store_default : OAuthSessionStore :=
  {| sessions := ∅; next_poll_generation := 0 |}.

Definition set_sessions (st : OAuthSessionStore) (m : gmap string OAuthSession)
    : OAuthSessionStore :=
  {| sessions := m; next_poll_generation := next_poll_generation st |}.

Inductive StorePollAcquisition :=
| PollReady (generation : Z) (session : DeviceCodeSession)
| PollPending (retry_after_seconds : Z).

(** [OAuthSessionStore::insert] *)
Definition store_insert (st : OAuthSessionStore) (id : string) (session : OAuthSession)
    (now : Instant) : OAuthSessionStore * result () OAuthError :=
  let kept := filter (fun kv => now < session_expires_at kv.2) (sessions st) in
  if bool_decide (MAX_ACTIVE_SESSIONS <= size kept)%nat
  then (set_sessions st kept, Err SessionCapacity)
  else (set_sessions st (<[id := session]> kept), Ok ()).

(** [OAuthSessionStore::take_authorization_code] *)
Definition take_authorization_code (st : OAuthSessionStore) (id : string) (now : Instant)
    : OAuthSessionStore * result AuthorizationCodeSession OAuthError :=
  match sessions st !! id with
  | None => (st, Err InvalidSession)
  | Some session =>
    let removed := delete id (sessions st) in
    if session_expires_at session <=? now then (set_sessions st removed, Err SessionExpired)
    else match session with
         | AuthorizationCode s => (set_sessions st removed, Ok s)
         | other => (set_sessions st (<[id := other]> removed), Err InvalidSession)
         end
  end.

(** [OAuthSessionStore::acquire_device_poll] *)
Definition acquire_device_poll (st : OAuthSessionStore) (id : string) (now : Instant)
    : OAuthSessionStore * result StorePollAcquisition OAuthError :=
  match sessions st !! id with
  | None => (st, Err InvalidSession)
  | Some session =>
    let removed := delete id (sessions st) in
    if session_expires_at session <=? now then (set_sessions st removed, Err SessionExpired)
    else match session with
         | DeviceCode (Ready s) =>
           match device_retry_after s now with
           | Err e => (set_sessions st removed, Err e)
           | Ok (Some retry_after_seconds) =>
             (set_sessions st (<[id := DeviceCode (Ready s)]> removed),
              Ok (PollPending retry_after_seconds))
           | Ok None =>
             let generation := wrapping_add_u64 (next_poll_generation st) 1 in
             ({| sessions := <[id := DeviceCode (Polling generation (device_expires_at s))]> removed;
                 next_poll_generation := generation |},
              Ok (PollReady generation s))
           end
         | DeviceCode (Polling _ _) =>
           (set_sessions st (<[id := session]> removed), Ok (PollPending 1))
         | other => (set_sessions st (<[id := other]> removed), Err InvalidSession)
         end
  end.

(** [OAuthSessionStore::poll_generation] *)
Definition poll_generation (st : OAuthSessionStore) (id : string) : option Z :=
  match sessions st !! id with
  | Some (DeviceCode (Polling generation _)) => Some generation
  | _ => None
  end.

(** [OAuthSessionStore::restore_device_poll] *)
Definition restore_device_poll (st : OAuthSessionStore) (id : string) (generation : Z)
    (session : DeviceCodeSession) : OAuthSessionStore :=
  if bool_decide (poll_generation st id = Some generation)
  then set_sessions st (<[id := DeviceCode (Ready session)]> (sessions st))
  else st.

(** [OAuthSessionStore::finish_device_poll] *)
Definition finish_device_poll (st : OAuthSessionStore) (id : string) (generation : Z)
    : OAuthSessionStore :=
  if bool_decide (poll_generation st id = Some generation)
  then set_sessions st (delete id (sessions st))
  else st.

(** * Leases *)

(** [DevicePollLease], while it still owns its session *)
Record DevicePollLease := {
  lease_id : string;
  lease_generation : Z;
  lease_session : DeviceCodeSession
}.

(** [DevicePollLease::restore] *)
Definition lease_restore (st : OAuthSessionStore) (l : DevicePollLease) (now : Instant)
    (slow_down : bool) : outcome (OAuthSessionStore * result Z OAuthError) :=
  r ← defer (lease_session l) now slow_down;
  Ret (match r with
       | Ok (session, retry_after_seconds) =>
         (restore_device_poll st (lease_id l) (lease_generation l) session,
          Ok retry_after_seconds)
       | Err error => (finish_device_poll st (lease_id l) (lease_generation l), Err error)
       end).

(** [DevicePollLease::finish] *)
Definition lease_finish (st : OAuthSessionStore) (l : DevicePollLease) : OAuthSessionStore :=
  finish_device_poll st (lease_id l) (lease_generation l).

(** [DevicePollLease::drop], of a lease that still owns its session *)
Definition lease_drop (st : OAuthSessionStore) (l : DevicePollLease) (now : Instant)
    : outcome OAuthSessionStore :=
  r ← defer (lease_session l) now false;
  Ret (match r with
       | Ok (session, _) => restore_device_poll st (lease_id l) (lease_generation l) session
       | Err _ => finish_device_poll st (lease_id l) (lease_generation l)
       end).

Inductive DevicePollAcquisition :=
| AcquisitionReady (lease : DevicePollLease)
| AcquisitionPending (retry_after_seconds : Z).

(** [OAuthSessionRegistry::acquire_device_poll] *)
Definition registry_acquire_device_poll (st : OAuthSessionStore) (id : string) (now : Instant)
    : OAuthSessionStore * result DevicePollAcquisition OAuthError :=
  let '(st, r) := acquire_device_poll st id now in
  (st, match r with
       | Err e => Err e
       | Ok (PollReady generation session) =>
         Ok (AcquisitionReady {| lease_id := id; lease_generation := generation;
                                 lease_session := session |})
       | Ok (PollPending n) => Ok (AcquisitionPending n)
       end).

(** * The callback *)

(** [url::Url], as far as the callback reads it *)
Class UrlApi := {
  Url : Type;
  url_parse : string -> option Url;
  scheme : Url -> string;
  username : Url -> string;
  password : Url -> option string;
  host_str : Url -> option string;
  port_or_known_default : Url -> option Z;
  url_path : Url -> string;
  query_pairs : Url -> list (string * string);
  fragment : Url -> option string
}.

Definition MAX_CALLBACK_URL_BYTES : nat := Z.to_nat (16 * 1024).
Definition MAX_AUTHORIZATION_CODE_BYTES : nat := Z.to_nat (8 * 1024).

(** [str::split_once] at one ASCII character *)
Fixpoint split_once (sep : ascii) (s : string) : option (string * string) :=
  match s with
  | EmptyString => None
  | String c s =>
    if Ascii.eqb c sep then Some ("", s)
    else match split_once sep s with
         | Some (a, b) => Some (String c a, b)
         | None => None
         end
  end.

Section callback.
Context {url_api : UrlApi}.

(** [same_callback_target] *)
Definition same_callback_target (callback redirect : Url) : bool :=
  bool_decide (scheme callback = scheme redirect) &&
  bool_decide (username callback = username redirect) &&
  bool_decide (password callback = password redirect) &&
  bool_decide (host_str callback = host_str redirect) &&
  bool_decide (port_or_known_default callback = port_or_known_default redirect) &&
  bool_decide (url_path callback = url_path redirect).

(** The loop over the query: the first [code], the first [state], and whether
    there is an [error] *)
Fixpoint query_loop (pairs : list (string * string)) (code state : option string) (denied : bool)
    : option string * option string * bool :=
  match pairs with
  | [] => (code, state, denied)
  | (key, value) :: pairs =>
    if bool_decide (key = "code") && bool_decide (code = None)
    then query_loop pairs (Some value) state denied
    else if bool_decide (key = "state") && bool_decide (state = None)
    then query_loop pairs code (Some value) denied
    else if bool_decide (key = "error") then query_loop pairs code state true
    else query_loop pairs code state denied
  end.

(** The code without the state appended to it, and the state to compare *)
Definition code_and_state (callback : Url) (code : string) (state : option string)
    : result (string * option string) OAuthError :=
  match split_once "#" code with
  | Some (plain_code, embedded_state) =>
    match state with
    | Some query_state =>
      if bool_decide (query_state = embedded_state) then Ok (plain_code, Some embedded_state)
      else Err StateMismatch
    | None => Ok (plain_code, Some embedded_state)
    end
  | None =>
    match state, fragment callback with
    | None, Some f => Ok (code, if bool_decide (f = "") then None else Some f)
    | _, _ => Ok (code, state)
    end
  end.

(** [callback::parse]; [constant_time_eq] decides equality. *)
Definition callback_parse (value redirect_uri expected_state : string)
    : result string OAuthError :=
  if bool_decide (value = "") || bool_decide (MAX_CALLBACK_URL_BYTES < String.length value)%nat
  then Err InvalidCallback
  else
    match url_parse value, url_parse redirect_uri with
    | Some callback, Some redirect =>
      if negb (same_callback_target callback redirect) then Err InvalidCallback
      else
        let '(code, state, denied) := query_loop (query_pairs callback) None None false in
        if denied then Err AuthorizationDenied
        else
          match code with
          | None => Err InvalidCallback
          | Some code =>
            match code_and_state callback code state with
            | Err e => Err e
            | Ok (code, state) =>
              if bool_decide (code = "") ||
                 bool_decide (MAX_AUTHORIZATION_CODE_BYTES < String.length code)%nat
              then Err InvalidCallback
              else match state with
                   | None => Err InvalidCallback
                   | Some state =>
                     if bool_decide (state = expected_state) then Ok code else Err StateMismatch
                   end
            end
          end
    | _, _ => Err InvalidCallback
    end.
End callback.

(** * Reading the answer of the token endpoint *)

Definition MAX_TOKEN_RESPONSE_BYTES : Z := 64 * 1024.

(** What [timeout(TOKEN_READ_TIMEOUT, body.next())] gives *)
Inductive BodyEvent :=
| ReadTimedOut
| ReadChunk (chunk : list Byte.byte)
| ReadFailed (error : TransportError).

(** [collect]; the body ends where the list does. *)
Fixpoint collect (body : list BodyEvent) (collected : list Byte.byte)
    : result (list Byte.byte) OAuthError :=
  match body with
  | [] => Ok collected
  | ReadTimedOut :: _ => Err TokenReadTimeout
  | ReadFailed e :: _ => Err (OAuthTransport e)
  | ReadChunk chunk :: body =>
    if MAX_TOKEN_RESPONSE_BYTES <? saturating_add usize_max (Zlen collected) (Zlen chunk)
    then Err TokenResponseTooLarge
    else collect body (collected ++ chunk)
  end.

(** [execute_response] after [start], and [execute] *)
Definition execute_response (response : result (Z * list BodyEvent) OAuthError)
    : result (Z * list Byte.byte) OAuthError :=
  match response with
  | Err e => Err e
  | Ok (status, body) =>
    match collect body [] with Ok bytes => Ok (status, bytes) | Err e => Err e end
  end.
Definition execute (response : result (Z * list BodyEvent) OAuthError)
    : result (list Byte.byte) OAuthError :=
  match execute_response response with
  | Err e => Err e
  | Ok (status, bytes) =>
    if (200 <=? status) && (status <? 300) then Ok bytes else Err (TokenRejected status)
  end.

(** * The flows of the service *)

Section flows.
Context {url_api : UrlApi} {Token Account : Type}.

Inductive OAuthDeviceTokenPoll :=
| TokenPending
| TokenSlowDown
| TokenAuthorized (token : Token)
| TokenDenied
| TokenExpired.

Inductive OAuthDevicePollResult :=
| ResultPending (retry_after_seconds : Z)
| ResultComplete (account : Account).

(** What the driver, the transport and the activation answer to one poll; the
    body of an answer is read by [execute_response]. *)
Record PollAnswers := {
  poll_driver : bool;
  poll_device_flow : bool;
  poll_plan : result () ProviderError;
  poll_response : result (Z * list BodyEvent) OAuthError;
  parse_oauth_device_token : Z -> list Byte.byte -> result OAuthDeviceTokenPoll ProviderError;
  poll_activation : Token -> result Account OAuthError
}.

(** [poll_device] up to its verdict: an error on the way drops the lease. *)
Definition poll_verdict (provider : ProviderKind) (ans : PollAnswers)
    : result OAuthDeviceTokenPoll OAuthError :=
  if negb (poll_driver ans) then Err ProviderUnavailable
  else if negb (poll_device_flow ans) then Err (UnsupportedProvider provider)
  else match poll_plan ans with
       | Err e => Err (OAuthProvider e)
       | Ok _ =>
         match execute_response (poll_response ans) with
         | Err e => Err e
         | Ok (status, body) => map_err from_token_response_error
                                  (parse_oauth_device_token ans status body)
         end
       end.

(** [poll_device] once it holds the lease *)
Definition poll_complete (st : OAuthSessionStore) (lease : DevicePollLease) (ans : PollAnswers)
    (now : Instant) : outcome (OAuthSessionStore * result OAuthDevicePollResult OAuthError) :=
  match poll_verdict (device_provider (lease_session lease)) ans with
  | Err e => st ← lease_drop st lease now; Ret (st, Err e)
  | Ok TokenPending =>
    '(st, r) ← lease_restore st lease now false;
    Ret (st, match r with Ok n => Ok (ResultPending n) | Err e => Err e end)
  | Ok TokenSlowDown =>
    '(st, r) ← lease_restore st lease now true;
    Ret (st, match r with Ok n => Ok (ResultPending n) | Err e => Err e end)
  | Ok (TokenAuthorized token) =>
    Ret (lease_finish st lease,
         match poll_activation ans token with Ok a => Ok (ResultComplete a) | Err e => Err e end)
  | Ok TokenDenied => Ret (lease_finish st lease, Err AuthorizationDenied)
  | Ok TokenExpired => Ret (lease_finish st lease, Err SessionExpired)
  end.

(** What the driver, the transport and the activation answer to an exchange *)
Record ExchangeAnswers := {
  exchange_driver : bool;
  exchange_code_flow : bool;
  exchange_token_flow : bool;
  exchange_plan : string -> string -> string -> result () ProviderError;
  exchange_response : result (Z * list BodyEvent) OAuthError;
  parse_oauth_token_response : list Byte.byte -> result Token ProviderError;
  exchange_activation : Token -> result Account OAuthError
}.

(** [exchange], past the session it took *)
Definition exchange_code (session : AuthorizationCodeSession) (callback_url : string)
    (ans : ExchangeAnswers) : result Account OAuthError :=
  match callback_parse callback_url (redirect_uri session) (code_state session) with
  | Err e => Err e
  | Ok code =>
    if negb (exchange_driver ans) then Err ProviderUnavailable
    else if negb (exchange_code_flow ans && exchange_token_flow ans)
    then Err (UnsupportedProvider (code_provider session))
    else match exchange_plan ans code (code_state session) (code_verifier session) with
         | Err e => Err (OAuthProvider e)
         | Ok _ =>
           match execute (exchange_response ans) with
           | Err e => Err e
           | Ok body =>
             match parse_oauth_token_response ans body with
             | Err e => Err (from_token_response_error e)
             | Ok token => exchange_activation ans token
             end
           end
         end
  end.

(** [exchange] *)
Definition exchange (st : OAuthSessionStore) (session_id callback_url : string) (now : Instant)
    (ans : ExchangeAnswers) : OAuthSessionStore * result Account OAuthError :=
  let '(st, r) := take_authorization_code st session_id now in
  (st, match r with
       | Err e => Err e
       | Ok session => exchange_code session callback_url ans
       end).

(** * Histories of the login service *)

Record Login := { login_store : OAuthSessionStore; login_leases : list DevicePollLease }.

Definition login_default : Login := {| login_store := store_default; login_leases := [] |}.

(** The calls that touch the store, in the order the lock serialises them.
    Starts insert the session they prepared; [OpPollComplete] and
    [OpPollCancel] consume the lease at an index, the latter when the future is
    dropped while it waits. *)
Inductive login_op :=
| OpStartCode (id : string) (session : AuthorizationCodeSession) (now : Instant)
| OpStartDevice (id : string) (session : DeviceCodeSession) (now : Instant)
| OpExchange (id callback_url : string) (now : Instant) (ans : ExchangeAnswers)
| OpPollBegin (id : string) (now : Instant)
| OpPollComplete (lease : nat) (ans : PollAnswers) (now : Instant)
| OpPollCancel (lease : nat) (now : Instant).

Definition with_store (s : Login) (st : OAuthSessionStore) : Login :=
  {| login_store := st; login_leases := login_leases s |}.
Definition consume (s : Login) (i : nat) (st : OAuthSessionStore) : Login :=
  {| login_store := st; login_leases := delete i (login_leases s) |}.

Inductive login_step : login_op -> Login -> Login -> Prop :=
| step_start_code id session now s :
    login_step (OpStartCode id session now) s
      (with_store s (store_insert (login_store s) id (AuthorizationCode session) now).1)
| step_start_device id session now s :
    login_step (OpStartDevice id session now) s
      (with_store s (store_insert (login_store s) id (DeviceCode (Ready session)) now).1)
| step_exchange id url now ans s :
    login_step (OpExchange id url now ans) s
      (with_store s (exchange (login_store s) id url now ans).1)
| step_poll_ready id now s st lease :
    registry_acquire_device_poll (login_store s) id now = (st, Ok (AcquisitionReady lease)) ->
    login_step (OpPollBegin id now) s
      {| login_store := st; login_leases := login_leases s ++ [lease] |}
| step_poll_other id now s st r :
    registry_acquire_device_poll (login_store s) id now = (st, r) ->
    (forall lease, r <> Ok (AcquisitionReady lease)) ->
    login_step (OpPollBegin id now) s (with_store s st)
| step_poll_complete i ans now s lease st r :
    login_leases s !! i = Some lease ->
    poll_complete (login_store s) lease ans now = Ret (st, r) ->
    login_step (OpPollComplete i ans now) s (consume s i st)
| step_poll_cancel i now s lease st :
    login_leases s !! i = Some lease ->
    lease_drop (login_store s) lease now = Ret st ->
    login_step (OpPollCancel i now) s (consume s i st).

Inductive login_run : list login_op -> Login -> Login -> Prop :=
| run_nil s : login_run [] s s
| run_cons op ops s1 s2 s3 :
    login_step op s1 s2 -> login_run ops s2 s3 -> login_run (op :: ops) s1 s3.

(** Whether an operation starts a session under [id] *)
Definition starts (id : string) (op : login_op) : bool :=
  match op with
  | OpStartCode id' _ _ | OpStartDevice id' _ _ => bool_decide (id' = id)
  | _ => false
  end.
End flows.
Arguments OAuthDeviceTokenPoll Token : clear implicits.
Arguments OAuthDevicePollResult Account : clear implicits.
Arguments PollAnswers Token Account : clear implicits.
Arguments ExchangeAnswers Token Account : clear implicits.
Arguments login_op Token Account : clear implicits.

(** * Pacing of the control plane *)

(** The gates of [OAuthControlPlanePacer]: the instant the next request of a
    provider may start *)
Abbreviation pacer_gates := (ProviderKind -> option Instant) (only parsing).

(** The readings of the clock of one call of [wait]: as it looks up its gate,
    as it has locked it, and as it starts *)
Record PacerCall := {
  call_provider : ProviderKind;
  call_entry : Instant;
  call_now : Instant;
  call_started : Instant
}.

(** [gates.entry(provider).or_insert_with(..)] *)
Definition pacer_gate (gates : pacer_gates) (c : PacerCall) : Instant :=
  default (call_entry c) (gates (call_provider c)).

(** [OAuthControlPlanePacer::wait], for a call that is not dropped *)
Definition pacer_wait (interval : Duration) (gates : pacer_gates) (c : PacerCall)
    : outcome pacer_gates :=
  if interval =? 0 then Ret gates
  else next ← instant_add (call_started c) interval;
       Ret (fun p => if decide (p = call_provider c) then Some next else gates p).

(** The clock runs forwards, and [sleep_until] wakes no earlier than asked. *)
Definition pacer_slept (gates : pacer_gates) (c : PacerCall) : Prop :=
  call_entry c <= call_now c <= call_started c /\
  (call_now c < pacer_gate gates c -> pacer_gate gates c <= call_started c).

(** Calls in the order they hold their gates *)
Inductive pacer_run (interval : Duration) : pacer_gates -> list PacerCall -> Prop :=
| pacer_done gates : pacer_run interval gates []
| pacer_next gates gates' c calls :
    pacer_slept gates c -> pacer_wait interval gates c = Ret gates' ->
    pacer_run interval gates' calls -> pacer_run interval gates (c :: calls).

(** * Deferring a poll *)

(** What [prepare] gives a device session and every poll keeps *)
Definition device_ok (s : DeviceCodeSession) : Prop :=
  1 <= poll_interval_seconds s <= MAX_DEVICE_SESSION_TTL_SECONDS.

(** The clock is not within half an hour of its end. *)
Definition clock_room (now : Instant) : Prop :=
  now + secs MAX_DEVICE_SESSION_TTL_SECONDS <= instant_max.

Lemma instant_add_ret t d : t + d <= instant_max -> instant_add t d = Ret (t + d).
Proof.
  intros H. unfold instant_add, instant_checked_add, checked_add.
  by rewrite (proj2 (Z.leb_le _ _) H).
Qed.

Lemma instant_add_inv t d x : instant_add t d = Ret x -> x = t + d.
Proof. unfold instant_add, instant_checked_add, checked_add. case_match; by intros; simplify_eq/=. Qed.

Lemma defer_expired s now b : device_expires_at s <= now -> defer s now b = Ret (Err SessionExpired).
Proof. intros H. unfold defer. by rewrite (proj2 (Z.leb_le _ _) H). Qed.

(** [defer] hands out the wait that [retry_after] then reports. *)
Lemma defer_spec s now b : device_ok s -> clock_room now -> now < device_expires_at s ->
  exists s' n, defer s now b = Ret (Ok (s', n)) /\ device_ok s' /\
    device_code s' = device_code s /\ device_expires_at s' = device_expires_at s /\
    device_provider s' = device_provider s /\
    1 <= n <= poll_interval_seconds s' /\ next_poll_at s' = now + secs n /\
    device_retry_after s' now = Ok (Some n).
Proof.
  unfold device_ok, clock_room, MAX_DEVICE_SESSION_TTL_SECONDS, secs, instant_max.
  intros Hok Hroom Hlive. unfold defer.
  rewrite (proj2 (Z.leb_gt _ _) Hlive).
  set (interval := if b then _ else _). set (rem := Z.max _ 1).
  assert (1 <= interval <= 30 * 60) as Hi.
  { subst interval. unfold saturating_add, u64_max, MAX_DEVICE_SESSION_TTL_SECONDS,
      DEVICE_SLOW_DOWN_SECONDS. destruct b; lia. }
  assert (1 <= Z.min interval rem <= 30 * 60) as Hn by lia.
  rewrite instant_add_ret by (unfold secs, instant_max; lia). simpl.
  eexists _, _. split; [done|]. simpl. repeat split; try done; try lia.
  unfold device_retry_after. simpl. rewrite (proj2 (Z.leb_gt _ _) Hlive).
  rewrite (proj2 (Z.ltb_lt _ _)) by (unfold secs; lia).
  unfold saturating_duration_since, as_secs, subsec_nanos, saturating_add, u64_max, secs.
  replace (Z.max 0 _) with (Z.min interval rem * 1000000000) by lia.
  rewrite Z.div_mul, Z.mod_mul by lia. simpl. do 2 f_equal. lia.
Qed.

(** Whoever waits as long as asked finds the session ready to poll. *)
Lemma retry_after_suffices s now now' n : now <= now' ->
  device_retry_after s now = Ok (Some n) -> now + secs n <= now' -> now' < device_expires_at s ->
  next_poll_at s <= now + secs u64_max ->
  device_retry_after s now' = Ok None.
Proof.
  unfold device_retry_after, secs. intros Hle H Hn Hlive Hmax.
  rewrite (proj2 (Z.leb_gt _ _)) in H by lia. rewrite (proj2 (Z.leb_gt _ _) Hlive).
  destruct (now <? next_poll_at s) eqn:E; simplify_eq; bool_to_prop.
  rewrite (proj2 (Z.ltb_ge _ _)); [done|].
  unfold saturating_duration_since, as_secs, subsec_nanos, saturating_add in *.
  rewrite Z.max_r in Hn by lia. set (d := next_poll_at s - now) in *.
  pose proof (Z.div_mod d 1000000000). pose proof (Z.mod_pos_bound d 1000000000).
  destruct (0 <? d mod 1000000000) eqn:E2; bool_to_prop; lia.
Qed.

(** * Absent sessions stay absent *)

Section store.
Context (id : string) (st : OAuthSessionStore).
Context (Habsent : sessions st !! id = None).

Lemma insert_absent id' s now : id' <> id -> sessions (store_insert st id' s now).1 !! id = None.
Proof using Habsent.
  intros Hne. unfold store_insert.
  assert (filter (fun kv => now < session_expires_at kv.2) (sessions st) !! id = None) as E
    by (apply map_lookup_filter_None; auto).
  case_bool_decide; simpl; [done|]. by rewrite lookup_insert_ne.
Qed.

Lemma take_absent id' now : sessions (take_authorization_code st id' now).1 !! id = None.
Proof using Habsent.
  unfold take_authorization_code. destruct (decide (id' = id)) as [->|Hne]; [by rewrite Habsent|].
  repeat case_step; simpl; rewrite ?lookup_insert_ne, ?lookup_delete_ne by done; done.
Qed.

Lemma acquire_absent id' now : sessions (acquire_device_poll st id' now).1 !! id = None.
Proof using Habsent.
  unfold acquire_device_poll. destruct (decide (id' = id)) as [->|Hne]; [by rewrite Habsent|].
  repeat case_step; simpl; rewrite ?lookup_insert_ne, ?lookup_delete_ne by done; done.
Qed.

Lemma generation_absent : poll_generation st id = None.
Proof using Habsent. unfold poll_generation. by rewrite Habsent. Qed.

Lemma restore_absent id' g s : sessions (restore_device_poll st id' g s) !! id = None.
Proof using Habsent.
  unfold restore_device_poll. pose proof generation_absent.
  destruct (decide (id' = id)) as [->|]; case_bool_decide; simpl; try done; [congruence|].
  by rewrite lookup_insert_ne.
Qed.

Lemma finish_absent id' g : sessions (finish_device_poll st id' g) !! id = None.
Proof using Habsent.
  unfold finish_device_poll. case_bool_decide; simpl; [|done].
  rewrite lookup_delete_None. auto.
Qed.
End store.

#[export] Hint Resolve insert_absent take_absent acquire_absent restore_absent finish_absent : any2api.

(** Settling a lease changes the store only by putting the session back or by
    ending it. *)
Inductive settled (st : OAuthSessionStore) (l : DevicePollLease) : OAuthSessionStore -> Prop :=
| settled_restored s : device_code s = device_code (lease_session l) ->
    device_expires_at s = device_expires_at (lease_session l) ->
    settled st l (restore_device_poll st (lease_id l) (lease_generation l) s)
| settled_finished : settled st l (finish_device_poll st (lease_id l) (lease_generation l)).

Lemma defer_settled s now b s' n : defer s now b = Ret (Ok (s', n)) ->
  device_code s' = device_code s /\ device_expires_at s' = device_expires_at s.
Proof.
  unfold defer. case_match; [done|]. destruct (instant_add _ _); simpl; [|done].
  intros. by simplify_eq/=.
Qed.

Lemma lease_drop_settled st l now st' : lease_drop st l now = Ret st' -> settled st l st'.
Proof.
  unfold lease_drop. destruct (defer _ _ _) as [[[s n]|e]|] eqn:E; intros H; simplify_eq/=.
  - apply defer_settled in E as [??]. by constructor.
  - constructor.
Qed.

Lemma lease_restore_settled st l now b st' r : lease_restore st l now b = Ret (st', r) -> settled st l st'.
Proof.
  unfold lease_restore. destruct (defer _ _ _) as [[[s n]|e]|] eqn:E; intros H; simplify_eq/=.
  - apply defer_settled in E as [??]. by constructor.
  - constructor.
Qed.

#[export] Hint Resolve lease_drop_settled lease_restore_settled : any2api.

Section histories.
Context {url_api : UrlApi} {Token Account : Type}.
Implicit Types (op : login_op Token Account) (s : Login).

Lemma poll_complete_settled st l (ans : PollAnswers Token Account) now st' r :
  poll_complete st l ans now = Ret (st', r) -> settled st l st'.
Proof.
  unfold poll_complete, lease_finish.
  destruct (poll_verdict _ ans) as [[]|]; intros H; try (simplify_eq/=; constructor).
  - destruct (lease_restore _ _ _ _) as [[]|] eqn:E; simplify_eq/=; eauto with any2api.
  - destruct (lease_restore _ _ _ _) as [[]|] eqn:E; simplify_eq/=; eauto with any2api.
  - destruct (lease_drop _ _ _) eqn:E; simplify_eq/=; eauto with any2api.
Qed.

Lemma settled_absent st l st' id : settled st l st' ->
  sessions st !! id = None -> sessions st' !! id = None.
Proof. destruct 1; auto with any2api. Qed.

Lemma exchange_store st id url now (ans : ExchangeAnswers Token Account) :
  (exchange st id url now ans).1 = (take_authorization_code st id now).1.
Proof. unfold exchange. by destruct (take_authorization_code st id now). Qed.

Lemma registry_acquire_store st id now :
  (registry_acquire_device_poll st id now).1 = (acquire_device_poll st id now).1.
Proof. unfold registry_acquire_device_poll. by destruct (acquire_device_poll st id now). Qed.

Lemma step_absent op s s' id : login_step op s s' -> starts id op = false ->
  sessions (login_store s) !! id = None -> sessions (login_store s') !! id = None.
Proof.
  destruct 1; intros Hs Habs; simpl in *.
  - apply bool_decide_eq_false in Hs. by apply insert_absent.
  - apply bool_decide_eq_false in Hs. by apply insert_absent.
  - rewrite exchange_store. by apply take_absent.
  - apply (f_equal fst) in H. rewrite registry_acquire_store in H. simpl in H. subst st.
    by apply acquire_absent.
  - apply (f_equal fst) in H. rewrite registry_acquire_store in H. simpl in H. subst st.
    by apply acquire_absent.
  - eapply settled_absent; [eapply poll_complete_settled|]; eauto.
  - eapply settled_absent; [eapply lease_drop_settled|]; eauto.
Qed.

Lemma run_absent ops s s' id : login_run ops s s' -> Forall (fun op => starts id op = false) ops ->
  sessions (login_store s) !! id = None -> sessions (login_store s') !! id = None.
Proof.
  induction 1 as [|op ops s1 s2 s3 Hstep Hrun IH]; intros Hf; [done|].
  apply Forall_cons in Hf as [Hop Hf]. eauto using step_absent.
Qed.

Lemma absent_answers st id now :
  sessions st !! id = None ->
  take_authorization_code st id now = (st, Err InvalidSession) /\
  registry_acquire_device_poll st id now = (st, Err InvalidSession).
Proof.
  intros H. unfold take_authorization_code, registry_acquire_device_poll, acquire_device_poll.
  by rewrite H.
Qed.

(** The session [id] is in the store, past its expiry. *)
Definition expired_at (s : Login) (id : string) (now : Instant) : Prop :=
  exists x, sessions (login_store s) !! id = Some x /\ session_expires_at x <= now.

(** The lease at an index holds the session [id], whose mark still stands. *)
Definition marked (s : Login) (i : nat) (id : string) (l : DevicePollLease) : Prop :=
  login_leases s !! i = Some l /\ lease_id l = id /\
  poll_generation (login_store s) id = Some (lease_generation l).

(** The answer of a provider that ends a device login *)
Definition final (v : result (OAuthDeviceTokenPoll Token) OAuthError) : Prop :=
  match v with
  | Ok (TokenAuthorized _) | Ok TokenDenied | Ok TokenExpired => True
  | _ => False
  end.

(** The operations that use up the session [id]: an exchange that takes its
    code; a poll that is answered for good while its mark stands; and every call
    that finds the session expired - an exchange, a poll that begins, one that
    comes back or is abandoned, and the login of another session, which clears
    the store of what has expired *)
Definition uses_up (s : Login) (op : login_op Token Account) (id : string) : Prop :=
  match op with
  | OpExchange id' _ now _ =>
    id' = id /\ (expired_at s id now \/
                 exists c, sessions (login_store s) !! id = Some (AuthorizationCode c))
  | OpPollBegin id' now => id' = id /\ expired_at s id now
  | OpPollComplete i ans now =>
    exists l, marked s i id l /\
      (final (poll_verdict (device_provider (lease_session l)) ans) \/
       device_expires_at (lease_session l) <= now)
  | OpPollCancel i now => exists l, marked s i id l /\ device_expires_at (lease_session l) <= now
  | OpStartCode id' _ now | OpStartDevice id' _ now => id' <> id /\ expired_at s id now
  end.

Section gone.
Context (id : string) (x : OAuthSession) (st : OAuthSessionStore).
Context (Hx : sessions st !! id = Some x).

Lemma insert_gone id' y now : id' <> id ->
  sessions (store_insert st id' y now).1 !! id = None <-> session_expires_at x <= now.
Proof using Hx.
  intros Hne. assert (E : filter (fun kv => now < session_expires_at kv.2) (sessions st) !! id = None
    <-> session_expires_at x <= now).
  { rewrite map_lookup_filter_None. split; [|intros Hle; right; simpl; intros ? ? ?; simplify_eq; lia].
    intros [?|Hn]; [congruence|]. specialize (Hn _ Hx). simpl in Hn. lia. }
  unfold store_insert. case_bool_decide; simpl; [done|]. by rewrite lookup_insert_ne.
Qed.

Lemma take_gone id' now :
  sessions (take_authorization_code st id' now).1 !! id = None <->
  id' = id /\ (session_expires_at x <= now \/ exists c, x = AuthorizationCode c).
Proof using Hx.
  unfold take_authorization_code. destruct (decide (id' = id)) as [->|Hne].
  - rewrite Hx. destruct (_ <=? now) eqn:E; bool_to_prop; [|destruct x]; simpl;
      rewrite ?lookup_delete_eq, ?lookup_insert_eq; naive_solver lia.
  - split; [|by intros [? _]]. repeat case_step; simpl;
      rewrite ?lookup_insert_ne, ?lookup_delete_ne by done; congruence.
Qed.

Lemma acquire_gone id' now :
  sessions (acquire_device_poll st id' now).1 !! id = None <-> id' = id /\ session_expires_at x <= now.
Proof using Hx.
  unfold acquire_device_poll. destruct (decide (id' = id)) as [->|Hne].
  - rewrite Hx. destruct (_ <=? now) eqn:E; bool_to_prop.
    { simpl. rewrite lookup_delete_eq. naive_solver. }
    transitivity False; [|naive_solver lia]. split; [|done].
    destruct x as [c|[d|g e]]; simpl in *; rewrite ?lookup_insert_eq; try done.
    unfold device_retry_after. rewrite (proj2 (Z.leb_gt _ _)) by done.
    case_match; simpl; by rewrite lookup_insert_eq.
  - split; [|by intros [? _]]. repeat case_step; simpl;
      rewrite ?lookup_insert_ne, ?lookup_delete_ne by done; congruence.
Qed.

Lemma restore_gone id' g d : sessions (restore_device_poll st id' g d) !! id <> None.
Proof using Hx.
  unfold restore_device_poll. case_bool_decide; simpl; [|congruence].
  destruct (decide (id' = id)) as [->|]; [by rewrite lookup_insert_eq|]. rewrite lookup_insert_ne by done.
  congruence.
Qed.

Lemma finish_gone id' g : sessions (finish_device_poll st id' g) !! id = None <->
  id' = id /\ poll_generation st id = Some g.
Proof using Hx.
  unfold finish_device_poll. destruct (decide (id' = id)) as [->|Hne].
  - case_bool_decide; simpl; [rewrite lookup_delete_eq; naive_solver|]. rewrite Hx. naive_solver.
  - transitivity False; [|naive_solver]. split; [|done].
    case_bool_decide; simpl; rewrite ?lookup_delete_ne by done; congruence.
Qed.

(** A session is deferred unless it has expired. *)
Lemma defer_inv (s : DeviceCodeSession) now b r : defer s now b = Ret r ->
  match r with Ok _ => now < device_expires_at s | Err _ => device_expires_at s <= now end.
Proof.
  unfold defer. destruct (_ <=? now) eqn:E; bool_to_prop; [by intros [= <-]|].
  destruct (instant_add _ _); simpl; [|done]. by intros [= <-].
Qed.

Lemma drop_gone l now st' : lease_drop st l now = Ret st' ->
  sessions st' !! id = None <->
  (lease_id l = id /\ poll_generation st id = Some (lease_generation l)) /\
  device_expires_at (lease_session l) <= now.
Proof using Hx.
  unfold lease_drop. destruct (defer _ _ _) as [r|] eqn:E; [|done]. apply defer_inv in E.
  destruct r as [[s n]|e]; intros [= <-].
  - split; [by intros ?%restore_gone|]. intros [_ ?]. lia.
  - rewrite finish_gone. naive_solver.
Qed.
Lemma restore_lease_gone l now b st' r : lease_restore st l now b = Ret (st', r) ->
  sessions st' !! id = None <->
  (lease_id l = id /\ poll_generation st id = Some (lease_generation l)) /\
  device_expires_at (lease_session l) <= now.
Proof using Hx.
  unfold lease_restore. destruct (defer _ _ _) as [q|] eqn:E; [|done]. apply defer_inv in E.
  destruct q as [[s n]|e]; intros [= <- <-].
  - split; [by intros ?%restore_gone|]. intros [_ ?]. lia.
  - rewrite finish_gone. naive_solver.
Qed.

Lemma complete_gone l (ans : PollAnswers Token Account) now st' r :
  poll_complete st l ans now = Ret (st', r) ->
  sessions st' !! id = None <->
  (lease_id l = id /\ poll_generation st id = Some (lease_generation l)) /\
  (final (poll_verdict (device_provider (lease_session l)) ans) \/
   device_expires_at (lease_session l) <= now).
Proof using Hx.
  unfold poll_complete, lease_finish. destruct (poll_verdict _ ans) as [[]|e]; simpl; intros H.
  3-5: simplify_eq; rewrite finish_gone; tauto.
  1-2: destruct (lease_restore _ _ _ _) as [[st1 r1]|] eqn:E; simplify_eq/=;
    apply restore_lease_gone in E; tauto.
  destruct (lease_drop _ _ _) as [st1|] eqn:E; simplify_eq/=. apply drop_gone in E. tauto.
Qed.
End gone.

(** A session leaves the store with the operations that use it up, and only
    with them. *)
Lemma session_gone op s s' id : is_Some (sessions (login_store s) !! id) ->
  login_step op s s' -> starts id op = false ->
  sessions (login_store s') !! id = None <-> uses_up s op id.
Proof.
  intros [x Hx] Hstep Hs. assert (Hexp : forall now, session_expires_at x <= now <-> expired_at s id now).
  { intros now. unfold expired_at. rewrite Hx. naive_solver. }
  destruct Hstep as [id' y now s|id' y now s|id' url now ans s|id' now s st l H|id' now s st r H|
    i ans now s l st r Hl H|i now s l st Hl H]; simpl in *.
  - apply bool_decide_eq_false in Hs. rewrite (insert_gone _ _ _ Hx) by done. rewrite <- Hexp. tauto.
  - apply bool_decide_eq_false in Hs. rewrite (insert_gone _ _ _ Hx) by done. rewrite <- Hexp. tauto.
  - rewrite exchange_store, (take_gone _ _ _ Hx), <- Hexp, Hx. naive_solver.
  - apply (f_equal fst) in H. rewrite registry_acquire_store in H. simpl in H. subst st.
    by rewrite (acquire_gone _ _ _ Hx), <- Hexp.
  - apply (f_equal fst) in H. rewrite registry_acquire_store in H. simpl in H. subst st.
    by rewrite (acquire_gone _ _ _ Hx), <- Hexp.
  - rewrite (complete_gone _ _ _ Hx _ _ _ _ _ H). unfold marked. rewrite Hl. naive_solver.
  - rewrite (drop_gone _ _ _ Hx _ _ _ H). unfold marked. rewrite Hl. naive_solver.
Qed.

(** A poll that comes back without its mark changes nothing. *)
Lemma settled_unmarked st l st' : settled st l st' -> sessions st !! lease_id l = None -> st' = st.
Proof.
  intros Hs Habs. pose proof (generation_absent _ _ Habs) as Hg.
  destruct Hs; unfold restore_device_poll, finish_device_poll; by rewrite Hg.
Qed.

(** C35. A login session is used up for good, and by nothing else.  A session in
    the store leaves it exactly when its code is taken, its device poll is
    answered for good, or some call finds it expired: an exchange, a poll that
    begins, comes back or is abandoned, or the login of another session.  After
    that, whatever polls, cancellations, exchanges and other logins follow, every
    exchange and every poll started under its identifier is told the session is
    invalid, until a login is started under that identifier again.  A poll that
    already waits for the provider when the session is found expired by another
    call may still be answered, and the token it brings be activated
    ([late_poll_activates]); it does not bring the session back, nor change the
    store at all. *)
Theorem login_session_one_shot (s1 s2 s3 : Login) (op : login_op Token Account) ops id :
  is_Some (sessions (login_store s1) !! id) -> login_step op s1 s2 -> starts id op = false ->
  (sessions (login_store s2) !! id = None <-> uses_up s1 op id) /\
  (uses_up s1 op id -> login_run ops s2 s3 -> Forall (fun op => starts id op = false) ops ->
   sessions (login_store s3) !! id = None /\
   (forall url now ans, exchange (Token := Token) (Account := Account) (login_store s3) id url now ans
      = (login_store s3, Err InvalidSession)) /\
   (forall now, registry_acquire_device_poll (login_store s3) id now
      = (login_store s3, Err InvalidSession)) /\
   (forall l ans now st r, lease_id l = id ->
      poll_complete (Token := Token) (Account := Account) (login_store s3) l ans now = Ret (st, r) ->
      st = login_store s3)).
Proof.
  intros Hin Hstep Hs. pose proof (session_gone _ _ _ _ Hin Hstep Hs) as Hg.
  split; [done|]. intros Hu Hrun Hf.
  assert (Habs : sessions (login_store s3) !! id = None) by (eapply run_absent; [done..|by apply Hg]).
  split; [done|]. split; [|split].
  - intros url now ans. unfold exchange. by rewrite (proj1 (absent_answers _ _ now Habs)).
  - intros now. by apply absent_answers.
  - intros l ans now st r <- E. eapply settled_unmarked; [by eapply poll_complete_settled|done].
Qed.

(** * The invariant of the store and its leases *)

Record login_ok (n : Z) (s : Login) : Prop := {
  ok_size : (size (sessions (login_store s)) <= MAX_ACTIVE_SESSIONS)%nat;
  ok_generation : 0 <= next_poll_generation (login_store s) <= n;
  ok_fresh : Forall (fun l => lease_generation l <= next_poll_generation (login_store s))
               (login_leases s);
  ok_nodup : NoDup (lease_generation <$> login_leases s);
  ok_marks : forall id g e, sessions (login_store s) !! id = Some (DeviceCode (Polling g e)) ->
    exists l, l ∈ login_leases s /\ lease_id l = id /\ lease_generation l = g /\
      device_expires_at (lease_session l) = e
}.

(** A store operation that makes no new mark keeps the invariant. *)
Lemma login_ok_weaken n s st : login_ok n s ->
  (size (sessions st) <= MAX_ACTIVE_SESSIONS)%nat ->
  next_poll_generation st = next_poll_generation (login_store s) ->
  (forall id g e, sessions st !! id = Some (DeviceCode (Polling g e)) ->
                  sessions (login_store s) !! id = Some (DeviceCode (Polling g e))) ->
  login_ok n (with_store s st).
Proof.
  intros [H1 H2 H3 H4 H5] Hs Hg Hm. constructor; simpl; rewrite ?Hg; auto.
Qed.

Lemma delete_size (m : gmap string OAuthSession) id : (size (delete id m) <= size m)%nat.
Proof.
  destruct (m !! id) eqn:E; [rewrite map_size_delete_Some by eauto; lia|].
  by rewrite delete_id.
Qed.

Lemma reinsert_size (m : gmap string OAuthSession) id (x : OAuthSession) :
  is_Some (m !! id) -> size (<[id := x]> m) = size m.
Proof. intros [y Hy]. rewrite map_size_insert_Some; eauto. Qed.

Lemma insert_delete_size (m : gmap string OAuthSession) id (x : OAuthSession) :
  is_Some (m !! id) -> size (<[id := x]> (delete id m)) = size m.
Proof. intros H. rewrite insert_delete_eq. by apply reinsert_size. Qed.

Lemma lookup_reinsert (m : gmap string OAuthSession) id x k :
  m !! id = Some x -> <[id := x]> (delete id m) !! k = m !! k.
Proof. intros H. rewrite insert_delete_eq. by rewrite insert_id. Qed.

(** What is in the store after a session was taken out, and perhaps put back,
    was there before. *)
Ltac marks_kept :=
  match goal with
  | E : ?m !! ?id = Some ?x |- <[?id := ?x]> (delete ?id ?m) !! _ = _ -> _ =>
      rewrite (lookup_reinsert _ _ _ _ E)
  | |- delete _ _ !! _ = _ -> _ => rewrite lookup_delete_Some; intros [_ ?]
  | _ => idtac
  end.

Lemma insert_ok n s id x now : login_ok n s -> (forall g e, x <> DeviceCode (Polling g e)) ->
  login_ok n (with_store s (store_insert (login_store s) id x now).1).
Proof.
  intros Hok Hx. pose proof (ok_size _ _ Hok) as Hsize. unfold store_insert.
  set (kept := filter _ _).
  assert (kept ⊆ sessions (login_store s)) as Hsub by apply map_filter_subseteq.
  apply map_subseteq_size in Hsub as Hle.
  case_bool_decide as E; simpl; apply login_ok_weaken; simpl; try done; try lia.
  - intros ??? H. by apply (lookup_weaken _ _ _ _ H).
  - destruct (kept !! id) eqn:Ek.
    + rewrite reinsert_size by eauto. lia.
    + rewrite map_size_insert_None by done. lia.
  - intros k g e H. apply lookup_insert_Some in H as [[_ ->]|[_ H]]; [by destruct (Hx g e)|].
    by apply (lookup_weaken _ _ _ _ H).
Qed.

Lemma take_ok n s id now : login_ok n s ->
  login_ok n (with_store s (take_authorization_code (login_store s) id now).1).
Proof.
  intros Hok. pose proof (ok_size _ _ Hok) as Hsize. unfold take_authorization_code.
  pose proof (delete_size (sessions (login_store s)) id).
  repeat case_step; simpl; apply login_ok_weaken; simpl; try done; try lia;
    rewrite ?insert_delete_size by eauto; try done; intros ???; by marks_kept.
Qed.

Lemma acquire_other_ok n s id now st r : login_ok n s ->
  acquire_device_poll (login_store s) id now = (st, r) ->
  (forall g d, r <> Ok (PollReady g d)) -> login_ok n (with_store s st).
Proof.
  intros Hok H Hr. pose proof (ok_size _ _ Hok) as Hsize. unfold acquire_device_poll in H.
  pose proof (delete_size (sessions (login_store s)) id).
  repeat case_step; simplify_eq/=; try (by edestruct Hr); apply login_ok_weaken; simpl; try done; try lia;
    rewrite ?insert_delete_size by eauto; try done; intros ???; by marks_kept.
Qed.

Lemma acquire_ready_ok n s id now st g d : n + 1 < 2 ^ 64 -> login_ok n s ->
  acquire_device_poll (login_store s) id now = (st, Ok (PollReady g d)) ->
  login_ok (n + 1) {| login_store := st;
    login_leases := login_leases s ++
      [{| lease_id := id; lease_generation := g; lease_session := d |}] |}.
Proof.
  intros Hn [H1 H2 H3 H4 H5] H. unfold acquire_device_poll in H.
  repeat case_step; simplify_eq/=. unfold wrapping_add_u64 in *.
  rewrite Z.mod_small by lia. constructor; simpl.
  - by rewrite insert_delete_size by eauto.
  - lia.
  - apply Forall_app. split; [|by repeat constructor].
    eapply Forall_impl; [exact H3|]. simpl. lia.
  - rewrite fmap_app. apply NoDup_app. split; [done|]. split; [|apply NoDup_singleton].
    intros x Hx. simpl. rewrite list_elem_of_singleton. intros ->.
    apply list_elem_of_fmap in Hx as (l & El & Hl). rewrite Forall_forall in H3.
    apply H3 in Hl. lia.
  - intros k g e Hk. apply lookup_insert_Some in Hk as [[<- E]|[Hne Hk]].
    + simplify_eq. eexists. split; [apply elem_of_app; right; by apply list_elem_of_singleton|].
      by repeat split.
    + apply lookup_delete_Some in Hk as [_ Hk]. destruct (H5 _ _ _ Hk) as (l & Hl & ?).
      exists l. split; [|done]. apply elem_of_app. by left.
Qed.

Lemma poll_generation_some st id g : poll_generation st id = Some g ->
  exists e, sessions st !! id = Some (DeviceCode (Polling g e)).
Proof. unfold poll_generation. intros. repeat case_match; simplify_eq. eauto. Qed.

Lemma settled_marks st l st' : settled st l st' ->
  (size (sessions st') <= size (sessions st))%nat /\
  next_poll_generation st' = next_poll_generation st /\
  forall id g e, sessions st' !! id = Some (DeviceCode (Polling g e)) ->
    sessions st !! id = Some (DeviceCode (Polling g e)) /\
    ~ (id = lease_id l /\ g = lease_generation l).
Proof.
  assert (forall id g e, poll_generation st (lease_id l) <> Some (lease_generation l) ->
    sessions st !! id = Some (DeviceCode (Polling g e)) ->
    ~ (id = lease_id l /\ g = lease_generation l)) as Hstale.
  { intros id g e Hne Hs [-> ->]. apply Hne. unfold poll_generation. by rewrite Hs. }
  destruct 1 as [s Hc He|]; unfold restore_device_poll, finish_device_poll;
    case_bool_decide as E; simpl; (split; [|split; [done|]]); eauto using delete_size.
  - apply poll_generation_some in E as [e' E]. by rewrite reinsert_size by eauto.
  - intros id g e H. apply lookup_insert_Some in H as [[_ ?]|[? ?]]; [done|].
    split; [done|]. by intros [-> _].
  - intros id g e H. apply lookup_delete_Some in H as [? ?]. split; [done|]. by intros [-> _].
Qed.

Lemma settled_ok n s i l st : login_ok n s -> login_leases s !! i = Some l ->
  settled (login_store s) l st -> login_ok n (consume s i st).
Proof.
  intros [H1 H2 H3 H4 H5] Hl Hs. apply settled_marks in Hs as (Hsize & Hg & Hm).
  constructor; simpl; rewrite ?Hg; try done; try lia.
  - by apply Forall_delete.
  - rewrite list_fmap_delete. eapply sublist_NoDup; [done|apply sublist_delete].
  - intros id g e H. apply Hm in H as [H Hne]. apply H5 in H as (l' & Hl' & <- & <- & He).
    exists l'. split; [|done]. apply list_elem_of_lookup in Hl' as [j Hj].
    destruct (decide (i = j)) as [->|Hij]; [simplify_eq; by destruct Hne|].
    apply list_elem_of_lookup. destruct (decide (j < i)%nat).
    + exists j. by rewrite list_lookup_delete_lt.
    + exists (pred j). rewrite list_lookup_delete_ge by lia. by replace (S (pred j)) with j by lia.
Qed.

Lemma login_ok_le n n' s : n <= n' -> login_ok n s -> login_ok n' s.
Proof. intros Hn [H1 H2 H3 H4 H5]. constructor; auto. lia. Qed.

Lemma step_ok n op s s' : n + 1 < 2 ^ 64 -> login_step op s s' -> login_ok n s ->
  login_ok (n + 1) s'.
Proof.
  intros Hn Hstep Hok.
  destruct Hstep as [| |id' url now ans s|id' now s st l H|id' now s st r H Hr|i ans now s l st r Hl H|
    i now s l st Hl H].
  4: { unfold registry_acquire_device_poll in H.
       destruct (acquire_device_poll _ _ _) as [st' r] eqn:E.
       repeat case_match; simplify_eq. by eapply acquire_ready_ok. }
  all: apply (login_ok_le n); [lia|].
  - by apply insert_ok.
  - by apply insert_ok.
  - rewrite exchange_store. by apply take_ok.
  - unfold registry_acquire_device_poll in H. destruct (acquire_device_poll _ _ _) as [st' r'] eqn:E.
    simplify_eq. eapply acquire_other_ok; [done|done|]. intros g d ->. by edestruct Hr.
  - eapply settled_ok; eauto using poll_complete_settled.
  - eapply settled_ok; eauto using lease_drop_settled.
Qed.

Lemma run_ok (ops : list (login_op Token Account)) s s' n : login_run ops s s' -> n + Zlen ops < 2 ^ 64 -> login_ok n s ->
  login_ok (n + Zlen ops) s'.
Proof.
  intros Hrun. revert n. induction Hrun as [|op ops s1 s2 s3 Hstep Hrun IH]; intros n Hn Hok.
  - unfold Zlen. simpl. by rewrite Z.add_0_r.
  - unfold Zlen in *. cbn [length] in *.
    replace (n + Z.of_nat (S (length ops))) with ((n + 1) + Z.of_nat (length ops)) by lia.
    apply IH; [lia|]. eapply step_ok; [|done|done]. lia.
Qed.

Lemma login_default_ok : login_ok 0 login_default.
Proof.
  constructor; simpl; try done; [rewrite map_size_empty; unfold MAX_ACTIVE_SESSIONS; lia|constructor].
Qed.

(** However logins, exchanges, polls and cancellations interleave (fewer than
    2^64 of them), the store never holds more than [MAX_ACTIVE_SESSIONS]
    sessions, and a device session that is being polled is owned by exactly one
    lease, which carries the expiry the mark shows: no two polls of one session
    are under way at once, and no mark is left behind by a lease that is gone. *)
Theorem login_polls_exclusive (ops : list (login_op Token Account)) s :
  login_run ops login_default s -> Zlen ops < 2 ^ 64 ->
  (size (sessions (login_store s)) <= MAX_ACTIVE_SESSIONS)%nat /\
  forall id g e, sessions (login_store s) !! id = Some (DeviceCode (Polling g e)) ->
    exists i l, login_leases s !! i = Some l /\ lease_id l = id /\ lease_generation l = g /\
      device_expires_at (lease_session l) = e /\
      forall j l', login_leases s !! j = Some l' -> lease_id l' = id -> lease_generation l' = g -> j = i.
Proof.
  intros Hrun Hn. destruct (run_ok _ _ _ 0 Hrun Hn login_default_ok) as [H1 _ _ H4 H5].
  split; [done|]. intros id g e H. destruct (H5 _ _ _ H) as (l & Hl & Hid & Hg & He).
  apply list_elem_of_lookup in Hl as [i Hi]. exists i, l. repeat split; try done.
  intros j l' Hj _ Hg'. eapply (NoDup_lookup _ j i g H4); by rewrite list_lookup_fmap, ?Hj, ?Hi; simpl; f_equal.
Qed.

(** * One device poll, on every branch *)

(** The session under [id] after a poll that may be repeated: back in the store
    with the wait the client is told, or gone because it has expired meanwhile *)
Definition poll_again (st : OAuthSessionStore) (l : DevicePollLease) (now : Instant)
    (told : option Z) : Prop :=
  if device_expires_at (lease_session l) <=? now then sessions st !! lease_id l = None
  else exists (s : DeviceCodeSession) (n : Z), sessions st !! lease_id l = Some (DeviceCode (Ready s)) /\ device_ok s /\
         device_code s = device_code (lease_session l) /\
         device_expires_at s = device_expires_at (lease_session l) /\
         device_retry_after s now = Ok (Some n) /\
         (forall m, told = Some m -> m = n).

Lemma drop_again st l now : device_ok (lease_session l) -> clock_room now ->
  poll_generation st (lease_id l) = Some (lease_generation l) ->
  exists st', lease_drop st l now = Ret st' /\ poll_again st' l now None.
Proof.
  intros Hok Hroom Hg. unfold lease_drop, poll_again.
  destruct (_ <=? now) eqn:E; bool_to_prop.
  - rewrite defer_expired by done. eexists. split; [done|]. unfold finish_device_poll.
    rewrite bool_decide_eq_true_2 by done. apply lookup_delete_eq.
  - destruct (defer_spec _ _ false Hok Hroom E) as (s & n & -> & H1 & H2 & H3 & H4 & H5 & H6 & H7).
    eexists. split; [done|]. unfold restore_device_poll. rewrite bool_decide_eq_true_2 by done.
    exists s, n. split; [apply lookup_insert_eq|]. by split_and!.
Qed.

Lemma restore_again st l now b : device_ok (lease_session l) -> clock_room now ->
  poll_generation st (lease_id l) = Some (lease_generation l) ->
  exists st' r, lease_restore st l now b = Ret (st', r) /\
    poll_again st' l now (match r with Ok n => Some n | Err _ => None end) /\
    (r = Err SessionExpired \/ exists n, r = Ok n /\ 1 <= n <= MAX_DEVICE_SESSION_TTL_SECONDS).
Proof.
  intros Hok Hroom Hg. unfold lease_restore, poll_again.
  destruct (_ <=? now) eqn:E; bool_to_prop.
  - rewrite defer_expired by done. eexists _, _. split; [done|]. split; [|by left].
    unfold finish_device_poll. rewrite bool_decide_eq_true_2 by done. apply lookup_delete_eq.
  - destruct (defer_spec _ _ b Hok Hroom E) as (s & n & -> & H1 & H2 & H3 & H4 & H5 & H6 & H7).
    eexists _, _. split; [done|]. split.
    + unfold restore_device_poll. rewrite bool_decide_eq_true_2 by done.
      exists s, n. split; [apply lookup_insert_eq|]. split_and!; try done; congruence.
    + right. exists n. split; [done|]. destruct H1. lia.
Qed.

(** What one device poll does, for every answer of the provider and of the
    network, while its mark stands: a token, a refusal or an expiry ends the
    session, whatever the activation of the token gives; "pending", "slow down"
    and every failure on the way put the session back, with the same device
    code and expiry, due again after the wait the client was told (between one
    second and half an hour), unless it has expired meanwhile. *)
Theorem device_poll_settles st l (ans : PollAnswers Token Account) now :
  device_ok (lease_session l) -> clock_room now ->
  poll_generation st (lease_id l) = Some (lease_generation l) ->
  exists st' r, poll_complete st l ans now = Ret (st', r) /\
    match poll_verdict (device_provider (lease_session l)) ans with
    | Ok (TokenAuthorized token) =>
      sessions st' !! lease_id l = None /\
      r = match poll_activation ans token with Ok a => Ok (ResultComplete a) | Err e => Err e end
    | Ok TokenDenied => sessions st' !! lease_id l = None /\ r = Err AuthorizationDenied
    | Ok TokenExpired => sessions st' !! lease_id l = None /\ r = Err SessionExpired
    | Ok TokenPending | Ok TokenSlowDown =>
      (r = Err SessionExpired /\ poll_again st' l now None) \/
      exists n, r = Ok (ResultPending n) /\ 1 <= n <= MAX_DEVICE_SESSION_TTL_SECONDS /\
        poll_again st' l now (Some n)
    | Err e => r = Err e /\ poll_again st' l now None
    end.
Proof.
  intros Hok Hroom Hg. unfold poll_complete, lease_finish, finish_device_poll.
  rewrite bool_decide_eq_true_2 by done.
  destruct (poll_verdict _ ans) as [[]|e].
  1, 2: destruct (restore_again st l now) with (b := false) as (st1 & r1 & E1 & A1 & B1); try done;
    destruct (restore_again st l now) with (b := true) as (st2 & r2 & E2 & A2 & B2); try done;
    rewrite ?E1, ?E2; simpl; eexists _, _; (split; [done|]).
  - destruct B1 as [->|(n & -> & Hn)]; eauto.
  - destruct B2 as [->|(n & -> & Hn)]; eauto.
  - eexists _, _. split; [done|]. split; [apply lookup_delete_eq|done].
  - eexists _, _. split; [done|]. split; [apply lookup_delete_eq|done].
  - eexists _, _. split; [done|]. split; [apply lookup_delete_eq|done].
  - destruct (drop_again st l now Hok Hroom Hg) as (st' & -> & A). simpl. eauto.
Qed.
End histories.

(** * The callback *)

(** The first value under a key *)
Fixpoint first_value (key : string) (pairs : list (string * string)) : option string :=
  match pairs with
  | [] => None
  | (k, v) :: pairs => if bool_decide (k = key) then Some v else first_value key pairs
  end.

Fixpoint has_error (pairs : list (string * string)) : bool :=
  match pairs with
  | [] => false
  | (k, _) :: pairs => bool_decide (k = "error") || has_error pairs
  end.

Lemma has_error_false pairs : has_error pairs = false <-> (forall v, ("error", v) ∉ pairs).
Proof.
  induction pairs as [|[k v] pairs IH]; simpl; [set_solver|].
  rewrite orb_false_iff, bool_decide_eq_false, IH. set_solver.
Qed.

Lemma query_loop_spec pairs code state denied :
  query_loop pairs code state denied =
  (match code with Some c => Some c | None => first_value "code" pairs end,
   match state with Some c => Some c | None => first_value "state" pairs end,
   denied || has_error pairs).
Proof.
  revert code state denied. induction pairs as [|[k v] pairs IH]; intros code state denied; simpl.
  { rewrite orb_false_r. by destruct code, state. }
  destruct code, state; simpl; repeat case_bool_decide; simplify_eq/=; rewrite ?IH;
    by rewrite ?orb_true_r, ?orb_false_r.
Qed.


Section callback_spec.
Context {url_api : UrlApi}.

(** The code and the state a callback carries: the state may be appended to the
    code after a [#], come in the query, or be the fragment; where it comes
    twice, both must agree. *)
Definition carries (u : Url) (code state : string) : Prop :=
  match first_value "code" (query_pairs u) with
  | None => False
  | Some c =>
    match split_once "#" c with
    | Some (plain, embedded) =>
      code = plain /\ state = embedded /\
      (first_value "state" (query_pairs u) = None \/
       first_value "state" (query_pairs u) = Some embedded)
    | None =>
      code = c /\
      (first_value "state" (query_pairs u) = Some state \/
       first_value "state" (query_pairs u) = None /\ fragment u = Some state /\ state <> "")
    end
  end.

Lemma carries_spec u code expected :
  carries u code expected <->
  exists c, first_value "code" (query_pairs u) = Some c /\
    code_and_state u c (first_value "state" (query_pairs u)) = Ok (code, Some expected).
Proof.
  unfold carries, code_and_state. destruct (first_value "code" _) as [c|];
    [|split; [done|by intros (? & ? & _)]].
  transitivity (code_and_state u c (first_value "state" (query_pairs u)) = Ok (code, Some expected));
    [|split; [eauto|by intros (? & [= <-] & ?)]]. unfold code_and_state.
  destruct (split_once "#" c) as [[plain embedded]|], (first_value "state" _), (fragment u);
    repeat case_bool_decide; split; intros; destruct_and?; destruct_or?; destruct_and?;
    simplify_eq; auto 6.
Qed.

(** Which callbacks a login accepts, exactly: the URL is neither empty nor
    longer than 16 KiB, it parses, as the redirect URI does, and points to the
    same scheme, user, host, port and path; its query has no [error]; and it
    carries a code of 1 to 8192 bytes with the very state of the session. *)
Theorem callback_accepts_exactly value redirect expected code :
  callback_parse value redirect expected = Ok code <->
  (value <> "" /\ (String.length value <= MAX_CALLBACK_URL_BYTES)%nat) /\
  exists u r, url_parse value = Some u /\ url_parse redirect = Some r /\
    same_callback_target u r = true /\
    (forall v, ("error", v) ∉ query_pairs u) /\
    carries u code expected /\
    code <> "" /\ (String.length code <= MAX_AUTHORIZATION_CODE_BYTES)%nat.
Proof.
  unfold callback_parse. split.
  - intros H. destruct (bool_decide (value = "") || _) eqn:Ev; [done|]. bool_to_prop.
    rewrite !bool_decide_eq_false in *. split; [split; [done|lia]|].
    destruct (url_parse value) as [u|]; [|done]. destruct (url_parse redirect) as [r|]; [|done].
    exists u, r. destruct (same_callback_target u r); [simpl in H|done].
    rewrite query_loop_spec in H. simpl in H. rewrite <- has_error_false.
    destruct (has_error _); [done|]. rewrite carries_spec.
    destruct (first_value "code" _) as [c|]; [|done].
    destruct (code_and_state _ _ _) as [[code' [state|]]|] eqn:Ec; try done; [|by case_match].
    destruct (bool_decide (code' = "") || _) eqn:El; [done|]. bool_to_prop.
    rewrite !bool_decide_eq_false in *. case_bool_decide; simplify_eq. split_and!; eauto. lia.
  - intros [[Hv Hlen] (u & r & -> & -> & Ht & He & Hc & Hcode & Hclen)].
    rewrite !bool_decide_eq_false_2 by (done || lia). simpl. rewrite Ht, query_loop_spec. simpl.
    apply has_error_false in He. apply carries_spec in Hc as (c & -> & ->). rewrite He.
    rewrite !bool_decide_eq_false_2 by (done || lia). simpl. by rewrite bool_decide_eq_true_2.
Qed.
End callback_spec.

(** * The token endpoint and the pacing of requests to it *)

(** A body is handed on whole and within its limit, or not at all. *)
Lemma collect_spec body acc bytes : collect body acc = Ok bytes ->
  bytes = acc ++ mjoin (omap (fun e => match e with ReadChunk c => Some c | _ => None end) body) /\
  Forall (fun e => match e with ReadChunk _ => True | _ => False end) body /\
  (Zlen acc <= MAX_TOKEN_RESPONSE_BYTES -> Zlen bytes <= MAX_TOKEN_RESPONSE_BYTES).
Proof.
  revert acc. induction body as [|[|chunk|e] body IH]; intros acc H; simpl in *; simplify_eq.
  - by rewrite app_nil_r.
  - case_match eqn:E; [done|]. apply IH in H as (E1 & Hf & Hb). bool_to_prop.
    split; [by rewrite E1, <- app_assoc|]. split; [by constructor|]. intros _. apply Hb.
    unfold saturating_add, MAX_TOKEN_RESPONSE_BYTES, usize_max, Zlen in *. rewrite length_app. lia.
Qed.

Lemma pacer_later interval gates calls c p t : 0 < interval -> pacer_run interval gates calls ->
  gates p = Some t -> c ∈ calls -> call_provider c = p -> t <= call_started c.
Proof.
  intros Hi Hrun. revert t. induction Hrun as [|gates gates' c0 calls Hs Hw Hrun IH];
    intros t Hg Hc Hp; [by apply elem_of_nil in Hc|].
  unfold pacer_wait in Hw. rewrite (proj2 (Z.eqb_neq _ _)) in Hw by lia.
  destruct (instant_add _ _) as [next|] eqn:En; simplify_eq/=.
  apply instant_add_inv in En as ->.
  destruct Hs as [Hclock Hsleep]. unfold pacer_gate in Hsleep.
  destruct (decide (call_provider c0 = call_provider c)) as [E|Hne].
  - rewrite E, Hg in Hsleep. simpl in Hsleep. assert (t <= call_started c0) by lia.
    apply elem_of_cons in Hc as [->|Hc]; [done|].
    assert (call_started c0 + interval <= call_started c); [|lia].
    apply IH; [by rewrite decide_True|done|done].
  - apply elem_of_cons in Hc as [->|Hc]; [done|]. apply IH; [by rewrite decide_False|done|done].
Qed.

(** Two requests to the control plane of one provider start at least the
    pacing interval apart; the gates of other providers do not delay them. *)
Theorem pacer_spaces_starts interval gates calls i j ci cj :
  0 < interval -> pacer_run interval gates calls -> (i < j)%nat ->
  calls !! i = Some ci -> calls !! j = Some cj -> call_provider ci = call_provider cj ->
  call_started ci + interval <= call_started cj.
Proof.
  intros Hi Hrun. revert i j. induction Hrun as [|gates gates' c calls Hs Hw Hrun IH];
    intros i j Hij Hci Hcj Hp; [by rewrite lookup_nil in Hci|].
  destruct j as [|j]; [lia|]. destruct i as [|i]; simpl in *; [|by apply (IH i j); try lia].
  simplify_eq. eapply pacer_later; [done|done| |by eapply list_elem_of_lookup_2|done].
  unfold pacer_wait in Hw. rewrite (proj2 (Z.eqb_neq _ _)) in Hw by lia.
  destruct (instant_add _ _) as [next|] eqn:En; simplify_eq/=.
  apply instant_add_inv in En as ->. by rewrite decide_True.
Qed.

(** * Witnesses *)

Definition sample_device : DeviceCodeSession :=
  {| device_provider := Codex; device_proxy_selection := GlobalProxy; device_code := "device";
     poll_interval_seconds := 5; next_poll_at := 0; device_expires_at := secs 900 |}.
Definition sample_lease : DevicePollLease :=
  {| lease_id := "a"; lease_generation := 1; lease_session := sample_device |}.
Definition sample_polling : OAuthSessionStore :=
  {| sessions := {[ "a" := DeviceCode (Polling 1 (secs 900)) ]}; next_poll_generation := 1 |}.

(** A URL is its query: enough to run the callback. *)
Definition sample_url : UrlApi := {|
  Url := list (string * string);
  url_parse v := Some (if bool_decide (v = "cb") then [("code", "abc#xyz"); ("x", "y")] else []);
  scheme _ := "http"; username _ := ""; password _ := None; host_str _ := Some "localhost";
  port_or_known_default _ := Some 80; url_path _ := "/callback";
  query_pairs u := u; fragment _ := None
|}.

Definition sample_poll (v : OAuthDeviceTokenPoll ()) : PollAnswers () () :=
  {| poll_driver := true; poll_device_flow := true; poll_plan := Ok ();
     poll_response := Ok (200, [ReadChunk []]);
     parse_oauth_device_token _ _ := Ok v;
     poll_activation _ := Ok () |}.

Definition sample_history : list (login_op () ()) :=
  [OpStartDevice "a" sample_device 0; OpPollBegin "a" 1].
Definition sample_login : Login :=
  {| login_store := sample_polling; login_leases := [sample_lease] |}.

Lemma sample_run : login_run (url_api := sample_url) sample_history login_default sample_login.
Proof.
  eapply run_cons; [apply step_start_device|]. eapply run_cons; [|apply run_nil].
  assert (registry_acquire_device_poll
            (store_insert store_default "a" (DeviceCode (Ready sample_device)) 0).1 "a" 1 =
          (sample_polling, Ok (AcquisitionReady sample_lease))) as E by (vm_compute; reflexivity).
  exact (step_poll_ready (url_api := sample_url) "a" 1 (with_store login_default _) _ _ E).
Qed.

Lemma login_polls_exclusive_witness :
  (size (sessions sample_polling) <= MAX_ACTIVE_SESSIONS)%nat /\
  exists i l, login_leases sample_login !! i = Some l /\ lease_generation l = 1.
Proof.
  destruct (login_polls_exclusive (url_api := sample_url) sample_history sample_login sample_run)
    as [H1 H2]; [unfold Zlen; simpl; lia|]. split; [exact H1|].
  destruct (H2 "a" 1 (secs 900)) as (i & l & Hl & _ & Hg & _); [reflexivity|]. by exists i, l.
Defined.

(** The poll is answered after the session has expired, with "pending". *)
Definition sample_expired : Login := consume sample_login 0 (finish_device_poll sample_polling "a" 1).
Lemma login_session_one_shot_witness :
  sessions (login_store sample_expired) !! "a" = None /\
  exchange (url_api := sample_url) (login_store sample_expired) "a" "cb" 0
    {| exchange_driver := true; exchange_code_flow := true; exchange_token_flow := true;
       exchange_plan _ _ _ := Ok (); exchange_response := Ok (200, [ReadChunk []]);
       parse_oauth_token_response _ := Ok (); exchange_activation _ := Ok () |}
  = (login_store sample_expired, Err InvalidSession).
Proof.
  destruct (login_session_one_shot (url_api := sample_url) sample_login sample_expired sample_expired
    (OpPollComplete 0 (sample_poll TokenPending) (secs 900)) [] "a") as [Hiff Hafter].
  - by eexists.
  - by eapply (step_poll_complete (url_api := sample_url)).
  - reflexivity.
  - destruct Hafter as (H1 & H2 & _).
    + exists sample_lease. split; [by repeat split|]. right. simpl. lia.
    + apply (run_nil (url_api := sample_url)).
    + constructor.
    + split; [exact H1|apply H2].
Defined.

(** A poll that is answered after its session was cleared away *)
Example late_poll_activates :
  poll_complete (login_store sample_expired) sample_lease (sample_poll (TokenAuthorized ())) (secs 900)
  = Ret (login_store sample_expired, Ok (ResultComplete ())).
Proof. vm_compute. reflexivity. Qed.

Lemma device_poll_settles_witness :
  exists st' r, poll_complete sample_polling sample_lease (sample_poll TokenSlowDown) (secs 2) = Ret (st', r)
    /\ r = Ok (ResultPending 10).
Proof.
  destruct (device_poll_settles sample_polling sample_lease (sample_poll TokenSlowDown) (secs 2))
    as (st' & r & E & H).
  - unfold device_ok, MAX_DEVICE_SESSION_TTL_SECONDS; simpl; lia.
  - unfold clock_room, secs, instant_max, MAX_DEVICE_SESSION_TTL_SECONDS; lia.
  - reflexivity.
  - exists st', r. split; [exact E|]. vm_compute in E. by injection E.
Defined.

Example callback_sample :
  callback_parse (url_api := sample_url) "cb" "http://localhost/callback" "xyz" = Ok "abc".
Proof. reflexivity. Qed.

Lemma pacer_spaces_starts_witness :
  secs 1 + secs 1 <= secs 3.
Proof.
  set (c t := {| call_provider := Codex; call_entry := t; call_now := t; call_started := t |}).
  apply (pacer_spaces_starts (secs 1) (fun _ => None) [c (secs 1); c (secs 3)] 0 1
           (c (secs 1)) (c (secs 3)));
    [unfold secs; lia| |lia|reflexivity|reflexivity|reflexivity].
  eapply pacer_next; [|reflexivity|eapply pacer_next; [|reflexivity|constructor]];
    (split; [simpl; lia|]); unfold pacer_gate, secs; simpl; rewrite ?decide_True by done; simpl; lia.
Defined.
