(* ===== verification/OAuthRefresh.v ===== *)
(** * Refreshing OAuth tokens: failures, single flight, and scans

    Models [runtime/src/oauth/refresh/failure.rs], [state.rs], [account.rs] and
    the scan of [worker.rs].

    What the refresher remembers of an account is keyed by its identifier and
    holds for one token version.  Refreshes of one account go through a gate, an
    [Arc<Mutex<()>>] kept by a weak reference: it lives while a call uses it.
    The machine below runs the calls of [prepare_refresh], one access to a shared
    object per step, in any interleaving, with the publication of the refreshed
    token, the recording of its outcome, scans, and dropped futures.  The
    identity provider's answers are arguments. *)
From S2P Require Import Prelude Protocol Upstream OAuthErrors.
Local Open Scope Z_scope.

(** * Failures *)

Inductive OAuthRefreshTrigger := Scheduled | AuthenticationFailure.
#[export] Instance trigger_eq_dec : EqDecision OAuthRefreshTrigger.
Proof. solve_decision. Defined.

Inductive OAuthRefreshFailureStage :=
| Preflight | RequestBuildStage | DnsStage | TcpStage | ProxyHandshakeStage | TlsStage
| WriteRequestStage | AwaitHeadersStage | ReadResponse | TokenEndpoint | ParseResponse
| ValidateToken | PublishToken | VerifyAuthentication.
#[export] Instance stage_eq_dec : EqDecision OAuthRefreshFailureStage.
Proof. solve_decision. Defined.

Inductive OAuthRefreshFailureReason :=
| ReasonAccountUnavailable | ReasonProviderUnavailable | ReasonTokenMaterialUnavailable
| ReasonProxyUnavailable | RefreshTokenMissing | RequestInvalid | TransportFailure | ReadTimeout
| ResponseTooLarge | ReasonInvalidGrant | ReasonTokenExpired | ReasonTokenReused
| ReasonTokenInvalidated | UpstreamRejected | ReasonInvalidResponse | ReasonProviderMismatch
| RoutingProfileInvalid | DocumentSerializationFailed | PublicationConflict | PublicationFailed
| RefreshUnavailable | RefreshedAccessTokenRejected.
#[export] Instance reason_eq_dec : EqDecision OAuthRefreshFailureReason.
Proof. solve_decision. Defined.

Inductive OAuthRefreshFailureScope :=
| RefreshEndpoint | RefreshProxy | RefreshEgressPath | RefreshUnattributed.
#[export] Instance refresh_scope_eq_dec : EqDecision OAuthRefreshFailureScope.
Proof. solve_decision. Defined.

Record OAuthRefreshFailure := {
  failed_version : Z;
  failed_trigger : OAuthRefreshTrigger;
  failed_stage : OAuthRefreshFailureStage;
  failed_reason : OAuthRefreshFailureReason;
  upstream_status : option Z;
  failed_scope : option OAuthRefreshFailureScope;
  occurred_at : Z
}.
#[export] Instance refresh_failure_eq_dec : EqDecision OAuthRefreshFailure.
Proof. solve_decision. Defined.

(** [reauthorization_required] *)
Definition reauthorization_required (f : OAuthRefreshFailure) : bool :=
  match failed_reason f with
  | RefreshTokenMissing | ReasonInvalidGrant | ReasonTokenExpired | ReasonTokenReused
  | ReasonTokenInvalidated | RefreshedAccessTokenRejected => true
  | _ => false
  end.

(** [OAuthRefreshRejection] of the provider crate *)
Inductive OAuthRefreshRejection :=
| InvalidGrant | RefreshTokenExpired | RefreshTokenReused | RefreshTokenInvalidated | Unverified.

(** [is_permanent] *)
Definition is_permanent (r : OAuthRefreshRejection) : bool :=
  match r with Unverified => false | _ => true end.

(** What [serde_json] reads of an error body: the code at the top, and under
    [error] a code, or a code and a type *)
Inductive RefreshError :=
| ErrorCode (code : string)
| ErrorDetails (code kind : option string).
Record RefreshErrorEnvelope := { envelope_code : option string; envelope_error : option RefreshError }.

(** [RefreshError::has_code], [RefreshErrorEnvelope::has_code] *)
Definition error_has_code (e : RefreshError) (expected : string) : bool :=
  match e with
  | ErrorCode code => bool_decide (code = expected)
  | ErrorDetails code kind =>
    bool_decide (code = Some expected) || bool_decide (kind = Some expected)
  end.
Definition envelope_has_code (e : RefreshErrorEnvelope) (expected : string) : bool :=
  bool_decide (envelope_code e = Some expected) ||
  match envelope_error e with Some error => error_has_code error expected | None => false end.

(** [classify_with_codes]; [None] for a body that does not parse *)
Definition classify_with_codes (status : Z) (body : option RefreshErrorEnvelope)
    (permanent_codes : list (string * OAuthRefreshRejection)) : OAuthRefreshRejection :=
  if negb ((status =? 400) || (status =? 401)) then Unverified
  else match body with
       | None => Unverified
       | Some envelope =>
         match filter (fun cr => envelope_has_code envelope cr.1 = true) permanent_codes with
         | (_, rejection) :: _ => rejection
         | [] => Unverified
         end
       end.
Definition classify (status : Z) (body : option RefreshErrorEnvelope) : OAuthRefreshRejection :=
  classify_with_codes status body [("invalid_grant", InvalidGrant)].

(** [rejection_reason] *)
Definition rejection_reason (r : OAuthRefreshRejection) : OAuthRefreshFailureReason :=
  match r with
  | InvalidGrant => ReasonInvalidGrant
  | RefreshTokenExpired => ReasonTokenExpired
  | RefreshTokenReused => ReasonTokenReused
  | RefreshTokenInvalidated => ReasonTokenInvalidated
  | Unverified => UpstreamRejected
  end.

Inductive OAuthRefreshError :=
| ErrAccountUnavailable
| ErrProviderUnavailable
| ErrTokenMaterialUnavailable
| ErrRequestBuild (error : ProviderError)
| ErrRefreshRejected (status : Z) (rejection : OAuthRefreshRejection)
| ErrOAuth (error : OAuthError)
| ErrTokenResponseInvalid
| ErrTokenValidation (error : ProviderError)
| ErrProviderMismatch
| ErrRoutingProfile (error : ProviderError)
| ErrDocumentSerialization
| ErrPublish (error : ConfigPublishError).

(** [transport_stage], [transport_scope] *)
Definition transport_stage (s : TransportErrorStage) : OAuthRefreshFailureStage :=
  match s with
  | StageDns => DnsStage
  | StageTcp => TcpStage
  | StageProxyHandshake => ProxyHandshakeStage
  | StageTls => TlsStage
  | StageWriteRequest => WriteRequestStage
  | StageAwaitHeaders => AwaitHeadersStage
  | StageReadBody => ReadResponse
  end.
Definition transport_scope (s : TransportFailureScope) : OAuthRefreshFailureScope :=
  match s with
  | ScopeEndpoint => RefreshEndpoint
  | ScopeProxy => RefreshProxy
  | ScopeEgressPath => RefreshEgressPath
  | ScopeUnattributed => RefreshUnattributed
  end.

(** [publish_reason] *)
Definition publish_reason (error : ConfigPublishError) : OAuthRefreshFailureReason :=
  match error with
  | OAuthAccountNotFound => ReasonAccountUnavailable
  | RevisionConflict _ _ | OAuthAccountTokenVersionConflict => PublicationConflict
  | _ => PublicationFailed
  end.

Abbreviation failure_fields :=
  (OAuthRefreshFailureStage * OAuthRefreshFailureReason * option Z
   * option OAuthRefreshFailureScope)%type (only parsing).

(** [oauth_error_fields] *)
Definition oauth_error_fields (error : OAuthError) : failure_fields :=
  match error with
  | OAuthTransport e =>
    (transport_stage (error_stage e), TransportFailure, None,
     Some (transport_scope (failure_scope_of e)))
  | TokenRejected status => (TokenEndpoint, UpstreamRejected, Some status, None)
  | TokenReadTimeout => (ReadResponse, ReadTimeout, None, None)
  | TokenResponseTooLarge => (ReadResponse, ResponseTooLarge, None, None)
  | TokenResponseInvalid => (ParseResponse, ReasonInvalidResponse, None, None)
  | PublishedProxyUnavailable => (Preflight, ReasonProxyUnavailable, None, Some RefreshProxy)
  | DocumentSerialization => (ValidateToken, DocumentSerializationFailed, None, None)
  | OAuthProvider _ => (RequestBuildStage, RequestInvalid, None, None)
  | _ => (Preflight, RefreshUnavailable, None, None)
  end.

(** [OAuthRefreshFailure::new]; [now] is what [unix_now] reads. *)
Definition failure_new (version : Z) (trigger : OAuthRefreshTrigger)
    (fields : failure_fields) (now : Z) : OAuthRefreshFailure :=
  let '(stage, reason, status, scope) := fields in
  {| failed_version := version; failed_trigger := trigger; failed_stage := stage;
     failed_reason := reason; upstream_status := status; failed_scope := scope;
     occurred_at := now |}.

(** [missing_refresh_token], [refresh_unavailable],
    [refreshed_access_token_rejected], [permanent_rejection] *)
Definition missing_refresh_token version trigger now : OAuthRefreshFailure :=
  failure_new version trigger (Preflight, RefreshTokenMissing, None, None) now.
Definition refresh_unavailable version trigger now : OAuthRefreshFailure :=
  failure_new version trigger (Preflight, RefreshUnavailable, None, None) now.
Definition refreshed_access_token_rejected version now : OAuthRefreshFailure :=
  failure_new version AuthenticationFailure
    (VerifyAuthentication, RefreshedAccessTokenRejected, Some 401, None) now.
Definition permanent_rejection_failure version trigger rejection status now : OAuthRefreshFailure :=
  failure_new version trigger (TokenEndpoint, rejection_reason rejection, status, None) now.

(** [OAuthRefreshError::failure] *)
Definition refresh_error_failure (e : OAuthRefreshError) (version : Z)
    (trigger : OAuthRefreshTrigger) (now : Z) : OAuthRefreshFailure :=
  failure_new version trigger
    match e with
    | ErrAccountUnavailable => (PublishToken, ReasonAccountUnavailable, None, None)
    | ErrProviderUnavailable => (Preflight, ReasonProviderUnavailable, None, None)
    | ErrTokenMaterialUnavailable => (Preflight, ReasonTokenMaterialUnavailable, None, None)
    | ErrRequestBuild _ => (RequestBuildStage, RequestInvalid, None, None)
    | ErrRefreshRejected status rejection =>
      (TokenEndpoint, rejection_reason rejection, Some status, None)
    | ErrOAuth error => oauth_error_fields error
    | ErrTokenResponseInvalid => (ParseResponse, ReasonInvalidResponse, None, None)
    | ErrTokenValidation _ => (ValidateToken, ReasonInvalidResponse, None, None)
    | ErrProviderMismatch => (ValidateToken, ReasonProviderMismatch, None, None)
    | ErrRoutingProfile _ => (ValidateToken, RoutingProfileInvalid, None, None)
    | ErrDocumentSerialization => (ValidateToken, DocumentSerializationFailed, None, None)
    | ErrPublish error => (PublishToken, publish_reason error, None, None)
    end now.

(** * What the refresher remembers *)

Record FailedRefreshAttempts := { attempts_version : Z; attempts : Z }.
Record PermanentRefreshRejection := {
  rejected_version : Z;
  rejection : OAuthRefreshRejection
}.

Record OAuthRefreshState := {
  permanent_rejections : gmap Z PermanentRefreshRejection;
  failed_attempts : gmap Z FailedRefreshAttempts;
  failures : gmap Z OAuthRefreshFailure;
  failure_changes : Z
}.

Definition refresh_state_new : OAuthRefreshState :=
  {| permanent_rejections := ∅; failed_attempts := ∅; failures := ∅; failure_changes := 0 |}.

Definition set_rejections (st : OAuthRefreshState) m : OAuthRefreshState :=
  {| permanent_rejections := m; failed_attempts := failed_attempts st; failures := failures st;
     failure_changes := failure_changes st |}.
Definition set_attempts (st : OAuthRefreshState) m : OAuthRefreshState :=
  {| permanent_rejections := permanent_rejections st; failed_attempts := m;
     failures := failures st; failure_changes := failure_changes st |}.
Definition set_failures (st : OAuthRefreshState) m : OAuthRefreshState :=
  {| permanent_rejections := permanent_rejections st; failed_attempts := failed_attempts st;
     failures := m; failure_changes := failure_changes st |}.

(** [permanent_rejection] *)
Definition permanent_rejection (st : OAuthRefreshState) (id version : Z)
    : OAuthRefreshState * option OAuthRefreshRejection :=
  match permanent_rejections st !! id with
  | Some recorded =>
    if rejected_version recorded =? version then (st, Some (rejection recorded))
    else (set_rejections st (delete id (permanent_rejections st)), None)
  | None => (st, None)
  end.

(** [record_permanent_rejection] *)
Definition record_permanent_rejection (st : OAuthRefreshState) (id version : Z)
    (r : OAuthRefreshRejection) : OAuthRefreshState :=
  set_rejections st
    (<[id := {| rejected_version := version; rejection := r |}]> (permanent_rejections st)).

(** [refresh_failure] *)
Definition refresh_failure (st : OAuthRefreshState) (id version : Z) : option OAuthRefreshFailure :=
  match failures st !! id with
  | Some failure => if failed_version failure =? version then Some failure else None
  | None => None
  end.

(** [notify_refresh_failure_changed] *)
Definition notify_refresh_failure_changed (st : OAuthRefreshState) : OAuthRefreshState :=
  {| permanent_rejections := permanent_rejections st; failed_attempts := failed_attempts st;
     failures := failures st; failure_changes := wrapping_add_u64 (failure_changes st) 1 |}.

(** [record_refresh_failure] *)
Definition record_refresh_failure (st : OAuthRefreshState) (id : Z) (failure : OAuthRefreshFailure)
    : OAuthRefreshState :=
  let st' := set_failures st (<[id := failure]> (failures st)) in
  if bool_decide (failures st !! id = Some failure) then st'
  else notify_refresh_failure_changed st'.

(** [record_refreshed_access_token_rejected] *)
Definition record_refreshed_access_token_rejected (st : OAuthRefreshState) (id version now : Z)
    : OAuthRefreshState * OAuthRefreshFailure :=
  let failure := refreshed_access_token_rejected version now in
  (record_refresh_failure st id failure, failure).

(** [record_refresh_success] *)
Definition record_refresh_success (st : OAuthRefreshState) (id observed_version : Z)
    : OAuthRefreshState :=
  let changed := match failures st !! id with
                 | Some failure => failed_version failure <=? observed_version
                 | None => false
                 end in
  let st := if changed then set_failures st (delete id (failures st)) else st in
  let st := set_rejections st (delete id (permanent_rejections st)) in
  let st := set_attempts st (delete id (failed_attempts st)) in
  if changed then notify_refresh_failure_changed st else st.

(** [failed_refresh_attempts] *)
Definition failed_refresh_attempts (st : OAuthRefreshState) (id version : Z) : Z :=
  match failed_attempts st !! id with
  | Some failed => if attempts_version failed =? version then attempts failed else 0
  | None => 0
  end.

(** [record_failed_refresh_attempt]; a release build wraps at 2^64. *)
Definition record_failed_refresh_attempt (st : OAuthRefreshState) (id version : Z)
    : OAuthRefreshState :=
  set_attempts st
    (<[id := {| attempts_version := version;
                attempts := wrapping_add_u64 (failed_refresh_attempts st id version) 1 |}]>
       (failed_attempts st)).

(** [retain_active_refresh_state], but for the gates *)
Definition retain_active_refresh_state (st : OAuthRefreshState) (active : gmap Z Z)
    : OAuthRefreshState :=
  let kept := filter (fun kv => active !! kv.1 = Some (failed_version kv.2)) (failures st) in
  let st' :=
    {| permanent_rejections :=
         filter (fun kv => active !! kv.1 = Some (rejected_version kv.2)) (permanent_rejections st);
       failed_attempts :=
         filter (fun kv => active !! kv.1 = Some (attempts_version kv.2)) (failed_attempts st);
       failures := kept;
       failure_changes := failure_changes st |} in
  if bool_decide (size kept = size (failures st)) then st'
  else notify_refresh_failure_changed st'.

(** * One refresh *)

(** The published account: its token version and expiry, and its token
    material, which may lack a refresh token *)
Record OAuthAccount := {
  token_version : Z;
  expires_at : option Z;
  token_material : option (option string)
}.

Definition i64_max : Z := 2 ^ 63 - 1.
Definition i64_min : Z := - 2 ^ 63.

(** [is_due]; [now] is what [unix_now] reads. *)
Definition is_due (expires_at : option Z) (lead_time_secs now : Z) : outcome bool :=
  match expires_at with
  | None => Ret false
  | Some expires_at =>
    if lead_time_secs <=? i64_max
    then Ret (Z.max i64_min (Z.min i64_max (expires_at - lead_time_secs)) <=? now)
    else Panic
  end.

Inductive RefreshPreparation :=
| PrepReady (refresh_token : string)
| PrepAlreadyUpdated
| PrepMissingRefreshToken
| PrepPermanentlyRejected (rejection : OAuthRefreshRejection)
| PrepUnavailable.

(** [prepare_refresh] from the moment it holds the gate to the round trip:
    [waiter] is what a call that had to wait read before it blocked, and
    [PrepReady] means that [attempt_refresh] is called. *)
Definition preflight (st : OAuthRefreshState) (id version : Z) (trigger : OAuthRefreshTrigger)
    (waiter : option Z) (account : option OAuthAccount) (lead_time now : Z)
    : outcome (OAuthRefreshState * result RefreshPreparation OAuthRefreshError) :=
  match account with
  | None => Ret (st, Ok PrepUnavailable)
  | Some account =>
    if negb (token_version account =? version)
    then Ret (st, Ok (if version <? token_version account then PrepAlreadyUpdated
                      else PrepUnavailable))
    else
      let '(st, rejected) := permanent_rejection st id version in
      match rejected with
      | Some rejection => Ret (st, Ok (PrepPermanentlyRejected rejection))
      | None =>
        if match waiter with
           | Some observed =>
             negb (failed_refresh_attempts st id version =? saturating_add u64_max observed 1)
           | None => false
           end
        then Ret (st, Ok PrepUnavailable)
        else
          due ← (if decide (trigger = Scheduled) then is_due (expires_at account) lead_time now
                 else Ret true);
          if negb due then Ret (st, Ok PrepUnavailable)
          else match token_material account with
               | None => Ret (st, Err ErrTokenMaterialUnavailable)
               | Some None => Ret (st, Ok PrepMissingRefreshToken)
               | Some (Some refresh_token) => Ret (st, Ok (PrepReady refresh_token))
               end
      end
  end.

(** What [attempt_refresh] meets, in the order it meets it *)
Inductive AttemptAnswer :=
| AttemptError (error : OAuthRefreshError)
| AttemptStatus (status : Z) (body : option RefreshErrorEnvelope)
| AttemptRefreshed.

(** [attempt_refresh]: a rejection by the endpoint is classified, and recorded
    when it is permanent. *)
Definition attempt_refresh (classify_rejection : Z -> option RefreshErrorEnvelope ->
    OAuthRefreshRejection) (st : OAuthRefreshState) (id version : Z) (answer : AttemptAnswer)
    : OAuthRefreshState * result () OAuthRefreshError :=
  match answer with
  | AttemptError e => (st, Err e)
  | AttemptStatus status body =>
    let rejection := classify_rejection status body in
    (if is_permanent rejection then record_permanent_rejection st id version rejection else st,
     Err (ErrRefreshRejected status rejection))
  | AttemptRefreshed => (st, Ok ())
  end.

Inductive RefreshResult :=
| Refreshed
| AlreadyUpdated
| MissingRefreshToken
| PermanentlyRejected (rejection : OAuthRefreshRejection)
| Unavailable.

Inductive OAuthAuthenticationRefreshResult :=
| AuthRefreshed
| AuthMissingRefreshToken (failure : OAuthRefreshFailure)
| AuthPermanentlyRejected (failure : OAuthRefreshFailure)
| AuthFailed (failure : OAuthRefreshFailure).

(** [refresh_after_authentication_failure], past the call of [refresh] *)
Definition refresh_after_authentication_failure (st : OAuthRefreshState) (id version : Z)
    (r : result RefreshResult OAuthRefreshError) (now : Z)
    : OAuthRefreshState * OAuthAuthenticationRefreshResult :=
  match r with
  | Ok Refreshed | Ok AlreadyUpdated => (st, AuthRefreshed)
  | Ok MissingRefreshToken =>
    let failure := missing_refresh_token version AuthenticationFailure now in
    (record_refresh_failure st id failure, AuthMissingRefreshToken failure)
  | Ok (PermanentlyRejected rejection) =>
    let failure := default (permanent_rejection_failure version AuthenticationFailure rejection None now)
                     (refresh_failure st id version) in
    (record_refresh_failure st id failure, AuthPermanentlyRejected failure)
  | Ok Unavailable =>
    let failure := default (refresh_unavailable version AuthenticationFailure now)
                     (refresh_failure st id version) in
    (record_refresh_failure st id failure, AuthFailed failure)
  | Err error =>
    let failure := refresh_error_failure error version AuthenticationFailure now in
    (record_refresh_failure st id failure,
     if reauthorization_required failure then AuthPermanentlyRejected failure
     else AuthFailed failure)
  end.

(** * Scans *)

Record ScanPublications := {
  started_at : Z;
  latest : option Z;
  external_revision_interleaved : bool
}.

Definition publications_new (revision : Z) : ScanPublications :=
  {| started_at := revision; latest := None; external_revision_interleaved := false |}.

(** [ScanPublications::record]; [ConfigRevision::checked_next] *)
Definition publications_record (p : ScanPublications) (revision : Z) : outcome ScanPublications :=
  let previous := default (started_at p) (latest p) in
  expected ← expect (checked_add u64_max previous 1);
  Ret {| started_at := started_at p; latest := Some revision;
         external_revision_interleaved :=
           external_revision_interleaved p || negb (revision =? expected) |}.

(** [ScanOutcome::requires_immediate_rescan] *)
Definition requires_immediate_rescan (p : ScanPublications) (latest_revision : Z) : bool :=
  external_revision_interleaved p || (default (started_at p) (latest p) <? latest_revision).

(** The publications of one scan, in order *)
Fixpoint record_all (p : ScanPublications) (revisions : list Z) : outcome ScanPublications :=
  match revisions with
  | [] => Ret p
  | revision :: revisions => p ← publications_record p revision; record_all p revisions
  end.

(** [publish_prepared_refreshes], before the publication: what is published,
    and the failures of the others recorded.  A refresh that was prepared is an
    [Ok (Some ..)]. *)
Fixpoint collect_prepared (st : OAuthRefreshState)
    (prepared : list (Z * Z * result (option ()) OAuthRefreshError)) (now : Z)
    : OAuthRefreshState * list (Z * Z) :=
  match prepared with
  | [] => (st, [])
  | (id, version, Ok (Some _)) :: prepared =>
    let '(st, pending) := collect_prepared st prepared now in (st, (id, version) :: pending)
  | (_, _, Ok None) :: prepared => collect_prepared st prepared now
  | (id, version, Err error) :: prepared =>
    let st := match refresh_failure st id version with
              | None => record_refresh_failure st id (refresh_error_failure error version Scheduled now)
              | Some _ => st
              end in
    collect_prepared st prepared now
  end.

(** [publish_prepared_refreshes], past the publication: [published] is the
    token version of every account in the new snapshot. *)
Definition settle_published (st : OAuthRefreshState) (pending : list (Z * Z)) (published : gmap Z Z)
    : OAuthRefreshState :=
  foldl (fun st iv =>
    match published !! iv.1 with
    | Some v => if iv.2 <? v then record_refresh_success st iv.1 iv.2 else st
    | None => st
    end) st pending.
Definition settle_unpublished (st : OAuthRefreshState) (pending : list (Z * Z))
    (error : ConfigPublishError) (now : Z) : OAuthRefreshState :=
  foldl (fun st iv =>
    record_refresh_failure st iv.1 (refresh_error_failure (ErrPublish error) iv.2 Scheduled now))
    st pending.

(** * The machine of one account's refreshes *)

(** Where a call of [prepare_refresh] stands; [g] is the gate it holds a strong
    reference to, [waiter] what it read before it blocked. *)
Inductive refresh_pc :=
| Idle
| Got (g : nat)
| Blocked (g : nat)
| Waiting (g : nat) (observed : Z)
| Holding (g : nat) (waiter : option Z)
| Attempting (g : nat) (waiter : option Z)
| Publishing (g : nat) (attended : bool)
| Recording
| Finished.

Record refresh_call := {
  call_version : Z;
  call_trigger : OAuthRefreshTrigger;
  call_pc : refresh_pc
}.

Definition at_pc (c : refresh_call) (pc : refresh_pc) : refresh_call :=
  {| call_version := call_version c; call_trigger := call_trigger c; call_pc := pc |}.

(** The gate a call keeps alive, and the gate a call has locked *)
Definition pc_gate (pc : refresh_pc) : option nat :=
  match pc with
  | Got g | Blocked g | Waiting g _ | Holding g _ | Attempting g _ | Publishing g _ => Some g
  | Idle | Recording | Finished => None
  end.
Definition pc_locks (pc : refresh_pc) : option nat :=
  match pc with
  | Holding g _ | Attempting g _ | Publishing g _ => Some g
  | _ => None
  end.

(** [gate_entry] is the weak reference of the account in [gates]; [locked] the
    call that holds a gate; gates are numbered as they are made. *)
Record RefreshMachine := {
  mem : OAuthRefreshState;
  account : option OAuthAccount;
  gate_entry : option nat;
  locked : gmap nat nat;
  next_gate : nat;
  calls : list refresh_call
}.

Definition uses (g : nat) (c : refresh_call) : bool :=
  bool_decide (pc_gate (call_pc c) = Some g).

(** [gate]: the gate while some call keeps it alive, or a new one *)
Definition gate (m : RefreshMachine) : nat :=
  match gate_entry m with
  | Some g => if existsb (uses g) (calls m) then g else next_gate m
  | None => next_gate m
  end.

Definition set_call (m : RefreshMachine) (i : nat) (c : refresh_call) : RefreshMachine :=
  {| mem := mem m; account := account m; gate_entry := gate_entry m; locked := locked m;
     next_gate := next_gate m; calls := <[i := c]> (calls m) |}.
Definition lock_gate (m : RefreshMachine) (g i : nat) : RefreshMachine :=
  {| mem := mem m; account := account m; gate_entry := gate_entry m;
     locked := <[g := i]> (locked m); next_gate := next_gate m; calls := calls m |}.
Definition unlock_gate (m : RefreshMachine) (g : nat) : RefreshMachine :=
  {| mem := mem m; account := account m; gate_entry := gate_entry m;
     locked := delete g (locked m); next_gate := next_gate m; calls := calls m |}.
Definition release (m : RefreshMachine) (pc : refresh_pc) : RefreshMachine :=
  match pc_locks pc with Some g => unlock_gate m g | None => m end.
Definition set_mem (m : RefreshMachine) (st : OAuthRefreshState) : RefreshMachine :=
  {| mem := st; account := account m; gate_entry := gate_entry m; locked := locked m;
     next_gate := next_gate m; calls := calls m |}.
Definition set_account (m : RefreshMachine) (a : option OAuthAccount) : RefreshMachine :=
  {| mem := mem m; account := a; gate_entry := gate_entry m; locked := locked m;
     next_gate := next_gate m; calls := calls m |}.
Definition take_gate (m : RefreshMachine) : RefreshMachine :=
  {| mem := mem m; account := account m; gate_entry := Some (gate m); locked := locked m;
     next_gate := Nat.max (next_gate m) (S (gate m)); calls := calls m |}.
Definition retain_gate (m : RefreshMachine) (id : Z) (active : gmap Z Z) : RefreshMachine :=
  {| mem := mem m; account := account m;
     gate_entry :=
       match gate_entry m with
       | Some g => if bool_decide (is_Some (active !! id)) || existsb (uses g) (calls m)
                   then Some g else None
       | None => None
       end;
     locked := locked m; next_gate := next_gate m; calls := calls m |}.

(** Token versions of a published account only grow, and an account that was
    deleted does not come back under its identifier. *)
Definition account_moves (old new : option OAuthAccount) : Prop :=
  match old, new with
  | _, None => True
  | Some a, Some a' => token_version a <= token_version a'
  | None, Some _ => False
  end.

Inductive refresh_event :=
| EvGate (i : nat)
| EvLocked (i : nat)
| EvBlocked (i : nat)
| EvObserved (i : nat)
| EvAcquired (i : nat)
| EvStart (i : nat) (version : Z) (waiter : option Z)
| EvReturn (i : nat)
| EvFail (i : nat) (version : Z)
| EvPrepared (i : nat)
| EvPublished (i : nat)
| EvPublishFailed (i : nat)
| EvRecorded (i : nat)
| EvCancel (i : nat)
| EvRetain
| EvAccount.

(** The steps that may forget failed attempts *)
Definition forgets (e : refresh_event) : bool :=
  match e with EvRetain | EvRecorded _ => true | _ => false end.

Section machine.
Context (id : Z) (lead_time : Z).
Context (classify_rejection : Z -> option RefreshErrorEnvelope -> OAuthRefreshRejection).

Inductive refresh_step : refresh_event -> RefreshMachine -> RefreshMachine -> Prop :=
| step_gate m i c :
    calls m !! i = Some c -> call_pc c = Idle ->
    refresh_step (EvGate i) m (set_call (take_gate m) i (at_pc c (Got (gate m))))
| step_locked m i c g :
    calls m !! i = Some c -> call_pc c = Got g -> locked m !! g = None ->
    refresh_step (EvLocked i) m (set_call (lock_gate m g i) i (at_pc c (Holding g None)))
| step_blocked m i c g j :
    calls m !! i = Some c -> call_pc c = Got g -> locked m !! g = Some j ->
    refresh_step (EvBlocked i) m (set_call m i (at_pc c (Blocked g)))
| step_observed m i c g :
    calls m !! i = Some c -> call_pc c = Blocked g ->
    refresh_step (EvObserved i) m
      (set_call m i (at_pc c (Waiting g (failed_refresh_attempts (mem m) id (call_version c)))))
| step_acquired m i c g observed :
    calls m !! i = Some c -> call_pc c = Waiting g observed -> locked m !! g = None ->
    refresh_step (EvAcquired i) m
      (set_call (lock_gate m g i) i (at_pc c (Holding g (Some observed))))
| step_start m i c g waiter now st token :
    calls m !! i = Some c -> call_pc c = Holding g waiter ->
    preflight (mem m) id (call_version c) (call_trigger c) waiter (account m) lead_time now =
      Ret (st, Ok (PrepReady token)) ->
    refresh_step (EvStart i (call_version c) waiter) m
      (set_call (set_mem m st) i (at_pc c (Attempting g waiter)))
| step_return m i c g waiter now st r :
    calls m !! i = Some c -> call_pc c = Holding g waiter ->
    preflight (mem m) id (call_version c) (call_trigger c) waiter (account m) lead_time now =
      Ret (st, r) ->
    (forall token, r <> Ok (PrepReady token)) ->
    refresh_step (EvReturn i) m
      (set_call (unlock_gate (set_mem m st) g) i (at_pc c Finished))
| step_fail m i c g waiter answer st e :
    calls m !! i = Some c -> call_pc c = Attempting g waiter ->
    attempt_refresh classify_rejection (mem m) id (call_version c) answer = (st, Err e) ->
    refresh_step (EvFail i (call_version c)) m
      (set_call (unlock_gate
        (set_mem m (record_failed_refresh_attempt st id (call_version c))) g) i (at_pc c Finished))
| step_prepared m i c g waiter answer st :
    calls m !! i = Some c -> call_pc c = Attempting g waiter ->
    attempt_refresh classify_rejection (mem m) id (call_version c) answer = (st, Ok ()) ->
    refresh_step (EvPrepared i) m
      (set_call (set_mem m st) i (at_pc c (Publishing g true)))
| step_published m i c g attended a :
    calls m !! i = Some c -> call_pc c = Publishing g attended ->
    account_moves (account m) (Some a) ->
    refresh_step (EvPublished i) m
      (set_call (unlock_gate (set_account m (Some a)) g) i
        (at_pc c (if attended && (call_version c <? token_version a) then Recording else Finished)))
| step_publish_failed m i c g attended :
    calls m !! i = Some c -> call_pc c = Publishing g attended ->
    refresh_step (EvPublishFailed i) m (set_call (unlock_gate m g) i (at_pc c Finished))
| step_recorded m i c :
    calls m !! i = Some c -> call_pc c = Recording ->
    refresh_step (EvRecorded i) m
      (set_call (set_mem m (record_refresh_success (mem m) id (call_version c))) i
        (at_pc c Finished))
| step_cancel m i c :
    calls m !! i = Some c -> (forall g b, call_pc c <> Publishing g b) ->
    refresh_step (EvCancel i) m (set_call (release m (call_pc c)) i (at_pc c Finished))
| step_detach m i c g b :
    calls m !! i = Some c -> call_pc c = Publishing g b ->
    refresh_step (EvCancel i) m (set_call m i (at_pc c (Publishing g false)))
| step_retain m active :
    refresh_step EvRetain m
      (retain_gate (set_mem m (retain_active_refresh_state (mem m) active)) id active)
| step_account m a :
    account_moves (account m) a -> refresh_step EvAccount m (set_account m a).

Inductive refresh_run : list refresh_event -> RefreshMachine -> RefreshMachine -> Prop :=
| refresh_nil m : refresh_run [] m m
| refresh_cons e es m1 m2 m3 :
    refresh_step e m1 m2 -> refresh_run es m2 m3 -> refresh_run (e :: es) m1 m3.
End machine.

(** The machine, run: what a step reads from outside is an argument. *)
Record refresh_input := {
  in_now : Z;
  in_answer : AttemptAnswer;
  in_account : option OAuthAccount;
  in_active : gmap Z Z
}.

Definition account_moves_b (old new : option OAuthAccount) : bool :=
  match old, new with
  | _, None => true
  | Some a, Some a' => token_version a <=? token_version a'
  | None, Some _ => false
  end.

Definition refresh_exec (id lead_time : Z)
    (classify_rejection : Z -> option RefreshErrorEnvelope -> OAuthRefreshRejection)
    (input : refresh_input) (e : refresh_event) (m : RefreshMachine) : option RefreshMachine :=
  match e with
  | EvGate i =>
    c ← calls m !! i;
    match call_pc c with
    | Idle => Some (set_call (take_gate m) i (at_pc c (Got (gate m))))
    | _ => None
    end
  | EvLocked i =>
    c ← calls m !! i;
    match call_pc c with
    | Got g => if decide (locked m !! g = None)
               then Some (set_call (lock_gate m g i) i (at_pc c (Holding g None))) else None
    | _ => None
    end
  | EvBlocked i =>
    c ← calls m !! i;
    match call_pc c with
    | Got g => match locked m !! g with
               | Some _ => Some (set_call m i (at_pc c (Blocked g)))
               | None => None
               end
    | _ => None
    end
  | EvObserved i =>
    c ← calls m !! i;
    match call_pc c with
    | Blocked g => Some (set_call m i
        (at_pc c (Waiting g (failed_refresh_attempts (mem m) id (call_version c)))))
    | _ => None
    end
  | EvAcquired i =>
    c ← calls m !! i;
    match call_pc c with
    | Waiting g observed =>
      if decide (locked m !! g = None)
      then Some (set_call (lock_gate m g i) i (at_pc c (Holding g (Some observed)))) else None
    | _ => None
    end
  | EvStart i version waiter =>
    c ← calls m !! i;
    match call_pc c with
    | Holding g w =>
      if decide (w = waiter /\ call_version c = version) then
        match preflight (mem m) id (call_version c) (call_trigger c) w (account m) lead_time
                (in_now input) with
        | Ret (st, Ok (PrepReady _)) => Some (set_call (set_mem m st) i (at_pc c (Attempting g w)))
        | _ => None
        end
      else None
    | _ => None
    end
  | EvReturn i =>
    c ← calls m !! i;
    match call_pc c with
    | Holding g w =>
      match preflight (mem m) id (call_version c) (call_trigger c) w (account m) lead_time
              (in_now input) with
      | Ret (_, Ok (PrepReady _)) | Panic => None
      | Ret (st, _) => Some (set_call (unlock_gate (set_mem m st) g) i (at_pc c Finished))
      end
    | _ => None
    end
  | EvFail i version =>
    c ← calls m !! i;
    match call_pc c with
    | Attempting g w =>
      if decide (call_version c = version) then
        match attempt_refresh classify_rejection (mem m) id (call_version c) (in_answer input) with
        | (st, Err _) => Some (set_call (unlock_gate
            (set_mem m (record_failed_refresh_attempt st id (call_version c))) g) i (at_pc c Finished))
        | _ => None
        end
      else None
    | _ => None
    end
  | EvPrepared i =>
    c ← calls m !! i;
    match call_pc c with
    | Attempting g w =>
      match attempt_refresh classify_rejection (mem m) id (call_version c) (in_answer input) with
      | (st, Ok _) => Some (set_call (set_mem m st) i (at_pc c (Publishing g true)))
      | _ => None
      end
    | _ => None
    end
  | EvPublished i =>
    c ← calls m !! i;
    match call_pc c, in_account input with
    | Publishing g attended, Some a =>
      if account_moves_b (account m) (Some a) then
        Some (set_call (unlock_gate (set_account m (Some a)) g) i
          (at_pc c (if attended && (call_version c <? token_version a) then Recording else Finished)))
      else None
    | _, _ => None
    end
  | EvPublishFailed i =>
    c ← calls m !! i;
    match call_pc c with
    | Publishing g _ => Some (set_call (unlock_gate m g) i (at_pc c Finished))
    | _ => None
    end
  | EvRecorded i =>
    c ← calls m !! i;
    match call_pc c with
    | Recording => Some (set_call (set_mem m (record_refresh_success (mem m) id (call_version c))) i
                           (at_pc c Finished))
    | _ => None
    end
  | EvCancel i =>
    c ← calls m !! i;
    match call_pc c with
    | Publishing g _ => Some (set_call m i (at_pc c (Publishing g false)))
    | pc => Some (set_call (release m pc) i (at_pc c Finished))
    end
  | EvRetain =>
    Some (retain_gate (set_mem m (retain_active_refresh_state (mem m) (in_active input))) id
            (in_active input))
  | EvAccount =>
    if account_moves_b (account m) (in_account input) then Some (set_account m (in_account input))
    else None
  end.

Fixpoint refresh_exec_all (id lead_time : Z)
    (classify_rejection : Z -> option RefreshErrorEnvelope -> OAuthRefreshRejection)
    (es : list (refresh_input * refresh_event)) (m : RefreshMachine) : option RefreshMachine :=
  match es with
  | [] => Some m
  | (input, e) :: es =>
    m ← refresh_exec id lead_time classify_rejection input e m;
    refresh_exec_all id lead_time classify_rejection es m
  end.

(** A refresher that has just started, with calls about to be made *)
Definition refresh_start (a : option OAuthAccount) (cs : list (Z * OAuthRefreshTrigger))
    : RefreshMachine :=
  {| mem := refresh_state_new; account := a; gate_entry := None; locked := ∅; next_gate := 0;
     calls := (fun vt => {| call_version := vt.1; call_trigger := vt.2; call_pc := Idle |}) <$> cs |}.

(** * Single flight *)

Record gates_ok (m : RefreshMachine) : Prop := {
  go_entry : forall j c g, calls m !! j = Some c -> pc_gate (call_pc c) = Some g ->
    gate_entry m = Some g;
  go_locks : forall j c g, calls m !! j = Some c -> pc_locks (call_pc c) = Some g ->
    locked m !! g = Some j;
  go_held : forall g j, locked m !! g = Some j ->
    exists c, calls m !! j = Some c /\ pc_locks (call_pc c) = Some g;
  go_fresh : forall g, gate_entry m = Some g -> (g < next_gate m)%nat
}.

(** How a step of one call may change the lock of its gate *)
Inductive lock_change (m m' : RefreshMachine) (i : nat) (pc pc' : refresh_pc) : Prop :=
| lock_same : locked m' = locked m -> pc_locks pc' = pc_locks pc -> lock_change m m' i pc pc'
| lock_taken g : pc_locks pc = None -> pc_locks pc' = Some g -> pc_gate pc = Some g ->
    locked m !! g = None -> locked m' = <[g := i]> (locked m) -> lock_change m m' i pc pc'
| lock_freed g : pc_locks pc = Some g -> pc_locks pc' = None -> locked m' = delete g (locked m) ->
    lock_change m m' i pc pc'.

Lemma locks_gate pc g : pc_locks pc = Some g -> pc_gate pc = Some g.
Proof. by destruct pc. Qed.

Lemma gates_ok_update m m' i c c' : gates_ok m -> calls m !! i = Some c ->
  calls m' = <[i := c']> (calls m) -> gate_entry m' = gate_entry m -> next_gate m' = next_gate m ->
  pc_gate (call_pc c') = None \/ pc_gate (call_pc c') = pc_gate (call_pc c) ->
  lock_change m m' i (call_pc c) (call_pc c') -> gates_ok m'.
Proof.
  intros [H1 H2 H3 H4] Hi Hc He Hn Hg Hl.
  assert (forall j d, calls m' !! j = Some d ->
    j = i /\ d = c' \/ j <> i /\ calls m !! j = Some d) as Hlook.
  { intros j d. rewrite Hc, list_lookup_insert_Some. intuition. }
  constructor.
  - intros j d g Hj Hd. rewrite He. destruct (Hlook _ _ Hj) as [[-> ->]|[_ Hj']]; [|eauto].
    destruct Hg as [Hg|Hg]; rewrite Hg in Hd; [done|eauto].
  - intros j d g Hj Hd. destruct (Hlook _ _ Hj) as [[-> ->]|[Hne Hj']].
    + destruct Hl as [El Ep|g' _ Ep _ _ El|g' _ Ep _]; rewrite ?El; rewrite Ep in Hd; try done.
      * eauto.
      * simplify_eq. apply lookup_insert_eq.
    + pose proof (H2 _ _ _ Hj' Hd) as Hlk.
      destruct Hl as [El _|g' _ _ _ Hfree El|g' Ep _ El]; rewrite El; [done| |].
      * rewrite lookup_insert_ne; [done|]. congruence.
      * rewrite lookup_delete_ne; [done|]. intros ->. pose proof (H2 _ _ _ Hi Ep). congruence.
  - intros g j Hj.
    assert (j <> i -> forall d, calls m !! j = Some d -> calls m' !! j = Some d) as Hk
      by (intros; rewrite Hc, list_lookup_insert_ne by done; done).
    assert (calls m' !! i = Some c') as Hi'
      by (rewrite Hc; apply list_lookup_insert_eq; by eapply lookup_lt_Some).
    destruct Hl as [El Ep|g' Ep0 Ep _ Hfree El|g' Ep0 Ep El]; rewrite El in Hj.
    + destruct (H3 _ _ Hj) as (d & Hd & Hp). destruct (decide (j = i)) as [->|Hne]; [|eauto].
      exists c'. split; [done|]. rewrite Ep. congruence.
    + apply lookup_insert_Some in Hj as [[<- <-]|[Hne Hj]]; [eauto|].
      destruct (H3 _ _ Hj) as (d & Hd & Hp). destruct (decide (j = i)) as [->|]; [|eauto].
      congruence.
    + apply lookup_delete_Some in Hj as [Hne Hj].
      destruct (H3 _ _ Hj) as (d & Hd & Hp). destruct (decide (j = i)) as [->|]; [|eauto].
      congruence.
  - intros g. rewrite He, Hn. apply H4.
Qed.

Lemma gate_users m g : gates_ok m -> existsb (uses g) (calls m) = false ->
  forall j c, calls m !! j = Some c -> pc_gate (call_pc c) <> Some g.
Proof.
  intros _ H j c Hj Hg. apply not_true_iff_false in H. apply H, existsb_exists. exists c.
  split; [by eapply list_elem_of_In, list_elem_of_lookup_2|]. by apply bool_decide_eq_true_2.
Qed.

(** The gate a call is given is the one every other call uses. *)
Lemma gate_shared m j c g : gates_ok m -> calls m !! j = Some c -> pc_gate (call_pc c) = Some g ->
  gate m = g.
Proof.
  intros Hok Hj Hg. unfold gate. rewrite (go_entry _ Hok _ _ _ Hj Hg).
  destruct (existsb _ _) eqn:E; [done|]. by destruct (gate_users m g Hok E j c Hj).
Qed.

Section proofs.
Context {id lead_time : Z}.
Context {classify_rejection : Z -> option RefreshErrorEnvelope -> OAuthRefreshRejection}.
Notation step := (refresh_step id lead_time classify_rejection).
Notation run := (refresh_run id lead_time classify_rejection).

Lemma step_gates_ok e m m' : step e m m' -> gates_ok m -> gates_ok m'.
Proof.
  destruct 1 as [m i c Hi Hp|m i c g Hi Hp Hl|m i c g j Hi Hp Hl|m i c g Hi Hp|m i c g o Hi Hp Hl|
    m i c g w now st t Hi Hp _|m i c g w now st r Hi Hp _ _|m i c g w a st e Hi Hp _|
    m i c g w a st Hi Hp _|m i c g b a Hi Hp _|m i c g b Hi Hp|m i c Hi Hp|m i c Hi Hp|
    m i c g b Hi Hp|m active|m a _]; intros Hok.
  13: { unfold release. destruct (pc_locks (call_pc c)) eqn:E;
        (eapply (gates_ok_update m _ i c (at_pc c Finished)); try done; simpl; auto);
        [by eapply lock_freed|by apply lock_same]. }
  2-13: eapply (gates_ok_update m _ i c); try done; simpl; rewrite ?Hp; simpl; auto.
  - pose proof Hok as [H1 H2 H3 H4].
    assert (forall j d g, calls m !! j = Some d -> pc_gate (call_pc d) = Some g -> gate m = g) as Hs
      by eauto using gate_shared.
    constructor; simpl.
    + intros j d g Hj Hd. apply list_lookup_insert_Some in Hj as [(-> & <- & _)|[_ Hj]]; simpl in *;
        [done|]. f_equal. eauto.
    + intros j d g Hj Hd. apply list_lookup_insert_Some in Hj as [(-> & <- & _)|[_ Hj]]; simpl in *;
        [done|eauto].
    + intros g j Hj. destruct (H3 _ _ Hj) as (d & Hd & Hg). exists d. split; [|done].
      rewrite list_lookup_insert_ne; [done|]. intros <-. simplify_eq. by rewrite Hp in Hg.
    + intros g [= <-]. lia.
  - by eapply lock_taken.
  - by apply lock_same.
  - by apply lock_same.
  - by eapply lock_taken.
  - by apply lock_same.
  - by eapply lock_freed.
  - by eapply lock_freed.
  - by apply lock_same.
  - destruct (_ && _); auto.
  - destruct (_ && _); by eapply lock_freed.
  - by eapply lock_freed.
  - by apply lock_same.
  - by apply lock_same.
  - destruct Hok as [H1 H2 H3 H4]. constructor; simpl; eauto.
    + intros j c g Hj Hg. rewrite (H1 _ _ _ Hj Hg).
      replace (existsb _ _) with true; [by rewrite orb_true_r|]. symmetry. apply existsb_exists.
      exists c. split; [by eapply list_elem_of_In, list_elem_of_lookup_2|].
      by apply bool_decide_eq_true_2.
    + intros g. destruct (gate_entry m); [|done]. case_match; [|done]. intros. simplify_eq. eauto.
  - destruct Hok as [H1 H2 H3 H4]. by constructor.
Qed.

Lemma run_gates_ok es m m' : run es m m' -> gates_ok m -> gates_ok m'.
Proof. induction 1; eauto using step_gates_ok. Qed.

Lemma start_gates_ok a cs : gates_ok (refresh_start a cs).
Proof.
  assert (forall j c, calls (refresh_start a cs) !! j = Some c -> call_pc c = Idle) as Hidle.
  { intros j c Hj. simpl in Hj. rewrite list_lookup_fmap in Hj.
    destruct (cs !! j); simplify_eq/=. done. }
  constructor; simpl; try done.
  - intros j c g Hj Hg. by rewrite (Hidle _ _ Hj) in Hg.
  - intros j c g Hj Hg. by rewrite (Hidle _ _ Hj) in Hg.
Qed.

(** C36. Refreshes of one account are single-flight: whatever calls, cancellations,
    scans and publications interleave, and though the gate itself comes and goes
    with its users, no two calls are past the gate at once, from the moment one
    checks the account until its token is published or its attempt has failed;
    and a gate that is locked is held by a call that is still under way, so no
    cancellation leaves it locked. *)
Theorem refresh_single_flight a cs es m : run es (refresh_start a cs) m ->
  (forall i j ci cj, calls m !! i = Some ci -> calls m !! j = Some cj ->
     is_Some (pc_locks (call_pc ci)) -> is_Some (pc_locks (call_pc cj)) -> i = j) /\
  (forall g j, locked m !! g = Some j ->
     exists c, calls m !! j = Some c /\ pc_locks (call_pc c) = Some g).
Proof.
  intros Hrun. apply run_gates_ok in Hrun as Hok; [|apply start_gates_ok].
  split; [|apply (go_held _ Hok)].
  intros i j ci cj Hi Hj [g Hg] [g' Hg'].
  pose proof (go_locks _ Hok _ _ _ Hi Hg). pose proof (go_locks _ Hok _ _ _ Hj Hg').
  apply locks_gate, (go_entry _ Hok _ _ _ Hi) in Hg.
  apply locks_gate, (go_entry _ Hok _ _ _ Hj) in Hg'. congruence.
Qed.

(** * One waiter per failed attempt *)

Lemma preflight_spec st v t w acc now st' r :
  preflight st id v t w acc lead_time now = Ret (st', r) ->
  failed_attempts st' = failed_attempts st /\
  (forall token, r = Ok (PrepReady token) ->
     (exists a, acc = Some a /\ token_version a = v) /\
     forall o, w = Some o -> failed_refresh_attempts st id v = saturating_add u64_max o 1).
Proof.
  unfold preflight. destruct acc as [a|]; [|by intros; simplify_eq].
  destruct (token_version a =? v) eqn:Ev; simpl; [|intros; simplify_eq; split; [done|];
    intros ? Hr; by destruct (_ <? _)]. bool_to_prop.
  destruct (permanent_rejection st id v) as [st1 rej] eqn:Er.
  assert (failed_attempts st1 = failed_attempts st) as E1.
  { unfold permanent_rejection in Er. repeat case_match; by simplify_eq. }
  assert (failed_refresh_attempts st1 id v = failed_refresh_attempts st id v) as E2
    by (unfold failed_refresh_attempts; by rewrite E1).
  destruct rej; [intros; by simplify_eq|].
  destruct (match w with Some _ => _ | None => _ end) eqn:Ew; [intros; by simplify_eq|].
  destruct (if decide (t = Scheduled) then _ else _) as [due|]; [simpl|done].
  intros H. assert (st' = st1) as -> by (repeat case_match; by simplify_eq).
  split; [done|]. intros token ->. split; [eauto|]. intros o ->. bool_to_prop. congruence.
Qed.

Lemma attempt_attempts st v answer st' r :
  attempt_refresh classify_rejection st id v answer = (st', r) ->
  failed_attempts st' = failed_attempts st.
Proof.
  unfold attempt_refresh. destruct answer; intros; simplify_eq; try done. by destruct (is_permanent _).
Qed.

(** What a step does to the record of failed attempts *)
Lemma step_attempts e m m' : step e m m' -> forgets e = false ->
  (forall i v, e <> EvFail i v) /\ failed_attempts (mem m') = failed_attempts (mem m) \/
  exists i c g w, e = EvFail i (call_version c) /\ calls m !! i = Some c /\
    call_pc c = Attempting g w /\
    failed_attempts (mem m') =
      <[id := {| attempts_version := call_version c;
                 attempts := wrapping_add_u64
                   (failed_refresh_attempts (mem m) id (call_version c)) 1 |}]>
        (failed_attempts (mem m)).
Proof.
  destruct 1 as [| | | | |m i c g w now st t Hi Hp H|m i c g w now st r Hi Hp H _|
    m i c g w a st e Hi Hp H|m i c g w a st Hi Hp H| | | |m i c Hi Hp| | |]; intros Hf; simpl; auto; try done.
  - left. by apply preflight_spec in H as [-> _].
  - left. by apply preflight_spec in H as [-> _].
  - right. exists i, c, g, w. split_and!; try done. apply attempt_attempts in H.
    unfold failed_refresh_attempts. by rewrite H.
  - left. by apply attempt_attempts in H as ->.
  - left. unfold release. by destruct (pc_locks _).
Qed.

Lemma step_account_moves e m m' : step e m m' -> account_moves (account m) (account m').
Proof.
  assert (forall o, account_moves o o) as Hrefl by (intros [a|]; simpl; [lia|done]).
  destruct 1; simpl; auto. unfold release. destruct (pc_locks _); simpl; auto.
Qed.

(** A call makes an attempt only by starting it, at the version published then. *)
Lemma step_attempting e m m' j c g w : step e m m' -> calls m' !! j = Some c ->
  call_pc c = Attempting g w -> calls m !! j = Some c \/
  exists a, account m = Some a /\ token_version a = call_version c.
Proof.
  intros Hstep Hj Hp.
  assert (forall i d, <[i := d]> (calls m) !! j = Some c ->
    (forall g w, call_pc d <> Attempting g w) -> calls m !! j = Some c) as Hother.
  { intros i d H Hd. apply list_lookup_insert_Some in H as [(_ & -> & _)|[_ ?]]; [|done].
    by destruct (Hd g w). }
  destruct Hstep as [| | | | |m i d g' w' now st t Hi Hd H| | | |m i d g' b a Hi Hd _| | |m i d Hi Hd| | |];
    simpl in *; try (left; eapply Hother; [exact Hj|done]); auto.
  - apply list_lookup_insert_Some in Hj as [(_ & <- & _)|[_ ?]]; [|auto].
    right. apply preflight_spec in H as [_ H]. by destruct (H _ eq_refl) as [? _].
  - left. eapply Hother; [exact Hj|]. simpl. intros. by destruct (_ && _).
  - left. unfold release in Hj. destruct (pc_locks _); (eapply Hother; [exact Hj|done]).
Qed.

(** How far a call has come; it never goes back. *)
Definition pc_rank (pc : refresh_pc) : nat :=
  match pc with
  | Idle => 0 | Got _ => 1 | Blocked _ => 2 | Waiting _ _ => 3 | Holding _ _ => 4
  | Attempting _ _ => 5 | Publishing _ _ => 6 | Recording => 7 | Finished => 8
  end.

Lemma step_rank e m m' i c : step e m m' -> calls m !! i = Some c ->
  exists c', calls m' !! i = Some c' /\
    (c' = c \/ (pc_rank (call_pc c) < pc_rank (call_pc c') \/ 6 <= pc_rank (call_pc c'))%nat).
Proof.
  intros Hstep Hi. pose proof (lookup_lt_Some _ _ _ Hi) as Hlt.
  assert (forall j c0 d, calls m' = <[j := d]> (calls m) -> calls m !! j = Some c0 ->
    (pc_rank (call_pc c0) < pc_rank (call_pc d) \/ 6 <= pc_rank (call_pc d))%nat ->
    exists c', calls m' !! i = Some c' /\
      (c' = c \/ (pc_rank (call_pc c) < pc_rank (call_pc c') \/ 6 <= pc_rank (call_pc c'))%nat)) as Hgen.
  { intros j c0 d E Hj Hd. destruct (decide (j = i)) as [->|Hne]; simplify_eq.
    - exists d. rewrite E, list_lookup_insert_eq by done. auto.
    - exists c. rewrite E, list_lookup_insert_ne by done. auto. }
  destruct Hstep as [m j d Hj Hp|m j d g Hj Hp Hl|m j d g k Hj Hp Hl|m j d g Hj Hp|m j d g o Hj Hp Hl|
    m j d g w now st t Hj Hp _|m j d g w now st r Hj Hp _ _|m j d g w a st e Hj Hp _|
    m j d g w a st Hj Hp _|m j d g b a Hj Hp _|m j d g b Hj Hp|m j d Hj Hp|m j d Hj Hp|
    m j d g b Hj Hp|m active|m a _].
  13: { apply (Hgen j d (at_pc d Finished)); [|done|simpl; lia].
        unfold release. by destruct (pc_locks _). }
  1-13: eapply (Hgen j d); [done|done|]; simpl; rewrite ?Hp; simpl; try lia.
  - destruct (_ && _); simpl; lia.
  - eauto.
  - eauto.
Qed.

Lemma step_fail_inv e m m' i v : step e m m' -> e = EvFail i v ->
  exists c g w, calls m !! i = Some c /\ call_pc c = Attempting g w /\ call_version c = v.
Proof. destruct 1; intros; simplify_eq; eauto 6. Qed.

(** A call that is past its attempt does not fail it any more. *)
Lemma past_no_fail es m m' i c v : run es m m' -> calls m !! i = Some c ->
  (6 <= pc_rank (call_pc c))%nat -> EvFail i v ∉ es.
Proof.
  intros Hrun. revert c. induction Hrun as [|e es m1 m2 m3 Hstep Hrun IH]; intros c Hi Hr;
    [set_solver|].
  rewrite not_elem_of_cons. split.
  - intros <-. destruct (step_fail_inv _ _ _ _ _ Hstep eq_refl) as (c' & g & w & Hi' & Hp & _).
    simplify_eq. rewrite Hp in Hr. simpl in Hr. lia.
  - destruct (step_rank _ _ _ _ _ Hstep Hi) as (c' & Hi' & Hc'). eapply IH; [done|].
    destruct Hc' as [->|[?|?]]; lia.
Qed.

(** The account has left version [v] behind. *)
Definition beyond (v : Z) (m : RefreshMachine) : Prop :=
  match account m with Some a => v < token_version a | None => True end.

(** While an attempt of a waiter that observed [o] is under way *)
Record waiter_attempt (i : nat) (v o : Z) (m : RefreshMachine) : Prop := {
  wa_gates : gates_ok m;
  wa_call : exists c g, calls m !! i = Some c /\ call_pc c = Attempting g (Some o) /\ call_version c = v;
  wa_account : beyond v m \/ exists a, account m = Some a /\ token_version a = v;
  wa_count : failed_refresh_attempts (mem m) id v = o + 1
}.

(** After it failed *)
Definition waiter_failed (v lo hi : Z) (m : RefreshMachine) : Prop :=
  beyond v m \/
  (exists a, account m = Some a /\ token_version a = v) /\
  lo <= failed_refresh_attempts (mem m) id v <= hi /\
  forall j c g w, calls m !! j = Some c -> call_pc c = Attempting g w -> call_version c = v.

Lemma beyond_step v e m m' : step e m m' -> beyond v m -> beyond v m'.
Proof.
  intros H%step_account_moves. unfold beyond, account_moves in *.
  destruct (account m), (account m'); try done. lia.
Qed.

Lemma at_step v e m m' : step e m m' ->
  (exists a, account m = Some a /\ token_version a = v) ->
  beyond v m' \/ exists a, account m' = Some a /\ token_version a = v.
Proof.
  intros H%step_account_moves (a & Ha & <-). unfold beyond, account_moves in *. rewrite Ha in H.
  destruct (account m') as [a'|]; [|by left]. destruct (decide (token_version a' = token_version a)).
  - right. eauto.
  - left. lia.
Qed.

Lemma attempts_after st st' v n :
  failed_attempts st' = <[id := {| attempts_version := v; attempts := n |}]> (failed_attempts st) ->
  failed_refresh_attempts st' id v = n.
Proof. intros E. unfold failed_refresh_attempts. rewrite E, lookup_insert_eq. simpl. by rewrite Z.eqb_refl. Qed.

Lemma attempts_same st st' v : failed_attempts st' = failed_attempts st ->
  failed_refresh_attempts st' id v = failed_refresh_attempts st id v.
Proof. intros E. unfold failed_refresh_attempts. by rewrite E. Qed.

Lemma attempting_unique m i j ci cj gi gj wi wj : gates_ok m ->
  calls m !! i = Some ci -> call_pc ci = Attempting gi wi ->
  calls m !! j = Some cj -> call_pc cj = Attempting gj wj -> i = j.
Proof.
  intros Hok Hi Hpi Hj Hpj.
  pose proof (go_locks _ Hok _ _ gi Hi ltac:(by rewrite Hpi)).
  pose proof (go_locks _ Hok _ _ gj Hj ltac:(by rewrite Hpj)).
  pose proof (go_entry _ Hok _ _ gi Hi ltac:(by rewrite Hpi)).
  pose proof (go_entry _ Hok _ _ gj Hj ltac:(by rewrite Hpj)). congruence.
Qed.

Lemma waiter_attempt_step e m m' i v o : step e m m' -> forgets e = false ->
  0 <= o -> o + 2 < 2 ^ 64 -> waiter_attempt i v o m ->
  (e = EvFail i v /\ waiter_failed v (o + 2) (o + 2) m') \/
  waiter_attempt i v o m' \/
  (e <> EvFail i v /\ exists c, calls m' !! i = Some c /\ (6 <= pc_rank (call_pc c))%nat).
Proof.
  intros Hstep Hf Ho Hb [Hok (c & g & Hi & Hp & Hv) Hacc Hcount].
  assert (gates_ok m') as Hok' by eauto using step_gates_ok.
  assert (beyond v m' \/ exists a, account m' = Some a /\ token_version a = v) as Hacc'.
  { destruct Hacc as [?|?]; [left; eauto using beyond_step|eauto using at_step]. }
  destruct (step_rank _ _ _ _ _ Hstep Hi) as (c' & Hi' & Hc').
  destruct (step_attempts _ _ _ Hstep Hf) as [[Hnf E]|(j & d & g' & w' & -> & Hj & Hd & E)].
  - right. destruct Hc' as [->|Hr].
    + left. constructor; [done|by exists c, g|done|]. by rewrite (attempts_same _ _ _ E), Hcount.
    + right. split; [done|]. exists c'. rewrite Hp in Hr. simpl in Hr. split; [done|lia].
  - destruct (attempting_unique m i j c d g g' (Some o) w' Hok Hi Hp Hj Hd). simplify_eq.
    left. split; [done|]. apply attempts_after in E.
    rewrite Hcount in E. unfold wrapping_add_u64 in E. rewrite Z.mod_small in E by lia.
    destruct Hacc' as [?|?]; [by left|]. right. split; [done|]. split; [lia|].
    intros k ck gk wk Hk Hpk.
    destruct (step_attempting _ _ _ _ _ _ _ Hstep Hk Hpk) as [Hk0|(a & Ha & Hva)].
    + destruct (attempting_unique m i k c ck g gk (Some o) wk Hok Hi Hp Hk0 Hpk).
      inversion Hstep; subst; simpl in *. rewrite list_lookup_insert_eq in Hk
        by (by eapply lookup_lt_Some). by simplify_eq/=.
    + inversion Hstep; subst; simpl in *. apply list_lookup_insert_Some in Hk as [(_ & <- & _)|[Hne Hk]];
        [done|]. by destruct (attempting_unique m i k c ck g gk (Some o) wk Hok Hi Hp Hk Hpk).
Qed.

Lemma waiter_failed_step e m m' v lo hi : step e m m' -> forgets e = false ->
  0 <= lo -> hi + 1 < 2 ^ 64 -> waiter_failed v lo hi m -> waiter_failed v lo (hi + 1) m'.
Proof.
  intros Hstep Hf Hlo Hhi [Hb|(Ha & Hcount & Hatt)]; [left; eauto using beyond_step|].
  destruct (at_step _ _ _ _ Hstep Ha) as [?|Ha']; [by left|]. right. split; [done|]. split.
  - destruct (step_attempts _ _ _ Hstep Hf) as [[_ E]|(j & d & g & w & -> & Hj & Hd & E)].
    + rewrite (attempts_same _ _ _ E). lia.
    + rewrite (Hatt _ _ _ _ Hj Hd) in E. rewrite (attempts_after _ _ _ _ E).
      unfold wrapping_add_u64. rewrite Z.mod_small by lia. lia.
  - intros j c g w Hj Hp. destruct (step_attempting _ _ _ _ _ _ _ Hstep Hj Hp) as [?|(a & E & <-)];
      [eauto|]. destruct Ha as (a' & E' & <-). congruence.
Qed.

Lemma waiter_failed_run es m m' v lo hi : run es m m' -> Forall (fun e => forgets e = false) es ->
  0 <= lo -> hi + Zlen es < 2 ^ 64 -> waiter_failed v lo hi m -> waiter_failed v lo (hi + Zlen es) m'.
Proof.
  intros Hrun. revert hi. induction Hrun as [|e es m1 m2 m3 Hstep Hrun IH]; intros hi Hf Hlo Hhi H.
  - unfold Zlen. simpl. by rewrite Z.add_0_r.
  - apply Forall_cons in Hf as [He Hf]. unfold Zlen in *. cbn [length] in *.
    replace (hi + Z.of_nat (S (length es))) with (hi + 1 + Z.of_nat (length es)) by lia.
    apply IH; [done|done|lia|]. eapply waiter_failed_step; [done..| |done]. lia.
Qed.

Lemma waiter_attempt_run mid rest m m' i v o : run (mid ++ EvFail i v :: rest) m m' ->
  Forall (fun e => forgets e = false) mid -> 0 <= o -> o + 2 < 2 ^ 64 -> waiter_attempt i v o m ->
  exists m2, waiter_failed v (o + 2) (o + 2) m2 /\ run rest m2 m'.
Proof.
  intros Hrun Hf Ho Hb. revert m Hrun. induction Hf as [|e mid He Hf IH]; intros m Hrun Hw;
    simpl in Hrun; inversion Hrun as [|e' es' m1 m2 m3 Hstep Hrest]; subst.
  - destruct (waiter_attempt_step _ _ _ _ _ _ Hstep eq_refl Ho Hb Hw) as [[_ ?]|[Hw'|[? _]]]; [eauto| |done].
    exfalso. destruct (step_fail_inv _ _ _ _ _ Hstep eq_refl) as (c & g & w & Hc & Hp & _).
    inversion Hstep; subst. destruct Hw' as [_ (c' & g' & Hi' & Hp' & _) _ _]. simpl in Hi'.
    rewrite list_lookup_insert_eq in Hi' by (by eapply lookup_lt_Some). by simplify_eq/=.
  - destruct (waiter_attempt_step _ _ _ _ _ _ Hstep He Ho Hb Hw) as [[-> _]|[Hw'|(_ & c & Hc & Hr)]].
    + exfalso. destruct (step_fail_inv _ _ _ _ _ Hstep eq_refl) as (c & g & w & Hc & Hp & _).
      inversion Hstep; subst. eapply past_no_fail; [exact Hrest| | |].
      * simpl. apply list_lookup_insert_eq. by eapply lookup_lt_Some.
      * simpl. lia.
      * apply elem_of_app. right. apply elem_of_cons. by left.
    + eauto.
    + exfalso. eapply past_no_fail; [exact Hrest|done|done|].
      apply elem_of_app. right. apply elem_of_cons. by left.
Qed.

Lemma start_inv m m' i v w : step (EvStart i v w) m m' ->
  exists c g, calls m' !! i = Some c /\ call_pc c = Attempting g w /\ call_version c = v /\
    (exists a, account m = Some a /\ token_version a = v) /\ account m' = account m /\
    failed_attempts (mem m') = failed_attempts (mem m) /\
    forall o, w = Some o -> failed_refresh_attempts (mem m) id v = saturating_add u64_max o 1.
Proof.
  intros Hstep. inversion Hstep as [| | | | |? ? c g ? ? st t Hi Hp H| | | | | | | | | |]; subst.
  destruct (preflight_spec _ _ _ _ _ _ _ _ H) as [E HH]. destruct (HH _ eq_refl) as [Ha Ho].
  exists (at_pc c (Attempting g w)), g. simpl.
  rewrite list_lookup_insert_eq by (by eapply lookup_lt_Some). by split_and!.
Qed.

(** Of the calls that queued behind a refresh, only one makes a failing attempt
    of its own: once a waiter that had read [o] failed attempts starts its
    attempt and that fails too, every waiter that starts later at the same token
    version read more than [o], so all that queued together with it back off.
    This holds while no step forgets the count (a scan that drops the account's
    record, or the recording of a success). *)
Theorem refresh_waiters_back_off a cs pre mid post i j v o1 o2 m :
  run (pre ++ EvStart i v (Some o1) :: mid ++ EvFail i v :: post ++ [EvStart j v (Some o2)])
    (refresh_start a cs) m ->
  Forall (fun e => forgets e = false) (mid ++ post) ->
  0 <= o1 -> o1 + 2 + Zlen post < 2 ^ 64 ->
  o1 < o2.
Proof.
  intros Hrun Hf Ho Hb. apply Forall_app in Hf as [Hmid Hpost].
  assert (forall es1 es2 x y, run (es1 ++ es2) x y -> exists z, run es1 x z /\ run es2 z y) as Happ.
  { intros es1. induction es1 as [|e es1 IH]; intros es2 x y H; simpl in H; [exists x; split; [constructor|done]|].
    inversion H; subst. edestruct IH as (z & ? & ?); [done|]. exists z. split; [by econstructor|done]. }
  apply Happ in Hrun as (m0 & Hpre & Hrun).
  apply run_gates_ok in Hpre; [|apply start_gates_ok].
  inversion Hrun as [|e es m1' m1 m3 Hstart Hrest]; subst.
  assert (gates_ok m1) by eauto using step_gates_ok.
  destruct (start_inv _ _ _ _ _ Hstart) as (c & g & Hi & Hp & Hv & Hacc & Eacc & Eatt & Hobs).
  assert (waiter_attempt i v o1 m1) as Hw.
  { constructor; [done|by exists c, g|right; by rewrite Eacc|].
    rewrite (attempts_same _ _ _ Eatt), (Hobs _ eq_refl). unfold saturating_add, u64_max, Zlen in *. lia. }
  clear Hi Hp Hv.
  destruct (waiter_attempt_run _ _ _ _ _ _ _ Hrest Hmid Ho) as (m2 & Hfail & Hrun2);
    [unfold Zlen in *; lia|done|].
  apply Happ in Hrun2 as (m4 & Hpost' & Hlast). inversion Hlast as [|e es m4' m5 m6 Hstart2 _]; subst.
  apply waiter_failed_run with (v := v) (lo := o1 + 2) (hi := o1 + 2) in Hpost'; [|done|lia|done|done].
  destruct (start_inv _ _ _ _ _ Hstart2) as (_ & _ & _ & _ & _ & (a' & Ha' & Hva') & _ & _ & Hobs2).
  destruct Hpost' as [Hbey|(_ & Hcount & _)].
  - unfold beyond in Hbey. rewrite Ha' in Hbey. lia.
  - rewrite (Hobs2 _ eq_refl) in Hcount. unfold saturating_add in Hcount. lia.
Qed.
End proofs.

(** The machine that runs is the machine of the theorems. *)
Lemma refresh_exec_sound id lead_time cl input e m m' :
  refresh_exec id lead_time cl input e m = Some m' -> refresh_step id lead_time cl e m m'.
Proof.
  assert (forall a b, account_moves_b a b = true -> account_moves a b) as Hmoves.
  { intros [a|] [b|] H; simpl in *; try done. by bool_to_prop. }
  intros H. destruct e; simpl in H.
  14, 15: repeat case_match; simplify_eq; econstructor; eauto.
  all: destruct (calls m !! i) as [c|] eqn:Ei; [simpl in H|done].
  13: { pose proof (step_cancel id lead_time cl m i c Ei) as Hs.
        destruct (call_pc c) eqn:Ep; simplify_eq; try (by apply Hs). by eapply step_detach. }
  all: destruct (call_pc c) eqn:Ep; simplify_eq/=; repeat case_match; simplify_eq/=;
    try (destruct_and?; subst); try (by econstructor; eauto);
    try (match goal with E : _ && _ = _ |- _ => rename E into Eif end).
  - match goal with a : () |- _ => destruct a end. by econstructor.
  - pose proof (step_published id lead_time cl m i c g attended o Ei Ep) as Hs.
    rewrite Eif in Hs. auto.
  - pose proof (step_published id lead_time cl m i c g attended o Ei Ep) as Hs.
    rewrite Eif in Hs. auto.
Qed.

Lemma refresh_exec_all_sound id lead_time cl es m m' :
  refresh_exec_all id lead_time cl es m = Some m' -> refresh_run id lead_time cl (snd <$> es) m m'.
Proof.
  revert m. induction es as [|[input e] es IH]; intros m H; simpl in *; [simplify_eq; constructor|].
  destruct (refresh_exec _ _ _ _ _ m) as [m1|] eqn:E; [simpl in H|done].
  econstructor; [by eapply refresh_exec_sound|]. by apply IH.
Qed.

(** * What is told of failures *)

(** A failed refresh asks for a new login exactly when the token endpoint
    rejected the refresh token for good. *)
Theorem refresh_reauthorization_exact e version trigger now :
  reauthorization_required (refresh_error_failure e version trigger now) = true <->
  exists status rejection, e = ErrRefreshRejected status rejection /\ is_permanent rejection = true.
Proof.
  split.
  - destruct e as [| | | |status r|o| | | | | |p]; try done.
    + intros H. exists status, r. by destruct r.
    + by destruct o.
    + by destruct p.
  - intros (status & r & -> & H). by destruct r.
Qed.

(** [record_refresh_failure] and [record_refresh_success], through
    [refresh_failure] *)
Lemma record_failure_seen st id f :
  refresh_failure (record_refresh_failure st id f) id (failed_version f) = Some f.
Proof.
  unfold refresh_failure, record_refresh_failure, notify_refresh_failure_changed.
  case_bool_decide; simpl; rewrite lookup_insert_eq, Z.eqb_refl; done.
Qed.

Lemma record_success_clears st id v v' : v' <= v ->
  refresh_failure (record_refresh_success st id v) id v' = None /\
  failed_refresh_attempts (record_refresh_success st id v) id v' = 0 /\
  (permanent_rejection (record_refresh_success st id v) id v').2 = None.
Proof.
  intros Hv. unfold record_refresh_success, refresh_failure, failed_refresh_attempts, permanent_rejection.
  destruct (failures st !! id) as [f|] eqn:Ef; [destruct (failed_version f <=? v) eqn:E|]; bool_to_prop;
    simpl; rewrite ?lookup_delete_eq, ?Ef; simpl; try done.
  rewrite (proj2 (Z.eqb_neq _ _)) by lia. done.
Qed.

(** After a scan only records of the published version of a published account
    are left. *)
Lemma retain_active_spec st active id f :
  failures (retain_active_refresh_state st active) !! id = Some f <->
  failures st !! id = Some f /\ active !! id = Some (failed_version f).
Proof.
  unfold retain_active_refresh_state. rewrite <- map_lookup_filter_Some with
    (P := fun kv => active !! kv.1 = Some (failed_version kv.2)).
  case_bool_decide; done.
Qed.

(** The watch of refresh failures moves exactly when what it shows changed. *)
Lemma record_failure_notifies st id f : 0 <= failure_changes st < u64_max ->
  failure_changes (record_refresh_failure st id f) = failure_changes st <->
  failures (record_refresh_failure st id f) = failures st.
Proof.
  intros Hn. unfold record_refresh_failure. case_bool_decide as E; simpl.
  - split; [intros _|done]. by apply insert_id.
  - unfold wrapping_add_u64, u64_max in *. rewrite Z.mod_small by lia. split; [lia|].
    intros Hi. destruct E. rewrite <- Hi at 1. apply lookup_insert_eq.
Qed.

(** * Scans *)

Lemma record_all_spec p revisions p' : record_all p revisions = Ret p' ->
  started_at p' = started_at p /\
  default (started_at p') (latest p') = List.last revisions (default (started_at p) (latest p)) /\
  (external_revision_interleaved p' = false <->
   external_revision_interleaved p = false /\
   forall i r, revisions !! i = Some r ->
     r = default (started_at p) (latest p) + 1 + Z.of_nat i).
Proof.
  revert p. induction revisions as [|r revisions IH]; intros p H; simpl in H.
  { simplify_eq. simpl. split; [done|]. split; [done|]. split; [|tauto]. intros ?. split; [done|].
    intros i r Hi. by rewrite lookup_nil in Hi. }
  destruct (publications_record p r) as [p1|] eqn:E; [simpl in H|done].
  apply IH in H as (H1 & H2 & H3). clear IH. unfold publications_record, checked_add in E.
  destruct (_ <=? u64_max); simplify_eq/=. split; [done|]. split.
  { rewrite H2. destruct revisions as [|y l]; [done|].
    destruct (exists_last (l := y :: l) ltac:(done)) as (k & z & E). by rewrite E, !last_last. }
  rewrite H3, orb_false_iff, negb_false_iff, Z.eqb_eq. split.
  - intros [[He Hr] Hall]. split; [done|]. intros [|i] x Hx; simpl in Hx; simplify_eq; [lia|].
    rewrite (Hall _ _ Hx). lia.
  - intros [He Hall]. pose proof (Hall 0%nat r eq_refl). split; [split; [done|lia]|].
    intros i x Hx. rewrite (Hall (S i) x Hx). lia.
Qed.

(** After a scan the worker waits for its interval exactly when nothing but the
    scan itself was published since the scan began: its own publications got
    consecutive revisions after the one it started at, and no revision is newer
    than the last of them. *)
Theorem scan_rescan_exact started revisions p newest :
  record_all (publications_new started) revisions = Ret p ->
  requires_immediate_rescan p newest = false <->
  (forall i r, revisions !! i = Some r -> r = started + 1 + Z.of_nat i) /\
  newest <= started + Zlen revisions.
Proof.
  intros H. apply record_all_spec in H as (H1 & H2 & H3). simpl in *.
  unfold requires_immediate_rescan. rewrite orb_false_iff, H3, H2, Z.ltb_ge.
  assert ((forall i r, revisions !! i = Some r -> r = started + 1 + Z.of_nat i) ->
    List.last revisions started = started + Zlen revisions) as Hlast.
  { intros Hall. unfold Zlen. destruct (decide (revisions = [])) as [->|Hne]; [simpl; lia|].
    destruct (exists_last Hne) as (l & x & ->). rewrite last_last, length_app. simpl.
    rewrite (Hall (length l) x); [lia|]. by apply list_lookup_middle. }
  split.
  - intros [[_ Hall] Hle]. rewrite Hlast in Hle by done. done.
  - intros [Hall Hle]. rewrite Hlast by done. done.
Qed.

(** * Witnesses *)

Definition sample_account : OAuthAccount :=
  {| token_version := 7; expires_at := None; token_material := Some (Some "refresh") |}.
Definition sample_calls : list (Z * OAuthRefreshTrigger) :=
  replicate 4 (7, AuthenticationFailure).

Definition sample_input : refresh_input :=
  {| in_now := 0; in_answer := AttemptError ErrTokenResponseInvalid; in_account := None; in_active := ∅ |}.
Definition good_input : refresh_input :=
  {| in_now := 0; in_answer := AttemptRefreshed; in_account := None; in_active := ∅ |}.

(** Two calls queue behind a refresh that fails; one of them retries and fails
    as well, and a fourth that queued behind that retry follows. *)
Definition sample_events : list refresh_event :=
  [EvGate 0; EvLocked 0; EvGate 1; EvBlocked 1; EvObserved 1; EvGate 2; EvBlocked 2; EvObserved 2;
   EvStart 0 7 None; EvFail 0 7; EvAcquired 1] ++
  EvStart 1 7 (Some 0) :: [EvGate 3; EvBlocked 3; EvObserved 3] ++
  EvFail 1 7 :: [EvAcquired 2; EvReturn 2; EvAcquired 3] ++ [EvStart 3 7 (Some 1)].

Lemma sample_refreshes : exists m,
  refresh_run 1 60 classify sample_events (refresh_start (Some sample_account) sample_calls) m.
Proof.
  destruct (refresh_exec_all 1 60 classify (pair sample_input <$> sample_events)
    (refresh_start (Some sample_account) sample_calls)) as [m|] eqn:E; [|by vm_compute in E].
  exists m. apply refresh_exec_all_sound in E. by rewrite <- list_fmap_compose, list_fmap_id in E.
Qed.

Lemma refresh_waiters_back_off_witness : 0 < 1.
Proof.
  destruct sample_refreshes as [m Hm].
  eapply (refresh_waiters_back_off _ _ _ _ _ _ _ _ _ _ _ Hm);
    [repeat constructor|lia|unfold Zlen; simpl; lia].
Defined.

Lemma refresh_single_flight_witness : exists m,
  forall i j ci cj, calls m !! i = Some ci -> calls m !! j = Some cj ->
    is_Some (pc_locks (call_pc ci)) -> is_Some (pc_locks (call_pc cj)) -> i = j.
Proof.
  destruct sample_refreshes as [m Hm]. exists m.
  exact (proj1 (refresh_single_flight _ _ _ _ Hm)).
Defined.

Lemma scan_rescan_exact_witness :
  requires_immediate_rescan
    {| started_at := 10; latest := Some 12; external_revision_interleaved := false |} 12 = false.
Proof.
  apply (scan_rescan_exact 10 [11; 12]); [reflexivity|]. split; [|unfold Zlen; simpl; lia].
  intros [|[|i]] r Hi; simpl in Hi; simplify_eq; try done.
Defined.

(** When the publication of a retry fails, the count has not moved: the next
    waiter that queued with the retry starts an attempt of its own as well. *)
Lemma refresh_publish_failure_retries : exists m, refresh_run 1 60 classify
  [EvGate 0; EvLocked 0; EvGate 1; EvBlocked 1; EvObserved 1; EvGate 2; EvBlocked 2; EvObserved 2;
   EvStart 0 7 None; EvFail 0 7;
   EvAcquired 1; EvStart 1 7 (Some 0); EvPrepared 1; EvPublishFailed 1;
   EvAcquired 2; EvStart 2 7 (Some 0)]
  (refresh_start (Some sample_account) sample_calls) m.
Proof.
  set (es := [EvGate 0; EvLocked 0; EvGate 1; EvBlocked 1; EvObserved 1; EvGate 2; EvBlocked 2;
    EvObserved 2; EvStart 0 7 None; EvFail 0 7; EvAcquired 1; EvStart 1 7 (Some 0)]).
  set (es' := [EvPrepared 1; EvPublishFailed 1; EvAcquired 2; EvStart 2 7 (Some 0)]).
  destruct (refresh_exec_all 1 60 classify ((pair sample_input <$> es) ++ (pair good_input <$> es'))
    (refresh_start (Some sample_account) sample_calls)) as [m|] eqn:E; [|by vm_compute in E].
  exists m. by apply refresh_exec_all_sound in E.
Qed.
