(* ===== verification/Drivers.v ===== *)
(** * Provider drivers: tokens, identities, facets and their registry

    Models [provider/src/oauth/token.rs], [identity.rs] and [routing.rs], the
    descriptors and facets of the built-in drivers ([openai], [codex], [claude],
    [grok], [kimi]) and [provider/src/registry.rs].

    The JSON library that reads an account document, the hash and the Unicode
    lower-casing of an address are parameters. *)
From S2P Require Import Prelude Search Protocol Text Upstream OAuthErrors Entities Catalog Routes.
Local Open Scope Z_scope.

(** * Tokens *)

Record OAuthTokenMaterial := {
  tk_provider : ProviderKind;
  tk_access : string;
  tk_refresh : option string;
  tk_id : option string;
  tk_expires_at : option Z;
  tk_account : option string;
  tk_email : option string
}.

(** [optional_secret] and [optional_text] *)
Definition optional_text (value : option string) : option string :=
  v ← value; if bool_decide (trim v = "") then None else Some v.

(** [OAuthTokenMaterial::new] *)
Definition token_new (provider : ProviderKind) (access : string) (refresh id : option string)
    (expires_at : option Z) (account email : option string)
    : result OAuthTokenMaterial ProviderError :=
  if bool_decide (trim access = "")
  then Err (InvalidResponse "OAuth response did not contain an access token")
  else Ok {| tk_provider := provider; tk_access := access; tk_refresh := optional_text refresh;
             tk_id := optional_text id; tk_expires_at := expires_at;
             tk_account := optional_text account; tk_email := optional_text email |}.

Definition or_else {A} (a b : option A) : option A := match a with Some _ => a | None => b end.

(** [merge_refresh_response], [merge_missing_identity] *)
Definition merge_refresh_response (t previous : OAuthTokenMaterial)
    : result OAuthTokenMaterial ProviderError :=
  if bool_decide (tk_provider t <> tk_provider previous)
  then Err (InvalidResponse "OAuth refresh response provider does not match the account")
  else Ok {| tk_provider := tk_provider t; tk_access := tk_access t;
             tk_refresh := or_else (tk_refresh t) (tk_refresh previous);
             tk_id := or_else (tk_id t) (tk_id previous); tk_expires_at := tk_expires_at t;
             tk_account := or_else (tk_account t) (tk_account previous);
             tk_email := or_else (tk_email t) (tk_email previous) |}.
Definition merge_missing_identity (t previous : OAuthTokenMaterial)
    : result OAuthTokenMaterial ProviderError :=
  if bool_decide (tk_provider t <> tk_provider previous)
  then Err (InvalidResponse "OAuth token provider does not match the account")
  else Ok {| tk_provider := tk_provider t; tk_access := tk_access t; tk_refresh := tk_refresh t;
             tk_id := or_else (tk_id t) (tk_id previous); tk_expires_at := tk_expires_at t;
             tk_account := or_else (tk_account t) (tk_account previous);
             tk_email := or_else (tk_email t) (tk_email previous) |}.

(** [i64::MAX] *)
Definition i64_max : Z := 2 ^ 63 - 1.

(** [expires_at_from_duration]; [now] is the clock, absent before the epoch or
    past the range of [i64] *)
Definition expires_at_from_duration (now : option Z) (expires_in : Z) : result Z ProviderError :=
  if expires_in <=? 0 then Err (InvalidResponse "OAuth response expires_in is invalid")
  else match now ≫= fun now => checked_add i64_max now expires_in with
       | Some at_ => Ok at_
       | None => Err (InvalidResponse "OAuth response expires_in is invalid")
       end.

(** The fields of an account document *)
Record OAuthAccountDocumentFields := {
  df_access : string;
  df_refresh : option string;
  df_id : option string;
  df_account : option string;
  df_email : option string
}.

(** [OAuthAccountDocumentRef], what [encode_oauth_account_document] writes *)
Definition document_of (t : OAuthTokenMaterial) : OAuthAccountDocumentFields :=
  {| df_access := tk_access t; df_refresh := tk_refresh t; df_id := tk_id t;
     df_account := tk_account t; df_email := tk_email t |}.

(** The JSON library: what it writes of a document, and what it reads of bytes *)
Class DocumentCodec := {
  to_vec_pretty : OAuthAccountDocumentFields -> option (list Byte.byte);
  from_slice : list Byte.byte -> option OAuthAccountDocumentFields
}.

(** [encode_oauth_account_document], [decode_oauth_account_document] *)
Definition encode_oauth_account_document {codec : DocumentCodec} (t : OAuthTokenMaterial)
    : result (list Byte.byte) ProviderError :=
  match to_vec_pretty (document_of t) with
  | Some bytes => Ok (bytes ++ [Byte.x0a])
  | None => Err (InvalidResponse "OAuth document serialization failed")
  end.
Definition decode_oauth_account_document {codec : DocumentCodec} (provider : ProviderKind)
    (expires_at : option Z) (bytes : list Byte.byte) : result OAuthTokenMaterial ProviderError :=
  match from_slice bytes with
  | None => Err (InvalidResponse "OAuth account document is invalid")
  | Some d =>
    match token_new provider (df_access d) (df_refresh d) (df_id d) expires_at (df_account d)
            (df_email d) with
    | Ok t => Ok t
    | Err _ => Err (InvalidResponse "OAuth account document is invalid")
    end
  end.

(** * Identities of principals *)

Inductive OAuthPrincipalIdentityKind := AccountId | EmailIdentity | WorkspaceMember.
#[export] Instance identity_kind_eq_dec : EqDecision OAuthPrincipalIdentityKind.
Proof. solve_decision. Defined.

Record OAuthPrincipalIdentity := {
  identity_provider : ProviderKind;
  identity_kind : OAuthPrincipalIdentityKind;
  identity_digest : list Byte.byte
}.

Definition bytes_of (s : string) : list Byte.byte := String.list_byte_of_string s.
(** [u64::to_be_bytes] *)
Definition byte_of_Z (n : Z) : Byte.byte := default Byte.x00 (Byte.of_N (Z.to_N (n mod 256))).
Definition be_bytes (n : Z) : list Byte.byte :=
  (fun i => byte_of_Z (Z.shiftr n (8 * i))) <$> [7; 6; 5; 4; 3; 2; 1; 0].

(** What [update] adds to the digest *)
Definition update_bytes (value : option (list Byte.byte)) : list Byte.byte :=
  match value with
  | Some value => Byte.x01 :: be_bytes (Zlen value) ++ value
  | None => [Byte.x00]
  end.

Definition kind_label (k : OAuthPrincipalIdentityKind) : string :=
  match k with
  | AccountId => "account_id" | EmailIdentity => "email" | WorkspaceMember => "workspace_member"
  end.

(** The bytes [principal_identity] hashes *)
Definition principal_bytes (provider : ProviderKind) (kind : OAuthPrincipalIdentityKind)
    (parts : list (option string)) : list Byte.byte :=
  bytes_of "any2api.oauth-principal-identity.v1" ++ [Byte.x00] ++
  update_bytes (Some (bytes_of (provider_as_str provider))) ++
  update_bytes (Some (bytes_of (kind_label kind))) ++
  mjoin ((fun p => update_bytes (bytes_of <$> p)) <$> parts).

(** [normalize_exact] *)
Definition normalize_exact (value : string) : option string :=
  let value := trim value in if bool_decide (value = "") then None else Some value.

Section identity.
Context (sha256 : list Byte.byte -> list Byte.byte) (to_lowercase : string -> string).

Definition principal_identity (provider : ProviderKind) (kind : OAuthPrincipalIdentityKind)
    (parts : list (option string)) : OAuthPrincipalIdentity :=
  {| identity_provider := provider; identity_kind := kind;
     identity_digest := sha256 (principal_bytes provider kind parts) |}.

(** [normalize_email] *)
Definition normalize_email (value : string) : option string := to_lowercase <$> normalize_exact value.

(** [email_principal_identity], [workspace_member_principal_identity],
    [default_principal_identity] *)
Definition email_principal_identity (provider : ProviderKind) (email : option string)
    : option OAuthPrincipalIdentity :=
  email ← email; email ← normalize_email email;
  Some (principal_identity provider EmailIdentity [Some email]).
Definition workspace_member_principal_identity (provider : ProviderKind) (workspace : option string)
    (member : string) : option OAuthPrincipalIdentity :=
  let workspace := workspace ≫= normalize_exact in
  member ← normalize_exact member;
  Some (principal_identity provider WorkspaceMember [workspace; Some member]).
Definition default_principal_identity (t : OAuthTokenMaterial) : option OAuthPrincipalIdentity :=
  match tk_account t ≫= normalize_exact with
  | Some account => Some (principal_identity (tk_provider t) AccountId [Some account])
  | None => email_principal_identity (tk_provider t) (tk_email t)
  end.
End identity.

(** * Drivers and their facets *)

Record OAuthRoutingProfile := { profile_base_url : string; profile_dialect : ProtocolDialect }.

(** [OAuthRoutingProfile::fixed] *)
Definition profile_fixed {url_lib : UrlLib} (base_url : string) (dialect : ProtocolDialect)
    : result OAuthRoutingProfile ProviderError :=
  match base_url_parse base_url with
  | Ok base_url => Ok {| profile_base_url := base_url; profile_dialect := dialect |}
  | Err _ => Err (InvalidEndpoint "fixed OAuth base URL is invalid")
  end.

(** The facets of quotas a driver may have beside the quota facet itself *)
Record QuotaFacet := { has_supplement : bool; has_reset : bool }.

(** [ProviderDriver], as far as routing and registration ask it *)
Record ProviderDriver := {
  driver_descriptor : ProviderDescriptor;
  has_authorization_code : bool;
  has_device_code : bool;
  has_token : bool;
  oauth_routing : option (OAuthTokenMaterial -> result OAuthRoutingProfile ProviderError);
  oauth_quota : option QuotaFacet
}.
(** [ProviderDriver::kind] *)
Definition driver_kind (d : ProviderDriver) : ProviderKind := descriptor_kind (driver_descriptor d).

(** [OAuthCapabilities::new], [with_quota], [with_quota_supplement], [with_quota_reset] *)
Definition capabilities_new (operations : list ProtocolOperation) (flow : OAuthLoginFlow)
    : OAuthCapabilities :=
  {| oauth_operations := operations; login_flow := flow; quota := false; quota_supplement := false;
     quota_reset := false |}.
Definition with_quota (c : OAuthCapabilities) : OAuthCapabilities :=
  {| oauth_operations := oauth_operations c; login_flow := login_flow c; quota := true;
     quota_supplement := quota_supplement c; quota_reset := quota_reset c |}.
Definition with_quota_supplement (c : OAuthCapabilities) : OAuthCapabilities :=
  {| oauth_operations := oauth_operations c; login_flow := login_flow c; quota := true;
     quota_supplement := true; quota_reset := quota_reset c |}.
Definition with_quota_reset (c : OAuthCapabilities) : OAuthCapabilities :=
  {| oauth_operations := oauth_operations c; login_flow := login_flow c; quota := true;
     quota_supplement := quota_supplement c; quota_reset := true |}.

(** The [DESCRIPTOR] of each driver *)
Definition openai_descriptor : ProviderDescriptor :=
  {| descriptor_kind := OpenAi;
     api_key_operations := [Responses; ResponsesCompact; ChatCompletions; ImagesGenerations;
                            ImagesEdits];
     oauth := None; transport_modes := [Json; Sse] |}.
Definition codex_descriptor : ProviderDescriptor :=
  {| descriptor_kind := Codex;
     api_key_operations := [Responses; ResponsesCompact; AlphaSearch; ChatCompletions;
                            ImagesGenerations; ImagesEdits];
     oauth := Some (with_quota_reset (with_quota
                (capabilities_new [Responses; ResponsesCompact; AlphaSearch] AuthorizationCodePkce)));
     transport_modes := [Json; Sse] |}.
Definition claude_descriptor : ProviderDescriptor :=
  {| descriptor_kind := Claude;
     api_key_operations := [Messages; MessagesCountTokens];
     oauth := Some (with_quota (capabilities_new [Messages; MessagesCountTokens] AuthorizationCodePkce));
     transport_modes := [Json; Sse] |}.
Definition grok_descriptor : ProviderDescriptor :=
  {| descriptor_kind := Grok;
     api_key_operations := [Responses; ResponsesCompact; ChatCompletions];
     oauth := Some (with_quota_supplement (with_quota (capabilities_new [Responses] DeviceCodeFlow)));
     transport_modes := [Json; Sse] |}.
Definition kimi_descriptor : ProviderDescriptor :=
  {| descriptor_kind := Kimi; api_key_operations := [ChatCompletions]; oauth := None;
     transport_modes := [Json; Sse] |}.

(** A driver that overrides none of the facets of the trait *)
Definition plain_driver (d : ProviderDescriptor) : ProviderDriver :=
  {| driver_descriptor := d; has_authorization_code := false; has_device_code := false;
     has_token := false; oauth_routing := None; oauth_quota := None |}.

Section builtin.
Context {url_lib : UrlLib}.
Definition openai_driver : ProviderDriver := plain_driver openai_descriptor.
Definition codex_driver : ProviderDriver :=
  {| driver_descriptor := codex_descriptor; has_authorization_code := true; has_device_code := false;
     has_token := true;
     oauth_routing := Some (fun _ => profile_fixed "https://chatgpt.com/backend-api/codex" OpenAiResponses);
     oauth_quota := Some {| has_supplement := false; has_reset := true |} |}.
Definition claude_driver : ProviderDriver :=
  {| driver_descriptor := claude_descriptor; has_authorization_code := true; has_device_code := false;
     has_token := true;
     oauth_routing := Some (fun _ => profile_fixed "https://api.anthropic.com" AnthropicMessages);
     oauth_quota := Some {| has_supplement := false; has_reset := false |} |}.
Definition grok_driver : ProviderDriver :=
  {| driver_descriptor := grok_descriptor; has_authorization_code := false; has_device_code := true;
     has_token := true;
     oauth_routing := Some (fun _ => profile_fixed "https://cli-chat-proxy.grok.com/v1" OpenAiResponses);
     oauth_quota := Some {| has_supplement := true; has_reset := false |} |}.
Definition kimi_driver : ProviderDriver := plain_driver kimi_descriptor.
End builtin.

(** [ProviderRegistry], keyed by the kind of its drivers *)
Notation ProviderRegistry := (gmap ProviderKind ProviderDriver).

(** [validate_driver] *)
Definition validate_facets (d : ProviderDriver) : result () string :=
  match oauth (driver_descriptor d) with
  | None =>
    if has_authorization_code d || has_device_code d || has_token d ||
       bool_decide (is_Some (oauth_routing d)) || bool_decide (is_Some (oauth_quota d))
    then Err "OAuth facet is present without OAuth capabilities"
    else Ok ()
  | Some c =>
    if negb (has_token d) || negb (bool_decide (is_Some (oauth_routing d)))
    then Err "OAuth token or routing facet is missing"
    else if negb match login_flow c with
                 | AuthorizationCodePkce => has_authorization_code d && negb (has_device_code d)
                 | DeviceCodeFlow => has_device_code d && negb (has_authorization_code d)
                 end
    then Err "OAuth login facet does not match the descriptor"
    else if negb (bool_decide (quota c = bool_decide (is_Some (oauth_quota d))))
    then Err "OAuth quota facet does not match the descriptor"
    else match oauth_quota d with
         | None => Ok ()
         | Some q =>
           if negb (bool_decide (quota_supplement c = has_supplement q))
           then Err "OAuth quota supplement facet does not match the descriptor"
           else if negb (bool_decide (quota_reset c = has_reset q))
           then Err "OAuth quota reset facet does not match the descriptor"
           else Ok ()
         end
  end.
Definition validate_driver (d : ProviderDriver) : result () ProviderError :=
  let invalid := InvalidProviderDescriptor (driver_kind d) in
  match descriptor_validate (driver_descriptor d) with
  | Err reason => Err (invalid reason)
  | Ok _ => map_err invalid (validate_facets d)
  end.

(** [ProviderRegistry::register] *)
Definition register_driver (r : ProviderRegistry) (d : ProviderDriver)
    : result ProviderRegistry ProviderError :=
  match validate_driver d with
  | Err e => Err e
  | Ok _ => match r !! driver_kind d with
            | Some _ => Err (DuplicateProvider (driver_kind d))
            | None => Ok (<[driver_kind d := d]> r)
            end
  end.

Fixpoint register_drivers (r : ProviderRegistry) (l : list ProviderDriver)
    : result ProviderRegistry ProviderError :=
  match l with
  | [] => Ok r
  | d :: l => match register_driver r d with Err e => Err e | Ok r => register_drivers r l end
  end.

(** * What registration establishes *)

(** The facets a driver has are those its descriptor announces. *)
Record facets_agree (d : ProviderDriver) : Prop := {
  agree_token : has_token d = bool_decide (is_Some (oauth (driver_descriptor d)));
  agree_routing : is_Some (oauth_routing d) <-> is_Some (oauth (driver_descriptor d));
  agree_login : (has_authorization_code d, has_device_code d) =
    match oauth (driver_descriptor d) with
    | None => (false, false)
    | Some c => match login_flow c with
                | AuthorizationCodePkce => (true, false) | DeviceCodeFlow => (false, true)
                end
    end;
  agree_quota : is_Some (oauth_quota d) <->
    exists c, oauth (driver_descriptor d) = Some c /\ quota c = true;
  agree_quota_facets q c : oauth_quota d = Some q -> oauth (driver_descriptor d) = Some c ->
    has_supplement q = quota_supplement c /\ has_reset q = quota_reset c
}.

Lemma validate_facets_agree d : validate_facets d = Ok () -> facets_agree d.
Proof.
  unfold validate_facets. destruct d as [p ac dc tk rt qt]; simpl.
  destruct (oauth p) as [c|] eqn:Ho; simpl.
  - destruct tk, (login_flow c) eqn:El, ac, dc; simpl; try done;
      destruct rt as [f|]; simpl; try done; destruct qt as [q|]; simpl; destruct (quota c) eqn:Eq;
      simpl; try done; intros H0.
    all: try (destruct (quota_supplement c) eqn:Es, (has_supplement q) eqn:Es', (quota_reset c) eqn:Er,
                (has_reset q) eqn:Er'; simpl in H0; try done).
    all: constructor; simpl; rewrite ?Ho, ?El; try done.
    all: try (split; [eauto|intros _; eauto]; fail).
    all: try (intros q0 c0 E1 E2; simplify_eq; rewrite ?Es, ?Es', ?Er, ?Er'; done).
    all: try (split; [by intros [? ?]|]; intros (c0 & E1 & E2); simplify_eq; congruence).
  - destruct ac, dc, tk, rt, qt; simpl; try done. intros _.
    constructor; simpl; rewrite ?Ho; try done.
    split; [intros [? ?]|intros (? & ? & _)]; done.
Qed.

Lemma validate_driver_agree d : validate_driver d = Ok () ->
  facets_agree d /\ descriptor_validate (driver_descriptor d) = Ok ().
Proof.
  unfold validate_driver. destruct (descriptor_validate _) as [[]|?]; [|done].
  destruct (validate_facets d) as [[]|?] eqn:E; [|done]. intros _. split; [|done].
  by apply validate_facets_agree.
Qed.

Lemma register_drivers_inv (P : ProviderDriver -> Prop) r l r' :
  (forall d, validate_driver d = Ok () -> P d) ->
  register_drivers r l = Ok r' ->
  (forall k d, r !! k = Some d -> driver_kind d = k /\ P d) ->
  (forall k d, r' !! k = Some d -> driver_kind d = k /\ P d) /\
  NoDup (driver_kind <$> l) /\ Forall (fun d => r !! driver_kind d = None) l /\
  (forall d, d ∈ l -> r' !! driver_kind d = Some d) /\ r ⊆ r'.
Proof.
  intros HP. revert r. induction l as [|d l IH]; intros r; simpl.
  { intros [= <-] Hr. split; [done|]. split; [constructor|]. split; [constructor|].
    split; [by intros d ?%elem_of_nil|done]. }
  unfold register_driver. destruct (validate_driver d) as [[]|e] eqn:Hv; [|done].
  destruct (r !! driver_kind d) eqn:Hk; [done|]. intros Hreg Hr.
  destruct (IH _ Hreg) as (H1 & H2 & H3 & H4 & H5).
  { intros k d0. destruct (decide (k = driver_kind d)) as [->|Hne].
    - rewrite lookup_insert_eq. intros [= <-]. auto.
    - rewrite lookup_insert_ne by done. apply Hr. }
  rewrite Forall_forall in H3. split_and!.
  - done.
  - constructor; [|done]. intros (d0 & E & Hd)%list_elem_of_fmap.
    specialize (H3 d0 Hd). by rewrite <- E, lookup_insert_eq in H3.
  - constructor; [done|]. apply Forall_forall. intros d0 Hd. specialize (H3 d0 Hd).
    by apply lookup_insert_None in H3 as [? _].
  - intros d0 [->|Hd]%elem_of_cons; [|auto].
    eapply (lookup_weaken _ _ _ _ (lookup_insert_eq _ _ _) H5).
  - etrans; [|exact H5]. by apply insert_subseteq.
Qed.

(** Drivers registered one after the other into an empty registry are kept
    under their own kind, no kind twice, and each has exactly the facets its
    descriptor announces: the token and routing facets when it has OAuth
    capabilities, the login facet of its flow and no other, and the quota facets
    of its capabilities. *)
Theorem registered_facets_agree l r : register_drivers ∅ l = Ok r ->
  NoDup (driver_kind <$> l) /\ (forall d, d ∈ l -> r !! driver_kind d = Some d) /\
  (forall k d, r !! k = Some d -> driver_kind d = k /\ facets_agree d).
Proof.
  intros H0. destruct (register_drivers_inv facets_agree ∅ l r) as (H1 & H2 & _ & H3 & _).
  - intros d Hd. by apply validate_driver_agree.
  - done.
  - intros k d. by rewrite lookup_empty.
  - auto.
Qed.

(** The five built-in drivers register. *)
Definition builtin_registry {url_lib : UrlLib} : result ProviderRegistry ProviderError :=
  register_drivers ∅ [openai_driver; codex_driver; claude_driver; grok_driver; kimi_driver].
Lemma builtin_registry_ok {url_lib : UrlLib} : is_ok builtin_registry = true.
Proof. reflexivity. Qed.

Lemma registered_facets_agree_witness :
  facets_agree (@codex_driver sample_urls) /\ facets_agree (@grok_driver sample_urls).
Proof.
  destruct (@builtin_registry sample_urls) as [r|e] eqn:E; [|vm_compute in E; discriminate].
  destruct (registered_facets_agree _ _ E) as (_ & H1 & H2).
  split; eapply H2, H1; set_solver.
Defined.

(** * Documents *)

(** A token as [token_new] leaves it *)
Definition token_ok (t : OAuthTokenMaterial) : Prop :=
  trim (tk_access t) <> "" /\ optional_text (tk_refresh t) = tk_refresh t /\
  optional_text (tk_id t) = tk_id t /\ optional_text (tk_account t) = tk_account t /\
  optional_text (tk_email t) = tk_email t.

Lemma optional_text_idem v : optional_text (optional_text v) = optional_text v.
Proof. destruct v as [v|]; [|done]. simpl. case_bool_decide as E; simpl; [done|]. by rewrite bool_decide_false. Qed.
Lemma token_new_ok p a r i e ac em t : token_new p a r i e ac em = Ok t -> token_ok t.
Proof.
  unfold token_new. case_bool_decide; [done|]. intros [= <-]. unfold token_ok. simpl.
  by rewrite !optional_text_idem.
Qed.
Lemma or_else_text a b : optional_text a = a -> optional_text b = b ->
  optional_text (or_else a b) = or_else a b.
Proof. by destruct a. Qed.
Lemma merge_refresh_ok t p t' : token_ok t -> token_ok p -> merge_refresh_response t p = Ok t' ->
  token_ok t'.
Proof.
  unfold merge_refresh_response, token_ok. case_bool_decide; [done|].
  intros (? & ? & ? & ? & ?) (? & ? & ? & ? & ?) [= <-]. simpl. split; [done|].
  by rewrite !or_else_text.
Qed.
Lemma merge_identity_ok t p t' : token_ok t -> token_ok p -> merge_missing_identity t p = Ok t' ->
  token_ok t'.
Proof.
  unfold merge_missing_identity, token_ok. case_bool_decide; [done|].
  intros (? & ? & ? & ? & ?) (? & ? & ? & ? & ?) [= <-]. simpl. split; [done|].
  by rewrite !or_else_text.
Qed.

(** The library reads back what it writes, a final newline allowed. *)
Class DocumentLaws {codec : DocumentCodec} : Prop :=
  read_back d bytes : to_vec_pretty d = Some bytes -> from_slice (bytes ++ [Byte.x0a]) = Some d.

Lemma document_roundtrip {codec : DocumentCodec} {laws : DocumentLaws} t bytes : token_ok t ->
  encode_oauth_account_document t = Ok bytes ->
  decode_oauth_account_document (tk_provider t) (tk_expires_at t) bytes = Ok t.
Proof.
  unfold encode_oauth_account_document, decode_oauth_account_document.
  destruct (to_vec_pretty _) eqn:E; [|done]. intros (H1 & H2 & H3 & H4 & H5) [= <-].
  rewrite (read_back _ _ E). unfold token_new. simpl. rewrite bool_decide_false by done.
  rewrite H2, H3, H4, H5. by destruct t.
Qed.

(** * Identities *)

Lemma be_bytes_length n : length (be_bytes n) = 8%nat.
Proof. done. Qed.

Lemma byte_of_Z_inj a b : byte_of_Z a = byte_of_Z b -> a mod 256 = b mod 256.
Proof.
  assert (Hr : forall n, Z.of_N (Byte.to_N (byte_of_Z n)) = n mod 256).
  { intros n. unfold byte_of_Z. pose proof (Z.mod_pos_bound n 256 ltac:(lia)) as Hb.
    destruct (Byte.of_N (Z.to_N (n mod 256))) as [x|] eqn:E; simpl.
    - apply Byte.to_of_N in E. rewrite E. lia.
    - apply Byte.of_N_None_iff in E. lia. }
  intros E. by rewrite <- !Hr, E.
Qed.

(** Eight bytes tell lengths apart. *)
Lemma be_bytes_inj a b : 0 <= a < 2 ^ 64 -> 0 <= b < 2 ^ 64 -> be_bytes a = be_bytes b -> a = b.
Proof.
  intros Ha Hb E. apply Z.bits_inj'. intros i Hi.
  destruct (decide (64 <= i)) as [Hge|Hlt].
  { rewrite !Z.bits_above_log2; try done; try lia.
    - destruct (decide (b = 0)) as [->|]; [simpl; lia|]. apply Z.log2_lt_pow2; [lia|].
      eapply Z.lt_le_trans; [apply Hb|]. by apply Z.pow_le_mono_r.
    - destruct (decide (a = 0)) as [->|]; [simpl; lia|]. apply Z.log2_lt_pow2; [lia|].
      eapply Z.lt_le_trans; [apply Ha|]. by apply Z.pow_le_mono_r. }
  assert (Hk : forall k, 0 <= k < 8 -> Z.shiftr a (8 * k) mod 256 = Z.shiftr b (8 * k) mod 256).
  { intros k Hk. apply byte_of_Z_inj. unfold be_bytes in E. simpl in E.
    injection E as E7 E6 E5 E4 E3 E2 E1 E0.
    assert (k = 0 \/ k = 1 \/ k = 2 \/ k = 3 \/ k = 4 \/ k = 5 \/ k = 6 \/ k = 7)
      as [->|[->|[->|[->|[->|[->|[->| ->]]]]]]] by lia; done. }
  specialize (Hk (i / 8) (conj (Z.div_pos i 8 ltac:(lia) ltac:(lia)) (Z.div_lt_upper_bound i 8 8 ltac:(lia) ltac:(lia)))).
  pose proof (Z.div_mod i 8 ltac:(lia)) as Hd. pose proof (Z.mod_pos_bound i 8 ltac:(lia)) as Hm.
  apply (f_equal (fun z => Z.testbit z (i mod 8))) in Hk.
  change 256 with (2 ^ 8) in Hk. rewrite !Z.mod_pow2_bits_low, !Z.shiftr_spec in Hk by lia.
  by replace (i mod 8 + 8 * (i / 8)) with i in Hk by lia.
Qed.

Lemma update_bytes_cut a b ra rb :
  (forall v, a = Some v -> Zlen v < 2 ^ 64) -> (forall v, b = Some v -> Zlen v < 2 ^ 64) ->
  update_bytes a ++ ra = update_bytes b ++ rb -> a = b /\ ra = rb.
Proof.
  intros Ha Hb. destruct a as [a|], b as [b|]; intros E; [|done|done|by injection E].
  apply (f_equal tail) in E. change (be_bytes (Zlen a) ++ (a ++ ra) = be_bytes (Zlen b) ++ (b ++ rb)) in E.
  apply app_inj_1 in E as [El E]; [|by rewrite !be_bytes_length].
  apply be_bytes_inj in El; [|split; [unfold Zlen; lia|auto]..].
  apply app_inj_1 in E as [-> ->]; [done|]. unfold Zlen in El. lia.
Qed.

Lemma bytes_of_inj a b : bytes_of a = bytes_of b -> a = b.
Proof.
  unfold bytes_of. intros E. rewrite <- (String.string_of_list_byte_of_string a), E.
  apply String.string_of_list_byte_of_string.
Qed.
Lemma bytes_of_length s : length (bytes_of s) = String.length s.
Proof.
  unfold bytes_of, String.list_byte_of_string. rewrite length_map.
  induction s as [|c s IH]; [done|]. simpl. by rewrite IH.
Qed.

Definition parts_fit (parts : list (option string)) : Prop :=
  forall s, Some s ∈ parts -> Z.of_nat (String.length s) < 2 ^ 64.

Lemma parts_inj ps qs : parts_fit ps -> parts_fit qs ->
  mjoin ((fun p => update_bytes (bytes_of <$> p)) <$> ps) =
  mjoin ((fun p => update_bytes (bytes_of <$> p)) <$> qs) -> ps = qs.
Proof.
  revert qs. induction ps as [|p ps IH]; intros [|q qs] Hp Hq; simpl; try done.
  - by destruct q.
  - by destruct p.
  - intros E. apply update_bytes_cut in E as [E1 E2].
    + f_equal; [|apply IH; [intros s Hs; apply Hp; by right|intros s Hs; apply Hq; by right|done]].
      destruct p, q; simplify_eq/=; [|done]. f_equal. by apply bytes_of_inj.
    + intros v. destruct p as [p|]; intros [= <-]. unfold Zlen. rewrite bytes_of_length. apply Hp. by left.
    + intros v. destruct q as [q|]; intros [= <-]. unfold Zlen. rewrite bytes_of_length. apply Hq. by left.
Qed.

Lemma provider_name_fits p : Z.of_nat (String.length (provider_as_str p)) < 2 ^ 64.
Proof. by destruct p. Qed.
Lemma kind_label_fits k : Z.of_nat (String.length (kind_label k)) < 2 ^ 64.
Proof. by destruct k. Qed.

(** The bytes hashed for a principal tell principals apart: two that are
    equal come from the same provider, the same kind of identity and the same
    parts, absent parts included.  So with a hash that keeps these apart, two
    accounts have one identity exactly when they are one principal. *)
Theorem principal_bytes_injective p k ps p' k' ps' : parts_fit ps -> parts_fit ps' ->
  principal_bytes p k ps = principal_bytes p' k' ps' -> p = p' /\ k = k' /\ ps = ps'.
Proof.
  intros Hp Hp' E. unfold principal_bytes in E. do 2 apply app_inv_head in E.
  assert (Hf : forall s v, Z.of_nat (String.length s) < 2 ^ 64 -> Some (bytes_of s) = Some v ->
    Zlen v < 2 ^ 64).
  { intros s v Hs [= <-]. unfold Zlen. by rewrite bytes_of_length. }
  apply update_bytes_cut in E as [E1 E];
    [|by intros v; apply Hf, provider_name_fits|by intros v; apply Hf, provider_name_fits].
  apply update_bytes_cut in E as [E2 E];
    [|by intros v; apply Hf, kind_label_fits|by intros v; apply Hf, kind_label_fits].
  apply parts_inj in E; [|done..]. split_and!; [| |done].
  - injection E1 as E1. apply bytes_of_inj in E1. by destruct p, p'.
  - injection E2 as E2. apply bytes_of_inj in E2. by destruct k, k'.
Qed.

(** The separator of a plain concatenation would not: the parts may hold it. *)
Lemma principal_bytes_injective_witness : principal_bytes Codex WorkspaceMember [None; Some "m"] <>
  principal_bytes Codex WorkspaceMember [Some "m"; None].
Proof.
  intros E. apply principal_bytes_injective in E as (_ & _ & E); [done| |];
    intros s Hs; apply elem_of_cons in Hs as [Hs|Hs]; try (injection Hs as ->; reflexivity);
    try discriminate; apply list_elem_of_singleton in Hs; try discriminate;
    injection Hs as ->; reflexivity.
Defined.
