(* ===== verification/Compile.v ===== *)
(** * Compiling stored configurations into routing credentials

    Models [runtime/src/credential/auth.rs], [runtime/src/proxy/auth.rs] and
    [runtime/src/routing/credential/compile.rs] with [projection.rs]: the secrets
    read from storage are matched with the credentials, accounts and proxies of
    the configuration, and each credential becomes the specification its runtime
    is bound to.

    The key a hash map yields first, the UUID library and the JSON library are
    parameters. *)
From S2P Require Import Prelude Search Protocol Text Epoch Circuit Upstream Health Attempt CredentialRuntime Candidates Admission Registry OAuthErrors Entities Catalog Routes Drivers.
Local Open Scope Z_scope.

(** * Materials, by the entity they belong to *)

Section materials.
Context {S M E : Type} (id_of : M -> Z) (read : S -> result M E) (duplicate : Z -> E).

(** The loops of [CredentialAuthMaterials::from_stored], [OAuthMaterials::new]
    and [ProxyAuthMaterials::compile] *)
Fixpoint index_materials (stored : list S) (by_id : gmap Z M) : result (gmap Z M) E :=
  match stored with
  | [] => Ok by_id
  | entry :: stored =>
    match read entry with
    | Err e => Err e
    | Ok material =>
      match by_id !! id_of material with
      | Some _ => Err (duplicate (id_of material))
      | None => index_materials stored (<[id_of material := material]> by_id)
      end
    end
  end.

(** [ensure_consumed]: [first] picks the key the map yields first. *)
Definition ensure_consumed (first : gset Z -> Z) (unknown : Z -> E) (by_id : gmap Z M)
    : result () E :=
  if decide (by_id = ∅) then Ok () else Err (unknown (first (dom by_id))).
End materials.

(** A loop that pushes what each turn makes, and passes a state on *)
Fixpoint try_fold {A B St E} (step : A -> St -> result (B * St) E) (l : list A) (s : St)
    : result (list B * St) E :=
  match l with
  | [] => Ok ([], s)
  | x :: l =>
    match step x s with
    | Err e => Err e
    | Ok (b, s) => match try_fold step l s with Err e => Err e | Ok (bs, s) => Ok (b :: bs, s) end
    end
  end.

(** * API keys *)

Inductive CredentialAuthMaterialError :=
| MaterialInvalidUtf8 (id : Z) | MaterialDuplicate (id : Z) | MaterialMissing (id : Z)
| KindMismatch (id : Z) | VersionMismatch (id : Z) | GenerationMismatch (id : Z)
| MaterialUnknown (id : Z).

Record StoredProviderCredentialSecret := {
  st_credential : Z;
  st_kind : CredentialKind;
  st_secret_version : Z;
  st_generation : Z;
  st_secret : list Byte.byte
}.

Record CredentialAuthMaterial := {
  cm_credential : Z;
  cm_kind : CredentialKind;
  cm_secret_version : Z;
  cm_generation : Z;
  cm_secret : string
}.

(** [CredentialAuthMaterial::from_stored] *)
Definition material_from_stored (s : StoredProviderCredentialSecret)
    : result CredentialAuthMaterial CredentialAuthMaterialError :=
  match from_utf8 (st_secret s) with
  | None => Err (MaterialInvalidUtf8 (st_credential s))
  | Some value => Ok {| cm_credential := st_credential s; cm_kind := st_kind s;
                        cm_secret_version := st_secret_version s; cm_generation := st_generation s;
                        cm_secret := value |}
  end.

(** [CredentialAuthMaterials::from_stored] *)
Definition materials_from_stored (stored : list StoredProviderCredentialSecret)
    : result (gmap Z CredentialAuthMaterial) CredentialAuthMaterialError :=
  index_materials cm_credential material_from_stored MaterialDuplicate stored ∅.

(** [CredentialAuthMaterials::take_for] *)
Definition take_for (c : ProviderCredential) (by_id : gmap Z CredentialAuthMaterial)
    : result (CredentialAuthMaterial * gmap Z CredentialAuthMaterial) CredentialAuthMaterialError :=
  match by_id !! pc_id c with
  | None => Err (MaterialMissing (pc_id c))
  | Some m =>
    if bool_decide (cm_kind m <> pc_kind c) then Err (KindMismatch (pc_id c))
    else if negb (cm_secret_version m =? pc_secret_version c) then Err (VersionMismatch (pc_id c))
    else if negb (cm_generation m =? pc_generation c) then Err (GenerationMismatch (pc_id c))
    else Ok (m, delete (pc_id c) by_id)
  end.

(** * Proxy passwords *)

Inductive ProxyAuthMaterialError :=
| UnknownProxy (id : Z) | AuthenticationMissing (id : Z) | PasswordVersionMismatch (id : Z)
| PasswordInvalidUtf8 (id : Z) | PasswordDuplicate (id : Z) | PasswordMissing (id : Z).

Record StoredProxyPassword := {
  sp_proxy : Z;
  sp_authentication_version : Z;
  sp_secret : list Byte.byte
}.

(** [ProxyCredentials], with the proxy they are for *)
Record ProxyCredentials := { px_for : Z; px_username : string; px_password : string }.

(** [compile_material] *)
Definition compile_material (proxies : ProxyConfiguration) (s : StoredProxyPassword)
    : result ProxyCredentials ProxyAuthMaterialError :=
  let id := sp_proxy s in
  match proxy_get proxies id with
  | None => Err (UnknownProxy id)
  | Some profile =>
    match px_authentication profile with
    | None => Err (AuthenticationMissing id)
    | Some username =>
      if negb (sp_authentication_version s =? px_authentication_version profile)
      then Err (PasswordVersionMismatch id)
      else match from_utf8 (sp_secret s) with
           | None => Err (PasswordInvalidUtf8 id)
           | Some password => Ok {| px_for := id; px_username := username; px_password := password |}
           end
    end
  end.

(** [ProxyAuthMaterials::compile] *)
Definition proxy_auth_compile (proxies : ProxyConfiguration) (stored : list StoredProxyPassword)
    : result (gmap Z ProxyCredentials) ProxyAuthMaterialError :=
  match index_materials px_for (compile_material proxies) PasswordDuplicate stored ∅ with
  | Err e => Err e
  | Ok by_id =>
    match list_find (fun p => is_Some (px_authentication p) /\ by_id !! px_id p = None)
            (profiles proxies) with
    | Some (_, p) => Err (PasswordMissing (px_id p))
    | None => Ok by_id
    end
  end.

(** [credentials_for] *)
Definition credentials_for (by_id : gmap Z ProxyCredentials) (p : ProxyProfile)
    : option ProxyCredentials :=
  _ ← px_authentication p; by_id !! px_id p.

(** * Specifications *)

(** [CredentialAuthentication] *)
Inductive CredentialAuthentication :=
| ProviderApiKey (secret : string)
| OAuth (token : OAuthTokenMaterial).

Record RoutingCredentialProjection := {
  pj_id : RoutingCredentialId;
  pj_provider : ProviderKind;
  pj_endpoint : Z;
  pj_endpoint_version : Z;
  pj_base_url : string;
  pj_ingress : ProtocolDialect;
  pj_upstream : ProtocolDialect;
  pj_proxy : Z;
  pj_proxy_version : Z;
  pj_enabled : bool;
  pj_expires_at : option Z;
  pj_endpoint_enabled : bool;
  pj_proxy_enabled : bool;
  pj_models : list string;
  pj_available_models : list string
}.

Record RoutingCredentialSpec := {
  rs_projection : RoutingCredentialProjection;
  rs_rpm : option Z;
  rs_generation : GenerationDefinition;
  rs_authentication : CredentialAuthentication
}.

(** What the registry of credentials is given of a specification ([into_parts]) *)
Definition registry_spec (s : RoutingCredentialSpec) : CredentialSpec :=
  {| spec_id := pj_id (rs_projection s); spec_limit := rs_rpm s; spec_generation := rs_generation s |}.

(** [RouteAdmissionIdentity] *)
Abbreviation RouteAdmissionIdentity := ((Z + Z) * Z * (Z * Z * Z * Z))%type (only parsing).

(** [RoutingCredentialProjection::admission_identity] *)
Definition admission_identity (p : RoutingCredentialProjection) (routing_generation : Z)
    : option RouteAdmissionIdentity :=
  if pj_enabled p && pj_endpoint_enabled p && pj_proxy_enabled p
  then Some (pj_id p, routing_generation,
             (pj_endpoint p, pj_endpoint_version p, pj_proxy p, pj_proxy_version p))
  else None.

(** [StoredOAuthAccountMaterial] *)
Record StoredOAuthAccountMaterial := {
  so_account : Z;
  so_provider : ProviderKind;
  so_token_version : Z;
  so_generation : Z;
  so_document : list Byte.byte
}.

Inductive RoutingCredentialCompileError :=
| ProviderApiKeyError (error : CredentialAuthMaterialError)
| MissingProviderEndpoint (id : Z)
| MissingCredentialProxy (id : Z)
| MissingProviderDriver (kind : ProviderKind)
| UnsupportedOAuthProvider (kind : ProviderKind)
| DuplicateOAuthMaterial (id : Z)
| MissingOAuthMaterial (id : Z)
| OAuthProviderMismatch (id : Z)
| OAuthVersionMismatch (id : Z)
| OAuthGenerationMismatch (id : Z)
| InvalidOAuthDocument (id : Z)
| InvalidOAuthRoutingProfile (id : Z)
| MissingOAuthProxy (id : Z)
| UnknownOAuthMaterial (id : Z).

Inductive SnapshotCompileError :=
| SnapshotProxy (error : ProxyAuthMaterialError)
| SnapshotRouting (error : RoutingCredentialCompileError).

(** The UUID library: version 5 of a namespace and a name, and the text of a UUID *)
Class UuidLib := {
  uuid_v5 : Z -> list Byte.byte -> Z;
  uuid_text : Z -> string
}.

Definition OAUTH_ENDPOINT_NAMESPACE : Z := 0xc682f3d3bda454bebfd457c6e06a1f3f.
Definition oauth_endpoint_id {uuid_lib : UuidLib} (provider : ProviderKind) : Z :=
  uuid_v5 OAUTH_ENDPOINT_NAMESPACE (bytes_of (provider_as_str provider)).

(** The specification of a provider credential, once all it needs is found *)
Definition credential_spec (c : ProviderCredential) (e : ProviderEndpoint) (p : ProxyProfile)
    (m : CredentialAuthMaterial) : RoutingCredentialSpec :=
  let models := upstream_name <$> pc_models c in
  {| rs_projection :=
       {| pj_id := inl (pc_id c); pj_provider := ep_provider e; pj_endpoint := ep_id e;
          pj_endpoint_version := ep_config_version e; pj_base_url := ep_base_url e;
          pj_ingress := ep_dialect e; pj_upstream := effective_upstream e; pj_proxy := px_id p;
          pj_proxy_version := px_config_version p; pj_enabled := pc_enabled c;
          pj_expires_at := None; pj_endpoint_enabled := ep_enabled e;
          pj_proxy_enabled := px_enabled p; pj_models := models; pj_available_models := models |};
     rs_rpm := pc_rpm c;
     rs_generation := {| def_routing := pc_generation c; def_authentication := pc_secret_version c |};
     rs_authentication := ProviderApiKey (cm_secret m) |}.

(** That of an OAuth account *)
Definition account_spec {uuid_lib : UuidLib} (a : OAuthAccount) (t : OAuthTokenMaterial)
    (r : OAuthRoutingProfile) (p : ProxyProfile) : RoutingCredentialSpec :=
  {| rs_projection :=
       {| pj_id := inr (oa_id a); pj_provider := oa_provider a;
          pj_endpoint := oauth_endpoint_id (oa_provider a); pj_endpoint_version := 1;
          pj_base_url := profile_base_url r; pj_ingress := profile_dialect r;
          pj_upstream := profile_dialect r; pj_proxy := px_id p;
          pj_proxy_version := px_config_version p; pj_enabled := oa_enabled a;
          pj_expires_at := oa_expires_at a; pj_endpoint_enabled := true;
          pj_proxy_enabled := px_enabled p; pj_models := oa_models a;
          pj_available_models := oa_models a |};
     rs_rpm := oa_rpm a;
     rs_generation := {| def_routing := oa_generation a; def_authentication := oa_token_version a |};
     rs_authentication := OAuth t |}.

Section compile.
Context {uuid_lib : UuidLib} {codec : DocumentCodec}.
Context (first : gset Z -> Z).
Context (endpoints : list ProviderEndpoint) (proxies : ProxyConfiguration) (providers : ProviderRegistry).

(** One turn of [compile_provider_credentials] *)
Definition compile_credential (c : ProviderCredential) (auth : gmap Z CredentialAuthMaterial)
    : result (RoutingCredentialSpec * gmap Z CredentialAuthMaterial) RoutingCredentialCompileError :=
  match endpoint_get endpoints (pc_endpoint c) with
  | None => Err (MissingProviderEndpoint (pc_id c))
  | Some e =>
    match providers !! ep_provider e with
    | None => Err (MissingProviderDriver (ep_provider e))
    | Some _ =>
      match proxy_get proxies (pc_proxy c) with
      | None => Err (MissingCredentialProxy (pc_id c))
      | Some p =>
        match take_for c auth with
        | Err error => Err (ProviderApiKeyError error)
        | Ok (m, auth) => Ok (credential_spec c e p m, auth)
        end
      end
    end
  end.

(** [validate_oauth_material], [OAuthMaterials::take_for] *)
Definition validate_oauth_material (a : OAuthAccount) (m : StoredOAuthAccountMaterial)
    : result () RoutingCredentialCompileError :=
  if bool_decide (so_provider m <> oa_provider a) then Err (OAuthProviderMismatch (oa_id a))
  else if negb (so_token_version m =? oa_token_version a) then Err (OAuthVersionMismatch (oa_id a))
  else if negb (so_generation m =? oa_generation a) then Err (OAuthGenerationMismatch (oa_id a))
  else Ok ().
Definition oauth_take_for (a : OAuthAccount) (by_id : gmap Z StoredOAuthAccountMaterial)
    : result (list Byte.byte * gmap Z StoredOAuthAccountMaterial) RoutingCredentialCompileError :=
  match by_id !! oa_id a with
  | None => Err (MissingOAuthMaterial (oa_id a))
  | Some m =>
    match validate_oauth_material a m with
    | Err e => Err e
    | Ok _ => Ok (so_document m, delete (oa_id a) by_id)
    end
  end.

(** One turn of [compile_oauth_accounts] *)
Definition compile_account (a : OAuthAccount) (materials : gmap Z StoredOAuthAccountMaterial)
    : result (RoutingCredentialSpec * gmap Z StoredOAuthAccountMaterial)
             RoutingCredentialCompileError :=
  match providers !! oa_provider a with
  | None => Err (MissingProviderDriver (oa_provider a))
  | Some driver =>
    match oauth_routing driver with
    | None => Err (UnsupportedOAuthProvider (oa_provider a))
    | Some routing =>
      match oauth_take_for a materials with
      | Err e => Err e
      | Ok (document, materials) =>
        match decode_oauth_account_document (oa_provider a) (oa_expires_at a) document with
        | Err _ => Err (InvalidOAuthDocument (oa_id a))
        | Ok token =>
          match routing token with
          | Err _ => Err (InvalidOAuthRoutingProfile (oa_id a))
          | Ok profile =>
            match resolve_oauth proxies (oa_proxy a) with
            | None => Err (MissingOAuthProxy (oa_id a))
            | Some p => Ok (account_spec a token profile p, materials)
            end
          end
        end
      end
    end
  end.

(** [OAuthMaterials::new] *)
Definition oauth_materials_new (stored : list StoredOAuthAccountMaterial)
    : result (gmap Z StoredOAuthAccountMaterial) RoutingCredentialCompileError :=
  index_materials so_account Ok DuplicateOAuthMaterial stored ∅.

(** [compile_oauth_accounts] *)
Definition compile_oauth_accounts (accounts : list OAuthAccount)
    (stored : list StoredOAuthAccountMaterial)
    : result (list RoutingCredentialSpec) RoutingCredentialCompileError :=
  match oauth_materials_new stored with
  | Err e => Err e
  | Ok materials =>
    match try_fold compile_account accounts materials with
    | Err e => Err e
    | Ok (specs, materials) =>
      match ensure_consumed first UnknownOAuthMaterial materials with
      | Err e => Err e
      | Ok _ => Ok specs
      end
    end
  end.

(** [RoutingCredentialSpec::compile] *)
Definition compile_specs (credentials : list ProviderCredential) (accounts : list OAuthAccount)
    (auth : gmap Z CredentialAuthMaterial) (stored : list StoredOAuthAccountMaterial)
    : result (list RoutingCredentialSpec) RoutingCredentialCompileError :=
  match try_fold compile_credential credentials auth with
  | Err e => Err e
  | Ok (specs, auth) =>
    match ensure_consumed first MaterialUnknown auth with
    | Err e => Err (ProviderApiKeyError e)
    | Ok _ =>
      match compile_oauth_accounts accounts stored with
      | Err e => Err e
      | Ok more => Ok (specs ++ more)
      end
    end
  end.

(** The secrets, read and then compiled, as [PreparedPublishedSnapshot::compile]
    does *)
Definition compile_stored (credentials : list ProviderCredential) (accounts : list OAuthAccount)
    (secrets : list StoredProviderCredentialSecret) (stored : list StoredOAuthAccountMaterial)
    : result (list RoutingCredentialSpec) RoutingCredentialCompileError :=
  match materials_from_stored secrets with
  | Err e => Err (ProviderApiKeyError e)
  | Ok auth => compile_specs credentials accounts auth stored
  end.

(** [PreparedPublishedSnapshot::compile], up to the policies read from settings *)
Definition compile_snapshot (credentials : list ProviderCredential) (accounts : list OAuthAccount)
    (passwords : list StoredProxyPassword) (secrets : list StoredProviderCredentialSecret)
    (stored : list StoredOAuthAccountMaterial)
    : result (gmap Z ProxyCredentials * list RoutingCredentialSpec) SnapshotCompileError :=
  match list_find (fun e => providers !! ep_provider e = None) endpoints with
  | Some (_, e) => Err (SnapshotRouting (MissingProviderDriver (ep_provider e)))
  | None =>
    match proxy_auth_compile proxies passwords with
    | Err e => Err (SnapshotProxy e)
    | Ok proxy_auth =>
      match compile_stored credentials accounts secrets stored with
      | Err e => Err (SnapshotRouting e)
      | Ok specs => Ok (proxy_auth, specs)
      end
    end
  end.
End compile.

(** * What compiling amounts to *)

Section material_facts.
Context {S M E : Type} (id_of : M -> Z) (read : S -> result M E) (duplicate : Z -> E).

Definition by_ids (ms : list M) : gmap Z M := list_to_map ((fun m => (id_of m, m)) <$> ms).

Lemma by_ids_lookup ms i m : NoDup (id_of <$> ms) -> by_ids ms !! i = Some m <-> m ∈ ms /\ id_of m = i.
Proof.
  intros Hnd. unfold by_ids. rewrite <- elem_of_list_to_map.
  - rewrite list_elem_of_fmap. split; [intros (x & [= -> ->] & ?); done|]. intros [? <-]. by exists m.
  - by rewrite <- list_fmap_compose.
Qed.
Lemma by_ids_dom ms : dom (by_ids ms) = list_to_set (id_of <$> ms).
Proof. unfold by_ids. rewrite dom_list_to_map_L, <- list_fmap_compose. done. Qed.

Lemma by_ids_cons x ms : by_ids (x :: ms) = <[id_of x := x]> (by_ids ms).
Proof. done. Qed.

Lemma index_materials_from stored m0 m :
  index_materials id_of read duplicate stored m0 = Ok m <->
  exists ms, Forall2 (fun s x => read s = Ok x) stored ms /\ NoDup (id_of <$> ms) /\
    Forall (fun x => m0 !! id_of x = None) ms /\ m = by_ids ms ∪ m0.
Proof.
  revert m0. induction stored as [|s stored IH]; intros m0; simpl.
  - split.
    + intros [= <-]. exists []. split_and!; try constructor. unfold by_ids. simpl. by rewrite (left_id_L ∅ _).
    + intros (ms & Hf & _ & _ & ->). apply Forall2_nil_inv_l in Hf as ->. unfold by_ids. simpl.
      by rewrite (left_id_L ∅ _).
  - destruct (read s) as [x|e] eqn:Er.
    2: { split; [done|]. intros (ms & Hf & _). apply Forall2_cons_inv_l in Hf as (? & ? & ? & _). congruence. }
    destruct (m0 !! id_of x) eqn:Ex.
    + split; [done|]. intros (ms & Hf & _ & Hn & _).
      apply Forall2_cons_inv_l in Hf as (x' & ms' & Hx & _ & ->).
      rewrite Er in Hx. injection Hx as <-.
      apply Forall_cons in Hn as [Hn _]. congruence.
    + rewrite IH. split.
      * intros (ms & Hf & Hnd & Hn & ->). exists (x :: ms). rewrite Forall_forall in Hn. split_and!.
        -- by constructor.
        -- rewrite fmap_cons. constructor; [|done]. intros (y & Ey & Hy)%list_elem_of_fmap.
           specialize (Hn y Hy). by rewrite <- Ey, lookup_insert_eq in Hn.
        -- constructor; [done|]. apply Forall_forall. intros y Hy. specialize (Hn y Hy).
           by apply lookup_insert_None in Hn as [? _].
        -- rewrite by_ids_cons, <- insert_union_l, insert_union_r; [done|].
           apply not_elem_of_dom. rewrite by_ids_dom, elem_of_list_to_set.
           intros (y & Ey & Hy)%list_elem_of_fmap. specialize (Hn y Hy).
           by rewrite <- Ey, lookup_insert_eq in Hn.
      * intros (ms & Hf & Hnd & Hn & ->). apply Forall2_cons_inv_l in Hf as (x' & ms' & Hx & Hf & ->).
        rewrite Er in Hx. injection Hx as <-. rewrite fmap_cons in Hnd. apply NoDup_cons in Hnd as [Hx' Hnd].
        apply Forall_cons in Hn as [Hn1 Hn]. exists ms'. split_and!; try done.
        -- rewrite Forall_forall in Hn |- *. intros y Hy. rewrite lookup_insert_ne; [auto|].
           intros Ey. apply Hx'. rewrite Ey. by apply list_elem_of_fmap_2.
        -- rewrite by_ids_cons, <- insert_union_l, insert_union_r; [done|].
           apply not_elem_of_dom. by rewrite by_ids_dom, elem_of_list_to_set.
Qed.

Lemma index_materials_Ok stored m :
  index_materials id_of read duplicate stored ∅ = Ok m <->
  exists ms, Forall2 (fun s x => read s = Ok x) stored ms /\ NoDup (id_of <$> ms) /\ m = by_ids ms.
Proof.
  rewrite index_materials_from. split.
  - intros (ms & ? & ? & _ & ->). exists ms. by rewrite (right_id_L ∅ _).
  - intros (ms & ? & ? & ->). exists ms. rewrite (right_id_L ∅ _). split_and!; try done.
    apply Forall_forall. intros x _. apply lookup_empty.
Qed.

Lemma ensure_consumed_Ok first unknown (m : gmap Z M) :
  ensure_consumed (E := E) first unknown m = Ok () <-> m = ∅.
Proof. unfold ensure_consumed. case_decide; naive_solver. Qed.

End material_facts.

(** A loop each turn of which takes the material of one entity *)
Section taking.
Context {M E C B : Type} (id_of : M -> Z) (key : C -> Z) (step : C -> gmap Z M -> result (B * gmap Z M) E)
  (good : C -> M -> B -> Prop).
Context (Hstep : forall c m b m', step c m = Ok (b, m') <->
  exists x, m !! key c = Some x /\ good c x b /\ m' = delete (key c) m).

Lemma try_fold_takes l m bs m' : NoDup (key <$> l) ->
  try_fold step l m = Ok (bs, m') <->
  Forall2 (fun c b => exists x, m !! key c = Some x /\ good c x b) l bs /\
  m' = filter (fun kv => kv.1 ∉ key <$> l) m.
Proof.
  revert m bs m'. induction l as [|c l IH]; intros m bs m' Hnd; simpl.
  - rewrite map_filter_id by (intros i x _; simpl; apply not_elem_of_nil). split.
    + intros [= <- <-]. split; [constructor|done].
    + intros [Hf ->]. apply Forall2_nil_inv_l in Hf as ->. done.
  - rewrite fmap_cons in Hnd. apply NoDup_cons in Hnd as [Hc Hnd].
    assert (Hrest : filter (fun kv : Z * M => kv.1 ∉ key <$> l) (delete (key c) m) =
                    filter (fun kv => kv.1 ∉ key c :: (key <$> l)) m).
    { apply map_eq. intros i. apply option_eq. intros x.
      rewrite !map_lookup_filter_Some, lookup_delete_Some, not_elem_of_cons. simpl. intuition congruence. }
    assert (Hlook : forall c', c' ∈ l -> delete (key c) m !! key c' = m !! key c').
    { intros c' Hc'. apply lookup_delete_ne. intros Ek. apply Hc. rewrite Ek. by apply list_elem_of_fmap_2. }
    split.
    + destruct (step c m) as [[b m1]|] eqn:Es; [|done]. apply Hstep in Es as (x & Hx & Hg & ->).
      destruct (try_fold step l _) as [[bs' m2]|] eqn:Ef; [|done]. intros [= <- <-].
      apply IH in Ef as [Hf ->]; [|done]. split; [|by rewrite Hrest].
      constructor; [by exists x|]. apply Forall2_same_length_lookup in Hf as [Hlen Hf].
      apply Forall2_same_length_lookup. split; [done|]. intros i c' b' Hl Hb.
      rewrite <- (Hlook c') by (by eapply list_elem_of_lookup_2). by eapply Hf.
    + intros [Hf ->]. apply Forall2_cons_inv_l in Hf as (b & bs' & (x & Hx & Hg) & Hf & ->).
      rewrite (proj2 (Hstep c m b (delete (key c) m))) by (by exists x).
      assert (try_fold step l (delete (key c) m) =
        Ok (bs', filter (fun kv => kv.1 ∉ key <$> l) (delete (key c) m))) as ->; [|by rewrite Hrest].
      apply IH; [done|]. split; [|reflexivity]. apply Forall2_same_length_lookup in Hf as [Hlen Hf].
      apply Forall2_same_length_lookup. split; [done|]. intros i c' b' Hl Hb.
      rewrite Hlook by (by eapply list_elem_of_lookup_2). by eapply Hf.
Qed.

Lemma filter_all_taken (m : gmap Z M) (ks : list Z) :
  filter (fun kv => kv.1 ∉ ks) m = ∅ <-> dom m ⊆ list_to_set ks.
Proof.
  split.
  - intros Hm k [x Hx]%elem_of_dom. apply elem_of_list_to_set, dec_stable. intros Hk.
    apply (map_filter_empty_not_lookup _ _ _ _ Hm Hk Hx).
  - intros Hs. apply map_eq. intros k. rewrite lookup_empty, map_lookup_filter_None. right.
    intros x Hx Hk. apply Hk. apply (elem_of_list_to_set (C := gset Z)), Hs, elem_of_dom. by exists x.
Qed.

Lemma try_fold_consumes l ms bs : NoDup (key <$> l) -> NoDup (id_of <$> ms) ->
  try_fold step l (by_ids id_of ms) = Ok (bs, ∅) <->
  id_of <$> ms ≡ₚ key <$> l /\
  Forall2 (fun c b => exists x, x ∈ ms /\ id_of x = key c /\ good c x b) l bs.
Proof.
  intros Hl Hms. rewrite (try_fold_takes l _ _ _ Hl).
  assert (Hequiv : forall c b, (exists x, by_ids id_of ms !! key c = Some x /\ good c x b) <->
    (exists x, x ∈ ms /\ id_of x = key c /\ good c x b)).
  { intros c b. split; intros (x & Hx).
    - exists x. destruct Hx as [Hx ?]. apply by_ids_lookup in Hx as [? ?]; done.
    - exists x. destruct Hx as (? & ? & ?). split; [|done]. by apply by_ids_lookup. }
  rewrite (eq_comm ∅), filter_all_taken, by_ids_dom.
  split.
  - intros [Hf Hs]. split.
    + apply NoDup_Permutation; [done..|]. intros k. split.
      * intros Hk. apply (elem_of_list_to_set (C := gset Z)), Hs. by apply elem_of_list_to_set.
      * intros (c & -> & Hc)%list_elem_of_fmap. apply list_elem_of_lookup in Hc as [i Hi].
        destruct (Forall2_lookup_l _ _ _ _ _ Hf Hi) as (b & _ & (x & Hx & <- & _)%Hequiv).
        by apply list_elem_of_fmap_2.
    + eapply Forall2_impl; [exact Hf|]. intros c b. apply Hequiv.
  - intros [Hp Hf]. split; [|by rewrite Hp].
    eapply Forall2_impl; [exact Hf|]. intros c b. apply Hequiv.
Qed.
End taking.

(** The material a stored secret reads as *)
Definition material_of (s : StoredProviderCredentialSecret) (text : string) : CredentialAuthMaterial :=
  {| cm_credential := st_credential s; cm_kind := st_kind s; cm_secret_version := st_secret_version s;
     cm_generation := st_generation s; cm_secret := text |}.

(** A stored secret belongs to a credential as it is now. *)
Definition secret_matches (s : StoredProviderCredentialSecret) (c : ProviderCredential) : Prop :=
  st_credential s = pc_id c /\ st_kind s = pc_kind c /\ st_secret_version s = pc_secret_version c /\
  st_generation s = pc_generation c.
Definition document_matches (s : StoredOAuthAccountMaterial) (a : OAuthAccount) : Prop :=
  so_account s = oa_id a /\ so_provider s = oa_provider a /\
  so_token_version s = oa_token_version a /\ so_generation s = oa_generation a.

Section compile_facts.
Context {uuid_lib : UuidLib} {codec : DocumentCodec}.
Context (first : gset Z -> Z).
Context (endpoints : list ProviderEndpoint) (proxies : ProxyConfiguration) (providers : ProviderRegistry).

(** A credential, with a secret of the storage, becomes a specification. *)
Definition credential_compiles (secrets : list StoredProviderCredentialSecret)
    (c : ProviderCredential) (spec : RoutingCredentialSpec) : Prop :=
  exists e p s text, endpoint_get endpoints (pc_endpoint c) = Some e /\
    is_Some (providers !! ep_provider e) /\ proxy_get proxies (pc_proxy c) = Some p /\
    s ∈ secrets /\ secret_matches s c /\ from_utf8 (st_secret s) = Some text /\
    spec = credential_spec c e p (material_of s text).
Definition account_compiles (stored : list StoredOAuthAccountMaterial) (a : OAuthAccount)
    (spec : RoutingCredentialSpec) : Prop :=
  exists d routing s token profile p, providers !! oa_provider a = Some d /\
    oauth_routing d = Some routing /\ s ∈ stored /\ document_matches s a /\
    decode_oauth_account_document (oa_provider a) (oa_expires_at a) (so_document s) = Ok token /\
    routing token = Ok profile /\ resolve_oauth proxies (oa_proxy a) = Some p /\
    spec = account_spec a token profile p.

(** What a turn of each loop makes of a material *)
Definition credential_made_of (c : ProviderCredential) (m : CredentialAuthMaterial)
    (spec : RoutingCredentialSpec) : Prop :=
  exists e p, endpoint_get endpoints (pc_endpoint c) = Some e /\ is_Some (providers !! ep_provider e) /\
    proxy_get proxies (pc_proxy c) = Some p /\ cm_kind m = pc_kind c /\
    cm_secret_version m = pc_secret_version c /\ cm_generation m = pc_generation c /\
    spec = credential_spec c e p m.
Definition account_made_of (a : OAuthAccount) (s : StoredOAuthAccountMaterial)
    (spec : RoutingCredentialSpec) : Prop :=
  exists d routing token profile p, providers !! oa_provider a = Some d /\
    oauth_routing d = Some routing /\ so_provider s = oa_provider a /\
    so_token_version s = oa_token_version a /\ so_generation s = oa_generation a /\
    decode_oauth_account_document (oa_provider a) (oa_expires_at a) (so_document s) = Ok token /\
    routing token = Ok profile /\ resolve_oauth proxies (oa_proxy a) = Some p /\
    spec = account_spec a token profile p.

Lemma take_for_Ok c auth m auth' : take_for c auth = Ok (m, auth') <->
  auth !! pc_id c = Some m /\ cm_kind m = pc_kind c /\ cm_secret_version m = pc_secret_version c /\
  cm_generation m = pc_generation c /\ auth' = delete (pc_id c) auth.
Proof.
  unfold take_for. destruct (auth !! pc_id c) as [x|]; [|split; [done|by intros [? _]]].
  case_bool_decide as Ek; [split; [done|]; intros ([= ->] & ? & _); done|].

  destruct (cm_secret_version x =? pc_secret_version c) eqn:Ev; simpl.
  2: { split; [done|]. intros ([= ->] & _ & ? & _). lia. }
  destruct (cm_generation x =? pc_generation c) eqn:Eg; simpl.
  2: { split; [done|]. intros ([= ->] & _ & _ & ? & _). lia. }
  split.
  - intros [= <- <-]. split_and!; try done; lia.
  - by intros ([= ->] & _ & _ & _ & ->).
Qed.

Lemma compile_credential_Ok c auth spec auth' :
  compile_credential endpoints proxies providers c auth = Ok (spec, auth') <->
  exists m, auth !! pc_id c = Some m /\ credential_made_of c m spec /\ auth' = delete (pc_id c) auth.
Proof.
  unfold compile_credential, credential_made_of. split.
  - destruct (endpoint_get endpoints (pc_endpoint c)) as [e|]; [|done].
    destruct (providers !! ep_provider e) as [d|] eqn:Ed; [|done].
    destruct (proxy_get proxies (pc_proxy c)) as [p|]; [|done].
    destruct (take_for c auth) as [[m rest]|] eqn:Et; [|done]. intros [= <- <-].
    apply take_for_Ok in Et as (? & ? & ? & ? & ->). exists m. split_and!; try done. exists e, p.
    split_and!; try done.
  - intros (m & Hm & (e & p & -> & [d ->] & -> & ? & ? & ? & ->) & ->).
    by rewrite (proj2 (take_for_Ok c auth m (delete (pc_id c) auth))).
Qed.

Lemma oauth_take_for_Ok a ms doc ms' : oauth_take_for a ms = Ok (doc, ms') <->
  exists s, ms !! oa_id a = Some s /\ so_provider s = oa_provider a /\
    so_token_version s = oa_token_version a /\ so_generation s = oa_generation a /\
    doc = so_document s /\ ms' = delete (oa_id a) ms.
Proof.
  unfold oauth_take_for, validate_oauth_material.
  destruct (ms !! oa_id a) as [x|]; [|split; [done|by intros (? & ? & _)]].
  case_bool_decide as Ek; [split; [done|]; intros (? & [= ->] & ? & _); done|].
  destruct (so_token_version x =? oa_token_version a) eqn:Ev; simpl.
  2: { split; [done|]. intros (? & [= ->] & _ & ? & _). lia. }
  destruct (so_generation x =? oa_generation a) eqn:Eg; simpl.
  2: { split; [done|]. intros (? & [= ->] & _ & _ & ? & _). lia. }
  split.
  - intros [= <- <-]. exists x. split_and!; try done; lia.
  - by intros (? & [= ->] & _ & _ & _ & -> & ->).
Qed.

Lemma compile_account_Ok a ms spec ms' :
  compile_account proxies providers a ms = Ok (spec, ms') <->
  exists s, ms !! oa_id a = Some s /\ account_made_of a s spec /\ ms' = delete (oa_id a) ms.
Proof.
  unfold compile_account, account_made_of. split.
  - destruct (providers !! oa_provider a) as [d|]; [|done].
    destruct (oauth_routing d) as [routing|] eqn:Er; [|done].
    destruct (oauth_take_for a ms) as [[doc rest]|] eqn:Et; [|done].
    apply oauth_take_for_Ok in Et as (s & ? & ? & ? & ? & -> & ->).
    destruct (decode_oauth_account_document _ _ _) as [token|] eqn:Ed; [|done].
    destruct (routing token) as [profile|] eqn:Ep; [|done].
    destruct (resolve_oauth proxies (oa_proxy a)) as [p|]; [|done]. intros [= <- <-].
    exists s. split_and!; try done. by exists d, routing, token, profile, p.
  - intros (s & Hs & (d & routing & token & profile & p & -> & -> & ? & ? & ? & Hd & Hp & -> & ->) & ->).
    rewrite (proj2 (oauth_take_for_Ok a ms (so_document s) (delete (oa_id a) ms))) by (by exists s).
    by rewrite Hd, Hp.
Qed.

Lemma read_secret s m : material_from_stored s = Ok m <->
  exists text, from_utf8 (st_secret s) = Some text /\ m = material_of s text.
Proof.
  unfold material_from_stored, material_of. destruct (from_utf8 _) as [text|]; [|naive_solver].
  split; [intros [= <-]; by exists text|by intros (? & [= ->] & ->)].
Qed.
Lemma read_secrets_ids secrets ms : Forall2 (fun s m => material_from_stored s = Ok m) secrets ms ->
  cm_credential <$> ms = st_credential <$> secrets.
Proof.
  induction 1 as [|s m secrets ms Hs _ IH]; [done|]. rewrite !fmap_cons, IH.
  by apply read_secret in Hs as (text & _ & ->).
Qed.

Lemma compile_credentials_Ok credentials secrets specs : NoDup (pc_id <$> credentials) ->
  (exists auth, materials_from_stored secrets = Ok auth /\
     try_fold (compile_credential endpoints proxies providers) credentials auth = Ok (specs, ∅)) <->
  st_credential <$> secrets ≡ₚ pc_id <$> credentials /\
  Forall2 (credential_compiles secrets) credentials specs.
Proof.
  intros Hnd. unfold materials_from_stored. split.
  - intros (auth & (ms & Hms & Hid & ->)%index_materials_Ok & Hf).
    apply (try_fold_consumes cm_credential pc_id _ credential_made_of compile_credential_Ok) in Hf
      as [Hp Hf]; [|done..].
    rewrite (read_secrets_ids _ _ Hms) in Hp. split; [done|].
    eapply Forall2_impl; [exact Hf|].
    intros c spec (m & Hm & Em & e & p & ? & ? & ? & ? & ? & ? & ->).
    apply list_elem_of_lookup in Hm as [i Hi].
    destruct (Forall2_lookup_r _ _ _ _ _ Hms Hi) as (s & Hs & (text & ? & ->)%read_secret).
    exists e, p, s, text. split_and!; try done. by eapply list_elem_of_lookup_2.
  - intros [Hp Hf]. assert (Hids : NoDup (st_credential <$> secrets)) by (by rewrite Hp).
    assert (exists ms, Forall2 (fun s m => material_from_stored s = Ok m) secrets ms) as [ms Hms].
    { assert (forall l, l ⊆ secrets -> exists ms, Forall2 (fun s m => material_from_stored s = Ok m) l ms)
        as Hall; [|by apply Hall].
      induction l as [|s l IH]; intros Hl; [by exists []|]. destruct IH as [ms Hms]; [set_solver|].
      assert (Hs : s ∈ secrets) by set_solver.
      assert (st_credential s ∈ pc_id <$> credentials) as (c & Ec & Hc)%list_elem_of_fmap
        by (rewrite <- Hp; by apply list_elem_of_fmap_2).
      apply list_elem_of_lookup in Hc as [i Hi].
      destruct (Forall2_lookup_l _ _ _ _ _ Hf Hi) as (spec & _ & e & p & s' & text & _ & _ & _ & Hs' & [Hm _] & Ht & _).
      assert (s' = s) as -> by (eapply (NoDup_fmap_elem st_credential); [exact Hids|done..|congruence]).
      exists (material_of s text :: ms). constructor; [|done]. apply read_secret. by exists text. }
    pose proof (read_secrets_ids _ _ Hms) as Hids'.
    exists (by_ids cm_credential ms). split; [apply index_materials_Ok; exists ms; by rewrite Hids'|].
    apply (try_fold_consumes cm_credential pc_id _ credential_made_of compile_credential_Ok);
      [done|by rewrite Hids'|]. split; [by rewrite Hids'|].
    eapply Forall2_impl; [exact Hf|].
    intros c spec (e & p & s & text & ? & ? & ? & Hs & (E1 & E2 & E3 & E4) & Ht & ->).
    apply list_elem_of_lookup in Hs as [i Hi].
    destruct (Forall2_lookup_l _ _ _ _ _ Hms Hi) as (m & Hm & (text' & Ht' & ->)%read_secret).
    rewrite Ht in Ht'. injection Ht' as <-. exists (material_of s text).
    split; [by eapply list_elem_of_lookup_2|]. split; [done|]. by exists e, p.
Qed.

Lemma read_documents stored ms :
  Forall2 (fun s m => @Ok StoredOAuthAccountMaterial RoutingCredentialCompileError s = Ok m) stored ms <->
  ms = stored.
Proof.
  split; [|intros ->; by apply Forall_Forall2_diag, Forall_true].
  induction 1 as [|s m stored ms [= ->] _ IH]; [done|]. by rewrite IH.
Qed.

Lemma compile_accounts_Ok accounts stored specs : NoDup (oa_id <$> accounts) ->
  compile_oauth_accounts first proxies providers accounts stored = Ok specs <->
  so_account <$> stored ≡ₚ oa_id <$> accounts /\ Forall2 (account_compiles stored) accounts specs.
Proof.
  intros Hnd. unfold compile_oauth_accounts, oauth_materials_new.
  assert (Hgood : forall l, Forall2 (fun a spec => exists s, s ∈ stored /\ so_account s = oa_id a /\
    account_made_of a s spec) l specs <-> Forall2 (account_compiles stored) l specs).
  { intros l. split; intros Hf; (eapply Forall2_impl; [exact Hf|]); intros a spec.
    - intros (s & Hs & Es & d & r & t & pr & p & ? & ? & ? & ? & ? & ? & ? & ? & ->).
      by exists d, r, s, t, pr, p.
    - intros (d & r & s & t & pr & p & ? & ? & Hs & (? & ? & ? & ?) & ? & ? & ? & ->).
      exists s. split_and!; try done. by exists d, r, t, pr, p. }
  rewrite <- Hgood. split.
  - destruct (index_materials _ _ _ _ _) as [m|] eqn:Ei; [|done].
    apply index_materials_Ok in Ei as (ms & ->%read_documents & Hid & ->).
    destruct (try_fold _ _ _) as [[bs rest]|] eqn:Ef; [|done].
    destruct (ensure_consumed _ _ _) as [[]|] eqn:Ec; [|done]. intros [= <-].
    apply ensure_consumed_Ok in Ec as ->.
    by apply (try_fold_consumes so_account oa_id _ account_made_of compile_account_Ok) in Ef.
  - intros [Hp Hf]. assert (Hid : NoDup (so_account <$> stored)) by (by rewrite Hp).
    rewrite (proj2 (index_materials_Ok so_account _ _ stored (by_ids so_account stored))).
    2: { exists stored. split; [by apply read_documents|done]. }
    rewrite (proj2 (try_fold_consumes so_account oa_id _ account_made_of compile_account_Ok
      accounts stored specs Hnd Hid)) by done.
    by rewrite (proj2 (ensure_consumed_Ok first _ _)).
Qed.

(** A stored configuration compiles exactly when its secrets fit it: the
    stored API keys are those of its credentials and the stored documents those
    of its accounts, one each and none left over, every secret is of the kind, the
    version and the generation its owner has now and can be read, every endpoint,
    driver, OAuth facet and proxy named is there.  The specifications are then
    those of the credentials followed by those of the accounts, in order. *)
Theorem compile_exact credentials accounts secrets stored specs :
  NoDup (pc_id <$> credentials) -> NoDup (oa_id <$> accounts) ->
  compile_stored first endpoints proxies providers credentials accounts secrets stored = Ok specs <->
  st_credential <$> secrets ≡ₚ pc_id <$> credentials /\
  so_account <$> stored ≡ₚ oa_id <$> accounts /\
  exists own more, specs = own ++ more /\
    Forall2 (credential_compiles secrets) credentials own /\
    Forall2 (account_compiles stored) accounts more.
Proof.
  intros Hc Ha. unfold compile_stored, compile_specs. split.
  - destruct (materials_from_stored secrets) as [auth|] eqn:Em; [|done].
    destruct (try_fold _ _ _) as [[own rest]|] eqn:Ef; [|done].
    destruct (ensure_consumed _ _ _) as [[]|] eqn:Ec; [|done]. apply ensure_consumed_Ok in Ec as ->.
    destruct (compile_oauth_accounts _ _ _ _ _) as [more|] eqn:Eo; [|done]. intros [= <-].
    apply compile_accounts_Ok in Eo as [? ?]; [|done].
    destruct (proj1 (compile_credentials_Ok credentials secrets own Hc)) as [? ?]; [by exists auth|].
    split_and!; try done. by exists own, more.
  - intros (Hp & Hq & own & more & -> & Hown & Hmore).
    destruct (proj2 (compile_credentials_Ok credentials secrets own Hc)) as (auth & -> & ->); [done|].
    rewrite (proj2 (ensure_consumed_Ok first _ _)) by done.
    by rewrite (proj2 (compile_accounts_Ok accounts stored more Ha)).
Qed.
End compile_facts.

(** * Proxy passwords *)

Lemma compile_material_Ok proxies s c : compile_material proxies s = Ok c <->
  exists p username password, proxy_get proxies (sp_proxy s) = Some p /\
    px_authentication p = Some username /\
    sp_authentication_version s = px_authentication_version p /\
    from_utf8 (sp_secret s) = Some password /\
    c = {| px_for := sp_proxy s; px_username := username; px_password := password |}.
Proof.
  unfold compile_material. destruct (proxy_get proxies (sp_proxy s)) as [p|]; [|naive_solver].
  destruct (px_authentication p) as [username|] eqn:Eu; [|naive_solver].
  destruct (sp_authentication_version s =? px_authentication_version p) eqn:Ev; simpl.
  2: { split; [done|]. intros (? & ? & ? & [= <-] & _ & ? & _). lia. }
  destruct (from_utf8 (sp_secret s)) as [password|] eqn:Ep; [|naive_solver].
  split; [|naive_solver]. intros [= <-]. exists p, username, password. split_and!; try done. lia.
Qed.

(** Once passwords compile, every authenticated proxy has the password stored for
    the version of its authentication, and a proxy without authentication has
    none. *)
Lemma proxy_auth_exact proxies stored by_id : NoDup (px_id <$> profiles proxies) ->
  proxy_auth_compile proxies stored = Ok by_id ->
  forall p, p ∈ profiles proxies ->
    match px_authentication p with
    | None => credentials_for by_id p = None
    | Some username => exists s password, s ∈ stored /\ sp_proxy s = px_id p /\
        sp_authentication_version s = px_authentication_version p /\
        from_utf8 (sp_secret s) = Some password /\
        credentials_for by_id p =
          Some {| px_for := px_id p; px_username := username; px_password := password |}
    end.
Proof.
  intros Hnd. unfold proxy_auth_compile, credentials_for.
  destruct (index_materials _ _ _ _ _) as [m|] eqn:Ei; [|done].
  destruct (list_find _ _) as [[? ?]|] eqn:Ef; [done|]. intros [= <-] p Hp.
  destruct (px_authentication p) as [username|] eqn:Eu; [|done].
  apply index_materials_Ok in Ei as (ms & Hms & Hid & ->).
  rewrite list_find_None, Forall_forall in Ef. specialize (Ef p Hp). simpl.
  destruct (by_ids px_for ms !! px_id p) as [c|] eqn:Ec; [|by destruct Ef; eauto].
  apply by_ids_lookup in Ec as [Hc Ec]; [|done]. apply list_elem_of_lookup in Hc as [i Hi].
  destruct (Forall2_lookup_r _ _ _ _ _ Hms Hi) as
    (s & Hs & (p' & u & password & Hp' & Hu & Hv & Hpw & ->)%compile_material_Ok).
  simpl in Ec. rewrite Ec in Hp'.
  apply (entity_get_Some px_id _ _ _ Hnd) in Hp' as [Hp' Ep'].
  assert (p' = p) as -> by (eapply (NoDup_fmap_elem px_id); done).
  rewrite Eu in Hu. injection Hu as <-. exists s, password. rewrite Ec.
  split_and!; try done. by eapply list_elem_of_lookup_2.
Qed.

(** * Samples *)

Definition sample_uuid : UuidLib := {| uuid_v5 := fun ns name => ns + Zlen name; uuid_text := fun _ => "" |}.
Definition sample_codec : DocumentCodec :=
  {| to_vec_pretty := fun d => Some (bytes_of (df_access d));
     from_slice := fun bytes => Some {| df_access := String.string_of_list_byte bytes; df_refresh := None;
       df_id := None; df_account := None; df_email := None |} |}.
Definition sample_profile : OAuthRoutingProfile :=
  {| profile_base_url := "https://chatgpt.com/backend-api/codex"; profile_dialect := OpenAiResponses |}.
Definition sample_providers : ProviderRegistry :=
  <[Codex := {| driver_descriptor := codex_descriptor; has_authorization_code := true;
                has_device_code := false; has_token := true;
                oauth_routing := Some (fun _ => Ok sample_profile);
                oauth_quota := Some {| has_supplement := false; has_reset := true |} |}]>
  {[ OpenAi := plain_driver openai_descriptor ]}.
Definition sample_secret : StoredProviderCredentialSecret :=
  {| st_credential := pc_id sample_enabled; st_kind := pc_kind sample_enabled;
     st_secret_version := pc_secret_version sample_enabled; st_generation := pc_generation sample_enabled;
     st_secret := bytes_of "sk-1" |}.
Definition sample_document : StoredOAuthAccountMaterial :=
  {| so_account := 4; so_provider := Codex; so_token_version := 1; so_generation := 1;
     so_document := bytes_of "token" |}.
Definition sample_compiled : result (list RoutingCredentialSpec) RoutingCredentialCompileError :=
  @compile_stored sample_uuid sample_codec (fun _ => 0) [sample_endpoint] sample_proxies sample_providers
    [sample_enabled] [sample_account] [sample_secret] [sample_document].

Lemma compile_exact_witness : exists spec, sample_compiled = Ok spec /\
  (fun s => pj_id (rs_projection s)) <$> spec = [inl (pc_id sample_enabled); inr 4] /\
  @compile_stored sample_uuid sample_codec (fun _ => 0) [sample_endpoint] sample_proxies sample_providers
    [sample_enabled] [sample_account] [] [sample_document] <> Ok spec.
Proof.
  destruct sample_compiled as [specs|] eqn:E; [|vm_compute in E; discriminate].
  exists specs. split; [reflexivity|]. split.
  - vm_compute in E. injection E as <-. reflexivity.
  - intros H0. apply compile_exact in H0 as (Hp & _).
    + apply Permutation_nil_cons in Hp. exact Hp.
    + apply NoDup_singleton.
    + apply NoDup_singleton.
Defined.
