(* ===== verification/Building.v ===== *)
(** * Routing credentials and the candidates of a route

    Models [runtime/src/routing/credential/projection.rs] (the bound credential),
    [routing/candidates/route.rs] ([build_route_candidates], [path_health]),
    [oauth.rs], [paths.rs] and [cache.rs], and [route_tiers] of
    [configuration/snapshot/oauth.rs].

    The clock is read for credentials that expire; [clock id] is what it shows
    when the expiry of credential [id] is looked at.  Tiers are a map from the
    fallback tier to its candidates. *)
From S2P Require Import Prelude Search Protocol Text Epoch Circuit Upstream Health Attempt Admission CredentialRuntime Candidates TierCursor RouteHealth RetryBudget Registry OAuthErrors Entities Catalog Routes Drivers Compile.
Local Open Scope Z_scope.

(** * Bound credentials *)

(** [RoutingCredential]: a projection, the binding of its runtime and its
    admission *)
Record RoutingCredential := {
  rc_projection : RoutingCredentialProjection;
  rc_binding : BoundCredential;
  rc_admission : option nat
}.
Definition rc_id (c : RoutingCredential) : RoutingCredentialId := pj_id (rc_projection c).
(** [binding().generation().routing_generation()] *)
Definition rc_generation (c : RoutingCredential) : Z := gen_routing (bound_generation (rc_binding c)).

(** [authentication_expired], [routable], [is_oauth], [supports_model] *)
Definition authentication_expired (now : Z) (c : RoutingCredential) : bool :=
  match pj_expires_at (rc_projection c) with Some e => e <=? now | None => false end.
Definition routable (now : Z) (c : RoutingCredential) : bool :=
  let p := rc_projection c in
  pj_enabled p && pj_endpoint_enabled p && pj_proxy_enabled p && negb (authentication_expired now c).
Definition is_oauth (c : RoutingCredential) : bool := bool_decide (is_Some (oauth_account_id (rc_id c))).
Definition supports_model (c : RoutingCredential) (model : string) : bool :=
  bool_decide (is_Some (binary_search_by (fun m => String.compare m model) (pj_models (rc_projection c)))).

(** [RoutingCredentials::get] over [by_id], which [collect] fills in order *)
Definition credentials_by_id (l : list RoutingCredential) : gmap RoutingCredentialId nat :=
  foldl (fun m ic => <[rc_id ic.2 := ic.1]> m) ∅ (imap pair l).
Definition routing_get (l : list RoutingCredential) (id : RoutingCredentialId) : option RoutingCredential :=
  i ← credentials_by_id l !! id; l !! i.

(** * Requirements *)

Record CandidateRequirements := {
  req_operation : ProtocolOperation;
  req_profile : RequestExecutionProfile;
  req_transport : TransportMode
}.
#[export] Instance requirements_eq_dec : EqDecision CandidateRequirements.
Proof. solve_decision. Defined.
#[export] Instance requirements_countable : Countable CandidateRequirements.
Proof.
  apply (inj_countable'
    (fun r => (req_operation r,
               match req_profile r with Standard => false | RemoteCompaction => true end,
               match req_transport r with Json => false | Sse => true end))
    (fun '(o, p, t) => {| req_operation := o;
       req_profile := if p : bool then RemoteCompaction else Standard;
       req_transport := if t : bool then Sse else Json |})).
  by intros [o [] []].
Defined.

(** [RequestExecutionProfile::requires_same_dialect] *)
Definition requires_same_dialect (p : RequestExecutionProfile) : bool :=
  match p with RemoteCompaction => true | Standard => false end.

(** * Candidates *)

(** [RouteCandidate], with what its attempts need *)
Record BuiltCandidate := {
  bc_routed : RoutedCandidate;
  bc_provider : ProviderKind;
  bc_base_url : string;
  bc_upstream_dialect : ProtocolDialect
}.

Abbreviation RouteCandidateTiers := (gmap Z (list BuiltCandidate)) (only parsing).

(** [entry(tier).or_default().push(candidate)] *)
Definition push_candidate (tier : Z) (c : BuiltCandidate) (tiers : RouteCandidateTiers)
    : RouteCandidateTiers :=
  <[tier := default [] (tiers !! tier) ++ [c]]> tiers.

Definition egress_key (c : RoutingCredential) : EgressPathKey :=
  let p := rc_projection c in
  {| egress_endpoint := pj_endpoint p; egress_endpoint_version := pj_endpoint_version p;
     egress_proxy := pj_proxy p; egress_proxy_version := pj_proxy_version p |}.
(** [path_base] *)
Definition path_base_of (target_id : Z) (c : RoutingCredential) : CandidatePathBaseKey :=
  {| base_target := target_id; base_credential := rc_id c; base_generation := rc_generation c;
     base_path := egress_key c |}.

(** [path_health] *)
Definition path_health (target_id : Z) (o : ProtocolOperation) (c : RoutingCredential)
    (reg : HealthRegistry) (h : HealthStore) : outcome (nat * nat * HealthRegistry * HealthStore) :=
  '(egress, reg, h) ← egress_path (egress_key c) reg h;
  '(candidate, reg, h) ← candidate_path {| path_operation := o; path_base := path_base_of target_id c |} reg h;
  Ret (egress, candidate, reg, h).

(** The candidate of a credential for a target *)
Definition make_candidate (health : HealthBindings) (o : ProtocolOperation) (target_id endpoint_id : Z)
    (model : string) (dialect : ProtocolDialect) (proxy_id : Z) (admission : nat)
    (c : RoutingCredential) (egress candidate : nat) : BuiltCandidate :=
  let p := rc_projection c in
  let b := rc_binding c in
  {| bc_routed :=
       {| route := {| target_id := target_id; operation := o; endpoint_id := endpoint_id;
                      endpoint_config_version := pj_endpoint_version p; credential_id := rc_id c;
                      routing_generation := rc_generation c; upstream_model := model;
                      proxy_id := proxy_id; proxy_config_version := pj_proxy_version p;
                      authentication_version := gen_authentication (bound_generation b) |};
          endpoint_health := bound_endpoints health !! endpoint_id;
          proxy_health := bound_proxies health !! proxy_id;
          egress_path_health := egress; candidate_path_health := candidate;
          binding := {| handle := bound_handle b; generation := gen_health (bound_generation b);
                        requests_per_minute := bound_limit b; binding_admission := rc_admission c |};
          candidate_admission := admission |};
     bc_provider := pj_provider p; bc_base_url := pj_base_url p; bc_upstream_dialect := dialect |}.

(** What a published snapshot gives the building of candidates *)
Record RoutingView := {
  view_endpoints : list ProviderEndpoint;
  view_proxies : ProxyConfiguration;
  view_routes : list ModelRoute;
  view_credentials : list RoutingCredential;
  view_health : HealthBindings
}.

Section building.
Context {uuid_lib : UuidLib}.
Context (clock : RoutingCredentialId -> Z).
Context (protocols : ProtocolRegistry) (providers : ProviderRegistry).

(** [oauth_target_id], [oauth_route_id], [resolved_oauth_route_id] *)
Definition OAUTH_TARGET_NAMESPACE : Z := 0x61ad9f3e7da05cb595af7fe59b6797b2.
Definition OAUTH_ROUTE_NAMESPACE : Z := 0xf0f3772f031a5a1ca2811a90622b9088.
Definition nul : string := String (Ascii.ascii_of_nat 0) "".
Definition oauth_target_id (route_id endpoint_id : Z) (dialect : ProtocolDialect) : Z :=
  uuid_v5 OAUTH_TARGET_NAMESPACE
    (bytes_of (uuid_text route_id +:+ nul +:+ uuid_text endpoint_id +:+ nul +:+ dialect_as_str dialect)).
Definition oauth_route_id (dialect : ProtocolDialect) (public_model : string) : Z :=
  uuid_v5 OAUTH_ROUTE_NAMESPACE (bytes_of (dialect_as_str dialect +:+ nul +:+ public_model)).
Definition resolved_oauth_route_id (routes : list ModelRoute) (dialect : ProtocolDialect)
    (public_model : string) : Z :=
  match resolve routes dialect public_model with
  | Some r => if route_enabled r then route_id r else oauth_route_id dialect public_model
  | None => oauth_route_id dialect public_model
  end.

(** The endpoint through which a target of a route can be served: the guards of
    [build_route_candidates] before its inner loop *)
Definition serving_endpoint (v : RoutingView) (ingress : ProtocolDialect) (req : CandidateRequirements)
    (t : RouteTargetDraft) : option ProviderEndpoint :=
  match endpoint_get (view_endpoints v) (draft_endpoint t) with
  | None => None
  | Some e =>
    let upstream := draft_upstream_dialect t in
    if negb (ep_enabled e) || negb (bool_decide (ep_dialect e = ingress)) ||
       negb (bool_decide (effective_upstream e = upstream)) ||
       (requires_same_dialect (req_profile req) && negb (bool_decide (upstream = ingress))) ||
       negb (supports_operation protocols ingress upstream (req_operation req))
    then None
    else match providers !! ep_provider e with
         | None => None
         | Some d =>
           let descriptor := driver_descriptor d in
           if bool_decide (ingress = upstream) &&
              negb (supports_api_key_operation descriptor (req_operation req)) then None
           else if negb (supports_protocol descriptor upstream) ||
                   negb (supports_transport_mode descriptor (req_transport req)) then None
           else Some e
         end
  end.

(** The filters on an API key credential *)
Definition key_credential_fits (e : ProviderEndpoint) (t : RouteTargetDraft) (c : RoutingCredential) : bool :=
  negb (is_oauth c) && (pj_endpoint (rc_projection c) =? ep_id e) && routable (clock (rc_id c)) c &&
  supports_model c (draft_upstream_model t).

(** The proxy of a credential, if it is there and enabled *)
Definition enabled_proxy (v : RoutingView) (c : RoutingCredential) : option ProxyProfile :=
  match proxy_get (view_proxies v) (pj_proxy (rc_projection c)) with
  | Some p => if px_enabled p then Some p else None
  | None => None
  end.

(** One turn of the inner loop *)
Definition add_key_candidate (v : RoutingView) (req : CandidateRequirements) (t : RouteTargetDraft)
    (e : ProviderEndpoint) (c : RoutingCredential)
    (st : RouteCandidateTiers * HealthRegistry * HealthStore)
    : outcome (RouteCandidateTiers * HealthRegistry * HealthStore) :=
  let '(tiers, reg, h) := st in
  if key_credential_fits e t c then
    match rc_admission c, enabled_proxy v c with
    | Some admission, Some p =>
      '(egress, candidate, reg, h) ← path_health (draft_id t) (req_operation req) c reg h;
      Ret (push_candidate (draft_tier t)
             (make_candidate (view_health v) (req_operation req) (draft_id t) (ep_id e)
                (draft_upstream_model t) (draft_upstream_dialect t) (px_id p) admission c egress candidate)
             tiers, reg, h)
    | _, _ => Ret st
    end
  else Ret st.

Fixpoint fold_outcome {A S} (f : A -> S -> outcome S) (l : list A) (s : S) : outcome S :=
  match l with
  | [] => Ret s
  | x :: l => s ← f x s; fold_outcome f l s
  end.

Definition add_target_candidates (v : RoutingView) (ingress : ProtocolDialect)
    (req : CandidateRequirements) (t : RouteTargetDraft)
    (st : RouteCandidateTiers * HealthRegistry * HealthStore)
    : outcome (RouteCandidateTiers * HealthRegistry * HealthStore) :=
  if draft_enabled t then
    match serving_endpoint v ingress req t with
    | Some e => fold_outcome (add_key_candidate v req t e) (view_credentials v) st
    | None => Ret st
    end
  else Ret st.

(** The filters and guards on an OAuth credential *)
Definition oauth_credential_fits (ingress : ProtocolDialect) (req : CandidateRequirements)
    (model : string) (c : RoutingCredential) : bool :=
  let p := rc_projection c in
  is_oauth c && routable (clock (rc_id c)) c && bool_decide (pj_ingress p = ingress) &&
  supports_model c model &&
  negb (requires_same_dialect (req_profile req) && negb (bool_decide (pj_upstream p = ingress))) &&
  supports_operation protocols ingress (pj_upstream p) (req_operation req) &&
  match providers !! pj_provider p with
  | None => false
  | Some d =>
    let descriptor := driver_descriptor d in
    supports_oauth_operation descriptor (req_operation req) &&
    supports_protocol descriptor (pj_upstream p) &&
    supports_transport_mode descriptor (req_transport req)
  end.

Definition add_oauth_candidate (v : RoutingView) (route_id : Z) (ingress : ProtocolDialect)
    (req : CandidateRequirements) (model : string) (c : RoutingCredential)
    (st : RouteCandidateTiers * HealthRegistry * HealthStore)
    : outcome (RouteCandidateTiers * HealthRegistry * HealthStore) :=
  let '(tiers, reg, h) := st in
  if oauth_credential_fits ingress req model c then
    match rc_admission c, enabled_proxy v c with
    | Some admission, Some p =>
      let pj := rc_projection c in
      let target_id := oauth_target_id route_id (pj_endpoint pj) (pj_upstream pj) in
      '(egress, candidate, reg, h) ← path_health target_id (req_operation req) c reg h;
      Ret (push_candidate 0
             (make_candidate (view_health v) (req_operation req) target_id (pj_endpoint pj)
                model (pj_upstream pj) (px_id p) admission c egress candidate)
             tiers, reg, h)
    | _, _ => Ret st
    end
  else Ret st.

(** [add_oauth_candidates] *)
Definition add_oauth_candidates (v : RoutingView) (route_id : Z) (ingress : ProtocolDialect)
    (public_model : string) (req : CandidateRequirements)
    (st : RouteCandidateTiers * HealthRegistry * HealthStore)
    : outcome (RouteCandidateTiers * HealthRegistry * HealthStore) :=
  match model_name_new public_model with
  | Err _ => Ret st
  | Ok model => fold_outcome (add_oauth_candidate v route_id ingress req model) (view_credentials v) st
  end.

(** [build_oauth_route_candidates], [build_route_candidates] *)
Definition build_oauth_route_candidates (v : RoutingView) (route_id : Z) (ingress : ProtocolDialect)
    (public_model : string) (req : CandidateRequirements) (reg : HealthRegistry) (h : HealthStore)
    : outcome (RouteCandidateTiers * HealthRegistry * HealthStore) :=
  add_oauth_candidates v route_id ingress public_model req (∅, reg, h).
Definition build_route_candidates (v : RoutingView) (r : ModelRoute) (req : CandidateRequirements)
    (reg : HealthRegistry) (h : HealthStore)
    : outcome (RouteCandidateTiers * HealthRegistry * HealthStore) :=
  st ← fold_outcome (fun t => add_target_candidates v (route_ingress r) req (target t))
         (route_targets r) (∅, reg, h);
  add_oauth_candidates v (route_id r) (route_ingress r) (route_public_model r) req st.

(** * The paths a configuration keeps health for *)

(** [candidate_credential_is_active] *)
Definition credential_is_active (proxies : ProxyConfiguration) (c : RoutingCredential) : bool :=
  routable (clock (rc_id c)) c &&
  match proxy_get proxies (pj_proxy (rc_projection c)) with Some p => px_enabled p | None => false end.

(** [active_candidate_path_bases] *)
Definition key_path_bases (routes : list ModelRoute) (l : list RoutingCredential)
    (proxies : ProxyConfiguration) : list CandidatePathBaseKey :=
  r ← filter (fun r => route_enabled r = true) routes;
  t ← filter (fun t => draft_enabled (target t) = true) (route_targets r);
  c ← filter (fun c => negb (is_oauth c) && credential_is_active proxies c &&
                       (pj_endpoint (rc_projection c) =? draft_endpoint (target t)) &&
                       bool_decide (pj_ingress (rc_projection c) = route_ingress r) &&
                       bool_decide (pj_upstream (rc_projection c) = draft_upstream_dialect (target t)) &&
                       supports_model c (draft_upstream_model (target t)) = true) l;
  [path_base_of (draft_id (target t)) c].
Definition oauth_path_bases (routes : list ModelRoute) (l : list RoutingCredential)
    (proxies : ProxyConfiguration) : list CandidatePathBaseKey :=
  c ← filter (fun c => is_oauth c && credential_is_active proxies c = true) l;
  model ← pj_models (rc_projection c);
  match model_name_new model with
  | Err _ => []
  | Ok public_model =>
    let pj := rc_projection c in
    let route_id := resolved_oauth_route_id routes (pj_ingress pj) public_model in
    [path_base_of (oauth_target_id route_id (pj_endpoint pj) (pj_upstream pj)) c]
  end.
Definition active_candidate_path_bases (routes : list ModelRoute) (l : list RoutingCredential)
    (proxies : ProxyConfiguration) : gset CandidatePathBaseKey :=
  list_to_set (key_path_bases routes l proxies ++ oauth_path_bases routes l proxies).

(** [route_tiers]: the tiers OAuth credentials add to the routes *)
Definition route_tiers (routes : list ModelRoute) (l : list RoutingCredential) : list (Z * Z) :=
  c ← filter (fun c => is_oauth c = true) l;
  model ← pj_models (rc_projection c);
  match model_name_new model with
  | Err _ => []
  | Ok public_model => [(resolved_oauth_route_id routes (pj_ingress (rc_projection c)) public_model, 0)]
  end.

(** * The cache of candidate sets *)

Abbreviation RouteCandidateCache := (gmap (Z * CandidateRequirements) (gmap Z (list BuiltCandidate))) (only parsing).

(** [get_or_build] past the look-up under the read lock: another request may have
    stored its set in between. *)
Definition cache_store (key : Z * CandidateRequirements) (built : RouteCandidateTiers)
    (cache : RouteCandidateCache) : RouteCandidateTiers * RouteCandidateCache :=
  if decide (built = ∅) then (built, cache)
  else match cache !! key with
       | Some cached => (cached, cache)
       | None => (built, <[key := built]> cache)
       end.
Definition get_or_build (key : Z * CandidateRequirements)
    (build : HealthRegistry -> HealthStore -> outcome (RouteCandidateTiers * HealthRegistry * HealthStore))
    (cache : RouteCandidateCache) (reg : HealthRegistry) (h : HealthStore)
    : outcome (RouteCandidateTiers * RouteCandidateCache * HealthRegistry * HealthStore) :=
  match cache !! key with
  | Some cached => Ret (cached, cache, reg, h)
  | None =>
    '(built, reg, h) ← build reg h;
    let '(tiers, cache) := cache_store key built cache in
    Ret (tiers, cache, reg, h)
  end.
End building.

(** * What building a candidate set does *)

(** A place a credential has among the candidates *)
Record slot := {
  slot_tier : Z;
  slot_target : Z;
  slot_endpoint : Z;
  slot_model : string;
  slot_dialect : ProtocolDialect;
  slot_proxy : Z;
  slot_admission : nat;
  slot_credential : RoutingCredential
}.

Section slots.
Context {uuid_lib : UuidLib}.
Context (clock : RoutingCredentialId -> Z).
Context (protocols : ProtocolRegistry) (providers : ProviderRegistry).
Context (v : RoutingView) (req : CandidateRequirements).

(** The places of API key credentials for a target *)
Definition key_slots (ingress : ProtocolDialect) (t : RouteTargetDraft) : list slot :=
  if draft_enabled t then
    match serving_endpoint protocols providers v ingress req t with
    | None => []
    | Some e =>
      c ← view_credentials v;
      if key_credential_fits clock e t c then
        match rc_admission c, enabled_proxy v c with
        | Some admission, Some p =>
          [{| slot_tier := draft_tier t; slot_target := draft_id t; slot_endpoint := ep_id e;
              slot_model := draft_upstream_model t; slot_dialect := draft_upstream_dialect t;
              slot_proxy := px_id p; slot_admission := admission; slot_credential := c |}]
        | _, _ => []
        end
      else []
    end
  else [].

(** The places of OAuth credentials on a route, in tier 0 *)
Definition oauth_slots (route_id : Z) (ingress : ProtocolDialect) (public_model : string) : list slot :=
  match model_name_new public_model with
  | Err _ => []
  | Ok model =>
    c ← view_credentials v;
    if oauth_credential_fits clock protocols providers ingress req model c then
      match rc_admission c, enabled_proxy v c with
      | Some admission, Some p =>
        let pj := rc_projection c in
        [{| slot_tier := 0; slot_target := oauth_target_id route_id (pj_endpoint pj) (pj_upstream pj);
            slot_endpoint := pj_endpoint pj; slot_model := model; slot_dialect := pj_upstream pj;
            slot_proxy := px_id p; slot_admission := admission; slot_credential := c |}]
      | _, _ => []
      end
    else []
  end.

Definition route_slots (r : ModelRoute) : list slot :=
  (t ← route_targets r; key_slots (route_ingress r) (target t)) ++
  oauth_slots (route_id r) (route_ingress r) (route_public_model r).

(** A candidate in its place *)
Definition candidate_in (s : slot) (egress candidate : nat) : BuiltCandidate :=
  make_candidate (view_health v) (req_operation req) (slot_target s) (slot_endpoint s) (slot_model s)
    (slot_dialect s) (slot_proxy s) (slot_admission s) (slot_credential s) egress candidate.
Definition place (s : slot) (st : RouteCandidateTiers * HealthRegistry * HealthStore)
    : outcome (RouteCandidateTiers * HealthRegistry * HealthStore) :=
  let '(tiers, reg, h) := st in
  '(egress, candidate, reg, h) ← path_health (slot_target s) (req_operation req) (slot_credential s) reg h;
  Ret (push_candidate (slot_tier s) (candidate_in s egress candidate) tiers, reg, h).

Lemma fold_outcome_app {A S} (f : A -> S -> outcome S) l k s :
  fold_outcome f (l ++ k) s = (s ← fold_outcome f l s; fold_outcome f k s).
Proof.
  revert s. induction l as [|x l IH]; intros s; [done|]. simpl. destruct (f x s) as [s'|]; [|done].
  apply IH.
Qed.
Lemma fold_outcome_flat {A} (f : A -> RouteCandidateTiers * HealthRegistry * HealthStore -> _) g l s :
  (forall x s, f x s = fold_outcome place (g x) s) ->
  fold_outcome f l s = fold_outcome place (l ≫= g) s.
Proof.
  intros Hf. revert s. induction l as [|x l IH]; intros s; [done|]. simpl.
  rewrite Hf, fold_outcome_app. destruct (fold_outcome place (g x) s) as [s'|]; [|done]. apply IH.
Qed.
Lemma fold_outcome_one {A S} (f : A -> S -> outcome S) x s : fold_outcome f [x] s = f x s.
Proof. simpl. by destruct (f x s). Qed.

(** Building places one candidate after the other. *)
Lemma build_places r reg h : build_route_candidates clock protocols providers v r req reg h =
  fold_outcome place (route_slots r) (∅, reg, h).
Proof.
  unfold build_route_candidates, route_slots. rewrite fold_outcome_app.
  rewrite (fold_outcome_flat _ (fun t => key_slots (route_ingress r) (target t))).
  2: { intros t s. unfold add_target_candidates, key_slots. destruct (draft_enabled _); [|done].
       destruct (serving_endpoint _ _ _ _ _ _) as [e|]; [|done]. apply fold_outcome_flat.
       intros c [[tiers reg'] h']. unfold add_key_candidate. destruct (key_credential_fits _ _ _ _); [|done].
       destruct (rc_admission c), (enabled_proxy v c); try done. by rewrite fold_outcome_one. }
  destruct (fold_outcome place _ _) as [s|]; [|done].
  unfold add_oauth_candidates, oauth_slots. destruct (model_name_new _) as [model|]; [|done].
  apply fold_outcome_flat. intros c [[tiers reg'] h']. unfold add_oauth_candidate.
  destruct (oauth_credential_fits _ _ _ _ _ _ _); [|done].
  destruct (rc_admission c), (enabled_proxy v c); try done. by rewrite fold_outcome_one.
Qed.
Lemma build_oauth_places route_id ingress public_model reg h :
  build_oauth_route_candidates clock protocols providers v route_id ingress public_model req reg h =
  fold_outcome place (oauth_slots route_id ingress public_model) (∅, reg, h).
Proof.
  unfold build_oauth_route_candidates, add_oauth_candidates, oauth_slots.
  destruct (model_name_new _) as [model|]; [|done].
  apply fold_outcome_flat. intros c [[tiers reg'] h']. unfold add_oauth_candidate.
  destruct (oauth_credential_fits _ _ _ _ _ _ _); [|done].
  destruct (rc_admission c), (enabled_proxy v c); try done. by rewrite fold_outcome_one.
Qed.
End slots.

(** * Health of the candidates built *)

Record registry_grows (reg reg' : HealthRegistry) : Prop := {
  grows_egress_active : egress_active reg' = egress_active reg;
  grows_candidate_active : candidate_active reg' = candidate_active reg;
  grows_egress : egress_runtimes reg ⊆ egress_runtimes reg';
  grows_candidate : candidate_runtimes reg ⊆ candidate_runtimes reg'
}.
Lemma registry_grows_refl reg : registry_grows reg reg.
Proof. by split. Qed.
Lemma registry_grows_trans reg1 reg2 reg3 :
  registry_grows reg1 reg2 -> registry_grows reg2 reg3 -> registry_grows reg1 reg3.
Proof. intros [? ? ? ?] [? ? ? ?]. split; try congruence; by etrans. Qed.

Lemma egress_path_spec key reg h r reg' h' : egress_path key reg h = Ret (r, reg', h') ->
  registry_grows reg reg' /\ (key ∈ egress_active reg -> egress_runtimes reg' !! key = Some r).
Proof.
  unfold egress_path, egress_path_insert. destruct (egress_runtimes reg !! key) as [r0|] eqn:E.
  { intros [= <- <- <-]. split; [apply registry_grows_refl|done]. }
  case_decide as Ha.
  - unfold ensure. rewrite E. destruct (alloc_endpoint h) as [[r1 h1]|]; [|done]. simpl.
    intros [= <- <- <-]. split; [|intros _; apply lookup_insert_eq].
    split; [done..|by apply insert_subseteq|done].
  - destruct (alloc_endpoint h) as [[r1 h1]|]; [|done]. simpl. intros [= <- <- <-].
    split; [apply registry_grows_refl|done].
Qed.
Lemma candidate_path_spec key reg h r reg' h' : candidate_path key reg h = Ret (r, reg', h') ->
  registry_grows reg reg' /\
  (path_base key ∈ candidate_active reg -> candidate_runtimes reg' !! key = Some r).
Proof.
  unfold candidate_path, candidate_path_insert. destruct (candidate_runtimes reg !! key) as [r0|] eqn:E.
  { intros [= <- <- <-]. split; [apply registry_grows_refl|done]. }
  case_decide as Ha.
  - unfold ensure. rewrite E. destruct (alloc_endpoint h) as [[r1 h1]|]; [|done]. simpl.
    intros [= <- <- <-]. split; [|intros _; apply lookup_insert_eq].
    split; [done..|by apply insert_subseteq].
  - destruct (alloc_endpoint h) as [[r1 h1]|]; [|done]. simpl. intros [= <- <- <-].
    split; [apply registry_grows_refl|done].
Qed.

(** The health of paths the registry keeps is the one it keeps. *)
Definition shares_paths (reg : HealthRegistry) (target_id : Z) (o : ProtocolOperation)
    (c : RoutingCredential) (egress candidate : nat) : Prop :=
  (egress_key c ∈ egress_active reg -> egress_runtimes reg !! egress_key c = Some egress) /\
  (path_base_of target_id c ∈ candidate_active reg ->
   candidate_runtimes reg !! {| path_operation := o; path_base := path_base_of target_id c |} =
     Some candidate).

Lemma shares_grows reg reg' target_id o c egress candidate : registry_grows reg reg' ->
  shares_paths reg target_id o c egress candidate -> shares_paths reg' target_id o c egress candidate.
Proof.
  intros [E1 E2 G1 G2] [H1 H2]. split.
  - rewrite E1. intros Ha. exact (lookup_weaken _ _ _ _ (H1 Ha) G1).
  - rewrite E2. intros Ha. exact (lookup_weaken _ _ _ _ (H2 Ha) G2).
Qed.

Lemma path_health_spec target_id o c reg h egress candidate reg' h' :
  path_health target_id o c reg h = Ret (egress, candidate, reg', h') ->
  registry_grows reg reg' /\ shares_paths reg' target_id o c egress candidate.
Proof.
  unfold path_health. destruct (egress_path _ _ _) as [[[r1 reg1] h1]|] eqn:E1; [|done]. simpl.
  destruct (candidate_path _ _ _) as [[[r2 reg2] h2]|] eqn:E2; [|done]. simpl. intros [= <- <- <- <-].
  apply egress_path_spec in E1 as [G1 P1]. apply candidate_path_spec in E2 as [G2 P2].
  split; [by eapply registry_grows_trans|]. split.
  - rewrite (grows_egress_active _ _ G2), (grows_egress_active _ _ G1). intros Ha.
    exact (lookup_weaken _ _ _ _ (P1 Ha) (grows_egress _ _ G2)).
  - rewrite (grows_candidate_active _ _ G2). exact P2.
Qed.

Section placing.
Context (v : RoutingView) (req : CandidateRequirements).

Definition placed (reg : HealthRegistry) (s : slot) (b : BuiltCandidate) : Prop :=
  exists egress candidate, b = candidate_in v req s egress candidate /\
    shares_paths reg (slot_target s) (req_operation req) (slot_credential s) egress candidate.

Lemma placed_grows reg reg' s b : registry_grows reg reg' -> placed reg s b -> placed reg' s b.
Proof. intros Hg (e & c & -> & Hs). exists e, c. split; [done|]. by eapply shares_grows. Qed.

Lemma push_lookup tier c (tiers : RouteCandidateTiers) k : push_candidate tier c tiers !! k =
  if decide (tier = k) then Some (default [] (tiers !! k) ++ [c]) else tiers !! k.
Proof.
  unfold push_candidate. case_decide as E; [subst; apply lookup_insert_eq|by apply lookup_insert_ne].
Qed.

Lemma places_spec l tiers reg h tiers' reg' h' :
  fold_outcome (place v req) l (tiers, reg, h) = Ret (tiers', reg', h') ->
  registry_grows reg reg' /\
  forall k, exists bs, default [] (tiers' !! k) = default [] (tiers !! k) ++ bs /\
    Forall2 (placed reg') (filter (fun s => slot_tier s = k) l) bs /\
    (tiers' !! k = Some [] -> tiers !! k = Some []).
Proof.
  revert tiers reg h. induction l as [|s l IH]; intros tiers reg h.
  { intros [= <- <- <-]. split; [apply registry_grows_refl|]. intros k. exists [].
    rewrite app_nil_r. split_and!; [done|constructor|done]. }
  simpl. destruct (path_health _ _ _ _ _) as [[[[e c] reg1] h1]|] eqn:Ep; [|done]. simpl.
  intros Hf. apply path_health_spec in Ep as [G1 P1]. destruct (IH _ _ _ Hf) as [G2 Hk].
  split; [by eapply registry_grows_trans|]. intros k. destruct (Hk k) as (bs & E & Hbs & Hne).
  rewrite push_lookup in E, Hne. rewrite filter_cons. destruct (decide (slot_tier s = k)) as [Ek|Hk'].
  - exists (candidate_in v req s e c :: bs). simpl in E. split_and!.
    + by rewrite E, <- (assoc_L app).
    + constructor; [|done]. exists e, c. split; [done|]. by eapply shares_grows.
    + intros H0. specialize (Hne H0). injection Hne as Hne. by destruct (default [] (tiers !! k)).
  - exists bs. split_and!; done.
Qed.
End placing.

(** * What a configuration offers *)

(** The conditions on a candidate, spelled out over the configuration *)
Section offers.
Context {uuid_lib : UuidLib}.
Context (clock : RoutingCredentialId -> Z).
Context (protocols : ProtocolRegistry) (providers : ProviderRegistry).
Context (v : RoutingView) (req : CandidateRequirements).

(** An operation of one dialect reaches an upstream of another: both have an
    adapter, and where they differ a bridge carries the operation; a request that
    must keep its dialect does. *)
Definition reaches_dialect (ingress upstream : ProtocolDialect) : Prop :=
  operation_dialect (req_operation req) = ingress /\
  ingress ∈ adapters protocols /\ upstream ∈ adapters protocols /\
  (ingress = upstream \/
   exists ops, bridges protocols !! (ingress, upstream) = Some ops /\ req_operation req ∈ ops) /\
  (req_profile req = RemoteCompaction -> upstream = ingress).

(** A driver has an operation of the dialect and the transport. *)
Definition carries_dialect (d : ProviderDescriptor) (upstream : ProtocolDialect) : Prop :=
  (exists o, (o ∈ api_key_operations d \/ exists q, oauth d = Some q /\ o ∈ oauth_operations q) /\
             operation_dialect o = upstream) /\
  req_transport req ∈ transport_modes d.

(** An endpoint serves a target. *)
Definition serves (ingress : ProtocolDialect) (t : RouteTargetDraft) (e : ProviderEndpoint) : Prop :=
  endpoint_get (view_endpoints v) (draft_endpoint t) = Some e /\ ep_enabled e = true /\
  ep_dialect e = ingress /\
  (ep_upstream e = Some (draft_upstream_dialect t) \/
   ep_upstream e = None /\ draft_upstream_dialect t = ingress) /\
  reaches_dialect ingress (draft_upstream_dialect t) /\
  exists d, providers !! ep_provider e = Some d /\
    carries_dialect (driver_descriptor d) (draft_upstream_dialect t) /\
    (ingress = draft_upstream_dialect t ->
     req_operation req ∈ api_key_operations (driver_descriptor d)).

(** A credential is enabled, as its endpoint and its proxy were when it was
    compiled, and has not expired. *)
Definition live (c : RoutingCredential) : Prop :=
  pj_enabled (rc_projection c) = true /\ pj_endpoint_enabled (rc_projection c) = true /\
  pj_proxy_enabled (rc_projection c) = true /\
  forall e, pj_expires_at (rc_projection c) = Some e -> clock (rc_id c) < e.

(** The credential is admitted and its proxy enabled; they go into its place. *)
Definition admitted (c : RoutingCredential) (s : slot) : Prop :=
  live c /\ slot_credential s = c /\ rc_admission c = Some (slot_admission s) /\
  exists p, proxy_get (view_proxies v) (pj_proxy (rc_projection c)) = Some p /\ px_enabled p = true /\
    slot_proxy s = px_id p.

(** An API key credential for a target *)
Definition key_offers (ingress : ProtocolDialect) (t : RouteTargetDraft) (c : RoutingCredential)
    (s : slot) : Prop :=
  draft_enabled t = true /\
  (exists e, serves ingress t e /\ pj_endpoint (rc_projection c) = ep_id e /\ slot_endpoint s = ep_id e) /\
  (exists id, rc_id c = inl id) /\
  draft_upstream_model t ∈ pj_models (rc_projection c) /\ admitted c s /\
  slot_tier s = draft_tier t /\ slot_target s = draft_id t /\
  slot_model s = draft_upstream_model t /\ slot_dialect s = draft_upstream_dialect t.

(** An OAuth credential for the public model of a route *)
Definition oauth_offers (route_id : Z) (ingress : ProtocolDialect) (model : string)
    (c : RoutingCredential) (s : slot) : Prop :=
  let p := rc_projection c in
  model_name_new model = Ok model /\
  (exists id, rc_id c = inr id) /\ pj_ingress p = ingress /\ model ∈ pj_models p /\
  reaches_dialect ingress (pj_upstream p) /\
  (exists d q, providers !! pj_provider p = Some d /\ carries_dialect (driver_descriptor d) (pj_upstream p) /\
     oauth (driver_descriptor d) = Some q /\ req_operation req ∈ oauth_operations q) /\
  admitted c s /\ slot_tier s = 0 /\
  slot_target s = oauth_target_id route_id (pj_endpoint p) (pj_upstream p) /\
  slot_endpoint s = pj_endpoint p /\ slot_model s = model /\ slot_dialect s = pj_upstream p.

(** A list made of parts, one for each element of another, in order *)
Definition in_order {X Y} (R : X -> list Y -> Prop) (xs : list X) (l : list Y) : Prop :=
  exists parts, l = concat parts /\ Forall2 R xs parts.

(** Each element has the place it is offered, if it is offered one. *)
Definition offered {X} (offers : X -> slot -> Prop) : list X -> list slot -> Prop :=
  in_order (fun x part => (length part <= 1)%nat /\ forall s, s ∈ part <-> offers x s).

(** The places on a route: for each target in order, those of the API key
    credentials, then those of the OAuth credentials *)
Definition route_offers (r : ModelRoute) (l : list slot) : Prop :=
  exists keys oauths, l = keys ++ oauths /\
    in_order (fun t => offered (key_offers (route_ingress r) (target t)) (view_credentials v))
      (route_targets r) keys /\
    offered (oauth_offers (route_id r) (route_ingress r) (route_public_model r)) (view_credentials v) oauths.

(** The models of the credentials are sorted, as validated models are. *)
Definition view_sorted : Prop :=
  forall c, c ∈ view_credentials v -> StronglySorted name_le (pj_models (rc_projection c)).

Lemma in_order_bind {X Y} (R : X -> list Y -> Prop) (g : X -> list Y) xs :
  (forall x, x ∈ xs -> R x (g x)) -> in_order R xs (xs ≫= g).
Proof.
  induction xs as [|x xs IH]; intros Hg; [by exists []|].
  destruct IH as (parts & E & Hf); [intros; apply Hg; by right|]. exists (g x :: parts). simpl.
  split; [by rewrite <- E|]. constructor; [apply Hg; by left|done].
Qed.

Lemma reaches_dialect_spec ingress upstream :
  (requires_same_dialect (req_profile req) && negb (bool_decide (upstream = ingress)) = false /\
   supports_operation protocols ingress upstream (req_operation req) = true) <->
  reaches_dialect ingress upstream.
Proof.
  unfold reaches_dialect, supports_operation, supports_pair.
  destruct (req_profile req); simpl; repeat case_bool_decide; subst; simpl;
    destruct (bridges protocols !! _) as [ops|] eqn:Eb; repeat case_bool_decide; naive_solver.
Qed.

Lemma carries_dialect_spec d upstream :
  supports_protocol d upstream && supports_transport_mode d (req_transport req) = true <->
  carries_dialect d upstream.
Proof.
  unfold carries_dialect, supports_protocol, supports_transport_mode.
  rewrite andb_true_iff, bool_decide_eq_true, existsb_exists. apply and_iff_compat_r.
  split; intros (o & Ho & Ed); exists o; rewrite ?bool_decide_eq_true, <- ?list_elem_of_In, ?elem_of_app in *.
  all: split; [|done]; destruct Ho as [Ho|Ho]; [by left|right].
  - destruct (oauth d) as [q|]; [by exists q|by apply elem_of_nil in Ho].
  - by destruct Ho as (q & -> & Ho).
Qed.

Lemma serves_spec ingress t e : serving_endpoint protocols providers v ingress req t = Some e <->
  serves ingress t e.
Proof.
  unfold serving_endpoint, serves. destruct (endpoint_get _ _) as [e'|]; [|naive_solver].
  transitivity (e' = e /\ ep_enabled e' = true /\ ep_dialect e' = ingress /\
    effective_upstream e' = draft_upstream_dialect t /\ reaches_dialect ingress (draft_upstream_dialect t) /\
    exists d, providers !! ep_provider e' = Some d /\
      supports_protocol (driver_descriptor d) (draft_upstream_dialect t) &&
      supports_transport_mode (driver_descriptor d) (req_transport req) = true /\
      (ingress = draft_upstream_dialect t ->
       supports_api_key_operation (driver_descriptor d) (req_operation req) = true)).
  - rewrite <- reaches_dialect_spec. destruct (ep_enabled e'); simpl; [|naive_solver].
    case_bool_decide; simpl; [|naive_solver]. case_bool_decide; simpl; [|naive_solver].
    destruct (requires_same_dialect _ && _); simpl; [naive_solver|].
    destruct (supports_operation _ _ _ _); simpl; [|naive_solver].
    destruct (providers !! _) as [d|]; [|naive_solver].
    transitivity (e' = e /\ supports_protocol (driver_descriptor d) (draft_upstream_dialect t) &&
        supports_transport_mode (driver_descriptor d) (req_transport req) = true /\
        (ingress = draft_upstream_dialect t ->
         supports_api_key_operation (driver_descriptor d) (req_operation req) = true)); [|naive_solver].
    destruct (supports_protocol _ _), (supports_transport_mode _ _), (supports_api_key_operation _ _);
      case_bool_decide; simpl; naive_solver.
  - setoid_rewrite carries_dialect_spec. unfold supports_api_key_operation.
    setoid_rewrite bool_decide_eq_true. unfold effective_upstream.
    destruct (ep_upstream e') as [u|] eqn:Eu; naive_solver.
Qed.

Lemma live_spec c : routable (clock (rc_id c)) c = true <-> live c.
Proof.
  unfold routable, live, authentication_expired. rewrite !andb_true_iff, negb_true_iff.
  destruct (pj_expires_at _) as [x|]; [rewrite Z.leb_gt|]; naive_solver.
Qed.

Lemma supports_model_spec c model : StronglySorted name_le (pj_models (rc_projection c)) ->
  supports_model c model = true <-> model ∈ pj_models (rc_projection c).
Proof.
  intros Hs. unfold supports_model. rewrite bool_decide_eq_true.
  by rewrite (search_by_name (fun m => m) model _ Hs), list_fmap_id.
Qed.

Lemma enabled_proxy_iff c p : enabled_proxy v c = Some p <->
  proxy_get (view_proxies v) (pj_proxy (rc_projection c)) = Some p /\ px_enabled p = true.
Proof.
  unfold enabled_proxy. destruct (proxy_get _ _) as [p'|]; [|naive_solver].
  destruct (px_enabled p') eqn:E; split; [by intros [= <-]|by intros [[= <-] _]|done|].
  intros [[= <-] ?]. congruence.
Qed.

Lemma is_oauth_false c : is_oauth c = false <-> exists id, rc_id c = inl id.
Proof. unfold is_oauth. destruct (rc_id c); simpl; naive_solver. Qed.
Lemma is_oauth_true c : is_oauth c = true <-> exists id, rc_id c = inr id.
Proof. unfold is_oauth. destruct (rc_id c); simpl; naive_solver. Qed.

Lemma key_fits_spec e t c : StronglySorted name_le (pj_models (rc_projection c)) ->
  key_credential_fits clock e t c = true <->
  (exists id, rc_id c = inl id) /\ pj_endpoint (rc_projection c) = ep_id e /\ live c /\
  draft_upstream_model t ∈ pj_models (rc_projection c).
Proof.
  intros Hs. unfold key_credential_fits. rewrite !andb_true_iff, negb_true_iff, is_oauth_false, Z.eqb_eq.
  rewrite live_spec, supports_model_spec by done. tauto.
Qed.

Lemma oauth_fits_spec ingress model c : StronglySorted name_le (pj_models (rc_projection c)) ->
  let p := rc_projection c in
  oauth_credential_fits clock protocols providers ingress req model c = true <->
  (exists id, rc_id c = inr id) /\ live c /\ pj_ingress p = ingress /\ model ∈ pj_models p /\
  reaches_dialect ingress (pj_upstream p) /\
  exists d q, providers !! pj_provider p = Some d /\ carries_dialect (driver_descriptor d) (pj_upstream p) /\
    oauth (driver_descriptor d) = Some q /\ req_operation req ∈ oauth_operations q.
Proof.
  intros Hs p. unfold oauth_credential_fits. fold p.
  rewrite !andb_true_iff, negb_true_iff, bool_decide_eq_true, is_oauth_true, live_spec.
  rewrite supports_model_spec, <- reaches_dialect_spec by done.
  setoid_rewrite <- carries_dialect_spec. unfold supports_oauth_operation.
  destruct (providers !! pj_provider p) as [d|]; [|naive_solver].
  rewrite !andb_true_iff. destruct (oauth (driver_descriptor d)) as [q|] eqn:Eq; cycle 1.
  { naive_solver. }
  rewrite bool_decide_eq_true. split.
  - intros. destruct_and!. split_and!; try done. exists d, q. rewrite andb_true_iff. done.
  - intros (? & ? & ? & ? & [? ?] & d' & q' & [= <-] & [? ?]%andb_true_iff & Eq' & ?). simplify_eq.
    split_and!; done.
Qed.

Context (Hsorted : view_sorted).

Lemma none_offered {X} (offers : X -> slot -> Prop) xs :
  (forall x s, ~ offers x s) -> offered offers xs [].
Proof.
  intros Hn. assert (E : [] = xs ≫= fun _ => [] : list slot) by (induction xs; by simpl).
  rewrite E. apply in_order_bind. intros x _. split; [simpl; lia|]. intros s. rewrite elem_of_nil.
  split; [done|apply Hn].
Qed.

(** The place of a credential that fits *)
Definition filled (fits : bool) (c : RoutingCredential) (make : Z -> nat -> slot) : list slot :=
  if fits then match rc_admission c, enabled_proxy v c with
               | Some admission, Some p => [make (px_id p) admission]
               | _, _ => []
               end
  else [].
Lemma filled_spec fits c make s : s ∈ filled fits c make <->
  fits = true /\ exists admission p, rc_admission c = Some admission /\
    proxy_get (view_proxies v) (pj_proxy (rc_projection c)) = Some p /\ px_enabled p = true /\
    s = make (px_id p) admission.
Proof.
  unfold filled. pose proof (enabled_proxy_iff c) as Hp. destruct fits; cycle 1.
  { rewrite elem_of_nil. naive_solver. }
  destruct (rc_admission c) as [a|]; cycle 1. { rewrite elem_of_nil. naive_solver. }
  destruct (enabled_proxy v c) as [p|]; [rewrite list_elem_of_singleton|rewrite elem_of_nil].
  - destruct (proj1 (Hp p) eq_refl) as [E1 E2]. rewrite E1. naive_solver.
  - split; [done|]. intros (_ & a' & p & _ & H1 & H2 & _).
    by assert (None = Some p) by (by apply Hp).
Qed.
Lemma filled_length fits c make : (length (filled fits c make) <= 1)%nat.
Proof. unfold filled. repeat case_match; simpl; lia. Qed.

Lemma key_slots_offered ingress t :
  offered (key_offers ingress t) (view_credentials v) (key_slots clock protocols providers v req ingress t).
Proof using Hsorted.
  unfold key_slots. destruct (draft_enabled t) eqn:Ht; cycle 1.
  { apply none_offered. intros c s [Ht' _]. congruence. }
  destruct (serving_endpoint _ _ _ _ _ _) as [e|] eqn:He; cycle 1.
  { apply none_offered. intros c s (_ & (e & Hse%serves_spec & _) & _). congruence. }
  apply (in_order_bind _ (fun c => filled (key_credential_fits clock e t c) c (fun proxy admission =>
    {| slot_tier := draft_tier t; slot_target := draft_id t; slot_endpoint := ep_id e;
       slot_model := draft_upstream_model t; slot_dialect := draft_upstream_dialect t;
       slot_proxy := proxy; slot_admission := admission; slot_credential := c |}))).
  intros c Hc. split; [apply filled_length|].
  intros s. rewrite filled_spec, key_fits_spec by (by apply Hsorted). unfold key_offers, admitted. rewrite Ht.
  split.
  - intros ((Hid & Hep & Hl & Hm) & a & p & Ha & Hp & Hpe & ->). simpl. split; [done|].
    split; [exists e; by rewrite <- serves_spec|]. split_and!; eauto.
  - intros (_ & (e' & Hse%serves_spec & Hep & Hse') & Hid & Hm & (Hl & Hc' & Ha & p & Hp & Hpe & Hsp) &
      H1 & H2 & H3 & H4).
    assert (e' = e) as -> by congruence. split; [done|]. exists (slot_admission s), p.
    split_and!; [done..|]. destruct s; simpl in *. by subst.
Qed.
Lemma oauth_slots_offered route_id ingress model :
  offered (oauth_offers route_id ingress model) (view_credentials v)
    (oauth_slots clock protocols providers v req route_id ingress model).
Proof using Hsorted.
  unfold oauth_slots. destruct (model_name_new model) as [name|] eqn:Hn; cycle 1.
  { apply none_offered. intros c s [Hn' _]. congruence. }
  assert (name = model) as -> by (revert Hn; unfold model_name_new; repeat case_match; naive_solver).
  apply (in_order_bind _ (fun c => filled (oauth_credential_fits clock protocols providers ingress req model c)
    c (fun proxy admission => {| slot_tier := 0;
       slot_target := oauth_target_id route_id (pj_endpoint (rc_projection c)) (pj_upstream (rc_projection c));
       slot_endpoint := pj_endpoint (rc_projection c); slot_model := model;
       slot_dialect := pj_upstream (rc_projection c); slot_proxy := proxy; slot_admission := admission;
       slot_credential := c |}))).
  intros c Hc. split; [apply filled_length|].
  intros s. rewrite filled_spec, oauth_fits_spec by (by apply Hsorted). unfold oauth_offers, admitted. rewrite Hn. split.
  - intros ((Hid & Hl & Hi & Hm & Hr & Hd) & a & p & Ha & Hp & Hpe & ->). simpl. split_and!; eauto.
  - intros (_ & Hid & Hi & Hm & Hr & Hd & (Hl & Hc' & Ha & p & Hp & Hpe & Hsp) & H1 & H2 & H3 & H4 & H5).
    split; [done|]. exists (slot_admission s), p.
    split_and!; [done..|]. destruct s; simpl in *. by subst.
Qed.

Lemma route_slots_offered r : route_offers r (route_slots clock protocols providers v req r).
Proof using Hsorted.
  eexists _, _. split; [reflexivity|]. split; [|apply oauth_slots_offered].
  apply in_order_bind. intros t _. apply key_slots_offered.
Qed.
End offers.


(** C38. The candidates of a route are exactly those its configuration offers,
    tier by tier and in order, the conditions being spelled out over the
    configuration itself ([route_offers]).  First, for each enabled target, the
    API key credentials of its endpoint: the endpoint is enabled and speaks the
    route's protocol and the target's upstream dialect, adapters and, between
    dialects, a bridge carry the operation, the provider's driver has the dialect,
    the transport and, without a bridge, the operation; the credential lists the
    target's model, is enabled, as its endpoint and its proxy were when it was
    compiled, not expired and admitted, and its proxy is enabled.  Then, in tier 0,
    the OAuth credentials that list the public model, under the same conditions on
    dialects, transport, expiry, admission and proxy and with a driver that has the
    operation for OAuth.  Nothing else is a candidate, and each credential of the
    configuration gives at most one candidate for a target; no tier is empty, and the
    health of every path the registry keeps is the registry's own.  The
    credentials list their models in order, as every validated credential
    does. *)
Theorem route_candidates_exact {uuid_lib : UuidLib} clock protocols providers v r req reg h tiers reg' h' :
  view_sorted v ->
  build_route_candidates clock protocols providers v r req reg h = Ret (tiers, reg', h') ->
  registry_grows reg reg' /\
  exists slots, route_offers clock protocols providers v req r slots /\
    forall k, Forall2 (placed v req reg') (filter (fun s => slot_tier s = k) slots)
                (default [] (tiers !! k)) /\ tiers !! k <> Some [].
Proof.
  intros Hsorted. rewrite build_places. intros Hf. apply places_spec in Hf as [Hg Hk]. split; [done|].
  eexists. split; [by apply route_slots_offered|].
  intros k. destruct (Hk k) as (bs & E & Hbs & Hne). rewrite lookup_empty in E, Hne. simpl in E.
  rewrite E. split; [done|]. intros H0. by specialize (Hne H0).
Qed.

(** * Candidates and what a publication prepares for them *)

(** The credentials of a view agree with the endpoints they name. *)
Definition view_fits (v : RoutingView) : Prop :=
  forall c e, c ∈ view_credentials v -> is_oauth c = false ->
    endpoint_get (view_endpoints v) (pj_endpoint (rc_projection c)) = Some e ->
    pj_ingress (rc_projection c) = ep_dialect e /\ pj_upstream (rc_projection c) = effective_upstream e.

(** Credentials bound to compiled specifications do. *)
Lemma compiled_view_fits {uuid_lib : UuidLib} {codec : DocumentCodec} first endpoints proxies providers
    credentials accounts secrets stored specs v :
  NoDup (pc_id <$> credentials) -> NoDup (oa_id <$> accounts) ->
  compile_stored first endpoints proxies providers credentials accounts secrets stored = Ok specs ->
  view_endpoints v = endpoints ->
  rc_projection <$> view_credentials v = rs_projection <$> specs -> view_fits v.
Proof.
  intros Hc Ha Hs <- Hp c e Hin Ho He.
  apply (compile_exact first) in Hs as (_ & _ & own & more & -> & Hown & Hmore); [|done..].
  assert (rc_projection c ∈ rs_projection <$> (own ++ more)) as Hin'
    by (rewrite <- Hp; by apply list_elem_of_fmap_2).
  rewrite fmap_app, elem_of_app in Hin'. destruct Hin' as [Hin'|Hin'];
    apply list_elem_of_fmap in Hin' as (spec & E & Hspec); apply list_elem_of_lookup in Hspec as [i Hi].
  - destruct (Forall2_lookup_r _ _ _ _ _ Hown Hi) as (pc & _ & e0 & p & s & text & He0 & _ & _ & _ & _ & _ & ->).
    rewrite E in He |- *. simpl in He |- *. apply endpoint_get_id in He0 as [_ He0].
    rewrite He0 in He. by injection He as <-.
  - destruct (Forall2_lookup_r _ _ _ _ _ Hmore Hi) as (a & _ & d & ro & s & tk & pr & p & _ & _ & _ & _ & _ & _ & _ & ->).
    unfold is_oauth, rc_id in Ho. by rewrite E in Ho.
Qed.

(** And their models are sorted, as those of the stored entities are. *)
Lemma compiled_view_sorted {uuid_lib : UuidLib} {codec : DocumentCodec} first endpoints proxies providers
    credentials accounts secrets stored specs v :
  NoDup (pc_id <$> credentials) -> NoDup (oa_id <$> accounts) ->
  Forall credential_good credentials -> Forall account_good accounts ->
  compile_stored first endpoints proxies providers credentials accounts secrets stored = Ok specs ->
  rc_projection <$> view_credentials v = rs_projection <$> specs -> view_sorted v.
Proof.
  intros Hc Ha Hcg Hag Hs Hp c Hin.
  apply (compile_exact first) in Hs as (_ & _ & own & more & -> & Hown & Hmore); [|done..].
  assert (rc_projection c ∈ rs_projection <$> (own ++ more)) as Hin'
    by (rewrite <- Hp; by apply list_elem_of_fmap_2).
  rewrite fmap_app, elem_of_app in Hin'. destruct Hin' as [Hin'|Hin'];
    apply list_elem_of_fmap in Hin' as (spec & E & Hspec); apply list_elem_of_lookup in Hspec as [i Hi].
  - destruct (Forall2_lookup_r _ _ _ _ _ Hown Hi)
      as (pc & Hpc & e0 & p & s & text & _ & _ & _ & _ & _ & _ & ->).
    rewrite E. simpl. rewrite Forall_lookup in Hcg. destruct (Hcg _ _ Hpc) as (_ & _ & Hm & _).
    apply sorted_upstream in Hm. clear -Hm.
    induction Hm as [|m l _ IH Hf]; simpl; constructor; [done|by apply Forall_fmap].
  - destruct (Forall2_lookup_r _ _ _ _ _ Hmore Hi)
      as (a & Hacc & d & ro & s & tk & pr & p & _ & _ & _ & _ & _ & _ & _ & ->).
    rewrite E. simpl. rewrite Forall_lookup in Hag. by destruct (Hag _ _ Hacc) as (_ & _ & _ & _ & _ & _ & Hm & _).
Qed.

Lemma supports_model_listed c model : supports_model c model = true -> model ∈ pj_models (rc_projection c).
Proof.
  unfold supports_model. intros [k Hk]%bool_decide_eq_true.
  apply binary_search_Some in Hk as (x & Hx & Hc). apply String.compare_eq_iff in Hc as ->.
  by eapply list_elem_of_lookup_2.
Qed.

Lemma model_name_kept name name' : model_name_new name = Ok name' -> name' = name.
Proof. unfold model_name_new. repeat case_match; naive_solver. Qed.

Lemma routable_earlier now now' c : now <= now' -> routable now' c = true -> routable now c = true.
Proof.
  unfold routable, authentication_expired. intros Hle. destruct (pj_expires_at _) as [e|]; [|done].
  rewrite !andb_true_iff, !negb_true_iff. intros [Ha H0]. split; [done|]. lia.
Qed.

Section preparing.
Context {uuid_lib : UuidLib}.
Context (clock0 clock : RoutingCredentialId -> Z) (Hclock : forall id, clock0 id <= clock id).
Context (protocols : ProtocolRegistry) (providers : ProviderRegistry).
Context (v : RoutingView) (Hfits : view_fits v) (req : CandidateRequirements).

(** What a candidate in a place is known by *)
Definition slot_known (s : slot) : Prop :=
  slot_endpoint s = pj_endpoint (rc_projection (slot_credential s)) /\
  slot_proxy s = pj_proxy (rc_projection (slot_credential s)) /\
  path_base_of (slot_target s) (slot_credential s) ∈
    active_candidate_path_bases clock0 (view_routes v) (view_credentials v) (view_proxies v).

Lemma enabled_proxy_spec c p : enabled_proxy v c = Some p ->
  px_id p = pj_proxy (rc_projection c) /\
  match proxy_get (view_proxies v) (pj_proxy (rc_projection c)) with
  | Some p => px_enabled p | None => false end = true.
Proof.
  unfold enabled_proxy. destruct (proxy_get _ _) as [p'|] eqn:E; [|done].
  destruct (px_enabled p') eqn:En; [|done]. intros [= <-]. split; [|done].
  unfold proxy_get, entity_get in E. destruct (list_find _ _) as [[i x]|] eqn:El; simplify_eq/=.
  by apply list_find_Some in El as (_ & ? & _).
Qed.

Lemma key_slot_known r s : r ∈ view_routes v -> route_enabled r = true ->
  s ∈ (t ← route_targets r; key_slots clock protocols providers v req (route_ingress r) (target t)) ->
  slot_known s.
Proof using Hclock Hfits.
  intros Hr Hen (t & Hs & Ht)%list_elem_of_bind. unfold key_slots in Hs.
  destruct (draft_enabled (target t)) eqn:Hte; [|by apply elem_of_nil in Hs].
  destruct (serving_endpoint _ _ _ _ _ _) as [e|] eqn:Hse; [|by apply elem_of_nil in Hs].
  apply list_elem_of_bind in Hs as (c & Hs & Hc).
  destruct (key_credential_fits _ _ _ _) eqn:Hk; [|by apply elem_of_nil in Hs].
  destruct (rc_admission c) as [a|]; [|by apply elem_of_nil in Hs].
  destruct (enabled_proxy v c) as [p|] eqn:Hp; [|by apply elem_of_nil in Hs].
  apply list_elem_of_singleton in Hs as ->. apply enabled_proxy_spec in Hp as [Hpid Hpe].
  unfold key_credential_fits in Hk. rewrite !andb_true_iff, negb_true_iff in Hk.
  destruct Hk as (((Ho & Hep) & Hrt) & Hm). apply Z.eqb_eq in Hep.
  unfold serving_endpoint in Hse. destruct (endpoint_get _ _) as [e'|] eqn:He; [|done].
  destruct (_ || _) eqn:Hg in Hse; [done|]. destruct (providers !! _); [|done].
  destruct (_ && _) in Hse; [done|]. destruct (_ || _) in Hse; [done|]. injection Hse as ->.
  rewrite !orb_false_iff, !negb_false_iff, !bool_decide_eq_true in Hg.
  destruct Hg as ((((_ & Hd) & Hu) & _) & _). apply endpoint_get_id in He as [Hid He].
  unfold slot_known. simpl. split; [done|]. split; [done|].
  destruct (Hfits c e Hc Ho) as [Hi Hup]; [by rewrite Hep|].
  unfold active_candidate_path_bases. apply elem_of_list_to_set, elem_of_app. left.
  unfold key_path_bases. apply list_elem_of_bind. exists r. split; [|by apply list_elem_of_filter].
  apply list_elem_of_bind. exists t. split; [|by apply list_elem_of_filter].
  apply list_elem_of_bind. exists c. split; [by apply list_elem_of_singleton|].
  apply list_elem_of_filter. split; [|done].
  unfold credential_is_active. rewrite Ho, Hpe, (routable_earlier _ _ _ (Hclock _) Hrt), Hm. simpl.
  rewrite !bool_decide_true by congruence. rewrite !andb_true_r. apply Z.eqb_eq. congruence.
Qed.

Lemma oauth_slot_known ingress public_model s :
  s ∈ oauth_slots clock protocols providers v req
        (resolved_oauth_route_id (view_routes v) ingress public_model) ingress public_model ->
  slot_known s /\ slot_tier s = 0 /\
  (resolved_oauth_route_id (view_routes v) ingress public_model, 0) ∈
    route_tiers (view_routes v) (view_credentials v).
Proof using Hclock.
  unfold oauth_slots. destruct (model_name_new public_model) as [model|] eqn:Hn; [|by intros ?%elem_of_nil].
  pose proof (model_name_kept _ _ Hn) as ->.
  intros (c & Hs & Hc)%list_elem_of_bind.
  destruct (oauth_credential_fits _ _ _ _ _ _ _) eqn:Hk; [|by apply elem_of_nil in Hs].
  destruct (rc_admission c) as [a|]; [|by apply elem_of_nil in Hs].
  destruct (enabled_proxy v c) as [p|] eqn:Hp; [|by apply elem_of_nil in Hs].
  apply list_elem_of_singleton in Hs as ->. apply enabled_proxy_spec in Hp as [Hpid Hpe].
  unfold oauth_credential_fits in Hk. rewrite !andb_true_iff, bool_decide_eq_true in Hk.
  destruct Hk as ((((((Ho & Hrt) & Hi) & Hm) & _) & _) & _). apply supports_model_listed in Hm.
  unfold slot_known. simpl. split_and!; try done.
  - unfold active_candidate_path_bases. apply elem_of_list_to_set, elem_of_app. right.
    unfold oauth_path_bases. apply list_elem_of_bind. exists c. split.
    + apply list_elem_of_bind. exists public_model. split; [|done]. rewrite Hn, Hi.
      by apply list_elem_of_singleton.
    + apply list_elem_of_filter. split; [|done]. unfold credential_is_active.
      by rewrite Ho, (routable_earlier _ _ _ (Hclock _) Hrt), Hpe.
  - unfold route_tiers. apply list_elem_of_bind. exists c. split.
    + apply list_elem_of_bind. exists public_model. split; [|done]. rewrite Hn, Hi.
      by apply list_elem_of_singleton.
    + by apply list_elem_of_filter.
Qed.
End preparing.
