(* ===== verification/SettingKeys.v ===== *)
(** * Settings: keys, values and definitions

    The settings an operator may override: their keys ([domain/src/settings/key.rs]),
    the values they take ([value.rs]) and the definition of each
    ([definition.rs], [definitions/]), with its type, default, bounds and the
    texts of the console.  A group's table of definitions panics on a key of
    another group, as the code's [unreachable!] does. *)
From S2P Require Import Prelude Search Text Entities Cost.
Local Open Scope Z_scope.

(** * Keys *)

Inductive SettingKey :=
| AdminRemoteEnabled | AdminSessionIdleTimeout | AdminSessionAbsoluteTimeout
| AdminLoginFailureWindow | AdminLoginMaxFailures | NetworkMaxConnections
| NetworkRequestHeaderTimeout | NetworkRequestBodyIdleTimeout | NetworkTrustedProxyCidrs
| ModelsAllowed | ModelsFastEnabled | AffinityEnabled | AffinityTtl | AffinityWaitTimeout
| LogsRequestEnabled | LogsRequestRetention | LogsRequestMaxRows | LogsHttpAccessMaxRows
| LogsFileLevel | LogsFileRetention | LogsFileMaxTotalSize | LogsTelemetryQueueCapacity
| LogsTelemetryQueueMaxBytes | OAuthRefreshScanInterval | OAuthRefreshLeadTime | OAuthCodexRateCard
| UpstreamReadTimeout | UpstreamStrictSsrf | StreamPrecommitMaxBytes | StreamPrecommitMaxDuration
| StreamPostcommitIdleTimeout | ShutdownRequestGracePeriod | ShutdownFinalizeTimeout
| SchedulerOnRateLimited | SchedulerQueueTimeout | SchedulerMaxWaitingRequests
| SchedulerFallbackOnRateLimit | RetryPrecommitTotalBudget.

Definition ALL : list SettingKey := [
  AdminRemoteEnabled; AdminSessionIdleTimeout; AdminSessionAbsoluteTimeout;
  AdminLoginFailureWindow; AdminLoginMaxFailures; NetworkMaxConnections;
  NetworkRequestHeaderTimeout; NetworkRequestBodyIdleTimeout; NetworkTrustedProxyCidrs;
  ModelsAllowed; ModelsFastEnabled; AffinityEnabled; AffinityTtl; AffinityWaitTimeout;
  LogsRequestEnabled; LogsRequestRetention; LogsRequestMaxRows; LogsHttpAccessMaxRows;
  LogsFileLevel; LogsFileRetention; LogsFileMaxTotalSize; LogsTelemetryQueueCapacity;
  LogsTelemetryQueueMaxBytes; OAuthRefreshScanInterval; OAuthRefreshLeadTime; OAuthCodexRateCard;
  UpstreamReadTimeout; UpstreamStrictSsrf; StreamPrecommitMaxBytes; StreamPrecommitMaxDuration;
  StreamPostcommitIdleTimeout; ShutdownRequestGracePeriod; ShutdownFinalizeTimeout;
  SchedulerOnRateLimited; SchedulerQueueTimeout; SchedulerMaxWaitingRequests;
  SchedulerFallbackOnRateLimit; RetryPrecommitTotalBudget
].

(** [SettingKey::as_str], [parse] *)
Definition key_as_str (key : SettingKey) : string :=
  match key with
  | AdminRemoteEnabled => "admin.remote_enabled"
  | AdminSessionIdleTimeout => "admin.session.idle_timeout"
  | AdminSessionAbsoluteTimeout => "admin.session.absolute_timeout"
  | AdminLoginFailureWindow => "admin.login.failure_window"
  | AdminLoginMaxFailures => "admin.login.max_failures"
  | NetworkMaxConnections => "network.max_connections"
  | NetworkRequestHeaderTimeout => "network.request_header_timeout"
  | NetworkRequestBodyIdleTimeout => "network.request_body_idle_timeout"
  | NetworkTrustedProxyCidrs => "network.trusted_proxy_cidrs"
  | ModelsAllowed => "models.allowed"
  | ModelsFastEnabled => "models.fast_enabled"
  | AffinityEnabled => "affinity.enabled"
  | AffinityTtl => "affinity.ttl"
  | AffinityWaitTimeout => "affinity.wait_timeout"
  | LogsRequestEnabled => "logs.request.enabled"
  | LogsRequestRetention => "logs.request.retention"
  | LogsRequestMaxRows => "logs.request.max_rows"
  | LogsHttpAccessMaxRows => "logs.http_access.max_rows"
  | LogsFileLevel => "logs.file.level"
  | LogsFileRetention => "logs.file.retention"
  | LogsFileMaxTotalSize => "logs.file.max_total_size"
  | LogsTelemetryQueueCapacity => "logs.telemetry_queue_capacity"
  | LogsTelemetryQueueMaxBytes => "logs.telemetry_queue_max_bytes"
  | OAuthRefreshScanInterval => "oauth.refresh.scan_interval"
  | OAuthRefreshLeadTime => "oauth.refresh.lead_time"
  | OAuthCodexRateCard => "oauth.codex.rate_card"
  | UpstreamReadTimeout => "upstream.read_timeout"
  | UpstreamStrictSsrf => "upstream.strict_ssrf"
  | StreamPrecommitMaxBytes => "stream.precommit.max_bytes"
  | StreamPrecommitMaxDuration => "stream.precommit.max_duration"
  | StreamPostcommitIdleTimeout => "stream.postcommit.idle_timeout"
  | ShutdownRequestGracePeriod => "shutdown.request_grace_period"
  | ShutdownFinalizeTimeout => "shutdown.finalize_timeout"
  | SchedulerOnRateLimited => "scheduler.on_rate_limited"
  | SchedulerQueueTimeout => "scheduler.queue_timeout"
  | SchedulerMaxWaitingRequests => "scheduler.max_waiting_requests"
  | SchedulerFallbackOnRateLimit => "scheduler.fallback_on_rate_limit"
  | RetryPrecommitTotalBudget => "retry.precommit_total_budget"
  end.
Fixpoint find_key (value : string) (l : list SettingKey) : option SettingKey :=
  match l with
  | [] => None
  | key :: l => if String.eqb (key_as_str key) value then Some key else find_key value l
  end.
Definition key_parse (value : string) : option SettingKey := find_key value ALL.

(** Keys are told apart by their names. *)
Lemma key_parse_as_str k : key_parse (key_as_str k) = Some k.
Proof. by destruct k. Qed.
Lemma key_as_str_parse s k : key_parse s = Some k -> key_as_str k = s.
Proof.
  unfold key_parse. induction ALL as [|x l IH]; simpl; [done|].
  destruct (String.eqb_spec (key_as_str x) s); [by intros [= <-]|done].
Qed.
#[export] Instance key_as_str_inj : Inj eq eq key_as_str.
Proof. intros a b E. pose proof (key_parse_as_str a) as H. rewrite E, key_parse_as_str in H. congruence. Qed.
#[export] Instance key_eq_dec : EqDecision SettingKey.
Proof.
  intros a b. destruct (decide (key_as_str a = key_as_str b)) as [E|E].
  - left. by apply (inj key_as_str).
  - right. congruence.
Defined.
#[export] Instance key_countable : Countable SettingKey := inj_countable key_as_str key_parse key_parse_as_str.

(** * Values *)

Inductive RateLimitMode := Wait | Reject.
#[export] Instance rate_limit_mode_eq_dec : EqDecision RateLimitMode.
Proof. solve_decision. Defined.
Definition mode_as_str (m : RateLimitMode) : string := match m with Wait => "wait" | Reject => "reject" end.
Definition mode_parse (value : string) : option RateLimitMode :=
  if String.eqb value "wait" then Some Wait else if String.eqb value "reject" then Some Reject else None.

Inductive FileLogLevel := LevelError | LevelWarn | LevelInfo | LevelDebug | LevelTrace.
#[export] Instance file_log_level_eq_dec : EqDecision FileLogLevel.
Proof. solve_decision. Defined.
Definition level_as_str (l : FileLogLevel) : string :=
  match l with
  | LevelError => "error" | LevelWarn => "warn" | LevelInfo => "info"
  | LevelDebug => "debug" | LevelTrace => "trace"
  end.
Definition level_parse (value : string) : option FileLogLevel :=
  if String.eqb value "error" then Some LevelError
  else if String.eqb value "warn" then Some LevelWarn
  else if String.eqb value "info" then Some LevelInfo
  else if String.eqb value "debug" then Some LevelDebug
  else if String.eqb value "trace" then Some LevelTrace
  else None.

Inductive ModelAccess := AllModels | Allowlist (models : list string).
#[export] Instance model_access_eq_dec : EqDecision ModelAccess.
Proof. solve_decision. Defined.

Inductive SettingValue :=
| Boolean (value : bool)
| Integer (value : Z)
| DurationSecs (value : Z)
| RateLimitModeValue (value : RateLimitMode)
| FileLogLevelValue (value : FileLogLevel)
| ModelAccessValue (value : ModelAccess)
| StringList (value : list string)
| CodexRateCardValue (value : CodexQuotaRateCard).
#[export] Instance setting_value_eq_dec : EqDecision SettingValue.
Proof. solve_decision. Defined.

Inductive SettingValueType :=
  TyBoolean | TyInteger | TyDurationSecs | TyEnum | TyModelAccess | TyStringList | TyCodexRateCard.
#[export] Instance value_type_eq_dec : EqDecision SettingValueType.
Proof. solve_decision. Defined.
Definition value_type_as_str (t : SettingValueType) : string :=
  match t with
  | TyBoolean => "boolean" | TyInteger => "integer" | TyDurationSecs => "duration_secs" | TyEnum => "enum"
  | TyModelAccess => "model_access" | TyStringList => "string_list" | TyCodexRateCard => "codex_rate_card"
  end.

Inductive SettingApplyMode := HotReload | RestartRequired.
Definition apply_mode_as_str (m : SettingApplyMode) : string :=
  match m with HotReload => "hot_reload" | RestartRequired => "restart_required" end.

(** [SettingValue::value_type], [enum_value] *)
Definition value_type (v : SettingValue) : SettingValueType :=
  match v with
  | Boolean _ => TyBoolean
  | Integer _ => TyInteger
  | DurationSecs _ => TyDurationSecs
  | RateLimitModeValue _ | FileLogLevelValue _ => TyEnum
  | ModelAccessValue _ => TyModelAccess
  | StringList _ => TyStringList
  | CodexRateCardValue _ => TyCodexRateCard
  end.
Definition enum_value (v : SettingValue) : option string :=
  match v with
  | RateLimitModeValue m => Some (mode_as_str m)
  | FileLogLevelValue l => Some (level_as_str l)
  | _ => None
  end.

(** * Definitions *)

Record SettingDefinition := {
  def_key : SettingKey;
  def_value_type : SettingValueType;
  def_default : SettingValue;
  def_min : option SettingValue;
  def_max : option SettingValue;
  allowed_values : list string;
  apply_mode : SettingApplyMode;
  web_group : string;
  description : string
}.

Definition MAX_SETTING_DURATION_SECS : Z := 86400.
Definition MAX_SETTING_COUNT : Z := 100000.
Definition MAX_AFFINITY_TTL_SECS : Z := 2592000.
Definition MAX_REQUEST_LOG_RETENTION_SECS : Z := 365 * 24 * 60 * 60.
Definition MAX_REQUEST_LOG_ROWS : Z := 10000000.
Definition MAX_HTTP_ACCESS_LOG_ROWS : Z := 10000000.
Definition MAX_FILE_LOG_RETENTION_SECS : Z := 365 * 24 * 60 * 60.
Definition MAX_FILE_LOG_TOTAL_SIZE : Z := 64 * 1024 * 1024 * 1024.
Definition MAX_TELEMETRY_QUEUE_CAPACITY : Z := 100000.
Definition MIN_TELEMETRY_QUEUE_MAX_BYTES : Z := 4 * 1024 * 1024.
Definition DEFAULT_TELEMETRY_QUEUE_MAX_BYTES : Z := 64 * 1024 * 1024.
Definition MAX_TELEMETRY_QUEUE_MAX_BYTES : Z := 4 * 1024 * 1024 * 1024.
Definition MAX_STREAM_PRECOMMIT_BYTES : Z := 16 * 1024 * 1024.

(** [definition] *)
Definition setting_definition (key : SettingKey) (ty : SettingValueType) (default : SettingValue)
    (bounds : option SettingValue * option SettingValue) (allowed : list string)
    (presentation : string * string) : SettingDefinition :=
  {| def_key := key; def_value_type := ty; def_default := default; def_min := bounds.1; def_max := bounds.2;
     allowed_values := allowed; apply_mode := HotReload; web_group := presentation.1;
     description := presentation.2 |}.
Definition set_apply_mode (m : SettingApplyMode) (d : SettingDefinition) : SettingDefinition :=
  {| def_key := def_key d; def_value_type := def_value_type d; def_default := def_default d;
     def_min := def_min d; def_max := def_max d; allowed_values := allowed_values d; apply_mode := m;
     web_group := web_group d; description := description d |}.

(** [duration_definition], [restart_required_definition], [integer],
    [restart_required_duration] *)
Definition duration_definition (key : SettingKey) (default min max : Z) (group text : string)
    : SettingDefinition :=
  setting_definition key TyDurationSecs (DurationSecs default)
    (Some (DurationSecs min), Some (DurationSecs max)) [] (group, text).
Definition restart_required_definition (key : SettingKey) (ty : SettingValueType) (default : SettingValue)
    (bounds : option SettingValue * option SettingValue) (presentation : string * string)
    : SettingDefinition :=
  set_apply_mode RestartRequired (setting_definition key ty default bounds [] presentation).
Definition integer_definition (key : SettingKey) (default min max : Z) (group text : string)
    : SettingDefinition :=
  setting_definition key TyInteger (Integer default) (Some (Integer min), Some (Integer max)) [] (group, text).
Definition restart_required_duration (key : SettingKey) (default : Z) (text : string) : SettingDefinition :=
  set_apply_mode RestartRequired
    (duration_definition key default 1 MAX_SETTING_DURATION_SECS "入站网络" text).

Definition FILE_LOG_LEVELS : list string := ["error"; "warn"; "info"; "debug"; "trace"].
Definition ALLOWED_ACTIONS : list string := ["wait"; "reject"].

(** [definitions/admin.rs] *)
Definition admin_definition (key : SettingKey) : outcome SettingDefinition :=
  match key with
  | AdminRemoteEnabled =>
      Ret (setting_definition key TyBoolean (Boolean true) (None, None) []
             ("远程管理", "允许其他设备打开管理页面并登录。关闭后，只有运行 any2api 的这台设备可以访问管理功能。"))
  | AdminSessionIdleTimeout =>
      Ret (duration_definition key 43200 60 2592000 "远程管理"
             "管理员会话无请求后自动失效的时间。")
  | AdminSessionAbsoluteTimeout =>
      Ret (duration_definition key 604800 60 2592000 "远程管理"
             "管理员会话从登录开始计算的绝对有效期。")
  | AdminLoginFailureWindow =>
      Ret (duration_definition key 900 1 MAX_SETTING_DURATION_SECS "远程管理"
             "登录失败计数保留的时间窗口。")
  | AdminLoginMaxFailures =>
      Ret (setting_definition key TyInteger (Integer 5) (Some (Integer 1), Some (Integer 100)) []
             ("远程管理", "单个来源在失败窗口内允许的最大登录失败次数。"))
  | _ => Panic
  end.

(** [definitions/affinity.rs] *)
Definition affinity_definition (key : SettingKey) : outcome SettingDefinition :=
  match key with
  | AffinityEnabled =>
      Ret (setting_definition key TyBoolean (Boolean false) (None, None) []
             ("会话粘性", "是否让普通显式 Session 建立并命中固定路由；previous_response_id 续接不受此开关影响。"))
  | AffinityTtl =>
      Ret (duration_definition key 86400 1 MAX_AFFINITY_TTL_SECS "会话粘性"
             "会话绑定在当前进程内保持活跃的时间。")
  | AffinityWaitTimeout =>
      Ret (duration_definition key 180 1 MAX_SETTING_DURATION_SECS "会话粘性"
             "会话等待绑定创建或原 Credential 可用的最长时间。")
  | _ => Panic
  end.

(** [definitions/logging.rs] *)
Definition logging_definition (key : SettingKey) : outcome SettingDefinition :=
  match key with
  | LogsRequestEnabled =>
      Ret (setting_definition key TyBoolean (Boolean true) (None, None) []
             ("请求日志", "把模型请求、上游 Attempt 与有审计价值的 HTTP 系统日志写入本地 SQLite。"))
  | LogsRequestRetention =>
      Ret (duration_definition key 2592000 60 MAX_REQUEST_LOG_RETENTION_SECS "请求日志"
             "RequestLog、Attempt 与 HTTP 系统日志的最长本地保留时间。")
  | LogsRequestMaxRows =>
      Ret (integer_definition key 200000 1 MAX_REQUEST_LOG_ROWS "请求日志"
             "SQLite 中最多保留的 RequestLog 行数；对应 Attempt 随父记录清理。")
  | LogsHttpAccessMaxRows =>
      Ret (integer_definition key 200000 1 MAX_HTTP_ACCESS_LOG_ROWS "HTTP 系统日志"
             "SQLite 中最多保留的 HTTP 系统日志行数；与 RequestLog 行数上限相互独立。")
  | LogsFileLevel =>
      Ret (setting_definition key TyEnum (FileLogLevelValue LevelInfo) (None, None) FILE_LOG_LEVELS
             ("本地文件日志", "写入本地 JSONL 文件的最低日志级别。"))
  | LogsFileRetention =>
      Ret (duration_definition key 604800 60 MAX_FILE_LOG_RETENTION_SECS "本地文件日志"
             "本地 JSONL 日志文件的最长保留时间。")
  | LogsFileMaxTotalSize =>
      Ret (integer_definition key (256 * 1024 * 1024) (1024 * 1024) MAX_FILE_LOG_TOTAL_SIZE "本地文件日志"
             "本地 JSONL 日志目录允许占用的最大总字节数。")
  | LogsTelemetryQueueCapacity =>
      Ret (integer_definition key 4096 1 MAX_TELEMETRY_QUEUE_CAPACITY "请求日志"
             "等待 SQLite Writer 消费的有界请求遥测数量；满载时直接丢弃并计数。")
  | LogsTelemetryQueueMaxBytes =>
      Ret (integer_definition key DEFAULT_TELEMETRY_QUEUE_MAX_BYTES MIN_TELEMETRY_QUEUE_MAX_BYTES MAX_TELEMETRY_QUEUE_MAX_BYTES "请求日志"
             "channel 与 SQLite Writer 批次合计可持有的请求遥测字节；满载时直接丢弃并计数。")
  | _ => Panic
  end.

(** [definitions/models.rs] *)
Definition models_definition (key : SettingKey) : outcome SettingDefinition :=
  match key with
  | ModelsAllowed =>
      Ret (setting_definition key TyModelAccess (ModelAccessValue AllModels) (None, None) []
             ("公开模型", ""))
  | ModelsFastEnabled =>
      Ret (setting_definition key TyBoolean (Boolean true) (None, None) []
             ("公开模型", "允许客户端请求各协议支持的 Fast 服务档位。关闭后，显式 Fast 请求会使用标准档位。"))
  | _ => Panic
  end.

(** [definitions/network.rs] *)
Definition network_definition (key : SettingKey) : outcome SettingDefinition :=
  match key with
  | NetworkMaxConnections =>
      Ret (restart_required_definition key TyInteger (Integer 4096) (Some (Integer 1), Some (Integer MAX_SETTING_COUNT))
             ("入站网络", "同时存活的入站 TCP 连接数量上限；保存后需要重启进程生效。"))
  | NetworkRequestHeaderTimeout =>
      Ret (restart_required_duration key 30
             "HTTP 请求头读取超时；连接在请求头未完整到达前超过此时间会被关闭，保存后需要重启进程生效。")
  | NetworkRequestBodyIdleTimeout =>
      Ret (restart_required_duration key 60
             "请求体连续两个数据块之间允许的最长空闲时间，适用于公开接口和管理接口；保存后需要重启进程生效。")
  | NetworkTrustedProxyCidrs =>
      Ret (setting_definition key TyStringList (StringList []) (None, None) []
             ("远程管理", "使用 Nginx、Caddy 等反向代理时，填写代理服务器的 IP 或网段（每行一个，也可用逗号分隔）；没有反向代理请留空。"))
  | _ => Panic
  end.

(** [definitions/oauth.rs] *)
Definition oauth_definition (key : SettingKey) : outcome SettingDefinition :=
  match key with
  | OAuthRefreshScanInterval =>
      Ret (duration_definition key 30 1 MAX_SETTING_DURATION_SECS "OAuth 刷新"
             "扫描已启用 OAuth 账号是否进入提前刷新窗口的间隔。")
  | OAuthRefreshLeadTime =>
      Ret (duration_definition key 300 1 MAX_SETTING_DURATION_SECS "OAuth 刷新"
             "在访问 Token 到期前提前触发刷新的时间窗口。")
  | OAuthCodexRateCard =>
      Ret (setting_definition key TyCodexRateCard (CodexRateCardValue card_default) (None, None) []
             ("额度费率", "Codex 本地额度遥测使用的费率卡；模型费率单位为每百万 Token 的 nano-Credits。"))
  | _ => Panic
  end.

(** [definitions/reliability.rs] *)
Definition reliability_definition (key : SettingKey) : outcome SettingDefinition :=
  match key with
  | RetryPrecommitTotalBudget =>
      Ret (duration_definition key 600 1 MAX_SETTING_DURATION_SECS "重试预算"
             "从第一次 Attempt 开始到下游提交前可用于重试和退避的总时间。")
  | _ => Panic
  end.

(** [definitions/scheduler.rs] *)
Definition scheduler_definition (key : SettingKey) : outcome SettingDefinition :=
  match key with
  | SchedulerOnRateLimited =>
      Ret (setting_definition key TyEnum (RateLimitModeValue Wait) (None, None) ALLOWED_ACTIONS
             ("排队策略", "所有可用 Credential 都用尽本地 RPM 时，等待窗口到期或立即拒绝请求。"))
  | SchedulerQueueTimeout =>
      Ret (duration_definition key 180 1 MAX_SETTING_DURATION_SECS "排队策略"
             "请求等待 RPM 名额或健康恢复的最长时间。")
  | SchedulerMaxWaitingRequests =>
      Ret (integer_definition key 128 1 MAX_SETTING_COUNT "排队策略"
             "允许同时等待 RPM 名额或健康恢复的请求数量。")
  | SchedulerFallbackOnRateLimit =>
      Ret (setting_definition key TyBoolean (Boolean false) (None, None) []
             ("排队策略", "主 tier RPM 全部用尽时，是否允许继续选择 fallback tier。"))
  | _ => Panic
  end.

(** [definitions/shutdown.rs] *)
Definition shutdown_definition (key : SettingKey) : outcome SettingDefinition :=
  match key with
  | ShutdownRequestGracePeriod =>
      Ret (duration_definition key 30 1 300 "优雅停机"
             "停止接收新请求后，等待活动 HTTP 请求自然完成的最长时间。")
  | ShutdownFinalizeTimeout =>
      Ret (duration_definition key 5 1 60 "优雅停机"
             "强制取消、后台任务、遥测与 SQLite 最终收尾的单阶段最长时间。")
  | _ => Panic
  end.

(** [definitions/stream.rs] *)
Definition stream_definition (key : SettingKey) : outcome SettingDefinition :=
  match key with
  | StreamPrecommitMaxBytes =>
      Ret (integer_definition key (256 * 1024) 1 MAX_STREAM_PRECOMMIT_BYTES "流式预提交"
             "每个 SSE 帧允许的最大字节数，同时限制首个可接受事件提交前的编码后字节预算。")
  | StreamPrecommitMaxDuration =>
      Ret (duration_definition key 300 1 MAX_SETTING_DURATION_SECS "流式预提交"
             "等待首个可接受 SSE 事件的最长时间。")
  | StreamPostcommitIdleTimeout =>
      Ret (duration_definition key 300 1 MAX_SETTING_DURATION_SECS "流式响应"
             "首个事件提交后等待下一个上游 chunk 的最长空闲时间。")
  | _ => Panic
  end.

(** [definitions/upstream.rs] *)
Definition upstream_definition (key : SettingKey) : outcome SettingDefinition :=
  match key with
  | UpstreamReadTimeout =>
      Ret (duration_definition key 300 1 MAX_SETTING_DURATION_SECS "上游网络"
             "等待上游响应头或 buffered body 下一个 chunk 的最长空闲时间。")
  | UpstreamStrictSsrf =>
      Ret (setting_definition key TyBoolean (Boolean false) (None, None) []
             ("上游网络", "严格校验代理目标的本地 DNS 解析并固定连接地址。"))
  | _ => Panic
  end.

(** [definitions/registry.rs] *)
Definition registry_definition (key : SettingKey) : outcome SettingDefinition :=
  match key with
  | AdminRemoteEnabled | AdminSessionIdleTimeout | AdminSessionAbsoluteTimeout
  | AdminLoginFailureWindow | AdminLoginMaxFailures => admin_definition key
  | NetworkMaxConnections | NetworkRequestHeaderTimeout | NetworkRequestBodyIdleTimeout
  | NetworkTrustedProxyCidrs => network_definition key
  | ModelsAllowed | ModelsFastEnabled => models_definition key
  | AffinityEnabled | AffinityTtl | AffinityWaitTimeout => affinity_definition key
  | LogsRequestEnabled | LogsRequestRetention | LogsRequestMaxRows | LogsHttpAccessMaxRows
  | LogsFileLevel | LogsFileRetention | LogsFileMaxTotalSize | LogsTelemetryQueueCapacity
  | LogsTelemetryQueueMaxBytes => logging_definition key
  | OAuthRefreshScanInterval | OAuthRefreshLeadTime | OAuthCodexRateCard => oauth_definition key
  | UpstreamReadTimeout | UpstreamStrictSsrf => upstream_definition key
  | StreamPrecommitMaxBytes | StreamPrecommitMaxDuration | StreamPostcommitIdleTimeout => stream_definition key
  | ShutdownRequestGracePeriod | ShutdownFinalizeTimeout => shutdown_definition key
  | SchedulerOnRateLimited | SchedulerQueueTimeout | SchedulerMaxWaitingRequests
  | SchedulerFallbackOnRateLimit => scheduler_definition key
  | RetryPrecommitTotalBudget => reliability_definition key
  end.

(** Every key is sent to the group that defines it. *)
Lemma definition_total (key : SettingKey) : { d | registry_definition key = Ret d }.
Proof. destruct key; eexists; reflexivity. Defined.

(** [SettingKey::definition] *)
Definition definition (key : SettingKey) : SettingDefinition := proj1_sig (definition_total key).
