(* ===== verification/Settings.v ===== *)
(** * Settings: overrides and what they compile to

    The values of settings as JSON, their validation and normalization
    ([domain/src/settings/value.rs]), the overrides an operator made, and the
    settings of each part of the gateway compiled from them ([configuration.rs],
    [override_change.rs] and the [*_settings.rs] files).

    The JSON library ([serde_json], with the derived code that reads and writes a
    rate card) and the library of networks ([ipnet]) are parameters, with what is
    relied on of them as laws. *)
From S2P Require Import Prelude Search Text Entities Cost SettingKeys.
Local Open Scope Z_scope.

(** [?] on a [Result] *)
#[local] Notation "x ⇐ m ; f" := (match m with Ok x => f | Err e => Err e end)
  (at level 20, m at level 100, f at level 200, only parsing).

(** A card as the types of its fields bound it *)
Definition tier_width (r : CodexQuotaTierRate) : Prop :=
  0 <= input_nanos_per_million r <= u64_max /\ 0 <= cached_input_nanos_per_million r <= u64_max /\
  0 <= output_nanos_per_million r <= u64_max.
Definition card_width (c : CodexQuotaRateCard) : Prop :=
  0 <= card_credits_per_usd c <= u64_max /\
  map_Forall (fun _ r => tier_width (standard r) /\ forall f, fast r = Some f -> tier_width f) (card_models c).

(** [serde_json::Value] as far as settings ask it, [from_value] and [to_value] of
    a rate card *)
Class JsonLib := {
  Value : Type;
  as_bool : Value -> option bool;
  as_u64 : Value -> option Z;
  as_str : Value -> option string;
  as_array : Value -> option (list Value);
  json_bool : bool -> Value;
  json_u64 : Z -> Value;
  json_str : string -> Value;
  json_array : list Value -> Value;
  card_from_value : Value -> option CodexQuotaRateCard;
  card_to_value : CodexQuotaRateCard -> Value
}.
Class JsonLibLaws (L : JsonLib) := {
  as_bool_json b : as_bool (json_bool b) = Some b;
  as_u64_json n : 0 <= n <= u64_max -> as_u64 (json_u64 n) = Some n;
  as_u64_width v n : as_u64 v = Some n -> 0 <= n <= u64_max;
  as_str_json s : as_str (json_str s) = Some s;
  as_str_array l : as_str (json_array l) = None;
  as_array_json l : as_array (json_array l) = Some l;
  card_value c : card_width c -> card_from_value (card_to_value c) = Some c;
  card_value_width v c : card_from_value v = Some c -> card_width c
}.

(** [ipnet::IpNet] and [std::net::IpAddr]: parsing, printing, [trunc] (the
    network of an address with its prefix) and the derived order *)
Class IpNetLib := {
  IpNet : Type;
  IpAddr : Type;
  net_parse : string -> option IpNet;
  addr_parse : string -> option IpAddr;
  net_from : IpAddr -> IpNet;
  net_trunc : IpNet -> IpNet;
  net_to_string : IpNet -> string;
  net_le : relation IpNet;
  #[export] net_eq_dec :: EqDecision IpNet;
  #[export] net_le_dec :: RelDecision net_le
}.
Class IpNetLibLaws (L : IpNetLib) := {
  net_parse_to_string n : net_parse (net_to_string n) = Some n;
  net_to_string_trimmed n : trim (net_to_string n) = net_to_string n;
  net_trunc_idem n : net_trunc (net_trunc n) = net_trunc n;
  #[export] net_le_trans :: Transitive net_le;
  #[export] net_le_antisym :: AntiSymm eq net_le;
  #[export] net_le_total :: Total net_le
}.

(** [Vec::dedup] *)
Fixpoint dedup {A} `{EqDecision A} (l : list A) : list A :=
  match l with
  | x :: l' =>
    match l' with
    | y :: _ => if decide (x = y) then dedup l' else x :: dedup l'
    | [] => [x]
    end
  | [] => []
  end.

(** * Values *)

Section values.
Context {json : JsonLib} {nets : IpNetLib}.

Definition numeric (v : SettingValue) : option Z :=
  match v with Integer n | DurationSecs n => Some n | _ => None end.

Definition validate_value (key : SettingKey) (v : SettingValue) : result unit SettingsValidationError :=
  let d := definition key in
  if negb (bool_decide (value_type v = def_value_type d)) then Err InvalidType
  else if bool_decide (def_value_type d = TyEnum) &&
          negb match enum_value v with
               | Some s => bool_decide (s ∈ allowed_values d)
               | None => false
               end
  then Err InvalidEnum
  else match def_min d, def_max d with
       | Some min, Some max =>
         match numeric v with
         | None => Err InvalidType
         | Some n =>
           match numeric min with
           | None => Err InvalidType
           | Some min =>
             match numeric max with
             | None => Err InvalidType
             | Some max => if (min <=? n) && (n <=? max) then Ok () else Err OutOfRange
             end
           end
         end
       | _, _ => Ok ()
       end.

Definition normalize_models (values : list string) : result (list string) SettingsValidationError :=
  values ⇐ try_map (fun m => map_err (fun _ => InvalidListValue) (model_name_new m)) values;
  Ok (dedup (merge_sort name_le values)).

Definition parse_network (value : string) : result IpNet SettingsValidationError :=
  let value := trim value in
  match net_parse value with
  | Some n => Ok (net_trunc n)
  | None => match addr_parse value with
            | Some a => Ok (net_trunc (net_from a))
            | None => Err InvalidListValue
            end
  end.
Definition normalize_trusted_proxy_cidrs (values : list string)
    : result (list string) SettingsValidationError :=
  networks ⇐ try_map parse_network values;
  Ok (net_to_string <$> dedup (merge_sort net_le networks)).

Definition normalize_shape (key : SettingKey) (v : SettingValue)
    : result SettingValue SettingsValidationError :=
  match key, v with
  | ModelsAllowed, ModelAccessValue (Allowlist values) =>
    values ⇐ normalize_models values; Ok (ModelAccessValue (Allowlist values))
  | NetworkTrustedProxyCidrs, StringList values =>
    values ⇐ normalize_trusted_proxy_cidrs values; Ok (StringList values)
  | OAuthCodexRateCard, CodexRateCardValue card =>
    _ ⇐ card_validate card; Ok (CodexRateCardValue card)
  | _, v => Ok v
  end.
Definition normalize_value (key : SettingKey) (v : SettingValue)
    : result SettingValue SettingsValidationError :=
  v ⇐ normalize_shape key v;
  _ ⇐ validate_value key v;
  Ok v.

Definition parse_enum (key : SettingKey) (value : string) : option SettingValue :=
  match key with
  | SchedulerOnRateLimited => RateLimitModeValue <$> mode_parse value
  | LogsFileLevel => FileLogLevelValue <$> level_parse value
  | _ => None
  end.

Definition ok_or {A E} (e : E) (o : option A) : result A E := match o with Some a => Ok a | None => Err e end.

Definition parse_string_list (value : Value) : result (list string) SettingsValidationError :=
  l ⇐ ok_or InvalidType (as_array value);
  try_map (fun v => ok_or InvalidType (as_str v)) l.
Definition parse_model_access (value : Value) : result ModelAccess SettingsValidationError :=
  if bool_decide (as_str value = Some "all") then Ok AllModels
  else l ⇐ parse_string_list value; Ok (Allowlist l).

(** [CodexQuotaRateCard::from_json], [to_json] *)
Definition card_from_json (value : Value) : result CodexQuotaRateCard SettingsValidationError :=
  card ⇐ ok_or InvalidType (card_from_value value);
  _ ⇐ card_validate card;
  Ok card.
Definition card_to_json (card : CodexQuotaRateCard) : Value := card_to_value card.

(** [SettingValue::from_json], [to_json] *)
Definition from_json (key : SettingKey) (value : Value) : result SettingValue SettingsValidationError :=
  let d := definition key in
  parsed ⇐ match def_value_type d with
           | TyBoolean => ok_or InvalidType (Boolean <$> as_bool value)
           | TyInteger => ok_or InvalidType (Integer <$> as_u64 value)
           | TyDurationSecs => ok_or InvalidType (DurationSecs <$> as_u64 value)
           | TyEnum =>
             s ⇐ ok_or InvalidType (as_str value);
             if bool_decide (s ∈ allowed_values d) then ok_or InvalidEnum (parse_enum key s)
             else Err InvalidEnum
           | TyModelAccess => a ⇐ parse_model_access value; Ok (ModelAccessValue a)
           | TyStringList => l ⇐ parse_string_list value; Ok (StringList l)
           | TyCodexRateCard => c ⇐ card_from_json value; Ok (CodexRateCardValue c)
           end;
  normalize_value key parsed.
Definition to_json (v : SettingValue) : Value :=
  match v with
  | Boolean b => json_bool b
  | Integer n | DurationSecs n => json_u64 n
  | RateLimitModeValue m => json_str (mode_as_str m)
  | FileLogLevelValue l => json_str (level_as_str l)
  | ModelAccessValue AllModels => json_str "all"
  | ModelAccessValue (Allowlist l) => json_array (json_str <$> l)
  | StringList l => json_array (json_str <$> l)
  | CodexRateCardValue c => card_to_json c
  end.

(** [boolean], [integer], [file_log_level] *)
Definition boolean (v : SettingValue) : result bool SettingsValidationError :=
  match v with Boolean b => Ok b | _ => Err InvalidType end.
Definition integer (v : SettingValue) : result Z SettingsValidationError :=
  match v with Integer n | DurationSecs n => Ok n | _ => Err InvalidType end.
Definition file_log_level (v : SettingValue) : result FileLogLevel SettingsValidationError :=
  match v with FileLogLevelValue l => Ok l | _ => Err InvalidType end.

(** * Overrides *)

Abbreviation SettingOverrides := (gmap SettingKey SettingValue) (only parsing).

(** [insert], [remove], [from_entries], [effective_value] *)
Definition override_insert (key : SettingKey) (v : SettingValue) (o : SettingOverrides)
    : result (option SettingValue * SettingOverrides) SettingsValidationError :=
  v ⇐ normalize_value key v; Ok (o !! key, <[key := v]> o).
Definition override_remove (key : SettingKey) (o : SettingOverrides)
    : option SettingValue * SettingOverrides := (o !! key, delete key o).
Fixpoint insert_entries (entries : list (SettingKey * SettingValue)) (o : SettingOverrides)
    : result SettingOverrides SettingsValidationError :=
  match entries with
  | [] => Ok o
  | (key, v) :: entries => r ⇐ override_insert key v o; insert_entries entries r.2
  end.
Definition from_entries (entries : list (SettingKey * SettingValue))
    : result SettingOverrides SettingsValidationError := insert_entries entries ∅.
Definition effective_value (o : SettingOverrides) (key : SettingKey) : SettingValue :=
  default (def_default (definition key)) (o !! key).

Inductive SettingOverrideChange := SetOverride (key : SettingKey) (value : SettingValue) | ResetOverride (key : SettingKey).
Definition change_key (c : SettingOverrideChange) : SettingKey :=
  match c with SetOverride key _ | ResetOverride key => key end.
End values.

(** * The settings of each part *)

Record SchedulerSettings := {
  on_rate_limited : RateLimitMode;
  queue_timeout_secs : Z;
  max_waiting_requests : Z;
  fallback_on_rate_limit : bool
}.
Record AffinitySettings := { affinity_enabled : bool; ttl_secs : Z; wait_timeout_secs : Z }.
Record ReliabilitySettings := { precommit_total_budget_secs : Z }.
Record AdminSettings := {
  remote_enabled : bool;
  session_idle_timeout_secs : Z;
  session_absolute_timeout_secs : Z;
  login_failure_window_secs : Z;
  login_max_failures : Z
}.
Record LoggingSettings := {
  request_enabled : bool;
  request_retention_secs : Z;
  request_max_rows : Z;
  http_access_max_rows : Z;
  file_level : FileLogLevel;
  file_retention_secs : Z;
  file_max_total_size : Z;
  telemetry_queue_capacity : Z;
  telemetry_queue_max_bytes : Z
}.
(** [ModelSettings]: no list allows every model *)
Record ModelSettings := { allowed_models : option (gset string); fast_enabled : bool }.
(** [ModelSettings::allows] *)
Definition allows_model (s : ModelSettings) (m : string) : bool :=
  match allowed_models s with None => true | Some l => bool_decide (m ∈ l) end.
Record OAuthSettings := {
  refresh_scan_interval_secs : Z;
  refresh_lead_time_secs : Z;
  codex_rate_card : CodexQuotaRateCard
}.
Record UpstreamSettings := { read_timeout_secs : Z; strict_ssrf : bool }.
Record StreamSettings := {
  precommit_max_bytes : Z;
  precommit_max_duration_secs : Z;
  postcommit_idle_timeout_secs : Z
}.
Record ShutdownSettings := { request_grace_period_secs : Z; finalize_timeout_secs : Z }.

Section settings.
Context {json : JsonLib} {nets : IpNetLib}.
Abbreviation SettingOverrides := (gmap SettingKey SettingValue) (only parsing).

Record NetworkSettings := {
  max_connections : Z;
  request_header_timeout_secs : Z;
  request_body_idle_timeout_secs : Z;
  trusted_proxy_cidrs : list IpNet
}.

Definition scheduler_from_overrides (o : SettingOverrides) : result SchedulerSettings SettingsValidationError :=
  let value := effective_value o in
  mode ⇐ match value SchedulerOnRateLimited with
         | RateLimitModeValue m => Ok m
         | _ => Err InvalidType
         end;
  timeout ⇐ integer (value SchedulerQueueTimeout);
  waiting ⇐ integer (value SchedulerMaxWaitingRequests);
  fallback ⇐ match value SchedulerFallbackOnRateLimit with Boolean b => Ok b | _ => Err InvalidType end;
  Ok {| on_rate_limited := mode; queue_timeout_secs := timeout; max_waiting_requests := waiting;
        fallback_on_rate_limit := fallback |}.

Definition affinity_from_overrides (o : SettingOverrides) : result AffinitySettings SettingsValidationError :=
  let value := effective_value o in
  enabled ⇐ boolean (value AffinityEnabled);
  ttl ⇐ integer (value AffinityTtl);
  wait ⇐ integer (value AffinityWaitTimeout);
  Ok {| affinity_enabled := enabled; ttl_secs := ttl; wait_timeout_secs := wait |}.

Definition reliability_from_overrides (o : SettingOverrides)
    : result ReliabilitySettings SettingsValidationError :=
  budget ⇐ integer (effective_value o RetryPrecommitTotalBudget);
  Ok {| precommit_total_budget_secs := budget |}.

Definition admin_from_overrides (o : SettingOverrides) : result AdminSettings SettingsValidationError :=
  let value := effective_value o in
  remote ⇐ boolean (value AdminRemoteEnabled);
  idle ⇐ integer (value AdminSessionIdleTimeout);
  absolute ⇐ integer (value AdminSessionAbsoluteTimeout);
  window ⇐ integer (value AdminLoginFailureWindow);
  failures ⇐ integer (value AdminLoginMaxFailures);
  if absolute <? idle then Err InvalidCombination
  else Ok {| remote_enabled := remote; session_idle_timeout_secs := idle;
             session_absolute_timeout_secs := absolute; login_failure_window_secs := window;
             login_max_failures := failures |}.

Definition logging_from_overrides (o : SettingOverrides) : result LoggingSettings SettingsValidationError :=
  let value := effective_value o in
  enabled ⇐ boolean (value LogsRequestEnabled);
  retention ⇐ integer (value LogsRequestRetention);
  rows ⇐ integer (value LogsRequestMaxRows);
  access_rows ⇐ integer (value LogsHttpAccessMaxRows);
  level ⇐ file_log_level (value LogsFileLevel);
  file_retention ⇐ integer (value LogsFileRetention);
  size ⇐ integer (value LogsFileMaxTotalSize);
  capacity ⇐ integer (value LogsTelemetryQueueCapacity);
  bytes ⇐ integer (value LogsTelemetryQueueMaxBytes);
  Ok {| request_enabled := enabled; request_retention_secs := retention; request_max_rows := rows;
        http_access_max_rows := access_rows; file_level := level; file_retention_secs := file_retention;
        file_max_total_size := size; telemetry_queue_capacity := capacity;
        telemetry_queue_max_bytes := bytes |}.

Definition models_from_overrides (o : SettingOverrides) : result ModelSettings SettingsValidationError :=
  match effective_value o ModelsAllowed with
  | ModelAccessValue access =>
    allowed ⇐ match access with
              | AllModels => Ok None
              | Allowlist l =>
                names ⇐ map_err (fun _ => InvalidListValue) (try_map model_name_new l);
                Ok (Some (list_to_set names))
              end;
    match effective_value o ModelsFastEnabled with
    | Boolean b => Ok {| allowed_models := allowed; fast_enabled := b |}
    | _ => Err InvalidType
    end
  | _ => Err InvalidType
  end.

Definition non_zero_usize (n : Z) : option Z :=
  if usize_max <? n then None else if n =? 0 then None else Some n.
Definition network_from_overrides (o : SettingOverrides) : result NetworkSettings SettingsValidationError :=
  match effective_value o NetworkMaxConnections with
  | Integer n =>
    connections ⇐ ok_or OutOfRange (non_zero_usize n);
    match effective_value o NetworkRequestHeaderTimeout with
    | DurationSecs header =>
      match effective_value o NetworkRequestBodyIdleTimeout with
      | DurationSecs body =>
        match effective_value o NetworkTrustedProxyCidrs with
        | StringList values =>
          cidrs ⇐ try_map (fun v => ok_or InvalidListValue (net_parse v)) values;
          Ok {| max_connections := connections; request_header_timeout_secs := header;
                request_body_idle_timeout_secs := body; trusted_proxy_cidrs := cidrs |}
        | _ => Err InvalidType
        end
      | _ => Err InvalidType
      end
    | _ => Err InvalidType
    end
  | _ => Err InvalidType
  end.

Definition oauth_from_overrides (o : SettingOverrides) : result OAuthSettings SettingsValidationError :=
  scan ⇐ integer (effective_value o OAuthRefreshScanInterval);
  lead ⇐ integer (effective_value o OAuthRefreshLeadTime);
  card ⇐ match effective_value o OAuthCodexRateCard with
         | CodexRateCardValue c => Ok c
         | _ => Err InvalidType
         end;
  if lead <? scan then Err InvalidCombination
  else Ok {| refresh_scan_interval_secs := scan; refresh_lead_time_secs := lead; codex_rate_card := card |}.

Definition upstream_from_overrides (o : SettingOverrides) : result UpstreamSettings SettingsValidationError :=
  timeout ⇐ integer (effective_value o UpstreamReadTimeout);
  strict ⇐ boolean (effective_value o UpstreamStrictSsrf);
  Ok {| read_timeout_secs := timeout; strict_ssrf := strict |}.

Definition stream_from_overrides (o : SettingOverrides) : result StreamSettings SettingsValidationError :=
  let value key := integer (effective_value o key) in
  bytes ⇐ value StreamPrecommitMaxBytes;
  duration ⇐ value StreamPrecommitMaxDuration;
  idle ⇐ value StreamPostcommitIdleTimeout;
  Ok {| precommit_max_bytes := bytes; precommit_max_duration_secs := duration;
        postcommit_idle_timeout_secs := idle |}.

Definition shutdown_from_overrides (o : SettingOverrides) : result ShutdownSettings SettingsValidationError :=
  grace ⇐ integer (effective_value o ShutdownRequestGracePeriod);
  finalize ⇐ integer (effective_value o ShutdownFinalizeTimeout);
  Ok {| request_grace_period_secs := grace; finalize_timeout_secs := finalize |}.

Record SettingsConfiguration := {
  overrides : SettingOverrides;
  scheduler : SchedulerSettings;
  affinity : AffinitySettings;
  reliability : ReliabilitySettings;
  admin : AdminSettings;
  logging : LoggingSettings;
  models : ModelSettings;
  network : NetworkSettings;
  oauth : OAuthSettings;
  upstream : UpstreamSettings;
  stream : StreamSettings;
  shutdown : ShutdownSettings
}.

(** [SettingsConfiguration::from_overrides], [defaults], [effective_value] *)
Definition from_overrides (o : SettingOverrides) : result SettingsConfiguration SettingsValidationError :=
  scheduler ⇐ scheduler_from_overrides o;
  affinity ⇐ affinity_from_overrides o;
  reliability ⇐ reliability_from_overrides o;
  admin ⇐ admin_from_overrides o;
  logging ⇐ logging_from_overrides o;
  models ⇐ models_from_overrides o;
  network ⇐ network_from_overrides o;
  oauth ⇐ oauth_from_overrides o;
  upstream ⇐ upstream_from_overrides o;
  stream ⇐ stream_from_overrides o;
  shutdown ⇐ shutdown_from_overrides o;
  Ok {| overrides := o; scheduler := scheduler; affinity := affinity; reliability := reliability;
        admin := admin; logging := logging; models := models; network := network; oauth := oauth;
        upstream := upstream; stream := stream; shutdown := shutdown |}.
Definition defaults : outcome SettingsConfiguration :=
  match from_overrides ∅ with Ok s => Ret s | Err _ => Panic end.
Definition effective_setting (s : SettingsConfiguration) (key : SettingKey) : SettingValue :=
  effective_value (overrides s) key.
End settings.

(** * Normal forms *)

Lemma dedup_sublist {A} `{EqDecision A} (l : list A) : dedup l `sublist_of` l.
Proof.
  induction l as [|x [|y l] IH]; [done|done|]. change (dedup (x :: y :: l)) with
    (if decide (x = y) then dedup (y :: l) else x :: dedup (y :: l)).
  case_decide; [by apply sublist_cons|by apply sublist_skip].
Qed.
Lemma dedup_NoDup {A} `{EqDecision A} (R : relation A) `{!AntiSymm eq R} (l : list A) :
  StronglySorted R l -> NoDup (dedup l).
Proof.
  induction l as [|x [|y l] IH]; intros Hs; [apply NoDup_nil_2|apply NoDup_singleton|].
  change (dedup (x :: y :: l)) with (if decide (x = y) then dedup (y :: l) else x :: dedup (y :: l)).
  apply StronglySorted_inv in Hs as [Hs Hx]. specialize (IH Hs).
  case_decide as E; [done|]. apply NoDup_cons_2; [|done]. intros Hin.
  eapply (sublist_subseteq _ _ (dedup_sublist (y :: l))) in Hin.
  apply E. apply StronglySorted_inv in Hs as [_ Hy]. inversion Hx as [|? ? Hxy _]; subst.
  apply elem_of_cons in Hin as [->|Hin]; [done|]. rewrite Forall_forall in Hy.
  apply (anti_symm R); [done|]. by apply Hy.
Qed.
Lemma dedup_NoDup_id {A} `{EqDecision A} (l : list A) : NoDup l -> dedup l = l.
Proof.
  induction l as [|x [|y l] IH]; intros Hd; [done|done|]. apply NoDup_cons in Hd as [Hx Hd].
  change (dedup (x :: y :: l)) with (if decide (x = y) then dedup (y :: l) else x :: dedup (y :: l)).
  rewrite IH by done. case_decide as E; [|done]. subst. set_solver.
Qed.

(** What sorting and dropping repetitions gives, they leave alone. *)
Lemma sort_dedup_idem {A} `{EqDecision A} (R : relation A)
    `{!RelDecision R, !Transitive R, !AntiSymm eq R, !Total R} (l : list A) :
  dedup (merge_sort R (dedup (merge_sort R l))) = dedup (merge_sort R l).
Proof.
  pose proof (merge_sort_strong R l) as Hs.
  assert (StronglySorted R (dedup (merge_sort R l))) by (eapply StronglySorted_sublist; [apply dedup_sublist|done]).
  rewrite (merge_sort_sorted R) by done. apply dedup_NoDup_id. by eapply dedup_NoDup.
Qed.

Lemma try_map_Ok {A B E} (f : A -> result B E) l k : try_map f l = Ok k <-> Forall2 (fun x y => f x = Ok y) l k.
Proof.
  revert k. induction l as [|x l IH]; intros k; simpl.
  - split; [by intros [= <-]|]. by inversion 1.
  - split.
    + destruct (f x) as [y|] eqn:E1; [|done]. destruct (try_map f l) as [ys|]; [|done]. intros [= <-].
      constructor; [done|]. by apply IH.
    + inversion 1 as [|? y ? ys Hy Hl]; subst. rewrite Hy. apply IH in Hl. by rewrite Hl.
Qed.
Lemma try_map_id {A E} (f : A -> result A E) l : Forall (fun x => f x = Ok x) l -> try_map f l = Ok l.
Proof. intros H. apply try_map_Ok. by apply Forall_Forall2_diag. Qed.

Lemma names_Ok {E} (e : E) l k : try_map (fun m => map_err (fun _ => e) (model_name_new m)) l = Ok k <->
  k = l /\ Forall name_ok l.
Proof.
  rewrite try_map_Ok. split.
  - induction 1 as [|x y l k Hxy _ [-> IH]]; [done|].
    destruct (model_name_new x) as [x'|] eqn:E1; [|done]. simpl in Hxy. injection Hxy as ->.
    apply model_name_Ok in E1 as [-> ?]. split; [done|by constructor].
  - intros [-> H]. apply Forall_Forall2_diag. eapply Forall_impl; [exact H|]. simpl. by intros x ->.
Qed.

Lemma sorted_Forall {A} (P : A -> Prop) (R : relation A) `{!RelDecision R} l :
  Forall P l -> Forall P (merge_sort R l).
Proof. intros H. pose proof (merge_sort_Permutation R l) as Hp. by rewrite Hp. Qed.

Section normal.
Context {json : JsonLib} {jlaws : JsonLibLaws json} {nets : IpNetLib} {nlaws : IpNetLibLaws nets}.

Lemma normalize_models_idem l k : normalize_models l = Ok k ->
  normalize_models k = Ok k /\ Forall name_ok k.
Proof.
  unfold normalize_models. destruct (try_map _ l) as [l'|] eqn:E; [|done].
  apply names_Ok in E as [-> Hn]. intros [= <-].
  assert (Forall name_ok (dedup (merge_sort name_le l))).
  { eapply Forall_sublist; [apply dedup_sublist|]. by apply sorted_Forall. }
  rewrite (proj2 (names_Ok _ _ _) (conj eq_refl H)). rewrite (sort_dedup_idem name_le). by split.
Qed.

Lemma parse_network_trunc v n : parse_network v = Ok n -> net_trunc n = n.
Proof.
  unfold parse_network. destruct (net_parse _); [|destruct (addr_parse _)]; [| |done];
    intros [= <-]; apply net_trunc_idem.
Qed.
Lemma parse_network_print n : net_trunc n = n -> parse_network (net_to_string n) = Ok n.
Proof. intros H. unfold parse_network. by rewrite net_to_string_trimmed, net_parse_to_string, H. Qed.

Lemma normalize_cidrs_idem l k : normalize_trusted_proxy_cidrs l = Ok k ->
  normalize_trusted_proxy_cidrs k = Ok k /\ exists ns, k = net_to_string <$> ns.
Proof.
  unfold normalize_trusted_proxy_cidrs. destruct (try_map _ l) as [ns|] eqn:E; [|done].
  assert (Ht : Forall (fun n => net_trunc n = n) ns).
  { apply try_map_Ok in E. induction E; constructor; [by eapply parse_network_trunc|done]. }
  intros [= <-]. set (ds := dedup (merge_sort net_le ns)).
  assert (Forall (fun n => net_trunc n = n) ds).
  { eapply Forall_sublist; [apply dedup_sublist|]. by apply sorted_Forall. }
  replace (try_map parse_network (net_to_string <$> ds)) with
    (Ok ds : result (list IpNet) SettingsValidationError).
  - unfold ds. rewrite (sort_dedup_idem net_le). eauto.
  - symmetry. apply try_map_Ok. apply Forall2_fmap_l. apply Forall_Forall2_diag.
    eapply Forall_impl; [done|]. intros n. apply parse_network_print.
Qed.

(** A value that was normalized for its key *)
Definition value_ok (key : SettingKey) (v : SettingValue) : Prop := normalize_value key v = Ok v.

Lemma normalize_shape_idem key v w : normalize_shape key v = Ok w ->
  normalize_shape key w = Ok w /\ value_type w = value_type v.
Proof.
  destruct key; try (intros [= <-]; by split).
  - destruct v; try (intros [= <-]; by split). simpl.
    destruct (normalize_trusted_proxy_cidrs value) as [l|] eqn:E; [|done]. intros [= <-].
    apply normalize_cidrs_idem in E as [E _]. simpl. by rewrite E.
  - destruct v as [| | | | |[|l]| |]; try (intros [= <-]; by split). simpl.
    destruct (normalize_models l) as [k|] eqn:E; [|done]. intros [= <-].
    apply normalize_models_idem in E as [E _]. simpl. by rewrite E.
  - destruct v; try (intros [= <-]; by split). simpl.
    destruct (card_validate value) as [[]|] eqn:E; [|done]. intros [= <-]. simpl. by rewrite E.
Qed.
Lemma value_ok_iff key v : value_ok key v <-> normalize_shape key v = Ok v /\ validate_value key v = Ok ().
Proof.
  unfold value_ok, normalize_value. split.
  - destruct (normalize_shape key v) as [w|]; [|done]. destruct (validate_value key w) as [[]|] eqn:E; [|done].
    by intros [= ->].
  - by intros [-> ->].
Qed.
Lemma normalize_value_ok key v w : normalize_value key v = Ok w -> value_ok key w.
Proof.
  unfold normalize_value. destruct (normalize_shape key v) as [w'|] eqn:E; [|done].
  destruct (validate_value key w') as [[]|] eqn:Ev; [|done]. intros [= <-].
  apply value_ok_iff. split; [|done]. by eapply normalize_shape_idem.
Qed.

(** The default of every setting is a value of it. *)
Lemma default_ok key : value_ok key (def_default (definition key)).
Proof. apply value_ok_iff. by destruct key; split; vm_compute. Qed.

(** * Overrides an operator can make *)

Inductive overrides_reached : gmap SettingKey SettingValue -> Prop :=
| reached_none : overrides_reached ∅
| reached_insert o key v old o' : overrides_reached o -> override_insert key v o = Ok (old, o') ->
    overrides_reached o'
| reached_remove o key : overrides_reached o -> overrides_reached (override_remove key o).2.

Lemma reached_ok o : overrides_reached o -> map_Forall value_ok o.
Proof.
  induction 1 as [|o key v old o' _ IH Hi|o key _ IH].
  - apply map_Forall_empty.
  - unfold override_insert in Hi. destruct (normalize_value key v) as [w|] eqn:E; [|done].
    injection Hi as <- <-. apply map_Forall_insert_2; [|done]. by eapply normalize_value_ok.
  - by apply map_Forall_delete.
Qed.
Lemma effective_ok o key : map_Forall value_ok o -> value_ok key (effective_value o key).
Proof.
  intros Ho. unfold effective_value. destruct (o !! key) as [v|] eqn:E; simpl; [by apply Ho|apply default_ok].
Qed.

(** * What an effective value looks like *)

Lemma ok_validated key v : value_ok key v -> value_type v = def_value_type (definition key) /\
  (def_value_type (definition key) = TyEnum ->
     exists s, enum_value v = Some s /\ s ∈ allowed_values (definition key)) /\
  (forall a b lo hi, def_min (definition key) = Some a -> def_max (definition key) = Some b ->
     numeric a = Some lo -> numeric b = Some hi -> exists n, numeric v = Some n /\ lo <= n <= hi).
Proof.
  intros [_ Hv]%value_ok_iff. unfold validate_value in Hv. case_bool_decide as Ht; [|done]. simpl in Hv.
  split; [done|]. destruct (bool_decide _ && _) eqn:Ee; [done|]. split.
  - intros He. rewrite bool_decide_true in Ee by done. simpl in Ee.
    destruct (enum_value v) as [s|]; [|done]. exists s. split; [done|]. by case_bool_decide.
  - intros x y lo hi Hx Hy Hlo Hhi. rewrite Hx, Hy in Hv. destruct (numeric v) as [n|]; [|done].
    rewrite Hlo, Hhi in Hv. exists n. split; [done|]. destruct ((lo <=? n) && (n <=? hi)) eqn:E; [lia|done].
Qed.

Section effective.
Context (o : gmap SettingKey SettingValue) (Ho : map_Forall value_ok o).

Lemma duration_at key lo hi : def_value_type (definition key) = TyDurationSecs ->
  def_min (definition key) = Some (DurationSecs lo) -> def_max (definition key) = Some (DurationSecs hi) ->
  exists n, effective_value o key = DurationSecs n /\ lo <= n <= hi.
Proof using Ho.
  intros Ht Hlo Hhi. pose proof (effective_ok o key Ho) as (Hv & _ & Hb)%ok_validated. rewrite Ht in Hv.
  destruct (Hb _ _ lo hi Hlo Hhi eq_refl eq_refl) as (n & Hn & ?).
  destruct (effective_value o key); try done. injection Hn as ->. eauto.
Qed.
Lemma integer_at key lo hi : def_value_type (definition key) = TyInteger ->
  def_min (definition key) = Some (Integer lo) -> def_max (definition key) = Some (Integer hi) ->
  exists n, effective_value o key = Integer n /\ lo <= n <= hi.
Proof using Ho.
  intros Ht Hlo Hhi. pose proof (effective_ok o key Ho) as (Hv & _ & Hb)%ok_validated. rewrite Ht in Hv.
  destruct (Hb _ _ lo hi Hlo Hhi eq_refl eq_refl) as (n & Hn & ?).
  destruct (effective_value o key); try done. injection Hn as ->. eauto.
Qed.
Lemma boolean_at key : def_value_type (definition key) = TyBoolean ->
  exists b, effective_value o key = Boolean b.
Proof using Ho.
  intros Ht. pose proof (effective_ok o key Ho) as (Hv & _)%ok_validated. rewrite Ht in Hv.
  destruct (effective_value o key); try done. eauto.
Qed.
Lemma mode_at : exists m, effective_value o SchedulerOnRateLimited = RateLimitModeValue m.
Proof using Ho.
  pose proof (effective_ok o SchedulerOnRateLimited Ho) as (Hv & He & _)%ok_validated.
  destruct (He eq_refl) as (s & Hs & Hin). destruct (effective_value o _) as [| | | |l| | |]; try done; [eauto|].
  injection Hs as <-. exfalso. revert Hin. rewrite <- (bool_decide_eq_true (_ ∈ _)). by destruct l.
Qed.
Lemma level_at : exists l, effective_value o LogsFileLevel = FileLogLevelValue l.
Proof using Ho.
  pose proof (effective_ok o LogsFileLevel Ho) as (Hv & He & _)%ok_validated.
  destruct (He eq_refl) as (s & Hs & Hin). destruct (effective_value o _) as [| | |m| | | |]; try done; [|eauto].
  injection Hs as <-. exfalso. revert Hin. rewrite <- (bool_decide_eq_true (_ ∈ _)). by destruct m.
Qed.
Lemma access_at : exists a, effective_value o ModelsAllowed = ModelAccessValue a /\
  forall l, a = Allowlist l -> Forall name_ok l.
Proof using Ho nlaws.
  pose proof (effective_ok o ModelsAllowed Ho) as Hok. pose proof (proj1 (ok_validated _ _ Hok)) as Hv.
  destruct (effective_value o ModelsAllowed) as [| | | | |a| |]; try done. exists a. split; [done|].
  intros l ->. apply value_ok_iff in Hok as [Hok _]. simpl in Hok.
  destruct (normalize_models l) as [k|] eqn:E; [|done]. injection Hok as ->.
  by apply normalize_models_idem in E as [_ ?].
Qed.
Lemma cidrs_at : exists ns, effective_value o NetworkTrustedProxyCidrs = StringList (net_to_string <$> ns).
Proof using Ho nlaws.
  pose proof (effective_ok o NetworkTrustedProxyCidrs Ho) as Hok.
  pose proof (proj1 (ok_validated _ _ Hok)) as Hv.
  destruct (effective_value o NetworkTrustedProxyCidrs) as [| | | | | |l|]; try done.
  apply value_ok_iff in Hok as [Hok _]. simpl in Hok.
  destruct (normalize_trusted_proxy_cidrs l) as [k|] eqn:E; [|done]. injection Hok as ->.
  apply normalize_cidrs_idem in E as [_ [ns ->]]. eauto.
Qed.
Lemma card_at : exists c, effective_value o OAuthCodexRateCard = CodexRateCardValue c /\ card_validate c = Ok ().
Proof using Ho.
  pose proof (effective_ok o OAuthCodexRateCard Ho) as Hok. pose proof (proj1 (ok_validated _ _ Hok)) as Hv.
  destruct (effective_value o OAuthCodexRateCard) as [| | | | | | |c]; try done. exists c. split; [done|].
  apply value_ok_iff in Hok as [Hok _]. simpl in Hok. by destruct (card_validate c) as [[]|].
Qed.
End effective.

(** * What the settings are *)

(** Every field carries the effective value of its key. *)
Definition settings_agree (value : SettingKey -> SettingValue) (s : SettingsConfiguration) : Prop :=
  let sc := scheduler s in let af := affinity s in let ad := admin s in let lg := logging s in
  let nw := network s in let oa := oauth s in let st := stream s in let sh := shutdown s in
  (value SchedulerOnRateLimited = RateLimitModeValue (on_rate_limited sc) /\
   value SchedulerQueueTimeout = DurationSecs (queue_timeout_secs sc) /\
   value SchedulerMaxWaitingRequests = Integer (max_waiting_requests sc) /\
   value SchedulerFallbackOnRateLimit = Boolean (fallback_on_rate_limit sc)) /\
  (value AffinityEnabled = Boolean (affinity_enabled af) /\
   value AffinityTtl = DurationSecs (ttl_secs af) /\
   value AffinityWaitTimeout = DurationSecs (wait_timeout_secs af)) /\
  value RetryPrecommitTotalBudget = DurationSecs (precommit_total_budget_secs (reliability s)) /\
  (value AdminRemoteEnabled = Boolean (remote_enabled ad) /\
   value AdminSessionIdleTimeout = DurationSecs (session_idle_timeout_secs ad) /\
   value AdminSessionAbsoluteTimeout = DurationSecs (session_absolute_timeout_secs ad) /\
   value AdminLoginFailureWindow = DurationSecs (login_failure_window_secs ad) /\
   value AdminLoginMaxFailures = Integer (login_max_failures ad)) /\
  (value LogsRequestEnabled = Boolean (request_enabled lg) /\
   value LogsRequestRetention = DurationSecs (request_retention_secs lg) /\
   value LogsRequestMaxRows = Integer (request_max_rows lg) /\
   value LogsHttpAccessMaxRows = Integer (http_access_max_rows lg) /\
   value LogsFileLevel = FileLogLevelValue (file_level lg) /\
   value LogsFileRetention = DurationSecs (file_retention_secs lg) /\
   value LogsFileMaxTotalSize = Integer (file_max_total_size lg) /\
   value LogsTelemetryQueueCapacity = Integer (telemetry_queue_capacity lg) /\
   value LogsTelemetryQueueMaxBytes = Integer (telemetry_queue_max_bytes lg)) /\
  (value ModelsAllowed = ModelAccessValue AllModels /\ allowed_models (models s) = None \/
   exists l, value ModelsAllowed = ModelAccessValue (Allowlist l) /\
     allowed_models (models s) = Some (list_to_set l)) /\
  value ModelsFastEnabled = Boolean (fast_enabled (models s)) /\
  (value NetworkMaxConnections = Integer (max_connections nw) /\
   value NetworkRequestHeaderTimeout = DurationSecs (request_header_timeout_secs nw) /\
   value NetworkRequestBodyIdleTimeout = DurationSecs (request_body_idle_timeout_secs nw) /\
   value NetworkTrustedProxyCidrs = StringList (net_to_string <$> trusted_proxy_cidrs nw)) /\
  (value OAuthRefreshScanInterval = DurationSecs (refresh_scan_interval_secs oa) /\
   value OAuthRefreshLeadTime = DurationSecs (refresh_lead_time_secs oa) /\
   value OAuthCodexRateCard = CodexRateCardValue (codex_rate_card oa)) /\
  (value UpstreamReadTimeout = DurationSecs (read_timeout_secs (upstream s)) /\
   value UpstreamStrictSsrf = Boolean (strict_ssrf (upstream s))) /\
  (value StreamPrecommitMaxBytes = Integer (precommit_max_bytes st) /\
   value StreamPrecommitMaxDuration = DurationSecs (precommit_max_duration_secs st) /\
   value StreamPostcommitIdleTimeout = DurationSecs (postcommit_idle_timeout_secs st)) /\
  (value ShutdownRequestGracePeriod = DurationSecs (request_grace_period_secs sh) /\
   value ShutdownFinalizeTimeout = DurationSecs (finalize_timeout_secs sh)).

(** Every number the gateway runs with is in range: no queue, timeout, buffer or
    connection limit is zero or unbounded. *)
Definition settings_in_bounds (s : SettingsConfiguration) : Prop :=
  let sc := scheduler s in let af := affinity s in let ad := admin s in let lg := logging s in
  let nw := network s in let oa := oauth s in let st := stream s in let sh := shutdown s in
  1 <= queue_timeout_secs sc <= 86400 /\ 1 <= max_waiting_requests sc <= 100000 /\
  1 <= ttl_secs af <= 2592000 /\ 1 <= wait_timeout_secs af <= 86400 /\
  1 <= precommit_total_budget_secs (reliability s) <= 86400 /\
  60 <= session_idle_timeout_secs ad <= session_absolute_timeout_secs ad /\
  session_absolute_timeout_secs ad <= 2592000 /\
  1 <= login_failure_window_secs ad <= 86400 /\ 1 <= login_max_failures ad <= 100 /\
  60 <= request_retention_secs lg <= 31536000 /\ 1 <= request_max_rows lg <= 10000000 /\
  1 <= http_access_max_rows lg <= 10000000 /\ 60 <= file_retention_secs lg <= 31536000 /\
  1048576 <= file_max_total_size lg <= 68719476736 /\
  1 <= telemetry_queue_capacity lg <= 100000 /\
  4194304 <= telemetry_queue_max_bytes lg <= 4294967296 /\
  (forall l m, allowed_models (models s) = Some l -> m ∈ l -> name_ok m) /\
  1 <= max_connections nw <= 100000 /\
  1 <= request_header_timeout_secs nw <= 86400 /\ 1 <= request_body_idle_timeout_secs nw <= 86400 /\
  1 <= refresh_scan_interval_secs oa <= refresh_lead_time_secs oa /\
  refresh_lead_time_secs oa <= 86400 /\ card_validate (codex_rate_card oa) = Ok () /\
  1 <= read_timeout_secs (upstream s) <= 86400 /\
  1 <= precommit_max_bytes st <= 16777216 /\ 1 <= precommit_max_duration_secs st <= 86400 /\
  1 <= postcommit_idle_timeout_secs st <= 86400 /\
  1 <= request_grace_period_secs sh <= 300 /\ 1 <= finalize_timeout_secs sh <= 60.

(** The two conditions that concern more than one setting *)
Definition consistent (o : gmap SettingKey SettingValue) : Prop :=
  (forall idle absolute, effective_value o AdminSessionIdleTimeout = DurationSecs idle ->
     effective_value o AdminSessionAbsoluteTimeout = DurationSecs absolute -> idle <= absolute) /\
  (forall scan lead, effective_value o OAuthRefreshScanInterval = DurationSecs scan ->
     effective_value o OAuthRefreshLeadTime = DurationSecs lead -> scan <= lead).

Lemma models_Ok l : Forall name_ok l -> try_map model_name_new l = Ok l.
Proof. apply try_map_id. Qed.
Lemma nets_Ok ns : try_map (fun v => ok_or InvalidListValue (net_parse v)) (net_to_string <$> ns) = Ok ns.
Proof using nlaws.
  apply try_map_Ok, Forall2_fmap_l, Forall_Forall2_diag, Forall_forall. intros n _.
  simpl. by rewrite net_parse_to_string.
Qed.
Lemma non_zero_fits n : 1 <= n <= 100000 -> non_zero_usize n = Some n.
Proof.
  intros Hn. unfold non_zero_usize. destruct (Z.ltb_spec usize_max n); [unfold usize_max in *; lia|].
  by destruct (Z.eqb_spec n 0); [lia|].
Qed.

(** The effective value of a key, with its range, replaces the lookup. *)
Ltac duration_of key :=
  let n := fresh "n" in let E := fresh "E" in let B := fresh "B" in
  destruct (duration_at _ ltac:(eassumption) key _ _ eq_refl eq_refl eq_refl) as (n & E & B); rewrite ?E in *.
Ltac integer_of key :=
  let n := fresh "n" in let E := fresh "E" in let B := fresh "B" in
  destruct (integer_at _ ltac:(eassumption) key _ _ eq_refl eq_refl eq_refl) as (n & E & B); rewrite ?E in *.
Ltac boolean_of key :=
  let b := fresh "b" in let E := fresh "E" in
  destruct (boolean_at _ ltac:(eassumption) key eq_refl) as (b & E); rewrite ?E in *.

Lemma from_overrides_spec o : map_Forall value_ok o ->
  match from_overrides o with
  | Ok s => consistent o /\ overrides s = o /\ settings_agree (effective_value o) s /\ settings_in_bounds s
  | Err e => e = InvalidCombination /\ ~ consistent o
  end.
Proof using nlaws.
  intros Ho. unfold from_overrides, consistent, settings_agree, settings_in_bounds.
  unfold scheduler_from_overrides, affinity_from_overrides, reliability_from_overrides,
    admin_from_overrides, logging_from_overrides, models_from_overrides, network_from_overrides,
    oauth_from_overrides, upstream_from_overrides, stream_from_overrides, shutdown_from_overrides.
  destruct (mode_at o Ho) as [m ->]. destruct (level_at o Ho) as [l ->].
  destruct (access_at o Ho) as (a & -> & Ha). destruct (cidrs_at o Ho) as [ns ->].
  destruct (card_at o Ho) as (card & -> & Hcard).
  duration_of SchedulerQueueTimeout. integer_of SchedulerMaxWaitingRequests.
  boolean_of SchedulerFallbackOnRateLimit. boolean_of AffinityEnabled. duration_of AffinityTtl.
  duration_of AffinityWaitTimeout. duration_of RetryPrecommitTotalBudget. boolean_of AdminRemoteEnabled.
  duration_of AdminSessionIdleTimeout. duration_of AdminSessionAbsoluteTimeout.
  duration_of AdminLoginFailureWindow. integer_of AdminLoginMaxFailures. boolean_of LogsRequestEnabled.
  duration_of LogsRequestRetention. integer_of LogsRequestMaxRows. integer_of LogsHttpAccessMaxRows.
  duration_of LogsFileRetention. integer_of LogsFileMaxTotalSize. integer_of LogsTelemetryQueueCapacity.
  integer_of LogsTelemetryQueueMaxBytes. boolean_of ModelsFastEnabled. integer_of NetworkMaxConnections.
  duration_of NetworkRequestHeaderTimeout. duration_of NetworkRequestBodyIdleTimeout.
  duration_of OAuthRefreshScanInterval. duration_of OAuthRefreshLeadTime. duration_of UpstreamReadTimeout.
  boolean_of UpstreamStrictSsrf. integer_of StreamPrecommitMaxBytes. duration_of StreamPrecommitMaxDuration.
  duration_of StreamPostcommitIdleTimeout. duration_of ShutdownRequestGracePeriod.
  duration_of ShutdownFinalizeTimeout.
  unfold MAX_SETTING_DURATION_SECS, MAX_SETTING_COUNT, MAX_AFFINITY_TTL_SECS, MAX_REQUEST_LOG_RETENTION_SECS,
    MAX_REQUEST_LOG_ROWS, MAX_HTTP_ACCESS_LOG_ROWS, MAX_FILE_LOG_RETENTION_SECS, MAX_FILE_LOG_TOTAL_SIZE,
    MAX_TELEMETRY_QUEUE_CAPACITY, MIN_TELEMETRY_QUEUE_MAX_BYTES, MAX_TELEMETRY_QUEUE_MAX_BYTES,
    MAX_STREAM_PRECOMMIT_BYTES in *.
  simpl. rewrite nets_Ok, non_zero_fits by lia. simpl.
  destruct (Z.ltb_spec n5 n4).
  { split; [done|]. intros [Hc _]. specialize (Hc _ _ eq_refl eq_refl). lia. }
  destruct a as [|names]; simpl; [|rewrite (models_Ok names (Ha names eq_refl)); simpl];
    (match goal with |- context [?x <? ?y] => destruct (Z.ltb_spec x y) end;
     [split; [done|]; intros [_ Hc]; specialize (Hc _ _ eq_refl eq_refl); lia|]).
  all: split; [split; intros ? ? [= <-] [= <-]; lia|]; split; [done|]; split;
    [split_and!; first [reflexivity|by left|right; eauto]|].
  all: simpl; split_and!; try first [lia|exact Hcard].
  - by intros.
  - intros ? x [= <-] Hx%elem_of_list_to_set. specialize (Ha names eq_refl). rewrite Forall_forall in Ha. eauto.
Qed.

(** C40. Overrides compile exactly when they are consistent: whatever an operator
    overrode and reset, the settings compile unless the idle timeout of a session
    exceeds its absolute timeout or the refresh lead time is shorter than the scan
    interval, and then that is the error; the compiled settings carry the effective
    value of every key and all their numbers, names and rates are in bounds. *)
Theorem settings_compile_exactly o : overrides_reached o ->
  match from_overrides o with
  | Ok s => consistent o /\ overrides s = o /\ settings_agree (effective_value o) s /\ settings_in_bounds s
  | Err e => e = InvalidCombination /\ ~ consistent o
  end.
Proof using nlaws. intros Ho. apply from_overrides_spec, reached_ok, Ho. Qed.

(** The defaults compile. *)
Lemma defaults_compile : exists s, defaults = Ret s /\ settings_in_bounds s.
Proof using nlaws.
  pose proof (from_overrides_spec ∅ (map_Forall_empty _)) as H. unfold defaults.
  destruct (from_overrides ∅) as [s|e]; [by destruct H as (_ & _ & _ & ?); eauto|].
  destruct H as [_ H]. exfalso. apply H.
  split; intros ? ? Ha Hb; unfold effective_value in Ha, Hb; rewrite lookup_empty in Ha, Hb;
    injection Ha as <-; injection Hb as <-; lia.
Qed.

(** * Values as JSON *)

(** A value as its types bound it *)
Definition value_width (v : SettingValue) : Prop :=
  match v with
  | Integer n | DurationSecs n => 0 <= n <= u64_max
  | CodexRateCardValue c => card_width c
  | _ => True
  end.

Lemma strings_of_json l : parse_string_list (json_array (json_str <$> l)) = Ok l.
Proof using jlaws.
  unfold parse_string_list. rewrite as_array_json. simpl.
  apply try_map_Ok, Forall2_fmap_l, Forall_Forall2_diag, Forall_forall. intros s _. simpl. by rewrite as_str_json.
Qed.
Lemma mode_parse_as_str m : mode_parse (mode_as_str m) = Some m.
Proof. by destruct m. Qed.
Lemma level_parse_as_str l : level_parse (level_as_str l) = Some l.
Proof. by destruct l. Qed.

(** A setting of an enumeration takes the values of that enumeration. *)
Lemma enum_parses key v s : value_ok key v -> def_value_type (definition key) = TyEnum ->
  enum_value v = Some s -> s ∈ allowed_values (definition key) -> parse_enum key s = Some v.
Proof.
  intros _ Ht Hs Hin. apply (bool_decide_eq_true_2 (s ∈ _)) in Hin. revert Hin.
  destruct v as [| | |m|l| | |]; try done; injection Hs as <-;
    destruct key; try discriminate Ht; try (by destruct m); by destruct l.
Qed.

Lemma to_json_reads key v : value_ok key v -> value_width v -> from_json key (to_json v) = Ok v.
Proof using jlaws.
  intros Hok Hw. pose proof (ok_validated _ _ Hok) as (Ht & He & _). unfold from_json. rewrite <- Ht.
  destruct v as [b|n|n|m|l|[|l]|l|c]; simpl in *.
  - rewrite as_bool_json. done.
  - rewrite as_u64_json by done. done.
  - rewrite as_u64_json by done. done.
  - destruct (He (eq_sym Ht)) as (s & [= <-] & Hin). rewrite as_str_json. simpl.
    rewrite bool_decide_true by done. by rewrite (enum_parses key _ _ Hok (eq_sym Ht) eq_refl Hin).
  - destruct (He (eq_sym Ht)) as (s & [= <-] & Hin). rewrite as_str_json. simpl.
    rewrite bool_decide_true by done. by rewrite (enum_parses key _ _ Hok (eq_sym Ht) eq_refl Hin).
  - unfold parse_model_access. rewrite as_str_json, bool_decide_true by done. done.
  - unfold parse_model_access. rewrite as_str_array, bool_decide_false by done. by rewrite strings_of_json.
  - by rewrite strings_of_json.
  - unfold card_from_json, card_to_json. rewrite card_value by done. simpl.
    pose proof Hok as [Hs _]%value_ok_iff. destruct key; try discriminate Ht. simpl in Hs.
    by destruct (card_validate c) as [[]|].
Qed.

Lemma normalize_width key v w : value_width v -> normalize_value key v = Ok w -> value_width w.
Proof.
  intros Hv. unfold normalize_value. destruct (normalize_shape key v) as [w'|] eqn:E; [|done].
  destruct (validate_value key w') as [[]|]; [|done]. intros [= <-]. revert E.
  destruct key; try (by intros [= <-]); simpl.
  - destruct v; try (by intros [= <-]). by destruct (normalize_trusted_proxy_cidrs _); intros [= <-].
  - destruct v as [| | | | |[|]| |]; try (by intros [= <-]). by destruct (normalize_models _); intros [= <-].
  - destruct v; try (by intros [= <-]). by destruct (card_validate _); intros [= <-].
Qed.
Lemma from_json_width key j v : from_json key j = Ok v -> value_width v.
Proof using jlaws.
  unfold from_json. match goal with |- context [match ?m with Ok _ => _ | Err _ => _ end] =>
    destruct m as [p|] eqn:E end; [|done]. apply normalize_width. revert E.
  destruct (def_value_type (definition key)).
  - by destruct (as_bool j); intros [= <-].
  - destruct (as_u64 j) eqn:En; intros [= <-]. by eapply as_u64_width.
  - destruct (as_u64 j) eqn:En; intros [= <-]. by eapply as_u64_width.
  - destruct (as_str j) as [s|]; [|done]. simpl. case_bool_decide; [|done].
    destruct (parse_enum key s) as [e|] eqn:Ee; intros [= <-]. revert Ee.
    destruct key; try done; simpl; [by destruct (level_parse s); intros [= <-]|by destruct (mode_parse s); intros [= <-]].
  - by destruct (parse_model_access j); intros [= <-].
  - by destruct (parse_string_list j); intros [= <-].
  - unfold card_from_json. destruct (card_from_value j) as [c|] eqn:Ec; [|done]. simpl.
    destruct (card_validate c) as [[]|]; intros [= <-]. simpl. by eapply card_value_width.
Qed.

Lemma from_json_ok key j v : from_json key j = Ok v -> value_ok key v.
Proof using nlaws.
  unfold from_json. match goal with |- context [match ?m with Ok _ => _ | Err _ => _ end] =>
    destruct m as [p|] end; [|done]. apply normalize_value_ok.
Qed.

(** Settings survive storage: a value an operator sends is normalized once,
    and what is written of it is read back as the same value. *)
Theorem setting_json_roundtrip key j v : from_json key j = Ok v ->
  value_ok key v /\ from_json key (to_json v) = Ok v.
Proof using jlaws nlaws.
  intros H. pose proof (from_json_ok _ _ _ H). split; [done|].
  apply to_json_reads; [done|by eapply from_json_width].
Qed.
End normal.

(** * Libraries for the examples *)

#[export] Instance tier_width_dec r : Decision (tier_width r).
Proof. unfold tier_width. apply _. Defined.
#[export] Instance rates_width_dec (r : CodexQuotaModelRates) :
  Decision (tier_width (standard r) /\ forall f, fast r = Some f -> tier_width f).
Proof.
  destruct (decide (tier_width (standard r))) as [H|H]; [|right; by intros [? _]].
  destruct (fast r) as [f|].
  - destruct (decide (tier_width f)) as [Hf|Hf].
    + left. split; [done|]. by intros ? [= <-].
    + right. intros [_ Hn]. by apply Hf, Hn.
  - left. by split.
Defined.
#[export] Instance card_width_dec c : Decision (card_width c).
Proof. unfold card_width. apply _. Defined.

Inductive sample_value :=
| JBool (b : bool) | JNumber (n : Z) | JString (s : string) | JArray (l : list sample_value)
| JCard (c : CodexQuotaRateCard).
Definition sample_json : JsonLib := {|
  Value := sample_value;
  as_bool v := match v with JBool b => Some b | _ => None end;
  as_u64 v := match v with
              | JNumber n => if (0 <=? n) && (n <=? u64_max) then Some n else None
              | _ => None
              end;
  as_str v := match v with JString s => Some s | _ => None end;
  as_array v := match v with JArray l => Some l | _ => None end;
  json_bool := JBool; json_u64 := JNumber; json_str := JString; json_array := JArray;
  card_from_value v := match v with
                       | JCard c => if decide (card_width c) then Some c else None
                       | _ => None
                       end;
  card_to_value := JCard
|}.
Lemma sample_json_laws : JsonLibLaws sample_json.
Proof.
  split; try done; simpl.
  - intros n Hn. by rewrite (proj2 (Z.leb_le 0 n)), (proj2 (Z.leb_le n _)) by lia.
  - intros [|m| | |] n; try done. destruct ((0 <=? m) && (m <=? u64_max)) eqn:E; intros [= <-]. lia.
  - intros c Hc. by rewrite decide_True.
  - intros [| | | |c'] c; try done. case_decide; intros [= <-]. done.
Qed.

Definition sample_net_to_string (b : bool) : string := if b then "10.0.0.0/8" else "127.0.0.1/32".
Definition sample_net_le (a b : bool) : Prop := implb a b = true.
#[local] Instance sample_net_le_dec : RelDecision sample_net_le.
Proof. intros a b. unfold sample_net_le. apply _. Defined.
Definition sample_nets : IpNetLib := {|
  IpNet := bool; IpAddr := unit;
  net_parse s := if String.eqb s "10.0.0.0/8" then Some true
                 else if String.eqb s "127.0.0.1/32" then Some false else None;
  addr_parse s := if String.eqb s "127.0.0.1" then Some () else None;
  net_from _ := false; net_trunc := id; net_to_string := sample_net_to_string; net_le := sample_net_le
|}.
Lemma sample_nets_laws : IpNetLibLaws sample_nets.
Proof.
  split; try done.
  - by intros [].
  - by intros [].
  - by intros [] [] [].
  - intros [] []; done.
  - intros [] []; by (left + right).
Qed.

Definition sample_overrides : gmap SettingKey SettingValue :=
  <[AdminSessionIdleTimeout := DurationSecs 7200]> (<[AdminSessionAbsoluteTimeout := DurationSecs 3600]> ∅).
Lemma sample_overrides_reached : overrides_reached (nets := sample_nets) sample_overrides.
Proof.
  eapply reached_insert with (key := AdminSessionIdleTimeout) (v := DurationSecs 7200).
  2: reflexivity.
  eapply reached_insert with (key := AdminSessionAbsoluteTimeout) (v := DurationSecs 3600).
  2: reflexivity.
  constructor.
Qed.

Lemma settings_compile_exactly_witness :
  from_overrides (nets := sample_nets) sample_overrides = Err InvalidCombination /\
  ~ consistent sample_overrides.
Proof.
  pose proof (settings_compile_exactly (nlaws := sample_nets_laws) sample_overrides sample_overrides_reached) as H.
  assert (E : from_overrides (nets := sample_nets) sample_overrides = Err InvalidCombination)
    by (vm_compute; reflexivity).
  rewrite E in H. exact (conj E (proj2 H)).
Defined.

Definition sample_cidrs : sample_value := JArray [JString " 127.0.0.1"; JString "10.0.0.0/8"; JString "127.0.0.1/32 "].
Lemma setting_json_roundtrip_witness :
  from_json (json := sample_json) (nets := sample_nets) NetworkTrustedProxyCidrs sample_cidrs =
    Ok (StringList ["127.0.0.1/32"; "10.0.0.0/8"]) /\
  from_json (json := sample_json) (nets := sample_nets) NetworkTrustedProxyCidrs
    (JArray [JString "127.0.0.1/32"; JString "10.0.0.0/8"]) = Ok (StringList ["127.0.0.1/32"; "10.0.0.0/8"]).
Proof.
  assert (E : from_json (json := sample_json) (nets := sample_nets) NetworkTrustedProxyCidrs sample_cidrs =
    Ok (StringList ["127.0.0.1/32"; "10.0.0.0/8"])) by (vm_compute; reflexivity).
  exact (conj E (proj2 (setting_json_roundtrip (jlaws := sample_json_laws) (nlaws := sample_nets_laws)
    NetworkTrustedProxyCidrs sample_cidrs _ E))).
Defined.
