(* ===== verification/Planning.v ===== *)
(** * Snapshots and the planning of public requests

    Models [runtime/src/configuration/snapshot/published.rs] and [oauth.rs] as
    far as requests ask them, [prepared.rs] ([bind]),
    [runtime/src/public_request/planning.rs], [live_routing.rs] and the
    authentication of a gateway key ([domain/src/gateway_api_key/verifier.rs]). *)
From S2P Require Import Prelude Settings Search Protocol Text GatewayRate PayloadBuffer Epoch Circuit Upstream Health Attempt Admission CredentialRuntime Candidates TierCursor RouteHealth RetryBudget RawJson JsonCodec Registry OAuthErrors Entities Catalog Routes Drivers Compile Building.
Local Open Scope Z_scope.

#[export] Instance byte_countable : Countable Byte.byte.
Proof. apply (inj_countable Byte.to_N Byte.of_N). apply Byte.of_to_N. Defined.

(** [PublishedSnapshot]; its cache of candidates is a state of its own. *)
Record PublishedSnapshot := {
  sn_revision : Z;
  sn_view : RoutingView;
  sn_keys : list GatewayApiKey;
  sn_models : ModelSettings;
  sn_key_index : gmap (list Byte.byte) Z;
  sn_key_rates : gmap Z GatewayRate.GatewayApiKeyRateBinding;
  sn_cursors : gmap (Z * Z) nat;
  sn_fallback_on_rate_limit : bool;
  sn_affinity_enabled : bool
}.
Definition sn_routes (s : PublishedSnapshot) : list ModelRoute := view_routes (sn_view s).

(** [published_public_model_names], [public_model_names] *)
Definition published_public_model_names (s : PublishedSnapshot) : gset string :=
  list_to_set (route_public_model <$> filter (fun r => route_enabled r = true) (sn_routes s)) ∪
  list_to_set (c ← filter (fun c => is_oauth c = true) (view_credentials (sn_view s));
               pj_models (rc_projection c)).
Definition public_model_names (s : PublishedSnapshot) : gset string :=
  filter (fun name => match model_name_new name with
                      | Ok name => allows_model (sn_models s) name
                      | Err _ => false
                      end = true) (published_public_model_names s).

(** * Gateway keys *)

Record GatewayApiKeyAuthProof := { proof_key : Z; proof_token_version : Z }.

Section authentication.
Context (sha256 : list Byte.byte -> list Byte.byte).

(** [GatewayApiKeyVerifier::hash] *)
Definition TOKEN_HASH_DOMAIN : list Byte.byte := bytes_of "any2api-gateway-api-key-token-hash-v2".
Definition token_digest (token : string) : list Byte.byte := sha256 (TOKEN_HASH_DOMAIN ++ bytes_of token).

(** [gateway_api_key_index], as [bind] collects it *)
Definition key_index (keys : list GatewayApiKey) : gmap (list Byte.byte) Z :=
  foldl (fun m k => <[gk_token_hash k := gk_id k]> m) ∅ (filter (fun k => gk_enabled k = true) keys).

(** [authenticate_gateway_api_key] *)
Definition authenticate_gateway_api_key (s : PublishedSnapshot) (token : string)
    : option GatewayApiKeyAuthProof :=
  match validate_token token with
  | Err _ => None
  | Ok _ =>
    let digest := token_digest token in
    id ← sn_key_index s !! digest;
    k ← key_get (sn_keys s) id;
    if gk_enabled k && bool_decide (digest = gk_token_hash k)
    then Some {| proof_key := gk_id k; proof_token_version := gk_token_version k |}
    else None
  end.
End authentication.

(** [LiveRoutingSnapshots::validate], [refresh] *)
Definition live_validate (proof : GatewayApiKeyAuthProof) (s : PublishedSnapshot) : result () PublicError :=
  let authenticated :=
    match key_get (sn_keys s) (proof_key proof) with
    | Some k => gk_enabled k && (gk_token_version k =? proof_token_version proof)
    | None => false
    end in
  if authenticated then Ok ()
  else Err (public_error Unauthorized "the Gateway API Key used for this request is no longer valid").
Definition live_refresh (latest current : PublishedSnapshot) : option PublishedSnapshot :=
  if sn_revision latest =? sn_revision current then None else Some latest.

(** * Planning *)

(** [model_not_found], [internal_error], [invalid_request] *)
Definition model_not_found (m : string) : PublicError :=
  public_error ModelNotFound ("The model '" +:+ m +:+ "' is not available through this gateway.").
Definition planning_failed : PublicError := public_error InternalError "internal request planning failed".
Definition invalid_request (text : string) : PublicError := public_error CodeInvalidRequest text.

Section planning.
Context {H : Type}.

(** [DecodedPublicRequest], [PlannedRequest] *)
Record DecodedPublicRequest := { dp_decoded : DecodedRequest (H := H); dp_public_model : string }.
Record PlannedRequest := {
  pl_decoded : DecodedRequest (H := H);
  pl_public_model : string;
  pl_route_id : Z;
  pl_dialect : ProtocolDialect;
  pl_fallback_on_rate_limit : bool;
  pl_synthetic : bool;
  pl_tiers : gmap Z (list BuiltCandidate)
}.

Inductive RoutingReplanMode := Unbound | FixedRoute.

(** [RoutingReplanMode::for_request] *)
Definition replan_mode_for (s : PublishedSnapshot) (p : PlannedRequest) : RoutingReplanMode :=
  match affinity (pl_decoded p) with
  | AffinityNone => Unbound
  | AffinitySession _ => if sn_affinity_enabled s then FixedRoute else Unbound
  | AffinityContinuation _ => FixedRoute
  end.

(** [decode], past the adapter *)
Definition decode_public (decoded : result (DecodedRequest (H := H)) ProtocolError)
    : result DecodedPublicRequest PublicError :=
  match decoded with
  | Err _ => Err (invalid_request "request body is not valid for this endpoint")
  | Ok d =>
    match model d with
    | None => Err (invalid_request "model is required")
    | Some m =>
      match model_name_new m with
      | Err _ => Err (invalid_request "model name is invalid")
      | Ok m => Ok {| dp_decoded := d; dp_public_model := m |}
      end
    end
  end.

Definition requirements (d : DecodedRequest (H := H)) : CandidateRequirements :=
  {| req_operation := request_operation d; req_profile := execution_profile d;
     req_transport := if stream d then Sse else Json |}.

(** What the planning of requests reads and changes: the cache of the snapshot,
    and the registry and store of health that building candidates may extend *)
Definition PlanningState : Type :=
  gmap (Z * CandidateRequirements) (gmap Z (list BuiltCandidate)) * HealthRegistry * HealthStore.

Context {uuid_lib : UuidLib} (clock : RoutingCredentialId -> Z).
Context (protocols : ProtocolRegistry) (providers : ProviderRegistry).

(** [route_candidates], [oauth_route_candidates] *)
Definition route_candidates (s : PublishedSnapshot) (r : ModelRoute) (req : CandidateRequirements)
    (st : PlanningState) : outcome (gmap Z (list BuiltCandidate) * PlanningState) :=
  let '(cache, reg, h) := st in
  '(tiers, cache, reg, h) ← get_or_build (route_id r, req)
    (build_route_candidates clock protocols providers (sn_view s) r req) cache reg h;
  Ret (tiers, (cache, reg, h)).
Definition oauth_route_candidates (s : PublishedSnapshot) (route_id : Z) (dialect : ProtocolDialect)
    (public_model : string) (req : CandidateRequirements) (st : PlanningState)
    : outcome (gmap Z (list BuiltCandidate) * PlanningState) :=
  let '(cache, reg, h) := st in
  '(tiers, cache, reg, h) ← get_or_build (route_id, req)
    (build_oauth_route_candidates clock protocols providers (sn_view s) route_id dialect public_model req)
    cache reg h;
  Ret (tiers, (cache, reg, h)).

(** [plan_decoded] *)
Definition plan_decoded (s : PublishedSnapshot) (d : DecodedRequest (H := H)) (public_model : string)
    (default_fallback : bool) (st : PlanningState)
    : outcome (result PlannedRequest PublicError * PlanningState) :=
  if negb (allows_model (sn_models s) public_model) then Ret (Err (model_not_found public_model), st)
  else
    let req := requirements d in
    let found := r ← resolve (sn_routes s) (request_dialect d) public_model;
                 if route_enabled r then Some r else None in
    match found with
    | Some r =>
      '(tiers, st) ← route_candidates s r req st;
      Ret (Ok {| pl_decoded := d; pl_public_model := public_model; pl_route_id := route_id r;
                 pl_dialect := route_ingress r;
                 pl_fallback_on_rate_limit := default default_fallback (route_fallback_on_rate_limit r);
                 pl_synthetic := false; pl_tiers := tiers |}, st)
    | None =>
      let route_id := oauth_route_id (request_dialect d) public_model in
      '(tiers, st) ← oauth_route_candidates s route_id (request_dialect d) public_model req st;
      if decide (tiers = ∅) then Ret (Err (model_not_found public_model), st)
      else Ret (Ok {| pl_decoded := d; pl_public_model := public_model; pl_route_id := route_id;
                      pl_dialect := request_dialect d; pl_fallback_on_rate_limit := default_fallback;
                      pl_synthetic := true; pl_tiers := tiers |}, st)
    end.

Definition with_tiers (p : PlannedRequest) (tiers : gmap Z (list BuiltCandidate)) : PlannedRequest :=
  {| pl_decoded := pl_decoded p; pl_public_model := pl_public_model p; pl_route_id := pl_route_id p;
     pl_dialect := pl_dialect p; pl_fallback_on_rate_limit := pl_fallback_on_rate_limit p;
     pl_synthetic := pl_synthetic p; pl_tiers := tiers |}.

(** [replan_fixed_route] *)
Definition replan_fixed_route (s : PublishedSnapshot) (p : PlannedRequest) (public_model : string)
    (st : PlanningState) : outcome (result PlannedRequest PublicError * PlanningState) :=
  if negb (allows_model (sn_models s) public_model) then Ret (Err (model_not_found public_model), st)
  else
    let req := requirements (pl_decoded p) in
    let found := r ← route_get (sn_routes s) (pl_route_id p);
                 if route_enabled r && bool_decide (route_ingress r = pl_dialect p) then Some r else None in
    match found with
    | Some r => '(tiers, st) ← route_candidates s r req st; Ret (Ok (with_tiers p tiers), st)
    | None =>
      if pl_synthetic p then
        '(tiers, st) ← oauth_route_candidates s (pl_route_id p) (pl_dialect p) public_model req st;
        Ret (Ok (with_tiers p tiers), st)
      else Ret (Ok (with_tiers p ∅), st)
    end.

(** [replan]; the public model of a planned request was validated before. *)
Definition replan (s : PublishedSnapshot) (p : PlannedRequest) (mode : RoutingReplanMode)
    (fallback : bool) (st : PlanningState)
    : outcome (result PlannedRequest PublicError * PlanningState) :=
  match model_name_new (pl_public_model p) with
  | Err _ => Panic
  | Ok public_model =>
    match mode with
    | Unbound => plan_decoded s (pl_decoded p) public_model fallback st
    | FixedRoute => replan_fixed_route s p public_model st
    end
  end.

(** [apply_model_request_policy], [plan] *)
Context {json : RawJson.Json} {B : Type} {buffer : BoundedBuffer B} (memory : nat -> allocator).
Definition with_payload (d : DecodedRequest (H := H)) (p : RawJsonPayload) : DecodedRequest (H := H) :=
  {| request_dialect := request_dialect d; request_operation := request_operation d;
     execution_profile := execution_profile d; client_headers := client_headers d;
     request_headers := request_headers d; body_encoding := body_encoding d; model := model d;
     stream := stream d; thinking_level := thinking_level d; affinity := affinity d; payload := p |}.
Definition apply_model_request_policy (m : ModelSettings) (d : DecodedRequest (H := H))
    : outcome (result (DecodedRequest (H := H)) ProtocolError) :=
  if fast_enabled m then Ret (Ok d)
  else
    r ← normalize_fast_tier_to_standard (B := B) memory (request_operation d) (payload d);
    Ret (match r with Ok p => Ok (with_payload d p) | Err e => Err e end).
Definition plan (s : PublishedSnapshot) (q : DecodedPublicRequest) (st : PlanningState)
    : outcome (result PlannedRequest PublicError * PlanningState) :=
  d ← apply_model_request_policy (sn_models s) (dp_decoded q);
  match d with
  | Err _ => Ret (Err planning_failed, st)
  | Ok d => plan_decoded s d (dp_public_model q) (sn_fallback_on_rate_limit s) st
  end.
End planning.

(** * Binding a prepared configuration *)

(** [PreparedPublishedSnapshot] *)
Record PreparedSnapshot := {
  pp_revision : Z;
  pp_endpoints : list ProviderEndpoint;
  pp_proxies : ProxyConfiguration;
  pp_routes : list ModelRoute;
  pp_keys : list GatewayApiKey;
  pp_models : ModelSettings;
  pp_fallback_on_rate_limit : bool;
  pp_affinity_enabled : bool;
  pp_specs : list RoutingCredentialSpec
}.

(** The registries of the process *)
Record RuntimeRegistry := {
  rr_credentials : CredentialRegistry;
  rr_admissions : @admission_world RouteAdmissionIdentity _ _;
  rr_rates : GatewayRate.handle_store * gmap Z nat;
  rr_cursors : RouteTierCursorRegistry;
  rr_health : HealthRegistry;
  rr_store : HealthStore
}.

Definition active_endpoints (endpoints : list ProviderEndpoint) (l : list RoutingCredential)
    : gset (Z * Z) :=
  list_to_set ((fun e => (ep_id e, ep_config_version e)) <$> endpoints) ∪
  list_to_set ((fun c => (pj_endpoint (rc_projection c), pj_endpoint_version (rc_projection c))) <$>
               filter (fun c => is_oauth c = true) l).

Section binding.
Context {uuid_lib : UuidLib}.
(** The clock when expiries are looked at, and the order sets of keys are
    iterated in *)
Context (clock : RoutingCredentialId -> Z) (order : gset (Z * Z) -> list (Z * Z)).

(** One turn of the loop of [RuntimeRegistry::reconcile_configuration] *)
Definition bind_spec (spec : RoutingCredentialSpec) (reg : CredentialRegistry)
    (w : @admission_world RouteAdmissionIdentity _ _) (h : HealthStore)
    : outcome (RoutingCredential * CredentialRegistry * @admission_world RouteAdmissionIdentity _ _ * HealthStore) :=
  '(b, reg, h) ← reconcile_spec (registry_spec spec) reg h;
  match admission_identity (rs_projection spec) (gen_routing (bound_generation b)) with
  | None => Ret ({| rc_projection := rs_projection spec; rc_binding := b; rc_admission := None |}, reg, w, h)
  | Some identity =>
    '(a, w) ← prepare identity w;
    Ret ({| rc_projection := rs_projection spec; rc_binding := b; rc_admission := Some a |}, reg, w, h)
  end.
Fixpoint bind_specs (specs : list RoutingCredentialSpec) (reg : CredentialRegistry)
    (w : @admission_world RouteAdmissionIdentity _ _) (h : HealthStore)
    : outcome (list RoutingCredential * CredentialRegistry * @admission_world RouteAdmissionIdentity _ _ * HealthStore) :=
  match specs with
  | [] => Ret ([], reg, w, h)
  | spec :: specs =>
    '(c, reg, w, h) ← bind_spec spec reg w h;
    '(cs, reg, w, h) ← bind_specs specs reg w h;
    Ret (c :: cs, reg, w, h)
  end.

(** [PreparedPublishedSnapshot::bind] *)
Definition bind_snapshot (pp : PreparedSnapshot) (rt : RuntimeRegistry)
    : outcome (PublishedSnapshot * RuntimeRegistry) :=
  '(cs, reg, w, h) ← bind_specs (pp_specs pp) (rr_credentials rt) (rr_admissions rt) (rr_store rt);
  let reg := {| cred_handles := filter (fun kv => kv.1 ∈ (fun s => pj_id (rs_projection s)) <$> pp_specs pp)
                                  (cred_handles reg);
                cred_runtimes := cred_runtimes reg |} in
  let '(rate_store, rate_handles, rates) :=
    GatewayRate.reconcile_specs ((fun k => (gk_id k, gk_rpm k)) <$> pp_keys pp)
      (rr_rates rt).1 (rr_rates rt).2 in
  let '(cursors, bound_cursors) :=
    TierCursor.reconcile order
      ((fun r => (route_id r, (fun t => draft_tier (target t)) <$> route_targets r)) <$> pp_routes pp)
      (route_tiers (pp_routes pp) cs) (rr_cursors rt) in
  '(health, hreg, h) ← registry_reconcile (order (active_endpoints (pp_endpoints pp) cs))
    (order (list_to_set ((fun p => (px_id p, px_config_version p)) <$> profiles (pp_proxies pp))))
    (active_candidate_path_bases clock (pp_routes pp) cs (pp_proxies pp)) (rr_health rt) h;
  Ret ({| sn_revision := pp_revision pp;
          sn_view := {| view_endpoints := pp_endpoints pp; view_proxies := pp_proxies pp;
                        view_routes := pp_routes pp; view_credentials := cs; view_health := health |};
          sn_keys := pp_keys pp; sn_models := pp_models pp; sn_key_index := key_index (pp_keys pp);
          sn_key_rates := rates; sn_cursors := bound_cursors;
          sn_fallback_on_rate_limit := pp_fallback_on_rate_limit pp;
          sn_affinity_enabled := pp_affinity_enabled pp |},
       {| rr_credentials := reg; rr_admissions := w; rr_rates := (rate_store, rate_handles);
          rr_cursors := cursors; rr_health := hreg; rr_store := h |}).
End binding.

(** * What planning finds ready *)

(** The keys of the paths a candidate goes by *)
Definition candidate_egress_key (c : RouteCandidate) : EgressPathKey :=
  {| egress_endpoint := endpoint_id c; egress_endpoint_version := endpoint_config_version c;
     egress_proxy := proxy_id c; egress_proxy_version := proxy_config_version c |}.
Definition candidate_path_key (c : RouteCandidate) : CandidatePathKey :=
  {| path_operation := operation c;
     path_base := {| base_target := target_id c; base_credential := credential_id c;
                     base_generation := routing_generation c; base_path := candidate_egress_key c |} |}.

(** The health of a candidate's paths is the one the registry keeps for them. *)
Definition health_registered (reg : HealthRegistry) (b : BuiltCandidate) : Prop :=
  let c := bc_routed b in
  egress_runtimes reg !! candidate_egress_key (route c) = Some (egress_path_health c) /\
  candidate_runtimes reg !! candidate_path_key (route c) = Some (candidate_path_health c).

Definition candidate_base (b : BuiltCandidate) : CandidatePathBaseKey :=
  path_base (candidate_path_key (route (bc_routed b))).

(** The paths of a snapshot: those its binding made active *)
Definition snapshot_paths {uuid_lib : UuidLib} (clock0 : RoutingCredentialId -> Z) (s : PublishedSnapshot)
    : gset CandidatePathBaseKey :=
  active_candidate_path_bases clock0 (sn_routes s) (view_credentials (sn_view s)) (view_proxies (sn_view s)).

(** Every tier of a candidate set has candidates, a cursor, paths of the
    snapshot, and registered health wherever the path was kept. *)
Definition tiers_ready {uuid_lib : UuidLib} (clock0 : RoutingCredentialId -> Z) (s : PublishedSnapshot)
    (kept : gset CandidatePathBaseKey) (reg : HealthRegistry) (rid : Z)
    (tiers : gmap Z (list BuiltCandidate)) : Prop :=
  forall k l, tiers !! k = Some l ->
    l <> [] /\ is_Some (cursor_of rid k (sn_cursors s)) /\
    Forall (fun b => candidate_base b ∈ snapshot_paths clock0 s /\
                     (candidate_base b ∈ kept -> health_registered reg b)) l.

(** A snapshot as it is bound, looked at with clock [clock0] *)
Record snapshot_ok {uuid_lib : UuidLib} (s : PublishedSnapshot) : Prop := {
  ok_fits : view_fits (sn_view s);
  ok_keys : NoDup (route_key <$> sn_routes s);
  ok_cursors : dom (sn_cursors s) =
    active_keys ((fun r => (route_id r, (fun t => draft_tier (target t)) <$> route_targets r)) <$> sn_routes s)
      (route_tiers (sn_routes s) (view_credentials (sn_view s)))
}.
(** The cache of a snapshot and the registry, which may have been bound to newer
    snapshots since; [kept] are the paths that stayed active all along. *)
Record state_ok {uuid_lib : UuidLib} (clock0 : RoutingCredentialId -> Z) (s : PublishedSnapshot)
    (kept : gset CandidatePathBaseKey) (st : PlanningState) : Prop := {
  ok_active : kept ⊆ candidate_active st.1.2;
  ok_egress : egress_active st.1.2 = set_map base_egress_path (candidate_active st.1.2);
  ok_cache rid req tiers : st.1.1 !! (rid, req) = Some tiers ->
    tiers <> ∅ /\ tiers_ready clock0 s kept st.1.2 rid tiers
}.

Lemma health_grows reg reg' b : registry_grows reg reg' -> health_registered reg b -> health_registered reg' b.
Proof.
  intros [_ _ G1 G2] [H1 H2]. split; [exact (lookup_weaken _ _ _ _ H1 G1)|exact (lookup_weaken _ _ _ _ H2 G2)].
Qed.
Lemma ready_grows {uuid_lib : UuidLib} clock0 s kept reg reg' rid tiers : registry_grows reg reg' ->
  tiers_ready clock0 s kept reg rid tiers -> tiers_ready clock0 s kept reg' rid tiers.
Proof.
  intros Hg Hr k l Hk. destruct (Hr k l Hk) as (? & ? & Hf). split_and!; try done.
  eapply Forall_impl; [exact Hf|]. intros b [? Hb]. split; [done|]. intros ?. eapply health_grows; eauto.
Qed.
Lemma state_grows {uuid_lib : UuidLib} clock0 s kept cache reg reg' h h' : registry_grows reg reg' ->
  state_ok clock0 s kept (cache, reg, h) -> state_ok clock0 s kept (cache, reg', h').
Proof.
  intros Hg [Ha He Hc]. simpl in *. split; simpl.
  - by rewrite (grows_candidate_active _ _ Hg).
  - by rewrite (grows_candidate_active _ _ Hg), (grows_egress_active _ _ Hg).
  - intros rid req tiers Ht. destruct (Hc _ _ _ Ht). split; [done|]. by eapply ready_grows.
Qed.

Section ready.
Context {uuid_lib : UuidLib}.
Context (clock0 clock : RoutingCredentialId -> Z) (Hclock : forall id, clock0 id <= clock id).
Context (protocols : ProtocolRegistry) (providers : ProviderRegistry).
Context (s : PublishedSnapshot) (Hs : snapshot_ok s) (kept : gset CandidatePathBaseKey).

Lemma placed_ready req reg sl b :
  kept ⊆ candidate_active reg -> egress_active reg = set_map base_egress_path (candidate_active reg) ->
  slot_known clock0 (sn_view s) sl -> placed (sn_view s) req reg sl b ->
  candidate_base b ∈ snapshot_paths clock0 s /\ (candidate_base b ∈ kept -> health_registered reg b).
Proof.
  intros Ha He (E1 & E2 & Hin) (eg & ca & -> & H1 & H2).
  assert (E : candidate_base (candidate_in (sn_view s) req sl eg ca) =
    path_base_of (slot_target sl) (slot_credential sl)).
  { unfold candidate_base, candidate_path_key, candidate_egress_key, candidate_in, make_candidate. simpl.
    by rewrite E1, E2. }
  rewrite E. split; [done|]. intros Hk. apply Ha in Hk.
  unfold health_registered, candidate_path_key, candidate_egress_key, candidate_in, make_candidate. simpl.
  rewrite E1, E2. split; [|by apply H2]. apply H1. rewrite He. apply elem_of_map.
  exists (path_base_of (slot_target sl) (slot_credential sl)). done.
Qed.

(** A build from places that are all known and have cursors is ready. *)
Lemma build_ready req slots rid reg h tiers reg' h' :
  kept ⊆ candidate_active reg -> egress_active reg = set_map base_egress_path (candidate_active reg) ->
  (forall sl, sl ∈ slots -> slot_known clock0 (sn_view s) sl /\ (rid, slot_tier sl) ∈ dom (sn_cursors s)) ->
  fold_outcome (place (sn_view s) req) slots (∅, reg, h) = Ret (tiers, reg', h') ->
  registry_grows reg reg' /\ tiers_ready clock0 s kept reg' rid tiers.
Proof.
  intros Ha He Hall Hf. apply places_spec in Hf as [Hg Hk]. split; [done|]. intros k l Hl.
  destruct (Hk k) as (bs & E & Hbs & Hne). rewrite Hl, lookup_empty in E. simpl in E. subst l.
  assert (bs <> []) as Hbs0.
  { intros ->. rewrite Hl, lookup_empty in Hne. by specialize (Hne eq_refl). }
  split; [done|]. split.
  - destruct bs as [|b bs]; [done|]. apply Forall2_cons_inv_r in Hbs as (sl & sls & _ & _ & Esl).
    assert (sl ∈ filter (fun x => slot_tier x = k) slots) as [<- Hin]%list_elem_of_filter
      by (rewrite Esl; by left).
    apply elem_of_dom. by apply Hall.
  - apply Forall_forall. intros b Hb. apply list_elem_of_lookup in Hb as [i Hi].
    destruct (Forall2_lookup_r _ _ _ _ _ Hbs Hi) as (sl & Hsl & Hp).
    apply list_elem_of_lookup_2, list_elem_of_filter in Hsl as [_ Hin].
    eapply placed_ready; [| |by apply Hall|exact Hp].
    + by rewrite (grows_candidate_active _ _ Hg).
    + by rewrite (grows_candidate_active _ _ Hg), (grows_egress_active _ _ Hg).
Qed.

Lemma route_slots_ready req r sl : r ∈ sn_routes s -> route_enabled r = true ->
  sl ∈ route_slots clock protocols providers (sn_view s) req r ->
  slot_known clock0 (sn_view s) sl /\ (route_id r, slot_tier sl) ∈ dom (sn_cursors s).
Proof using Hclock Hs.
  intros Hr Hen. destruct Hs as [Hfits Hkeys Hcur]. rewrite Hcur. unfold route_slots, active_keys.
  rewrite elem_of_app, elem_of_union, !elem_of_list_to_set. intros [Hin|Hin].
  - split; [by eapply (key_slot_known clock0 clock Hclock)|]. left.
    apply list_elem_of_bind in Hin as (t & Hin & Ht). unfold key_slots in Hin.
    destruct (draft_enabled _); [|by apply elem_of_nil in Hin].
    destruct (serving_endpoint _ _ _ _ _ _) as [e|]; [|by apply elem_of_nil in Hin].
    apply list_elem_of_bind in Hin as (c & Hin & _).
    destruct (key_credential_fits _ _ _ _); [|by apply elem_of_nil in Hin].
    destruct (rc_admission c); [|by apply elem_of_nil in Hin].
    destruct (enabled_proxy _ c); [|by apply elem_of_nil in Hin].
    apply list_elem_of_singleton in Hin as ->. simpl.
    apply list_elem_of_bind. eexists. split; [|by apply list_elem_of_fmap_2]. simpl.
    apply list_elem_of_bind. eexists. split; [|by apply list_elem_of_fmap_2]. by apply list_elem_of_singleton.
  - assert (resolved_oauth_route_id (sn_routes s) (route_ingress r) (route_public_model r) = route_id r) as E.
    { unfold resolved_oauth_route_id.
      rewrite (proj2 (resolve_Some (sn_routes s) (route_ingress r) (route_public_model r) r Hkeys)) by done.
      by rewrite Hen. }
    unfold sn_routes in E. rewrite <- E in Hin. apply (oauth_slot_known clock0 clock Hclock) in Hin as (Hk & Ht & Hc).
    split; [done|]. right. rewrite Ht. by rewrite E in Hc.
Qed.

Lemma oauth_slots_ready req ingress public_model sl :
  sl ∈ oauth_slots clock protocols providers (sn_view s) req
         (resolved_oauth_route_id (sn_routes s) ingress public_model) ingress public_model ->
  slot_known clock0 (sn_view s) sl /\
  (resolved_oauth_route_id (sn_routes s) ingress public_model, slot_tier sl) ∈ dom (sn_cursors s).
Proof using Hclock Hs.
  intros Hin. apply (oauth_slot_known clock0 clock Hclock) in Hin as (Hk & Ht & Hc).
  split; [done|]. rewrite (ok_cursors s Hs), Ht. unfold active_keys.
  apply elem_of_union_r, elem_of_list_to_set. exact Hc.
Qed.

(** The cache gives what a build gives, or what an earlier one gave. *)
Lemma get_or_build_ready rid req build cache reg h tiers cache' reg' h' :
  state_ok clock0 s kept (cache, reg, h) ->
  (forall tiers reg' h', build reg h = Ret (tiers, reg', h') ->
     registry_grows reg reg' /\ tiers_ready clock0 s kept reg' rid tiers) ->
  get_or_build (rid, req) build cache reg h = Ret (tiers, cache', reg', h') ->
  state_ok clock0 s kept (cache', reg', h') /\ tiers_ready clock0 s kept reg' rid tiers.
Proof.
  intros Hst Hb. unfold get_or_build. destruct (cache !! (rid, req)) as [cached|] eqn:Ec.
  { intros [= <- <- <- <-]. split; [done|]. by destruct (ok_cache _ _ _ _ Hst _ _ _ Ec). }
  destruct (build reg h) as [[[built reg1] h1]|] eqn:Eb; [|done]. simpl.
  destruct (Hb _ _ _ eq_refl) as [Hg Hr]. unfold cache_store. rewrite Ec.
  pose proof (state_grows _ _ _ _ _ _ _ h1 Hg Hst) as Hst1.
  case_decide as Hempty; intros [= <- <- <- <-]; (split; [|done]); [done|].
  destruct Hst1 as [Ha He Hc]. split; simpl in *; [done..|].
  intros rid' req' t Ht. apply lookup_insert_Some in Ht as [[[= -> ->] <-]|[_ Ht]]; [done|]. by eapply Hc.
Qed.

Lemma route_candidates_ready req r st tiers st' : state_ok clock0 s kept st ->
  r ∈ sn_routes s -> route_enabled r = true ->
  route_candidates clock protocols providers s r req st = Ret (tiers, st') ->
  state_ok clock0 s kept st' /\ tiers_ready clock0 s kept st'.1.2 (route_id r) tiers.
Proof using Hclock Hs.
  destruct st as [[cache reg] h]. intros Hst Hr Hen. unfold route_candidates.
  destruct (get_or_build _ _ _ _ _) as [[[[t c'] reg'] h']|] eqn:E; [|done]. simpl. intros [= <- <-].
  eapply get_or_build_ready; [exact Hst| |exact E]. intros t' reg1 h1 Hb. rewrite build_places in Hb.
  destruct Hst as [Ha He _]. eapply build_ready; [exact Ha|exact He| |exact Hb].
  intros sl. by apply route_slots_ready.
Qed.
Lemma oauth_candidates_ready req rid dialect public_model st tiers st' : state_ok clock0 s kept st ->
  rid = resolved_oauth_route_id (sn_routes s) dialect public_model ->
  oauth_route_candidates clock protocols providers s rid dialect public_model req st = Ret (tiers, st') ->
  state_ok clock0 s kept st' /\ tiers_ready clock0 s kept st'.1.2 rid tiers.
Proof using Hclock Hs.
  destruct st as [[cache reg] h]. intros Hst -> . unfold oauth_route_candidates.
  destruct (get_or_build _ _ _ _ _) as [[[[t c'] reg'] h']|] eqn:E; [|done]. simpl. intros [= <- <-].
  eapply get_or_build_ready; [exact Hst| |exact E]. intros t' reg1 h1 Hb. rewrite build_oauth_places in Hb.
  destruct Hst as [Ha He _]. eapply build_ready; [exact Ha|exact He| |exact Hb].
  intros sl. by apply oauth_slots_ready.
Qed.

End ready.

(** A snapshot bound to compiled specifications is ready for its first request. *)
Lemma bind_specs_projections specs reg w h cs reg' w' h' :
  bind_specs specs reg w h = Ret (cs, reg', w', h') ->
  rc_projection <$> cs = rs_projection <$> specs.
Proof.
  revert reg w h cs. induction specs as [|spec specs IH]; intros reg w h cs; simpl.
  { intros [= <- <- <- <-]. done. }
  unfold bind_spec. destruct (reconcile_spec _ _ _) as [[[b reg1] h1]|]; [|done]. simpl.
  destruct (admission_identity _ _) as [i|].
  - destruct (prepare i w) as [[a w1]|]; [|done]. simpl.
    destruct (bind_specs specs _ _ _) as [[[[cs1 reg2] w2] h2]|] eqn:E; [|done]. simpl.
    intros [= <- <- <- <-]. rewrite !fmap_cons. f_equal. by eapply IH.
  - simpl. destruct (bind_specs specs _ _ _) as [[[[cs1 reg2] w2] h2]|] eqn:E; [|done]. simpl.
    intros [= <- <- <- <-]. rewrite !fmap_cons. f_equal. by eapply IH.
Qed.

(** What a binding leaves in the registry *)
Lemma bind_registry {uuid_lib : UuidLib} clock order pp rt s rt' :
  bind_snapshot clock order pp rt = Ret (s, rt') ->
  candidate_active (rr_health rt') = snapshot_paths clock s /\
  egress_active (rr_health rt') = set_map base_egress_path (candidate_active (rr_health rt')) /\
  (forall k, egress_runtimes (rr_health rt') !! k =
     if decide (k ∈ egress_active (rr_health rt')) then egress_runtimes (rr_health rt) !! k else None) /\
  (forall k, candidate_runtimes (rr_health rt') !! k =
     if decide (path_base k ∈ candidate_active (rr_health rt'))
     then candidate_runtimes (rr_health rt) !! k else None).
Proof.
  unfold bind_snapshot. destruct (bind_specs _ _ _ _) as [[[[cs reg] w] h]|]; [|done]. simpl.
  destruct (GatewayRate.reconcile_specs _ _ _) as [[rs rh] rates].
  destruct (TierCursor.reconcile _ _ _ _) as [cur bound].
  destruct (registry_reconcile _ _ _ _ _) as [[[hb hreg] h']|] eqn:Eh; [|done]. simpl.
  intros [= <- <-]. simpl. apply registry_reconcile_spec in Eh as
    (me & mp & h1 & be & bp & _ & _ & _ & _ & Hea & Hca & Heg & Hcd & _).
  rewrite Hca. split; [done|]. by split.
Qed.

Lemma bound_snapshot_ok {uuid_lib : UuidLib} {codec : DocumentCodec} clock order first providers
    credentials accounts secrets stored pp rt s rt' :
  (forall X, order X ≡ₚ elements X) -> registry_wf (rr_cursors rt) ->
  NoDup (route_key <$> pp_routes pp) -> NoDup (pc_id <$> credentials) -> NoDup (oa_id <$> accounts) ->
  compile_stored first (pp_endpoints pp) (pp_proxies pp) providers credentials accounts secrets stored =
    Ok (pp_specs pp) ->
  bind_snapshot clock order pp rt = Ret (s, rt') -> snapshot_ok s.
Proof.
  intros Hord Hwf Hkeys Hc Ha Hcomp. unfold bind_snapshot.
  destruct (bind_specs _ _ _ _) as [[[[cs reg] w] h]|] eqn:Eb; [|done]. simpl.
  apply bind_specs_projections in Eb.
  destruct (GatewayRate.reconcile_specs _ _ _) as [[rs rh] rates].
  destruct (TierCursor.reconcile _ _ _ _) as [cur bound] eqn:Ec.
  destruct (registry_reconcile _ _ _ _ _) as [[[hb hreg] h']|]; [|done]. simpl.
  intros [= <- <-]. split; simpl; [by eapply compiled_view_fits|done|].
  by apply tier_cursors_reconciled in Ec as (_ & _ & ? & _).
Qed.

(** A snapshot is ready for its first request once it is bound, and stays ready
    when another is bound, less the paths the other does not have. *)
Lemma bound_state_ok {uuid_lib : UuidLib} clock order pp rt s rt' :
  bind_snapshot clock order pp rt = Ret (s, rt') ->
  state_ok clock s (candidate_active (rr_health rt')) (∅, rr_health rt', rr_store rt').
Proof.
  intros (_ & He & _)%bind_registry. split; simpl; [done|done|]. intros rid req tiers. by rewrite lookup_empty.
Qed.


(** * Planning again *)

Section replanning.
Context {uuid_lib : UuidLib}.
Context (clock0 clock : RoutingCredentialId -> Z) (Hclock : forall id, clock0 id <= clock id).
Context (protocols : ProtocolRegistry) (providers : ProviderRegistry).
Context (s : PublishedSnapshot) (Hs : snapshot_ok s) (kept : gset CandidatePathBaseKey).

Lemma route_get_Some routes id r : route_get routes id = Some r -> r ∈ routes /\ route_id r = id.
Proof.
  unfold route_get. destruct (list_find _ _) as [[i x]|] eqn:E; [|done]. intros [= <-].
  apply list_find_Some in E as (? & ? & _). split; [by eapply list_elem_of_lookup_2|done].
Qed.

(** A request that is bound to its route (it has a session or continues a
    conversation) stays on it when it is planned again: route, protocol, model,
    request and fallback policy do not change, only the candidates do.  Its new
    candidates are ready too - with the health the registry keeps wherever the path
    stayed active since the snapshot was bound -, provided a synthetic route still is the one its
    model resolves to; and a route that is gone leaves no candidates. *)
Theorem replan_keeps_route {H} (p : PlannedRequest (H := H)) fallback st p' st' :
  state_ok clock0 s kept st ->
  replan clock protocols providers s p FixedRoute fallback st = Ret (Ok p', st') ->
  p' = with_tiers p (pl_tiers p') /\
  (pl_synthetic p = false ->
     (forall r, route_get (sn_routes s) (pl_route_id p) = Some r ->
        route_enabled r = false \/ route_ingress r <> pl_dialect p) -> pl_tiers p' = ∅) /\
  ((pl_synthetic p = true ->
    pl_route_id p = resolved_oauth_route_id (sn_routes s) (pl_dialect p) (pl_public_model p)) ->
   state_ok clock0 s kept st' /\ tiers_ready clock0 s kept st'.1.2 (pl_route_id p) (pl_tiers p')).
Proof using Hclock Hs.
  intros Hst. unfold replan. destruct (model_name_new _) as [m|] eqn:Hm; [|done].
  apply model_name_kept in Hm as ->. unfold replan_fixed_route.
  destruct (allows_model _ _); [|done]. simpl negb. cbv iota.
  set (found := _ ≫= _). destruct found as [r|] eqn:Ef; subst found; simpl.
  - destruct (route_get _ _) as [r'|] eqn:Er in Ef; [|done]. simpl in Ef.
    destruct (_ && _) eqn:Hc in Ef; [|done]. injection Ef as ->.
    apply andb_true_iff in Hc as [Hen Hd%bool_decide_eq_true].
    pose proof Er as Er'. apply route_get_Some in Er' as [Hr Hid].
    destruct (route_candidates _ _ _ _ _ _ _) as [[tiers st1]|] eqn:E; [|done]. simpl.
    intros [= <- <-]. apply (route_candidates_ready clock0) with (kept := kept) in E as [? Hready]; [|done..].
    split_and!; [done| |intros _; simpl; rewrite <- Hid; by split].
    intros _ Hno. destruct (Hno r Er); congruence.
  - destruct (pl_synthetic p) eqn:Esy.
    + destruct (oauth_route_candidates _ _ _ _ _ _ _ _ _) as [[tiers st1]|] eqn:E; [|done]. simpl.
      intros [= <- <-]. split_and!; [done|done|]. intros Hres. specialize (Hres eq_refl).
      by apply (oauth_candidates_ready clock0) with (kept := kept) in E.
    + intros [= <- <-]. split_and!; [done|done|]. intros _. split; [done|]. intros k l. simpl.
      by rewrite lookup_empty.
Qed.
End replanning.

(** * The life of a snapshot *)

Section grows.
Context {uuid_lib : UuidLib} (clock : RoutingCredentialId -> Z).
Context (protocols : ProtocolRegistry) (providers : ProviderRegistry) (s : PublishedSnapshot).


End grows.

Section life.
Context {uuid_lib : UuidLib} {H : Type} (clock0 : RoutingCredentialId -> Z).
Context (protocols : ProtocolRegistry) (providers : ProviderRegistry) (s : PublishedSnapshot).


Context (Hs : snapshot_ok s).


End life.

(** * Gateway keys *)

Lemma key_index_lookup keys digest id : key_index keys !! digest = Some id ->
  exists k, k ∈ keys /\ gk_enabled k = true /\ gk_token_hash k = digest /\ gk_id k = id.
Proof.
  unfold key_index. set (l := filter _ _).
  assert (Hl : forall k, k ∈ l -> k ∈ keys /\ gk_enabled k = true).
  { intros k [? ?]%list_elem_of_filter. done. }
  assert (Hm : forall m : gmap (list Byte.byte) Z, (forall d i, m !! d = Some i -> exists k, k ∈ keys /\ gk_enabled k = true /\
    gk_token_hash k = d /\ gk_id k = i) ->
    forall d i, foldl (fun m k => <[gk_token_hash k := gk_id k]> m) m l !! d = Some i ->
    exists k, k ∈ keys /\ gk_enabled k = true /\ gk_token_hash k = d /\ gk_id k = i).
  { clearbody l. induction l as [|k l IH]; intros m Hm; [done|]. simpl. apply IH.
    - intros k' Hk'. apply Hl. by right.
    - intros d i [[<- <-]|[_ Hd]]%lookup_insert_Some; [|by apply Hm]. exists k.
      destruct (Hl k); [by left|]. done. }
  apply Hm. intros d i. by rewrite lookup_empty.
Qed.
Lemma key_index_found keys k : k ∈ keys -> gk_enabled k = true ->
  NoDup (gk_token_hash <$> filter (fun k => gk_enabled k = true) keys) ->
  key_index keys !! gk_token_hash k = Some (gk_id k).
Proof.
  intros Hk He. unfold key_index. assert (k ∈ filter (fun k => gk_enabled k = true) keys) as Hin
    by (by apply list_elem_of_filter). revert Hin. generalize (filter (fun k => gk_enabled k = true) keys).
  generalize (∅ : gmap (list Byte.byte) Z). intros m l. revert m.
  induction l as [|x l IH]; intros m; [by intros ?%elem_of_nil|]. simpl.
  intros [->|Hin]%elem_of_cons [Hx Hnd]%NoDup_cons; [|by apply IH].
  assert (forall m' : gmap (list Byte.byte) Z, foldl (fun m k => <[gk_token_hash k := gk_id k]> m) m' l !! gk_token_hash x =
    m' !! gk_token_hash x) as ->; [|apply lookup_insert_eq].
  clear IH. induction l as [|y l IH]; intros m'; [done|]. simpl. rewrite IH.
  - apply lookup_insert_ne. intros E. apply Hx. rewrite <- E. by left.
  - intros ?. apply Hx. by right.
  - by apply NoDup_cons in Hnd as [? ?].
Qed.

(** C39. A token authenticates exactly as one enabled key: when it is well formed
    and its digest is the key's; the proof names that key and the version of its
    token, and a later snapshot accepts the proof exactly while the key is there,
    enabled, and its token was not rotated. *)
Theorem gateway_key_authenticates_exactly sha256 s token proof :
  NoDup (gk_id <$> sn_keys s) ->
  NoDup (gk_token_hash <$> filter (fun k => gk_enabled k = true) (sn_keys s)) ->
  sn_key_index s = key_index (sn_keys s) ->
  (authenticate_gateway_api_key sha256 s token = Some proof <->
   validate_token token = Ok () /\
   exists k, k ∈ sn_keys s /\ gk_enabled k = true /\ gk_token_hash k = token_digest sha256 token /\
     proof = {| proof_key := gk_id k; proof_token_version := gk_token_version k |}) /\
  (live_validate proof s = Ok () <->
   exists k, k ∈ sn_keys s /\ gk_id k = proof_key proof /\ gk_enabled k = true /\
     gk_token_version k = proof_token_version proof).
Proof.
  intros Hid Hhash Hix. split.
  - unfold authenticate_gateway_api_key. destruct (validate_token token) as [[]|]; [|naive_solver].
    rewrite Hix. split.
    + destruct (key_index _ !! _) as [id|] eqn:Ei; [|done]. simpl.
      destruct (key_get _ _) as [k|] eqn:Ek; [|done]. simpl.
      apply (entity_get_Some gk_id _ _ _ Hid) in Ek as [Hk Eid].
      destruct (gk_enabled k) eqn:He; [|done]. simpl. case_bool_decide; [|done]. intros [= <-].
      split; [done|]. by exists k.
    + intros (_ & k & Hk & He & Eh & ->). rewrite <- Eh, (key_index_found _ _ Hk He Hhash). simpl.
      unfold key_get. rewrite (proj2 (entity_get_Some gk_id _ _ _ Hid) (conj Hk eq_refl)). simpl.
      by rewrite He, bool_decide_true.
  - unfold live_validate. destruct (key_get _ _) as [k|] eqn:Ek.
    + apply (entity_get_Some gk_id _ _ _ Hid) in Ek as [Hk Eid].
      destruct (gk_enabled k) eqn:He; simpl.
      1: destruct (gk_token_version k =? proof_token_version proof) eqn:Ev.
      * split; [|done]. intros _. exists k. split_and!; try done. lia.
      * split; [done|]. intros (k' & Hk' & Eid' & _ & Ev').
        assert (k' = k) as -> by (eapply (NoDup_fmap_elem gk_id); [exact Hid|done..|congruence]). lia.
      * split; [done|]. intros (k' & Hk' & Eid' & He' & _).
        assert (k' = k) as -> by (eapply (NoDup_fmap_elem gk_id); [exact Hid|done..|congruence]). congruence.
    + split; [done|]. intros (k & Hk & Eid & _). apply entity_get_None in Ek. destruct Ek.
      rewrite <- Eid. by apply list_elem_of_fmap_2.
Qed.

(** * Samples *)

Definition planning_account : OAuthAccount :=
  {| oa_id := 4; oa_provider := Codex; oa_label := "me"; oa_proxy := GlobalProxy; oa_rpm := None;
     oa_enabled := true; oa_email := None; oa_expires_at := Some 100; oa_created_at := "2026-01-01";
     oa_token_version := 1; oa_generation := 1; oa_config_version := 1; oa_models := ["gpt"] |}.
Definition planning_specs : list RoutingCredentialSpec :=
  match @compile_stored sample_uuid sample_codec (fun _ => 0) [sample_endpoint] sample_proxies
          sample_providers [] [planning_account] [] [sample_document] with
  | Ok specs => specs
  | Err _ => []
  end.
Definition planning_protocols : ProtocolRegistry := {| adapters := {[ OpenAiResponses ]}; bridges := ∅ |}.
Definition planning_route : ModelRoute :=
  {| route_id := 7; route_public_model := "gpt"; route_ingress := OpenAiResponses;
     route_fallback_on_rate_limit := None; route_enabled := true; route_config_version := 1;
     route_targets := [{| target_route := 7;
       target := {| draft_id := 8; draft_endpoint := 2; draft_upstream_model := "gpt";
                    draft_upstream_dialect := OpenAiResponses; draft_tier := 0; draft_enabled := true |} |}] |}.
Definition planning_prepared (routes : list ModelRoute) : PreparedSnapshot :=
  {| pp_revision := 1 + Zlen routes; pp_endpoints := [sample_endpoint]; pp_proxies := sample_proxies;
     pp_routes := routes; pp_keys := []; pp_models := {| allowed_models := None; fast_enabled := true |};
     pp_fallback_on_rate_limit := true; pp_affinity_enabled := true; pp_specs := planning_specs |}.
Definition planning_runtime : RuntimeRegistry :=
  {| rr_credentials := {| cred_handles := ∅; cred_runtimes := ∅ |}; rr_admissions := admission_world_new;
     rr_rates := ({| GatewayRate.windows := ∅; GatewayRate.next_handle := 0 |}, ∅);
     rr_cursors := cursor_registry_new; rr_health := registry_new; rr_store := empty_store |}.
Definition planning_bound (routes : list ModelRoute) (rt : RuntimeRegistry)
    : outcome (PublishedSnapshot * RuntimeRegistry) :=
  @bind_snapshot sample_uuid (fun _ => 0) elements (planning_prepared routes) rt.

(** A request of session [session] for the model *)
Definition planning_request : DecodedRequest (H := unit) :=
  {| request_dialect := OpenAiResponses; request_operation := Responses; execution_profile := Standard;
     client_headers := tt; request_headers := tt; body_encoding := Identity; model := Some "gpt";
     stream := false; thinking_level := None; affinity := AffinitySession "session";
     payload := {| body := []; fields := []; has_duplicate_fields := false |} |}.

Definition plan_sample (s : PublishedSnapshot) (rt : RuntimeRegistry) (now : Z)
    : outcome (result (PlannedRequest (H := unit)) PublicError * PlanningState) :=
  @plan_decoded unit sample_uuid (fun _ => now) planning_protocols sample_providers s planning_request
    "gpt" true (∅, rr_health rt, rr_store rt).

(** The request is planned on a synthetic route, a route for its model is then
    published, and it is planned again. *)
Definition replan_sample : outcome (PlannedRequest (H := unit) * PublishedSnapshot * PlannedRequest (H := unit)) :=
  '(s1, rt1) ← planning_bound [] planning_runtime;
  '(r1, _) ← plan_sample s1 rt1 0;
  match r1 with
  | Err _ => Panic
  | Ok p1 =>
    '(s2, rt2) ← planning_bound [planning_route] rt1;
    '(r2, _) ← @replan unit sample_uuid (fun _ => 0) planning_protocols sample_providers s2 p1
                 (replan_mode_for s2 p1) true (∅, rr_health rt2, rr_store rt2);
    match r2 with Err _ => Panic | Ok p2 => Ret (p1, s2, p2) end
  end.
Definition replan_check : bool :=
  match replan_sample with
  | Panic => false
  | Ret (p1, s2, p2) =>
    pl_synthetic p1 && pl_synthetic p2 && (pl_route_id p1 =? pl_route_id p2) &&
    bool_decide (length <$> (pl_tiers p2 !! 0) = Some 1%nat) &&
    bool_decide (cursor_of (pl_route_id p2) 0 (sn_cursors s2) = None) &&
    bool_decide (is_Some (cursor_of (route_id planning_route) 0 (sn_cursors s2)))
  end.
Lemma replan_check_true : replan_check = true.
Proof. vm_compute. reflexivity. Qed.

(** A request bound to a synthetic OAuth route whose model then gets a route of
    its own keeps the synthetic route, with candidates in tier 0 for which the
    new snapshot has no cursor; selecting from them is an internal error. *)
Theorem replanned_route_without_cursor : exists p1 s2 p2 b l, replan_sample = Ret (p1, s2, p2) /\
  pl_synthetic p1 = true /\ pl_tiers p2 !! 0 = Some (b :: l) /\
  cursor_of (pl_route_id p2) 0 (sn_cursors s2) = None.
Proof.
  pose proof replan_check_true as Hc. unfold replan_check in Hc.
  destruct replan_sample as [[[p1 s2] p2]|]; [|discriminate Hc].
  rewrite !andb_true_iff, !bool_decide_eq_true in Hc. destruct Hc as (((((H1 & _) & _) & H2) & H3) & _).
  destruct (pl_tiers p2 !! 0) as [[|b l]|] eqn:Et; [discriminate H2| |discriminate H2].
  exists p1, s2, p2, b, l. split; [reflexivity|]. split; [exact H1|]. split; [exact Et|exact H3].
Qed.

(** The candidate set cached before the token of its only credential expired is
    served after it expired. *)
Definition expired_check : bool :=
  match planning_bound [] planning_runtime with
  | Panic => false
  | Ret (s, rt) =>
    match plan_sample s rt 0 with
    | Ret (Ok _, st) =>
      match @plan_decoded unit sample_uuid (fun _ => 200) planning_protocols sample_providers s
              planning_request "gpt" true st,
            plan_sample s rt 200 with
      | Ret (Ok p, _), Ret (Err _, _) => bool_decide (length <$> (pl_tiers p !! 0) = Some 1%nat)
      | _, _ => false
      end
    | _ => false
    end
  end.
Lemma expired_candidates_cached : expired_check = true.
Proof. vm_compute. reflexivity. Qed.

Lemma planning_specs_compiled :
  @compile_stored sample_uuid sample_codec (fun _ => 0) [sample_endpoint] sample_proxies
    sample_providers [] [planning_account] [] [sample_document] = Ok planning_specs.
Proof. unfold planning_specs. destruct (compile_stored _ _ _ _ _ _ _ _) eqn:E; [done|vm_compute in E; discriminate]. Qed.

Lemma planning_bound_ok routes s rt : NoDup (route_key <$> routes) ->
  planning_bound routes planning_runtime = Ret (s, rt) -> @snapshot_ok sample_uuid s.
Proof.
  intros Hnd Hb. eapply (@bound_snapshot_ok sample_uuid sample_codec (fun _ => 0) elements (fun _ => 0)
    sample_providers [] [planning_account] [] [sample_document] (planning_prepared routes)
    planning_runtime s rt); [reflexivity|apply cursor_registry_new_wf|exact Hnd| | | |exact Hb].
  - apply NoDup_nil_2.
  - apply NoDup_singleton.
  - apply planning_specs_compiled.
Qed.



(** The same request planned again on the same snapshot *)
Definition replanned_sample : outcome (PublishedSnapshot * PlannedRequest (H := unit) * PlannedRequest (H := unit) * PlanningState) :=
  '(s, rt) ← planning_bound [] planning_runtime;
  '(r, _) ← plan_sample s rt 5;
  match r with
  | Ok p =>
    '(r, st) ← @replan unit sample_uuid (fun _ => 5) planning_protocols sample_providers s p FixedRoute true
      (∅, rr_health rt, rr_store rt);
    match r with Ok p' => Ret (s, p, p', st) | Err _ => Panic end
  | Err _ => Panic
  end.
Definition replanned_check : bool :=
  match replanned_sample with
  | Ret (s, p, p', _) => bool_decide (length <$> (pl_tiers p' !! 0) = Some 1%nat)
  | Panic => false
  end.
Lemma replanned_check_true : replanned_check = true.
Proof. vm_compute. reflexivity. Qed.

Lemma replan_keeps_route_witness : exists p p' : PlannedRequest (H := unit),
  p' = with_tiers p (pl_tiers p') /\ pl_tiers p' <> ∅.
Proof.
  pose proof replanned_check_true as Hc. unfold replanned_check in Hc.
  destruct replanned_sample as [[[[s p] p'] st']|] eqn:E; [|discriminate Hc].
  exists p, p'. split.
  - unfold replanned_sample in E.
    destruct (planning_bound [] planning_runtime) as [[s0 rt]|] eqn:Eb; [|discriminate E].
    change (('(r, _) ← plan_sample s0 rt 5;
      match r with
      | Ok p =>
        '(r, st) ← @replan unit sample_uuid (fun _ => 5) planning_protocols sample_providers s0 p FixedRoute
          true (∅, rr_health rt, rr_store rt);
        match r with Ok p' => Ret (s0, p, p', st) | Err _ => Panic end
      | Err _ => Panic
      end) = Ret (s, p, p', st')) in E.
    destruct (plan_sample s0 rt 5) as [[[q|] st]|]; [|discriminate E..].
    change (('(r, st) ← @replan unit sample_uuid (fun _ => 5) planning_protocols sample_providers s0 q
      FixedRoute true (∅, rr_health rt, rr_store rt);
      match r with Ok p' => Ret (s0, q, p', st) | Err _ => Panic end) = Ret (s, p, p', st')) in E.
    destruct (replan _ _ _ _ _ _ _ _) as [[[q'|] st1]|] eqn:Er; [|discriminate E..].
    change (Ret (s0, q, q', st1) = Ret (s, p, p', st')) in E. injection E as -> -> -> ->.
    pose proof (bound_state_ok _ _ _ _ _ _ Eb) as Hst.
    apply planning_bound_ok in Eb as Hs; [|apply NoDup_nil_2].
    exact (proj1 (replan_keeps_route (fun _ => 0) (fun _ => 5) (fun _ => ltac:(cbv beta; lia)) _ _ _ Hs _ _ _ _ _ _ Hst Er)).
  - intros E'. rewrite E', lookup_empty in Hc. discriminate Hc.
Defined.

Definition auth_key : GatewayApiKey :=
  {| gk_id := 3; gk_name := "k"; gk_token := ""; gk_token_prefix := "sk-";
     gk_token_hash := token_digest (fun b => b)
       "sk-0123456789012345678901234567890123456789abc"; gk_hash_version := 2;
     gk_token_version := 5; gk_config_version := 1; gk_rpm := None; gk_enabled := true;
     gk_created_at := "t"; gk_last_used_at := None |}.
Definition auth_snapshot : PublishedSnapshot :=
  {| sn_revision := 1;
     sn_view := {| view_endpoints := []; view_proxies := sample_proxies; view_routes := [];
                   view_credentials := []; view_health := {| bound_endpoints := ∅; bound_proxies := ∅ |} |};
     sn_keys := [auth_key]; sn_models := {| allowed_models := None; fast_enabled := true |};
     sn_key_index := key_index [auth_key]; sn_key_rates := ∅; sn_cursors := ∅;
     sn_fallback_on_rate_limit := true; sn_affinity_enabled := true |}.

Lemma gateway_key_authenticates_exactly_witness :
  authenticate_gateway_api_key (fun b => b) auth_snapshot "sk-0123456789012345678901234567890123456789abc" =
    Some {| proof_key := 3; proof_token_version := 5 |} /\
  live_validate {| proof_key := 3; proof_token_version := 4 |} auth_snapshot <> Ok ().
Proof.
  split.
  - apply gateway_key_authenticates_exactly; [apply NoDup_singleton|apply NoDup_singleton|reflexivity|].
    split; [vm_compute; reflexivity|]. exists auth_key. split; [left|]. split_and!; reflexivity.
  - intros H0. apply (gateway_key_authenticates_exactly (fun b => b) auth_snapshot "") in H0;
      [|apply NoDup_singleton|apply NoDup_singleton|reflexivity].
    destruct H0 as (k & Hk & _ & _ & Hv). apply list_elem_of_singleton in Hk as ->. discriminate Hv.
Defined.

(** The candidates built for the sample route *)
Definition sample_requirements : CandidateRequirements :=
  {| req_operation := Responses; req_profile := Standard; req_transport := Json |}.
Definition sorted_check (v : RoutingView) : bool :=
  forallb (fun c => bool_decide (length (pj_models (rc_projection c)) <= 1)%nat) (view_credentials v).
Lemma sorted_check_ok v : sorted_check v = true -> view_sorted v.
Proof.
  intros Hc c Hin. unfold sorted_check in Hc. rewrite forallb_forall in Hc.
  specialize (Hc c (proj1 (list_elem_of_In _ _) Hin)). apply bool_decide_eq_true in Hc.
  destruct (pj_models (rc_projection c)) as [|m [|m' l]]; simpl in Hc; [constructor|repeat constructor|lia].
Qed.
Definition built_check : bool :=
  match planning_bound [planning_route] planning_runtime with
  | Ret (s, rt) =>
    sorted_check (sn_view s) &&
    match @build_route_candidates sample_uuid (fun _ => 5) planning_protocols sample_providers (sn_view s)
            planning_route sample_requirements (rr_health rt) (rr_store rt) with
    | Ret (tiers, _, _) => bool_decide (length <$> (tiers !! 0) = Some 1%nat)
    | Panic => false
    end
  | Panic => false
  end.
Lemma built_check_true : built_check = true.
Proof. vm_compute. reflexivity. Qed.
Lemma route_candidates_exact_witness : exists v tiers reg slots,
  @route_offers sample_uuid (fun _ => 5) planning_protocols sample_providers v sample_requirements
    planning_route slots /\
  Forall2 (placed v sample_requirements reg) (filter (fun s => slot_tier s = 0) slots)
    (default [] (tiers !! 0)) /\ tiers <> (∅ : gmap Z (list BuiltCandidate)).
Proof.
  pose proof built_check_true as Hc. unfold built_check in Hc.
  destruct (planning_bound _ _) as [[s rt]|]; [|discriminate Hc].
  apply andb_true_iff in Hc as [Hs%sorted_check_ok Hc].
  destruct (build_route_candidates _ _ _ _ _ _ _ _) as [[[tiers reg] h]|] eqn:E; [|discriminate Hc].
  destruct (route_candidates_exact _ _ _ _ _ _ _ _ _ _ _ Hs E) as (_ & slots & Hslots & Hk).
  exists (sn_view s), tiers, reg, slots. split; [exact Hslots|]. split; [apply Hk|].
  intros ->. rewrite lookup_empty in Hc. discriminate Hc.
Defined.
