(* ===== verification/Mutations.v ===== *)
(** * What a configuration mutation prepares

    The pure half of the [storage] crate's mutations: for each kind of entity,
    the mutation that is asked for, the configuration it would give and the
    change of the database that realises it ([proxy/mutation.rs],
    [provider/endpoint/mutation.rs], [provider/credential/mutation.rs] and
    [secret_mutation.rs], [gateway_api_key/mutation.rs], [oauth_account/mutation.rs],
    [settings/repository.rs] and [model_allowlist.rs]), with the secrets they check
    ([provider/credential/api_key.rs], [proxy/password.rs],
    [oauth_account/document.rs], [gateway_api_key/token.rs]).

    [str::to_lowercase], SHA-256, the UUIDs of derived routes and the JSON reader of
    an OAuth document are parameters. *)
From S2P Require Import Prelude Search Protocol Text Upstream OAuthErrors Entities Catalog Routes Drivers Cost SettingKeys Settings.
Local Open Scope Z_scope.

(** * Errors *)

Inductive ConfigurationWriteComponent :=
  ComponentRevision | ComponentGatewayApiKeys | ComponentProxyProfiles | ComponentOAuthAccounts
| ComponentProviderCredentials | ComponentProviderEndpoints | ComponentModelRoutes | ComponentSettings.

Inductive ProxyPasswordValidationError := PasswordEmpty | PasswordTooLong | PasswordNotUtf8.
Inductive ProviderApiKeyValidationError := ApiKeyEmpty | ApiKeyTooLong | ApiKeyInvalidCharacters.
Inductive OAuthAccountDocumentValidationError :=
  DocumentEmpty | DocumentTooLarge | DocumentInvalidJson | DocumentProviderMismatch | DocumentMissingAccessToken.

(** [StorageError], as far as configurations go *)
Inductive StorageError :=
| StorageDatabase
| IndeterminateConfigurationCommit
| StorageInvalidRevision (revision : Z)
| StorageRevisionConflict (expected actual : Z)
| StorageRevisionOverflow
| ConfigurationWriteMismatch (component : ConfigurationWriteComponent)
| StorageProxyNotFound (id : Z)
| StorageProxyProtected
| StorageProxyInUse
| StorageProxyReferenced
| StorageProxyDisabled
| StorageProxyNameConflict
| StorageProxyValidation (error : ProxyValidationError)
| StorageProxyPassword (error : ProxyPasswordValidationError)
| StorageEndpointNotFound (id : Z)
| StorageEndpointVersionConflict (expected actual : Z)
| StorageEndpointNameConflict
| StorageEndpointValidation (error : ProviderEndpointValidationError)
| StorageModelRouteValidation (error : ModelRouteValidationError)
| StorageCredentialNotFound (id : Z)
| StorageCredentialVersionConflict (expected actual : Z)
| StorageCredentialSecretVersionConflict (expected actual : Z)
| StorageCredentialLabelConflict
| StorageCredentialValidation (error : ProviderCredentialValidationError)
| StorageApiKey (error : ProviderApiKeyValidationError)
| StorageAccountNotFound (id : Z)
| StorageAccountVersionConflict (expected actual : Z)
| StorageAccountTokenVersionConflict (expected actual : Z)
| StorageAccountLabelConflict
| StorageAccountValidation (error : OAuthAccountValidationError)
| StorageDocument (error : OAuthAccountDocumentValidationError)
| StorageKeyNotFound (id : Z)
| StorageKeyVersionConflict (expected actual : Z)
| StorageKeyTokenVersionConflict (expected actual : Z)
| StorageKeyNameConflict
| StorageKeyValidation (error : GatewayApiKeyValidationError)
| StorageInvalidToken
| CorruptConfiguration
| StorageSettingsValidation (error : SettingsValidationError).

(** [?] on a [Result], with the error converted *)
Notation "x ⇐ m ; f" := (match m with Ok x => f | Err e => Err e end)
  (at level 20, m at level 100, f at level 200, only parsing).

(** [Result::map] with [Some] *)
Definition changed {A E} (r : result A E) : result (option A) E :=
  match r with Ok a => Ok (Some a) | Err e => Err e end.

Abbreviation bytes := (list Byte.byte) (only parsing).

(** Lists of entities: replacing and removing by identifier *)
Definition replace_by {A} (id_of : A -> Z) (x : A) (l : list A) : list A :=
  (fun y => if id_of y =? id_of x then x else y) <$> l.
Definition remove_by {A} (id_of : A -> Z) (id : Z) (l : list A) : list A :=
  filter (fun y => id_of y <> id) l.

#[export] Instance bytes_eq_dec : EqDecision Byte.byte := Byte.byte_eq_dec.
#[export] Instance fingerprint_eq_dec : EqDecision CredentialSecretFingerprint.
Proof. solve_decision. Defined.
#[export] Instance endpoint_eq_dec : EqDecision ProviderEndpoint.
Proof. solve_decision. Defined.
#[export] Instance credential_eq_dec : EqDecision ProviderCredential.
Proof. solve_decision. Defined.
#[export] Instance proxy_profile_eq_dec : EqDecision ProxyProfile.
Proof. solve_decision. Defined.
#[export] Instance proxy_configuration_eq_dec : EqDecision ProxyConfiguration.
Proof. solve_decision. Defined.
#[export] Instance gateway_key_eq_dec : EqDecision GatewayApiKey.
Proof. solve_decision. Defined.
#[export] Instance account_eq_dec : EqDecision OAuthAccount.
Proof. solve_decision. Defined.
#[export] Instance scheduler_settings_eq_dec : EqDecision SchedulerSettings.
Proof. solve_decision. Defined.
#[export] Instance affinity_settings_eq_dec : EqDecision AffinitySettings.
Proof. solve_decision. Defined.
#[export] Instance reliability_settings_eq_dec : EqDecision ReliabilitySettings.
Proof. solve_decision. Defined.
#[export] Instance admin_settings_eq_dec : EqDecision AdminSettings.
Proof. solve_decision. Defined.
#[export] Instance logging_settings_eq_dec : EqDecision LoggingSettings.
Proof. solve_decision. Defined.
#[export] Instance model_settings_eq_dec : EqDecision ModelSettings.
Proof. solve_decision. Defined.
#[export] Instance oauth_settings_eq_dec : EqDecision OAuthSettings.
Proof. solve_decision. Defined.
#[export] Instance upstream_settings_eq_dec : EqDecision UpstreamSettings.
Proof. solve_decision. Defined.
#[export] Instance stream_settings_eq_dec : EqDecision StreamSettings.
Proof. solve_decision. Defined.
#[export] Instance shutdown_settings_eq_dec : EqDecision ShutdownSettings.
Proof. solve_decision. Defined.
#[export] Instance network_settings_eq_dec {nets : IpNetLib} : EqDecision NetworkSettings.
Proof. solve_decision. Defined.
#[export] Instance settings_eq_dec {nets : IpNetLib} : EqDecision SettingsConfiguration.
Proof. solve_decision. Defined.

(** * Secrets *)

Definition MAX_PROXY_PASSWORD_BYTES : Z := 255.
(** [proxy/password.rs]: [validate] *)
Definition password_validate (secret : bytes) : result () StorageError :=
  if bool_decide (secret = []) then Err (StorageProxyPassword PasswordEmpty)
  else if MAX_PROXY_PASSWORD_BYTES <? Zlen secret then Err (StorageProxyPassword PasswordTooLong)
  else match from_utf8 secret with
       | None => Err (StorageProxyPassword PasswordNotUtf8)
       | Some _ => Ok ()
       end.

Definition MAX_API_KEY_BYTES : Z := 8192.
Definition FINGERPRINT_DOMAIN : bytes := bytes_of "any2api-provider-credential-fingerprint-v2".
Definition byte_code (b : Byte.byte) : Z := Z.of_N (Byte.to_N b).
(** [api_key.rs]: [validate], [provider_kind_code], [credential_kind_code] *)
Definition api_key_validate (value : bytes) : result () StorageError :=
  if bool_decide (value = []) then Err (StorageApiKey ApiKeyEmpty)
  else if MAX_API_KEY_BYTES <? Zlen value then Err (StorageApiKey ApiKeyTooLong)
  else if negb (forallb (fun b => in_range 33 126 (byte_code b)) value)
  then Err (StorageApiKey ApiKeyInvalidCharacters)
  else Ok ().
Definition provider_kind_code (p : ProviderKind) : Byte.byte :=
  match p with
  | Codex => Byte.x01 | Claude => Byte.x02 | Grok => Byte.x03 | Kimi => Byte.x04 | OpenAi => Byte.x05
  end.
Definition credential_kind_code (k : CredentialKind) : Byte.byte := match k with ApiKey => Byte.x01 end.

Definition MAX_OAUTH_ACCOUNT_JSON_BYTES : Z := 64 * 1024.
Record OAuthAccountDocument := { doc_provider : ProviderKind; doc_bytes : bytes }.

Definition DISPLAY_PREFIX_BYTES : nat := 16.

Section prepared.
Context (to_lowercase : string -> string) (sha256 : bytes -> bytes).
Context (route_ids : ProtocolDialect -> string -> Z) (target_ids : Z -> Z -> ProtocolDialect -> string -> Z).
(** What [serde_json] reads of a document: nothing when it is not a JSON object,
    else its [access_token] if that is a string *)
Context (access_token_of : bytes -> option (option string)).
Context {json : JsonLib} {nets : IpNetLib}.

(** [build_fingerprint]: the tail of a key of at least eight bytes *)
Definition build_fingerprint (provider : ProviderKind) (kind : CredentialKind) (secret : bytes)
    : result CredentialSecretFingerprint StorageError :=
  _ ⇐ api_key_validate secret;
  let tail := if 8 <=? Zlen secret
              then Some (String.string_of_list_byte (drop (length secret - 4) secret))
              else None in
  let digest := sha256 (FINGERPRINT_DOMAIN ++ [provider_kind_code provider] ++
                        [credential_kind_code kind] ++ secret) in
  map_err (fun _ => StorageApiKey ApiKeyInvalidCharacters)
    (fingerprint_restore CREDENTIAL_FINGERPRINT_VERSION digest tail).

(** [document.rs]: [validate], [OAuthAccountDocument::new] *)
Definition document_validate (l : bytes) : result () OAuthAccountDocumentValidationError :=
  if bool_decide (l = []) then Err DocumentEmpty
  else if MAX_OAUTH_ACCOUNT_JSON_BYTES <? Zlen l then Err DocumentTooLarge
  else match access_token_of l with
       | None => Err DocumentInvalidJson
       | Some None => Err DocumentMissingAccessToken
       | Some (Some token) => if bool_decide (trim token = "") then Err DocumentMissingAccessToken else Ok ()
       end.
Definition document_new (provider : ProviderKind) (l : bytes)
    : result OAuthAccountDocument OAuthAccountDocumentValidationError :=
  _ ⇐ document_validate l; Ok {| doc_provider := provider; doc_bytes := l |}.

(** [display_prefix], [utf8_token], and the hash of a token *)
Definition display_prefix (token : bytes) : result string StorageError :=
  match from_utf8 token with
  | None => Err StorageInvalidToken
  | Some value =>
    match validate_token value with
    | Err _ => Err StorageInvalidToken
    | Ok _ => Ok (String.substring 0 DISPLAY_PREFIX_BYTES value)
    end
  end.
Definition utf8_token (token : bytes) : result string StorageError :=
  match from_utf8 token with Some value => Ok value | None => Err StorageInvalidToken end.
Definition TOKEN_HASH_DOMAIN : bytes := bytes_of "any2api-gateway-api-key-token-hash-v2".
Definition verifier_hash (token : bytes) : bytes := sha256 (TOKEN_HASH_DOMAIN ++ token).

(** * Proxies *)

Inductive ProxyMutation :=
| ProxyCreate (id : Z) (draft : ProxyDraft)
| ProxyUpdate (id : Z) (draft : ProxyDraft)
| ProxyDelete (id : Z)
| ProxySetGlobal (id : Z).
Inductive ProxyChange :=
| InsertProxy (p : ProxyProfile) | UpdateProxy (p : ProxyProfile) | DeleteProxy (id : Z) | SetGlobal (id : Z).

(** [map_configuration_error] *)
Definition map_proxy_error (e : ProxyValidationError) : StorageError :=
  match e with
  | ProxyDuplicateName => StorageProxyNameConflict
  | GlobalProxyDisabled => StorageProxyInUse
  | other => StorageProxyValidation other
  end.

Definition create_proxy (c : ProxyConfiguration) (id : Z) (d : ProxyDraft)
    : result (ProxyConfiguration * ProxyChange) StorageError :=
  p ⇐ map_err StorageProxyValidation (proxy_create id d);
  c ⇐ map_err map_proxy_error (proxies_new to_lowercase (profiles c ++ [p]) (global_proxy_id c));
  Ok (c, InsertProxy p).
Definition update_proxy (c : ProxyConfiguration) (id : Z) (d : ProxyDraft)
    : result (option (ProxyConfiguration * ProxyChange)) StorageError :=
  match proxy_get c id with
  | None => Err (StorageProxyNotFound id)
  | Some existing =>
    if is_built_in existing then Err StorageProxyProtected
    else
      updated ⇐ map_err StorageProxyValidation (proxy_updated existing d);
      if bool_decide (updated = existing) then Ok None
      else if (global_proxy_id c =? id) && negb (px_enabled updated) then Err StorageProxyInUse
      else
        c ⇐ map_err map_proxy_error
              (proxies_new to_lowercase ((fun p => if px_id p =? id then updated else p) <$> profiles c)
                 (global_proxy_id c));
        Ok (Some (c, UpdateProxy updated))
  end.
Definition references_proxy (credentials : list ProviderCredential) (id : Z) : bool :=
  existsb (fun c => pc_proxy c =? id) credentials.
Definition delete_proxy (c : ProxyConfiguration) (credentials : list ProviderCredential) (id : Z)
    : result (ProxyConfiguration * ProxyChange) StorageError :=
  match proxy_get c id with
  | None => Err (StorageProxyNotFound id)
  | Some existing =>
    if is_built_in existing then Err StorageProxyProtected
    else if global_proxy_id c =? id then Err StorageProxyInUse
    else if references_proxy credentials id then Err StorageProxyReferenced
    else
      c ⇐ map_err map_proxy_error
            (proxies_new to_lowercase (remove_by px_id id (profiles c)) (global_proxy_id c));
      Ok (c, DeleteProxy id)
  end.
Definition set_global (c : ProxyConfiguration) (id : Z)
    : result (option (ProxyConfiguration * ProxyChange)) StorageError :=
  if global_proxy_id c =? id then Ok None
  else match proxy_get c id with
       | None => Err (StorageProxyNotFound id)
       | Some p =>
         if negb (px_enabled p) then Err StorageProxyDisabled
         else
           c ⇐ map_err map_proxy_error (proxies_new to_lowercase (profiles c) id);
           Ok (Some (c, SetGlobal id))
       end.
(** [proxy/mutation.rs]: [prepare_mutation] *)
Definition prepare_proxy (c : ProxyConfiguration) (credentials : list ProviderCredential) (m : ProxyMutation)
    : result (option (ProxyConfiguration * ProxyChange)) StorageError :=
  match m with
  | ProxyCreate id d => changed (create_proxy c id d)
  | ProxyUpdate id d => update_proxy c id d
  | ProxyDelete id => changed (delete_proxy c credentials id)
  | ProxySetGlobal id => set_global c id
  end.

(** [proxy/authentication.rs] *)
Inductive ProxyAuthenticationMutation :=
| AuthenticationSet (id : Z) (username : string) (password : bytes)
| AuthenticationClear (id : Z).
Definition editable_proxy (c : ProxyConfiguration) (id : Z) : result ProxyProfile StorageError :=
  match proxy_get c id with
  | None => Err (StorageProxyNotFound id)
  | Some p => if is_built_in p then Err StorageProxyProtected else Ok p
  end.

(** * Gateway keys *)

Inductive GatewayApiKeyMutation :=
| KeyCreate (id : Z) (draft : GatewayApiKeyDraft) (token : bytes) (created_at : string)
| KeyUpdate (id expected_config_version : Z) (draft : GatewayApiKeyDraft)
| KeyRotate (id expected_config_version expected_token_version : Z) (token : bytes)
| KeyDelete (id expected_config_version : Z).
Inductive GatewayApiKeyChange :=
| InsertKey (k : GatewayApiKey) | UpdateKey (k : GatewayApiKey) | RotateKey (k : GatewayApiKey)
| DeleteKey (id : Z).

(** [map_validation], [require_config_version] *)
Definition map_key_error (e : GatewayApiKeyValidationError) : StorageError :=
  match e with
  | KeyDuplicateName => StorageKeyNameConflict
  | KeyDuplicateId => CorruptConfiguration
  | other => StorageKeyValidation other
  end.
Definition require_key_version (current expected : Z) : result () StorageError :=
  if current =? expected then Ok () else Err (StorageKeyVersionConflict expected current).

Definition create_key (keys : list GatewayApiKey) (id : Z) (d : GatewayApiKeyDraft) (token : bytes)
    (created_at : string) : result (list GatewayApiKey * GatewayApiKeyChange) StorageError :=
  prefix ⇐ display_prefix token;
  plaintext ⇐ utf8_token token;
  k ⇐ map_err StorageKeyValidation (key_create id d plaintext prefix (verifier_hash token) created_at);
  keys ⇐ map_err map_key_error (keys_new (keys ++ [k]));
  Ok (keys, InsertKey k).
Definition update_key (keys : list GatewayApiKey) (id expected : Z) (d : GatewayApiKeyDraft)
    : result (option (list GatewayApiKey * GatewayApiKeyChange)) StorageError :=
  match key_get keys id with
  | None => Err (StorageKeyNotFound id)
  | Some existing =>
    _ ⇐ require_key_version (gk_config_version existing) expected;
    updated ⇐ map_err StorageKeyValidation (key_updated existing d);
    if bool_decide (updated = existing) then Ok None
    else
      keys ⇐ map_err map_key_error (keys_new (replace_by gk_id updated keys));
      Ok (Some (keys, UpdateKey updated))
  end.
Definition rotate_key (keys : list GatewayApiKey) (id expected expected_token : Z) (token : bytes)
    : result (list GatewayApiKey * GatewayApiKeyChange) StorageError :=
  match key_get keys id with
  | None => Err (StorageKeyNotFound id)
  | Some existing =>
    _ ⇐ require_key_version (gk_config_version existing) expected;
    if negb (gk_token_version existing =? expected_token)
    then Err (StorageKeyTokenVersionConflict expected_token (gk_token_version existing))
    else
      prefix ⇐ display_prefix token;
      plaintext ⇐ utf8_token token;
      rotated ⇐ map_err StorageKeyValidation (key_rotated existing plaintext prefix (verifier_hash token));
      keys ⇐ map_err map_key_error (keys_new (replace_by gk_id rotated keys));
      Ok (keys, RotateKey rotated)
  end.
Definition delete_key (keys : list GatewayApiKey) (id expected : Z)
    : result (list GatewayApiKey * GatewayApiKeyChange) StorageError :=
  match key_get keys id with
  | None => Err (StorageKeyNotFound id)
  | Some existing =>
    _ ⇐ require_key_version (gk_config_version existing) expected;
    keys ⇐ map_err map_key_error (keys_new (remove_by gk_id id keys));
    Ok (keys, DeleteKey id)
  end.
(** [gateway_api_key/mutation.rs]: [prepare] *)
Definition prepare_key (keys : list GatewayApiKey) (m : GatewayApiKeyMutation)
    : result (option (list GatewayApiKey * GatewayApiKeyChange)) StorageError :=
  match m with
  | KeyCreate id d token created_at => changed (create_key keys id d token created_at)
  | KeyUpdate id expected d => update_key keys id expected d
  | KeyRotate id expected expected_token token => changed (rotate_key keys id expected expected_token token)
  | KeyDelete id expected => changed (delete_key keys id expected)
  end.

(** * Model allowlist *)

(** [configured_public_models], [restrict_model_allowlist] *)
Definition configured_public_models (routes : list ModelRoute) (accounts : list OAuthAccount) : gset string :=
  list_to_set (route_public_model <$> filter (fun r => route_enabled r = true) routes) ∪
  list_to_set (accounts ≫= oa_models).
Definition restrict_model_allowlist (v : SettingValue) (routes : list ModelRoute)
    (accounts : list OAuthAccount) : SettingValue :=
  match v with
  | ModelAccessValue (Allowlist values) =>
    ModelAccessValue (Allowlist (filter (fun m => m ∈ configured_public_models routes accounts) values))
  | v => v
  end.
(** What [prune_model_allowlist] writes, if anything *)
Definition pruned_allowlist (s : SettingsConfiguration) (routes : list ModelRoute)
    (accounts : list OAuthAccount) : option SettingValue :=
  match overrides s !! ModelsAllowed with
  | Some (ModelAccessValue (Allowlist l)) =>
    let pruned := restrict_model_allowlist (ModelAccessValue (Allowlist l)) routes accounts in
    if bool_decide (pruned = ModelAccessValue (Allowlist l)) then None else Some pruned
  | _ => None
  end.

(** * Settings *)

Fixpoint apply_changes (routes : list ModelRoute) (accounts : list OAuthAccount)
    (changes : list SettingOverrideChange) (o : gmap SettingKey SettingValue)
    : result (gmap SettingKey SettingValue) SettingsValidationError :=
  match changes with
  | [] => Ok o
  | SetOverride key v :: changes =>
    let v := if bool_decide (key = ModelsAllowed) then restrict_model_allowlist v routes accounts else v in
    r ⇐ override_insert key v o; apply_changes routes accounts changes r.2
  | ResetOverride key :: changes => apply_changes routes accounts changes (override_remove key o).2
  end.
(** [prepare_changes] *)
Definition prepare_settings (current : SettingsConfiguration) (routes : list ModelRoute)
    (accounts : list OAuthAccount) (changes : list SettingOverrideChange)
    : result (option SettingsConfiguration) StorageError :=
  o ⇐ map_err StorageSettingsValidation (from_entries (map_to_list (overrides current)));
  o ⇐ map_err StorageSettingsValidation (apply_changes routes accounts changes o);
  s ⇐ map_err StorageSettingsValidation (from_overrides o);
  Ok (if bool_decide (s = current) then None else Some s).

(** * OAuth accounts *)

Inductive OAuthAccountMutation :=
| AccountCreate (id : Z) (provider : ProviderKind) (draft : OAuthAccountDraft) (proxy : OAuthProxySelection)
    (email : option string) (expires_at : option Z) (created_at : string) (models : list string)
    (document : OAuthAccountDocument)
| AccountReauthorize (id expected_token_version : Z) (proxy : OAuthProxySelection) (email : option string)
    (expires_at : option Z) (models : list string) (document : OAuthAccountDocument)
| AccountUpdate (id expected_config_version : Z) (draft : OAuthAccountDraft) (proxy : OAuthProxySelection)
| AccountSetModels (id expected_config_version : Z) (models : list string)
| AccountRefresh (id expected_token_version : Z) (email : option string) (expires_at : option Z)
    (document : OAuthAccountDocument)
| AccountDelete (id expected_config_version : Z).
Inductive OAuthAccountChange :=
| InsertAccount (a : OAuthAccount) (document : OAuthAccountDocument)
| ReauthorizeAccount (a : OAuthAccount) (expected_token_version : Z) (models_changed : bool)
    (document : OAuthAccountDocument)
| UpdateAccount (a : OAuthAccount)
| SetAccountModels (a : OAuthAccount)
| RefreshAccount (a : OAuthAccount) (expected_token_version : Z) (document : OAuthAccountDocument)
| DeleteAccount (id : Z).

(** [map_configuration_error], [replace_account] *)
Definition map_account_error (e : OAuthAccountValidationError) : StorageError :=
  match e with AccountDuplicateLabel => StorageAccountLabelConflict | other => StorageAccountValidation other end.
Definition replace_account (current : list OAuthAccount) (proxies : ProxyConfiguration)
    (replaced : option Z) (replacement : option OAuthAccount) : result (list OAuthAccount) StorageError :=
  map_err map_account_error
    (accounts_new to_lowercase
       (filter (fun a => Some (oa_id a) <> replaced) current ++ option_list replacement) proxies).
(** [require_token_version], [require_account_version], [require_document_provider] *)
Definition require_token_version (a : OAuthAccount) (expected : Z) : result () StorageError :=
  if oa_token_version a =? expected then Ok ()
  else Err (StorageAccountTokenVersionConflict expected (oa_token_version a)).
Definition require_account_version (current : list OAuthAccount) (id expected : Z)
    : result OAuthAccount StorageError :=
  match account_get current id with
  | None => Err (StorageAccountNotFound id)
  | Some a =>
    if negb (oa_config_version a =? expected)
    then Err (StorageAccountVersionConflict expected (oa_config_version a))
    else Ok a
  end.
Definition require_document_provider (d : OAuthAccountDocument) (p : ProviderKind)
    : result () StorageError :=
  if bool_decide (doc_provider d = p) then Ok () else Err (StorageDocument DocumentProviderMismatch).

(** [create], [update], [reauthorize], [set_models], [refresh], [delete] *)
Definition create_account (current : list OAuthAccount) (proxies : ProxyConfiguration) (id : Z)
    (provider : ProviderKind) (d : OAuthAccountDraft) (proxy : OAuthProxySelection) (email : option string)
    (expires_at : option Z) (created_at : string) (models : list string) (document : OAuthAccountDocument)
    : result (list OAuthAccount * OAuthAccountChange) StorageError :=
  _ ⇐ require_document_provider document provider;
  a ⇐ map_err StorageAccountValidation
        (account_create id provider d proxy email expires_at created_at models);
  c ⇐ replace_account current proxies None (Some a);
  Ok (c, InsertAccount a document).
Definition update_account (current : list OAuthAccount) (proxies : ProxyConfiguration) (id expected : Z)
    (d : OAuthAccountDraft) (proxy : OAuthProxySelection)
    : result (option (list OAuthAccount * OAuthAccountChange)) StorageError :=
  existing ⇐ require_account_version current id expected;
  updated ⇐ map_err StorageAccountValidation (account_updated existing d proxy);
  if bool_decide (updated = existing) then Ok None
  else c ⇐ replace_account current proxies (Some id) (Some updated); Ok (Some (c, UpdateAccount updated)).
Definition reauthorize_account (current : list OAuthAccount) (proxies : ProxyConfiguration)
    (id expected : Z) (proxy : OAuthProxySelection) (email : option string) (expires_at : option Z)
    (models : list string) (document : OAuthAccountDocument)
    : result (list OAuthAccount * OAuthAccountChange) StorageError :=
  match account_get current id with
  | None => Err (StorageAccountNotFound id)
  | Some existing =>
    _ ⇐ require_token_version existing expected;
    _ ⇐ require_document_provider document (oa_provider existing);
    updated ⇐ map_err StorageAccountValidation (account_reauthorized existing proxy email expires_at models);
    let models_changed := negb (bool_decide (oa_models updated = oa_models existing)) in
    c ⇐ replace_account current proxies (Some id) (Some updated);
    Ok (c, ReauthorizeAccount updated expected models_changed document)
  end.
Definition set_account_models (current : list OAuthAccount) (proxies : ProxyConfiguration)
    (id expected : Z) (models : list string)
    : result (option (list OAuthAccount * OAuthAccountChange)) StorageError :=
  existing ⇐ require_account_version current id expected;
  updated ⇐ map_err StorageAccountValidation (account_with_models existing models);
  if bool_decide (updated = existing) then Ok None
  else c ⇐ replace_account current proxies (Some id) (Some updated); Ok (Some (c, SetAccountModels updated)).
Definition refresh_account (current : list OAuthAccount) (proxies : ProxyConfiguration)
    (id expected : Z) (email : option string) (expires_at : option Z) (document : OAuthAccountDocument)
    : result (list OAuthAccount * OAuthAccountChange) StorageError :=
  match account_get current id with
  | None => Err (StorageAccountNotFound id)
  | Some existing =>
    _ ⇐ require_token_version existing expected;
    _ ⇐ require_document_provider document (oa_provider existing);
    updated ⇐ map_err StorageAccountValidation (account_refreshed existing email expires_at);
    c ⇐ replace_account current proxies (Some id) (Some updated);
    Ok (c, RefreshAccount updated expected document)
  end.
Definition delete_account (current : list OAuthAccount) (proxies : ProxyConfiguration) (id expected : Z)
    : result (list OAuthAccount * OAuthAccountChange) StorageError :=
  _ ⇐ require_account_version current id expected;
  c ⇐ replace_account current proxies (Some id) None;
  Ok (c, DeleteAccount id).
(** [oauth_account/mutation.rs]: [prepare_oauth_account_mutation] *)
Definition prepare_account (current : list OAuthAccount) (proxies : ProxyConfiguration)
    (m : OAuthAccountMutation) : result (option (list OAuthAccount * OAuthAccountChange)) StorageError :=
  match m with
  | AccountCreate id provider d proxy email expires_at created_at models document =>
    changed (create_account current proxies id provider d proxy email expires_at created_at models document)
  | AccountReauthorize id expected proxy email expires_at models document =>
    changed (reauthorize_account current proxies id expected proxy email expires_at models document)
  | AccountUpdate id expected d proxy => update_account current proxies id expected d proxy
  | AccountSetModels id expected models => set_account_models current proxies id expected models
  | AccountRefresh id expected email expires_at document =>
    changed (refresh_account current proxies id expected email expires_at document)
  | AccountDelete id expected => changed (delete_account current proxies id expected)
  end.

(** * Provider endpoints *)

Inductive ProviderEndpointMutation :=
| EndpointCreate (id : Z) (draft : ProviderEndpointDraft)
| EndpointUpdate (id expected_config_version : Z) (draft : ProviderEndpointDraft)
| EndpointDelete (id : Z).
Inductive ProviderEndpointChange :=
| InsertEndpoint (e : ProviderEndpoint) | UpdateEndpoint (e : ProviderEndpoint) | DeleteEndpoint (id : Z).
Record PreparedEndpoint := {
  next_endpoints : list ProviderEndpoint;
  next_credentials : list ProviderCredential;
  next_routes : option (list ModelRoute);
  endpoint_change : ProviderEndpointChange;
  credential_rows_changed : bool;
  bump_credential_generations : bool
}.
(** [endpoint_id], [deletes_endpoint] *)
Definition prepared_endpoint_id (p : PreparedEndpoint) : Z :=
  match endpoint_change p with InsertEndpoint e | UpdateEndpoint e => ep_id e | DeleteEndpoint id => id end.
Definition deletes_endpoint (p : PreparedEndpoint) : bool :=
  match endpoint_change p with DeleteEndpoint _ => true | _ => false end.

(** [map_validation], [references_endpoint] *)
Definition map_endpoint_error (e : ProviderEndpointValidationError) : StorageError :=
  match e with EndpointDuplicateName => StorageEndpointNameConflict | other => StorageEndpointValidation other end.
Definition references_endpoint (credentials : list ProviderCredential) (id : Z) : bool :=
  existsb (fun c => pc_endpoint c =? id) credentials.

Definition create_endpoint (current : list ProviderEndpoint) (credentials : list ProviderCredential)
    (id : Z) (d : ProviderEndpointDraft) : result PreparedEndpoint StorageError :=
  e ⇐ map_err StorageEndpointValidation (endpoint_create id d);
  endpoints ⇐ map_err map_endpoint_error (endpoints_new to_lowercase (current ++ [e]));
  Ok {| next_endpoints := endpoints; next_credentials := credentials; next_routes := None;
        endpoint_change := InsertEndpoint e; credential_rows_changed := false;
        bump_credential_generations := false |}.
Definition update_endpoint (current : list ProviderEndpoint) (credentials : list ProviderCredential)
    (proxies : ProxyConfiguration) (id expected : Z) (d : ProviderEndpointDraft)
    : outcome (result (option PreparedEndpoint) StorageError) :=
  match endpoint_get current id with
  | None => Ret (Err (StorageEndpointNotFound id))
  | Some existing =>
    if negb (ep_config_version existing =? expected)
    then Ret (Err (StorageEndpointVersionConflict expected (ep_config_version existing)))
    else
      match endpoint_updated existing d with
      | Err e => Ret (Err (StorageEndpointValidation e))
      | Ok updated =>
        if bool_decide (updated = existing) then Ret (Ok None)
        else
          let has_credentials := references_endpoint credentials id in
          let base_url_changed := negb (bool_decide (ep_base_url existing = ep_base_url updated)) in
          let protocol_changed := negb (bool_decide (ep_dialect existing = ep_dialect updated)) ||
                                  negb (bool_decide (ep_upstream existing = ep_upstream updated)) in
          let identity_changed := base_url_changed || protocol_changed in
          match endpoints_new to_lowercase
                  ((fun e => if ep_id e =? id then updated else e) <$> current) with
          | Err e => Ret (Err (map_endpoint_error e))
          | Ok endpoints =>
            match (if has_credentials && identity_changed
                   then map_err (fun _ => CorruptConfiguration)
                          (with_endpoint_generation_incremented to_lowercase credentials id endpoints proxies)
                   else Ok credentials) with
            | Err e => Ret (Err e)
            | Ok next =>
              routes ← (if protocol_changed
                        then r ← from_credentials route_ids target_ids next endpoints;
                             Ret (changed r)
                        else Ret (Ok None));
              Ret (routes ⇐ map_err StorageModelRouteValidation routes;
                   Ok (Some {| next_endpoints := endpoints; next_credentials := next;
                               next_routes := routes; endpoint_change := UpdateEndpoint updated;
                               credential_rows_changed := false;
                               bump_credential_generations := has_credentials && identity_changed |}))
            end
          end
      end
  end.
Definition delete_endpoint (current : list ProviderEndpoint) (credentials : list ProviderCredential)
    (proxies : ProxyConfiguration) (id : Z) : outcome (result PreparedEndpoint StorageError) :=
  match endpoint_get current id with
  | None => Ret (Err (StorageEndpointNotFound id))
  | Some _ =>
    match endpoints_new to_lowercase (remove_by ep_id id current) with
    | Err e => Ret (Err (map_endpoint_error e))
    | Ok endpoints =>
      match credentials_new to_lowercase (remove_by pc_endpoint id credentials) endpoints proxies with
      | Err _ => Ret (Err CorruptConfiguration)
      | Ok next =>
        routes ← from_credentials route_ids target_ids next endpoints;
        Ret (routes ⇐ map_err StorageModelRouteValidation routes;
             Ok {| next_endpoints := endpoints; next_credentials := next; next_routes := Some routes;
                   endpoint_change := DeleteEndpoint id;
                   credential_rows_changed := references_endpoint credentials id;
                   bump_credential_generations := false |})
      end
    end
  end.
(** [endpoint/mutation.rs]: [prepare_provider_endpoint_mutation] *)
Definition prepare_endpoint (current : list ProviderEndpoint) (credentials : list ProviderCredential)
    (proxies : ProxyConfiguration) (m : ProviderEndpointMutation)
    : outcome (result (option PreparedEndpoint) StorageError) :=
  match m with
  | EndpointCreate id d => Ret (changed (create_endpoint current credentials id d))
  | EndpointUpdate id expected d => update_endpoint current credentials proxies id expected d
  | EndpointDelete id => r ← delete_endpoint current credentials proxies id; Ret (changed r)
  end.

(** * Provider credentials *)

Inductive ProviderCredentialMutation :=
| CredentialCreate (id endpoint : Z) (draft : ProviderCredentialDraft) (api_key : bytes)
| CredentialUpdate (id expected_config_version : Z) (draft : ProviderCredentialDraft)
| CredentialRotate (id expected_config_version expected_secret_version : Z) (api_key : bytes)
| CredentialSetModels (id expected_config_version : Z) (models : list ProviderCredentialModel)
| CredentialDelete (id expected_config_version : Z).
Inductive ProviderCredentialChange :=
| InsertCredential (c : ProviderCredential) (api_key : bytes)
| UpdateCredential (c : ProviderCredential)
| RotateCredential (c : ProviderCredential) (api_key : bytes)
| SetCredentialModels (c : ProviderCredential)
| DeleteCredential (id : Z).
Record PreparedCredential := {
  prepared_credentials : list ProviderCredential;
  credential_change : ProviderCredentialChange;
  prepared_routes : option (list ModelRoute)
}.

(** [map_validation], [replace], [require_config_version] *)
Definition map_credential_error (e : ProviderCredentialValidationError) : StorageError :=
  match e with
  | DuplicateLabel => StorageCredentialLabelConflict
  | CredentialMissingEndpoint | CredentialMissingProxy => CorruptConfiguration
  | other => StorageCredentialValidation other
  end.
Definition replace_credential (current : list ProviderCredential) (endpoints : list ProviderEndpoint)
    (proxies : ProxyConfiguration) (updated : ProviderCredential)
    : result (list ProviderCredential) StorageError :=
  map_err map_credential_error
    (credentials_new to_lowercase (replace_by pc_id updated current) endpoints proxies).
Definition require_credential_version (c : ProviderCredential) (expected : Z) : result () StorageError :=
  if pc_config_version c =? expected then Ok ()
  else Err (StorageCredentialVersionConflict expected (pc_config_version c)).
Definition existing_credential (current : list ProviderCredential) (id expected : Z)
    : result ProviderCredential StorageError :=
  match credential_get current id with
  | None => Err (StorageCredentialNotFound id)
  | Some c => _ ⇐ require_credential_version c expected; Ok c
  end.
(** [with_model_routes] of what [from_credentials] derives *)
Definition with_model_routes (endpoints : list ProviderEndpoint) (p : PreparedCredential)
    : outcome (result PreparedCredential StorageError) :=
  routes ← from_credentials route_ids target_ids (prepared_credentials p) endpoints;
  Ret (routes ⇐ map_err StorageModelRouteValidation routes;
       Ok {| prepared_credentials := prepared_credentials p; credential_change := credential_change p;
             prepared_routes := Some routes |}).

(** [secret_mutation.rs]: [create], [rotate_secret] *)
Definition create_credential (current : list ProviderCredential) (endpoints : list ProviderEndpoint)
    (proxies : ProxyConfiguration) (id endpoint : Z) (d : ProviderCredentialDraft) (api_key : bytes)
    : result PreparedCredential StorageError :=
  match endpoint_get endpoints endpoint with
  | None => Err (StorageEndpointNotFound endpoint)
  | Some e =>
    fingerprint ⇐ build_fingerprint (ep_provider e) (cd_kind d) api_key;
    let c := credential_create id endpoint d fingerprint in
    credentials ⇐ map_err map_credential_error
                    (credentials_new to_lowercase (current ++ [c]) endpoints proxies);
    Ok {| prepared_credentials := credentials; credential_change := InsertCredential c api_key;
          prepared_routes := None |}
  end.
Definition rotate_secret (current : list ProviderCredential) (endpoints : list ProviderEndpoint)
    (proxies : ProxyConfiguration) (id expected expected_secret : Z) (api_key : bytes)
    : result PreparedCredential StorageError :=
  existing ⇐ existing_credential current id expected;
  if negb (pc_secret_version existing =? expected_secret)
  then Err (StorageCredentialSecretVersionConflict expected_secret (pc_secret_version existing))
  else
    match endpoint_get endpoints (pc_endpoint existing) with
    | None => Err CorruptConfiguration
    | Some e =>
      fingerprint ⇐ build_fingerprint (ep_provider e) (pc_kind existing) api_key;
      rotated ⇐ map_err StorageCredentialValidation (credential_rotated existing fingerprint);
      credentials ⇐ replace_credential current endpoints proxies rotated;
      Ok {| prepared_credentials := credentials; credential_change := RotateCredential rotated api_key;
            prepared_routes := None |}
    end.

(** [mutation.rs]: [update], [set_models], [delete] *)
Definition update_credential (current : list ProviderCredential) (endpoints : list ProviderEndpoint)
    (proxies : ProxyConfiguration) (id expected : Z) (d : ProviderCredentialDraft)
    : result (option PreparedCredential) StorageError :=
  existing ⇐ existing_credential current id expected;
  updated ⇐ map_err StorageCredentialValidation (credential_updated existing d);
  if bool_decide (updated = existing) then Ok None
  else
    credentials ⇐ replace_credential current endpoints proxies updated;
    Ok (Some {| prepared_credentials := credentials; credential_change := UpdateCredential updated;
                prepared_routes := None |}).
Definition set_credential_models (current : list ProviderCredential) (endpoints : list ProviderEndpoint)
    (proxies : ProxyConfiguration) (id expected : Z) (models : list ProviderCredentialModel)
    : outcome (result (option PreparedCredential) StorageError) :=
  match (existing ⇐ existing_credential current id expected;
         updated ⇐ map_err StorageCredentialValidation (credential_with_models existing models);
         if bool_decide (updated = existing) then Ok None
         else
           credentials ⇐ replace_credential current endpoints proxies updated;
           Ok (Some {| prepared_credentials := credentials;
                       credential_change := SetCredentialModels updated; prepared_routes := None |})) with
  | Err e => Ret (Err e)
  | Ok None => Ret (Ok None)
  | Ok (Some p) => r ← with_model_routes endpoints p; Ret (changed r)
  end.
Definition delete_credential (current : list ProviderCredential) (endpoints : list ProviderEndpoint)
    (proxies : ProxyConfiguration) (id expected : Z) : outcome (result PreparedCredential StorageError) :=
  match (_ ⇐ existing_credential current id expected;
         credentials ⇐ map_err map_credential_error
                         (credentials_new to_lowercase (remove_by pc_id id current) endpoints proxies);
         Ok {| prepared_credentials := credentials; credential_change := DeleteCredential id;
               prepared_routes := None |}) with
  | Err e => Ret (Err e)
  | Ok p => with_model_routes endpoints p
  end.
(** [credential/mutation.rs]: [prepare_provider_credential_mutation] *)
Definition prepare_credential (current : list ProviderCredential) (endpoints : list ProviderEndpoint)
    (proxies : ProxyConfiguration) (m : ProviderCredentialMutation)
    : outcome (result (option PreparedCredential) StorageError) :=
  match m with
  | CredentialCreate id endpoint d api_key =>
    Ret (changed (create_credential current endpoints proxies id endpoint d api_key))
  | CredentialUpdate id expected d => Ret (update_credential current endpoints proxies id expected d)
  | CredentialRotate id expected expected_secret api_key =>
    match rotate_secret current endpoints proxies id expected expected_secret api_key with
    | Err e => Ret (Err e)
    | Ok p => r ← with_model_routes endpoints p; Ret (changed r)
    end
  | CredentialSetModels id expected models => set_credential_models current endpoints proxies id expected models
  | CredentialDelete id expected =>
    r ← delete_credential current endpoints proxies id expected; Ret (changed r)
  end.
End prepared.

(** Deleting a proxy is refused while a credential uses it, but accounts are not asked:
    what is left can not hold an account that selected the proxy. *)
Lemma deleted_proxy_selected to_lowercase c credentials id c' change accounts a :
  delete_proxy to_lowercase c credentials id = Ok (c', change) -> a ∈ accounts -> oa_proxy a = Profile id ->
  exists e, accounts_new to_lowercase accounts c' = Err e.
Proof.
  intros Hd Ha Hp. unfold delete_proxy in Hd. destruct (proxy_get c id); [|done]. repeat (case_match; [done|]).
  destruct (proxies_new _ _ _) as [c1|] eqn:E; [|done]. simplify_eq/=. apply proxies_new_Ok in E as (-> & _).
  destruct (accounts_new _ _ _) as [l|e] eqn:Ea; [|by exists e].
  apply accounts_new_Ok in Ea as (_ & _ & _ & Hf). rewrite Forall_forall in Hf. specialize (Hf a Ha).
  unfold account_references in Hf. rewrite Hp in Hf. destruct Hf as [found Hf]. unfold proxy_get in Hf.
  assert (entity_get px_id (sort_entities proxy_order (remove_by px_id id (profiles c))) id = None) as Hn.
  { apply entity_get_None. unfold sort_entities. rewrite merge_sort_Permutation. unfold remove_by.
    intros (q & -> & Hq)%list_elem_of_fmap. by apply list_elem_of_filter in Hq as [? _]. }
  simpl in Hf. by rewrite Hn in Hf.
Qed.
