(* ===== verification/Tables.v ===== *)
(** * The tables of a configuration and how they are loaded

    The configuration tables of the [storage] crate, the statements it sends and
    the loading of a configuration from them: [configuration/load.rs], [model.rs]
    and [revision.rs], and the [rows.rs] of proxies, endpoints, credentials, model
    routes, OAuth accounts, gateway keys and settings.

    A table maps the primary key to the columns that are read back; columns that
    only serve a constraint or an index ([name_key], [label_key], [built_in], time
    stamps of a write) are left out, and an identifier stands for its UUID, whose text
    sorts as the number does.  SQLite is a parameter: any statement may be refused,
    whatever the reason, and a refused statement changes nothing. *)
From S2P Require Import Prelude Search Protocol Text Upstream OAuthErrors Entities Catalog Routes Drivers Cost SettingKeys Settings Mutations.
Local Open Scope Z_scope.

(** * Rows *)

Record ProxyRow := {
  pr_name : string; pr_kind : string; pr_host : option string; pr_port : option Z; pr_enabled : Z;
  pr_authentication_version : Z; pr_config_version : Z
}.
Record ProxyPasswordRow := { pw_username : string; pw_authentication_version : Z; pw_password : bytes }.
Record ProviderEndpointRow := {
  er_name : string; er_provider_kind : string; er_base_url : string; er_protocol_dialect : string;
  er_upstream_protocol_dialect : option string; er_enabled : Z; er_config_version : Z
}.
Record ProviderCredentialRow := {
  cr_endpoint_id : Z; cr_label : string; cr_kind : string; cr_secret_version : Z; cr_generation : Z;
  cr_config_version : Z; cr_api_key : bytes; cr_fingerprint_version : Z; cr_secret_fingerprint : bytes;
  cr_secret_tail : option string; cr_proxy_id : Z; cr_rpm : option Z; cr_enabled : Z
}.
Record ModelRouteRow := {
  rr_public_model : string; rr_ingress_protocol : string; rr_fallback : option Z; rr_enabled : Z;
  rr_config_version : Z
}.
Record RouteTargetRow := {
  tr_route_id : Z; tr_endpoint_id : Z; tr_upstream_model : string; tr_upstream_dialect : string;
  tr_tier : Z; tr_enabled : Z
}.
Record OAuthAccountRow := {
  ar_provider_kind : string; ar_label : string; ar_oauth_json : bytes; ar_token_version : Z;
  ar_generation : Z; ar_config_version : Z; ar_proxy_id : option Z; ar_rpm : option Z; ar_enabled : Z;
  ar_email : option string; ar_expires_at : option Z; ar_created_at : string
}.
Record GatewayApiKeyRow := {
  kr_name : string; kr_token : string; kr_token_prefix : string; kr_token_hash : bytes;
  kr_hash_version : Z; kr_token_version : Z; kr_config_version : Z; kr_rpm : option Z; kr_enabled : Z;
  kr_created_at : string; kr_last_used_at : option string
}.

Record Database := {
  db_revision : Z;
  db_proxies : gmap Z ProxyRow;
  db_passwords : gmap Z ProxyPasswordRow;
  db_global_proxy : Z;
  db_endpoints : gmap Z ProviderEndpointRow;
  db_credentials : gmap Z ProviderCredentialRow;
  db_credential_models : gmap (Z * string) (option string);
  db_routes : gmap Z ModelRouteRow;
  db_targets : gmap Z RouteTargetRow;
  db_accounts : gmap Z OAuthAccountRow;
  db_account_models : gset (Z * string);
  db_keys : gmap Z GatewayApiKeyRow;
  db_settings : gmap string string
}.

(** Writing one table *)
Definition set_revision (v : Z) (db : Database) : Database :=
  {| db_revision := v; db_proxies := db_proxies db; db_passwords := db_passwords db; db_global_proxy
     := db_global_proxy db; db_endpoints := db_endpoints db; db_credentials := db_credentials db;
     db_credential_models := db_credential_models db; db_routes := db_routes db; db_targets :=
     db_targets db; db_accounts := db_accounts db; db_account_models := db_account_models db;
     db_keys := db_keys db; db_settings := db_settings db |}.
Definition set_proxies (v : gmap Z ProxyRow) (db : Database) : Database :=
  {| db_revision := db_revision db; db_proxies := v; db_passwords := db_passwords db;
     db_global_proxy := db_global_proxy db; db_endpoints := db_endpoints db; db_credentials :=
     db_credentials db; db_credential_models := db_credential_models db; db_routes := db_routes db;
     db_targets := db_targets db; db_accounts := db_accounts db; db_account_models :=
     db_account_models db; db_keys := db_keys db; db_settings := db_settings db |}.
Definition set_passwords (v : gmap Z ProxyPasswordRow) (db : Database) : Database :=
  {| db_revision := db_revision db; db_proxies := db_proxies db; db_passwords := v; db_global_proxy
     := db_global_proxy db; db_endpoints := db_endpoints db; db_credentials := db_credentials db;
     db_credential_models := db_credential_models db; db_routes := db_routes db; db_targets :=
     db_targets db; db_accounts := db_accounts db; db_account_models := db_account_models db;
     db_keys := db_keys db; db_settings := db_settings db |}.
Definition set_global_proxy (v : Z) (db : Database) : Database :=
  {| db_revision := db_revision db; db_proxies := db_proxies db; db_passwords := db_passwords db;
     db_global_proxy := v; db_endpoints := db_endpoints db; db_credentials := db_credentials db;
     db_credential_models := db_credential_models db; db_routes := db_routes db; db_targets :=
     db_targets db; db_accounts := db_accounts db; db_account_models := db_account_models db;
     db_keys := db_keys db; db_settings := db_settings db |}.
Definition set_endpoints (v : gmap Z ProviderEndpointRow) (db : Database) : Database :=
  {| db_revision := db_revision db; db_proxies := db_proxies db; db_passwords := db_passwords db;
     db_global_proxy := db_global_proxy db; db_endpoints := v; db_credentials := db_credentials db;
     db_credential_models := db_credential_models db; db_routes := db_routes db; db_targets :=
     db_targets db; db_accounts := db_accounts db; db_account_models := db_account_models db;
     db_keys := db_keys db; db_settings := db_settings db |}.
Definition set_credentials (v : gmap Z ProviderCredentialRow) (db : Database) : Database :=
  {| db_revision := db_revision db; db_proxies := db_proxies db; db_passwords := db_passwords db;
     db_global_proxy := db_global_proxy db; db_endpoints := db_endpoints db; db_credentials := v;
     db_credential_models := db_credential_models db; db_routes := db_routes db; db_targets :=
     db_targets db; db_accounts := db_accounts db; db_account_models := db_account_models db;
     db_keys := db_keys db; db_settings := db_settings db |}.
Definition set_credential_models (v : gmap (Z * string) (option string)) (db : Database) : Database :=
  {| db_revision := db_revision db; db_proxies := db_proxies db; db_passwords := db_passwords db;
     db_global_proxy := db_global_proxy db; db_endpoints := db_endpoints db; db_credentials :=
     db_credentials db; db_credential_models := v; db_routes := db_routes db; db_targets :=
     db_targets db; db_accounts := db_accounts db; db_account_models := db_account_models db;
     db_keys := db_keys db; db_settings := db_settings db |}.
Definition set_routes (v : gmap Z ModelRouteRow) (db : Database) : Database :=
  {| db_revision := db_revision db; db_proxies := db_proxies db; db_passwords := db_passwords db;
     db_global_proxy := db_global_proxy db; db_endpoints := db_endpoints db; db_credentials :=
     db_credentials db; db_credential_models := db_credential_models db; db_routes := v; db_targets
     := db_targets db; db_accounts := db_accounts db; db_account_models := db_account_models db;
     db_keys := db_keys db; db_settings := db_settings db |}.
Definition set_targets (v : gmap Z RouteTargetRow) (db : Database) : Database :=
  {| db_revision := db_revision db; db_proxies := db_proxies db; db_passwords := db_passwords db;
     db_global_proxy := db_global_proxy db; db_endpoints := db_endpoints db; db_credentials :=
     db_credentials db; db_credential_models := db_credential_models db; db_routes := db_routes db;
     db_targets := v; db_accounts := db_accounts db; db_account_models := db_account_models db;
     db_keys := db_keys db; db_settings := db_settings db |}.
Definition set_accounts (v : gmap Z OAuthAccountRow) (db : Database) : Database :=
  {| db_revision := db_revision db; db_proxies := db_proxies db; db_passwords := db_passwords db;
     db_global_proxy := db_global_proxy db; db_endpoints := db_endpoints db; db_credentials :=
     db_credentials db; db_credential_models := db_credential_models db; db_routes := db_routes db;
     db_targets := db_targets db; db_accounts := v; db_account_models := db_account_models db;
     db_keys := db_keys db; db_settings := db_settings db |}.
Definition set_account_models (v : gset (Z * string)) (db : Database) : Database :=
  {| db_revision := db_revision db; db_proxies := db_proxies db; db_passwords := db_passwords db;
     db_global_proxy := db_global_proxy db; db_endpoints := db_endpoints db; db_credentials :=
     db_credentials db; db_credential_models := db_credential_models db; db_routes := db_routes db;
     db_targets := db_targets db; db_accounts := db_accounts db; db_account_models := v; db_keys :=
     db_keys db; db_settings := db_settings db |}.
Definition set_keys (v : gmap Z GatewayApiKeyRow) (db : Database) : Database :=
  {| db_revision := db_revision db; db_proxies := db_proxies db; db_passwords := db_passwords db;
     db_global_proxy := db_global_proxy db; db_endpoints := db_endpoints db; db_credentials :=
     db_credentials db; db_credential_models := db_credential_models db; db_routes := db_routes db;
     db_targets := db_targets db; db_accounts := db_accounts db; db_account_models :=
     db_account_models db; db_keys := v; db_settings := db_settings db |}.
Definition set_settings (v : gmap string string) (db : Database) : Database :=
  {| db_revision := db_revision db; db_proxies := db_proxies db; db_passwords := db_passwords db;
     db_global_proxy := db_global_proxy db; db_endpoints := db_endpoints db; db_credentials :=
     db_credentials db; db_credential_models := db_credential_models db; db_routes := db_routes db;
     db_targets := db_targets db; db_accounts := db_accounts db; db_account_models :=
     db_account_models db; db_keys := db_keys db; db_settings := v |}.

(** * Statements *)

(** A connection inside a transaction: what the database holds, and which of the
    statements to come it will refuse. *)
Record Connection := { database : Database; refusals : list bool }.
Definition statement (A : Type) : Type := Connection -> outcome (result (A * Connection) StorageError).

Definition st_ret {A} (a : A) : statement A := fun c => Ret (Ok (a, c)).
Definition st_bind {A B} (m : statement A) (k : A -> statement B) : statement B := fun c =>
  match m c with Ret (Ok (a, c)) => k a c | Ret (Err e) => Ret (Err e) | Panic => Panic end.
(** What runs without the database *)
Definition st_of {A} (o : outcome (result A StorageError)) : statement A := fun c =>
  match o with Ret (Ok a) => Ret (Ok (a, c)) | Ret (Err e) => Ret (Err e) | Panic => Panic end.
Definition st_lift {A} (r : result A StorageError) : statement A := st_of (Ret r).
Notation "x <~ m ; f" := (st_bind m (fun x => f)) (at level 20, m at level 100, f at level 200, only parsing).

(** [execute], and [fetch_one], [fetch_optional] and [fetch_all]: sqlx's error is
    [StorageError::Database]. *)
Definition execute {A} (f : Database -> A * Database) : statement A := fun c =>
  match refusals c with
  | true :: _ => Ret (Err StorageDatabase)
  | l => Ret (Ok ((f (database c)).1, {| database := (f (database c)).2; refusals := tail l |}))
  end.
Definition fetch {A} (f : Database -> A) : statement A := execute (fun db => (f db, db)).

(** [ORDER BY] *)
Definition order_by {A K} (R : relation K) {R_dec : RelDecision R} (key : A -> K) (rows : list A) : list A :=
  merge_sort (fun a b => R (key a) (key b)) (H := fun a b => R_dec (key a) (key b)) rows.

(** [i64::MAX] *)
Definition i64_max : Z := 2 ^ 63 - 1.
Definition to_i64 (v : Z) : result Z StorageError := if v <=? i64_max then Ok v else Err StorageRevisionOverflow.

(** [configuration/revision.rs]: [parse_revision], [load_revision_from],
    [classify_failed_update], [bump_revision] *)
Definition parse_revision (v : Z) : result Z StorageError :=
  if v <=? 0 then Err (StorageInvalidRevision v) else Ok v.
Definition load_revision : statement Z := v <~ fetch db_revision; st_lift (parse_revision v).
Definition classify_failed_update (expected : Z) : statement Z :=
  actual <~ load_revision;
  st_lift (if negb (actual =? expected) then Err (StorageRevisionConflict expected actual)
           else if actual =? i64_max then Err StorageRevisionOverflow
           else Err (ConfigurationWriteMismatch ComponentRevision)).
Definition bump_revision (expected : Z) : statement Z :=
  if i64_max <? expected then classify_failed_update expected
  else
    next <~ execute (fun db =>
      if (db_revision db =? expected) && (db_revision db <? i64_max)
      then (Some (db_revision db + 1), set_revision (db_revision db + 1) db) else (None, db));
    match next with
    | Some next => st_lift (parse_revision next)
    | None => classify_failed_update expected
    end.

(** * Parsing *)

(** [.map_err(|_| CorruptConfiguration)], and [ok_or] *)
Definition corrupt {A E} (r : result A E) : result A StorageError := map_err (fun _ => CorruptConfiguration) r.
Definition present {A} (o : option A) : result A StorageError :=
  match o with Some a => Ok a | None => Err CorruptConfiguration end.
Definition map_option {A B E} (f : A -> result B E) (o : option A) : result (option B) E :=
  match o with None => Ok None | Some a => changed (f a) end.

(** [u64::try_from], [u32::try_from], [u16::try_from] of an [i64] *)
Definition unsigned (max v : Z) : result Z StorageError :=
  if (0 <=? v) && (v <=? max) then Ok v else Err CorruptConfiguration.
Definition parse_version (v : Z) : result Z StorageError := unsigned u64_max v.
Definition parse_bool (v : Z) : result bool StorageError :=
  if v =? 0 then Ok false else if v =? 1 then Ok true else Err CorruptConfiguration.
Definition MAX_REQUESTS_PER_MINUTE : Z := 100000.
(** [RequestsPerMinute::new] *)
Definition rpm_new (v : Z) : option Z := if (1 <=? v) && (v <=? MAX_REQUESTS_PER_MINUTE) then Some v else None.
Definition parse_rpm (v : option Z) : result (option Z) StorageError :=
  map_option (fun v => v ⇐ unsigned u32_max v; present (rpm_new v)) v.

(** [entry().or_default().push()] *)
Fixpoint group {A} (rows : list (Z * A)) : gmap Z (list A) :=
  match rows with
  | [] => ∅
  | (id, a) :: rows => let m := group rows in <[id := a :: default [] (m !! id)]> m
  end.

(** The loop over rows that takes what was grouped under each identifier: [rows]
    parsed in order, and what is left *)
Fixpoint parse_grouped {R A B} (parse : Z -> R -> list A -> result B StorageError)
    (rows : list (Z * R)) (groups : gmap Z (list A)) : result (list B * gmap Z (list A)) StorageError :=
  match rows with
  | [] => Ok ([], groups)
  | (id, row) :: rows =>
    b ⇐ parse id row (default [] (groups !! id));
    r ⇐ parse_grouped parse rows (delete id groups);
    Ok (b :: r.1, r.2)
  end.

(** * The stored configuration *)

Record StoredProviderCredentialSecret := {
  cs_credential : Z; cs_kind : CredentialKind; cs_secret_version : Z; cs_generation : Z; cs_secret : bytes
}.
Record StoredOAuthAccountMaterial := {
  am_account : Z; am_provider : ProviderKind; am_token_version : Z; am_generation : Z;
  am_document : OAuthAccountDocument
}.
Record StoredProxyPassword := { sp_proxy : Z; sp_authentication_version : Z; sp_secret : bytes }.

Record StoredConfiguration {nets : IpNetLib} := {
  st_revision : Z;
  st_proxies : ProxyConfiguration;
  st_endpoints : list ProviderEndpoint;
  st_credentials : list ProviderCredential;
  st_accounts : list OAuthAccount;
  st_routes : list ModelRoute;
  st_keys : list GatewayApiKey;
  st_settings : SettingsConfiguration;
  st_credential_secrets : list StoredProviderCredentialSecret;
  st_account_materials : list StoredOAuthAccountMaterial;
  st_proxy_passwords : list StoredProxyPassword
}.

(** The orders of the queries *)
Definition text_pair_le (a b : string * string) : Prop :=
  name_lt a.1 b.1 \/ a.1 = b.1 /\ name_le a.2 b.2.
#[export] Instance text_pair_le_dec : RelDecision text_pair_le.
Proof. intros a b. unfold text_pair_le, name_lt. apply _. Defined.
Definition proxy_row_key (r : Z * ProxyRow) : Z * string := (if r.1 =? DIRECT then 0 else 1, pr_name r.2).
Definition credential_row_key (r : Z * ProviderCredentialRow) : Z * string := (cr_endpoint_id r.2, cr_label r.2).
Definition endpoint_row_key (r : Z * ProviderEndpointRow) : string * string := (er_provider_kind r.2, er_name r.2).
Definition account_row_key (r : Z * OAuthAccountRow) : string * string := (ar_provider_kind r.2, ar_label r.2).
Definition route_row_key (r : Z * ModelRouteRow) : string * string := (rr_ingress_protocol r.2, rr_public_model r.2).
Definition target_row_le (a b : RouteTargetRow) : Prop :=
  tr_route_id a < tr_route_id b \/
  tr_route_id a = tr_route_id b /\
  (tr_tier a < tr_tier b \/ tr_tier a = tr_tier b /\ tr_endpoint_id a <= tr_endpoint_id b).
#[export] Instance target_row_le_dec : RelDecision target_row_le.
Proof. intros a b. unfold target_row_le. apply _. Defined.

Section loading.
Context (to_lowercase : string -> string) (sha256 : bytes -> bytes).
Context (access_token_of : bytes -> option (option string)).
(** [url::Host::parse] printed back, and [serde_json] between a value and its text *)
Context (host_parse : string -> option string).
Context {url_lib : UrlLib} {json : JsonLib} {nets : IpNetLib}.
Context (json_print : Value -> option string) (json_read : string -> option Value).

(** ** Proxies: [parse_profile], [parse_proxy_password], [load_proxies_from] *)
Definition parse_address (host : option string) (port : option Z) : result (option ProxyAddress) StorageError :=
  match host, port with
  | Some host, Some port =>
    port ⇐ unsigned u16_max port;
    changed (corrupt (proxy_address_new host_parse host port))
  | None, None => Ok None
  | _, _ => Err CorruptConfiguration
  end.
Definition parse_proxy_password (row : ProxyPasswordRow) (p : ProxyProfile)
    : result StoredProxyPassword StorageError :=
  version ⇐ parse_version (pw_authentication_version row);
  if negb (version =? px_authentication_version p) || bool_decide (px_authentication p = None)
  then Err CorruptConfiguration
  else _ ⇐ password_validate (pw_password row);
       Ok {| sp_proxy := px_id p; sp_authentication_version := version; sp_secret := pw_password row |}.
Definition parse_profile (id : Z) (row : ProxyRow) (password : option ProxyPasswordRow)
    : result (ProxyProfile * option StoredProxyPassword) StorageError :=
  kind ⇐ present (proxy_kind_parse (pr_kind row));
  address ⇐ parse_address (pr_host row) (pr_port row);
  version ⇐ parse_version (pr_config_version row);
  authentication_version ⇐ parse_version (pr_authentication_version row);
  authentication ⇐ map_option (fun r => corrupt (proxy_authentication_new (pw_username r))) password;
  p ⇐ corrupt (proxy_restore id (pr_name row) kind address (pr_enabled row =? 1) authentication
                 authentication_version version);
  password ⇐ map_option (fun r => parse_proxy_password r p) password;
  Ok (p, password).
(** The loop removes each password row from the map as it is used. *)
Fixpoint parse_profiles (rows : list (Z * ProxyRow)) (passwords : gmap Z ProxyPasswordRow)
    : result (list (ProxyProfile * option StoredProxyPassword) * gmap Z ProxyPasswordRow) StorageError :=
  match rows with
  | [] => Ok ([], passwords)
  | (id, row) :: rows =>
    p ⇐ parse_profile id row (passwords !! id);
    r ⇐ parse_profiles rows (delete id passwords);
    Ok (p :: r.1, r.2)
  end.
Definition load_proxies : statement (ProxyConfiguration * list StoredProxyPassword) :=
  global <~ fetch db_global_proxy;
  rows <~ fetch (fun db => order_by pair_le proxy_row_key (map_to_list (db_proxies db)));
  passwords <~ fetch db_passwords;
  st_lift (r ⇐ parse_profiles rows passwords;
           if negb (bool_decide (r.2 = ∅)) then Err CorruptConfiguration
           else c ⇐ corrupt (proxies_new to_lowercase (fst <$> r.1) global);
                Ok (c, omap snd r.1)).

(** ** Endpoints: [parse_endpoint], [load_provider_endpoints_from] *)
Definition parse_endpoint (id : Z) (row : ProviderEndpointRow) : result ProviderEndpoint StorageError :=
  provider ⇐ present (provider_from_str (er_provider_kind row));
  dialect ⇐ present (dialect_parse (er_protocol_dialect row));
  upstream ⇐ map_option (fun d => present (dialect_parse d)) (er_upstream_protocol_dialect row);
  version ⇐ parse_version (er_config_version row);
  draft ⇐ corrupt (endpoint_draft_new (er_name row) provider (er_base_url row) dialect upstream
                     (er_enabled row =? 1));
  corrupt (endpoint_restore id draft version).
Definition load_endpoints : statement (list ProviderEndpoint) :=
  rows <~ fetch (fun db => order_by text_pair_le endpoint_row_key (map_to_list (db_endpoints db)));
  st_lift (l ⇐ try_map (fun r => parse_endpoint r.1 r.2) rows; corrupt (endpoints_new to_lowercase l)).

(** ** Model routes: [group_targets], [parse_route], [load_model_routes_from] *)
Definition parse_target (id : Z) (row : RouteTargetRow) : result (Z * RouteTargetDraft) StorageError :=
  tier ⇐ unsigned u16_max (tr_tier row);
  enabled ⇐ parse_bool (tr_enabled row);
  dialect ⇐ present (dialect_parse (tr_upstream_dialect row));
  d ⇐ corrupt (target_draft_new id (tr_endpoint_id row) (tr_upstream_model row) dialect tier enabled);
  Ok (tr_route_id row, d).
(** [ModelRouteDraft::new] and [ModelRoute::restore] of it *)
Definition route_restore (id : Z) (public : string) (ingress : ProtocolDialect) (fallback : option bool)
    (enabled : bool) (targets : list RouteTargetDraft) (version : Z)
    : result ModelRoute ModelRouteValidationError :=
  r ⇐ route_create id public ingress fallback enabled targets;
  if negb (valid_version version) then Err InvalidConfigVersion
  else Ok {| route_id := route_id r; route_public_model := route_public_model r;
             route_ingress := route_ingress r;
             route_fallback_on_rate_limit := route_fallback_on_rate_limit r;
             route_enabled := route_enabled r; route_config_version := version;
             route_targets := route_targets r |}.
Definition parse_route (id : Z) (row : ModelRouteRow) (targets : list RouteTargetDraft)
    : result ModelRoute StorageError :=
  ingress ⇐ present (dialect_parse (rr_ingress_protocol row));
  fallback ⇐ map_option parse_bool (rr_fallback row);
  enabled ⇐ parse_bool (rr_enabled row);
  version ⇐ parse_version (rr_config_version row);
  corrupt (route_restore id (rr_public_model row) ingress fallback enabled targets version).
Definition load_routes (endpoints : list ProviderEndpoint) : statement (list ModelRoute) :=
  rows <~ fetch (fun db => order_by text_pair_le route_row_key (map_to_list (db_routes db)));
  targets <~ fetch (fun db => order_by target_row_le snd (map_to_list (db_targets db)));
  st_lift (targets ⇐ try_map (fun r => parse_target r.1 r.2) targets;
           r ⇐ parse_grouped parse_route rows (group targets);
           if negb (bool_decide (r.2 = ∅)) then Err CorruptConfiguration
           else corrupt (routes_new r.1 endpoints)).

(** ** Credentials: [verify_secret], [parse_row], [load_provider_credentials_from] *)
Definition credential_kind_parse (value : string) : option CredentialKind :=
  if bool_decide (value = "api_key") then Some ApiKey else None.
Definition verify_secret (secret : bytes) (provider : ProviderKind) (c : ProviderCredential)
    : result () StorageError :=
  computed ⇐ build_fingerprint sha256 provider (pc_kind c) secret;
  if negb (bool_decide (fp_digest computed = fp_digest (pc_fingerprint c))) ||
     negb (bool_decide (fp_tail computed = fp_tail (pc_fingerprint c)))
  then Err CorruptConfiguration else Ok ().
Definition parse_credential (endpoints : list ProviderEndpoint) (id : Z) (row : ProviderCredentialRow)
    (models : list ProviderCredentialModel)
    : result (ProviderCredential * StoredProviderCredentialSecret) StorageError :=
  endpoint ⇐ present (endpoint_get endpoints (cr_endpoint_id row));
  kind ⇐ present (credential_kind_parse (cr_kind row));
  rpm ⇐ parse_rpm (cr_rpm row);
  secret_version ⇐ parse_version (cr_secret_version row);
  generation ⇐ parse_version (cr_generation row);
  config_version ⇐ parse_version (cr_config_version row);
  fingerprint_version ⇐ unsigned u16_max (cr_fingerprint_version row);
  _ ⇐ (if bool_decide (length (cr_secret_fingerprint row) = 32%nat) then Ok () else Err CorruptConfiguration);
  fingerprint ⇐ corrupt (fingerprint_restore fingerprint_version (cr_secret_fingerprint row)
                           (cr_secret_tail row));
  draft ⇐ corrupt (credential_draft_new (cr_label row) kind (cr_proxy_id row) rpm (cr_enabled row =? 1));
  c ⇐ corrupt (credential_restore id (cr_endpoint_id row) draft fingerprint secret_version generation
                 config_version models);
  _ ⇐ verify_secret (cr_api_key row) (ep_provider endpoint) c;
  Ok (c, {| cs_credential := pc_id c; cs_kind := pc_kind c; cs_secret_version := pc_secret_version c;
            cs_generation := pc_generation c; cs_secret := cr_api_key row |}).
Definition load_credentials (endpoints : list ProviderEndpoint) (proxies : ProxyConfiguration)
    : statement (list ProviderCredential * list StoredProviderCredentialSecret) :=
  rows <~ fetch (fun db => order_by pair_le credential_row_key (map_to_list (db_credentials db)));
  models <~ fetch (fun db => order_by pair_le fst (map_to_list (db_credential_models db)));
  st_lift (models ⇐ try_map (fun r => m ⇐ corrupt (credential_model_new r.1.2 r.2); Ok (r.1.1, m)) models;
           r ⇐ parse_grouped (parse_credential endpoints) rows (group models);
           if negb (bool_decide (r.2 = ∅)) then Err CorruptConfiguration
           else c ⇐ corrupt (credentials_new to_lowercase (fst <$> r.1) endpoints proxies);
                Ok (c, snd <$> r.1)).

(** ** OAuth accounts: [from_profile_id], [parse_row], [load_oauth_accounts_from] *)
Definition selection_of (id : option Z) : OAuthProxySelection :=
  match id with None => GlobalProxy | Some id => Profile id end.
Definition profile_id (s : OAuthProxySelection) : option Z :=
  match s with GlobalProxy => None | Profile id => Some id end.
Definition parse_account (id : Z) (row : OAuthAccountRow) (models : list string)
    : result (OAuthAccount * StoredOAuthAccountMaterial) StorageError :=
  provider ⇐ present (provider_from_str (ar_provider_kind row));
  rpm ⇐ parse_rpm (ar_rpm row);
  enabled ⇐ parse_bool (ar_enabled row);
  token_version ⇐ parse_version (ar_token_version row);
  generation ⇐ parse_version (ar_generation row);
  config_version ⇐ parse_version (ar_config_version row);
  draft ⇐ corrupt (account_draft_new (ar_label row) rpm enabled);
  a ⇐ corrupt (account_restore id provider draft (selection_of (ar_proxy_id row)) (ar_email row)
                 (ar_expires_at row) (ar_created_at row) token_version generation config_version models);
  document ⇐ corrupt (document_new access_token_of provider (ar_oauth_json row));
  Ok (a, {| am_account := id; am_provider := provider; am_token_version := token_version;
            am_generation := generation; am_document := document |}).
Definition load_accounts (proxies : ProxyConfiguration)
    : statement (list OAuthAccount * list StoredOAuthAccountMaterial) :=
  rows <~ fetch (fun db => order_by text_pair_le account_row_key (map_to_list (db_accounts db)));
  models <~ fetch (fun db => order_by pair_le id (elements (db_account_models db)));
  st_lift (r ⇐ parse_grouped parse_account rows (group models);
           if negb (bool_decide (r.2 = ∅)) then Err CorruptConfiguration
           else c ⇐ corrupt (accounts_new to_lowercase (fst <$> r.1) proxies);
                Ok (c, snd <$> r.1)).

(** ** Gateway keys: [parse_row], [load_gateway_api_keys_from] *)
Definition parse_key_version (v : Z) : result Z StorageError :=
  v ⇐ unsigned u64_max v; if (0 <? v) && (v <=? u32_max) then Ok v else Err CorruptConfiguration.
Definition parse_key (id : Z) (row : GatewayApiKeyRow) : result GatewayApiKey StorageError :=
  _ ⇐ (if bool_decide (length (kr_token_hash row) = 32%nat) then Ok () else Err CorruptConfiguration);
  if negb (bool_decide (verifier_hash sha256 (bytes_of (kr_token row)) = kr_token_hash row))
  then Err CorruptConfiguration
  else
    enabled ⇐ parse_bool (kr_enabled row);
    rpm ⇐ parse_rpm (kr_rpm row);
    draft ⇐ corrupt (key_draft_new (kr_name row) rpm enabled);
    hash_version ⇐ unsigned u32_max (kr_hash_version row);
    token_version ⇐ parse_key_version (kr_token_version row);
    config_version ⇐ parse_key_version (kr_config_version row);
    corrupt (key_restore id draft (kr_token row) (kr_token_prefix row) (kr_token_hash row) hash_version
               token_version config_version (kr_created_at row) (kr_last_used_at row)).
Definition load_keys : statement (list GatewayApiKey) :=
  rows <~ fetch (fun db => order_by name_le (fun r => kr_name r.2) (map_to_list (db_keys db)));
  st_lift (l ⇐ try_map (fun r => parse_key r.1 r.2) rows; corrupt (keys_new l)).

(** ** Settings: [parse_row], [load_settings_from] *)
Definition parse_setting (row : string * string) : result (SettingKey * SettingValue) StorageError :=
  key ⇐ present (key_parse row.1);
  value ⇐ present (json_read row.2);
  value ⇐ corrupt (from_json key value);
  Ok (key, value).
Definition load_settings : statement SettingsConfiguration :=
  rows <~ fetch (fun db => order_by name_le fst (map_to_list (db_settings db)));
  st_lift (entries ⇐ try_map parse_setting rows;
           o ⇐ corrupt (from_entries entries);
           corrupt (from_overrides o)).

(** ** The whole: [load_configuration_from] *)
Definition load_configuration : statement StoredConfiguration :=
  revision <~ load_revision;
  proxies <~ load_proxies;
  endpoints <~ load_endpoints;
  routes <~ load_routes endpoints;
  credentials <~ load_credentials endpoints proxies.1;
  accounts <~ load_accounts proxies.1;
  keys <~ load_keys;
  settings <~ load_settings;
  st_ret {| st_revision := revision; st_proxies := proxies.1; st_endpoints := endpoints;
            st_credentials := credentials.1; st_accounts := accounts.1; st_routes := routes;
            st_keys := keys; st_settings := settings; st_credential_secrets := credentials.2;
            st_account_materials := accounts.2; st_proxy_passwords := proxies.2 |}.
End loading.
