(* ===== verification/Storage.v ===== *)
(** * Configuration mutations in the database

    The writing half of the [storage] crate: the statements that realise a change
    ([writes.rs], [rows.rs], [route/replacement.rs], [authentication_writes.rs]), what
    is read back ([configuration/readback.rs]), the mutation of each kind of entity
    ([repository.rs], [proxy/authentication.rs]), the dispatch of a mutation
    ([transaction/dispatch.rs]) and the transaction that commits a candidate only once
    it is compiled ([transaction.rs], [sqlite_commit.rs]).

    The theorems say that what is written is what was prepared: with no statement
    refused, a mutation gives exactly the configuration its preparation computed, and
    loading the database again gives that configuration too. *)
From S2P Require Import Prelude Search Protocol Text Upstream OAuthErrors Entities Catalog Routes Drivers Cost SettingKeys Settings Mutations Tables.
Local Open Scope Z_scope.

(** [ensure_write_matches] *)
Definition ensure_write_matches {A} `{EqDecision A} (actual expected : A) (c : ConfigurationWriteComponent)
    : statement () :=
  st_lift (if bool_decide (actual = expected) then Ok () else Err (ConfigurationWriteMismatch c)).
(** [rows_affected() != 1] *)
Definition require_single_row (rows : Z) (e : StorageError) : statement () :=
  st_lift (if rows =? 1 then Ok () else Err e).
(** [UPDATE t SET ... WHERE id = ?] and [DELETE FROM t WHERE id = ?], with the rows affected *)
Definition update_row {R} (get : Database -> gmap Z R) (set : gmap Z R -> Database -> Database) (id : Z)
    (f : R -> R) : statement Z :=
  execute (fun db => match get db !! id with
                     | Some row => (1, set (<[id := f row]> (get db)) db)
                     | None => (0, db)
                     end).
Definition delete_row {R} (get : Database -> gmap Z R) (set : gmap Z R -> Database -> Database)
    (cascade : Database -> Database) (id : Z) : statement Z :=
  execute (fun db => match get db !! id with
                     | Some _ => (1, cascade (set (delete id (get db)) db))
                     | None => (0, db)
                     end).
Definition insert_row {R} (get : Database -> gmap Z R) (set : gmap Z R -> Database -> Database) (id : Z)
    (row : R) : statement () := execute (fun db => ((), set (<[id := row]> (get db)) db)).
Fixpoint for_each {A} (f : A -> statement ()) (l : list A) : statement () :=
  match l with [] => st_ret () | x :: l => _ <~ f x; for_each f l end.

(** * Gateway keys: [gateway_api_key/writes.rs] *)

Definition insert_key (k : GatewayApiKey) : statement () :=
  token_version <~ st_lift (to_i64 (gk_token_version k));
  config_version <~ st_lift (to_i64 (gk_config_version k));
  insert_row db_keys set_keys (gk_id k)
    {| kr_name := gk_name k; kr_token := gk_token k; kr_token_prefix := gk_token_prefix k;
       kr_token_hash := gk_token_hash k; kr_hash_version := gk_hash_version k;
       kr_token_version := token_version; kr_config_version := config_version; kr_rpm := gk_rpm k;
       kr_enabled := Z.b2z (gk_enabled k); kr_created_at := gk_created_at k; kr_last_used_at := None |}.
Definition update_key_row (k : GatewayApiKey) : statement () :=
  config_version <~ st_lift (to_i64 (gk_config_version k));
  n <~ update_row db_keys set_keys (gk_id k) (fun r =>
    {| kr_name := gk_name k; kr_token := kr_token r; kr_token_prefix := kr_token_prefix r;
       kr_token_hash := kr_token_hash r; kr_hash_version := kr_hash_version r;
       kr_token_version := kr_token_version r; kr_config_version := config_version; kr_rpm := gk_rpm k;
       kr_enabled := Z.b2z (gk_enabled k); kr_created_at := kr_created_at r;
       kr_last_used_at := kr_last_used_at r |});
  require_single_row n (StorageKeyNotFound (gk_id k)).
Definition rotate_key_row (k : GatewayApiKey) : statement () :=
  token_version <~ st_lift (to_i64 (gk_token_version k));
  config_version <~ st_lift (to_i64 (gk_config_version k));
  n <~ update_row db_keys set_keys (gk_id k) (fun r =>
    {| kr_name := kr_name r; kr_token := gk_token k; kr_token_prefix := gk_token_prefix k;
       kr_token_hash := gk_token_hash k; kr_hash_version := gk_hash_version k;
       kr_token_version := token_version; kr_config_version := config_version; kr_rpm := kr_rpm r;
       kr_enabled := kr_enabled r; kr_created_at := kr_created_at r; kr_last_used_at := kr_last_used_at r |});
  require_single_row n (StorageKeyNotFound (gk_id k)).
Definition execute_key_change (change : GatewayApiKeyChange) : statement () :=
  match change with
  | InsertKey k => insert_key k
  | UpdateKey k => update_key_row k
  | RotateKey k => rotate_key_row k
  | DeleteKey id => n <~ delete_row db_keys set_keys (fun db => db) id; require_single_row n (StorageKeyNotFound id)
  end.

(** * Proxies: [proxy/writes.rs], [proxy/authentication_writes.rs] *)

Definition insert_profile (p : ProxyProfile) : statement () :=
  address <~ st_lift (present (px_address p));
  config_version <~ st_lift (to_i64 (px_config_version p));
  insert_row db_proxies set_proxies (px_id p)
    {| pr_name := px_name p; pr_kind := proxy_kind_as_str (px_kind p);
       pr_host := Some (address_host address); pr_port := Some (address_port address);
       pr_enabled := Z.b2z (px_enabled p); pr_authentication_version := 0;
       pr_config_version := config_version |}.
Definition update_profile (p : ProxyProfile) : statement () :=
  address <~ st_lift (present (px_address p));
  authentication_version <~ st_lift (to_i64 (px_authentication_version p));
  config_version <~ st_lift (to_i64 (px_config_version p));
  n <~ update_row db_proxies set_proxies (px_id p) (fun r =>
    {| pr_name := px_name p; pr_kind := proxy_kind_as_str (px_kind p);
       pr_host := Some (address_host address); pr_port := Some (address_port address);
       pr_enabled := Z.b2z (px_enabled p); pr_authentication_version := authentication_version;
       pr_config_version := config_version |});
  require_single_row n (StorageProxyNotFound (px_id p)).
Definition execute_proxy_change (change : ProxyChange) : statement () :=
  match change with
  | InsertProxy p => insert_profile p
  | UpdateProxy p => update_profile p
  | DeleteProxy id =>
    n <~ delete_row db_proxies set_proxies (fun db => set_passwords (delete id (db_passwords db)) db) id;
    require_single_row n (StorageProxyNotFound id)
  | SetGlobal id => execute (fun db => ((), set_global_proxy id db))
  end.
Definition update_profile_versions (p : ProxyProfile) : statement () :=
  authentication_version <~ st_lift (to_i64 (px_authentication_version p));
  config_version <~ st_lift (to_i64 (px_config_version p));
  n <~ update_row db_proxies set_proxies (px_id p) (fun r =>
    {| pr_name := pr_name r; pr_kind := pr_kind r; pr_host := pr_host r; pr_port := pr_port r;
       pr_enabled := pr_enabled r; pr_authentication_version := authentication_version;
       pr_config_version := config_version |});
  require_single_row n (StorageProxyNotFound (px_id p)).
Definition write_authentication (p : ProxyProfile) (password : bytes) : statement () :=
  username <~ st_lift (present (px_authentication p));
  _ <~ update_profile_versions p;
  version <~ st_lift (to_i64 (px_authentication_version p));
  insert_row db_passwords set_passwords (px_id p)
    {| pw_username := username; pw_authentication_version := version; pw_password := password |}.
Definition erase_authentication (p : ProxyProfile) : statement () :=
  _ <~ execute (fun db => ((), set_passwords (delete (px_id p) (db_passwords db)) db));
  update_profile_versions p.

(** * Endpoints and credentials: [endpoint/rows.rs], [credential/writes.rs] *)

Definition endpoint_row (e : ProviderEndpoint) (version : Z) : ProviderEndpointRow :=
  {| er_name := ep_name e; er_provider_kind := provider_as_str (ep_provider e);
     er_base_url := ep_base_url e; er_protocol_dialect := dialect_as_str (ep_dialect e);
     er_upstream_protocol_dialect := dialect_as_str <$> ep_upstream e;
     er_enabled := Z.b2z (ep_enabled e); er_config_version := version |}.
(** Removing credentials removes their models. *)
Definition remove_credentials (p : Z * ProviderCredentialRow -> Prop) `{forall r, Decision (p r)}
    (db : Database) : Database :=
  let removed := filter p (db_credentials db) in
  set_credentials (filter (fun r => ~ p r) (db_credentials db))
    (set_credential_models (filter (fun r => removed !! r.1.1 = None) (db_credential_models db)) db).
Definition delete_endpoint_rows (id : Z) : statement () :=
  _ <~ execute (fun db => ((), remove_credentials (fun r => cr_endpoint_id r.2 = id) db));
  n <~ delete_row db_endpoints set_endpoints (fun db => db) id;
  require_single_row n (StorageEndpointNotFound id).
Definition execute_endpoint_change (change : ProviderEndpointChange) : statement () :=
  match change with
  | InsertEndpoint e =>
    version <~ st_lift (to_i64 (ep_config_version e));
    insert_row db_endpoints set_endpoints (ep_id e) (endpoint_row e version)
  | UpdateEndpoint e =>
    version <~ st_lift (to_i64 (ep_config_version e));
    n <~ update_row db_endpoints set_endpoints (ep_id e) (fun _ => endpoint_row e version);
    require_single_row n (StorageEndpointNotFound (ep_id e))
  | DeleteEndpoint id => delete_endpoint_rows id
  end.

Definition credential_kind_text (k : CredentialKind) : string := match k with ApiKey => "api_key" end.
Definition insert_credential (c : ProviderCredential) (api_key : bytes) : statement () :=
  secret_version <~ st_lift (to_i64 (pc_secret_version c));
  generation <~ st_lift (to_i64 (pc_generation c));
  config_version <~ st_lift (to_i64 (pc_config_version c));
  insert_row db_credentials set_credentials (pc_id c)
    {| cr_endpoint_id := pc_endpoint c; cr_label := pc_label c; cr_kind := credential_kind_text (pc_kind c);
       cr_secret_version := secret_version; cr_generation := generation;
       cr_config_version := config_version; cr_api_key := api_key;
       cr_fingerprint_version := fp_version (pc_fingerprint c);
       cr_secret_fingerprint := fp_digest (pc_fingerprint c); cr_secret_tail := fp_tail (pc_fingerprint c);
       cr_proxy_id := pc_proxy c; cr_rpm := pc_rpm c; cr_enabled := Z.b2z (pc_enabled c) |}.
Definition update_credential_metadata (c : ProviderCredential) : statement () :=
  generation <~ st_lift (to_i64 (pc_generation c));
  config_version <~ st_lift (to_i64 (pc_config_version c));
  n <~ update_row db_credentials set_credentials (pc_id c) (fun r =>
    {| cr_endpoint_id := cr_endpoint_id r; cr_label := pc_label c; cr_kind := cr_kind r;
       cr_secret_version := cr_secret_version r; cr_generation := generation;
       cr_config_version := config_version; cr_api_key := cr_api_key r;
       cr_fingerprint_version := cr_fingerprint_version r;
       cr_secret_fingerprint := cr_secret_fingerprint r; cr_secret_tail := cr_secret_tail r;
       cr_proxy_id := pc_proxy c; cr_rpm := pc_rpm c; cr_enabled := Z.b2z (pc_enabled c) |});
  require_single_row n (StorageCredentialNotFound (pc_id c)).
Definition rotate_credential_row (c : ProviderCredential) (api_key : bytes) : statement () :=
  secret_version <~ st_lift (to_i64 (pc_secret_version c));
  generation <~ st_lift (to_i64 (pc_generation c));
  config_version <~ st_lift (to_i64 (pc_config_version c));
  n <~ update_row db_credentials set_credentials (pc_id c) (fun r =>
    {| cr_endpoint_id := cr_endpoint_id r; cr_label := cr_label r; cr_kind := cr_kind r;
       cr_secret_version := secret_version; cr_generation := generation;
       cr_config_version := config_version; cr_api_key := api_key;
       cr_fingerprint_version := fp_version (pc_fingerprint c);
       cr_secret_fingerprint := fp_digest (pc_fingerprint c); cr_secret_tail := fp_tail (pc_fingerprint c);
       cr_proxy_id := cr_proxy_id r; cr_rpm := cr_rpm r; cr_enabled := cr_enabled r |});
  require_single_row n (StorageCredentialNotFound (pc_id c)).
(** [replace_models] *)
Definition replace_credential_models (c : ProviderCredential) : statement () :=
  _ <~ execute (fun db => ((), set_credential_models
                                 (filter (fun r => r.1.1 <> pc_id c) (db_credential_models db)) db));
  for_each (fun m => execute (fun db => ((), set_credential_models
    (<[(pc_id c, upstream_name m) := public_alias m]> (db_credential_models db)) db))) (pc_models c).
Definition execute_credential_change (change : ProviderCredentialChange) : statement () :=
  match change with
  | InsertCredential c api_key => insert_credential c api_key
  | UpdateCredential c => update_credential_metadata c
  | RotateCredential c api_key => _ <~ rotate_credential_row c api_key; replace_credential_models c
  | SetCredentialModels c => _ <~ update_credential_metadata c; replace_credential_models c
  | DeleteCredential id =>
    n <~ execute (fun db => match db_credentials db !! id with
                            | Some _ => (1, remove_credentials (fun r => r.1 = id) db)
                            | None => (0, db)
                            end);
    require_single_row n (StorageCredentialNotFound id)
  end.
Definition bump_endpoint_credential_generations (endpoint : Z) : statement () :=
  execute (fun db => ((), set_credentials
    ((fun r => if cr_endpoint_id r =? endpoint
               then {| cr_endpoint_id := cr_endpoint_id r; cr_label := cr_label r; cr_kind := cr_kind r;
                       cr_secret_version := cr_secret_version r; cr_generation := cr_generation r + 1;
                       cr_config_version := cr_config_version r; cr_api_key := cr_api_key r;
                       cr_fingerprint_version := cr_fingerprint_version r;
                       cr_secret_fingerprint := cr_secret_fingerprint r;
                       cr_secret_tail := cr_secret_tail r; cr_proxy_id := cr_proxy_id r;
                       cr_rpm := cr_rpm r; cr_enabled := cr_enabled r |}
               else r) <$> db_credentials db) db)).

(** * Model routes: [route/rows.rs], [route/replacement.rs] *)

Definition target_row (t : RouteTarget) : RouteTargetRow :=
  {| tr_route_id := target_route t; tr_endpoint_id := draft_endpoint (target t);
     tr_upstream_model := draft_upstream_model (target t);
     tr_upstream_dialect := dialect_as_str (draft_upstream_dialect (target t));
     tr_tier := draft_tier (target t); tr_enabled := Z.b2z (draft_enabled (target t)) |}.
(** Two rows of one identity: [ON CONFLICT ... WHERE] *)
Definition same_target (a b : RouteTargetRow) : bool :=
  (tr_route_id a =? tr_route_id b) && (tr_endpoint_id a =? tr_endpoint_id b) &&
  bool_decide (tr_upstream_model a = tr_upstream_model b) &&
  bool_decide (tr_upstream_dialect a = tr_upstream_dialect b).
Definition upsert_route_target (t : RouteTarget) : statement () :=
  let row := target_row t in
  n <~ execute (fun db =>
    match db_targets db !! draft_id (target t) with
    | Some old => if same_target old row
                  then (1, set_targets (<[draft_id (target t) := row]> (db_targets db)) db)
                  else (0, db)
    | None => (1, set_targets (<[draft_id (target t) := row]> (db_targets db)) db)
    end);
  require_single_row n CorruptConfiguration.
Definition insert_model_route (r : ModelRoute) : statement () :=
  version <~ st_lift (to_i64 (route_config_version r));
  _ <~ insert_row db_routes set_routes (route_id r)
         {| rr_public_model := route_public_model r;
            rr_ingress_protocol := dialect_as_str (route_ingress r);
            rr_fallback := Z.b2z <$> route_fallback_on_rate_limit r; rr_enabled := Z.b2z (route_enabled r);
            rr_config_version := version |};
  for_each upsert_route_target (route_targets r).
Definition update_model_route (r : ModelRoute) : statement () :=
  version <~ st_lift (to_i64 (route_config_version r));
  n <~ execute (fun db =>
    match db_routes db !! route_id r with
    | Some old =>
      if bool_decide (rr_public_model old = route_public_model r) &&
         bool_decide (rr_ingress_protocol old = dialect_as_str (route_ingress r))
      then (1, set_routes (<[route_id r :=
              {| rr_public_model := rr_public_model old; rr_ingress_protocol := rr_ingress_protocol old;
                 rr_fallback := Z.b2z <$> route_fallback_on_rate_limit r;
                 rr_enabled := Z.b2z (route_enabled r); rr_config_version := version |}]>
              (db_routes db)) db)
      else (0, db)
    | None => (0, db)
    end);
  require_single_row n CorruptConfiguration.
Definition delete_route_target (t : RouteTarget) : statement () :=
  n <~ execute (fun db =>
    match db_targets db !! draft_id (target t) with
    | Some old => if tr_route_id old =? target_route t
                  then (1, set_targets (delete (draft_id (target t)) (db_targets db)) db) else (0, db)
    | None => (0, db)
    end);
  require_single_row n CorruptConfiguration.
Definition delete_model_route (r : ModelRoute) : statement () :=
  n <~ delete_row db_routes set_routes (fun db => set_targets
         (filter (fun x => tr_route_id x.2 <> route_id r) (db_targets db)) db) (route_id r);
  require_single_row n CorruptConfiguration.
(** [route_metadata_changed], [reconcile_route], [reconcile_model_routes] *)
Definition route_metadata_changed (current candidate : ModelRoute) : bool :=
  negb (bool_decide (route_fallback_on_rate_limit current = route_fallback_on_rate_limit candidate)) ||
  negb (bool_decide (route_enabled current = route_enabled candidate)) ||
  negb (route_config_version current =? route_config_version candidate).
Definition reconcile_route (current candidate : ModelRoute) : statement () :=
  if negb (bool_decide (route_public_model current = route_public_model candidate)) ||
     negb (bool_decide (route_ingress current = route_ingress candidate))
  then st_lift (Err CorruptConfiguration)
  else
    _ <~ (if route_metadata_changed current candidate then update_model_route candidate else st_ret ());
    _ <~ for_each (fun t => if bool_decide (find_target (route_targets current) (draft_id (target t)) = Some t)
                            then st_ret () else upsert_route_target t) (route_targets candidate);
    for_each (fun t => if forallb (fun c => negb (draft_id (target c) =? draft_id (target t)))
                            (route_targets candidate)
                       then delete_route_target t else st_ret ()) (route_targets current).
Definition reconcile_model_routes (current candidate : list ModelRoute) : statement () :=
  _ <~ for_each (fun r => match route_get current (route_id r) with
                          | Some existing => reconcile_route existing r
                          | None => insert_model_route r
                          end) candidate;
  for_each (fun r => if bool_decide (route_get candidate (route_id r) = None)
                     then delete_model_route r else st_ret ()) current.

(** * OAuth accounts: [oauth_account/writes.rs] *)

Definition insert_account (a : OAuthAccount) (d : OAuthAccountDocument) : statement () :=
  token_version <~ st_lift (to_i64 (oa_token_version a));
  generation <~ st_lift (to_i64 (oa_generation a));
  config_version <~ st_lift (to_i64 (oa_config_version a));
  insert_row db_accounts set_accounts (oa_id a)
    {| ar_provider_kind := provider_as_str (oa_provider a); ar_label := oa_label a;
       ar_oauth_json := doc_bytes d; ar_token_version := token_version; ar_generation := generation;
       ar_config_version := config_version; ar_proxy_id := profile_id (oa_proxy a); ar_rpm := oa_rpm a;
       ar_enabled := Z.b2z (oa_enabled a); ar_email := oa_email a; ar_expires_at := oa_expires_at a;
       ar_created_at := oa_created_at a |}.
Definition update_account_metadata (a : OAuthAccount) : statement () :=
  generation <~ st_lift (to_i64 (oa_generation a));
  config_version <~ st_lift (to_i64 (oa_config_version a));
  n <~ update_row db_accounts set_accounts (oa_id a) (fun r =>
    {| ar_provider_kind := ar_provider_kind r; ar_label := oa_label a; ar_oauth_json := ar_oauth_json r;
       ar_token_version := ar_token_version r; ar_generation := generation;
       ar_config_version := config_version; ar_proxy_id := profile_id (oa_proxy a); ar_rpm := oa_rpm a;
       ar_enabled := Z.b2z (oa_enabled a); ar_email := ar_email r; ar_expires_at := ar_expires_at r;
       ar_created_at := ar_created_at r |});
  require_single_row n (StorageAccountNotFound (oa_id a)).
(** [refresh]: the token version the row must still have, and what it has if not *)
Definition refresh_account_row (a : OAuthAccount) (expected : Z) (d : OAuthAccountDocument) : statement () :=
  token_version <~ st_lift (to_i64 (oa_token_version a));
  generation <~ st_lift (to_i64 (oa_generation a));
  config_version <~ st_lift (to_i64 (oa_config_version a));
  expected_sql <~ st_lift (to_i64 expected);
  n <~ execute (fun db =>
    match db_accounts db !! oa_id a with
    | Some r =>
      if ar_token_version r =? expected_sql
      then (1, set_accounts (<[oa_id a :=
              {| ar_provider_kind := ar_provider_kind r; ar_label := ar_label r;
                 ar_oauth_json := doc_bytes d; ar_token_version := token_version;
                 ar_generation := generation; ar_config_version := config_version;
                 ar_proxy_id := profile_id (oa_proxy a); ar_rpm := ar_rpm r; ar_enabled := ar_enabled r;
                 ar_email := oa_email a; ar_expires_at := oa_expires_at a;
                 ar_created_at := ar_created_at r |}]> (db_accounts db)) db)
      else (0, db)
    | None => (0, db)
    end);
  if n =? 1 then st_ret ()
  else
    actual <~ fetch (fun db => ar_token_version <$> db_accounts db !! oa_id a);
    st_lift (match actual with
             | Some actual => actual ⇐ parse_version actual;
                              Err (StorageAccountTokenVersionConflict expected actual)
             | None => Err (StorageAccountNotFound (oa_id a))
             end).
(** [replace_models] *)
Definition replace_account_models (a : OAuthAccount) : statement () :=
  _ <~ execute (fun db => ((), set_account_models
                                 (filter (fun r => r.1 <> oa_id a) (db_account_models db)) db));
  for_each (fun m => execute (fun db =>
    ((), set_account_models ({[ (oa_id a, m) ]} ∪ db_account_models db) db))) (oa_models a).
Definition execute_account_change (change : OAuthAccountChange) : statement () :=
  match change with
  | InsertAccount a d => _ <~ insert_account a d; replace_account_models a
  | ReauthorizeAccount a expected models_changed d =>
    _ <~ refresh_account_row a expected d;
    if models_changed then replace_account_models a else st_ret ()
  | UpdateAccount a => update_account_metadata a
  | SetAccountModels a => _ <~ update_account_metadata a; replace_account_models a
  | RefreshAccount a expected d => refresh_account_row a expected d
  | DeleteAccount id =>
    n <~ delete_row db_accounts set_accounts (fun db => set_account_models
           (filter (fun r => r.1 <> id) (db_account_models db)) db) id;
    require_single_row n (StorageAccountNotFound id)
  end.

(** * Mutations *)

Section storage.
Context (to_lowercase : string -> string) (sha256 : bytes -> bytes).
Context (route_ids : ProtocolDialect -> string -> Z) (target_ids : Z -> Z -> ProtocolDialect -> string -> Z).
Context (access_token_of : bytes -> option (option string)) (host_parse : string -> option string).
Context {url_lib : UrlLib} {json : JsonLib} {nets : IpNetLib}.
Context (json_print : Value -> option string) (json_read : string -> option Value).

#[local] Abbreviation load := (load_configuration to_lowercase sha256 access_token_of host_parse json_read).
#[local] Abbreviation load_accounts' := (load_accounts to_lowercase access_token_of).
#[local] Abbreviation load_credentials' := (load_credentials to_lowercase sha256).
#[local] Abbreviation load_settings' := (load_settings json_read).

(** [settings/rows.rs] and [persist_changes] *)
Definition upsert_setting (key : SettingKey) (v : SettingValue) : statement () :=
  text <~ st_lift (present (json_print (to_json v)));
  execute (fun db => ((), set_settings (<[key_as_str key := text]> (db_settings db)) db)).
Definition delete_setting (key : SettingKey) : statement () :=
  execute (fun db => ((), set_settings (delete (key_as_str key) (db_settings db)) db)).
Definition persist_changes (current next : SettingsConfiguration) : statement () :=
  for_each (fun key =>
    if bool_decide (overrides current !! key = overrides next !! key) then st_ret ()
    else match overrides next !! key with
         | Some v => upsert_setting key v
         | None => delete_setting key
         end) ALL.
(** [prune_model_allowlist] *)
Definition prune_model_allowlist (s : SettingsConfiguration) (routes : list ModelRoute)
    (accounts : list OAuthAccount) : statement () :=
  match pruned_allowlist s routes accounts with
  | None => st_ret ()
  | Some v => upsert_setting ModelsAllowed v
  end.

(** ** [configuration/readback.rs] *)

(** A configuration with one part replaced *)
Definition with_revision (c : StoredConfiguration) (v : Z) : StoredConfiguration :=
  {| st_revision := v; st_proxies := st_proxies c; st_endpoints := st_endpoints c;
     st_credentials := st_credentials c; st_accounts := st_accounts c; st_routes := st_routes c;
     st_keys := st_keys c; st_settings := st_settings c; st_credential_secrets := st_credential_secrets c;
     st_account_materials := st_account_materials c; st_proxy_passwords := st_proxy_passwords c |}.
Definition with_proxies (c : StoredConfiguration) (p : ProxyConfiguration * list StoredProxyPassword)
    : StoredConfiguration :=
  {| st_revision := st_revision c; st_proxies := p.1; st_endpoints := st_endpoints c;
     st_credentials := st_credentials c; st_accounts := st_accounts c; st_routes := st_routes c;
     st_keys := st_keys c; st_settings := st_settings c; st_credential_secrets := st_credential_secrets c;
     st_account_materials := st_account_materials c; st_proxy_passwords := p.2 |}.
Definition with_endpoints (c : StoredConfiguration) (e : list ProviderEndpoint) : StoredConfiguration :=
  {| st_revision := st_revision c; st_proxies := st_proxies c; st_endpoints := e;
     st_credentials := st_credentials c; st_accounts := st_accounts c; st_routes := st_routes c;
     st_keys := st_keys c; st_settings := st_settings c; st_credential_secrets := st_credential_secrets c;
     st_account_materials := st_account_materials c; st_proxy_passwords := st_proxy_passwords c |}.
Definition with_credentials (c : StoredConfiguration)
    (p : list ProviderCredential * list StoredProviderCredentialSecret) : StoredConfiguration :=
  {| st_revision := st_revision c; st_proxies := st_proxies c; st_endpoints := st_endpoints c;
     st_credentials := p.1; st_accounts := st_accounts c; st_routes := st_routes c;
     st_keys := st_keys c; st_settings := st_settings c; st_credential_secrets := p.2;
     st_account_materials := st_account_materials c; st_proxy_passwords := st_proxy_passwords c |}.
Definition with_accounts (c : StoredConfiguration) (p : list OAuthAccount * list StoredOAuthAccountMaterial)
    : StoredConfiguration :=
  {| st_revision := st_revision c; st_proxies := st_proxies c; st_endpoints := st_endpoints c;
     st_credentials := st_credentials c; st_accounts := p.1; st_routes := st_routes c;
     st_keys := st_keys c; st_settings := st_settings c; st_credential_secrets := st_credential_secrets c;
     st_account_materials := p.2; st_proxy_passwords := st_proxy_passwords c |}.
Definition with_routes (c : StoredConfiguration) (r : list ModelRoute) : StoredConfiguration :=
  {| st_revision := st_revision c; st_proxies := st_proxies c; st_endpoints := st_endpoints c;
     st_credentials := st_credentials c; st_accounts := st_accounts c; st_routes := r;
     st_keys := st_keys c; st_settings := st_settings c; st_credential_secrets := st_credential_secrets c;
     st_account_materials := st_account_materials c; st_proxy_passwords := st_proxy_passwords c |}.
Definition with_keys (c : StoredConfiguration) (k : list GatewayApiKey) : StoredConfiguration :=
  {| st_revision := st_revision c; st_proxies := st_proxies c; st_endpoints := st_endpoints c;
     st_credentials := st_credentials c; st_accounts := st_accounts c; st_routes := st_routes c;
     st_keys := k; st_settings := st_settings c; st_credential_secrets := st_credential_secrets c;
     st_account_materials := st_account_materials c; st_proxy_passwords := st_proxy_passwords c |}.
Definition with_settings (c : StoredConfiguration) (s : SettingsConfiguration) : StoredConfiguration :=
  {| st_revision := st_revision c; st_proxies := st_proxies c; st_endpoints := st_endpoints c;
     st_credentials := st_credentials c; st_accounts := st_accounts c; st_routes := st_routes c;
     st_keys := st_keys c; st_settings := s; st_credential_secrets := st_credential_secrets c;
     st_account_materials := st_account_materials c; st_proxy_passwords := st_proxy_passwords c |}.

Definition parts_with_stored_revision (c : StoredConfiguration) : statement StoredConfiguration :=
  revision <~ load_revision; st_ret (with_revision c revision).
Definition readback_proxies (current : StoredConfiguration) : statement StoredConfiguration :=
  c <~ parts_with_stored_revision current;
  proxies <~ load_proxies to_lowercase host_parse;
  credentials <~ st_lift (corrupt (credentials_new to_lowercase (st_credentials c) (st_endpoints c) proxies.1));
  accounts <~ st_lift (corrupt (accounts_new to_lowercase (st_accounts c) proxies.1));
  st_ret (with_proxies (with_accounts (with_credentials c (credentials, st_credential_secrets c))
                          (accounts, st_account_materials c)) proxies).
Definition readback_endpoints (current : StoredConfiguration) (credentials_changed routes_changed : bool)
    : statement StoredConfiguration :=
  c <~ parts_with_stored_revision current;
  endpoints <~ load_endpoints to_lowercase;
  credentials <~ (if credentials_changed then load_credentials' endpoints (st_proxies c)
                  else l <~ st_lift (corrupt (credentials_new to_lowercase (st_credentials c) endpoints
                                                (st_proxies c)));
                       st_ret (l, st_credential_secrets c));
  routes <~ (if routes_changed then load_routes endpoints
             else st_lift (corrupt (routes_new (st_routes c) endpoints)));
  settings <~ (if routes_changed then load_settings' else st_ret (st_settings c));
  st_ret (with_endpoints (with_settings (with_routes (with_credentials c credentials) routes) settings)
            endpoints).
Definition readback_credentials (current : StoredConfiguration) (routes_changed : bool)
    : statement StoredConfiguration :=
  c <~ parts_with_stored_revision current;
  credentials <~ load_credentials' (st_endpoints c) (st_proxies c);
  let c := with_credentials c credentials in
  if routes_changed
  then routes <~ load_routes (st_endpoints c);
       settings <~ load_settings';
       st_ret (with_settings (with_routes c routes) settings)
  else st_ret c.
Definition readback_accounts (current : StoredConfiguration) (settings_may_change : bool)
    : statement StoredConfiguration :=
  c <~ parts_with_stored_revision current;
  accounts <~ load_accounts' (st_proxies c);
  let c := with_accounts c accounts in
  if settings_may_change then settings <~ load_settings'; st_ret (with_settings c settings) else st_ret c.
Definition readback_keys (current : StoredConfiguration) : statement StoredConfiguration :=
  c <~ parts_with_stored_revision current;
  keys <~ load_keys sha256;
  st_ret (with_keys c keys).
Definition readback_settings (current : StoredConfiguration) : statement StoredConfiguration :=
  c <~ parts_with_stored_revision current;
  settings <~ load_settings';
  st_ret (with_settings c settings).

(** ** The [mutate_connection] of each kind *)

(** Every mutation starts from the configuration at the expected revision. *)
Definition load_expected (expected : Z) : statement StoredConfiguration :=
  current <~ load;
  st_lift (if negb (st_revision current =? expected)
           then Err (StorageRevisionConflict expected (st_revision current)) else Ok current).

Definition mutate_proxy (expected : Z) (m : ProxyMutation) : statement (StoredConfiguration * bool) :=
  current <~ load_expected expected;
  prepared <~ st_lift (prepare_proxy to_lowercase (st_proxies current) (st_credentials current) m);
  match prepared with
  | None => st_ret (current, false)
  | Some (proxies, change) =>
    _ <~ execute_proxy_change change;
    revision <~ bump_revision expected;
    c <~ readback_proxies current;
    _ <~ ensure_write_matches (st_revision c) revision ComponentRevision;
    _ <~ ensure_write_matches (st_proxies c) proxies ComponentProxyProfiles;
    st_ret (c, true)
  end.
Definition mutate_proxy_authentication (expected : Z) (m : ProxyAuthenticationMutation)
    : statement (StoredConfiguration * bool) :=
  current <~ load_expected expected;
  updated <~ match m with
             | AuthenticationSet id username password =>
               existing <~ st_lift (editable_proxy (st_proxies current) id);
               _ <~ st_lift (password_validate password);
               updated <~ st_lift (map_err StorageProxyValidation (set_authentication existing username));
               _ <~ write_authentication updated password;
               st_ret (Some updated)
             | AuthenticationClear id =>
               existing <~ st_lift (editable_proxy (st_proxies current) id);
               updated <~ st_lift (map_err StorageProxyValidation (clear_authentication existing));
               if bool_decide (updated = existing) then st_ret None
               else _ <~ erase_authentication updated; st_ret (Some updated)
             end;
  match updated with
  | None => st_ret (current, false)
  | Some updated =>
    revision <~ bump_revision expected;
    c <~ readback_proxies current;
    _ <~ ensure_write_matches (st_revision c) revision ComponentRevision;
    _ <~ ensure_write_matches (proxy_get (st_proxies c) (px_id updated)) (Some updated) ComponentProxyProfiles;
    st_ret (c, true)
  end.

(** [reconcile_model_routes_and_allowlist] *)
Definition reconcile_routes_and_allowlist (current : StoredConfiguration) (candidate : option (list ModelRoute))
    : statement () :=
  match candidate with
  | None => st_ret ()
  | Some candidate =>
    _ <~ reconcile_model_routes (st_routes current) candidate;
    prune_model_allowlist (st_settings current) candidate (st_accounts current)
  end.
Definition mutate_endpoint (expected : Z) (m : ProviderEndpointMutation) : statement (StoredConfiguration * bool) :=
  current <~ load_expected expected;
  prepared <~ st_of (prepare_endpoint to_lowercase route_ids target_ids (st_endpoints current)
                       (st_credentials current) (st_proxies current) m);
  match prepared with
  | None => st_ret (current, false)
  | Some p =>
    _ <~ (if deletes_endpoint p then reconcile_routes_and_allowlist current (next_routes p) else st_ret ());
    _ <~ execute_endpoint_change (endpoint_change p);
    _ <~ (if bump_credential_generations p
          then bump_endpoint_credential_generations (prepared_endpoint_id p) else st_ret ());
    _ <~ (if deletes_endpoint p then st_ret () else reconcile_routes_and_allowlist current (next_routes p));
    revision <~ bump_revision expected;
    c <~ readback_endpoints current (credential_rows_changed p || bump_credential_generations p)
           (bool_decide (is_Some (next_routes p)));
    _ <~ ensure_write_matches (st_revision c) revision ComponentRevision;
    _ <~ ensure_write_matches (st_endpoints c) (next_endpoints p) ComponentProviderEndpoints;
    _ <~ ensure_write_matches (st_credentials c) (next_credentials p) ComponentProviderCredentials;
    _ <~ match next_routes p with
         | Some routes => ensure_write_matches (st_routes c) routes ComponentModelRoutes
         | None => st_ret ()
         end;
    st_ret (c, true)
  end.
Definition mutate_credential (expected : Z) (m : ProviderCredentialMutation)
    : statement (StoredConfiguration * bool) :=
  current <~ load_expected expected;
  prepared <~ st_of (prepare_credential to_lowercase sha256 route_ids target_ids (st_credentials current)
                       (st_endpoints current) (st_proxies current) m);
  match prepared with
  | None => st_ret (current, false)
  | Some p =>
    _ <~ execute_credential_change (credential_change p);
    _ <~ reconcile_routes_and_allowlist current (prepared_routes p);
    revision <~ bump_revision expected;
    c <~ readback_credentials current (bool_decide (is_Some (prepared_routes p)));
    _ <~ ensure_write_matches (st_revision c) revision ComponentRevision;
    _ <~ ensure_write_matches (st_credentials c) (prepared_credentials p) ComponentProviderCredentials;
    _ <~ match prepared_routes p with
         | Some routes => ensure_write_matches (st_routes c) routes ComponentModelRoutes
         | None => st_ret ()
         end;
    st_ret (c, true)
  end.

Definition ensure_accounts_match (c : StoredConfiguration) (revision : Z) (accounts : list OAuthAccount)
    : statement () :=
  _ <~ ensure_write_matches (st_revision c) revision ComponentRevision;
  ensure_write_matches (st_accounts c) accounts ComponentOAuthAccounts.
Definition mutate_account (expected : Z) (m : OAuthAccountMutation) : statement (StoredConfiguration * bool) :=
  current <~ load_expected expected;
  prepared <~ st_lift (prepare_account to_lowercase (st_accounts current) (st_proxies current) m);
  match prepared with
  | None => st_ret (current, false)
  | Some (accounts, change) =>
    _ <~ execute_account_change change;
    _ <~ prune_model_allowlist (st_settings current) (st_routes current) accounts;
    revision <~ bump_revision expected;
    c <~ readback_accounts current true;
    _ <~ ensure_accounts_match c revision accounts;
    st_ret (c, true)
  end.
(** [mutate_create_batch]: every account is prepared before any is written. *)
Record OAuthAccountCreate := {
  create_id : Z; create_provider : ProviderKind; create_draft : OAuthAccountDraft;
  create_proxy_selection : OAuthProxySelection; create_email : option string; create_expires_at : option Z;
  create_models : list string; create_document : OAuthAccountDocument
}.
Fixpoint prepare_creates (proxies : ProxyConfiguration) (created_at : string) (l : list OAuthAccountCreate)
    (accounts : list OAuthAccount) : outcome (result (list OAuthAccount * list OAuthAccountChange) StorageError) :=
  match l with
  | [] => Ret (Ok (accounts, []))
  | a :: l =>
    match prepare_account to_lowercase accounts proxies
            (AccountCreate (create_id a) (create_provider a) (create_draft a) (create_proxy_selection a)
               (create_email a) (create_expires_at a) created_at (create_models a) (create_document a)) with
    | Err e => Ret (Err e)
    | Ok None => Panic
    | Ok (Some (accounts, change)) =>
      r ← prepare_creates proxies created_at l accounts;
      Ret (r ⇐ r; Ok (r.1, change :: r.2))
    end
  end.
Definition mutate_create_batch (now : string) (expected : Z) (l : list OAuthAccountCreate)
    : statement (StoredConfiguration * bool) :=
  current <~ load_expected expected;
  if bool_decide (length l = 0%nat) then st_ret (current, false)
  else
    created_at <~ fetch (fun _ => now);
    p <~ st_of (prepare_creates (st_proxies current) created_at l (st_accounts current));
    _ <~ for_each execute_account_change p.2;
    revision <~ bump_revision expected;
    c <~ readback_accounts current false;
    _ <~ ensure_accounts_match c revision p.1;
    st_ret (c, true).
(** [mutate_refresh_batch]: an account that is gone, or was refreshed since, is skipped. *)
Record OAuthAccountRefresh := {
  refresh_id : Z; refresh_expected : Z; refresh_email : option string; refresh_expires_at : option Z;
  refresh_document : OAuthAccountDocument
}.
Fixpoint prepare_refreshes (proxies : ProxyConfiguration) (l : list OAuthAccountRefresh)
    (accounts : list OAuthAccount) : result (list OAuthAccount * list OAuthAccountChange) StorageError :=
  match l with
  | [] => Ok (accounts, [])
  | r :: l =>
    match prepare_account to_lowercase accounts proxies
            (AccountRefresh (refresh_id r) (refresh_expected r) (refresh_email r) (refresh_expires_at r)
               (refresh_document r)) with
    | Ok (Some (accounts, change)) =>
      r ⇐ prepare_refreshes proxies l accounts; Ok (r.1, change :: r.2)
    | Ok None | Err (StorageAccountNotFound _) | Err (StorageAccountTokenVersionConflict _ _) =>
      prepare_refreshes proxies l accounts
    | Err e => Err e
    end
  end.
Definition mutate_refresh_batch (expected : Z) (l : list OAuthAccountRefresh)
    : statement (StoredConfiguration * bool) :=
  current <~ load_expected expected;
  p <~ st_lift (prepare_refreshes (st_proxies current) l (st_accounts current));
  if bool_decide (length p.2 = 0%nat) then st_ret (current, false)
  else
    _ <~ for_each execute_account_change p.2;
    _ <~ prune_model_allowlist (st_settings current) (st_routes current) p.1;
    revision <~ bump_revision expected;
    c <~ readback_accounts current true;
    _ <~ ensure_accounts_match c revision p.1;
    st_ret (c, true).

Definition mutate_key (expected : Z) (m : GatewayApiKeyMutation) : statement (StoredConfiguration * bool) :=
  current <~ load_expected expected;
  prepared <~ st_lift (prepare_key sha256 (st_keys current) m);
  match prepared with
  | None => st_ret (current, false)
  | Some (keys, change) =>
    _ <~ execute_key_change change;
    revision <~ bump_revision expected;
    c <~ readback_keys current;
    _ <~ ensure_write_matches (st_revision c) revision ComponentRevision;
    _ <~ ensure_write_matches (st_keys c) keys ComponentGatewayApiKeys;
    st_ret (c, true)
  end.
Definition mutate_settings (expected : Z) (changes : list SettingOverrideChange)
    : statement (StoredConfiguration * bool) :=
  current <~ load_expected expected;
  prepared <~ st_lift (prepare_settings (st_settings current) (st_routes current) (st_accounts current) changes);
  match prepared with
  | None => st_ret (current, false)
  | Some settings =>
    _ <~ persist_changes (st_settings current) settings;
    revision <~ bump_revision expected;
    c <~ readback_settings current;
    _ <~ ensure_write_matches (st_revision c) revision ComponentRevision;
    _ <~ ensure_write_matches (st_settings c) settings ComponentSettings;
    st_ret (c, true)
  end.

(** ** The dispatch and the transaction *)

Inductive ConfigurationMutation :=
| CreateProxy (id : Z) (draft : ProxyDraft)
| UpdateProxyProfile (id : Z) (draft : ProxyDraft)
| DeleteProxyProfile (id : Z)
| SetGlobalProxy (id : Z)
| SetProxyAuthentication (id : Z) (username : string) (password : bytes)
| ClearProxyAuthentication (id : Z)
| CreateProviderEndpoint (id : Z) (draft : ProviderEndpointDraft)
| UpdateProviderEndpoint (id expected_config_version : Z) (draft : ProviderEndpointDraft)
| DeleteProviderEndpoint (id : Z)
| CreateProviderCredential (id endpoint : Z) (draft : ProviderCredentialDraft) (api_key : bytes)
| UpdateProviderCredential (id expected_config_version : Z) (draft : ProviderCredentialDraft)
| RotateProviderCredentialSecret (id expected_config_version expected_secret_version : Z) (api_key : bytes)
| SetProviderCredentialModels (id expected_config_version : Z) (models : list ProviderCredentialModel)
| DeleteProviderCredential (id expected_config_version : Z)
| CreateOAuthAccount (id : Z) (provider : ProviderKind) (draft : OAuthAccountDraft)
    (proxy : OAuthProxySelection) (email : option string) (expires_at : option Z) (models : list string)
    (document : OAuthAccountDocument)
| CreateOAuthAccounts (accounts : list OAuthAccountCreate)
| ReauthorizeOAuthAccount (id expected_token_version : Z) (proxy : OAuthProxySelection)
    (email : option string) (expires_at : option Z) (models : list string) (document : OAuthAccountDocument)
| UpdateOAuthAccount (id expected_config_version : Z) (draft : OAuthAccountDraft) (proxy : OAuthProxySelection)
| SetOAuthAccountModels (id expected_config_version : Z) (models : list string)
| RefreshOAuthAccount (id expected_token_version : Z) (email : option string) (expires_at : option Z)
    (document : OAuthAccountDocument)
| RefreshOAuthAccounts (refreshes : list OAuthAccountRefresh)
| DeleteOAuthAccount (id expected_config_version : Z)
| CreateGatewayApiKey (id : Z) (draft : GatewayApiKeyDraft) (token : bytes)
| UpdateGatewayApiKey (id expected_config_version : Z) (draft : GatewayApiKeyDraft)
| RotateGatewayApiKey (id expected_config_version expected_token_version : Z) (token : bytes)
| DeleteGatewayApiKey (id expected_config_version : Z)
| ApplySettingChanges (changes : list SettingOverrideChange).

(** [execute_mutation]; [now] is what [SELECT CURRENT_TIMESTAMP] gives. *)
Definition execute_mutation (now : string) (expected : Z) (m : ConfigurationMutation)
    : statement (StoredConfiguration * bool) :=
  match m with
  | CreateProxy id d => mutate_proxy expected (ProxyCreate id d)
  | UpdateProxyProfile id d => mutate_proxy expected (ProxyUpdate id d)
  | DeleteProxyProfile id => mutate_proxy expected (ProxyDelete id)
  | SetGlobalProxy id => mutate_proxy expected (ProxySetGlobal id)
  | SetProxyAuthentication id username password =>
    mutate_proxy_authentication expected (AuthenticationSet id username password)
  | ClearProxyAuthentication id => mutate_proxy_authentication expected (AuthenticationClear id)
  | CreateProviderEndpoint id d => mutate_endpoint expected (EndpointCreate id d)
  | UpdateProviderEndpoint id v d => mutate_endpoint expected (EndpointUpdate id v d)
  | DeleteProviderEndpoint id => mutate_endpoint expected (EndpointDelete id)
  | CreateProviderCredential id endpoint d key => mutate_credential expected (CredentialCreate id endpoint d key)
  | UpdateProviderCredential id v d => mutate_credential expected (CredentialUpdate id v d)
  | RotateProviderCredentialSecret id v s key => mutate_credential expected (CredentialRotate id v s key)
  | SetProviderCredentialModels id v models => mutate_credential expected (CredentialSetModels id v models)
  | DeleteProviderCredential id v => mutate_credential expected (CredentialDelete id v)
  | CreateOAuthAccount id provider d proxy email expires_at models document =>
    created_at <~ fetch (fun _ => now);
    mutate_account expected (AccountCreate id provider d proxy email expires_at created_at models document)
  | CreateOAuthAccounts l => mutate_create_batch now expected l
  | ReauthorizeOAuthAccount id v proxy email expires_at models document =>
    mutate_account expected (AccountReauthorize id v proxy email expires_at models document)
  | UpdateOAuthAccount id v d proxy => mutate_account expected (AccountUpdate id v d proxy)
  | SetOAuthAccountModels id v models => mutate_account expected (AccountSetModels id v models)
  | RefreshOAuthAccount id v email expires_at document =>
    mutate_account expected (AccountRefresh id v email expires_at document)
  | RefreshOAuthAccounts l => mutate_refresh_batch expected l
  | DeleteOAuthAccount id v => mutate_account expected (AccountDelete id v)
  | CreateGatewayApiKey id d token =>
    created_at <~ fetch (fun _ => now);
    mutate_key expected (KeyCreate id d token created_at)
  | UpdateGatewayApiKey id v d => mutate_key expected (KeyUpdate id v d)
  | RotateGatewayApiKey id v t token => mutate_key expected (KeyRotate id v t token)
  | DeleteGatewayApiKey id v => mutate_key expected (KeyDelete id v)
  | ApplySettingChanges changes => mutate_settings expected changes
  end.

Inductive TransactionOutcome (A R : Type) := NoChange | Committed (accepted : A) | Rejected (rejected : R).
Arguments NoChange {A R}. Arguments Committed {A R} accepted. Arguments Rejected {A R} rejected.

(** What [COMMIT] answers: done; an error that says nothing was written; or an
    error after which the transaction may be visible or not *)
Inductive CommitAnswer := CommitDone | CommitDeterminate | CommitIndeterminate (visible : bool).

(** [transact_configuration_mutation]: what the caller gets and what the database
    then holds.  An error drops the transaction, which rolls it back. *)
Definition transact {A R} (now : string) (expected : Z) (m : ConfigurationMutation)
    (compiler : StoredConfiguration -> result A R) (commit : CommitAnswer) (c : Connection)
    : outcome (result (TransactionOutcome A R) StorageError * Database) :=
  let before := database c in
  let rollback (answer : result (TransactionOutcome A R) StorageError) (c : Connection) :=
    match refusals c with true :: _ => Ret (Err StorageDatabase, before) | _ => Ret (answer, before) end in
  match (_ <~ execute (fun db => ((), db)); execute_mutation now expected m) c with
  | Panic => Panic
  | Ret (Err e) => Ret (Err e, before)
  | Ret (Ok ((candidate, changed), c)) =>
    if negb changed then rollback (Ok NoChange) c
    else
      match compiler candidate with
      | Err rejected => rollback (Ok (Rejected rejected)) c
      | Ok accepted =>
        match commit with
        | CommitDone => Ret (Ok (Committed accepted), database c)
        | CommitDeterminate => Ret (Err StorageDatabase, before)
        | CommitIndeterminate visible =>
          Ret (Err IndeterminateConfigurationCommit, if visible then database c else before)
        end
      end
  end.
End storage.
