(* ===== verification/Persistence.v ===== *)
(** * What is stored is what was prepared

    The facts behind the mutations of [Storage]: a table represents a list of
    entities when each row parses to one of them, the statements that realise a change
    keep that so, a refused statement leaves the database as it was, and a
    configuration that is read back is the one a fresh load would give. *)
From S2P Require Import Prelude Search Protocol Text Upstream OAuthErrors Entities Catalog Routes Drivers Cost SettingKeys Settings Mutations Tables Storage.
Local Open Scope Z_scope.

(** * Sorting entities whose keys differ *)

Lemma sort_unique {A K} (R : relation K) {R_dec : RelDecision R} {R_antisym : AntiSymm eq R}
    (key : A -> K) (l k : list A) :
  StronglySorted (fun a b => R (key a) (key b)) l -> StronglySorted (fun a b => R (key a) (key b)) k ->
  l ≡ₚ k -> NoDup (key <$> l) -> l = k.
Proof.
  intros Hl Hk Hp Hnd. refine (StronglySorted_unique_strong _ l k _ Hl Hk Hp).
  intros x1 x2 H1 H2 H12 H21. rewrite <- Hp in H2. assert (key x1 = key x2) as He by by apply (anti_symm R).
  apply list_elem_of_lookup in H1 as [i Hi], H2 as [j Hj].
  assert (i = j) as ->; [|congruence].
  eapply (NoDup_lookup (key <$> l)); [done|by rewrite list_lookup_fmap, Hi|].
  rewrite list_lookup_fmap, Hj. simpl. by rewrite He.
Qed.

Lemma sort_by_perm {A K} (R : relation K) {R_trans : Transitive R} {R_total : Total R}
    {R_antisym : AntiSymm eq R} {R_dec : RelDecision R} (key : A -> K)
    {H : forall a b, Decision (R (key a) (key b))} (l k : list A) :
  l ≡ₚ k -> NoDup (key <$> l) ->
  merge_sort (fun a b => R (key a) (key b)) l = merge_sort (fun a b => R (key a) (key b)) k.
Proof.
  intros Hp Hnd.
  assert (Transitive (fun a b => R (key a) (key b))) by (intros x y z; by apply transitivity).
  assert (Total (fun a b => R (key a) (key b))) by (intros x y; apply total; apply _).
  apply (sort_unique R key).
  - by apply StronglySorted_merge_sort.
  - by apply StronglySorted_merge_sort.
  - by rewrite !merge_sort_Permutation.
  - by rewrite merge_sort_Permutation.
Qed.

(** * Tables that represent lists *)

Section tables.
Context {R A E : Type} (parse : Z -> R -> result A E) (id_of : A -> Z).
Context (parse_id : forall id row a, parse id row = Ok a -> id_of a = id).

Record represents (t : gmap Z R) (l : list A) : Prop := {
  rep_ids : NoDup (id_of <$> l);
  rep_rows id row : t !! id = Some row -> exists a, a ∈ l /\ parse id row = Ok a;
  rep_entities a : a ∈ l -> exists row, t !! id_of a = Some row
}.

Lemma rep_entity t l a : represents t l -> a ∈ l ->
  exists row, t !! id_of a = Some row /\ parse (id_of a) row = Ok a.
Proof.
  intros Ht Ha. destruct (rep_entities t l Ht a Ha) as [row Hrow]. exists row. split; [done|].
  destruct (rep_rows t l Ht _ _ Hrow) as (b & Hb & Hp). pose proof (parse_id _ _ _ Hp) as Hid.
  assert (b = a) as ->; [|done]. pose proof (rep_ids t l Ht) as Hnd.
  assert (Some b = Some a) as [=]; [|done].
  rewrite <- (proj2 (entity_get_Some id_of l (id_of a) b Hnd) (conj Hb Hid)).
  by rewrite (proj2 (entity_get_Some id_of l (id_of a) a Hnd) (conj Ha eq_refl)).
Qed.

Lemma rep_absent t l id : represents t l -> id ∉ id_of <$> l -> t !! id = None.
Proof.
  intros Ht Hid. destruct (t !! id) eqn:E1; [|done]. destruct Hid.
  destruct (rep_rows t l Ht _ _ E1) as (a & Ha & Hp). apply parse_id in Hp as <-. by apply list_elem_of_fmap_2.
Qed.

Lemma rep_perm t l k : represents t l -> l ≡ₚ k -> represents t k.
Proof.
  intros [H1 H2 H3] Hp. constructor.
  - by rewrite <- Hp.
  - intros id row Hr. destruct (H2 _ _ Hr) as (a & Ha & ?). exists a. by rewrite <- Hp.
  - intros a Ha. apply H3. by rewrite Hp.
Qed.

Lemma try_map_rep t rows l : rows ≡ₚ map_to_list t ->
  try_map (fun r => parse r.1 r.2) rows = Ok l -> represents t l.
Proof.
  intros Hrows Hl. apply try_map_Ok in Hl.
  assert (id_of <$> l = rows.*1) as Hids.
  { clear Hrows. induction Hl as [|r a rows l Hp Hl IH]; [done|]. simpl. apply parse_id in Hp as ->. by f_equal. }
  constructor.
  - rewrite Hids, Hrows. apply NoDup_fst_map_to_list.
  - intros id row Hr. apply elem_of_map_to_list in Hr. rewrite <- Hrows in Hr.
    apply list_elem_of_lookup in Hr as [i Hi].
    destruct (Forall2_lookup_l _ _ _ _ _ Hl Hi) as (a & Ha & Hp). exists a. split; [|done].
    by eapply list_elem_of_lookup_2.
  - intros a Ha. apply list_elem_of_lookup in Ha as [i Hi].
    destruct (Forall2_lookup_r _ _ _ _ _ Hl Hi) as ([id row] & Hr & Hp). simpl in Hp. apply parse_id in Hp as ->.
    exists row. apply elem_of_map_to_list. rewrite <- Hrows. by eapply list_elem_of_lookup_2.
Qed.

Lemma rep_try_map t rows l : rows ≡ₚ map_to_list t -> represents t l ->
  exists k, try_map (fun r => parse r.1 r.2) rows = Ok k /\ k ≡ₚ l.
Proof.
  intros Hrows Ht.
  assert (exists k, Forall2 (fun r a => parse r.1 r.2 = Ok a) rows k) as [k Hk].
  { assert (Forall (fun r => exists a, parse r.1 r.2 = Ok a) rows) as Hall.
    { apply Forall_forall. intros [id row] Hr. rewrite Hrows in Hr. apply elem_of_map_to_list in Hr.
      destruct (rep_rows t l Ht _ _ Hr) as (a & _ & Hp). by exists a. }
    clear Hrows. induction Hall as [|r rows [a Ha] Hall [k IH]]; [by exists []|]. exists (a :: k). by constructor. }
  exists k. split; [by apply try_map_Ok|]. assert (represents t k) as Htk.
  { eapply try_map_rep; [done|]. by apply try_map_Ok. }
  apply NoDup_Permutation; [by eapply NoDup_fmap_1, rep_ids|by eapply NoDup_fmap_1, rep_ids|].
  assert (forall l1 l2 a, represents t l1 -> represents t l2 -> a ∈ l1 -> a ∈ l2) as Hsub.
  { intros l1 l2 a H1 H2 Ha. destruct (rep_entity t l1 a H1 Ha) as (row & Hr & Hp).
    destruct (rep_rows t l2 H2 _ _ Hr) as (b & Hb & Hq). congruence. }
  intros a. split; by apply Hsub.
Qed.

Lemma rep_insert t l a row : represents t l -> id_of a ∉ id_of <$> l -> parse (id_of a) row = Ok a ->
  represents (<[id_of a := row]> t) (l ++ [a]).
Proof.
  intros [H1 H2 H3] Hid Hp. constructor.
  - rewrite fmap_app. apply NoDup_app. split_and!; [done| |apply NoDup_singleton]. simpl. set_solver.
  - intros id row' Hr. apply lookup_insert_Some in Hr as [[<- <-]|[Hne Hr]].
    + exists a. set_solver.
    + destruct (H2 _ _ Hr) as (b & Hb & ?). exists b. set_solver.
  - intros b Hb. apply elem_of_app in Hb as [Hb|Hb].
    + destruct (decide (id_of b = id_of a)) as [->|]; [by eexists; rewrite lookup_insert_eq|].
      rewrite lookup_insert_ne by done. by apply H3.
    + apply list_elem_of_singleton in Hb as ->. by eexists; rewrite lookup_insert_eq.
Qed.

Lemma replace_by_ids (l : list A) a : id_of <$> replace_by id_of a l = id_of <$> l.
Proof.
  unfold replace_by. rewrite <- list_fmap_compose. apply list_fmap_ext. intros i x _. simpl.
  destruct (Z.eqb_spec (id_of x) (id_of a)) as [->|]; done.
Qed.
Lemma elem_of_replace_by (l : list A) a b : b ∈ replace_by id_of a l <->
  (b ∈ l /\ id_of b <> id_of a) \/ (b = a /\ id_of a ∈ id_of <$> l).
Proof.
  unfold replace_by. rewrite list_elem_of_fmap. split.
  - intros (x & -> & Hx). destruct (Z.eqb_spec (id_of x) (id_of a)) as [E1|]; [right|by left].
    split; [done|]. rewrite <- E1. by apply list_elem_of_fmap_2.
  - intros [[Hb Hne]|[-> Hin]].
    + exists b. split; [|done]. by destruct (Z.eqb_spec (id_of b) (id_of a)).
    + apply list_elem_of_fmap in Hin as (x & E1 & Hx). exists x. split; [|done].
      by destruct (Z.eqb_spec (id_of x) (id_of a)).
Qed.

Lemma rep_update t l a row : represents t l -> id_of a ∈ id_of <$> l -> parse (id_of a) row = Ok a ->
  represents (<[id_of a := row]> t) (replace_by id_of a l).
Proof.
  intros [H1 H2 H3] Hid Hp. constructor.
  - by rewrite replace_by_ids.
  - intros id row' Hr. apply lookup_insert_Some in Hr as [[<- <-]|[Hne Hr]].
    + exists a. split; [|done]. apply elem_of_replace_by. by right.
    + destruct (H2 _ _ Hr) as (b & Hb & Hq). exists b. split; [|done]. apply elem_of_replace_by. left.
      apply parse_id in Hq as ->. split; [done|congruence].
  - intros b Hb. apply elem_of_replace_by in Hb as [[Hb Hne]|[-> _]]; [|by eexists; rewrite lookup_insert_eq].
    rewrite lookup_insert_ne by done. by apply H3.
Qed.

Lemma rep_delete t l id : represents t l -> represents (delete id t) (remove_by id_of id l).
Proof.
  intros [H1 H2 H3]. unfold remove_by. constructor.
  - eapply sublist_NoDup; [exact H1|apply fmap_sublist, sublist_filter].
  - intros i row Hr. apply lookup_delete_Some in Hr as [Hne Hr]. destruct (H2 _ _ Hr) as (b & Hb & Hq).
    exists b. split; [|done]. apply list_elem_of_filter. apply parse_id in Hq as ->. split; [congruence|done].
  - intros b Hb. apply list_elem_of_filter in Hb as [Hne Hb]. rewrite lookup_delete_ne by done. by apply H3.
Qed.
End tables.

(** * Statements that answer *)

Definition quiet (db : Database) : Connection := {| database := db; refusals := [] |}.

(** A program of statements ends with the database's error, if a statement is
    refused, or as it does when nothing is. *)
Definition honest {A} (m : statement A) : Prop := forall c,
  (m c = Ret (Err StorageDatabase) /\ true ∈ refusals c) \/
  match m (quiet (database c)) with
  | Ret (Ok (a, c')) => exists s, m c = Ret (Ok (a, {| database := database c'; refusals := s |})) /\
                                  refusals c' = [] /\ (true ∈ s -> true ∈ refusals c)
  | Ret (Err e) => m c = Ret (Err e)
  | Panic => m c = Panic
  end.

Lemma honest_of {A} (o : outcome (result A StorageError)) : honest (st_of o).
Proof.
  intros [db s]. right. unfold st_of. simpl. destruct o as [[a|e]|]; [|done|done]. by exists s.
Qed.
Lemma honest_ret {A} (a : A) : honest (st_ret a).
Proof. exact (honest_of (Ret (Ok a))). Qed.
Lemma honest_lift {A} (r : result A StorageError) : honest (st_lift r).
Proof. apply honest_of. Qed.
Lemma honest_execute {A} (f : Database -> A * Database) : honest (execute f).
Proof.
  intros [db s]. unfold execute. simpl. destruct s as [|[|] s]; [right|left|right].
  - by eexists.
  - split; [done|by left].
  - eexists. split_and!; [done..|]. simpl. by right.
Qed.
Lemma honest_bind {A B} (m : statement A) (k : A -> statement B) :
  honest m -> (forall a, honest (k a)) -> honest (st_bind m k).
Proof.
  intros Hm Hk c. unfold st_bind. destruct (Hm c) as [[-> ?]|H]; [by left|].
  destruct (m (quiet (database c))) as [[[a [db' s']]|e]|]; [|rewrite H; by right..].
  simpl in H. destruct H as (s & -> & -> & Hs).
  destruct (Hk a {| database := db'; refusals := s |}) as [[-> ?]|H2]; [left; split; [done|by apply Hs]|].
  right. simpl in H2. fold (quiet db'). destruct (k a (quiet db')) as [[[b c']|e]|]; [|done|done].
  destruct H2 as (s2 & ? & ? & Hs2). exists s2. split_and!; [done..|]. intros H3. by apply Hs, Hs2.
Qed.
Lemma honest_for_each {A} (f : A -> statement ()) l : (forall a, honest (f a)) -> honest (for_each f l).
Proof.
  intros Hf. induction l as [|x l IH]; simpl; [apply honest_ret|]. apply honest_bind; [done|]. by intros [].
Qed.

(** Closes [honest] of a program by its shape *)
Ltac head t := match t with ?f _ => head f | _ => t end.
Ltac honestly :=
  repeat first
    [ progress intros
    | apply honest_ret | apply honest_lift | apply honest_of | apply honest_execute
    | apply honest_for_each
    | apply honest_bind
    | match goal with |- honest (match ?x with _ => _ end) => destruct x end
    | match goal with |- honest (let _ := _ in _) => cbv zeta end
    | match goal with |- honest ?m => let h := head m in unfold h end ].

Section persistence.
Context (to_lowercase : string -> string) (sha256 : bytes -> bytes).
Context (route_ids : ProtocolDialect -> string -> Z) (target_ids : Z -> Z -> ProtocolDialect -> string -> Z).
Context (access_token_of : bytes -> option (option string)) (host_parse : string -> option string).
Context {url_lib : UrlLib} {json : JsonLib} {nets : IpNetLib}.
Context (json_print : Value -> option string) (json_read : string -> option Value).

Lemma honest_mutation now expected m :
  honest (execute_mutation to_lowercase sha256 route_ids target_ids access_token_of host_parse json_print
            json_read now expected m).
Proof. destruct m; honestly. Qed.

(** ** Reading *)

(** [m] reads [a] and writes nothing. *)
Definition reads {A} (m : statement A) (db : Database) (a : A) : Prop := m (quiet db) = Ret (Ok (a, quiet db)).
Definition read_only {A} (m : statement A) : Prop := forall db,
  (exists a, reads m db a) \/ (exists e, m (quiet db) = Ret (Err e)).

Lemma reads_bind {A B} (m : statement A) (k : A -> statement B) db b : read_only m ->
  reads (st_bind m k) db b <-> exists a, reads m db a /\ reads (k a) db b.
Proof.
  intros Hm. unfold reads, st_bind. destruct (Hm db) as [[a Ha]|[e He]].
  - unfold reads in Ha. rewrite Ha. split; [by eexists|]. intros (a' & Ha' & Hk). by simplify_eq.
  - rewrite He. split; [done|]. by intros (a & ? & _).
Qed.
Lemma reads_fetch {A} (f : Database -> A) db a : reads (fetch f) db a <-> a = f db.
Proof. unfold reads, fetch, execute. simpl. split; [by intros [= <-]|by intros ->]. Qed.
Lemma reads_lift {A} (r : result A StorageError) db a : reads (st_lift r) db a <-> r = Ok a.
Proof. unfold reads, st_lift, st_of. destruct r; split; intros; by simplify_eq. Qed.
Lemma reads_ret {A} (a b : A) db : reads (st_ret a) db b <-> b = a.
Proof. unfold reads, st_ret. split; intros; by simplify_eq. Qed.

Lemma read_only_fetch {A} (f : Database -> A) : read_only (fetch f).
Proof. intros db. left. exists (f db). by apply reads_fetch. Qed.
Lemma read_only_lift {A} (r : result A StorageError) : read_only (st_lift r).
Proof. intros db. destruct r as [a|e]; [left; by exists a|right; by exists e]. Qed.
Lemma read_only_bind {A B} (m : statement A) (k : A -> statement B) :
  read_only m -> (forall a, read_only (k a)) -> read_only (st_bind m k).
Proof.
  intros Hm Hk db. destruct (Hm db) as [[a Ha]|[e He]].
  - destruct (Hk a db) as [[b Hb]|[e He]].
    + left. exists b. apply reads_bind; [done|]. by exists a.
    + right. exists e. unfold st_bind. unfold reads in Ha. by rewrite Ha.
  - right. exists e. unfold st_bind. by rewrite He.
Qed.

#[local] Abbreviation load := (load_configuration to_lowercase sha256 access_token_of host_parse json_read).

(** The parts of a configuration are loaded one by one. *)
Record parts_loaded (db : Database) (c : StoredConfiguration) : Prop := {
  pl_revision : reads load_revision db (st_revision c);
  pl_proxies : reads (load_proxies to_lowercase host_parse) db (st_proxies c, st_proxy_passwords c);
  pl_endpoints : reads (load_endpoints to_lowercase) db (st_endpoints c);
  pl_routes : reads (load_routes (st_endpoints c)) db (st_routes c);
  pl_credentials : reads (load_credentials to_lowercase sha256 (st_endpoints c) (st_proxies c)) db
                     (st_credentials c, st_credential_secrets c);
  pl_accounts : reads (load_accounts to_lowercase access_token_of (st_proxies c)) db
                  (st_accounts c, st_account_materials c);
  pl_keys : reads (load_keys sha256) db (st_keys c);
  pl_settings : reads (load_settings json_read) db (st_settings c)
}.

Ltac read_only_shape := repeat first [ progress intros | apply read_only_fetch | apply read_only_lift
  | apply read_only_bind | match goal with |- read_only ?m => let h := head m in unfold h end ].
Lemma load_parts db c : reads load db c <-> parts_loaded db c.
Proof.
  unfold load_configuration. split.
  - intros H. do 8 (apply reads_bind in H as (? & ? & H); [|read_only_shape]). apply reads_ret in H as ->.
    repeat match goal with p : _ * _ |- _ => destruct p end. by constructor.
  - intros [H1 H2 H3 H4 H5 H6 H7 H8]. do 8 (apply reads_bind; [read_only_shape|eexists; split; [eassumption|]]).
    apply reads_ret. by destruct c.
Qed.

(** A part depends only on its own tables. *)
Lemma reads_fetch_bind {A B} (f : Database -> A) (k : A -> statement B) db b :
  reads (st_bind (fetch f) k) db b <-> reads (k (f db)) db b.
Proof. done. Qed.
Ltac reread :=
  match goal with
  | H : reads ?m _ ?x |- reads ?m _ ?x =>
    let h := head m in unfold h in H |- *;
    repeat apply (proj1 (reads_fetch_bind _ _ _ _)) in H; apply (proj1 (reads_lift _ _ _)) in H;
    repeat apply (proj2 (reads_fetch_bind _ _ _ _)); apply (proj2 (reads_lift _ _ _)); exact H
  end.

(** The configuration with other keys, loaded from other rows of keys *)
Definition with_keys (c : StoredConfiguration) (keys : list GatewayApiKey) : StoredConfiguration :=
  {| st_revision := st_revision c; st_proxies := st_proxies c; st_endpoints := st_endpoints c;
     st_credentials := st_credentials c; st_accounts := st_accounts c; st_routes := st_routes c;
     st_keys := keys; st_settings := st_settings c; st_credential_secrets := st_credential_secrets c;
     st_account_materials := st_account_materials c; st_proxy_passwords := st_proxy_passwords c |}.
Lemma load_other_keys db t c keys : reads load db c -> reads (load_keys sha256) (set_keys t db) keys ->
  reads load (set_keys t db) (with_keys c keys).
Proof. intros [H1 H2 H3 H4 H5 H6 _ H8]%load_parts Hk. apply load_parts. constructor; simpl; first [done|reread]. Qed.

(** ** Gateway keys *)

Definition rpm_ok (o : option Z) : Prop := forall v, o = Some v -> 1 <= v <= MAX_REQUESTS_PER_MINUTE.
Lemma parse_rpm_Ok o o' : parse_rpm o = Ok o' <-> o' = o /\ rpm_ok o.
Proof.
  unfold parse_rpm, rpm_ok. destruct o as [v|]; simpl.
  - unfold unsigned, rpm_new, MAX_REQUESTS_PER_MINUTE, u32_max. split.
    + destruct (_ && _) eqn:E1; [|done]. simpl. destruct (_ && (v <=? 100000)) eqn:E2; [|done]. simpl.
      intros [= <-]. bool_to_prop. split; [done|]. intros w [= <-]. lia.
    + intros [-> Hv]. specialize (Hv v eq_refl).
      destruct (_ && _) eqn:E1; bool_to_prop; [|lia]. destruct (_ && (v <=? 100000)) eqn:E2; bool_to_prop; [done|lia].
  - split; [by intros [= <-]|by intros [-> _]].
Qed.
Lemma parse_bool_Ok v b : parse_bool v = Ok b <-> v = Z.b2z b.
Proof.
  unfold parse_bool. destruct (Z.eqb_spec v 0) as [->|]; [destruct b; split; intros; simplify_eq; done|].
  destruct (Z.eqb_spec v 1) as [->|]; [destruct b; split; intros; simplify_eq; done|].
  split; [done|]. by destruct b.
Qed.
Lemma corrupt_Ok {A E} (r : result A E) a : corrupt r = Ok a <-> r = Ok a.
Proof. unfold corrupt. destruct r; simpl; split; intros; by simplify_eq. Qed.
Lemma corrupt_inv {A E} (r : result A E) a : corrupt r = Ok a -> r = Ok a.
Proof. apply corrupt_Ok. Qed.
Lemma unsigned_Ok max v w : unsigned max v = Ok w <-> w = v /\ 0 <= v <= max.
Proof.
  unfold unsigned. destruct (_ && _) eqn:E1; bool_to_prop.
  - split; [intros; simplify_eq; lia|]. by intros [-> _].
  - split; [done|]. intros [-> H]. lia.
Qed.
Lemma parse_key_version_Ok v w : parse_key_version v = Ok w <-> w = v /\ version_ok v.
Proof.
  unfold parse_key_version, version_ok, MAX_VERSION. destruct (unsigned _ _) as [x|] eqn:E1.
  - apply unsigned_Ok in E1 as [-> E1]. destruct (_ && _) eqn:E2; bool_to_prop.
    + split; [intros; simplify_eq; lia|by intros [-> _]].
    + split; [done|]. lia.
  - split; [done|]. intros [-> H]. rewrite (proj2 (unsigned_Ok _ v v)) in E1; [done|].
    unfold u32_max, u64_max in *. lia.
Qed.

(** The row of a key, and the keys that rows hold *)
Definition key_row (k : GatewayApiKey) : GatewayApiKeyRow :=
  {| kr_name := gk_name k; kr_token := gk_token k; kr_token_prefix := gk_token_prefix k;
     kr_token_hash := gk_token_hash k; kr_hash_version := gk_hash_version k;
     kr_token_version := gk_token_version k; kr_config_version := gk_config_version k; kr_rpm := gk_rpm k;
     kr_enabled := Z.b2z (gk_enabled k); kr_created_at := gk_created_at k;
     kr_last_used_at := gk_last_used_at k |}.
Definition key_stored (k : GatewayApiKey) : Prop :=
  key_good k /\ rpm_ok (gk_rpm k) /\ length (gk_token_hash k) = 32%nat /\
  gk_token_hash k = verifier_hash sha256 (bytes_of (gk_token k)).

Lemma parse_key_iff id row k : parse_key sha256 id row = Ok k <-> row = key_row k /\ id = gk_id k /\ key_stored k.
Proof.
  unfold parse_key. split.
  - case_bool_decide as Hl; [|done]. case_bool_decide as Hh; [|done]. simpl.
    destruct (parse_bool _) as [en|] eqn:E1; [|done]. apply parse_bool_Ok in E1.
    destruct (parse_rpm _) as [rpm|] eqn:E2; [|done]. apply parse_rpm_Ok in E2 as [-> Hr].
    destruct (corrupt (key_draft_new _ _ _)) as [d|] eqn:E3; [|done]. apply corrupt_inv in E3.
    destruct (unsigned _ _) as [hv|] eqn:E4; [|done]. apply unsigned_Ok in E4 as [-> _].
    destruct (parse_key_version _) as [tv|] eqn:E5; [|done]. apply parse_key_version_Ok in E5 as [-> Ht].
    destruct (parse_key_version (kr_config_version row)) as [cv|] eqn:E6; [|done].
    apply parse_key_version_Ok in E6 as [-> Hc]. intros H. apply corrupt_inv in H.
    pose proof (key_draft_Ok _ _ _ _ E3) as Hn. unfold key_draft_new in E3.
    destruct (validate_text _ _ _ _ _) as [n|] eqn:En; [|done]. apply validate_text_Ok in En as [-> _].
    simplify_eq. unfold key_restore in H. destruct (_ || _) eqn:Ev; [done|]. bool_to_prop.
    destruct (validate_token _) as [[]|] eqn:V1; [|done]. destruct (validate_prefix _) as [p|] eqn:V2; [|done].
    pose proof (validate_prefix_Ok _ _ V2) as ->.
    destruct (match kr_last_used_at row with Some v => validate_timestamp v | None => Ok () end) as [[]|] eqn:V3; [|done].
    destruct (validate_timestamp _) as [[]|] eqn:V4; [|done]. simplify_eq.
    split; [destruct row; simpl in *; by subst|]. split; [done|]. unfold key_stored, key_good. simpl in *.
    split_and!; try done. by destruct (kr_last_used_at row).
  - intros (-> & -> & Hg & Hr & Hl & Hh). unfold key_row. simpl.
    rewrite bool_decide_eq_true_2 by done. rewrite bool_decide_eq_true_2 by done. simpl.
    rewrite (proj2 (parse_bool_Ok _ (gk_enabled k)) eq_refl), (proj2 (parse_rpm_Ok _ _) (conj eq_refl Hr)).
    pose proof (good_reload (A := GatewayApiKey) k Hg) as Hre. simpl in Hre. unfold key_reload in Hre.
    destruct (key_draft_new _ _ _) as [d|] eqn:Ed; [|done].
    rewrite (proj2 (corrupt_Ok _ d) eq_refl).
    pose proof Hg as (_ & Hhv & Ht & Hc & _). assert (0 <= gk_hash_version k <= u32_max) as Hw.
    { rewrite Hhv. unfold GATEWAY_TOKEN_HASH_VERSION, u32_max. lia. }
    rewrite (proj2 (unsigned_Ok _ _ _) (conj eq_refl Hw)).
    rewrite (proj2 (parse_key_version_Ok _ _) (conj eq_refl Ht)), (proj2 (parse_key_version_Ok _ _) (conj eq_refl Hc)).
    apply corrupt_Ok. unfold ok in Hre. destruct (key_restore _ _ _ _ _ _ _ _ _ _); by simplify_eq.
Qed.
Lemma parse_key_id id row k : parse_key sha256 id row = Ok k -> gk_id k = id.
Proof. by intros (_ & -> & _)%parse_key_iff. Qed.

#[local] Abbreviation keys_rep := (represents (parse_key sha256) gk_id).

Lemma keys_new_perm l k keys : l ≡ₚ k -> keys_new l = Ok keys -> keys_new k = Ok keys.
Proof.
  intros Hp H. apply keys_new_Ok in H as (-> & H1 & H2). apply keys_new_Ok.
  split_and!; [|by rewrite <- Hp..]. apply (sort_by_perm name_le gk_name); [done|].
  apply (NoDup_fmap_1 to_ascii_lowercase). by rewrite <- list_fmap_compose.
Qed.

Lemma reads_keys db keys : reads (load_keys sha256) db keys <->
  exists l, keys_rep (db_keys db) l /\ keys_new l = Ok keys.
Proof.
  unfold load_keys. rewrite reads_bind by apply read_only_fetch. setoid_rewrite reads_fetch.
  setoid_rewrite reads_lift. split.
  - intros (rows & -> & H). destruct (try_map _ _) as [l|] eqn:E1; [|done]. apply corrupt_inv in H. exists l.
    split; [|done]. eapply try_map_rep; [apply parse_key_id| |done]. apply merge_sort_Permutation.
  - intros (l & Hl & H). eexists. split; [done|].
    destruct (rep_try_map _ _ parse_key_id (db_keys db)
      (order_by name_le (fun r => kr_name r.2) (map_to_list (db_keys db))) l) as (k & -> & Hk);
      [apply merge_sort_Permutation|done|]. apply corrupt_Ok. by eapply keys_new_perm.
Qed.

Context (sha256_length : forall l, length (sha256 l) = 32%nat).

(** The drafts of a mutation come from their constructors. *)
Definition key_draft_ok (d : GatewayApiKeyDraft) : Prop :=
  exists name enabled, rpm_ok (gd_rpm d) /\ key_draft_new name (gd_rpm d) enabled = Ok d.
Definition key_mutation_ok (m : GatewayApiKeyMutation) : Prop :=
  match m with KeyCreate _ d _ _ | KeyUpdate _ _ d => key_draft_ok d | _ => True end.

Lemma to_i64_version v : version_ok v -> to_i64 v = Ok v.
Proof.
  unfold version_ok, MAX_VERSION, u32_max, to_i64, i64_max. intros Hv.
  destruct (Z.leb_spec v (2 ^ 63 - 1)); [done|lia].
Qed.
Lemma map_err_Ok {A E F} (f : E -> F) (r : result A E) a : map_err f r = Ok a -> r = Ok a.
Proof. destruct r; simpl; intros; by simplify_eq. Qed.
Lemma utf8_bytes l s : from_utf8 l = Some s -> bytes_of s = l.
Proof.
  unfold from_utf8, bytes_of. destruct (utf8_valid l); [|done]. intros [= <-].
  apply String.list_byte_of_string_of_list_byte.
Qed.

Lemma rep_stored t l k : keys_rep t l -> k ∈ l -> t !! gk_id k = Some (key_row k) /\ key_stored k.
Proof.
  intros Ht Hk. destruct (rep_entity _ _ parse_key_id t l k Ht Hk) as (row & Hrow & Hp).
  apply parse_key_iff in Hp as (-> & _ & Hs). done.
Qed.
Lemma stored_parses k : key_stored k -> parse_key sha256 (gk_id k) (key_row k) = Ok k.
Proof. intros Hs. by apply parse_key_iff. Qed.
Lemma stored_versions k : key_stored k ->
  to_i64 (gk_token_version k) = Ok (gk_token_version k) /\ to_i64 (gk_config_version k) = Ok (gk_config_version k).
Proof. intros ((_ & _ & H1 & H2 & _) & _). by split; apply to_i64_version. Qed.

(** Writing the row of a key that is there *)
Lemma update_key_quiet {f : GatewayApiKeyRow -> GatewayApiKeyRow} db l k k' :
  keys_rep (db_keys db) l -> k ∈ l -> gk_id k' = gk_id k -> key_stored k' -> f (key_row k) = key_row k' ->
  (n <~ update_row db_keys set_keys (gk_id k') f; require_single_row n (StorageKeyNotFound (gk_id k')))
    (quiet db) = Ret (Ok ((), quiet (set_keys (<[gk_id k' := key_row k']> (db_keys db)) db))) /\
  keys_rep (<[gk_id k' := key_row k']> (db_keys db)) (replace_by gk_id k' l).
Proof.
  intros Ht Hk Hid Hs Hf. destruct (rep_stored _ _ _ Ht Hk) as [Hrow _]. split.
  - unfold st_bind, update_row, execute. simpl. rewrite Hid, Hrow. simpl. by rewrite Hf.
  - apply rep_update; [apply parse_key_id|done| |by apply stored_parses]. rewrite Hid. by apply list_elem_of_fmap_2.
Qed.

Lemma existing_key keys id k : NoDup (gk_id <$> keys) -> key_get keys id = Some k -> k ∈ keys /\ gk_id k = id.
Proof. intros Hnd. by apply (entity_get_Some gk_id). Qed.

(** A change that was written: the keys table now holds what was prepared. *)
Definition key_written (db : Database) (change : GatewayApiKeyChange) (keys : list GatewayApiKey) : Prop :=
  exists t k, execute_key_change change (quiet db) = Ret (Ok ((), quiet (set_keys t db))) /\
    keys_rep t k /\ keys_new k = Ok keys.

Section written.
Context (db : Database) (l : list GatewayApiKey) (Ht : keys_rep (db_keys db) l).

Lemma create_key_written id d token created_at keys change : key_draft_ok d ->
  create_key sha256 l id d token created_at = Ok (keys, change) -> key_written db change keys.
Proof.
  intros (name & enabled & Hr & Hd) Hp. unfold create_key, display_prefix, utf8_token in Hp.
  destruct (from_utf8 token) as [s|] eqn:Eu; [|done]. destruct (validate_token s); [|done].
  destruct (map_err _ _) as [k|] eqn:Ek; [|done].
  destruct (map_err map_key_error _) as [keys'|] eqn:En; [|done]. simplify_eq/=. apply map_err_Ok in Ek, En.
  pose proof (made_good (A := GatewayApiKey) k (key_made_by _ _ _ _ _ _ _ _ _ _ Hd Ek)) as Hg.
  assert (gk_rpm k = gd_rpm d /\ gk_token_hash k = verifier_hash sha256 token /\ gk_token k = s /\
    gk_last_used_at k = None) as (E1 & E2 & E3 & E4).
  { unfold key_create in Ek. repeat case_match; by simplify_eq/=. }
  assert (key_stored k) as Hs.
  { refine (conj Hg _). rewrite E1, E2, E3, (utf8_bytes token s Eu). split_and!; [done|apply sha256_length|done]. }
  pose proof (proj1 (keys_new_Ok _ _) En) as (_ & Hnd' & _).
  exists (<[gk_id k := key_row k]> (db_keys db)), (l ++ [k]). split_and!; [| |done].
  - destruct (stored_versions k Hs) as [Hv1 Hv2]. unfold execute_key_change, insert_key, st_bind, st_lift, st_of.
    rewrite Hv1, Hv2. unfold insert_row, execute, key_row. simpl. by rewrite E4.
  - apply rep_insert; [apply parse_key_id|done| |by apply stored_parses].
    rewrite fmap_app in Hnd'. apply NoDup_app in Hnd' as (_ & Hx & _). intros Hin. apply (Hx _ Hin). simpl. set_solver.
Qed.

Lemma update_key_written id expected d keys change : key_draft_ok d ->
  update_key l id expected d = Ok (Some (keys, change)) -> key_written db change keys.
Proof.
  intros (name & enabled & Hr & Hd) Hp. unfold update_key in Hp.
  destruct (key_get l id) as [k|] eqn:Eg; [|done]. apply existing_key in Eg as [Hk <-]; [|by eapply rep_ids].
  destruct (require_key_version _ _); [|done]. destruct (map_err _ (key_updated k d)) as [k'|] eqn:Ek; [|done].
  case_bool_decide as Hne; [done|]. destruct (map_err map_key_error _) as [keys'|] eqn:En; [|done]. simplify_eq.
  apply map_err_Ok in Ek, En. destruct (rep_stored _ _ _ Ht Hk) as [_ Hs].
  pose proof (moved_good (A := GatewayApiKey) k k' (proj1 Hs) (key_moved_update _ _ _ _ _ _ Hd Ek)) as Hg.
  destruct Hs as (_ & _ & Hl & Hh). unfold key_updated in Ek. destruct (_ && _); [by simplify_eq|].
  destruct (next_version _ _); [|done]. injection Ek as <-.
  match type of Hg with good ?k' => assert (key_stored k') as Hs' by exact (conj Hg (conj Hr (conj Hl Hh))) end.
  eexists _, (replace_by gk_id _ l). split_and!; [| |done].
  - destruct (stored_versions _ Hs') as [_ Hv]. unfold execute_key_change, update_key_row.
    unfold st_bind at 1, st_lift, st_of. rewrite Hv. by eapply update_key_quiet.
  - by eapply (update_key_quiet (f := fun _ => key_row _)).
Qed.

Lemma rotate_key_written id expected expected_token token keys change :
  rotate_key sha256 l id expected expected_token token = Ok (keys, change) -> key_written db change keys.
Proof.
  intros Hp. unfold rotate_key in Hp. destruct (key_get l id) as [k|] eqn:Eg; [|done].
  apply existing_key in Eg as [Hk <-]; [|by eapply rep_ids].
  destruct (require_key_version _ _); [|done]. destruct (negb _); [done|].
  unfold display_prefix, utf8_token in Hp. destruct (from_utf8 token) as [s|] eqn:Eu; [|done].
  destruct (validate_token s); [|done]. destruct (map_err _ (key_rotated _ _ _ _)) as [k'|] eqn:Ek; [|done].
  destruct (map_err map_key_error _) as [keys'|] eqn:En; [|done]. simplify_eq. apply map_err_Ok in Ek, En.
  destruct (rep_stored _ _ _ Ht Hk) as [_ Hs].
  pose proof (moved_good (A := GatewayApiKey) k k' (proj1 Hs) (key_moved_rotate _ _ _ _ _ Ek)) as Hg.
  destruct Hs as (_ & Hr & _ & _). unfold key_rotated in Ek. repeat case_match; try done. injection Ek as <-.
  match type of Hg with good ?k' => assert (key_stored k') as Hs' end.
  { refine (conj Hg (conj Hr _)). simpl. rewrite (utf8_bytes token s Eu). split; [apply sha256_length|done]. }
  eexists _, (replace_by gk_id _ l). split_and!; [| |done].
  - destruct (stored_versions _ Hs') as [Hv1 Hv2]. unfold execute_key_change, rotate_key_row.
    unfold st_bind at 1 2, st_lift, st_of. rewrite Hv1, Hv2. by eapply update_key_quiet.
  - by eapply (update_key_quiet (f := fun _ => key_row _)).
Qed.

Lemma delete_key_written id expected keys change :
  delete_key l id expected = Ok (keys, change) -> key_written db change keys.
Proof.
  intros Hp. unfold delete_key in Hp. destruct (key_get l id) as [k|] eqn:Eg; [|done].
  apply existing_key in Eg as [Hk <-]; [|by eapply rep_ids]. destruct (require_key_version _ _); [|done].
  destruct (map_err map_key_error _) as [keys'|] eqn:En; [|done]. simplify_eq. apply map_err_Ok in En.
  destruct (rep_stored _ _ _ Ht Hk) as [Hrow _].
  exists (delete (gk_id k) (db_keys db)), (remove_by gk_id (gk_id k) l). split_and!; [| |done].
  - unfold execute_key_change, st_bind, delete_row, execute. simpl. by rewrite Hrow.
  - apply rep_delete; [apply parse_key_id|done].
Qed.

Lemma key_change_written m keys change : key_mutation_ok m ->
  prepare_key sha256 l m = Ok (Some (keys, change)) -> key_written db change keys.
Proof.
  destruct m; simpl; intros Hm Hp.
  - destruct (create_key _ _ _ _ _ _) as [[]|] eqn:E; simplify_eq/=. by eapply create_key_written.
  - by eapply update_key_written.
  - destruct (rotate_key _ _ _ _ _ _) as [[]|] eqn:E; simplify_eq/=. by eapply rotate_key_written.
  - destruct (delete_key _ _ _) as [[]|] eqn:E; simplify_eq/=. by eapply delete_key_written.
Qed.
End written.

(** ** Settings *)

Context {jlaws : JsonLibLaws json} {nlaws : IpNetLibLaws nets}.
(** [serde_json] reads back what it printed of a setting. *)
Context (json_text : forall v, value_width v ->
  exists text, json_print (to_json v) = Some text /\ json_read text = Some (to_json v)).

(** What the row of one key says of its override *)
Definition override_row (t : gmap string string) (o : gmap SettingKey SettingValue) (key : SettingKey) : Prop :=
  match t !! key_as_str key with
  | None => o !! key = None
  | Some text => exists v, parse_setting json_read (key_as_str key, text) = Ok (key, v) /\ o !! key = Some v
  end.
Definition settings_rep (t : gmap string string) (o : gmap SettingKey SettingValue) : Prop :=
  (forall key, override_row t o key) /\ (forall s text, t !! s = Some text -> exists key, key_as_str key = s).

Lemma parse_setting_Ok s text key v : parse_setting json_read (s, text) = Ok (key, v) ->
  key_as_str key = s /\ value_ok key v /\ value_width v.
Proof.
  unfold parse_setting. simpl. destruct (key_parse s) as [k|] eqn:Ek; [|done]. simpl.
  destruct (json_read text) as [j|]; [|done]. simpl. destruct (corrupt _) as [w|] eqn:E; [|done].
  intros [= <- <-]. apply corrupt_inv in E. split; [by apply key_as_str_parse|]. split; [by eapply from_json_ok|].
  by eapply from_json_width.
Qed.

Lemma insert_entries_Ok entries o0 : Forall (fun e => value_ok e.1 e.2) entries -> NoDup entries.*1 ->
  insert_entries entries o0 = Ok (list_to_map entries ∪ o0).
Proof.
  revert o0. induction entries as [|[key v] entries IH]; intros o0 Hf Hnd; simpl; [by rewrite map_empty_union|].
  apply Forall_cons in Hf as [Hv Hf]. apply NoDup_cons in Hnd as [Hn Hnd]. unfold override_insert.
  simpl in Hv. unfold value_ok in Hv. rewrite Hv. simpl. rewrite IH by done. f_equal.
  rewrite <- insert_union_r; [by rewrite insert_union_l|]. by apply not_elem_of_list_to_map_1.
Qed.
Lemma from_entries_self (o : gmap SettingKey SettingValue) : map_Forall value_ok o ->
  from_entries (map_to_list o) = Ok o.
Proof.
  intros Ho. unfold from_entries. rewrite insert_entries_Ok.
  - by rewrite list_to_map_to_list, map_union_empty.
  - apply Forall_forall. intros [key v] Hin. apply elem_of_map_to_list in Hin. by apply Ho.
  - apply NoDup_fst_map_to_list.
Qed.

Lemma rows_overrides t rows entries : rows ≡ₚ map_to_list t -> try_map (parse_setting json_read) rows = Ok entries ->
  from_entries entries = Ok (list_to_map entries) /\ settings_rep t (list_to_map entries).
Proof.
  intros Hp H. apply try_map_Ok in H.
  assert (forall i r, rows !! i = Some r -> exists v key, entries !! i = Some (key, v) /\
    parse_setting json_read r = Ok (key, v) /\ key_as_str key = r.1 /\ value_ok key v) as Hrow.
  { intros i [s text] Hi. destruct (Forall2_lookup_l _ _ _ _ _ H Hi) as ([key v] & He & Hv).
    apply parse_setting_Ok in Hv as Hv'. destruct Hv' as (Hk & Hok & _). by exists v, key. }
  assert (NoDup entries.*1) as Hnd.
  { apply (NoDup_fmap_1 key_as_str). rewrite <- list_fmap_compose.
    replace (((key_as_str ∘ fst) : SettingKey * SettingValue -> string) <$> entries) with (rows.*1);
      [rewrite Hp; apply NoDup_fst_map_to_list|].
    clear Hp Hrow. induction H as [|[s text] [key v] rows entries Hv H IH]; [done|]. simpl.
    apply parse_setting_Ok in Hv as [-> _]. simpl. by f_equal. }
  assert (Forall (fun e => value_ok e.1 e.2) entries) as Hok.
  { apply Forall_forall. intros e He. apply list_elem_of_lookup in He as [i Hi].
    destruct (Forall2_lookup_r _ _ _ _ _ H Hi) as ([s text] & Hr & _).
    destruct (Hrow _ _ Hr) as (v & key & Hi' & _ & _ & Hv). by simplify_eq. }
  split; [unfold from_entries; by rewrite insert_entries_Ok, map_union_empty|]. split.
  - intros key. unfold override_row. destruct (t !! key_as_str key) as [text|] eqn:Et.
    + apply elem_of_map_to_list in Et. rewrite <- Hp in Et. apply list_elem_of_lookup in Et as [i Hi].
      destruct (Hrow _ _ Hi) as (v & key' & He & Hv & Hk & _). simpl in Hk.
      assert (key' = key) as ->. { apply (inj Some). by rewrite <- !key_parse_as_str, Hk. }
      exists v. split; [done|]. apply elem_of_list_to_map_1; [done|]. by eapply list_elem_of_lookup_2.
    + destruct (_ !! key) as [v|] eqn:Ev; [|done]. apply elem_of_list_to_map_2 in Ev.
      apply list_elem_of_lookup in Ev as [i Hi]. destruct (Forall2_lookup_r _ _ _ _ _ H Hi) as ([s text] & Hr & Hv).
      apply parse_setting_Ok in Hv as [Hk _]. simpl in Hk. subst s.
      apply list_elem_of_lookup_2 in Hr. rewrite Hp in Hr. apply elem_of_map_to_list in Hr. congruence.
  - intros s text Hs. apply elem_of_map_to_list in Hs. rewrite <- Hp in Hs.
    apply list_elem_of_lookup in Hs as [i Hi]. destruct (Hrow _ _ Hi) as (v & key & _ & _ & Hk & _). by exists key.
Qed.

Lemma settings_rep_unique t o o' : settings_rep t o -> settings_rep t o' -> o = o'.
Proof.
  intros [H1 _] [H2 _]. apply map_eq. intros key. specialize (H1 key). specialize (H2 key).
  unfold override_row in *. destruct (t !! _); [|congruence].
  destruct H1 as (v & Hv & ->), H2 as (v' & Hv' & ->). congruence.
Qed.
Lemma reads_settings db s : reads (load_settings json_read) db s <->
  exists o, settings_rep (db_settings db) o /\ from_overrides o = Ok s.
Proof.
  unfold load_settings. rewrite reads_bind by apply read_only_fetch. setoid_rewrite reads_fetch.
  setoid_rewrite reads_lift. set (rows := order_by name_le fst (map_to_list (db_settings db))).
  assert (rows ≡ₚ map_to_list (db_settings db)) as Hp by apply merge_sort_Permutation. split.
  - intros (? & -> & H). fold rows in H. destruct (try_map _ rows) as [entries|] eqn:E1; [|done].
    destruct (rows_overrides _ _ _ Hp E1) as [E2 Hrep]. rewrite E2 in H. simpl in H. apply corrupt_inv in H.
    by exists (list_to_map entries).
  - intros (o & Ho & H). exists rows. split; [done|].
    assert (exists entries, Forall2 (fun r e => parse_setting json_read r = Ok e) rows entries) as [entries He].
    { assert (Forall (fun r => exists e, parse_setting json_read r = Ok e) rows) as Hall.
      { apply Forall_forall. intros [t text] Hr. rewrite Hp in Hr. apply elem_of_map_to_list in Hr.
        destruct (proj2 Ho _ _ Hr) as [key <-]. pose proof (proj1 Ho key) as Hk. unfold override_row in Hk.
        rewrite Hr in Hk. destruct Hk as (v & Hv & _). by exists (key, v). }
      clear Hp. induction Hall as [|r l [e He] Hall [k IH]]; [by exists []|]. exists (e :: k). by constructor. }
    apply try_map_Ok in He. rewrite He. destruct (rows_overrides _ _ _ Hp He) as [E2 Hrep]. rewrite E2. simpl.
    apply corrupt_Ok. by rewrite (settings_rep_unique _ _ _ Hrep Ho).
Qed.

(** Overrides that can be written *)
Definition overrides_ok (o : gmap SettingKey SettingValue) : Prop :=
  map_Forall (fun key v => value_ok key v /\ value_width v) o.
Lemma rep_overrides_ok t o : settings_rep t o -> overrides_ok o.
Proof.
  intros [H _] key v Hv. specialize (H key). unfold override_row in H. destruct (t !! _) as [text|]; [|congruence].
  destruct H as (w & Hw & E1). simplify_eq. by apply parse_setting_Ok in Hw as (_ & ? & ?).
Qed.

Lemma upsert_row key v : value_ok key v -> value_width v -> exists text,
  json_print (to_json v) = Some text /\ parse_setting json_read (key_as_str key, text) = Ok (key, v).
Proof.
  intros Hv Hw. destruct (json_text v Hw) as (text & Hp & Hr). exists text. split; [done|].
  unfold parse_setting. simpl. rewrite key_parse_as_str. simpl. rewrite Hr. simpl. by rewrite to_json_reads.
Qed.

Lemma override_row_other t o key key' text : key' <> key -> override_row t o key' ->
  override_row (<[key_as_str key := text]> t) o key' /\ override_row (delete (key_as_str key) t) o key'.
Proof.
  intros Hne H. assert (key_as_str key <> key_as_str key') as Hs.
  { intros E. apply Hne. apply (inj Some). by rewrite <- !key_parse_as_str, E. }
  unfold override_row in *. by rewrite lookup_insert_ne, lookup_delete_ne.
Qed.

Section persist.
Context (o n : gmap SettingKey SettingValue) (Hn : overrides_ok n).
Context (f : SettingKey -> statement ()).
Context (Hf : forall key, f key =
  if bool_decide (o !! key = n !! key) then st_ret ()
  else match n !! key with Some v => upsert_setting json_print key v | None => delete_setting key end).

(** One turn of the loop settles its key and leaves the others. *)
Lemma persist_one db key : override_row (db_settings db) o key ->
  (forall s text, db_settings db !! s = Some text -> exists key, key_as_str key = s) -> exists t,
  f key (quiet db) = Ret (Ok ((), quiet (set_settings t db))) /\ override_row t n key /\
  (forall key', key' <> key -> forall o', override_row (db_settings db) o' key' -> override_row t o' key') /\
  (forall s text, t !! s = Some text -> exists key, key_as_str key = s).
Proof.
  intros Ho Hk. rewrite Hf. case_bool_decide as E1.
  { exists (db_settings db). split_and!; [by destruct db|unfold override_row in *; by rewrite <- E1|done|done]. }
  destruct (n !! key) as [v|] eqn:En.
  - destruct (Hn key v En) as [Hv Hw]. destruct (upsert_row key v Hv Hw) as (text & Hp & Hr).
    exists (<[key_as_str key := text]> (db_settings db)). split_and!.
    + unfold upsert_setting, st_bind, st_lift, st_of. by rewrite Hp.
    + unfold override_row. rewrite lookup_insert_eq. by exists v.
    + intros key' Hne o' H. by apply override_row_other.
    + intros s text' H. apply lookup_insert_Some in H as [[<- _]|[_ H]]; [by exists key|by eapply Hk].
  - exists (delete (key_as_str key) (db_settings db)). split_and!.
    + done.
    + unfold override_row. by rewrite lookup_delete_eq.
    + intros key' Hne o' H. by apply (override_row_other _ _ _ _ "").
    + intros s text' H. apply lookup_delete_Some in H as [_ H]. by eapply Hk.
Qed.

Lemma persist_all ks db : NoDup ks -> (forall key, key ∈ ks -> override_row (db_settings db) o key) ->
  (forall s text, db_settings db !! s = Some text -> exists key, key_as_str key = s) -> exists t,
  for_each f ks (quiet db) = Ret (Ok ((), quiet (set_settings t db))) /\
  (forall key, key ∈ ks -> override_row t n key) /\
  (forall key, key ∉ ks -> forall o', override_row (db_settings db) o' key -> override_row t o' key) /\
  (forall s text, t !! s = Some text -> exists key, key_as_str key = s).
Proof.
  revert db. induction ks as [|key ks IH]; intros db Hnd Ho Hk.
  { exists (db_settings db). split_and!; [by destruct db|set_solver|done|done]. }
  apply NoDup_cons in Hnd as [Hnin Hnd]. simpl.
  destruct (persist_one db key (Ho key ltac:(set_solver)) Hk) as (t & Ht & Hkey & Hoth & Hk').
  destruct (IH (set_settings t db) Hnd) as (t' & Ht' & Hin & Hout & Hk'').
  { intros key' Hin. simpl. apply Hoth; [set_solver|]. apply Ho. set_solver. }
  { done. }
  exists t'. split_and!.
  - unfold st_bind. by rewrite Ht.
  - intros key' Hin'. apply elem_of_cons in Hin' as [->|Hin']; [|by apply Hin]. by apply Hout.
  - intros key' Hnot o' H. apply Hout; [set_solver|]. simpl. apply Hoth; [set_solver|done].
  - done.
Qed.
End persist.

Lemma ALL_complete key : key ∈ ALL.
Proof. apply (bool_decide_unpack _). by destruct key. Qed.
Lemma ALL_NoDup : NoDup ALL.
Proof. apply (bool_decide_unpack _). by vm_compute. Qed.

Lemma settings_written db current next : settings_rep (db_settings db) (overrides current) ->
  overrides_ok (overrides next) -> exists t,
  persist_changes json_print current next (quiet db) = Ret (Ok ((), quiet (set_settings t db))) /\
  settings_rep t (overrides next).
Proof.
  intros [Ho Hk] Hn. destruct (persist_all (overrides current) (overrides next) Hn _ (fun _ => eq_refl) ALL db ALL_NoDup)
    as (t & Ht & Hin & _ & Hk').
  { intros key _. apply Ho. }
  { done. }
  exists t. split; [exact Ht|]. split; [|done]. intros key. apply Hin, ALL_complete.
Qed.

(** ** Mutations against what they promise *)

#[local] Abbreviation load' := load.

(** What a mutation promises: an error, no change, or the next configuration *)
Definition at_revision {A} (expected : Z) (current : StoredConfiguration) (r : result A StorageError)
    : result A StorageError :=
  if negb (st_revision current =? expected)
  then Err (StorageRevisionConflict expected (st_revision current)) else r.
Definition next_revision (current : StoredConfiguration) : result Z StorageError :=
  if st_revision current =? i64_max then Err StorageRevisionOverflow else Ok (st_revision current + 1).
Definition applied_key (expected : Z) (current : StoredConfiguration) (m : GatewayApiKeyMutation)
    : result (option StoredConfiguration) StorageError :=
  at_revision expected current
    (p ⇐ prepare_key sha256 (st_keys current) m;
     match p with
     | None => Ok None
     | Some (keys, _) => r ⇐ next_revision current; Ok (Some (with_keys (with_revision current r) keys))
     end).
Definition applied_settings (expected : Z) (current : StoredConfiguration) (changes : list SettingOverrideChange)
    : result (option StoredConfiguration) StorageError :=
  at_revision expected current
    (p ⇐ prepare_settings (st_settings current) (st_routes current) (st_accounts current) changes;
     match p with
     | None => Ok None
     | Some s => r ⇐ next_revision current; Ok (Some (with_settings (with_revision current r) s))
     end).

(** A program keeps a promise from a database that loads to [current]. *)
Definition realises (db : Database) (current : StoredConfiguration)
    (program : statement (StoredConfiguration * bool)) (promise : result (option StoredConfiguration) StorageError)
    : Prop :=
  match promise with
  | Err e => program (quiet db) = Ret (Err e)
  | Ok None => program (quiet db) = Ret (Ok ((current, false), quiet db))
  | Ok (Some next) => exists db', program (quiet db) = Ret (Ok ((next, true), quiet db')) /\ reads load' db' next
  end.

(** Running a statement that is known to answer *)
Lemma answer_run {A B} (m : statement A) (k : A -> statement B) c a c' :
  m c = Ret (Ok (a, c')) -> st_bind m k c = k a c'.
Proof. unfold st_bind. by intros ->. Qed.
Lemma answer_fail {A B} (m : statement A) (k : A -> statement B) c e :
  m c = Ret (Err e) -> st_bind m k c = Ret (Err e).
Proof. unfold st_bind. by intros ->. Qed.

Section mutation.
Context (db : Database) (current : StoredConfiguration).
Context (Hload : reads load' db current) (Hwidth : db_revision db <= i64_max).

Lemma stored_revision : st_revision current = db_revision db /\ 0 < db_revision db.
Proof.
  apply load_parts in Hload as [H _ _ _ _ _ _ _]. unfold load_revision in H.
  apply reads_bind in H as (v & Hv & H); [|apply read_only_fetch]. apply reads_fetch in Hv as ->.
  apply (proj1 (reads_lift _ _ _)) in H. unfold parse_revision in H. destruct (Z.leb_spec (db_revision db) 0); by simplify_eq.
Qed.
Lemma load_expected_quiet expected :
  load_expected to_lowercase sha256 access_token_of host_parse json_read expected (quiet db) =
  match at_revision expected current (Ok ()) with
  | Err e => Ret (Err e)
  | Ok _ => Ret (Ok (current, quiet db))
  end.
Proof.
  unfold load_expected, at_revision. rewrite (answer_run _ _ _ _ _ Hload). unfold st_lift, st_of.
  by destruct (negb _).
Qed.

(** The revision moves by one, from whatever the change left. *)
Lemma bump_quiet db' : db_revision db' = db_revision db ->
  bump_revision (st_revision current) (quiet db') =
  match next_revision current with
  | Err e => Ret (Err e)
  | Ok r => Ret (Ok (r, quiet (set_revision r db')))
  end.
Proof.
  destruct stored_revision as [E1 Hpos]. intros E2. unfold bump_revision, next_revision. rewrite E1.
  destruct (Z.ltb_spec i64_max (db_revision db)); [lia|]. unfold st_bind at 1, execute. simpl. rewrite E2, Z.eqb_refl. simpl.
  destruct (Z.eqb_spec (db_revision db) i64_max) as [E3|E3].
  - rewrite E3, Z.ltb_irrefl. simpl. unfold classify_failed_update, load_revision, st_bind, fetch, execute, st_lift, st_of.
    simpl. unfold parse_revision. rewrite E2, E3. vm_compute. done.
  - destruct (Z.ltb_spec (db_revision db) i64_max); [|lia]. simpl. unfold st_lift, st_of, parse_revision.
    destruct (Z.leb_spec (db_revision db + 1) 0); [lia|done].
Qed.

Lemma revision_reads db' r : db_revision db' = r -> 0 < r -> reads load_revision db' r.
Proof.
  intros E1 Hr. unfold reads, load_revision, st_bind, fetch, execute, st_lift, st_of, parse_revision. simpl.
  rewrite E1. by destruct (Z.leb_spec r 0); [lia|].
Qed.
Lemma next_revision_pos r : next_revision current = Ok r -> 0 < r /\ r = st_revision current + 1.
Proof.
  destruct stored_revision as [E1 Hpos]. unfold next_revision. destruct (_ =? _); [done|]. intros [= <-]. lia.
Qed.
Lemma ensure_same {A} `{EqDecision A} (a : A) c x : ensure_write_matches a a c x = Ret (Ok ((), x)).
Proof. unfold ensure_write_matches, st_lift, st_of. by rewrite bool_decide_eq_true_2. Qed.

(** Every mutation first finds the expected revision. *)
Lemma from_expected expected body promise :
  (st_revision current = expected -> realises db current (body current) promise) ->
  realises db current
    (st_bind (load_expected to_lowercase sha256 access_token_of host_parse json_read expected) body)
    (at_revision expected current promise).
Proof.
  intros H. pose proof (load_expected_quiet expected) as Hl. unfold at_revision in *.
  destruct (negb (st_revision current =? expected)) eqn:Er.
  - simpl. by apply answer_fail.
  - simpl in Hl. bool_to_prop. specialize (H Er). unfold realises in *. by rewrite (answer_run _ _ _ _ _ Hl).
Qed.

(** Every mutation that changes something ends the same way: the change is written,
    the revision moves, what was written is read back and compared. *)
Lemma written_realises (write : statement ()) (readback : statement StoredConfiguration)
    (check : StoredConfiguration -> statement ()) db1 (next : Z -> StoredConfiguration) :
  write (quiet db) = Ret (Ok ((), quiet db1)) -> db_revision db1 = db_revision db ->
  (forall r, 0 < r -> readback (quiet (set_revision r db1)) = Ret (Ok (next r, quiet (set_revision r db1))) /\
     st_revision (next r) = r /\ reads load' (set_revision r db1) (next r)) ->
  (forall r x, check (next r) x = Ret (Ok ((), x))) ->
  realises db current
    (_ <~ write; revision <~ bump_revision (st_revision current); c <~ readback;
     _ <~ ensure_write_matches (st_revision c) revision ComponentRevision; _ <~ check c; st_ret (c, true))
    (r ⇐ next_revision current; Ok (Some (next r))).
Proof.
  intros Hw Hr Hb Hc. pose proof (bump_quiet db1 Hr) as Hbump. destruct (next_revision current) as [r|e] eqn:En.
  - destruct (next_revision_pos _ En) as [Hpos _]. destruct (Hb r Hpos) as (H1 & H2 & H3).
    exists (set_revision r db1). split; [|done]. rewrite (answer_run _ _ _ _ _ Hw), (answer_run _ _ _ _ _ Hbump).
    rewrite (answer_run _ _ _ _ _ H1), H2, (answer_run _ _ _ _ _ (ensure_same r _ _)).
    by rewrite (answer_run _ _ _ _ _ (Hc r _)).
  - unfold realises. rewrite (answer_run _ _ _ _ _ Hw). by apply answer_fail.
Qed.

Lemma lift_run {A B} (r : result A StorageError) (k : A -> statement B) c :
  st_bind (st_lift r) k c = match r with Ok a => k a c | Err e => Ret (Err e) end.
Proof. unfold st_bind, st_lift, st_of. by destruct r. Qed.

Lemma parts_quiet db' r : reads load_revision db' r ->
  parts_with_stored_revision current (quiet db') = Ret (Ok (with_revision current r, quiet db')).
Proof. intros H. unfold parts_with_stored_revision. by rewrite (answer_run _ _ _ _ _ H). Qed.

Lemma mutate_key_realises expected m : key_mutation_ok m ->
  realises db current (mutate_key to_lowercase sha256 access_token_of host_parse json_read expected m)
    (applied_key expected current m).
Proof.
  intros Hm. apply from_expected. intros <-. unfold realises. rewrite lift_run.
  pose proof (proj1 (load_parts _ _) Hload) as Hparts.
  pose proof (proj1 (reads_keys _ _) (pl_keys _ _ Hparts)) as (l & Hl & Hnew).
  destruct (prepare_key sha256 (st_keys current) m) as [[[keys change]|]|e] eqn:Ep; [|done|done].
  apply keys_new_Ok in Hnew as (E1 & _). assert (keys_rep (db_keys db) (st_keys current)) as Hrep.
  { eapply rep_perm; [exact Hl|]. rewrite E1. symmetry. apply merge_sort_Permutation. }
  destruct (key_change_written db (st_keys current) Hrep m keys change Hm Ep) as (t & k & Hw & Ht & Hk).
  eapply (written_realises (execute_key_change change) (readback_keys sha256 current)
    (fun c => ensure_write_matches (st_keys c) keys ComponentGatewayApiKeys) (set_keys t db)
    (fun r => with_keys (with_revision current r) keys)); [done|done| |intros; apply ensure_same].
  intros r Hr. assert (reads (load_keys sha256) (set_revision r (set_keys t db)) keys) as Hkeys.
  { apply reads_keys. by exists k. }
  pose proof (revision_reads (set_revision r (set_keys t db)) r eq_refl Hr) as Hrev. split_and!; [|done|].
  - unfold readback_keys. by rewrite (answer_run _ _ _ _ _ (parts_quiet _ _ Hrev)), (answer_run _ _ _ _ _ Hkeys).
  - apply load_parts. destruct Hparts. constructor; simpl; first [done|reread].
Qed.
(** The values of setting changes are values their types hold. *)
Definition changes_ok (changes : list SettingOverrideChange) : Prop :=
  Forall (fun c => match c with SetOverride _ v => value_width v | ResetOverride _ => True end) changes.

Lemma apply_changes_ok routes accounts changes o n : changes_ok changes -> overrides_ok o ->
  apply_changes routes accounts changes o = Ok n -> overrides_ok n.
Proof.
  intros Hc. revert o. induction Hc as [|c changes Hv Hc IH]; intros o Ho; [by intros [= <-]|].
  destruct c as [key v|key]; cbn [apply_changes]; intros H; [|by apply (IH _ (map_Forall_delete _ _ _ Ho) H)].
  match type of H with match ?x with _ => _ end = _ => destruct x as [[old o']|] eqn:E1 end; [|done].
  unfold override_insert in E1. match type of E1 with match ?x with _ => _ end = _ => destruct x as [w|] eqn:E2 end; [|done].
  injection E1 as <- <-. refine (IH _ _ H). apply map_Forall_insert_2; [|done].
  split; [by eapply normalize_value_ok|]. eapply normalize_width; [|exact E2]. case_bool_decide; [|done].
  destruct v as [| | | | |[]| |]; done.
Qed.

Lemma mutate_settings_realises expected changes : changes_ok changes ->
  realises db current
    (mutate_settings to_lowercase sha256 access_token_of host_parse json_print json_read expected changes)
    (applied_settings expected current changes).
Proof.
  intros Hc. apply from_expected. intros <-. unfold realises. rewrite lift_run.
  pose proof (proj1 (load_parts _ _) Hload) as Hparts.
  pose proof (proj1 (reads_settings _ _) (pl_settings _ _ Hparts)) as (o & Ho & Hs).
  pose proof (rep_overrides_ok _ _ Ho) as Hok.
  assert (forall o, overrides_ok o -> map_Forall value_ok o) as Hv.
  { intros o' H key v Hkv. by apply (H key v). }
  assert (forall o s, overrides_ok o -> from_overrides o = Ok s -> overrides s = o) as Hover.
  { intros o' s H1 H2. pose proof (from_overrides_spec o' (Hv _ H1)) as H. rewrite H2 in H. apply H. }
  pose proof (Hover _ _ Hok Hs) as Eo. subst o.
  destruct (prepare_settings _ _ _ _) as [[next|]|e] eqn:Ep; [|done|done]. unfold prepare_settings in Ep.
  rewrite (from_entries_self _ (Hv _ Hok)) in Ep. simpl in Ep. destruct (apply_changes _ _ _ _) as [n|] eqn:Ea; [|done].
  simpl in Ep. destruct (from_overrides n) as [s|] eqn:Ef; [|done]. simpl in Ep. case_bool_decide as Hne; [done|].
  injection Ep as ->. pose proof (apply_changes_ok _ _ _ _ _ Hc Hok Ea) as Hn.
  pose proof (Hover _ _ Hn Ef) as E1. subst n.
  destruct (settings_written db (st_settings current) next Ho Hn) as (t & Hw & Ht).
  eapply (written_realises _ (readback_settings json_read current)
    (fun c => ensure_write_matches (st_settings c) next ComponentSettings) (set_settings t db)
    (fun r => with_settings (with_revision current r) next)); [exact Hw|done| |intros; apply ensure_same].
  intros r Hr. assert (reads (load_settings json_read) (set_revision r (set_settings t db)) next) as Hset.
  { apply reads_settings. by exists (overrides next). }
  pose proof (revision_reads (set_revision r (set_settings t db)) r eq_refl Hr) as Hrev. split_and!; [|done|].
  - unfold readback_settings. by rewrite (answer_run _ _ _ _ _ (parts_quiet _ _ Hrev)), (answer_run _ _ _ _ _ Hset).
  - apply load_parts. destruct Hparts. constructor; simpl; first [done|reread].
Qed.
End mutation.

(** ** The transaction *)

(** The mutations of keys and settings, as the dispatch passes them on *)
Definition key_mutation (now : string) (m : ConfigurationMutation) : option GatewayApiKeyMutation :=
  match m with
  | CreateGatewayApiKey id d token => Some (KeyCreate id d token now)
  | UpdateGatewayApiKey id v d => Some (KeyUpdate id v d)
  | RotateGatewayApiKey id v t token => Some (KeyRotate id v t token)
  | DeleteGatewayApiKey id v => Some (KeyDelete id v)
  | _ => None
  end.
(** What a transaction promises, for the mutations of gateway keys and settings *)
Definition promised (now : string) (expected : Z) (current : StoredConfiguration) (m : ConfigurationMutation)
    : option (result (option StoredConfiguration) StorageError) :=
  match m with
  | ApplySettingChanges changes => Some (applied_settings expected current changes)
  | m => applied_key expected current <$> key_mutation now m
  end.
Definition mutation_ok (now : string) (m : ConfigurationMutation) : Prop :=
  match m with
  | ApplySettingChanges changes => changes_ok changes
  | m => forall k, key_mutation now m = Some k -> key_mutation_ok k
  end.
(** How the transaction ends with its candidate, [db'] being what the mutation wrote *)
Definition committed {A R} (compiler : StoredConfiguration -> result A R) (commit : CommitAnswer)
    (next : StoredConfiguration) (db db' : Database)
    : result (TransactionOutcome A R) StorageError * Database :=
  match compiler next with
  | Err rejected => (Ok (Rejected _ _ rejected), db)
  | Ok accepted =>
    match commit with
    | CommitDone => (Ok (Committed _ _ accepted), db')
    | CommitDeterminate => (Err StorageDatabase, db)
    | CommitIndeterminate visible => (Err IndeterminateConfigurationCommit, if visible then db' else db)
    end
  end.

#[local] Abbreviation transact' := (transact to_lowercase sha256 route_ids target_ids access_token_of host_parse
  json_print json_read).

Lemma mutation_realises now expected m db current spec : reads load' db current -> db_revision db <= i64_max ->
  mutation_ok now m -> promised now expected current m = Some spec ->
  realises db current (execute_mutation to_lowercase sha256 route_ids target_ids access_token_of host_parse
    json_print json_read now expected m) spec.
Proof.
  intros Hl Hw Hm Hp. destruct m; try done; simpl in Hm, Hp; injection Hp as <-.
  - by apply (mutate_key_realises db current Hl Hw), Hm.
  - by apply mutate_key_realises, Hm.
  - by apply mutate_key_realises, Hm.
  - by apply mutate_key_realises, Hm.
  - by apply mutate_settings_realises.
Qed.

(** C12. A transaction that changes gateway keys or settings does exactly what the change
    promises, on a database that loads.  Unless a statement is refused, in which case
    it fails and leaves the database alone: a change that the rules of the entity or
    the expected revision refuse is answered with that very error; a change that
    changes nothing commits nothing; and an accepted one leaves tables that load to
    the promised configuration, the changed part at the next revision and every other
    part as it was.  The candidate that the compiler of the runtime sees is that
    configuration, a rejected candidate is rolled back, and a commit without an answer
    is reported as indeterminate. *)
Theorem configuration_transaction_exact {A R} now expected m (compiler : StoredConfiguration -> result A R)
    commit c current spec : reads load' (database c) current -> db_revision (database c) <= i64_max ->
  mutation_ok now m -> promised now expected current m = Some spec ->
  (transact' now expected m compiler commit c = Ret (Err StorageDatabase, database c) /\ true ∈ refusals c) \/
  match spec with
  | Err e => transact' now expected m compiler commit c = Ret (Err e, database c)
  | Ok None => transact' now expected m compiler commit c = Ret (Ok (NoChange _ _), database c)
  | Ok (Some next) => exists db', reads load' db' next /\
      transact' now expected m compiler commit c = Ret (committed compiler commit next (database c) db')
  end.
Proof.
  intros Hl Hw Hm Hp. pose proof (mutation_realises _ _ _ _ _ _ Hl Hw Hm Hp) as Hr. unfold transact.
  match goal with |- context [match ?p c with _ => _ end] => set (program := p) end.
  assert (honest program) as Hh. { apply honest_bind; [apply honest_execute|]. intros. apply honest_mutation. }
  destruct (Hh c) as [[-> ?]|H]; [by left|].
  assert (forall s (x y : outcome (result (TransactionOutcome A R) StorageError * Database)),
    (true ∈ s -> true ∈ refusals c) -> x = Ret (Err StorageDatabase, database c) ->
    (match s with true :: _ => x | _ => y end = x /\ true ∈ refusals c) \/
    match s with true :: _ => x | _ => y end = y) as Hroll.
  { intros [|[|] s] x y Hs _; [by right|left; split; [done|apply Hs; by left]|by right]. }
  destruct spec as [[next|]|e]; simpl in Hr.
  - destruct Hr as (db' & Hr & Hl'). change (program (quiet (database c)) = Ret (Ok ((next, true), quiet db'))) in Hr.
    rewrite Hr in H. destruct H as (s & -> & _ & Hs). simpl. unfold committed. destruct (compiler next) as [a|r].
    + right. exists db'. split; [done|]. by destruct commit.
    + destruct (Hroll s (Ret (Err StorageDatabase, database c)) (Ret (Ok (Rejected _ _ r), database c)) Hs eq_refl)
        as [[-> ?]| ->]; [by left|right; by exists db'].
  - change (program (quiet (database c)) = Ret (Ok ((current, false), quiet (database c)))) in Hr.
    rewrite Hr in H. destruct H as (s & -> & _ & Hs). simpl.
    destruct (Hroll s (Ret (Err StorageDatabase, database c)) (Ret (Ok (NoChange _ _), database c)) Hs eq_refl)
      as [[-> ?]| ->]; [by left|by right].
  - change (program (quiet (database c)) = Ret (Err e)) in Hr. rewrite Hr in H. rewrite H. by right.
Qed.
End persistence.

(** * A transaction that is carried out *)

(** Texts of values, for the settings there are: a value as a number, written in binary *)
Definition sample_shape : Type := bool + Z + string + list string + CodexQuotaRateCard.
#[local] Instance tier_rate_countable : Countable CodexQuotaTierRate.
Proof.
  by refine (inj_countable'
    (fun r => (input_nanos_per_million r, cached_input_nanos_per_million r, output_nanos_per_million r))
    (fun '(a, b, c) => {| input_nanos_per_million := a; cached_input_nanos_per_million := b;
                          output_nanos_per_million := c |}) _); intros [].
Defined.
#[local] Instance model_rates_countable : Countable CodexQuotaModelRates.
Proof.
  by refine (inj_countable' (fun r => (standard r, fast r)) (fun '(a, b) => {| standard := a; fast := b |}) _);
    intros [].
Defined.
#[local] Instance card_countable : Countable CodexQuotaRateCard.
Proof.
  by refine (inj_countable' (fun r => (card_id r, card_credits_per_usd r, card_models r))
    (fun '(a, b, c) => {| card_id := a; card_credits_per_usd := b; card_models := c |}) _); intros [].
Defined.
Definition shape_of (v : sample_value) : option sample_shape :=
  match v with
  | JBool b => Some (inl (inl (inl (inl b))))
  | JNumber n => Some (inl (inl (inl (inr n))))
  | JString s => Some (inl (inl (inr s)))
  | JArray l => l' ← mapM (fun v => match v with JString s => Some s | _ => None end) l; Some (inl (inr l'))
  | JCard c => Some (inr c)
  end.
Definition value_of (s : sample_shape) : sample_value :=
  match s with
  | inl (inl (inl (inl b))) => JBool b
  | inl (inl (inl (inr n))) => JNumber n
  | inl (inl (inr s)) => JString s
  | inl (inr l) => JArray (JString <$> l)
  | inr c => JCard c
  end.
Fixpoint pos_text (p : positive) : string :=
  match p with
  | xH => ""
  | xO p => String Ascii.zero (pos_text p)
  | xI p => String Ascii.one (pos_text p)
  end.
Fixpoint text_pos (s : string) : positive :=
  match s with
  | "" => xH
  | String c s => if Ascii.eqb c Ascii.one then xI (text_pos s) else xO (text_pos s)
  end.
Definition sample_print (v : sample_value) : option string := pos_text ∘ encode <$> shape_of v.
Definition sample_read (s : string) : option sample_value := value_of <$> decode (text_pos s).

Lemma text_pos_text p : text_pos (pos_text p) = p.
Proof. induction p as [p IH|p IH|]; simpl; by rewrite ?IH. Qed.
Lemma shape_value s : shape_of (value_of s) = Some s.
Proof.
  destruct s as [[[[b|n]|s]|l]|c]; try done. simpl.
  assert (mapM (fun v => match v with JString s => Some s | _ => None end) (JString <$> l) = Some l) as ->; [|done].
  apply mapM_Some, Forall2_fmap_l, Forall_Forall2_diag, Forall_forall. done.
Qed.
Lemma sample_text_of s : exists text, sample_print (value_of s) = Some text /\ sample_read text = Some (value_of s).
Proof.
  unfold sample_print, sample_read. rewrite shape_value. simpl. eexists. split; [done|].
  by rewrite text_pos_text, decode_encode.
Qed.
Lemma sample_text v : value_width v -> exists text,
  sample_print (to_json (json := sample_json) v) = Some text /\
  sample_read text = Some (to_json (json := sample_json) v).
Proof.
  intros _. assert (exists s, to_json (json := sample_json) v = value_of s) as [s ->]; [|apply sample_text_of].
  destruct v as [b|n|n|m|l|[|l]|l|c]; simpl.
  - by exists (inl (inl (inl (inl b)))).
  - by exists (inl (inl (inl (inr n)))).
  - by exists (inl (inl (inl (inr n)))).
  - by exists (inl (inl (inr (mode_as_str m)))).
  - by exists (inl (inl (inr (level_as_str l)))).
  - by exists (inl (inl (inr "all"))).
  - by exists (inl (inr l)).
  - by exists (inl (inr l)).
  - by exists (inr c).
Qed.

(** The database of a new installation: revision 1 and the direct connection *)
Definition sample_database : Database := {|
  db_revision := 1;
  db_proxies := {[ DIRECT := {| pr_name := "DIRECT"; pr_kind := "direct"; pr_host := None; pr_port := None;
    pr_enabled := 1; pr_authentication_version := 0; pr_config_version := 1 |} ]};
  db_passwords := ∅; db_global_proxy := DIRECT; db_endpoints := ∅; db_credentials := ∅;
  db_credential_models := ∅; db_routes := ∅; db_targets := ∅; db_accounts := ∅; db_account_models := ∅;
  db_keys := ∅; db_settings := ∅
|}.

Definition sample_hash (_ : bytes) : bytes := repeat Byte.x00 32.
Definition sample_load : statement StoredConfiguration :=
  load_configuration (url_lib := sample_urls) (json := sample_json) (nets := sample_nets) id sample_hash
    (fun _ => Some None) Some sample_read.
Definition sample_current :=
  match sample_load (quiet sample_database) as r
    return match r with Ret (Ok _) => StoredConfiguration | _ => () end with
  | Ret (Ok (c, _)) => c
  | _ => ()
  end.
Definition sample_change : ConfigurationMutation :=
  ApplySettingChanges [SetOverride AdminSessionIdleTimeout (DurationSecs 7200)].
Definition sample_transact : outcome (result (TransactionOutcome Z ()) StorageError * Database) :=
  transact (url_lib := sample_urls) (json := sample_json) (nets := sample_nets) id sample_hash
    (fun _ _ => 0) (fun _ _ _ _ => 0) (fun _ => Some None) Some sample_print sample_read "now" 1 sample_change
    (fun next => Ok (st_revision next)) CommitDone {| database := sample_database; refusals := [] |}.
Lemma configuration_transaction_exact_witness :
  exists next db', applied_settings (nets := sample_nets) 1 sample_current
      [SetOverride AdminSessionIdleTimeout (DurationSecs 7200)] = Ok (Some next) /\
    sample_transact = Ret (Ok (Committed _ _ 2), db') /\ reads sample_load db' next.
Proof.
  assert (Hl : reads sample_load sample_database sample_current) by (vm_compute; reflexivity).
  assert (Hr : match applied_settings (nets := sample_nets) 1 sample_current
      [SetOverride AdminSessionIdleTimeout (DurationSecs 7200)] with
    | Ok (Some next) => st_revision next
    | _ => 0
    end = 2) by (vm_compute; reflexivity).
  destruct (applied_settings (nets := sample_nets) 1 sample_current
    [SetOverride AdminSessionIdleTimeout (DurationSecs 7200)]) as [[next|]|] eqn:E; [|discriminate..].
  destruct (configuration_transaction_exact (url_lib := sample_urls) (json := sample_json) (nets := sample_nets)
    id sample_hash (fun _ _ => 0) (fun _ _ _ _ => 0) (fun _ => Some None) Some sample_print sample_read
    (fun _ => eq_refl) (jlaws := sample_json_laws) (nlaws := sample_nets_laws) sample_text
    "now" 1 sample_change (fun next => Ok (E := ()) (st_revision next)) CommitDone
    {| database := sample_database; refusals := [] |} sample_current (Ok (Some next)) Hl) as [[_ H]|(db' & H1 & H2)].
  - vm_compute. discriminate.
  - repeat constructor; discriminate.
  - change (Some (applied_settings (nets := sample_nets) 1 sample_current
    [SetOverride AdminSessionIdleTimeout (DurationSecs 7200)]) = Some (Ok (Some next))). by rewrite E.
  - by apply elem_of_nil in H.
  - exists next, db'. refine (conj eq_refl (conj _ H1)). unfold sample_transact. rewrite H2. unfold committed. by rewrite Hr.
Defined.
