(* ===== verification/KeyUsage.v ===== *)
(** * When gateway keys were last used

    The one write to the tables of the configuration that no publication makes
    ([storage/src/gateway_api_key/usage.rs]): the telemetry worker stores, in
    transactions of its own, when keys were last used.  Such a write keeps the
    database loadable, and what a load then gives differs from what it gave before
    in those instants alone, which only move forward. *)
From S2P Require Import Prelude Search Protocol Text Upstream OAuthErrors Entities Catalog Routes Drivers Cost SettingKeys Settings Mutations Tables Storage Persistence.
Local Open Scope Z_scope.

Record GatewayApiKeyLastUsedUpdate := { lu_id : Z; lu_last_used_at : string }.

(** [last_used_at IS NULL OR last_used_at < ?] *)
Definition used_before (stored : option string) (at_ : string) : bool :=
  match stored with None => true | Some v => String.ltb v at_ end.

Definition row_used (at_ : string) (r : GatewayApiKeyRow) : GatewayApiKeyRow :=
  {| kr_name := kr_name r; kr_token := kr_token r; kr_token_prefix := kr_token_prefix r;
     kr_token_hash := kr_token_hash r; kr_hash_version := kr_hash_version r;
     kr_token_version := kr_token_version r; kr_config_version := kr_config_version r; kr_rpm := kr_rpm r;
     kr_enabled := kr_enabled r; kr_created_at := kr_created_at r; kr_last_used_at := Some at_ |}.

Definition touch_one (u : GatewayApiKeyLastUsedUpdate) : statement () :=
  execute (fun db =>
    match db_keys db !! lu_id u with
    | Some row =>
      if used_before (kr_last_used_at row) (lu_last_used_at u)
      then ((), set_keys (<[lu_id u := row_used (lu_last_used_at u) row]> (db_keys db)) db)
      else ((), db)
    | None => ((), db)
    end).

(** The whole transaction: what the caller gets and what the database then holds *)
Definition touch_gateway_api_key_last_used (updates : list GatewayApiKeyLastUsedUpdate)
    (commit : CommitAnswer) (c : Connection) : outcome (result () StorageError * Database) :=
  if bool_decide (length updates = 0%nat) then Ret (Ok (), database c)
  else
    match (_ <~ execute (fun db => ((), db)); for_each touch_one updates) c with
    | Panic => Panic
    | Ret (Err e) => Ret (Err e, database c)
    | Ret (Ok (_, c')) =>
      match commit with
      | CommitDone => Ret (Ok (), database c')
      | CommitDeterminate => Ret (Err StorageDatabase, database c)
      | CommitIndeterminate visible => Ret (Err StorageDatabase, if visible then database c' else database c)
      end
    end.

(** * Configurations that differ in the use of keys *)

Definition key_used_at (o : option string) (k : GatewayApiKey) : GatewayApiKey :=
  {| gk_id := gk_id k; gk_name := gk_name k; gk_token := gk_token k; gk_token_prefix := gk_token_prefix k;
     gk_token_hash := gk_token_hash k; gk_hash_version := gk_hash_version k;
     gk_token_version := gk_token_version k; gk_config_version := gk_config_version k; gk_rpm := gk_rpm k;
     gk_enabled := gk_enabled k; gk_created_at := gk_created_at k; gk_last_used_at := o |}.

(** [b] is not before [a]; [None] is before every instant. *)
Definition not_before (a b : option string) : Prop :=
  match a, b with None, _ => True | Some _, None => False | Some v, Some w => name_le v w end.

(** The same key, perhaps used since *)
Definition key_used_since (k k' : GatewayApiKey) : Prop :=
  k' = key_used_at (gk_last_used_at k') k /\ not_before (gk_last_used_at k) (gk_last_used_at k').

(** The same configuration, its keys perhaps used since *)
Definition used_since {nets : IpNetLib} (c c' : StoredConfiguration) : Prop :=
  c' = with_keys c (st_keys c') /\ Forall2 key_used_since (st_keys c) (st_keys c').

#[export] Instance not_before_preorder : PreOrder not_before.
Proof.
  split.
  - intros [v|]; [|done]. simpl. by destruct (total name_le v v).
  - intros [u|] [v|] [w|]; simpl; try done. apply transitivity.
Qed.
#[export] Instance key_used_since_preorder : PreOrder key_used_since.
Proof.
  split.
  - intros []. by split.
  - intros k1 k2 k3 [E2 H2] [E3 H3]. split; [|by etransitivity]. rewrite E3, E2 at 1. done.
Qed.
#[export] Instance used_since_preorder {nets : IpNetLib} : PreOrder used_since.
Proof.
  split.
  - intros c. split; [by destruct c|]. reflexivity.
  - intros c1 c2 c3 [E2 H2] [E3 H3]. split; [rewrite E3, E2; by destruct c3|]. by etransitivity.
Qed.

(** What an update makes of a key *)
Definition key_touched (u : GatewayApiKeyLastUsedUpdate) (k : GatewayApiKey) : GatewayApiKey :=
  if (gk_id k =? lu_id u) && used_before (gk_last_used_at k) (lu_last_used_at u)
  then key_used_at (Some (lu_last_used_at u)) k else k.

Lemma ltb_le a b : String.ltb a b = true -> name_le a b.
Proof. unfold name_le, String.leb, String.ltb. by destruct (String.compare a b). Qed.

Lemma key_touched_since u k : key_used_since k (key_touched u k).
Proof.
  unfold key_touched. destruct (_ && _) eqn:E; [|reflexivity]. bool_to_prop. split; [done|].
  simpl. destruct (gk_last_used_at k) as [v|]; [|done]. by apply ltb_le.
Qed.
Lemma key_touched_id u k : gk_id (key_touched u k) = gk_id k.
Proof. unfold key_touched. by destruct (_ && _). Qed.
Lemma key_touched_name u k : gk_name (key_touched u k) = gk_name k.
Proof. unfold key_touched. by destruct (_ && _). Qed.

Lemma keys_new_touched u l keys : keys_new l = Ok keys -> keys_new (key_touched u <$> l) = Ok (key_touched u <$> keys).
Proof.
  intros (-> & H1 & H2)%keys_new_Ok.
  assert (gk_id <$> (key_touched u <$> l) = gk_id <$> l) as E1.
  { rewrite <- list_fmap_compose. apply list_fmap_ext. intros ? k _. apply key_touched_id. }
  assert (forall l' : list GatewayApiKey, gk_name <$> (key_touched u <$> l') = gk_name <$> l') as E2.
  { intros l'. rewrite <- list_fmap_compose. apply list_fmap_ext. intros ? k _. apply key_touched_name. }
  assert (forall l' : list GatewayApiKey, NoDup ((fun k => to_ascii_lowercase (gk_name k)) <$> l') -> NoDup (gk_name <$> l')) as Hnd.
  { intros l' H. apply (NoDup_fmap_1 to_ascii_lowercase). by rewrite <- list_fmap_compose. }
  assert (NoDup ((fun k => to_ascii_lowercase (gk_name k)) <$> (key_touched u <$> l))) as H2'.
  { change (fun k => to_ascii_lowercase (gk_name k)) with (to_ascii_lowercase ∘ gk_name) in H2 |- *.
    rewrite list_fmap_compose in H2. rewrite (list_fmap_compose gk_name), E2. exact H2. }
  apply keys_new_Ok. split_and!; [|by rewrite E1|done].
  assert (Transitive key_name_le) by (intros x y z; apply (transitivity (R := name_le))).
  assert (Total key_name_le) by (intros x y; apply (total name_le)).
  apply (sort_unique name_le gk_name).
  - assert (StronglySorted key_name_le (merge_sort key_name_le l)) as Hs by (by apply StronglySorted_merge_sort).
    clear -Hs. induction Hs as [|k l' Hs IH Hall]; simpl; constructor; [done|]. apply Forall_fmap.
    eapply Forall_impl; [exact Hall|]. intros k' Hk. simpl. by rewrite !key_touched_name.
  - by apply (StronglySorted_merge_sort key_name_le).
  - by rewrite !merge_sort_Permutation.
  - rewrite E2. apply Hnd. by rewrite merge_sort_Permutation.
Qed.

(** * Loading after the keys were used *)

Section usage.
Context (to_lowercase : string -> string) (sha256 : bytes -> bytes).
Context (access_token_of : bytes -> option (option string)) (host_parse : string -> option string).
Context {url_lib : UrlLib} {json : JsonLib} {nets : IpNetLib} (json_read : string -> option Value).

#[local] Abbreviation load := (load_configuration to_lowercase sha256 access_token_of host_parse json_read).
#[local] Abbreviation keys_rep := (represents (parse_key sha256) gk_id).

(** The instants the worker stores are ones the domain accepts. *)
Definition update_ok (u : GatewayApiKeyLastUsedUpdate) : Prop := validate_timestamp (lu_last_used_at u) = Ok ().

Definition table_touched (u : GatewayApiKeyLastUsedUpdate) (t : gmap Z GatewayApiKeyRow) : gmap Z GatewayApiKeyRow :=
  match t !! lu_id u with
  | Some row => if used_before (kr_last_used_at row) (lu_last_used_at u)
                then <[lu_id u := row_used (lu_last_used_at u) row]> t else t
  | None => t
  end.

Lemma parse_touched u id row k : update_ok u -> parse_key sha256 id row = Ok k ->
  parse_key sha256 id (row_used (lu_last_used_at u) row) = Ok (key_used_at (Some (lu_last_used_at u)) k).
Proof.
  intros Hu. rewrite !parse_key_iff. intros (-> & -> & Hg & Hr & Hl & Hh). split_and!; try done.
  destruct Hg as (? & ? & ? & ? & ? & ? & ? & _). by split_and!.
Qed.

Lemma table_touched_rep u t l : update_ok u -> keys_rep t l -> keys_rep (table_touched u t) (key_touched u <$> l).
Proof.
  intros Hu Ht. pose proof Ht as [H1 H2 H3]. unfold table_touched.
  assert (forall k row, t !! gk_id k = Some row -> k ∈ l -> kr_last_used_at row = gk_last_used_at k) as Hrow.
  { intros k row Hk Hin. destruct (rep_entity _ _ (parse_key_id sha256) t l k Ht Hin) as (row' & Hk' & Hp).
    simplify_eq. by apply parse_key_iff in Hp as (-> & _). }
  constructor.
  - rewrite <- list_fmap_compose. erewrite list_fmap_ext; [exact H1|]. intros ? k _. apply key_touched_id.
  - assert (forall id row, t !! id = Some row -> id <> lu_id u \/ used_before (kr_last_used_at row) (lu_last_used_at u) = false ->
      exists a, a ∈ key_touched u <$> l /\ parse_key sha256 id row = Ok a) as Hsame.
    { intros id row Hr Hno. destruct (H2 _ _ Hr) as (k & Hk & Hp). exists k. split; [|done].
      apply list_elem_of_fmap. exists k. split; [|done]. pose proof (parse_key_id _ _ _ _ Hp) as Hid.
      unfold key_touched. destruct (Z.eqb_spec (gk_id k) (lu_id u)) as [E|E]; [|done].
      destruct Hno as [?|Hno]; [congruence|]. rewrite <- (Hrow k row) by congruence. by rewrite Hno. }
    intros id row Hr. destruct (t !! lu_id u) as [row0|] eqn:E0; [|apply Hsame; [done|left; congruence]].
    destruct (used_before _ _) eqn:Eu.
    + apply lookup_insert_Some in Hr as [[<- <-]|[Hne Hr]]; [|apply Hsame; [done|by left]].
      destruct (H2 _ _ E0) as (k & Hk & Hp). eexists. split; [|by apply parse_touched].
      apply list_elem_of_fmap. exists k. split; [|done]. pose proof (parse_key_id _ _ _ _ Hp) as Hid.
      unfold key_touched. rewrite Hid, Z.eqb_refl, <- (Hrow k row0) by congruence. by rewrite Eu.
    + apply Hsame; [done|]. destruct (decide (id = lu_id u)) as [->|]; [right; congruence|by left].
  - intros a Ha. apply list_elem_of_fmap in Ha as (k & -> & Hk). rewrite key_touched_id.
    destruct (H3 k Hk) as [row Hr]. destruct (t !! lu_id u) eqn:E0; [|by exists row].
    destruct (used_before _ _); [|by exists row]. destruct (decide (lu_id u = gk_id k)) as [->|].
    + by eexists; rewrite lookup_insert_eq.
    + rewrite lookup_insert_ne by done. by exists row.
Qed.

(** The database once an update is stored *)
Definition touched (u : GatewayApiKeyLastUsedUpdate) (db : Database) : Database :=
  set_keys (table_touched u (db_keys db)) db.

Lemma touch_one_quiet u db : touch_one u (quiet db) = Ret (Ok ((), quiet (touched u db))).
Proof.
  unfold touch_one, execute, touched, table_touched. simpl.
  destruct (db_keys db !! lu_id u); [|by destruct db]. destruct (used_before _ _); [done|by destruct db].
Qed.

Lemma touched_loads u db c : update_ok u -> reads load db c ->
  exists c', reads load (touched u db) c' /\ c' = with_keys c (key_touched u <$> st_keys c).
Proof.
  intros Hu Hc. eexists. split; [|done]. apply load_other_keys; [done|].
  apply load_parts, pl_keys, reads_keys in Hc as (l & Hl & Hn). apply reads_keys.
  exists (key_touched u <$> l). split; [by apply table_touched_rep|by apply keys_new_touched].
Qed.

Lemma touched_used_since u c : used_since c (with_keys c (key_touched u <$> st_keys c)).
Proof.
  split; [done|]. simpl. induction (st_keys c) as [|k l IH]; constructor; [apply key_touched_since|done].
Qed.

Lemma all_touched_load updates db c : Forall update_ok updates -> reads load db c ->
  exists c' db', for_each touch_one updates (quiet db) = Ret (Ok ((), quiet db')) /\
    reads load db' c' /\ used_since c c'.
Proof.
  intros Hu. revert db c. induction Hu as [|u updates Hu _ IH]; intros db c Hc; simpl; [by exists c, db|].
  destruct (touched_loads u db c Hu Hc) as (c1 & H1 & E1). destruct (IH _ _ H1) as (c2 & db2 & E2 & H2 & H3).
  exists c2, db2. unfold st_bind. rewrite touch_one_quiet. split_and!; [done..|]. etransitivity; [|done].
  subst c1. apply touched_used_since.
Qed.

(** A transaction of the telemetry worker, however it ends, leaves a database that
    loads; only the last uses of keys are other, and not earlier. *)
Lemma usage_keeps_configuration updates commit c answer db conf : Forall update_ok updates ->
  reads load (database c) conf -> touch_gateway_api_key_last_used updates commit c = Ret (answer, db) ->
  exists conf', reads load db conf' /\ used_since conf conf'.
Proof.
  intros Hu Hc. destruct (all_touched_load updates (database c) conf Hu Hc) as (conf' & db' & E & H1 & H2).
  unfold touch_gateway_api_key_last_used. case_bool_decide as He; [intros; simplify_eq; by exists conf|].
  assert (honest (_ <~ execute (fun db => ((), db)); for_each touch_one updates)) as Hh by honestly.
  destruct (Hh c) as [[-> _]|H]; [intros; simplify_eq; by exists conf|].
  assert ((_ <~ execute (fun db => ((), db)); for_each touch_one updates) (quiet (database c)) =
    Ret (Ok ((), quiet db'))) as Eq by exact E.
  rewrite Eq in H. destruct H as (s & -> & _). simpl. destruct commit as [| |[]]; intros; simplify_eq; eauto.
  all: by exists conf.
Qed.
End usage.
