(* ===== verification/Readback.v ===== *)
(** * What is read back is what is stored

    A mutation does not load the whole configuration again: [configuration/readback.rs]
    reloads the tables the mutation may have written and keeps the other parts it
    loaded before.  Here is why that is enough: the statements of a mutation leave
    the other tables alone, and the parts that are kept do not depend on what
    changed. *)
From S2P Require Import Prelude Search Protocol Text Upstream OAuthErrors Entities Catalog Routes Drivers Cost SettingKeys Settings Mutations Tables Storage Persistence.
Local Open Scope Z_scope.

(** * Programs that leave something alone *)

Definition keeps {A T} (f : Database -> T) (m : statement A) : Prop := forall c a c',
  m c = Ret (Ok (a, c')) -> f (database c') = f (database c).

Section keeping.
Context {T : Type} (f : Database -> T).
Lemma kept_of {A} (o : outcome (result A StorageError)) : keeps f (st_of o).
Proof. intros c a c'. unfold st_of. destruct o as [[]|]; intros; by simplify_eq. Qed.
Lemma kept_ret {A} (a : A) : keeps f (st_ret a).
Proof. exact (kept_of (Ret (Ok a))). Qed.
Lemma kept_lift {A} (r : result A StorageError) : keeps f (st_lift r).
Proof. apply kept_of. Qed.
Lemma kept_execute {A} (g : Database -> A * Database) : (forall db, f (g db).2 = f db) -> keeps f (execute g).
Proof.
  intros Hg c a c' H. unfold execute in H. destruct (refusals c) as [|[|] s]; [|done|]; simplify_eq/=; apply Hg.
Qed.
Lemma kept_bind {A B} (m : statement A) (k : A -> statement B) :
  keeps f m -> (forall a, keeps f (k a)) -> keeps f (st_bind m k).
Proof.
  intros Hm Hk c b c'' H. unfold st_bind in H. destruct (m c) as [[[a c']|]|] eqn:E1; [|done|done].
  by rewrite (Hk a c' b c'' H), (Hm c a c' E1).
Qed.
Lemma kept_for_each {A} (g : A -> statement ()) l : (forall a, keeps f (g a)) -> keeps f (for_each g l).
Proof.
  intros Hg. induction l as [|x l IH]; simpl; [apply kept_ret|]. apply kept_bind; [done|]. by intros [].
Qed.
End keeping.

(** Closes [keeps] of a program by its shape *)
Ltac keeping :=
  repeat first
    [ progress intros
    | apply kept_ret | apply kept_lift | apply kept_of
    | apply kept_execute; intros; simpl; repeat case_match; reflexivity
    | apply kept_for_each
    | apply kept_bind
    | match goal with |- keeps _ (match ?x with _ => _ end) => destruct x end
    | match goal with |- keeps _ (let _ := _ in _) => cbv zeta end
    | match goal with |- keeps _ ?m => let h := head m in unfold h end ].

(** The tables of each part *)
Definition part_proxies (db : Database) := (db_global_proxy db, db_proxies db, db_passwords db).
Definition part_routes (db : Database) := (db_routes db, db_targets db).
Definition part_credentials (db : Database) := (db_credentials db, db_credential_models db).
Definition part_accounts (db : Database) := (db_accounts db, db_account_models db).

(** * Running a program *)

Lemma bind_inv {A B} (m : statement A) (k : A -> statement B) c b c'' : st_bind m k c = Ret (Ok (b, c'')) ->
  exists a c', m c = Ret (Ok (a, c')) /\ k a c' = Ret (Ok (b, c'')).
Proof. unfold st_bind. intros H. destruct (m c) as [[[a c']|]|] eqn:E1; [by exists a, c'|done|done]. Qed.
Lemma lift_inv {A} (r : result A StorageError) c a c' : st_lift r c = Ret (Ok (a, c')) -> r = Ok a /\ c' = c.
Proof. unfold st_lift, st_of. destruct r; intros; by simplify_eq. Qed.
Lemma of_inv {A} (o : outcome (result A StorageError)) c a c' : st_of o c = Ret (Ok (a, c')) ->
  o = Ret (Ok a) /\ c' = c.
Proof. unfold st_of. destruct o as [[]|]; intros; by simplify_eq. Qed.
Lemma ret_inv {A} (x : A) c a c' : st_ret x c = Ret (Ok (a, c')) -> a = x /\ c' = c.
Proof. unfold st_ret. intros. by simplify_eq. Qed.
Lemma matches_inv {A} `{EqDecision A} (x y : A) k c u c' :
  ensure_write_matches x y k c = Ret (Ok (u, c')) -> x = y /\ c' = c.
Proof. intros [H ->]%lift_inv. split; [|done]. by case_bool_decide. Qed.
Lemma honest_quiet {A} (m : statement A) db a c' : honest m -> m (quiet db) = Ret (Ok (a, c')) ->
  exists db', c' = quiet db'.
Proof.
  intros Hm H. exists (database c'). destruct (Hm (quiet db)) as [[E1 _]|H1]; [by rewrite H in E1|]. simpl in H1. rewrite H in H1.
  destruct H1 as (s & _ & Hs & _). destruct c'. simpl in *. by subst.
Qed.

(** * Checking an accepted configuration again *)

#[export] Instance pair_le_trans : Transitive pair_le.
Proof.
  intros a b c [?|[? ?]] [?|[? ?]]; unfold pair_le; [left; lia..|]. right. split; [lia|]. by etrans.
Qed.
#[export] Instance pair_le_total : Total pair_le.
Proof.
  intros [a x] [b y]. unfold pair_le. simpl. destruct (Z.lt_trichotomy a b) as [?|[->|?]]; [tauto| |tauto].
  destruct (total name_le x y); tauto.
Qed.
#[export] Instance pair_le_antisym : AntiSymm eq pair_le.
Proof.
  intros [a x] [b y] [?|[? Hx]] [?|[? Hy]]; simpl in *; try lia. f_equal; [done|]. by apply (anti_symm name_le).
Qed.
#[export] Instance route_key_le_trans : Transitive Routes.key_le.
Proof.
  intros a b c [?|[? Hx]] [?|[? Hy]]; unfold Routes.key_le; [left; lia..|]. right. split; [lia|].
  exact (name_le_trans _ _ _ Hx Hy).
Qed.
#[export] Instance route_key_le_total : Total Routes.key_le.
Proof.
  intros [a x] [b y]. unfold Routes.key_le. simpl.
  destruct (Nat.lt_trichotomy (dialect_index a) (dialect_index b)) as [?|[->|?]]; [tauto| |tauto].
  destruct (name_le_total x y); tauto.
Qed.
#[export] Instance route_key_le_antisym : AntiSymm eq Routes.key_le.
Proof.
  intros [a x] [b y] [?|[? Hx]] [?|[? Hy]]; simpl in *; try lia. f_equal; [by destruct a, b|].
  by apply (anti_symm name_le).
Qed.

Lemma NoDup_finer {A B C} (f : A -> B) (h : A -> C) (l : list A) :
  (forall a b, h a = h b -> f a = f b) -> NoDup (f <$> l) -> NoDup (h <$> l).
Proof.
  intros Hfh. induction l as [|a l IH]; [constructor|]. intros [Ha Hl]%NoDup_cons. apply NoDup_cons.
  split; [|by apply IH]. intros (b & E1 & Hb)%list_elem_of_fmap. apply Ha. apply list_elem_of_fmap.
  exists b. split; [by apply Hfh|done].
Qed.
Lemma sort_entities_again {A} (order : A -> Z * string) l : NoDup (order <$> l) ->
  sort_entities order (sort_entities order l) = sort_entities order l.
Proof.
  intros Hnd. unfold sort_entities at 1 3. apply (sort_by_perm pair_le order); [apply sort_entities_perm|].
  by rewrite sort_entities_perm.
Qed.

Lemma credentials_new_again lower l e p l' e' p' l'' : credentials_new lower l e p = Ok l' ->
  credentials_new lower l' e' p' = Ok l'' -> credentials_new lower l e' p' = Ok l''.
Proof.
  intros (-> & Hid & Hk & _)%credentials_new_Ok (-> & _ & _ & Hr)%credentials_new_Ok. apply credentials_new_Ok.
  split_and!; [|done|done|].
  - apply sort_entities_again. revert Hk. apply NoDup_finer. by intros ?? [= -> ->].
  - by rewrite sort_entities_perm in Hr.
Qed.
Lemma accounts_new_again lower l p l' p' l'' : accounts_new lower l p = Ok l' ->
  accounts_new lower l' p' = Ok l'' -> accounts_new lower l p' = Ok l''.
Proof.
  intros (-> & Hid & Hk & _)%accounts_new_Ok (-> & _ & _ & Hr)%accounts_new_Ok. apply accounts_new_Ok.
  split_and!; [|done|done|].
  - apply sort_entities_again. revert Hk. apply NoDup_finer. intros a b [= E1 ->]. f_equal.
    by destruct (oa_provider a), (oa_provider b).
  - by rewrite sort_entities_perm in Hr.
Qed.

(** What [routes_new] asks of a target, and of the routes *)
Definition target_fits (endpoints : list ProviderEndpoint) (ingress : ProtocolDialect) (t : RouteTarget) : Prop :=
  exists e, endpoint_get endpoints (draft_endpoint (target t)) = Some e /\ ep_dialect e = ingress /\
            effective_upstream e = draft_upstream_dialect (target t).
Definition target_id (t : RouteTarget) : Z := draft_id (target t).

(** Identifiers that differ from each other and from those seen before *)
Definition fresh `{Countable K} (l : list K) (seen : gset K) : Prop := NoDup l /\ forall x, x ∈ l -> x ∉ seen.
Lemma fresh_nil `{Countable K} (seen : gset K) : fresh [] seen.
Proof. split; [constructor|]. intros x Hx. by apply elem_of_nil in Hx. Qed.
Lemma fresh_app `{Countable K} (l k : list K) (seen : gset K) :
  fresh (l ++ k) seen <-> fresh l seen /\ fresh k (list_to_set l ∪ seen).
Proof.
  unfold fresh. rewrite NoDup_app. setoid_rewrite elem_of_app. setoid_rewrite not_elem_of_union.
  setoid_rewrite elem_of_list_to_set. naive_solver.
Qed.
Lemma fresh_cons `{Countable K} (x : K) l (seen : gset K) :
  fresh (x :: l) seen <-> x ∉ seen /\ fresh l ({[x]} ∪ seen).
Proof.
  rewrite (fresh_app [x] l). simpl. rewrite (right_id_L ∅ (∪) {[x]}). unfold fresh at 1.
  split; [intros [[_ H1] H2]|intros [H1 H2]]; split; try done; [apply H1, list_elem_of_singleton, eq_refl|].
  split; [apply NoDup_singleton|]. by intros y ->%list_elem_of_singleton.
Qed.

Lemma check_targets_Ok endpoints ingress ts ids ids' : check_targets endpoints ingress ts ids = Ok ids' <->
  ids' = list_to_set (target_id <$> ts) ∪ ids /\ fresh (target_id <$> ts) ids /\
  Forall (target_fits endpoints ingress) ts.
Proof.
  revert ids. induction ts as [|t ts IH]; intros ids.
  - simpl. split; [intros [= <-]|by intros (-> & _); f_equal; set_solver].
    split_and!; [set_solver|apply fresh_nil|constructor].
  - rewrite fmap_cons, fresh_cons, Forall_cons. simpl. fold (target_id t). case_decide as H1; [naive_solver|].
    destruct (endpoint_get _ _) as [e|] eqn:E1; [|unfold target_fits; naive_solver].
    destruct (_ && _) eqn:E2.
    + apply andb_prop in E2 as [Hd%bool_decide_eq_true_1 Hu%bool_decide_eq_true_1]. rewrite IH.
      assert (target_fits endpoints ingress t) as Hfit by (by exists e).
      rewrite (assoc_L (∪)), (comm_L (∪) (list_to_set _) {[_]}). naive_solver.
    + split; [done|]. intros (_ & _ & (e' & E3 & H2 & H3) & _). rewrite E1 in E3. simplify_eq.
      by rewrite !bool_decide_eq_true_2 in E2.
Qed.

Lemma check_routes_Ok endpoints rs ids keys tids : check_routes endpoints rs ids keys tids = Ok () <->
  fresh (route_id <$> rs) ids /\ fresh (route_key <$> rs) keys /\
  fresh (rs ≫= (fun r => target_id <$> route_targets r)) tids /\
  Forall (fun r => Forall (target_fits endpoints (route_ingress r)) (route_targets r)) rs.
Proof.
  revert ids keys tids. induction rs as [|r rs IH]; intros ids keys tids.
  { simpl. split; [intros _|done]. split_and!; try apply fresh_nil. constructor. }
  rewrite !fmap_cons, !fresh_cons, Forall_cons, bind_cons, fresh_app. simpl. fold (route_key r).
  case_decide as H1; [naive_solver|]. case_decide as H2; [naive_solver|].
  destruct (check_targets _ _ _ _) as [tids'|] eqn:E1.
  - apply check_targets_Ok in E1 as (-> & Hn & Hfit). rewrite IH. naive_solver.
  - split; [done|]. intros (_ & _ & [H3 _] & H4 & _).
    rewrite (proj2 (check_targets_Ok _ _ _ _ _) (conj eq_refl (conj H3 H4))) in E1. done.
Qed.
Lemma routes_new_Ok rs endpoints rs' : routes_new rs endpoints = Ok rs' <->
  rs' = merge_sort (fun a b => Routes.key_le (route_key a) (route_key b)) rs /\ NoDup (route_id <$> rs) /\
  NoDup (route_key <$> rs) /\ NoDup (rs ≫= (fun r => target_id <$> route_targets r)) /\
  Forall (fun r => Forall (target_fits endpoints (route_ingress r)) (route_targets r)) rs.
Proof.
  unfold routes_new. pose proof (check_routes_Ok endpoints rs ∅ ∅ ∅) as H. unfold fresh in H.
  destruct (check_routes _ _ _ _ _) as [[]|]; naive_solver set_solver.
Qed.
Lemma routes_new_again rs e rs' e' rs'' : routes_new rs e = Ok rs' -> routes_new rs' e' = Ok rs'' ->
  routes_new rs e' = Ok rs''.
Proof.
  intros (-> & H1 & H2 & H3 & _)%routes_new_Ok (-> & _ & _ & _ & Hf)%routes_new_Ok. apply routes_new_Ok.
  split_and!; [|done..|].
  - apply (sort_by_perm Routes.key_le route_key); [apply merge_sort_Permutation|]. by rewrite merge_sort_Permutation.
  - by rewrite merge_sort_Permutation in Hf.
Qed.

Lemma parse_grouped_mono {R A B} (p p' : Z -> R -> list A -> result B StorageError) rows groups r :
  (forall id row l b, (id, row) ∈ rows -> p id row l = Ok b -> b ∈ r.1 -> p' id row l = Ok b) ->
  parse_grouped p rows groups = Ok r -> parse_grouped p' rows groups = Ok r.
Proof.
  revert groups r. induction rows as [|[id row] rows IH]; intros groups r Hp; simpl; [done|].
  destruct (p _ _ _) as [b|] eqn:E1; [|done]. destruct (parse_grouped p rows _) as [r'|] eqn:E2; [|done].
  intros [= <-]. simpl in Hp. rewrite (Hp id row _ b) by (done || by left).
  rewrite (IH _ r'); [done| |done]. intros. eapply Hp; [by right|done|by right].
Qed.
Lemma parse_grouped_all {R A B} (p : Z -> R -> list A -> result B StorageError) rows groups r id row :
  parse_grouped p rows groups = Ok r -> (id, row) ∈ rows -> exists l b, p id row l = Ok b /\ b ∈ r.1.
Proof.
  revert groups r. induction rows as [|[i x] rows IH]; intros groups r; simpl; [by intros _ H%elem_of_nil|].
  destruct (p _ _ _) as [b|] eqn:E1; [|done]. destruct (parse_grouped p rows _) as [r'|] eqn:E2; [|done].
  intros [= <-] [[= -> ->]|Hin]%elem_of_cons.
  - exists (default [] (groups !! i)), b. split; [done|by left].
  - destruct (IH _ _ E2 Hin) as (l & b' & H1 & H2). exists l, b'. split; [done|by right].
Qed.

Section readback.
Context (to_lowercase : string -> string) (sha256 : bytes -> bytes).
Context (route_ids : ProtocolDialect -> string -> Z) (target_ids : Z -> Z -> ProtocolDialect -> string -> Z).
Context (access_token_of : bytes -> option (option string)) (host_parse : string -> option string).
Context {url_lib : UrlLib} {json : JsonLib} {nets : IpNetLib}.
Context (json_print : Value -> option string) (json_read : string -> option Value).

#[local] Abbreviation load' := (load_configuration to_lowercase sha256 access_token_of host_parse json_read).
#[local] Abbreviation loaded := (parts_loaded to_lowercase sha256 access_token_of host_parse json_read).
#[local] Abbreviation execute_mutation' := (execute_mutation to_lowercase sha256 route_ids target_ids
  access_token_of host_parse json_print json_read).

Lemma read_only_run {A} (m : statement A) db a c' : read_only m -> m (quiet db) = Ret (Ok (a, c')) ->
  reads m db a /\ c' = quiet db.
Proof.
  intros Hm H. unfold reads. destruct (Hm db) as [[b Hb]|[e He]]; [|by rewrite He in H].
  unfold reads in Hb. rewrite Hb in H. by simplify_eq.
Qed.

(** ** A part depends only on its own tables *)

Ltac same_tables m :=
  intros Heq Hreads; unfold m in *; rewrite !reads_fetch_bind in Hreads |- *; simplify_eq/=;
  repeat match goal with E : _ = _ |- _ => rewrite E; clear E end; rewrite reads_lift in Hreads |- *; exact Hreads.
Lemma load_revision_part db db' r : db_revision db' = db_revision db -> reads load_revision db r ->
  reads load_revision db' r.
Proof. same_tables @load_revision. Qed.
Lemma load_proxies_part db db' r : part_proxies db' = part_proxies db ->
  reads (load_proxies to_lowercase host_parse) db r -> reads (load_proxies to_lowercase host_parse) db' r.
Proof. same_tables @load_proxies. Qed.
Lemma load_endpoints_part db db' r : db_endpoints db' = db_endpoints db ->
  reads (load_endpoints to_lowercase) db r -> reads (load_endpoints to_lowercase) db' r.
Proof. same_tables @load_endpoints. Qed.
Lemma load_routes_part db db' endpoints r : part_routes db' = part_routes db ->
  reads (load_routes endpoints) db r -> reads (load_routes endpoints) db' r.
Proof. same_tables @load_routes. Qed.
Lemma load_credentials_part db db' endpoints proxies r : part_credentials db' = part_credentials db ->
  reads (load_credentials to_lowercase sha256 endpoints proxies) db r ->
  reads (load_credentials to_lowercase sha256 endpoints proxies) db' r.
Proof. same_tables @load_credentials. Qed.
Lemma load_accounts_part db db' proxies r : part_accounts db' = part_accounts db ->
  reads (load_accounts to_lowercase access_token_of proxies) db r ->
  reads (load_accounts to_lowercase access_token_of proxies) db' r.
Proof. same_tables @load_accounts. Qed.
Lemma load_keys_part db db' r : db_keys db' = db_keys db -> reads (load_keys sha256) db r ->
  reads (load_keys sha256) db' r.
Proof. same_tables @load_keys. Qed.
Lemma load_settings_part db db' r : db_settings db' = db_settings db -> reads (load_settings json_read) db r ->
  reads (load_settings json_read) db' r.
Proof. same_tables @load_settings. Qed.

(** ** Parts that refer to a part that changed *)

Lemma parse_credential_endpoint e id row models r : parse_credential sha256 e id row models = Ok r ->
  pc_endpoint r.1 = cr_endpoint_id row.
Proof.
  unfold parse_credential. intros H.
  repeat match type of H with match ?x with _ => _ end = _ => destruct x eqn:?; [|done] end. simplify_eq/=.
  repeat match goal with E : corrupt _ = _ |- _ => apply corrupt_inv in E end.
  match goal with E : credential_restore _ _ _ _ _ _ _ _ = _ |- _ => unfold credential_restore in E; revert E end.
  repeat case_match; intros; by simplify_eq/=.
Qed.

Lemma load_credentials_proxies db e p p' l l' secrets :
  reads (load_credentials to_lowercase sha256 e p) db (l, secrets) ->
  credentials_new to_lowercase l e p' = Ok l' ->
  reads (load_credentials to_lowercase sha256 e p') db (l', secrets).
Proof.
  unfold load_credentials. rewrite !reads_fetch_bind, !reads_lift. intros H Hn.
  destruct (try_map _ _) as [ms|]; [|done]. destruct (parse_grouped _ _ _) as [r|]; [|done]. case_match; [done|].
  destruct (corrupt _) as [c|] eqn:E1; [|done]. apply corrupt_inv in E1. simplify_eq.
  by rewrite (credentials_new_again _ _ _ _ _ _ _ _ E1 Hn).
Qed.
Lemma load_accounts_proxies db p p' l l' materials :
  reads (load_accounts to_lowercase access_token_of p) db (l, materials) ->
  accounts_new to_lowercase l p' = Ok l' ->
  reads (load_accounts to_lowercase access_token_of p') db (l', materials).
Proof.
  unfold load_accounts. rewrite !reads_fetch_bind, !reads_lift. intros H Hn.
  destruct (parse_grouped _ _ _) as [r|]; [|done]. case_match; [done|].
  destruct (corrupt _) as [c|] eqn:E1; [|done]. apply corrupt_inv in E1. simplify_eq.
  by rewrite (accounts_new_again _ _ _ _ _ _ E1 Hn).
Qed.
Lemma load_routes_endpoints db e e' l l' : reads (load_routes e) db l -> routes_new l e' = Ok l' ->
  reads (load_routes e') db l'.
Proof.
  unfold load_routes. rewrite !reads_fetch_bind, !reads_lift. intros H Hn.
  destruct (try_map _ _) as [ms|]; [|done]. destruct (parse_grouped _ _ _) as [r|]; [|done]. case_match; [done|].
  apply corrupt_inv in H. by rewrite (routes_new_again _ _ _ _ _ H Hn).
Qed.

(** Endpoints keep their provider, which the fingerprint of a secret depends on. *)
Definition same_providers (e e' : list ProviderEndpoint) : Prop := forall id x y,
  endpoint_get e id = Some x -> endpoint_get e' id = Some y -> ep_provider y = ep_provider x.

Lemma load_credentials_endpoints db e e' p l l' secrets :
  reads (load_credentials to_lowercase sha256 e p) db (l, secrets) -> same_providers e e' ->
  credentials_new to_lowercase l e' p = Ok l' ->
  reads (load_credentials to_lowercase sha256 e' p) db (l', secrets).
Proof.
  unfold load_credentials. rewrite !reads_fetch_bind, !reads_lift. intros H He Hn.
  destruct (try_map _ _) as [ms|]; [|done]. destruct (parse_grouped _ _ _) as [r|] eqn:E2; [|done].
  destruct (negb (bool_decide (r.2 = ∅))) eqn:E3; [done|].
  destruct (corrupt _) as [c|] eqn:E1; [|done]. apply corrupt_inv in E1. simplify_eq.
  pose proof (credentials_new_again _ _ _ _ _ _ _ _ E1 Hn) as Hn'.
  apply (parse_grouped_mono _ (parse_credential sha256 e')) in E2.
  - rewrite E2, E3. by rewrite Hn'.
  - intros id row models b _ Hp Hb. pose proof (parse_credential_endpoint _ _ _ _ _ Hp) as Hep.
    apply credentials_new_Ok in Hn' as (_ & _ & _ & Hr). rewrite Forall_forall in Hr.
    destruct (Hr b.1) as [[y Hy] _]; [by apply list_elem_of_fmap_2|]. rewrite Hep in Hy.
    unfold parse_credential in *. destruct (endpoint_get e (cr_endpoint_id row)) as [x|] eqn:Ex; [|done].
    rewrite Hy. simpl in *. by rewrite (He _ _ _ Ex Hy).
Qed.
Lemma credential_row_loaded db e p l secrets id row :
  reads (load_credentials to_lowercase sha256 e p) db (l, secrets) -> db_credentials db !! id = Some row ->
  exists c, c ∈ l /\ pc_endpoint c = cr_endpoint_id row.
Proof.
  unfold load_credentials. rewrite !reads_fetch_bind, !reads_lift. intros H Hrow.
  destruct (try_map _ _) as [ms|]; [|done]. destruct (parse_grouped _ _ _) as [r|] eqn:E2; [|done].
  case_match; [done|]. destruct (corrupt _) as [c|] eqn:E1; [|done]. apply corrupt_inv in E1. simplify_eq.
  apply credentials_new_Ok in E1 as (-> & _).
  destruct (parse_grouped_all _ _ _ _ id row E2) as (models & b & Hb & Hin).
  { unfold order_by. rewrite merge_sort_Permutation. by apply elem_of_map_to_list. }
  exists b.1. split; [|by eapply parse_credential_endpoint]. rewrite sort_entities_perm. by apply list_elem_of_fmap_2.
Qed.

(** ** Mutations *)

(** A mutation that answers has changed nothing, or answers what is now stored. *)
Definition sound (p : statement (StoredConfiguration * bool)) : Prop :=
  forall db current c changed c', reads load' db current -> p (quiet db) = Ret (Ok ((c, changed), c')) ->
  if changed : bool then reads load' (database c') c else c = current /\ database c' = db.

Ltac read_only_shape' := repeat first [ progress intros | apply read_only_fetch | apply read_only_lift
  | apply read_only_bind | apply (read_only_lift (Ok _))
  | match goal with |- read_only (if ?b then _ else _) => destruct b end
  | match goal with |- read_only (let _ := _ in _) => cbv zeta end
  | match goal with |- read_only ?m => let h := head m in unfold h end ].
Lemma from_loaded expected body :
  (forall db current c changed c', loaded db current -> honest (body current) ->
     body current (quiet db) = Ret (Ok ((c, changed), c')) ->
     if changed : bool then loaded (database c') c else c = current /\ database c' = db) ->
  (forall current, honest (body current)) ->
  sound (st_bind (load_expected to_lowercase sha256 access_token_of host_parse json_read expected) body).
Proof.
  intros Hb Hh db current c changed c' Hl H. apply bind_inv in H as (cur & c1 & H1 & H).
  apply bind_inv in H1 as (cur' & c2 & H1 & H2). unfold reads in Hl. rewrite Hl in H1. simplify_eq.
  apply lift_inv in H2 as [H2 ->]. destruct (negb _); [done|]. simplify_eq.
  pose proof (proj1 (load_parts _ _ _ _ _ _ _) Hl) as Hparts.
  specialize (Hb db cur c changed c' Hparts (Hh cur) H). destruct changed; [|done]. by apply load_parts.
Qed.

(** The end of every mutation that changes something *)
Lemma written_inv (write : statement ()) expected readback
    (finish : Z -> StoredConfiguration -> statement (StoredConfiguration * bool)) db y c' :
  honest write -> read_only readback ->
  (_ <~ write; revision <~ bump_revision expected; x <~ readback; finish revision x) (quiet db) = Ret (Ok (y, c')) ->
  exists db1 db2 r x, write (quiet db) = Ret (Ok ((), quiet db1)) /\
    bump_revision expected (quiet db1) = Ret (Ok (r, quiet db2)) /\ reads readback db2 x /\
    finish r x (quiet db2) = Ret (Ok (y, c')).
Proof.
  intros Hw Hr H. apply bind_inv in H as ([] & c1 & H1 & H). destruct (honest_quiet _ _ _ _ Hw H1) as [db1 ->].
  apply bind_inv in H as (r & c2 & H2 & H). assert (honest (bump_revision expected)) as Hb by honestly.
  destruct (honest_quiet _ _ _ _ Hb H2) as [db2 ->]. apply bind_inv in H as (x & c3 & H3 & H).
  apply read_only_run in H3 as [H3 ->]; [|done]. by exists db1, db2, r, x.
Qed.
Ltac quietly H db' :=
  match type of H with ?m (quiet _) = _ =>
    let Hh := fresh in assert (honest m) as Hh by honestly; destruct (honest_quiet _ _ _ _ Hh H) as [db' ->]; clear Hh
  end.
Ltac checked H :=
  repeat (let Hm := fresh "Hm" in apply bind_inv in H as ([] & ? & Hm & H); apply matches_inv in Hm as [? ->]);
  apply ret_inv in H as [? ->]; simplify_eq.
(** The tables a statement left alone *)
Ltac frame H f :=
  try match type of H with
  | ?m ?c = Ret (Ok (_, ?c')) =>
    let Hk := fresh "Hk" in
    assert (f (database c') = f (database c)) as Hk by (refine ((_ : keeps f m) _ _ _ H); solve [keeping])
  end.
Ltac frames H :=
  frame H part_proxies; frame H db_endpoints; frame H part_routes; frame H part_credentials;
  frame H part_accounts; frame H db_keys; frame H db_settings; simpl in *.
Ltac kept := first [eassumption
  | eapply load_proxies_part; [|eassumption]; congruence | eapply load_endpoints_part; [|eassumption]; congruence
  | eapply load_routes_part; [|eassumption]; congruence | eapply load_credentials_part; [|eassumption]; congruence
  | eapply load_accounts_part; [|eassumption]; congruence | eapply load_keys_part; [|eassumption]; congruence
  | eapply load_settings_part; [|eassumption]; congruence].

Lemma stored_revision_reads cur db c : reads (parts_with_stored_revision cur) db c ->
  exists r, c = with_revision cur r /\ reads load_revision db r.
Proof.
  unfold parts_with_stored_revision. rewrite reads_bind by read_only_shape'. intros (r & Hr & H).
  apply reads_ret in H as ->. by exists r.
Qed.
(** Taking a reading apart *)
Ltac read H := repeat (apply (proj1 (reads_bind _ _ _ _ ltac:(read_only_shape'))) in H as (? & ? & H)).

Lemma mutate_key_sound expected m :
  sound (mutate_key to_lowercase sha256 access_token_of host_parse json_read expected m).
Proof.
  apply from_loaded; [|intros; honestly]. intros db cur c changed c' Hl _ H.
  apply bind_inv in H as (prepared & c1 & [_ ->]%lift_inv & H).
  destruct prepared as [[keys change]|]; [|by apply ret_inv in H as [[= -> ->] ->]].
  apply written_inv in H as (db1 & db2 & r & x & H1 & H2 & H3 & H); [|honestly|read_only_shape'].
  checked H. frames H1. frames H2. unfold readback_keys in H3. destruct Hl.
  apply reads_bind in H3 as (c1 & (r' & -> & Hr)%stored_revision_reads & H3); [|read_only_shape'].
  apply reads_bind in H3 as (keys' & Hkeys & H3); [|read_only_shape']. apply reads_ret in H3 as ->.
  constructor; simpl; kept.
Qed.
Lemma mutate_settings_sound expected changes :
  sound (mutate_settings to_lowercase sha256 access_token_of host_parse json_print json_read expected changes).
Proof.
  apply from_loaded; [|intros; honestly]. intros db cur c changed c' Hl _ H.
  apply bind_inv in H as (prepared & c1 & [_ ->]%lift_inv & H).
  destruct prepared as [settings|]; [|by apply ret_inv in H as [[= -> ->] ->]].
  apply written_inv in H as (db1 & db2 & r & x & H1 & H2 & H3 & H); [|honestly|read_only_shape'].
  checked H. frames H1. frames H2. unfold readback_settings in H3. destruct Hl.
  apply reads_bind in H3 as (c1 & (r' & -> & Hr)%stored_revision_reads & H3); [|read_only_shape'].
  apply reads_bind in H3 as (settings' & Hset & H3); [|read_only_shape']. apply reads_ret in H3 as ->.
  constructor; simpl; kept.
Qed.

(** Accounts: what is read back, with the settings or without *)
Lemma readback_accounts_loaded cur db db2 flag c : loaded db cur ->
  reads (readback_accounts to_lowercase access_token_of json_read cur flag) db2 c ->
  part_proxies db2 = part_proxies db -> db_endpoints db2 = db_endpoints db -> part_routes db2 = part_routes db ->
  part_credentials db2 = part_credentials db -> db_keys db2 = db_keys db ->
  (flag = false -> db_settings db2 = db_settings db) -> loaded db2 c.
Proof.
  intros Hl H E1 E2 E3 E4 E5 E6. unfold readback_accounts in H. destruct Hl.
  apply reads_bind in H as (c1 & (r & -> & Hr)%stored_revision_reads & H); [|read_only_shape'].
  apply reads_bind in H as ([accounts materials] & Ha & H); [|read_only_shape']. destruct flag.
  - apply reads_bind in H as (settings & Hs & H); [|read_only_shape']. apply reads_ret in H as ->.
    constructor; simpl; kept.
  - specialize (E6 eq_refl). apply reads_ret in H as ->. constructor; simpl; kept.
Qed.
Lemma accounts_match_inv c r l x u x' : ensure_accounts_match c r l x = Ret (Ok (u, x')) -> x' = x.
Proof. intros ([] & c1 & [_ ->]%matches_inv & [_ ->]%matches_inv)%bind_inv. done. Qed.

Lemma mutate_account_sound expected m :
  sound (mutate_account to_lowercase sha256 access_token_of host_parse json_print json_read expected m).
Proof.
  apply from_loaded; [|intros; honestly]. intros db cur c changed c' Hl _ H.
  apply bind_inv in H as (prepared & c1 & [_ ->]%lift_inv & H).
  destruct prepared as [[accounts change]|]; [|by apply ret_inv in H as [[= -> ->] ->]].
  apply bind_inv in H as ([] & c1 & H0 & H). quietly H0 db0.
  apply written_inv in H as (db1 & db2 & r & x & H1 & H2 & H3 & H); [|honestly|read_only_shape'].
  apply bind_inv in H as ([] & ? & ->%accounts_match_inv & [? ->]%ret_inv). simplify_eq.
  frames H0. frames H1. frames H2. eapply readback_accounts_loaded; [done|done|congruence..].
Qed.
Lemma mutate_create_batch_sound now expected l :
  sound (mutate_create_batch to_lowercase sha256 access_token_of host_parse json_read now expected l).
Proof.
  apply from_loaded; [|intros; honestly]. intros db cur c changed c' Hl _ H.
  case_bool_decide as Hempty; [by apply ret_inv in H as [[= -> ->] ->]|].
  apply bind_inv in H as (created_at & c1 & H0 & H).
  apply read_only_run in H0 as [_ ->]; [|read_only_shape']. apply bind_inv in H as (p & c1 & [_ ->]%of_inv & H).
  apply written_inv in H as (db1 & db2 & r & x & H1 & H2 & H3 & H); [|honestly|read_only_shape'].
  apply bind_inv in H as ([] & ? & ->%accounts_match_inv & [? ->]%ret_inv). simplify_eq.
  frames H1. frames H2. eapply readback_accounts_loaded; [done|done|congruence..].
Qed.
Lemma mutate_refresh_batch_sound expected l :
  sound (mutate_refresh_batch to_lowercase sha256 access_token_of host_parse json_print json_read expected l).
Proof.
  apply from_loaded; [|intros; honestly]. intros db cur c changed c' Hl _ H.
  apply bind_inv in H as (p & c1 & [_ ->]%lift_inv & H).
  case_bool_decide as Hempty; [by apply ret_inv in H as [[= -> ->] ->]|].
  apply bind_inv in H as ([] & c1 & H0 & H). quietly H0 db0.
  apply written_inv in H as (db1 & db2 & r & x & H1 & H2 & H3 & H); [|honestly|read_only_shape'].
  apply bind_inv in H as ([] & ? & ->%accounts_match_inv & [? ->]%ret_inv). simplify_eq.
  frames H0. frames H1. frames H2. eapply readback_accounts_loaded; [done|done|congruence..].
Qed.

(** Proxies: credentials and accounts are checked again, not read again. *)
Lemma readback_proxies_loaded cur db db2 c : loaded db cur ->
  reads (readback_proxies to_lowercase host_parse cur) db2 c ->
  db_endpoints db2 = db_endpoints db -> part_routes db2 = part_routes db ->
  part_credentials db2 = part_credentials db -> part_accounts db2 = part_accounts db ->
  db_keys db2 = db_keys db -> db_settings db2 = db_settings db -> loaded db2 c.
Proof.
  intros Hl H E1 E2 E3 E4 E5 E6. unfold readback_proxies in H. destruct Hl.
  apply reads_bind in H as (c1 & (r & -> & Hr)%stored_revision_reads & H); [|read_only_shape'].
  apply reads_bind in H as ([proxies passwords] & Hp & H); [|read_only_shape'].
  apply reads_bind in H as (credentials & Hc%reads_lift%corrupt_inv & H); [|read_only_shape'].
  apply reads_bind in H as (accounts & Ha%reads_lift%corrupt_inv & H); [|read_only_shape'].
  apply reads_ret in H as ->. constructor; simpl; try kept.
  - eapply load_credentials_part; [exact E3|]. by eapply load_credentials_proxies.
  - eapply load_accounts_part; [exact E4|]. by eapply load_accounts_proxies.
Qed.
Lemma mutate_proxy_sound expected m :
  sound (mutate_proxy to_lowercase sha256 access_token_of host_parse json_read expected m).
Proof.
  apply from_loaded; [|intros; honestly]. intros db cur c changed c' Hl _ H.
  apply bind_inv in H as (prepared & c1 & [_ ->]%lift_inv & H).
  destruct prepared as [[proxies change]|]; [|by apply ret_inv in H as [[= -> ->] ->]].
  apply written_inv in H as (db1 & db2 & r & x & H1 & H2 & H3 & H); [|honestly|read_only_shape'].
  checked H. frames H1. frames H2. eapply readback_proxies_loaded; [done|done|congruence..].
Qed.
Lemma mutate_proxy_authentication_sound expected m :
  sound (mutate_proxy_authentication to_lowercase sha256 access_token_of host_parse json_read expected m).
Proof.
  apply from_loaded; [|intros; honestly]. intros db cur c changed c' Hl _ H.
  apply bind_inv in H as (updated & c1 & H0 & H). destruct updated as [updated|].
  - quietly H0 db0.
    apply (written_inv (st_ret ())) in H as (db1 & db2 & r & x & H1 & H2 & H3 & H); [|honestly|read_only_shape'].
    checked H. frames H0. frames H1. frames H2. eapply readback_proxies_loaded; [done|done|congruence..].
  - apply ret_inv in H as [[= -> ->] ->]. split; [done|]. destruct m as [id username password|id].
    + apply bind_inv in H0 as (e & ? & [_ ->]%lift_inv & H). apply bind_inv in H as (? & ? & [_ ->]%lift_inv & H).
      apply bind_inv in H as (? & ? & [_ ->]%lift_inv & H). apply bind_inv in H as (? & ? & _ & H).
      by apply ret_inv in H as [? _].
    + apply bind_inv in H0 as (e & ? & [_ ->]%lift_inv & H). apply bind_inv in H as (? & ? & [_ ->]%lift_inv & H).
      case_bool_decide; [by apply ret_inv in H as [_ ->]|]. apply bind_inv in H as (? & ? & _ & H).
      by apply ret_inv in H as [? _].
Qed.

(** Credentials: routes and the settings are read again when routes were derived anew. *)
Lemma mutate_credential_sound expected m : sound (mutate_credential to_lowercase sha256 route_ids target_ids
  access_token_of host_parse json_print json_read expected m).
Proof.
  apply from_loaded; [|intros; honestly]. intros db cur c changed c' Hl _ H.
  apply bind_inv in H as (prepared & c1 & [_ ->]%of_inv & H).
  destruct prepared as [p|]; [|by apply ret_inv in H as [[= -> ->] ->]].
  apply bind_inv in H as ([] & c1 & H0 & H). quietly H0 db0.
  apply written_inv in H as (db1 & db2 & r & x & H1 & H2 & H3 & H); [|honestly|read_only_shape'].
  assert (x = c /\ changed = true /\ c' = quiet db2) as (-> & -> & ->).
  { apply bind_inv in H as ([] & ? & [_ ->]%matches_inv & H). apply bind_inv in H as ([] & ? & [_ ->]%matches_inv & H).
    apply bind_inv in H as ([] & ? & Hr & [? ->]%ret_inv). simplify_eq. split_and!; [done..|].
    destruct (prepared_routes p); [by apply matches_inv in Hr as [_ ->]|by apply ret_inv in Hr as [_ ->]]. }
  clear H. unfold readback_credentials in H3. destruct Hl.
  apply reads_bind in H3 as (c1 & (r' & -> & Hr)%stored_revision_reads & H3); [|read_only_shape'].
  apply reads_bind in H3 as ([credentials secrets] & Hc & H3); [|read_only_shape'].
  frames H0. frames H2. destruct (prepared_routes p) as [routes|]; simpl in H1, H3.
  - frames H1.
    apply reads_bind in H3 as (routes' & Hroutes & H3); [|read_only_shape'].
    apply reads_bind in H3 as (settings & Hs & H3); [|read_only_shape']. apply reads_ret in H3 as ->.
    constructor; simpl; kept.
  - apply ret_inv in H1 as [_ [= ->]].
    apply reads_ret in H3 as ->. constructor; simpl; kept.
Qed.

(** Endpoints: no change of the endpoints changes a provider. *)
Lemma endpoint_get_in l id e : endpoint_get l id = Some e -> e ∈ l /\ ep_id e = id.
Proof.
  unfold endpoint_get, entity_get. intros ([n y] & (Hl & <- & _)%list_find_Some & [= ->])%fmap_Some.
  split; [by eapply list_elem_of_lookup_2|done].
Qed.
Lemma same_providers_new l l' next : endpoints_new to_lowercase l' = Ok next ->
  (forall y, y ∈ l' -> forall x, x ∈ l -> ep_id x = ep_id y -> NoDup (ep_id <$> l') -> ep_provider y = ep_provider x) ->
  same_providers l next.
Proof.
  intros (-> & Hnd & _)%endpoints_new_Ok H id x y [Hx Ex]%endpoint_get_in [Hy Ey]%endpoint_get_in.
  rewrite sort_entities_perm in Hy. eapply H; [done..|by rewrite Ex, Ey|done].
Qed.
Lemma same_id_same l x y : NoDup (ep_id <$> l) -> x ∈ l -> y ∈ l -> ep_id x = ep_id y -> x = y.
Proof.
  intros Hnd [i Hi]%list_elem_of_lookup [j Hj]%list_elem_of_lookup E1.
  assert (i = j) as ->; [|congruence]. eapply (NoDup_lookup (ep_id <$> l)); [done|by rewrite list_lookup_fmap, Hi|].
  rewrite list_lookup_fmap, Hj. simpl. by rewrite E1.
Qed.
Lemma updated_provider e d e' : endpoint_updated e d = Ok e' -> ep_id e' = ep_id e /\ ep_provider e' = ep_provider e.
Proof.
  unfold endpoint_updated. case_bool_decide as Hp; [|done]. simpl. case_match; [by intros [= <-]|].
  case_match; [|done]. intros [= <-]. simpl. by split.
Qed.

Lemma prepare_endpoint_inv current credentials proxies m p : NoDup (ep_id <$> current) ->
  prepare_endpoint to_lowercase route_ids target_ids current credentials proxies m = Ret (Ok (Some p)) ->
  same_providers current (next_endpoints p) /\
  (forall id, endpoint_change p = DeleteEndpoint id ->
     is_Some (next_routes p) /\ credential_rows_changed p = references_endpoint credentials id).
Proof.
  intros Hnd. destruct m as [id d|id expected d|id]; simpl.
  - unfold create_endpoint. destruct (endpoint_create id d) as [e|] eqn:Ee; [|done]. simpl.
    destruct (endpoints_new _ _) as [next|] eqn:En; [|done]. intros [= <-]. simpl. split; [|done].
    eapply same_providers_new; [done|]. intros y Hy x Hx E1 Hn.
    by rewrite (same_id_same _ x y Hn ltac:(apply elem_of_app; by left) Hy E1).
  - unfold update_endpoint. destruct (endpoint_get current id) as [existing|] eqn:Eg; [|done]. case_match; [done|].
    destruct (endpoint_updated existing d) as [updated|] eqn:Eu; [|done]. case_bool_decide; [done|]. cbv zeta.
    destruct (endpoints_new _ _) as [next|] eqn:En; [|done].
    intros Hp. assert (next_endpoints p = next /\ endpoint_change p = UpdateEndpoint updated) as [-> ->].
    { destruct (if _ && _ then _ else _) as [creds|]; [|done]. revert Hp. case_match; simpl; [|by intros [= <-]].
      destruct (from_credentials _ _ _ _) as [[]|]; simpl; [by intros [= <-]|done|done]. }
    split; [|done]. apply updated_provider in Eu as [Ei Ep]. apply endpoint_get_in in Eg as [Hin <-].
    eapply same_providers_new; [done|]. intros y (z & -> & Hz)%list_elem_of_fmap x Hx. 
    destruct (Z.eqb_spec (ep_id z) (ep_id existing)) as [E2|E2].
    + rewrite Ei, Ep. intros E1 _. by rewrite (same_id_same _ x existing Hnd Hx Hin E1).
    + intros E1 _. by rewrite (same_id_same _ x z Hnd Hx Hz E1).
  - unfold delete_endpoint. destruct (endpoint_get current id) as [existing|]; [|done].
    destruct (endpoints_new _ _) as [next|] eqn:En; [|done]. destruct (credentials_new _ _ _ _) as [creds|]; [|done].
    destruct (from_credentials _ _ _ _) as [[routes|]|]; simpl; [|done|done]. intros [= <-]. simpl. split.
    + eapply same_providers_new; [done|]. intros y [_ Hy]%list_elem_of_filter x Hx E1 _.
      by rewrite (same_id_same _ x y Hnd Hx Hy E1).
    + intros ? [= <-]. split; [by eexists|done].
Qed.

Lemma remove_no_credentials (P : Z * ProviderCredentialRow -> Prop) `{forall r, Decision (P r)} db :
  map_Forall (fun id row => ~ P (id, row)) (db_credentials db) ->
  part_credentials (remove_credentials P db) = part_credentials db.
Proof.
  intros HP. unfold part_credentials, remove_credentials. simpl. f_equal.
  - apply map_filter_id. done.
  - apply map_filter_id. intros k v _. apply map_lookup_filter_None. right. intros row Hrow. by apply HP.
Qed.
Lemma endpoint_change_credentials change db c' :
  (forall id, change = DeleteEndpoint id -> map_Forall (fun _ row => cr_endpoint_id row <> id) (db_credentials db)) ->
  execute_endpoint_change change (quiet db) = Ret (Ok ((), c')) ->
  part_credentials (database c') = part_credentials db.
Proof.
  intros Hd H. destruct change as [e|e|id]; [by frame H part_credentials..|].
  simpl in H. unfold delete_endpoint_rows in H. apply bind_inv in H as ([] & c1 & H1 & H).
  frame H part_credentials. etrans; [done|]. unfold execute in H1. simpl in H1. simplify_eq/=.
  apply remove_no_credentials. intros i row Hrow. simpl. by apply (Hd id eq_refl i).
Qed.
Lemma no_references credentials id : references_endpoint credentials id = false ->
  forall c, c ∈ credentials -> pc_endpoint c <> id.
Proof.
  unfold references_endpoint. intros H c Hc E. apply not_true_iff_false in H. apply H, existsb_exists.
  exists c. split; [by apply list_elem_of_In|]. by apply Z.eqb_eq.
Qed.

(** What the statements of an endpoint's mutation leave alone *)
Lemma endpoint_writes cur p db db' : loaded db cur ->
  (forall id, endpoint_change p = DeleteEndpoint id ->
     is_Some (next_routes p) /\ credential_rows_changed p = references_endpoint (st_credentials cur) id) ->
  (_ <~ (if deletes_endpoint p then reconcile_routes_and_allowlist json_print cur (next_routes p) else st_ret ());
   _ <~ execute_endpoint_change (endpoint_change p);
   _ <~ (if bump_credential_generations p
         then bump_endpoint_credential_generations (prepared_endpoint_id p) else st_ret ());
   (if deletes_endpoint p then st_ret () else reconcile_routes_and_allowlist json_print cur (next_routes p)))
    (quiet db) = Ret (Ok ((), quiet db')) ->
  (credential_rows_changed p || bump_credential_generations p = false ->
     part_credentials db' = part_credentials db) /\
  (next_routes p = None -> part_routes db' = part_routes db /\ db_settings db' = db_settings db).
Proof.
  intros Hl Hp H. split.
  - intros [E1 E2]%orb_false_iff. rewrite E2 in H. apply bind_inv in H as ([] & c1 & H1 & H). quietly H1 db1.
    apply bind_inv in H as ([] & c2 & H2 & H). apply endpoint_change_credentials in H2.
    + frame H part_credentials. frame H1 part_credentials. simpl in *. congruence.
    + frame H1 part_credentials. simpl in *. intros id Hid cid row Hrow. destruct (Hp id Hid) as [_ E3].
      rewrite E1 in E3. assert (db_credentials db1 = db_credentials db) as E4 by by (simplify_eq/=).
      rewrite E4 in Hrow. destruct Hl. destruct (credential_row_loaded _ _ _ _ _ _ _ pl_credentials Hrow) as (c & Hc & <-).
      by apply (no_references _ _ (eq_sym E3)).
  - intros E1. assert (deletes_endpoint p = false) as Ed.
    { unfold deletes_endpoint. destruct (endpoint_change p) eqn:E2; [done..|]. destruct (Hp _ eq_refl) as [[? E3] _].
      congruence. }
    rewrite Ed, E1 in H. simpl in H. frame H part_routes. frame H db_settings. done.
Qed.
Lemma mutate_endpoint_sound expected m : sound (mutate_endpoint to_lowercase sha256 route_ids target_ids
  access_token_of host_parse json_print json_read expected m).
Proof.
  apply from_loaded; [|intros; honestly]. intros db cur c changed c' Hl _ H.
  apply bind_inv in H as (prepared & c1 & [Hp ->]%of_inv & H).
  destruct prepared as [p|]; [|by apply ret_inv in H as [[= -> ->] ->]].
  apply bind_inv in H as ([] & c1 & H1 & H). quietly H1 db1. apply bind_inv in H as ([] & c2 & H2 & H). quietly H2 db2.
  apply bind_inv in H as ([] & c3 & H3 & H). quietly H3 db3.
  apply written_inv in H as (db4 & db5 & r & x & H4 & H5 & H6 & H); [|honestly|read_only_shape'].
  assert (NoDup (ep_id <$> st_endpoints cur)) as Hnd.
  { pose proof (pl_endpoints _ _ _ _ _ _ _ Hl) as He. unfold load_endpoints in He.
    rewrite reads_fetch_bind, reads_lift in He. destruct (try_map _ _); [|done]. apply corrupt_inv in He.
    apply endpoints_new_Ok in He as (-> & He & _). by rewrite sort_entities_perm. }
  destruct (prepare_endpoint_inv _ _ _ _ _ Hnd Hp) as [Hprov Hdel].
  destruct (endpoint_writes cur p db db4 Hl Hdel) as [Hcreds Hroutes].
  { by rewrite (answer_run _ _ _ _ _ H1), (answer_run _ _ _ _ _ H2), (answer_run _ _ _ _ _ H3). }
  assert (x = c /\ changed = true /\ c' = quiet db5 /\ st_endpoints c = next_endpoints p) as (-> & -> & -> & E1).
  { apply bind_inv in H as ([] & ? & [_ ->]%matches_inv & H). apply bind_inv in H as ([] & ? & [E1 ->]%matches_inv & H).
    apply bind_inv in H as ([] & ? & [_ ->]%matches_inv & H). apply bind_inv in H as ([] & ? & Hr & [? ->]%ret_inv).
    simplify_eq. split_and!; [done..| |done].
    destruct (next_routes p); [by apply matches_inv in Hr as [_ ->]|by apply ret_inv in Hr as [_ ->]]. }
  clear H Hp Hdel. frames H5.
  assert (part_proxies db4 = part_proxies db /\ part_accounts db4 = part_accounts db /\ db_keys db4 = db_keys db)
    as (? & ? & ?).
  { frames H1. frames H2. frames H3. frames H4. split_and!; congruence. }
  clear H1 H2 H3 H4 H5. unfold readback_endpoints in H6. destruct Hl.
  apply reads_bind in H6 as (c1 & (r' & -> & Hr)%stored_revision_reads & H6); [|read_only_shape'].
  apply reads_bind in H6 as (endpoints & He & H6); [|read_only_shape'].
  apply reads_bind in H6 as ([credentials secrets] & Hc & H6); [|read_only_shape'].
  apply reads_bind in H6 as (routes & Hro & H6); [|read_only_shape'].
  apply reads_bind in H6 as (settings & Hs & H6); [|read_only_shape'].
  apply reads_ret in H6 as ->. simpl in *. subst endpoints. constructor; simpl; try kept.
  - destruct (next_routes p) as [l|]; simpl in Hro; [done|]. destruct (Hroutes eq_refl) as [? _].
    apply reads_lift, corrupt_inv in Hro. eapply load_routes_part; [|by eapply load_routes_endpoints]. congruence.
  - destruct (_ || _) eqn:Eflag; [done|].
    apply reads_bind in Hc as (l & Hl%reads_lift%corrupt_inv & Hc); [|read_only_shape'].
    apply reads_ret in Hc. injection Hc as -> ->. specialize (Hcreds eq_refl).
    eapply load_credentials_part; [|by eapply load_credentials_endpoints]. congruence.
  - destruct (next_routes p) as [l|]; simpl in Hs; [done|]. destruct (Hroutes eq_refl) as [_ ?].
    apply reads_ret in Hs as ->. kept.
Qed.

(** Every mutation answers the configuration that is then stored. *)
Lemma execute_mutation_sound now expected m : sound (execute_mutation' now expected m).
Proof.
  assert (forall A (x : A) k, sound (k x) -> sound (st_bind (fetch (fun _ => x)) k)) as Hnow by (intros A x k H; exact H).
  destruct m; simpl; try apply Hnow;
    first [apply mutate_proxy_sound|apply mutate_proxy_authentication_sound|apply mutate_endpoint_sound
          |apply mutate_credential_sound|apply mutate_account_sound|apply mutate_create_batch_sound
          |apply mutate_refresh_batch_sound|apply mutate_key_sound|apply mutate_settings_sound].
Qed.

(** What a transaction leaves in the database *)
Lemma transact_stores {A R} now expected m (compiler : StoredConfiguration -> result A R) commit c current answer db' :
  reads load' (database c) current ->
  transact to_lowercase sha256 route_ids target_ids access_token_of host_parse json_print json_read
    now expected m compiler commit c = Ret (answer, db') ->
  match answer with
  | Ok (Committed _ _ a) => exists next, compiler next = Ok a /\ reads load' db' next
  | Err IndeterminateConfigurationCommit => True
  | _ => db' = database c
  end.
Proof.
  intros Hl. unfold transact. match goal with |- context [match ?p c with _ => _ end] => set (program := p) end.
  assert (honest program) as Hh. { apply honest_bind; [apply honest_execute|]. intros. apply honest_mutation. }
  assert (sound program) as Hs.
  { intros db cur x changed c' H1 H2. apply (execute_mutation_sound now expected m db cur x changed c' H1 H2). }
  destruct (Hh c) as [[-> _]|H]; [by intros [= <- <-]|].
  destruct (program (quiet (database c))) as [[[[next changed] c']|e]|] eqn:E1.
  - specialize (Hs _ _ _ _ _ Hl E1). destruct H as (s & -> & _ & _). simpl. destruct changed; simpl.
    + destruct (compiler next) as [a|rej] eqn:E2; [|by destruct s as [|[|] s]; intros [= <- <-]].
      destruct commit; intros [= <- <-]; [by exists next|done|done].
    + by destruct s as [|[|] s]; intros [= <- <-].
  - rewrite H. intros [= <- <-]. by destruct e.
  - by rewrite H.
Qed.
End readback.
