(* ===== verification/Publishing.v ===== *)
(** * Publishing configurations

    The publication of configuration changes: what a configuration may ask of
    the registered protocols and providers
    ([runtime/src/configuration/capabilities.rs]), the store of the published
    snapshot ([snapshot/store.rs]), compiling and binding it ([snapshot/prepared.rs]),
    and the publisher ([publisher/config_publisher.rs], [providers.rs],
    [settings.rs], [oauth_accounts.rs]) with its errors ([error.rs]).

    Publications are serialized by the mutex of the store, so each is one step
    from a state of the database, the store and the runtime to the next. *)
From S2P Require Import Prelude Search Protocol Text GatewayRate Epoch Upstream Health Attempt Admission CredentialRuntime Candidates TierCursor Registry OAuthErrors Entities Catalog Routes Drivers Cost SettingKeys Settings Compile Building Planning Mutations Tables Storage Persistence KeyUsage Readback.
Local Open Scope Z_scope.

(** * Capabilities *)

Inductive ConfigurationCapabilityError :=
| CapabilityMissingEndpoint (id : Z)
| CapabilityMissingDriver (provider : ProviderKind)
| CapabilityMissingAdapter (dialect : ProtocolDialect)
| CapabilityMissingBridge (ingress upstream : ProtocolDialect)
| UnsupportedProviderProtocol (provider : ProviderKind) (protocol : ProtocolDialect)
| UnsupportedCredentialKind (provider : ProviderKind) (credential : CredentialKind).

(** [ProviderDescriptor::supports_credential_kind] *)
Definition supports_credential_kind (p : ProviderDescriptor) (k : CredentialKind) : bool :=
  match k with ApiKey => negb (bool_decide (api_key_operations p = [])) end.

Section capabilities.
Context (protocols : ProtocolRegistry) (providers : ProviderRegistry).

Definition has_operation (d : ProtocolDialect) : bool :=
  existsb (fun o => bool_decide (operation_dialect o = d)) all_operations.
Definition validate_protocol_pair (ingress upstream : ProtocolDialect)
    : result () ConfigurationCapabilityError :=
  if negb (bool_decide (ingress ∈ adapters protocols)) then Err (CapabilityMissingAdapter ingress)
  else if negb (bool_decide (upstream ∈ adapters protocols)) then Err (CapabilityMissingAdapter upstream)
  else if negb (has_operation ingress) then Err (CapabilityMissingAdapter ingress)
  else if negb (bool_decide (ingress = upstream)) &&
          negb (existsb (fun o => supports_operation protocols ingress upstream o) all_operations)
  then Err (CapabilityMissingBridge ingress upstream)
  else Ok ().
Definition validate_endpoint (provider : ProviderKind) (accepted upstream : ProtocolDialect)
    : result () ConfigurationCapabilityError :=
  _ ⇐ validate_protocol_pair accepted upstream;
  match providers !! provider with
  | None => Err (CapabilityMissingDriver provider)
  | Some driver =>
    if negb (supports_protocol (driver_descriptor driver) upstream)
    then Err (UnsupportedProviderProtocol provider upstream) else Ok ()
  end.
Definition validate_credential (provider : ProviderKind) (credential : CredentialKind)
    : result () ConfigurationCapabilityError :=
  match providers !! provider with
  | None => Err (CapabilityMissingDriver provider)
  | Some driver =>
    if negb (supports_credential_kind (driver_descriptor driver) credential)
    then Err (UnsupportedCredentialKind provider credential) else Ok ()
  end.
Definition validate_target (endpoints : list ProviderEndpoint) (r : ModelRoute) (t : RouteTarget)
    : result () ConfigurationCapabilityError :=
  match endpoint_get endpoints (draft_endpoint (target t)) with
  | None => Err (CapabilityMissingEndpoint (draft_endpoint (target t)))
  | Some e => validate_endpoint (ep_provider e) (route_ingress r) (draft_upstream_dialect (target t))
  end.
Definition validate_configuration (endpoints : list ProviderEndpoint) (credentials : list ProviderCredential)
    (routes : list ModelRoute) : result () ConfigurationCapabilityError :=
  _ ⇐ try_map (fun e => validate_endpoint (ep_provider e) (ep_dialect e) (effective_upstream e)) endpoints;
  _ ⇐ try_map (fun c => match endpoint_get endpoints (pc_endpoint c) with
                        | None => Err (CapabilityMissingEndpoint (pc_endpoint c))
                        | Some e => validate_credential (ep_provider e) (pc_kind c)
                        end) credentials;
  _ ⇐ try_map (fun r => try_map (validate_target endpoints r) (route_targets r)) routes;
  Ok ().
End capabilities.

(** * Errors *)

Inductive PublishError :=
| PubShuttingDown
| PubRevisionConflict (expected actual : Z)
| PubRevisionOverflow
| PubUnexpectedCandidateRevision (expected actual : Z)
| PubProxyNotFound
| PubProxyProtected
| PubProxyInUse
| PubProxyReferenced
| PubProxyDisabled
| PubProxyNameConflict
| PubInvalidProxy (error : ProxyValidationError)
| PubInvalidProxyPassword (error : ProxyPasswordValidationError)
| PubEndpointNotFound
| PubEndpointVersionConflict
| PubEndpointNameConflict
| PubInvalidEndpoint (error : ProviderEndpointValidationError)
| PubInvalidCapability (error : ConfigurationCapabilityError)
| PubInvalidSnapshot (error : SnapshotCompileError)
| PubCredentialNotFound
| PubCredentialVersionConflict
| PubCredentialSecretVersionConflict
| PubCredentialLabelConflict
| PubInvalidCredential (error : ProviderCredentialValidationError)
| PubInvalidApiKey (error : ProviderApiKeyValidationError)
| PubAccountNotFound
| PubAccountVersionConflict
| PubAccountTokenVersionConflict
| PubAccountLabelConflict
| PubAccountIdentityConflict
| PubInvalidAccount (error : OAuthAccountValidationError)
| PubKeyNotFound
| PubKeyVersionConflict
| PubKeyTokenVersionConflict
| PubKeyNameConflict
| PubInvalidKey (error : GatewayApiKeyValidationError)
| PubInvalidModelRoute (error : ModelRouteValidationError)
| PubInvalidSetting (error : SettingsValidationError)
| PubInternal (error : StorageError).

(** [From<StorageError>] *)
Definition from_storage (e : StorageError) : PublishError :=
  match e with
  | StorageRevisionConflict expected actual => PubRevisionConflict expected actual
  | StorageRevisionOverflow => PubRevisionOverflow
  | StorageProxyNotFound _ => PubProxyNotFound
  | StorageProxyProtected => PubProxyProtected
  | StorageProxyInUse => PubProxyInUse
  | StorageProxyReferenced => PubProxyReferenced
  | StorageProxyDisabled => PubProxyDisabled
  | StorageProxyNameConflict => PubProxyNameConflict
  | StorageProxyValidation e => PubInvalidProxy e
  | StorageProxyPassword e => PubInvalidProxyPassword e
  | StorageEndpointNotFound _ => PubEndpointNotFound
  | StorageEndpointVersionConflict _ _ => PubEndpointVersionConflict
  | StorageEndpointNameConflict => PubEndpointNameConflict
  | StorageEndpointValidation e => PubInvalidEndpoint e
  | StorageCredentialNotFound _ => PubCredentialNotFound
  | StorageCredentialVersionConflict _ _ => PubCredentialVersionConflict
  | StorageCredentialSecretVersionConflict _ _ => PubCredentialSecretVersionConflict
  | StorageCredentialLabelConflict => PubCredentialLabelConflict
  | StorageCredentialValidation e => PubInvalidCredential e
  | StorageApiKey e => PubInvalidApiKey e
  | StorageAccountNotFound _ => PubAccountNotFound
  | StorageAccountVersionConflict _ _ => PubAccountVersionConflict
  | StorageAccountTokenVersionConflict _ _ => PubAccountTokenVersionConflict
  | StorageAccountLabelConflict => PubAccountLabelConflict
  | StorageAccountValidation e => PubInvalidAccount e
  | StorageKeyNotFound _ => PubKeyNotFound
  | StorageKeyVersionConflict _ _ => PubKeyVersionConflict
  | StorageKeyTokenVersionConflict _ _ => PubKeyTokenVersionConflict
  | StorageKeyNameConflict => PubKeyNameConflict
  | StorageKeyValidation e => PubInvalidKey e
  | StorageModelRouteValidation e => PubInvalidModelRoute e
  | StorageSettingsValidation e => PubInvalidSetting e
  | other => PubInternal other
  end.

(** * Snapshots *)

(** [ConfigurationCore]: a stored configuration without its secrets *)
Record ConfigurationCore {nets : IpNetLib} := {
  core_revision : Z;
  core_proxies : ProxyConfiguration;
  core_endpoints : list ProviderEndpoint;
  core_credentials : list ProviderCredential;
  core_accounts : list OAuthAccount;
  core_routes : list ModelRoute;
  core_keys : list GatewayApiKey;
  core_settings : SettingsConfiguration
}.
(** [into_parts], [from_parts] *)
Definition core_of {nets : IpNetLib} (c : StoredConfiguration) : ConfigurationCore :=
  {| core_revision := st_revision c; core_proxies := st_proxies c; core_endpoints := st_endpoints c;
     core_credentials := st_credentials c; core_accounts := st_accounts c; core_routes := st_routes c;
     core_keys := st_keys c; core_settings := st_settings c |}.

(** The secrets as storage hands them to the compiler *)
Definition secret_of (s : Tables.StoredProviderCredentialSecret) : Compile.StoredProviderCredentialSecret :=
  {| st_credential := cs_credential s; st_kind := cs_kind s; st_secret_version := cs_secret_version s;
     st_generation := cs_generation s; st_secret := cs_secret s |}.
Definition material_of (m : Tables.StoredOAuthAccountMaterial) : Compile.StoredOAuthAccountMaterial :=
  {| so_account := am_account m; so_provider := am_provider m; so_token_version := am_token_version m;
     so_generation := am_generation m; so_document := doc_bytes (am_document m) |}.
Definition password_of (p : Tables.StoredProxyPassword) : Compile.StoredProxyPassword :=
  {| Compile.sp_proxy := Tables.sp_proxy p;
     Compile.sp_authentication_version := Tables.sp_authentication_version p;
     Compile.sp_secret := Tables.sp_secret p |}.

(** [PreparedPublishedSnapshot] and [PublishedSnapshot], with the whole configuration *)
Record Prepared {nets : IpNetLib} := {
  pre_core : ConfigurationCore;
  pre_proxy_auth : gmap Z ProxyCredentials;
  pre_specs : list RoutingCredentialSpec
}.
Record Published {nets : IpNetLib} := {
  pub_core : ConfigurationCore;
  pub_proxy_auth : gmap Z ProxyCredentials;
  pub_snapshot : PublishedSnapshot
}.
Definition pub_revision {nets : IpNetLib} (s : Published) : Z := core_revision (pub_core s).

Section snapshots.
Context {uuid_lib : UuidLib} {codec : DocumentCodec} {nets : IpNetLib}.
Context (first : gset Z -> Z) (clock : RoutingCredentialId -> Z) (order : gset (Z * Z) -> list (Z * Z)).

(** [PreparedPublishedSnapshot::compile] *)
Definition compile (providers : ProviderRegistry) (c : StoredConfiguration)
    : result Prepared SnapshotCompileError :=
  r ⇐ compile_snapshot first (st_endpoints c) (st_proxies c) providers (st_credentials c) (st_accounts c)
        (password_of <$> st_proxy_passwords c) (secret_of <$> st_credential_secrets c)
        (material_of <$> st_account_materials c);
  Ok {| pre_core := core_of c; pre_proxy_auth := r.1; pre_specs := r.2 |}.

(** [bind], with the policies it reads from the settings *)
Definition bind (p : Prepared) (rt : RuntimeRegistry) : outcome (Published * RuntimeRegistry) :=
  let core := pre_core p in
  '(s, rt) ← bind_snapshot clock order
    {| pp_revision := core_revision core; pp_endpoints := core_endpoints core;
       pp_proxies := core_proxies core; pp_routes := core_routes core; pp_keys := core_keys core;
       pp_models := models (core_settings core);
       pp_fallback_on_rate_limit := fallback_on_rate_limit (scheduler (core_settings core));
       pp_affinity_enabled := affinity_enabled (affinity (core_settings core)); pp_specs := pre_specs p |} rt;
  Ret ({| pub_core := core; pub_proxy_auth := pre_proxy_auth p; pub_snapshot := s |}, rt).
End snapshots.

(** ** [SnapshotStore] *)

Inductive PublicationSource := Operator | AutomaticOAuthRefresh.

Record SnapshotStore {nets : IpNetLib} := {
  ss_current : Published;
  ss_revision : Z;
  ss_latest_operator : Z
}.
Definition store_new {nets : IpNetLib} (initial : Published) : SnapshotStore :=
  {| ss_current := initial; ss_revision := pub_revision initial; ss_latest_operator := pub_revision initial |}.
Definition can_rebase_after_automatic_publications {nets : IpNetLib} (s : SnapshotStore)
    (expected actual : Z) : bool :=
  (expected <? actual) && (ss_latest_operator s <=? expected) && (ss_latest_operator s <=? actual).
Definition replace {nets : IpNetLib} (s : SnapshotStore) (next : Published) (source : PublicationSource)
    : SnapshotStore :=
  {| ss_current := next; ss_revision := pub_revision next;
     ss_latest_operator := match source with
                           | Operator => pub_revision next
                           | AutomaticOAuthRefresh => ss_latest_operator s
                           end |}.

(** * Commands *)

Section commands.
Context {nets : IpNetLib} (protocols : ProtocolRegistry) (providers : ProviderRegistry).

(** [validate_rate_card_version], [validate_model_allowlist] *)
Definition validate_rate_card_version (current : Published) (key : SettingKey) (v : SettingValue)
    : result () PublishError :=
  match key, v with
  | OAuthCodexRateCard, CodexRateCardValue next =>
    let card := codex_rate_card (Settings.oauth (core_settings (pub_core current))) in
    if bool_decide (card_id next = card_id card) && negb (bool_decide (next = card))
    then Err (PubInvalidSetting InvalidCombination) else Ok ()
  | _, _ => Ok ()
  end.
Definition validate_model_allowlist (current : Published) (key : SettingKey) (v : SettingValue)
    : result () PublishError :=
  match key, v with
  | ModelsAllowed, ModelAccessValue (Allowlist l) =>
    if existsb (fun m => negb (bool_decide (m ∈ published_public_model_names (pub_snapshot current)))) l
    then Err (PubInvalidSetting InvalidListValue) else Ok ()
  | _, _ => Ok ()
  end.
(** [validate_setting_command] *)
Fixpoint validate_setting_changes (current : Published) (changes : list SettingOverrideChange)
    : result () PublishError :=
  match changes with
  | [] => Ok ()
  | SetOverride key v :: changes =>
    _ ⇐ validate_model_allowlist current key v;
    _ ⇐ validate_rate_card_version current key v;
    validate_setting_changes current changes
  | ResetOverride _ :: changes => validate_setting_changes current changes
  end.

(** [ProviderEndpointDraft::effective_upstream_protocol_dialect] *)
Definition draft_effective_upstream (d : ProviderEndpointDraft) : ProtocolDialect :=
  default (ed_dialect d) (ed_upstream d).

(** [validate_command] *)
Definition validate_command (current : Published) (command : ConfigurationMutation) : result () PublishError :=
  _ ⇐ match command with
      | ApplySettingChanges changes => validate_setting_changes current changes
      | _ => Ok ()
      end;
  let core := pub_core current in
  match command with
  | CreateProviderEndpoint _ d | UpdateProviderEndpoint _ _ d =>
    map_err PubInvalidCapability
      (validate_endpoint protocols providers (ed_provider d) (ed_dialect d) (draft_effective_upstream d))
  | CreateProviderCredential _ endpoint d _ =>
    match endpoint_get (core_endpoints core) endpoint with
    | None => Err PubEndpointNotFound
    | Some e => map_err PubInvalidCapability (validate_credential providers (ep_provider e) (cd_kind d))
    end
  | UpdateProviderCredential id _ d =>
    match credential_get (core_credentials core) id with
    | None => Err PubCredentialNotFound
    | Some c =>
      match endpoint_get (core_endpoints core) (pc_endpoint c) with
      | None => Err PubEndpointNotFound
      | Some e => map_err PubInvalidCapability (validate_credential providers (ep_provider e) (cd_kind d))
      end
    end
  | SetOAuthAccountModels id _ _ =>
    match account_get (core_accounts core) id with None => Err PubAccountNotFound | Some _ => Ok () end
  | _ => Ok ()
  end.
End commands.

(** * The publisher *)

Record World {nets : IpNetLib} := {
  w_database : Database;
  w_snapshots : SnapshotStore;
  w_runtime : RuntimeRegistry;
  (** what the reconciler of the publisher, if it has one, was told *)
  w_reconciled : list Published
}.
Definition set_database {nets : IpNetLib} (w : World) (db : Database) : World :=
  {| w_database := db; w_snapshots := w_snapshots w; w_runtime := w_runtime w;
     w_reconciled := w_reconciled w |}.

(** What a publication finds outside: the time SQLite reads, the statements it
    refuses and what it answers to the commit; the clock when expiries are looked
    at, and the orders sets are iterated in *)
Record Environment := {
  env_now : string;
  env_refusals : list bool;
  env_commit : CommitAnswer;
  env_clock : RoutingCredentialId -> Z;
  env_first : gset Z -> Z;
  env_order : gset (Z * Z) -> list (Z * Z)
}.

(** [publish_route_admissions], [advance_scheduler_epoch] *)
Definition publish_route_admissions (s : PublishedSnapshot) (rt : RuntimeRegistry) : RuntimeRegistry :=
  {| rr_credentials := rr_credentials rt;
     rr_admissions := Admission.publish_current (omap rc_admission (view_credentials (sn_view s))) (rr_admissions rt);
     rr_rates := rr_rates rt; rr_cursors := rr_cursors rt; rr_health := rr_health rt; rr_store := rr_store rt |}.
Definition advance_scheduler_epoch (rt : RuntimeRegistry) : outcome RuntimeRegistry :=
  e ← advance (epoch (rr_store rt));
  Ret {| rr_credentials := rr_credentials rt; rr_admissions := rr_admissions rt; rr_rates := rr_rates rt;
         rr_cursors := rr_cursors rt; rr_health := rr_health rt;
         rr_store := {| Attempt.endpoints := Attempt.endpoints (rr_store rt);
                        Attempt.proxies := Attempt.proxies (rr_store rt);
                        authentications := authentications (rr_store rt); routings := routings (rr_store rt);
                        epoch := e |} |}.

(** [ConfigRevision::checked_next] *)
Definition checked_next (r : Z) : result Z () := if r + 1 <=? u64_max then Ok (r + 1) else Err ().

Section publisher.
Context (to_lowercase : string -> string) (sha256 : bytes -> bytes).
Context (route_ids : ProtocolDialect -> string -> Z) (target_ids : Z -> Z -> ProtocolDialect -> string -> Z).
Context (access_token_of : bytes -> option (option string)) (host_parse : string -> option string).
Context {url_lib : UrlLib} {json : JsonLib} {nets : IpNetLib} {uuid_lib : UuidLib} {codec : DocumentCodec}.
Context (json_print : Value -> option string) (json_read : string -> option Value).
Context (protocols : ProtocolRegistry) (providers : ProviderRegistry) (has_reconciler : bool).

#[local] Abbreviation transact' := (transact to_lowercase sha256 route_ids target_ids access_token_of host_parse
  json_print json_read).

Definition compile_candidate (first : gset Z -> Z) (expected : Z) (c : StoredConfiguration) : result Prepared PublishError :=
  match checked_next expected with
  | Err _ => Err PubRevisionOverflow
  | Ok next =>
    if negb (st_revision c =? next) then Err (PubUnexpectedCandidateRevision next (st_revision c))
    else
      _ ⇐ map_err PubInvalidCapability
            (validate_configuration protocols providers (st_endpoints c) (st_credentials c) (st_routes c));
      map_err PubInvalidSnapshot (compile first providers c)
  end.

(** [publish_mutation_serialized_with_source]; the process does not survive a
    commit whose outcome is not known. *)
Definition publish_mutation (env : Environment) (current : Published) (expected : Z)
    (m : ConfigurationMutation) (source : PublicationSource) (w : World)
    : outcome (result (Published * bool) PublishError * World) :=
  '(answer, db) ← transact' (env_now env) expected m (compile_candidate (env_first env) expected) (env_commit env)
                    {| database := w_database w; refusals := env_refusals env |};
  match answer with
  | Err IndeterminateConfigurationCommit => Panic
  | Err e => Ret (Err (from_storage e), set_database w db)
  | Ok (NoChange _ _) => Ret (Ok (current, false), set_database w db)
  | Ok (Rejected _ _ e) => Ret (Err e, set_database w db)
  | Ok (Committed _ _ prepared) =>
    '(s, rt) ← bind (env_clock env) (env_order env) prepared (w_runtime w);
    let store := replace (w_snapshots w) s source in
    let rt := publish_route_admissions (pub_snapshot s) rt in
    rt ← advance_scheduler_epoch rt;
    Ret (Ok (s, true),
         {| w_database := db; w_snapshots := store; w_runtime := rt;
            w_reconciled := if has_reconciler then w_reconciled w ++ [s] else w_reconciled w |})
  end.

(** [publish_serialized] *)
Definition publish (env : Environment) (expected : Z) (command : ConfigurationMutation) (w : World)
    : outcome (result Published PublishError * World) :=
  let current := ss_current (w_snapshots w) in
  let actual := pub_revision current in
  let at_revision (revision : Z) :=
    match validate_command protocols providers current command with
    | Err e => Ret (Err e, w)
    | Ok _ =>
      '(r, w) ← publish_mutation env current revision command Operator w;
      Ret (match r with Ok (s, _) => Ok s | Err e => Err e end, w)
    end in
  if actual =? expected then at_revision expected
  else if can_rebase_after_automatic_publications (w_snapshots w) expected actual then at_revision actual
  else Ret (Err (PubRevisionConflict expected actual), w).

(** [publish_current_serialized] *)
Definition publish_at_current (env : Environment) (source : PublicationSource) (command : ConfigurationMutation)
    (w : World) : outcome (result Published PublishError * World) :=
  let current := ss_current (w_snapshots w) in
  match validate_command protocols providers current command with
  | Err e => Ret (Err e, w)
  | Ok _ =>
    '(r, w) ← publish_mutation env current (pub_revision current) command source w;
    Ret (match r with Ok (s, _) => Ok s | Err e => Err e end, w)
  end.

(** [refresh_oauth_accounts_serialized] *)
Definition refresh_oauth_accounts (env : Environment) (refreshes : list OAuthAccountRefresh) (w : World)
    : outcome (result (Published * bool) PublishError * World) :=
  let current := ss_current (w_snapshots w) in
  publish_mutation env current (pub_revision current) (RefreshOAuthAccounts refreshes) AutomaticOAuthRefresh w.

(** * What is published is what is stored *)

#[local] Abbreviation load' := (load_configuration to_lowercase sha256 access_token_of host_parse json_read).

(** [s] is what the stored configuration [c] compiles to, bound to some runtime. *)
Definition published_from (c : StoredConfiguration) (s : Published) : Prop :=
  validate_configuration protocols providers (st_endpoints c) (st_credentials c) (st_routes c) = Ok () /\
  exists first clock order prepared rt rt',
    compile first providers c = Ok prepared /\ bind clock order prepared rt = Ret (s, rt').

(** A load of the database gives the configuration the snapshot was compiled from,
    with the keys perhaps used since. *)
Record coherent (w : World) : Prop := {
  co_stored : exists c c', reads load' (w_database w) c' /\ used_since c c' /\
                published_from c (ss_current (w_snapshots w));
  co_announced : ss_revision (w_snapshots w) = pub_revision (ss_current (w_snapshots w));
  co_operator : ss_latest_operator (w_snapshots w) <= pub_revision (ss_current (w_snapshots w))
}.

Lemma compile_core first c p : compile first providers c = Ok p -> pre_core p = core_of c.
Proof. unfold compile. destruct (compile_snapshot _ _ _ _ _ _ _ _ _); [|done]. by intros [= <-]. Qed.
Lemma bind_core clock order p rt s rt' : bind clock order p rt = Ret (s, rt') -> pub_core s = pre_core p.
Proof. unfold bind. intros H. destruct (bind_snapshot _ _ _ _) as [[]|]; [|done]. by simplify_eq/=. Qed.
Lemma published_core c s : published_from c s -> pub_core s = core_of c.
Proof. intros (_ & ? & ? & ? & ? & ? & ? & Hc & Hb). by rewrite (bind_core _ _ _ _ _ _ Hb), (compile_core _ _ _ Hc). Qed.
Lemma set_same_database (w : World) : set_database w (w_database w) = w.
Proof. by destruct w. Qed.

(** A publication leaves everything as it was, or the store has the next revision. *)
Lemma publish_mutation_atomic env m source w r w' : coherent w ->
  publish_mutation env (ss_current (w_snapshots w)) (pub_revision (ss_current (w_snapshots w))) m source w = Ret (r, w') ->
  (w' = w /\ match r with Ok (s, changed) => s = ss_current (w_snapshots w) /\ changed = false | Err _ => True end) \/
  (exists s, r = Ok (s, true) /\ coherent w' /\ w_snapshots w' = replace (w_snapshots w) s source /\
     pub_revision s = pub_revision (ss_current (w_snapshots w)) + 1).
Proof.
  intros [(c0 & c & Hl & _) Ha Ho]. unfold publish_mutation. set (actual := pub_revision _).
  destruct (transact _ _ _ _ _ _ _ _ _ _ _ _ _ _) as [[answer db]|] eqn:E1; [|done]. simpl.
  apply (transact_stores _ _ _ _ _ _ _ _ _ _ _ _ _ _ c) in E1; [|exact Hl]. simpl in E1.
  destruct answer as [[|prepared|rejected]|e]; intros H.
  - subst db. simplify_eq. left. by rewrite set_same_database.
  - destruct E1 as (next & Hn & Hl'). right. destruct (bind _ _ _ _) as [[s rt]|] eqn:Eb; [|done]. simpl in H.
    destruct (advance_scheduler_epoch _) as [rt'|] eqn:Ee; [|done]. simplify_eq/=. exists s. split; [done|].
    unfold compile_candidate, checked_next in Hn. destruct (Z.leb_spec (actual + 1) u64_max); [|done].
    destruct (Z.eqb_spec (st_revision next) (actual + 1)) as [Er|]; [|done]. simpl in Hn.
    destruct (validate_configuration _ _ _ _ _) as [[]|] eqn:Ev; [|done]. simpl in Hn.
    destruct (compile _ _ _) as [p|] eqn:Ec; [|done]. simplify_eq/=.
    assert (pub_revision s = actual + 1) as Es.
    { unfold pub_revision. by rewrite (bind_core _ _ _ _ _ _ Eb), (compile_core _ _ _ Ec). }
    split_and!; [|done|done]. constructor; simpl; [|done|destruct source; lia].
    exists next, next. split; [done|]. split; [reflexivity|]. split; [done|]. by repeat eexists.
  - subst db. simplify_eq. left. by rewrite set_same_database.
  - left. destruct e; simplify_eq; by rewrite ?set_same_database.
Qed.

(** ** Sequences of publications *)

#[local] Abbreviation current_of w := (ss_current (w_snapshots w)).
#[local] Abbreviation revision_of w := (pub_revision (ss_current (w_snapshots w))).

(** One publication, with whom it is ascribed to.  Activations of OAuth accounts
    build their mutation from the current snapshot and publish it as an operator. *)
Inductive publication (w : World) : PublicationSource -> World -> Prop :=
| publication_command env expected command r w' :
    publish env expected command w = Ret (r, w') -> publication w Operator w'
| publication_at_current env source command r w' :
    publish_at_current env source command w = Ret (r, w') -> publication w source w'
| publication_activation env m r w' :
    publish_mutation env (current_of w) (revision_of w) m Operator w = Ret (r, w') -> publication w Operator w'
| publication_refresh env refreshes r w' :
    refresh_oauth_accounts env refreshes w = Ret (r, w') -> publication w AutomaticOAuthRefresh w'.

(** Publications and the transactions of the telemetry worker, in any order: the
    revisions that were published since [w0], with their sources *)
Inductive reaches (w0 : World) : list (Z * PublicationSource) -> World -> Prop :=
| reaches_start : reaches w0 [] w0
| reaches_used h w updates refused commit answer db : reaches w0 h w -> Forall update_ok updates ->
    touch_gateway_api_key_last_used updates commit {| database := w_database w; refusals := refused |}
      = Ret (answer, db) ->
    reaches w0 h (set_database w db)
| reaches_next h w source w' : reaches w0 h w -> publication w source w' ->
    reaches w0 (if revision_of w' =? revision_of w then h else h ++ [(revision_of w', source)]) w'.

Lemma at_current_atomic env source command w r w' : coherent w ->
  publish_at_current env source command w = Ret (r, w') ->
  (w' = w /\ match r with Ok s => s = current_of w | Err _ => True end) \/
  (exists s, r = Ok s /\ coherent w' /\ w_snapshots w' = replace (w_snapshots w) s source /\
     pub_revision s = revision_of w + 1).
Proof.
  intros Hw. unfold publish_at_current. destruct (validate_command _ _ _ _); [|intros [= <- <-]; by left].
  destruct (publish_mutation _ _ _ _ _ _) as [[r1 w1]|] eqn:E1; [|done]. intros [= <- <-].
  apply publish_mutation_atomic in E1 as [[-> H]|(s & -> & H)]; [left|right; by exists s|done].
  split; [done|]. destruct r1 as [[]|]; naive_solver.
Qed.
Lemma publish_at env expected command w :
  publish env expected command w =
  if (revision_of w =? expected) || can_rebase_after_automatic_publications (w_snapshots w) expected (revision_of w)
  then publish_at_current env Operator command w
  else Ret (Err (PubRevisionConflict expected (revision_of w)), w).
Proof.
  unfold publish, publish_at_current. destruct (Z.eqb_spec (revision_of w) expected) as [<-|]; simpl; [done|].
  by destruct (can_rebase_after_automatic_publications _ _ _).
Qed.

Lemma publication_atomic w source w' : coherent w -> publication w source w' ->
  w' = w \/ (coherent w' /\ revision_of w' = revision_of w + 1 /\
            ss_latest_operator (w_snapshots w') =
              match source with Operator => revision_of w' | AutomaticOAuthRefresh => ss_latest_operator (w_snapshots w) end).
Proof.
  assert (forall s w' source, w_snapshots w' = replace (w_snapshots w) s source -> pub_revision s = revision_of w + 1 ->
    revision_of w' = revision_of w + 1 /\ ss_latest_operator (w_snapshots w') =
      match source with Operator => revision_of w' | AutomaticOAuthRefresh => ss_latest_operator (w_snapshots w) end)
    as Hnext. { intros s w2 src -> Hr. simpl. by rewrite Hr. }
  intros Hw [env expected command r w1 H|env src command r w1 H|env m r w1 H|env refreshes r w1 H].
  - rewrite publish_at in H. destruct (_ || _); [|simplify_eq; by left].
    apply at_current_atomic in H as [[-> _]|(s & _ & Hc & Hs & Hr)]; [by left| |done]. right. split; [done|]. exact (Hnext s _ _ Hs Hr).
  - apply at_current_atomic in H as [[-> _]|(s & _ & Hc & Hs & Hr)]; [by left| |done]. right. split; [done|]. exact (Hnext s _ _ Hs Hr).
  - apply publish_mutation_atomic in H as [[-> _]|(s & _ & Hc & Hs & Hr)]; [by left| |done]. right. split; [done|]. exact (Hnext s _ _ Hs Hr).
  - apply publish_mutation_atomic in H as [[-> _]|(s & _ & Hc & Hs & Hr)]; [by left| |done]. right. split; [done|]. exact (Hnext s _ _ Hs Hr).
Qed.

Lemma used_coherent w updates refused commit answer db : coherent w -> Forall update_ok updates ->
  touch_gateway_api_key_last_used updates commit {| database := w_database w; refusals := refused |}
    = Ret (answer, db) -> coherent (set_database w db).
Proof.
  intros [(c & c1 & Hl & Hu & Hp) Ha Ho] Hok H.
  eapply usage_keeps_configuration in H as (c2 & H2 & Hu2); [|done|exact Hl].
  constructor; [|done|done]. exists c, c2. split_and!; [done|by etransitivity|done].
Qed.

(** The state of a process that has started: what it loaded, compiled and bound. *)
Lemma start_coherent c db first clock order prepared rt s rt' told :
  reads load' db c ->
  validate_configuration protocols providers (st_endpoints c) (st_credentials c) (st_routes c) = Ok () ->
  compile first providers c = Ok prepared -> bind clock order prepared rt = Ret (s, rt') ->
  coherent {| w_database := db; w_snapshots := store_new s; w_runtime := rt'; w_reconciled := told |}.
Proof.
  intros Hl Hv Hc Hb. constructor; simpl; [|done|lia]. exists c, c. split_and!; [done|reflexivity|].
  split; [done|]. by repeat eexists.
Qed.

Lemma reaches_coherent w0 h w : coherent w0 -> reaches w0 h w -> coherent w.
Proof.
  intros Hw. induction 1 as [|h w ? ? ? ? ? _ IH Hok H|h w source w' _ IH H]; [done|by eapply used_coherent|].
  by destruct (publication_atomic _ _ _ IH H) as [->|[? _]].
Qed.

(** What operators published: the store knows the last of it. *)
Lemma reaches_operator w0 h w : coherent w0 -> w_snapshots w0 = store_new (current_of w0) -> reaches w0 h w ->
  revision_of w0 <= ss_latest_operator (w_snapshots w) /\
  Forall (fun e => e.2 = Operator -> e.1 <= ss_latest_operator (w_snapshots w)) h /\
  (ss_latest_operator (w_snapshots w) = revision_of w0 \/
   (ss_latest_operator (w_snapshots w), Operator) ∈ h).
Proof.
  intros Hw Hn. induction 1 as [|h w ? ? ? ? ? _ IH _ _|h w source w' Hr IH H].
  { rewrite Hn. simpl. split_and!; [lia|constructor|by left]. }
  { exact IH. }
  pose proof (reaches_coherent _ _ _ Hw Hr) as Hc. destruct IH as (H1 & H2 & H3).
  destruct (publication_atomic _ _ _ Hc H) as [->|(Hc' & Hrev & Hop)]; [by rewrite Z.eqb_refl|].
  destruct (Z.eqb_spec (revision_of w') (revision_of w)); [lia|]. pose proof (co_operator _ Hc) as Hle.
  rewrite Forall_app, Forall_singleton, Hop. destruct source; simpl.
  - split_and!; [lia| |done|right; apply elem_of_app; right; by apply list_elem_of_singleton].
    eapply Forall_impl; [exact H2|]. intros e He Hs. specialize (He Hs). lia.
  - split_and!; [done..| |]; [done|]. destruct H3 as [?|?]; [by left|right; apply elem_of_app; by left].
Qed.

(** C10. From the state of a started process, whose snapshot was compiled from what a
    load of the database gives, and after any sequence of publications, by operators,
    by activations of OAuth accounts and by automatic refreshes, and of the telemetry
    worker's transactions between them, whatever the database refused or rejected on
    the way: the published snapshot is compiled from exactly the configuration that a
    load of the database gives, but for the instants at which gateway keys were last
    used, which the database may have later; its revision is the one the watchers were
    told; and the next publication either changes nothing at all or publishes the next
    revision. *)
Theorem published_is_stored w0 h w : coherent w0 -> reaches w0 h w ->
  (exists c c', reads load' (w_database w) c' /\ used_since c c' /\ pub_core (current_of w) = core_of c /\
             published_from c (current_of w)) /\
  ss_revision (w_snapshots w) = revision_of w /\
  forall source w', publication w source w' -> w' = w \/ revision_of w' = revision_of w + 1.
Proof.
  intros H0 Hr. pose proof (reaches_coherent _ _ _ H0 Hr) as Hw. split_and!.
  - destruct (co_stored _ Hw) as (c & c' & Hl & Hu & Hp). exists c, c'. split_and!; [done|done|by apply published_core|done].
  - apply (co_announced _ Hw).
  - intros source w' H. destruct (publication_atomic _ _ _ Hw H) as [->|(_ & ? & _)]; [by left|by right].
Qed.

(** C11. Optimistic locking of operators.  A command that was prepared against revision
    [expected] is carried out on the current configuration exactly when nothing was
    published since, or only automatic refreshes of OAuth tokens were; if another
    operator published after [expected], or the revision never was, it is refused with
    the actual revision and nothing changes. *)
Theorem operator_changes_kept w0 h w env expected command :
  coherent w0 -> w_snapshots w0 = store_new (current_of w0) -> reaches w0 h w ->
  let unseen := expected = revision_of w \/
    (revision_of w0 <= expected < revision_of w /\ Forall (fun e => e.2 = Operator -> e.1 <= expected) h) in
  (unseen -> publish env expected command w = publish_at_current env Operator command w) /\
  (~ unseen -> publish env expected command w = Ret (Err (PubRevisionConflict expected (revision_of w)), w)).
Proof.
  intros H0 Hn Hr unseen. destruct (reaches_operator _ _ _ H0 Hn Hr) as (H1 & H2 & H3).
  pose proof (co_operator _ (reaches_coherent _ _ _ H0 Hr)) as Hle. rewrite publish_at.
  assert ((revision_of w =? expected) ||
    can_rebase_after_automatic_publications (w_snapshots w) expected (revision_of w) = true <-> unseen) as Hiff.
  { unfold can_rebase_after_automatic_publications, unseen.
    rewrite orb_true_iff, !andb_true_iff, Z.eqb_eq, Z.ltb_lt, !Z.leb_le. split.
    - intros [E1|[[E1 E2] _]]; [by left|right]. split; [lia|]. eapply Forall_impl; [exact H2|].
      intros e He Hs. specialize (He Hs). lia.
    - intros [E1|[E1 E2]]; [by left|right]. split; [|done]. split; [lia|]. destruct H3 as [->|H3]; [lia|].
      rewrite Forall_forall in E2. exact (E2 _ H3 eq_refl). }
  destruct (_ || _); split; intros H; try done; [by destruct (H (proj1 Hiff eq_refl))|by apply Hiff in H].
Qed.
End publisher.

(** * A publication *)

Definition sample_published (c : StoredConfiguration (nets := sample_nets))
    : option (Published (nets := sample_nets) * RuntimeRegistry) :=
  match compile (uuid_lib := sample_uuid) (codec := sample_codec) (fun _ => 0) sample_providers c with
  | Ok p =>
    match bind (uuid_lib := sample_uuid) (fun _ => 0) elements p planning_runtime with
    | Ret r => Some r
    | Panic => None
    end
  | Err _ => None
  end.
(** The state after the start, and what its first publications find outside *)
Definition sample_world : option (World (nets := sample_nets)) :=
  '(s, rt) ← sample_published sample_current;
  Some {| w_database := sample_database; w_snapshots := store_new s; w_runtime := rt; w_reconciled := [] |}.
Definition sample_environment : Environment :=
  {| env_now := "now"; env_refusals := []; env_commit := CommitDone; env_clock := fun _ => 0;
     env_first := fun _ => 0; env_order := elements |}.
Definition sample_publish := publish (url_lib := sample_urls) (json := sample_json) (nets := sample_nets)
  (uuid_lib := sample_uuid) (codec := sample_codec) id sample_hash (fun _ _ => 0) (fun _ _ _ _ => 0)
  (fun _ => Some None) Some sample_print sample_read planning_protocols sample_providers true.
Definition sample_after := w ← sample_world;
  match sample_publish sample_environment 1 sample_change w with Ret (Ok s, w') => Some (w, s, w') | _ => None end.

#[local] Abbreviation sample_coherent := (coherent (url_lib := sample_urls) (json := sample_json) (nets := sample_nets)
  (uuid_lib := sample_uuid) (codec := sample_codec) id sample_hash (fun _ => Some None) Some sample_read
  planning_protocols sample_providers).
#[local] Abbreviation sample_reaches := (reaches (url_lib := sample_urls) (json := sample_json) (nets := sample_nets)
  (uuid_lib := sample_uuid) (codec := sample_codec) id sample_hash (fun _ _ => 0) (fun _ _ _ _ => 0)
  (fun _ => Some None) Some sample_print sample_read planning_protocols sample_providers true).

Lemma sample_world_coherent w : sample_world = Some w ->
  sample_coherent w /\ w_snapshots w = store_new (ss_current (w_snapshots w)).
Proof.
  unfold sample_world, sample_published. intros H.
  destruct (compile (fun _ => 0) sample_providers sample_current) as [p|] eqn:Ec; [|done].
  destruct (bind (fun _ => 0) elements p planning_runtime) as [[s rt]|] eqn:Eb; [|done]. simplify_eq/=.
  split; [|done]. eapply (start_coherent _ _ _ _ _ _ _ sample_current); [| |exact Ec|exact Eb]; vm_compute; reflexivity.
Qed.
Lemma sample_world_moves : exists w s w', sample_world = Some w /\
  sample_publish sample_environment 1 sample_change w = Ret (Ok s, w') /\
  pub_revision (ss_current (w_snapshots w)) = 1 /\ pub_revision (ss_current (w_snapshots w')) = 2.
Proof.
  assert (H : (x ← sample_after; Some (pub_revision (ss_current (w_snapshots x.1.1)),
                                       pub_revision (ss_current (w_snapshots x.2)))) = Some (1, 2))
    by (vm_compute; reflexivity).
  destruct sample_after as [[[w s] w']|] eqn:E; [|discriminate].
  exists w, s, w'. unfold sample_after in E. destruct sample_world as [w0|] eqn:Ew; [|done]. simpl in E, H.
  destruct (sample_publish _ _ _ _) as [[[s0|] w1]|] eqn:Ep; [|done|done]. by simplify_eq.
Qed.

Definition sample_use : GatewayApiKeyLastUsedUpdate := {| lu_id := 1; lu_last_used_at := "2024-01-01 00:00:00" |}.

(** One publication, then a use of a key that is stored *)
Lemma published_is_stored_witness : exists w0 w db, sample_coherent w0 /\
  sample_reaches w0 [(2, Operator)] (set_database w db) /\
  exists c c', reads sample_load db c' /\ used_since c c' /\
    pub_core (ss_current (w_snapshots w)) = core_of c /\ core_revision (core_of c) = 2.
Proof.
  destruct sample_world_moves as (w0 & s & w & Hw & Hp & H1 & H2). destruct (sample_world_coherent _ Hw) as [Hc _].
  assert (Hr : sample_reaches w0 [(2, Operator)] w).
  { pose proof (reaches_next _ _ _ _ _ _ _ _ _ _ _ w0 [] w0 Operator w (reaches_start _ _ _ _ _ _ _ _ _ _ _ w0)
      (publication_command _ _ _ _ _ _ _ _ _ _ _ w0 _ _ _ _ _ Hp)) as H. rewrite H1, H2 in H. exact H. }
  assert (exists db, touch_gateway_api_key_last_used [sample_use] CommitDone
    {| database := w_database w; refusals := [] |} = Ret (Ok (), db)) as [db Hdb] by (eexists; reflexivity).
  assert (Hu : sample_reaches w0 [(2, Operator)] (set_database w db)).
  { eapply reaches_used; [exact Hr| |exact Hdb]. constructor; [vm_compute; reflexivity|constructor]. }
  exists w0, w, db. refine (conj Hc (conj Hu _)).
  destruct (published_is_stored _ _ _ _ _ _ _ _ _ _ _ w0 _ _ Hc Hu) as ((c & c' & Hl & Hs & Hcore & _) & _).
  exists c, c'. refine (conj Hl (conj Hs (conj Hcore _))). rewrite <- Hcore. exact H2.
Defined.

(** The same change once more, prepared against the first revision, is refused. *)
Lemma operator_changes_kept_witness : exists w0 w, sample_coherent w0 /\ sample_reaches w0 [(2, Operator)] w /\
  sample_publish sample_environment 1 sample_change w = Ret (Err (PubRevisionConflict 1 2), w).
Proof.
  destruct sample_world_moves as (w0 & s & w & Hw & Hp & H1 & H2). destruct (sample_world_coherent _ Hw) as [Hc Hn].
  assert (Hr : sample_reaches w0 [(2, Operator)] w).
  { pose proof (reaches_next _ _ _ _ _ _ _ _ _ _ _ w0 [] w0 Operator w (reaches_start _ _ _ _ _ _ _ _ _ _ _ w0)
      (publication_command _ _ _ _ _ _ _ _ _ _ _ w0 _ _ _ _ _ Hp)) as H. rewrite H1, H2 in H. exact H. }
  exists w0, w. refine (conj Hc (conj Hr _)).
  destruct (operator_changes_kept _ _ _ _ _ _ _ _ _ _ _ w0 _ w sample_environment 1 sample_change Hc Hn Hr) as [_ H].
  rewrite H2 in H. apply H. intros [E|[_ E]]; [discriminate|]. rewrite Forall_singleton in E.
  specialize (E eq_refl). simpl in E. lia.
Defined.
